(* ===== verification/_CoqProject ===== *)
-Q . S2P
Prelude.v
Golib.v
Proto.v
Reduce.v
ReduceProps.v
ReduceMerge.v
Compress.v
Store.v
Walk.v
ForkChoice.v
Horizon.v
HorizonProps.v
CausalIndex.v
CausalProps.v
Predicate.v
Txn.v
TxnProps.v
TxnWitness.v
Dag.v
DagProps.v
DagOrder.v
DagWitness.v
Cuckoo.v
CuckooProps.v
Bloom.v
KeyFilter.v
FilterWitness.v
Losers.v
LosersProps.v
Closure.v
ClosureProps.v
Reconstruct.v
ReconstructProps.v
ReconstructWait.v
ReconstructWitness.v
TipSet.v
Critbit.v
CritbitProps.v
CritbitRefine.v
CritbitOrder.v
CritbitWitness.v
Glob.v
Safety.v
Stn.v
StnExact.v
Clocks.v
Durability.v
DurLayout.v
DurOpen.v
DurSteps.v
DurTime.v
DurProps.v
DurMain.v
DurWitness.v
Mvcc.v
MvccWitness.v
Frontier.v
Wire.v
WireProps.v
WireWitness.v
Health.v
Pool.v
PoolProps.v
Restore.v
RestoreProps.v
RestoreWitness.v
Engine.v
Ingest.v
Replicate.v
IngestProps.v
IngestHistory.v
ReplicateProps.v
Compete.v
CompeteProps.v
Subscribe.v
Context.v
ContextProps.v
Commit.v
CommitProps.v
EngineWitness.v
