(* ===== verification/Prelude.v ===== *)
(** * A verification library for the swytchdb engine

    The engine (src/effects) is a replicated key-value store whose state is a
    directed acyclic graph of immutable effects.  Each key has a frontier of
    tips; a value is the reduction, in causal order, of the effects its tips
    reach.  Writers collect effects in a context and flush them; a transaction
    is committed by a bind, an effect that names the last effects it made on
    all its keys; concurrent binds on a shared base are told apart by a hash,
    the same way on every node.  This library models the parts of the program
    that decide what a read returns and what a commit means, and proves that
    they do.

    ** Parts, and where they are

    - Values.  [Proto]: the messages of cluster/proto.  [Reduce]: reduce.go.
      [ReduceProps], [ReduceMerge]: reducing a chain in pieces is reducing it
      whole; commuting runs may be reordered; counters add up at their width.
      [Compress]: valuecompress.go, transparent to readers.
    - History.  [Store]: effects by reference and their dependencies on a key.
      [Walk]: the worklists the code writes out again and again, with their
      fuel.  [Dag]: dag.go.  [DagProps], [DagOrder]: a walk visits everything
      above the common snapshot, in an order that respects causality and is the
      same on every replica.
    - Conflicts.  [ForkChoice]: fork_choice.go with its SHA-256.  [Predicate]:
      predicate.go.  [CausalIndex]: causal_index.go, exact for reachability.
      [Txn]: txn.go, the check of a commit against a refusing peer.  [Losers]:
      losersOnKeyAt of snapshot.go, equal to the naive definition.  [Closure]:
      bindKeyClosure and the transactions lost atomically over all their keys.
      [Horizon]: horizon.go, binds that are not visible yet, in groups that
      become visible together.
    - Reads.  [Reconstruct]: reconstruct, collectBindEffects and the visibility
      rules of snapshot.go.  A read replays exactly the honoured effects, and a
      read that waits for the horizon returns.  [Mvcc]: transaction_snapshot.go
      and historical.go, the causal cut a transaction reads.
    - The index.  [TipSet], [Critbit]: package keytrie; the trie refines a map
      from keys to tip sets ([CritbitRefine]) with ordered scans
      ([CritbitOrder]).  [Frontier]: the compare-and-swap loops of updateIndex
      and installTips, interleaved between writers and linearizable.
    - The engine.  [Engine]: its state and bookkeeping.  [Ingest]: HandleRemote,
      handleBackfill, HandleNack of effect.go; an arrival changes exactly the
      frontiers it should ([IngestProps]), no effect the index reaches is ever
      lost and a sender is told exactly when it diverges ([IngestHistory]).
      [Subscribe]: ensureSubscribed and the bootstrap.
      [Compete]: the walks of a committing node.  [Context]: contexts,
      savepoints, Emit and the plain Flush of context.go.  [Commit]: flushTx and
      the watches; a commit has the consent of everyone it must ask, and replaces
      on every key what it consumed ([CommitProps]).
    - The mirror on disk.  [Durability]: package durability, the files byte by
      byte, and the steps of one file over time with writers, syncs, restarts and
      power failures.  [DurLayout]: images and the table of contents; [DurOpen]:
      who owns which bytes, and opening; [DurSteps]: every step keeps the layout;
      [DurTime], [DurProps]: the past that a crash can bring back; [DurMain]: the
      file refines a map of records, what a power failure can lose, and that a
      put ends.
    - Residency.  [Pool]: vertexpool.go, the cached subdags that hold references,
      the release of evicted keys and the rounds of the governor; whatever
      interleaves, what is held stays resident and what is freed nobody needed
      ([PoolProps]).  [Restore]: durability.go of the engine; a restart brings
      back what keys owned, with exact frontiers ([RestoreProps]).
    - The cluster.  [Health]: clock_stats.go, peer_health.go and heartbeat.go of
      package cluster; the failure detector keeps exactly the peers heard from
      in time, the skew it estimates is within half a round trip of the true
      one, and at most one side of a partition holds the majority.
      [Replicate]: replication.go and replication_request.go, the goroutines
      that replicate an effect, interleaved with responses, the sweep and the
      shutdown; every request is claimed once, a future says what happened to
      its requests, an answer arrives as the peer gave it, and no caller waits
      for ever ([ReplicateProps]).
    - Around it.  [Cuckoo], [Bloom]: the key filters, without false negatives;
      [KeyFilter]: keyfilter.go, where a denial is authoritative.
      [Wire]: framing and datagrams, with their round trips.  [Stn], [Clocks]:
      package stn, a simple temporal network that keeps exactly the feasible
      times, and the clock evidence built on it.  [Glob], [Safety]: patterns,
      scans and the safety mode of a key.

    [X.v] models, [XProps.v] and its like prove, [XWitness.v] runs the theorems
    on small concrete inputs.  [Prelude] and [Golib] hold what all of them use:
    bytes, machine integers with their wrap-around, floats, sorting, ranging
    over a map, and the generic lemmas.

    ** How the code is read

    Go structs are records and pure functions functions.  A method that changes
    the engine takes it and returns it; what it sends or calls back is appended
    to a list of outputs.  Errors are sums or options.  Pointers are kept where
    the code compares or shares them: tip sets and trie nodes have addresses,
    the groups of the horizon are in an explicit store.  Integers keep their
    width wherever the code computes with them.  A lock makes one step of the
    section it guards; the loops without locks are interleaved step by step.

    Loops that are not structural have fuel, and each theorem that needs it
    shows that the fuel given is enough: a worklist has its length plus the sum
    of the dependencies of what can be visited ([Walk]); the exploration of a
    history the size of the store; membership in a cut the size of the store
    and one, as each step down is another effect; the causal index the vertices left plus the
    frames on its stack; the closure its start keys plus the anchors the store
    can name; a waiting read the size of the horizon and one; topological
    collection the number of nodes and one; a scan of the trie its node count;
    a glob a potential of |s|(|p|+1)+|p|; the tightening of a network one round
    per point and one; sizing a filter 64 doublings; decimal printing 20 digits;
    the pages of a file its blocks and one, as they ascend; a put one retry; a
    tick of the governor the keys it may evict and one.  A window of clock samples
    is taken to hold at most 4096 of them (64 by default), for which the float
    arithmetic of its quantiles is evaluated, and a replicator is followed for
    fewer than 2^31 events, as its counters have 32 bits; that its goroutines
    come to rest needs no fuel, but a measure of the work left.

    ** Parameters

    Code that is not in the repository, or whose choice the program leaves open,
    is an argument with documented laws: [MapRange], the order of a map range (a
    permutation, at every occurrence another); [SortFunc], sorting (a sorted
    permutation); [ProtoCodec], protobuf (decoding inverts encoding); [Codec]
    and [Encoder], zstd and decimal floats (likewise); [Hash64], xxhash (any
    function).  [Store] is what getEffect can obtain, [World] what peers answer,
    what the disk accepts, the clock and the configuration.  [TxnSnapshots] is
    what a transaction needs of the component that reads the past.  [Os] is what
    the operating system answers: any call may fail.  A power failure leaves each
    line of 64 bytes of a file with what it held at some moment since the last
    sync.  Each has an instance the witnesses run with.

    ** Not modelled

    The accounting of Go's memory and the choice of the keys to evict.  The engine
    takes effects to be resident once they are: [Pool] treats residency on its
    own, as it changes when an effect must be fetched and not what it is.  The use
    of cached subdags by reads, and batch views; anti-entropy probing and the cloud
    upload path; the arena and compaction of the trie; connections and streams,
    the wake-ups of timers, discovery and tracing: what a packet does once it
    arrives is modelled, and whether a send succeeds is part of a step.  Adaptive serialization is
    disabled in the source.  Where an operation of the code runs several steps
    without a lock (a commit, a subscription), they are one sequence here, and
    what others do meanwhile shows in the answers of the [World]; the
    exceptions, whose interleavings are treated step by step, are the index
    ([Frontier]), the pool ([PoolProps]) and replication ([Replicate]). *)

From Stdlib Require Export ZArith Lia.
From Stdlib Require Export Strings.Byte.
From stdpp Require Export base tactics list sorting gmap strings relations numbers well_founded.

Open Scope Z_scope.

Create HintDb swytch.
Create Rewrite HintDb swytch_rw.

(** ** Bytes and byte strings

    A Go [byte] is [Byte.byte]; a Go [[]byte] or [string] is a [list byte].
    The difference between a nil slice and an empty one is not kept: the code
    modelled here only looks at [len]. *)

Abbreviation byte := Byte.byte.
Abbreviation bytes := (list byte).

Definition b2z (b : byte) : Z := Z.of_N (Byte.to_N b).

Definition z2b (z : Z) : byte :=
  match Byte.of_N (Z.to_N (z mod 256)) with Some b => b | None => x00 end.

Lemma b2z_range b : 0 <= b2z b < 256.
Proof. unfold b2z. pose proof (Byte.to_N_bounded b). lia. Qed.

Lemma b2z_z2b z : b2z (z2b z) = z mod 256.
Proof.
  unfold b2z, z2b. pose proof (Z.mod_pos_bound z 256 ltac:(lia)) as Hb.
  destruct (Byte.of_N (Z.to_N (z mod 256))) as [b|] eqn:E.
  - apply Byte.to_of_N in E. rewrite E. lia.
  - exfalso. apply Byte.of_N_None_iff in E. lia.
Qed.

Lemma z2b_b2z b : z2b (b2z b) = b.
Proof.
  unfold z2b. rewrite Z.mod_small by apply b2z_range. unfold b2z.
  rewrite N2Z.id, Byte.of_to_N. done.
Qed.

Lemma b2z_inj a b : b2z a = b2z b -> a = b.
Proof. intros E. by rewrite <- (z2b_b2z a), <- (z2b_b2z b), E. Qed.

#[global] Instance byte_eq_dec : EqDecision byte := Byte.byte_eq_dec.

#[global] Program Instance byte_countable : Countable byte :=
  inj_countable b2z (fun z => Some (z2b z)) _.
Next Obligation. intros b. cbv beta. by rewrite z2b_b2z. Qed.

(** [bytes.Compare], and the [<] of Go strings: lexicographic on bytes. *)
Fixpoint bytes_compare (a b : bytes) : Z :=
  match a, b with
  | [], [] => 0
  | [], _ :: _ => -1
  | _ :: _, [] => 1
  | x :: a', y :: b' =>
      if b2z x <? b2z y then -1
      else if b2z y <? b2z x then 1
      else bytes_compare a' b'
  end.

Lemma bytes_compare_refl a : bytes_compare a a = 0.
Proof. induction a as [|x a IH]; simpl; [done|]. by rewrite Z.ltb_irrefl. Qed.

Lemma bytes_compare_antisym a b : bytes_compare b a = - bytes_compare a b.
Proof.
  revert b; induction a as [|x a IH]; intros [|y b]; simpl; try done.
  destruct (Z.ltb_spec (b2z x) (b2z y)), (Z.ltb_spec (b2z y) (b2z x)); try lia.
  apply IH.
Qed.

Lemma bytes_compare_range a b : bytes_compare a b = -1 \/ bytes_compare a b = 0 \/ bytes_compare a b = 1.
Proof.
  revert b; induction a as [|x a IH]; intros [|y b]; simpl; auto.
  repeat case_match; auto.
Qed.

Lemma bytes_compare_eq a b : bytes_compare a b = 0 <-> a = b.
Proof.
  split; [|intros ->; apply bytes_compare_refl].
  revert b; induction a as [|x a IH]; intros [|y b]; simpl; try done.
  destruct (Z.ltb_spec (b2z x) (b2z y)), (Z.ltb_spec (b2z y) (b2z x)); try done.
  intros E. f_equal; [apply b2z_inj; lia | by apply IH].
Qed.

Lemma bytes_compare_trans a b c :
  bytes_compare a b <= 0 -> bytes_compare b c <= 0 -> bytes_compare a c <= 0.
Proof.
  revert b c; induction a as [|x a IH]; intros [|y b] [|z c]; simpl; try lia.
  destruct (Z.ltb_spec (b2z x) (b2z y)), (Z.ltb_spec (b2z y) (b2z x)),
    (Z.ltb_spec (b2z y) (b2z z)), (Z.ltb_spec (b2z z) (b2z y)),
    (Z.ltb_spec (b2z x) (b2z z)), (Z.ltb_spec (b2z z) (b2z x)); try lia.
  intros; eauto.
Qed.

Lemma bytes_compare_lt_trans a b c :
  bytes_compare a b < 0 -> bytes_compare b c < 0 -> bytes_compare a c < 0.
Proof.
  intros H1 H2. assert (bytes_compare a c <= 0) by (apply (bytes_compare_trans a b c); lia).
  destruct (decide (bytes_compare a c = 0)) as [E|]; [|lia].
  apply bytes_compare_eq in E as ->. rewrite bytes_compare_antisym in H2. lia.
Qed.

(** ** Machine integers

    An [int64] is a [Z] in [[-2^63, 2^63)]; a [uint64] a [Z] in [[0, 2^64)].
    Go's arithmetic wraps silently; [wrap64] and [wrapu64] write that out. *)

Definition min_int64 : Z := - 2 ^ 63.
Definition max_int64 : Z := 2 ^ 63 - 1.
Definition max_uint64 : Z := 2 ^ 64 - 1.

Definition wrap64 (z : Z) : Z := (z + 2 ^ 63) mod 2 ^ 64 - 2 ^ 63.
Definition wrapu64 (z : Z) : Z := z mod 2 ^ 64.
Definition wrap32 (z : Z) : Z := (z + 2 ^ 31) mod 2 ^ 32 - 2 ^ 31.

Definition is_int64 (z : Z) : Prop := min_int64 <= z <= max_int64.
Definition is_uint64 (z : Z) : Prop := 0 <= z <= max_uint64.

Lemma wrap64_range z : is_int64 (wrap64 z).
Proof.
  unfold is_int64, wrap64, min_int64, max_int64.
  pose proof (Z.mod_pos_bound (z + 2 ^ 63) (2 ^ 64) ltac:(lia)). lia.
Qed.

Lemma wrap64_id z : is_int64 z -> wrap64 z = z.
Proof.
  unfold is_int64, wrap64, min_int64, max_int64. intros H.
  rewrite Z.mod_small; lia.
Qed.

Lemma wrap32_id z : - 2 ^ 31 <= z < 2 ^ 31 -> wrap32 z = z.
Proof. intros Hz. unfold wrap32. rewrite Z.mod_small; lia. Qed.

Lemma wrap64_add_l a b : wrap64 (wrap64 a + b) = wrap64 (a + b).
Proof.
  unfold wrap64. f_equal.
  replace ((a + 2 ^ 63) mod 2 ^ 64 - 2 ^ 63 + b + 2 ^ 63)
    with ((a + 2 ^ 63) mod 2 ^ 64 + b) by lia.
  rewrite Z.add_mod_idemp_l by lia. f_equal. lia.
Qed.

Lemma wrap64_add_r a b : wrap64 (a + wrap64 b) = wrap64 (a + b).
Proof. rewrite Z.add_comm, wrap64_add_l. f_equal. lia. Qed.

Lemma wrapu64_range z : is_uint64 (wrapu64 z).
Proof.
  unfold is_uint64, wrapu64, max_uint64.
  pose proof (Z.mod_pos_bound z (2 ^ 64) ltac:(lia)). lia.
Qed.

Lemma wrapu64_id z : is_uint64 z -> wrapu64 z = z.
Proof. unfold is_uint64, wrapu64, max_uint64. intros. apply Z.mod_small. lia. Qed.

#[export] Hint Rewrite bytes_compare_refl b2z_z2b z2b_b2z : swytch_rw.
#[export] Hint Resolve wrap64_range wrapu64_range b2z_range : swytch.

(** ** Effect references

    [keytrie.EffectRef = [2]uint64], aliased [Tip] in package effects: the node
    that minted the effect and its offset in that node's namespace. *)

Abbreviation Tip := (Z * Z)%type.
Definition zero_tip : Tip := (0, 0).

(** ** Sorting

    [slices.SortFunc] promises an ascending permutation of its input and, in
    particular, no stability.  The development is proved for every function
    that keeps this promise; [insertion_sorter] is the one Go runs on slices of
    at most twelve elements. *)

Class CmpOrder {A} (cmp : A -> A -> Z) : Prop := {
  cmp_refl : forall x, cmp x x = 0;
  cmp_anti : forall x y, cmp x y < 0 <-> 0 < cmp y x;
  cmp_trans : forall x y z, cmp x y <= 0 -> cmp y z <= 0 -> cmp x z <= 0;
}.

Class SortFunc := {
  sort_func : forall {A : Type}, (A -> A -> Z) -> list A -> list A;
  sort_func_perm : forall {A} (cmp : A -> A -> Z) l, sort_func cmp l ≡ₚ l;
  sort_func_sorted : forall {A} (cmp : A -> A -> Z) `{!CmpOrder cmp} l,
    StronglySorted (fun x y => cmp x y <= 0) (sort_func cmp l);
}.

#[global] Instance bytes_compare_order : CmpOrder bytes_compare.
Proof.
  split.
  - apply bytes_compare_refl.
  - intros x y. rewrite (bytes_compare_antisym x y). lia.
  - apply bytes_compare_trans.
Qed.

#[global] Instance cmp_order_on {A B} (f : A -> B) cmp `{!CmpOrder cmp} :
  CmpOrder (fun x y => cmp (f x) (f y)).
Proof.
  split; intros.
  - apply cmp_refl.
  - apply cmp_anti.
  - by eapply cmp_trans.
Qed.

(** Two permutations of a list whose elements the comparison tells apart sort
    to the same list, whatever the sorting function. *)
Lemma sort_func_unique `{!SortFunc} {A} (cmp : A -> A -> Z) `{!CmpOrder cmp} l1 l2 :
  l1 ≡ₚ l2 ->
  (forall x y, x ∈ l1 -> y ∈ l1 -> cmp x y = 0 -> x = y) ->
  sort_func cmp l1 = sort_func cmp l2.
Proof.
  intros Hp Hinj. apply (StronglySorted_unique_strong (fun x y => cmp x y <= 0)).
  - intros x y Hx Hy H1 H2.
    rewrite (sort_func_perm cmp l1) in Hx.
    rewrite (sort_func_perm cmp l2), <- Hp in Hy.
    apply Hinj; [done..|]. cbv beta in *. pose proof (cmp_anti x y). lia.
  - apply sort_func_sorted; done.
  - apply sort_func_sorted; done.
  - by rewrite !sort_func_perm.
Qed.

Lemma elem_of_sort_func `{!SortFunc} {A} (cmp : A -> A -> Z) x l :
  x ∈ sort_func cmp l <-> x ∈ l.
Proof. by rewrite (sort_func_perm cmp l). Qed.

(** A Go map is iterated in an unspecified order, which may differ at every
    loop even on the same map: [map_range] takes a number of the loop's own. *)
Class MapRange := {
  map_range : forall {K A} `{Countable K}, nat -> gmap K A -> list (K * A);
  map_range_perm : forall {K A} `{Countable K} i (m : gmap K A), map_range i m ≡ₚ map_to_list m;
}.

Definition listed_range : MapRange := {|
  map_range := fun K A _ _ _ m => map_to_list m;
  map_range_perm := fun K A _ _ _ m => Permutation_refl _;
|}.

Lemma elem_of_map_range `{!MapRange} {K A} `{Countable K} i (m : gmap K A) k x :
  (k, x) ∈ map_range i m <-> m !! k = Some x.
Proof. by rewrite map_range_perm, elem_of_map_to_list. Qed.

Lemma NoDup_map_range `{!MapRange} {K A} `{Countable K} i (m : gmap K A) : NoDup (map_range i m).*1.
Proof. rewrite map_range_perm. apply NoDup_fst_map_to_list. Qed.

Fixpoint insert_sorted {A} (cmp : A -> A -> Z) (x : A) (l : list A) : list A :=
  match l with
  | [] => [x]
  | y :: l' => if cmp x y <? 0 then x :: y :: l' else y :: insert_sorted cmp x l'
  end.

Definition insertion_sort {A} (cmp : A -> A -> Z) (l : list A) : list A :=
  fold_left (fun acc x => insert_sorted cmp x acc) l [].

Lemma insert_sorted_perm {A} (cmp : A -> A -> Z) x l : insert_sorted cmp x l ≡ₚ x :: l.
Proof.
  induction l as [|y l IH]; simpl; [done|]. case_match; [done|].
  rewrite IH. apply Permutation_swap.
Qed.

Lemma insert_sorted_sorted {A} (cmp : A -> A -> Z) `{!CmpOrder cmp} x l :
  StronglySorted (fun a b => cmp a b <= 0) l ->
  StronglySorted (fun a b => cmp a b <= 0) (insert_sorted cmp x l).
Proof.
  induction 1 as [|y l Hs IH Hy]; simpl; [by repeat constructor|].
  destruct (Z.ltb_spec (cmp x y) 0).
  - constructor; [by constructor|]. constructor; [lia|].
    eapply Forall_impl; [|exact Hy]. intros z Hz. eapply cmp_trans; [|exact Hz]. lia.
  - constructor; [done|]. rewrite insert_sorted_perm. constructor; [|done].
    pose proof (cmp_anti x y). lia.
Qed.

Lemma insertion_sort_perm_acc {A} (cmp : A -> A -> Z) l acc :
  fold_left (fun acc x => insert_sorted cmp x acc) l acc ≡ₚ acc ++ l.
Proof.
  revert acc; induction l as [|x l IH]; intros acc; simpl; [by rewrite app_nil_r|].
  rewrite IH, insert_sorted_perm. simpl. by rewrite Permutation_middle.
Qed.

Lemma insertion_sort_sorted_acc {A} (cmp : A -> A -> Z) `{!CmpOrder cmp} l acc :
  StronglySorted (fun a b => cmp a b <= 0) acc ->
  StronglySorted (fun a b => cmp a b <= 0) (fold_left (fun acc x => insert_sorted cmp x acc) l acc).
Proof.
  revert acc; induction l as [|x l IH]; intros acc H; simpl; [done|].
  by apply IH, insert_sorted_sorted.
Qed.

Lemma insertion_sort_perm {A} (cmp : A -> A -> Z) l : insertion_sort cmp l ≡ₚ l.
Proof. apply insertion_sort_perm_acc. Qed.

Lemma insertion_sort_sorted {A} (cmp : A -> A -> Z) `{!CmpOrder cmp} l :
  StronglySorted (fun a b => cmp a b <= 0) (insertion_sort cmp l).
Proof. apply insertion_sort_sorted_acc; [done|]. constructor. Qed.

Definition insertion_sorter : SortFunc := {|
  sort_func := @insertion_sort;
  sort_func_perm := @insertion_sort_perm;
  sort_func_sorted := @insertion_sort_sorted;
|}.

(** ** Small facts used across the components *)

(** Case analysis on the boolean comparisons the code tests. *)
Ltac bcase :=
  repeat match goal with
  | |- context [ (?a <? ?b)%Z ] => destruct (Z.ltb_spec a b)
  | |- context [ (?a <=? ?b)%Z ] => destruct (Z.leb_spec a b)
  | |- context [ (?a =? ?b)%Z ] => destruct (Z.eqb_spec a b)
  | H : context [ (?a <? ?b)%Z ] |- _ => destruct (Z.ltb_spec a b)
  | H : context [ (?a <=? ?b)%Z ] |- _ => destruct (Z.leb_spec a b)
  | H : context [ (?a =? ?b)%Z ] |- _ => destruct (Z.eqb_spec a b)
  end.

(** Split every conjunction and existential of the context. *)
Ltac destr_ands := repeat match goal with H : _ /\ _ |- _ => destruct H | H : exists _, _ |- _ => destruct H end.

(** A fold whose steps commute does not depend on the order of the list. *)
Lemma fold_left_perm {A B} (P : A -> Prop) (f : A -> B -> A) (l l' : list B) :
  (forall a x, P a -> P (f a x)) ->
  (forall a x y, P a -> f (f a x) y = f (f a y) x) ->
  l ≡ₚ l' -> forall a, P a -> fold_left f l a = fold_left f l' a.
Proof.
  intros Hp Hc. induction 1 as [|x l l' _ IH|x y l|l1 l2 l3 _ IH1 _ IH2]; intros a Ha; simpl.
  - done.
  - apply IH. by apply Hp.
  - by rewrite Hc.
  - rewrite IH1 by done. by apply IH2.
Qed.

Lemma fold_left_fst {S A B} (f : S -> A -> S) (l : list (A * B)) s :
  fold_left (fun s x => f s x.1) l s = fold_left f l.*1 s.
Proof. revert s. induction l as [|x l IH]; intros s; simpl; auto. Qed.

Lemma StronglySorted_lookup {A} (R : A -> A -> Prop) l i j x y :
  StronglySorted R l -> (i < j)%nat -> l !! i = Some x -> l !! j = Some y -> R x y.
Proof.
  intros Hs. revert i j. induction Hs as [|a l Hs IH Ha]; intros i j Hij Hi Hj; [done|].
  destruct j as [|j]; [lia|]. destruct i as [|i]; simpl in *; [|eapply IH; [|done..]; lia].
  injection Hi as <-. rewrite Forall_forall in Ha. apply Ha, list_elem_of_In. by eapply list_elem_of_lookup_2.
Qed.
