(* ===== verification/Golib.v ===== *)
(** * The parts of the Go language and standard library the engine relies on

    - [f64]: IEEE-754 binary64 as [spec_float] at precision 53 and [emax] 1024
      (NaN payloads are not distinguished);
    - [parse_int]: [strconv.ParseInt] in base 10 at 64 bits, with the value it
      returns beside an error, which is the value the engine keeps;
    - [le_bytes]/[be_bytes]: package encoding/binary;
    - [sha256]: crypto/sha256, for the fork-choice hash;
    - [has_prefix]: [strings.HasPrefix];
    - [sort_search]: [sort.Search];
    - [Hash64]: xxhash, any function of the bytes. *)

From Stdlib Require Import Floats.SpecFloat.
From S2P Require Import Prelude.

(** ** float64 *)

Abbreviation f64 := spec_float.

Definition f64_zero : f64 := S754_zero false.
Definition f64_add (a b : f64) : f64 := SFadd 53 1024 a b.
Definition f64_ltb (a b : f64) : bool := SFltb a b.
Definition f64_of_int (z : Z) : f64 := binary_normalize 53 1024 z 0 false.

#[global] Instance f64_eq_dec : EqDecision f64.
Proof. solve_decision. Defined.

(** ** strconv.ParseInt(s, 10, 64) *)

Inductive num_error := NumSyntax | NumRange.

(** The digit loop of [ParseUint] at base 10: a non-digit is a syntax error,
    and an overflow is reported at once, before the rest is looked at. *)
Fixpoint parse_uint_loop (s : bytes) (n : Z) : Z * option num_error :=
  match s with
  | [] => (n, None)
  | c :: s' =>
      let d := b2z c - 48 in
      if negb ((0 <=? d) && (d <=? 9)) then (0, Some NumSyntax)
      else if max_uint64 / 10 + 1 <=? n then (max_uint64, Some NumRange)
      else if max_uint64 <? n * 10 + d then (max_uint64, Some NumRange)
      else parse_uint_loop s' (n * 10 + d)
  end.

Definition parse_uint (s : bytes) : Z * option num_error :=
  match s with [] => (0, Some NumSyntax) | _ => parse_uint_loop s 0 end.

Definition parse_int_signed (neg : bool) (s : bytes) : Z * option num_error :=
  match parse_uint s with
  | (_, Some NumSyntax) => (0, Some NumSyntax)
  | (un, _) =>
      if negb neg && (2 ^ 63 <=? un) then (max_int64, Some NumRange)
      else if neg && (2 ^ 63 <? un) then (min_int64, Some NumRange)
      else (if neg then - un else un, None)
  end.

Definition parse_int (s : bytes) : Z * option num_error :=
  match s with
  | [] => (0, Some NumSyntax)
  | x2b :: s' => parse_int_signed false s'
  | x2d :: s' => parse_int_signed true s'
  | _ => parse_int_signed false s
  end.

Lemma parse_uint_loop_range s n :
  is_uint64 n -> is_uint64 (parse_uint_loop s n).1.
Proof.
  revert n; induction s as [|c s IH]; intros n Hn; simpl; [done|].
  unfold is_uint64, max_uint64 in *.
  destruct (negb _) eqn:Ed; simpl; [lia|]. bcase; simpl; try lia.
  apply IH. lia.
Qed.

Lemma parse_uint_range s : is_uint64 (parse_uint s).1.
Proof.
  destruct s; [by vm_compute|]. apply parse_uint_loop_range. by vm_compute.
Qed.

Lemma parse_int_signed_range neg s : is_int64 (parse_int_signed neg s).1.
Proof.
  unfold parse_int_signed. pose proof (parse_uint_range s) as Hr.
  destruct (parse_uint s) as [un e]; simpl in Hr.
  unfold is_int64, is_uint64, min_int64, max_int64, max_uint64 in *.
  destruct e as [[|]|], neg; simpl; bcase; simpl; lia.
Qed.

Lemma parse_int_range s : is_int64 (parse_int s).1.
Proof.
  destruct s as [|c s]; [by vm_compute|].
  destruct c; apply parse_int_signed_range.
Qed.

(** ** encoding/binary *)

Fixpoint le_bytes (n : nat) (z : Z) : bytes :=
  match n with O => [] | S n' => z2b z :: le_bytes n' (z / 256) end.

Fixpoint le_value (l : bytes) : Z :=
  match l with [] => 0 | b :: l' => b2z b + 256 * le_value l' end.

Definition be_bytes (n : nat) (z : Z) : bytes := rev (le_bytes n z).
Definition be_value (l : bytes) : Z := le_value (rev l).

Lemma length_le_bytes n z : length (le_bytes n z) = n.
Proof. revert z; induction n; intros; simpl; congruence. Qed.

Lemma length_be_bytes n z : length (be_bytes n z) = n.
Proof. unfold be_bytes. by rewrite length_rev, length_le_bytes. Qed.

Lemma le_value_le_bytes n z : le_value (le_bytes n z) = z mod 256 ^ Z.of_nat n.
Proof.
  revert z; induction n as [|n IH]; intros z; simpl.
  - by rewrite Z.mod_1_r.
  - rewrite b2z_z2b, IH, Nat2Z.inj_succ, Z.pow_succ_r by lia.
    rewrite Z.rem_mul_r by lia. done.
Qed.

Lemma le_value_range l : 0 <= le_value l < 256 ^ Z.of_nat (length l).
Proof.
  induction l as [|b l IH]; simpl; [lia|].
  rewrite Nat2Z.inj_succ, Z.pow_succ_r by lia. pose proof (b2z_range b). lia.
Qed.

Lemma le_bytes_le_value l : le_bytes (length l) (le_value l) = l.
Proof.
  induction l as [|b l IH]; simpl; [done|].
  pose proof (b2z_range b) as Hb. f_equal.
  - apply b2z_inj. rewrite b2z_z2b, (Z.mul_comm 256), Z.mod_add by lia.
    by rewrite Z.mod_small.
  - replace ((b2z b + 256 * le_value l) / 256) with (le_value l); [done|].
    rewrite (Z.mul_comm 256), Z.div_add by lia. rewrite (Z.div_small (b2z b)) by lia. lia.
Qed.

Lemma be_value_be_bytes n z : be_value (be_bytes n z) = z mod 256 ^ Z.of_nat n.
Proof. unfold be_value, be_bytes. by rewrite rev_involutive, le_value_le_bytes. Qed.

Lemma be_bytes_be_value l : be_bytes (length l) (be_value l) = l.
Proof.
  unfold be_value, be_bytes. rewrite <- (length_rev l), le_bytes_le_value.
  apply rev_involutive.
Qed.

Lemma be_value_range l : 0 <= be_value l < 256 ^ Z.of_nat (length l).
Proof. unfold be_value. rewrite <- (length_rev l). apply le_value_range. Qed.

(** ** crypto/sha256 *)

Module Sha256.

Definition w32 (z : Z) : Z := z mod 2 ^ 32.
Definition rotr (x : Z) (n : Z) : Z := w32 (Z.lor (Z.shiftr x n) (Z.shiftl x (32 - n))).

(** The constants of FIPS 180-4: the first 32 bits of the fractional parts of the
    cube roots of the first 64 primes, and of the square roots of the first 8. *)
Definition is_prime (n : nat) : bool := forallb (fun d => negb (n mod d =? 0)%nat) (seq 2 (n - 2)).

Definition primes : list Z := map Z.of_nat (List.filter is_prime (seq 2 310)).

(** The integer cube root, bit by bit from [r] on. *)
Fixpoint cube_root (bits : nat) (r n : Z) : Z :=
  match bits with
  | O => r
  | S bits' => let c := r + 2 ^ Z.of_nat bits' in cube_root bits' (if c * c * c <=? n then c else r) n
  end.

Definition K : list Z := Eval vm_compute in map (fun p => w32 (cube_root 40 0 (p * 2 ^ 96))) (take 64 primes).

Definition H0 : list Z := Eval vm_compute in map (fun p => w32 (Z.sqrt (p * 2 ^ 64))) (take 8 primes).

Definition nthz (l : list Z) (i : nat) : Z := nth i l 0.

(** Message schedule, kept newest first. *)
Definition extend (ws : list Z) : list Z :=
  let w15 := nthz ws 14 in
  let w2 := nthz ws 1 in
  let s0 := Z.lxor (Z.lxor (rotr w15 7) (rotr w15 18)) (Z.shiftr w15 3) in
  let s1 := Z.lxor (Z.lxor (rotr w2 17) (rotr w2 19)) (Z.shiftr w2 10) in
  w32 (nthz ws 15 + s0 + nthz ws 6 + s1) :: ws.

Definition round (st : list Z) (kw : Z * Z) : list Z :=
  match st with
  | [a; b; c; d; e; f; g; h] =>
      let s1 := Z.lxor (Z.lxor (rotr e 6) (rotr e 11)) (rotr e 25) in
      let ch := Z.lxor (Z.land e f) (Z.land (w32 (Z.lnot e)) g) in
      let t1 := h + s1 + ch + kw.1 + kw.2 in
      let s0 := Z.lxor (Z.lxor (rotr a 2) (rotr a 13)) (rotr a 22) in
      let maj := Z.lxor (Z.lxor (Z.land a b) (Z.land a c)) (Z.land b c) in
      [w32 (t1 + s0 + maj); a; b; c; w32 (d + t1); e; f; g]
  | _ => st
  end.

Fixpoint be_words (n : nat) (l : bytes) : list Z :=
  match n with O => [] | S n' => be_value (take 4 l) :: be_words n' (drop 4 l) end.

Definition block (st : list Z) (b : bytes) : list Z :=
  let ws := rev (Nat.iter 48 extend (rev (be_words 16 b))) in
  zip_with (fun x y => w32 (x + y)) st (fold_left round (zip K ws) st).

Fixpoint blocks (n : nat) (l : bytes) (st : list Z) : list Z :=
  match n with O => st | S n' => blocks n' (drop 64 l) (block st (take 64 l)) end.

Definition pad (l : bytes) : bytes :=
  let n := length l in
  let z := (119 - n mod 64)%nat in
  let z := if (64 <=? z)%nat then (z - 64)%nat else z in
  l ++ [x80] ++ replicate z x00 ++ be_bytes 8 (8 * Z.of_nat n).

Definition sum (l : bytes) : bytes :=
  let p := pad l in
  concat (map (be_bytes 4) (blocks (length p / 64) p H0)).

Lemma length_block st b : length st = 8%nat -> length (block st b) = 8%nat.
Proof.
  intros H. unfold block. rewrite length_zip_with, H.
  assert (forall l s, length s = 8%nat -> length (fold_left round l s) = 8%nat) as Hr.
  { induction l as [|kw l IH]; intros s Hs; simpl; [done|]. apply IH.
    destruct s as [|? [|? [|? [|? [|? [|? [|? [|? [|]]]]]]]]]; done. }
  by rewrite Hr.
Qed.

Lemma length_sum l : length (sum l) = 32%nat.
Proof.
  unfold sum. set (n := (length (pad l) / 64)%nat). clearbody n.
  assert (forall m p st, length st = 8%nat -> length (blocks m p st) = 8%nat) as Hb.
  { induction m as [|m IH]; intros p st H; simpl; [done|]. by apply IH, length_block. }
  specialize (Hb n (pad l) H0 eq_refl). revert Hb.
  generalize (blocks n (pad l) H0).
  intros ws Hw.
  destruct ws as [|? [|? [|? [|? [|? [|? [|? [|? [|]]]]]]]]]; try done.
Qed.

(** FIPS 180-4 test vector. *)
Example sum_abc : be_value (sum [x61; x62; x63]) =
  0xba7816bf8f01cfea414140de5dae2223b00361a396177a9cb410ff61f20015ad.
Proof. vm_compute. reflexivity. Qed.

End Sha256.

(** ** strings.HasPrefix *)

Fixpoint has_prefix (s p : bytes) : bool :=
  match p, s with
  | [], _ => true
  | y :: p', x :: s' => bool_decide (x = y) && has_prefix s' p'
  | _ :: _, [] => false
  end.

Lemma has_prefix_spec s p : has_prefix s p = true <-> p `prefix_of` s.
Proof.
  revert s; induction p as [|y p IH]; intros s; simpl.
  - split; [intros _; apply prefix_nil | by destruct s].
  - destruct s as [|x s]; simpl.
    + split; [done|]. by intros ?%prefix_nil_inv.
    + rewrite andb_true_iff, bool_decide_eq_true, IH. split.
      * intros [-> ?]. by apply prefix_cons.
      * intros H. split; [by apply prefix_cons_inv_1 in H | by apply prefix_cons_inv_2 in H].
Qed.

(** ** sort.Search

    The predicate may carry state (a cache): the search threads it.  The
    interval shrinks at every step, so its length is enough fuel. *)

Section Search.
Context {S : Type} (f : S -> nat -> S * bool).

Fixpoint sort_search_loop (fuel i j : nat) (s : S) : S * nat :=
  match fuel with
  | O => (s, i)
  | Datatypes.S fuel' =>
      if (i <? j)%nat then
        let h := ((i + j) / 2)%nat in
        let (s', ok) := f s h in
        if ok then sort_search_loop fuel' i h s' else sort_search_loop fuel' (h + 1)%nat j s'
      else (s, i)
  end.

Definition sort_search (n : nat) (s : S) : S * nat := sort_search_loop n 0 n s.

Variable (ok : S -> Prop) (P : nat -> Prop).

(** On an upward-closed predicate the search returns its first index. *)
Lemma sort_search_loop_spec n fuel i j s :
  (forall s k, ok s -> (k < n)%nat -> ok (f s k).1 /\ ((f s k).2 = true <-> P k)) ->
  (forall a b, (a <= b < n)%nat -> P a -> P b) ->
  (i <= j <= n)%nat -> (j - i <= fuel)%nat -> ok s ->
  (forall k, (k < i)%nat -> ~ P k) -> (forall k, (j <= k < n)%nat -> P k) ->
  let '(s', r) := sort_search_loop fuel i j s in
  ok s' /\ (r <= n)%nat /\ (forall k, (k < n)%nat -> (r <= k)%nat <-> P k).
Proof.
  intros Hf Hm. revert i j s. induction fuel as [|fuel IH]; intros i j s Hij Hfuel Hs Hlo Hhi; cbn [sort_search_loop]; cbv zeta.
  - assert (i = j) as -> by lia. split; [done|]. split; [lia|]. intros k Hk.
    split; [intros; apply Hhi; lia|]. intros HP. destruct (decide (j <= k)%nat); [done|].
    exfalso. apply (Hlo k); [lia|done].
  - destruct (Nat.ltb_spec i j) as [Hlt|Hge].
    + assert (i <= (i + j) / 2 < j)%nat as Hh.
      { split; [apply Nat.div_le_lower_bound; lia|apply Nat.Div0.div_lt_upper_bound; lia]. }
      set (h := ((i + j) / 2)%nat) in *. destruct (Hf s h Hs ltac:(lia)) as [Hs' HP].
      destruct (f s h) as [s' b]. cbn [fst snd] in *. destruct b.
      * apply IH; [lia|lia|done|done|]. intros k Hk. apply (Hm h k); [lia|]. by apply HP.
      * apply IH; [lia|lia|done| |done]. intros k Hk HPk. assert (P h) by (apply (Hm k h); [lia|done]).
        by apply HP in H.
    + assert (i = j) as -> by lia. split; [done|]. split; [lia|]. intros k Hk.
      split; [intros; apply Hhi; lia|]. intros HP. destruct (decide (j <= k)%nat); [done|].
      exfalso. apply (Hlo k); [lia|done].
Qed.

Lemma sort_search_spec n s :
  (forall s k, ok s -> (k < n)%nat -> ok (f s k).1 /\ ((f s k).2 = true <-> P k)) ->
  (forall a b, (a <= b < n)%nat -> P a -> P b) -> ok s ->
  let '(s', r) := sort_search n s in
  ok s' /\ (r <= n)%nat /\ (forall k, (k < n)%nat -> (r <= k)%nat <-> P k).
Proof.
  intros Hf Hm Hs. apply (sort_search_loop_spec n n 0 n s); [done|done|lia|lia|done|lia|]. intros k Hk. lia.
Qed.

End Search.

(** ** xxhash

    A third-party package: some function to 64-bit values. *)

Class Hash64 := {
  xxhash : bytes -> Z;
  xxhash_range : forall b, is_uint64 (xxhash b);
}.

(** A hash for concrete runs: the length and the first byte of the input. *)
Definition toy_hash_fn (b : bytes) : Z :=
  wrapu64 (Z.of_nat (length b) * 2 ^ 33 + match b with x :: _ => b2z x * (2 ^ 32 + 1) | [] => 0 end).

Definition toy_hash : Hash64 := {| xxhash := toy_hash_fn; xxhash_range := fun b => wrapu64_range _ |}.
