(* ===== verification/Proto.v ===== *)
(** * The wire types of package cluster/proto

    One record per message and one inductive per enum or oneof of
    [replication.pb.go], restricted to the fields the modelled code reads.
    Conventions:
    - protobuf enums are open, so each enum that a [switch] dispatches on has
      an [_other] constructor for a number this build does not know;
    - a nil message pointer is [None] where the code tests it, and the zero
      message where the code only ever reads it through nil-safe getters;
    - an [EffectRef] is the tip [r(ref)] it denotes;
    - a nil map is the empty map. *)

From S2P Require Import Prelude Golib.

(** google.protobuf.Timestamp *)
Record Timestamp := mkTimestamp { ts_seconds : Z; ts_nanos : Z }.

#[global] Instance Timestamp_eq_dec : EqDecision Timestamp.
Proof. solve_decision. Defined.

Inductive EffectOp := UNKNOWN_OP | INSERT_OP | REMOVE_OP.

Inductive MergeRule :=
  | LAST_WRITE_WINS | ADDITIVE_INT | ADDITIVE_FLOAT | MAX_INT | FIRST_WRITE_WINS | MAX_BYTES
  | MergeRule_other (n : Z).

Inductive CollectionKind := SCALAR | KEYED | ORDERED | CollectionKind_other (n : Z).

Inductive Placement :=
  | PLACE_NONE | PLACE_HEAD | PLACE_TAIL | PLACE_AFTER | PLACE_BEFORE | PLACE_SELF
  | Placement_other (n : Z).

Inductive Compression := COMPRESSION_NONE | COMPRESSION_ZSTD | Compression_other (n : Z).

(** [TYPE_UNSPECIFIED] is 0. *)
Inductive ValueType :=
  | TYPE_UNSPECIFIED | TYPE_STRING | TYPE_LIST | TYPE_HASH | TYPE_SET | TYPE_ZSET | TYPE_STREAM
  | TYPE_HLL | TYPE_BITMAP | TYPE_GEO | TYPE_JSON | TYPE_JSON_OBJECT | TYPE_JSON_ARRAY
  | ValueType_other (n : Z).

Inductive Verdict := VERDICT_UNSPECIFIED | WON | LOST | Verdict_other (n : Z).

#[global] Instance EffectOp_eq_dec : EqDecision EffectOp.
Proof. solve_decision. Defined.
#[global] Instance MergeRule_eq_dec : EqDecision MergeRule.
Proof. solve_decision. Defined.
#[global] Instance CollectionKind_eq_dec : EqDecision CollectionKind.
Proof. solve_decision. Defined.
#[global] Instance Placement_eq_dec : EqDecision Placement.
Proof. solve_decision. Defined.
#[global] Instance Compression_eq_dec : EqDecision Compression.
Proof. solve_decision. Defined.
#[global] Instance ValueType_eq_dec : EqDecision ValueType.
Proof. solve_decision. Defined.
#[global] Instance Verdict_eq_dec : EqDecision Verdict.
Proof. solve_decision. Defined.

Record CompressedValue := mkCompressed {
  cv_codec : Compression; cv_raw_len : Z; cv_data : bytes }.

#[global] Instance CompressedValue_eq_dec : EqDecision CompressedValue.
Proof. solve_decision. Defined.

Inductive DataValue :=
  | Raw (b : bytes)
  | IntVal (z : Z)
  | FloatVal (f : f64)
  | Compressed (c : CompressedValue)
  | Child (b : bytes).

#[global] Instance DataValue_eq_dec : EqDecision DataValue.
Proof. solve_decision. Defined.

Record DataEffect := mkData {
  d_op : EffectOp;
  d_merge : MergeRule;
  d_collection : CollectionKind;
  d_placement : Placement;
  d_reference : bytes;
  d_id : bytes;
  d_value : option DataValue;
}.

#[global] Instance DataEffect_eq_dec : EqDecision DataEffect.
Proof. solve_decision. Defined.

(** [GetIntVal] and [GetFloatVal]: the zero of the type on any other arm. *)
Definition get_int_val (d : DataEffect) : Z :=
  match d_value d with Some (IntVal z) => z | _ => 0 end.

Definition get_float_val (d : DataEffect) : f64 :=
  match d_value d with Some (FloatVal f) => f | _ => f64_zero end.

Record MetaEffect := mkMeta {
  m_expires_at : option Timestamp;
  m_type_tag : ValueType;
  m_element_id : bytes;
}.

Record KeyBind := mkKeyBind {
  kb_key : bytes;
  kb_consumed_tips : list Tip;
  kb_new_tip : Tip;
}.

Record TransactionalBindEffect := mkBind {
  tb_keys : list KeyBind;
  tb_txn_hlc : option Timestamp;
  tb_originator_node_id : Z;
  tb_abort_deps : list Tip;
}.

Record ReducedElement := mkElement {
  re_data : DataEffect;
  re_hlc : option Timestamp;
  re_node_id : Z;
  re_expires_at : option Timestamp;
  re_fork_choice_hash : bytes;
}.

(** The state of one partition of a key: a [ReducedEffect] whose partitions map
    is empty ("each entry is itself a flat ReducedEffect", replication.proto). *)
Record FlatReduced := mkFlat {
  r_op : EffectOp;
  r_merge : MergeRule;
  r_collection : CollectionKind;
  r_hlc : option Timestamp;
  r_node_id : Z;
  r_commutative : bool;
  r_scalar : option DataEffect;
  r_net_adds : gmap bytes ReducedElement;
  r_net_removes : gset bytes;
  r_ordered : list ReducedElement;
  r_type_tag : ValueType;
  r_expires_at : option Timestamp;
  r_subscribers : gmap Z bool;
  r_serialization_leader : option Z;
  r_fork_choice_hash : bytes;
}.

(** A whole [ReducedEffect]: the root partition and the virtual partitions. *)
Record ReducedEffect := mkReduced {
  red_root : FlatReduced;
  red_partitions : gmap bytes FlatReduced;
}.

Record SnapshotEffect := mkSnapshot {
  s_collection : CollectionKind;
  s_state : option ReducedEffect;
  s_txn_verdicts : gmap bytes Verdict;
  s_prev_snapshot : option Tip;
}.

Record SubscriptionEffect := mkSubscription {
  sub_node_id : Z;
  sub_unsubscribe : bool;
  sub_discovery : bool;
  sub_ephemeral : bool;
}.

Record SerializationEffect := mkSerialization {
  ser_leader_node_id : Z;
  ser_release : bool;
}.

(** ** Predicates *)

Inductive TypedValue :=
  | TV_NULL
  | TV_INT (z : Z)
  | TV_FLOAT (f : f64)
  | TV_TEXT (s : bytes)
  | TV_BLOB (b : bytes)
  | TV_other (kind : Z).

#[global] Instance TypedValue_eq_dec : EqDecision TypedValue.
Proof. solve_decision. Defined.

Inductive PredicateCmpOp := CMP_EQ | CMP_LT | CMP_LE | CMP_GT | CMP_GE | CMP_other (n : Z).

#[global] Instance PredicateCmpOp_eq_dec : EqDecision PredicateCmpOp.
Proof. solve_decision. Defined.

(** A predicate with the payload its kind selects.  A nil child reads as the
    zero message, which is [P_BOOL false]. *)
Inductive Predicate :=
  | P_BOOL (b : bool)
  | P_AND (children : list Predicate)
  | P_OR (children : list Predicate)
  | P_NOT (child : Predicate)
  | P_CMP (col : Z) (op : PredicateCmpOp) (literal : option TypedValue)
  | P_COL_CMP (col : Z) (op : PredicateCmpOp) (col2 : Z)
  | P_IS_NULL (col : Z)
  | P_other (kind : Z).

Record ObservationEffect := mkObservation { o_predicate : option Predicate }.

Inductive RowWriteKind := RW_INSERT | RW_UPDATE | RW_DELETE.

Record RowWriteEffect := mkRowWrite {
  rw_pk : bytes;
  rw_kind : RowWriteKind;
  rw_columns : list TypedValue;
}.

Record PubSubMessage := mkPubSub { ps_channel : bytes; ps_payload : bytes }.

(** ** Effects *)

Inductive EffectKind :=
  | KData (d : DataEffect)
  | KMeta (m : MetaEffect)
  | KTxnBind (b : TransactionalBindEffect)
  | KSnapshot (s : SnapshotEffect)
  | KSubscription (s : SubscriptionEffect)
  | KSerialization (s : SerializationEffect)
  | KNoop
  | KObservation (o : ObservationEffect)
  | KRowWrite (w : RowWriteEffect)
  | KPubSub (m : PubSubMessage).

Record Effect := mkEffect {
  e_key : bytes;
  e_hlc : option Timestamp;
  e_node_id : Z;
  e_deps : list Tip;
  e_txn_id : bytes;
  e_fork_choice_hash : bytes;
  e_virtual : bytes;
  e_kind : option EffectKind;
}.

Definition get_data (e : Effect) : option DataEffect :=
  match e_kind e with Some (KData d) => Some d | _ => None end.
Definition get_meta (e : Effect) : option MetaEffect :=
  match e_kind e with Some (KMeta m) => Some m | _ => None end.
Definition get_txn_bind (e : Effect) : option TransactionalBindEffect :=
  match e_kind e with Some (KTxnBind b) => Some b | _ => None end.
Definition get_snapshot (e : Effect) : option SnapshotEffect :=
  match e_kind e with Some (KSnapshot s) => Some s | _ => None end.
Definition get_subscription (e : Effect) : option SubscriptionEffect :=
  match e_kind e with Some (KSubscription s) => Some s | _ => None end.
Definition get_serialization (e : Effect) : option SerializationEffect :=
  match e_kind e with Some (KSerialization s) => Some s | _ => None end.
Definition get_observation (e : Effect) : option ObservationEffect :=
  match e_kind e with Some (KObservation o) => Some o | _ => None end.
Definition get_row_write (e : Effect) : option RowWriteEffect :=
  match e_kind e with Some (KRowWrite w) => Some w | _ => None end.

(** The keys of an effect's bind; none for any other kind. *)
Definition bind_keys (e : Effect) : list KeyBind :=
  match get_txn_bind e with Some b => tb_keys b | None => [] end.

Record NackTipDetail := mkNackTip {
  nt_ref : option Tip;
  nt_is_transactional : bool;
  nt_is_data : bool;
  nt_is_bind : bool;
  nt_collection : CollectionKind;
  nt_element_id : bytes;
  nt_op : EffectOp;
  nt_deps : list Tip;
  nt_bind_fork_choice_hash : bytes;
}.

(** Boolean equality of the enums the code compares with [==]. *)
Definition op_is (a b : EffectOp) : bool := bool_decide (a = b).
Definition coll_is (a b : CollectionKind) : bool := bool_decide (a = b).
Definition type_is (a b : ValueType) : bool := bool_decide (a = b).

(** Does the message carry bytes? ([len(x) > 0]) *)
Definition nonempty {A} (l : list A) : bool := match l with [] => false | _ => true end.

(** ** Values

    [DataEffect.Decompress] in valuebytes.go.  The zstd decoder is a third-party
    package: a parameter, [None] for the inputs it rejects.  [strconv.ParseFloat]
    is a parameter too: the value it returns, which is what the engine keeps
    whether or not there is an error. *)
Class Codec := {
  zstd_decode : bytes -> option bytes;
  parse_float : bytes -> f64;
}.

Definition decompress `{!Codec} (d : DataEffect) : bytes :=
  match d_value d with
  | Some (Raw b) => b
  | Some (Compressed cv) =>
      match cv_codec cv with
      | COMPRESSION_ZSTD => default [] (zstd_decode (cv_data cv))
      | _ => []
      end
  | _ => []
  end.

(** A codec for concrete runs: no compressed input is accepted, and every text
    reads as zero. *)
Definition null_codec : Codec := {|
  zstd_decode := fun _ => None;
  parse_float := fun _ => f64_zero;
|}.
