(* ===== verification/Reduce.v ===== *)
(** * Reduction of effect chains (effects/reduce.go)

    A chain of effects in causal order is folded into one [ReducedEffect].  The
    code mutates a [ReducedEffect] it owns; since every caller either owns the
    seed or clones it first, the mutation is written as state passing.

    The operations are in the order of reduce.go.  [ReduceProps] shows how
    reduction composes over a split chain, that the owned variant and the flat
    fast path agree with the general one, what a key-level delete does and that
    partitions are independent; [ReduceMerge] that the commutative rules may be
    reordered, what each rule computes and who is a member of keyed state. *)

From S2P Require Import Prelude Golib Proto.

Section Reduce.
Context {codec : Codec}.

(** ** Field updates of a [FlatReduced] *)

Definition empty_flat : FlatReduced :=
  mkFlat UNKNOWN_OP LAST_WRITE_WINS SCALAR None 0 false None ∅ ∅ [] TYPE_UNSPECIFIED None ∅ None [].

Definition set_scalar (s : option DataEffect) (r : FlatReduced) : FlatReduced :=
  mkFlat (r_op r) (r_merge r) (r_collection r) (r_hlc r) (r_node_id r) (r_commutative r) s
    (r_net_adds r) (r_net_removes r) (r_ordered r) (r_type_tag r) (r_expires_at r)
    (r_subscribers r) (r_serialization_leader r) (r_fork_choice_hash r).

Definition set_merge (m : MergeRule) (c : bool) (r : FlatReduced) : FlatReduced :=
  mkFlat (r_op r) m (r_collection r) (r_hlc r) (r_node_id r) c (r_scalar r)
    (r_net_adds r) (r_net_removes r) (r_ordered r) (r_type_tag r) (r_expires_at r)
    (r_subscribers r) (r_serialization_leader r) (r_fork_choice_hash r).

Definition set_collection (k : CollectionKind) (r : FlatReduced) : FlatReduced :=
  mkFlat (r_op r) (r_merge r) k (r_hlc r) (r_node_id r) (r_commutative r) (r_scalar r)
    (r_net_adds r) (r_net_removes r) (r_ordered r) (r_type_tag r) (r_expires_at r)
    (r_subscribers r) (r_serialization_leader r) (r_fork_choice_hash r).

Definition set_keyed (a : gmap bytes ReducedElement) (d : gset bytes) (r : FlatReduced) : FlatReduced :=
  mkFlat (r_op r) (r_merge r) (r_collection r) (r_hlc r) (r_node_id r) (r_commutative r) (r_scalar r)
    a d (r_ordered r) (r_type_tag r) (r_expires_at r)
    (r_subscribers r) (r_serialization_leader r) (r_fork_choice_hash r).

Definition set_ordered (o : list ReducedElement) (d : gset bytes) (r : FlatReduced) : FlatReduced :=
  mkFlat (r_op r) (r_merge r) (r_collection r) (r_hlc r) (r_node_id r) (r_commutative r) (r_scalar r)
    (r_net_adds r) d o (r_type_tag r) (r_expires_at r)
    (r_subscribers r) (r_serialization_leader r) (r_fork_choice_hash r).

Definition set_type_tag (t : ValueType) (r : FlatReduced) : FlatReduced :=
  mkFlat (r_op r) (r_merge r) (r_collection r) (r_hlc r) (r_node_id r) (r_commutative r) (r_scalar r)
    (r_net_adds r) (r_net_removes r) (r_ordered r) t (r_expires_at r)
    (r_subscribers r) (r_serialization_leader r) (r_fork_choice_hash r).

Definition set_expires_at (t : option Timestamp) (r : FlatReduced) : FlatReduced :=
  mkFlat (r_op r) (r_merge r) (r_collection r) (r_hlc r) (r_node_id r) (r_commutative r) (r_scalar r)
    (r_net_adds r) (r_net_removes r) (r_ordered r) (r_type_tag r) t
    (r_subscribers r) (r_serialization_leader r) (r_fork_choice_hash r).

Definition set_leader (l : option Z) (r : FlatReduced) : FlatReduced :=
  mkFlat (r_op r) (r_merge r) (r_collection r) (r_hlc r) (r_node_id r) (r_commutative r) (r_scalar r)
    (r_net_adds r) (r_net_removes r) (r_ordered r) (r_type_tag r) (r_expires_at r)
    (r_subscribers r) l (r_fork_choice_hash r).

Definition set_stamp (h : option Timestamp) (n : Z) (f : bytes) (r : FlatReduced) : FlatReduced :=
  mkFlat (r_op r) (r_merge r) (r_collection r) h n (r_commutative r) (r_scalar r)
    (r_net_adds r) (r_net_removes r) (r_ordered r) (r_type_tag r) (r_expires_at r)
    (r_subscribers r) (r_serialization_leader r) f.

Definition set_subscribers (s : gmap Z bool) (r : FlatReduced) : FlatReduced :=
  mkFlat (r_op r) (r_merge r) (r_collection r) (r_hlc r) (r_node_id r) (r_commutative r) (r_scalar r)
    (r_net_adds r) (r_net_removes r) (r_ordered r) (r_type_tag r) (r_expires_at r)
    s (r_serialization_leader r) (r_fork_choice_hash r).

Definition set_value (v : DataValue) (d : DataEffect) : DataEffect :=
  mkData (d_op d) (d_merge d) (d_collection d) (d_placement d) (d_reference d) (d_id d) (Some v).

Definition set_data_merge (m : MergeRule) (d : DataEffect) : DataEffect :=
  mkData (d_op d) m (d_collection d) (d_placement d) (d_reference d) (d_id d) (d_value d).

(** ** Helpers *)

Definition isCommutative (m : MergeRule) : bool :=
  match m with
  | ADDITIVE_INT | ADDITIVE_FLOAT | MAX_INT | MAX_BYTES => true
  | LAST_WRITE_WINS | FIRST_WRITE_WINS => false
  | MergeRule_other _ => false
  end.

(** A shallow copy, field by field and arm by arm. *)
Definition cloneData (d : DataEffect) : DataEffect :=
  mkData (d_op d) (d_merge d) (d_collection d) (d_placement d) (d_reference d) (d_id d)
    match d_value d with
    | Some (Raw b) => Some (Raw b)
    | Some (IntVal z) => Some (IntVal z)
    | Some (FloatVal f) => Some (FloatVal f)
    | Some (Compressed c) => Some (Compressed c)
    | Some (Child b) => Some (Child b)
    | None => None
    end.

Definition elementFromData (e : Effect) (d : DataEffect) : ReducedElement :=
  mkElement (cloneData d) (e_hlc e) (e_node_id e) None (e_fork_choice_hash e).

Definition rawToInt (b : bytes) : Z :=
  if nonempty b then (parse_int b).1 else 0.

Definition rawToFloat (b : bytes) : f64 :=
  if nonempty b then parse_float b else f64_zero.

Definition scalarIntBase (d : DataEffect) : Z :=
  match d_value d with Some (IntVal z) => z | _ => rawToInt (decompress d) end.

Definition scalarFloatBase (d : DataEffect) : f64 :=
  match d_value d with Some (FloatVal f) => f | _ => rawToFloat (decompress d) end.

(** Everything but the partitions and the subscribers. *)
Definition cloneReducedFlat (r : FlatReduced) : FlatReduced :=
  mkFlat (r_op r) (r_merge r) (r_collection r) (r_hlc r) (r_node_id r) (r_commutative r)
    (cloneData <$> r_scalar r) (r_net_adds r) (r_net_removes r) (r_ordered r)
    (r_type_tag r) (r_expires_at r) ∅ (r_serialization_leader r) (r_fork_choice_hash r).

Definition cloneReduced (r : ReducedEffect) : ReducedEffect :=
  mkReduced (cloneReducedFlat (red_root r)) (cloneReducedFlat <$> red_partitions r).

(** ** One effect *)

Definition reduceFirst (e : Effect) (d : DataEffect) : FlatReduced :=
  let base (scalar : option DataEffect) adds removes ordered :=
    mkFlat (d_op d) (d_merge d) (d_collection d) (e_hlc e) (e_node_id e)
      (isCommutative (d_merge d)) scalar adds removes ordered
      TYPE_UNSPECIFIED None ∅ None (e_fork_choice_hash e) in
  match d_collection d with
  | SCALAR => base (Some (cloneData d)) ∅ ∅ []
  | KEYED =>
      if op_is (d_op d) INSERT_OP
      then base None {[ d_id d := elementFromData e d ]} ∅ []
      else base None ∅ {[ d_id d ]} []
  | ORDERED =>
      if op_is (d_op d) INSERT_OP
      then base None ∅ ∅ [elementFromData e d]
      else base None ∅ ∅ []
  | CollectionKind_other _ => base None ∅ ∅ []
  end.

(** The MAX_BYTES combination: the accumulated bytes in a buffer of the larger
    length (zero-filled), then each byte of [b] that is greater than the
    buffer's replaces it. *)
Fixpoint fold_max (result b : bytes) : bytes :=
  match result, b with
  | x :: result', y :: b' => (if b2z x <? b2z y then y else x) :: fold_max result' b'
  | _, _ => result
  end.

Definition max_bytes (a b : bytes) : bytes :=
  fold_max (a ++ replicate (length b - length a) x00) b.

Definition reduceScalar (r : FlatReduced) (e : Effect) (d : DataEffect) : FlatReduced :=
  match r_scalar r with
  | None => set_merge (d_merge d) (r_commutative r) (set_scalar (Some (cloneData d)) r)
  | Some s =>
      match d_merge d with
      | ADDITIVE_INT =>
          match r_merge r with
          | ADDITIVE_INT =>
              set_scalar (Some (set_value (IntVal (wrap64 (get_int_val s + get_int_val d))) s)) r
          | LAST_WRITE_WINS =>
              set_merge LAST_WRITE_WINS false
                (set_scalar (Some (set_data_merge LAST_WRITE_WINS
                   (set_value (IntVal (wrap64 (scalarIntBase s + get_int_val d))) s))) r)
          | _ => r
          end
      | ADDITIVE_FLOAT =>
          match r_merge r with
          | ADDITIVE_FLOAT =>
              set_scalar (Some (set_value (FloatVal (f64_add (get_float_val s) (get_float_val d))) s)) r
          | LAST_WRITE_WINS =>
              set_merge LAST_WRITE_WINS false
                (set_scalar (Some (set_data_merge LAST_WRITE_WINS
                   (set_value (FloatVal (f64_add (scalarFloatBase s) (get_float_val d))) s))) r)
          | _ => r
          end
      | LAST_WRITE_WINS =>
          set_expires_at None (set_merge LAST_WRITE_WINS false (set_scalar (Some (cloneData d)) r))
      | FIRST_WRITE_WINS => r
      | MAX_INT =>
          if get_int_val s <? get_int_val d
          then set_scalar (Some (set_value (IntVal (get_int_val d)) s)) r
          else r
      | MAX_BYTES =>
          set_scalar (Some (set_value (Raw (max_bytes (decompress s) (decompress d))) s)) r
      | MergeRule_other _ => r
      end
  end.

(** A fresh element around [v]: data and stamps of [x], no fork-choice hash. *)
Definition accumulated (x : ReducedElement) (v : DataValue) : ReducedElement :=
  mkElement (set_value v (cloneData (re_data x))) (re_hlc x) (re_node_id x) (re_expires_at x) [].

Definition reduceKeyed (r : FlatReduced) (e : Effect) (d : DataEffect) : FlatReduced :=
  let adds := r_net_adds r in
  let key := d_id d in
  if op_is (d_op d) REMOVE_OP then
    match adds !! key with
    | Some _ => set_keyed (delete key adds) (r_net_removes r) r
    | None => set_keyed adds ({[ key ]} ∪ r_net_removes r) r
    end
  else
    match adds !! key with
    | None => set_keyed (<[ key := elementFromData e d ]> adds) (r_net_removes r ∖ {[ key ]}) r
    | Some x =>
        let put y := set_keyed (<[ key := y ]> adds) (r_net_removes r) r in
        match d_merge d with
        | ADDITIVE_INT =>
            put (accumulated x (IntVal (wrap64 (scalarIntBase (re_data x) + get_int_val d))))
        | ADDITIVE_FLOAT =>
            put (accumulated x (FloatVal (f64_add (scalarFloatBase (re_data x)) (get_float_val d))))
        | MAX_INT =>
            if get_int_val (re_data x) <? get_int_val d
            then put (accumulated x (IntVal (get_int_val d)))
            else r
        | LAST_WRITE_WINS | FIRST_WRITE_WINS | MAX_BYTES => put (elementFromData e d)
        | MergeRule_other _ => put (elementFromData e d)
        end
    end.

Fixpoint findOrderedByID (elements : list ReducedElement) (id : bytes) : option nat :=
  match elements with
  | [] => None
  | x :: xs => if bool_decide (d_id (re_data x) = id) then Some O else S <$> findOrderedByID xs id
  end.

(** [slices.Insert(l, i, x)] and [slices.Delete(l, i, i+1)]. *)
Definition insert_at {A} (i : nat) (x : A) (l : list A) : list A := take i l ++ x :: drop i l.
Definition delete_at {A} (i : nat) (l : list A) : list A := take i l ++ drop (S i) l.

Definition reduceOrdered (r : FlatReduced) (e : Effect) (d : DataEffect) : FlatReduced :=
  let l := r_ordered r in
  let put l' := set_ordered l' (r_net_removes r) r in
  if op_is (d_op d) REMOVE_OP then
    match findOrderedByID l (d_id d) with
    | Some i => put (delete_at i l)
    | None => set_ordered l ({[ d_id d ]} ∪ r_net_removes r) r
    end
  else
    let elem := elementFromData e d in
    match d_placement d with
    | PLACE_HEAD => put (insert_at 0 elem l)
    | PLACE_TAIL | PLACE_NONE => put (l ++ [elem])
    | PLACE_BEFORE =>
        match findOrderedByID l (d_reference d) with
        | Some i => put (insert_at i elem l)
        | None => put (insert_at 0 elem l)
        end
    | PLACE_AFTER =>
        match findOrderedByID l (d_reference d) with
        | Some i => put (insert_at (S i) elem l)
        | None => put (l ++ [elem])
        end
    | PLACE_SELF =>
        match findOrderedByID l (d_id d) with
        | Some i => put (<[ i := elem ]> l)
        | None => r
        end
    | Placement_other _ => r
    end.

Definition reduceAccumulate (r : FlatReduced) (e : Effect) (d : DataEffect) : FlatReduced :=
  let r :=
    if coll_is (d_collection d) SCALAR && negb (coll_is (r_collection r) SCALAR)
    then set_ordered [] ∅ (set_keyed ∅ ∅ r)
    else r in
  let r := set_collection (d_collection d) r in
  match d_collection d with
  | SCALAR => reduceScalar r e d
  | KEYED => reduceKeyed r e d
  | ORDERED => reduceOrdered r e d
  | CollectionKind_other _ => r
  end.

(** The [MetaEffect] arm of the loop: type tag, element TTL, key TTL. *)
Definition reduceMeta (r : FlatReduced) (m : MetaEffect) : FlatReduced :=
  let r := if type_is (m_type_tag m) TYPE_UNSPECIFIED then r else set_type_tag (m_type_tag m) r in
  if nonempty (m_element_id m) then
    match r_net_adds r !! m_element_id m with
    | Some x =>
        set_keyed (<[ m_element_id m := mkElement (re_data x) (re_hlc x) (re_node_id x)
                        (m_expires_at m) (re_fork_choice_hash x) ]> (r_net_adds r))
          (r_net_removes r) r
    | None => r
    end
  else if match m_expires_at m with Some _ => true | None => false end || type_is (m_type_tag m) TYPE_UNSPECIFIED
  then set_expires_at (m_expires_at m) r
  else r.

(** The [SerializationEffect] arm. *)
Definition reduceSerialization (r : option FlatReduced) (s : SerializationEffect) : FlatReduced :=
  let r := default (set_merge LAST_WRITE_WINS true empty_flat) r in
  set_leader (if ser_release s then None else Some (ser_leader_node_id s)) r.

(** Key-level DEL inside one partition: REMOVE on a SCALAR. *)
Definition is_key_del (d : DataEffect) : bool :=
  op_is (d_op d) REMOVE_OP && coll_is (d_collection d) SCALAR.

(** One iteration of the loop of [reduceFlatOwned]: the accumulator and [hadDel]. *)
Definition reduce_effect (st : option FlatReduced * bool) (e : Effect) : option FlatReduced * bool :=
  match get_data e with
  | Some d =>
      if is_key_del d then (None, true)
      else match st.1 with
           | None => (Some (reduceFirst e d), st.2)
           | Some r => (Some (reduceAccumulate r e d), st.2)
           end
  | None =>
      match get_meta e with
      | Some m => (Some (reduceMeta (default empty_flat st.1) m), st.2)
      | None =>
          match get_subscription e with
          | Some _ => st
          | None =>
              match get_serialization e with
              | Some s => (Some (reduceSerialization st.1 s), st.2)
              | None => st
              end
          end
      end
  end.

(** ** Chains *)

Definition del_marker (last : Effect) : FlatReduced :=
  mkFlat REMOVE_OP LAST_WRITE_WINS SCALAR (e_hlc last) (e_node_id last) false None ∅ ∅ []
    TYPE_UNSPECIFIED None ∅ None [].

Definition reduceFlatOwned (r : option FlatReduced) (effects : list Effect) : option FlatReduced :=
  match effects with
  | [] => r
  | first :: _ =>
      let last := List.last effects first in
      let st :=
        match r with
        | Some s => if op_is (r_op s) REMOVE_OP then (None, true) else (r, false)
        | None => (None, false)
        end in
      match fold_left reduce_effect effects st with
      | (None, true) => Some (del_marker last)
      | (None, false) => None
      | (Some r', _) => Some (set_stamp (e_hlc last) (e_node_id last) (e_fork_choice_hash first) r')
      end
  end.

Definition reduceFlat (seed : option FlatReduced) (effects : list Effect) : option FlatReduced :=
  match seed, effects with
  | None, [] => None
  | _, _ => reduceFlatOwned (cloneReducedFlat <$> seed) effects
  end.

Definition hasVirtualEffects (effects : list Effect) : bool :=
  existsb (fun e => nonempty (e_virtual e)) effects.

Definition isRootKeyDel (e : Effect) : bool :=
  if nonempty (e_virtual e) then false
  else match get_data e with
       | Some d => op_is (d_op d) REMOVE_OP && coll_is (d_collection d) SCALAR
                   && negb (nonempty (d_id d))
       | None => false
       end.

(** The suffix of the chain from its last root DEL, if it has one. *)
Fixpoint from_last_del (effects : list Effect) : option (list Effect) :=
  match effects with
  | [] => None
  | e :: es =>
      match from_last_del es with
      | Some l => Some l
      | None => if isRootKeyDel e then Some (e :: es) else None
      end
  end.

(** The effects of one partition, in chain order. *)
Definition partition_chain (v : bytes) (effects : list Effect) : list Effect :=
  filter (fun e => e_virtual e = v) effects.

(** The non-root partitions a chain touches. *)
Definition touched (effects : list Effect) : gset bytes :=
  list_to_set (filter (fun v => v <> []) (map e_virtual effects)).

Definition reducePartitioned (seed : option ReducedEffect) (effects : list Effect) : option ReducedEffect :=
  let '(liveSeed, live) :=
    match from_last_del effects with
    | Some l => (None, l)
    | None => (seed, effects)
    end in
  let root := reduceFlat (red_root <$> liveSeed) (partition_chain [] live) in
  let seed_parts := from_option red_partitions ∅ liveSeed in
  let parts : gmap bytes FlatReduced :=
    omap id (set_to_map (fun v => (v, reduceFlat (seed_parts !! v) (partition_chain v live)))
               (touched live))
    ∪ filter (fun kv => kv.1 ∉ touched live) seed_parts in
  if decide (parts = ∅) then (fun f => mkReduced f ∅) <$> root
  else Some (mkReduced (default empty_flat root) parts).

(** The test on which [ReduceChain] and [reduceChainOwned] dispatch. *)
Definition is_flat_chain (seed : option ReducedEffect) (effects : list Effect) : bool :=
  match seed with
  | None => true
  | Some s => bool_decide (red_partitions s = ∅)
  end && negb (hasVirtualEffects effects).

Definition ReduceChain (seed : option ReducedEffect) (effects : list Effect) : option ReducedEffect :=
  if is_flat_chain seed effects
  then (fun f => mkReduced f ∅) <$> reduceFlat (red_root <$> seed) effects
  else reducePartitioned seed effects.

Definition reduceChainOwned (seed : option ReducedEffect) (effects : list Effect) : option ReducedEffect :=
  if is_flat_chain seed effects
  then (fun f => mkReduced f ∅) <$> reduceFlatOwned (red_root <$> seed) effects
  else reducePartitioned seed effects.

Definition ReduceBranch (effects : list Effect) : option ReducedEffect := ReduceChain None effects.

(** ** What later steps cannot see

    Reduction never reads the stamps (HLC, node, fork-choice hash) or the
    subscribers of its accumulator: overwriting them commutes with every step. *)

Definition restamp (h : option Timestamp) (n : Z) (f : bytes) (s : gmap Z bool)
    (r : FlatReduced) : FlatReduced :=
  set_stamp h n f (set_subscribers s r).

(** A state with its stamps and subscribers blanked. *)
Abbreviation blank := (restamp None 0 [] ∅).

(** A state with only the fork-choice hash and the subscribers blanked. *)
Definition unhash (r : FlatReduced) : FlatReduced := restamp (r_hlc r) (r_node_id r) [] ∅ r.

Definition unhash_red (r : ReducedEffect) : ReducedEffect :=
  mkReduced (unhash (red_root r)) (unhash <$> red_partitions r).

Lemma cloneData_id d : cloneData d = d.
Proof. destruct d as [? ? ? ? ? ? [[]|]]; reflexivity. Qed.

Lemma cloneReducedFlat_eq r : cloneReducedFlat r = set_subscribers ∅ r.
Proof.
  unfold cloneReducedFlat, set_subscribers. f_equal.
  destruct (r_scalar r); simpl; [by rewrite cloneData_id | done].
Qed.

Lemma reduceScalar_restamp h n f s r e d :
  reduceScalar (restamp h n f s r) e d = restamp h n f s (reduceScalar r e d).
Proof.
  unfold reduceScalar. simpl. destruct (r_scalar r), (d_merge d), (r_merge r);
    try case_match; reflexivity.
Qed.

Lemma reduceKeyed_restamp h n f s r e d :
  reduceKeyed (restamp h n f s r) e d = restamp h n f s (reduceKeyed r e d).
Proof.
  unfold reduceKeyed. simpl. destruct (op_is _ _), (r_net_adds r !! d_id d); try reflexivity.
  destruct (d_merge d); try reflexivity. by case_match.
Qed.

Lemma reduceOrdered_restamp h n f s r e d :
  reduceOrdered (restamp h n f s r) e d = restamp h n f s (reduceOrdered r e d).
Proof.
  unfold reduceOrdered. simpl.
  destruct (op_is _ _), (d_placement d); simpl; try case_match; reflexivity.
Qed.

Lemma reduceAccumulate_restamp h n f s r e d :
  reduceAccumulate (restamp h n f s r) e d = restamp h n f s (reduceAccumulate r e d).
Proof.
  unfold reduceAccumulate. simpl.
  destruct (_ && _), (d_collection d); try reflexivity;
    rewrite <- ?reduceScalar_restamp, <- ?reduceKeyed_restamp, <- ?reduceOrdered_restamp;
    reflexivity.
Qed.

Lemma reduceMeta_restamp h n f s r m :
  reduceMeta (restamp h n f s r) m = restamp h n f s (reduceMeta r m).
Proof.
  unfold reduceMeta. simpl. repeat (case_match; simplify_eq/=; try reflexivity).
Qed.

(** Two loop states that only differ in what reduction cannot see. *)
Definition st_equiv (x y : option FlatReduced * bool) : Prop :=
  blank <$> x.1 = blank <$> y.1 /\ (x.1 = None -> x.2 = y.2).

Lemma blank_blank r r' h n f s :
  blank r = blank r' -> restamp h n f s r = restamp h n f s r'.
Proof. intros E. exact (f_equal (restamp h n f s) E). Qed.

Lemma reduce_effect_equiv x y e :
  st_equiv x y -> st_equiv (reduce_effect x e) (reduce_effect y e).
Proof.
  destruct x as [[x|] bx], y as [[y|] by_]; intros [Hb Hd]; simpl in Hb, Hd; try discriminate Hb.
  - apply (inj Some) in Hb. unfold reduce_effect, st_equiv; simpl.
    destruct (get_data e) as [d|].
    { destruct (is_key_del d); [done|]. split; [|done]. simpl. f_equal.
      rewrite <- !reduceAccumulate_restamp. by rewrite Hb. }
    destruct (get_meta e) as [m|].
    { split; [|done]. simpl. f_equal. rewrite <- !reduceMeta_restamp. by rewrite Hb. }
    destruct (get_subscription e); [split; [by simpl; f_equal | done]|].
    destruct (get_serialization e) as [se|]; [|split; [by simpl; f_equal | done]].
    split; [|done]. simpl. f_equal. unfold reduceSerialization; simpl.
    generalize (if ser_release se then None else Some (ser_leader_node_id se)). intros o.
    exact (f_equal (set_leader o) Hb).
  - rewrite (Hd eq_refl). done.
Qed.

Lemma fold_reduce_equiv l x y :
  st_equiv x y -> st_equiv (fold_left reduce_effect l x) (fold_left reduce_effect l y).
Proof.
  revert x y; induction l as [|e l IH]; intros x y H; simpl; [done|].
  by apply IH, reduce_effect_equiv.
Qed.

(** The state in which the loop of [reduceFlatOwned] starts. *)
Definition start (r : option FlatReduced) : option FlatReduced * bool :=
  match r with
  | Some s => if op_is (r_op s) REMOVE_OP then (None, true) else (r, false)
  | None => (None, false)
  end.

(** How the loop's final state is stamped. *)
Definition finish (first last : Effect) (st : option FlatReduced * bool) : option FlatReduced :=
  match st with
  | (None, true) => Some (del_marker last)
  | (None, false) => None
  | (Some r, _) => Some (set_stamp (e_hlc last) (e_node_id last) (e_fork_choice_hash first) r)
  end.

Lemma reduceFlatOwned_cons r e es :
  reduceFlatOwned r (e :: es) =
  finish e (List.last (e :: es) e) (fold_left reduce_effect (e :: es) (start r)).
Proof. reflexivity. Qed.

Lemma finish_equiv f1 f2 l x y :
  st_equiv x y -> unhash <$> finish f1 l x = unhash <$> finish f2 l y.
Proof.
  destruct x as [[x|] []], y as [[y|] []]; intros [Hb Hd]; simpl in *;
    try discriminate Hb; try discriminate (Hd eq_refl); try done;
    apply (inj Some) in Hb; f_equal; apply blank_blank with (h := e_hlc l) (n := e_node_id l)
      (f := []) (s := ∅) in Hb; exact Hb.
Qed.

Lemma start_clone r : st_equiv (start (cloneReducedFlat <$> r)) (start r).
Proof.
  destruct r as [r|]; [|done]. simpl. rewrite cloneReducedFlat_eq. simpl.
  destruct (op_is _ _); done.
Qed.

Lemma reduceFlat_owned_unhash r l :
  unhash <$> reduceFlat r l = unhash <$> reduceFlatOwned r l.
Proof.
  destruct l as [|e l].
  - destruct r as [r|]; simpl; [|done]. by rewrite cloneReducedFlat_eq.
  - transitivity (unhash <$> reduceFlatOwned (cloneReducedFlat <$> r) (e :: l)); [by destruct r|].
    rewrite !reduceFlatOwned_cons. apply finish_equiv, fold_reduce_equiv, start_clone.
Qed.

(** A REMOVE-marked state that is more than the marker of a delete. *)
Definition marked_live (r : option FlatReduced) : Prop :=
  match r with Some r => r_op r = REMOVE_OP | None => False end.

Lemma start_finish first last st :
  ~ marked_live st.1 -> st_equiv (start (finish first last st)) st.
Proof.
  destruct st as [[r|] []]; simpl; intros H; try done;
    unfold op_is; rewrite bool_decide_eq_false_2 by done; done.
Qed.

Lemma last_app_cons {A} (l1 l2 : list A) x d d' :
  List.last (l1 ++ x :: l2) d = List.last (x :: l2) d'.
Proof.
  induction l1 as [|y l1 IH]; simpl.
  - revert x; induction l2 as [|z l2 IH2]; intros x; [done|]. exact (IH2 z).
  - rewrite IH. by destruct l1.
Qed.

(** Reducing a chain in two pieces is reducing it whole. *)
Lemma reduceFlatOwned_app r e1 l1 e2 l2 :
  ~ marked_live (fold_left reduce_effect (e1 :: l1) (start r)).1 ->
  unhash <$> reduceFlatOwned (reduceFlatOwned r (e1 :: l1)) (e2 :: l2) =
  unhash <$> reduceFlatOwned r ((e1 :: l1) ++ e2 :: l2).
Proof.
  intros Hm. rewrite (reduceFlatOwned_cons r e1 l1).
  rewrite reduceFlatOwned_cons. change ((e1 :: l1) ++ e2 :: l2) with (e1 :: l1 ++ e2 :: l2).
  rewrite reduceFlatOwned_cons.
  change (e1 :: l1 ++ e2 :: l2) with ((e1 :: l1) ++ e2 :: l2).
  rewrite fold_left_app, (last_app_cons (e1 :: l1) l2 e2 e1 e2).
  apply finish_equiv, fold_reduce_equiv, start_finish, Hm.
Qed.

End Reduce.
