(* ===== verification/ReduceProps.v ===== *)
(** * Properties of reduction

    The theorems about effects/reduce.go: composition of chains, agreement of
    the owned and flat variants with the general reduction, whole-key delete,
    independence of partitions, order-independence of the commutative rules,
    and the membership semantics of keyed collections. *)

From S2P Require Import Prelude Golib Proto Reduce.

Section Props.
Context {codec : Codec}.
Implicit Types (seed : option ReducedEffect) (l effects : list Effect).

(** ** Flat chains *)

Abbreviation flat := (fun f : FlatReduced => mkReduced f ∅).

Lemma unhash_red_flat (f : option FlatReduced) :
  unhash_red <$> (flat <$> f) = flat <$> (unhash <$> f).
Proof. destruct f; simpl; [|done]. unfold unhash_red; simpl. by rewrite fmap_empty. Qed.

Lemma hasVirtual_false l :
  hasVirtualEffects l = false <-> Forall (fun e => e_virtual e = []) l.
Proof.
  unfold hasVirtualEffects. induction l as [|e l IH]; simpl; [by split|].
  rewrite orb_false_iff, list.Forall_cons, IH. destruct (e_virtual e); naive_solver.
Qed.

Lemma is_flat_app seed l1 l2 :
  is_flat_chain seed (l1 ++ l2) = is_flat_chain seed l1 && negb (hasVirtualEffects l2).
Proof.
  unfold is_flat_chain, hasVirtualEffects. rewrite existsb_app, negb_orb. by rewrite andb_assoc.
Qed.

(** The loop over [l] ends in a live state whose [Op] is REMOVE_OP: what the
    next reduction would take for a delete marker. *)
Definition remove_headed (seed : option ReducedEffect) (l : list Effect) : Prop :=
  marked_live (fold_left reduce_effect l (start (red_root <$> seed))).1.

Lemma marked_live_clone l (r : option FlatReduced) :
  marked_live (fold_left reduce_effect l (start (cloneReducedFlat <$> r))).1 <->
  marked_live (fold_left reduce_effect l (start r)).1.
Proof.
  destruct (fold_reduce_equiv l _ _ (start_clone r)) as [Hb _].
  destruct (fold_left _ _ _).1 as [x|], (fold_left _ _ (start r)).1 as [y|]; simpl in *; try done.
  apply (inj Some), (f_equal r_op) in Hb. simpl in Hb. by rewrite Hb.
Qed.

Lemma reduceFlat_cons (r : option FlatReduced) e es :
  reduceFlat r (e :: es) = reduceFlatOwned (cloneReducedFlat <$> r) (e :: es).
Proof. by destruct r. Qed.

Lemma reduceFlatOwned_unhash (r r' : option FlatReduced) l :
  unhash <$> r = unhash <$> r' -> unhash <$> reduceFlatOwned r l = unhash <$> reduceFlatOwned r' l.
Proof.
  destruct l as [|e es]; [done|]. intros H. rewrite !reduceFlatOwned_cons.
  apply finish_equiv, fold_reduce_equiv.
  destruct r as [r|], r' as [r'|]; simpl in H; try discriminate H; [|done].
  apply (inj Some) in H. simpl.
  assert (r_op r = r_op r') as -> by exact (f_equal r_op H).
  destruct (op_is _ _); [done|]. split; [|done]. simpl. f_equal.
  exact (f_equal (restamp None 0 [] ∅) H).
Qed.

Lemma flat_chain_seed seed l :
  is_flat_chain seed l = true -> seed = flat <$> (red_root <$> seed).
Proof.
  unfold is_flat_chain. destruct seed as [[f m]|]; simpl; [|done].
  intros [->%bool_decide_eq_true _]%andb_true_iff. done.
Qed.

Lemma is_flat_result (r : option FlatReduced) l :
  hasVirtualEffects l = false -> is_flat_chain (flat <$> r) l = true.
Proof.
  unfold is_flat_chain. intros ->. destruct r; simpl; [|done].
  by rewrite bool_decide_eq_true_2.
Qed.

Lemma root_of_flat (r : option FlatReduced) : red_root <$> (flat <$> r) = r.
Proof. by destruct r. Qed.

Lemma reduceFlat_app (r : option FlatReduced) l1 l2 :
  ~ marked_live (fold_left reduce_effect l1 (start r)).1 ->
  unhash <$> reduceFlat (reduceFlat r l1) l2 = unhash <$> reduceFlat r (l1 ++ l2).
Proof.
  intros Hm. rewrite !reduceFlat_owned_unhash.
  rewrite (reduceFlatOwned_unhash _ (reduceFlatOwned r l1) l2) by apply reduceFlat_owned_unhash.
  destruct l1 as [|e1 l1]; [done|]. destruct l2 as [|e2 l2]; [by rewrite app_nil_r|].
  by apply reduceFlatOwned_app.
Qed.


(** Two loop states reduction cannot tell apart, stamped alike, differ at most
    in their subscribers. *)
Lemma finish_unsub (f la : Effect) x y :
  st_equiv x y -> set_subscribers ∅ <$> finish f la x = set_subscribers ∅ <$> finish f la y.
Proof.
  destruct x as [[x|] []], y as [[y|] []]; intros [Hb Hd]; simpl in *;
    try discriminate Hb; try discriminate (Hd eq_refl); try done;
    apply (inj Some) in Hb; f_equal;
    exact (f_equal (restamp (e_hlc la) (e_node_id la) (e_fork_choice_hash f) ∅) Hb).
Qed.

(** The subscribers of every partition blanked. *)
Definition unsub_red (r : ReducedEffect) : ReducedEffect :=
  mkReduced (set_subscribers ∅ (red_root r)) (set_subscribers ∅ <$> red_partitions r).

(** The in-place reduction [reduceChainOwned] computes what [ReduceChain]
    computes; the clone the latter makes only drops the subscribers. *)
Theorem owned_agrees_with_chain seed l :
  unsub_red <$> reduceChainOwned seed l = unsub_red <$> ReduceChain seed l.
Proof.
  unfold reduceChainOwned, ReduceChain. destruct (is_flat_chain seed l) eqn:Hf; [|done].
  assert (forall a b : option FlatReduced, set_subscribers ∅ <$> a = set_subscribers ∅ <$> b ->
    unsub_red <$> (flat <$> a) = unsub_red <$> (flat <$> b)) as Hlift.
  { intros [a|] [b|] E; simpl in *; try discriminate E; [|done]. unfold unsub_red; simpl.
    apply (inj Some) in E. by rewrite E, fmap_empty. }
  apply Hlift. set (r := red_root <$> seed). destruct l as [|e es].
  - destruct r as [r|]; simpl; [|done]. by rewrite cloneReducedFlat_eq.
  - rewrite reduceFlat_cons, !reduceFlatOwned_cons. symmetry.
    apply finish_unsub, fold_reduce_equiv, start_clone.
Qed.

(** ** Whole-key delete and the flat fast path *)

Lemma root_del_resets e st : isRootKeyDel e = true -> reduce_effect st e = (None, true).
Proof.
  unfold isRootKeyDel, reduce_effect, is_key_del.
  destruct (nonempty (e_virtual e)); [done|]. destruct (get_data e) as [d|]; [|done].
  by intros [-> _]%andb_true_iff.
Qed.

Lemma from_last_del_spec l suf :
  from_last_del l = Some suf ->
  exists pre del rest, l = pre ++ suf /\ suf = del :: rest /\ isRootKeyDel del = true.
Proof.
  revert suf; induction l as [|e l IH]; intros suf; simpl; [done|].
  destruct (from_last_del l) as [s'|].
  - intros [= <-]. destruct (IH s' eq_refl) as (pre & del & rest & -> & -> & Hd).
    by exists (e :: pre), del, rest.
  - destruct (isRootKeyDel e) eqn:Hd; [|done]. intros [= <-]. by exists [], e, l.
Qed.

Lemma from_last_del_app l1 l2 :
  from_last_del (l1 ++ l2) =
  match from_last_del l2 with Some s => Some s | None => (fun s => s ++ l2) <$> from_last_del l1 end.
Proof.
  induction l1 as [|e l1 IH]; simpl; [by destruct (from_last_del l2)|].
  rewrite IH. destruct (from_last_del l2); [done|]. destruct (from_last_del l1); simpl; [done|].
  by destruct (isRootKeyDel e).
Qed.

Lemma reduceFlat_from_del (r r' : option FlatReduced) pre pre' del rest :
  isRootKeyDel del = true ->
  unhash <$> reduceFlat r (pre ++ del :: rest) = unhash <$> reduceFlat r' (pre' ++ del :: rest).
Proof.
  intros Hd. rewrite !reduceFlat_owned_unhash.
  assert (forall p q, reduceFlatOwned q (p ++ del :: rest) =
    finish (hd del p) (List.last (del :: rest) del) (fold_left reduce_effect rest (None, true))) as E.
  { intros p q. rewrite <- (last_app_cons p rest del (hd del p) del).
    transitivity (finish (hd del p) (List.last (p ++ del :: rest) (hd del p))
      (fold_left reduce_effect (p ++ del :: rest) (start q))).
    - by destruct p.
    - rewrite fold_left_app. simpl. by rewrite root_del_resets. }
  rewrite !E. by apply finish_equiv.
Qed.

Lemma touched_flat l : hasVirtualEffects l = false -> touched l = ∅.
Proof.
  intros H%hasVirtual_false. unfold touched. induction H as [|e l He _ IH]; simpl; [done|].
  rewrite filter_cons, He. by destruct (decide _).
Qed.

Lemma partition_flat l : hasVirtualEffects l = false -> partition_chain [] l = l.
Proof.
  intros H%hasVirtual_false. unfold partition_chain. induction H as [|e l He _ IH]; simpl; [done|].
  rewrite filter_cons, IH. by destruct (decide _).
Qed.

Lemma hasVirtual_suffix l1 l2 : hasVirtualEffects (l1 ++ l2) = false -> hasVirtualEffects l2 = false.
Proof. rewrite !hasVirtual_false. by intros [_ ?]%Forall_app. Qed.

(** [reducePartitioned] on a live tail that touches no partition. *)
Lemma reducePartitioned_flat seed l suf ls :
  (match from_last_del l with Some l' => (None, l') | None => (seed, l) end) = (ls, suf) ->
  hasVirtualEffects suf = false -> from_option red_partitions ∅ ls = ∅ ->
  reducePartitioned seed l = flat <$> reduceFlat (red_root <$> ls) suf.
Proof.
  intros E Hv Hp. unfold reducePartitioned. rewrite E, Hp, (touched_flat suf) by done.
  rewrite partition_flat by done.
  rewrite decide_True; [done|]. apply map_eq. intros i. rewrite lookup_empty.
  apply lookup_union_None. split; [|by rewrite map_filter_empty].
  rewrite lookup_omap. unfold set_to_map. by rewrite elements_empty.
Qed.

Lemma flat_path seed l :
  is_flat_chain seed l = true ->
  unhash_red <$> reducePartitioned seed l = unhash_red <$> ReduceChain seed l.
Proof.
  intros Hf. unfold ReduceChain. rewrite Hf.
  pose proof Hf as [Hs Hv%negb_true_iff]%andb_true_iff.
  destruct (from_last_del l) as [suf|] eqn:Hd.
  - destruct (from_last_del_spec _ _ Hd) as (pre & del & rest & -> & -> & Hdel).
    rewrite (reducePartitioned_flat seed _ (del :: rest) None); [..|done].
    2: by rewrite Hd. 2: by eapply hasVirtual_suffix.
    rewrite !unhash_red_flat. f_equal. by apply (reduceFlat_from_del _ _ [] pre).
  - rewrite (reducePartitioned_flat seed l l seed); [done|by rewrite Hd|done|].
    destruct seed as [[f m]|]; [|done]. by apply bool_decide_eq_true in Hs.
Qed.

Lemma reduce_chain_partitioned seed l :
  unhash_red <$> ReduceChain seed l = unhash_red <$> reducePartitioned seed l.
Proof.
  destruct (is_flat_chain seed l) eqn:Hf; [by rewrite flat_path|].
  unfold ReduceChain. by rewrite Hf.
Qed.

(** The fast path of [ReduceChain] is an optimisation only: on a flat key
    the general, partitioned reduction gives the same state (up to the
    fork-choice hash, which the general one takes from the last delete on). *)
Theorem flat_path_agrees seed l :
  is_flat_chain seed l = true ->
  unhash_red <$> reducePartitioned seed l = unhash_red <$> ReduceChain seed l.
Proof. apply flat_path. Qed.

(** A key-level delete is a clean slate: what follows it in the chain
    reduces to the same state whatever was there before, in the root or in any
    partition. *)
Theorem root_del_wipes seed seed' l1 l1' del l2 :
  isRootKeyDel del = true ->
  unhash_red <$> ReduceChain seed (l1 ++ del :: l2) =
  unhash_red <$> ReduceChain seed' (l1' ++ del :: l2).
Proof.
  intros Hd. rewrite !reduce_chain_partitioned. f_equal. unfold reducePartitioned.
  rewrite !from_last_del_app. simpl. rewrite Hd. by destruct (from_last_del l2).
Qed.

(** ** Partitions *)

Definition parts_of (s : option ReducedEffect) : gmap bytes FlatReduced :=
  from_option red_partitions ∅ s.

Lemma elem_of_touched v l : v ∈ touched l <-> v <> [] /\ partition_chain v l <> [].
Proof.
  unfold touched, partition_chain. rewrite elem_of_list_to_set, list_elem_of_filter.
  apply and_iff_compat_l.
  induction l as [|e l IH]; simpl; [rewrite elem_of_nil; naive_solver|].
  rewrite elem_of_cons, filter_cons, IH. destruct (decide (e_virtual e = v)); naive_solver.
Qed.

Lemma partitions_lookup (ps : gmap bytes FlatReduced) l v :
  (omap id (set_to_map (fun v => (v, reduceFlat (ps !! v) (partition_chain v l))) (touched l))
   ∪ filter (fun kv => kv.1 ∉ touched l) ps) !! v =
  if decide (v ∈ touched l) then reduceFlat (ps !! v) (partition_chain v l) else ps !! v.
Proof.
  rewrite lookup_union, lookup_omap, map_lookup_filter.
  destruct (decide (v ∈ touched l)) as [Hv|Hv].
  - assert ((set_to_map (fun v => (v, reduceFlat (ps !! v) (partition_chain v l))) (touched l)
      : gmap bytes (option FlatReduced)) !! v = Some (reduceFlat (ps !! v) (partition_chain v l))) as ->.
    { apply lookup_set_to_map; [naive_solver|]. by exists v. }
    assert (forall (o : option FlatReduced) (p : option FlatReduced),
      p = None -> union_with (fun x _ => Some x) o p = o) as Hu by (by intros [] [] ?).
    apply Hu. destruct (ps !! v); simpl; [|done].
    rewrite option_guard_False; [done|]. intros Hn. by apply Hn.
  - destruct ((set_to_map (fun v => (v, reduceFlat (ps !! v) (partition_chain v l))) (touched l)
      : gmap bytes (option FlatReduced)) !! v) as [y|] eqn:E.
    { apply lookup_set_to_map in E as (w & Hw & [= -> _]); [done|naive_solver]. }
    destruct (ps !! v); simpl; [|done]. by rewrite option_guard_True.
Qed.

(** Partitions are independent: without a key-level delete in the chain,
    a partition's state is the flat reduction of that partition's own effects
    over its own seed, and a partition the chain does not touch is carried over
    unchanged. *)
Theorem partitions_independent seed l v :
  from_last_del l = None -> v <> [] ->
  parts_of (ReduceChain seed l) !! v =
  if decide (partition_chain v l = []) then parts_of seed !! v
  else reduceFlat (parts_of seed !! v) (partition_chain v l).
Proof.
  intros Hd Hv. unfold ReduceChain. destruct (is_flat_chain seed l) eqn:Hf.
  - pose proof Hf as [Hs Hn%negb_true_iff]%andb_true_iff.
    rewrite decide_True.
    + rewrite (flat_chain_seed _ _ Hf). unfold parts_of.
      by destruct (reduceFlat _ _), seed as [[]|]; simpl.
    + destruct (decide (partition_chain v l = [])) as [|Hne]; [done|].
      assert (v ∈ touched l) as Hin by (by apply elem_of_touched).
      by rewrite touched_flat in Hin.
  - transitivity ((omap id (set_to_map (fun v => (v, reduceFlat (parts_of seed !! v) (partition_chain v l)))
        (touched l)) ∪ filter (fun kv => kv.1 ∉ touched l) (parts_of seed)) !! v).
    + unfold reducePartitioned. rewrite Hd. fold (parts_of seed).
      destruct (decide _) as [E|]; [|done]. rewrite E. by destruct (reduceFlat _ _).
    + rewrite partitions_lookup. destruct (decide (v ∈ touched l)) as [Hin|Hin];
        rewrite elem_of_touched in Hin.
      * rewrite decide_False; naive_solver.
      * rewrite decide_True; [done|]. destruct (decide (partition_chain v l = [])); naive_solver.
Qed.

Lemma touched_ext l1 l2 :
  (forall v, partition_chain v l1 = partition_chain v l2) -> touched l1 = touched l2.
Proof. intros H. apply set_eq. intros v. by rewrite !elem_of_touched, H. Qed.

Lemma hasVirtual_touched l : hasVirtualEffects l = false <-> touched l = ∅.
Proof.
  split; [apply touched_flat|]. intros Ht. apply hasVirtual_false, Forall_forall.
  intros e He%list_elem_of_In. destruct (decide (e_virtual e = [])) as [|Hne]; [done|].
  exfalso. assert (e_virtual e ∈ touched l) as Hin; [|by rewrite Ht in Hin].
  apply elem_of_touched. split; [done|]. unfold partition_chain. intros Hnil.
  assert (e ∈ filter (fun e' => e_virtual e' = e_virtual e) l) as Hin
    by (by apply list_elem_of_filter).
  rewrite Hnil in Hin. by apply elem_of_nil in Hin.
Qed.

(** Only the order within each partition matters: two chains with the same
    effects per partition, interleaved differently and free of key-level
    deletes, reduce to the same state. *)
Theorem partition_interleaving seed l1 l2 :
  from_last_del l1 = None -> from_last_del l2 = None ->
  (forall v, partition_chain v l1 = partition_chain v l2) ->
  ReduceChain seed l1 = ReduceChain seed l2.
Proof.
  intros H1 H2 Hv. pose proof (touched_ext _ _ Hv) as Ht.
  assert (hasVirtualEffects l1 = hasVirtualEffects l2) as Hh.
  { pose proof (hasVirtual_touched l1) as [A1 A2]. pose proof (hasVirtual_touched l2) as [B1 B2].
    rewrite <- Ht in *. destruct (hasVirtualEffects l1), (hasVirtualEffects l2); intuition. }
  unfold ReduceChain, is_flat_chain. rewrite Hh.
  destruct (match seed with None => true | Some s => _ end && negb _) eqn:Hf.
  - apply andb_true_iff in Hf as [_ Hn%negb_true_iff].
    rewrite <- (partition_flat l1), <- (partition_flat l2), Hv by (done || by rewrite Hh). done.
  - unfold reducePartitioned. rewrite H1, H2. fold (parts_of seed).
    match goal with |- context [ decide (?m1 = ∅) ] =>
      match goal with |- context [ decide (?m2 = ∅) ] =>
        assert_fails (unify m1 m2); replace m2 with m1; [by rewrite Hv|]
      end end.
    apply map_eq. intros v. by rewrite !partitions_lookup, Ht, Hv.
Qed.

End Props.
