(* ===== verification/ReduceMerge.v ===== *)
(** * Merge rules

    What a run of writes under one merge rule reduces to: the commutative rules
    do not depend on the order of the run, last-write-wins keeps the last
    write, and keyed membership is decided by the last operation on the
    element. *)

From S2P Require Import Prelude Golib Proto Reduce.

Section Merge.
Context {codec : Codec}.

(** ** Byte-wise maximum *)

Definition byte_at (l : bytes) (i : nat) : Z := from_option b2z 0 (l !! i).

Lemma byte_at_nonneg l i : 0 <= byte_at l i.
Proof. unfold byte_at. destruct (l !! i) as [b|]; simpl; [pose proof (b2z_range b)|]; lia. Qed.

Lemma fold_max_length a b : length (fold_max a b) = length a.
Proof. revert b; induction a as [|x a IH]; intros [|y b]; simpl; auto. Qed.

Lemma fold_max_at a b i :
  (length b <= length a)%nat -> byte_at (fold_max a b) i = Z.max (byte_at a i) (byte_at b i).
Proof.
  revert b i; induction a as [|x a IH]; intros [|y b] i H; simpl in H.
  - done.
  - lia.
  - simpl. rewrite Z.max_l; [done|]. apply byte_at_nonneg.
  - destruct i as [|i]; [|exact (IH b i ltac:(lia))]. unfold byte_at; simpl. bcase; simpl; lia.
Qed.

Lemma byte_at_pad a n i : byte_at (a ++ replicate n x00) i = byte_at a i.
Proof.
  unfold byte_at. rewrite lookup_app. destruct (a !! i); [done|].
  destruct (replicate n x00 !! _) as [b|] eqn:E; [|done].
  apply lookup_replicate in E as [-> _]. done.
Qed.

Lemma max_bytes_length a b : length (max_bytes a b) = Nat.max (length a) (length b).
Proof. unfold max_bytes. rewrite fold_max_length, length_app, length_replicate. lia. Qed.

Lemma max_bytes_at a b i : byte_at (max_bytes a b) i = Z.max (byte_at a i) (byte_at b i).
Proof.
  unfold max_bytes. rewrite fold_max_at; [by rewrite byte_at_pad|].
  rewrite length_app, length_replicate. lia.
Qed.

Lemma bytes_ext (a b : bytes) :
  length a = length b -> (forall i, byte_at a i = byte_at b i) -> a = b.
Proof.
  intros Hl H. apply list_eq. intros i. specialize (H i). unfold byte_at in H.
  destruct (a !! i) as [x|] eqn:Ea, (b !! i) as [y|] eqn:Eb; simpl in H; [|exfalso..|done].
  - f_equal. by apply b2z_inj.
  - apply lookup_lt_Some in Ea. apply lookup_ge_None in Eb. lia.
  - apply lookup_lt_Some in Eb. apply lookup_ge_None in Ea. lia.
Qed.

Lemma max_bytes_comm a b : max_bytes a b = max_bytes b a.
Proof.
  apply bytes_ext; [rewrite !max_bytes_length; lia|]. intros i. rewrite !max_bytes_at. lia.
Qed.

Lemma max_bytes_right_comm a b c : max_bytes (max_bytes a b) c = max_bytes (max_bytes a c) b.
Proof.
  apply bytes_ext; [rewrite !max_bytes_length; lia|]. intros i. rewrite !max_bytes_at. lia.
Qed.

(** ** Runs of one commutative rule *)

(** [e] writes the scalar [d] under rule [m]. *)
Definition scalar_write (m : MergeRule) (e : Effect) : Prop :=
  exists d, get_data e = Some d /\ d_collection d = SCALAR /\ d_op d <> REMOVE_OP /\ d_merge d = m.

(** The rules whose runs are order-independent, and what each one observes of
    a scalar and how two observations combine. *)
Definition order_free (m : MergeRule) : Prop := m = ADDITIVE_INT \/ m = MAX_INT \/ m = MAX_BYTES.

Definition obs (m : MergeRule) (d : DataEffect) : DataValue :=
  match m with
  | ADDITIVE_INT => IntVal (wrap64 (get_int_val d))
  | MAX_INT => IntVal (get_int_val d)
  | _ => Raw (decompress d)
  end.

Definition comb (m : MergeRule) (a b : DataValue) : DataValue :=
  match m, a, b with
  | ADDITIVE_INT, IntVal x, IntVal y => IntVal (wrap64 (x + y))
  | MAX_INT, IntVal x, IntVal y => IntVal (Z.max x y)
  | MAX_BYTES, Raw x, Raw y => Raw (max_bytes x y)
  | _, _, _ => a
  end.

Definition comb_opt (m : MergeRule) (a : option DataValue) (b : DataValue) : option DataValue :=
  Some (match a with None => b | Some a => comb m a b end).

(** What rule [m] observes of a reduction. *)
Definition scalar_obs (m : MergeRule) (r : option FlatReduced) : option DataValue :=
  match r with Some r => obs m <$> r_scalar r | None => None end.

(** What rule [m] observes of an effect. *)
Definition effect_obs (m : MergeRule) (e : Effect) : DataValue :=
  match get_data e with Some d => obs m d | None => Raw [] end.

Definition run_state (m : MergeRule) (st : option FlatReduced * bool) : Prop :=
  match st.1 with
  | None => True
  | Some r => r_merge r = m /\ exists s, r_scalar r = Some s
  end.

Lemma reduceAccumulate_scalar r e d :
  d_collection d = SCALAR ->
  exists r1, reduceAccumulate r e d = reduceScalar r1 e d /\
    r_scalar r1 = r_scalar r /\ r_merge r1 = r_merge r /\ r_expires_at r1 = r_expires_at r.
Proof.
  intros Hc. unfold reduceAccumulate. rewrite Hc. simpl.
  destruct (negb _); eexists; split; [reflexivity|done|reflexivity|done].
Qed.

Lemma wrap64_idem z : wrap64 (wrap64 z) = wrap64 z.
Proof. apply wrap64_id, wrap64_range. Qed.

Lemma run_step m st e :
  order_free m -> scalar_write m e -> run_state m st ->
  run_state m (reduce_effect st e) /\
  scalar_obs m (reduce_effect st e).1 = comb_opt m (scalar_obs m st.1) (effect_obs m e).
Proof.
  intros Hm (d & Hd & Hc & Ho & Hr) Hst. unfold reduce_effect, effect_obs. rewrite Hd.
  assert (is_key_del d = false) as ->.
  { unfold is_key_del, op_is. by rewrite bool_decide_eq_false_2. }
  destruct st as [[r|] b]; simpl in *.
  - destruct Hst as (Hmr & s & Hs).
    destruct (reduceAccumulate_scalar r e d Hc) as (r1 & -> & Hs1 & Hm1 & _).
    rewrite Hs in Hs1. rewrite Hmr in Hm1. unfold run_state, reduceScalar. rewrite Hs, Hs1, Hr, Hm1.
    destruct Hm as [-> | [-> | ->]]; simpl.
    + split; [by split; eauto|]. unfold comb_opt, obs, get_int_val at 1; simpl.
      by rewrite wrap64_idem, wrap64_add_l, wrap64_add_r.
    + destruct (Z.ltb_spec (get_int_val s) (get_int_val d)); simpl; rewrite ?Hs1;
        (split; [by split; eauto|]); unfold comb_opt, obs; simpl.
      * unfold get_int_val at 1; simpl. by rewrite Z.max_r by lia.
      * by rewrite Z.max_l by lia.
    + split; [by split; eauto|]. done.
  - unfold reduceFirst, run_state. rewrite Hc. simpl. rewrite Hr, cloneData_id. by split; eauto.
Qed.

Lemma run_fold m l st :
  order_free m -> Forall (scalar_write m) l -> run_state m st ->
  scalar_obs m (fold_left reduce_effect l st).1 =
  fold_left (comb_opt m) (map (effect_obs m) l) (scalar_obs m st.1).
Proof.
  intros Hm. revert st; induction l as [|e l IH]; intros st Hl Hst; simpl; [done|].
  apply list.Forall_cons in Hl as [He Hl].
  destruct (run_step m st e Hm He Hst) as [Hst' Hobs]. by rewrite IH, Hobs.
Qed.

Definition typed (m : MergeRule) (v : DataValue) : Prop :=
  match v with
  | IntVal _ => m = ADDITIVE_INT \/ m = MAX_INT
  | Raw _ => m = MAX_BYTES
  | _ => False
  end.

Lemma comb_opt_comm m (a : option DataValue) x y :
  order_free m -> from_option (typed m) True a -> typed m x -> typed m y ->
  comb_opt m (comb_opt m a x) y = comb_opt m (comb_opt m a y) x.
Proof.
  unfold comb_opt. intros Hm Ha Hx Hy. f_equal.
  destruct Hm as [-> | [-> | ->]], a as [[]|], x, y; simpl in *;
    try contradiction; try discriminate; try (destruct Hx as [Hx|Hx]; discriminate Hx);
    try (destruct Hy as [Hy|Hy]; discriminate Hy); try (destruct Ha as [Ha|Ha]; discriminate Ha);
    f_equal;
    rewrite ?wrap64_add_l; try (f_equal; lia); try lia;
    auto using max_bytes_comm, max_bytes_right_comm.
Qed.

Lemma scalar_obs_finish m f la st :
  scalar_obs m (finish f la st) = scalar_obs m st.1.
Proof. destruct st as [[r|] []]; reflexivity. Qed.

Lemma reduceFlat_run m l :
  order_free m -> Forall (scalar_write m) l ->
  scalar_obs m (reduceFlat None l) = fold_left (comb_opt m) (map (effect_obs m) l) None.
Proof.
  intros Hm Hl. destruct l as [|e l]; [done|].
  change (reduceFlat None (e :: l)) with (reduceFlatOwned None (e :: l)).
  rewrite reduceFlatOwned_cons, scalar_obs_finish. by rewrite run_fold.
Qed.

Lemma effect_obs_typed m e : order_free m -> scalar_write m e -> typed m (effect_obs m e).
Proof.
  intros Hm (d & Hd & _). unfold effect_obs. rewrite Hd.
  destruct Hm as [-> | [-> | ->]]; simpl; auto.
Qed.

Lemma comb_typed m a b : order_free m -> typed m a -> typed m b -> typed m (comb m a b).
Proof. destruct 1 as [-> | [-> | ->]], a, b; simpl; intuition. Qed.

Lemma obs_list_typed m l :
  order_free m -> Forall (scalar_write m) l -> Forall (typed m) (map (effect_obs m) l).
Proof. intros Hm. induction 1; simpl; constructor; auto using effect_obs_typed. Qed.

Lemma fold_comb_perm m (l l' : list DataValue) :
  order_free m -> l ≡ₚ l' -> forall a, Forall (typed m) l -> from_option (typed m) True a ->
  fold_left (comb_opt m) l a = fold_left (comb_opt m) l' a.
Proof.
  intros Hm. induction 1 as [|x l l' _ IH|x y l|l1 l2 l3 Hp IH1 _ IH2]; intros a Hl Ha; simpl.
  - done.
  - apply list.Forall_cons in Hl as [Hx Hl]. apply IH; [done|].
    destruct a; simpl; auto using comb_typed.
  - apply list.Forall_cons in Hl as [Hy [Hx Hl]%list.Forall_cons]. by rewrite comb_opt_comm.
  - rewrite IH1 by done. apply IH2; [by rewrite <- Hp | done].
Qed.

(** A run of ADDITIVE_INT, MAX_INT or MAX_BYTES writes reduces to the same
    scalar in whatever order the run is taken: concurrent writes under these
    rules need no ordering among themselves. *)
Theorem commutative_run_order_free m l l' :
  order_free m -> Forall (scalar_write m) l -> l ≡ₚ l' ->
  scalar_obs m (reduceFlat None l) = scalar_obs m (reduceFlat None l').
Proof.
  intros Hm Hl Hp. rewrite !reduceFlat_run by (done || by rewrite <- Hp).
  apply fold_comb_perm; [done|by rewrite Hp|by apply obs_list_typed|done].
Qed.

(** The integer a data effect adds. *)
Definition delta (e : Effect) : Z := match get_data e with Some d => get_int_val d | None => 0 end.

Definition sum_deltas (l : list Effect) : Z := foldr (fun e acc => delta e + acc) 0 l.

Lemma fold_comb_sum l a :
  Forall (scalar_write ADDITIVE_INT) l ->
  fold_left (comb_opt ADDITIVE_INT) (map (effect_obs ADDITIVE_INT) l) (Some (IntVal (wrap64 a))) =
  Some (IntVal (wrap64 (a + sum_deltas l))).
Proof.
  intros Hl. revert a; induction Hl as [|e l (d & Hd & _) _ IH]; intros a; simpl.
  - by rewrite Z.add_0_r.
  - unfold effect_obs at 2, delta. rewrite Hd. unfold comb_opt at 2, obs; simpl.
    rewrite wrap64_add_l, wrap64_add_r, IH. do 2 f_equal. f_equal. lia.
Qed.

(** One increment over a last-write-wins base, and a run of them. *)
Lemma lww_increment r s b e :
  r_scalar r = Some s -> r_merge r = LAST_WRITE_WINS -> scalar_write ADDITIVE_INT e ->
  exists r' s', reduce_effect (Some r, b) e = (Some r', b) /\ r_scalar r' = Some s' /\
    r_merge r' = LAST_WRITE_WINS /\ d_value s' = Some (IntVal (wrap64 (scalarIntBase s + delta e))).
Proof.
  intros Hs Hr (d & Hd & Hc & Ho & Hm). unfold reduce_effect, delta. rewrite Hd.
  assert (is_key_del d = false) as ->.
  { unfold is_key_del, op_is. by rewrite bool_decide_eq_false_2. }
  simpl. destruct (reduceAccumulate_scalar r e d Hc) as (r2 & -> & Hs2 & Hm2 & _).
  rewrite Hs in Hs2. rewrite Hr in Hm2. unfold reduceScalar. rewrite Hs2, Hm, Hm2.
  do 2 eexists. split; [reflexivity|]. simpl. auto.
Qed.

Lemma lww_run l : forall r s b,
  r_scalar r = Some s -> r_merge r = LAST_WRITE_WINS ->
  Forall (scalar_write ADDITIVE_INT) l -> l <> [] ->
  exists r' s', fold_left reduce_effect l (Some r, b) = (Some r', b) /\ r_scalar r' = Some s' /\
    d_value s' = Some (IntVal (wrap64 (scalarIntBase s + sum_deltas l))).
Proof.
  induction l as [|e l IH]; intros r s b Hs Hr Hl Hne; [done|].
  apply list.Forall_cons in Hl as [He Hl].
  destruct (lww_increment r s b e Hs Hr He) as (r1 & s1 & E1 & Hs1 & Hr1 & Hv1).
  simpl. rewrite E1. destruct (decide (l = [])) as [->|Hne'].
  - exists r1, s1. simpl. rewrite Z.add_0_r. auto.
  - destruct (IH r1 s1 b Hs1 Hr1 Hl Hne') as (r2 & s2 & E2 & Hs2 & Hv2).
    exists r2, s2. split; [done|]. split; [done|]. rewrite Hv2. unfold scalarIntBase at 1.
    rewrite Hv1, wrap64_add_l. do 3 f_equal. lia.
Qed.

(** [C31] A counter is its base plus the sum of the deltas folded into it, at the
    int64 width: over a base set by a last-write-wins write (an integer, or
    bytes that parse as one), any run of increments adds up. *)
Theorem counter_adds_up (base : Effect) (d : DataEffect) l :
  get_data base = Some d -> d_collection d = SCALAR -> d_op d = INSERT_OP ->
  d_merge d = LAST_WRITE_WINS ->
  Forall (scalar_write ADDITIVE_INT) l -> l <> [] ->
  exists r s, reduceFlat None (base :: l) = Some r /\ r_scalar r = Some s /\
    d_value s = Some (IntVal (wrap64 (scalarIntBase d + sum_deltas l))).
Proof.
  intros Hd Hc Ho Hm Hl Hne.
  change (reduceFlat None (base :: l)) with (reduceFlatOwned None (base :: l)).
  rewrite reduceFlatOwned_cons. generalize (List.last (base :: l) base). intros la.
  assert (exists r1, reduce_effect (None, false) base = (Some r1, false) /\
    r_scalar r1 = Some d /\ r_merge r1 = LAST_WRITE_WINS) as (r1 & E1 & Hs & Hr).
  { unfold reduce_effect. rewrite Hd. unfold is_key_del. rewrite Ho. simpl.
    eexists. split; [reflexivity|]. unfold reduceFirst. rewrite Hc. simpl. by rewrite cloneData_id. }
  destruct (lww_run l r1 d false Hs Hr Hl Hne) as (r2 & s2 & E2 & Hs2 & Hv2).
  simpl. rewrite E1, E2. eexists _, s2. split; [reflexivity|]. done.
Qed.

(** ** Last write wins *)

(** [e] overwrites the scalar with [d]. *)
Definition overwrites (e : Effect) (d : DataEffect) : Prop :=
  get_data e = Some d /\ d_collection d = SCALAR /\ d_op d = INSERT_OP /\ d_merge d = LAST_WRITE_WINS.

Lemma overwrites_step st e d :
  overwrites e d ->
  exists r, (reduce_effect st e).1 = Some r /\ r_scalar r = Some d /\
    r_merge r = LAST_WRITE_WINS /\ r_collection r = SCALAR.
Proof.
  intros (Hd & Hc & Ho & Hm). unfold reduce_effect. rewrite Hd. unfold is_key_del. rewrite Ho. simpl.
  destruct st as [[r|] b]; simpl; eexists; (split; [reflexivity|]).
  - unfold reduceAccumulate. rewrite Hc. simpl.
    destruct (negb _); unfold reduceScalar; simpl; destruct (r_scalar r); rewrite ?Hm; simpl;
      by rewrite ?cloneData_id.
  - unfold reduceFirst. rewrite Hc, Hm. simpl. by rewrite cloneData_id.
Qed.

(** Last write wins, in chain order: whatever the seed and the chain before
    it, after an overwriting SCALAR write the key's scalar is that write, its
    rule is last-write-wins, and the state carries that write's HLC. *)
Theorem last_write_wins (seed : option FlatReduced) l e d :
  overwrites e d ->
  exists r, reduceFlat seed (l ++ [e]) = Some r /\ r_scalar r = Some d /\
    r_merge r = LAST_WRITE_WINS /\ r_collection r = SCALAR /\ r_hlc r = e_hlc e.
Proof.
  intros Hw. set (f := hd e l).
  assert (reduceFlat seed (l ++ [e]) =
    finish f e (reduce_effect (fold_left reduce_effect l (start (cloneReducedFlat <$> seed))) e)) as ->.
  { assert (reduceFlat seed (l ++ [e]) = reduceFlatOwned (cloneReducedFlat <$> seed) (l ++ [e])) as ->
      by (destruct seed, l; reflexivity).
    transitivity (finish f (List.last (l ++ [e]) f)
      (fold_left reduce_effect (l ++ [e]) (start (cloneReducedFlat <$> seed)))); [by destruct l|].
    by rewrite fold_left_app, (last_app_cons l [] e f e). }
  destruct (overwrites_step (fold_left reduce_effect l (start (cloneReducedFlat <$> seed))) e d Hw)
    as (r & E & Hs & Hm & Hc).
  destruct (reduce_effect _ e) as [o b]. simpl in E. subst o. simpl. eexists. split; [done|]. done.
Qed.

(** The TTL after an overwriting SCALAR write: cleared when the write
    replaces a scalar, but inherited when it replaces a hash, set or list. *)
Theorem overwrite_ttl r e d :
  overwrites e d ->
  r_expires_at (reduceAccumulate r e d) =
  match r_scalar r with Some _ => None | None => r_expires_at r end.
Proof.
  intros (Hd & Hc & Ho & Hm).
  destruct (reduceAccumulate_scalar r e d Hc) as (r1 & -> & Hs & _ & Hx).
  unfold reduceScalar. rewrite Hs, Hm. destruct (r_scalar r); simpl; done.
Qed.

(** ** Keyed collections *)

Definition keyed_op (e : Effect) : Prop :=
  exists d, get_data e = Some d /\ d_collection d = KEYED /\ (d_op d = INSERT_OP \/ d_op d = REMOVE_OP).

(** The operation of the last effect of [l] on element [k]. *)
Definition note_op (k : bytes) (acc : option EffectOp) (e : Effect) : option EffectOp :=
  match get_data e with
  | Some d => if bool_decide (d_id d = k) then Some (d_op d) else acc
  | None => acc
  end.

Definition last_op (k : bytes) (l : list Effect) : option EffectOp := fold_left (note_op k) l None.

(** Membership follows the operations [ops] seen so far, and no element is both
    added and removed. *)
Definition keyed_inv (ops : bytes -> option EffectOp) (st : option FlatReduced * bool) : Prop :=
  match st with
  | (None, b) => b = false /\ forall k, ops k = None
  | (Some r, b) =>
      r_collection r = KEYED /\
      (forall k, k ∈ dom (r_net_adds r) <-> ops k = Some INSERT_OP) /\
      dom (r_net_adds r) ## r_net_removes r
  end.

Lemma keyed_step ops st e :
  keyed_op e -> keyed_inv ops st -> keyed_inv (fun k => note_op k (ops k) e) (reduce_effect st e).
Proof.
  intros (d & Hd & Hc & Ho) Hst. unfold reduce_effect, note_op. rewrite Hd.
  assert (is_key_del d = false) as ->.
  { unfold is_key_del. rewrite Hc. by rewrite andb_false_r. }
  destruct st as [[r|] b]; simpl in *.
  - destruct Hst as (Hk & Hin & Hdis). unfold reduceAccumulate. rewrite Hc. simpl.
    unfold reduceKeyed; simpl. destruct Ho as [Ho|Ho]; rewrite Ho; simpl.
    + destruct (r_net_adds r !! d_id d) as [x|] eqn:Ex; simpl.
      * assert (d_id d ∈ dom (r_net_adds r)) by (by apply elem_of_dom).
        destruct (d_merge d); try case_match; simpl;
          (split; [done|split; [|rewrite ?dom_insert_L; set_solver]]);
          intros k; rewrite ?dom_insert_L, ?elem_of_union, ?elem_of_singleton, ?Hin;
          case_bool_decide; subst; naive_solver.
      * split; [done|]. split; [|rewrite dom_insert_L; set_solver].
        intros k. rewrite dom_insert_L, elem_of_union, elem_of_singleton, Hin.
        case_bool_decide; naive_solver.
    + destruct (r_net_adds r !! d_id d) as [x|] eqn:Ex; simpl.
      * split; [done|]. split; [|rewrite dom_delete_L; set_solver].
        intros k. rewrite dom_delete_L, elem_of_difference, elem_of_singleton, Hin.
        case_bool_decide; naive_solver.
      * assert (d_id d ∉ dom (r_net_adds r)) as Hni by (by apply not_elem_of_dom).
        split; [done|]. split; [|set_solver].
        intros k. case_bool_decide; [|done]. subst. naive_solver.
  - destruct Hst as [-> Hn]. unfold reduceFirst. rewrite Hc.
    destruct Ho as [Ho|Ho]; rewrite Ho; simpl; (split; [done|]); (split; [|set_solver]);
      intros k; rewrite ?dom_singleton_L, ?dom_empty_L, ?elem_of_singleton;
      case_bool_decide; rewrite ?Hn; set_solver.
Qed.

Lemma keyed_fold l : forall ops st,
  Forall keyed_op l -> keyed_inv ops st ->
  keyed_inv (fun k => fold_left (note_op k) l (ops k)) (fold_left reduce_effect l st).
Proof.
  induction l as [|e l IH]; intros ops st Hl Hst; simpl; [done|].
  apply list.Forall_cons in Hl as [He Hl].
  apply (IH (fun k => note_op k (ops k) e)); [done|]. by apply keyed_step.
Qed.

(** Keyed membership is decided by the last operation on the element: in
    a chain of keyed inserts and removes an element is present exactly when the
    last effect that names it is an insert, and no element is at once a net add
    and a net remove. *)
Theorem keyed_membership l :
  Forall keyed_op l -> l <> [] ->
  exists r, reduceFlat None l = Some r /\
    (forall k, k ∈ dom (r_net_adds r) <-> last_op k l = Some INSERT_OP) /\
    dom (r_net_adds r) ## r_net_removes r.
Proof.
  intros Hl Hne. destruct l as [|e l]; [done|].
  change (reduceFlat None (e :: l)) with (reduceFlatOwned None (e :: l)).
  rewrite reduceFlatOwned_cons.
  pose proof (keyed_fold (e :: l) (fun _ => None) (start None) Hl ltac:(by split)) as Hinv.
  destruct (fold_left reduce_effect (e :: l) (start None)) as [[r|] b] eqn:E.
  - destruct Hinv as (_ & Hin & Hdis). simpl. eexists. split; [reflexivity|]. simpl. auto.
  - destruct Hinv as [_ Hn]. exfalso. apply list.Forall_cons in Hl as [(d & Hd & _) _].
    specialize (Hn (d_id d)). simpl in Hn.
    assert (forall l', fold_left (note_op (d_id d)) l' (Some (d_op d)) <> None) as Hsome.
    { clear. intros l'. generalize (d_op d). induction l' as [|e' l' IH]; intros o; simpl; [done|].
      unfold note_op at 2. destruct (get_data e'); [case_bool_decide|]; apply IH. }
    unfold note_op at 2 in Hn. rewrite Hd, bool_decide_eq_true_2 in Hn by done. by apply Hsome in Hn.
Qed.

End Merge.
