(* ===== verification/Compress.v ===== *)
(** * Value compression (effects/valuecompress.go)

    A writer that compresses swaps the byte values of an effect for their zstd
    form when that is smaller; readers inflate on demand.  The encoder is a
    third-party package: a parameter, with the law that what it makes decodes to
    what it was given. *)

From S2P Require Import Prelude Golib Proto Reduce.

Class Encoder {codec : Codec} := {
  zstd_encode : bytes -> bytes;
  zstd_decode_encode : forall b, zstd_decode (zstd_encode b) = Some b;
}.

Definition compressMinBytes : Z := 64.

Section Compress.
Context {codec : Codec} {encoder : Encoder}.

Definition compressDataValue (d : DataEffect) : DataEffect :=
  match d_value d with
  | Some (Raw raw) =>
      if Z.of_nat (length raw) <? compressMinBytes then d
      else
        let z := zstd_encode raw in
        if Z.of_nat (length raw) <=? Z.of_nat (length z) then d
        else set_value (Compressed (mkCompressed COMPRESSION_ZSTD (Z.of_nat (length raw)) z)) d
  | _ => d
  end.

Definition compressibleData (d : DataEffect) : bool :=
  match d_value d with Some (Raw raw) => compressMinBytes <=? Z.of_nat (length raw) | _ => false end.

Definition compressedElement (elem : ReducedElement) : ReducedElement :=
  mkElement (compressDataValue (cloneData (re_data elem))) (re_hlc elem) (re_node_id elem) (re_expires_at elem) (re_fork_choice_hash elem).

Definition compress_element (elem : ReducedElement) : ReducedElement :=
  if compressibleData (re_data elem) then compressedElement elem else elem.

(** Some value of the state qualifies. *)
Definition touched (r : ReducedEffect) : bool :=
  (match r_scalar (red_root r) with Some d => compressibleData d | None => false end)
  || existsb (fun p => compressibleData (re_data p.2)) (map_to_list (r_net_adds (red_root r)))
  || existsb (fun elem => compressibleData (re_data elem)) (r_ordered (red_root r)).

(** An untouched state comes back as it is, a touched one as a clone. *)
Definition compressReducedState (r : ReducedEffect) : ReducedEffect :=
  if touched r then
    let out := cloneReduced r in
    let f := red_root out in
    mkReduced (set_scalar (match r_scalar f with Some d => Some (if compressibleData d then compressDataValue d else d) | None => None end)
      (set_keyed (compress_element <$> r_net_adds f) (r_net_removes f)
        (set_ordered (compress_element <$> r_ordered f) (r_net_removes f) f))) (red_partitions out)
  else r.

Definition CompressEffectValues (eff : Effect) : Effect :=
  let with_kind k := mkEffect (e_key eff) (e_hlc eff) (e_node_id eff) (e_deps eff) (e_txn_id eff) (e_fork_choice_hash eff) (e_virtual eff) (Some k) in
  match e_kind eff with
  | Some (KData d) => with_kind (KData (compressDataValue d))
  | Some (KSnapshot s) =>
      match s_state s with
      | Some st => with_kind (KSnapshot (mkSnapshot (s_collection s) (Some (compressReducedState st)) (s_txn_verdicts s) (s_prev_snapshot s)))
      | None => eff
      end
  | _ => eff
  end.

(** ** Billing *)

Definition data_delta (d : DataEffect) : Z :=
  match d_value d with
  | Some (Compressed cv) =>
      if Z.of_nat (length (cv_data cv)) <? cv_raw_len cv then wrapu64 (cv_raw_len cv - Z.of_nat (length (cv_data cv))) else 0
  | _ => 0
  end.

Definition state_data (f : FlatReduced) : list DataEffect :=
  match r_scalar f with Some d => [d] | None => [] end ++ map (fun p => re_data p.2) (map_to_list (r_net_adds f)) ++ map re_data (r_ordered f).

Definition effect_data (eff : Effect) : list DataEffect :=
  match e_kind eff with
  | Some (KData d) => [d]
  | Some (KSnapshot s) => match s_state s with Some st => state_data (red_root st) | None => [] end
  | _ => []
  end.

Definition InflatedSizeDelta (eff : Effect) : Z := fold_left (fun acc d => wrapu64 (acc + data_delta d)) (effect_data eff) 0.

(** ** What a reader sees *)

(** The data with its byte value inflated. *)
Definition inflate (d : DataEffect) : DataEffect :=
  match d_value d with
  | Some (Raw _) | Some (Compressed _) => set_value (Raw (decompress d)) d
  | _ => d
  end.

Definition inflate_element (elem : ReducedElement) : ReducedElement :=
  mkElement (inflate (re_data elem)) (re_hlc elem) (re_node_id elem) (re_expires_at elem) (re_fork_choice_hash elem).

Definition inflate_flat (f : FlatReduced) : FlatReduced :=
  set_scalar (inflate <$> r_scalar f)
    (set_keyed (inflate_element <$> r_net_adds f) (r_net_removes f) (set_ordered (inflate_element <$> r_ordered f) (r_net_removes f) f)).

Definition inflate_state (r : ReducedEffect) : ReducedEffect := mkReduced (inflate_flat (red_root r)) (red_partitions r).

Definition no_subscribers (r : ReducedEffect) : ReducedEffect :=
  mkReduced (set_subscribers ∅ (red_root r)) (set_subscribers ∅ <$> red_partitions r).

Definition map_state (f : ReducedEffect -> ReducedEffect) (eff : Effect) : Effect :=
  match e_kind eff with
  | Some (KSnapshot s) =>
      mkEffect (e_key eff) (e_hlc eff) (e_node_id eff) (e_deps eff) (e_txn_id eff) (e_fork_choice_hash eff) (e_virtual eff)
        (Some (KSnapshot (mkSnapshot (s_collection s) (f <$> s_state s) (s_txn_verdicts s) (s_prev_snapshot s))))
  | _ => eff
  end.

Definition seen (eff : Effect) : Effect :=
  match e_kind eff with
  | Some (KData d) =>
      mkEffect (e_key eff) (e_hlc eff) (e_node_id eff) (e_deps eff) (e_txn_id eff) (e_fork_choice_hash eff) (e_virtual eff) (Some (KData (inflate d)))
  | _ => map_state inflate_state eff
  end.

(** The bytes stored for a value, and those compression hid. *)
Definition stored (d : DataEffect) : Z :=
  match d_value d with Some (Raw b) => Z.of_nat (length b) | Some (Compressed cv) => Z.of_nat (length (cv_data cv)) | _ => 0 end.

(** Does compressing the effect clone its state? *)
Definition clones (eff : Effect) : bool :=
  match get_snapshot eff ≫= s_state with Some st => touched st | None => false end.

(** ** Lemmas *)

Lemma compressDataValue_cases d :
  compressDataValue d = d
  \/ exists raw, d_value d = Some (Raw raw) /\ (length (zstd_encode raw) < length raw)%nat
     /\ compressDataValue d = set_value (Compressed (mkCompressed COMPRESSION_ZSTD (Z.of_nat (length raw)) (zstd_encode raw))) d.
Proof.
  unfold compressDataValue. destruct (d_value d) as [[raw| | | |]|]; auto. destruct (_ <? _); [auto|].
  destruct (Z.leb_spec (Z.of_nat (length raw)) (Z.of_nat (length (zstd_encode raw)))); [auto|]. right. exists raw.
  split_and!; [done|lia|done].
Qed.

Lemma inflate_compress d : inflate (compressDataValue d) = inflate d.
Proof.
  destruct (compressDataValue_cases d) as [-> |(raw & Hv & _ & ->)]; [done|]. unfold inflate, decompress. cbn [set_value d_value cv_codec cv_data].
  rewrite Hv, zstd_decode_encode. done.
Qed.

Lemma inflate_compress_element elem : inflate_element (compress_element elem) = inflate_element elem.
Proof.
  unfold compress_element. destruct (compressibleData _); [|done]. unfold inflate_element, compressedElement. cbn.
  by rewrite cloneData_id, inflate_compress.
Qed.

Lemma inflate_compress_scalar (s : option DataEffect) :
  inflate <$> (match cloneData <$> s with Some d => Some (if compressibleData d then compressDataValue d else d) | None => None end) = inflate <$> s.
Proof. destruct s as [d|]; [|done]. cbn. rewrite cloneData_id. destruct (compressibleData d); [|done]. by rewrite inflate_compress. Qed.

Lemma inflate_compress_state r :
  inflate_state (compressReducedState r) = if touched r then no_subscribers (inflate_state r) else inflate_state r.
Proof.
  unfold compressReducedState. destruct (touched r); [|done]. unfold inflate_state, no_subscribers, inflate_flat, cloneReduced, cloneReducedFlat.
  cbn -[fmap]. rewrite inflate_compress_scalar.
  assert ((inflate_element <$> (compress_element <$> r_net_adds (red_root r))) = (inflate_element <$> r_net_adds (red_root r))) as ->.
  { rewrite <- map_fmap_compose. apply map_fmap_ext. intros i x _. apply inflate_compress_element. }
  assert ((inflate_element <$> (compress_element <$> r_ordered (red_root r))) = (inflate_element <$> r_ordered (red_root r))) as ->.
  { rewrite <- list_fmap_compose. apply list_fmap_ext. intros i x _. apply inflate_compress_element. }
  f_equal. apply map_fmap_ext. intros i [] _. unfold set_subscribers. cbn. f_equal.
  destruct r_scalar as [d|]; [|done]. cbn. by rewrite cloneData_id.
Qed.


End Compress.

(** ** A concrete encoder: 64 zero bytes shrink to one *)

Definition zeros : bytes := replicate 64 x00.

Definition toy_encode (b : bytes) : bytes := if decide (b = zeros) then [x01] else x00 :: b.

Definition toy_codec : Codec := {|
  zstd_decode := fun b => match b with x00 :: b' => Some b' | [x01] => Some zeros | _ => None end;
  parse_float := fun _ => f64_zero;
|}.

Lemma toy_decode_encode b : @zstd_decode toy_codec (toy_encode b) = Some b.
Proof. unfold toy_encode. destruct (decide (b = zeros)) as [->|]; done. Qed.

Definition toy_encoder : @Encoder toy_codec := {| zstd_encode := toy_encode; zstd_decode_encode := toy_decode_encode |}.

Definition toy_state : ReducedEffect :=
  mkReduced (mkFlat INSERT_OP LAST_WRITE_WINS SCALAR None 1 false
    (Some (mkData INSERT_OP LAST_WRITE_WINS SCALAR PLACE_NONE [] [] (Some (Raw zeros)))) ∅ ∅ [] TYPE_STRING None {[ 7 := true ]} None []) ∅.

Definition toy_snapshot : Effect := mkEffect [x6b] None 1 [] [] [] [] (Some (KSnapshot (mkSnapshot SCALAR (Some toy_state) ∅ None))).

Definition toy_data : DataEffect := mkData INSERT_OP LAST_WRITE_WINS SCALAR PLACE_NONE [] [] (Some (Raw zeros)).

