(* ===== verification/Store.v ===== *)
(** * Effects and their dependencies

    [Store] is the set of effects a walk can obtain, by reference: what
    [Engine.getEffect] returns from the effect cache or from a peer.  Effects
    are immutable and content never changes under a reference, so one map
    stands for the whole walk; a reference it does not hold is one whose fetch
    fails.

    [allDeps] and [keyDeps] are the two iterators of dag.go, as lists. *)

From S2P Require Import Prelude Golib Proto.

Abbreviation Store := (gmap Tip Effect).

Definition getEffect (store : Store) (key : bytes) (offset : Tip) : option Effect := store !! offset.

(** Ordinary dependencies, then a bind's new tips. *)
Definition allDeps (eff : Effect) : list Tip := e_deps eff ++ map kb_new_tip (bind_keys eff).

(** The first key of a bind with this name. *)
Definition find_key (key : bytes) (ks : list KeyBind) : option KeyBind :=
  List.find (fun kb => bool_decide (kb_key kb = key)) ks.

(** A bind is followed through this key's new tip only. *)
Definition keyDeps (key : bytes) (eff : Effect) : list Tip :=
  match get_txn_bind eff with
  | Some b => match find_key key (tb_keys b) with Some kb => [kb_new_tip kb] | None => [] end
  | None => e_deps eff
  end.

(** A state-carrying snapshot: the only kind that can end a walk. *)
Definition is_state_snapshot (eff : Effect) : bool :=
  match get_snapshot eff with
  | Some s => match s_state s with Some _ => true | None => false end
  | None => false
  end.

(** A subscription with no dependencies carries no data ancestry. *)
Definition is_standalone_sub (eff : Effect) : bool :=
  match get_subscription eff with
  | Some _ => match e_deps eff with [] => true | _ => false end
  | None => false
  end.

(** ** Well-formed histories

    Effects only ever depend on effects that were minted before them, so some
    rank decreases along every dependency.  This is the one assumption made of
    a history; [getEffect] and the walks do not rely on it to terminate. *)
Definition ranked (store : Store) (rank : Tip -> nat) : Prop :=
  forall t eff d, store !! t = Some eff -> d ∈ allDeps eff -> (rank d < rank t)%nat.

Lemma find_key_in key ks kb : find_key key ks = Some kb -> kb ∈ ks.
Proof. unfold find_key. intros [H _]%List.find_some. by apply list_elem_of_In. Qed.

Lemma keyDeps_allDeps key eff d : d ∈ keyDeps key eff -> d ∈ allDeps eff.
Proof.
  unfold keyDeps, allDeps, bind_keys. destruct (get_txn_bind eff) as [b|].
  - destruct (find_key key (tb_keys b)) as [kb|] eqn:E; [|by intros ?%elem_of_nil].
    intros ->%list_elem_of_singleton. apply elem_of_app. right.
    apply list_elem_of_In, in_map, list_elem_of_In. by eapply find_key_in.
  - intros H. apply elem_of_app. by left.
Qed.

(** ** Reachability

    [dep store key x y]: [y] is a dependency of [x] on this key. *)
Definition dep (store : Store) (key : bytes) (x y : Tip) : Prop :=
  exists eff, store !! x = Some eff /\ y ∈ keyDeps key eff.

Lemma dep_mono (key : bytes) (m1 m2 : Store) x y : m1 ⊆ m2 -> dep m1 key x y -> dep m2 key x y.
Proof. intros Hs (eff & Hx & Hy). exists eff. split; [by eapply lookup_weaken|done]. Qed.

Lemma ranked_dep store rank key x y :
  ranked store rank -> dep store key x y -> (rank y < rank x)%nat.
Proof. intros Hr (eff & Hx & Hy). eapply Hr; [done|]. by eapply keyDeps_allDeps. Qed.

Lemma ranked_tc (R : relation Tip) (rank : Tip -> nat) x y :
  (forall a b, R a b -> (rank b < rank a)%nat) -> tc R x y -> (rank y < rank x)%nat.
Proof. intros HR. induction 1 as [x y H|x y z H _ IH]; [by apply HR|]. apply HR in H. lia. Qed.

Lemma ranked_rtc (R : relation Tip) (rank : Tip -> nat) x y :
  (forall a b, R a b -> (rank b < rank a)%nat) -> rtc R x y -> (rank y <= rank x)%nat.
Proof. intros HR. induction 1 as [|x y z H _ IH]; [lia|]. apply HR in H. lia. Qed.
