(* ===== verification/Walk.v ===== *)
(** * Walks over the history

    The engine's walks over effects are loops with a work list and a visited
    set.  Two shapes recur: [dfs] marks an entry when it is popped (and may
    fail on it), [flood] marks it when it is pushed (and may stop early).  Both
    carry fuel; [dfs_spec] and [flood_spec] show that the fuel given by the
    number of dependencies is never exhausted and that the walks visit exactly
    what is reachable. *)

From S2P Require Import Prelude Golib Proto.

(** How a walk ends: with a result, on an effect that cannot be fetched, or out
    of fuel (which the theorems exclude). *)
Inductive walk (A : Type) := Done (a : A) | Missing | OutOfFuel.
Arguments Done {A} a.
Arguments Missing {A}.
Arguments OutOfFuel {A}.

#[global] Instance walk_ret : MRet walk := fun A a => Done a.
#[global] Instance walk_bind : MBind walk := fun A B f m =>
  match m with Done a => f a | Missing => Missing | OutOfFuel => OutOfFuel end.

(** ** Folding with failure *)

(** A left fold that stops at the first failure. *)
Fixpoint fold_opt {S A} (f : S -> A -> option S) (l : list A) (s : S) : option S :=
  match l with
  | [] => Some s
  | x :: l' => match f s x with Some s' => fold_opt f l' s' | None => None end
  end.

Lemma fold_opt_none {S A} (f : S -> A -> option S) l s :
  fold_opt f l s = None -> exists x s1, x ∈ l /\ f s1 x = None.
Proof.
  revert s. induction l as [|x l IH]; simpl; intros s E; [done|].
  destruct (f s x) as [s1|] eqn:Ef.
  - destruct (IH s1 E) as (y & s2 & Hy & Hn). exists y, s2. split; [by constructor|done].
  - exists x, s. split; [constructor|done].
Qed.

Lemma fold_opt_total {S A} (f : S -> A -> S) l s :
  fold_opt (fun s x => Some (f s x)) l s = Some (fold_left f l s).
Proof. revert s. induction l as [|x l IH]; intros s; simpl; [done|]. apply IH. Qed.

Lemma sum_list_with_submseteq {A} (f : A -> nat) (l k : list A) :
  l ⊆+ k -> (sum_list_with f l <= sum_list_with f k)%nat.
Proof. intros [k' ->]%submseteq_Permutation. rewrite sum_list_with_app. lia. Qed.

(** ** Marking on pop *)

Section Dfs.
Context {A : Type}.
Variable (skip : Tip -> bool) (next : Tip -> list Tip) (visit : A -> Tip -> option A).

(** The top of the stack is the head of the list. *)
Fixpoint dfs (fuel : nat) (stack : list Tip) (seen : gset Tip) (acc : A) : walk A :=
  match stack with
  | [] => Done acc
  | t :: stack' =>
      match fuel with
      | O => OutOfFuel
      | S fuel' =>
          if bool_decide (t ∈ seen) || skip t then dfs fuel' stack' seen acc
          else match visit acc t with
               | None => Missing
               | Some acc' => dfs fuel' (rev (next t) ++ stack') ({[ t ]} ∪ seen) acc'
               end
      end
  end.

(** One step of the walk: from an entry that is not skipped. *)
Definition dfs_step (x y : Tip) : Prop := skip x = false /\ y ∈ next x.

(** Only the effects of [D] have successors. *)
Variable D : gset Tip.
Hypothesis next_dom : forall t, next t <> [] -> t ∈ D.

Definition dfs_weight (seen : gset Tip) : nat :=
  sum_list_with (fun t => length (next t)) (elements (D ∖ seen)).

Lemma dfs_weight_visit t seen :
  t ∉ seen -> dfs_weight seen = (length (next t) + dfs_weight ({[ t ]} ∪ seen))%nat.
Proof.
  intros Ht. unfold dfs_weight. destruct (decide (t ∈ D)) as [HD|HD].
  - assert (D ∖ seen = {[ t ]} ∪ (D ∖ ({[ t ]} ∪ seen))) as ->.
    { apply set_eq. intros x. destruct (decide (x = t)); set_solver. }
    rewrite elements_union_singleton by set_solver. done.
  - assert (next t = []) as -> by (destruct (next t) eqn:E; [done|destruct HD; apply next_dom; by rewrite E]).
    simpl. do 2 f_equal. apply set_eq. intros x. destruct (decide (x = t)); set_solver.
Qed.

(** [order] lists what a walk visited: nothing twice, only what the stack
    reaches, and all of it. *)
Record dfs_covers (stack : list Tip) (seen : gset Tip) (order : list Tip) : Prop := {
  cov_nodup : NoDup order;
  cov_new : forall t, t ∈ order -> (t ∉ seen) /\ skip t = false;
  cov_reach : forall t, t ∈ order -> exists s, s ∈ stack /\ rtc dfs_step s t;
  cov_stack : forall s, s ∈ stack -> s ∈ seen \/ skip s = true \/ s ∈ order;
  cov_closed : forall t d, t ∈ order -> d ∈ next t -> d ∈ seen \/ skip d = true \/ d ∈ order;
  cov_parent : forall i t, order !! i = Some t -> t ∈ stack \/ exists j s, (j < i)%nat /\ order !! j = Some s /\ t ∈ next s;
}.

Lemma dfs_covers_skip t stack seen order :
  t ∈ seen \/ skip t = true -> dfs_covers stack seen order -> dfs_covers (t :: stack) seen order.
Proof.
  intros Ht [Hn Hw Hr Hs Hc Hp]. split; try done.
  - intros x Hx. destruct (Hr x Hx) as (s & ? & ?). exists s. split; [by constructor|done].
  - intros s [->|Hs']%elem_of_cons; [tauto|auto].
  - intros i x Hx. destruct (Hp i x Hx) as [|?]; [left; by constructor|auto].
Qed.

Lemma dfs_covers_visit t stack seen order :
  t ∉ seen -> skip t = false -> dfs_covers (rev (next t) ++ stack) ({[ t ]} ∪ seen) order ->
  dfs_covers (t :: stack) seen (t :: order).
Proof.
  intros Hns Hsk [Hn Hw Hr Hs Hc Hpar].
  assert (forall d, d ∈ rev (next t) <-> d ∈ next t) as Hrev by (intros d; by rewrite !list_elem_of_In, <- in_rev).
  assert (forall d, d ∈ {[ t ]} ∪ seen \/ skip d = true \/ d ∈ order ->
            d ∈ seen \/ skip d = true \/ d ∈ t :: order) as Hpush by set_solver.
  split.
  - constructor; [|done]. intros Ht. apply Hw in Ht as [Ht _]. set_solver.
  - intros x [->|Hx]%elem_of_cons; [done|]. apply Hw in Hx. set_solver.
  - intros x [->|Hx]%elem_of_cons; [exists t; split; [constructor|done]|].
    destruct (Hr x Hx) as (s & [Hst%Hrev|Hst]%elem_of_app & Hp).
    + exists t. split; [constructor|]. eapply rtc_l; [|exact Hp]. by split.
    + exists s. split; [by constructor|done].
  - intros s [->|Hst]%elem_of_cons; [right; right; constructor|]. apply Hpush, Hs, elem_of_app. auto.
  - intros x d [->|Hx]%elem_of_cons Hd; apply Hpush; [|by eapply Hc]. apply Hs, elem_of_app. left. by apply Hrev.
  - intros [|i] x Hx; [injection Hx as <-; left; constructor|]. simpl in Hx.
    destruct (Hpar i x Hx) as [[Hx'%Hrev|Hx']%elem_of_app|(j & s & ? & ? & ?)].
    + right. exists 0%nat, t. split_and!; [lia|done|done].
    + left. by constructor.
    + right. exists (S j), s. split_and!; [lia|done|done].
Qed.

Lemma dfs_spec fuel stack seen acc :
  (length stack + dfs_weight seen <= fuel)%nat ->
  match dfs fuel stack seen acc with
  | Done acc' => exists order, fold_opt visit order acc = Some acc' /\ dfs_covers stack seen order
  | Missing => exists t acc0 s, s ∈ stack /\ rtc dfs_step s t /\ visit acc0 t = None
  | OutOfFuel => False
  end.
Proof.
  revert stack seen acc. induction fuel as [|fuel IH]; intros [|t stack] seen acc Hf; simpl in *; try lia.
  1,2: exists []; split; [done|]; split; [constructor|set_solver..|by intros i t ?].
  destruct (bool_decide (t ∈ seen) || skip t) eqn:Hskip.
  - specialize (IH stack seen acc ltac:(lia)).
    assert (t ∈ seen \/ skip t = true) as Ht
      by (apply orb_true_iff in Hskip as [?%bool_decide_eq_true|?]; auto).
    destruct (dfs fuel stack seen acc) as [acc'| |]; [| |done].
    + destruct IH as (order & ? & ?). exists order. split; [done|]. by apply dfs_covers_skip.
    + destruct IH as (x & acc0 & s & ? & ? & ?). exists x, acc0, s. split; [by constructor|done].
  - apply orb_false_iff in Hskip as [Hns%bool_decide_eq_false Hsk].
    destruct (visit acc t) as [acc1|] eqn:Hv; [|exists t, acc, t; split; [constructor|done]].
    pose proof (dfs_weight_visit t seen Hns).
    specialize (IH (rev (next t) ++ stack) ({[ t ]} ∪ seen) acc1).
    rewrite length_app, length_rev in IH. specialize (IH ltac:(lia)).
    destruct (dfs fuel (rev (next t) ++ stack) ({[ t ]} ∪ seen) acc1) as [acc'| |]; [| |done].
    + destruct IH as (order & Ho & Hc). exists (t :: order). simpl. rewrite Hv. split; [done|].
      by apply dfs_covers_visit.
    + destruct IH as (x & acc0 & s & [Hs|Hs]%elem_of_app & Hp & Hn).
      * exists x, acc0, t. split; [constructor|]. split; [|done]. eapply rtc_l; [|exact Hp].
        split; [done|]. by apply list_elem_of_In, in_rev, list_elem_of_In in Hs.
      * exists x, acc0, s. split; [by constructor|done].
Qed.

(** A fresh walk visits exactly the entries the stack reaches. *)
Lemma dfs_covers_iff stack order t :
  dfs_covers stack ∅ order ->
  t ∈ order <-> skip t = false /\ exists s, s ∈ stack /\ rtc dfs_step s t.
Proof.
  intros [Hn Hw Hr Hs Hc _]. split; [intros Ht; split; [by apply Hw|by apply Hr]|].
  intros (Hsk & s & Hst & Hp).
  assert (skip s = true \/ s ∈ order) as Hso by (destruct (Hs s Hst) as [?%elem_of_empty|]; done).
  clear Hst. induction Hp as [|x y z [Hx Hy] _ IH]; [destruct Hso; [congruence|done]|].
  apply IH; [done|]. destruct Hso as [|Hso]; [congruence|].
  by destruct (Hc x y Hso Hy) as [?%elem_of_empty|].
Qed.

End Dfs.

(** Fuel for a walk from [stack] over a history: one per entry that can ever be
    on the stack. *)
Definition dfs_fuel (next : Tip -> list Tip) (D : gset Tip) (stack : list Tip) : nat :=
  (length stack + sum_list_with (fun t => length (next t)) (elements D))%nat.

Lemma dfs_fuel_enough (next : Tip -> list Tip) D stack : (length stack + dfs_weight next D ∅ <= dfs_fuel next D stack)%nat.
Proof. unfold dfs_weight, dfs_fuel. by rewrite difference_empty_L. Qed.

(** A walk that cannot fail. *)
Lemma dfs_run {A} (skip : Tip -> bool) (next : Tip -> list Tip) (visit : A -> Tip -> A) (D : gset Tip)
    (stack : list Tip) (acc : A) :
  (forall t, next t <> [] -> t ∈ D) ->
  exists order,
    dfs skip next (fun a t => Some (visit a t)) (dfs_fuel next D stack) stack ∅ acc = Done (fold_left visit order acc)
    /\ NoDup order
    /\ (forall t, t ∈ order <-> skip t = false /\ exists s, s ∈ stack /\ rtc (dfs_step skip next) s t).
Proof.
  intros HD. pose proof (dfs_spec skip next (fun a t => Some (visit a t)) D HD (dfs_fuel next D stack) stack ∅ acc
    (dfs_fuel_enough _ _ _)) as H.
  destruct (dfs skip next _ _ stack ∅ acc) as [a| |]; [|by destruct H as (? & ? & ? & _ & _ & ?)|done].
  destruct H as (order & Ho & Hc). rewrite fold_opt_total in Ho. injection Ho as <-.
  exists order. split; [done|]. split; [apply Hc|]. intros t. by apply dfs_covers_iff.
Qed.

Lemma elem_of_rev_list {A} (x : A) (l : list A) : x ∈ rev l <-> x ∈ l.
Proof. by rewrite !list_elem_of_In, <- in_rev. Qed.

(** What a walk that skips nothing reaches. *)
Definition reached (next : Tip -> list Tip) (tips : list Tip) (t : Tip) : Prop :=
  exists s, s ∈ tips /\ rtc (fun x y => y ∈ next x) s t.

Lemma dfs_run_all {A} (next : Tip -> list Tip) (visit : A -> Tip -> A) (D : gset Tip) (stack : list Tip) (acc : A) :
  (forall t, next t <> [] -> t ∈ D) ->
  exists order,
    dfs (fun _ => false) next (fun a t => Some (visit a t)) (dfs_fuel next D stack) stack ∅ acc = Done (fold_left visit order acc)
    /\ NoDup order /\ (forall t, t ∈ order <-> reached next stack t).
Proof.
  intros HD. destruct (dfs_run (fun _ => false) next visit D stack acc HD) as (order & E & Hn & Ho).
  exists order. split_and!; [done..|]. intros t. rewrite Ho. split.
  - intros (_ & s & Hs & Hp). exists s. split; [done|]. eapply rtc_subrel; [|exact Hp]. by intros x y [_ ?].
  - intros (s & Hs & Hp). split; [done|]. exists s. split; [done|]. eapply rtc_subrel; [|exact Hp]. by intros x y ?.
Qed.

(** Reachability along equivalent steps and starts. *)
Lemma reached_iff (next : Tip -> list Tip) (R : relation Tip) (tips tips' : list Tip) (t : Tip) :
  (forall x y, y ∈ next x <-> R x y) -> (forall x, x ∈ tips <-> x ∈ tips') ->
  reached next tips t <-> exists s, s ∈ tips' /\ rtc R s t.
Proof.
  intros HR Ht. unfold reached. split; intros (s & Hs & Hp); exists s; (split; [by apply Ht|]);
    (eapply rtc_subrel; [|exact Hp]); intros x y; apply HR.
Qed.

Lemma size_union_singleton (X : gset Tip) x : x ∉ X -> size ({[ x ]} ∪ X) = S (size X).
Proof. intros Hx. rewrite size_union, size_singleton by set_solver. done. Qed.

(** ** Marking on push *)

Section Flood.
Context {A : Type}.
Variable (skip : Tip -> bool) (next : Tip -> list Tip).
Variable (visit : A -> Tip -> A) (stop : A -> bool).

Definition push (st : list Tip * gset Tip) (t : Tip) : list Tip * gset Tip :=
  if skip t || bool_decide (t ∈ st.2) then st else (t :: st.1, {[ t ]} ∪ st.2).

(** The accumulator at the end, and everything that was pushed. *)
Fixpoint flood (fuel : nat) (st : list Tip * gset Tip) (acc : A) : walk (A * gset Tip) :=
  match st.1 with
  | [] => Done (acc, st.2)
  | t :: stack' =>
      match fuel with
      | O => OutOfFuel
      | S fuel' =>
          let acc' := visit acc t in
          if stop acc' then Done (acc', st.2)
          else flood fuel' (fold_left push (next t) (stack', st.2)) acc'
      end
  end.

Definition flood_step (x y : Tip) : Prop := y ∈ next x /\ skip y = false.

Definition flooded (starts : list Tip) (t : Tip) : Prop :=
  exists s, s ∈ starts /\ skip s = false /\ rtc flood_step s t.

(** Everything a walk can push. *)
Variable U : gset Tip.

Lemma push_spec l st :
  (forall t, t ∈ l -> skip t = false -> t ∈ U) ->
  let st' := fold_left push l st in
  (length st'.1 + size (U ∖ st'.2) = length st.1 + size (U ∖ st.2))%nat
  /\ (forall t, t ∈ st'.2 <-> t ∈ st.2 \/ (t ∈ l /\ skip t = false))
  /\ (forall t, t ∈ st'.1 <-> t ∈ st.1 \/ (t ∈ l /\ skip t = false /\ t ∉ st.2)).
Proof.
  revert st. induction l as [|x l IH]; intros st HU; simpl; [set_solver|].
  destruct (IH (push st x)) as (Hm & H2 & H1); [intros t Ht; apply HU; by constructor|].
  unfold push in *. destruct (skip x) eqn:Hx; simpl in *; [|case_bool_decide as Hin; simpl in *].
  - split; [done|]. split; intros t; [rewrite H2|rewrite H1]; rewrite elem_of_cons;
      (split; [tauto|]); intros [|([->|] & ?)]; try tauto; try congruence; destruct_and?; congruence.
  - split; [done|]. split; intros t; [rewrite H2|rewrite H1]; rewrite elem_of_cons;
      (split; [tauto|]); intros [|([->|] & ?)]; tauto.
  - split.
    { rewrite Hm. assert (size (U ∖ st.2) = S (size (U ∖ ({[ x ]} ∪ st.2)))) as ->; [|lia].
      assert (x ∈ U) by (apply HU; [constructor|done]).
      rewrite <- (size_union_singleton (U ∖ ({[ x ]} ∪ st.2)) x) by set_solver. f_equal.
      apply set_eq. intros y. destruct (decide (y = x)); set_solver. }
    split; intros t; [rewrite H2|rewrite H1]; rewrite ?elem_of_cons, ?elem_of_union, ?elem_of_singleton.
    + split; [intros [[->|]|[]]; auto|intros [|[[->|] ?]]; auto].
    + destruct (decide (t = x)) as [->|]; tauto.
Qed.

(** State of the walk: [done] has been popped, and the rest of what was pushed
    is on the stack. *)
Record flood_inv (starts : list Tip) (done : list Tip) (st : list Tip * gset Tip) : Prop := {
  fl_seen : forall t, t ∈ st.2 <-> t ∈ st.1 \/ t ∈ done;
  fl_reach : forall t, t ∈ st.2 -> flooded starts t;
  fl_closed : forall t d, t ∈ done -> flood_step t d -> d ∈ st.2;
  fl_starts : forall t, t ∈ starts -> skip t = false -> t ∈ st.2;
}.

Hypothesis next_univ : forall t d, flood_step t d -> d ∈ U.

Lemma flood_inv_pop starts dn t stack seen :
  flood_inv starts dn (t :: stack, seen) ->
  flood_inv starts (dn ++ [t]) (fold_left push (next t) (stack, seen))
  /\ (length (fold_left push (next t) (stack, seen)).1 + size (U ∖ (fold_left push (next t) (stack, seen)).2)
      = length stack + size (U ∖ seen))%nat.
Proof.
  intros [Hs Hr Hc Hst]. simpl in *.
  destruct (push_spec (next t) (stack, seen)) as (Hm & H2 & H1).
  { intros d Hd Hsk. eapply next_univ. by split. }
  simpl in *. split; [|done]. split.
  - intros x. rewrite H2, H1, elem_of_app, list_elem_of_singleton. specialize (Hs x). rewrite elem_of_cons in Hs.
    destruct (decide (x ∈ seen)); tauto.
  - intros x [Hx|[Hx Hsk]]%H2; [auto|]. destruct (Hr t) as (s & ? & ? & Hp); [apply Hs; left; constructor|].
    exists s. split_and!; [done..|]. eapply rtc_r; [done|by split].
  - intros x d [Hx| ->%list_elem_of_singleton]%elem_of_app Hd; apply H2; [left; by eapply Hc|].
    right. by destruct Hd.
  - intros x Hx Hsk. apply H2. left. auto.
Qed.

Lemma flood_loop fuel starts dn st acc :
  (length st.1 + size (U ∖ st.2) <= fuel)%nat -> flood_inv starts dn st ->
  exists order seen, flood fuel st acc = Done (fold_left visit order acc, seen)
    /\ (forall t, t ∈ order -> flooded starts t)
    /\ (stop (fold_left visit order acc) = true \/ flood_inv starts (dn ++ order) ([], seen)).
Proof.
  revert dn st acc. induction fuel as [|fuel IH]; intros dn [[|t stack] seen] acc Hf Hi; simpl in *; try lia.
  1,2: exists [], seen; split_and!; [done|by intros ? ?%elem_of_nil|right; by rewrite app_nil_r].
  assert (flooded starts t) as Ht by (apply Hi, (fl_seen _ _ _ Hi); left; constructor).
  destruct (stop (visit acc t)) eqn:Hstop.
  - exists [t], seen. split_and!; [done|by intros x ->%list_elem_of_singleton|by left].
  - destruct (flood_inv_pop _ _ _ _ _ Hi) as [Hi' Hm].
    destruct (IH (dn ++ [t]) (fold_left push (next t) (stack, seen)) (visit acc t)) as (order & sn & E & Ho & Hor);
      [lia|done|].
    exists (t :: order), sn. split_and!; [done| |].
    + intros x [->|Hx]%elem_of_cons; auto.
    + rewrite <- app_assoc in Hor. done.
Qed.

End Flood.

(** A bound on what a walk from [starts] can push. *)
Definition flood_fuel (next : Tip -> list Tip) (D : gset Tip) (starts : list Tip) : nat :=
  (length starts + sum_list_with (fun t => length (next t)) (elements D))%nat.

Lemma size_list_to_set_le (l : list Tip) : (size (list_to_set l : gset Tip) <= length l)%nat.
Proof. induction l as [|x l IH]; simpl; [done|]. pose proof (size_union_alt {[ x ]} (list_to_set l : gset Tip)).
  rewrite size_singleton in *. assert (size ((list_to_set l : gset Tip) ∖ {[ x ]}) <= size (list_to_set l : gset Tip))%nat
    by (apply subseteq_size; set_solver). lia. Qed.

Lemma flood_spec {A} (skip : Tip -> bool) (next : Tip -> list Tip) (visit : A -> Tip -> A) (stop : A -> bool)
    (D : gset Tip) (starts : list Tip) (acc : A) :
  (forall t, next t <> [] -> t ∈ D) ->
  exists order seen,
    flood skip next visit stop (flood_fuel next D starts) (fold_left (push skip) starts ([], ∅)) acc
      = Done (fold_left visit order acc, seen)
    /\ (forall t, t ∈ order -> flooded skip next starts t)
    /\ (stop (fold_left visit order acc) = true
        \/ (forall t, t ∈ seen <-> flooded skip next starts t) /\ (forall t, flooded skip next starts t -> t ∈ order)).
Proof.
  intros HD. set (U := list_to_set (starts ++ flat_map next (elements D)) : gset Tip).
  assert (forall t d, flood_step skip next t d -> d ∈ U) as HU.
  { intros t d [Hd _]. apply elem_of_list_to_set, elem_of_app. right.
    apply list_elem_of_In, in_flat_map. exists t. split; [|by apply list_elem_of_In].
    apply list_elem_of_In, elem_of_elements, HD. intros E. rewrite E in Hd. by apply elem_of_nil in Hd. }
  destruct (push_spec skip next U starts ([], ∅)) as (Hm & H2 & H1).
  { intros t Ht _. apply elem_of_list_to_set, elem_of_app. by left. }
  simpl in *. set (st := fold_left (push skip) starts ([], ∅)) in *.
  assert (flood_inv skip next starts [] st) as Hi.
  { split.
    - intros t. rewrite H2, H1, elem_of_nil. set_solver.
    - intros t [?%elem_of_empty|[Ht Hsk]]%H2; [done|]. by exists t.
    - by intros ? ? ?%elem_of_nil.
    - intros t Ht Hsk. apply H2. by right. }
  destruct (flood_loop skip next visit stop U HU (flood_fuel next D starts) starts [] st acc) as (order & sn & E & Ho & Hor);
    [|done|].
  - rewrite Hm, difference_empty_L. etrans; [apply size_list_to_set_le|]. unfold flood_fuel.
    rewrite length_app. apply Nat.add_le_mono_l. clear. induction (elements D) as [|x l IH]; simpl; [done|].
    rewrite length_app. lia.
  - exists order, sn. split_and!; [done..|]. destruct Hor as [|Hfin]; [by left|right]. simpl in Hfin.
    destruct Hfin as [Hs Hr Hc Hst]. simpl in *.
    assert (forall t, flooded skip next starts t -> t ∈ sn) as Hall.
    { intros t (s & Hs' & Hsk & Hp). specialize (Hst s Hs' Hsk). clear Hs' Hsk.
      induction Hp as [|x y z Hxy _ IH]; [done|]. apply IH.
      eapply Hc; [|done]. apply Hs in Hst as [?%elem_of_nil|]; done. }
    split; [intros t; split; auto|]. intros t Ht%Hall%Hs. by destruct Ht as [?%elem_of_nil|].
Qed.
