(* ===== verification/ForkChoice.v ===== *)
(** * Fork choice (effects/fork_choice.go)

    Competing transactions are ordered by a hash of who minted them and when;
    the lower hash wins. *)

From S2P Require Import Prelude Golib Proto.

(** [timestamppb.Timestamp.AsTime().UnixNano()]; a nil timestamp reads as the
    epoch, and the multiplication wraps outside the years 1678-2262. *)
Definition unix_nano (hlc : option Timestamp) : Z :=
  match hlc with
  | Some t => wrap64 (ts_seconds t * 1000000000 + ts_nanos t)
  | None => 0
  end.

(** What is hashed: nodeID and time, little-endian. *)
Definition fork_preimage (nodeID : Z) (hlc : option Timestamp) : bytes :=
  le_bytes 8 nodeID ++ le_bytes 8 (wrapu64 (unix_nano hlc)).

Definition ComputeForkChoiceHash (nodeID : Z) (hlc : option Timestamp) : bytes :=
  Sha256.sum (fork_preimage nodeID hlc).

Definition ForkChoiceLess (a b : bytes) : bool := bytes_compare a b <? 0.

(** slices.go *)
Definition refsContain (refs : list Tip) (tip : Tip) : bool :=
  existsb (fun ref => bool_decide (ref = tip)) refs.

Definition bindsShareBase (a b : TransactionalBindEffect) : bool :=
  existsb (fun ak =>
    existsb (fun bk =>
      bool_decide (kb_key ak = kb_key bk)
      && existsb (fun ref => refsContain (kb_consumed_tips bk) ref) (kb_consumed_tips ak))
      (tb_keys b)) (tb_keys a).

(** ** The election order *)

Lemma ForkChoiceLess_irrefl a : ForkChoiceLess a a = false.
Proof. unfold ForkChoiceLess. by rewrite bytes_compare_refl. Qed.

Lemma ForkChoiceLess_asym a b : ForkChoiceLess a b = true -> ForkChoiceLess b a = false.
Proof. unfold ForkChoiceLess. rewrite (bytes_compare_antisym a b). lia. Qed.

Lemma ForkChoiceLess_total a b : a <> b -> ForkChoiceLess a b = negb (ForkChoiceLess b a).
Proof.
  intros Hne. unfold ForkChoiceLess. rewrite (bytes_compare_antisym a b).
  assert (bytes_compare a b <> 0) by (by rewrite bytes_compare_eq). bcase; simpl; try done; lia.
Qed.

Lemma ForkChoiceLess_trans a b c :
  ForkChoiceLess a b = true -> ForkChoiceLess b c = true -> ForkChoiceLess a c = true.
Proof. unfold ForkChoiceLess. rewrite !Z.ltb_lt. apply bytes_compare_lt_trans. Qed.

Lemma length_ComputeForkChoiceHash n hlc : length (ComputeForkChoiceHash n hlc) = 32%nat.
Proof. apply Sha256.length_sum. Qed.

Lemma length_fork_preimage n hlc : length (fork_preimage n hlc) = 16%nat.
Proof. unfold fork_preimage. by rewrite length_app, !length_le_bytes. Qed.

(** The hashed bytes determine the node and the instant. *)
Lemma fork_preimage_inj n1 t1 n2 t2 :
  is_uint64 n1 -> is_uint64 n2 -> fork_preimage n1 t1 = fork_preimage n2 t2 ->
  n1 = n2 /\ unix_nano t1 = unix_nano t2.
Proof.
  intros H1 H2 E. unfold fork_preimage in E.
  apply app_inj_1 in E as [En Et]; [|by rewrite !length_le_bytes].
  apply (f_equal le_value) in En, Et. rewrite !le_value_le_bytes in En, Et.
  assert (forall t, is_int64 (unix_nano t)) as Hr.
  { intros [t|]; simpl; [apply wrap64_range|by vm_compute]. }
  pose proof (Hr t1) as Hr1. pose proof (Hr t2) as Hr2. clear Hr.
  change (256 ^ Z.of_nat 8) with (2 ^ 64) in *. unfold is_uint64, is_int64, max_uint64, min_int64, max_int64, wrapu64 in *.
  rewrite !Z.mod_small in En by lia. split; [done|].
  rewrite !Z.mod_mod in Et by lia.
  assert ((unix_nano t1 - unix_nano t2) mod 2 ^ 64 = 0) as Hd by (rewrite Zminus_mod, Et, Z.sub_diag; done).
  apply Z.mod_divide in Hd as [k Hk]; [|lia]. nia.
Qed.

Lemma refsContain_spec refs tip : refsContain refs tip = true <-> tip ∈ refs.
Proof.
  unfold refsContain. rewrite existsb_exists. split.
  - intros (x & Hx & ->%bool_decide_eq_true). by apply list_elem_of_In.
  - intros Hx. exists tip. split; [by apply list_elem_of_In|by apply bool_decide_eq_true].
Qed.

Lemma bindsShareBase_spec a b :
  bindsShareBase a b = true <->
  exists ak bk t, ak ∈ tb_keys a /\ bk ∈ tb_keys b /\ kb_key ak = kb_key bk
    /\ t ∈ kb_consumed_tips ak /\ t ∈ kb_consumed_tips bk.
Proof.
  unfold bindsShareBase. rewrite existsb_exists. split.
  - intros (ak & Ha & (bk & Hb & Hc)%existsb_exists). apply andb_true_iff in Hc as [Hk%bool_decide_eq_true Hx].
    apply existsb_exists in Hx as (t & Ht & Hc%refsContain_spec).
    exists ak, bk, t. rewrite !list_elem_of_In. rewrite list_elem_of_In in Hc. done.
  - intros (ak & bk & t & Ha & Hb & Hk & Hta & Htb). exists ak. split; [by apply list_elem_of_In|].
    apply existsb_exists. exists bk. split; [by apply list_elem_of_In|].
    apply andb_true_iff. split; [by apply bool_decide_eq_true|].
    apply existsb_exists. exists t. split; [by apply list_elem_of_In|by apply refsContain_spec].
Qed.

(** The election is fair and final.  The order on hashes is a strict total
    order, so of two transactions with different hashes exactly one wins; the
    hash has a fixed width and its preimage determines the minting node and
    instant, so distinct transactions are told apart short of a SHA-256
    collision; and whether two binds compete does not depend on which of them
    asks. *)
Theorem fork_choice_elects (a b c : bytes) (n1 n2 : Z) (t1 t2 : option Timestamp)
    (x y : TransactionalBindEffect) :
  ForkChoiceLess a a = false
  /\ (ForkChoiceLess a b = true -> ForkChoiceLess b c = true -> ForkChoiceLess a c = true)
  /\ (a <> b -> ForkChoiceLess a b = negb (ForkChoiceLess b a))
  /\ length (ComputeForkChoiceHash n1 t1) = 32%nat
  /\ (is_uint64 n1 -> is_uint64 n2 -> ComputeForkChoiceHash n1 t1 = ComputeForkChoiceHash n2 t2 ->
      (n1 = n2 /\ unix_nano t1 = unix_nano t2)
      \/ exists p q, p <> q /\ length p = 16%nat /\ length q = 16%nat /\ Sha256.sum p = Sha256.sum q)
  /\ bindsShareBase x y = bindsShareBase y x.
Proof.
  split_and!.
  - apply ForkChoiceLess_irrefl.
  - apply ForkChoiceLess_trans.
  - apply ForkChoiceLess_total.
  - apply length_ComputeForkChoiceHash.
  - unfold ComputeForkChoiceHash. intros H1 H2 E. destruct (decide (fork_preimage n1 t1 = fork_preimage n2 t2)) as [Ep|Hne].
    + left. by apply fork_preimage_inj.
    + right. exists (fork_preimage n1 t1), (fork_preimage n2 t2).
      split; [exact Hne|]. split; [apply length_fork_preimage|]. split; [apply length_fork_preimage|exact E].
  - apply Bool.eq_iff_eq_true. rewrite !bindsShareBase_spec. split; intros (ak & bk & t & ?); exists bk, ak, t; naive_solver.
Qed.
