(* ===== verification/Horizon.v ===== *)
(** * The horizon (effects/horizon.go)

    Published binds are invisible until they are resolved; binds that share a
    base wait in one group.  Go's pointers are identities here: groups and
    timers are numbered, and an entry is identified by its transaction while it
    is registered.  Every operation runs under the set's mutex, so an execution
    is a sequence of whole operations; a timer may fire at any time after it
    was created, also when it was stopped too late. *)

From S2P Require Import Prelude Golib Proto ForkChoice.

Record horizonEntry := mkEntry { he_group : nat; he_bind : TransactionalBindEffect }.

Record horizonGroup := mkGroup {
  hg_entries : list bytes;
  hg_bases : list TransactionalBindEffect;
  hg_timer : option nat;
}.

Record HorizonSet := mkHorizon {
  h_entries : gmap bytes horizonEntry;
  h_groups : list nat;
  h_group : gmap nat horizonGroup;       (* the group objects *)
  h_timers : gmap nat nat;               (* horizonTimer.group *)
  h_pending : gset Tip;                  (* Engine.pendingTxTips *)
  h_closed : list bytes;                 (* ready channels closed so far *)
  h_fresh : nat;                         (* next group and timer identity *)
}.

Definition newHorizonSet : HorizonSet := mkHorizon ∅ [] ∅ ∅ ∅ [] 0.

Definition grp (h : HorizonSet) (g : nat) : horizonGroup := default (mkGroup [] [] None) (h_group h !! g).

Definition set_group (g : nat) (v : horizonGroup) (h : HorizonSet) : HorizonSet :=
  mkHorizon (h_entries h) (h_groups h) (<[ g := v ]> (h_group h)) (h_timers h) (h_pending h) (h_closed h) (h_fresh h).

Definition set_groups (gs : list nat) (h : HorizonSet) : HorizonSet :=
  mkHorizon (h_entries h) gs (h_group h) (h_timers h) (h_pending h) (h_closed h) (h_fresh h).

Definition set_entries (es : gmap bytes horizonEntry) (h : HorizonSet) : HorizonSet :=
  mkHorizon es (h_groups h) (h_group h) (h_timers h) (h_pending h) (h_closed h) (h_fresh h).

Definition set_timer (tm g : nat) (h : HorizonSet) : HorizonSet :=
  mkHorizon (h_entries h) (h_groups h) (h_group h) (<[ tm := g ]> (h_timers h)) (h_pending h) (h_closed h) (h_fresh h).

Definition bump (h : HorizonSet) : HorizonSet :=
  mkHorizon (h_entries h) (h_groups h) (h_group h) (h_timers h) (h_pending h) (h_closed h) (S (h_fresh h)).

(** Groups with no entries left are dropped, their timer and bases released. *)
Definition is_live (h : HorizonSet) (g : nat) : bool := nonempty (hg_entries (grp h g)).

Definition pruneGroups (h : HorizonSet) : HorizonSet :=
  let dead := filter (fun g => is_live h g = false) (h_groups h) in
  set_groups (filter (fun g => is_live h g = true) (h_groups h))
    (fold_left (fun h g => set_group g (mkGroup [] [] None) h) dead h).

(** Delete the bind's tips and the entry, and wake its readers. *)
Definition resolve (txnID : bytes) (h : HorizonSet) : HorizonSet :=
  match h_entries h !! txnID with
  | Some e =>
      mkHorizon (delete txnID (h_entries h)) (h_groups h) (h_group h) (h_timers h)
        (h_pending h ∖ list_to_set (map kb_new_tip (tb_keys (he_bind e))))
        (h_closed h ++ [txnID]) (h_fresh h)
  | None => h
  end.

(** ** Add *)

(** [group] joins [target]: its entries and bases move, and its timer if the
    target has none. *)
Definition absorb (target group : nat) (h : HorizonSet) : HorizonSet :=
  let gt := grp h target in
  let gg := grp h group in
  let h := set_entries
    (fold_left (fun es x => alter (fun e => mkEntry target (he_bind e)) x es) (hg_entries gg) (h_entries h)) h in
  let moved := match hg_timer gt, hg_timer gg with None, Some tm => Some tm | _, _ => None end in
  let h := match moved with Some tm => set_timer tm target h | None => h end in
  set_group group (mkGroup [] (hg_bases gg) (match moved with Some _ => None | None => hg_timer gg end))
    (set_group target
      (mkGroup (hg_entries gt ++ hg_entries gg) (hg_bases gt ++ hg_bases gg)
         (match moved with Some tm => Some tm | None => hg_timer gt end)) h).

Definition overlaps (h : HorizonSet) (group : nat) (bind : TransactionalBindEffect) : bool :=
  existsb (fun base => bindsShareBase base bind) (hg_bases (grp h group)).

Fixpoint find_target (gs : list nat) (target : option nat) (bind : TransactionalBindEffect) (h : HorizonSet)
    : option nat * HorizonSet :=
  match gs with
  | [] => (target, h)
  | g :: gs' =>
      if overlaps h g bind then
        match target with
        | None => find_target gs' (Some g) bind h
        | Some t => find_target gs' target bind (absorb t g h)
        end
      else find_target gs' target bind h
  end.

Definition join (txnID : bytes) (bind : TransactionalBindEffect) (target : nat) (h : HorizonSet) : HorizonSet :=
  let g := grp h target in
  set_entries (<[ txnID := mkEntry target bind ]> (h_entries h))
    (set_group target (mkGroup (hg_entries g ++ [txnID]) (hg_bases g ++ [bind]) (hg_timer g)) h).

Definition HorizonAdd (txnID : bytes) (bind : TransactionalBindEffect) (h : HorizonSet) : HorizonSet :=
  match h_entries h !! txnID with
  | Some _ => h
  | None =>
      match find_target (h_groups h) None bind h with
      | (None, h) =>
          let g := h_fresh h in
          join txnID bind g (bump (set_groups (h_groups h ++ [g]) (set_group g (mkGroup [] [] None) h)))
      | (Some t, h) => join txnID bind t (pruneGroups h)
      end
  end.

(** ** Resolution *)

(** [slices.Sort] then [slices.Compact]. *)
Fixpoint compact (l : list bytes) : list bytes :=
  match l with
  | x :: (y :: _) as l' => if decide (x = y) then compact l' else x :: compact l'
  | _ => l
  end.

Definition member_keys (h : HorizonSet) (txnID : bytes) : list bytes :=
  match h_entries h !! txnID with Some e => map kb_key (tb_keys (he_bind e)) | None => [] end.

(** The new state, and the keys whose callbacks run after unlocking. *)
Definition makeGroupVisible `{!SortFunc} (group : nat) (h : HorizonSet) : HorizonSet * list bytes :=
  let members := hg_entries (grp h group) in
  let keys := flat_map (member_keys h) members in
  let h := fold_left (fun h x => resolve x h) members h in
  let g := grp h group in
  (pruneGroups (set_group group (mkGroup [] (hg_bases g) (hg_timer g)) h), compact (sort_func bytes_compare keys)).

Definition MakeVisible `{!SortFunc} (txnID : bytes) (h : HorizonSet) : HorizonSet * list bytes :=
  match h_entries h !! txnID with
  | Some e => makeGroupVisible (he_group e) h
  | None => (h, [])
  end.

Definition remove_first (x : bytes) (l : list bytes) : list bytes :=
  match list_find (eq x) l with Some (i, _) => take i l ++ drop (S i) l | None => l end.

Definition HorizonAbort (txnID : bytes) (h : HorizonSet) : HorizonSet :=
  match h_entries h !! txnID with
  | Some e =>
      let g := grp h (he_group e) in
      pruneGroups (resolve txnID
        (set_group (he_group e) (mkGroup (remove_first txnID (hg_entries g)) (hg_bases g) (hg_timer g)) h))
  | None => h
  end.

(** ** Timers *)

Definition ScheduleMakeVisible (txnID : bytes) (h : HorizonSet) : HorizonSet :=
  match h_entries h !! txnID with
  | Some e =>
      let g := grp h (he_group e) in
      let tm := h_fresh h in
      bump (set_group (he_group e) (mkGroup (hg_entries g) (hg_bases g) (Some tm)) (set_timer tm (he_group e) h))
  | None => h
  end.

(** The callback: nothing if the timer is no longer its group's. *)
Definition fire `{!SortFunc} (tm : nat) (h : HorizonSet) : HorizonSet * list bytes :=
  match h_timers h !! tm with
  | Some g =>
      if decide (hg_timer (grp h g) = Some tm) then makeGroupVisible g h else (h, [])
  | None => (h, [])
  end.

(** ** Queries *)

Definition IsInvisible (h : HorizonSet) (txnID : bytes) : bool :=
  match h_entries h !! txnID with Some _ => true | None => false end.

Definition HorizonEmpty (h : HorizonSet) : bool := (size (h_entries h) =? 0)%nat.

(** ** Executions *)

Inductive hstep `{!SortFunc} : HorizonSet -> HorizonSet -> Prop :=
  | step_add h x b : hstep h (HorizonAdd x b h)
  | step_visible h x : hstep h (MakeVisible x h).1
  | step_abort h x : hstep h (HorizonAbort x h)
  | step_schedule h x : hstep h (ScheduleMakeVisible x h)
  | step_fire h tm : hstep h (fire tm h).1
  | step_pending h t : hstep h (mkHorizon (h_entries h) (h_groups h) (h_group h) (h_timers h)
                                  ({[ t ]} ∪ h_pending h) (h_closed h) (h_fresh h)).
