(* ===== verification/HorizonProps.v ===== *)
(** * Properties of the horizon

    Competing binds always wait in the same group and become visible together;
    readers are woken exactly once; a scheduled fallback is never lost. *)

From S2P Require Import Prelude Golib Proto ForkChoice Horizon.

Implicit Types (h : HorizonSet) (x y : bytes) (g t : nat) (b : TransactionalBindEffect).

(** ** The invariant

    [live] selects the groups whose separation is claimed: all of them between
    operations, those with entries while groups are being merged. *)

Record hz_inv h : Prop := {
  hz_nodup : NoDup (h_groups h);
  hz_fresh : forall g, g ∈ h_groups h -> (g < h_fresh h)%nat;
  hz_entry : forall x e, h_entries h !! x = Some e ->
    he_group e ∈ h_groups h /\ x ∈ hg_entries (grp h (he_group e)) /\ he_bind e ∈ hg_bases (grp h (he_group e));
  hz_member : forall g x, g ∈ h_groups h -> x ∈ hg_entries (grp h g) ->
    exists e, h_entries h !! x = Some e /\ he_group e = g;
  hz_distinct : forall g, g ∈ h_groups h -> NoDup (hg_entries (grp h g));
  hz_separate : forall g1 g2 b1 b2, g1 ∈ h_groups h -> g2 ∈ h_groups h -> g1 <> g2 ->
    is_live h g1 = true -> is_live h g2 = true ->
    b1 ∈ hg_bases (grp h g1) -> b2 ∈ hg_bases (grp h g2) -> bindsShareBase b1 b2 = false;
  hz_timer : forall g tm, g ∈ h_groups h -> hg_timer (grp h g) = Some tm -> h_timers h !! tm = Some g;
  hz_timer_fresh : forall tm g, h_timers h !! tm = Some g -> (tm < h_fresh h)%nat;
  hz_gone : forall g, g ∉ h_groups h -> hg_timer (grp h g) = None;
}.

(** Between operations every group has entries. *)
Definition all_live h : Prop := forall g, g ∈ h_groups h -> is_live h g = true.

Lemma bindsShareBase_comm b b' : bindsShareBase b b' = bindsShareBase b' b.
Proof.
  apply Bool.eq_iff_eq_true. rewrite !bindsShareBase_spec.
  split; intros (ak & bk & t & ? & ? & ? & ? & ?); exists bk, ak, t; auto.
Qed.

Lemma is_live_spec h g : is_live h g = true <-> hg_entries (grp h g) <> [].
Proof. unfold is_live. by destruct (hg_entries (grp h g)). Qed.

Lemma grp_set_eq g v h : grp (set_group g v h) g = v.
Proof. unfold grp. simpl. by rewrite lookup_insert_eq. Qed.

Lemma grp_set_ne g g' v h : g <> g' -> grp (set_group g v h) g' = grp h g'.
Proof. intros. unfold grp. simpl. by rewrite lookup_insert_ne. Qed.

Lemma grp_ext h h' g : h_group h' = h_group h -> grp h' g = grp h g.
Proof. unfold grp. by intros ->. Qed.

(** ** Pruning *)

Definition clear_groups (dead : list nat) h : HorizonSet :=
  fold_left (fun h g => set_group g (mkGroup [] [] None) h) dead h.

Lemma clear_groups_spec dead h :
  (forall g, grp (clear_groups dead h) g = if decide (g ∈ dead) then mkGroup [] [] None else grp h g)
  /\ h_entries (clear_groups dead h) = h_entries h /\ h_groups (clear_groups dead h) = h_groups h
  /\ h_timers (clear_groups dead h) = h_timers h /\ h_pending (clear_groups dead h) = h_pending h
  /\ h_closed (clear_groups dead h) = h_closed h /\ h_fresh (clear_groups dead h) = h_fresh h.
Proof.
  unfold clear_groups. revert h. induction dead as [|d dead IH]; intros h; simpl; [done|].
  destruct (IH (set_group d (mkGroup [] [] None) h)) as (Hg & Hrest). split; [|done].
  intros g. rewrite Hg. destruct (decide (g ∈ dead)), (decide (g ∈ d :: dead)) as [Hin|Hin]; try done.
  - destruct Hin. by constructor.
  - apply elem_of_cons in Hin as [->|]; [apply grp_set_eq|done].
  - apply grp_set_ne. intros ->. apply Hin. constructor.
Qed.

Lemma prune_fields h :
  h_groups (pruneGroups h) = filter (fun g => is_live h g = true) (h_groups h)
  /\ h_entries (pruneGroups h) = h_entries h /\ h_timers (pruneGroups h) = h_timers h
  /\ h_pending (pruneGroups h) = h_pending h /\ h_closed (pruneGroups h) = h_closed h
  /\ h_fresh (pruneGroups h) = h_fresh h
  /\ (forall g, is_live h g = true -> grp (pruneGroups h) g = grp h g)
  /\ (forall g, is_live h g = false -> g ∈ h_groups h \/ hg_timer (grp h g) = None -> hg_timer (grp (pruneGroups h) g) = None).
Proof.
  destruct (clear_groups_spec (filter (fun g => is_live h g = false) (h_groups h)) h) as (Hg & He & _ & Ht & Hp & Hc & Hf).
  unfold pruneGroups. unfold clear_groups in *. simpl. split_and!; try done;
    intros g Hl; change (grp (set_groups ?gs ?h') g) with (grp h' g); rewrite Hg.
  - rewrite decide_False; [done|]. intros [H _]%list_elem_of_filter. congruence.
  - intros Hor. destruct (decide _) as [|Hn]; [done|]. destruct Hor as [Hin|]; [|done].
    destruct Hn. by apply list_elem_of_filter.
Qed.

Lemma prune_inv h : hz_inv h -> hz_inv (pruneGroups h) /\ all_live (pruneGroups h).
Proof.
  intros [Hnd Hfr He Hm Hd Hs Ht Htf Hgo].
  destruct (prune_fields h) as (Fg & Fe & Ft & _ & _ & Ff & Fgrp & Fdead).
  assert (forall g, g ∈ h_groups (pruneGroups h) <-> is_live h g = true /\ g ∈ h_groups h) as Hin
    by (intros g; by rewrite Fg, list_elem_of_filter).
  assert (forall g, is_live h g = true -> is_live (pruneGroups h) g = true) as Hlive
    by (intros g Hl; unfold is_live in *; by rewrite Fgrp).
  split.
  - split.
    + rewrite Fg. by apply list.NoDup_filter.
    + intros g [_ Hg]%Hin. rewrite Ff. auto.
    + intros x e. rewrite Fe. intros (Hg & Hx & Hb)%He.
      assert (is_live h (he_group e) = true) as Hl by (apply is_live_spec; by destruct (hg_entries _); [apply elem_of_nil in Hx|]).
      rewrite Fgrp by done. split_and!; [by apply Hin|done..].
    + intros g x [Hl Hg]%Hin. rewrite Fe, Fgrp by done. by apply Hm.
    + intros g [Hl Hg]%Hin. rewrite Fgrp by done. auto.
    + intros g1 g2 b1 b2 [H1 ?]%Hin [H2 ?]%Hin Hne _ _. rewrite !Fgrp by done. by apply Hs.
    + intros g tm [Hl Hg]%Hin. rewrite Ft, Fgrp by done. auto.
    + intros tm g. rewrite Ft, Ff. apply Htf.
    + intros g Hn. destruct (is_live h g) eqn:Hl.
      * rewrite Fgrp by done. apply Hgo. intros Hg. by apply Hn, Hin.
      * apply Fdead; [done|]. destruct (decide (g ∈ h_groups h)); [by left|right; auto].
  - intros g [Hl _]%Hin. auto.
Qed.

(** ** Merging groups *)

Lemma retarget_spec (target : nat) (members : list bytes) (es : gmap bytes horizonEntry) x :
  fold_left (fun es x => alter (fun e => mkEntry target (he_bind e)) x es) members es !! x
  = if decide (x ∈ members) then (fun e => mkEntry target (he_bind e)) <$> es !! x else es !! x.
Proof.
  revert es. induction members as [|m ms IH]; intros es; cbn [fold_left].
  { by destruct (decide (x ∈ [])) as [?%elem_of_nil|]. }
  rewrite IH. destruct (decide (m = x)) as [->|Hne].
  - rewrite lookup_alter_eq. destruct (decide (x ∈ x :: ms)) as [|Hn]; [|destruct Hn; constructor].
    destruct (decide (x ∈ ms)), (es !! x); done.
  - rewrite lookup_alter_ne by done. destruct (decide (x ∈ ms)), (decide (x ∈ m :: ms)) as [Hin|Hin]; try done.
    + destruct Hin. by constructor.
    + apply elem_of_cons in Hin as [->|]; done.
Qed.

(** What a merge does to the groups. *)
Lemma absorb_grp t g h : t <> g ->
  hg_entries (grp (absorb t g h) t) = hg_entries (grp h t) ++ hg_entries (grp h g)
  /\ hg_bases (grp (absorb t g h) t) = hg_bases (grp h t) ++ hg_bases (grp h g)
  /\ hg_entries (grp (absorb t g h) g) = []
  /\ (forall u, u <> t -> u <> g -> grp (absorb t g h) u = grp h u)
  /\ h_groups (absorb t g h) = h_groups h /\ h_fresh (absorb t g h) = h_fresh h
  /\ h_pending (absorb t g h) = h_pending h /\ h_closed (absorb t g h) = h_closed h.
Proof.
  intros Hne. unfold absorb.
  destruct (hg_timer (grp h t)), (hg_timer (grp h g)); simpl;
    (split_and!; [rewrite grp_set_ne, grp_set_eq by done; done|rewrite grp_set_ne, grp_set_eq by done; done|
                  by rewrite grp_set_eq| |done..]);
    intros u Hu1 Hu2; by rewrite !grp_set_ne by done.
Qed.

Lemma absorb_entries t g h x :
  h_entries (absorb t g h) !! x =
    if decide (x ∈ hg_entries (grp h g)) then (fun e => mkEntry t (he_bind e)) <$> h_entries h !! x else h_entries h !! x.
Proof.
  rewrite <- retarget_spec. unfold absorb. by destruct (hg_timer (grp h t)), (hg_timer (grp h g)).
Qed.

Lemma absorb_timer t g h u tm :
  hz_inv h -> t <> g -> t ∈ h_groups h -> g ∈ h_groups h -> u ∈ h_groups h ->
  hg_timer (grp (absorb t g h) u) = Some tm -> h_timers (absorb t g h) !! tm = Some u.
Proof.
  intros Hi Hne Htg Hgg Hu. pose proof (hz_timer _ Hi) as Hti. unfold absorb.
  destruct (hg_timer (grp h t)) as [tt|] eqn:Et; destruct (hg_timer (grp h g)) as [tg|] eqn:Eg; simpl;
    destruct (decide (u = g)) as [->|Hug]; rewrite ?grp_set_eq; [simpl..|];
    try (destruct (decide (u = t)) as [->|Hut];
         [rewrite grp_set_ne, grp_set_eq by done; simpl|rewrite !grp_set_ne by done]);
    try (rewrite grp_set_ne by done);
    try (intros E; simplify_eq; auto; fail).
  - intros [= <-]. by rewrite lookup_insert_eq.
  - intros E. change (grp (set_timer ?a ?b ?c) u) with (grp h u) in E. change (grp (set_entries ?a ?c) u) with (grp h u) in E.
    rewrite lookup_insert_ne; [by apply Hti|]. intros ->. apply Hug. apply Hti in E; [|done]. apply Hti in Eg; [|done]. congruence.
Qed.

Lemma absorb_live t g h u : t <> g -> is_live (absorb t g h) u = true -> u <> t -> u <> g /\ is_live h u = true.
Proof.
  intros Hne Hl Hu. destruct (absorb_grp t g h Hne) as (_ & _ & Hg & Hoth & _).
  destruct (decide (u = g)) as [->|Hug]; [apply is_live_spec in Hl; by rewrite Hg in Hl|].
  unfold is_live in *. rewrite Hoth in Hl by done. done.
Qed.

Lemma absorb_inv t g h :
  hz_inv h -> t <> g -> t ∈ h_groups h -> g ∈ h_groups h -> is_live h t = true -> is_live h g = true ->
  hz_inv (absorb t g h).
Proof.
  intros Hi Hne Htg Hgg Hlt Hlg. pose proof (fun u tm => absorb_timer t g h u tm Hi Hne Htg Hgg) as Htm.
  destruct (absorb_grp t g h Hne) as (Et & Bt & Eg & Hoth & Fg & Ff & _).
  pose proof (absorb_entries t g h) as He'. destruct Hi as [Hnd Hfr He Hm Hd Hs Ht Htf Hgo].
  assert (forall u x, u ∈ h_groups h -> x ∈ hg_entries (grp h u) -> x ∈ hg_entries (grp h g) -> u = g) as Hone.
  { intros u x Hu H1 H2. destruct (Hm u x Hu H1) as (e1 & E1 & <-), (Hm g x Hgg H2) as (e2 & E2 & <-). congruence. }
  split; rewrite ?Fg, ?Ff.
  - done.
  - done.
  - intros x e. rewrite He'. destruct (decide (x ∈ hg_entries (grp h g))) as [Hx|Hx].
    + destruct (Hm g x Hgg Hx) as (e0 & E0 & E0g). rewrite E0. intros [= <-]. simpl.
      destruct (He x e0 E0) as (_ & _ & Hb). rewrite E0g in Hb. rewrite Et, Bt. split_and!; [done|set_solver..].
    + intros E. destruct (He x e E) as (Hg & Hin & Hb). split; [done|].
      destruct (decide (he_group e = t)) as [Heq|]; [rewrite Heq in *; rewrite Et, Bt; set_solver|].
      rewrite Hoth; [done..|]. intros Heq. by rewrite Heq in Hin.
  - intros u x Hu Hin. rewrite He'. destruct (decide (u = g)) as [->|Hug]; [rewrite Eg in Hin; by apply elem_of_nil in Hin|].
    destruct (decide (u = t)) as [->|Hut].
    + destruct (decide (x ∈ hg_entries (grp h g))) as [Hx|Hx].
      * destruct (Hm g x Hgg Hx) as (e0 & E0 & _). rewrite E0. eexists. by split.
      * rewrite Et in Hin. apply elem_of_app in Hin as [Hin|]; [|done]. by apply Hm.
    + rewrite Hoth in Hin by done. rewrite decide_False; [by apply Hm|]. intros Hx. by eapply Hug, Hone.
  - intros u Hu. destruct (decide (u = g)) as [->|Hug]; [rewrite Eg; constructor|].
    destruct (decide (u = t)) as [->|Hut]; [|rewrite Hoth by done; auto].
    rewrite Et. apply list.NoDup_app. split; [auto|]. split; [|auto].
    intros x H1 H2. by apply Hne, (Hone t x).
  - assert (forall u b1 b2, u ∈ h_groups h -> u <> t -> is_live (absorb t g h) u = true ->
      b1 ∈ hg_bases (grp (absorb t g h) t) -> b2 ∈ hg_bases (grp (absorb t g h) u) -> bindsShareBase b1 b2 = false) as Hst.
    { intros u b1 b2 Hu Hut Hl. destruct (absorb_live _ _ _ _ Hne Hl Hut) as [Hug Hlu].
      rewrite Bt, Hoth by done. intros [H1|H1]%elem_of_app H2; [by apply (Hs t u)|by apply (Hs g u)]. }
    intros g1 g2 b1 b2 H1 H2 Hn L1 L2 B1 B2.
    destruct (decide (g1 = t)) as [->|Hg1]; [by apply (Hst g2)|].
    destruct (decide (g2 = t)) as [->|Hg2]; [rewrite bindsShareBase_comm; by apply (Hst g1)|].
    destruct (absorb_live _ _ _ _ Hne L1 Hg1), (absorb_live _ _ _ _ Hne L2 Hg2).
    rewrite Hoth in B1, B2 by done. by apply (Hs g1 g2).
  - done.
  - intros tm u. unfold absorb. specialize (Htf tm).
    destruct (hg_timer (grp h t)), (hg_timer (grp h g)) as [tg|] eqn:Etg; simpl; try apply Htf.
    destruct (decide (tg = tm)) as [->|]; [|rewrite lookup_insert_ne by done; apply Htf].
    intros _. eapply Htf. by apply (Ht g).
  - intros u Hu. rewrite Hoth; [auto|by intros ->|by intros ->].
Qed.

(** Where a bind goes. *)
Record targeted (gs : list nat) (target : option nat) b h (target' : option nat) h' : Prop := {
  tg_inv : hz_inv h';
  tg_groups : h_groups h' = h_groups h /\ h_fresh h' = h_fresh h /\ h_pending h' = h_pending h /\ h_closed h' = h_closed h;
  tg_binds : forall x, he_bind <$> h_entries h' !! x = he_bind <$> h_entries h !! x;
  tg_keeps : forall t, target = Some t -> target' = Some t;
  tg_live : forall t, target' = Some t -> t ∈ h_groups h' /\ is_live h' t = true;
  tg_other : forall g, g ∉ gs -> target <> Some g -> grp h' g = grp h g;
  tg_done : forall g, g ∈ gs -> target' = Some g \/ is_live h' g = false \/ overlaps h' g b = false;
  tg_none : target' = None -> h' = h;
}.

Lemma find_target_spec gs target b h :
  hz_inv h -> NoDup gs -> (forall g, g ∈ gs -> g ∈ h_groups h /\ is_live h g = true) ->
  (forall t, target = Some t -> (t ∉ gs) /\ t ∈ h_groups h /\ is_live h t = true) ->
  targeted gs target b h (find_target gs target b h).1 (find_target gs target b h).2.
Proof.
  revert target h. induction gs as [|g gs IH]; intros target h Hi Hnd Hgs Ht; simpl.
  { split; try done; [intros t E; by destruct (Ht t E) as (_ & ? & ?)|by intros g ?%elem_of_nil]. }
  apply list.NoDup_cons in Hnd as [Hg Hnd]. destruct (Hgs g) as [Hgg Hgl]; [constructor|].
  destruct (overlaps h g b) eqn:Ho.
  - destruct target as [t|].
    + destruct (Ht t eq_refl) as (Htg & Htin & Htl). apply not_elem_of_cons in Htg as [Hne Htg].
      pose proof (absorb_inv t g h Hi Hne Htin Hgg Htl Hgl) as Hi1.
      destruct (absorb_grp t g h Hne) as (Et & Bt & Eg & Hoth & Fg & Ff & Fp & Fc).
      assert (is_live (absorb t g h) t = true) as Htl1.
      { apply is_live_spec. rewrite Et. apply is_live_spec in Htl. by destruct (hg_entries (grp h t)). }
      destruct (IH (Some t) (absorb t g h) Hi1 Hnd) as [I G B K L O D N].
      { intros u Hu. destruct (Hgs u) as [Hug Hul]; [by constructor|]. rewrite Fg. split; [done|].
        unfold is_live in *. rewrite Hoth; [done|by intros ->|by intros ->]. }
      { intros t' [= <-]. rewrite Fg. done. }
      split; [done| | |auto|done| | |].
      * destruct G as (-> & -> & -> & ->). done.
      * intros x. rewrite B, absorb_entries. destruct (decide _); [|done]. by destruct (h_entries h !! x).
      * intros u [Hug Hu]%not_elem_of_cons Hut. rewrite O by done. apply Hoth; congruence.
      * intros u [->|Hu]%elem_of_cons; [|auto]. right; left. unfold is_live. rewrite O by (try done; congruence).
        by rewrite Eg.
      * intros E. specialize (K t eq_refl). congruence.
    + destruct (IH (Some g) h Hi Hnd) as [I G B K L O D N].
      { intros u Hu. apply Hgs. by constructor. } { by intros t' [= <-]. }
      specialize (K g eq_refl). split; [done..| |done| | |].
      * done.
      * intros u [Hug Hu]%not_elem_of_cons _. apply O; [done|congruence].
      * intros u [->|Hu]%elem_of_cons; [by left|auto].
      * congruence.
  - destruct (IH target h Hi Hnd) as [I G B K L O D N].
    { intros u Hu. apply Hgs. by constructor. }
    { intros t' E. destruct (Ht t' E) as (Htg & ?). apply not_elem_of_cons in Htg as [_ ?]. done. }
    split; [done..| | |done].
    * intros u [Hug Hu]%not_elem_of_cons Hut. by apply O.
    * intros u [->|Hu]%elem_of_cons; [|auto]. right; right. unfold overlaps in *. rewrite O; [done..|].
      intros E. destruct (Ht g E) as (Htg & _). apply Htg. constructor.
Qed.

(** ** Joining *)

Lemma horizon_join_inv x b t h :
  hz_inv h -> all_live (set_groups (filter (fun g => g <> t) (h_groups h)) h) -> t ∈ h_groups h -> h_entries h !! x = None ->
  is_live h t = true \/ hg_bases (grp h t) = [] ->
  (forall u b', u ∈ h_groups h -> u <> t -> b' ∈ hg_bases (grp h u) -> bindsShareBase b' b = false) ->
  hz_inv (join x b t h) /\ all_live (join x b t h).
Proof.
  intros [Hnd Hfr He Hm Hd Hs Ht Htf Hgo] Hall Htg Hx Hor Hsep.
  assert (forall g, g ∈ h_groups h -> g <> t -> is_live h g = true) as Hall'.
  { intros g Hg Hne. apply Hall. simpl. apply list_elem_of_filter. done. }
  set (gt := mkGroup (hg_entries (grp h t) ++ [x]) (hg_bases (grp h t) ++ [b]) (hg_timer (grp h t))).
  assert (forall g, grp (join x b t h) g = if decide (g = t) then gt else grp h g) as Hgrp.
  { intros g. unfold join. change (grp (set_entries ?e ?h') g) with (grp h' g).
    destruct (decide (g = t)) as [->|]; [by rewrite grp_set_eq|by rewrite grp_set_ne by done]. }
  assert (forall g, g ∈ h_groups h -> x ∉ hg_entries (grp h g)) as Hxn.
  { intros g Hg Hin. destruct (Hm g x Hg Hin) as (e & E & _). congruence. }
  split.
  - split; simpl.
    + done.
    + done.
    + intros y e. destruct (decide (x = y)) as [->|Hne].
      * rewrite lookup_insert_eq. intros [= <-]. simpl. rewrite Hgrp, decide_True by done. simpl. set_solver.
      * rewrite lookup_insert_ne by done. intros (Hg & Hin & Hb)%He. rewrite Hgrp. split; [done|].
        destruct (decide (he_group e = t)) as [E|]; [|done]. rewrite E in *. simpl. set_solver.
    + intros g y Hg. rewrite Hgrp. destruct (decide (g = t)) as [->|Hne]; simpl.
      * intros [Hin| ->%list_elem_of_singleton]%elem_of_app.
        -- rewrite lookup_insert_ne by (intros <-; by eapply Hxn). by apply Hm.
        -- rewrite lookup_insert_eq. eexists. by split.
      * intros Hin. rewrite lookup_insert_ne by (intros <-; by eapply Hxn). by apply Hm.
    + intros g Hg. rewrite Hgrp. destruct (decide (g = t)) as [->|Hne]; simpl; [|auto].
      apply list.NoDup_app. split; [auto|]. split; [|apply list.NoDup_singleton].
      intros y Hy ->%list_elem_of_singleton. by eapply Hxn.
    + assert (forall u b1 b2, u ∈ h_groups h -> u <> t -> b1 ∈ hg_bases (grp h t) ++ [b] -> b2 ∈ hg_bases (grp h u) ->
        bindsShareBase b1 b2 = false) as Hst.
      { intros u b1 b2 Hu Hut [H1| ->%list_elem_of_singleton]%elem_of_app H2; [|rewrite bindsShareBase_comm; by eapply Hsep].
        destruct Hor as [Hl|Hnil]; [|rewrite Hnil in H1; by apply elem_of_nil in H1].
        apply (Hs t u); auto. }
      intros g1 g2 b1 b2 H1 H2 Hne _ _. rewrite !Hgrp.
      destruct (decide (g1 = t)) as [->|Hg1], (decide (g2 = t)) as [->|Hg2]; simpl; [done|by apply Hst| |apply Hs; auto].
      intros B1 B2. rewrite bindsShareBase_comm. by apply (Hst g1).
    + intros g tm Hg. rewrite Hgrp. destruct (decide (g = t)) as [->|]; simpl; auto.
    + done.
    + intros g Hg. rewrite Hgrp, decide_False; [auto|by intros ->].
  - intros g Hg. apply is_live_spec. rewrite Hgrp. destruct (decide (g = t)) as [->|Hne]; simpl.
    + by destruct (hg_entries (grp h t)).
    + apply is_live_spec. by apply Hall'.
Qed.

Lemma add_inv x b h : hz_inv h -> all_live h -> hz_inv (HorizonAdd x b h) /\ all_live (HorizonAdd x b h).
Proof.
  intros Hi Hall. unfold HorizonAdd. destruct (h_entries h !! x) eqn:Ex; [done|].
  pose proof (find_target_spec (h_groups h) None b h Hi (hz_nodup _ Hi)) as Hft.
  destruct (find_target (h_groups h) None b h) as [[t|] h1]; simpl in Hft;
    (destruct Hft as [I (G & F & _) B K L O D N]; [intros g Hg; split; [done|by apply Hall]|done|]).
  - destruct (L t eq_refl) as [Htin Htl]. destruct (prune_inv h1 I) as [Hi2 Hall2].
    destruct (prune_fields h1) as (Fg & Fe & _ & _ & _ & _ & Fgrp & _).
    apply horizon_join_inv; [done| | | | |].
    + intros g Hg. simpl in Hg. apply list_elem_of_filter in Hg as [_ Hg]. by apply Hall2.
    + rewrite Fg. by apply list_elem_of_filter.
    + rewrite Fe. specialize (B x). rewrite Ex in B. by destruct (h_entries h1 !! x).
    + left. unfold is_live. by rewrite Fgrp.
    + intros u b' Hu Hne Hb. rewrite Fg in Hu. apply list_elem_of_filter in Hu as [Hul Hu].
      rewrite Fgrp in Hb by done. rewrite G in Hu.
      destruct (D u Hu) as [|[|Ho]]; [congruence..|]. unfold overlaps in Ho.
      apply not_true_iff_false. intros Hsh. apply not_true_iff_false in Ho. apply Ho, existsb_exists.
      exists b'. split; [by apply list_elem_of_In|done].
  - specialize (N eq_refl) as ->. pose proof (hz_fresh _ Hi) as Hfr.
    set (h2 := bump (set_groups (h_groups h ++ [h_fresh h]) (set_group (h_fresh h) (mkGroup [] [] None) h))).
    assert (forall g, g ∈ h_groups h -> grp h2 g = grp h g) as Hgrp.
    { intros g Hg%Hfr. change (grp h2 g) with (grp (set_group (h_fresh h) (mkGroup [] [] None) h) g).
      apply grp_set_ne. lia. }
    assert (grp h2 (h_fresh h) = mkGroup [] [] None) as Hnew
      by (change (grp h2 (h_fresh h)) with (grp (set_group (h_fresh h) (mkGroup [] [] None) h) (h_fresh h)); apply grp_set_eq).
    assert (forall g, g ∈ h_groups h2 <-> g ∈ h_groups h \/ g = h_fresh h) as Hin
      by (intros g; simpl; rewrite elem_of_app, list_elem_of_singleton; done).
    assert (is_live h2 (h_fresh h) = false) as Hdead by (unfold is_live; by rewrite Hnew).
    apply horizon_join_inv.
    + destruct Hi as [Hnd _ He Hm Hd Hs Ht Htf Hgo]. split.
      * simpl. apply list.NoDup_app. split; [done|]. split; [|apply list.NoDup_singleton].
        intros g Hg%Hfr ->%list_elem_of_singleton. lia.
      * intros g [Hg%Hfr| ->]%Hin; simpl; lia.
      * intros y e (Hg & ? & ?)%He. rewrite Hgrp by done. split_and!; [apply Hin; by left|done..].
      * intros g y [Hg| ->]%Hin; [rewrite Hgrp by done; by apply Hm|]. rewrite Hnew. by intros ?%elem_of_nil.
      * intros g [Hg| ->]%Hin; [rewrite Hgrp by done; auto|]. rewrite Hnew. constructor.
      * intros g1 g2 b1 b2 [H1| ->]%Hin [H2| ->]%Hin Hne L1 L2; try congruence.
        unfold is_live in *. rewrite !Hgrp in * by done. by apply Hs.
      * intros g tm [Hg| ->]%Hin; [rewrite Hgrp by done; by apply Ht|by rewrite Hnew].
      * intros tm g E%Htf. simpl. lia.
      * intros g Hg. assert (g <> h_fresh h /\ g ∉ h_groups h) as [H1 H2] by (split; intros Hx; apply Hg, Hin; auto).
        change (grp h2 g) with (grp (set_group (h_fresh h) (mkGroup [] [] None) h) g). rewrite grp_set_ne by done. auto.
    + intros g Hg. simpl in Hg. apply list_elem_of_filter in Hg as [Hne Hg].
      apply elem_of_app in Hg as [Hg|?%list_elem_of_singleton]; [|done].
      unfold is_live. change (grp (set_groups ?gs h2) g) with (grp h2 g). rewrite Hgrp by done. by apply Hall.
    + apply Hin. by right.
    + done.
    + right. by rewrite Hnew.
    + intros u b' [Hu| ->]%Hin Hne; [|done]. rewrite Hgrp by done. intros Hb.
      destruct (D u Hu) as [|[Hl|Ho]]; [done|rewrite Hall in Hl; done|].
      apply not_true_iff_false. intros Hsh. apply not_true_iff_false in Ho. apply Ho, existsb_exists.
      exists b'. split; [by apply list_elem_of_In|done].
Qed.

(** ** Resolving *)

Definition resolve_all (members : list bytes) h : HorizonSet := fold_left (fun h x => resolve x h) members h.

Lemma resolve_all_spec members h :
  NoDup members -> (forall x, x ∈ members -> is_Some (h_entries h !! x)) ->
  let h' := resolve_all members h in
  (forall y, h_entries h' !! y = if decide (y ∈ members) then None else h_entries h !! y)
  /\ h_groups h' = h_groups h /\ h_group h' = h_group h /\ h_timers h' = h_timers h /\ h_fresh h' = h_fresh h
  /\ h_closed h' = h_closed h ++ members
  /\ (forall tp : Tip, tp ∈ h_pending h' <-> tp ∈ h_pending h /\ forall x e, x ∈ members -> h_entries h !! x = Some e ->
        tp ∉ map kb_new_tip (tb_keys (he_bind e))).
Proof.
  unfold resolve_all. revert h. induction members as [|m ms IH]; intros h Hnd Hall; cbn [fold_left].
  { split_and!; try done; [by rewrite app_nil_r|]. intros t. split; [|by intros [? _]].
    intros Ht. split; [done|]. by intros x e ?%elem_of_nil. }
  apply list.NoDup_cons in Hnd as [Hm Hnd]. destruct (Hall m) as [e He]; [constructor|].
  destruct (IH (resolve m h) Hnd) as (E & G & Gr & T & F & C & P).
  { intros x Hx. unfold resolve. rewrite He. simpl. rewrite lookup_delete_ne by (by intros ->).
    apply Hall. by constructor. }
  unfold resolve in *. rewrite He in *. simpl in *. split_and!; try done.
  - intros y. rewrite E. destruct (decide (y ∈ ms)), (decide (y ∈ m :: ms)) as [Hin|Hin]; try done.
    + destruct Hin. by constructor.
    + apply elem_of_cons in Hin as [->|]; [apply lookup_delete_eq|done].
    + apply lookup_delete_ne. intros ->. apply Hin. constructor.
  - rewrite C. by rewrite <- app_assoc.
  - intros t. rewrite P, elem_of_difference, elem_of_list_to_set. split.
    + intros [[Hp Hn] Hms]. split; [done|]. intros x e' [->|Hx]%elem_of_cons Hxe; [congruence|].
      apply (Hms x e' Hx). rewrite lookup_delete_ne; [done|]. by intros ->.
    + intros [Hp Hms]. split; [split; [done|]|].
      * apply (Hms m e); [constructor|done].
      * intros x e' Hx. rewrite lookup_delete_ne by (by intros ->). apply Hms. by constructor.
Qed.

(** [h'] is [h] without some members of [g], in the group and among the entries. *)
Lemma shrink_inv g (members rest : list bytes) h h' :
  hz_inv h -> g ∈ h_groups h ->
  (forall y, h_entries h' !! y = if decide (y ∈ members) then None else h_entries h !! y) ->
  h_groups h' = h_groups h -> h_timers h' = h_timers h -> h_fresh h' = h_fresh h ->
  (forall u, u <> g -> grp h' u = grp h u) ->
  grp h' g = mkGroup rest (hg_bases (grp h g)) (hg_timer (grp h g)) ->
  (forall y, y ∈ rest <-> y ∈ hg_entries (grp h g) /\ y ∉ members) -> NoDup rest ->
  (forall y, y ∈ members -> y ∈ hg_entries (grp h g)) ->
  hz_inv h'.
Proof.
  intros [Hnd Hfr He Hm Hd Hs Ht Htf Hgo] Hg E G T F Hoth Hgrp Hrest Hndr Hsub.
  assert (forall u, hg_bases (grp h' u) = hg_bases (grp h u) /\ hg_timer (grp h' u) = hg_timer (grp h u)) as Hsame.
  { intros u. destruct (decide (u = g)) as [->|]; [by rewrite Hgrp|by rewrite Hoth]. }
  assert (forall u, is_live h' u = true -> is_live h u = true) as Hlive.
  { intros u. destruct (decide (u = g)) as [->|]; [|unfold is_live; by rewrite Hoth].
    rewrite !is_live_spec, Hgrp. simpl. destruct rest as [|y rest]; [done|]. intros _ Hnil.
    assert (y ∈ hg_entries (grp h g)) as Hy by (apply Hrest; constructor). rewrite Hnil in Hy. by apply elem_of_nil in Hy. }
  split; rewrite ?G, ?F, ?T; try done.
  - intros y e. rewrite E. destruct (decide (y ∈ members)) as [|Hn]; [done|]. intros (Hgy & Hin & Hb)%He.
    destruct (Hsame (he_group e)) as [-> _]. split_and!; [done| |done].
    destruct (decide (he_group e = g)) as [Eq|]; [|by rewrite Hoth]. rewrite Eq in *. rewrite Hgrp. simpl. by apply Hrest.
  - intros u y Hu Hin. rewrite E. destruct (decide (u = g)) as [->|Hne].
    + rewrite Hgrp in Hin. simpl in Hin. apply Hrest in Hin as [Hin Hn]. rewrite decide_False by done. by apply Hm.
    + rewrite Hoth in Hin by done. rewrite decide_False; [by apply Hm|]. intros Hy%Hsub.
      destruct (Hm g y Hg Hy) as (e1 & E1 & <-), (Hm u y Hu Hin) as (e2 & E2 & <-). congruence.
  - intros u Hu. destruct (decide (u = g)) as [->|]; [by rewrite Hgrp|]. rewrite Hoth by done. auto.
  - intros g1 g2 b1 b2 H1 H2 Hne L1%Hlive L2%Hlive. destruct (Hsame g1) as [-> _], (Hsame g2) as [-> _]. by apply Hs.
  - intros u tm Hu. destruct (Hsame u) as [_ ->]. auto.
  - intros u Hu. destruct (Hsame u) as [_ ->]. auto.
Qed.

Lemma remove_first_spec x (l : list bytes) :
  NoDup l -> NoDup (remove_first x l) /\ forall y, y ∈ remove_first x l <-> y ∈ l /\ y <> x.
Proof.
  intros Hnd. unfold remove_first. destruct (list_find (eq x) l) as [[i z]|] eqn:E.
  - apply list_find_Some in E as (Hi & <- & _). pose proof (take_drop_middle l i x Hi) as Hl.
    rewrite <- Hl in Hnd. apply list.NoDup_app in Hnd as (Hn1 & Hdis & Hn2). apply list.NoDup_cons in Hn2 as [Hx Hn2].
    split; [apply list.NoDup_app; split_and!; [done|intros y Hy Hy'; by apply (Hdis y Hy); constructor|done]|].
    intros y. rewrite <- Hl at 3. rewrite !elem_of_app, elem_of_cons.
    split; [|by intros [[|[->|]] ?]; auto].
    intros [Hy|Hy]; (split; [auto|]); intros ->; [by apply (Hdis x Hy); constructor|done].
  - apply list_find_None in E. split; [done|]. intros y. split; [|by intros [? _]].
    intros Hy. split; [done|]. intros ->. rewrite Forall_forall in E. apply list_elem_of_In in Hy. by eapply E.
Qed.

Section Visible.
Context {sorter : SortFunc}.

(** The state before pruning. *)
Definition released g h : HorizonSet :=
  let h1 := resolve_all (hg_entries (grp h g)) h in
  set_group g (mkGroup [] (hg_bases (grp h1 g)) (hg_timer (grp h1 g))) h1.

Lemma released_spec g h :
  hz_inv h -> g ∈ h_groups h ->
  hz_inv (released g h)
  /\ (forall y, h_entries (released g h) !! y = if decide (y ∈ hg_entries (grp h g)) then None else h_entries h !! y)
  /\ h_closed (released g h) = h_closed h ++ hg_entries (grp h g)
  /\ (forall tp : Tip, tp ∈ h_pending (released g h) <-> tp ∈ h_pending h /\ forall x e, x ∈ hg_entries (grp h g) ->
        h_entries h !! x = Some e -> tp ∉ map kb_new_tip (tb_keys (he_bind e)))
  /\ (forall u, u <> g -> grp (released g h) u = grp h u).
Proof.
  intros Hi Hg. pose proof Hi as [_ _ _ Hm Hd _ _ _ _].
  destruct (resolve_all_spec (hg_entries (grp h g)) h (Hd g Hg)) as (E & G & Gr & T & F & C & P).
  { intros x Hx. destruct (Hm g x Hg Hx) as (e & ? & _). eauto. }
  assert (forall u, grp (resolve_all (hg_entries (grp h g)) h) u = grp h u) as Hgrp by (intros u; by apply grp_ext).
  assert (forall u, u <> g -> grp (released g h) u = grp h u) as Hoth
    by (intros u Hu; unfold released; by rewrite grp_set_ne, Hgrp by done).
  split_and!; try done. eapply (shrink_inv g (hg_entries (grp h g)) []); try done.
  - unfold released. by rewrite grp_set_eq, Hgrp.
  - intros y. split; [by intros ?%elem_of_nil|by intros [? ?]].
  - constructor.
Qed.

Lemma visible_is_released g h : (makeGroupVisible g h).1 = pruneGroups (released g h).
Proof. done. Qed.

Lemma makeGroupVisible_inv g h :
  hz_inv h -> g ∈ h_groups h -> hz_inv (makeGroupVisible g h).1 /\ all_live (makeGroupVisible g h).1.
Proof. intros Hi Hg. rewrite visible_is_released. apply prune_inv. by apply released_spec. Qed.

(** The state of [Abort] before pruning. *)
Definition dropped x (e : horizonEntry) h : HorizonSet :=
  resolve x (set_group (he_group e)
    (mkGroup (remove_first x (hg_entries (grp h (he_group e)))) (hg_bases (grp h (he_group e))) (hg_timer (grp h (he_group e)))) h).

Lemma dropped_spec x e h :
  hz_inv h -> h_entries h !! x = Some e ->
  hz_inv (dropped x e h)
  /\ (forall y, h_entries (dropped x e h) !! y = if decide (y = x) then None else h_entries h !! y)
  /\ h_closed (dropped x e h) = h_closed h ++ [x]
  /\ (forall u, hg_timer (grp (dropped x e h) u) = hg_timer (grp h u)).
Proof.
  intros Hi Hx. destruct (hz_entry _ Hi x e Hx) as (Hg & Hin & _).
  destruct (remove_first_spec x _ (hz_distinct _ Hi _ Hg)) as [Hnd Hrm].
  assert (forall y, h_entries (dropped x e h) !! y = if decide (y = x) then None else h_entries h !! y) as E.
  { intros y. unfold dropped, resolve. simpl. rewrite Hx. simpl. destruct (decide (y = x)) as [->|];
      [apply lookup_delete_eq|by apply lookup_delete_ne]. }
  assert (forall u, grp (dropped x e h) u = grp (set_group (he_group e)
    (mkGroup (remove_first x (hg_entries (grp h (he_group e)))) (hg_bases (grp h (he_group e))) (hg_timer (grp h (he_group e)))) h) u) as Gr.
  { intros u. unfold dropped, resolve. simpl. by rewrite Hx. }
  split_and!; try done.
  - eapply (shrink_inv (he_group e) [x] (remove_first x (hg_entries (grp h (he_group e))))); try done.
    + intros y. rewrite E. destruct (decide (y = x)) as [->|Hne].
      * by rewrite decide_True by constructor.
      * rewrite decide_False; [done|by intros ?%list_elem_of_singleton].
    + unfold dropped, resolve. simpl. by rewrite Hx.
    + unfold dropped, resolve. simpl. by rewrite Hx.
    + unfold dropped, resolve. simpl. by rewrite Hx.
    + intros u Hu. rewrite Gr. by apply grp_set_ne.
    + rewrite Gr. apply grp_set_eq.
    + intros y. by rewrite Hrm, list_elem_of_singleton.
    + by intros y ->%list_elem_of_singleton.
  - unfold dropped, resolve. simpl. by rewrite Hx.
  - intros u. rewrite Gr. destruct (decide (u = he_group e)) as [->|]; [by rewrite grp_set_eq|by rewrite grp_set_ne by done].
Qed.

Lemma abort_is_dropped x e h : h_entries h !! x = Some e -> HorizonAbort x h = pruneGroups (dropped x e h).
Proof. intros Hx. unfold HorizonAbort. by rewrite Hx. Qed.

Lemma schedule_spec x e h :
  hz_inv h -> all_live h -> h_entries h !! x = Some e ->
  let h' := ScheduleMakeVisible x h in
  hz_inv h' /\ all_live h' /\ h_entries h' = h_entries h /\ h_closed h' = h_closed h
  /\ hg_timer (grp h' (he_group e)) <> None
  /\ (forall u, hg_timer (grp h u) <> None -> hg_timer (grp h' u) <> None).
Proof.
  intros Hi Hall Hx. unfold ScheduleMakeVisible. rewrite Hx. set (g := he_group e). set (h' := bump _).
  assert (forall u, grp h' u = if decide (u = g) then mkGroup (hg_entries (grp h g)) (hg_bases (grp h g)) (Some (h_fresh h)) else grp h u) as Gr.
  { intros u. destruct (decide (u = g)) as [->|Hne].
    - change (grp h' g) with (grp (set_group g (mkGroup (hg_entries (grp h g)) (hg_bases (grp h g)) (Some (h_fresh h))) (set_timer (h_fresh h) g h)) g).
      apply grp_set_eq.
    - change (grp h' u) with (grp (set_group g (mkGroup (hg_entries (grp h g)) (hg_bases (grp h g)) (Some (h_fresh h))) (set_timer (h_fresh h) g h)) u).
      by rewrite grp_set_ne by done. }
  assert (forall u, hg_entries (grp h' u) = hg_entries (grp h u) /\ hg_bases (grp h' u) = hg_bases (grp h u)) as Hsame.
  { intros u. rewrite Gr. by destruct (decide (u = g)) as [->|]. }
  assert (forall u, is_live h' u = is_live h u) as Hl by (intros u; unfold is_live; by destruct (Hsame u) as [-> _]).
  split_and!; try done.
  - destruct (hz_entry _ Hi x e Hx) as (Hgin & _). destruct Hi as [Hnd Hfr He Hm Hd Hs Ht Htf Hgo]. split; simpl; try done.
    + intros u Hu%Hfr. lia.
    + intros y ey (Hy & ? & ?)%He. destruct (Hsame (he_group ey)) as [-> ->]. done.
    + intros u y Hu. destruct (Hsame u) as [-> _]. by apply Hm.
    + intros u Hu. destruct (Hsame u) as [-> _]. auto.
    + intros g1 g2 b1 b2. rewrite !Hl. destruct (Hsame g1) as [_ ->], (Hsame g2) as [_ ->]. apply Hs.
    + intros u tm Hu. rewrite Gr. destruct (decide (u = g)) as [->|]; simpl.
      * intros [= <-]. by rewrite lookup_insert_eq.
      * intros E%Ht; [|done]. rewrite lookup_insert_ne; [done|]. apply Htf in E. lia.
    + intros tm u. destruct (decide (h_fresh h = tm)) as [<-|]; [lia|]. rewrite lookup_insert_ne by done.
      intros E%Htf. lia.
    + intros u Hu. rewrite Gr, decide_False; [auto|by intros ->].
  - intros u Hu. rewrite Hl. by apply Hall.
  - rewrite Gr. by rewrite decide_True.
  - intros u Hu. rewrite Gr. by destruct (decide (u = g)).
Qed.

(** ** Reachable states *)

Lemma hstep_inv h h' : hz_inv h -> all_live h -> hstep h h' -> hz_inv h' /\ all_live h'.
Proof.
  intros Hi Hall Hst. destruct Hst as [h x b|h x|h x|h x|h tm|h t].
  - by apply add_inv.
  - unfold MakeVisible. destruct (h_entries h !! x) as [e|] eqn:Hx; [|done].
    apply makeGroupVisible_inv; [done|]. by apply (hz_entry _ Hi x).
  - destruct (h_entries h !! x) as [e|] eqn:Hx; [|unfold HorizonAbort; by rewrite Hx].
    rewrite (abort_is_dropped x e h Hx). apply prune_inv. by apply dropped_spec.
  - destruct (h_entries h !! x) as [e|] eqn:Hx; [|unfold ScheduleMakeVisible; by rewrite Hx].
    destruct (schedule_spec x e h Hi Hall Hx) as (? & ? & _). done.
  - unfold fire. destruct (h_timers h !! tm) as [g|] eqn:Et; [|done].
    destruct (decide (hg_timer (grp h g) = Some tm)) as [Eg|]; [|done].
    destruct (decide (g ∈ h_groups h)) as [Hg|Hg]; [by apply makeGroupVisible_inv|].
    rewrite (hz_gone _ Hi g Hg) in Eg. done.
  - destruct Hi as [Hnd Hfr He Hm Hd Hs Ht Htf Hgo]. split; [split; assumption|assumption].
Qed.

Lemma new_inv : hz_inv newHorizonSet /\ all_live newHorizonSet.
Proof. split; [split|]; try done; [constructor|intros; set_solver..]. Qed.

Lemma reachable_inv h : rtc hstep newHorizonSet h -> hz_inv h /\ all_live h.
Proof.
  intros Hr. revert Hr. apply (rtc_ind_r (R := hstep) (fun h => hz_inv h /\ all_live h) newHorizonSet); [apply new_inv|].
  intros a b' _ Hst [Hi Hall]. by eapply hstep_inv.
Qed.

(** ** Fallback timers *)

(** [x] is invisible and its group has a timer. *)
Definition armed h x : Prop := exists e, h_entries h !! x = Some e /\ hg_timer (grp h (he_group e)) <> None.

Lemma absorb_armed t g h x :
  hz_inv h -> t <> g -> t ∈ h_groups h -> g ∈ h_groups h -> armed h x -> armed (absorb t g h) x.
Proof.
  intros Hi Hne Ht Hg (e & He & Htm). destruct (absorb_grp t g h Hne) as (_ & _ & _ & Hoth & _).
  assert (hg_timer (grp h t) <> None \/ hg_timer (grp h g) <> None -> hg_timer (grp (absorb t g h) t) <> None) as Htt.
  { unfold absorb. destruct (hg_timer (grp h t)) eqn:E1, (hg_timer (grp h g)) eqn:E2; simpl;
      rewrite grp_set_ne, grp_set_eq by done; simpl; intros [|]; done. }
  unfold armed. rewrite absorb_entries, He. destruct (decide (x ∈ hg_entries (grp h g))) as [Hx|Hx].
  - eexists. split; [done|]. simpl. apply Htt. right.
    destruct (hz_member _ Hi g x Hg Hx) as (e' & E' & E'g). rewrite He in E'. injection E' as <-. by rewrite E'g in Htm.
  - exists e. split; [done|]. destruct (decide (he_group e = t)) as [E|]; [rewrite E in *; auto|].
    rewrite Hoth; [done..|]. intros E. destruct (hz_entry _ Hi x e He) as (_ & Hin & _). by rewrite E in Hin.
Qed.

Lemma find_target_armed gs target b h x :
  hz_inv h -> NoDup gs -> (forall g, g ∈ gs -> g ∈ h_groups h /\ is_live h g = true) ->
  (forall t, target = Some t -> (t ∉ gs) /\ t ∈ h_groups h /\ is_live h t = true) ->
  armed h x -> armed (find_target gs target b h).2 x.
Proof.
  revert target h. induction gs as [|g gs IH]; intros target h Hi Hnd Hgs Ht Hx; simpl; [done|].
  apply list.NoDup_cons in Hnd as [Hg Hnd]. destruct (Hgs g) as [Hgg Hgl]; [constructor|].
  assert (forall u, u ∈ gs -> u ∈ h_groups h /\ is_live h u = true) as Hgs' by (intros u Hu; apply Hgs; by constructor).
  destruct (overlaps h g b); [destruct target as [t|]|].
  - destruct (Ht t eq_refl) as (Htg & Htin & Htl). apply not_elem_of_cons in Htg as [Hne Htg].
    destruct (absorb_grp t g h Hne) as (Et & _ & _ & Hoth & Fg & _). apply IH.
    + by apply absorb_inv.
    + done.
    + intros u Hu. destruct (Hgs' u Hu). rewrite Fg. split; [done|]. unfold is_live in *.
      rewrite Hoth; [done|by intros ->|by intros ->].
    + intros t' [= <-]. rewrite Fg. split_and!; [done..|]. apply is_live_spec. rewrite Et. apply is_live_spec in Htl.
      by destruct (hg_entries (grp h t)).
    + by apply absorb_armed.
  - apply IH; [done..| |done]. by intros t' [= <-].
  - apply IH; [done..| |done]. intros t' E. destruct (Ht t' E) as (Htg & ?). apply not_elem_of_cons in Htg as [_ ?]. done.
Qed.

(** Pruning keeps what is invisible. *)
Lemma prune_armed h x e :
  hz_inv h -> h_entries h !! x = Some e -> grp (pruneGroups h) (he_group e) = grp h (he_group e).
Proof.
  intros Hi Hx. destruct (prune_fields h) as (_ & _ & _ & _ & _ & _ & Fgrp & _). apply Fgrp.
  apply is_live_spec. destruct (hz_entry _ Hi x e Hx) as (_ & Hin & _). intros E. rewrite E in Hin. by apply elem_of_nil in Hin.
Qed.

Lemma prune_keeps_armed h x : hz_inv h -> armed h x -> armed (pruneGroups h) x.
Proof.
  intros Hi (e & He & Ht). exists e. destruct (prune_fields h) as (_ & -> & _). split; [done|].
  by rewrite (prune_armed h x e Hi He).
Qed.

Lemma join_armed y b t h x : h_entries h !! y = None -> armed h x -> armed (join y b t h) x.
Proof.
  intros Hy (e & He & Ht). exists e. unfold join. simpl. rewrite lookup_insert_ne by congruence. split; [done|].
  change (grp (set_entries ?a ?b') (he_group e)) with (grp b' (he_group e)).
  destruct (decide (he_group e = t)) as [E|]; [rewrite E in *; by rewrite grp_set_eq|by rewrite grp_set_ne by done].
Qed.

Lemma add_armed y b h x : hz_inv h -> all_live h -> armed h x -> armed (HorizonAdd y b h) x.
Proof.
  intros Hi Hall Hx. unfold HorizonAdd. destruct (h_entries h !! y) eqn:Hy; [done|].
  assert (forall g, g ∈ h_groups h -> g ∈ h_groups h /\ is_live h g = true) as Hl by (intros g Hg; split; [done|by apply Hall]).
  pose proof (find_target_armed (h_groups h) None b h x Hi (hz_nodup _ Hi) Hl ltac:(done) Hx) as Ha.
  destruct (find_target_spec (h_groups h) None b h Hi (hz_nodup _ Hi) Hl ltac:(done)) as [I _ B _ _ _ _ N].
  destruct (find_target (h_groups h) None b h) as [[t|] h1]; simpl in *.
  - apply join_armed; [|by apply prune_keeps_armed]. destruct (prune_fields h1) as (_ & -> & _).
    specialize (B y). rewrite Hy in B. by destruct (h_entries h1 !! y).
  - specialize (N eq_refl) as ->. apply join_armed; [done|]. destruct Hx as (e & He & Ht). exists e. split; [done|].
    destruct (hz_entry _ Hi x e He) as (Hg & _). apply (hz_fresh _ Hi) in Hg.
    change (grp (bump (set_groups ?a ?b')) (he_group e)) with (grp b' (he_group e)). rewrite grp_set_ne by lia. done.
Qed.

Lemma visible_armed g h x e :
  hz_inv h -> g ∈ h_groups h -> h_entries (makeGroupVisible g h).1 !! x = Some e -> armed h x ->
  armed (makeGroupVisible g h).1 x.
Proof.
  intros Hi Hg Hx (e0 & He0 & Ht). rewrite visible_is_released in *.
  destruct (released_spec g h Hi Hg) as (Hi' & E & _ & _ & Hoth). apply prune_keeps_armed; [done|].
  destruct (prune_fields (released g h)) as (_ & Fe & _). rewrite Fe, E in Hx.
  destruct (decide (x ∈ hg_entries (grp h g))) as [|Hn]; [done|]. exists e0. rewrite E, decide_False by done. split; [done|].
  rewrite Hoth; [done|]. intros Eg. destruct (hz_entry _ Hi x e0 He0) as (_ & Hin & _). by rewrite Eg in Hin.
Qed.

Lemma hstep_armed h h' x e :
  hz_inv h -> all_live h -> hstep h h' -> h_entries h' !! x = Some e -> armed h x -> armed h' x.
Proof.
  intros Hi Hall Hst Hx Ha. destruct Hst as [h y b|h y|h y|h y|h tm|h t]; [by apply add_armed|..|done].
  - unfold MakeVisible in *. destruct (h_entries h !! y) as [ey|] eqn:Hy; [|done].
    eapply visible_armed; [done| |done..]. by apply (hz_entry _ Hi y).
  - destruct (h_entries h !! y) as [ey|] eqn:Hy; [|unfold HorizonAbort in *; by rewrite Hy in *].
    rewrite (abort_is_dropped y ey h Hy) in *. destruct (dropped_spec y ey h Hi Hy) as (Hi' & E & _ & Htm).
    apply prune_keeps_armed; [done|]. destruct (prune_fields (dropped y ey h)) as (_ & Fe & _). rewrite Fe, E in Hx.
    destruct Ha as (e0 & He0 & Ht). exists e0. rewrite E. destruct (decide (x = y)); [done|]. split; [done|]. by rewrite Htm.
  - destruct (h_entries h !! y) as [ey|] eqn:Hy; [|unfold ScheduleMakeVisible; by rewrite Hy].
    destruct (schedule_spec y ey h Hi Hall Hy) as (_ & _ & Ee & _ & _ & Hk). destruct Ha as (e0 & He0 & Ht).
    exists e0. rewrite Ee. auto.
  - unfold fire in *. destruct (h_timers h !! tm) as [g|] eqn:Et; [|done].
    destruct (decide (hg_timer (grp h g) = Some tm)) as [Eg|]; [|done].
    destruct (decide (g ∈ h_groups h)) as [Hg|Hg]; [by eapply visible_armed|].
    by rewrite (hz_gone _ Hi g Hg) in Eg.
Qed.

(** An armed transaction can be made visible by a timer. *)
Lemma armed_fires h x : hz_inv h -> armed h x -> exists tm, h_entries (fire tm h).1 !! x = None.
Proof.
  intros Hi (e & He & Ht). destruct (hz_entry _ Hi x e He) as (Hg & Hin & _).
  destruct (hg_timer (grp h (he_group e))) as [tm|] eqn:Etm; [|done]. exists tm.
  unfold fire. rewrite (hz_timer _ Hi _ _ Hg Etm), decide_True by done. rewrite visible_is_released.
  destruct (prune_fields (released (he_group e) h)) as (_ & -> & _).
  destruct (released_spec (he_group e) h Hi Hg) as (_ & E & _). by rewrite E, decide_True.
Qed.

End Visible.

(** ** Keys of a release *)

Lemma elem_of_compact k (l : list bytes) : k ∈ compact l <-> k ∈ l.
Proof.
  induction l as [|x l IH]; [done|]. simpl. destruct l as [|y l]; [done|].
  destruct (decide (x = y)) as [->|]; rewrite ?elem_of_cons, IH, ?elem_of_cons; tauto.
Qed.

Lemma NoDup_compact (l : list bytes) : StronglySorted (fun k1 k2 : bytes => bytes_compare k1 k2 <= 0) l -> NoDup (compact l).
Proof.
  induction 1 as [|x l Hs IH Hx]; [constructor|]. simpl. destruct l as [|y l]; [by apply list.NoDup_singleton|].
  destruct (decide (x = y)) as [->|Hne]; [done|]. constructor; [|done].
  rewrite elem_of_compact. intros Hin. apply Hne.
  apply list.Forall_cons in Hx as [Hxy _]. apply elem_of_cons in Hin as [|Hin]; [done|].
  inversion Hs as [|? ? _ Hy]; subst. rewrite Forall_forall in Hy. apply list_elem_of_In in Hin. specialize (Hy x Hin).
  apply bytes_compare_eq. pose proof (bytes_compare_antisym x y). lia.
Qed.

Lemma visible_keys `{!SortFunc} g h k :
  NoDup (makeGroupVisible g h).2
  /\ (k ∈ (makeGroupVisible g h).2 <-> exists x e kb, x ∈ hg_entries (grp h g) /\ h_entries h !! x = Some e
        /\ kb ∈ tb_keys (he_bind e) /\ kb_key kb = k).
Proof.
  unfold makeGroupVisible. simpl. split; [apply NoDup_compact, sort_func_sorted; apply _|].
  rewrite elem_of_compact, elem_of_sort_func, list_elem_of_In, in_flat_map. unfold member_keys. split.
  - intros (x & Hx & Hk). destruct (h_entries h !! x) as [e|] eqn:E; [|done]. apply in_map_iff in Hk as (kb & <- & Hk).
    exists x, e, kb. rewrite !list_elem_of_In. done.
  - intros (x & e & kb & Hx & E & Hk & <-). exists x. rewrite E. split; [by apply list_elem_of_In|].
    apply in_map, list_elem_of_In. done.
Qed.

(** [C29] Competing binds become visible together.  In every reachable state,
    making a transaction visible releases all invisible binds that share a base
    with it, directly or through others of its group; no bind that stays
    invisible shares a base with a released one; the entries that stay are
    untouched; the released binds' tips are no longer pending; and the key
    callbacks run once for each key of the released binds. *)
Theorem visible_together `{!SortFunc} h x e :
  rtc hstep newHorizonSet h -> h_entries h !! x = Some e ->
  let h' := (MakeVisible x h).1 in
  let released y := IsInvisible h y = true /\ IsInvisible h' y = false in
  (forall y ey, h_entries h !! y = Some ey -> bindsShareBase (he_bind e) (he_bind ey) = true -> released y)
  /\ released x
  /\ (forall y ey z ez, released y -> h_entries h !! y = Some ey -> h_entries h' !! z = Some ez ->
        h_entries h !! z = Some ez /\ bindsShareBase (he_bind ey) (he_bind ez) = false)
  /\ (forall y ey kb, released y -> h_entries h !! y = Some ey -> kb ∈ tb_keys (he_bind ey) -> kb_new_tip kb ∉ h_pending h')
  /\ NoDup (MakeVisible x h).2
  /\ (forall k, k ∈ (MakeVisible x h).2 <-> exists y ey kb, released y /\ h_entries h !! y = Some ey
        /\ kb ∈ tb_keys (he_bind ey) /\ kb_key kb = k).
Proof.
  intros Hr Hx. destruct (reachable_inv h Hr) as [Hi Hall]. cbv zeta. unfold MakeVisible. rewrite Hx.
  destruct (hz_entry _ Hi x e Hx) as (Hg & Hin & Hb). set (g := he_group e) in *.
  destruct (released_spec g h Hi Hg) as (_ & E & _ & P & _).
  destruct (prune_fields (released g h)) as (_ & Fe & _ & Fp & _).
  rewrite <- visible_is_released in Fe, Fp.
  assert (forall y, h_entries (makeGroupVisible g h).1 !! y = if decide (y ∈ hg_entries (grp h g)) then None else h_entries h !! y) as E'
    by (intros y; by rewrite Fe, E).
  assert (forall y, IsInvisible h y = true /\ IsInvisible (makeGroupVisible g h).1 y = false <-> y ∈ hg_entries (grp h g)) as Hrel.
  { intros y. unfold IsInvisible. rewrite E'. destruct (decide (y ∈ hg_entries (grp h g))) as [Hy|Hy].
    - destruct (hz_member _ Hi g y Hg Hy) as (ey & -> & _). done.
    - destruct (h_entries h !! y); naive_solver. }
  assert (forall y ey, h_entries h !! y = Some ey -> he_group ey <> g -> forall z ez, z ∈ hg_entries (grp h g) ->
            h_entries h !! z = Some ez -> bindsShareBase (he_bind ez) (he_bind ey) = false) as Hsep.
  { intros y ey Hy Hne z ez Hz Hez. destruct (hz_member _ Hi g z Hg Hz) as (ez' & E2 & Eg).
    assert (ez' = ez) as -> by congruence. destruct (hz_entry _ Hi z ez Hez) as (_ & _ & Hbz).
    destruct (hz_entry _ Hi y ey Hy) as (Hgy & _ & Hby). rewrite Eg in Hbz.
    by apply (hz_separate _ Hi g (he_group ey)); auto. }
  setoid_rewrite Hrel. split_and!.
  - intros y ey Hy Hsh. destruct (hz_entry _ Hi y ey Hy) as (Hgy & Hiny & _).
    destruct (decide (he_group ey = g)) as [<-|Hne]; [done|].
    rewrite (Hsep y ey Hy Hne x e Hin Hx) in Hsh. done.
  - done.
  - intros y ey z ez Hy Hey. rewrite E'. destruct (decide (z ∈ _)) as [|Hz]; [done|]. intros Hez. split; [done|].
    refine (Hsep z ez Hez _ y ey Hy Hey). intros Eq. apply Hz. rewrite <- Eq. by apply (hz_entry _ Hi z).
  - intros y ey kb Hy Hey Hkb. rewrite Fp, P. intros [_ Hn]. apply (Hn y ey Hy Hey).
    apply list_elem_of_In, in_map, list_elem_of_In. done.
  - by apply (visible_keys g h []).
  - intros k. apply visible_keys.
Qed.

(** What a step closes. *)
Lemma hstep_closes `{!SortFunc} h h' :
  hz_inv h -> all_live h -> hstep h h' ->
  exists l, h_closed h' = h_closed h ++ l /\ NoDup l
    /\ forall y, y ∈ l <-> IsInvisible h y = true /\ IsInvisible h' y = false.
Proof.
  intros Hi Hall Hst.
  assert (forall h1 h2, h_closed h2 = h_closed h1 -> (forall y, is_Some (h_entries h1 !! y) -> is_Some (h_entries h2 !! y)) ->
    exists l, h_closed h2 = h_closed h1 ++ l /\ NoDup l /\ forall y, y ∈ l <-> IsInvisible h1 y = true /\ IsInvisible h2 y = false) as Hsame.
  { intros h1 h2 Hc He. exists []. rewrite app_nil_r. split_and!; [done|constructor|]. intros y.
    split; [by intros ?%elem_of_nil|]. unfold IsInvisible. intros [H1 H2]. specialize (He y).
    destruct (h_entries h1 !! y), (h_entries h2 !! y); try done. by destruct He. }
  assert (forall g, g ∈ h_groups h -> exists l, h_closed (makeGroupVisible g h).1 = h_closed h ++ l /\ NoDup l
    /\ forall y, y ∈ l <-> IsInvisible h y = true /\ IsInvisible (makeGroupVisible g h).1 y = false) as Hvis.
  { intros g Hg. rewrite visible_is_released. destruct (released_spec g h Hi Hg) as (_ & E & C & _).
    destruct (prune_fields (released g h)) as (_ & Fe & _ & _ & Fc & _).
    exists (hg_entries (grp h g)). rewrite Fc. split_and!; [done|by apply (hz_distinct _ Hi)|].
    intros y. unfold IsInvisible. rewrite Fe, E. destruct (decide (y ∈ _)) as [Hy|Hy].
    - destruct (hz_member _ Hi g y Hg Hy) as (ey & -> & _). done.
    - destruct (h_entries h !! y); naive_solver. }
  destruct Hst as [h x b|h x|h x|h x|h tm|h t].
  - apply Hsame.
    + unfold HorizonAdd. destruct (h_entries h !! x); [done|].
      destruct (find_target_spec (h_groups h) None b h Hi (hz_nodup _ Hi)) as [_ (_ & _ & _ & C) _ _ _ _ _ _];
        [intros g Hg; split; [done|by apply Hall]|done|].
      destruct (find_target (h_groups h) None b h) as [[t|] h1]; cbn [fst snd] in *; [|done].
      change (h_closed (pruneGroups h1) = h_closed h). destruct (prune_fields h1) as (_ & _ & _ & _ & Fc & _). by rewrite Fc.
    + intros y [ey Hy]. unfold HorizonAdd. destruct (h_entries h !! x) eqn:Ex; [by exists ey|].
      destruct (find_target_spec (h_groups h) None b h Hi (hz_nodup _ Hi)) as [_ _ B _ _ _ _ _];
        [intros g Hg; split; [done|by apply Hall]|done|].
      destruct (find_target (h_groups h) None b h) as [[t|] h1]; cbn [fst snd] in *; specialize (B y); rewrite Hy in B.
      * change (is_Some (<[ x := mkEntry t b ]> (h_entries (pruneGroups h1)) !! y)).
        rewrite lookup_insert_ne by congruence. destruct (prune_fields h1) as (_ & -> & _). by destruct (h_entries h1 !! y).
      * change (is_Some (<[ x := mkEntry (h_fresh h1) b ]> (h_entries h1) !! y)).
        rewrite lookup_insert_ne by congruence. by destruct (h_entries h1 !! y).
  - unfold MakeVisible. destruct (h_entries h !! x) as [e|] eqn:Hx; [|by apply Hsame].
    apply Hvis. by apply (hz_entry _ Hi x).
  - destruct (h_entries h !! x) as [e|] eqn:Hx; [|apply Hsame; unfold HorizonAbort; by rewrite Hx].
    rewrite (abort_is_dropped x e h Hx). destruct (dropped_spec x e h Hi Hx) as (_ & E & C & _).
    destruct (prune_fields (dropped x e h)) as (_ & Fe & _ & _ & Fc & _). exists [x]. rewrite Fc.
    split_and!; [done|apply list.NoDup_singleton|]. intros y. unfold IsInvisible. rewrite Fe, E, list_elem_of_singleton.
    destruct (decide (y = x)) as [->|]; [by rewrite Hx|]. destruct (h_entries h !! y); naive_solver.
  - destruct (h_entries h !! x) as [e|] eqn:Hx; [|apply Hsame; unfold ScheduleMakeVisible; by rewrite Hx].
    destruct (schedule_spec x e h Hi Hall Hx) as (_ & _ & Ee & Ec & _). apply Hsame; [done|]. by rewrite Ee.
  - unfold fire. destruct (h_timers h !! tm) as [g|] eqn:Et; [|by apply Hsame].
    destruct (decide (hg_timer (grp h g) = Some tm)) as [Eg|]; [|by apply Hsame]. apply Hvis.
    destruct (decide (g ∈ h_groups h)) as [Hg|Hg]; [done|]. by rewrite (hz_gone _ Hi g Hg) in Eg.
  - by apply Hsame.
Qed.

(** Readers are woken exactly when their bind is resolved, and once.  In
    every execution, a step closes the ready channels of precisely the entries
    it takes out of the invisible set, each of them one time; so no reader
    stays blocked on a resolved bind, none is released early, and no channel is
    closed twice. *)
Theorem readers_woken_once `{!SortFunc} h h' :
  rtc hstep newHorizonSet h -> hstep h h' ->
  exists l, h_closed h' = h_closed h ++ l /\ NoDup l
    /\ forall y, y ∈ l <-> IsInvisible h y = true /\ IsInvisible h' y = false.
Proof. intros Hr. destruct (reachable_inv h Hr) as [Hi Hall]. by apply hstep_closes. Qed.

(** One step of an execution in which [x] stays registered. *)
Definition keeps `{!SortFunc} x h h' : Prop := hstep h h' /\ IsInvisible h' x = true.

