(* ===== verification/CausalIndex.v ===== *)
(** * The causal index (effects/causal_index.go)

    A reachability index over a key's history: vertices are laid out on chains
    of actual dependency paths, and each records how far up every chain its
    ancestry reaches.  The depth-first insertion is iterative, with an explicit
    stack of frames. *)

From S2P Require Import Prelude Golib Proto Store Walk.

(** [cn_clock] is [None] while the vertex is on the stack. *)
Record causalNode := mkCNode {
  cn_clock : option (list nat);
  cn_chain : nat;
  cn_seq : nat;
}.

Record causalIndex := mkIndex {
  ci_ids : gmap Tip nat;
  ci_nodes : list causalNode;
  ci_heads : list nat;
  ci_cyclic : bool;
  ci_fallback : gmap Tip (gset Tip);
}.

Definition newCausalIndex : causalIndex := mkIndex ∅ [] [] false ∅.

Record frame := mkFrame { f_id : nat; f_deps : list Tip; f_next : nat }.

Section Index.
Context {sorter : SortFunc}.
Variable (store : Store).

(** [GetDeps] of the effect, none when it is missing. *)
Definition deps_of (t : Tip) : list Tip :=
  match getEffect store [] t with Some eff => e_deps eff | None => [] end.

Definition push_frame (c : causalIndex) (stack : list frame) (tip : Tip) : causalIndex * list frame :=
  let id := length (ci_nodes c) in
  (mkIndex (<[ tip := id ]> (ci_ids c)) (ci_nodes c ++ [mkCNode None 0 0]) (ci_heads c) (ci_cyclic c) (ci_fallback c),
   mkFrame id (deps_of tip) 0 :: stack).

(** The clock of a vertex, by its tip. *)
Definition clock_of (c : causalIndex) (t : Tip) : option (list nat) :=
  id ← ci_ids c !! t; n ← ci_nodes c !! id; cn_clock n.

(** [clock[chain] = max(clock[chain], seq)] over a dependency's clock. *)
Fixpoint clock_max (acc cl : list nat) : list nat :=
  match acc, cl with
  | a :: acc', s :: cl' => Nat.max a s :: clock_max acc' cl'
  | _, _ => acc
  end.

(** The first chain whose head is an ancestor; the number of chains if none. *)
Fixpoint find_chain (i : nat) (heads clock : list nat) : nat :=
  match heads, clock with
  | h :: heads', k :: clock' => if (k =? h)%nat then i else find_chain (S i) heads' clock'
  | _, _ => i
  end.

Definition merge_deps (c : causalIndex) (deps : list Tip) : list nat :=
  fold_left (fun clock dep => clock_max clock (default [] (clock_of c dep))) deps
    (replicate (S (length (ci_heads c))) 0%nat).

Definition close_frame (c : causalIndex) (f : frame) : causalIndex :=
  let clock := merge_deps c (f_deps f) in
  let chain := find_chain 0 (ci_heads c) clock in
  let heads := if (chain =? length (ci_heads c))%nat then ci_heads c ++ [1%nat] else alter S chain (ci_heads c) in
  let seq := default 0%nat (heads !! chain) in
  let clock := <[ chain := seq ]> clock in
  mkIndex (ci_ids c) (<[ f_id f := mkCNode (Some (take (length heads) clock)) chain seq ]> (ci_nodes c))
    heads (ci_cyclic c) (ci_fallback c).

Definition set_cyclic (c : causalIndex) : causalIndex :=
  mkIndex (ci_ids c) (ci_nodes c) (ci_heads c) true (ci_fallback c).

(** The loop over the stack; [false] when a dependency is still on it. *)
Fixpoint add_loop (fuel : nat) (c : causalIndex) (stack : list frame) : walk (causalIndex * bool) :=
  match stack with
  | [] => Done (c, true)
  | f :: rest =>
      match fuel with
      | O => OutOfFuel
      | S fuel' =>
          match f_deps f !! f_next f with
          | Some dep =>
              let stack' := mkFrame (f_id f) (f_deps f) (S (f_next f)) :: rest in
              match ci_ids c !! dep with
              | None => let (c', stack'') := push_frame c stack' dep in add_loop fuel' c' stack''
              | Some id =>
                  match ci_nodes c !! id ≫= cn_clock with
                  | None => Done (set_cyclic c, false)
                  | Some _ => add_loop fuel' c stack'
                  end
              end
          | None => add_loop fuel' (close_frame c f) rest
          end
      end
  end.

(** Each dependency of the history is looked at once and pushes at most one
    frame. *)
Definition add_fuel : nat := S (2 * sum_list_with (fun t => length (deps_of t)) (elements (dom store))).

Fixpoint add_tips (c : causalIndex) (tips : list Tip) : walk (causalIndex * bool) :=
  match tips with
  | [] => Done (c, true)
  | tip :: rest =>
      match ci_ids c !! tip with
      | Some _ => add_tips c rest
      | None =>
          let (c', stack) := push_frame c [] tip in
          match add_loop add_fuel c' stack with
          | Done (c'', true) => add_tips c'' rest
          | r => r
          end
      end
  end.

Definition add (c : causalIndex) (tips : list Tip) : walk (causalIndex * bool) :=
  if ci_cyclic c then Done (c, false) else add_tips c tips.

(** ** Queries *)

(** Everything reachable from [from], by a plain walk. *)
Definition seen_from (from : Tip) : walk (unit * gset Tip) :=
  flood (fun _ => false) deps_of (fun u _ => u) (fun _ => false)
    (flood_fuel deps_of (dom store) [from]) (fold_left (push (fun _ => false)) [from] ([], ∅)) tt.

Definition reachesCyclic (c : causalIndex) (from target : Tip) : walk (causalIndex * bool) :=
  match ci_fallback c !! from with
  | Some seen => Done (c, bool_decide (target ∈ seen))
  | None =>
      match seen_from from with
      | Done (_, seen) =>
          Done (mkIndex (ci_ids c) (ci_nodes c) (ci_heads c) (ci_cyclic c) (<[ from := seen ]> (ci_fallback c)),
                bool_decide (target ∈ seen))
      | _ => OutOfFuel
      end
  end.

(** [ancestor.chain < len(clock) && clock[ancestor.chain] >= ancestor.seq] *)
Definition clock_covers (clock : list nat) (ancestor : causalNode) : bool :=
  match clock !! cn_chain ancestor with Some k => (cn_seq ancestor <=? k)%nat | None => false end.

Definition reaches (c : causalIndex) (from target : Tip) : walk (causalIndex * bool) :=
  if bool_decide (from = target) then Done (c, true)
  else match add c [from] with
       | Done (c', false) => reachesCyclic c' from target
       | Done (c', true) =>
           match ci_ids c' !! target ≫= (fun id => ci_nodes c' !! id) with
           | None => Done (c', false)
           | Some ancestor => Done (c', clock_covers (default [] (clock_of c' from)) ancestor)
           end
       | r => r
       end.

(** The vertex of a tip. *)
Definition node_of (c : causalIndex) (t : Tip) : option causalNode := ci_ids c !! t ≫= (fun id => ci_nodes c !! id).

Definition tip_chain (c : causalIndex) (t : Tip) : nat := default 0%nat (cn_chain <$> node_of c t).
Definition tip_seq (c : causalIndex) (t : Tip) : nat := default 0%nat (cn_seq <$> node_of c t).
Definition tip_at (tips : list Tip) (i : nat) : Tip := default zero_tip (tips !! i).

(** Candidate indices per chain, in dependency order. *)
Definition candidateChains (c : causalIndex) (tips : list Tip) : walk (causalIndex * list (list nat)) :=
  match add c tips with
  | Done (c', false) => Done (c', [seq 0 (length tips)])
  | Done (c', true) =>
      let chain i := filter (fun k => tip_chain c' (tip_at tips k) = i) (seq 0 (length tips)) in
      Done (c', map (fun i => sort_func (fun a b => Z.of_nat (tip_seq c' (tip_at tips a)) - Z.of_nat (tip_seq c' (tip_at tips b)))
                                (chain i)) (seq 0 (length (ci_heads c'))))
  | Missing => Missing
  | OutOfFuel => OutOfFuel
  end.

(** A query as a state transformer; a walk that does not end answers nothing
    (the theorems show there is none). *)
Definition query (c : causalIndex) (from target : Tip) : causalIndex * bool :=
  match reaches c from target with Done r => r | _ => (c, false) end.

Definition concurrentRange (c : causalIndex) (tip : Tip) (chain : list nat) (tips : list Tip)
    : causalIndex * (nat * nat) :=
  if ci_cyclic c then (c, (0%nat, length chain))
  else
    let at_ i := tip_at tips (default 0%nat (chain !! i)) in
    let (c1, first) := sort_search (fun c i => let (c', r) := query c tip (at_ i) in (c', negb r)) (length chain) c in
    let (c2, last) := sort_search (fun c i => query c (at_ i) tip) (length chain) c1 in
    (c2, (first, Nat.max first last)).

End Index.
