(* ===== verification/CausalProps.v ===== *)
(** * The causal index answers reachability exactly

    The clocks of the index are a chain decomposition of the dependency
    relation: a vertex reaches another exactly when its clock covers the
    other's position on its chain.  The theorems hold for every history,
    incomplete or cyclic. *)

From S2P Require Import Prelude Golib Proto Store Walk CausalIndex.

(** A clock entry, 0 beyond its end. *)
Definition clk (cl : list nat) (i : nat) : nat := default 0%nat (cl !! i).

Lemma length_clock_max a b : length (clock_max a b) = length a.
Proof. revert b. induction a as [|x a IH]; intros [|y b]; simpl; auto. Qed.

Lemma clk_max a b i : (length b <= length a)%nat -> clk (clock_max a b) i = Nat.max (clk a i) (clk b i).
Proof.
  unfold clk. revert b i. induction a as [|x a IH]; intros [|y b] i H; simpl in *; try lia.
  destruct i as [|i]; simpl; [done|]. apply IH. lia.
Qed.

Lemma clk_replicate n i : clk (replicate n 0%nat) i = 0%nat.
Proof. unfold clk. destruct (replicate n 0%nat !! i) eqn:E; [|done]. by apply lookup_replicate in E as [-> _]. Qed.

Lemma clk_beyond cl i : (length cl <= i)%nat -> clk cl i = 0%nat.
Proof. intros H. unfold clk. by rewrite lookup_ge_None_2. Qed.

Lemma find_chain_spec i heads clock :
  (length heads <= length clock)%nat ->
  let r := find_chain i heads clock in
  (i <= r <= i + length heads)%nat
  /\ ((r < i + length heads)%nat -> clock !! (r - i)%nat = heads !! (r - i)%nat).
Proof.
  revert i clock. induction heads as [|h heads IH]; intros i clock Hl; simpl; [split; lia|].
  destruct clock as [|k clock]; simpl in *; [lia|]. destruct (Nat.eqb_spec k h) as [->|].
  - split; [lia|]. intros _. by rewrite Nat.sub_diag.
  - destruct (IH (S i) clock ltac:(lia)) as [H1 H2]. split; [lia|]. intros Hr.
    replace (find_chain (S i) heads clock - i)%nat with (S (find_chain (S i) heads clock - S i)) by lia.
    simpl. apply H2. lia.
Qed.

Section Props.
Variable (store : Store).
Implicit Types (c : causalIndex) (t u v d : Tip).

(** One dependency step. *)
Definition anc (x y : Tip) : Prop := y ∈ deps_of store x.

(** A finished vertex: its clock, chain and position. *)
Definition vtx c t (cl : list nat) (ch sq : nat) : Prop := node_of c t = Some (mkCNode (Some cl) ch sq).
Definition closed c t : Prop := exists cl ch sq, vtx c t cl ch sq.

Record ci_inv c : Prop := {
  ci_arena : forall t id, ci_ids c !! t = Some id -> (id < length (ci_nodes c))%nat;
  ci_inj : forall t t' id, ci_ids c !! t = Some id -> ci_ids c !! t' = Some id -> t = t';
  ci_clock : forall t cl ch sq, vtx c t cl ch sq ->
    (length cl <= length (ci_heads c))%nat /\ (forall i, (clk cl i <= clk (ci_heads c) i)%nat)
    /\ (ch < length cl)%nat /\ clk cl ch = sq /\ (1 <= sq)%nat;
  ci_deps : forall t d, closed c t -> anc t d -> closed c d;
  ci_exact : forall v u clv chv sqv clu chu squ, vtx c v clv chv sqv -> vtx c u clu chu squ ->
    rtc anc v u <-> (squ <= clk clv chu)%nat;
}.

Lemma closed_path c t u : ci_inv c -> closed c t -> rtc anc t u -> closed c u.
Proof. intros Hi Ht Hp. induction Hp as [|x y z H _ IH]; [done|]. apply IH. by eapply (ci_deps _ Hi). Qed.

(** ** Merging the clocks of the dependencies *)

Lemma merge_spec c deps :
  ci_inv c -> (forall d, d ∈ deps -> closed c d) ->
  length (merge_deps c deps) = S (length (ci_heads c))
  /\ forall i k, (1 <= k)%nat ->
       (k <= clk (merge_deps c deps) i)%nat <-> exists d cl ch sq, d ∈ deps /\ vtx c d cl ch sq /\ (k <= clk cl i)%nat.
Proof.
  intros Hi Hd. unfold merge_deps.
  assert (forall l acc, (forall d, d ∈ l -> closed c d) -> length acc = S (length (ci_heads c)) ->
    let out := fold_left (fun clock dep => clock_max clock (default [] (clock_of c dep))) l acc in
    length out = S (length (ci_heads c))
    /\ forall i k, (1 <= k)%nat -> (k <= clk out i)%nat <-> (k <= clk acc i)%nat \/
         exists d cl ch sq, d ∈ l /\ vtx c d cl ch sq /\ (k <= clk cl i)%nat) as Hgen.
  { intros l. induction l as [|d l IH]; intros acc Hl Hlen; simpl.
    - split; [done|]. intros i k _. split; [auto|]. intros [|(? & ? & ? & ? & ?%elem_of_nil & _)]; done.
    - destruct (Hl d) as (cl & ch & sq & Hv); [constructor|].
      assert (clock_of c d = Some cl) as Hc.
      { unfold vtx, node_of in Hv. unfold clock_of. destruct (ci_ids c !! d); [|done]. simpl in *. by rewrite Hv. }
      rewrite Hc. simpl. destruct (ci_clock _ Hi _ _ _ _ Hv) as (Hcl & _).
      destruct (IH (clock_max acc cl)) as [IH1 IH2]; [intros x Hx; apply Hl; by constructor|by rewrite length_clock_max|].
      split; [done|]. intros i k Hk. rewrite IH2, clk_max by (try done; lia). split.
      + intros [Hm|(x & a & b & s & ? & ? & ?)].
        * destruct (decide (k <= clk acc i)%nat); [auto|]. right. exists d, cl, ch, sq. split; [constructor|]. split; [done|lia].
        * right. exists x, a, b, s. split; [by constructor|done].
      + intros [|(x & a & b & s & [->|Hx]%elem_of_cons & Hvx & ?)]; [lia| |right; eauto 10].
        left. unfold vtx in *. rewrite Hv in Hvx. injection Hvx as -> -> ->. lia. }
  destruct (Hgen deps (replicate (S (length (ci_heads c))) 0%nat) Hd (length_replicate _ _)) as [H1 H2].
  split; [done|]. intros i k Hk. rewrite H2, clk_replicate by done. split; [intros [|]; [lia|done]|auto].
Qed.

(** ** Finishing a vertex *)

Lemma lookup_close c f t t' :
  ci_inv c -> ci_ids c !! t = Some (f_id f) ->
  node_of (close_frame c f) t' = if decide (t' = t) then node_of (close_frame c f) t else node_of c t'.
Proof.
  intros Hi Ht. destruct (decide (t' = t)) as [->|Hne]; [done|]. unfold node_of. simpl.
  destruct (ci_ids c !! t') as [id|] eqn:E; [|done]. simpl. rewrite list_lookup_insert_ne; [done|].
  intros E2. apply Hne. rewrite <- E2 in E. by eapply (ci_inj _ Hi).
Qed.

Lemma close_spec c f t :
  ci_inv c -> ci_ids c !! t = Some (f_id f) -> f_deps f = deps_of store t ->
  (forall d, anc t d -> closed c d) ->
  exists cl ch sq, vtx (close_frame c f) t cl ch sq
    /\ (forall i, (clk (ci_heads c) i <= clk (ci_heads (close_frame c f)) i)%nat)
    /\ (length (ci_heads c) <= length (ci_heads (close_frame c f)))%nat
    /\ length cl = length (ci_heads (close_frame c f))
    /\ (forall i, (clk cl i <= clk (ci_heads (close_frame c f)) i)%nat)
    /\ (ch < length cl)%nat /\ clk cl ch = sq /\ (1 <= sq)%nat
    /\ (forall v clv chv sqv, vtx c v clv chv sqv -> (clk clv ch < sq)%nat)
    /\ (forall u clu chu squ, vtx c u clu chu squ ->
          (squ <= clk cl chu)%nat <-> exists d cld chd sqd, anc t d /\ vtx c d cld chd sqd /\ (squ <= clk cld chu)%nat).
Proof.
  intros Hi Ht Hdeps Hd. pose proof (ci_arena _ Hi _ _ Ht) as Hid.
  destruct (merge_spec c (f_deps f) Hi) as [Hlen Hm]; [by rewrite Hdeps|].
  unfold vtx, node_of. simpl. rewrite Ht. simpl. rewrite list_lookup_insert_eq by done.
  set (M := merge_deps c (f_deps f)) in *. rewrite Hdeps in Hm. set (H := ci_heads c) in *. set (ch := find_chain 0 H M).
  destruct (find_chain_spec 0 H M ltac:(lia)) as [Hr Heq]. fold ch in Hr, Heq. rewrite Nat.add_0_l, Nat.sub_0_r in *.
  assert (forall i, (clk M i <= clk H i)%nat) as HMle.
  { intros i. destruct (decide (clk M i = 0)%nat) as [->|]; [lia|].
    destruct (proj1 (Hm i (clk M i) ltac:(lia)) ltac:(lia)) as (d & cl & c' & s & _ & Hv & Hle).
    destruct (ci_clock _ Hi _ _ _ _ Hv) as (_ & Hall & _). specialize (Hall i). fold H in Hall. lia. }
  set (H' := if (ch =? length H)%nat then H ++ [1%nat] else alter S ch H) in *.
  assert ((ch < length H')%nat /\ (length H <= length H' <= S (length H))%nat
    /\ (forall i, i <> ch -> clk H' i = clk H i) /\ clk H' ch = S (clk H ch)) as (Hch & Hlen' & Hoth & Hnew).
  { unfold H', clk. destruct (Nat.eqb_spec ch (length H)) as [E|E].
    - rewrite length_app. simpl. split_and!; [lia..| |].
      + intros i Hne. rewrite lookup_app. destruct (H !! i) eqn:Ei; [done|]. simpl.
        apply lookup_ge_None in Ei. by rewrite lookup_ge_None_2 by (simpl; lia).
      + rewrite E, lookup_app_r, Nat.sub_diag, (lookup_ge_None_2 H) by lia. done.
    - rewrite length_alter. split_and!; [lia..| |].
      + intros i Hne. by rewrite list_lookup_alter_ne.
      + rewrite list_lookup_alter_eq. destruct (lookup_lt_is_Some_2 H ch) as [x ->]; [lia|]. done. }
  set (sq := default 0%nat (H' !! ch)). assert (sq = S (clk H ch)) as Hsq by (by rewrite <- Hnew).
  assert (length (take (length H') (<[ch:=sq]> M)) = length H') as Hlc by (rewrite length_take, length_insert; lia).
  assert (forall i, clk (take (length H') (<[ch:=sq]> M)) i = if decide (i = ch) then sq else clk M i) as Hclk.
  { intros i. destruct (decide (i = ch)) as [->|Hne].
    - unfold clk. rewrite lookup_take_lt, list_lookup_insert_eq by lia. done.
    - destruct (decide (i < length H')%nat) as [Hlt|Hge].
      + unfold clk. by rewrite lookup_take_lt, list_lookup_insert_ne by done.
      + rewrite (clk_beyond (take _ _)) by lia. pose proof (HMle i). rewrite (clk_beyond H) in * by lia. lia. }
  eexists _, ch, sq. split; [done|]. fold H'. split_and!.
  - intros i. destruct (decide (i = ch)) as [->|]; [lia|]. rewrite Hoth; done.
  - lia.
  - done.
  - intros i. rewrite Hclk. destruct (decide (i = ch)) as [->|]; [lia|]. rewrite Hoth by done. apply HMle.
  - lia.
  - rewrite Hclk. by rewrite decide_True.
  - lia.
  - intros v clv chv sqv Hv. destruct (ci_clock _ Hi _ _ _ _ Hv) as (_ & Hall & _). specialize (Hall ch). fold H in Hall. lia.
  - intros u clu chu squ Hu. destruct (ci_clock _ Hi _ _ _ _ Hu) as (Hl & Hall & Hcu & Hku & H1). fold H in Hl, Hall.
    rewrite Hclk, <- Hm by done. destruct (decide (chu = ch)) as [->|]; [|done].
    assert (clk M ch = clk H ch) as -> by (unfold clk; rewrite Heq by lia; done).
    specialize (Hall ch). lia.
Qed.

Lemma close_inv c f t :
  ci_inv c -> ci_ids c !! t = Some (f_id f) -> f_deps f = deps_of store t -> ~ closed c t ->
  (forall d, anc t d -> closed c d) ->
  ci_inv (close_frame c f) /\ closed (close_frame c f) t
  /\ (forall u cl ch sq, vtx c u cl ch sq -> vtx (close_frame c f) u cl ch sq).
Proof.
  intros Hi Ht Hdeps Hnc Hd.
  destruct (close_spec c f t Hi Ht Hdeps Hd) as (cl & ch & sq & Hv & Hheads & Hlen & Hlcl & Hle & Hch & Hsq & Hpos & Hfresh & Hcov).
  assert (forall u clu chu squ, vtx c u clu chu squ -> u <> t) as Hne.
  { intros u clu chu squ Hu ->. apply Hnc. by exists clu, chu, squ. }
  assert (forall u clu chu squ, vtx c u clu chu squ -> vtx (close_frame c f) u clu chu squ) as Hmono.
  { intros u clu chu squ Hu. unfold vtx. rewrite (lookup_close c f t) by done.
    rewrite decide_False by (by eapply Hne). done. }
  assert (forall u clu chu squ, vtx (close_frame c f) u clu chu squ ->
    (u = t /\ clu = cl /\ chu = ch /\ squ = sq) \/ vtx c u clu chu squ) as Hinv.
  { intros u clu chu squ Hu. unfold vtx in Hu. rewrite (lookup_close c f t) in Hu by done.
    destruct (decide (u = t)) as [->|]; [left|by right]. unfold vtx in Hv. rewrite Hv in Hu.
    injection Hu as <- <- <-. done. }
  split; [|split; [by exists cl, ch, sq|done]].
  split.
  - intros u id Hu. simpl. rewrite length_insert. by apply (ci_arena _ Hi u).
  - apply (ci_inj _ Hi).
  - intros u clu chu squ [(-> & -> & -> & ->)|Hu]%Hinv.
    + split_and!; [lia|done..].
    + destruct (ci_clock _ Hi _ _ _ _ Hu) as (? & Hall & ? & ? & ?). split_and!; [lia| |done..].
      intros i. etrans; [apply Hall|apply Hheads].
  - intros u d (clu & chu & squ & [(-> & _)|Hu]%Hinv) Ha.
    + destruct (Hd d Ha) as (a & b & s & ?). exists a, b, s. auto.
    + destruct (ci_deps _ Hi u d) as (a & b & s & ?); [by exists clu, chu, squ|done|]. exists a, b, s. auto.
  - intros v u clv chv sqv clu chu squ [(-> & -> & -> & ->)|Hvv]%Hinv [(-> & -> & -> & ->)|Hu]%Hinv.
    + split; [lia|done].
    + rewrite (Hcov _ _ _ _ Hu). split.
      * intros Hp. inversion Hp as [|x d y Hxd Hdu]; subst; [by destruct (Hne _ _ _ _ Hu)|].
        destruct (Hd d Hxd) as (cld & chd & sqd & Hvd). exists d, cld, chd, sqd. split_and!; [done..|].
        by apply (ci_exact _ Hi d u cld chd sqd clu chu squ).
      * intros (d & cld & chd & sqd & Ha & Hvd & Hk). eapply rtc_l; [exact Ha|].
        by apply (ci_exact _ Hi d u cld chd sqd clu chu squ).
    + pose proof (Hfresh _ _ _ _ Hvv) as Hlt. split; [|lia]. intros Hp. exfalso. apply Hnc.
      eapply closed_path; [done| |exact Hp]. by exists clv, chv, sqv.
    + by apply (ci_exact _ Hi v u clv chv sqv clu chu squ).
Qed.

(** ** The depth-first insertion *)

(** Frames from the top: everything looked at so far is finished, except that a
    lower frame waits for the one above it. *)
Fixpoint stack_ok c (above : option Tip) (stack : list frame) : Prop :=
  match stack with
  | [] => True
  | f :: rest =>
      exists t, ci_ids c !! t = Some (f_id f) /\ ~ closed c t /\ f_deps f = deps_of store t
        /\ (forall i d, (i < f_next f)%nat -> f_deps f !! i = Some d -> closed c d \/ above = Some d)
        /\ stack_ok c (Some t) rest
  end.

Record loop_inv c (stack : list frame) : Prop := {
  li_inv : ci_inv c;
  li_stack : stack_ok c None stack;
  li_nodup : NoDup (map f_id stack);
  li_open : forall t id, ci_ids c !! t = Some id -> closed c t \/ id ∈ map f_id stack;
}.

Lemma stack_ok_mono c c' above stack :
  (forall t id, ci_ids c !! t = Some id -> ci_ids c' !! t = Some id) ->
  (forall t, closed c t -> closed c' t) ->
  (forall t id, ci_ids c !! t = Some id -> id ∈ map f_id stack -> closed c' t -> closed c t) ->
  stack_ok c above stack -> stack_ok c' above stack.
Proof.
  intros Hids Hcl. revert above. induction stack as [|f stack IH]; intros above Hback; simpl; [done|].
  intros (t & Ht & Hn & Hd & Hdone & Hrest). exists t. split_and!; [auto| |done| |].
  - intros Hc. apply Hn. eapply Hback; [done|constructor|done].
  - intros i d Hi Hl. destruct (Hdone i d Hi Hl); auto.
  - apply IH; [|done]. intros u id Hu Hin. eapply Hback; [done|]. by constructor.
Qed.

Lemma stack_ok_above c above above' stack :
  (forall d, above = Some d -> closed c d \/ above' = Some d) -> stack_ok c above stack -> stack_ok c above' stack.
Proof.
  intros Ha. destruct stack as [|f stack]; simpl; [done|]. intros (t & ? & ? & ? & Hdone & ?).
  exists t. split_and!; try done. intros i d Hi Hl. destruct (Hdone i d Hi Hl) as [|E]; [auto|]. by apply Ha.
Qed.

(** ** Pushing a vertex *)

Lemma push_node_of c stack tip t :
  ci_inv c -> ci_ids c !! tip = None ->
  node_of (push_frame store c stack tip).1 t = if decide (t = tip) then Some (mkCNode None 0 0) else node_of c t.
Proof.
  intros Hi Hn. unfold node_of, push_frame. simpl. destruct (decide (t = tip)) as [->|Hne].
  - rewrite lookup_insert_eq. simpl. by rewrite lookup_app_r, Nat.sub_diag.
  - rewrite lookup_insert_ne by done. destruct (ci_ids c !! t) as [id|] eqn:E; [|done]. simpl.
    by rewrite lookup_app_l by (by apply (ci_arena _ Hi t)).
Qed.

Lemma push_vtx c stack tip t cl ch sq :
  ci_inv c -> ci_ids c !! tip = None -> vtx (push_frame store c stack tip).1 t cl ch sq <-> vtx c t cl ch sq.
Proof.
  intros Hi Hn. unfold vtx. rewrite push_node_of by done. destruct (decide (t = tip)) as [->|]; [|done].
  unfold node_of. rewrite Hn. done.
Qed.

Lemma push_inv c stack tip : ci_inv c -> ci_ids c !! tip = None -> ci_inv (push_frame store c stack tip).1.
Proof.
  intros Hi Hn. pose proof (fun t cl ch sq => push_vtx c stack tip t cl ch sq Hi Hn) as Hv. split.
  - intros t id. simpl. rewrite length_app. simpl. destruct (decide (t = tip)) as [->|].
    + rewrite lookup_insert_eq. intros [= <-]. lia.
    + rewrite lookup_insert_ne by done. intros H%(ci_arena _ Hi). lia.
  - intros t t' id. simpl. destruct (decide (t = tip)) as [->|], (decide (t' = tip)) as [->|];
      rewrite ?lookup_insert_eq, ?lookup_insert_ne by done; try done.
    + intros [= <-] H%(ci_arena _ Hi). lia.
    + intros H%(ci_arena _ Hi) [= <-]. lia.
    + apply (ci_inj _ Hi).
  - intros t cl ch sq H%Hv. by apply (ci_clock _ Hi t).
  - intros t d (cl & ch & sq & H%Hv) Ha. destruct (ci_deps _ Hi t d) as (a & b & s & Hd); [by exists cl, ch, sq|done|].
    exists a, b, s. by apply Hv.
  - intros v u clv chv sqv clu chu squ H1%Hv H2%Hv. by eapply (ci_exact _ Hi).
Qed.

Lemma push_closed c stack tip t :
  ci_inv c -> ci_ids c !! tip = None -> closed (push_frame store c stack tip).1 t <-> closed c t.
Proof. intros Hi Hn. unfold closed. by setoid_rewrite push_vtx. Qed.

Lemma push_loop_inv c stack tip :
  ci_inv c -> NoDup (map f_id stack) ->
  (forall t id, ci_ids c !! t = Some id -> closed c t \/ id ∈ map f_id stack) ->
  ci_ids c !! tip = None -> stack_ok c (Some tip) stack ->
  loop_inv (push_frame store c stack tip).1 (push_frame store c stack tip).2.
Proof.
  intros Hi Hnd Hop Hn Hso. split.
  - by apply push_inv.
  - simpl. exists tip. split_and!; [by rewrite lookup_insert_eq| |done|simpl; lia|].
    + intros (cl & ch & sq & Hv)%(push_closed c stack tip tip Hi Hn). unfold vtx, node_of in Hv. by rewrite Hn in Hv.
    + eapply (stack_ok_mono c (push_frame store c stack tip).1); [| | |done].
      * intros t id Ht. simpl. rewrite lookup_insert_ne by congruence. done.
      * intros t. by rewrite push_closed.
      * intros t id _ _. by rewrite push_closed.
  - simpl. constructor; [|done]. intros Hin.
    assert (forall ab s, stack_ok c ab s -> forall id, id ∈ map f_id s -> (id < length (ci_nodes c))%nat) as Hb.
    { intros ab s. revert ab. induction s as [|f s IH]; intros ab; simpl; [by intros _ id ?%elem_of_nil|].
      intros (t & Ht & _ & _ & _ & Hr) id [->|Hid]%elem_of_cons; [by apply (ci_arena _ Hi t)|by eapply IH]. }
    specialize (Hb _ _ Hso _ Hin). lia.
  - intros t id. simpl. destruct (decide (t = tip)) as [->|].
    + rewrite lookup_insert_eq. intros [= <-]. right. constructor.
    + rewrite lookup_insert_ne by done. intros H%Hop.
      destruct H as [H|H]; [left; by apply (push_closed c stack tip t Hi Hn)|]. right. by constructor.
Qed.

Lemma close_loop_inv c f rest :
  loop_inv c (f :: rest) -> (length (f_deps f) <= f_next f)%nat -> loop_inv (close_frame c f) rest.
Proof.
  intros [Hi (t & Ht & Hnc & Hdeps & Hdone & Hrest) Hnd Hop] Hnext. simpl in Hnd, Hop.
  apply list.NoDup_cons in Hnd as [Hfid Hnd].
  assert (forall d, anc t d -> closed c d) as Hd.
  { intros d Ha. unfold anc in Ha. rewrite <- Hdeps in Ha. apply list_elem_of_lookup in Ha as [i Hd].
    destruct (Hdone i d) as [|]; [|done..|done]. apply lookup_lt_Some in Hd. lia. }
  destruct (close_inv c f t Hi Ht Hdeps Hnc Hd) as (Hi' & Htc & Hmono).
  assert (forall u, closed c u -> closed (close_frame c f) u) as Hcm
    by (intros u (cl & ch & sq & Hu); exists cl, ch, sq; auto).
  split; [done| |done|].
  - eapply (stack_ok_above _ (Some t)); [by intros d [= <-]; left|].
    eapply (stack_ok_mono c); [done|done| |done].
    intros u id Hu Hin (cl & ch & sq & Hc). unfold vtx in Hc. rewrite (lookup_close c f t) in Hc by done.
    destruct (decide (u = t)) as [->|]; [|by exists cl, ch, sq]. simplify_eq. done.
  - intros u id Hu. simpl in Hu. destruct (Hop u id Hu) as [|Hin]; [auto|].
    apply elem_of_cons in Hin as [->|]; [left|by right]. by rewrite (ci_inj _ Hi u t _ Hu Ht).
Qed.

Lemma next_loop_inv c f rest dep :
  loop_inv c (f :: rest) -> f_deps f !! f_next f = Some dep ->
  let stack := mkFrame (f_id f) (f_deps f) (S (f_next f)) :: rest in
  stack_ok c (Some dep) stack /\ (closed c dep -> loop_inv c stack).
Proof.
  intros [Hi (t & Ht & Hnc & Hdeps & Hdone & Hrest) Hnd Hop] Hl. cbv zeta.
  assert (stack_ok c (Some dep) (mkFrame (f_id f) (f_deps f) (S (f_next f)) :: rest)) as Hso.
  { exists t. simpl. split_and!; [done..| |done]. intros i d Hlt Hd.
    destruct (decide (i = f_next f)) as [->|]; [right; congruence|].
    destruct (Hdone i d) as [|]; [lia|done|auto|done]. }
  split; [done|]. intros Hc. split; [done| |done|done].
  eapply stack_ok_above; [|exact Hso]. intros d [= <-]. auto.
Qed.

Definition add_measure c (stack : list frame) : nat :=
  sum_list_with (fun f => S (2 * (length (f_deps f) - f_next f))) stack
  + 2 * dfs_weight (deps_of store) (dom store) (dom (ci_ids c)).

Lemma deps_of_dom t : deps_of store t <> [] -> t ∈ dom store.
Proof.
  unfold deps_of, getEffect. destruct (store !! t) eqn:E; [|done]. intros _. by eapply elem_of_dom_2.
Qed.

Lemma push_measure c stack tip :
  ci_ids c !! tip = None ->
  add_measure (push_frame store c stack tip).1 (push_frame store c stack tip).2 = S (add_measure c stack).
Proof.
  intros Hn. unfold add_measure. simpl. rewrite dom_insert_L.
  rewrite (dfs_weight_visit (fun _ => false) (deps_of store) (dom store) deps_of_dom tip (dom (ci_ids c)))
    by (by apply not_elem_of_dom).
  lia.
Qed.

Lemma add_loop_spec fuel c stack :
  loop_inv c stack -> (add_measure c stack <= fuel)%nat ->
  exists c' b, add_loop store fuel c stack = Done (c', b) /\ ci_fallback c' = ci_fallback c
    /\ (b = false -> ci_cyclic c' = true)
    /\ (b = true -> loop_inv c' [] /\ ci_cyclic c' = ci_cyclic c /\ dom (ci_ids c) ⊆ dom (ci_ids c')).
Proof.
  revert c stack. induction fuel as [|fuel IH]; intros c [|f rest] Hi Hm; cbn [add_loop]; cbv zeta.
  1,3: by exists c, true.
  { unfold add_measure in Hm. simpl in Hm. lia. }
  destruct (f_deps f !! f_next f) as [dep|] eqn:Hl.
  - destruct (next_loop_inv c f rest dep Hi Hl) as [Hso Hcl].
    set (stack' := mkFrame (f_id f) (f_deps f) (S (f_next f)) :: rest) in *.
    assert (S (S (add_measure c stack')) = add_measure c (f :: rest)) as Hms.
    { unfold add_measure, stack'. simpl. apply lookup_lt_Some in Hl. lia. }
    destruct (ci_ids c !! dep) as [id|] eqn:Hid.
    + destruct (ci_nodes c !! id ≫= cn_clock) as [cl|] eqn:Hcn.
      * apply IH; [|lia]. apply Hcl. destruct (ci_nodes c !! id) as [[clk0 ch sq]|] eqn:En; [|done].
        simpl in Hcn. exists cl, ch, sq. unfold vtx, node_of. by rewrite Hid; simpl; rewrite En, Hcn.
      * exists (set_cyclic c), false. done.
    + destruct Hi as [Hci _ Hnd Hop].
      pose proof (push_loop_inv c stack' dep Hci Hnd Hop Hid Hso) as Hp.
      pose proof (push_measure c stack' dep Hid) as Hpm.
      assert (dom (ci_ids c) ⊆ dom (ci_ids (push_frame store c stack' dep).1)) as Hdom
        by (simpl; rewrite dom_insert_L; set_solver).
      assert (ci_fallback (push_frame store c stack' dep).1 = ci_fallback c) as Hfb by done.
      assert (ci_cyclic (push_frame store c stack' dep).1 = ci_cyclic c) as Hcy by done.
      destruct (push_frame store c stack' dep) as [c1 stack1]. cbn [fst snd] in *.
      destruct (IH c1 stack1 Hp ltac:(lia)) as (c' & b & -> & E1 & E2 & E3).
      exists c', b. split_and!; [done|congruence|done|]. intros Hb. destruct (E3 Hb) as (? & ? & ?).
      split_and!; [done|congruence|by etrans].
  - apply lookup_ge_None in Hl. pose proof (close_loop_inv c f rest Hi Hl) as Hc.
    destruct (IH (close_frame c f) rest Hc) as (c' & b & -> & E1 & E2 & E3); [|by exists c', b].
    unfold add_measure in *. simpl in *. lia.
Qed.

(** ** The index as a whole *)

Record valid c : Prop := {
  v_index : ci_cyclic c = false -> loop_inv c [];
  v_fallback : forall from seen, ci_fallback c !! from = Some seen -> forall t, t ∈ seen <-> rtc anc from t;
}.

Lemma valid_new : valid newCausalIndex.
Proof.
  split; [|done]. intros _.
  assert (forall t cl ch sq, ~ vtx newCausalIndex t cl ch sq) as Hno by (intros t cl ch sq; done).
  split; [|done|constructor|done]. split; try done.
Qed.

Lemma valid_closed c t : valid c -> ci_cyclic c = false -> t ∈ dom (ci_ids c) -> closed c t.
Proof.
  intros Hv Hc [id Hid]%elem_of_dom. destruct (li_open _ _ (v_index _ Hv Hc) t id Hid) as [|Hin]; [done|].
  by apply elem_of_nil in Hin.
Qed.

Lemma index_add_spec c tips :
  valid c -> exists c' b, add store c tips = Done (c', b) /\ valid c' /\ ci_cyclic c' = negb b
    /\ (b = true -> dom (ci_ids c) ⊆ dom (ci_ids c') /\ forall t, t ∈ tips -> closed c' t).
Proof.
  intros Hv. unfold add. destruct (ci_cyclic c) eqn:Hcy; [by exists c, false|].
  revert c Hv Hcy. induction tips as [|tip tips IH]; intros c Hv Hcy; cbn [add_tips].
  { exists c, true. split_and!; [done..|]. intros _. split; [done|]. by intros t ?%elem_of_nil. }
  assert (forall c1, valid c1 -> ci_cyclic c1 = false -> dom (ci_ids c) ⊆ dom (ci_ids c1) -> tip ∈ dom (ci_ids c1) ->
    exists c' b, add_tips store c1 tips = Done (c', b) /\ valid c' /\ ci_cyclic c' = negb b
      /\ (b = true -> dom (ci_ids c) ⊆ dom (ci_ids c') /\ forall t, t ∈ tip :: tips -> closed c' t)) as Hnext.
  { intros c1 Hv1 Hcy1 Hd1 Ht1. destruct (IH c1 Hv1 Hcy1) as (c' & b & -> & Hv' & Hcy' & Hb).
    exists c', b. split_and!; [done..|]. intros ->. destruct (Hb eq_refl) as [Hd' Hall]. split; [by etrans|].
    intros t [->|Ht]%elem_of_cons; [|auto]. apply valid_closed; [done..|]. by apply Hd'. }
  destruct (ci_ids c !! tip) as [id|] eqn:Hid.
  { apply Hnext; [done..|]. by apply elem_of_dom. }
  destruct (v_index _ Hv Hcy) as [Hci _ Hnd Hop].
  pose proof (push_loop_inv c [] tip Hci Hnd Hop Hid I) as Hp. pose proof (push_measure c [] tip Hid) as Hpm.
  assert (dom (ci_ids (push_frame store c [] tip).1) = {[ tip ]} ∪ dom (ci_ids c)) as Hdom by (simpl; apply dom_insert_L).
  assert (ci_fallback (push_frame store c [] tip).1 = ci_fallback c) as Hfb by done.
  assert (ci_cyclic (push_frame store c [] tip).1 = ci_cyclic c) as Hcy1 by done.
  destruct (push_frame store c [] tip) as [c1 stack1]. cbn [fst snd] in *.
  destruct (add_loop_spec (add_fuel store) c1 stack1 Hp) as (c2 & b & -> & E1 & E2 & E3).
  { rewrite Hpm. unfold add_measure, add_fuel. simpl. apply le_n_S. apply Nat.add_le_mono; [|apply Nat.add_le_mono; [|done]];
      unfold dfs_weight; apply sum_list_with_submseteq, elements_submseteq; set_solver. }
  destruct b.
  - destruct (E3 eq_refl) as (Hl2 & Hcy2 & Hd2). apply Hnext; [|congruence|set_solver|set_solver].
    split; [done|]. rewrite E1, Hfb. apply Hv.
  - exists c2, false. split_and!; [done| |by rewrite E2|done]. split; [rewrite E2; done|]. rewrite E1, Hfb. apply Hv.
Qed.

Lemma seen_from_spec from :
  exists (w : unit) seen, seen_from store from = Done (w, seen) /\ forall t, t ∈ seen <-> rtc anc from t.
Proof.
  unfold seen_from.
  destruct (flood_spec (fun _ => false) (deps_of store) (fun (u : unit) _ => u) (fun _ => false) (dom store) [from] tt
    deps_of_dom) as (order & seen & -> & _ & [|[Hs _]]); [done|].
  eexists _, seen. split; [done|]. intros t. rewrite Hs. unfold flooded, flood_step. split.
  - intros (s & ->%list_elem_of_singleton & _ & Hp). eapply rtc_subrel; [|exact Hp]. by intros x y [? _].
  - intros Hp. exists from. split; [constructor|]. split; [done|]. eapply rtc_subrel; [|exact Hp]. by intros x y ?.
Qed.

Lemma loop_inv_fallback c fb :
  loop_inv c [] -> loop_inv (mkIndex (ci_ids c) (ci_nodes c) (ci_heads c) (ci_cyclic c) fb) [].
Proof. intros [[A B C D E] _ Hn Ho]. split; [|done..]. split; [exact A|exact B|exact C|exact D|exact E]. Qed.

Lemma reachesCyclic_spec c from target :
  valid c -> exists c' b, reachesCyclic store c from target = Done (c', b) /\ valid c'
    /\ ci_ids c' = ci_ids c /\ ci_cyclic c' = ci_cyclic c /\ (b = true <-> rtc anc from target).
Proof.
  intros Hv. unfold reachesCyclic. destruct (ci_fallback c !! from) as [seen|] eqn:E.
  - exists c, (bool_decide (target ∈ seen)). split_and!; [done..|]. rewrite bool_decide_eq_true. by apply (v_fallback _ Hv).
  - destruct (seen_from_spec from) as (w & seen & -> & Hs). do 2 eexists. split; [done|]. split_and!; [|done..|].
    + split; [intros Hc; by apply loop_inv_fallback, (v_index _ Hv)|]. intros from' seen'. simpl. destruct (decide (from = from')) as [->|].
      * rewrite lookup_insert_eq. by intros [= <-].
      * rewrite lookup_insert_ne by done. apply (v_fallback _ Hv).
    + rewrite bool_decide_eq_true. apply Hs.
Qed.

Lemma vtx_unique c t cl ch sq cl' ch' sq' :
  vtx c t cl ch sq -> vtx c t cl' ch' sq' -> cl = cl' /\ ch = ch' /\ sq = sq'.
Proof. unfold vtx. intros -> [= <- <- <-]. done. Qed.

Lemma vtx_clock_of c t cl ch sq : vtx c t cl ch sq -> clock_of c t = Some cl.
Proof.
  unfold vtx, node_of, clock_of. destruct (ci_ids c !! t); [|done]. simpl. by intros ->.
Qed.

Lemma clock_covers_spec cl n : (1 <= cn_seq n)%nat -> clock_covers cl n = true <-> (cn_seq n <= clk cl (cn_chain n))%nat.
Proof.
  intros H. unfold clock_covers, clk. destruct (cl !! cn_chain n); simpl; [apply Nat.leb_le|]. split; [done|lia].
Qed.

Lemma causal_reaches_spec c from target :
  valid c -> exists c' b, reaches store c from target = Done (c', b) /\ valid c' /\ (b = true <-> rtc anc from target).
Proof.
  intros Hv. unfold reaches. case_bool_decide as Heq; [subst; by exists c, true|].
  destruct (index_add_spec c [from] Hv) as (c1 & b & -> & Hv1 & Hcy & Hb). destruct b.
  - destruct (Hb eq_refl) as [_ Hc]. specialize (Hc from ltac:(constructor)).
    pose proof (v_index _ Hv1 Hcy) as Hl. pose proof (li_inv _ _ Hl) as Hi.
    change (ci_ids c1 !! target ≫= (fun id => ci_nodes c1 !! id)) with (node_of c1 target).
    destruct (node_of c1 target) as [n|] eqn:En.
    + exists c1. eexists. split_and!; [done..|].
      assert (closed c1 target) as (clu & chu & squ & Hu).
      { apply valid_closed; [done..|]. apply elem_of_dom. unfold node_of in En. destruct (ci_ids c1 !! target); [eauto|done]. }
      assert (n = mkCNode (Some clu) chu squ) as -> by (unfold vtx in Hu; congruence).
      destruct Hc as (clf & chf & sqf & Hf). rewrite (vtx_clock_of _ _ _ _ _ Hf).
      destruct (ci_clock _ Hi _ _ _ _ Hu) as (_ & _ & _ & _ & Hpos).
      rewrite clock_covers_spec by done. simpl. symmetry. by eapply (ci_exact _ Hi).
    + exists c1, false. split_and!; [done..|]. split; [done|]. intros Hp.
      destruct (closed_path c1 from target Hi Hc Hp) as (a & b & s & Hx). unfold vtx in Hx. congruence.
  - destruct (reachesCyclic_spec c1 from target Hv1) as (c2 & b & -> & ? & _ & _ & ?). by exists c2, b.
Qed.

(** A sequence of queries on one index. *)
Fixpoint queries (c : causalIndex) (qs : list (Tip * Tip)) : walk (list bool) :=
  match qs with
  | [] => Done []
  | (from, target) :: rest =>
      match reaches store c from target with
      | Done (c', b) => match queries c' rest with Done bs => Done (b :: bs) | r => r end
      | Missing => Missing
      | OutOfFuel => OutOfFuel
      end
  end.

Lemma queries_spec c qs :
  valid c -> exists bs, queries c qs = Done bs /\ Forall2 (fun q b => b = true <-> rtc anc q.1 q.2) qs bs.
Proof.
  revert c. induction qs as [|[from target] qs IH]; intros c Hv; simpl; [exists []; by split|].
  destruct (causal_reaches_spec c from target Hv) as (c' & b & -> & Hv' & Hb).
  destruct (IH c' Hv') as (bs & -> & Hall). exists (b :: bs). split; [done|]. by constructor.
Qed.

End Props.

(** [C28] The causal index is exact.  Starting from an empty index, any sequence
    of reachability queries is answered, and each answer is whether the target
    is an ancestor of the start (or the start itself) along recorded
    dependencies: the chain clocks and the fallback for cyclic histories agree
    with plain graph reachability, also when effects are missing. *)
Theorem causal_index_exact (store : Store) (qs : list (Tip * Tip)) :
  exists bs, queries store newCausalIndex qs = Done bs
    /\ Forall2 (fun q b => b = true <-> rtc (anc store) q.1 q.2) qs bs.
Proof. apply queries_spec, valid_new. Qed.

(** ** Candidate intervals *)

Section Candidates.
Context {sorter : SortFunc}.
Variable (store : Store).

(** Comparison by position on a chain. *)
Definition seq_cmp (c : causalIndex) (tips : list Tip) (a b : nat) : Z :=
  Z.of_nat (tip_seq c (tip_at tips a)) - Z.of_nat (tip_seq c (tip_at tips b)).

#[local] Instance seq_cmp_order c tips : CmpOrder (seq_cmp c tips).
Proof. split; unfold seq_cmp; intros; lia. Qed.

(** A query about an indexed vertex leaves the index alone. *)
Lemma query_stable c from target :
  valid store c -> ci_cyclic c = false -> from ∈ dom (ci_ids c) ->
  (query store c from target).1 = c
  /\ ((query store c from target).2 = true <-> rtc (anc store) from target).
Proof.
  intros Hv Hcy [id Hid]%elem_of_dom. unfold query.
  destruct (causal_reaches_spec store c from target Hv) as (c' & b & E & _ & Hb). rewrite E. split; [|done].
  unfold reaches, add in E. case_bool_decide; [by injection E as <- _|]. rewrite Hcy in E. simpl in E. rewrite Hid in E.
  by destruct (ci_ids c !! target ≫= _); injection E as <- _.
Qed.

Lemma chain_elements c tips c' chains ks k :
  valid store c -> candidateChains store c tips = Done (c', chains) -> ci_cyclic c' = false ->
  ks ∈ chains -> k ∈ ks ->
  exists i, (k < length tips)%nat /\ tip_chain c' (tip_at tips k) = i /\ (forall k', k' ∈ ks -> tip_chain c' (tip_at tips k') = i)
    /\ StronglySorted (fun a b => seq_cmp c' tips a b <= 0) ks.
Proof.
  intros Hv E Hcy Hks Hk. unfold candidateChains in E.
  destruct (index_add_spec store c tips Hv) as (c1 & b & Ea & Hv1 & Hcy1 & _). rewrite Ea in E. destruct b.
  - injection E as <- <-. apply list_elem_of_In, in_map_iff in Hks as (i & <- & _).
    exists i. apply elem_of_sort_func, list_elem_of_filter in Hk as [Hc Hk]. apply elem_of_seq in Hk.
    split_and!; [lia|done| |apply (sort_func_sorted (seq_cmp c1 tips))].
    intros k' Hk'. by apply elem_of_sort_func, list_elem_of_filter in Hk' as [? _].
  - injection E as <- <-. simpl in *. congruence.
Qed.

(** On a chain, position decides both directions of reachability. *)
Lemma chain_reach c v u :
  valid store c -> ci_cyclic c = false -> v ∈ dom (ci_ids c) -> u ∈ dom (ci_ids c) ->
  tip_chain c v = tip_chain c u -> (tip_seq c u <= tip_seq c v)%nat -> rtc (anc store) v u.
Proof.
  intros Hv Hcy Hdv Hdu Hch Hsq. pose proof (li_inv _ _ _ (v_index _ _ Hv Hcy)) as Hi.
  destruct (valid_closed _ _ _ Hv Hcy Hdv) as (clv & chv & sqv & Hvv).
  destruct (valid_closed _ _ _ Hv Hcy Hdu) as (clu & chu & squ & Hvu).
  unfold tip_chain, tip_seq in *. unfold vtx in Hvv, Hvu. rewrite Hvv, Hvu in *. simpl in *.
  apply (ci_exact _ _ Hi _ _ _ _ _ _ _ _ Hvv Hvu). destruct (ci_clock _ _ Hi _ _ _ _ Hvv) as (_ & _ & _ & <- & _).
  by rewrite <- Hch.
Qed.

Lemma candidates_indexed c tips c' chains t :
  valid store c -> candidateChains store c tips = Done (c', chains) -> ci_cyclic c' = false ->
  valid store c' /\ (t ∈ tips -> t ∈ dom (ci_ids c')).
Proof.
  intros Hv E Hcy. unfold candidateChains in E.
  destruct (index_add_spec store c tips Hv) as (c1 & b & Ea & Hv1 & Hcy1 & Hb). rewrite Ea in E. destruct b.
  - injection E as <- <-. split; [done|]. intros Ht. destruct (proj2 (Hb eq_refl) t Ht) as (cl & ch & sq & Hx).
    apply elem_of_dom. unfold vtx, node_of in Hx. destruct (ci_ids c1 !! t); [eauto|done].
  - injection E as <- <-. simpl in *. congruence.
Qed.

Lemma concurrent_range_spec c tips c' chains ks tip :
  valid store c -> candidateChains store c tips = Done (c', chains) -> ci_cyclic c' = false ->
  ks ∈ chains -> tip ∈ tips ->
  exists first last, concurrentRange store c' tip ks tips = (c', (first, last))
    /\ forall i k, ks !! i = Some k ->
         (first <= i < last)%nat <->
         ~ rtc (anc store) tip (tip_at tips k) /\ ~ rtc (anc store) (tip_at tips k) tip.
Proof.
  intros Hv E Hcy Hks Htip. destruct (candidates_indexed _ _ _ _ tip Hv E Hcy) as [Hv' Hdt]. specialize (Hdt Htip).
  unfold concurrentRange. rewrite Hcy.
  set (at_ := fun i => tip_at tips (default 0%nat (ks !! i))).
  assert (forall i, (i < length ks)%nat -> exists k, ks !! i = Some k /\ k ∈ ks) as Hk.
  { intros i [k Hi]%lookup_lt_is_Some_2. exists k. split; [done|]. by eapply list_elem_of_lookup_2. }
  assert (forall i, (i < length ks)%nat -> at_ i ∈ dom (ci_ids c')) as Hdom.
  { intros i Hi. destruct (Hk i Hi) as (k & Ek & Hin). unfold at_. rewrite Ek. simpl.
    destruct (chain_elements _ _ _ _ _ _ Hv E Hcy Hks Hin) as (_ & Hlt & _).
    apply (candidates_indexed _ _ _ _ (tip_at tips k) Hv E Hcy). unfold tip_at.
    destruct (lookup_lt_is_Some_2 tips k Hlt) as [x Hx]. rewrite Hx. by eapply list_elem_of_lookup_2. }
  assert (forall i j, (i <= j < length ks)%nat -> rtc (anc store) (at_ j) (at_ i)) as Hmono.
  { intros i j Hij. destruct (Hk i ltac:(lia)) as (ki & Eki & Hini), (Hk j ltac:(lia)) as (kj & Ekj & Hinj).
    destruct (chain_elements _ _ _ _ _ _ Hv E Hcy Hks Hini) as (ch & _ & Hc & Hall & Hsort).
    apply (chain_reach c'); [done..|apply Hdom; lia|apply Hdom; lia| |]; unfold at_; rewrite Eki, Ekj; simpl.
    - rewrite Hc. by apply Hall.
    - destruct (decide (i = j)) as [->|]; [by simplify_eq|].
      pose proof (StronglySorted_lookup _ _ i j ki kj Hsort ltac:(lia) Eki Ekj) as Hle. unfold seq_cmp in Hle. lia. }
  pose proof (sort_search_spec (fun c i => let (c', r) := query store c tip (at_ i) in (c', negb r))
    (fun c => c = c') (fun i => ~ rtc (anc store) tip (at_ i)) (length ks) c') as H1.
  destruct (sort_search _ (length ks) c') as [c1 first]. destruct H1 as (-> & Hf1 & Hf2); [| |done|].
  { intros s k -> Hlt. destruct (query_stable c' tip (at_ k) Hv' Hcy Hdt) as [Hs Hr].
    destruct (query store c' tip (at_ k)) as [s' r]. simpl in *. split; [done|]. rewrite negb_true_iff, <- Hr. by destruct r. }
  { intros a b Hab Hn Hp. apply Hn. etrans; [exact Hp|]. by apply Hmono. }
  pose proof (sort_search_spec (fun c i => query store c (at_ i) tip)
    (fun c => c = c') (fun i => rtc (anc store) (at_ i) tip) (length ks) c') as H2.
  destruct (sort_search _ (length ks) c') as [c2 last]. destruct H2 as (-> & Hl1 & Hl2); [| |done|].
  { intros s k -> Hlt. by apply query_stable; [..|apply Hdom]. }
  { intros a b Hab Hp. etrans; [by apply Hmono|exact Hp]. }
  exists first, (Nat.max first last). split; [done|]. intros i k Hik.
  assert (i < length ks)%nat as Hlt by (by eapply lookup_lt_Some).
  assert (tip_at tips k = at_ i) as -> by (unfold at_; by rewrite Hik).
  rewrite <- (Hf2 i Hlt), <- (Hl2 i Hlt). lia.
Qed.

End Candidates.

(** The interval of concurrent candidates.  On an acyclic history the
    candidates are split into chains, and for a candidate [tip] and a chain the
    two binary searches delimit exactly the members of the chain that are
    concurrent with it: neither ancestors nor descendants.  So the pairwise
    conflict check loses no pair and considers no ordered one. *)
Theorem concurrent_interval_exact `{!SortFunc} (store : Store) c tips c' chains ks tip :
  valid store c -> candidateChains store c tips = Done (c', chains) -> ci_cyclic c' = false ->
  ks ∈ chains -> tip ∈ tips ->
  exists first last, concurrentRange store c' tip ks tips = (c', (first, last))
    /\ forall i k, ks !! i = Some k ->
         (first <= i < last)%nat <->
         ~ rtc (anc store) tip (tip_at tips k) /\ ~ rtc (anc store) (tip_at tips k) tip.
Proof. apply concurrent_range_spec. Qed.
