(* ===== verification/Predicate.v ===== *)
(** * Predicate conflicts (effects/predicate.go)

    SQL transactions leave the predicates they observed and the rows they wrote
    in their history; two transactions that share a base conflict only if one
    wrote a row the other observed.  The evaluator is three-valued. *)

From S2P Require Import Prelude Golib Proto Store Walk.

Inductive predTri := predFalse | predTrue | predUnknown.

#[global] Instance predTri_eq_dec : EqDecision predTri.
Proof. solve_decision. Defined.

(** ** Comparisons *)

Definition cmp3Int (a b : Z) : Z := if a <? b then -1 else if b <? a then 1 else 0.
Definition cmp3Float (a b : f64) : Z := if f64_ltb a b then -1 else if f64_ltb b a then 1 else 0.
Definition cmp3Str (a b : bytes) : Z :=
  if bytes_compare a b <? 0 then -1 else if bytes_compare b a <? 0 then 1 else 0.

Definition tri_of (b : bool) : predTri := if b then predTrue else predFalse.

Definition predCmpFromInt (c : Z) (op : PredicateCmpOp) : predTri :=
  match op with
  | CMP_EQ => tri_of (c =? 0)
  | CMP_LT => tri_of (c <? 0)
  | CMP_LE => tri_of (c <=? 0)
  | CMP_GT => tri_of (0 <? c)
  | CMP_GE => tri_of (0 <=? c)
  | CMP_other _ => predUnknown
  end.

Definition is_null (v : TypedValue) : bool := match v with TV_NULL => true | _ => false end.
Definition isNumericKind (v : TypedValue) : bool := match v with TV_INT _ | TV_FLOAT _ => true | _ => false end.

Definition numericKindAsFloat (v : TypedValue) : f64 :=
  match v with TV_FLOAT f => f | TV_INT z => f64_of_int z | _ => f64_of_int 0 end.

Definition compareTypedValues (a : TypedValue) (op : PredicateCmpOp) (b : TypedValue) : predTri :=
  match a, b with
  | TV_NULL, TV_NULL => predUnknown
  | TV_INT x, TV_INT y => predCmpFromInt (cmp3Int x y) op
  | TV_FLOAT x, TV_FLOAT y => predCmpFromInt (cmp3Float x y) op
  | TV_TEXT x, TV_TEXT y => predCmpFromInt (cmp3Str x y) op
  | TV_BLOB x, TV_BLOB y => predCmpFromInt (bytes_compare x y) op
  | _, _ =>
      if isNumericKind a && isNumericKind b
      then predCmpFromInt (cmp3Float (numericKindAsFloat a) (numericKindAsFloat b)) op
      else predUnknown
  end.

(** A column by its index, [None] when the index is out of range. *)
Definition column (rw : RowWriteEffect) (col : Z) : option TypedValue :=
  if (col <? 0) || (Z.of_nat (length (rw_columns rw)) <=? col) then None
  else rw_columns rw !! Z.to_nat col.

Definition predCmp (col : Z) (op : PredicateCmpOp) (lit : option TypedValue) (rw : RowWriteEffect) : predTri :=
  match column rw col, lit with
  | Some v, Some lit =>
      if is_null v || is_null lit then predUnknown else compareTypedValues v op lit
  | _, _ => predUnknown
  end.

Definition predColCmp (leftCol : Z) (op : PredicateCmpOp) (rightCol : Z) (rw : RowWriteEffect) : predTri :=
  match column rw leftCol, column rw rightCol with
  | Some l, Some r => if is_null l || is_null r then predUnknown else compareTypedValues l op r
  | _, _ => predUnknown
  end.

(** ** Evaluation *)

Definition tri_not (v : predTri) : predTri :=
  match v with predTrue => predFalse | predFalse => predTrue | predUnknown => predUnknown end.

(** The loops of AND and OR, with their early returns. *)
Section Loops.
Context {P : Type} (eval : P -> predTri).

Fixpoint and_loop (children : list P) (acc : predTri) : predTri :=
  match children with
  | [] => acc
  | c :: cs =>
      match eval c with
      | predFalse => predFalse
      | predUnknown => and_loop cs predUnknown
      | predTrue => and_loop cs acc
      end
  end.

Fixpoint or_loop (children : list P) (acc : predTri) : predTri :=
  match children with
  | [] => acc
  | c :: cs =>
      match eval c with
      | predTrue => predTrue
      | predUnknown => or_loop cs predUnknown
      | predFalse => or_loop cs acc
      end
  end.
End Loops.

Fixpoint predEval (p : Predicate) (rw : RowWriteEffect) : predTri :=
  match p with
  | P_BOOL b => tri_of b
  | P_AND children => and_loop (fun c => predEval c rw) children predTrue
  | P_OR children => or_loop (fun c => predEval c rw) children predFalse
  | P_NOT child => tri_not (predEval child rw)
  | P_CMP col op lit => predCmp col op lit rw
  | P_COL_CMP col op col2 => predColCmp col op col2 rw
  | P_IS_NULL col =>
      match column rw col with
      | None => predUnknown
      | Some v => tri_of (is_null v)
      end
  | P_other _ => predUnknown
  end.

(** A nil predicate or row never matches; [UNKNOWN] does not either. *)
Definition predicateMatches (p : option Predicate) (rw : option RowWriteEffect) : bool :=
  match p, rw with
  | Some p, Some rw => bool_decide (predEval p rw = predTrue)
  | _, _ => false
  end.

(** ** Evidence *)

Definition evidence : Type := list ObservationEffect * list RowWriteEffect.

Definition hasPredicateEvidence (ev : evidence) : bool := nonempty ev.1 || nonempty ev.2.

(** Some observation of [obs] matches some row of [rw]. *)
Definition observed (obs : list ObservationEffect) (rw : list RowWriteEffect) : bool :=
  existsb (fun o => match o_predicate o with
                    | None => false
                    | Some p => existsb (fun w => predicateMatches (Some p) (Some w)) rw
                    end) obs.

(** (conflict, both sides had evidence) *)
Definition predicateEvidenceConflict (ours theirs : evidence) : bool * bool :=
  if negb (hasPredicateEvidence ours) || negb (hasPredicateEvidence theirs) then (false, false)
  else if observed ours.1 theirs.2 then (true, true)
  else if observed theirs.1 ours.2 then (true, true)
  else (false, true).

Section Collect.
Variable (store : Store).

(** The payload an effect of this transaction contributes on [key]. *)
Definition add_evidence (txnID key : bytes) (ev : evidence) (off : Tip) : evidence :=
  match getEffect store key off with
  | Some eff =>
      if bool_decide (e_txn_id eff = txnID) && bool_decide (e_key eff = key)
      then (ev.1 ++ match get_observation eff with Some o => [o] | None => [] end,
            ev.2 ++ match get_row_write eff with Some w => [w] | None => [] end)
      else ev
  | None => ev
  end.

(** A missing effect or one of another transaction ends its branch. *)
Definition txn_deps (txnID key : bytes) (off : Tip) : list Tip :=
  match getEffect store key off with
  | Some eff => if bool_decide (e_txn_id eff = txnID) then allDeps eff else []
  | None => []
  end.

(** The code does not push what it already visited; here such an entry is pushed
    and skipped when it is popped, which visits the same effects in the same
    order. *)
Definition collectTxnEffectsOnKey (txnID key : bytes) (startTips : list Tip) : walk evidence :=
  let stack := rev (filter (fun t => t <> zero_tip) startTips) in
  dfs (fun _ => false) (txn_deps txnID key) (fun ev off => Some (add_evidence txnID key ev off))
    (dfs_fuel (txn_deps txnID key) (dom store) stack) stack ∅ ([], []).

Definition hasPredicateConflict (ourTxnID theirTxnID key : bytes) (ourStart theirStart : list Tip)
    : walk (bool * bool) :=
  match collectTxnEffectsOnKey ourTxnID key ourStart, collectTxnEffectsOnKey theirTxnID key theirStart with
  | Done ours, Done theirs => Done (predicateEvidenceConflict ours theirs)
  | _, _ => OutOfFuel
  end.

End Collect.

(** ** The logic *)

(** Induction over predicates, through the lists of children. *)
Lemma Predicate_nested_ind (Q : Predicate -> Prop) :
  (forall b, Q (P_BOOL b)) ->
  (forall cs, Forall Q cs -> Q (P_AND cs)) ->
  (forall cs, Forall Q cs -> Q (P_OR cs)) ->
  (forall c, Q c -> Q (P_NOT c)) ->
  (forall col op lit, Q (P_CMP col op lit)) ->
  (forall col op col2, Q (P_COL_CMP col op col2)) ->
  (forall col, Q (P_IS_NULL col)) ->
  (forall k, Q (P_other k)) ->
  forall p, Q p.
Proof.
  intros Hb Ha Ho Hn Hc Hcc Hi Hk. fix IH 1. intros [b|cs|cs|c|col op lit|col op col2|col|k].
  - apply Hb.
  - apply Ha. induction cs; constructor; [apply IH|done].
  - apply Ho. induction cs; constructor; [apply IH|done].
  - apply Hn, IH.
  - apply Hc.
  - apply Hcc.
  - apply Hi.
  - apply Hk.
Qed.

Section LoopSpecs.
Context {P : Type} (eval : P -> predTri).

Lemma and_loop_spec cs acc :
  acc <> predFalse ->
  (and_loop eval cs acc = predFalse <-> exists c, c ∈ cs /\ eval c = predFalse)
  /\ (and_loop eval cs acc = predTrue <-> acc = predTrue /\ forall c, c ∈ cs -> eval c = predTrue).
Proof.
  revert acc. induction cs as [|c cs IH]; intros acc Hacc; simpl.
  - split; split.
    + congruence.
    + by intros (c & ?%elem_of_nil & _).
    + intros ->. split; [done|]. by intros c ?%elem_of_nil.
    + by intros [-> _].
  - setoid_rewrite elem_of_cons. destruct (eval c) eqn:E.
    + split; split; [eauto|done|done|]. intros [_ H]. specialize (H c (or_introl eq_refl)). congruence.
    + destruct (IH acc Hacc) as [-> ->]. split; split.
      * intros (x & ? & ?). eauto.
      * intros (x & [->|] & ?); [congruence|eauto].
      * intros [? H]. split; [done|]. intros x [->|]; auto.
      * intros [? H]. split; [done|]. auto.
    + destruct (IH predUnknown ltac:(done)) as [-> ->]. split; split.
      * intros (x & ? & ?). eauto.
      * intros (x & [->|] & ?); [congruence|eauto].
      * by intros [? _].
      * intros [_ H]. specialize (H c (or_introl eq_refl)). congruence.
Qed.

(** OR is AND seen through negation. *)
Lemma or_loop_dual cs acc : or_loop eval cs acc = tri_not (and_loop (fun c => tri_not (eval c)) cs (tri_not acc)).
Proof.
  revert acc. induction cs as [|c cs IH]; intros acc; simpl; [by destruct acc|].
  destruct (eval c); simpl; try done; rewrite IH; done.
Qed.

End LoopSpecs.

Lemma tri_not_invol v : tri_not (tri_not v) = v.
Proof. by destruct v. Qed.

Lemma tri_not_swap v w : tri_not v = w <-> v = tri_not w.
Proof. destruct v, w; done. Qed.

Lemma or_loop_spec {P} (eval : P -> predTri) cs acc :
  acc <> predTrue ->
  (or_loop eval cs acc = predTrue <-> exists c, c ∈ cs /\ eval c = predTrue)
  /\ (or_loop eval cs acc = predFalse <-> acc = predFalse /\ forall c, c ∈ cs -> eval c = predFalse).
Proof.
  intros Hacc. rewrite or_loop_dual.
  destruct (and_loop_spec (fun c => tri_not (eval c)) cs (tri_not acc)) as [HF HT]; [by destruct acc|].
  rewrite !tri_not_swap. simpl. rewrite HF, HT, tri_not_swap. setoid_rewrite tri_not_swap. done.
Qed.

(** Evaluation is Kleene's three-valued logic whatever the early returns: a
    conjunction is false exactly when a child is false and true exactly when
    every child is true, a disjunction the other way round, negation swaps the
    two, and De Morgan's law holds. *)
Theorem predicate_kleene (cs : list Predicate) (p : Predicate) (rw : RowWriteEffect) :
  (predEval (P_AND cs) rw = predFalse <-> exists c, c ∈ cs /\ predEval c rw = predFalse)
  /\ (predEval (P_AND cs) rw = predTrue <-> forall c, c ∈ cs -> predEval c rw = predTrue)
  /\ (predEval (P_OR cs) rw = predTrue <-> exists c, c ∈ cs /\ predEval c rw = predTrue)
  /\ (predEval (P_OR cs) rw = predFalse <-> forall c, c ∈ cs -> predEval c rw = predFalse)
  /\ predEval (P_NOT (P_NOT p)) rw = predEval p rw
  /\ predEval (P_NOT (P_OR cs)) rw = predEval (P_AND (map P_NOT cs)) rw.
Proof.
  simpl. destruct (and_loop_spec (fun c => predEval c rw) cs predTrue) as [-> ->]; [done|].
  destruct (or_loop_spec (fun c => predEval c rw) cs predFalse) as [-> ->]; [done|].
  split_and!; [done|naive_solver|done|naive_solver|apply tri_not_invol|].
  rewrite or_loop_dual, tri_not_invol. simpl. generalize predTrue as acc.
  induction cs as [|c cs IH]; intros acc; simpl; [done|]. destruct (tri_not _); auto.
Qed.

(** ** Unknown columns *)

(** [rw'] knows at least what [rw] knows: the columns of [rw] that are present
    and not NULL. *)
Definition row_refines (rw rw' : RowWriteEffect) : Prop :=
  forall i v, rw_columns rw !! i = Some v -> v <> TV_NULL -> rw_columns rw' !! i = Some v.

Fixpoint null_free (p : Predicate) : bool :=
  match p with
  | P_AND cs | P_OR cs => forallb null_free cs
  | P_NOT c => null_free c
  | P_IS_NULL _ => false
  | _ => true
  end.

Lemma column_lookup rw col v : column rw col = Some v -> 0 <= col /\ rw_columns rw !! Z.to_nat col = Some v.
Proof. unfold column. destruct (_ || _) eqn:E; [done|]. intros ->. split; [lia|done]. Qed.

Lemma column_refines rw rw' col v :
  row_refines rw rw' -> column rw col = Some v -> is_null v = false -> column rw' col = Some v.
Proof.
  intros Hr [Hc Hv]%column_lookup Hn. assert (rw_columns rw' !! Z.to_nat col = Some v) as Hv'
    by (apply Hr; [done|]; intros ->; done).
  unfold column. apply lookup_lt_Some in Hv' as Hl. destruct (_ || _) eqn:E; [lia|done].
Qed.

Lemma predCmp_refines rw rw' col op lit :
  row_refines rw rw' -> predCmp col op lit rw <> predUnknown -> predCmp col op lit rw' = predCmp col op lit rw.
Proof.
  intros Hr. unfold predCmp. destruct (column rw col) as [v|] eqn:Ec, lit as [l|]; try done.
  destruct (is_null v) eqn:En; [done|]. by rewrite (column_refines _ _ _ _ Hr Ec En), En.
Qed.

Lemma predColCmp_refines rw rw' c1 op c2 :
  row_refines rw rw' -> predColCmp c1 op c2 rw <> predUnknown -> predColCmp c1 op c2 rw' = predColCmp c1 op c2 rw.
Proof.
  intros Hr. unfold predColCmp. destruct (column rw c1) as [v|] eqn:E1, (column rw c2) as [w|] eqn:E2; try done.
  destruct (is_null v) eqn:En; [done|]. destruct (is_null w) eqn:Ew; [done|].
  by rewrite (column_refines _ _ _ _ Hr E1 En), (column_refines _ _ _ _ Hr E2 Ew), En, Ew.
Qed.

Lemma and_loop_refines {P} (f g : P -> predTri) cs acc :
  (forall c, c ∈ cs -> f c <> predUnknown -> g c = f c) -> acc <> predFalse ->
  and_loop f cs acc <> predUnknown -> and_loop g cs acc = and_loop f cs acc.
Proof.
  intros Hfg Hacc Hk. destruct (and_loop_spec f cs acc Hacc) as [HF HT].
  destruct (and_loop_spec g cs acc Hacc) as [GF GT].
  destruct (and_loop f cs acc); [| |done].
  - apply GF. destruct (proj1 HF eq_refl) as (c & Hc & E). exists c. split; [done|]. rewrite Hfg; congruence.
  - apply GT. destruct (proj1 HT eq_refl) as [? H]. split; [done|]. intros c Hc. rewrite Hfg; [auto|done|]. rewrite H; done.
Qed.

Lemma or_loop_refines {P} (f g : P -> predTri) cs acc :
  (forall c, c ∈ cs -> f c <> predUnknown -> g c = f c) -> acc <> predTrue ->
  or_loop f cs acc <> predUnknown -> or_loop g cs acc = or_loop f cs acc.
Proof.
  intros Hfg Hacc. rewrite !or_loop_dual. intros Hk. f_equal. apply and_loop_refines.
  - intros c Hc Hf. rewrite Hfg; [done..|]. by destruct (f c).
  - by destruct acc.
  - by destruct (and_loop _ _ _).
Qed.

Lemma predEval_refines p rw rw' :
  null_free p = true -> row_refines rw rw' -> predEval p rw <> predUnknown -> predEval p rw' = predEval p rw.
Proof.
  intros Hn Hr. revert Hn.
  induction p as [b|cs IH|cs IH|c IH|col op lit|col op col2|col|k] using Predicate_nested_ind; simpl; intros Hn Hk;
    try done; auto using predCmp_refines, predColCmp_refines.
  - apply and_loop_refines; [|done..]. intros c Hc. rewrite Forall_forall in IH.
    apply IH; [by apply list_elem_of_In|]. rewrite forallb_forall in Hn. by apply Hn, list_elem_of_In.
  - apply or_loop_refines; [|done..]. intros c Hc. rewrite Forall_forall in IH.
    apply IH; [by apply list_elem_of_In|]. rewrite forallb_forall in Hn. by apply Hn, list_elem_of_In.
  - rewrite IH; [done..|]. by destruct (predEval c rw).
Qed.

(** A definite verdict is independent of what is unknown.  For a predicate
    without IS NULL, if a row with NULL or missing columns already decides it,
    then so does every row that agrees on the columns that are known, and the
    same way. *)
Theorem predicate_unknown_sound (p : Predicate) (rw rw' : RowWriteEffect) :
  null_free p = true -> row_refines rw rw' -> predEval p rw <> predUnknown -> predEval p rw' = predEval p rw.
Proof. apply predEval_refines. Qed.

Lemma predicate_unknown_sound_witness :
  let p := P_OR [P_CMP 0 CMP_LT (Some (TV_INT 5)); P_CMP 1 CMP_EQ (Some (TV_TEXT [x61]))] in
  predEval p (mkRowWrite [] RW_UPDATE [TV_INT 3; TV_TEXT [x62]]) = predEval p (mkRowWrite [] RW_UPDATE [TV_INT 3; TV_NULL]).
Proof.
  cbv zeta. apply predicate_unknown_sound.
  - vm_compute. reflexivity.
  - intros i v. destruct i as [|[|]]; simpl; [done| |done]. intros [= <-] H. done.
  - vm_compute. discriminate.
Defined.

(** ** Evidence collection *)

Section Evidence.
Variable (store : Store).

(** Reached within the transaction: through its own effects only. *)
Definition txn_reach (txnID key : bytes) (starts : list Tip) (off : Tip) : Prop :=
  exists s, s ∈ starts /\ s <> zero_tip /\ rtc (fun x y => y ∈ txn_deps store txnID key x) s off.

(** The effects of the transaction on the key. *)
Definition txn_effect (txnID key : bytes) (starts : list Tip) (eff : Effect) : Prop :=
  exists off, txn_reach txnID key starts off /\ store !! off = Some eff /\ e_txn_id eff = txnID /\ e_key eff = key.

Lemma add_evidence_fold txnID key order ev :
  let out := fold_left (add_evidence store txnID key) order ev in
  (forall o, o ∈ out.1 <-> o ∈ ev.1 \/ exists off eff, off ∈ order /\ store !! off = Some eff
     /\ e_txn_id eff = txnID /\ e_key eff = key /\ get_observation eff = Some o)
  /\ (forall w, w ∈ out.2 <-> w ∈ ev.2 \/ exists off eff, off ∈ order /\ store !! off = Some eff
     /\ e_txn_id eff = txnID /\ e_key eff = key /\ get_row_write eff = Some w).
Proof.
  revert ev. induction order as [|t order IH]; intros ev; simpl.
  { split; intros x; (split; [auto|]); intros [|(? & ? & ?%elem_of_nil & _)]; done. }
  destruct (IH (add_evidence store txnID key ev t)) as [H1 H2].
  split; intros x; [rewrite H1|rewrite H2]; clear H1 H2 IH; setoid_rewrite elem_of_cons;
    unfold add_evidence, getEffect; destruct (store !! t) as [eff|] eqn:Et; simpl.
  2,4: split; [intros [|(? & ? & ? & ?)]; [auto|right; eauto 10]|
               intros [|(? & ? & [->|] & ? & ?)]; [auto|congruence|right; eauto 10]].
  all: destruct (bool_decide (e_txn_id eff = txnID) && bool_decide (e_key eff = key)) eqn:Eb;
    [apply andb_true_iff in Eb as [E1%bool_decide_eq_true E2%bool_decide_eq_true]|]; simpl; rewrite ?elem_of_app.
  2,4: split; [intros [|(? & ? & ? & ?)]; [auto|right; eauto 10]|];
    (intros [|(off & e & [->|] & ? & Ha & Hb & ?)]; [auto| |right; eauto 10]);
    exfalso; simplify_eq; rewrite !bool_decide_eq_true_2 in Eb by done; done.
  - split.
    + intros [[|Hx]|(? & ? & ? & ?)]; [auto| |right; eauto 10].
      destruct (get_observation eff) eqn:Eo; [|by apply elem_of_nil in Hx].
      apply list_elem_of_singleton in Hx as ->. right. exists t, eff. eauto 10.
    + intros [|(off & e & [->|] & ? & ? & ? & Ho)]; [auto| |right; eauto 10].
      simplify_eq. rewrite Ho. left. right. constructor.
  - split.
    + intros [[|Hx]|(? & ? & ? & ?)]; [auto| |right; eauto 10].
      destruct (get_row_write eff) eqn:Eo; [|by apply elem_of_nil in Hx].
      apply list_elem_of_singleton in Hx as ->. right. exists t, eff. eauto 10.
    + intros [|(off & e & [->|] & ? & ? & ? & Ho)]; [auto| |right; eauto 10].
      simplify_eq. rewrite Ho. left. right. constructor.
Qed.

Lemma collect_spec txnID key starts :
  exists ev, collectTxnEffectsOnKey store txnID key starts = Done ev
    /\ (forall o, o ∈ ev.1 <-> exists eff, txn_effect txnID key starts eff /\ get_observation eff = Some o)
    /\ (forall w, w ∈ ev.2 <-> exists eff, txn_effect txnID key starts eff /\ get_row_write eff = Some w).
Proof.
  unfold collectTxnEffectsOnKey. set (stack := rev _).
  assert (forall t, txn_deps store txnID key t <> [] -> t ∈ dom store) as HD.
  { intros t. unfold txn_deps, getEffect. destruct (store !! t) eqn:E; [|done]. intros _. by eapply elem_of_dom_2. }
  destruct (dfs_run (fun _ => false) (txn_deps store txnID key) (add_evidence store txnID key) (dom store)
    stack ([], []) HD) as (order & -> & _ & Hord).
  assert (forall t, t ∈ order <-> txn_reach txnID key starts t) as Hin.
  { intros t. rewrite Hord. unfold txn_reach, stack. split.
    - intros (_ & s & Hs & Hp). apply list_elem_of_In, in_rev, list_elem_of_In, list_elem_of_filter in Hs as [? ?].
      exists s. split_and!; [done..|]. eapply rtc_subrel; [|exact Hp]. by intros x y [_ ?].
    - intros (s & Hs & Hz & Hp). split; [done|]. exists s. split.
      + apply list_elem_of_In, in_rev. rewrite rev_involutive. by apply list_elem_of_In, list_elem_of_filter.
      + eapply rtc_subrel; [|exact Hp]. by intros x y. }
  destruct (add_evidence_fold txnID key order ([], [])) as [H1 H2].
  eexists. split; [done|]. unfold txn_effect. setoid_rewrite <- Hin. split; intros x; [rewrite H1|rewrite H2]; simpl;
    (split; [intros [?%elem_of_nil|(off & eff & ? & ? & ? & ? & ?)]; [done|]; eauto 10|]);
    intros (eff & (off & ? & ? & ? & ?) & ?); right; eauto 10.
Qed.

End Evidence.

Lemma observed_spec obs rw :
  observed obs rw = true <-> exists o p w, o ∈ obs /\ o_predicate o = Some p /\ w ∈ rw /\ predEval p w = predTrue.
Proof.
  unfold observed. rewrite existsb_exists. split.
  - intros (o & Ho & H). destruct (o_predicate o) as [p|] eqn:Ep; [|done].
    apply existsb_exists in H as (w & Hw & Hm). simpl in Hm. apply bool_decide_eq_true in Hm.
    exists o, p, w. rewrite !list_elem_of_In. done.
  - intros (o & p & w & Ho & Ep & Hw & Hm). exists o. split; [by apply list_elem_of_In|]. rewrite Ep.
    apply existsb_exists. exists w. split; [by apply list_elem_of_In|]. simpl. by apply bool_decide_eq_true.
Qed.

Lemma hasPredicateEvidence_spec ev :
  hasPredicateEvidence ev = true <-> (exists o, o ∈ ev.1) \/ (exists w, w ∈ ev.2).
Proof.
  assert (forall {A} (l : list A), nonempty l = true <-> exists x, x ∈ l) as Hne.
  { intros A [|x l]; simpl; [|split; [exists x; constructor|done]]. split; [done|]. by intros [x ?%elem_of_nil]. }
  unfold hasPredicateEvidence. by rewrite orb_true_iff, !Hne.
Qed.

(** An observation of [ea] saw a row [eb] wrote. *)
Definition sees (ea eb : Effect) : Prop :=
  exists o p w, get_observation ea = Some o /\ o_predicate o = Some p
    /\ get_row_write eb = Some w /\ predEval p w = predTrue.

Definition is_evidence (e : Effect) : Prop := is_Some (get_observation e) \/ is_Some (get_row_write e).

Lemma predicate_conflict_spec (store : Store) ourTxn theirTxn key ourStart theirStart :
  let ours := txn_effect store ourTxn key ourStart in
  let theirs := txn_effect store theirTxn key theirStart in
  exists conflict both,
    hasPredicateConflict store ourTxn theirTxn key ourStart theirStart = Done (conflict, both)
    /\ (both = true <-> (exists e, ours e /\ is_evidence e) /\ (exists e, theirs e /\ is_evidence e))
    /\ (conflict = true <-> both = true /\ exists a b, ours a /\ theirs b /\ (sees a b \/ sees b a)).
Proof.
  cbv zeta. unfold hasPredicateConflict.
  destruct (collect_spec store ourTxn key ourStart) as (eo & -> & Ho1 & Ho2).
  destruct (collect_spec store theirTxn key theirStart) as (et & -> & Ht1 & Ht2).
  assert (forall ev (Q : Effect -> Prop),
    (forall o, o ∈ ev.1 <-> exists eff, Q eff /\ get_observation eff = Some o) ->
    (forall w, w ∈ ev.2 <-> exists eff, Q eff /\ get_row_write eff = Some w) ->
    hasPredicateEvidence ev = true <-> exists e, Q e /\ is_evidence e) as Hev.
  { intros ev Q H1 H2. rewrite hasPredicateEvidence_spec. setoid_rewrite H1. setoid_rewrite H2.
    unfold is_evidence, is_Some. naive_solver. }
  assert (forall (Qa Qb : Effect -> Prop) (ea eb : evidence),
    (forall o, o ∈ ea.1 <-> exists eff, Qa eff /\ get_observation eff = Some o) ->
    (forall w, w ∈ eb.2 <-> exists eff, Qb eff /\ get_row_write eff = Some w) ->
    observed ea.1 eb.2 = true <-> exists a b, Qa a /\ Qb b /\ sees a b) as Hob.
  { intros Qa Qb ea eb H1 H2. rewrite observed_spec. setoid_rewrite H1. setoid_rewrite H2. unfold sees. split.
    - intros (o & p & w & (a & Ha & Hao) & Hp & (b & Hb & Hbw) & E). exists a, b. split_and!; [done..|].
      exists o, p, w. done.
    - intros (a & b & Ha & Hb & (o & p & w & Hao & Hp & Hbw & E)). exists o, p, w. split_and!; eauto. }
  pose proof (Hev eo _ Ho1 Ho2) as HO. pose proof (Hev et _ Ht1 Ht2) as HT.
  pose proof (Hob _ _ eo et Ho1 Ht2) as HOT. pose proof (Hob _ _ et eo Ht1 Ho2) as HTO.
  unfold predicateEvidenceConflict. destruct (hasPredicateEvidence eo), (hasPredicateEvidence et); simpl.
  1: destruct (observed eo.1 et.2), (observed et.1 eo.2).
  all: do 2 eexists; (split; [done|]); (split; [naive_solver|]).
  1-3: split; [intros _; split; [done|]|done].
  1,2: destruct (proj1 HOT eq_refl) as (a & b & ? & ? & ?); eauto 10.
  1: destruct (proj1 HTO eq_refl) as (a & b & ? & ? & ?); eauto 10.
  all: (split; [done|]); intros [? (a & b & Ha & Hb & Hs)]; try done.
  destruct Hs; [apply HOT|apply HTO]; eauto.
Qed.

(** Predicate refinement of a conflict, exactly.  The two histories are
    walked to the end; both sides have evidence precisely when each left an
    observation or a row write on the key; the transactions conflict precisely
    when, in addition, one observed a row the other wrote; and the answer is
    the same whichever side asks. *)
Theorem predicate_conflict_exact (store : Store) ourTxn theirTxn key ourStart theirStart :
  let ours := txn_effect store ourTxn key ourStart in
  let theirs := txn_effect store theirTxn key theirStart in
  exists conflict both,
    hasPredicateConflict store ourTxn theirTxn key ourStart theirStart = Done (conflict, both)
    /\ hasPredicateConflict store theirTxn ourTxn key theirStart ourStart = Done (conflict, both)
    /\ (both = true <-> (exists e, ours e /\ is_evidence e) /\ (exists e, theirs e /\ is_evidence e))
    /\ (conflict = true <-> both = true /\ exists a b, ours a /\ theirs b /\ (sees a b \/ sees b a)).
Proof.
  cbv zeta. destruct (predicate_conflict_spec store ourTxn theirTxn key ourStart theirStart) as (c & b & -> & Hb & Hc).
  destruct (predicate_conflict_spec store theirTxn ourTxn key theirStart ourStart) as (c' & b' & -> & Hb' & Hc').
  exists c, b. assert (b' = b) as -> by (apply Bool.eq_iff_eq_true; rewrite Hb, Hb'; tauto).
  assert (c' = c) as ->; [|done]. apply Bool.eq_iff_eq_true. rewrite Hc, Hc'.
  split; intros [? (x & y & ? & ? & ?)]; (split; [done|]); exists y, x; tauto.
Qed.
