(* ===== verification/Txn.v ===== *)
(** * Transaction conflicts at commit (effects/txn.go)

    A peer whose tips diverged from what a bind consumed answers with the tips
    it holds.  The originator expands wrappers (snapshots and other markers),
    skips history it already shares, and lets fork choice decide each
    competitor. *)

From S2P Require Import Prelude Golib Proto Store Walk ForkChoice Predicate.

(** ** Pending transactions *)

Record pendingTxnKey := mkPendingKey {
  pk_key : bytes;
  pk_consumedTips : list Tip;
  pk_newTip : Tip;
  pk_readOnly : bool;
  pk_collection : CollectionKind;
  pk_elementIDs : list bytes;
}.

Inductive txnState := txnStatePending | txnStateCommitted | txnStateAborted | txnStateAmbiguous.

#[global] Instance txnState_eq_dec : EqDecision txnState.
Proof. solve_decision. Defined.

(** [pt_closed] counts the closings of the [done] channel: Go panics on a second
    one. *)
Record pendingTxn := mkPending {
  pt_txnID : bytes;
  pt_txnHLC : option Timestamp;
  pt_originNode : Z;
  pt_forkChoiceHash : bytes;
  pt_bindOffset : Tip;
  pt_keys : list pendingTxnKey;
  pt_state : txnState;
  pt_closed : nat;
}.

Definition finish (ptxn : pendingTxn) (state : txnState) : pendingTxn * bool :=
  match pt_state ptxn with
  | txnStatePending =>
      (mkPending (pt_txnID ptxn) (pt_txnHLC ptxn) (pt_originNode ptxn) (pt_forkChoiceHash ptxn)
         (pt_bindOffset ptxn) (pt_keys ptxn) state (S (pt_closed ptxn)), true)
  | _ => (ptxn, false)
  end.

Definition findPendingKey (ptxn : pendingTxn) (key : bytes) : option pendingTxnKey :=
  List.find (fun pk => bool_decide (pk_key pk = key)) (pt_keys ptxn).

Definition collectOurBindTips (ptxn : pendingTxn) (key : bytes) : list Tip :=
  pt_bindOffset ptxn ::
  match findPendingKey ptxn key with Some pk => [pk_newTip pk] | None => [] end.

Definition affectsSameData (pk : pendingTxnKey) (detail : NackTipDetail) : bool :=
  if pk_readOnly pk then true
  else if coll_is (pk_collection pk) SCALAR || coll_is (nt_collection detail) SCALAR then true
  else if coll_is (pk_collection pk) ORDERED || coll_is (nt_collection detail) ORDERED then true
  else if negb (nonempty (nt_element_id detail)) then true
  else existsb (fun eid => bool_decide (eid = nt_element_id detail)) (pk_elementIDs pk).

(** effect.go: the classification of an effect fetched by reference. *)
Definition nackTipDetail (tp : Tip) (eff : Effect) : NackTipDetail := {|
  nt_ref := Some tp;
  nt_is_transactional := nonempty (e_txn_id eff);
  nt_is_data := match get_data eff with Some _ => true | None => false end;
  nt_is_bind := match get_txn_bind eff with Some _ => true | None => false end;
  nt_collection := match get_data eff with Some d => d_collection d | None => SCALAR end;
  nt_element_id := match get_data eff with Some d => d_id d | None => [] end;
  nt_op := match get_data eff with Some d => d_op d | None => UNKNOWN_OP end;
  nt_deps := e_deps eff;
  nt_bind_fork_choice_hash :=
    match get_txn_bind eff with
    | Some b => ComputeForkChoiceHash (tb_originator_node_id b) (tb_txn_hlc b)
    | None => []
    end;
|}.

(** [r(detail.GetRef())]: a nil reference reads as the zero tip. *)
Definition detail_tip (d : NackTipDetail) : Tip := default zero_tip (nt_ref d).

Section Txn.
Variable (store : Store).

(** ** Ancestry *)

(** Where the walk goes from [t]: everywhere, or along one key only. *)
Definition reach_deps (key : option bytes) (t : Tip) : list Tip :=
  match getEffect store (default [] key) t with
  | None => []
  | Some eff =>
      match key with
      | None => allDeps eff
      | Some k =>
          if (match get_txn_bind eff with None => true | Some _ => false end)
             && negb (bool_decide (e_key eff = k))
          then [] else keyDeps k eff
      end
  end.

(** Where the walk starts. *)
Definition reach_starts (ptxn : pendingTxn) (key : option bytes) : list Tip :=
  pt_bindOffset ptxn ::
  map pk_newTip
    (filter (fun pk => match key with None => true | Some k => bool_decide (pk_key pk = k) end = true) (pt_keys ptxn)).

Definition is_zero (t : Tip) : bool := bool_decide (t = zero_tip).

Definition reachesFromTxOnKey (ptxn : pendingTxn) (key : option bytes) (targets : list Tip) : bool :=
  if existsb is_zero targets then false
  else
    let remaining : gset Tip := list_to_set targets in
    if bool_decide (remaining = ∅) then true
    else
      let starts := reach_starts ptxn key in
      match flood is_zero (reach_deps key) (fun rem cur => rem ∖ {[ cur ]}) (fun rem => bool_decide (rem = ∅))
              (flood_fuel (reach_deps key) (dom store) starts)
              (fold_left (push is_zero) starts ([], ∅)) remaining with
      | Done (rem, _) => bool_decide (rem = ∅)
      | _ => false
      end.

Definition reachesFromTx (ptxn : pendingTxn) (targets : list Tip) : bool := reachesFromTxOnKey ptxn None targets.

(** ** Classification *)

(** A transaction that consists of these new tips on [key] only. *)
Definition theirs_of (key : bytes) (deps : list Tip) : pendingTxn :=
  mkPending [] None 0 [] zero_tip
    (map (fun dep => mkPendingKey key [] dep false SCALAR []) deps) txnStatePending 0.

Definition nackTipOrdered (ptxn : pendingTxn) (key : bytes) (detail : NackTipDetail) : bool :=
  let ours := filter (fun pk => pk_key pk = key) (pt_keys ptxn) in
  existsb (fun dep => bool_decide (dep = pt_bindOffset ptxn)
                      || existsb (fun pk => bool_decide (dep = pk_newTip pk)) ours) (nt_deps detail)
  || match nt_ref detail with
     | Some target => negb (is_zero target) && reachesFromTxOnKey ptxn (Some key) [target]
     | None => false
     end
  || reachesFromTxOnKey (theirs_of key (nt_deps detail)) (Some key) [pt_bindOffset ptxn]
  || existsb (fun pk => reachesFromTxOnKey (theirs_of key (nt_deps detail)) (Some key) [pk_newTip pk]) ours.

(** (conflict, the transaction that lost to us) *)
Definition classifyNackTip (ptxn : pendingTxn) (key : bytes) (detail : NackTipDetail) : bool * bytes :=
  if negb (nt_is_data detail) && negb (nt_is_bind detail) then (false, [])
  else if nackTipOrdered ptxn key detail then (false, [])
  else if nt_is_bind detail then
    let theirBindOffset := detail_tip detail in
    let theirTxnID := match getEffect store key theirBindOffset with Some e => e_txn_id e | None => [] end in
    if nonempty theirTxnID && bool_decide (theirTxnID = pt_txnID ptxn) then (false, [])
    else
      let disjoint :=
        nonempty (pt_txnID ptxn) && nonempty theirTxnID
        && match hasPredicateConflict store (pt_txnID ptxn) theirTxnID key
                   (collectOurBindTips ptxn key) [theirBindOffset] with
           | Done (conflict, bothHadEvidence) => bothHadEvidence && negb conflict
           | _ => false
           end in
      if disjoint then (false, [])
      else if ForkChoiceLess (nt_bind_fork_choice_hash detail) (pt_forkChoiceHash ptxn) then (true, [])
      else if (match nt_ref detail with Some _ => true | None => false end)
              && ForkChoiceLess (pt_forkChoiceHash ptxn) (nt_bind_fork_choice_hash detail)
           then (false, theirTxnID)
           else (false, [])
  else if nt_is_transactional detail then (false, [])
  else
    match findPendingKey ptxn key with
    | Some pk => (affectsSameData pk detail, [])
    | None => (false, [])
    end.

(** ** Expansion *)

Definition shared (ptxn : pendingTxn) (key : bytes) (t : Tip) : bool := reachesFromTxOnKey ptxn (Some key) [t].

(** The dependencies of a wrapper that still have to be looked at; [None] when
    one of them cannot be fetched. *)
Definition expand_deps (ptxn : pendingTxn) (key : bytes) (visited : gset Tip)
    (queue : list NackTipDetail) (deps : list Tip) : option (list NackTipDetail) :=
  fold_opt (fun q dt =>
      if bool_decide (dt ∈ visited) || shared ptxn key dt then Some q
      else match getEffect store key dt with
           | None => None
           | Some eff => Some (q ++ [nackTipDetail dt eff])
           end) deps queue.

Fixpoint nack_loop (ptxn : pendingTxn) (key : bytes) (fuel : nat) (queue : list NackTipDetail)
    (visited : gset Tip) (defeated : gmap bytes Tip) : walk (bool * gmap bytes Tip) :=
  match queue with
  | [] => Done (false, defeated)
  | cur :: queue' =>
      match fuel with
      | O => OutOfFuel
      | S fuel' =>
          let tip := detail_tip cur in
          if bool_decide (tip ∈ visited) then nack_loop ptxn key fuel' queue' visited defeated
          else
            let visited' := {[ tip ]} ∪ visited in
            if nt_is_data cur || nt_is_bind cur then
              let (conflict, txn) := classifyNackTip ptxn key cur in
              if conflict then Done (true, ∅)
              else nack_loop ptxn key fuel' queue' visited'
                     (if nonempty txn then <[ txn := tip ]> defeated else defeated)
            else if negb (is_zero tip) && shared ptxn key tip
                 then nack_loop ptxn key fuel' queue' visited' defeated
            else match expand_deps ptxn key visited' queue' (nt_deps cur) with
                 | None => Done (true, ∅)
                 | Some queue'' => nack_loop ptxn key fuel' queue'' visited' defeated
                 end
      end
  end.

(** What a tip can add to the queue, for the fuel: the advertised tip brings its
    own dependencies, any other tip those of its effect. *)
Definition nack_next (detail : NackTipDetail) (t : Tip) : list Tip :=
  if bool_decide (t = detail_tip detail) then nt_deps detail
  else match store !! t with Some eff => e_deps eff | None => [] end.

Definition nack_fuel (detail : NackTipDetail) : nat :=
  dfs_fuel (nack_next detail) ({[ detail_tip detail ]} ∪ dom store) [detail_tip detail].

Definition checkNackConflict (ptxn : pendingTxn) (key : bytes) (detail : NackTipDetail)
    : walk (bool * gmap bytes Tip) :=
  nack_loop ptxn key (nack_fuel detail) [detail] ∅ ∅.

Definition isRealConflict (ptxn : pendingTxn) (key : bytes) (detail : NackTipDetail) : bool :=
  match checkNackConflict ptxn key detail with Done (conflict, _) => conflict | _ => false end.

End Txn.

(** ** What the ancestry check decides *)

Section Reach.
Variable (store : Store).

(** In the ancestry of the transaction: a path of effects, along the key if one
    is given, from its bind or one of its new tips. *)
Definition tx_reaches (ptxn : pendingTxn) (key : option bytes) (target : Tip) : Prop :=
  exists s, s ∈ reach_starts ptxn key /\ s <> zero_tip
    /\ rtc (fun x y => y ∈ reach_deps store key x /\ y <> zero_tip) s target.

Lemma is_zero_false t : is_zero t = false <-> t <> zero_tip.
Proof. unfold is_zero. by rewrite bool_decide_eq_false. Qed.

Lemma tx_reaches_flooded ptxn key t :
  flooded is_zero (reach_deps store key) (reach_starts ptxn key) t <-> tx_reaches ptxn key t.
Proof.
  unfold flooded, tx_reaches, flood_step.
  split; intros (s & ? & ?%is_zero_false & Hp); exists s; (split_and!; [done..|]);
    (eapply rtc_subrel; [|exact Hp]).
  - intros x y [? ?%is_zero_false]. done.
  - intros x y [? ?]. split; [done|]. by apply is_zero_false.
Qed.

Lemma fold_difference (order : list Tip) (X : gset Tip) :
  fold_left (fun rem cur => rem ∖ {[ cur ]}) order X = X ∖ list_to_set order.
Proof.
  revert X. induction order as [|x l IH]; intros X; simpl; [by rewrite difference_empty_L|].
  rewrite IH. set_solver.
Qed.

Lemma reaches_spec ptxn key targets :
  reachesFromTxOnKey store ptxn key targets = true <-> forall t, t ∈ targets -> t <> zero_tip /\ tx_reaches ptxn key t.
Proof.
  unfold reachesFromTxOnKey. destruct (existsb is_zero targets) eqn:Ez.
  { apply existsb_exists in Ez as (t & Ht%list_elem_of_In & Hz). split; [done|].
    intros H. destruct (H t Ht) as [Hne _]. apply is_zero_false in Hne. congruence. }
  assert (forall t, t ∈ targets -> t <> zero_tip) as Hz.
  { intros t Ht. apply is_zero_false. apply not_true_iff_false. intros E. apply not_true_iff_false in Ez. apply Ez.
    apply existsb_exists. exists t. split; [by apply list_elem_of_In|done]. }
  destruct (decide (list_to_set targets = (∅ : gset Tip))) as [He|He].
  { rewrite bool_decide_eq_true_2 by done. split; [|done]. intros _ t Ht.
    assert (t ∈ (∅ : gset Tip)) as ?%elem_of_empty by (rewrite <- He; by apply elem_of_list_to_set). done. }
  rewrite bool_decide_eq_false_2 by done.
  assert (forall t, reach_deps store key t <> [] -> t ∈ dom store) as HD.
  { intros t. unfold reach_deps, getEffect. destruct (store !! t) eqn:E; [|done]. intros _. by eapply elem_of_dom_2. }
  destruct (flood_spec is_zero (reach_deps store key) (fun (rem : gset Tip) cur => rem ∖ {[ cur ]})
    (fun rem => bool_decide (rem = ∅)) (dom store) (reach_starts ptxn key) (list_to_set targets) HD)
    as (order & seen & -> & Ho & Hor).
  rewrite fold_difference in *. rewrite bool_decide_eq_true. setoid_rewrite tx_reaches_flooded in Ho. split.
  - intros Hempty t Ht. split; [auto|]. apply Ho.
    assert (t ∈ (list_to_set targets : gset Tip)) as Hin by (by apply elem_of_list_to_set).
    destruct (decide (t ∈ order)) as [|Hno]; [done|].
    assert (t ∈ (∅ : gset Tip)) as ?%elem_of_empty; [|done].
    rewrite <- Hempty. apply elem_of_difference. split; [done|]. by rewrite elem_of_list_to_set.
  - intros Hall. destruct Hor as [?%bool_decide_eq_true|[_ Hall2]]; [done|].
    setoid_rewrite tx_reaches_flooded in Hall2. apply set_eq. intros t.
    rewrite elem_of_difference, !elem_of_list_to_set. split; [|by intros ?%elem_of_empty].
    intros [Ht Hno]. exfalso. apply Hno, Hall2. by apply Hall.
Qed.

End Reach.
