(* ===== verification/TxnProps.v ===== *)
(** * Properties of the commit-time conflict check

    The ancestry check is exact; the expansion of wrappers finds every
    competitor they hide and nothing else; fork choice makes exactly one of two
    competing transactions lose. *)

From S2P Require Import Prelude Golib Proto Store Walk ForkChoice Predicate Txn.

(** The ancestry check answers exactly whether every target lies in the
    transaction's history: it returns true if and only if no target is the null
    reference and each is reached from the transaction's bind or new tips by
    the dependencies it may follow (all of them, or those of one key).  It
    always terminates, also on cyclic or incomplete histories. *)
Theorem reaches_exact (store : Store) (ptxn : pendingTxn) (key : option bytes) (targets : list Tip) :
  reachesFromTxOnKey store ptxn key targets = true
  <-> forall t, t ∈ targets -> t <> zero_tip /\ tx_reaches store ptxn key t.
Proof. apply reaches_spec. Qed.

(** ** Expansion of wrappers *)

Section Expansion.
Variable (store : Store) (ptxn : pendingTxn) (key : bytes) (d0 : NackTipDetail).

Definition is_wrapper (d : NackTipDetail) : bool := negb (nt_is_data d || nt_is_bind d).

(** Not an ancestor of ours on this key. *)
Definition foreign (d : NackTipDetail) : Prop :=
  detail_tip d = zero_tip \/ shared store ptxn key (detail_tip d) = false.

(** A dependency of a foreign wrapper that is foreign itself. *)
Definition exposes (d : NackTipDetail) (dt : Tip) : Prop :=
  is_wrapper d = true /\ foreign d /\ dt ∈ nt_deps d
  /\ shared store ptxn key dt = false /\ dt <> detail_tip d0.

(** What the advertised tip wraps. *)
Inductive exposed : NackTipDetail -> Prop :=
  | exposed_tip : exposed d0
  | exposed_dep d dt eff : exposed d -> exposes d dt -> store !! dt = Some eff -> exposed (nackTipDetail dt eff).

(** It hides a competitor that beats us, or history that cannot be fetched. *)
Definition hides_conflict : Prop :=
  (exists d, exposed d /\ is_wrapper d = false /\ (classifyNackTip store ptxn key d).1 = true)
  \/ (exists d dt, exposed d /\ exposes d dt /\ store !! dt = None).

(** A tip has one detail. *)
Lemma exposed_inj d d' : exposed d -> exposed d' -> detail_tip d = detail_tip d' -> d = d'.
Proof.
  intros H1 H2. destruct H1 as [|d dt eff _ (_ & _ & _ & _ & Hne) Heff];
    destruct H2 as [|d' dt' eff' _ (_ & _ & _ & _ & Hne') Heff']; unfold detail_tip in *; simpl in *; intros E.
  - done.
  - congruence.
  - congruence.
  - subst. by simplify_eq.
Qed.

(** The conclusion the loop draws from a tip, given what is still to do. *)
Definition settled (visited : gset Tip) (queue : list NackTipDetail) (d : NackTipDetail) : Prop :=
  if is_wrapper d
  then foreign d -> forall dt, dt ∈ nt_deps d ->
         dt ∈ visited \/ shared store ptxn key dt = true
         \/ exists eff, store !! dt = Some eff /\ nackTipDetail dt eff ∈ queue
  else (classifyNackTip store ptxn key d).1 = false.

Record nack_inv (queue : list NackTipDetail) (visited : gset Tip) : Prop := {
  ni_queue : forall d, d ∈ queue -> exposed d;
  ni_visited : forall t, t ∈ visited -> exists d, exposed d /\ detail_tip d = t /\ settled visited queue d;
  ni_tip : d0 ∈ queue \/ detail_tip d0 ∈ visited;
}.

Lemma settled_mono visited visited' queue queue' d :
  settled visited queue d -> visited ⊆ visited' ->
  (forall x, x ∈ queue -> x ∈ queue' \/ detail_tip x ∈ visited') -> settled visited' queue' d.
Proof.
  unfold settled. intros H Hv Hq. destruct (is_wrapper d); [|done]. intros Hf dt Hdt.
  destruct (H Hf dt Hdt) as [|[|(eff & He & Hin)]]; [set_solver|tauto|].
  destruct (Hq _ Hin) as [|Hvis]; [eauto|]. left. by unfold detail_tip in Hvis.
Qed.

(** Dropping an entry whose tip is settled. *)
Lemma nack_inv_pop cur queue visited queue' :
  nack_inv (cur :: queue) visited -> exposed cur ->
  (forall x, x ∈ queue -> x ∈ queue') -> (forall x, x ∈ queue' -> exposed x) ->
  settled ({[ detail_tip cur ]} ∪ visited) queue' cur ->
  nack_inv queue' ({[ detail_tip cur ]} ∪ visited).
Proof.
  intros [Hq Hv Ht] Hcur Hsub Hexp Hset.
  assert (forall x, x ∈ cur :: queue -> x ∈ queue' \/ detail_tip x ∈ {[ detail_tip cur ]} ∪ visited) as Hmove.
  { intros x [->|Hx]%elem_of_cons; [right; set_solver|auto]. }
  split; [done| |].
  - intros t [->%elem_of_singleton|Hin]%elem_of_union; [by exists cur|].
    destruct (Hv t Hin) as (d & Hd & <- & Hs). exists d. split_and!; [done..|].
    eapply settled_mono; [done|set_solver|done].
  - destruct Ht as [Ht|Ht]; [|set_solver]. destruct (Hmove _ Ht); auto.
Qed.

(** An entry whose tip was settled before. *)
Lemma nack_inv_again cur queue visited :
  nack_inv (cur :: queue) visited -> detail_tip cur ∈ visited -> nack_inv queue visited.
Proof.
  intros [Hq Hv Ht] Hin.
  assert (forall x, x ∈ cur :: queue -> x ∈ queue \/ detail_tip x ∈ visited) as Hmove.
  { intros x [->|Hx]%elem_of_cons; auto. }
  split.
  - intros d Hd. apply Hq. by constructor.
  - intros t Htv. destruct (Hv t Htv) as (d & ? & ? & ?). exists d. split_and!; [done..|].
    eapply settled_mono; [done..|]. done.
  - destruct Ht as [Ht|Ht]; [|auto]. destruct (Hmove _ Ht); auto.
Qed.

(** When nothing is left to do, nothing was missed. *)
Lemma nack_inv_done visited : nack_inv [] visited -> ~ hides_conflict.
Proof.
  intros [_ Hv Ht].
  assert (forall d, exposed d -> detail_tip d ∈ visited) as Hall.
  { intros d Hd. induction Hd as [|d dt eff Hd IH Hex Heff].
    - destruct Ht as [?%elem_of_nil|]; done.
    - destruct (Hv _ IH) as (d' & Hd' & E & Hs). assert (d' = d) as -> by (by apply exposed_inj).
      destruct Hex as (Hw & Hf & Hdt & Hsh & _). unfold settled in Hs. rewrite Hw in Hs.
      destruct (Hs Hf dt Hdt) as [|[|(? & _ & ?%elem_of_nil)]]; [done|congruence|done]. }
  assert (forall d, exposed d -> settled visited [] d) as Hset.
  { intros d Hd. destruct (Hv _ (Hall d Hd)) as (d' & Hd' & E & Hs).
    by assert (d' = d) as -> by (by apply exposed_inj). }
  intros [(d & Hd & Hw & Hc)|(d & dt & Hd & Hex & Hn)]; specialize (Hset d Hd); unfold settled in Hset.
  - rewrite Hw in Hset. congruence.
  - pose proof Hex as (Hw & Hf & Hdt & Hsh & Hne). rewrite Hw in Hset.
    destruct (Hset Hf dt Hdt) as [Hin|[|(? & ? & _)]]; [|congruence..].
    destruct (Hv dt Hin) as (d' & Hd' & E & _). destruct Hd' as [|d' dt' eff _ _ He]; [done|].
    unfold detail_tip in E. simpl in E. congruence.
Qed.

Lemma expand_deps_spec visited queue deps :
  match expand_deps store ptxn key visited queue deps with
  | Some queue' =>
      (forall x, x ∈ queue -> x ∈ queue') /\ (length queue' <= length queue + length deps)%nat
      /\ (forall dt, dt ∈ deps -> dt ∈ visited \/ shared store ptxn key dt = true
            \/ exists eff, store !! dt = Some eff /\ nackTipDetail dt eff ∈ queue')
      /\ (forall x, x ∈ queue' -> x ∈ queue \/ exists dt eff, dt ∈ deps /\ (dt ∉ visited)
            /\ shared store ptxn key dt = false /\ store !! dt = Some eff /\ x = nackTipDetail dt eff)
  | None => exists dt, dt ∈ deps /\ (dt ∉ visited) /\ shared store ptxn key dt = false /\ store !! dt = None
  end.
Proof.
  unfold expand_deps. revert queue. induction deps as [|dt deps IH]; intros queue; simpl.
  { split_and!; [done|lia|by intros ? ?%elem_of_nil|auto]. }
  destruct (bool_decide (dt ∈ visited) || shared store ptxn key dt) eqn:Eb.
  - specialize (IH queue). apply orb_true_iff in Eb as Hb. rewrite bool_decide_eq_true in Hb.
    destruct (fold_opt _ deps queue) as [q|].
    + destruct IH as (H1 & H2 & H3 & H4). split_and!; [done|simpl; lia| |].
      * intros x [->|Hx]%elem_of_cons; [tauto|auto].
      * intros x Hx. destruct (H4 x Hx) as [|(d & eff & ? & ?)]; [auto|]. right. exists d, eff.
        split; [by constructor|done].
    + destruct IH as (d & ? & ?). exists d. split; [by constructor|done].
  - apply orb_false_iff in Eb as [Hnv%bool_decide_eq_false Hns]. unfold getEffect.
    destruct (store !! dt) as [eff|] eqn:He; [|exists dt; split; [constructor|done]].
    specialize (IH (queue ++ [nackTipDetail dt eff])).
    destruct (fold_opt _ deps _) as [q|].
    + destruct IH as (H1 & H2 & H3 & H4). rewrite length_app in H2. simpl in H2. split_and!.
      * intros x Hx. apply H1, elem_of_app. auto.
      * lia.
      * intros x [->|Hx]%elem_of_cons; [|auto]. right; right. exists eff. split; [done|].
        apply H1, elem_of_app. right. constructor.
      * intros x Hx. destruct (H4 x Hx) as [[|Hs]%elem_of_app|(d & e & ? & ?)]; [auto| |].
        -- apply list_elem_of_singleton in Hs as ->. right. exists dt, eff. split; [constructor|done].
        -- right. exists d, e. split; [by constructor|done].
    + destruct IH as (d & ? & ?). exists d. split; [by constructor|done].
Qed.

Let D : gset Tip := {[ detail_tip d0 ]} ∪ dom store.

Lemma nack_next_dom t : nack_next store d0 t <> [] -> t ∈ D.
Proof.
  unfold nack_next, D. case_bool_decide as E; [set_solver|].
  destruct (store !! t) eqn:Et; [|done]. intros _. apply elem_of_dom_2 in Et. set_solver.
Qed.

(** What an exposed tip can push is what the fuel accounts for. *)
Lemma exposed_next d : exposed d -> nack_next store d0 (detail_tip d) = nt_deps d.
Proof.
  unfold nack_next. intros [|d' dt eff _ (_ & _ & _ & _ & Hne) He]; [by rewrite bool_decide_eq_true_2|].
  change (detail_tip (nackTipDetail dt eff)) with dt. by rewrite bool_decide_eq_false_2, He by done.
Qed.

(** A defeated transaction is named by a competitor that was found. *)
Definition defeats (defeated : gmap bytes Tip) : Prop :=
  forall txn t, defeated !! txn = Some t ->
    exists d, exposed d /\ detail_tip d = t /\ classifyNackTip store ptxn key d = (false, txn).

Lemma nack_loop_spec fuel queue visited defeated :
  (length queue + dfs_weight (nack_next store d0) D visited <= fuel)%nat ->
  nack_inv queue visited -> (detail_tip d0 ∈ visited \/ queue = [d0]) -> defeats defeated ->
  exists conflict defeated', nack_loop store ptxn key fuel queue visited defeated = Done (conflict, defeated')
    /\ (conflict = true <-> hides_conflict) /\ defeats defeated'.
Proof.
  revert queue visited defeated. induction fuel as [|fuel IH]; intros [|cur queue] visited defeated Hf Hi Hd0 Hdf;
    simpl in *; try lia.
  1,2: exists false, defeated; split_and!; [done| |done]; split; [done|]; intros Hc; by apply nack_inv_done in Hi.
  assert (exposed cur) as Hcur by (apply (ni_queue _ _ Hi); constructor).
  case_bool_decide as Hvis.
  { apply IH; [lia|by eapply nack_inv_again| |done]. left. destruct Hd0 as [|[= -> ->]]; done. }
  pose proof (dfs_weight_visit (fun _ => false) (nack_next store d0) D nack_next_dom _ _ Hvis) as Hw.
  rewrite (exposed_next cur Hcur) in Hw.
  assert (detail_tip d0 ∈ {[ detail_tip cur ]} ∪ visited) as Hd0' by (destruct Hd0 as [|[= -> ->]]; set_solver).
  assert (forall x, x ∈ queue -> exposed x) as Hqe by (intros x Hx; apply (ni_queue _ _ Hi); by constructor).
  destruct (nt_is_data cur || nt_is_bind cur) eqn:Ew.
  - assert (is_wrapper cur = false) as Hwr by (unfold is_wrapper; by rewrite Ew).
    destruct (classifyNackTip store ptxn key cur) as [conflict txn] eqn:Ec. destruct conflict.
    + exists true, ∅. split_and!; [done| |by intros ? ? ?]. split; [|done]. intros _. left. exists cur. by rewrite Ec.
    + apply IH; [lia| |by left|].
      * eapply nack_inv_pop; [done..|]. unfold settled. by rewrite Hwr, Ec.
      * destruct (nonempty txn); [|done]. intros x t. destruct (decide (txn = x)) as [->|].
        -- rewrite lookup_insert_eq. intros [= <-]. eauto.
        -- rewrite lookup_insert_ne by done. apply Hdf.
  - assert (is_wrapper cur = true) as Hwr by (unfold is_wrapper; by rewrite Ew).
    destruct (negb (is_zero (detail_tip cur)) && _) eqn:Esh.
    + apply IH; [lia| |by left|done]. eapply nack_inv_pop; [done..|]. unfold settled. rewrite Hwr.
      apply andb_true_iff in Esh as [Hz%negb_true_iff%is_zero_false Hsh]. intros [|]; congruence.
    + assert (foreign cur) as Hfor.
      { unfold foreign. apply andb_false_iff in Esh as [Hz%negb_false_iff|]; [left|by right].
        by apply bool_decide_eq_true in Hz. }
      pose proof (expand_deps_spec ({[ detail_tip cur ]} ∪ visited) queue (nt_deps cur)) as Hx.
      destruct (expand_deps store ptxn key _ queue (nt_deps cur)) as [queue'|].
      * destruct Hx as (H1 & H2 & H3 & H4). apply IH; [lia| |by left|done]. eapply nack_inv_pop; [done..| |].
        -- intros x Hxq. destruct (H4 x Hxq) as [|(dt & eff & Hdt & Hnv & Hsh & He & ->)]; [auto|].
           eapply exposed_dep; [done| |done]. unfold exposes. split_and!; [done..|]. by intros ->.
        -- unfold settled. rewrite Hwr. intros _. done.
      * destruct Hx as (dt & Hdt & Hnv & Hsh & He). exists true, ∅. split_and!; [done| |by intros ? ? ?].
        split; [|done]. intros _. right. exists cur, dt. split_and!; [done| |done].
        unfold exposes. split_and!; [done..|]. by intros ->.
Qed.

Lemma checkNackConflict_spec :
  exists conflict defeated, checkNackConflict store ptxn key d0 = Done (conflict, defeated)
    /\ (conflict = true <-> hides_conflict) /\ defeats defeated.
Proof.
  apply nack_loop_spec.
  - unfold nack_fuel. apply (dfs_fuel_enough (nack_next store d0) D [detail_tip d0]).
  - split.
    + intros d ->%list_elem_of_singleton. constructor.
    + by intros t ?%elem_of_empty.
    + left. constructor.
  - by right.
  - by intros ? ? ?.
Qed.

End Expansion.

(** The conflict check against a peer's tip is exact.  It terminates, and
    reports a conflict if and only if unwrapping the tip through snapshots and
    other markers, past no history the transaction already shares, uncovers a
    competitor that fork choice prefers or an effect that cannot be fetched;
    otherwise every transaction it reports as defeated is a competitor that was
    uncovered and lost. *)
Theorem nack_check_exact (store : Store) (ptxn : pendingTxn) (key : bytes) (detail : NackTipDetail) :
  exists conflict defeated, checkNackConflict store ptxn key detail = Done (conflict, defeated)
    /\ (conflict = true <-> hides_conflict store ptxn key detail)
    /\ forall txn t, defeated !! txn = Some t ->
         exists d, exposed store ptxn key detail d /\ detail_tip d = t
           /\ classifyNackTip store ptxn key d = (false, txn).
Proof. apply checkNackConflict_spec. Qed.

(** ** Elections *)

(** The predicate check depends only on the histories it walks. *)
Lemma predicate_conflict_ext (store : Store) a b key sa sb sa' sb' :
  (forall e, txn_effect store a key sa e <-> txn_effect store a key sa' e) ->
  (forall e, txn_effect store b key sb e <-> txn_effect store b key sb' e) ->
  hasPredicateConflict store a b key sa sb = hasPredicateConflict store a b key sa' sb'.
Proof.
  intros Ha Hb.
  destruct (predicate_conflict_spec store a b key sa sb) as (c & v & -> & Hv & Hc).
  destruct (predicate_conflict_spec store a b key sa' sb') as (c' & v' & -> & Hv' & Hc').
  setoid_rewrite Ha in Hv. setoid_rewrite Hb in Hv. setoid_rewrite Ha in Hc. setoid_rewrite Hb in Hc.
  assert (v' = v) as -> by (apply Bool.eq_iff_eq_true; by rewrite Hv, Hv').
  by assert (c' = c) as -> by (apply Bool.eq_iff_eq_true; by rewrite Hc, Hc').
Qed.

Lemma predicate_conflict_comm (store : Store) a b key sa sb :
  hasPredicateConflict store a b key sa sb = hasPredicateConflict store b a key sb sa.
Proof.
  destruct (predicate_conflict_spec store a b key sa sb) as (c & v & -> & Hv & Hc).
  destruct (predicate_conflict_spec store b a key sb sa) as (c' & v' & -> & Hv' & Hc').
  assert (v' = v) as -> by (apply Bool.eq_iff_eq_true; rewrite Hv, Hv'; tauto).
  assert (c' = c) as ->; [|done]. apply Bool.eq_iff_eq_true. rewrite Hc, Hc'.
  split; intros [? (x & y & ? & ? & ?)]; (split; [done|]); exists y, x; tauto.
Qed.

Section Election.
Variable (store : Store) (key : bytes).

(** The originator of a published bind: the bind carries the transaction's id,
    the hash is the one of its originator and instant, and the new tip of the
    key is among those the bind publishes. *)
Record published (p : pendingTxn) (eff : Effect) (b : TransactionalBindEffect) : Prop := {
  pub_bind : store !! pt_bindOffset p = Some eff;
  pub_kind : get_txn_bind eff = Some b;
  pub_txn : e_txn_id eff = pt_txnID p;
  pub_id : pt_txnID p <> [];
  pub_offset : pt_bindOffset p <> zero_tip;
  pub_hash : pt_forkChoiceHash p = ComputeForkChoiceHash (tb_originator_node_id b) (tb_txn_hlc b);
  pub_tip : forall pk, findPendingKey p key = Some pk -> pk_newTip pk ∈ map kb_new_tip (tb_keys b);
}.

(** How [p] judges the bind of [q]. *)
Definition judges (p q : pendingTxn) (effq : Effect) : bool * bytes :=
  classifyNackTip store p key (nackTipDetail (pt_bindOffset q) effq).

(** The transactions left evidence and it does not overlap. *)
Definition coexist (p q : pendingTxn) : bool :=
  match hasPredicateConflict store (pt_txnID p) (pt_txnID q) key [pt_bindOffset p] [pt_bindOffset q] with
  | Done (conflict, both) => both && negb conflict
  | _ => false
  end.

Lemma coexist_comm p q : coexist p q = coexist q p.
Proof. unfold coexist. by rewrite predicate_conflict_comm. Qed.

Lemma bind_tips_reach p eff b off :
  published p eff b ->
  txn_reach store (pt_txnID p) key (collectOurBindTips p key) off
  <-> txn_reach store (pt_txnID p) key [pt_bindOffset p] off.
Proof.
  intros Hp. unfold txn_reach, collectOurBindTips. split.
  - intros (s & [->|Hs]%elem_of_cons & Hz & Hpath); [exists (pt_bindOffset p); split; [constructor|done]|].
    destruct (findPendingKey p key) as [pk|] eqn:Ef; [|by apply elem_of_nil in Hs].
    apply list_elem_of_singleton in Hs as ->. exists (pt_bindOffset p). split; [constructor|].
    split; [apply Hp|]. eapply rtc_l; [|exact Hpath].
    unfold txn_deps, getEffect. rewrite (pub_bind _ _ _ Hp), bool_decide_eq_true_2 by apply Hp.
    apply elem_of_app. right. unfold bind_keys. rewrite (pub_kind _ _ _ Hp). by apply (pub_tip _ _ _ Hp).
  - intros (s & ->%list_elem_of_singleton & ?). exists (pt_bindOffset p). split; [constructor|done].
Qed.

Lemma judges_bind p effp bp q effq bq :
  published p effp bp -> published q effq bq -> pt_txnID p <> pt_txnID q ->
  judges p q effq =
    if nackTipOrdered store p key (nackTipDetail (pt_bindOffset q) effq) then (false, [])
    else if coexist p q then (false, [])
    else if ForkChoiceLess (pt_forkChoiceHash q) (pt_forkChoiceHash p) then (true, [])
    else if ForkChoiceLess (pt_forkChoiceHash p) (pt_forkChoiceHash q) then (false, pt_txnID q)
    else (false, []).
Proof.
  intros Hp Hq Hne. unfold judges, classifyNackTip.
  assert (nt_is_bind (nackTipDetail (pt_bindOffset q) effq) = true) as Hb
    by (simpl; by rewrite (pub_kind _ _ _ Hq)).
  assert (nt_bind_fork_choice_hash (nackTipDetail (pt_bindOffset q) effq) = pt_forkChoiceHash q) as Hh
    by (simpl; rewrite (pub_kind _ _ _ Hq); symmetry; apply Hq).
  rewrite Hb, Hh, andb_false_r. destruct (nackTipOrdered _ _ _ _); [done|].
  change (detail_tip (nackTipDetail (pt_bindOffset q) effq)) with (pt_bindOffset q).
  cbv zeta. unfold getEffect. rewrite (pub_bind _ _ _ Hq), (pub_txn _ _ _ Hq).
  rewrite bool_decide_eq_false_2, andb_false_r by congruence.
  assert (nonempty (pt_txnID p) = true) as -> by (pose proof (pub_id _ _ _ Hp); by destruct (pt_txnID p)).
  assert (nonempty (pt_txnID q) = true) as -> by (pose proof (pub_id _ _ _ Hq); by destruct (pt_txnID q)).
  unfold coexist. rewrite (predicate_conflict_ext store _ _ key _ _ [pt_bindOffset p] [pt_bindOffset q]); [done| |done].
  intros e. unfold txn_effect. by setoid_rewrite (bind_tips_reach p effp bp _ Hp).
Qed.

End Election.

(** [C23] Two transactions that published binds never abort each other; and when
    they are concurrent on the key and their hashes differ, every observer
    draws the same conclusion from either side: both stand if their predicates
    do not overlap, and otherwise exactly one aborts, the one with the higher
    hash, while the other records it as defeated. *)
Theorem election_one_loser (store : Store) (key : bytes) p effp bp q effq bq :
  published store key p effp bp -> published store key q effq bq -> pt_txnID p <> pt_txnID q ->
  ~ ((judges store key p q effq).1 = true /\ (judges store key q p effp).1 = true)
  /\ (nackTipOrdered store p key (nackTipDetail (pt_bindOffset q) effq) = false ->
      nackTipOrdered store q key (nackTipDetail (pt_bindOffset p) effp) = false ->
      pt_forkChoiceHash p <> pt_forkChoiceHash q ->
      (judges store key p q effq, judges store key q p effp) =
        if coexist store key p q then ((false, []), (false, []))
        else if ForkChoiceLess (pt_forkChoiceHash p) (pt_forkChoiceHash q)
             then ((false, pt_txnID q), (true, []))
             else ((true, []), (false, pt_txnID p))).
Proof.
  intros Hp Hq Hne. rewrite (judges_bind store key p effp bp q effq bq Hp Hq Hne).
  rewrite (judges_bind store key q effq bq p effp bp Hq Hp ltac:(congruence)), (coexist_comm store key q p).
  split.
  - intros [H1 H2]. destruct (nackTipOrdered store p key _), (nackTipOrdered store q key _), (coexist store key p q); try done.
    destruct (ForkChoiceLess (pt_forkChoiceHash q) (pt_forkChoiceHash p)) eqn:E1;
      [|by destruct (ForkChoiceLess (pt_forkChoiceHash p) _)].
    apply ForkChoiceLess_asym in E1. by rewrite E1 in H2.
  - intros -> -> Hh. destruct (coexist store key p q); [done|].
    rewrite (ForkChoiceLess_total (pt_forkChoiceHash q)) by done.
    by destruct (ForkChoiceLess (pt_forkChoiceHash p) (pt_forkChoiceHash q)).
Qed.

(** ** The decision of a transaction *)

(** The effect of a sequence of attempts to finish, and which of them took. *)
Fixpoint finish_all (ptxn : pendingTxn) (states : list txnState) : pendingTxn * list bool :=
  match states with
  | [] => (ptxn, [])
  | s :: rest =>
      let (ptxn', ok) := finish ptxn s in
      let (ptxn'', oks) := finish_all ptxn' rest in (ptxn'', ok :: oks)
  end.

Lemma finish_decided ptxn states :
  pt_state ptxn <> txnStatePending -> finish_all ptxn states = (ptxn, map (fun _ => false) states).
Proof.
  intros H. induction states as [|s states IH]; simpl; [done|].
  unfold finish. destruct (pt_state ptxn) eqn:E; [done|..]; by rewrite IH.
Qed.

(** A transaction is decided once.  Of any sequence of attempts to decide a
    pending transaction, each with a final state, only the first takes effect;
    its state is the one recorded and the waiters' channel is closed exactly
    once (a second close would panic). *)
Theorem finish_once (ptxn : pendingTxn) (s : txnState) (rest : list txnState) :
  pt_state ptxn = txnStatePending -> s <> txnStatePending ->
  let '(ptxn', oks) := finish_all ptxn (s :: rest) in
  pt_state ptxn' = s /\ oks = true :: map (fun _ => false) rest /\ pt_closed ptxn' = S (pt_closed ptxn)
  /\ pt_bindOffset ptxn' = pt_bindOffset ptxn /\ pt_keys ptxn' = pt_keys ptxn.
Proof. intros Hp Hs. simpl. unfold finish at 1. rewrite Hp. by rewrite finish_decided. Qed.
