(* ===== verification/TxnWitness.v ===== *)
(** * A concrete horizon

    Two competing binds and one independent bind, on which the theorems about
    the horizon are applied. *)

From S2P Require Import Prelude Golib Proto Store Walk ForkChoice Horizon HorizonProps CausalIndex CausalProps Predicate Txn TxnProps.

#[local] Existing Instance insertion_sorter.

Definition hw_bind (key : bytes) (base newTip : Tip) : TransactionalBindEffect :=
  mkBind [mkKeyBind key [base] newTip] None 1 [].

Definition hw_one : HorizonSet := HorizonAdd [x61] (hw_bind [x6b] (3, 1) (1, 9)) newHorizonSet.
Definition hw_two : HorizonSet := HorizonAdd [x62] (hw_bind [x6b] (3, 1) (2, 9)) hw_one.
Definition hw_set : HorizonSet := HorizonAdd [x63] (hw_bind [x7a] (5, 5) (5, 6)) hw_two.

Lemma hw_reachable : rtc hstep newHorizonSet hw_set.
Proof.
  apply (rtc_l hstep newHorizonSet hw_one); [exact (step_add newHorizonSet _ _)|].
  apply (rtc_l hstep hw_one hw_two); [exact (step_add hw_one _ _)|].
  apply rtc_once. exact (step_add hw_two _ _).
Qed.

Definition hw_entry : horizonEntry := default (mkEntry 0 (hw_bind [] (0, 0) (0, 0))) (h_entries hw_set !! [x61]).

Lemma visible_together_witness :
  h_entries hw_set !! [x61] = Some hw_entry
  /\ (IsInvisible hw_set [x61] = true /\ IsInvisible (MakeVisible [x61] hw_set).1 [x61] = false).
Proof.
  assert (h_entries hw_set !! [x61] = Some hw_entry) as He by (vm_compute; reflexivity). split; [exact He|].
  apply (visible_together hw_set [x61] hw_entry hw_reachable He).
Defined.

Lemma readers_woken_once_witness :
  exists l, h_closed (MakeVisible [x61] hw_set).1 = h_closed hw_set ++ l /\ NoDup l
    /\ forall y, y ∈ l <-> IsInvisible hw_set y = true /\ IsInvisible (MakeVisible [x61] hw_set).1 y = false.
Proof. apply (readers_woken_once hw_set); [apply hw_reachable|apply step_visible]. Defined.


(** * A small causal index

    One writer with two effects on top of a root and a concurrent writer: two
    chains, on which the interval theorem is applied. *)


#[local] Existing Instance insertion_sorter.

Definition plain (deps : list Tip) : Effect := mkEffect [x6b] None 1 deps [] [] [] (Some KNoop).

Definition ci_store : Store := list_to_map [
  ((1, 1), plain []); ((1, 2), plain [(1, 1)]); ((1, 3), plain [(1, 2)]); ((2, 2), plain [(1, 1)]) ].

Definition ci_tips : list Tip := [(1, 3); (2, 2); (1, 2)].

Definition ci_result : causalIndex * list (list nat) :=
  match candidateChains ci_store newCausalIndex ci_tips with Done r => r | _ => (newCausalIndex, []) end.

Example ci_chains : ci_result.2 = [[2; 0]%nat; [1%nat]].
Proof. vm_compute. reflexivity. Qed.

Lemma concurrent_interval_exact_witness :
  exists first last, concurrentRange ci_store ci_result.1 (2, 2) [2; 0]%nat ci_tips = (ci_result.1, (first, last))
    /\ forall i k, [2; 0]%nat !! i = Some k ->
         (first <= i < last)%nat <->
         ~ rtc (anc ci_store) (2, 2) (tip_at ci_tips k) /\ ~ rtc (anc ci_store) (tip_at ci_tips k) (2, 2).
Proof.
  apply (concurrent_interval_exact ci_store newCausalIndex ci_tips ci_result.1 ci_result.2).
  - apply valid_new.
  - vm_compute. reflexivity.
  - vm_compute. reflexivity.
  - rewrite ci_chains. constructor.
  - right. left.
Defined.

(** * Two competing transactions

    Two binds on one key that consumed the same tip, on which the theorems
    about elections are applied. *)


Definition w_base : Tip := (3, 1).

Definition w_write (txn : bytes) (hlc : Z) : Effect :=
  mkEffect [x6b] (Some (mkTimestamp hlc 0)) 1 [w_base] txn [z2b hlc] []
    (Some (KData (mkData INSERT_OP LAST_WRITE_WINS SCALAR PLACE_NONE [] [] (Some (IntVal hlc))))).

Definition w_bind (node hlc : Z) (newTip : Tip) : TransactionalBindEffect :=
  mkBind [mkKeyBind [x6b] [w_base] newTip] (Some (mkTimestamp hlc 0)) node [].

Definition w_bind_eff (txn : bytes) (node hlc : Z) (newTip : Tip) : Effect :=
  mkEffect [x6b] (Some (mkTimestamp hlc 0)) node [w_base] txn [] [] (Some (KTxnBind (w_bind node hlc newTip))).

Definition w_txn (txn : bytes) (node hlc : Z) (newTip : Tip) (off : Tip) : pendingTxn :=
  mkPending txn (Some (mkTimestamp hlc 0)) node (ComputeForkChoiceHash node (Some (mkTimestamp hlc 0))) off
    [mkPendingKey [x6b] [w_base] newTip false SCALAR []] txnStatePending 0.

Definition w_history : Store := list_to_map [
  (w_base, w_write [] 1);
  ((1, 9), w_write [x61] 9); ((1, 10), w_bind_eff [x61] 1 10 (1, 9));
  ((2, 9), w_write [x62] 9); ((2, 10), w_bind_eff [x62] 2 10 (2, 9)) ].

Definition w_p : pendingTxn := w_txn [x61] 1 10 (1, 9) (1, 10).
Definition w_q : pendingTxn := w_txn [x62] 2 10 (2, 9) (2, 10).

Lemma w_published txn node hlc newTip off :
  w_history !! off = Some (w_bind_eff txn node hlc newTip) -> txn <> [] -> off <> zero_tip ->
  published w_history [x6b] (w_txn txn node hlc newTip off) (w_bind_eff txn node hlc newTip) (w_bind node hlc newTip).
Proof. intros Hl Ht Hz. split; try done. intros pk [= <-]. constructor. Qed.

Lemma election_one_loser_witness :
  (judges w_history [x6b] w_p w_q (w_bind_eff [x62] 2 10 (2, 9)), judges w_history [x6b] w_q w_p (w_bind_eff [x61] 1 10 (1, 9)))
  = ((true, []), (false, [x61])).
Proof.
  assert (published w_history [x6b] w_p (w_bind_eff [x61] 1 10 (1, 9)) (w_bind 1 10 (1, 9))) as Hp
    by (apply w_published; done).
  assert (published w_history [x6b] w_q (w_bind_eff [x62] 2 10 (2, 9)) (w_bind 2 10 (2, 9))) as Hq
    by (apply w_published; done).
  destruct (election_one_loser w_history [x6b] w_p _ _ w_q _ _ Hp Hq ltac:(discriminate)) as [_ H].
  rewrite H.
  - vm_compute. reflexivity.
  - vm_compute. reflexivity.
  - vm_compute. reflexivity.
  - vm_compute. discriminate.
Defined.

Lemma finish_once_witness :
  pt_state (finish_all w_p [txnStateCommitted; txnStateAborted; txnStateAmbiguous]).1 = txnStateCommitted.
Proof.
  pose proof (finish_once w_p txnStateCommitted [txnStateAborted; txnStateAmbiguous] eq_refl ltac:(discriminate)) as H.
  destruct (finish_all w_p _) as [p oks]. apply H.
Defined.
