(* ===== verification/Dag.v ===== *)
(** * The effect DAG walk (effects/dag.go)

    [prepare] explores the history of a key from its tips ([bfs]), drops what
    the common snapshot already folded in ([trimAncestorsOfLCA]) and orders the
    rest causally ([topoCollect]); [iterate] selects what the processor sees.
    Loops carry fuel; the bounds are derived from the size of the store, and
    the theorems about the walk show that they are enough. *)

From S2P Require Import Prelude Golib Proto Store Walk.

Section Dag.
Context {sorter : SortFunc}.
Variable (store : Store) (key : bytes) (activeTxnID : bytes).

(** ** Breadth-first exploration *)

Record bfs_state := mkBfs {
  b_nodes : gmap Tip Effect;
  b_frontier : gset Tip;
  b_queue : list Tip;
  b_snaps : list Tip;
}.

Definition enqueue (t : Tip) (eff : Effect) (st : bfs_state) : bfs_state :=
  if is_state_snapshot eff
  then mkBfs (b_nodes st) (b_frontier st) (b_queue st) (b_snaps st ++ [t])
  else mkBfs (b_nodes st) (b_frontier st) (b_queue st ++ [t]) (b_snaps st).

Definition add_node (t : Tip) (eff : Effect) (st : bfs_state) : bfs_state :=
  mkBfs (<[ t := eff ]> (b_nodes st)) (b_frontier st) (b_queue st) (b_snaps st).

Definition add_frontier (t : Tip) (st : bfs_state) : bfs_state :=
  mkBfs (b_nodes st) ({[ t ]} ∪ b_frontier st) (b_queue st) (b_snaps st).

Definition del_frontier (t : Tip) (st : bfs_state) : bfs_state :=
  mkBfs (b_nodes st) (b_frontier st ∖ {[ t ]}) (b_queue st) (b_snaps st).

(** One input tip. *)
Definition visit_tip (st : bfs_state) (t : Tip) : option bfs_state :=
  match b_nodes st !! t with
  | Some _ => Some st
  | None =>
      eff ← getEffect store key t;
      let st := add_node t eff st in
      let st := if is_standalone_sub eff then st else add_frontier t st in
      Some (enqueue t eff st)
  end.

(** One dependency of the node being expanded. *)
Definition visit_dep (st : bfs_state) (t : Tip) : option bfs_state :=
  match b_nodes st !! t with
  | Some eff => Some (if is_standalone_sub eff then add_frontier t st else st)
  | None =>
      eff ← getEffect store key t;
      Some (enqueue t eff (add_frontier t (add_node t eff st)))
  end.

(** A root finishes its queue entry without leaving the frontier. *)
Definition expand (cur : Tip) (eff : Effect) (st : bfs_state) : option bfs_state :=
  match keyDeps key eff with
  | [] => Some st
  | deps => fold_opt visit_dep deps (del_frontier cur st)
  end.

(** Ordinary entries first; a pending snapshot only when there is none. *)
Definition pop (st : bfs_state) : option (Tip * bfs_state) :=
  match b_queue st with
  | t :: q => Some (t, mkBfs (b_nodes st) (b_frontier st) q (b_snaps st))
  | [] =>
      match b_snaps st with
      | t :: s => Some (t, mkBfs (b_nodes st) (b_frontier st) [] s)
      | [] => None
      end
  end.

(** The walk drained: a root snapshot may be all that is left unresolved. *)
Definition drained_lca (st : bfs_state) : Tip :=
  match elements (b_frontier st) with
  | [t] => match b_nodes st !! t with
           | Some eff => if is_state_snapshot eff then t else zero_tip
           | None => zero_tip
           end
  | _ => zero_tip
  end.

Fixpoint bfs_loop (fuel : nat) (st : bfs_state) : walk (gmap Tip Effect * Tip) :=
  match pop st with
  | None => Done (b_nodes st, drained_lca st)
  | Some (cur, st') =>
      match fuel with
      | O => OutOfFuel
      | S fuel' =>
          match b_nodes st' !! cur with
          | None => bfs_loop fuel' st'
          | Some eff =>
              if is_state_snapshot eff && (size (b_frontier st') =? 1)%nat
              then Done (b_nodes st', cur)
              else match expand cur eff st' with
                   | Some st'' => bfs_loop fuel' st''
                   | None => Missing
                   end
          end
      end
  end.

Definition bfs (tips : list Tip) : walk (gmap Tip Effect * Tip) :=
  match fold_opt visit_tip tips (mkBfs ∅ ∅ [] []) with
  | None => Missing
  | Some st => bfs_loop (size store) st
  end.

(** ** Trimming *)

(** Total number of dependencies of a set of nodes: with the stack length, the
    number of iterations [trim_loop] can make. *)
Definition dep_weight (nodes : gmap Tip Effect) : nat :=
  map_fold (fun _ eff acc => (length (keyDeps key eff) + acc)%nat) O nodes.

Fixpoint trim_loop (fuel : nat) (stack : list Tip) (nodes : gmap Tip Effect) : gmap Tip Effect :=
  match fuel, stack with
  | S fuel', cur :: stack' =>
      match nodes !! cur with
      | None => trim_loop fuel' stack' nodes
      | Some eff => trim_loop fuel' (rev (keyDeps key eff) ++ stack') (delete cur nodes)
      end
  | _, _ => nodes
  end.

Definition trimAncestorsOfLCA (nodes : gmap Tip Effect) (lca : Tip) : gmap Tip Effect :=
  if decide (lca = zero_tip) then nodes
  else match nodes !! lca with
       | Some eff =>
           match get_snapshot eff with
           | Some _ =>
               trim_loop (length (e_deps eff) + dep_weight nodes) (rev (e_deps eff)) nodes
           | None => nodes
           end
       | None => nodes
       end.

(** ** Causal order *)

Definition compareDagTips (a b : Tip * Effect) : Z :=
  bytes_compare (e_fork_choice_hash a.2) (e_fork_choice_hash b.2).

(** The references that are collected nodes, with their effects. *)
Definition with_effects (nodes : gmap Tip Effect) (ts : list Tip) : list (Tip * Effect) :=
  omap (fun t => (fun eff => (t, eff)) <$> nodes !! t) ts.

Definition is_lca_snapshot (lca : Tip) (t : Tip) (eff : Effect) : bool :=
  match get_snapshot eff with Some _ => bool_decide (t = lca) | None => false end.

(** Visited tips and the order so far. *)
Definition topo_state : Type := gset Tip * list Tip.

Fixpoint topoCollect (fuel : nat) (nodes : gmap Tip Effect) (lca : Tip)
    (st : topo_state) (t : Tip) : topo_state :=
  match fuel with
  | O => st
  | S fuel' =>
      if decide (t ∈ st.1) then st
      else
        let visited := {[ t ]} ∪ st.1 in
        match nodes !! t with
        | None => (visited, st.2)
        | Some eff =>
            if is_lca_snapshot lca t eff then (visited, st.2 ++ [t])
            else
              let st' :=
                match get_txn_bind eff, e_deps eff with
                | None, [d] => topoCollect fuel' nodes lca (visited, st.2) d
                | _, _ =>
                    fold_left (fun s de => topoCollect fuel' nodes lca s de.1)
                      (sort_func compareDagTips (with_effects nodes (keyDeps key eff)))
                      (visited, st.2)
                end in
              (st'.1, st'.2 ++ [t])
        end
  end.

Definition topo_order (nodes : gmap Tip Effect) (lca : Tip) (tips : list Tip) : list Tip :=
  (fold_left (fun s te => topoCollect (S (size nodes)) nodes lca s te.1)
     (sort_func compareDagTips (with_effects nodes tips)) (∅, [])).2.

(** ** The walk *)

Record dag := mkDag {
  d_nodes : gmap Tip Effect;
  d_lcaTip : Tip;
  d_topoOrder : list Tip;
}.

Definition prepare (tips : list Tip) : walk dag :=
  match bfs tips with
  | Done (nodes, lca) =>
      if (size nodes =? 0)%nat then Done (mkDag nodes lca [])
      else
        let nodes := trimAncestorsOfLCA nodes lca in
        Done (mkDag nodes lca (topo_order nodes lca tips))
  | Missing => Missing
  | OutOfFuel => OutOfFuel
  end.

Definition shouldEmit (lca : Tip) (t : Tip) (eff : Effect) : bool :=
  match get_snapshot eff with
  | Some _ => bool_decide (t = lca)
  | None =>
      negb (nonempty (e_txn_id eff)
            && match get_txn_bind eff with None => true | Some _ => false end
            && negb (bool_decide (e_txn_id eff = activeTxnID)))
  end.

(** What [iterate] hands to the processor, in order. *)
Definition emitted (d : dag) : list (Tip * Effect) :=
  filter (fun te => shouldEmit (d_lcaTip d) te.1 te.2 = true) (with_effects (d_nodes d) (d_topoOrder d)).

(** [iterate] over a processor that may fail. *)
Definition iterate {S} (processor : S -> Tip * Effect -> option S) (d : dag) (s : S) : option S :=
  fold_opt processor (emitted d) s.

Definition walk_dag {S} (processor : S -> Effect -> option S) (tips : list Tip) (s : S) : walk (option S) :=
  match prepare tips with
  | Done d => Done (iterate (fun s te => processor s te.2) d s)
  | Missing => Missing
  | OutOfFuel => OutOfFuel
  end.

End Dag.
