(* ===== verification/DagProps.v ===== *)
(** * Properties of the DAG walk: exploration and trimming

    The exploration ends, misses nothing that is reachable without crossing the
    common snapshot it reports, and reports a snapshot only when every path
    into the past runs through it.  The trim removes exactly what the snapshot
    already folded in. *)

From S2P Require Import Prelude Golib Proto Store Walk Dag.

Section Bfs.
Variable (store : Store) (key : bytes).
Implicit Types (st : bfs_state) (t cur : Tip) (tips : list Tip).

Definition pending st : list Tip := b_queue st ++ b_snaps st.

(** Reachable from the tips, following this key's dependencies. *)
Definition reach (tips : list Tip) (t : Tip) : Prop :=
  exists tip, tip ∈ tips /\ rtc (dep store key) tip t.

(** What every state of the exploration satisfies; the nodes of [X] are being
    expanded, and need not be closed yet. *)
Record bfs_inv (tips : list Tip) (X : Tip -> Prop) (st : bfs_state) : Prop := {
  inv_store : b_nodes st ⊆ store;
  inv_pending : forall t, t ∈ pending st -> is_Some (b_nodes st !! t);
  inv_nodup : NoDup (pending st);
  inv_reach : forall t, is_Some (b_nodes st !! t) -> reach tips t;
  inv_closed : forall t eff d, b_nodes st !! t = Some eff -> t ∉ pending st -> ~ X t ->
    d ∈ keyDeps key eff -> is_Some (b_nodes st !! d);
  inv_frontier : forall t eff, b_nodes st !! t = Some eff -> is_standalone_sub eff = false ->
    t ∈ pending st \/ keyDeps key eff = [] -> t ∈ b_frontier st;
}.

(** Iterations left: entries to pop, and nodes that can still become entries. *)
Definition bfs_measure st : nat := length (pending st) + (size store - size (b_nodes st)).

Lemma pending_enqueue t eff st : pending (enqueue t eff st) ≡ₚ t :: pending st.
Proof.
  unfold pending, enqueue. destruct (is_state_snapshot eff); simpl.
  - rewrite app_assoc. by rewrite Permutation_app_comm.
  - by rewrite <- app_assoc, Permutation_middle.
Qed.

(** A new node, its frontier entry and its queue entry. *)
Definition join_node (front : bool) t eff st : bfs_state :=
  enqueue t eff ((if front then add_frontier t else id) (add_node t eff st)).

Lemma join_nodes front t eff st : b_nodes (join_node front t eff st) = <[ t := eff ]> (b_nodes st).
Proof. unfold join_node, enqueue. by destruct (is_state_snapshot eff), front. Qed.

Lemma join_frontier front t eff st :
  b_frontier (join_node front t eff st) = (if front then {[ t ]} ∪ b_frontier st else b_frontier st).
Proof. unfold join_node, enqueue. by destruct (is_state_snapshot eff), front. Qed.

Lemma join_pending front t eff st : pending (join_node front t eff st) ≡ₚ t :: pending st.
Proof. unfold join_node. rewrite pending_enqueue. by destruct front. Qed.

Lemma bfs_join_inv tips X front t eff st :
  bfs_inv tips X st -> b_nodes st !! t = None -> store !! t = Some eff -> reach tips t ->
  front = true \/ is_standalone_sub eff = true ->
  bfs_inv tips X (join_node front t eff st).
Proof.
  intros [Hs Hp Hn Hr Hc Hf] Ht Heff Hreach Hfront.
  assert (t ∉ pending st) as Htp by (intros [? E]%Hp; congruence).
  split; rewrite ?join_nodes, ?join_frontier; try setoid_rewrite join_pending.
  - by apply insert_subseteq_l.
  - intros x Hx. apply elem_of_cons in Hx as [->|Hx].
    + rewrite lookup_insert_eq. eauto.
    + destruct (decide (t = x)) as [->|]; [rewrite lookup_insert_eq; eauto|].
      rewrite lookup_insert_ne by done. eauto.
  - by constructor.
  - intros x. destruct (decide (t = x)) as [->|]; [done|]. rewrite lookup_insert_ne by done. eauto.
  - intros x e d Hx Hnp HX Hd. apply not_elem_of_cons in Hnp. destruct Hnp as [Hne Hnp].
    rewrite lookup_insert_ne in Hx by done. destruct (decide (t = d)) as [->|].
    + rewrite lookup_insert_eq. eauto.
    + rewrite lookup_insert_ne by done. eauto.
  - intros x e Hx Hsub Hor. destruct (decide (t = x)) as [->|Hne].
    + rewrite lookup_insert_eq in Hx. injection Hx as ->.
      destruct Hfront as [->|]; [set_solver|congruence].
    + rewrite lookup_insert_ne in Hx by done.
      assert (x ∈ b_frontier st) by (eapply Hf; [done..|]; destruct Hor as [[->|?]%elem_of_cons|]; auto; done).
      destruct front; set_solver.
Qed.

Lemma join_measure front t eff st :
  b_nodes st ⊆ store -> b_nodes st !! t = None -> store !! t = Some eff ->
  bfs_measure (join_node front t eff st) = bfs_measure st.
Proof.
  intros Hs Ht He. unfold bfs_measure. rewrite (Permutation_length (join_pending _ _ _ _)), join_nodes.
  assert (size (<[ t := eff ]> (b_nodes st)) <= size store)%nat as Hle
    by (apply map_subseteq_size; by apply insert_subseteq_l).
  rewrite map_size_insert_None in * by done. simpl. lia.
Qed.

Lemma add_frontier_inv tips X t st : bfs_inv tips X st -> bfs_inv tips X (add_frontier t st).
Proof.
  intros [Hs Hp Hn Hr Hc Hf]. split; try done.
  intros x eff Hx Hsub Hor. simpl. apply elem_of_union. right. eapply Hf; done.
Qed.

(** What one visit does, to a dependency or to a tip. *)
Lemma visit_inv tips X st st' t :
  visit_tip store key st t = Some st' \/ visit_dep store key st t = Some st' ->
  bfs_inv tips X st -> reach tips t ->
  bfs_inv tips X st' /\ b_nodes st ⊆ b_nodes st' /\ is_Some (b_nodes st' !! t)
    /\ bfs_measure st' = bfs_measure st.
Proof.
  intros Hv Hi Hr. pose proof (inv_store _ _ _ Hi) as Hs. unfold visit_tip, visit_dep, getEffect in Hv.
  destruct (b_nodes st !! t) as [eff|] eqn:E.
  - assert (st' = st \/ st' = add_frontier t st) as [-> | ->]
      by (destruct Hv as [[= ->]|[= <-]]; [auto|destruct (is_standalone_sub eff); auto]).
    + eauto.
    + split; [by apply add_frontier_inv|]. simpl. rewrite E. eauto.
  - destruct (store !! t) as [eff|] eqn:Es; simpl in Hv; [|by destruct Hv].
    assert (exists front, st' = join_node front t eff st /\ (front = true \/ is_standalone_sub eff = true))
      as (front & -> & Hfront).
    { destruct Hv as [[= <-]|[= <-]].
      - exists (negb (is_standalone_sub eff)). unfold join_node. destruct (is_standalone_sub eff); auto.
      - exists true. auto. }
    split; [by apply bfs_join_inv|]. split; [|split; [|by apply join_measure]]; rewrite join_nodes.
    + by apply insert_subseteq.
    + rewrite lookup_insert_eq. eauto.
Qed.

Lemma visit_all_inv tips X (f : bfs_state -> Tip -> option bfs_state) l st st' :
  (f = visit_tip store key \/ f = visit_dep store key) ->
  fold_opt f l st = Some st' -> bfs_inv tips X st -> (forall t, t ∈ l -> reach tips t) ->
  bfs_inv tips X st' /\ b_nodes st ⊆ b_nodes st' /\ (forall t, t ∈ l -> is_Some (b_nodes st' !! t))
    /\ bfs_measure st' = bfs_measure st.
Proof.
  intros Hf. revert st. induction l as [|t l IH]; simpl; intros st E Hi Hl.
  - injection E as <-. split_and!; [done..| |done]. by intros ? ?%elem_of_nil.
  - destruct (f st t) as [st1|] eqn:Ev; [|done].
    destruct (visit_inv tips X st st1 t) as (Hi1 & Hs1 & Ht & Hm1).
    { destruct Hf as [-> | ->]; auto. } { done. } { apply Hl. constructor. }
    destruct (IH st1 E Hi1) as (Hi2 & Hs2 & Hall & Hm2). { intros x Hx. apply Hl. by constructor. }
    split_and!; [done|by etrans| |congruence].
    intros x [->|Hx]%elem_of_cons; [|auto]. destruct Ht as [e He]. exists e. by eapply lookup_weaken.
Qed.

Lemma pop_pending st cur st' :
  pop st = Some (cur, st') -> pending st = cur :: pending st' /\ b_nodes st' = b_nodes st
    /\ b_frontier st' = b_frontier st.
Proof.
  unfold pop, pending. destruct (b_queue st) as [|t q].
  - destruct (b_snaps st) as [|t s]; [done|]. intros [= <- <-]. done.
  - intros [= <- <-]. done.
Qed.

Lemma pop_none st : pop st = None -> pending st = [].
Proof. unfold pop, pending. destruct (b_queue st); [|done]. by destruct (b_snaps st). Qed.

Lemma pop_inv tips st cur st' :
  pop st = Some (cur, st') -> bfs_inv tips (fun _ => False) st ->
  bfs_inv tips (eq cur) st' /\ (cur ∉ pending st') /\ S (bfs_measure st') = bfs_measure st.
Proof.
  intros (Hp & Hn & Hfr)%pop_pending [Is Ip In Ir Ic If].
  unfold bfs_measure. rewrite Hp, <- Hn in *. apply list.NoDup_cons in In as [Hcur In].
  split; [|by simpl]. split; rewrite ?Hfr; try done.
  - intros t Ht. apply Ip. by constructor.
  - intros t eff d Ht Hnp Hne. apply (Ic t eff d); [done| |auto].
    intros [->|?]%elem_of_cons; [by apply Hne|done].
  - intros t eff Ht Hsub Hor. apply (If t eff); [done..|]. destruct Hor; [left; by constructor|auto].
Qed.

(** A visit fails on an effect the store does not hold. *)
Lemma visit_missing (f : bfs_state -> Tip -> option bfs_state) st t :
  (f = visit_tip store key \/ f = visit_dep store key) ->
  f st t = None -> store !! t = None.
Proof.
  intros [-> | ->]; unfold visit_tip, visit_dep, getEffect; destruct (b_nodes st !! t); try done;
    by destruct (store !! t).
Qed.

Lemma visit_all_missing tips (f : bfs_state -> Tip -> option bfs_state) l st :
  (f = visit_tip store key \/ f = visit_dep store key) ->
  fold_opt f l st = None -> (forall t, t ∈ l -> reach tips t) ->
  exists t, reach tips t /\ store !! t = None.
Proof.
  intros Hf He Hl. destruct (fold_opt_none f l st He) as (t & s & Ht & Hn).
  exists t. split; [auto|]. by eapply visit_missing.
Qed.

Lemma dep_reach tips X cur eff st d :
  bfs_inv tips X st -> b_nodes st !! cur = Some eff -> d ∈ keyDeps key eff -> reach tips d.
Proof.
  intros Hi Hcur Hd. destruct (inv_reach _ _ _ Hi cur) as (tip & Htip & Hpath); [eauto|].
  exists tip. split; [done|]. eapply rtc_r; [done|]. exists eff. split; [|done].
  eapply lookup_weaken; [done|]. apply Hi.
Qed.

Lemma expand_missing tips X cur eff st :
  bfs_inv tips X st -> b_nodes st !! cur = Some eff -> expand store key cur eff st = None ->
  exists t, reach tips t /\ store !! t = None.
Proof.
  intros Hi Hcur. unfold expand. destruct (keyDeps key eff) as [|d0 ds] eqn:Ed; [done|].
  rewrite <- Ed. intros He. eapply visit_all_missing; [by right|exact He|].
  intros t Ht. by eapply dep_reach.
Qed.

Lemma expand_inv tips cur eff st st' :
  b_nodes st !! cur = Some eff -> cur ∉ pending st ->
  bfs_inv tips (eq cur) st -> expand store key cur eff st = Some st' ->
  bfs_inv tips (fun _ => False) st' /\ b_nodes st ⊆ b_nodes st' /\ bfs_measure st' = bfs_measure st.
Proof.
  intros Hcur Hnp Hi He.
  assert (forall st2, bfs_inv tips (eq cur) st2 -> b_nodes st ⊆ b_nodes st2 ->
    (forall d, d ∈ keyDeps key eff -> is_Some (b_nodes st2 !! d)) -> bfs_inv tips (fun _ => False) st2) as Hclose.
  { intros st2 [Is Ip In Ir Ic If] Hsub Hd. split; try done. intros t e d Ht Hp _ Hdep.
    destruct (decide (cur = t)) as [<-|]; [|by eapply Ic].
    apply Hd. eapply lookup_weaken in Hcur; [|exact Hsub]. by simplify_eq. }
  unfold expand in He. destruct (keyDeps key eff) as [|d0 ds] eqn:Ed.
  - injection He as <-. split; [|done]. apply Hclose; [done..|]. by intros d ?%elem_of_nil.
  - assert (bfs_inv tips (eq cur) (del_frontier cur st)) as Hi'.
    { destruct Hi as [Is Ip In Ir Ic If]. split; try done.
      intros t e Ht Hsub Hor. simpl. apply elem_of_difference. split; [by eapply If|].
      intros ->%elem_of_singleton. simpl in Ht. destruct Hor as [?|Hnil]; [done|]. congruence. }
    rewrite <- Ed in *. eapply visit_all_inv in He as (Hi2 & Hs2 & Hall & Hm); [|by right|exact Hi'|].
    + split; [by apply Hclose|]. rewrite Hm. done.
    + intros d Hd. by eapply dep_reach.
Qed.

(** ** What the exploration returns *)

(** The contract of [bfs]: the nodes are reachable effects of the store, closed
    under dependencies except at the common snapshot; if one is reported, it
    carries a state and no other node is a root, standalone subscriptions
    apart. *)
Record explored (tips : list Tip) (nodes : Store) (lca : Tip) : Prop := {
  exp_store : nodes ⊆ store;
  exp_reach : forall t, is_Some (nodes !! t) -> reach tips t;
  exp_closed : forall t eff d, nodes !! t = Some eff -> t <> lca ->
    d ∈ keyDeps key eff -> is_Some (nodes !! d);
  exp_lca : lca <> zero_tip -> exists eff, nodes !! lca = Some eff /\ is_state_snapshot eff = true;
  exp_roots : lca <> zero_tip -> forall t eff, nodes !! t = Some eff -> t <> lca ->
    is_standalone_sub eff = false -> keyDeps key eff <> [];
}.

Lemma standalone_no_deps eff : is_standalone_sub eff = true -> keyDeps key eff = [].
Proof.
  unfold is_standalone_sub, keyDeps, get_subscription, get_txn_bind.
  destruct (e_kind eff) as [k|]; [destruct k|]; try done; by destruct (e_deps eff).
Qed.

Lemma snapshot_not_standalone eff : is_state_snapshot eff = true -> is_standalone_sub eff = false.
Proof.
  unfold is_standalone_sub, is_state_snapshot, get_subscription, get_snapshot.
  destruct (e_kind eff) as [k|]; [by destruct k|done].
Qed.

(** The walk stopped at a pending snapshot that is all of the frontier. *)
Lemma stop_explored tips cur eff st st' :
  bfs_inv tips (fun _ => False) st -> pop st = Some (cur, st') ->
  b_nodes st' !! cur = Some eff -> is_state_snapshot eff = true -> size (b_frontier st') = 1%nat ->
  explored tips (b_nodes st') cur.
Proof.
  intros Hi Hpop Hcur Hsnap Hsize.
  destruct (pop_inv _ _ _ _ Hpop Hi) as (Hi' & Hnp & _).
  apply pop_pending in Hpop as (Hp & Hn & Hf).
  assert (b_frontier st' = {[ cur ]}) as Hfr.
  { assert (cur ∈ b_frontier st') as Hin.
    { rewrite Hf. eapply (inv_frontier _ _ _ Hi cur eff).
      - by rewrite <- Hn.
      - by apply snapshot_not_standalone.
      - left. rewrite Hp. constructor. }
    destruct (size_1_elem_of _ Hsize) as [x Hx%leibniz_equiv].
    rewrite Hx in Hin |- *. by apply elem_of_singleton in Hin as ->. }
  assert (forall t e, b_nodes st' !! t = Some e -> t <> cur -> is_standalone_sub e = false ->
            (t ∉ pending st') /\ keyDeps key e <> []) as Hdone.
  { intros t e Ht Hne Hsub. split; [intros Hpe|intros Hd];
      (assert (t ∈ b_frontier st') as Hin by (eapply (inv_frontier _ _ _ Hi'); eauto));
      rewrite Hfr in Hin; by apply elem_of_singleton in Hin. }
  split; [apply Hi'|apply Hi'| | |].
  - intros t e d Ht Hne Hd. destruct (is_standalone_sub e) eqn:Hsub.
    + apply standalone_no_deps in Hsub. rewrite Hsub in Hd. by apply elem_of_nil in Hd.
    + destruct (Hdone t e) as [? _]; [done..|]. eapply (inv_closed _ _ _ Hi'); eauto.
  - eauto.
  - intros _ t e Ht Hne Hsub. by eapply Hdone.
Qed.

(** The walk drained. *)
Lemma drained_explored tips st :
  bfs_inv tips (fun _ => False) st -> pop st = None -> explored tips (b_nodes st) (drained_lca st).
Proof.
  intros Hi Hp%pop_none. split; [apply Hi|apply Hi| | |].
  - intros t eff d Ht _. eapply (inv_closed _ _ _ Hi); [done| |auto]. rewrite Hp. apply not_elem_of_nil.
  - unfold drained_lca. repeat case_match; try done. eauto.
  - intros Hne t eff Ht Htne Hsub Hd.
    assert (t ∈ b_frontier st) as Hin by (eapply (inv_frontier _ _ _ Hi); eauto).
    apply Htne. apply elem_of_elements in Hin. unfold drained_lca in *.
    destruct (elements (b_frontier st)) as [|x [|]]; try done.
    apply list_elem_of_singleton in Hin as ->. by repeat case_match.
Qed.

Lemma bfs_loop_spec tips fuel st :
  bfs_inv tips (fun _ => False) st -> (bfs_measure st <= fuel)%nat ->
  match bfs_loop store key fuel st with
  | Done (nodes, lca) => explored tips nodes lca /\ b_nodes st ⊆ nodes
  | Missing => exists t, reach tips t /\ store !! t = None
  | OutOfFuel => False
  end.
Proof.
  revert st. induction fuel as [|fuel IH]; intros st Hi Hm; simpl;
    (destruct (pop st) as [[cur st']|] eqn:Hpop; [|by split; [apply drained_explored|]]).
  - apply (pop_inv _ _ _ _ Hpop) in Hi as (_ & _ & ?). lia.
  - destruct (pop_inv _ _ _ _ Hpop Hi) as (Hi' & Hnp & Hm').
    destruct (pop_pending _ _ _ Hpop) as (Hp & Hn & Hf).
    destruct (b_nodes st' !! cur) as [eff|] eqn:Hcur.
    2:{ destruct (inv_pending _ _ _ Hi cur) as [e He]; [rewrite Hp; constructor|congruence]. }
    destruct (is_state_snapshot eff && _) eqn:Hstop.
    { apply andb_true_iff in Hstop as [Hsnap Hsz%Nat.eqb_eq]. rewrite <- Hn.
      split; [by eapply stop_explored|done]. }
    destruct (expand store key cur eff st') as [st2|] eqn:He.
    + destruct (expand_inv _ _ _ _ _ Hcur Hnp Hi' He) as (Hi2 & Hsub2 & Hm2).
      specialize (IH st2 Hi2 ltac:(lia)).
      destruct (bfs_loop store key fuel st2) as [[nodes lca]| |]; [|done..].
      destruct IH as [? Hsub]. split; [done|]. rewrite <- Hn. by etrans.
    + by eapply expand_missing.
Qed.

Lemma bfs_spec tips :
  match bfs store key tips with
  | Done (nodes, lca) => explored tips nodes lca /\ (forall t, t ∈ tips -> is_Some (nodes !! t))
  | Missing => exists t, reach tips t /\ store !! t = None
  | OutOfFuel => False
  end.
Proof.
  unfold bfs. assert (forall t, t ∈ tips -> reach tips t) as Htips by (intros t Ht; exists t; by split).
  destruct (fold_opt (visit_tip store key) tips _) as [st|] eqn:E.
  - apply (visit_all_inv tips (fun _ => False)) in E as (Hi & _ & Hall & Hm); [|by left| |done].
    2:{ split; simpl; try (by intros ? ?%elem_of_nil); try (by intros ? [? ?]).
        - apply map_empty_subseteq.
        - constructor. }
    pose proof (bfs_loop_spec tips (size store) st Hi) as Hl. unfold bfs_measure in *. simpl in Hm.
    rewrite map_size_empty in Hm. specialize (Hl ltac:(lia)).
    destruct (bfs_loop store key (size store) st) as [[nodes lca]| |]; [|done..].
    destruct Hl as [? Hsub]. split; [done|]. intros t Ht. destruct (Hall t Ht) as [e He].
    exists e. by eapply lookup_weaken.
  - by eapply visit_all_missing; [left|..].
Qed.

(** One step into the past that does not start at [lca]. *)
Definition step_above (lca x y : Tip) : Prop := dep store key x y /\ x <> lca.

Lemma above_collected tips nodes lca tip x :
  explored tips nodes lca -> is_Some (nodes !! tip) -> rtc (step_above lca) tip x -> is_Some (nodes !! x).
Proof.
  intros He Htip. induction 1 as [|a b c [(eff & Ha & Hb) Hne] _ IH]; [done|]. apply IH.
  destruct Htip as [e Hea]. eapply (exp_closed _ _ _ He); [exact Hea|done|].
  eapply lookup_weaken in Hea; [|apply He]. by simplify_eq.
Qed.

End Bfs.

(** The exploration of a key's history ends for every set of effects and
    every tips, in one of two ways.  It reports a missing effect only if an
    effect reachable from the tips is indeed unavailable.  Otherwise it returns
    nodes that are effects of the history, reachable from the tips, that
    include every tip and are closed under the key's dependencies except below
    the common snapshot. *)
Theorem bfs_explores (store : Store) (key : bytes) (tips : list Tip) :
  match bfs store key tips with
  | Done (nodes, lca) =>
      nodes ⊆ store
      /\ (forall t, is_Some (nodes !! t) -> reach store key tips t)
      /\ (forall tip x, tip ∈ tips -> rtc (step_above store key lca) tip x -> is_Some (nodes !! x))
  | Missing => exists t, reach store key tips t /\ store !! t = None
  | OutOfFuel => False
  end.
Proof.
  pose proof (bfs_spec store key tips) as H. destruct (bfs store key tips) as [[nodes lca]| |]; [|done..].
  destruct H as [He Ht]. split_and!; [apply He|apply He|].
  intros tip x Htip. eapply above_collected; [done|auto].
Qed.

(** A snapshot the exploration reports as the common ancestor dominates
    the history: it carries a reduced state, and a path into the past from any
    tip that does not cross it can only end in a subscription without
    dependencies, which carries no data.  So no write is left behind when the
    walk starts from the snapshot's state. *)
Theorem lca_dominates (store : Store) (key : bytes) tips nodes lca :
  bfs store key tips = Done (nodes, lca) -> lca <> zero_tip ->
  (exists eff, store !! lca = Some eff /\ is_state_snapshot eff = true)
  /\ forall tip x eff, tip ∈ tips -> rtc (step_above store key lca) tip x -> x <> lca ->
       store !! x = Some eff -> keyDeps key eff = [] -> is_standalone_sub eff = true.
Proof.
  intros E Hz. pose proof (bfs_spec store key tips) as H. rewrite E in H. destruct H as [He Ht]. split.
  - destruct (exp_lca _ _ _ _ _ He Hz) as (eff & Hl & Hs). exists eff. split; [|done].
    eapply lookup_weaken; [done|]. apply He.
  - intros tip x eff Htip Hp Hne Hx Hd. apply not_false_iff_true. intros Hsub.
    destruct (above_collected _ _ _ _ _ _ _ He (Ht _ Htip) Hp) as [e Hn].
    assert (e = eff) as -> by (eapply lookup_weaken in Hn; [|apply He]; by simplify_eq).
    by eapply (exp_roots _ _ _ _ _ He Hz).
Qed.

(** ** Trimming *)

Section Trim.
Variable (key : bytes).
Implicit Types (nodes : Store) (stack : list Tip).

Lemma dep_weight_delete nodes cur eff :
  nodes !! cur = Some eff ->
  dep_weight key nodes = (length (keyDeps key eff) + dep_weight key (delete cur nodes))%nat.
Proof.
  intros H. unfold dep_weight.
  apply (map_fold_delete_L (fun _ eff acc => (length (keyDeps key eff) + acc)%nat) 0%nat cur eff nodes);
    [intros; lia|done].
Qed.

(** With enough fuel the loop removes what the stack reaches, and all of it. *)
Lemma trim_loop_spec fuel stack nodes :
  (length stack + dep_weight key nodes <= fuel)%nat ->
  let out := trim_loop key fuel stack nodes in
  out ⊆ nodes
  /\ (forall t, is_Some (nodes !! t) -> out !! t = None -> exists s, s ∈ stack /\ rtc (dep nodes key) s t)
  /\ (forall s, s ∈ stack -> out !! s = None)
  /\ (forall t eff d, nodes !! t = Some eff -> out !! t = None -> d ∈ keyDeps key eff -> out !! d = None).
Proof.
  revert stack nodes. induction fuel as [|fuel IH]; intros stack nodes Hf; simpl.
  - destruct stack; [|simpl in Hf; lia]. split_and!; [done| | |];
      [intros t [e He] ?; congruence|by intros s ?%elem_of_nil|congruence].
  - destruct stack as [|cur stack].
    { split_and!; [done| | |]; [intros t [e He] ?; congruence|by intros s ?%elem_of_nil|congruence]. }
    destruct (nodes !! cur) as [eff|] eqn:Hcur.
    + pose proof (dep_weight_delete _ _ _ Hcur) as Hw. simpl in Hf.
      destruct (IH (rev (keyDeps key eff) ++ stack) (delete cur nodes)) as (Hsub & Hreach & Hstk & Hcl).
      { rewrite length_app, length_rev. lia. }
      assert (delete cur nodes ⊆ nodes) as Hdel by apply delete_subseteq.
      assert (forall x y, rtc (dep (delete cur nodes) key) x y -> rtc (dep nodes key) x y) as Hmono.
      { intros x y. apply rtc_subrel. intros a b (e & Ha & Hb). exists e. split; [|done].
        by eapply lookup_weaken. }
      assert (trim_loop key fuel (rev (keyDeps key eff) ++ stack) (delete cur nodes) !! cur = None) as Hno.
      { eapply lookup_weaken_None; [|exact Hsub]. apply lookup_delete_eq. }
      split_and!.
      * by etrans.
      * intros t Ht Hout. destruct (decide (t = cur)) as [->|Hne]; [exists cur; split; [by constructor|done]|].
        destruct (Hreach t) as (s & Hs & Hp); [by rewrite lookup_delete_ne|done|].
        apply elem_of_app in Hs as [Hs|Hs].
        -- exists cur. split; [constructor|]. eapply rtc_l; [|by apply Hmono].
           exists eff. split; [done|]. by apply list_elem_of_In, in_rev, list_elem_of_In in Hs.
        -- exists s. split; [by constructor|auto].
      * intros s [->|Hs]%elem_of_cons; [done|]. apply Hstk, elem_of_app. auto.
      * intros t e d Ht Hout Hd. destruct (decide (t = cur)) as [->|Hne].
        -- simplify_eq. apply Hstk, elem_of_app. left. by apply list_elem_of_In, in_rev; rewrite rev_involutive; apply list_elem_of_In.
        -- eapply (Hcl t e); [by rewrite lookup_delete_ne|done..].
    + destruct (IH stack nodes) as (Hsub & Hreach & Hstk & Hcl); [simpl in Hf; lia|].
      split_and!; [done| | |done].
      * intros t Ht Hout. destruct (Hreach t Ht Hout) as (s & ? & ?). exists s. split; [by constructor|done].
      * intros s [->|Hs]%elem_of_cons; [by eapply lookup_weaken_None|auto].
Qed.

(** Below the snapshot: reachable from its dependencies. *)
Definition below nodes (lca t : Tip) : Prop :=
  exists eff d, nodes !! lca = Some eff /\ d ∈ e_deps eff /\ rtc (dep nodes key) d t.

Lemma trim_dropped nodes lca t :
  is_Some (nodes !! t) -> trimAncestorsOfLCA key nodes lca !! t = None -> below nodes lca t.
Proof.
  intros [e He]. unfold trimAncestorsOfLCA. destruct (decide (lca = zero_tip)); [congruence|].
  destruct (nodes !! lca) as [el|] eqn:Hl; [|congruence]. destruct (get_snapshot el); [|congruence].
  destruct (trim_loop_spec (length (e_deps el) + dep_weight key nodes) (rev (e_deps el)) nodes)
    as (_ & Hreach & _). { by rewrite length_rev. }
  intros Hn. destruct (Hreach t) as (d & Hs & Hp); [eauto|done|].
  exists el, d. split; [done|]. split; [|done]. by apply list_elem_of_In, in_rev, list_elem_of_In in Hs.
Qed.

Lemma trim_spec nodes lca :
  lca <> zero_tip -> (exists eff, nodes !! lca = Some eff /\ is_state_snapshot eff = true) ->
  forall t eff, trimAncestorsOfLCA key nodes lca !! t = Some eff
    <-> nodes !! t = Some eff /\ ~ below nodes lca t.
Proof.
  intros Hz (el & Hl & Hs) t eff. unfold trimAncestorsOfLCA. rewrite decide_False, Hl by done.
  destruct (get_snapshot el) as [sn|] eqn:Hg; [|by unfold is_state_snapshot in Hs; rewrite Hg in Hs].
  destruct (trim_loop_spec (length (e_deps el) + dep_weight key nodes) (rev (e_deps el)) nodes)
    as (Hsub & _ & Hstk & Hcl). { by rewrite length_rev. }
  assert (forall d, d ∈ rev (e_deps el) <-> d ∈ e_deps el) as Hrev
    by (intros d; by rewrite !list_elem_of_In, <- in_rev).
  set (out := trim_loop key _ _ nodes) in *. split.
  - intros Hout. split; [by eapply lookup_weaken|]. intros (e' & d & He' & Hd & Hp). simplify_eq.
    assert (out !! d = None) as Hnone by (apply Hstk, Hrev; done). clear Hd.
    revert Hnone. induction Hp as [|a b c (e & Ha & Hb) _ IH]; [congruence|].
    intros Hnone. apply IH; [done|]. by eapply Hcl.
  - intros [Ht Hno]. destruct (out !! t) as [e|] eqn:E.
    + eapply lookup_weaken in E; [|exact Hsub]. congruence.
    + exfalso. apply Hno, trim_dropped; [eauto|]. unfold trimAncestorsOfLCA.
      by rewrite decide_False, Hl, Hg by done.
Qed.

Lemma trim_zero nodes : trimAncestorsOfLCA key nodes zero_tip = nodes.
Proof. unfold trimAncestorsOfLCA. by rewrite decide_True. Qed.

End Trim.

(** The trim keeps every collected effect that the common snapshot does
    not already account for and drops every one it does: what is reachable from
    the snapshot's dependencies. *)
Theorem trim_exact (store : Store) (key : bytes) tips nodes lca t eff :
  bfs store key tips = Done (nodes, lca) -> lca <> zero_tip ->
  trimAncestorsOfLCA key nodes lca !! t = Some eff
    <-> nodes !! t = Some eff /\ ~ below key nodes lca t.
Proof.
  intros E Hz. pose proof (bfs_spec store key tips) as H. rewrite E in H. destruct H as [He _].
  apply trim_spec; [done|]. by apply (exp_lca _ _ _ _ _ He).
Qed.
