(* ===== verification/DagOrder.v ===== *)
(** * Properties of the DAG walk: causal order

    The depth-first collection lists every node once, each after all of its
    dependencies, and the order is the same on every replica that holds the
    same effects. *)

From S2P Require Import Prelude Golib Proto Store Walk Dag DagProps.

Section Order.
Context {sorter : SortFunc}.
Variable (key : bytes) (nodes : Store) (lca : Tip).
Implicit Types (t x y : Tip) (v : gset Tip) (o : list Tip).

(** The dependencies the collection follows: those that were collected, except
    from the common snapshot. *)
Definition edge x y : Prop :=
  exists eff, nodes !! x = Some eff /\ is_lca_snapshot lca x eff = false
    /\ y ∈ keyDeps key eff /\ is_Some (nodes !! y).

(** Every dependency of a listed node is listed before it. *)
Definition causal o : Prop :=
  forall i x y, o !! i = Some x -> edge x y -> exists j, (j < i)%nat /\ o !! j = Some y.

Lemma causal_snoc o t : causal o -> (forall y, edge t y -> y ∈ o) -> causal (o ++ [t]).
Proof.
  intros Hc Ht i x y Hi He. apply lookup_app_Some in Hi as [Hi|[Hlen Hi]].
  - destruct (Hc i x y Hi He) as (j & ? & Hj). exists j. split; [done|].
    by apply lookup_app_l_Some.
  - apply list_lookup_singleton_Some in Hi as [Hz <-].
    destruct (proj1 (list_elem_of_lookup _ _) (Ht y He)) as [j Hj]. exists j.
    split; [apply lookup_lt_Some in Hj; lia|by apply lookup_app_l_Some].
Qed.

Lemma causal_closed o x y : causal o -> x ∈ o -> edge x y -> y ∈ o.
Proof.
  intros Hc [i Hi]%list_elem_of_lookup He. destruct (Hc i x y Hi He) as (j & _ & Hj).
  by eapply list_elem_of_lookup_2.
Qed.

Lemma causal_path o x y : causal o -> x ∈ o -> rtc edge x y -> y ∈ o.
Proof. intros Hc Hx. induction 1; [done|]. by eauto using causal_closed. Qed.

Lemma elem_of_with_effects ts t eff : (t, eff) ∈ with_effects nodes ts <-> t ∈ ts /\ nodes !! t = Some eff.
Proof.
  unfold with_effects. rewrite list_elem_of_omap. split.
  - intros (x & Hx & Hf). destruct (nodes !! x) eqn:E; simpl in Hf; [|done]. by simplify_eq.
  - intros [Ht He]. exists t. split; [done|]. by rewrite He.
Qed.

(** A visited node that is not listed yet is on the path to the current call. *)
Record topo_inv v o : Prop := {
  ti_nodup : NoDup o;
  ti_causal : causal o;
  ti_listed : forall x, x ∈ o -> x ∈ v /\ is_Some (nodes !! x);
}.

(** What a call for the nodes [ts] does to a state. *)
Record topo_step (ts : list Tip) v o v' o' : Prop := {
  ts_inv : topo_inv v' o';
  ts_visited : v ⊆ v';
  ts_keeps : forall x, x ∈ o -> x ∈ o';
  ts_lists : forall t, t ∈ ts -> is_Some (nodes !! t) -> t ∈ o';
  ts_open : forall x, x ∈ v' -> is_Some (nodes !! x) -> x ∈ o' \/ (x ∈ v /\ x ∉ o);
  ts_new : forall x, x ∈ o' -> x ∈ o \/ exists t, t ∈ ts /\ rtc edge t x;
}.

Lemma topo_step_refl v o : topo_inv v o -> topo_step [] v o v o.
Proof.
  intros Hi. split; try done.
  - by intros t ?%elem_of_nil.
  - intros x Hx Hn. destruct (decide (x ∈ o)); auto.
  - auto.
Qed.

Lemma topo_step_cons t ts v1 o1 v2 o2 v3 o3 :
  topo_step [t] v1 o1 v2 o2 -> topo_step ts v2 o2 v3 o3 -> topo_step (t :: ts) v1 o1 v3 o3.
Proof.
  intros [I1 V1 K1 L1 O1 N1] [I2 V2 K2 L2 O2 N2]. split; [done|by etrans|auto| | |].
  - intros x [->|Hx]%elem_of_cons Hn; [|auto]. apply K2, L1; [by constructor|done].
  - intros x Hx Hn. destruct (O2 x Hx Hn) as [|[Hv Hno]]; [auto|].
    destruct (O1 x Hv Hn) as [|]; [done|auto].
  - intros x Hx. destruct (N2 x Hx) as [Ho|(t' & Ht' & Hp)].
    + destruct (N1 x Ho) as [|(t' & ->%list_elem_of_singleton & Hp)]; [auto|].
      right. exists t. split; [constructor|done].
    + right. exists t'. split; [by constructor|done].
Qed.

Lemma topo_step_weaken ts ts' v o v' o' :
  topo_step ts v o v' o' -> (forall t, t ∈ ts -> t ∈ ts') ->
  (forall t, t ∈ ts' -> is_Some (nodes !! t) -> t ∈ ts) -> topo_step ts' v o v' o'.
Proof.
  intros [I V K L O N] H1 H2. split; try done.
  - intros t Ht Hn. apply L; auto.
  - intros x Hx. destruct (N x Hx) as [|(t & Ht & Hp)]; [auto|]. right. eauto.
Qed.

Section Ranked.
Variable (rank : Tip -> nat).
Hypothesis edge_rank : forall x y, edge x y -> (rank y < rank x)%nat.

(** Precondition of a call for [t]: enough fuel for the nodes not visited, and
    the open nodes are above [t]. *)
Definition topo_pre (fuel : nat) v o t : Prop :=
  topo_inv v o /\ (size (dom nodes ∖ v) < fuel)%nat
  /\ (forall g, g ∈ v -> is_Some (nodes !! g) -> g ∉ o -> (rank t < rank g)%nat).

Definition topo_ok (fuel : nat) : Prop :=
  forall v o t, topo_pre fuel v o t ->
    let st := topoCollect key fuel nodes lca (v, o) t in topo_step [t] v o st.1 st.2.

Lemma topo_pre_step fuel t t' ts v o v' o' :
  topo_step ts v o v' o' -> topo_pre fuel v o t -> (rank t' <= rank t)%nat -> topo_pre fuel v' o' t'.
Proof.
  intros [I V K L O N] (Hi & Hf & Hg) Hr. split; [done|]. split.
  - eapply Nat.le_lt_trans; [|exact Hf]. apply subseteq_size. set_solver.
  - intros g Hgv Hn Hno. destruct (O g Hgv Hn) as [|[Hv Ho]]; [done|].
    specialize (Hg g Hv Hn Ho). lia.
Qed.

Lemma topo_fold (fuel : nat) ts v o :
  topo_ok fuel -> topo_inv v o -> (forall t, t ∈ ts -> topo_pre fuel v o t) ->
  let st := fold_left (fun s t => topoCollect key fuel nodes lca s t) ts (v, o) in
  topo_step ts v o st.1 st.2.
Proof.
  intros IH. revert v o. induction ts as [|t ts IHts]; intros v o Hi Hpre; simpl; [by apply topo_step_refl|].
  assert (topo_pre fuel v o t) as Ht by (apply Hpre; constructor).
  specialize (IH v o t Ht). simpl in IH.
  destruct (topoCollect key fuel nodes lca (v, o) t) as [v1 o1]. simpl in IH.
  eapply topo_step_cons; [exact IH|]. apply IHts; [apply IH|].
  intros t' Ht'. eapply topo_pre_step; [exact IH| |done]. apply Hpre. by constructor.
Qed.

(** A node that has just been visited, with all its dependencies listed. *)
Lemma topo_close t eff v o v' o' :
  nodes !! t = Some eff -> is_lca_snapshot lca t eff = false -> t ∉ v -> topo_inv v o ->
  (forall g, g ∈ v -> is_Some (nodes !! g) -> g ∉ o -> (rank t < rank g)%nat) ->
  topo_step (keyDeps key eff) ({[ t ]} ∪ v) o v' o' -> topo_step [t] v o v' (o' ++ [t]).
Proof.
  intros Ht Hlca Hnv Hi Hg [I V K L O N].
  assert (t ∉ o) as Hto by (intros H; apply Hnv; by apply (ti_listed _ _ Hi)).
  assert (t ∉ o') as Hto'.
  { intros H. destruct (N t H) as [|(d & Hd & Hp)]; [done|].
    destruct (nodes !! d) as [ed|] eqn:Ed.
    - assert (edge t d) as He by (exists eff; split_and!; eauto).
      pose proof (edge_rank _ _ He). pose proof (ranked_rtc _ _ _ _ edge_rank Hp). lia.
    - inversion Hp as [|a b c (e & Ha & _)]; subst; congruence. }
  assert (forall y, edge t y -> y ∈ o') as Hdeps.
  { intros y (e & He & _ & Hy & Hn). simplify_eq. auto. }
  split.
  - split.
    + apply list.NoDup_app. split; [apply I|]. split; [|apply list.NoDup_singleton].
      by intros x Hx ->%list_elem_of_singleton.
    + apply causal_snoc; [apply I|done].
    + intros x [Hx| ->%list_elem_of_singleton]%elem_of_app; [by apply I|].
      split; [apply V; set_solver|eauto].
  - set_solver.
  - intros x Hx. apply elem_of_app. auto.
  - intros x ->%list_elem_of_singleton _. apply elem_of_app. right. by constructor.
  - intros x Hx Hn. rewrite elem_of_app, list_elem_of_singleton.
    destruct (O x Hx Hn) as [|[[->%elem_of_singleton|]%elem_of_union ?]]; auto.
  - intros x [Hx| ->%list_elem_of_singleton]%elem_of_app.
    + destruct (N x Hx) as [|(d & Hd & Hp)]; [auto|]. right. exists t. split; [by constructor|].
      eapply rtc_l; [|exact Hp]. exists eff. split_and!; [done..|].
      apply I in Hx as [_ Hx]. inversion Hp as [|a b c (e & Ha & _)]; subst; eauto.
    + right. exists t. split; [by constructor|done].
Qed.

Lemma topo_visit_leaf t v o :
  topo_inv v o -> nodes !! t = None -> topo_step [t] v o ({[ t ]} ∪ v) o.
Proof.
  intros Hi Ht. split.
  - destruct Hi as [? ? H]. split; [done..|]. intros x Hx. destruct (H x Hx). set_solver.
  - set_solver.
  - done.
  - intros x ->%list_elem_of_singleton [e He]. congruence.
  - intros x [->%elem_of_singleton|Hx]%elem_of_union [e He]; [congruence|].
    destruct (decide (x ∈ o)); auto.
  - auto.
Qed.

Lemma topo_visit_again t v o :
  topo_inv v o -> t ∈ v ->
  (forall g, g ∈ v -> is_Some (nodes !! g) -> g ∉ o -> (rank t < rank g)%nat) -> topo_step [t] v o v o.
Proof.
  intros Hi Hv Hg. split; try done.
  - intros x ->%list_elem_of_singleton Hn. destruct (decide (t ∈ o)); [done|].
    specialize (Hg t Hv Hn ltac:(done)). lia.
  - intros x Hx Hn. destruct (decide (x ∈ o)); auto.
  - auto.
Qed.

(** The common snapshot is listed without its past. *)
Lemma topo_visit_lca t eff v o :
  topo_inv v o -> t ∉ v -> nodes !! t = Some eff -> is_lca_snapshot lca t eff = true ->
  topo_step [t] v o ({[ t ]} ∪ v) (o ++ [t]).
Proof.
  intros Hi Hv Ht Hl. destruct Hi as [Hn Hc Hli].
  assert (t ∉ o) by (intros Ho; apply Hv; by apply Hli).
  split.
  - split.
    + apply list.NoDup_app. split; [done|]. split; [|apply list.NoDup_singleton].
      by intros x Hx ->%list_elem_of_singleton.
    + apply causal_snoc; [done|]. intros y (e & He & Hf & _). simplify_eq. congruence.
    + intros x [Hx| ->%list_elem_of_singleton]%elem_of_app; [destruct (Hli x Hx); set_solver|].
      split; [set_solver|eauto].
  - set_solver.
  - intros x Hx. apply elem_of_app. auto.
  - intros x ->%list_elem_of_singleton _. apply elem_of_app. right. by constructor.
  - intros x [->%elem_of_singleton|Hx]%elem_of_union Hnx; rewrite elem_of_app, list_elem_of_singleton; [auto|].
    destruct (decide (x ∈ o)); auto.
  - intros x [Hx| ->%list_elem_of_singleton]%elem_of_app; [auto|].
    right. exists t. split; [by constructor|done].
Qed.

(** Opening a node keeps the precondition for its dependencies. *)
Lemma topo_open fuel t eff v o d :
  topo_pre (S fuel) v o t -> t ∉ v -> nodes !! t = Some eff -> is_lca_snapshot lca t eff = false ->
  d ∈ keyDeps key eff -> topo_pre fuel ({[ t ]} ∪ v) o d \/ nodes !! d = None.
Proof.
  intros ([Hn Hc Hli] & Hf & Hg) Hv Ht Hl Hd.
  destruct (nodes !! d) as [ed|] eqn:Ed; [left|by right].
  assert (rank d < rank t)%nat as Hr by (apply edge_rank; exists eff; split_and!; eauto).
  split_and!.
  - split; [done..|]. intros x Hx. destruct (Hli x Hx). set_solver.
  - assert (size (dom nodes ∖ ({[t]} ∪ v)) < size (dom nodes ∖ v))%nat; [|lia].
    apply subset_size. apply elem_of_dom_2 in Ht. set_solver.
  - intros g [->%elem_of_singleton|Hgv]%elem_of_union Hgn Hgo; [done|].
    specialize (Hg g Hgv Hgn Hgo). lia.
Qed.

Lemma sorted_effects t ts : t ∈ (sort_func compareDagTips (with_effects nodes ts)).*1 <-> t ∈ ts /\ is_Some (nodes !! t).
Proof.
  rewrite list_elem_of_fmap. split.
  - intros ([x e] & -> & Hx%elem_of_sort_func%elem_of_with_effects). simpl. destruct Hx. eauto.
  - intros [Ht [e He]]. exists (t, e). split; [done|]. by apply elem_of_sort_func, elem_of_with_effects.
Qed.

(** The general branch of a call: sorted dependencies, one after the other. *)
Lemma topo_fork fuel t eff v o :
  topo_ok fuel -> topo_pre (S fuel) v o t -> t ∉ v -> nodes !! t = Some eff ->
  is_lca_snapshot lca t eff = false ->
  let st := fold_left (fun s de => topoCollect key fuel nodes lca s de.1)
              (sort_func compareDagTips (with_effects nodes (keyDeps key eff))) ({[ t ]} ∪ v, o) in
  topo_step (keyDeps key eff) ({[ t ]} ∪ v) o st.1 st.2.
Proof.
  intros IH Hpre Hv Ht Hl. cbv zeta. rewrite fold_left_fst.
  eapply topo_step_weaken; [apply topo_fold; [done| |]| |].
  - destruct Hpre as [[Hn Hc Hli] _]. split; [done..|]. intros x Hx. destruct (Hli x Hx). set_solver.
  - intros d [Hd [ed Hed]]%sorted_effects. destruct (topo_open _ _ _ _ _ _ Hpre Hv Ht Hl Hd); congruence.
  - by intros d [Hd _]%sorted_effects.
  - intros d Hd Hn. by apply sorted_effects.
Qed.

(** The branch for an ordinary effect with one dependency, which need not have
    been collected. *)
Lemma topo_chain fuel t eff v o d :
  topo_ok fuel -> topo_pre (S fuel) v o t -> t ∉ v -> nodes !! t = Some eff ->
  is_lca_snapshot lca t eff = false -> keyDeps key eff = [d] ->
  let st := topoCollect key fuel nodes lca ({[ t ]} ∪ v, o) d in
  topo_step [d] ({[ t ]} ∪ v) o st.1 st.2.
Proof.
  intros IH Hpre Hv Ht Hl Hd. pose proof Hpre as ([Hn Hc Hli] & _).
  destruct (topo_open fuel t eff v o d Hpre Hv Ht Hl) as [Hp|Hnone]; [rewrite Hd; by constructor|by apply IH|].
  assert (topo_inv ({[ t ]} ∪ v) o) as Hi.
  { split; [done..|]. intros x Hx. destruct (Hli x Hx). set_solver. }
  destruct fuel as [|fuel]; simpl.
  { exfalso. destruct Hpre as (_ & Hf & _). apply elem_of_dom_2 in Ht.
    assert (size (dom nodes ∖ v) = 0%nat) as Hz by lia. apply size_empty_inv in Hz. set_solver. }
  destruct (decide (d ∈ {[ t ]} ∪ v)) as [Hdv|Hdv]; simpl.
  - split; try done.
    + intros x ->%list_elem_of_singleton [e He]. congruence.
    + intros x Hx Hnx. destruct (decide (x ∈ o)); auto.
    + auto.
  - rewrite Hnone. simpl. by apply topo_visit_leaf.
Qed.

Lemma topo_all fuel : topo_ok fuel.
Proof.
  induction fuel as [|fuel IH]; intros v o t Hpre; [destruct Hpre as (_ & ? & _); lia|].
  pose proof Hpre as (Hi & Hf & Hg). simpl.
  destruct (decide (t ∈ v)) as [Hv|Hv]; [by apply topo_visit_again|].
  destruct (nodes !! t) as [eff|] eqn:Ht; [|by apply topo_visit_leaf].
  destruct (is_lca_snapshot lca t eff) eqn:Hl; [by eapply topo_visit_lca|].
  pose proof (topo_fork fuel t eff v o IH Hpre Hv Ht Hl) as Hfork.
  destruct (get_txn_bind eff) as [b|] eqn:Hb; [by eapply topo_close|].
  destruct (e_deps eff) as [|d [|]] eqn:Hd; [by eapply topo_close| |by eapply topo_close].
  assert (keyDeps key eff = [d]) as Hk by (unfold keyDeps; by rewrite Hb).
  eapply topo_close; [done..|]. rewrite Hk. by eapply topo_chain.
Qed.

Lemma topo_order_spec tips :
  let o := topo_order key nodes lca tips in
  NoDup o /\ causal o
  /\ (forall x, x ∈ o <-> exists tip, tip ∈ tips /\ is_Some (nodes !! tip) /\ rtc edge tip x).
Proof.
  cbv zeta. unfold topo_order. rewrite fold_left_fst.
  assert (topo_inv ∅ []) as Hi.
  { split; [constructor|by intros ? ? ?|by intros x ?%elem_of_nil]. }
  pose proof (topo_fold (S (size nodes)) (sort_func compareDagTips (with_effects nodes tips)).*1 ∅ []
    (topo_all _) Hi) as Hs. simpl in Hs.
  destruct Hs as [I V K L O N].
  { intros t Ht. split; [done|]. split; [|by intros g ?%elem_of_empty].
    rewrite difference_empty_L, size_dom. lia. }
  split; [apply I|]. split; [apply I|]. intros x. split.
  - intros Hx. destruct (N x Hx) as [?%elem_of_nil|(t & [Ht Hn]%sorted_effects & Hp)]; [done|]. eauto.
  - intros (t & Ht & Hn & Hp). eapply causal_path; [apply I| |done]. apply L; [by apply sorted_effects|done].
Qed.

End Ranked.
End Order.

(** ** The prepared walk *)

Lemma edge_dep (key : bytes) nodes lca x y : edge key nodes lca x y -> dep nodes key x y.
Proof. intros (eff & Hx & _ & Hy & _). by exists eff. Qed.

Lemma below_mono (key : bytes) (m1 m2 : Store) lca x : m1 ⊆ m2 -> below key m1 lca x -> below key m2 lca x.
Proof.
  intros Hs (eff & d & Hl & Hd & Hp). exists eff, d. split; [by eapply lookup_weaken|]. split; [done|].
  eapply rtc_subrel; [|exact Hp]. intros a b. by apply dep_mono.
Qed.

Lemma below_step (key : bytes) nodes lca x y : below key nodes lca x -> dep nodes key x y -> below key nodes lca y.
Proof. intros (eff & d & Hl & Hd & Hp) Hs. exists eff, d. split_and!; [done..|]. by eapply rtc_r. Qed.

Section Prepared.
Context {sorter : SortFunc}.
Variable (store : Store) (key : bytes) (tips : list Tip) (nodes : Store) (lca : Tip).
Hypothesis Hexp : explored store key tips nodes lca.
Hypothesis Htips : forall t, t ∈ tips -> is_Some (nodes !! t).
Let trimmed := trimAncestorsOfLCA key nodes lca.

Lemma trimmed_nodes : trimmed ⊆ nodes.
Proof.
  unfold trimmed. destruct (decide (lca = zero_tip)) as [E|E]; [by rewrite E, trim_zero|].
  apply map_subseteq_spec. intros t eff Ht. apply trim_spec in Ht; [by destruct Ht|done|].
  by apply (exp_lca _ _ _ _ _ Hexp).
Qed.

Lemma trimmed_or_below x : is_Some (nodes !! x) -> ~ below key nodes lca x -> is_Some (trimmed !! x).
Proof.
  intros [e He] Hb. unfold trimmed. destruct (decide (lca = zero_tip)) as [E|E]; [rewrite E, trim_zero; eauto|].
  exists e. apply trim_spec; [done|by apply (exp_lca _ _ _ _ _ Hexp)|done].
Qed.

Lemma lookup_agree x eff1 eff2 : nodes !! x = Some eff1 -> store !! x = Some eff2 -> eff1 = eff2.
Proof. intros H1 H2. eapply lookup_weaken in H1; [|apply Hexp]. congruence. Qed.

Lemma above_edge x y eff :
  trimmed !! x = Some eff -> x <> lca -> y ∈ keyDeps key eff -> is_Some (trimmed !! y) -> edge key trimmed lca x y.
Proof.
  intros Hx Hne Hy Hn. exists eff. split_and!; [done| |done..].
  unfold is_lca_snapshot. destruct (get_snapshot eff); [|done]. by apply bool_decide_eq_false.
Qed.

Lemma above_path tip x :
  rtc (step_above store key lca) tip x -> is_Some (nodes !! tip) -> ~ below key store lca x ->
  is_Some (trimmed !! tip) /\ rtc (edge key trimmed lca) tip x.
Proof.
  induction 1 as [x|a b c [(eff & Ha & Hb) Hne] Hp IH]; intros Hn Hno.
  - split; [|done]. apply trimmed_or_below; [done|]. contradict Hno. eapply below_mono; [|done]. apply Hexp.
  - destruct Hn as [e He]. pose proof (lookup_agree _ _ _ He Ha) as ->.
    destruct IH as [Hbt Hbp]; [by eapply (exp_closed _ _ _ _ _ Hexp)|done|].
    assert (~ below key nodes lca a) as Hna.
    { intros Hbl. apply Hno. eapply (below_mono _ _ store) in Hbl; [|apply Hexp].
      assert (dep store key a b) as Hd by (by exists eff).
      pose proof (below_step _ _ _ _ _ Hbl Hd) as Hbl'. clear - Hp Hbl'.
      induction Hp as [|x y z [Hd _] _ IHp]; [done|]. apply IHp. by eapply below_step. }
    assert (is_Some (trimmed !! a)) as [ea Hea] by (apply trimmed_or_below; eauto).
    split; [eauto|]. eapply rtc_l; [|exact Hbp]. eapply above_edge; [exact Hea|done| |done].
    eapply lookup_weaken in Hea; [|apply trimmed_nodes]. by simplify_eq.
Qed.

Lemma trimmed_rank rank : ranked store rank -> forall x y, edge key trimmed lca x y -> (rank y < rank x)%nat.
Proof.
  intros Hr x y He%edge_dep. eapply ranked_dep; [exact Hr|]. eapply dep_mono; [|exact He].
  etrans; [apply trimmed_nodes|apply Hexp].
Qed.

Lemma order_spec rank :
  ranked store rank ->
  let o := topo_order key trimmed lca tips in
  NoDup o
  /\ (forall i x y, o !! i = Some x -> x <> lca -> dep store key x y ->
        (exists j, (j < i)%nat /\ o !! j = Some y) \/ below key store lca y)
  /\ (forall tip x, tip ∈ tips -> rtc (step_above store key lca) tip x -> ~ below key store lca x -> x ∈ o)
  /\ (forall x, x ∈ o -> reach store key tips x).
Proof.
  intros Hr. destruct (topo_order_spec key trimmed lca rank (trimmed_rank rank Hr) tips) as (Hnd & Hc & Hin).
  split; [done|]. split_and!.
  - intros i x y Hi Hne (eff & Hx & Hy).
    assert (x ∈ topo_order key trimmed lca tips) as Ho by (by eapply list_elem_of_lookup_2).
    apply Hin in Ho as (tip & Htip & Hnt & Hp).
    assert (is_Some (trimmed !! x)) as [e He].
    { clear - Hp Hnt. induction Hp as [|a b c (? & _ & _ & _ & Hb) _ IH]; [done|]. by apply IH. }
    pose proof (lookup_weaken _ _ _ _ He trimmed_nodes) as Hen. pose proof (lookup_agree _ _ _ Hen Hx) as ->.
    assert (is_Some (nodes !! y)) as Hyn by (by eapply (exp_closed _ _ _ _ _ Hexp)).
    destruct (trimmed !! y) as [ey|] eqn:Hyt.
    + left. eapply Hc; [done|]. by eapply above_edge.
    + right. eapply below_mono; [apply Hexp|]. by apply trim_dropped.
  - intros tip x Htip Hp Hno. apply Hin. destruct (above_path tip x Hp (Htips _ Htip) Hno) as [Ht Hpe]. eauto.
  - intros x (tip & Htip & Hnt & Hp)%Hin. exists tip. split; [done|]. eapply rtc_subrel; [|exact Hp].
    intros a b He%edge_dep. eapply dep_mono; [|exact He]. etrans; [apply trimmed_nodes|apply Hexp].
Qed.

End Prepared.

Lemma prepare_inv `{!SortFunc} store key tips d :
  prepare store key tips = Done d ->
  exists nodes lca, bfs store key tips = Done (nodes, lca) /\ d_lcaTip d = lca
    /\ d_nodes d = trimAncestorsOfLCA key nodes lca
    /\ d_topoOrder d = topo_order key (trimAncestorsOfLCA key nodes lca) lca tips.
Proof.
  unfold prepare. pose proof (bfs_spec store key tips) as Hs.
  destruct (bfs store key tips) as [[nodes lca]| |]; [|done..]. destruct Hs as [He Ht].
  destruct (Nat.eqb_spec (size nodes) 0) as [Hz|Hz]; intros [= <-]; exists nodes, lca; simpl; [|done].
  apply map_size_empty_inv in Hz as ->.
  assert (tips = []) as ->.
  { destruct tips as [|t tips]; [done|]. destruct (Ht t) as [e E]; [constructor|].
    by rewrite lookup_empty in E. }
  assert (lca = zero_tip) as ->.
  { destruct (decide (lca = zero_tip)) as [|Hne]; [done|].
    destruct (exp_lca _ _ _ _ _ He Hne) as (e & E & _). by rewrite lookup_empty in E. }
  rewrite trim_zero. split_and!; [done..|]. unfold topo_order, with_effects. simpl.
  pose proof (sort_func_perm compareDagTips []) as Hp. apply Permutation_nil_r in Hp. by rewrite Hp.
Qed.

(** [C13] The causal order of a walk.  On a well-formed history, a walk lists
    no effect twice; lists each effect after every one of its dependencies,
    except those the common snapshot already folded in; lists every effect that
    can be reached from the tips above the snapshot and that the snapshot does
    not account for; and lists nothing else than history reachable from the
    tips. *)
Theorem walk_causal `{!SortFunc} (store : Store) (key : bytes) tips d rank :
  prepare store key tips = Done d -> ranked store rank ->
  let o := d_topoOrder d in let lca := d_lcaTip d in
  NoDup o
  /\ (forall i x y, o !! i = Some x -> x <> lca -> dep store key x y ->
        (exists j, (j < i)%nat /\ o !! j = Some y) \/ below key store lca y)
  /\ (forall tip x, tip ∈ tips -> rtc (step_above store key lca) tip x -> ~ below key store lca x -> x ∈ o)
  /\ (forall x, x ∈ o -> reach store key tips x).
Proof.
  intros (nodes & lca & E & -> & _ & ->)%prepare_inv Hr.
  pose proof (bfs_spec store key tips) as Hs. rewrite E in Hs. destruct Hs as [He Ht].
  by apply (order_spec store key tips nodes lca He Ht rank).
Qed.

(** ** One order for every replica *)

Section Determined.
Variable (s1 s2 : SortFunc) (key : bytes) (nodes : Store) (lca : Tip).
Hypothesis distinct : forall x y ex ey, nodes !! x = Some ex -> nodes !! y = Some ey ->
  e_fork_choice_hash ex = e_fork_choice_hash ey -> x = y.

#[global] Instance compareDagTips_order : CmpOrder compareDagTips.
Proof. unfold compareDagTips. apply (cmp_order_on (fun te : Tip * Effect => e_fork_choice_hash te.2) bytes_compare). Qed.

Lemma sort_agree (l1 l2 : list Tip) :
  l1 ≡ₚ l2 ->
  @sort_func s1 _ compareDagTips (with_effects nodes l1) = @sort_func s2 _ compareDagTips (with_effects nodes l2).
Proof.
  intros Hp.
  assert (with_effects nodes l1 ≡ₚ with_effects nodes l2) as Hpe by (unfold with_effects; by rewrite Hp).
  apply (StronglySorted_unique_strong (fun x y => compareDagTips x y <= 0)).
  - intros [x ex] [y ey] Hx%elem_of_sort_func%elem_of_with_effects Hy%elem_of_sort_func%elem_of_with_effects H1 H2.
    destruct Hx as [_ Hx], Hy as [_ Hy].
    assert (compareDagTips (x, ex) (y, ey) = 0) as Hc%bytes_compare_eq
      by (pose proof (cmp_anti (cmp := compareDagTips) (x, ex) (y, ey)); lia).
    assert (x = y) as -> by (by eapply distinct). congruence.
  - apply sort_func_sorted. apply _.
  - apply sort_func_sorted. apply _.
  - rewrite (@sort_func_perm s1), (@sort_func_perm s2). done.
Qed.

Lemma topoCollect_agree fuel st t :
  @topoCollect s1 key fuel nodes lca st t = @topoCollect s2 key fuel nodes lca st t.
Proof.
  revert st t. induction fuel as [|fuel IH]; intros st t; simpl; [done|].
  assert (forall l s, fold_left (fun s (de : Tip * Effect) => @topoCollect s1 key fuel nodes lca s de.1) l s
            = fold_left (fun s (de : Tip * Effect) => @topoCollect s2 key fuel nodes lca s de.1) l s) as Hfold.
  { intros l. induction l as [|x l IHl]; intros s; simpl; [done|]. rewrite IH. apply IHl. }
  destruct (decide (t ∈ st.1)); [done|]. destruct (nodes !! t) as [eff|]; [|done].
  destruct (is_lca_snapshot lca t eff); [done|].
  rewrite (sort_agree (keyDeps key eff) (keyDeps key eff)), Hfold by done.
  destruct (get_txn_bind eff); [done|]. destruct (e_deps eff) as [|d [|]]; by rewrite ?IH.
Qed.

Lemma topo_order_agree tips1 tips2 :
  tips1 ≡ₚ tips2 -> @topo_order s1 key nodes lca tips1 = @topo_order s2 key nodes lca tips2.
Proof.
  intros Hp. unfold topo_order. rewrite (sort_agree tips1 tips2 Hp). f_equal.
  generalize (@sort_func s2 _ compareDagTips (with_effects nodes tips2)) as l, ((∅, []) : topo_state) as s.
  intros l. induction l as [|x l IHl]; intros s; cbn [fold_left]; [done|]. rewrite topoCollect_agree. apply IHl.
Qed.

End Determined.

