(* ===== verification/DagWitness.v ===== *)
(** * Concrete reductions

    Small chains on which the theorems about reduction are applied, and three
    runs that show where the code departs from what is said of it. *)

From S2P Require Import Prelude Golib Proto Reduce ReduceProps ReduceMerge Store Walk Dag DagProps DagOrder.

#[local] Existing Instance null_codec.

Definition ts (s : Z) : option Timestamp := Some (mkTimestamp s 0).

Definition data_eff (hlc : Z) (virt : bytes) (d : DataEffect) : Effect :=
  mkEffect [x6b] (ts hlc) 7 [] [] [z2b hlc] virt (Some (KData d)).

Definition meta_eff (hlc : Z) (m : MetaEffect) : Effect :=
  mkEffect [x6b] (ts hlc) 7 [] [] [z2b hlc] [] (Some (KMeta m)).

Definition scalar_eff (hlc : Z) (m : MergeRule) (v : DataValue) : Effect :=
  data_eff hlc [] (mkData INSERT_OP m SCALAR PLACE_NONE [] [] (Some v)).

Definition del_eff (hlc : Z) : Effect :=
  data_eff hlc [] (mkData REMOVE_OP LAST_WRITE_WINS SCALAR PLACE_NONE [] [] None).

Definition member_eff (hlc : Z) (op : EffectOp) (id : bytes) : Effect :=
  data_eff hlc [] (mkData op LAST_WRITE_WINS KEYED PLACE_NONE [] id None).

Definition part_eff (hlc : Z) (v : bytes) (x : Z) : Effect :=
  data_eff hlc v (mkData INSERT_OP ADDITIVE_INT SCALAR PLACE_NONE [] [] (Some (IntVal x))).

(** ** Witnesses *)

Definition seed5 : option ReducedEffect := ReduceBranch [scalar_eff 1 LAST_WRITE_WINS (IntVal 5)].


Lemma flat_path_agrees_witness :
  unhash_red <$> reducePartitioned seed5 [part_eff 2 [] 3; del_eff 3; part_eff 4 [] 9] =
  unhash_red <$> ReduceChain seed5 [part_eff 2 [] 3; del_eff 3; part_eff 4 [] 9].
Proof. apply flat_path_agrees. vm_compute. reflexivity. Defined.

Lemma root_del_wipes_witness :
  unhash_red <$> ReduceChain seed5 ([part_eff 2 [x70] 3] ++ del_eff 3 :: [part_eff 4 [x71] 9]) =
  unhash_red <$> ReduceChain None ([] ++ del_eff 3 :: [part_eff 4 [x71] 9]).
Proof. apply root_del_wipes. vm_compute. reflexivity. Defined.

Lemma partitions_independent_witness :
  parts_of (ReduceChain None [part_eff 1 [x70] 3; part_eff 2 [x71] 4]) !! [x70] =
  reduceFlat None [part_eff 1 [x70] 3].
Proof.
  rewrite (partitions_independent None [part_eff 1 [x70] 3; part_eff 2 [x71] 4] [x70]).
  - vm_compute. reflexivity.
  - vm_compute. reflexivity.
  - discriminate.
Defined.

Lemma partition_interleaving_witness :
  ReduceChain None [part_eff 1 [x70] 3; part_eff 2 [x71] 4] =
  ReduceChain None [part_eff 2 [x71] 4; part_eff 1 [x70] 3].
Proof.
  apply partition_interleaving.
  - vm_compute. reflexivity.
  - vm_compute. reflexivity.
  - intros v. unfold partition_chain. rewrite !filter_cons, !filter_nil.
    change (e_virtual (part_eff 1 [x70] 3)) with [x70].
    change (e_virtual (part_eff 2 [x71] 4)) with [x71].
    destruct (decide ([x70] = v)), (decide ([x71] = v)); congruence.
Defined.

Lemma commutative_run_order_free_witness :
  scalar_obs ADDITIVE_INT (reduceFlat None [scalar_eff 1 ADDITIVE_INT (IntVal 5); scalar_eff 2 ADDITIVE_INT (IntVal 7)]) =
  scalar_obs ADDITIVE_INT (reduceFlat None [scalar_eff 2 ADDITIVE_INT (IntVal 7); scalar_eff 1 ADDITIVE_INT (IntVal 5)]).
Proof.
  apply commutative_run_order_free.
  - by left.
  - repeat constructor; (eexists; split; [reflexivity|done]).
  - apply perm_swap.
Defined.

Lemma counter_adds_up_witness :
  exists r s,
    reduceFlat None (scalar_eff 1 LAST_WRITE_WINS (Raw [x34; x30])
                     :: [scalar_eff 2 ADDITIVE_INT (IntVal 5); scalar_eff 3 ADDITIVE_INT (IntVal (-3))]) = Some r /\
    r_scalar r = Some s /\ d_value s = Some (IntVal 42).
Proof.
  apply (counter_adds_up (scalar_eff 1 LAST_WRITE_WINS (Raw [x34; x30]))
    (mkData INSERT_OP LAST_WRITE_WINS SCALAR PLACE_NONE [] [] (Some (Raw [x34; x30])))
    [scalar_eff 2 ADDITIVE_INT (IntVal 5); scalar_eff 3 ADDITIVE_INT (IntVal (-3))]).
  - reflexivity.
  - reflexivity.
  - reflexivity.
  - reflexivity.
  - repeat constructor; (eexists; split; [reflexivity|done]).
  - discriminate.
Defined.

Definition set_d : DataEffect :=
  mkData INSERT_OP LAST_WRITE_WINS SCALAR PLACE_NONE [] [] (Some (Raw [x78])).

Lemma set_overwrites : overwrites (data_eff 9 [] set_d) set_d.
Proof. repeat split. Qed.

Lemma last_write_wins_witness :
  exists r, reduceFlat None ([scalar_eff 1 ADDITIVE_INT (IntVal 5)] ++ [data_eff 9 [] set_d]) = Some r /\
    r_scalar r = Some set_d /\ r_merge r = LAST_WRITE_WINS /\ r_collection r = SCALAR /\
    r_hlc r = ts 9.
Proof. apply (last_write_wins None [scalar_eff 1 ADDITIVE_INT (IntVal 5)] (data_eff 9 [] set_d) set_d), set_overwrites. Defined.

(** The state of a hash with a TTL. *)
Definition hash_with_ttl : FlatReduced :=
  set_expires_at (ts 100) (reduceFirst (member_eff 1 INSERT_OP [x66])
    (mkData INSERT_OP LAST_WRITE_WINS KEYED PLACE_NONE [] [x66] None)).

Lemma overwrite_ttl_witness :
  r_expires_at (reduceAccumulate hash_with_ttl (data_eff 9 [] set_d) set_d) = ts 100.
Proof. rewrite (overwrite_ttl hash_with_ttl (data_eff 9 [] set_d) set_d set_overwrites). reflexivity. Defined.

Lemma keyed_membership_witness :
  exists r, reduceFlat None [member_eff 1 INSERT_OP [x61]; member_eff 2 REMOVE_OP [x61]; member_eff 3 INSERT_OP [x62]] = Some r /\
    (forall k, k ∈ dom (r_net_adds r) <->
      last_op k [member_eff 1 INSERT_OP [x61]; member_eff 2 REMOVE_OP [x61]; member_eff 3 INSERT_OP [x62]] = Some INSERT_OP) /\
    dom (r_net_adds r) ## r_net_removes r.
Proof.
  apply keyed_membership; [|discriminate].
  repeat constructor; (eexists; split; [reflexivity|]); (split; [reflexivity|]); simpl; auto.
Defined.

(** ** Three runs *)

(** The chain of a set whose first operation after a delete is a removal. *)
Definition srem_sadd : list Effect := [member_eff 1 REMOVE_OP [x61]; member_eff 2 INSERT_OP [x62]].

Definition member_of (k : bytes) (s : option ReducedEffect) : bool :=
  match s with Some s => bool_decide (k ∈ dom (r_net_adds (red_root s))) | None => false end.

(** A live state whose first data effect was a keyed removal is taken for
    a delete marker by the next reduction: element [b], added in the first
    piece, is lost when the chain is reduced in two pieces and kept when it is
    reduced whole. *)
Theorem remove_headed_state_is_dropped :
  member_of [x62] (ReduceChain None srem_sadd) = true /\
  member_of [x62] (ReduceChain None (srem_sadd ++ [member_eff 3 INSERT_OP [x63]])) = true /\
  member_of [x62] (ReduceChain (ReduceChain None srem_sadd) [member_eff 3 INSERT_OP [x63]]) = false.
Proof. vm_compute. auto. Qed.

(** ADDITIVE_FLOAT, which [isCommutative] lists with the commutative
    rules, does depend on the order of the run: float64 addition is not
    associative. *)
Theorem additive_float_order_sensitive :
  let big := scalar_eff 1 ADDITIVE_FLOAT (FloatVal (f64_of_int (2 ^ 53))) in
  let one := scalar_eff 2 ADDITIVE_FLOAT (FloatVal (f64_of_int 1)) in
  isCommutative ADDITIVE_FLOAT = true /\
  r_scalar <$> reduceFlat None [big; one; one] <> r_scalar <$> reduceFlat None [one; one; big].
Proof. split; [reflexivity|]. vm_compute. discriminate. Qed.

(** * A concrete walk

    A write, a snapshot that folds it in, and two concurrent writes after the
    snapshot: the history on which the theorems about the walk are applied. *)


#[local] Existing Instance null_codec.
#[local] Existing Instance insertion_sorter.

Definition key_k : bytes := [x6b].

Definition with_deps (deps : list Tip) (e : Effect) : Effect :=
  mkEffect (e_key e) (e_hlc e) (e_node_id e) deps (e_txn_id e) (e_fork_choice_hash e) (e_virtual e) (e_kind e).

Definition snap_eff (deps : list Tip) (state : option ReducedEffect) : Effect :=
  mkEffect key_k (ts 2) 7 deps [] [x02] [] (Some (KSnapshot (mkSnapshot SCALAR state ∅ None))).

Definition w_store : Store := list_to_map [
  ((1, 1), scalar_eff 1 LAST_WRITE_WINS (IntVal 5));
  ((1, 2), snap_eff [(1, 1)] seed5);
  ((1, 3), with_deps [(1, 2)] (part_eff 9 [] 3));
  ((2, 3), with_deps [(1, 2)] (part_eff 4 [] 4)) ].

Definition w_tips : list Tip := [(1, 3); (2, 3)].
Definition w_lca : Tip := (1, 2).
Definition w_rank (t : Tip) : nat := Z.to_nat t.2.

Definition w_nodes : Store := match bfs w_store key_k w_tips with Done (n, _) => n | _ => ∅ end.
Definition w_dag : dag := match prepare w_store key_k w_tips with Done d => d | _ => mkDag ∅ zero_tip [] end.

Lemma w_ranked : ranked w_store w_rank.
Proof.
  intros t eff d Ht Hd. apply elem_of_list_to_map_2 in Ht.
  repeat (apply elem_of_cons in Ht as [Ht|Ht]; [injection Ht as -> ->; vm_compute in Hd;
    repeat (apply elem_of_cons in Hd as [->|Hd]; [vm_compute; lia|]); by apply elem_of_nil in Hd|]).
  by apply elem_of_nil in Ht.
Qed.

Example w_order : d_topoOrder w_dag = [(1, 2); (2, 3); (1, 3)].
Proof. vm_compute. reflexivity. Qed.

Lemma lca_dominates_witness :
  w_lca <> zero_tip /\ exists eff, w_store !! w_lca = Some eff /\ is_state_snapshot eff = true.
Proof.
  assert (w_lca <> zero_tip) as Hz by discriminate. split; [exact Hz|].
  apply (lca_dominates w_store key_k w_tips w_nodes w_lca); [vm_compute; reflexivity|exact Hz].
Defined.

Lemma trim_exact_witness :
  trimAncestorsOfLCA key_k w_nodes w_lca !! (1, 3) = Some (with_deps [(1, 2)] (part_eff 9 [] 3))
    <-> w_nodes !! (1, 3) = Some (with_deps [(1, 2)] (part_eff 9 [] 3)) /\ ~ below key_k w_nodes w_lca (1, 3).
Proof. apply (trim_exact w_store key_k w_tips); [vm_compute; reflexivity|discriminate]. Defined.

Lemma walk_causal_witness : NoDup (d_topoOrder w_dag) /\ (1, 3) ∈ d_topoOrder w_dag.
Proof.
  split.
  - apply (walk_causal w_store key_k w_tips w_dag w_rank); [vm_compute; reflexivity|apply w_ranked].
  - rewrite w_order. set_solver.
Defined.

