(* ===== verification/Cuckoo.v ===== *)
(** * The cuckoo key filter (effects/cuckoo.go)

    Fingerprints in buckets of four slots, two candidate buckets per key.  The
    xxhash function is a parameter ([Golib.Hash64]).  A slice expression out of range panics in Go; here it is
    [None], and so is every operation that reaches it. *)

From S2P Require Import Prelude Golib.

Record CuckooFilter := mkCuckoo {
  cf_buckets : list Z;      (* uint16 slots, 0 = empty *)
  cf_numBuckets : Z;        (* uint64 *)
  cf_count : Z;
  cf_kickSeed : Z;
}.

Definition cuckooBucketSize : Z := 4.
Definition cuckooMaxKicks : nat := 500.

(** [nb <<= 1] while [nb < want]; [want] has at most 62 bits. *)
Fixpoint round_up (fuel : nat) (nb want : Z) : Z :=
  match fuel with
  | O => nb
  | S fuel' => if nb <? want then round_up fuel' (wrapu64 (Z.shiftl nb 1)) want else nb
  end.

Definition NewCuckooFilter (capacity : Z) : CuckooFilter :=
  let want := wrapu64 (wrapu64 capacity / cuckooBucketSize + 1) in
  let nb := round_up 64 1 want in
  mkCuckoo (replicate (Z.to_nat (wrapu64 (nb * cuckooBucketSize))) 0) nb 0 0.

Section Filter.
Context {hash : Hash64}.

Definition altIndex (c : CuckooFilter) (i fp : Z) : Z :=
  Z.land (Z.lxor i (xxhash (le_bytes 2 fp))) (wrapu64 (cf_numBuckets c - 1)).

Definition fingerprint (h : Z) : Z :=
  let fp := Z.land h 65535 in if fp =? 0 then 1 else fp.

Definition fingerprintAndIndices (c : CuckooFilter) (key : bytes) : Z * Z * Z :=
  let h := xxhash key in
  let fp := fingerprint h in
  let mask := wrapu64 (cf_numBuckets c - 1) in
  let i1 := Z.land (Z.shiftr h 32) mask in
  (fp, i1, altIndex c i1 fp).

(** The four slots of a bucket. *)
Definition bucket (c : CuckooFilter) (i : Z) : option (list Z) :=
  let start := wrapu64 (i * cuckooBucketSize) in
  if start + cuckooBucketSize <=? Z.of_nat (length (cf_buckets c))
  then Some (take 4 (drop (Z.to_nat start) (cf_buckets c)))
  else None.

Definition bucketContains (bkt : list Z) (fp : Z) : bool := existsb (Z.eqb fp) bkt.

(** Overwrite a slot of a bucket. *)
Definition set_slot (c : CuckooFilter) (i : Z) (slot : nat) (fp : Z) : CuckooFilter :=
  mkCuckoo (<[ (Z.to_nat (wrapu64 (i * cuckooBucketSize)) + slot)%nat := fp ]> (cf_buckets c))
    (cf_numBuckets c) (cf_count c) (cf_kickSeed c).

Definition set_count (n : Z) (c : CuckooFilter) : CuckooFilter :=
  mkCuckoo (cf_buckets c) (cf_numBuckets c) n (cf_kickSeed c).
Definition set_kick (n : Z) (c : CuckooFilter) : CuckooFilter :=
  mkCuckoo (cf_buckets c) (cf_numBuckets c) (cf_count c) n.

(** The first empty slot, if any: panics or [Some None] when the bucket is full. *)
Definition insertIntoBucket (c : CuckooFilter) (i fp : Z) : option (option CuckooFilter) :=
  bkt ← bucket c i;
  Some (match list_find (eq 0) bkt with
        | Some (slot, _) => Some (set_slot c i slot fp)
        | None => None
        end).

Definition incr_count (c : CuckooFilter) : CuckooFilter := set_count (wrapu64 (cf_count c + 1)) c.

(** Evict a resident and relocate it; [false] is ErrCuckooFull. *)
Fixpoint kick (kicks : nat) (c : CuckooFilter) (i fp : Z) : option (CuckooFilter * bool) :=
  match kicks with
  | O => Some (c, false)
  | S kicks' =>
      let c := set_kick (wrapu64 (cf_kickSeed c + 1)) c in
      bkt ← bucket c i;
      let slot := Z.to_nat (cf_kickSeed c mod cuckooBucketSize) in
      evicted ← bkt !! slot;
      let c := set_slot c i slot fp in
      let i' := altIndex c i evicted in
      placed ← insertIntoBucket c i' evicted;
      match placed with
      | Some c' => Some (incr_count c', true)
      | None => kick kicks' c i' evicted
      end
  end.

(** The filter after the call, and whether it returned nil. *)
Definition CuckooAdd (c : CuckooFilter) (key : bytes) : option (CuckooFilter * bool) :=
  let '(fp, i1, i2) := fingerprintAndIndices c key in
  b1 ← bucket c i1;
  b2 ← bucket c i2;
  if bucketContains b1 fp || bucketContains b2 fp then Some (c, true)
  else
    p1 ← insertIntoBucket c i1 fp;
    match p1 with
    | Some c' => Some (incr_count c', true)
    | None =>
        p2 ← insertIntoBucket c i2 fp;
        match p2 with
        | Some c' => Some (incr_count c', true)
        | None => kick cuckooMaxKicks c (if Z.land (cf_kickSeed c) 1 =? 1 then i2 else i1) fp
        end
    end.

Definition CuckooMaybeContains (c : CuckooFilter) (key : bytes) : option bool :=
  let '(fp, i1, i2) := fingerprintAndIndices c key in
  b1 ← bucket c i1;
  if bucketContains b1 fp then Some true
  else b2 ← bucket c i2; Some (bucketContains b2 fp).

End Filter.

(** ** Serialization *)

Definition CuckooMarshal (c : CuckooFilter) : bytes :=
  be_bytes 8 (cf_numBuckets c) ++ flat_map (be_bytes 2) (cf_buckets c).

(** [n] slots of two bytes each. *)
Fixpoint read_slots (n : nat) (body : bytes) : list Z :=
  match n with O => [] | S n' => be_value (take 2 body) :: read_slots n' (drop 2 body) end.

Definition occupied (slots : list Z) : Z := Z.of_nat (length (filter (fun v => v <> 0) slots)).

(** [Err] stands for the errors, [Panic] for [make] with a length that is not an
    int. *)
Inductive decoded (A : Type) := Ok (a : A) | Err | Panic.
Arguments Ok {A} a.
Arguments Err {A}.
Arguments Panic {A}.

Definition CuckooUnmarshal (data : bytes) : decoded CuckooFilter :=
  if (length data <? 8)%nat then Err
  else
    let nb := be_value (take 8 data) in
    if (nb =? 0) || negb (Z.land nb (wrapu64 (nb - 1)) =? 0) then Err
    else
      let body := drop 8 data in
      if negb (Z.of_nat (length body) =? wrapu64 (wrapu64 (nb * cuckooBucketSize) * 2)) then Err
      else
        let n := wrapu64 (nb * cuckooBucketSize) in
        if max_int64 <? n then Panic
        else
          let buckets := read_slots (Z.to_nat n) body in
          Ok (mkCuckoo buckets nb (occupied buckets) 0).

(** ** Chains *)

Definition cuckooChainChunk : Z := 4096.

Record CuckooChain := mkChain { cc_sealed : list CuckooFilter; cc_active : option CuckooFilter }.

Section Chain.
Context {hash : Hash64}.

(** The active segment to add to, and the sealed ones. *)
Definition rotate (cc : CuckooChain) : list CuckooFilter * CuckooFilter :=
  match cc_active cc with
  | None => (cc_sealed cc, NewCuckooFilter cuckooChainChunk)
  | Some a =>
      if cuckooChainChunk <=? cf_count a then (cc_sealed cc ++ [a], NewCuckooFilter cuckooChainChunk)
      else (cc_sealed cc, a)
  end.

Definition ChainAdd (cc : CuckooChain) (key : bytes) : option (CuckooChain * bool) :=
  let (sealed, active) := rotate cc in
  match CuckooAdd active key with
  | None => None
  | Some (active', true) => Some (mkChain sealed (Some active'), negb (cf_count active' =? cf_count active))
  | Some (active', false) =>
      match CuckooAdd (NewCuckooFilter cuckooChainChunk) key with
      | None => None
      | Some (fresh, _) => Some (mkChain (sealed ++ [active']) (Some fresh), true)
      end
  end.

Fixpoint any_contains (fs : list CuckooFilter) (key : bytes) : option bool :=
  match fs with
  | [] => Some false
  | f :: fs' => b ← CuckooMaybeContains f key; if b : bool then Some true else any_contains fs' key
  end.

Definition ChainMaybeContains (cc : CuckooChain) (key : bytes) : option bool :=
  any_contains (match cc_active cc with Some a => [a] | None => [] end ++ cc_sealed cc) key.

End Chain.

Definition segments (cc : CuckooChain) : list CuckooFilter :=
  cc_sealed cc ++ match cc_active cc with Some a => [a] | None => [] end.

Definition ChainMarshal (cc : CuckooChain) : bytes :=
  be_bytes 4 (Z.of_nat (length (segments cc)))
  ++ flat_map (fun f => let b := CuckooMarshal f in be_bytes 4 (Z.of_nat (length b)) ++ b) (segments cc).

Fixpoint read_segments (count : nat) (data : bytes) : decoded (list CuckooFilter) :=
  match count with
  | O => Ok []
  | S count' =>
      if (length data <? 4)%nat then Err
      else
        let l := Z.to_nat (be_value (take 4 data)) in
        let rest := drop 4 data in
        if (length rest <? l)%nat then Err
        else match CuckooUnmarshal (take l rest) with
             | Ok f =>
                 match read_segments count' (drop l rest) with Ok fs => Ok (f :: fs) | r => r end
             | Err => Err
             | Panic => Panic
             end
  end.

Definition ChainUnmarshal (data : bytes) : decoded CuckooChain :=
  if (length data <? 4)%nat then Err
  else
    let count := be_value (take 4 data) in
    if (Z.of_nat (length data) - 4) / 4 <? count then Err
    else match read_segments (Z.to_nat count) (drop 4 data) with
         | Ok fs => Ok (mkChain fs None)
         | Err => Err
         | Panic => Panic
         end.
