(* ===== verification/CuckooProps.v ===== *)
(** * Properties of the cuckoo filter

    No key that was added without error is ever missed, whatever the evictions;
    the wire format is faithful; and a defect of its length check. *)

From S2P Require Import Prelude Golib Cuckoo.

(** ** Well-formed filters *)

Record cf_wf (c : CuckooFilter) (k : Z) : Prop := {
  wf_k : 0 <= k <= 60;
  wf_nb : cf_numBuckets c = 2 ^ k;
  wf_len : Z.of_nat (length (cf_buckets c)) = 4 * 2 ^ k;
  wf_slots : Forall (fun v => 0 <= v < 65536) (cf_buckets c);
  wf_count : cf_count c = occupied (cf_buckets c);
}.

Lemma pow2_bound k : 0 <= k <= 60 -> 1 <= 2 ^ k <= 2 ^ 60.
Proof. intros [H1 H2]. split; [apply (Z.pow_le_mono_r 2 0 k); lia|apply Z.pow_le_mono_r; lia]. Qed.

Lemma mask_ones k : 0 <= k <= 60 -> wrapu64 (2 ^ k - 1) = Z.ones k.
Proof.
  intros Hk. pose proof (pow2_bound k Hk). rewrite Z.ones_equiv, wrapu64_id; [lia|].
  unfold is_uint64, max_uint64. lia.
Qed.

Section Props.
Context {hash : Hash64}.
Implicit Types (c : CuckooFilter) (i fp : Z).

Lemma altIndex_mod c k i fp : cf_wf c k -> altIndex c i fp = Z.lxor i (xxhash (le_bytes 2 fp)) mod 2 ^ k.
Proof.
  intros Hw. unfold altIndex. rewrite (wf_nb _ _ Hw), mask_ones by apply Hw. apply Z.land_ones. apply Hw.
Qed.

Lemma altIndex_range c k i fp : cf_wf c k -> 0 <= altIndex c i fp < 2 ^ k.
Proof.
  intros Hw. rewrite (altIndex_mod c k) by done. apply Z.mod_pos_bound.
  pose proof (pow2_bound k (wf_k _ _ Hw)). lia.
Qed.

(** The partner of the partner is the bucket itself. *)
Lemma altIndex_involution c k i fp :
  cf_wf c k -> 0 <= i < 2 ^ k -> altIndex c (altIndex c i fp) fp = i.
Proof.
  intros Hw Hi. rewrite !(altIndex_mod c k) by done. pose proof (wf_k _ _ Hw) as Hk.
  set (H := xxhash _). apply Z.bits_inj'. intros n Hn. destruct (decide (n < k)) as [Hlt|Hge].
  - rewrite Z.mod_pow2_bits_low, Z.lxor_spec, Z.mod_pow2_bits_low, Z.lxor_spec by lia.
    by destruct (Z.testbit i n), (Z.testbit H n).
  - rewrite Z.mod_pow2_bits_high by lia. symmetry.
    destruct (decide (i = 0)) as [->|]; [apply Z.bits_0|]. apply Z.bits_above_log2; [lia|].
    apply Z.log2_lt_pow2; [lia|]. eapply Z.lt_le_trans; [apply Hi|]. apply Z.pow_le_mono_r; lia.
Qed.

(** ** Slots *)

(** [fp] sits in bucket [i]. *)
Definition holds c i fp : Prop := exists s, (s < 4)%nat /\ cf_buckets c !! (Z.to_nat (i * 4) + s)%nat = Some fp.

Definition slot_of i (s : nat) : nat := (Z.to_nat (i * 4) + s)%nat.

Lemma start_id k i : 0 <= k <= 60 -> 0 <= i < 2 ^ k -> wrapu64 (i * cuckooBucketSize) = i * 4.
Proof.
  intros Hk Hi. pose proof (pow2_bound k Hk). unfold cuckooBucketSize. apply wrapu64_id.
  unfold is_uint64, max_uint64. lia.
Qed.

Lemma slot_in_range c k i s : cf_wf c k -> 0 <= i < 2 ^ k -> (s < 4)%nat -> (slot_of i s < length (cf_buckets c))%nat.
Proof. intros Hw Hi Hs. pose proof (wf_len _ _ Hw). unfold slot_of. lia. Qed.

Lemma bucket_spec c k i :
  cf_wf c k -> 0 <= i < 2 ^ k ->
  exists bkt, bucket c i = Some bkt /\ length bkt = 4%nat
    /\ (forall s, (s < 4)%nat -> bkt !! s = cf_buckets c !! slot_of i s)
    /\ (forall fp, fp ∈ bkt <-> holds c i fp).
Proof.
  intros Hw Hi. unfold bucket. rewrite (start_id k) by (try apply Hw; done).
  pose proof (wf_len _ _ Hw) as Hl. rewrite (proj2 (Z.leb_le _ _)) by (unfold cuckooBucketSize; lia).
  eexists. split; [done|].
  assert (forall s, (s < 4)%nat -> take 4 (drop (Z.to_nat (i * 4)) (cf_buckets c)) !! s = cf_buckets c !! slot_of i s) as Hs.
  { intros s Hs. rewrite lookup_take_lt, lookup_drop by done. done. }
  assert (length (take 4 (drop (Z.to_nat (i * 4)) (cf_buckets c))) = 4%nat) as Hlen by (rewrite length_take, length_drop; lia).
  split_and!; [done|done|]. intros fp. rewrite list_elem_of_lookup. unfold holds. split.
  - intros [s E]. assert (s < 4)%nat by (apply lookup_lt_Some in E; lia). exists s. split; [done|]. by rewrite Hs in E.
  - intros (s & Hlt & E). exists s. by rewrite Hs.
Qed.

Lemma bucketContains_spec c k i bkt fp :
  cf_wf c k -> 0 <= i < 2 ^ k -> bucket c i = Some bkt -> bucketContains bkt fp = true <-> holds c i fp.
Proof.
  intros Hw Hi Hb. destruct (bucket_spec c k i Hw Hi) as (b & E & _ & _ & Hin). simplify_eq. rewrite <- Hin.
  unfold bucketContains. rewrite existsb_exists. split.
  - intros (x & Hx & ->%Z.eqb_eq). by apply list_elem_of_In.
  - intros Hx. exists fp. split; [by apply list_elem_of_In|by apply Z.eqb_eq].
Qed.

Lemma occupied_cons x l : occupied (x :: l) = (if decide (x = 0) then 0 else 1) + occupied l.
Proof.
  unfold occupied. rewrite filter_cons. destruct (decide (x = 0)) as [->|Hx].
  - by rewrite decide_False by (intros H; by apply H).
  - rewrite decide_True by done. simpl. lia.
Qed.

Lemma occupied_app l1 l2 : occupied (l1 ++ l2) = occupied l1 + occupied l2.
Proof. unfold occupied. rewrite list.filter_app, length_app. lia. Qed.

Lemma occupied_insert l j old v :
  l !! j = Some old ->
  occupied (<[ j := v ]> l) = occupied l - (if decide (old = 0) then 0 else 1) + (if decide (v = 0) then 0 else 1).
Proof.
  intros Hj. rewrite insert_take_drop by (by eapply lookup_lt_Some).
  rewrite <- (take_drop_middle l j old Hj) at 3. rewrite !occupied_app, !occupied_cons. lia.
Qed.

Lemma occupied_le l : 0 <= occupied l <= Z.of_nat (length l).
Proof. unfold occupied. pose proof (length_filter (fun v : Z => v <> 0) l). lia. Qed.

(** Writing a slot: the filter stays well-formed up to its count. *)
Lemma set_slot_wf c k i s v old n seed :
  cf_wf c k -> 0 <= i < 2 ^ k -> (s < 4)%nat -> cf_buckets c !! slot_of i s = Some old -> 0 <= v < 65536 ->
  n = occupied (cf_buckets c) - (if decide (old = 0) then 0 else 1) + (if decide (v = 0) then 0 else 1) ->
  cf_wf (set_kick seed (set_count n (set_slot c i s v))) k.
Proof.
  intros Hw Hi Hs Hold Hv ->. destruct Hw as [Hk Hnb Hlen Hsl Hc].
  assert (wrapu64 (i * cuckooBucketSize) = i * 4) as Hst by (by apply (start_id k)).
  split; simpl; rewrite ?Hst; fold (slot_of i s).
  - done.
  - done.
  - by rewrite length_insert.
  - apply Forall_insert; done.
  - by rewrite (occupied_insert _ _ old).
Qed.

Lemma set_slot_holds c k i s v j fp :
  cf_wf c k -> 0 <= i < 2 ^ k -> 0 <= j < 2 ^ k -> (s < 4)%nat ->
  (holds (set_slot c i s v) j fp ->  holds c j fp \/ (j = i /\ fp = v))
  /\ (holds c j fp -> holds (set_slot c i s v) j fp \/ (j = i /\ cf_buckets c !! slot_of i s = Some fp))
  /\ holds (set_slot c i s v) i v.
Proof.
  intros Hw Hi Hj Hs.
  assert (wrapu64 (i * cuckooBucketSize) = i * 4) as Hst by (apply (start_id k); [apply Hw|done]).
  assert (forall r, (r < 4)%nat -> cf_buckets (set_slot c i s v) !! slot_of j r
            = if decide (j = i /\ r = s) then Some v else cf_buckets c !! slot_of j r) as Hlk.
  { intros r Hr. simpl. rewrite Hst. fold (slot_of i s). destruct (decide (j = i /\ r = s)) as [[-> ->]|Hne].
    - apply list_lookup_insert_eq. by apply (slot_in_range c k).
    - apply list_lookup_insert_ne. unfold slot_of. intros E. apply Hne. lia. }
  split_and!.
  - intros (r & Hr & E). fold (slot_of j r) in E. rewrite Hlk in E by done.
    destruct (decide (j = i /\ r = s)) as [[-> ->]|]; [right; split; [done|congruence]|]. left. by exists r.
  - intros (r & Hr & E). destruct (decide (j = i /\ r = s)) as [[-> ->]|Hne]; [by right|]. left. exists r. split; [done|].
    fold (slot_of j r). by rewrite Hlk, decide_False.
  - exists s. split; [done|]. simpl. rewrite Hst. apply list_lookup_insert_eq. by apply (slot_in_range c k).
Qed.

(** A full bucket has no empty slot. *)
Definition full c i : Prop := ~ holds c i 0.

Lemma insert_spec c k i fp :
  cf_wf c k -> 0 <= i < 2 ^ k -> 0 < fp < 65536 ->
  exists r, insertIntoBucket c i fp = Some r /\
    match r with
    | None => full c i
    | Some c' => cf_wf (incr_count c') k
        /\ (forall j f, 0 <= j < 2 ^ k -> 0 < f -> holds c j f -> holds c' j f) /\ holds c' i fp
    end.
Proof.
  intros Hw Hi Hfp. unfold insertIntoBucket.
  destruct (bucket_spec c k i Hw Hi) as (bkt & -> & Hlen & Hs & Hin). simpl.
  destruct (list_find (eq 0) bkt) as [[s z]|] eqn:E; eexists; (split; [done|]).
  - apply list_find_Some in E as (Hz & <- & _). assert (s < 4)%nat as Hs4 by (apply lookup_lt_Some in Hz; lia).
    rewrite Hs in Hz by done. split_and!.
    + unfold incr_count. simpl. pose proof (wf_count _ _ Hw) as Hc. rewrite Hc.
      pose proof (occupied_le (cf_buckets c)). pose proof (wf_len _ _ Hw). pose proof (pow2_bound k (wf_k _ _ Hw)).
      rewrite wrapu64_id by (unfold is_uint64, max_uint64; lia).
      change (set_count ?n (set_slot c i s fp)) with (set_kick (cf_kickSeed c) (set_count n (set_slot c i s fp))).
      eapply set_slot_wf; [done..|lia|]. rewrite decide_True by done. rewrite decide_False by lia. lia.
    + intros j f Hj Hf Hh. destruct (set_slot_holds c k i s fp j f Hw Hi Hj Hs4) as (_ & H & _).
      destruct (H Hh) as [|[_ ?]]; [done|]. simplify_eq. lia.
    + by apply (set_slot_holds c k i s fp i fp).
  - apply list_find_None in E. intros Hz%Hin. rewrite Forall_forall in E. apply list_elem_of_In in Hz. by eapply E.
Qed.

(** ** Evictions *)

(** The fingerprint [f] with candidate buckets [j1], [j2] is stored, or is the
    one in hand and on its way to one of them. *)
Definition kept c i fp (f j1 j2 : Z) : Prop :=
  holds c j1 f \/ holds c j2 f \/ (f = fp /\ (i = j1 \/ i = j2)).

Definition partners c k (f j1 j2 : Z) : Prop :=
  0 < f < 65536 /\ 0 <= j1 < 2 ^ k /\ 0 <= j2 < 2 ^ k /\ altIndex c j1 f = j2 /\ altIndex c j2 f = j1.

Lemma kick_spec kicks c k i fp :
  cf_wf c k -> 0 <= i < 2 ^ k -> 0 < fp < 65536 -> full c i ->
  exists c' ok, kick kicks c i fp = Some (c', ok) /\ cf_wf c' k
    /\ (ok = true -> forall f j1 j2, partners c k f j1 j2 -> kept c i fp f j1 j2 -> holds c' j1 f \/ holds c' j2 f).
Proof.
  revert c i fp. induction kicks as [|kicks IH]; intros c i fp Hw Hi Hfp Hfull; cbn [kick].
  { exists c, false. done. }
  set (c0 := set_kick (wrapu64 (cf_kickSeed c + 1)) c).
  assert (cf_wf c0 k) as Hw0 by (destruct Hw; by split).
  destruct (bucket_spec c0 k i Hw0 Hi) as (bkt & Eb & Hlen & Hs & _). rewrite Eb. cbn [mbind option_bind].
  set (s := Z.to_nat (cf_kickSeed c0 mod cuckooBucketSize)).
  assert (s < 4)%nat as Hs4.
  { unfold s, cuckooBucketSize. pose proof (Z.mod_pos_bound (cf_kickSeed c0) 4 ltac:(lia)). lia. }
  destruct (lookup_lt_is_Some_2 bkt s ltac:(lia)) as [ev Hev]. rewrite Hev. cbn [mbind option_bind].
  rewrite Hs in Hev by done.
  assert (ev <> 0) as Hev0 by (intros ->; apply Hfull; by exists s).
  assert (0 <= ev < 65536) as Hevr by (eapply Forall_lookup_1 in Hev; [|apply (wf_slots _ _ Hw0)]; done).
  set (c1 := set_slot c0 i s fp).
  assert (cf_wf c1 k) as Hw1.
  { change c1 with (set_kick (cf_kickSeed c0) (set_count (cf_count c0) (set_slot c0 i s fp))).
    eapply (set_slot_wf c0 k i s fp ev); [done..|lia|]. rewrite !decide_False by lia. rewrite (wf_count _ _ Hw0). lia. }
  set (i' := altIndex c1 i ev).
  assert (0 <= i' < 2 ^ k) as Hi' by (by apply (altIndex_range c1 k)).
  assert (forall f j, 0 <= j < 2 ^ k -> altIndex c1 j f = altIndex c j f) as Halt.
  { intros f j Hj. by rewrite (altIndex_mod c1 k), (altIndex_mod c k) by done. }
  assert (forall f j1 j2, partners c k f j1 j2 -> kept c i fp f j1 j2 -> kept c1 i' ev f j1 j2) as Hstep.
  { intros f j1 j2 (Hf & Hj1 & Hj2 & A1 & A2) Hk.
    assert (forall j, 0 <= j < 2 ^ k -> holds c j f -> holds c1 j f \/ (j = i /\ f = ev)) as Hkeep.
    { intros j Hj Hh. destruct (set_slot_holds c0 k i s fp j f Hw0 Hi Hj Hs4) as (_ & H & _).
      destruct (H Hh) as [|[-> E]]; [by left|]. right. split; [done|]. congruence. }
    assert (forall j j', 0 <= j < 2 ^ k -> altIndex c j f = j' -> f = ev -> j = i -> i' = j') as Hto.
    { intros j j' Hj Ha -> ->. unfold i'. by rewrite Halt. }
    unfold kept. destruct Hk as [Hh|[Hh|[-> Hii]]].
    - destruct (Hkeep j1 Hj1 Hh) as [|[E1 E2]]; [tauto|]. right; right. split; [done|]. right. by apply (Hto j1).
    - destruct (Hkeep j2 Hj2 Hh) as [|[E1 E2]]; [tauto|]. right; right. split; [done|]. left. by apply (Hto j2).
    - assert (holds c1 i fp) by (by apply (set_slot_holds c0 k i s fp i fp)). destruct Hii as [->| ->]; tauto. }
  destruct (insert_spec c1 k i' ev Hw1 Hi' ltac:(lia)) as (r & -> & Hr). cbn [mbind option_bind]. destruct r as [c2|].
  - destruct Hr as (Hw2 & Hkeep & Hplaced). exists (incr_count c2), true. split_and!; [done..|].
    intros _ f j1 j2 Hp Hk. destruct (Hstep f j1 j2 Hp Hk) as [Hh|[Hh|[-> [->| ->]]]]; destruct Hp as (Hf & Hj1 & Hj2 & _).
    + left. apply Hkeep; [done|lia|done].
    + right. apply Hkeep; [done|lia|done].
    + by left.
    + by right.
  - destruct (IH c1 i' ev Hw1 Hi' ltac:(lia) Hr) as (c' & ok & -> & Hw' & Hok). exists c', ok. split_and!; [done..|].
    intros -> f j1 j2 Hp Hk. apply (Hok eq_refl); [|by apply Hstep].
    destruct Hp as (? & Hj1 & Hj2 & ? & ?). unfold partners. by rewrite !Halt.
Qed.

(** ** Keys *)

Lemma fingerprint_range h : 0 <= h -> 0 < fingerprint h < 65536.
Proof.
  intros Hh. unfold fingerprint. change 65535 with (Z.ones 16). rewrite Z.land_ones by lia.
  pose proof (Z.mod_pos_bound h (2 ^ 16) ltac:(lia)). destruct (Z.eqb_spec (h mod 2 ^ 16) 0); lia.
Qed.

Lemma key_partners c k key fp i1 i2 :
  cf_wf c k -> fingerprintAndIndices c key = (fp, i1, i2) -> partners c k fp i1 i2.
Proof.
  intros Hw [= <- <- <-]. pose proof (xxhash_range key) as Hr. unfold is_uint64 in Hr.
  assert (0 <= Z.land (Z.shiftr (xxhash key) 32) (wrapu64 (cf_numBuckets c - 1)) < 2 ^ k) as Hi.
  { rewrite (wf_nb _ _ Hw), mask_ones, Z.land_ones by apply Hw. apply Z.mod_pos_bound.
    pose proof (pow2_bound k (wf_k _ _ Hw)). lia. }
  split; [apply fingerprint_range; lia|]. split; [exact Hi|]. split; [by apply (altIndex_range c k)|].
  split; [done|by apply (altIndex_involution c k)].
Qed.

(** The key's fingerprint is in one of its buckets. *)
Definition stored c key : Prop :=
  let '(fp, i1, i2) := fingerprintAndIndices c key in holds c i1 fp \/ holds c i2 fp.

Lemma contains_spec c k key :
  cf_wf c k -> exists b, CuckooMaybeContains c key = Some b /\ (b = true <-> stored c key).
Proof.
  intros Hw. unfold CuckooMaybeContains, stored. destruct (fingerprintAndIndices c key) as [[fp i1] i2] eqn:E.
  destruct (key_partners c k key fp i1 i2 Hw E) as (_ & H1 & H2 & _).
  destruct (bucket_spec c k i1 Hw H1) as (b1 & E1 & _), (bucket_spec c k i2 Hw H2) as (b2 & E2 & _).
  rewrite E1, E2. simpl. pose proof (bucketContains_spec c k i1 b1 fp Hw H1 E1) as S1.
  pose proof (bucketContains_spec c k i2 b2 fp Hw H2 E2) as S2.
  destruct (bucketContains b1 fp) eqn:B1; eexists; (split; [done|]); [tauto|].
  rewrite S2. split; [tauto|]. intros [Hh|]; [|done]. by apply S1 in Hh.
Qed.

(** What a key derives from a filter depends only on its number of buckets. *)
Lemma stored_mono c c' k :
  cf_wf c k -> cf_wf c' k ->
  (forall f j1 j2, partners c k f j1 j2 -> holds c j1 f \/ holds c j2 f -> holds c' j1 f \/ holds c' j2 f) ->
  forall key, stored c key -> stored c' key.
Proof.
  intros Hw Hw' Hk key. unfold stored.
  assert (fingerprintAndIndices c' key = fingerprintAndIndices c key) as ->
    by (unfold fingerprintAndIndices, altIndex; by rewrite (wf_nb _ _ Hw), (wf_nb _ _ Hw')).
  destruct (fingerprintAndIndices c key) as [[fp i1] i2] eqn:E. apply Hk. by apply (key_partners c k key).
Qed.

Lemma cuckoo_add_spec c k key :
  cf_wf c k -> exists c' ok, CuckooAdd c key = Some (c', ok) /\ cf_wf c' k
    /\ (ok = true -> stored c' key /\ forall key', stored c key' -> stored c' key').
Proof.
  intros Hw. unfold CuckooAdd. destruct (fingerprintAndIndices c key) as [[fp i1] i2] eqn:E.
  pose proof (key_partners c k key fp i1 i2 Hw E) as Hp. pose proof Hp as (Hfp & H1 & H2 & _).
  destruct (bucket_spec c k i1 Hw H1) as (b1 & E1 & _), (bucket_spec c k i2 Hw H2) as (b2 & E2 & _).
  rewrite E1, E2. cbn [mbind option_bind].
  pose proof (bucketContains_spec c k i1 b1 fp Hw H1 E1) as S1.
  pose proof (bucketContains_spec c k i2 b2 fp Hw H2 E2) as S2.
  assert (forall c', cf_wf c' k -> holds c' i1 fp \/ holds c' i2 fp -> stored c' key) as Hst.
  { intros c' Hw' Hh. unfold stored. assert (fingerprintAndIndices c' key = (fp, i1, i2)) as -> ; [|done].
    rewrite <- E. unfold fingerprintAndIndices, altIndex. by rewrite (wf_nb _ _ Hw), (wf_nb _ _ Hw'). }
  destruct (bucketContains b1 fp || bucketContains b2 fp) eqn:Eb.
  { exists c, true. split_and!; [done..|]. intros _. split; [|done]. apply Hst; [done|].
    apply orb_true_iff in Eb. tauto. }
  destruct (insert_spec c k i1 fp Hw H1 Hfp) as (r1 & -> & Hr1). cbn [mbind option_bind]. destruct r1 as [c1|].
  { destruct Hr1 as (Hw1 & Hk1 & Hh1). exists (incr_count c1), true. split_and!; [done..|]. intros _.
    split; [apply Hst; [done|by left]|]. apply (stored_mono c (incr_count c1) k Hw Hw1).
    intros f j1 j2 ([Hf _] & Hj1 & Hj2 & _) [|]; [left|right]; by apply Hk1. }
  destruct (insert_spec c k i2 fp Hw H2 Hfp) as (r2 & -> & Hr2). cbn [mbind option_bind]. destruct r2 as [c2|].
  { destruct Hr2 as (Hw2 & Hk2 & Hh2). exists (incr_count c2), true. split_and!; [done..|]. intros _.
    split; [apply Hst; [done|by right]|]. apply (stored_mono c (incr_count c2) k Hw Hw2).
    intros f j1 j2 ([Hf _] & Hj1 & Hj2 & _) [|]; [left|right]; by apply Hk2. }
  assert (forall i, i = i1 \/ i = i2 -> exists c' ok, kick cuckooMaxKicks c i fp = Some (c', ok) /\ cf_wf c' k
    /\ (ok = true -> stored c' key /\ forall key', stored c key' -> stored c' key')) as Hkick.
  { intros i Hi. assert (0 <= i < 2 ^ k /\ full c i) as [Hir Hif] by (destruct Hi as [->| ->]; done).
    destruct (kick_spec cuckooMaxKicks c k i fp Hw Hir Hfp Hif) as (c' & ok & -> & Hw' & Hok).
    exists c', ok. split_and!; [done..|]. intros ->. specialize (Hok eq_refl). split.
    - apply Hst; [done|]. apply Hok; [done|]. unfold kept. tauto.
    - apply (stored_mono c c' k Hw Hw'). intros f j1 j2 Hp' Hh. apply Hok; [done|]. unfold kept. tauto. }
  destruct (Z.land (cf_kickSeed c) 1 =? 1); apply Hkick; auto.
Qed.

(** Adding a sequence of keys, all without error. *)
Fixpoint add_all c (keys : list bytes) : option CuckooFilter :=
  match keys with
  | [] => Some c
  | k :: ks => match CuckooAdd c k with Some (c', true) => add_all c' ks | _ => None end
  end.

Lemma add_all_spec c k keys c' :
  cf_wf c k -> add_all c keys = Some c' ->
  cf_wf c' k /\ (forall key, key ∈ keys -> stored c' key) /\ (forall key, stored c key -> stored c' key).
Proof.
  revert c. induction keys as [|x keys IH]; intros c Hw E; cbn [add_all] in E.
  - injection E as <-. split; [done|]. split; [by intros ? ?%elem_of_nil|done].
  - destruct (cuckoo_add_spec c k x Hw) as (c1 & ok & Ea & Hw1 & Hok). rewrite Ea in E. destruct ok; [|done].
    destruct (Hok eq_refl) as [Hx Hkeep]. destruct (IH c1 Hw1 E) as (Hw' & Hks & Hm). split_and!; [done| |auto].
    intros key [->|Hin]%elem_of_cons; auto.
Qed.

(** ** Fresh filters *)

Lemma round_up_spec fuel j m want :
  0 <= j <= m -> m <= 60 -> want <= 2 ^ m -> m - j <= Z.of_nat fuel ->
  exists k, j <= k <= m /\ round_up fuel (2 ^ j) want = 2 ^ k /\ want <= 2 ^ k.
Proof.
  intros Hj Hm Hw. revert j Hj. induction fuel as [|fuel IH]; intros j Hj Hf; simpl.
  - exists j. replace m with j in Hw by lia. split_and!; [lia..|done|done].
  - destruct (Z.ltb_spec (2 ^ j) want) as [Hlt|Hge]; [|exists j; split_and!; [lia..|done|lia]].
    assert (j < m) as Hjm.
    { destruct (decide (j = m)) as [->|]; lia. }
    rewrite Z.shiftl_mul_pow2 by lia. rewrite <- Z.pow_add_r by lia.
    rewrite wrapu64_id.
    2:{ unfold is_uint64, max_uint64. pose proof (pow2_bound (j + 1) ltac:(lia)). lia. }
    destruct (IH (j + 1) ltac:(lia) ltac:(lia)) as (k & ? & ? & ?). exists k. split_and!; [lia..|done|done].
Qed.

Lemma new_wf capacity : 0 <= capacity <= 2 ^ 61 -> exists k, cf_wf (NewCuckooFilter capacity) k.
Proof.
  intros Hc. unfold NewCuckooFilter. unfold cuckooBucketSize.
  rewrite (wrapu64_id capacity) by (unfold is_uint64, max_uint64; lia).
  assert (capacity / 4 <= 2 ^ 59) by (apply Z.div_le_upper_bound; lia).
  assert (0 <= capacity / 4) by (apply Z.div_pos; lia).
  rewrite (wrapu64_id (capacity / 4 + 1)) by (unfold is_uint64, max_uint64; lia).
  destruct (round_up_spec 64 0 60 (capacity / 4 + 1) ltac:(lia) ltac:(lia) ltac:(lia) ltac:(lia)) as (k & Hk & E & _).
  change (2 ^ 0) with 1 in E. rewrite E. exists k. pose proof (pow2_bound k ltac:(lia)) as Hb.
  rewrite wrapu64_id by (unfold is_uint64, max_uint64; lia). split; simpl.
  - lia.
  - done.
  - rewrite length_replicate. lia.
  - apply Forall_replicate. lia.
  - symmetry. unfold occupied. generalize (Z.to_nat (2 ^ k * 4)) as n. intros n.
    induction n as [|n IH]; [done|]. simpl. rewrite filter_cons, decide_False by (intros H1; by apply H1). done.
Qed.

End Props.

(** ** The wire format *)

Lemma length_flat_map_be n (l : list Z) : length (flat_map (be_bytes n) l) = (n * length l)%nat.
Proof. induction l as [|x l IH]; simpl; [lia|]. rewrite length_app, length_be_bytes, IH. lia. Qed.

Lemma read_slots_flat (l : list Z) rest :
  Forall (fun v => 0 <= v < 65536) l -> read_slots (length l) (flat_map (be_bytes 2) l ++ rest) = l.
Proof.
  induction 1 as [|v l Hv _ IH]; [done|]. cbn [length read_slots flat_map]. rewrite <- app_assoc.
  rewrite take_app_length', drop_app_length', IH by (by rewrite length_be_bytes).
  rewrite be_value_be_bytes, Z.mod_small by lia. done.
Qed.

Lemma length_marshal c k : cf_wf c k -> Z.of_nat (length (CuckooMarshal c)) = 8 + 8 * 2 ^ k.
Proof.
  intros Hw. unfold CuckooMarshal. rewrite length_app, length_be_bytes, length_flat_map_be.
  pose proof (wf_len _ _ Hw). lia.
Qed.

Lemma unmarshal_marshal c k : cf_wf c k -> CuckooUnmarshal (CuckooMarshal c) = Ok (set_kick 0 c).
Proof.
  intros Hw. pose proof (length_marshal c k Hw) as Hl. pose proof (pow2_bound k (wf_k _ _ Hw)) as Hb.
  unfold CuckooUnmarshal. destruct (Nat.ltb_spec (length (CuckooMarshal c)) 8) as [|_]; [lia|].
  assert (be_value (take 8 (CuckooMarshal c)) = 2 ^ k) as ->.
  { unfold CuckooMarshal. rewrite take_app_length' by (by rewrite length_be_bytes).
    rewrite be_value_be_bytes, (wf_nb _ _ Hw), Z.mod_small; [done|]. change (256 ^ Z.of_nat 8) with (2 ^ 64). lia. }
  assert (drop 8 (CuckooMarshal c) = flat_map (be_bytes 2) (cf_buckets c)) as ->.
  { unfold CuckooMarshal. by rewrite drop_app_length' by (by rewrite length_be_bytes). }
  rewrite (proj2 (Z.eqb_neq (2 ^ k) 0)) by lia. rewrite mask_ones, Z.land_ones, Z.mod_same by (try apply Hw; lia).
  cbn [orb negb Z.eqb]. unfold cuckooBucketSize. rewrite length_flat_map_be. pose proof (wf_len _ _ Hw) as Hlen.
  rewrite (wrapu64_id (2 ^ k * 4)) by (unfold is_uint64, max_uint64; lia).
  rewrite (wrapu64_id (2 ^ k * 4 * 2)) by (unfold is_uint64, max_uint64; lia).
  rewrite (proj2 (Z.eqb_eq _ _)) by lia. cbn [negb].
  rewrite (proj2 (Z.ltb_ge max_int64 (2 ^ k * 4))) by (unfold max_int64; lia).
  replace (Z.to_nat (2 ^ k * 4)) with (length (cf_buckets c)) by lia.
  pose proof (read_slots_flat (cf_buckets c) [] (wf_slots _ _ Hw)) as Hr. rewrite app_nil_r in Hr. rewrite Hr.
  unfold set_kick. by rewrite <- (wf_count _ _ Hw), (wf_nb _ _ Hw).
Qed.

Lemma contains_set_kick `{!Hash64} n c key : CuckooMaybeContains (set_kick n c) key = CuckooMaybeContains c key.
Proof. done. Qed.

(** The filter has no false negatives.  Whatever keys are added, and however
    often residents are evicted and relocated to make room, as long as every
    [Add] returned nil each of those keys is reported as present; neither [Add]
    nor the query ever panics; and the filter survives the wire: decoding its
    encoding gives back its buckets, size and count (only the eviction seed
    restarts), so a peer answers every query exactly as the sender. *)
Theorem cuckoo_no_false_negatives `{!Hash64} (capacity : Z) (keys : list bytes) (c : CuckooFilter) (key : bytes) :
  0 <= capacity <= 2 ^ 61 -> add_all (NewCuckooFilter capacity) keys = Some c ->
  (key ∈ keys -> CuckooMaybeContains c key = Some true)
  /\ is_Some (CuckooAdd c key) /\ is_Some (CuckooMaybeContains c key)
  /\ CuckooUnmarshal (CuckooMarshal c) = Ok (set_kick 0 c)
  /\ CuckooMaybeContains (set_kick 0 c) key = CuckooMaybeContains c key.
Proof.
  intros Hc E. destruct (new_wf capacity Hc) as [k Hw]. destruct (add_all_spec _ k _ _ Hw E) as (Hw' & Hks & _).
  destruct (contains_spec c k key Hw') as (b & Eb & Hb). destruct (cuckoo_add_spec c k key Hw') as (c' & ok & Ea & _).
  split_and!; [|by rewrite Ea|by rewrite Eb|by apply (unmarshal_marshal c k)|apply contains_set_kick].
  intros Hin%Hks%Hb. by subst.
Qed.

(** ** Chains *)

(** Chains built by [ChainAdd], the active segment never reporting it is full. *)
Inductive chain_run `{!Hash64} : CuckooChain -> list bytes -> Prop :=
  | chain_empty : chain_run (mkChain [] None) []
  | chain_add cc keys key cc' b seg :
      chain_run cc keys -> ChainAdd cc key = Some (cc', b) -> CuckooAdd (rotate cc).2 key = Some (seg, true) ->
      chain_run cc' (key :: keys).

Definition seg_wf (f : CuckooFilter) : Prop := cf_wf f 11.

Lemma chunk_wf : seg_wf (NewCuckooFilter cuckooChainChunk).
Proof.
  destruct (new_wf cuckooChainChunk) as [k Hw]; [by vm_compute|].
  assert (k = 11) as ->; [|done]. pose proof (wf_nb _ _ Hw) as Hn.
  assert (cf_numBuckets (NewCuckooFilter cuckooChainChunk) = 2 ^ 11) as E by (vm_compute; reflexivity).
  rewrite E in Hn. apply (Z.pow_inj_r 2) in Hn; [done|lia|lia|]. apply Hw.
Qed.

Lemma rotate_spec cc :
  Forall seg_wf (segments cc) ->
  seg_wf (rotate cc).2 /\ Forall seg_wf (rotate cc).1
  /\ (forall f, f ∈ segments cc -> f ∈ (rotate cc).1 \/ f = (rotate cc).2).
Proof.
  unfold segments, rotate. intros [Hs Ha]%Forall_app. destruct (cc_active cc) as [a|].
  - apply list.Forall_cons in Ha as [Ha _]. destruct (cuckooChainChunk <=? cf_count a); cbn [fst snd].
    + split_and!; [apply chunk_wf|apply Forall_app; split; [done|constructor; [done|constructor]]|]. auto.
    + split_and!; [done..|]. intros f [|Hf]%elem_of_app; [auto|]. apply list_elem_of_singleton in Hf. auto.
  - cbn [fst snd]. split_and!; [apply chunk_wf|done|]. rewrite app_nil_r. auto.
Qed.

Lemma any_contains_spec `{!Hash64} fs key :
  Forall seg_wf fs -> exists b, any_contains fs key = Some b /\ (b = true <-> exists f, f ∈ fs /\ stored f key).
Proof.
  induction 1 as [|f fs Hf _ IH]; cbn [any_contains].
  - exists false. split; [done|]. split; [done|]. by intros (? & ?%elem_of_nil & _).
  - destruct (contains_spec f 11 key Hf) as (b & -> & Hb). cbn [mbind option_bind]. destruct b.
    + exists true. split; [done|]. split; [|done]. intros _. exists f. split; [constructor|by apply Hb].
    + destruct IH as (b & -> & Hbs). exists b. split; [done|]. rewrite Hbs. split.
      * intros (g & ? & ?). exists g. split; [by constructor|done].
      * intros (g & [->|]%elem_of_cons & Hg); [by apply Hb in Hg|]. eauto.
Qed.

Lemma chain_contains_spec `{!Hash64} cc key :
  Forall seg_wf (segments cc) ->
  exists b, ChainMaybeContains cc key = Some b /\ (b = true <-> exists f, f ∈ segments cc /\ stored f key).
Proof.
  intros Hs. unfold ChainMaybeContains.
  assert (match cc_active cc with Some a => [a] | None => [] end ++ cc_sealed cc ≡ₚ segments cc) as Hp
    by (unfold segments; apply Permutation_app_comm).
  destruct (any_contains_spec (match cc_active cc with Some a => [a] | None => [] end ++ cc_sealed cc) key) as (b & -> & Hb).
  { by rewrite Hp. }
  exists b. split; [done|]. rewrite Hb. by setoid_rewrite Hp.
Qed.

Lemma chain_run_spec `{!Hash64} cc keys :
  chain_run cc keys ->
  Forall seg_wf (segments cc) /\ forall key, key ∈ keys -> exists f, f ∈ segments cc /\ stored f key.
Proof.
  induction 1 as [|cc keys key cc' b seg _ [Hwf Hks] Ha Hok].
  { split; [constructor|]. by intros ? ?%elem_of_nil. }
  destruct (rotate_spec cc Hwf) as (Hact & Hsl & Hin). unfold ChainAdd in Ha.
  destruct (rotate cc) as [sealed active]. cbn [fst snd] in *. rewrite Hok in Ha.
  injection Ha as <- _. destruct (cuckoo_add_spec active 11 key Hact) as (c' & ok & E & Hw' & Hst). rewrite Hok in E.
  injection E as <- <-. destruct (Hst eq_refl) as [Hkey Hkeep]. unfold segments. cbn [cc_sealed cc_active]. split.
  - apply Forall_app. split; [done|]. constructor; [done|constructor].
  - intros k [->|Hk]%elem_of_cons.
    + exists seg. split; [|done]. apply elem_of_app. right. constructor.
    + destruct (Hks k Hk) as (f & Hf & Hs). destruct (Hin f Hf) as [| ->].
      * exists f. split; [|done]. apply elem_of_app. by left.
      * exists seg. split; [|auto]. apply elem_of_app. right. constructor.
Qed.

Lemma read_segments_spec fs :
  Forall seg_wf fs ->
  read_segments (length fs) (flat_map (fun f => let b := CuckooMarshal f in be_bytes 4 (Z.of_nat (length b)) ++ b) fs)
  = Ok (map (set_kick 0) fs).
Proof.
  induction 1 as [|f fs Hf _ IH]; [done|]. cbn [length read_segments flat_map map].
  pose proof (length_marshal f 11 Hf) as Hl. set (b := CuckooMarshal f) in *. rewrite <- !app_assoc.
  match goal with |- context [ (?a <? ?c)%nat ] => destruct (Nat.ltb_spec a c) as [Hlt|_] end.
  { rewrite length_app, length_be_bytes in Hlt. lia. }
  rewrite take_app_length', drop_app_length' by (by rewrite length_be_bytes).
  rewrite be_value_be_bytes, Z.mod_small, Nat2Z.id by (change (256 ^ Z.of_nat 4) with (2 ^ 32); lia).
  match goal with |- context [ (?a <? ?c)%nat ] => destruct (Nat.ltb_spec a c) as [Hlt|_] end.
  { rewrite length_app in Hlt. lia. }
  rewrite take_app_length', drop_app_length' by done. unfold b. rewrite (unmarshal_marshal f 11 Hf).
  cbv zeta in IH. by rewrite IH.
Qed.

Lemma length_flat_map_ge {A} (g : A -> bytes) (l : list A) :
  (forall x, (4 <= length (g x))%nat) -> (4 * length l <= length (flat_map g l))%nat.
Proof. intros Hg. induction l as [|x l IH]; simpl; [lia|]. rewrite length_app. specialize (Hg x). lia. Qed.

Lemma chain_unmarshal_marshal cc :
  Forall seg_wf (segments cc) -> Z.of_nat (length (segments cc)) < 2 ^ 32 ->
  ChainUnmarshal (ChainMarshal cc) = Ok (mkChain (map (set_kick 0) (segments cc)) None).
Proof.
  intros Hs Hn. unfold ChainUnmarshal, ChainMarshal.
  set (enc := fun f => let b := CuckooMarshal f in be_bytes 4 (Z.of_nat (length b)) ++ b).
  pose proof (length_flat_map_ge enc (segments cc)) as Hge.
  assert (4 * length (segments cc) <= length (flat_map enc (segments cc)))%nat as Hge'.
  { apply Hge. intros f. unfold enc. cbv zeta. rewrite length_app, length_be_bytes. lia. }
  rewrite length_app, length_be_bytes.
  destruct (Nat.ltb_spec (4 + length (flat_map enc (segments cc))) 4) as [|_]; [lia|].
  rewrite take_app_length', drop_app_length' by (by rewrite length_be_bytes).
  rewrite be_value_be_bytes, Z.mod_small by (change (256 ^ Z.of_nat 4) with (2 ^ 32); lia).
  rewrite (proj2 (Z.ltb_ge _ _)) by (apply Z.div_le_lower_bound; lia).
  rewrite Nat2Z.id. pose proof (read_segments_spec (segments cc) Hs) as Hr. fold enc in Hr. by rewrite Hr.
Qed.

(** A chain of segments answers for every key ever added to it, across
    rotations, on the node that built it and on a peer that received it: the
    decoded chain gives the same answer to every query. *)
Theorem chain_no_false_negatives `{!Hash64} (cc : CuckooChain) (keys : list bytes) :
  chain_run cc keys -> Z.of_nat (length (segments cc)) < 2 ^ 32 ->
  (forall key, key ∈ keys -> ChainMaybeContains cc key = Some true)
  /\ exists cc', ChainUnmarshal (ChainMarshal cc) = Ok cc'
       /\ forall key, ChainMaybeContains cc' key = ChainMaybeContains cc key.
Proof.
  intros Hr Hn. destruct (chain_run_spec cc keys Hr) as [Hwf Hks]. split.
  - intros key Hin%Hks. destruct (chain_contains_spec cc key Hwf) as (b & -> & Hb). apply Hb in Hin. by subst.
  - eexists. split; [by apply chain_unmarshal_marshal|]. intros key.
    destruct (chain_contains_spec cc key Hwf) as (b & -> & Hb).
    set (cc' := mkChain (map (set_kick 0) (segments cc)) None).
    assert (segments cc' = map (set_kick 0) (segments cc)) as Es by (unfold segments at 1; simpl; apply app_nil_r).
    destruct (chain_contains_spec cc' key) as (b' & -> & Hb').
    { rewrite Es. apply Forall_map. eapply Forall_impl; [|exact Hwf]. intros f [? ? ? ? ?]. by split. }
    f_equal. apply Bool.eq_iff_eq_true. rewrite Hb, Hb', Es. split.
    + intros (f & (g & -> & Hg)%list_elem_of_fmap & Hs). exists g. split; [done|]. exact Hs.
    + intros (f & Hf & Hs). exists (set_kick 0 f). split; [|exact Hs]. apply list_elem_of_fmap. eauto.
Qed.

(** The length check of the decoder is not sound.  It compares the body
    with [numBuckets * 4 * 2] computed modulo 2^64: an eight-byte message that
    announces 2^62 buckets is accepted as a filter without slots, and querying
    that filter for any key goes out of range, which panics. *)
Theorem oversized_filter_accepted `{!Hash64} (key : bytes) :
  let msg := be_bytes 8 (2 ^ 62) in
  CuckooUnmarshal msg = Ok (mkCuckoo [] (2 ^ 62) 0 0)
  /\ CuckooMaybeContains (mkCuckoo [] (2 ^ 62) 0 0) key = None.
Proof.
  cbv zeta. split; [vm_compute; reflexivity|].
  unfold CuckooMaybeContains, fingerprintAndIndices. set (i1 := Z.land _ _). unfold bucket.
  cbn [cf_buckets length].
  destruct (Z.leb_spec (wrapu64 (i1 * cuckooBucketSize) + cuckooBucketSize) (Z.of_nat 0)) as [Hle|_]; [|reflexivity].
  pose proof (wrapu64_range (i1 * cuckooBucketSize)) as Hr. unfold is_uint64, cuckooBucketSize in *. lia.
Qed.
