(* ===== verification/Bloom.v ===== *)
(** * The Bloom key-name filter (effects/bloom.go) *)

From S2P Require Import Prelude Golib.

Record Bloom := mkBloom {
  bl_bits : list Z;       (* bytes *)
  bl_mask : Z;            (* uint64 *)
  bl_setBits : Z;         (* uint64 *)
}.

Definition bloomK : nat := 7.
Definition BloomMinBytes : Z := 4096.
Definition BloomTargetBitsPerKey : Z := 10.
Definition bloomFrameVersion : byte := x01.

(** [n <<= 1] while [n < sizeBytes]. *)
Fixpoint grow (fuel : nat) (n sizeBytes : Z) : Z :=
  match fuel with
  | O => n
  | S fuel' => if n <? sizeBytes then grow fuel' (wrap64 (Z.shiftl n 1)) sizeBytes else n
  end.

Definition NewBloom (sizeBytes : Z) : Bloom :=
  let n := grow 64 BloomMinBytes sizeBytes in
  mkBloom (replicate (Z.to_nat n) 0) (wrapu64 (wrapu64 (n * 8) - 1)) 0.

Definition NewBloomForCount (count : Z) : Bloom :=
  NewBloom (Z.quot (wrap64 (wrap64 (count * BloomTargetBitsPerKey) + 7)) 8).

Definition position (b : Bloom) (h i : Z) : Z :=
  Z.land (wrapu64 (h + wrapu64 (i * Z.lor (Z.shiftr h 32) 1))) (bl_mask b).

(** The byte that holds bit [g], and the mask of the bit in it. *)
Definition byte_at (b : Bloom) (g : Z) : Z := default 0 (bl_bits b !! Z.to_nat (Z.shiftr g 3)).
Definition bit_of (g : Z) : Z := Z.shiftl 1 (Z.land g 7).
Definition bit_clear (b : Bloom) (g : Z) : bool := Z.land (byte_at b g) (bit_of g) =? 0.

Definition set_bit (b : Bloom) (g : Z) : Bloom :=
  mkBloom (<[ Z.to_nat (Z.shiftr g 3) := Z.lor (byte_at b g) (bit_of g) ]> (bl_bits b)) (bl_mask b)
    (wrapu64 (bl_setBits b + 1)).

Definition set_position (h : Z) (st : Bloom * bool) (i : nat) : Bloom * bool :=
  let g := position st.1 h (Z.of_nat i) in
  if bit_clear st.1 g then (set_bit st.1 g, true) else st.

Definition SetHash (b : Bloom) (h : Z) : Bloom * bool := fold_left (set_position h) (seq 0 bloomK) (b, false).

Definition HasHash (b : Bloom) (h : Z) : bool :=
  forallb (fun i => negb (bit_clear b (position b h (Z.of_nat i)))) (seq 0 bloomK).

Section Names.
Context {hash : Hash64}.

Definition BloomHash (name : bytes) : Z := xxhash name.
Definition BloomSet (b : Bloom) (name : bytes) : Bloom * bool := SetHash b (BloomHash name).
Definition BloomHas (b : Bloom) (name : bytes) : bool := HasHash b (BloomHash name).
End Names.

Definition Frame (b : Bloom) : bytes := bloomFrameVersion :: map z2b (bl_bits b).

(** [bits.OnesCount8] *)
Definition ones8 (v : Z) : Z := Z.of_nat (length (filter (fun i => Z.testbit v (Z.of_nat i) = true) (seq 0 8))).
Definition popcount (l : list Z) : Z := fold_right (fun v acc => ones8 v + acc) 0 l.

(** [None] is the error. *)
Definition ParseBloomFrame (data : bytes) : option Bloom :=
  match data with
  | v :: body =>
      if negb (bool_decide (v = bloomFrameVersion)) then None
      else
        let n := Z.of_nat (length body) in
        if (n <? BloomMinBytes) || negb (Z.land n (n - 1) =? 0) then None
        else let bits := map b2z body in
             Some (mkBloom bits (wrapu64 (wrapu64 (n * 8) - 1)) (wrapu64 (popcount bits)))
  | [] => None
  end.

(** ** Bits *)

Lemma bit_of_pow g : bit_of g = 2 ^ (g mod 8).
Proof. unfold bit_of. change 7 with (Z.ones 3). rewrite Z.land_ones, Z.shiftl_1_l by lia. done. Qed.

Definition has_bit (b : Bloom) (g : Z) : bool := Z.testbit (byte_at b g) (g mod 8).

Lemma land_pow2_zero a r : 0 <= r -> (Z.land a (2 ^ r) =? 0) = negb (Z.testbit a r).
Proof.
  intros Hr. destruct (Z.testbit a r) eqn:E; simpl.
  - apply Z.eqb_neq. intros H. apply (f_equal (fun z => Z.testbit z r)) in H.
    rewrite Z.land_spec, E, Z.pow2_bits_true, Z.bits_0 in H by done. done.
  - apply Z.eqb_eq. apply Z.bits_inj'. intros n Hn. rewrite Z.land_spec, Z.bits_0.
    destruct (decide (n = r)) as [->|]; [by rewrite E|]. rewrite Z.pow2_bits_false by lia. apply andb_false_r.
Qed.

Lemma bit_clear_spec b g : 0 <= g -> bit_clear b g = negb (has_bit b g).
Proof. intros Hg. unfold bit_clear, has_bit. rewrite bit_of_pow. apply land_pow2_zero. apply Z.mod_pos_bound. lia. Qed.

(** ** Well-formed filters *)

Record bl_wf (b : Bloom) (k : Z) : Prop := {
  bw_k : 12 <= k <= 56;
  bw_len : Z.of_nat (length (bl_bits b)) = 2 ^ k;
  bw_mask : bl_mask b = Z.ones (k + 3);
  bw_bytes : Forall (fun v => 0 <= v < 256) (bl_bits b);
  bw_count : bl_setBits b = popcount (bl_bits b);
}.

Lemma pow2_small k : 12 <= k <= 56 -> 4096 <= 2 ^ k <= 2 ^ 56.
Proof. intros. split; [apply (Z.pow_le_mono_r 2 12 k); lia|apply Z.pow_le_mono_r; lia]. Qed.

Lemma position_range b k h i : bl_wf b k -> 0 <= position b h i < 8 * 2 ^ k.
Proof.
  intros Hw. pose proof (bw_k _ _ Hw). unfold position. rewrite (bw_mask _ _ Hw), Z.land_ones by lia.
  pose proof (Z.mod_pos_bound (wrapu64 (h + wrapu64 (i * Z.lor (Z.shiftr h 32) 1))) (2 ^ (k + 3)) ltac:(lia)) as H1.
  rewrite Z.pow_add_r in H1 by lia. rewrite Z.pow_add_r by lia. lia.
Qed.

Lemma byte_index b k g : bl_wf b k -> 0 <= g < 8 * 2 ^ k ->
  Z.shiftr g 3 = g / 8 /\ (Z.to_nat (g / 8) < length (bl_bits b))%nat.
Proof.
  intros Hw Hg. rewrite Z.shiftr_div_pow2 by lia. split; [done|]. pose proof (bw_len _ _ Hw).
  assert (g / 8 < 2 ^ k) by (apply Z.div_lt_upper_bound; lia). assert (0 <= g / 8) by (apply Z.div_pos; lia). lia.
Qed.

Lemma ones8_lor v r : 0 <= v < 256 -> 0 <= r < 8 -> Z.testbit v r = false -> ones8 (Z.lor v (2 ^ r)) = ones8 v + 1.
Proof.
  intros Hv Hr Ht.
  assert (forallb (fun v => forallb (fun r => Z.testbit (Z.of_nat v) (Z.of_nat r)
            || (ones8 (Z.lor (Z.of_nat v) (2 ^ Z.of_nat r)) =? ones8 (Z.of_nat v) + 1)) (seq 0 8)) (seq 0 256) = true) as H
    by (vm_compute; reflexivity).
  rewrite forallb_forall in H. specialize (H (Z.to_nat v) ltac:(apply in_seq; lia)). rewrite forallb_forall in H.
  specialize (H (Z.to_nat r) ltac:(apply in_seq; lia)). rewrite !Z2Nat.id, Ht in H by lia. simpl in H. lia.
Qed.

Lemma lor_byte v r : 0 <= v < 256 -> 0 <= r < 8 -> 0 <= Z.lor v (2 ^ r) < 256.
Proof.
  intros Hv Hr. split; [apply Z.lor_nonneg; lia|]. change 256 with (2 ^ 8).
  destruct (decide (Z.lor v (2 ^ r) = 0)) as [->|Hne]; [lia|].
  apply Z.log2_lt_pow2; [assert (0 <= Z.lor v (2 ^ r)) by (apply Z.lor_nonneg; lia); lia|].
  rewrite Z.log2_lor by lia. rewrite Z.log2_pow2 by lia. apply Z.max_lub_lt; [|lia].
  destruct (decide (v = 0)) as [->|]; [simpl; lia|]. apply Z.log2_lt_pow2; lia.
Qed.

Lemma popcount_insert l j old v :
  l !! j = Some old -> popcount (<[ j := v ]> l) = popcount l - ones8 old + ones8 v.
Proof.
  revert j. induction l as [|x l IH]; intros [|j] H; simpl in *; try done.
  - injection H as ->. lia.
  - rewrite (IH j H). lia.
Qed.

Lemma ones8_bound v : 0 <= ones8 v <= 8.
Proof. unfold ones8. pose proof (length_filter (fun i => Z.testbit v (Z.of_nat i) = true) (seq 0 8)). simpl length in *. lia. Qed.

Lemma popcount_bound l : 0 <= popcount l <= 8 * Z.of_nat (length l).
Proof. induction l as [|x l IH]; simpl; [lia|]. pose proof (ones8_bound x). lia. Qed.

(** Setting one clear bit. *)
Lemma set_bit_spec b k g :
  bl_wf b k -> 0 <= g < 8 * 2 ^ k -> has_bit b g = false ->
  bl_wf (set_bit b g) k /\ forall g', 0 <= g' < 8 * 2 ^ k -> has_bit (set_bit b g) g' = bool_decide (g' = g) || has_bit b g'.
Proof.
  intros Hw Hg Hc. destruct (byte_index b k g Hw Hg) as [Hs Hi].
  destruct (lookup_lt_is_Some_2 _ _ Hi) as [v Hv].
  assert (byte_at b g = v) as Hb by (unfold byte_at; by rewrite Hs, Hv).
  assert (0 <= v < 256) as Hvr by (eapply Forall_lookup_1 in Hv; [|apply (bw_bytes _ _ Hw)]; done).
  pose proof (Z.mod_pos_bound g 8 ltac:(lia)) as Hm.
  assert (Z.testbit v (g mod 8) = false) as Ht by (unfold has_bit in Hc; by rewrite Hb in Hc).
  unfold set_bit. rewrite bit_of_pow, Hb, Hs. split.
  - destruct Hw as [Hk Hlen Hmask Hby Hcnt]. split; simpl.
    + done.
    + by rewrite length_insert.
    + done.
    + apply Forall_insert; [done|]. by apply lor_byte.
    + rewrite (popcount_insert _ _ v) by done. rewrite ones8_lor by done.
      pose proof (popcount_bound (bl_bits b)). pose proof (pow2_small k Hk).
      rewrite Hcnt, wrapu64_id by (unfold is_uint64, max_uint64; lia). lia.
  - intros g' Hg'. destruct (byte_index b k g' Hw Hg') as [Hs' Hi'].
    unfold has_bit at 1, byte_at. simpl. rewrite Hs'.
    destruct (decide (g' / 8 = g / 8)) as [Eq|Hne].
    + rewrite Eq, list_lookup_insert_eq by done. simpl. rewrite Z.lor_spec.
      assert (has_bit b g' = Z.testbit v (g' mod 8)) as ->.
      { unfold has_bit, byte_at. by rewrite Hs', Eq, Hv. }
      rewrite orb_comm. f_equal. pose proof (Z.mod_pos_bound g' 8 ltac:(lia)).
      destruct (decide (g' = g)) as [->|Hgg]; [rewrite Z.pow2_bits_true by lia; by rewrite bool_decide_eq_true_2|].
      rewrite Z.pow2_bits_false; [by rewrite bool_decide_eq_false_2|].
      intros E. apply Hgg. rewrite (Z.div_mod g' 8), (Z.div_mod g 8), Eq, E by lia. done.
    + rewrite list_lookup_insert_ne.
      2:{ intros E. apply Hne. assert (0 <= g / 8) by (apply Z.div_pos; lia). assert (0 <= g' / 8) by (apply Z.div_pos; lia). lia. }
      rewrite bool_decide_eq_false_2 by (intros ->; done). simpl. unfold has_bit, byte_at. by rewrite Hs'.
Qed.

Lemma set_positions_spec b k h l fl :
  bl_wf b k ->
  let '(b', fl') := fold_left (set_position h) l (b, fl) in
  bl_wf b' k
  /\ (forall g, 0 <= g < 8 * 2 ^ k -> has_bit b' g = has_bit b g || existsb (fun i => bool_decide (g = position b h (Z.of_nat i))) l)
  /\ (fl' = true <-> fl = true \/ exists i, i ∈ l /\ has_bit b (position b h (Z.of_nat i)) = false).
Proof.
  revert b fl. induction l as [|i l IH]; intros b fl Hw; cbn [fold_left].
  { split_and!; [done| |].
    - intros g _. simpl. by rewrite orb_false_r.
    - split; [auto|]. intros [|(? & ?%elem_of_nil & _)]; done. }
  pose proof (position_range b k h (Z.of_nat i) Hw) as Hr.
  unfold set_position at 2. cbn [fst]. rewrite bit_clear_spec by lia.
  set (g0 := position b h (Z.of_nat i)) in *. destruct (has_bit b g0) eqn:Hb; cbn [negb].
  - specialize (IH b fl Hw). destruct (fold_left (set_position h) l (b, fl)) as [b' fl']. destruct IH as (H1 & H2 & H3).
    split_and!; [done| |].
    + intros g Hg. rewrite H2 by done. simpl. destruct (decide (g = g0)) as [->|Hne].
      * by rewrite Hb.
      * by rewrite (bool_decide_eq_false_2 (g = g0)) by done.
    + rewrite H3. split; (intros [|(j & Hj & E)]; [auto|right]); [exists j; split; [by constructor|done]|].
      apply elem_of_cons in Hj as [->|Hj]; [fold g0 in E; congruence|eauto].
  - destruct (set_bit_spec b k g0 Hw Hr Hb) as [Hw1 Hset]. specialize (IH (set_bit b g0) true Hw1).
    destruct (fold_left (set_position h) l (set_bit b g0, true)) as [b' fl']. destruct IH as (H1 & H2 & H3).
    split_and!; [done| |].
    + intros g Hg. rewrite H2, Hset by done. simpl. unfold g0.
      destruct (bool_decide (g = position b h (Z.of_nat i))), (has_bit b g); done.
    + split; [|intros _; apply H3; by left]. intros _. right. exists i. split; [constructor|done].
Qed.

Lemma HasHash_spec b k h :
  bl_wf b k -> HasHash b h = true <-> forall i, i ∈ seq 0 bloomK -> has_bit b (position b h (Z.of_nat i)) = true.
Proof.
  intros Hw. unfold HasHash. rewrite forallb_forall.
  assert (forall i, negb (bit_clear b (position b h (Z.of_nat i))) = has_bit b (position b h (Z.of_nat i))) as Hn.
  { intros i. rewrite bit_clear_spec by (pose proof (position_range b k h (Z.of_nat i) Hw); lia). apply negb_involutive. }
  split; intros H i Hi; [rewrite <- Hn|rewrite Hn]; apply H, list_elem_of_In; done.
Qed.

Lemma SetHash_spec b k h :
  bl_wf b k ->
  bl_wf (SetHash b h).1 k /\ HasHash (SetHash b h).1 h = true
  /\ (forall h', HasHash b h' = true -> HasHash (SetHash b h).1 h' = true)
  /\ (SetHash b h).2 = negb (HasHash b h).
Proof.
  intros Hw. unfold SetHash. pose proof (set_positions_spec b k h (seq 0 bloomK) false Hw) as Hs.
  destruct (fold_left (set_position h) (seq 0 bloomK) (b, false)) as [b' fl]. destruct Hs as (Hw' & Hb & Hf).
  assert (forall h' i, position b' h' i = position b h' i) as Hp
    by (intros h' i; unfold position; by rewrite (bw_mask _ _ Hw), (bw_mask _ _ Hw')).
  cbn [fst snd]. split_and!; [done| | |].
  - apply (HasHash_spec b' k h Hw'). intros i Hi. rewrite Hp, Hb by (by apply position_range).
    apply orb_true_iff. right. apply existsb_exists. exists i. split; [by apply list_elem_of_In|by apply bool_decide_eq_true].
  - intros h' Hh. apply (HasHash_spec b' k h' Hw'). intros i Hi. rewrite Hp, Hb by (by apply position_range).
    apply orb_true_iff. left. by apply (HasHash_spec b k h' Hw).
  - apply Bool.eq_iff_eq_true. rewrite Hf, negb_true_iff, <- not_true_iff_false, (HasHash_spec b k h Hw). split.
    + intros [|(i & Hi & E)]; [done|]. intros H. rewrite (H i Hi) in E. done.
    + intros Hn. right. destruct (existsb (fun i => negb (has_bit b (position b h (Z.of_nat i)))) (seq 0 bloomK)) eqn:Ex.
      * apply existsb_exists in Ex as (i & Hi & E%negb_true_iff). exists i. split; [by apply list_elem_of_In|done].
      * destruct Hn. intros i Hi. apply not_false_iff_true. intros E. apply not_true_iff_false in Ex. apply Ex.
        apply existsb_exists. exists i. split; [by apply list_elem_of_In|by rewrite E].
Qed.

(** ** Fresh filters *)

Lemma grow_spec fuel j m size :
  12 <= j <= m -> m <= 56 -> size <= 2 ^ m -> m - j <= Z.of_nat fuel ->
  exists k, j <= k <= m /\ grow fuel (2 ^ j) size = 2 ^ k /\ size <= 2 ^ k.
Proof.
  intros Hj Hm Hw. revert j Hj. induction fuel as [|fuel IH]; intros j Hj Hf; cbn [grow].
  - exists j. replace m with j in Hw by lia. split_and!; [lia..|done|done].
  - destruct (Z.ltb_spec (2 ^ j) size) as [Hlt|Hge]; [|exists j; split_and!; [lia..|done|lia]].
    assert (j < m) as Hjm by (destruct (decide (j = m)) as [->|]; lia).
    rewrite Z.shiftl_mul_pow2 by lia. rewrite <- Z.pow_add_r by lia.
    rewrite wrap64_id by (unfold is_int64, min_int64, max_int64; pose proof (pow2_small (j + 1) ltac:(lia)); lia).
    destruct (IH (j + 1) ltac:(lia) ltac:(lia)) as (k & ? & ? & ?). exists k. split_and!; [lia..|done|done].
Qed.

Lemma mask_of k : 12 <= k <= 56 -> wrapu64 (wrapu64 (2 ^ k * 8) - 1) = Z.ones (k + 3).
Proof.
  intros Hk. pose proof (pow2_small k Hk). rewrite Z.ones_equiv, Z.pow_add_r by lia.
  rewrite (wrapu64_id (2 ^ k * 8)) by (unfold is_uint64, max_uint64; lia).
  rewrite wrapu64_id by (unfold is_uint64, max_uint64; lia). lia.
Qed.

Lemma NewBloom_wf size : size <= 2 ^ 56 -> exists k, bl_wf (NewBloom size) k /\ size <= 2 ^ k.
Proof.
  intros Hs. unfold NewBloom.
  destruct (grow_spec 64 12 56 size ltac:(lia) ltac:(lia) Hs ltac:(lia)) as (k & Hk & E & Hle).
  change (2 ^ 12) with BloomMinBytes in E. rewrite E. exists k. split; [|done]. pose proof (pow2_small k ltac:(lia)).
  split; cbn [bl_bits bl_mask bl_setBits].
  - lia.
  - rewrite length_replicate. lia.
  - apply mask_of. lia.
  - apply Forall_replicate. lia.
  - generalize (Z.to_nat (2 ^ k)) as n. intros n. induction n as [|n IH]; [done|].
    change (popcount (replicate (S n) 0)) with (ones8 0 + popcount (replicate n 0)). rewrite <- IH. done.
Qed.

(** Setting a sequence of names. *)
Definition set_all `{!Hash64} (b : Bloom) (names : list bytes) : Bloom := fold_left (fun b n => (BloomSet b n).1) names b.

Lemma set_all_spec `{!Hash64} b k names :
  bl_wf b k ->
  bl_wf (set_all b names) k /\ (forall n, n ∈ names -> BloomHas (set_all b names) n = true)
  /\ (forall n, BloomHas b n = true -> BloomHas (set_all b names) n = true).
Proof.
  unfold set_all. revert b. induction names as [|x names IH]; intros b Hw; cbn [fold_left].
  { split_and!; [done|by intros ? ?%elem_of_nil|done]. }
  destruct (SetHash_spec b k (BloomHash x) Hw) as (Hw1 & Hx & Hm & _).
  destruct (IH (BloomSet b x).1 Hw1) as (H1 & H2 & H3). split_and!; [done| |].
  - intros n [->|Hn]%elem_of_cons; [apply H3; exact Hx|auto].
  - intros n Hn. apply H3. by apply Hm.
Qed.

Lemma frame_roundtrip b k : bl_wf b k -> ParseBloomFrame (Frame b) = Some b.
Proof.
  intros Hw. pose proof (bw_k _ _ Hw) as Hk. pose proof (pow2_small k Hk) as Hb. pose proof (bw_len _ _ Hw) as Hl.
  unfold ParseBloomFrame, Frame. rewrite bool_decide_eq_true_2 by done. cbn [negb]. rewrite length_map, Hl.
  unfold BloomMinBytes. rewrite (proj2 (Z.ltb_ge (2 ^ k) 4096)) by lia.
  replace (2 ^ k - 1) with (Z.ones k) by (rewrite Z.ones_equiv; lia). rewrite Z.land_ones, Z.mod_same by lia. cbn [orb negb Z.eqb].
  assert (map b2z (map z2b (bl_bits b)) = bl_bits b) as ->.
  { rewrite map_map. rewrite <- (map_id (bl_bits b)) at 2. apply map_ext_in. intros v Hv. rewrite b2z_z2b, Z.mod_small; [done|].
    pose proof (bw_bytes _ _ Hw) as Hf. rewrite Forall_forall in Hf. by apply Hf. }
  rewrite mask_of, <- (bw_mask _ _ Hw), <- (bw_count _ _ Hw) by done.
  assert (wrapu64 (bl_setBits b) = bl_setBits b) as ->.
  { rewrite (bw_count _ _ Hw). apply wrapu64_id. pose proof (popcount_bound (bl_bits b)). unfold is_uint64, max_uint64. lia. }
  by destruct b.
Qed.

(** The Bloom filter has no false negatives, an exact fill count and a
    truthful change signal.  After any sequence of insertions into a fresh
    filter, every inserted name is reported as present, the number of set bits
    is the population count of the bitmap, inserting a name reports a change
    exactly when the name was not reported before, and parsing the frame of the
    filter gives the filter back. *)
Theorem bloom_no_false_negatives `{!Hash64} (size : Z) (names : list bytes) (name : bytes) :
  size <= 2 ^ 56 ->
  let b := set_all (NewBloom size) names in
  (name ∈ names -> BloomHas b name = true)
  /\ bl_setBits b = popcount (bl_bits b)
  /\ (BloomSet b name).2 = negb (BloomHas b name)
  /\ BloomHas (BloomSet b name).1 name = true
  /\ ParseBloomFrame (Frame b) = Some b.
Proof.
  intros Hs. destruct (NewBloom_wf size Hs) as (k & Hw & _).
  destruct (set_all_spec (NewBloom size) k names Hw) as (Hw' & Hn & _). cbv zeta.
  destruct (SetHash_spec _ k (BloomHash name) Hw') as (_ & Hhas & _ & Hflag). split_and!.
  - apply Hn.
  - apply Hw'.
  - exact Hflag.
  - exact Hhas.
  - by apply (frame_roundtrip _ k).
Qed.
