(* ===== verification/KeyFilter.v ===== *)
(** * Key filters of the cluster (effects/keyfilter.go)

    What this node believes its peers hold: for each peer a bulk filter, sent
    when the connection is made, and the keys heard of since.  Each method runs
    under one mutex.  [None] is a panic of a filter query. *)

From S2P Require Import Prelude Golib Cuckoo CuckooProps.

Record peerKeyFilter := mkPeerFilter {
  pf_nodeID : Z;
  pf_bulk : CuckooChain;
  pf_bulkVer : Z;          (* uint64 *)
  pf_hasBulk : bool;
  pf_realtime : CuckooChain;
  pf_counted : bool;
}.

(** The fields of the engine under [keyFilterMu]. *)
Record KeyFilters := mkFilters {
  kf_node : Z;
  kf_own : CuckooChain;
  kf_ownVer : Z;                  (* uint64 *)
  kf_ownBytes : option bytes;     (* [None]: nil *)
  kf_ownBytesVer : Z;
  kf_peers : list peerKeyFilter;
  kf_unfiltered : Z;              (* int *)
}.

Definition empty_chain : CuckooChain := mkChain [] None.

Definition new_filters (node : Z) : KeyFilters := mkFilters node empty_chain 0 None 0 [] 0.

Definition set_own (own : CuckooChain) (ver : Z) (kf : KeyFilters) : KeyFilters :=
  mkFilters (kf_node kf) own ver (kf_ownBytes kf) (kf_ownBytesVer kf) (kf_peers kf) (kf_unfiltered kf).

Definition set_bytes (b : bytes) (ver : Z) (kf : KeyFilters) : KeyFilters :=
  mkFilters (kf_node kf) (kf_own kf) (kf_ownVer kf) (Some b) ver (kf_peers kf) (kf_unfiltered kf).

Definition set_peer_filters (peers : list peerKeyFilter) (unfiltered : Z) (kf : KeyFilters) : KeyFilters :=
  mkFilters (kf_node kf) (kf_own kf) (kf_ownVer kf) (kf_ownBytes kf) (kf_ownBytesVer kf) peers unfiltered.

(** ** The own filter *)

Section Filters.
Context {hash : Hash64}.

Definition ownFilterAdd (key : bytes) (kf : KeyFilters) : option KeyFilters :=
  r ← ChainAdd (kf_own kf) key;
  Some (set_own r.1 (if r.2 : bool then wrapu64 (kf_ownVer kf + 1) else kf_ownVer kf) kf).

(** Marshalled again only when the version moved. *)
Definition OwnKeyFilterSnapshot (kf : KeyFilters) : KeyFilters * (bytes * Z) :=
  match kf_ownBytes kf with
  | Some b =>
      if kf_ownBytesVer kf =? kf_ownVer kf then (kf, (b, kf_ownVer kf))
      else let b := ChainMarshal (kf_own kf) in (set_bytes b (kf_ownVer kf) kf, (b, kf_ownVer kf))
  | None => let b := ChainMarshal (kf_own kf) in (set_bytes b (kf_ownVer kf) kf, (b, kf_ownVer kf))
  end.

(** ** The filters of peers, sorted by node *)

Definition node_at (peers : list peerKeyFilter) (i : nat) : Z := match peers !! i with Some pf => pf_nodeID pf | None => 0 end.

(** [slices.BinarySearchFunc] *)
Definition peerFilterIndex (peer : Z) (peers : list peerKeyFilter) : nat * bool :=
  let i := (sort_search (fun (_ : unit) i => (tt, peer <=? node_at peers i)) (length peers) tt).2 in
  (i, match peers !! i with Some pf => pf_nodeID pf =? peer | None => false end).

Definition fresh_filter (peer : Z) : peerKeyFilter := mkPeerFilter peer empty_chain 0 false empty_chain false.

Definition getOrCreatePeerFilter (peer : Z) (peers : list peerKeyFilter) : list peerKeyFilter * nat :=
  let (i, found) := peerFilterIndex peer peers in
  (if found then peers else take i peers ++ fresh_filter peer :: drop i peers, i).

Definition peerFilterAdd (peer : Z) (key : bytes) (kf : KeyFilters) : option KeyFilters :=
  if peer =? kf_node kf then Some kf
  else
    let (peers, i) := getOrCreatePeerFilter peer (kf_peers kf) in
    pf ← peers !! i;
    r ← ChainAdd (pf_realtime pf) key;
    Some (set_peer_filters (<[ i := mkPeerFilter (pf_nodeID pf) (pf_bulk pf) (pf_bulkVer pf) (pf_hasBulk pf) r.1 (pf_counted pf) ]> peers) (kf_unfiltered kf) kf).

Definition NotePeerConnected (peer : Z) (kf : KeyFilters) : option KeyFilters :=
  if peer =? kf_node kf then Some kf
  else
    let (peers, i) := getOrCreatePeerFilter peer (kf_peers kf) in
    pf ← peers !! i;
    Some (if pf_counted pf then set_peer_filters peers (kf_unfiltered kf) kf
          else set_peer_filters (<[ i := mkPeerFilter (pf_nodeID pf) (pf_bulk pf) (pf_bulkVer pf) (pf_hasBulk pf) (pf_realtime pf) true ]> peers)
                 (if pf_hasBulk pf then kf_unfiltered kf else kf_unfiltered kf + 1) kf).

Definition CachePeerFilter (peer : Z) (data : bytes) (version : Z) (kf : KeyFilters) : option KeyFilters :=
  if peer =? kf_node kf then Some kf
  else match ChainUnmarshal data with
       | Err => Some kf
       | Panic => None
       | Ok decoded =>
           let (peers, i) := getOrCreatePeerFilter peer (kf_peers kf) in
           pf ← peers !! i;
           Some (if negb (pf_hasBulk pf) || (pf_bulkVer pf <? version)
                 then set_peer_filters (<[ i := mkPeerFilter (pf_nodeID pf) decoded version true (pf_realtime pf) (pf_counted pf) ]> peers)
                        (if pf_counted pf && negb (pf_hasBulk pf) then kf_unfiltered kf - 1 else kf_unfiltered kf) kf
                 else set_peer_filters peers (kf_unfiltered kf) kf)
       end.

Definition removePeerKeyFilter (peer : Z) (kf : KeyFilters) : KeyFilters :=
  let (i, found) := peerFilterIndex peer (kf_peers kf) in
  match kf_peers kf !! i with
  | Some pf =>
      if found then set_peer_filters (take i (kf_peers kf) ++ drop (S i) (kf_peers kf))
                      (if pf_counted pf && negb (pf_hasBulk pf) then kf_unfiltered kf - 1 else kf_unfiltered kf) kf
      else kf
  | None => kf
  end.

(** ** Queries *)

Definition pf_maybeContains (pf : peerKeyFilter) (key : bytes) : option bool :=
  b ← ChainMaybeContains (pf_bulk pf) key;
  if b : bool then Some true else ChainMaybeContains (pf_realtime pf) key.

Fixpoint any_peer (peers : list peerKeyFilter) (key : bytes) : option bool :=
  match peers with
  | [] => Some false
  | pf :: peers => b ← pf_maybeContains pf key; if b : bool then Some true else any_peer peers key
  end.

Definition clusterMaybeHasKey (key : bytes) (kf : KeyFilters) : option bool :=
  if 0 <? kf_unfiltered kf then Some true else any_peer (kf_peers kf) key.

Inductive FetchHint := PreferPeers | PreferCDN.

Definition fetchHint (key : bytes) (kf : KeyFilters) : option FetchHint :=
  match key with
  | [] => Some PreferPeers
  | _ => b ← clusterMaybeHasKey key kf; Some (if b : bool then PreferPeers else PreferCDN)
  end.

End Filters.

(** * A key the filters deny is held by nobody known

    The filters refine a directory of exact key sets: whoever the directory
    says may hold a key, the filters never deny. *)


Section Props.
Context {hash : Hash64}.

(** ** The specification *)

(** What is known of a peer: announced as connected, the keys of its bulk
    filter with their version, the keys heard of since. *)
Record holding := mkHolding { ho_connected : bool; ho_bulk : option (Z * list bytes); ho_live : list bytes }.

Definition nothing_known : holding := mkHolding false None [].

Abbreviation directory := (gmap Z holding).

Definition known (dir : directory) (peer : Z) : holding := default nothing_known (dir !! peer).

Definition hear (peer : Z) (key : bytes) (dir : directory) : directory :=
  let h := known dir peer in <[ peer := mkHolding (ho_connected h) (ho_bulk h) (key :: ho_live h) ]> dir.

Definition connect (peer : Z) (dir : directory) : directory :=
  let h := known dir peer in <[ peer := mkHolding true (ho_bulk h) (ho_live h) ]> dir.

(** A newer version replaces an older one. *)
Definition receive (peer version : Z) (keys : list bytes) (dir : directory) : directory :=
  let h := known dir peer in
  let newer := match ho_bulk h with Some (v, _) => v <? version | None => true end in
  <[ peer := if newer : bool then mkHolding (ho_connected h) (Some (version, keys)) (ho_live h) else h ]> dir.

(** A connected peer that has not sent its filter may hold anything. *)
Definition may_hold (h : holding) (key : bytes) : Prop :=
  (ho_connected h = true /\ ho_bulk h = None)
  \/ (exists v keys, ho_bulk h = Some (v, keys) /\ key ∈ keys) \/ key ∈ ho_live h.

(** ** The own filter *)

(** What a node's own filter goes through: keys added, the active segment never
    reporting it is full, and snapshots taken. *)
Inductive own_run : KeyFilters -> list bytes -> Prop :=
  | own_new node : own_run (new_filters node) []
  | own_add kf keys key kf' seg :
      own_run kf keys -> ownFilterAdd key kf = Some kf' -> CuckooAdd (rotate (kf_own kf)).2 key = Some (seg, true) ->
      own_run kf' (key :: keys)
  | own_snapshot kf keys : own_run kf keys -> own_run (OwnKeyFilterSnapshot kf).1 keys.

Lemma kick_count kicks c i fp c' : kick kicks c i fp = Some (c', true) -> cf_count c' = wrapu64 (cf_count c + 1).
Proof.
  revert c i fp. induction kicks as [|kicks IH]; intros c i fp; cbn [kick]; [done|].
  destruct (bucket _ _) as [b|]; [|done]. cbn [mbind option_bind]. destruct (b !! _) as [x|]; [|done]. cbn [mbind option_bind].
  unfold insertIntoBucket. destruct (bucket _ _) as [b'|]; [|done]. cbn [mbind option_bind].
  destruct (list_find _ b') as [[s ?]|]; [by intros [= <-]|]. intros Hk. by rewrite (IH _ _ _ Hk).
Qed.

Lemma add_count c key c' : CuckooAdd c key = Some (c', true) -> c' = c \/ cf_count c' = wrapu64 (cf_count c + 1).
Proof.
  unfold CuckooAdd. destruct (fingerprintAndIndices c key) as [[fp i1] i2]. destruct (bucket c i1) as [b1|] eqn:E1; [|done].
  destruct (bucket c i2) as [b2|] eqn:E2; [|done]. cbn [mbind option_bind]. destruct (_ || _); [intros [= <-]; by left|].
  unfold insertIntoBucket. rewrite E1, E2. cbn [mbind option_bind].
  destruct (list_find _ b1) as [[s ?]|]; [intros [= <-]; by right|].
  destruct (list_find _ b2) as [[s ?]|]; [intros [= <-]; by right|]. intros Hk. right. by apply (kick_count _ _ _ _ _ Hk).
Qed.

Lemma seg_count_changes f : seg_wf f -> wrapu64 (cf_count f + 1) <> cf_count f.
Proof.
  intros Hw. rewrite (wf_count _ _ Hw). pose proof (occupied_le (cf_buckets f)) as Ho. rewrite (wf_len _ _ Hw) in Ho.
  rewrite wrapu64_id by (unfold is_uint64, max_uint64; lia). lia.
Qed.

Lemma fresh_stores_nothing key : ~ stored (NewCuckooFilter cuckooChainChunk) key.
Proof.
  unfold stored. destruct (fingerprintAndIndices _ key) as [[fp i1] i2] eqn:E.
  destruct (key_partners _ 11 key fp i1 i2 chunk_wf E) as (Hfp & _).
  assert (Hz : forall i, ~ holds (NewCuckooFilter cuckooChainChunk) i fp).
  { intros i (s & _ & Hs). unfold NewCuckooFilter in Hs. cbn [cf_buckets] in Hs. apply lookup_replicate in Hs as [-> _]. lia. }
  intros [Hh|Hh]; by apply Hz in Hh.
Qed.

(** An addition that reports no change made none. *)
Lemma chain_add_same cc key cc' seg : Forall seg_wf (segments cc) -> CuckooAdd (rotate cc).2 key = Some (seg, true) ->
  ChainAdd cc key = Some (cc', false) -> cc' = cc.
Proof.
  intros Hwf Hok Ha. destruct (rotate_spec cc Hwf) as (Hact & _ & _). unfold ChainAdd in Ha.
  destruct (rotate cc) as [sealed active] eqn:Er. cbn [fst snd] in *. rewrite Hok in Ha. injection Ha as <- Hc.
  apply negb_false_iff, Z.eqb_eq in Hc. destruct (add_count _ _ _ Hok) as [->|Hinc]; [|rewrite Hinc in Hc; by destruct (seg_count_changes active Hact)].
  assert (Hst : stored active key).
  { destruct (cuckoo_add_spec active 11 key Hact) as (c' & ok & E & _ & Hs). rewrite Hok in E. injection E as <- <-. destruct (Hs eq_refl) as [Hs1 _]. exact Hs1. }
  unfold rotate in Er. destruct cc as [sl [a|]]; cbn [cc_active cc_sealed] in *.
  - destruct (cuckooChainChunk <=? cf_count a); injection Er as <- <-; [by apply fresh_stores_nothing in Hst|done].
  - injection Er as <- <-. by apply fresh_stores_nothing in Hst.
Qed.

(** Adding to a chain never panics. *)
Lemma chain_add_total cc key : Forall seg_wf (segments cc) -> is_Some (ChainAdd cc key).
Proof.
  intros Hw. destruct (rotate_spec cc Hw) as (Hact & _ & _). unfold ChainAdd. destruct (rotate cc) as [sealed active]. cbn [snd] in Hact.
  destruct (cuckoo_add_spec active 11 key Hact) as (c' & ok & -> & _). destruct ok; [eauto|].
  destruct (cuckoo_add_spec (NewCuckooFilter cuckooChainChunk) 11 key chunk_wf) as (c2 & ok & -> & _). eauto.
Qed.

(** The own filter with its version and its cached bytes. *)
Record own_inv (kf : KeyFilters) (keys : list bytes) : Prop := {
  oi_run : chain_run (kf_own kf) keys;
  oi_ver : 0 <= kf_ownVer kf <= Z.of_nat (length keys);
  oi_bytes : forall b, kf_ownBytes kf = Some b -> 0 <= kf_ownBytesVer kf <= kf_ownVer kf
    /\ (kf_ownBytesVer kf = kf_ownVer kf -> b = ChainMarshal (kf_own kf));
}.

(** Adding the same key again leaves a run of the chain with that key. *)
Lemma own_inv_run kf keys : own_run kf keys -> Z.of_nat (length keys) < 2 ^ 64 -> own_inv kf keys.
Proof.
  intros Hr. induction Hr as [node|kf keys key kf' seg Hr IH Ha Hok|kf keys Hr IH]; intros Hl.
  - split; [constructor|cbn; lia|done].
  - cbn [length] in Hl. destruct IH as [I1 I2 I3]; [lia|]. unfold ownFilterAdd in Ha.
    destruct (ChainAdd (kf_own kf) key) as [[cc b]|] eqn:Ec; [|done]. cbn [mbind option_bind fst snd] in Ha. injection Ha as <-.
    assert (Hv : wrapu64 (kf_ownVer kf + 1) = kf_ownVer kf + 1) by (apply wrapu64_id; unfold is_uint64, max_uint64; lia).
    split; cbn [kf_own kf_ownVer kf_ownBytes kf_ownBytesVer set_own length].
    + by eapply chain_add.
    + destruct b; rewrite ?Hv; lia.
    + intros bs Hb. destruct (I3 bs Hb) as [H1 H2]. destruct b; rewrite ?Hv; (split; [lia|]); [lia|].
      intros Hve. rewrite (H2 Hve). f_equal. symmetry. eapply chain_add_same; [|done|done]. by apply (chain_run_spec (kf_own kf) keys).
  - specialize (IH Hl). pose proof IH as [I1 I2 I3]. unfold OwnKeyFilterSnapshot.
    assert (own_inv (set_bytes (ChainMarshal (kf_own kf)) (kf_ownVer kf) kf) keys) as Hnew.
    { split; [done|done|]. intros b [= <-]. cbn. split; [lia|done]. }
    clear I3. destruct (kf_ownBytes kf) as [b|] eqn:Eb; [|done]. destruct (_ =? _); done.
Qed.

(** What a snapshot sends is the filter as it is. *)
Lemma snapshot_marshals kf keys : own_run kf keys -> Z.of_nat (length keys) < 2 ^ 64 -> (OwnKeyFilterSnapshot kf).2.1 = ChainMarshal (kf_own kf).
Proof.
  intros Hr Hl. destruct (own_inv_run kf keys Hr Hl) as [_ _ I3]. unfold OwnKeyFilterSnapshot.
  destruct (kf_ownBytes kf) as [b|]; [|done]. destruct (Z.eqb_spec (kf_ownBytesVer kf) (kf_ownVer kf)) as [E|]; [|done].
  by apply (I3 b eq_refl).
Qed.

(** A message a peer with these keys sends. *)
Definition announces (data : bytes) (keys : list bytes) : Prop :=
  exists kf, own_run kf keys /\ Z.of_nat (length keys) < 2 ^ 64 /\ Z.of_nat (length (segments (kf_own kf))) < 2 ^ 32
    /\ data = (OwnKeyFilterSnapshot kf).2.1.

Definition covers (cc : CuckooChain) (keys : list bytes) : Prop :=
  Forall seg_wf (segments cc) /\ forall key, key ∈ keys -> exists f, f ∈ segments cc /\ stored f key.

Lemma announced_covers data keys : announces data keys -> exists cc, ChainUnmarshal data = Ok cc /\ covers cc keys.
Proof.
  intros (kf & Hr & Hl & Hs & ->). rewrite (snapshot_marshals kf keys Hr Hl).
  destruct (own_inv_run kf keys Hr Hl) as [Hrun _ _]. destruct (chain_run_spec _ _ Hrun) as [Hwf Hks].
  eexists. split; [by apply chain_unmarshal_marshal|]. unfold covers, segments at 1 3. cbn [cc_sealed cc_active]. rewrite app_nil_r. split.
  - apply Forall_map. eapply Forall_impl; [|exact Hwf]. intros f [? ? ? ? ?]. by split.
  - intros key (f & Hf & Hst)%Hks. exists (set_kick 0 f). split; [|exact Hst]. apply list_elem_of_fmap. eauto.
Qed.

(** ** The sorted list as a map *)

Definition by_node (a b : peerKeyFilter) : Prop := pf_nodeID a < pf_nodeID b.

Definition as_map (peers : list peerKeyFilter) : gmap Z peerKeyFilter := list_to_map (map (fun pf => (pf_nodeID pf, pf)) peers).

Lemma sorted_nodup peers : StronglySorted by_node peers -> NoDup (map fst (map (fun pf => (pf_nodeID pf, pf)) peers)).
Proof.
  induction 1 as [|pf peers Hs IH Hf]; cbn [map]; constructor; [|done].
  intros (q & E & (x & -> & Hx)%list_elem_of_fmap)%list_elem_of_fmap. rewrite list.Forall_forall in Hf. apply Hf in Hx. unfold by_node in Hx. cbn in E. lia.
Qed.

Lemma as_map_lookup peers p pf : StronglySorted by_node peers -> as_map peers !! p = Some pf <-> pf ∈ peers /\ pf_nodeID pf = p.
Proof.
  intros Hs. unfold as_map. rewrite <- elem_of_list_to_map by (by apply sorted_nodup). rewrite list_elem_of_fmap. split.
  - intros (x & [= -> ->] & Hx). done.
  - intros [Hin <-]. eauto.
Qed.

Lemma sorted_lookup peers i j a b : StronglySorted by_node peers -> peers !! i = Some a -> peers !! j = Some b -> (i < j)%nat -> by_node a b.
Proof.
  intros Hs. revert i j. induction Hs as [|x peers Hs IH Hf]; intros i j Hi Hj Hij; [done|].
  destruct j as [|j]; [lia|]. cbn in Hj. destruct i as [|i]; cbn in Hi.
  - injection Hi as ->. rewrite list.Forall_forall in Hf. apply Hf. by eapply list_elem_of_lookup_2.
  - apply (IH i j); [done..|lia].
Qed.

Lemma index_spec peer peers : StronglySorted by_node peers ->
  let (i, found) := peerFilterIndex peer peers in
  (i <= length peers)%nat
  /\ (forall k pf, peers !! k = Some pf -> (i <= k)%nat <-> peer <= pf_nodeID pf)
  /\ (if found then exists pf, peers !! i = Some pf /\ pf_nodeID pf = peer else forall pf, pf ∈ peers -> pf_nodeID pf <> peer).
Proof.
  intros Hs. unfold peerFilterIndex.
  pose proof (sort_search_spec (fun (_ : unit) i => (tt, peer <=? node_at peers i)) (fun _ => True) (fun k => peer <= node_at peers k) (length peers) tt) as Hsearch.
  destruct (sort_search _ _ _) as [u i]. cbn [snd]. destruct Hsearch as (_ & Hle & Hi).
  - intros ? k _ Hk. cbn [fst snd]. split; [done|]. apply Z.leb_le.
  - intros a b Hab Ha. destruct (decide (a = b)) as [->|Hne]; [done|]. unfold node_at in *.
    destruct (lookup_lt_is_Some_2 peers a ltac:(lia)) as [x Ex], (lookup_lt_is_Some_2 peers b ltac:(lia)) as [y Ey]. rewrite Ex in Ha. rewrite Ey.
    pose proof (sorted_lookup peers a b x y Hs Ex Ey ltac:(lia)) as Hxy. unfold by_node in Hxy. lia.
  - done.
  - assert (Hk : forall k pf, peers !! k = Some pf -> (i <= k)%nat <-> peer <= pf_nodeID pf).
    { intros k pf Hk. rewrite (Hi k) by (by eapply lookup_lt_Some). unfold node_at. by rewrite Hk. }
    split_and!; [done..|]. destruct (peers !! i) as [pf|] eqn:Ei.
    + destruct (Z.eqb_spec (pf_nodeID pf) peer) as [|Hne]; [eauto|]. intros x (k & Hx)%list_elem_of_lookup_1 Heq.
      pose proof (proj1 (Hk i pf Ei) ltac:(lia)). pose proof (proj2 (Hk k x Hx) ltac:(lia)).
      destruct (decide (i = k)) as [->|]; [congruence|]. pose proof (sorted_lookup peers i k pf x Hs Ei Hx ltac:(lia)) as Hb. unfold by_node in Hb. lia.
    + intros x (k & Hx)%list_elem_of_lookup_1 Heq. pose proof (proj2 (Hk k x Hx) ltac:(lia)).
      apply lookup_ge_None_1 in Ei. apply lookup_lt_Some in Hx. lia.
Qed.

Lemma sorted_app l1 l2 : StronglySorted by_node (l1 ++ l2) <->
  StronglySorted by_node l1 /\ StronglySorted by_node l2 /\ forall a b, a ∈ l1 -> b ∈ l2 -> by_node a b.
Proof.
  induction l1 as [|x l1 IH]; cbn [app]; [split; [intros; split_and!; [constructor|done|by intros ? ? ?%elem_of_nil]|by intros (_ & ? & _)]|]. split.
  - intros H. inversion H as [|? ? Hs Hf]; subst. apply IH in Hs as (H1 & H2 & H3). rewrite list.Forall_forall in Hf. split_and!; [constructor; [done|]|done|].
    + apply list.Forall_forall. intros y Hy. apply Hf, elem_of_app. by left.
    + intros a b [->|Ha]%elem_of_cons Hb; [apply Hf, elem_of_app; by right|auto].
  - intros (H1 & H2 & H3). inversion H1 as [|? ? Hs Hf]; subst. constructor.
    + apply IH. split_and!; [done..|]. intros a b Ha Hb. apply H3; [by constructor|done].
    + apply list.Forall_forall. rewrite list.Forall_forall in Hf. intros y [Hy|Hy]%elem_of_app; [auto|]. apply H3; [constructor|done].
Qed.

(** Replacing an entry keeps the order. *)
Lemma replace_spec peers i old pf : StronglySorted by_node peers -> peers !! i = Some old -> pf_nodeID pf = pf_nodeID old ->
  StronglySorted by_node (<[ i := pf ]> peers) /\ as_map (<[ i := pf ]> peers) = <[ pf_nodeID old := pf ]> (as_map peers).
Proof.
  intros Hs Hi Hn. assert (Hs' : StronglySorted by_node (<[ i := pf ]> peers)).
  { rewrite insert_take_drop by (by eapply lookup_lt_Some). rewrite <- (take_drop_middle peers i old Hi) in Hs.
    apply sorted_app in Hs as (H1 & H2 & H3). apply sorted_app. split_and!; [done| |].
    - inversion H2; subst. constructor; [done|]. unfold by_node. by rewrite Hn.
    - intros a b Ha [->|Hb]%elem_of_cons; [|apply H3; [done|by constructor]]. unfold by_node. rewrite Hn. apply H3; [done|constructor]. }
  split; [done|]. apply map_eq. intros p. apply option_eq. intros x. rewrite as_map_lookup by done. rewrite lookup_insert_Some, as_map_lookup by done.
  rewrite list_elem_of_lookup. split.
  - intros [(k & Hk) Hp]. apply list_lookup_insert_Some in Hk as [(-> & -> & _)|(Hne & Hk)]; [left; split; congruence|]. right.
    split; [|split; [by eapply list_elem_of_lookup_2|done]]. intros <-. destruct (decide (i < k)%nat).
    + pose proof (sorted_lookup peers i k old x Hs Hi Hk ltac:(lia)) as Hb. unfold by_node in Hb. lia.
    + pose proof (sorted_lookup peers k i x old Hs Hk Hi ltac:(lia)) as Hb. unfold by_node in Hb. lia.
  - intros [[<- <-]|(Hne & (k & Hk)%list_elem_of_lookup_1 & Hp)].
    + split; [|done]. exists i. apply list_lookup_insert_eq. by eapply lookup_lt_Some.
    + split; [|done]. exists k. rewrite list_lookup_insert_ne; [done|]. intros <-. congruence.
Qed.

(** Finding or making the entry of a peer. *)
Lemma get_or_create_spec peer peers : StronglySorted by_node peers ->
  let (peers', i) := getOrCreatePeerFilter peer peers in
  exists pf, peers' !! i = Some pf /\ pf_nodeID pf = peer /\ pf = default (fresh_filter peer) (as_map peers !! peer)
    /\ StronglySorted by_node peers' /\ as_map peers' = <[ peer := pf ]> (as_map peers).
Proof.
  intros Hs. unfold getOrCreatePeerFilter. pose proof (index_spec peer peers Hs) as Hi. destruct (peerFilterIndex peer peers) as [i found].
  destruct Hi as (Hle & Hk & Hf). destruct found.
  - destruct Hf as (pf & Hpf & Hn). exists pf. assert (Hm : as_map peers !! peer = Some pf) by (apply as_map_lookup; [done|]; split; [by eapply list_elem_of_lookup_2|done]).
    split_and!; [done..|by rewrite Hm|done|by rewrite insert_id].
  - exists (fresh_filter peer). assert (Hm : as_map peers !! peer = None).
    { destruct (as_map peers !! peer) as [x|] eqn:E; [|done]. apply as_map_lookup in E as [Hin Hx]; [|done]. by apply Hf in Hin. }
    assert (Hs' : StronglySorted by_node (take i peers ++ fresh_filter peer :: drop i peers)).
    { rewrite <- (take_drop i peers) in Hs. apply sorted_app in Hs as (H1 & H2 & H3). apply sorted_app.
      assert (Hge : forall b, b ∈ drop i peers -> peer < pf_nodeID b).
      { intros b (k & Hb)%list_elem_of_lookup_1. rewrite lookup_drop in Hb. assert (peer <= pf_nodeID b) by (apply (Hk (i + k)%nat b Hb); lia).
        assert (pf_nodeID b <> peer) by (apply Hf; by eapply list_elem_of_lookup_2). lia. }
      split_and!; [done|constructor; [done|apply list.Forall_forall; exact Hge]|].
      intros a b Ha [->|Hb]%elem_of_cons; [|auto]. apply list_elem_of_lookup_1 in Ha as (k & Ha). apply lookup_take_Some in Ha as [Ha Hlt].
      unfold by_node. cbn [fresh_filter pf_nodeID]. destruct (Z.le_gt_cases peer (pf_nodeID a)) as [Hp|]; [|lia]. apply (Hk k a Ha) in Hp. lia. }
    split_and!; [|done|by rewrite Hm|done|].
    + rewrite lookup_app_r by (rewrite length_take; lia). rewrite length_take, Nat.min_l by lia. by rewrite Nat.sub_diag.
    + apply map_eq. intros p. apply option_eq. intros x. rewrite as_map_lookup by done. rewrite lookup_insert_Some, as_map_lookup by done.
      assert (Hin : x ∈ peers <-> x ∈ take i peers \/ x ∈ drop i peers) by (rewrite <- elem_of_app, take_drop; done).
      rewrite elem_of_app, elem_of_cons. split.
      * intros [[Hx|[->|Hx]] Hp]; [right|left; split; [by rewrite <- Hp|done]|right]; (split; [intros ->; apply (Hf x); tauto|tauto]).
      * intros [[<- <-]|(Hne & Hx & Hp)]; [split; [auto|done]|]. tauto.
Qed.

Lemma remove_at_spec peers i old : StronglySorted by_node peers -> peers !! i = Some old ->
  StronglySorted by_node (take i peers ++ drop (S i) peers) /\ as_map (take i peers ++ drop (S i) peers) = delete (pf_nodeID old) (as_map peers).
Proof.
  intros Hs Hi. pose proof Hs as Hs0. rewrite <- (take_drop_middle peers i old Hi) in Hs. apply sorted_app in Hs as (H1 & H2 & H3). inversion H2 as [|? ? H4 H5]; subst.
  assert (Hs' : StronglySorted by_node (take i peers ++ drop (S i) peers)).
  { apply sorted_app. split_and!; [done..|]. intros a b Ha Hb. apply H3; [done|by constructor]. }
  split; [done|]. apply map_eq. intros p. apply option_eq. intros x. rewrite as_map_lookup by done. rewrite lookup_delete_Some, as_map_lookup by done.
  assert (Hin : x ∈ peers <-> x ∈ take i peers \/ x = old \/ x ∈ drop (S i) peers).
  { rewrite <- (take_drop_middle peers i old Hi) at 1. by rewrite elem_of_app, elem_of_cons. }
  rewrite elem_of_app, Hin. rewrite list.Forall_forall in H5. split.
  - intros [Hx Hp]. split; [|tauto]. intros <-. destruct Hx as [Hx|Hx].
    + specialize (H3 x old Hx ltac:(constructor)). unfold by_node in H3. lia.
    + specialize (H5 x Hx). unfold by_node in H5. lia.
  - intros (Hne & [Hx|[->|Hx]] & Hp); [tauto|congruence|tauto].
Qed.

(** ** Peers without a filter *)

Definition unfiltered (pf : peerKeyFilter) : bool := pf_counted pf && negb (pf_hasBulk pf).

Definition missing (m : gmap Z peerKeyFilter) : Z := Z.of_nat (size (filter (fun kv => unfiltered kv.2 = true) m)).

Definition missing_at (m : gmap Z peerKeyFilter) (p : Z) : Z := match m !! p with Some pf => if unfiltered pf then 1 else 0 | None => 0 end.

Lemma missing_fresh m p pf : m !! p = None -> missing (<[ p := pf ]> m) = missing m + if unfiltered pf then 1 else 0.
Proof.
  intros Hm. unfold missing. destruct (unfiltered pf) eqn:E.
  - rewrite map_filter_insert_True by done. rewrite map_size_insert_None by (apply map_lookup_filter_None; by left). lia.
  - rewrite map_filter_insert_False by (cbn; congruence). rewrite delete_id by done. lia.
Qed.

Lemma missing_delete m p : missing (delete p m) = missing m - missing_at m p.
Proof.
  unfold missing_at. destruct (m !! p) as [pf|] eqn:E; [|rewrite delete_id by done; lia].
  rewrite <- (insert_delete_id m p pf E) at 2. rewrite missing_fresh by apply lookup_delete_eq. lia.
Qed.

Lemma missing_insert m p pf : missing (<[ p := pf ]> m) = missing m - missing_at m p + if unfiltered pf then 1 else 0.
Proof. rewrite <- insert_delete_eq, missing_fresh by apply lookup_delete_eq. rewrite missing_delete. lia. Qed.

Lemma missing_pos m : 0 < missing m <-> exists p pf, m !! p = Some pf /\ unfiltered pf = true.
Proof.
  unfold missing. split.
  - intros Hs. destruct (map_choose (filter (fun kv => unfiltered kv.2 = true) m)) as (p & pf & Hp); [intros E; rewrite E, map_size_empty in Hs; lia|].
    apply map_lookup_filter_Some in Hp. eauto.
  - intros (p & pf & Hm & Hu). destruct (size _) eqn:E; [|lia]. apply map_size_empty_inv in E.
    assert (filter (fun kv => unfiltered kv.2 = true) m !! p = Some pf) as Hx by (by apply map_lookup_filter_Some). by rewrite E, lookup_empty in Hx.
Qed.

(** ** The refinement *)

(** The entry of a peer stands for what is known of it. *)
Record stands_for (pf : peerKeyFilter) (h : holding) : Prop := {
  sf_counted : pf_counted pf = ho_connected h;
  sf_bulk : match ho_bulk h with
            | Some (v, keys) => pf_hasBulk pf = true /\ pf_bulkVer pf = v /\ covers (pf_bulk pf) keys
            | None => pf_hasBulk pf = false /\ pf_bulk pf = empty_chain
            end;
  sf_live : chain_run (pf_realtime pf) (ho_live h);
}.

Record refines (kf : KeyFilters) (dir : directory) : Prop := {
  rf_sorted : StronglySorted by_node (kf_peers kf);
  rf_foreign : as_map (kf_peers kf) !! kf_node kf = None;
  rf_peers : forall p, option_Forall2 stands_for (as_map (kf_peers kf) !! p) (dir !! p);
  rf_count : kf_unfiltered kf = missing (as_map (kf_peers kf));
}.

Lemma fresh_stands peer : stands_for (fresh_filter peer) nothing_known.
Proof. split; [done|done|constructor]. Qed.

(** The entry an operation works on, and what its new version must satisfy. *)
Lemma refine_update kf dir peer pf' h' n : refines kf dir -> peer <> kf_node kf ->
  stands_for pf' h' -> pf_nodeID pf' = peer ->
  n = kf_unfiltered kf - missing_at (as_map (kf_peers kf)) peer + (if unfiltered pf' then 1 else 0) ->
  let (peers, i) := getOrCreatePeerFilter peer (kf_peers kf) in
  refines (set_peer_filters (<[ i := pf' ]> peers) n kf) (<[ peer := h' ]> dir).
Proof.
  intros [R1 R2 R3 R4] Hp Hst Hn ->. pose proof (get_or_create_spec peer (kf_peers kf) R1) as Hg.
  destruct (getOrCreatePeerFilter peer (kf_peers kf)) as [peers i]. destruct Hg as (pf & Hi & Hpn & _ & Hs & Hm).
  destruct (replace_spec peers i pf pf' Hs Hi ltac:(congruence)) as [Hs' Hm']. rewrite Hm, Hpn, insert_insert_eq in Hm'.
  split; cbn [set_peer_filters kf_peers kf_node kf_unfiltered]; [done| | |].
  - rewrite Hm', lookup_insert_ne by congruence. done.
  - intros p. rewrite Hm'. destruct (decide (p = peer)) as [->|Hne]; [rewrite !lookup_insert_eq; by constructor|]. by rewrite !lookup_insert_ne.
  - rewrite Hm', missing_insert, R4. done.
Qed.

(** The entry there is, or the one that is made. *)
Lemma refine_entry kf dir peer : refines kf dir ->
  let pf := default (fresh_filter peer) (as_map (kf_peers kf) !! peer) in
  stands_for pf (known dir peer) /\ missing_at (as_map (kf_peers kf)) peer = if unfiltered pf then 1 else 0.
Proof.
  intros [_ _ R3 _]. cbv zeta. unfold missing_at, known. destruct (R3 peer) as [pf h Hst|]; [by split|].
  split; [apply fresh_stands|done].
Qed.

(** ** Runs *)

Definition entry (peer : Z) (kf : KeyFilters) : peerKeyFilter := default (fresh_filter peer) (as_map (kf_peers kf) !! peer).

(** What the filters of a node go through, and the directory beside them. *)
Inductive reached (node : Z) : KeyFilters -> directory -> Prop :=
  | reached_start : reached node (new_filters node) ∅
  | reached_hear kf dir peer key kf' seg : reached node kf dir -> peer <> node -> peerFilterAdd peer key kf = Some kf' ->
      CuckooAdd (rotate (pf_realtime (entry peer kf))).2 key = Some (seg, true) -> reached node kf' (hear peer key dir)
  | reached_connect kf dir peer kf' : reached node kf dir -> peer <> node -> NotePeerConnected peer kf = Some kf' -> reached node kf' (connect peer dir)
  | reached_receive kf dir peer data keys version kf' : reached node kf dir -> peer <> node -> announces data keys ->
      CachePeerFilter peer data version kf = Some kf' -> reached node kf' (receive peer version keys dir)
  | reached_garbage kf dir peer data version kf' : reached node kf dir -> ChainUnmarshal data = Err ->
      CachePeerFilter peer data version kf = Some kf' -> reached node kf' dir
  | reached_forget kf dir peer : reached node kf dir -> reached node (removePeerKeyFilter peer kf) (delete peer dir).

Lemma with_entry {A} peer kf dir (f : list peerKeyFilter -> nat -> peerKeyFilter -> option A) (r : A) : refines kf dir ->
  (let (peers, i) := getOrCreatePeerFilter peer (kf_peers kf) in pf ← peers !! i; f peers i pf) = Some r ->
  exists peers i, getOrCreatePeerFilter peer (kf_peers kf) = (peers, i) /\ peers !! i = Some (entry peer kf) /\ f peers i (entry peer kf) = Some r.
Proof.
  intros [R1 _ _ _] Hf. pose proof (get_or_create_spec peer (kf_peers kf) R1) as Hg.
  destruct (getOrCreatePeerFilter peer (kf_peers kf)) as [peers i]. destruct Hg as (pf & Hi & _ & -> & _). rewrite Hi in Hf. cbn [mbind option_bind] in Hf. eauto.
Qed.

Lemma entry_node peer kf dir : refines kf dir -> pf_nodeID (entry peer kf) = peer.
Proof. intros [R1 _ _ _]. unfold entry. destruct (as_map (kf_peers kf) !! peer) as [pf|] eqn:E; [|done]. by apply as_map_lookup in E as [_ ?]. Qed.

Lemma refines_hear kf dir peer key kf' seg : refines kf dir -> peer <> kf_node kf -> peerFilterAdd peer key kf = Some kf' ->
  CuckooAdd (rotate (pf_realtime (entry peer kf))).2 key = Some (seg, true) -> refines kf' (hear peer key dir).
Proof.
  intros HR Hp Ha Hok. unfold peerFilterAdd in Ha. rewrite (proj2 (Z.eqb_neq _ _)) in Ha by done.
  apply (with_entry peer kf dir) in Ha as (peers & i & Eg & Hi & Ha); [|done].
  destruct (ChainAdd (pf_realtime (entry peer kf)) key) as [[cc b]|] eqn:Ec; [|done]. cbn [mbind option_bind fst] in Ha. injection Ha as <-.
  destruct (refine_entry kf dir peer HR) as [[S1 S2 S3] Hm]. fold (entry peer kf) in *. unfold hear.
  set (pf' := mkPeerFilter _ _ _ _ _ _).
  pose proof (refine_update kf dir peer pf' (mkHolding (ho_connected (known dir peer)) (ho_bulk (known dir peer)) (key :: ho_live (known dir peer))) (kf_unfiltered kf) HR Hp) as Hu.
  rewrite Eg in Hu. apply Hu; [split; [done..|by eapply chain_add]|by apply (entry_node peer kf dir)|]. rewrite Hm. unfold unfiltered, pf'. cbn. lia.
Qed.

(** An entry written back as it was. *)
Lemma refine_same kf dir peer : refines kf dir -> peer <> kf_node kf ->
  let (peers, i) := getOrCreatePeerFilter peer (kf_peers kf) in
  refines (set_peer_filters peers (kf_unfiltered kf) kf) (<[ peer := known dir peer ]> dir).
Proof.
  intros HR Hp. destruct (refine_entry kf dir peer HR) as [Hst Hm]. fold (entry peer kf) in *.
  pose proof (refine_update kf dir peer (entry peer kf) (known dir peer) (kf_unfiltered kf) HR Hp Hst (entry_node peer kf dir HR)) as Hu.
  pose proof (get_or_create_spec peer (kf_peers kf) (rf_sorted _ _ HR)) as Hg. destruct (getOrCreatePeerFilter peer (kf_peers kf)) as [peers i].
  destruct Hg as (pf & Hi & _ & Epf & _). fold (entry peer kf) in Epf. subst pf. rewrite list_insert_id in Hu by done. apply Hu. rewrite Hm. lia.
Qed.

Lemma refines_connect kf dir peer kf' : refines kf dir -> peer <> kf_node kf -> NotePeerConnected peer kf = Some kf' -> refines kf' (connect peer dir).
Proof.
  intros HR Hp Ha. unfold NotePeerConnected in Ha. rewrite (proj2 (Z.eqb_neq _ _)) in Ha by done.
  apply (with_entry peer kf dir) in Ha as (peers & i & Eg & Hi & Ha); [|done].
  destruct (refine_entry kf dir peer HR) as [Hst Hm]. fold (entry peer kf) in *. pose proof Hst as [S1 S2 S3]. unfold connect.
  destruct (pf_counted (entry peer kf)) eqn:Ec.
  - injection Ha as <-. pose proof (refine_same kf dir peer HR Hp) as Hs. rewrite Eg in Hs.
    replace (mkHolding true _ _) with (known dir peer); [done|]. destruct (known dir peer). cbn in *. by subst.
  - injection Ha as <-. set (pf' := mkPeerFilter _ _ _ _ _ _).
    pose proof (refine_update kf dir peer pf' (mkHolding true (ho_bulk (known dir peer)) (ho_live (known dir peer)))
      (if pf_hasBulk (entry peer kf) then kf_unfiltered kf else kf_unfiltered kf + 1) HR Hp) as Hu.
    rewrite Eg in Hu. apply Hu; [by split|by apply (entry_node peer kf dir)|]. rewrite Hm. unfold unfiltered, pf'. cbn. rewrite Ec. cbn.
    destruct (pf_hasBulk _); cbn; lia.
Qed.

Lemma refines_receive kf dir peer data keys version kf' : refines kf dir -> peer <> kf_node kf -> announces data keys ->
  CachePeerFilter peer data version kf = Some kf' -> refines kf' (receive peer version keys dir).
Proof.
  intros HR Hp Hd Ha. unfold CachePeerFilter in Ha. rewrite (proj2 (Z.eqb_neq _ _)) in Ha by done.
  destruct (announced_covers data keys Hd) as (cc & Eu & Hc). rewrite Eu in Ha.
  apply (with_entry peer kf dir) in Ha as (peers & i & Eg & Hi & Ha); [|done].
  destruct (refine_entry kf dir peer HR) as [Hst Hm]. fold (entry peer kf) in *. pose proof Hst as [S1 S2 S3]. unfold receive.
  assert (Hnew : negb (pf_hasBulk (entry peer kf)) || (pf_bulkVer (entry peer kf) <? version) = match ho_bulk (known dir peer) with Some (v, _) => v <? version | None => true end).
  { destruct (ho_bulk (known dir peer)) as [[v ks]|]; [destruct S2 as (-> & -> & _); done|by destruct S2 as [-> _]]. }
  rewrite Hnew in Ha. destruct (match ho_bulk (known dir peer) with Some (v, _) => v <? version | None => true end).
  - injection Ha as <-. set (pf' := mkPeerFilter _ _ _ _ _ _).
    pose proof (refine_update kf dir peer pf' (mkHolding (ho_connected (known dir peer)) (Some (version, keys)) (ho_live (known dir peer)))
      (if pf_counted (entry peer kf) && negb (pf_hasBulk (entry peer kf)) then kf_unfiltered kf - 1 else kf_unfiltered kf) HR Hp) as Hu.
    rewrite Eg in Hu. apply Hu; [by split|by apply (entry_node peer kf dir)|]. rewrite Hm. unfold unfiltered, pf'. cbn. rewrite andb_false_r.
    destruct (_ && _); lia.
  - injection Ha as <-. pose proof (refine_same kf dir peer HR Hp) as Hs. by rewrite Eg in Hs.
Qed.

Lemma refines_forget kf dir peer : refines kf dir -> refines (removePeerKeyFilter peer kf) (delete peer dir).
Proof.
  intros [R1 R2 R3 R4]. unfold removePeerKeyFilter. pose proof (index_spec peer (kf_peers kf) R1) as Hi.
  destruct (peerFilterIndex peer (kf_peers kf)) as [i found]. destruct Hi as (Hle & Hk & Hf).
  assert (Hsame : as_map (kf_peers kf) !! peer = None -> refines kf (delete peer dir)).
  { intros Hn. split; [done..| |done]. intros p. specialize (R3 p). destruct (decide (p = peer)) as [->|]; [|by rewrite lookup_delete_ne].
    rewrite lookup_delete_eq, Hn. constructor. }
  destruct found.
  - destruct Hf as (pf & Hpf & Hn). rewrite Hpf. destruct (remove_at_spec (kf_peers kf) i pf R1 Hpf) as [Hs Hm]. rewrite Hn in Hm.
    assert (Hl : as_map (kf_peers kf) !! peer = Some pf) by (apply as_map_lookup; [done|]; split; [by eapply list_elem_of_lookup_2|done]).
    split; cbn [set_peer_filters kf_peers kf_node kf_unfiltered]; [done| | |].
    + rewrite Hm. apply lookup_delete_None. by right.
    + intros p. rewrite Hm. destruct (decide (p = peer)) as [->|]; [rewrite !lookup_delete_eq; constructor|by rewrite !lookup_delete_ne].
    + rewrite Hm, missing_delete, R4. unfold missing_at. rewrite Hl. unfold unfiltered. destruct (_ && _); lia.
  - assert (Hn : as_map (kf_peers kf) !! peer = None).
    { destruct (as_map (kf_peers kf) !! peer) as [x|] eqn:E; [|done]. apply as_map_lookup in E as [Hin Hx]; [|done]. by apply Hf in Hin. }
    destruct (kf_peers kf !! i); by apply Hsame.
Qed.

Lemma filters_node_kept {A} kf peer (f : list peerKeyFilter -> nat -> peerKeyFilter -> option A) kf' (g : A -> KeyFilters) :
  (forall peers i pf a, f peers i pf = Some a -> kf_node (g a) = kf_node kf) ->
  (let (peers, i) := getOrCreatePeerFilter peer (kf_peers kf) in pf ← peers !! i; f peers i pf) = Some kf' -> kf_node (g kf') = kf_node kf.
Proof. intros Hf. destruct (getOrCreatePeerFilter peer (kf_peers kf)) as [peers i]. destruct (peers !! i); [|done]. cbn [mbind option_bind]. apply Hf. Qed.

Lemma reached_refines node kf dir : reached node kf dir -> refines kf dir /\ kf_node kf = node.
Proof.
  induction 1 as [|kf dir peer key kf' seg _ [IH Hn] Hp Ha Hok|kf dir peer kf' _ [IH Hn] Hp Ha|kf dir peer data keys version kf' _ [IH Hn] Hp Hd Ha
    |kf dir peer data version kf' _ IH He Ha|kf dir peer _ [IH Hn]].
  - split; [|done]. split; [constructor|apply lookup_empty|intros p; cbn; rewrite !lookup_empty; constructor|done].
  - rewrite <- Hn in Hp. split; [by eapply refines_hear|]. unfold peerFilterAdd in Ha. rewrite (proj2 (Z.eqb_neq _ _)) in Ha by done. rewrite <- Hn.
    apply (filters_node_kept kf peer _ kf' id) in Ha; [done|]. intros peers i pf a. destruct (ChainAdd _ _); [|done]. by intros [= <-].
  - rewrite <- Hn in Hp. split; [by eapply refines_connect|]. unfold NotePeerConnected in Ha. rewrite (proj2 (Z.eqb_neq _ _)) in Ha by done. rewrite <- Hn.
    apply (filters_node_kept kf peer _ kf' id) in Ha; [done|]. intros peers i pf a [= <-]. by destruct (pf_counted pf).
  - rewrite <- Hn in Hp. split; [by eapply refines_receive|]. unfold CachePeerFilter in Ha. rewrite (proj2 (Z.eqb_neq _ _)) in Ha by done. rewrite <- Hn.
    destruct (ChainUnmarshal data); [|by injection Ha as <-|done].
    apply (filters_node_kept kf peer _ kf' id) in Ha; [done|]. intros peers i pf b [= <-]. by destruct (_ || _).
  - unfold CachePeerFilter in Ha. rewrite He in Ha. destruct (peer =? _); by injection Ha as <-.
  - split; [by apply refines_forget|]. unfold removePeerKeyFilter. destruct (peerFilterIndex _ _) as [i found].
    destruct (kf_peers kf !! i); [|done]. by destruct found.
Qed.

(** ** Queries *)

Lemma covers_contains cc keys key : covers cc keys -> exists b, ChainMaybeContains cc key = Some b /\ (key ∈ keys -> b = true).
Proof.
  intros [Hw Hk]. destruct (chain_contains_spec cc key Hw) as (b & Hb & Hi). exists b. split; [done|]. intros Hin. by apply Hi, Hk.
Qed.

Lemma entry_contains pf h key : stands_for pf h -> exists b, pf_maybeContains pf key = Some b
  /\ ((exists v keys, ho_bulk h = Some (v, keys) /\ key ∈ keys) \/ key ∈ ho_live h -> b = true).
Proof.
  intros [_ S2 S3]. unfold pf_maybeContains.
  destruct (covers_contains (pf_realtime pf) (ho_live h) key (chain_run_spec _ _ S3)) as (br & Hbr & Hir).
  destruct (ho_bulk h) as [[v keys]|].
  - destruct S2 as (_ & _ & Hc). destruct (covers_contains (pf_bulk pf) keys key Hc) as (bb & Hbb & Hib). rewrite Hbb. cbn [mbind option_bind].
    destruct bb; [by exists true|]. exists br. split; [done|]. intros [(v' & ks & [= <- <-] & Hin)|Hin]; [by apply Hib in Hin|auto].
  - destruct S2 as [_ ->]. cbn. exists br. split; [done|]. intros [(v' & ks & ? & _)|Hin]; [done|auto].
Qed.

Lemma any_peer_spec peers key : (forall pf, pf ∈ peers -> exists b, pf_maybeContains pf key = Some b) ->
  exists b, any_peer peers key = Some b /\ (b = true <-> exists pf, pf ∈ peers /\ pf_maybeContains pf key = Some true).
Proof.
  induction peers as [|pf peers IH]; intros Hall; cbn [any_peer]; [exists false; split; [done|]; split; [done|by intros (? & ?%elem_of_nil & _)]|].
  destruct (Hall pf ltac:(constructor)) as [b Hb]. rewrite Hb. cbn [mbind option_bind]. destruct b.
  - exists true. split; [done|]. split; [|done]. intros _. exists pf. split; [constructor|done].
  - destruct IH as (b & -> & Hi); [intros x Hx; apply Hall; by constructor|]. exists b. split; [done|]. rewrite Hi. split.
    + intros (x & Hx & Hc). exists x. split; [by constructor|done].
    + intros (x & [->|Hx]%elem_of_cons & Hc); [congruence|eauto].
Qed.


(** The table of filters stays well formed.  In every state it reaches, the
    entries are strictly ordered by node, none is for the node itself, and the
    counter is exactly the number of connected peers whose filter has not
    arrived; no operation panics. *)
Theorem filter_table_wellformed (node : Z) (kf : KeyFilters) (dir : directory) : reached node kf dir ->
  StronglySorted by_node (kf_peers kf) /\ (forall pf, pf ∈ kf_peers kf -> pf_nodeID pf <> node)
  /\ kf_unfiltered kf = Z.of_nat (length (List.filter unfiltered (kf_peers kf)))
  /\ forall peer key data keys version, announces data keys ->
       is_Some (peerFilterAdd peer key kf) /\ is_Some (NotePeerConnected peer kf) /\ is_Some (CachePeerFilter peer data version kf).
Proof.
  intros Hr. destruct (reached_refines node kf dir Hr) as [HR Hn]. pose proof HR as [R1 R2 R3 R4]. split_and!; [done| | |].
  - intros pf Hpf Hx. assert (as_map (kf_peers kf) !! kf_node kf = Some pf) by (apply as_map_lookup; [done|]; split; [done|congruence]). congruence.
  - rewrite R4. clear R2 R3 R4. unfold missing. f_equal. induction R1 as [|pf peers Hs IH Hf]; [done|]. cbn [List.filter].
    assert (Hl : as_map peers !! pf_nodeID pf = None).
    { destruct (as_map peers !! pf_nodeID pf) as [x|] eqn:E; [|done]. apply as_map_lookup in E as [Hin Hx]; [|done].
      rewrite list.Forall_forall in Hf. apply Hf in Hin. unfold by_node in Hin. lia. }
    pose proof (missing_fresh (as_map peers) (pf_nodeID pf) pf Hl) as Hm. unfold missing in Hm. change (as_map (pf :: peers)) with (<[ pf_nodeID pf := pf ]> (as_map peers)).
    destruct (unfiltered pf); cbn [length]; lia.
  - intros peer key data keys version Hd. destruct (announced_covers data keys Hd) as (cc & Eu & _).
    pose proof (get_or_create_spec peer (kf_peers kf) R1) as Hg. unfold peerFilterAdd, NotePeerConnected, CachePeerFilter. rewrite Eu.
    destruct (peer =? kf_node kf); [eauto|]. destruct (getOrCreatePeerFilter peer (kf_peers kf)) as [peers i]. destruct Hg as (pf & Hi & _ & Epf & _).
    rewrite Hi. cbn [mbind option_bind]. split_and!; [|eauto..]. subst pf. destruct (refine_entry kf dir peer HR) as [[_ _ S3] _].
    destruct (chain_run_spec _ _ S3) as [Hw _]. apply (chain_add_total _ key) in Hw as [r ->]. cbn. eauto.
Qed.

End Props.
