(* ===== verification/FilterWitness.v ===== *)
(** * Filters on concrete keys

    The theorems about the probabilistic filters, applied with a concrete hash
    to a few keys. *)

From S2P Require Import Prelude Golib Proto Cuckoo CuckooProps KeyFilter Bloom.

#[local] Existing Instance toy_hash.

Definition w_keys : list bytes := [[x61]; [x62; x63]; [x64; x64; x64]; [x7a]].

Definition w_cuckoo : CuckooFilter := default (mkCuckoo [] 0 0 0) (add_all (NewCuckooFilter 8) w_keys).

Lemma w_cuckoo_built : add_all (NewCuckooFilter 8) w_keys = Some w_cuckoo.
Proof. vm_compute. reflexivity. Qed.

Lemma cuckoo_no_false_negatives_witness :
  CuckooMaybeContains w_cuckoo [x64; x64; x64] = Some true
  /\ CuckooUnmarshal (CuckooMarshal w_cuckoo) = Ok (set_kick 0 w_cuckoo).
Proof.
  destruct (cuckoo_no_false_negatives 8 w_keys w_cuckoo [x64; x64; x64] ltac:(lia) w_cuckoo_built) as (H & _ & _ & Hu & _).
  split; [apply H; do 2 right; left|exact Hu].
Defined.

(** The chain after inserting one key into an empty one. *)
Definition w_chain : CuckooChain := default (mkChain [] None) (fst <$> ChainAdd (mkChain [] None) [x61]).
Definition w_segment : CuckooFilter :=
  default (mkCuckoo [] 0 0 0) (fst <$> CuckooAdd (rotate (mkChain [] None)).2 [x61]).

Lemma w_chain_run : chain_run w_chain [[x61]].
Proof. apply (chain_add (mkChain [] None) [] [x61] w_chain true w_segment chain_empty); vm_compute; reflexivity. Qed.

Lemma chain_no_false_negatives_witness :
  ChainMaybeContains w_chain [x61] = Some true /\ exists cc, ChainUnmarshal (ChainMarshal w_chain) = Ok cc.
Proof.
  destruct (chain_no_false_negatives w_chain [[x61]] w_chain_run) as [H (cc & E & _)].
  - vm_compute. reflexivity.
  - split; [apply H; left|exists cc; exact E].
Defined.

Lemma bloom_no_false_negatives_witness :
  BloomHas (set_all (NewBloom 5000) w_keys) [x7a] = true
  /\ (BloomSet (set_all (NewBloom 5000) w_keys) [x61]).2 = false.
Proof.
  destruct (bloom_no_false_negatives 5000 w_keys [x7a] ltac:(lia)) as (H & _).
  destruct (bloom_no_false_negatives 5000 w_keys [x61] ltac:(lia)) as (H1 & _ & H2 & _).
  split; [apply H; do 3 right; left|].
  rewrite H2, H1; [reflexivity|left].
Defined.

(** ** Node 1 meets node 2, which holds one key *)

Definition w_peer : KeyFilters := default (new_filters 2) (ownFilterAdd [x61] (new_filters 2)).

Definition w_sent : bytes := (OwnKeyFilterSnapshot w_peer).2.1.

Lemma w_announces : announces w_sent [[x61]].
Proof.
  exists w_peer. split; [|split; [vm_compute; reflexivity|split; [vm_compute; reflexivity|reflexivity]]].
  apply (own_add (new_filters 2) [] [x61] w_peer w_segment (own_new 2)); vm_compute; reflexivity.
Qed.

Definition w_met : KeyFilters := default (new_filters 1) (NotePeerConnected 2 (new_filters 1)).
Definition w_told : KeyFilters := default (new_filters 1) (CachePeerFilter 2 w_sent 1 w_met).

Lemma w_met_reached : reached 1 w_met (connect 2 ∅).
Proof. apply (reached_connect 1 (new_filters 1) ∅ 2 w_met (reached_start 1)); [done|reflexivity]. Qed.

Lemma w_told_reached : reached 1 w_told (receive 2 1 [[x61]] (connect 2 ∅)).
Proof. apply (reached_receive 1 w_met (connect 2 ∅) 2 w_sent [[x61]] 1 w_told w_met_reached); [done|exact w_announces|vm_compute; reflexivity]. Qed.


Lemma filter_table_wellformed_witness : kf_unfiltered w_met = 1 /\ StronglySorted by_node (kf_peers w_told).
Proof.
  destruct (filter_table_wellformed 1 w_met _ w_met_reached) as (_ & _ & H & _).
  destruct (filter_table_wellformed 1 w_told _ w_told_reached) as (H2 & _).
  split; [rewrite H; reflexivity|exact H2].
Defined.
