(* ===== verification/Losers.v ===== *)
(** * Which binds lose on a key (effects/snapshot.go, effects/conflicts.go)

    [losersOnKeyAt] scans a key's history for the binds on it, takes recorded
    verdicts from the snapshots it meets, and puts the rest to fork choice:
    every bind that is concurrent with a stronger one whose predicates overlap
    its own has lost.  Two binds that a snapshot declared winners and that
    compete all the same are returned as conflicts to report. *)

From S2P Require Import Prelude Golib Proto Store Walk ForkChoice CausalIndex Predicate.

(** ** Recorded verdicts *)

Record verdictEntry := mkVerdict { ve_verdict : Verdict; ve_snapshotTip : Tip }.

Abbreviation verdictMap := (gmap bytes verdictEntry).

Definition harvest_one (snapshotTip : Tip) (txnID : bytes) (newVerdict : Verdict) (v : verdictMap) : verdictMap :=
  if bool_decide (newVerdict = VERDICT_UNSPECIFIED) then v
  else match v !! txnID with
       | None => <[ txnID := mkVerdict newVerdict snapshotTip ]> v
       | Some _ => v
       end.

(** The first verdict seen for a transaction stays. *)
Definition harvest (v : verdictMap) (snapshotTip : Tip) (snap : SnapshotEffect) : verdictMap :=
  map_fold (harvest_one snapshotTip) v (s_txn_verdicts snap).

(** ** Candidates *)

Record seenBind := mkSeen {
  sb_txnID : bytes;
  sb_bindOffset : Tip;
  sb_newTip : Tip;
  sb_hash : bytes;
}.

Record scan := mkScan { sc_verdicts : verdictMap; sc_binds : list seenBind; sc_walked : nat }.

(** "__swytch::conflict" *)
Definition conflictKeyPrefix : bytes := [x5f; x5f; x73; x77; x79; x74; x63; x68; x3a; x3a; x63; x6f; x6e; x66; x6c; x69; x63; x74].

Record conflictPair := mkPair { cp_binds : Tip * Tip; cp_txns : bytes * bytes }.

Record adjudication := mkAdj {
  ad_index : causalIndex;
  ad_losers : gset bytes;
  ad_conflicts : list conflictPair;
  ad_seen : gset (bytes * bytes);
}.

Section Losers.
Context {sorter : SortFunc}.
(** The effects, and the tips [e.index] holds for each key. *)
Variable (store : Store) (index : bytes -> list Tip).

(** ** Reporting eligibility (effects/conflicts.go) *)

(** A snapshot that certifies verdicts stands for what it depends on. *)
Definition is_certifying (key : bytes) (t : Tip) : bool :=
  match getEffect store key t with
  | Some eff => match get_snapshot eff with
                | Some snap => negb (bool_decide (s_txn_verdicts snap = ∅))
                | None => false
                end
  | None => false
  end.

Definition heads_next (key : bytes) (t : Tip) : list Tip :=
  if is_certifying key t then match getEffect store key t with Some eff => e_deps eff | None => [] end else [].

Definition conflictHeads (key : bytes) (tips : list Tip) : walk (list Tip) :=
  dfs (fun _ => false) (heads_next key) (fun heads t => Some (if is_certifying key t then heads else heads ++ [t]))
    (dfs_fuel (heads_next key) (dom store) (rev tips)) (rev tips) ∅ [].

(** Does no head other than [bind] reach it? *)
Fixpoint none_reaches (c : causalIndex) (heads : list Tip) (bind : Tip) : causalIndex * bool :=
  match heads with
  | [] => (c, true)
  | head :: heads' =>
      if bool_decide (head = bind) then none_reaches c heads' bind
      else let (c', hit) := query store c head bind in
           if hit then (c', false) else none_reaches c' heads' bind
  end.

(** The heads of every key of the bind. *)
Fixpoint bind_heads (ks : list KeyBind) : walk (list Tip) :=
  match ks with
  | [] => Done []
  | kb :: ks' => heads ← conflictHeads (kb_key kb) (index (kb_key kb)); rest ← bind_heads ks'; Done (heads ++ rest)
  end.

Definition unresolvedConflictTip (key : bytes) (bind : Tip) (tips : list Tip) (c : causalIndex)
    : walk (causalIndex * bool) :=
  heads ← conflictHeads key tips;
  if negb (bool_decide (bind ∈ heads)) then Done (c, false)
  else match getEffect store key bind with
       | None => Done (c, false)
       | Some eff => others ← bind_heads (bind_keys eff); Done (none_reaches c (heads ++ others) bind)
       end.

(** ** The scan *)

(** [tips] followed by the extra tips that are not there yet. *)
Fixpoint start_tips (tips extra : list Tip) : list Tip :=
  match extra with
  | [] => tips
  | t :: extra' => if bool_decide (t ∈ tips) then start_tips tips extra' else start_tips (tips ++ [t]) extra'
  end.

(** What the scan follows, in the order it pushes it. *)
Definition scan_next (key : bytes) (t : Tip) : list Tip :=
  match getEffect store key t with
  | None => []
  | Some eff =>
      match get_snapshot eff with
      | Some snap => option_list (s_prev_snapshot snap) ++ match s_state snap with None => e_deps eff | Some _ => [] end
      | None =>
          match get_txn_bind eff with
          | Some bind => match find_key key (tb_keys bind) with Some kb => [kb_new_tip kb] | None => [] end
          | None => e_deps eff
          end
      end
  end.

(** The bind an effect is on this key, when it is visible. *)
Definition bind_on (key : bytes) (invisible : bytes -> bool) (t : Tip) (eff : Effect) : option seenBind :=
  match get_txn_bind eff with
  | None => None
  | Some bind =>
      if invisible (e_txn_id eff) then None
      else let newTip := match find_key key (tb_keys bind) with Some kb => kb_new_tip kb | None => zero_tip end in
           if bool_decide (newTip = zero_tip) then None
           else Some (mkSeen (e_txn_id eff) t newTip (e_fork_choice_hash eff))
  end.

Definition scan_visit (key : bytes) (invisible : bytes -> bool) (st : scan) (t : Tip) : scan :=
  match getEffect store key t with
  | None => st
  | Some eff =>
      match get_snapshot eff with
      | Some snap => mkScan (harvest (sc_verdicts st) t snap) (sc_binds st) (S (sc_walked st))
      | None => mkScan (sc_verdicts st) (sc_binds st ++ option_list (bind_on key invisible t eff)) (S (sc_walked st))
      end
  end.

Definition scan_key (key : bytes) (startTips : list Tip) (snapshotVerdicts : verdictMap) (invisible : bytes -> bool)
    : walk scan :=
  dfs (fun _ => false) (scan_next key) (fun st t => Some (scan_visit key invisible st t))
    (dfs_fuel (scan_next key) (dom store) (rev startTips)) (rev startTips) ∅ (mkScan snapshotVerdicts [] 0).

(** ** Fork choice among the candidates *)

(** Recorded losers, and the binds left to decide. *)
Definition triage (verdicts : verdictMap) (binds : list seenBind) : gset bytes * list seenBind :=
  fold_left (fun '(losers, candidates) b =>
    match verdicts !! sb_txnID b with
    | Some entry =>
        (if bool_decide (ve_verdict entry = LOST) then {[ sb_txnID b ]} ∪ losers else losers,
         if bool_decide (ve_verdict entry = WON) then candidates ++ [b] else candidates)
    | None => (losers, candidates ++ [b])
    end) binds (∅, []).

(** The evidence of a candidate.  The code keeps it in a table for the scan; it
    only depends on the candidate. *)
Definition proof (key : bytes) (b : seenBind) : evidence :=
  match collectTxnEffectsOnKey store (sb_txnID b) key [sb_newTip b] with Done ev => ev | _ => ([], []) end.

(** Both sides left evidence and it does not overlap. *)
Definition disjoint_predicates (key : bytes) (other b : seenBind) : bool :=
  nonempty (sb_txnID other) && nonempty (sb_txnID b) &&
  let (conflict, both) := predicateEvidenceConflict (proof key other) (proof key b) in both && negb conflict.

(** The ordering test that only a cyclic history needs. *)
Definition ordered_pair (c : causalIndex) (b other : seenBind) : causalIndex * bool :=
  if ci_cyclic c then
    let (c1, r1) := query store c (sb_newTip b) (sb_newTip other) in
    if r1 then (c1, true) else query store c1 (sb_newTip other) (sb_newTip b)
  else (c, false).

Definition reportable_at (reportable : gmap Tip bool) (b : seenBind) : bool :=
  default false (reportable !! sb_bindOffset b).

Definition sorted_pair (x y : bytes) : bytes * bytes := if bytes_compare y x <? 0 then (y, x) else (x, y).

Definition report (reportable : gmap Tip bool) (b other : seenBind) (ad : adjudication) : adjudication :=
  let pair := sorted_pair (sb_txnID b) (sb_txnID other) in
  if reportable_at reportable b && reportable_at reportable other && negb (bool_decide (pair ∈ ad_seen ad))
  then mkAdj (ad_index ad) (ad_losers ad)
         (ad_conflicts ad ++ [mkPair (sb_bindOffset b, sb_bindOffset other) (sb_txnID b, sb_txnID other)])
         ({[ pair ]} ∪ ad_seen ad)
  else ad.

(** One pair; [true] when the candidate needs no further comparison. *)
Definition check_pair (key : bytes) (reportable : gmap Tip bool) (b other : seenBind) (ad : adjudication)
    : adjudication * bool :=
  let (c, ordered) := ordered_pair (ad_index ad) b other in
  let ad := mkAdj c (ad_losers ad) (ad_conflicts ad) (ad_seen ad) in
  if ordered || negb (ForkChoiceLess (sb_hash other) (sb_hash b)) || disjoint_predicates key other b then (ad, false)
  else
    let ad := mkAdj (ad_index ad) ({[ sb_txnID b ]} ∪ ad_losers ad) (ad_conflicts ad) (ad_seen ad) in
    (report reportable b other ad, negb (reportable_at reportable b)).

Fixpoint pair_loop (key : bytes) (reportable : gmap Tip bool) (candidates : list seenBind) (i : nat) (b : seenBind)
    (js : list nat) (ad : adjudication) : adjudication * bool :=
  match js with
  | [] => (ad, false)
  | j :: js' =>
      match candidates !! j with
      | Some other =>
          if (i =? j)%nat then pair_loop key reportable candidates i b js' ad
          else let (ad', stop) := check_pair key reportable b other ad in
               if stop then (ad', true) else pair_loop key reportable candidates i b js' ad'
      | None => pair_loop key reportable candidates i b js' ad
      end
  end.

Fixpoint chain_loop (key : bytes) (reportable : gmap Tip bool) (candidates : list seenBind) (i : nat) (b : seenBind)
    (chains : list (list nat)) (ad : adjudication) : adjudication :=
  match chains with
  | [] => ad
  | chain :: chains' =>
      let '(c, (first, last)) := concurrentRange store (ad_index ad) (sb_newTip b) chain (map sb_newTip candidates) in
      let ad := mkAdj c (ad_losers ad) (ad_conflicts ad) (ad_seen ad) in
      let (ad', stop) := pair_loop key reportable candidates i b (take (last - first) (drop first chain)) ad in
      if stop then ad' else chain_loop key reportable candidates i b chains' ad'
  end.

Fixpoint candidate_loop (key : bytes) (reportable : gmap Tip bool) (candidates : list seenBind) (chains : list (list nat))
    (i : nat) (todo : list seenBind) (ad : adjudication) : adjudication :=
  match todo with
  | [] => ad
  | b :: todo' =>
      candidate_loop key reportable candidates chains (S i) todo' (chain_loop key reportable candidates i b chains ad)
  end.

(** The recorded winners that may be reported. *)
Fixpoint reportable_binds (key : bytes) (startTips : list Tip) (verdicts : verdictMap) (candidates : list seenBind)
    (c : causalIndex) (reportable : gmap Tip bool) : walk (causalIndex * gmap Tip bool) :=
  match candidates with
  | [] => Done (c, reportable)
  | b :: candidates' =>
      if bool_decide (ve_verdict <$> verdicts !! sb_txnID b = Some WON) then
        '(c', ok) ← unresolvedConflictTip key (sb_bindOffset b) startTips c;
        reportable_binds key startTips verdicts candidates' c' (<[ sb_bindOffset b := ok ]> reportable)
      else reportable_binds key startTips verdicts candidates' c reportable
  end.

(** The pairwise decision over at least two candidates. *)
Definition adjudicate (key : bytes) (startTips : list Tip) (verdicts : verdictMap) (candidates : list seenBind)
    (losers : gset bytes) (reportConflicts : bool) : walk (gset bytes * list conflictPair) :=
  let candidates := sort_func (fun a b => bytes_compare (sb_hash a) (sb_hash b)) candidates in
  let candidateTips := map sb_newTip candidates in
  '(c, _) ← add store newCausalIndex candidateTips;
  '(c, reportable) ←
    (if reportConflicts && negb (has_prefix key conflictKeyPrefix)
     then reportable_binds key startTips verdicts candidates c ∅ else Done (c, ∅));
  '(c, chains) ← candidateChains store c candidateTips;
  let ad := candidate_loop key reportable candidates chains 0 candidates (mkAdj c losers [] ∅) in
  Done (ad_losers ad, ad_conflicts ad).

(** Losers, effects walked, conflicts to report. *)
Definition losersOnKeyAt (key : bytes) (tips extraTips : list Tip) (snapshotVerdicts : verdictMap)
    (invisible : bytes -> bool) (reportConflicts : bool) : walk (gset bytes * nat * list conflictPair) :=
  match start_tips tips extraTips with
  | [] => Done (∅, 0%nat, [])
  | startTips =>
      sc ← scan_key key startTips snapshotVerdicts invisible;
      let (losers, candidates) := triage (sc_verdicts sc) (sc_binds sc) in
      if (length candidates <? 2)%nat then Done (losers, sc_walked sc, [])
      else '(losers, conflicts) ← adjudicate key startTips (sc_verdicts sc) candidates losers reportConflicts;
           Done (losers, sc_walked sc, conflicts)
  end.

Definition losersOnKey (key : bytes) (extraTips : list Tip) (snapshotVerdicts : verdictMap) (invisible : bytes -> bool)
    : walk (gset bytes * nat * list conflictPair) :=
  losersOnKeyAt key (index key) extraTips snapshotVerdicts invisible true.

End Losers.
