(* ===== verification/LosersProps.v ===== *)
(** * What [losersOnKeyAt] computes

    The chain-and-interval search of the code finds exactly the losers that the
    pairwise definition of fork choice names. *)

From S2P Require Import Prelude Golib Proto Store Walk ForkChoice CausalIndex CausalProps Predicate Losers.

(** ** Harvesting verdicts *)

Lemma harvest_lookup v tip snap txn :
  harvest v tip snap !! txn =
  match v !! txn with
  | Some e => Some e
  | None => match s_txn_verdicts snap !! txn with
            | Some nv => if bool_decide (nv = VERDICT_UNSPECIFIED) then None else Some (mkVerdict nv tip)
            | None => None
            end
  end.
Proof.
  unfold harvest. revert txn.
  apply (map_fold_weak_ind (fun (r : verdictMap) (m : gmap bytes Verdict) => forall txn, r !! txn =
    match v !! txn with
    | Some e => Some e
    | None => match m !! txn with
              | Some nv => if bool_decide (nv = VERDICT_UNSPECIFIED) then None else Some (mkVerdict nv tip)
              | None => None
              end
    end)).
  - intros txn. rewrite lookup_empty. by destruct (v !! txn).
  - intros k nv m r Hk IH txn. unfold harvest_one. destruct (decide (txn = k)) as [->|Hne].
    + rewrite lookup_insert_eq. specialize (IH k). rewrite Hk in IH. case_bool_decide; [by rewrite IH|].
      destruct (r !! k) eqn:Er; [by destruct (v !! k); simplify_eq|]. rewrite lookup_insert_eq. by destruct (v !! k).
    + rewrite lookup_insert_ne by done. rewrite <- IH. case_bool_decide; [done|].
      destruct (r !! k); [done|]. by rewrite lookup_insert_ne by done.
Qed.

(** ** Triage *)

(** Left to fork choice: no verdict was recorded, or only that it won. *)
Definition is_candidate (verdicts : verdictMap) (b : seenBind) : Prop :=
  match verdicts !! sb_txnID b with None => True | Some e => ve_verdict e = WON end.

Definition recorded_loser (verdicts : verdictMap) (b : seenBind) : Prop :=
  exists e, verdicts !! sb_txnID b = Some e /\ ve_verdict e = LOST.

Lemma triage_spec verdicts binds :
  (forall b, b ∈ (triage verdicts binds).2 <-> b ∈ binds /\ is_candidate verdicts b)
  /\ (forall x, x ∈ (triage verdicts binds).1 <-> exists b, b ∈ binds /\ sb_txnID b = x /\ recorded_loser verdicts b).
Proof.
  unfold triage. induction binds as [|b binds [IH1 IH2]] using rev_ind; [simpl; set_solver|].
  rewrite fold_left_app. cbn [fold_left]. destruct (fold_left _ binds _) as [losers cands]. cbn [fst snd] in *.
  unfold is_candidate, recorded_loser in *. setoid_rewrite elem_of_app. setoid_rewrite list_elem_of_singleton.
  destruct (verdicts !! sb_txnID b) as [e|] eqn:Ev; cbn [fst snd].
  - split.
    + intros b'. case_bool_decide as Hw; rewrite ?elem_of_app, ?list_elem_of_singleton, IH1; split.
      * intros [[]| ->]; [auto|]. rewrite Ev. auto.
      * intros [[|] ?]; auto.
      * intros []; auto.
      * intros [[| ->] Hc]; [auto|]. by rewrite Ev in Hc.
    + intros x. case_bool_decide as Hl; rewrite ?elem_of_union, ?elem_of_singleton, IH2; split.
      * intros [->|(b' & ? & ? & ?)]; [exists b; split_and!; [auto|done|eauto]|exists b'; split_and!; auto].
      * intros (b' & [Hb| ->] & ? & ?); [right; exists b'; auto|by left].
      * intros (b' & ? & ? & ?). exists b'; auto.
      * intros (b' & [Hb| ->] & ? & e' & ? & ?); [exists b'; eauto|]. congruence.
  - split.
    + intros b'. rewrite elem_of_app, list_elem_of_singleton, IH1. split.
      * intros [[]| ->]; [auto|]. rewrite Ev. auto.
      * intros [[|] ?]; auto.
    + intros x. rewrite IH2. split.
      * intros (b' & ? & ? & ?). exists b'; auto.
      * intros (b' & [Hb| ->] & ? & e' & ? & ?); [exists b'; eauto|]. congruence.
Qed.

Section Props.
Context {sorter : SortFunc}.
Variable (store : Store).

(** ** The scan *)

Definition scan_reach (key : bytes) (starts : list Tip) (t : Tip) : Prop :=
  exists s, s ∈ starts /\ rtc (fun x y => y ∈ scan_next store key x) s t.

Lemma scan_next_dom key t : scan_next store key t <> [] -> t ∈ dom store.
Proof. unfold scan_next, getEffect. destruct (store !! t) eqn:E; [|done]. intros _. by eapply elem_of_dom_2. Qed.

Lemma scan_binds_fold key invisible order st :
  forall b, b ∈ sc_binds (fold_left (scan_visit store key invisible) order st) <->
    b ∈ sc_binds st \/ exists t eff, t ∈ order /\ store !! t = Some eff /\ bind_on key invisible t eff = Some b.
Proof.
  revert st. induction order as [|t order IH]; intros st b; cbn [fold_left].
  { split; [auto|]. by intros [|(? & ? & ?%elem_of_nil & _)]. }
  rewrite IH. setoid_rewrite elem_of_cons.
  enough (b ∈ sc_binds (scan_visit store key invisible st t) <->
    b ∈ sc_binds st \/ exists eff, store !! t = Some eff /\ bind_on key invisible t eff = Some b) as -> by naive_solver.
  unfold scan_visit, getEffect. destruct (store !! t) as [eff|]; [|naive_solver].
  destruct (get_snapshot eff) as [snap|] eqn:Es; cbn [sc_binds].
  - split; [auto|]. intros [|(e & [= <-] & Hb)]; [done|]. unfold bind_on, get_txn_bind, get_snapshot in *.
    by destruct (e_kind eff) as [[]|].
  - rewrite elem_of_app. destruct (bind_on key invisible t eff) as [b0|] eqn:Eb; simpl.
    + rewrite list_elem_of_singleton. split; [intros [|<-]; eauto|]. intros [|(e & [= <-] & Hb)]; [auto|]. right. congruence.
    + rewrite elem_of_nil. split; [intros [|]; [auto|done]|]. intros [|(e & [= <-] & Hb)]; [auto|congruence].
Qed.

Lemma scan_run key starts verdicts invisible :
  exists order, scan_key store key starts verdicts invisible
      = Done (fold_left (scan_visit store key invisible) order (mkScan verdicts [] 0))
    /\ forall t, t ∈ order <-> scan_reach key starts t.
Proof.
  unfold scan_key.
  destruct (dfs_run (fun _ => false) (scan_next store key) (scan_visit store key invisible) (dom store) (rev starts)
    (mkScan verdicts [] 0) (scan_next_dom key)) as (order & -> & _ & Hord).
  exists order. split; [done|]. intros t. rewrite Hord. unfold scan_reach, dfs_step. split.
  - intros (_ & s & Hs & Hp). exists s. split; [by apply list_elem_of_In, in_rev, list_elem_of_In in Hs|].
    eapply rtc_subrel; [|exact Hp]. by intros x y [_ ?].
  - intros (s & Hs & Hp). split; [done|]. exists s. split; [by apply list_elem_of_In, in_rev; rewrite rev_involutive; apply list_elem_of_In|].
    eapply rtc_subrel; [|exact Hp]. by intros x y ?.
Qed.

(** The scan ends and finds precisely the visible binds of the history. *)
Lemma scan_spec key starts verdicts invisible :
  exists sc, scan_key store key starts verdicts invisible = Done sc
    /\ forall b, b ∈ sc_binds sc <->
         exists t eff, scan_reach key starts t /\ store !! t = Some eff /\ bind_on key invisible t eff = Some b.
Proof.
  destruct (scan_run key starts verdicts invisible) as (order & -> & Ho).
  eexists. split; [done|]. intros b. rewrite scan_binds_fold. cbn [sc_binds].
  setoid_rewrite Ho. split; [intros [?%elem_of_nil|]; done|auto].
Qed.

(** ** Pairs *)

(** Neither is an ancestor of the other. *)
Definition concurrent (x y : Tip) : Prop := ~ rtc (anc store) x y /\ ~ rtc (anc store) y x.

(** Fork choice between two concurrent binds: [o] makes [b] lose. *)
Definition beats (key : bytes) (o b : seenBind) : Prop :=
  concurrent (sb_newTip b) (sb_newTip o) /\ ForkChoiceLess (sb_hash o) (sb_hash b) = true
  /\ disjoint_predicates store key o b = false.

Lemma beats_irrefl key b : ~ beats key b b.
Proof. intros (_ & H & _). by rewrite ForkChoiceLess_irrefl in H. Qed.

Lemma query_cyclic c from target :
  valid store c -> ci_cyclic c = true ->
  valid store (query store c from target).1 /\ ci_cyclic (query store c from target).1 = true
  /\ ((query store c from target).2 = true <-> rtc (anc store) from target).
Proof.
  intros Hv Hc. unfold query, reaches. case_bool_decide as Heq; [subst; split_and!; [done..|]; split; [by intros _|done]|].
  unfold add. rewrite Hc. destruct (reachesCyclic_spec store c from target Hv) as (c' & b & -> & Hv' & _ & Hc' & Hb).
  cbn [fst snd]. split_and!; [done|congruence|done].
Qed.

(** The index once the candidates are on it: it does not change any more, unless
    the history is cyclic. *)
Definition settled (c0 c : causalIndex) : Prop := valid store c /\ if ci_cyclic c0 then ci_cyclic c = true else c = c0.

Lemma ordered_pair_spec c0 c b o :
  settled c0 c -> (ci_cyclic c0 = false -> concurrent (sb_newTip b) (sb_newTip o)) ->
  settled c0 (ordered_pair store c b o).1
  /\ ((ordered_pair store c b o).2 = false <-> concurrent (sb_newTip b) (sb_newTip o)).
Proof.
  intros [Hv Hs] Hcon. unfold ordered_pair. destruct (ci_cyclic c0) eqn:Hc0.
  - rewrite Hs. destruct (query_cyclic c (sb_newTip b) (sb_newTip o) Hv Hs) as (Hv1 & Hc1 & Hb1).
    destruct (query store c (sb_newTip b) (sb_newTip o)) as [c1 [|]]; cbn [fst snd] in *.
    + split; [by split; [|rewrite Hc0]|]. unfold concurrent. destruct Hb1 as [Hb1 _]. specialize (Hb1 eq_refl).
      split; [done|]. by intros [].
    + destruct (query_cyclic c1 (sb_newTip o) (sb_newTip b) Hv1 Hc1) as (Hv2 & Hc2 & Hb2).
      split; [by split; [|rewrite Hc0]|]. unfold concurrent. rewrite <- Hb1, <- Hb2.
      destruct (query store c1 _ _).2; naive_solver.
  - subst c. rewrite Hc0. cbn [fst snd]. split; [by split; [|rewrite Hc0]|]. split; [by intros _; apply Hcon|done].
Qed.

Lemma report_fields reportable b o ad :
  ad_index (report reportable b o ad) = ad_index ad /\ ad_losers (report reportable b o ad) = ad_losers ad.
Proof. unfold report. by destruct (_ && _ && _). Qed.

Lemma check_pair_spec c0 key reportable b o ad :
  settled c0 (ad_index ad) -> (ci_cyclic c0 = false -> concurrent (sb_newTip b) (sb_newTip o)) ->
  let out := check_pair store key reportable b o ad in
  settled c0 (ad_index out.1)
  /\ (forall x, x ∈ ad_losers out.1 <-> x ∈ ad_losers ad \/ (x = sb_txnID b /\ beats key o b))
  /\ (out.2 = true -> beats key o b).
Proof.
  intros Hs Hcon. cbv zeta. unfold check_pair. destruct (ordered_pair_spec c0 _ b o Hs Hcon) as [Hs' Ho].
  destruct (ordered_pair store (ad_index ad) b o) as [c ordered]. cbn [fst snd ad_index ad_losers ad_conflicts ad_seen] in *.
  destruct (ordered || _ || _) eqn:E; cbn [fst snd ad_losers ad_index].
  - assert (~ beats key o b) as Hn; [|split_and!; [done| |done]; intros x; naive_solver].
    intros (H1 & H2 & H3). apply Ho in H1. by rewrite H1, H2, H3 in E.
  - assert (beats key o b) as Hb.
    { apply orb_false_iff in E as [[E1 E2%negb_false_iff]%orb_false_iff E3]. split_and!; [by apply Ho|done..]. }
    destruct (report_fields reportable b o (mkAdj c ({[ sb_txnID b ]} ∪ ad_losers ad) (ad_conflicts ad) (ad_seen ad))) as [-> ->].
    cbn [ad_losers ad_index]. split_and!; [done| |done]. intros x. rewrite elem_of_union, elem_of_singleton. naive_solver.
Qed.

(** Some candidate among [js] beats [b]. *)
Definition hits (key : bytes) (cands : list seenBind) (b : seenBind) (js : list nat) : Prop :=
  exists j o, j ∈ js /\ cands !! j = Some o /\ beats key o b.

Lemma hits_cons key cands b j js :
  hits key cands b (j :: js) <-> (exists o, cands !! j = Some o /\ beats key o b) \/ hits key cands b js.
Proof.
  unfold hits. setoid_rewrite elem_of_cons. split.
  - intros (j' & o & [->|] & ?); [left|right]; eauto.
  - intros [(o & ?)|(j' & o & ? & ?)]; eauto.
Qed.

Lemma pair_loop_spec c0 key reportable cands i b js ad :
  cands !! i = Some b -> settled c0 (ad_index ad) ->
  (forall j o, j ∈ js -> cands !! j = Some o -> ci_cyclic c0 = false -> concurrent (sb_newTip b) (sb_newTip o)) ->
  let out := pair_loop store key reportable cands i b js ad in
  settled c0 (ad_index out.1)
  /\ (forall x, x ∈ ad_losers out.1 <-> x ∈ ad_losers ad \/ (x = sb_txnID b /\ hits key cands b js))
  /\ (out.2 = true -> hits key cands b js).
Proof.
  intros Hi. cbv zeta. revert ad. induction js as [|j js IH]; intros ad Hs Hcon; cbn [pair_loop].
  { cbn [fst snd]. split_and!; [done| |done]. intros x. split; [auto|]. by intros [|(_ & ? & ? & ?%elem_of_nil & _)]. }
  assert (forall ad', settled c0 (ad_index ad') -> _) as IH'
    by (intros ad' Hs'; exact (IH ad' Hs' (fun j' o Hj' => Hcon j' o (list_elem_of_further _ _ _ Hj')))).
  clear IH. setoid_rewrite hits_cons.
  destruct (cands !! j) as [o|] eqn:Ej; cbv beta iota.
  2: { assert (~ exists o, None = Some o /\ beats key o b) by (intros (? & ? & _); done).
       destruct (IH' ad Hs) as (H1 & H2 & H3). split_and!; [done| |tauto]. intros x. rewrite H2. tauto. }
  assert ((exists o', Some o = Some o' /\ beats key o' b) <-> beats key o b) as Heq by (split; [by intros (? & [= <-] & ?)|eauto]). setoid_rewrite Heq. clear Heq.
  destruct (Nat.eqb_spec i j) as [->|Hne].
  { assert (b = o) as -> by congruence. pose proof (beats_irrefl key o).
    destruct (IH' ad Hs) as (H1 & H2 & H3). split_and!; [done| |tauto]. intros x. rewrite H2. tauto. }
  destruct (check_pair_spec c0 key reportable b o ad Hs) as (Hs1 & Hl1 & Hb1).
  { intros Hc. apply (Hcon j); [constructor|done..]. }
  destruct (check_pair store key reportable b o ad) as [ad1 [|]]; cbn [fst snd] in *.
  - specialize (Hb1 eq_refl). split_and!; [done| |auto]. intros x. rewrite Hl1. tauto.
  - destruct (IH' ad1 Hs1) as (H1 & H2 & H3). split_and!; [done| |auto]. intros x. rewrite H2, Hl1. tauto.
Qed.

(** ** Chains *)

(** The concurrent interval of a chain holds every candidate that beats [b]. *)
Lemma chain_interval c tips c0 chains ks b cands :
  valid store c -> candidateChains store c tips = Done (c0, chains) -> tips = map sb_newTip cands ->
  ks ∈ chains -> b ∈ cands -> forall ci, settled c0 ci ->
  exists first last,
    settled c0 (concurrentRange store ci (sb_newTip b) ks tips).1
    /\ (concurrentRange store ci (sb_newTip b) ks tips).2 = (first, last)
    /\ (forall j o, j ∈ take (last - first) (drop first ks) -> cands !! j = Some o ->
          ci_cyclic c0 = false -> concurrent (sb_newTip b) (sb_newTip o))
    /\ (forall key, hits key cands b (take (last - first) (drop first ks)) <-> hits key cands b ks).
Proof.
  intros Hv E Htips Hks Hb ci [Hvi Hs].
  assert (sb_newTip b ∈ tips) as Hbt by (rewrite Htips; apply list_elem_of_fmap; eauto).
  assert (forall k o, cands !! k = Some o -> tip_at tips k = sb_newTip o) as Htip.
  { intros k o Hk. unfold tip_at. rewrite Htips, list_lookup_fmap, Hk. done. }
  destruct (ci_cyclic c0) eqn:Hc0.
  - unfold concurrentRange. rewrite Hs. exists 0%nat, (length ks). cbn [fst snd]. rewrite Nat.sub_0_r, drop_0, firstn_all.
    split_and!; [by split; [|rewrite Hc0]|done..].
  - subst ci. destruct (concurrent_range_spec store c tips c0 chains ks (sb_newTip b) Hv E Hc0 Hks Hbt) as (first & last & -> & Hr).
    exists first, last. cbn [fst snd].
    assert (forall j, j ∈ take (last - first) (drop first ks) -> exists i, ks !! i = Some j /\ (first <= i < last)%nat) as Hin.
    { intros j [i Hi]%list_elem_of_lookup_1. apply lookup_take_Some in Hi as [Hi Hlt].
      rewrite lookup_drop in Hi. exists (first + i)%nat. split; [done|lia]. }
    split_and!; [by split; [|rewrite Hc0]|done| |].
    + intros j o (i & Hi & Hf)%Hin Hj _. apply (Hr i j Hi) in Hf as [H1 H2]. rewrite (Htip j o Hj) in *. by split.
    + intros key. split.
      * intros (j & o & (i & Hi & _)%Hin & ?). exists j, o. split; [by eapply list_elem_of_lookup_2|done].
      * intros (j & o & [i Hi]%list_elem_of_lookup_1 & Hj & Hbt'). exists j, o. split; [|done].
        destruct (proj2 (Hr i j Hi)) as [Hf Hl]; [rewrite (Htip j o Hj); apply Hbt'|].
        apply list_elem_of_lookup. exists (i - first)%nat. apply lookup_take_Some. rewrite lookup_drop.
        replace (first + (i - first))%nat with i by lia. split; [done|lia].
Qed.

Definition hits_chains (key : bytes) (cands : list seenBind) (b : seenBind) (chains : list (list nat)) : Prop :=
  exists ks, ks ∈ chains /\ hits key cands b ks.

Lemma chain_loop_spec c c0 chains key reportable cands i b rest ad :
  valid store c -> candidateChains store c (map sb_newTip cands) = Done (c0, chains) ->
  cands !! i = Some b -> (forall ks, ks ∈ rest -> ks ∈ chains) -> settled c0 (ad_index ad) ->
  let ad' := chain_loop store key reportable cands i b rest ad in
  settled c0 (ad_index ad')
  /\ forall x, x ∈ ad_losers ad' <-> x ∈ ad_losers ad \/ (x = sb_txnID b /\ hits_chains key cands b rest).
Proof.
  intros Hv E Hi Hrest Hs. cbv zeta. revert ad Hs.
  induction rest as [|ks rest IH]; intros ad Hs; cbn [chain_loop].
  { split; [done|]. intros x. split; [auto|]. by intros [|(_ & ? & ?%elem_of_nil & _)]. }
  assert (hits_chains key cands b (ks :: rest) <-> hits key cands b ks \/ hits_chains key cands b rest) as Hcons.
  { unfold hits_chains. setoid_rewrite elem_of_cons. split.
    - intros (ks' & [->|] & ?); eauto.
    - intros [|(ks' & ? & ?)]; eauto. }
  setoid_rewrite Hcons. clear Hcons.
  destruct (chain_interval c _ c0 chains ks b cands Hv E eq_refl) with (ci := ad_index ad) as (first & last & Hs1 & Er & Hcon & Hh);
    [apply Hrest; constructor|by eapply list_elem_of_lookup_2|done|].
  destruct (concurrentRange store (ad_index ad) _ ks _) as [c1 r]. cbn [fst snd] in *. subst r.
  destruct (pair_loop_spec c0 key reportable cands i b (take (last - first) (drop first ks))
    (mkAdj c1 (ad_losers ad) (ad_conflicts ad) (ad_seen ad)) Hi Hs1 Hcon) as (Hs2 & Hl & Hstop).
  destruct (pair_loop _ _ _ _ _ _ _ _) as [ad2 stop]. cbn [fst snd ad_losers] in *. setoid_rewrite Hh in Hl. rewrite Hh in Hstop.
  destruct stop.
  - specialize (Hstop eq_refl). split; [done|]. intros x. rewrite Hl. tauto.
  - destruct (IH (fun ks' H => Hrest ks' (list_elem_of_further _ _ _ H)) ad2 Hs2) as [Hs3 Hl3]. split; [done|].
    intros x. rewrite Hl3, Hl. tauto.
Qed.

Lemma candidate_loop_spec c c0 chains key reportable cands i todo ad :
  valid store c -> candidateChains store c (map sb_newTip cands) = Done (c0, chains) ->
  todo = drop i cands -> settled c0 (ad_index ad) ->
  let ad' := candidate_loop store key reportable cands chains i todo ad in
  forall x, x ∈ ad_losers ad' <-> x ∈ ad_losers ad \/ exists b, b ∈ todo /\ x = sb_txnID b /\ hits_chains key cands b chains.
Proof.
  intros Hv E. cbv zeta. revert i ad. induction todo as [|b todo IH]; intros i ad Ht Hs x; cbn [candidate_loop].
  { split; [auto|]. by intros [|(? & ?%elem_of_nil & _)]. }
  assert (cands !! i = Some b) as Hi.
  { pose proof (lookup_drop cands i 0) as Hd. rewrite <- Ht, Nat.add_0_r in Hd. by rewrite <- Hd. }
  destruct (chain_loop_spec c c0 chains key reportable cands i b chains ad Hv E Hi (fun ks H => H) Hs) as [Hs1 Hl1].
  rewrite IH, Hl1; [|rewrite (drop_S cands b i Hi) in Ht; by injection Ht|done].
  setoid_rewrite elem_of_cons. split.
  - intros [[|[-> ?]]|(b' & ? & ? & ?)]; [auto|right; exists b; auto|right; exists b'; auto].
  - intros [|(b' & [->|] & -> & ?)]; [auto|auto|right; exists b'; auto].
Qed.

(** Every candidate is on some chain. *)
Lemma chains_cover c tips c0 chains j :
  valid store c -> candidateChains store c tips = Done (c0, chains) -> (j < length tips)%nat ->
  exists ks, ks ∈ chains /\ j ∈ ks.
Proof.
  intros Hv E Hj. unfold candidateChains in E.
  destruct (index_add_spec store c tips Hv) as (c1 & b & Ea & Hv1 & Hcy & Hb). rewrite Ea in E. destruct b; injection E as <- <-.
  - destruct (lookup_lt_is_Some_2 tips j Hj) as [t Ht].
    destruct (proj2 (Hb eq_refl) t ltac:(by eapply list_elem_of_lookup_2)) as (cl & ch & sq & Hvt).
    destruct (ci_clock _ _ (li_inv _ _ _ (v_index _ _ Hv1 Hcy)) _ _ _ _ Hvt) as (Hlen & _ & Hch & _).
    eexists. split; [apply list_elem_of_In, in_map, in_seq; split; [|apply (Nat.lt_le_trans ch (length cl) _ Hch Hlen)]; lia|].
    apply elem_of_sort_func, list_elem_of_filter. split; [|apply elem_of_seq; lia].
    unfold tip_chain, tip_at. rewrite Ht. cbn [default id]. unfold vtx in Hvt. by rewrite Hvt.
  - exists (seq 0 (length tips)). split; [constructor|]. apply elem_of_seq. lia.
Qed.

Lemma hits_chains_all c c0 chains key cands b :
  valid store c -> candidateChains store c (map sb_newTip cands) = Done (c0, chains) ->
  hits_chains key cands b chains <-> exists o, o ∈ cands /\ beats key o b.
Proof.
  intros Hv E. split.
  - intros (ks & _ & j & o & _ & Ho & ?). exists o. split; [by eapply list_elem_of_lookup_2|done].
  - intros (o & [j Hj]%list_elem_of_lookup_1 & ?).
    destruct (chains_cover c _ c0 chains j Hv E) as (ks & ? & ?); [rewrite length_map; by eapply lookup_lt_Some|].
    exists ks. split; [done|]. by exists j, o.
Qed.

(** ** Reporting does not fail *)

Variable (index : bytes -> list Tip).

Lemma conflictHeads_total key tips : exists heads, conflictHeads store key tips = Done heads.
Proof.
  unfold conflictHeads.
  destruct (dfs_run (fun _ => false) (heads_next store key) (fun heads t => if is_certifying store key t then heads else heads ++ [t])
    (dom store) (rev tips) []) as (order & -> & _); [|eauto].
  intros t. unfold heads_next, is_certifying, getEffect. destruct (store !! t) eqn:E; [|done]. intros _. by eapply elem_of_dom_2.
Qed.

Lemma bind_heads_total ks : exists heads, bind_heads store index ks = Done heads.
Proof.
  induction ks as [|kb ks [rest IH]]; cbn [bind_heads]; [eauto|].
  destruct (conflictHeads_total (kb_key kb) (index (kb_key kb))) as [heads ->]. cbn. rewrite IH. cbn. eauto.
Qed.

Lemma query_valid c from target : valid store c -> valid store (query store c from target).1.
Proof. intros Hv. unfold query. by destruct (causal_reaches_spec store c from target Hv) as (c' & b & -> & Hv' & _). Qed.

Lemma none_reaches_valid c heads bind : valid store c -> valid store (none_reaches store c heads bind).1.
Proof.
  revert c. induction heads as [|h heads IH]; intros c Hv; cbn [none_reaches]; [done|].
  case_bool_decide; [by apply IH|]. pose proof (query_valid c h bind Hv).
  destruct (query store c h bind) as [c' []]; [done|by apply IH].
Qed.

Lemma reportable_binds_total key starts verdicts cands c m :
  valid store c ->
  exists c' m', reportable_binds store index key starts verdicts cands c m = Done (c', m') /\ valid store c'.
Proof.
  revert c m. induction cands as [|b cands IH]; intros c m Hv; cbn [reportable_binds]; [eauto|].
  case_bool_decide; [|by apply IH]. unfold unresolvedConflictTip.
  destruct (conflictHeads_total key starts) as [heads ->]. cbn.
  destruct (negb _); cbn; [by apply IH|]. destruct (getEffect store key (sb_bindOffset b)) as [eff|]; cbn; [|by apply IH].
  destruct (bind_heads_total (bind_keys eff)) as [others ->]. cbn.
  pose proof (none_reaches_valid c (heads ++ others) (sb_bindOffset b) Hv).
  destruct (none_reaches store c (heads ++ others) (sb_bindOffset b)) as [c' ok]. by apply IH.
Qed.

(** ** Adjudication *)

Lemma candidateChains_total c tips :
  valid store c -> exists c0 chains, candidateChains store c tips = Done (c0, chains) /\ valid store c0.
Proof.
  intros Hv. unfold candidateChains. destruct (index_add_spec store c tips Hv) as (c1 & b & -> & Hv1 & _).
  destruct b; do 2 eexists; (split; [reflexivity|done]).
Qed.

Lemma adjudicate_spec key starts verdicts cands losers reportConflicts :
  exists losers' conflicts, adjudicate store index key starts verdicts cands losers reportConflicts = Done (losers', conflicts)
    /\ forall x, x ∈ losers' <-> x ∈ losers \/ exists b, b ∈ cands /\ x = sb_txnID b /\ exists o, o ∈ cands /\ beats key o b.
Proof.
  unfold adjudicate. set (cmp := fun a b => bytes_compare (sb_hash a) (sb_hash b)). set (sorted := sort_func cmp cands).
  destruct (index_add_spec store newCausalIndex (map sb_newTip sorted) (valid_new store)) as (c1 & b1 & -> & Hv1 & _).
  cbn [mbind walk_bind].
  assert (exists c2 m, (if reportConflicts && negb (has_prefix key conflictKeyPrefix)
    then reportable_binds store index key starts verdicts sorted c1 ∅ else Done (c1, ∅)) = Done (c2, m) /\ valid store c2)
    as (c2 & m & -> & Hv2).
  { destruct (_ && _); [by apply reportable_binds_total|eauto]. }
  cbn [mbind walk_bind]. destruct (candidateChains_total c2 (map sb_newTip sorted) Hv2) as (c0 & chains & E & Hv0).
  rewrite E. cbn [mbind walk_bind]. do 2 eexists. split; [done|]. intros x.
  rewrite (candidate_loop_spec c2 c0 chains key m sorted 0 sorted (mkAdj c0 losers [] ∅) Hv2 E);
    [|by rewrite drop_0|split; [done|cbn [ad_index]; by destruct (ci_cyclic c0)]].
  cbn [ad_losers]. setoid_rewrite (hits_chains_all c2 c0 chains key sorted _ Hv2 E).
  assert (forall b, b ∈ sorted <-> b ∈ cands) as Hperm by (intros b; apply elem_of_sort_func). by setoid_rewrite Hperm.
Qed.

Lemma start_tips_elem tips extra t : t ∈ start_tips tips extra <-> t ∈ tips ++ extra.
Proof.
  revert tips. induction extra as [|e extra IH]; intros tips; cbn [start_tips]; [by rewrite app_nil_r|].
  case_bool_decide; rewrite IH; set_solver.
Qed.

Lemma scan_reach_start key tips extra t :
  scan_reach key (start_tips tips extra) t <-> scan_reach key (tips ++ extra) t.
Proof. unfold scan_reach. by setoid_rewrite start_tips_elem. Qed.

End Props.

(** The losers of a scan: recorded as such, or beaten by another candidate. *)
Definition lost (store : Store) (key : bytes) (sc : scan) (x : bytes) : Prop :=
  exists b, b ∈ sc_binds sc /\ sb_txnID b = x /\
    (recorded_loser (sc_verdicts sc) b
     \/ is_candidate (sc_verdicts sc) b
        /\ exists o, o ∈ sc_binds sc /\ is_candidate (sc_verdicts sc) o /\ beats store key o b).

Lemma losers_spec `{!SortFunc} (store : Store) (index : bytes -> list Tip) key tips extra verdicts invisible reportConflicts :
  exists sc losers conflicts,
    scan_key store key (start_tips tips extra) verdicts invisible = Done sc
    /\ losersOnKeyAt store index key tips extra verdicts invisible reportConflicts = Done (losers, sc_walked sc, conflicts)
    /\ forall x, x ∈ losers <-> lost store key sc x.
Proof.
  destruct (scan_spec store key (start_tips tips extra) verdicts invisible) as (sc & Esc & _).
  destruct (triage_spec (sc_verdicts sc) (sc_binds sc)) as [Hc Hl].
  assert (forall losers x, x ∈ losers <-> x ∈ (triage (sc_verdicts sc) (sc_binds sc)).1 \/
    (exists b, b ∈ (triage (sc_verdicts sc) (sc_binds sc)).2 /\ x = sb_txnID b
       /\ exists o, o ∈ (triage (sc_verdicts sc) (sc_binds sc)).2 /\ beats store key o b) ->
    x ∈ (losers : gset bytes) <-> lost store key sc x) as Hlost.
  { intros losers x ->. rewrite Hl. unfold lost. setoid_rewrite Hc. split.
    - intros [(b & ? & ? & ?)|(b & [? ?] & -> & o & [? ?] & ?)]; exists b; eauto 10.
    - intros (b & ? & <- & [|(? & o & ? & ? & ?)]); [left; eauto|right; exists b; split_and!; eauto]. }
  unfold losersOnKeyAt. destruct (start_tips tips extra) as [|s starts] eqn:Est.
  - exists (mkScan verdicts [] 0), ∅, []. split_and!; [|reflexivity|].
    { unfold scan_key. cbn [rev]. by destruct (dfs_fuel _ _ _). }
    intros x. split; [done|].
    by intros (b & ?%elem_of_nil & _).
  - rewrite Esc. cbn [mbind walk_bind]. destruct (triage (sc_verdicts sc) (sc_binds sc)) as [losers cands]. cbn [fst snd] in *.
    exists sc. destruct (Nat.ltb_spec (length cands) 2) as [Hlt|Hge].
    + exists losers, []. split_and!; [done..|]. intros x. apply Hlost. split; [auto|]. intros [|(b & Hb & _ & o & Ho & Hbt)]; [done|].
      assert (b = o) as ->; [|by apply beats_irrefl in Hbt].
      destruct cands as [|y [|z cands]]; [by apply elem_of_nil in Hb| |simpl in Hlt; lia].
      apply list_elem_of_singleton in Hb as ->. by apply list_elem_of_singleton in Ho as ->.
    + destruct (adjudicate_spec store index key (s :: starts) (sc_verdicts sc) cands losers reportConflicts)
        as (losers' & conflicts & -> & Hadj).
      exists losers', conflicts. split_and!; [done..|]. intros x. apply Hlost, Hadj.
Qed.

