(* ===== verification/Closure.v ===== *)
(** * The cross-key closure of a read (effects/snapshot.go)

    A bind is atomic across every key it touches, so a read of one key has to
    judge its binds on all of their keys.  [bindKeyClosureFrom] widens from the
    start keys along binds until nothing new turns up; [atomically_lost] is the
    set of transactions that a read then treats as lost. *)

From S2P Require Import Prelude Golib Proto Store Walk Losers.

(** [cl_visited] and [cl_anchored] are the two flags of the ledger [seen]; the
    queue is a stack, its top first. *)
Record closure := mkClosure {
  cl_binds : gmap bytes (list Tip);
  cl_queue : list bytes;
  cl_queued : gset bytes;
  cl_visited : gset (bytes * Tip);
  cl_anchored : gset (bytes * Tip);
  cl_verdicts : verdictMap;
}.

Definition set_visited (k : bytes) (t : Tip) (st : closure) : closure :=
  mkClosure (cl_binds st) (cl_queue st) (cl_queued st) ({[ (k, t) ]} ∪ cl_visited st) (cl_anchored st) (cl_verdicts st).

Definition set_verdicts (v : verdictMap) (st : closure) : closure :=
  mkClosure (cl_binds st) (cl_queue st) (cl_queued st) (cl_visited st) (cl_anchored st) v.

(** The bind at [t], met on key [k], anchors one of its keys. *)
Definition anchor (k : bytes) (t : Tip) (st : closure) (kb : KeyBind) : closure :=
  let other := kb_key kb in
  if bool_decide (other = k) || bool_decide ((other, t) ∈ cl_anchored st) then st
  else
    let queued := bool_decide (other ∈ cl_queued st) in
    mkClosure (<[ other := default [] (cl_binds st !! other) ++ [t] ]> (cl_binds st))
      (if queued then cl_queue st else other :: cl_queue st)
      (if queued then cl_queued st else {[ other ]} ∪ cl_queued st)
      (cl_visited st) ({[ (other, t) ]} ∪ cl_anchored st) (cl_verdicts st).

(** The start keys, each queued once. *)
Definition enqueue_start (st : closure) (key : bytes) : closure :=
  if bool_decide (key ∈ cl_queued st) then st
  else mkClosure (<[ key := [] ]> (cl_binds st)) (key :: cl_queue st) ({[ key ]} ∪ cl_queued st)
         (cl_visited st) (cl_anchored st) (cl_verdicts st).

Definition start_closure (startKeys : list bytes) : closure :=
  fold_left enqueue_start startKeys (mkClosure ∅ [] ∅ ∅ ∅ ∅).

(** The tips already visited on a key. *)
Definition visited_at (k : bytes) (visited : gset (bytes * Tip)) : gset Tip :=
  set_map snd (filter (fun p : bytes * Tip => p.1 = k) visited).

Section Closure.
Context {sorter : SortFunc}.
Variable (store : Store) (tipsFor : bytes -> option (list Tip)) (strict : bool).

Definition closure_visit (k : bytes) (st : closure) (t : Tip) : option closure :=
  let st := set_visited k t st in
  match getEffect store k t with
  | None => if strict then None else Some st
  | Some eff =>
      match get_txn_bind eff with
      | Some bind => Some (fold_left (anchor k t) (tb_keys bind) st)
      | None =>
          match get_snapshot eff with
          | Some snap => Some (set_verdicts (harvest (cl_verdicts st) t snap) st)
          | None => Some st
          end
      end
  end.

(** One key: from its frontier and its anchors, along what [scan_next] follows
    (a bind's new tip on this key; a snapshot's predecessor, and its
    dependencies when it carries no state; otherwise all dependencies). *)
Definition closure_key (k : bytes) (frontier : list Tip) (st : closure) : walk closure :=
  let stack := rev (frontier ++ default [] (cl_binds st !! k)) in
  dfs (fun _ => false) (scan_next store k) (closure_visit k) (dfs_fuel (scan_next store k) (dom store) stack)
    stack (visited_at k (cl_visited st)) st.

Definition pop_queue (st : closure) : option (bytes * closure) :=
  match cl_queue st with
  | [] => None
  | k :: q => Some (k, mkClosure (cl_binds st) q (cl_queued st ∖ {[ k ]}) (cl_visited st) (cl_anchored st) (cl_verdicts st))
  end.

Fixpoint closure_loop (fuel : nat) (st : closure) : walk closure :=
  match pop_queue st with
  | None => Done st
  | Some (k, st) =>
      match fuel with
      | O => OutOfFuel
      | S fuel' =>
          match tipsFor k with
          | None => Missing
          | Some frontier => st' ← closure_key k frontier st; closure_loop fuel' st'
          end
      end
  end.

(** Every anchor there can be. *)
Definition anchor_space : gset (bytes * Tip) :=
  list_to_set (flat_map (fun '(t, eff) => map (fun kb => (kb_key kb, t)) (bind_keys eff)) (map_to_list store)).

(** A key is queued as a start key or by a new anchor. *)
Definition closure_fuel (startKeys : list bytes) : nat := (length startKeys + size anchor_space)%nat.

Definition bindKeyClosureFrom (startKeys : list bytes) : walk (gmap bytes (list Tip) * verdictMap) :=
  st ← closure_loop (closure_fuel startKeys) (start_closure startKeys);
  Done (cl_binds st, cl_verdicts st).

End Closure.

Section Lost.
Context {sorter : SortFunc}.
(** The tips the index holds for each key, whether [ensureSubscribed] succeeds
    on it, and the transactions the horizon holds back. *)
Variable (store : Store) (index : bytes -> list Tip) (subscribed invisible : bytes -> bool).

(** The frontier of a key in a live read. *)
Definition live_tips (k : bytes) : option (list Tip) := if subscribed k then Some (index k) else None.

Definition bindKeyClosure (startKey : bytes) : walk (gmap bytes (list Tip) * verdictMap) :=
  bindKeyClosureFrom store live_tips false [startKey].

Definition recorded_lost (verdicts : verdictMap) : gset bytes :=
  dom (filter (fun p : bytes * verdictEntry => ve_verdict p.2 = LOST) verdicts).

(** The losers of every key of the closure, and the effects walked on keys
    other than [key]. *)
Fixpoint lost_on_keys (key : bytes) (verdicts : verdictMap) (bindsByKey : list (bytes * list Tip))
    (acc : gset bytes * nat) : walk (gset bytes * nat) :=
  match bindsByKey with
  | [] => Done acc
  | (k, anchors) :: rest =>
      '(losers, walked, _) ← losersOnKey store index k anchors verdicts invisible;
      lost_on_keys key verdicts rest
        (losers ∪ acc.1, if bool_decide (k = key) then acc.2 else (acc.2 + walked)%nat)
  end.

(** Verdicts, atomically lost transactions, effects walked on other keys. *)
Definition atomically_lost (key : bytes) : walk (verdictMap * gset bytes * nat) :=
  '(bindsByKey, verdicts) ← bindKeyClosure key;
  '(lost, walked) ← lost_on_keys key verdicts (map_to_list bindsByKey) (recorded_lost verdicts, 0%nat);
  Done (verdicts, lost, walked).

End Lost.
