(* ===== verification/ClosureProps.v ===== *)
(** * What the closure of a read contains

    The widening ends and collects exactly the binds, keys and verdicts that are
    connected to the start keys; and the transactions it declares lost are lost
    on every key alike. *)

From S2P Require Import Prelude Golib Proto Store Walk ForkChoice CausalIndex CausalProps Predicate Losers LosersProps Closure.

Lemma elem_of_visited_at (k : bytes) (V : gset (bytes * Tip)) (t : Tip) : t ∈ visited_at k V <-> (k, t) ∈ V.
Proof.
  unfold visited_at. rewrite elem_of_map. split.
  - intros ([k' t'] & -> & [Hk Ht]%elem_of_filter). simpl in *. by subst.
  - intros H. exists (k, t). split; [done|]. by apply elem_of_filter.
Qed.

(** ** The ledger *)

(** Anchors are recorded once, in the lists of the keys they anchor; a queued key
    is on the queue once. *)
Record cl_ok (starts : list bytes) (st : closure) : Prop := {
  co_binds : forall k t, t ∈ default [] (cl_binds st !! k) <-> (k, t) ∈ cl_anchored st;
  co_once : forall k, NoDup (default [] (cl_binds st !! k));
  co_keys : forall k, is_Some (cl_binds st !! k) <-> k ∈ starts \/ exists t, (k, t) ∈ cl_anchored st;
  co_queued : forall k, k ∈ cl_queued st <-> k ∈ cl_queue st;
  co_queue : NoDup (cl_queue st);
}.

(** What a step of the walk may do to the ledger: anchors and keys are added, and
    a key with a new anchor is on the queue. *)
Record cl_grows (st st' : closure) : Prop := {
  cg_anchored : cl_anchored st ⊆ cl_anchored st';
  cg_queue : forall k, k ∈ cl_queue st -> k ∈ cl_queue st';
  cg_new : forall k t, (k, t) ∈ cl_anchored st' -> (k, t) ∈ cl_anchored st \/ k ∈ cl_queue st';
  cg_from : forall k, k ∈ cl_queue st' -> k ∈ cl_queue st \/ exists t, (k, t) ∈ cl_anchored st';
  cg_measure : forall space, cl_anchored st' ⊆ space ->
    (length (cl_queue st') + size (space ∖ cl_anchored st') <= length (cl_queue st) + size (space ∖ cl_anchored st))%nat;
}.

Lemma cl_grows_refl st : cl_grows st st.
Proof. split; auto. Qed.

Lemma cl_grows_trans st1 st2 st3 : cl_grows st1 st2 -> cl_grows st2 st3 -> cl_grows st1 st3.
Proof.
  intros [A1 B1 C1 F1 D1] [A2 B2 C2 F2 D2]. split; [set_solver|auto| | |].
  - intros k t [H|]%C2; [|auto]. apply C1 in H as [|]; auto.
  - intros k [[|[t ?]]%F1|]%F2; [auto|right; exists t; auto|auto].
  - intros space Hs. specialize (D1 space ltac:(set_solver)). specialize (D2 space Hs). lia.
Qed.

Lemma anchor_spec starts k t st kb :
  cl_ok starts st ->
  let st' := anchor k t st kb in
  cl_ok starts st' /\ cl_grows st st'
  /\ (forall o u, (o, u) ∈ cl_anchored st' <-> (o, u) ∈ cl_anchored st \/ (o = kb_key kb /\ u = t /\ kb_key kb <> k))
  /\ cl_visited st' = cl_visited st /\ cl_verdicts st' = cl_verdicts st.
Proof.
  intros [Hb Ho Hk Hq Hn]. cbv zeta. unfold anchor.
  destruct (bool_decide (kb_key kb = k) || bool_decide ((kb_key kb, t) ∈ cl_anchored st)) eqn:E.
  { split_and!; [by split|apply cl_grows_refl| |done..]. intros o u. split; [auto|]. intros [|(-> & -> & Hne)]; [done|].
    apply orb_true_iff in E as [?%bool_decide_eq_true|?%bool_decide_eq_true]; done. }
  apply orb_false_iff in E as [Hne%bool_decide_eq_false Hfr%bool_decide_eq_false]. set (o := kb_key kb) in *.
  assert (forall u, u ∈ default [] (cl_binds st !! o) <-> (o, u) ∈ cl_anchored st) as Hbo by (intros u; apply Hb).
  split_and!; [| |intros o' u; cbn [cl_anchored]; set_solver|done..].
  - split; cbn [cl_binds cl_queue cl_queued cl_anchored].
    + intros k' u. destruct (decide (k' = o)) as [->|Hk'].
      * rewrite lookup_insert_eq. cbn [default id]. rewrite elem_of_app, Hbo, list_elem_of_singleton. set_solver.
      * rewrite lookup_insert_ne by done. rewrite Hb. set_solver.
    + intros k'. destruct (decide (k' = o)) as [->|Hk']; [|rewrite lookup_insert_ne by done; apply Ho].
      rewrite lookup_insert_eq. cbn [default id]. apply list.NoDup_app. split_and!; [apply Ho| |apply list.NoDup_singleton].
      intros u Hu%Hbo ->%list_elem_of_singleton. done.
    + intros k'. destruct (decide (k' = o)) as [->|Hk'].
      * rewrite lookup_insert_eq. split; [|eauto]. intros _. right. exists t. set_solver.
      * rewrite lookup_insert_ne, Hk by done. split; (intros [|[u Hu]]; [auto|right; exists u; set_solver]).
    + intros k'. case_bool_decide; rewrite ?elem_of_union, ?elem_of_singleton, ?elem_of_cons, Hq; done.
    + case_bool_decide as Hin; [done|]. constructor; [|done]. by rewrite <- Hq.
  - split; cbn [cl_binds cl_queue cl_queued cl_anchored].
    + set_solver.
    + intros k' Hk'. case_bool_decide; [done|]. by constructor.
    + intros k' u [[= -> ->]%elem_of_singleton|]%elem_of_union; [|auto]. right.
      case_bool_decide as Hin; [by apply Hq|constructor].
    + intros k'. case_bool_decide; [auto|]. intros [->|]%elem_of_cons; [right; exists t; set_solver|auto].
    + intros space Hs. assert (size (space ∖ cl_anchored st) = S (size (space ∖ ({[(o, t)]} ∪ cl_anchored st)))) as ->.
      { assert (space ∖ cl_anchored st = {[(o, t)]} ∪ space ∖ ({[(o, t)]} ∪ cl_anchored st)) as ->.
        { apply set_eq. intros p. destruct (decide (p = (o, t))); set_solver. }
        rewrite size_union, size_singleton by set_solver. done. }
      case_bool_decide; simpl; lia.
Qed.

Section Props.
Variable (store : Store) (tipsFor : bytes -> option (list Tip)) (strict : bool).

(** The bind at [u] touches [o], a key other than [k]. *)
Definition binds_other (k o : bytes) (u : Tip) : Prop :=
  exists eff kb, store !! u = Some eff /\ kb ∈ bind_keys eff /\ kb_key kb = o /\ o <> k.

(** The snapshot at [u] records a verdict for the transaction. *)
Definition says (u : Tip) (x : bytes) (v : Verdict) : Prop :=
  exists eff snap, store !! u = Some eff /\ get_snapshot eff = Some snap
    /\ s_txn_verdicts snap !! x = Some v /\ v <> VERDICT_UNSPECIFIED.

(** What visiting [order] on key [k] does to the ledger. *)
Record visited_all (k : bytes) (order : list Tip) (st st' : closure) : Prop := {
  va_visited : forall k' t, (k', t) ∈ cl_visited st' <-> (k', t) ∈ cl_visited st \/ (k' = k /\ t ∈ order);
  va_anchored : forall o u, (o, u) ∈ cl_anchored st' <-> (o, u) ∈ cl_anchored st \/ (u ∈ order /\ binds_other k o u);
  va_kept : forall x e, cl_verdicts st !! x = Some e -> cl_verdicts st' !! x = Some e;
  va_sound : forall x e, cl_verdicts st' !! x = Some e ->
    cl_verdicts st !! x = Some e \/ exists u, u ∈ order /\ says u x (ve_verdict e);
  va_complete : forall u x v, u ∈ order -> says u x v -> is_Some (cl_verdicts st' !! x);
}.

Lemma visited_all_nil k st : visited_all k [] st st.
Proof.
  split; [| |auto|auto|by intros u x v ?%elem_of_nil].
  - intros k' t. split; [auto|]. by intros [|[_ ?%elem_of_nil]].
  - intros o u. split; [auto|]. by intros [|[?%elem_of_nil _]].
Qed.

Lemma visited_all_cons k t order st1 st2 st3 :
  visited_all k [t] st1 st2 -> visited_all k order st2 st3 -> visited_all k (t :: order) st1 st3.
Proof.
  intros [A1 B1 C1 D1 E1] [A2 B2 C2 D2 E2]. split.
  - intros k' u. rewrite A2, A1, list_elem_of_singleton, elem_of_cons. tauto.
  - intros o u. rewrite B2, B1, list_elem_of_singleton, elem_of_cons. tauto.
  - auto.
  - intros x e [H|(u & ? & ?)]%D2; [|right; exists u; split; [by constructor|done]].
    apply D1 in H as [|(u & ->%list_elem_of_singleton & ?)]; [auto|right; exists t; split; [constructor|done]].
  - intros u x v [->|Hu]%elem_of_cons Hs; [|by eapply E2].
    destruct (E1 t x v ltac:(constructor) Hs) as [e He]. exists e. auto.
Qed.

Lemma anchors_fold starts k t kbs st :
  cl_ok starts st ->
  let st' := fold_left (anchor k t) kbs st in
  cl_ok starts st' /\ cl_grows st st'
  /\ (forall o u, (o, u) ∈ cl_anchored st' <-> (o, u) ∈ cl_anchored st \/ (u = t /\ exists kb, kb ∈ kbs /\ kb_key kb = o /\ o <> k))
  /\ cl_visited st' = cl_visited st /\ cl_verdicts st' = cl_verdicts st.
Proof.
  cbv zeta. revert st. induction kbs as [|kb kbs IH]; intros st Hok; cbn [fold_left].
  { split_and!; [done|apply cl_grows_refl| |done..]. intros o u. split; [auto|]. by intros [|(_ & ? & ?%elem_of_nil & _)]. }
  destruct (anchor_spec starts k t st kb Hok) as (Hok1 & Hg1 & Ha1 & Hv1 & Hw1).
  destruct (IH (anchor k t st kb) Hok1) as (Hok2 & Hg2 & Ha2 & Hv2 & Hw2).
  split_and!; [done|by eapply cl_grows_trans| |congruence|congruence].
  intros o u. rewrite Ha2, Ha1. setoid_rewrite elem_of_cons. split.
  - intros [[|(-> & -> & ?)]|(-> & kb' & ? & ?)]; [auto|right; split; [done|exists kb; auto]|right; split; [done|exists kb'; auto]].
  - intros [|(-> & kb' & [->|] & <- & ?)]; [auto|auto|right; split; [done|exists kb'; auto]].
Qed.

Lemma visit_spec starts k t st st' :
  cl_ok starts st -> closure_visit store strict k st t = Some st' ->
  cl_ok starts st' /\ cl_grows st st' /\ visited_all k [t] st st' /\ (strict = true -> is_Some (store !! t)).
Proof.
  intros Hok. unfold closure_visit, getEffect.
  assert (cl_ok starts (set_visited k t st)) as Hok1 by (destruct Hok; by split).
  assert (cl_grows st (set_visited k t st)) as Hg1 by (split; auto).
  assert (forall k' u, (k', u) ∈ cl_visited (set_visited k t st) <-> (k', u) ∈ cl_visited st \/ (k' = k /\ u ∈ [t])) as Hv1.
  { intros k' u. cbn [set_visited cl_visited]. rewrite elem_of_union, elem_of_singleton, list_elem_of_singleton. naive_solver. }
  destruct (store !! t) as [eff|] eqn:Et.
  2: { destruct strict; [done|]. intros [= <-]. split_and!; [done..| |done].
       split; [done| |by auto..|]; cbn [set_visited cl_anchored cl_verdicts].
       - intros o u. split; [auto|]. intros [|(->%list_elem_of_singleton & eff & ? & ? & _)]; [done|congruence].
       - intros u x v ->%list_elem_of_singleton (eff & ? & ? & _). congruence. }
  destruct (get_txn_bind eff) as [bind|] eqn:Eb.
  { intros [= <-]. destruct (anchors_fold starts k t (tb_keys bind) (set_visited k t st) Hok1) as (Hok2 & Hg2 & Ha2 & Hv2 & Hw2).
    split_and!; [done|by eapply cl_grows_trans| |eauto]. split; rewrite ?Hv2, ?Hw2; [done| |by auto..|].
    - intros o u. rewrite Ha2. cbn [set_visited cl_anchored]. unfold binds_other, bind_keys. rewrite list_elem_of_singleton. split.
      + intros [|(-> & kb & ? & ? & ?)]; [auto|]. right. split; [done|]. exists eff, kb. by rewrite Eb.
      + intros [|(-> & eff' & kb & ? & Hkb & ? & ?)]; [auto|]. simplify_eq. rewrite Eb in Hkb. right. eauto.
    - intros u x v ->%list_elem_of_singleton (eff' & snap & ? & Hs & _). simplify_eq.
      unfold get_txn_bind, get_snapshot in *. by destruct (e_kind eff) as [[]|]. }
  assert (forall o u, (o, u) ∈ cl_anchored st <-> (o, u) ∈ cl_anchored st \/ (u ∈ [t] /\ binds_other k o u)) as Ha.
  { intros o u. split; [auto|]. intros [|(->%list_elem_of_singleton & eff' & kb & ? & Hkb & _)]; [done|]. simplify_eq.
    unfold bind_keys in Hkb. rewrite Eb in Hkb. by apply elem_of_nil in Hkb. }
  destruct (get_snapshot eff) as [snap|] eqn:Es; intros [= <-]; (split_and!; [destruct Hok; by split|split; auto| |eauto]).
  - split; cbn [set_visited set_verdicts cl_visited cl_anchored cl_verdicts]; [done|done| | |].
    + intros x e He. rewrite harvest_lookup, He. done.
    + intros x e He. rewrite harvest_lookup in He. destruct (cl_verdicts st !! x); [auto|]. right.
      exists t. split; [constructor|]. destruct (s_txn_verdicts snap !! x) as [v|] eqn:Ev; [|done].
      case_bool_decide; [done|]. simplify_eq. exists eff, snap. done.
    + intros u x v ->%list_elem_of_singleton (eff' & snap' & ? & Hs & Hx & Hne). simplify_eq.
      rewrite harvest_lookup, Hx. destruct (cl_verdicts st !! x); [eauto|]. rewrite bool_decide_eq_false_2 by done. eauto.
  - split; [done|done|by auto..|]. intros u x v ->%list_elem_of_singleton (eff' & snap' & ? & Hs & _). congruence.
Qed.

Lemma visit_order_spec starts k order st st' :
  cl_ok starts st -> fold_opt (closure_visit store strict k) order st = Some st' ->
  cl_ok starts st' /\ cl_grows st st' /\ visited_all k order st st'
  /\ (strict = true -> forall t, t ∈ order -> is_Some (store !! t)).
Proof.
  revert st. induction order as [|t order IH]; intros st Hok; cbn [fold_opt].
  { intros [= <-]. split_and!; [done|apply cl_grows_refl|apply visited_all_nil|]. by intros _ t ?%elem_of_nil. }
  destruct (closure_visit store strict k st t) as [st1|] eqn:E; [|done]. intros E2.
  destruct (visit_spec starts k t st st1 Hok E) as (Hok1 & Hg1 & Hv1 & Hs1).
  destruct (IH st1 Hok1 E2) as (Hok2 & Hg2 & Hv2 & Hs2).
  split_and!; [done|by eapply cl_grows_trans|by eapply visited_all_cons|].
  intros Hstr u [->|]%elem_of_cons; auto.
Qed.

(** ** The closure as a relation *)

Section Loop.
Variable (starts : list bytes).

(** [visits k t]: the closure of the start keys looks at [t] on key [k]. *)
Inductive visits : bytes -> Tip -> Prop :=
  | visits_start k tips t : k ∈ starts -> tipsFor k = Some tips -> t ∈ tips -> visits k t
  | visits_front k k' u tips t : visits k u -> binds_other k k' u -> tipsFor k' = Some tips -> t ∈ tips -> visits k' t
  | visits_anchor k k' u : visits k u -> binds_other k k' u -> visits k' u
  | visits_next k t t' : visits k t -> t' ∈ scan_next store k t -> visits k t'.

Definition anchors (k : bytes) (t : Tip) : Prop := exists k', visits k' t /\ binds_other k' k t.

Definition in_closure (k : bytes) : Prop := k ∈ starts \/ exists t, anchors k t.

Record loop_inv (st : closure) : Prop := {
  l_ok : cl_ok starts st;
  l_visits : forall k t, (k, t) ∈ cl_visited st -> visits k t;
  l_anchors : forall k t, (k, t) ∈ cl_anchored st -> anchors k t;
  l_next : forall k t t', (k, t) ∈ cl_visited st -> t' ∈ scan_next store k t -> (k, t') ∈ cl_visited st;
  l_bind : forall k o t, (k, t) ∈ cl_visited st -> binds_other k o t -> (o, t) ∈ cl_anchored st;
  l_front : forall k, is_Some (cl_binds st !! k) -> k ∈ cl_queue st \/
    exists tips, tipsFor k = Some tips /\ (forall t, t ∈ tips -> (k, t) ∈ cl_visited st)
      /\ forall t, (k, t) ∈ cl_anchored st -> (k, t) ∈ cl_visited st;
  l_queue : forall k, k ∈ cl_queue st -> is_Some (cl_binds st !! k);
  l_sound : forall x e, cl_verdicts st !! x = Some e -> exists k u, (k, u) ∈ cl_visited st /\ says u x (ve_verdict e);
  l_complete : forall k u x v, (k, u) ∈ cl_visited st -> says u x v -> is_Some (cl_verdicts st !! x);
  l_strict : strict = true -> forall k t, (k, t) ∈ cl_visited st -> is_Some (store !! t);
}.

Lemma anchors_space k t : anchors k t -> (k, t) ∈ anchor_space store.
Proof.
  intros (k' & _ & eff & kb & Ht & Hkb & <- & _). apply elem_of_list_to_set, list_elem_of_In, in_flat_map.
  exists (t, eff). split; [by apply list_elem_of_In, elem_of_map_to_list|].
  apply (in_map (fun kb => (kb_key kb, t))), list_elem_of_In, Hkb.
Qed.

Definition cl_measure (st : closure) : nat := (length (cl_queue st) + size (anchor_space store ∖ cl_anchored st))%nat.

Lemma in_closure_keys st k : loop_inv st -> is_Some (cl_binds st !! k) -> in_closure k.
Proof.
  intros Hi [|[t Ht]]%(co_keys _ _ (l_ok _ Hi)); [by left|right]. exists t. by apply (l_anchors _ Hi).
Qed.

Lemma closure_front k t tips : in_closure k -> tipsFor k = Some tips -> t ∈ tips -> visits k t.
Proof. intros [Hk|(u & k' & Hv & Hb)] E Ht; [by eapply visits_start|by eapply visits_front]. Qed.

(** The walk of one key re-establishes the invariant. *)
Lemma key_done k q frontier st st1 st2 order :
  loop_inv st -> cl_queue st = k :: q -> tipsFor k = Some frontier ->
  st1 = mkClosure (cl_binds st) q (cl_queued st ∖ {[ k ]}) (cl_visited st) (cl_anchored st) (cl_verdicts st) ->
  fold_opt (closure_visit store strict k) order st1 = Some st2 ->
  dfs_covers (fun _ => false) (scan_next store k) (rev (frontier ++ default [] (cl_binds st1 !! k)))
    (visited_at k (cl_visited st1)) order ->
  loop_inv st2 /\ (cl_measure st2 < cl_measure st)%nat.
Proof.
  intros Hi Hq Ef Est Ho [_ _ Hreach Hstack Hclosed _].
  pose proof (co_queue _ _ (l_ok _ Hi)) as Hnd. rewrite Hq in Hnd. apply list.NoDup_cons in Hnd as [Hkq Hnd].
  assert (cl_ok starts st1) as Hok1.
  { destruct (l_ok _ Hi) as [A B C D E]. subst st1. split; try done. cbn [cl_queued cl_queue].
    intros k'. rewrite elem_of_difference, D, Hq, elem_of_cons, elem_of_singleton.
    split; [intros [[|] ?]; done|]. intros Hk'. split; [auto|]. intros ->. done. }
  destruct (visit_order_spec starts k order st1 st2 Hok1 Ho) as (Hok2 & Hg & Hva & Hstr).
  assert (in_closure k) as Hcl by (eapply in_closure_keys; [done|]; apply (l_queue _ Hi); rewrite Hq; constructor).
  assert (forall s, s ∈ rev (frontier ++ default [] (cl_binds st1 !! k)) <-> s ∈ frontier \/ (k, s) ∈ cl_anchored st) as Hst.
  { intros s. rewrite list_elem_of_In, <- in_rev, <- list_elem_of_In, elem_of_app. by rewrite (co_binds _ _ Hok1), Est. }
  assert (forall t, t ∈ order -> visits k t) as Hvis.
  { intros t (s & Hs%Hst & Hp)%Hreach.
    assert (visits k s) as Hvs by (destruct Hs as [|Ha]; [by eapply closure_front|destruct (l_anchors _ Hi _ _ Ha) as (k' & ? & ?); by eapply visits_anchor]).
    clear Hs. induction Hp as [|x y z [_ Hxy] _ IH]; [done|]. apply IH. by eapply visits_next. }
  assert (forall s, s ∈ visited_at k (cl_visited st1) \/ false = true \/ s ∈ order -> (k, s) ∈ cl_visited st2) as Hin.
  { intros s Hs. apply (va_visited _ _ _ _ Hva). rewrite elem_of_visited_at in Hs. destruct Hs as [|[|]]; [auto|done|auto]. }
  destruct Hva as [Hv Ha Hkept Hsound Hcomp]. subst st1. cbn [cl_visited cl_anchored cl_verdicts cl_queue cl_binds] in *.
  split.
  - split; [done|..].
    + intros k' t [|[-> ?]]%Hv; [by apply (l_visits _ Hi)|auto].
    + intros o u [|[? ?]]%Ha; [by apply (l_anchors _ Hi)|]. exists k. auto.
    + intros k' t t' [Ht|[-> Ht]]%Hv Hn; [apply Hv; left; by eapply (l_next _ Hi)|]. apply Hin. by eapply Hclosed.
    + intros k' o t [Ht|[-> Ht]]%Hv Hb; apply Ha; [left; by eapply (l_bind _ Hi)|auto].
    + intros k' Hk'. destruct (decide (k' ∈ cl_queue st2)) as [|Hnq]; [auto|right].
      destruct (decide (k' = k)) as [->|Hne].
      { exists frontier. split_and!; [done|intros t Ht; apply Hin, Hstack, Hst; auto|].
        intros t [Hta|]%(cg_new _ _ Hg); [|done]. apply Hin, Hstack, Hst. auto. }
      assert (is_Some (cl_binds st !! k')) as Hk0.
      { apply (co_keys _ _ (l_ok _ Hi)). apply (co_keys _ _ Hok2) in Hk' as [|[t Ht]]; [auto|].
        apply (cg_new _ _ Hg) in Ht as [|]; [right; eauto|done]. }
      destruct (l_front _ Hi k' Hk0) as [Hq'|(tips & ? & H1 & H2)].
      { rewrite Hq in Hq'. apply elem_of_cons in Hq' as [|Hq']; [done|]. by apply (cg_queue _ _ Hg) in Hq'. }
      exists tips. split_and!; [done|intros t Ht; apply Hv; auto|]. intros t [Hta|]%(cg_new _ _ Hg); [|done]. apply Hv. auto.
    + intros k' [Hk'|?]%(cg_from _ _ Hg); apply (co_keys _ _ Hok2); [|auto].
      destruct (proj1 (co_keys _ _ (l_ok _ Hi) k')) as [|[t Ht]]; [|auto|right; exists t; apply Ha; auto].
      apply (l_queue _ Hi). rewrite Hq. by constructor.
    + intros x e [He|(u & ? & ?)]%Hsound; [|exists k, u; split; [apply Hv; auto|done]].
      destruct (l_sound _ Hi x e He) as (k' & u & ? & ?). exists k', u. split; [apply Hv; auto|done].
    + intros k' u x v [Hu|[-> Hu]]%Hv Hs; [|by eapply Hcomp].
      destruct (l_complete _ Hi k' u x v Hu Hs) as [e He]. exists e. auto.
    + intros Hst' k' t [Ht|[-> Ht]]%Hv; [by eapply (l_strict _ Hi)|auto].
  - unfold cl_measure. rewrite Hq. cbn [length]. apply Nat.lt_succ_r. apply (cg_measure _ _ Hg).
    intros [o u] [Hou|[? ?]]%Ha; apply anchors_space; [by apply (l_anchors _ Hi)|exists k; auto].
Qed.

Lemma key_step k frontier st st1 :
  loop_inv st -> pop_queue st = Some (k, st1) -> tipsFor k = Some frontier ->
  match closure_key store strict k frontier st1 with
  | Done st2 => loop_inv st2 /\ (cl_measure st2 < cl_measure st)%nat
  | Missing => strict = true /\ exists t, visits k t /\ store !! t = None
  | OutOfFuel => False
  end.
Proof.
  intros Hi Hp Ef. unfold pop_queue in Hp. destruct (cl_queue st) as [|k0 q] eqn:Hq; [done|]. injection Hp as -> Est.
  unfold closure_key. set (stack := rev _).
  pose proof (dfs_spec (fun _ => false) (scan_next store k) (closure_visit store strict k) (dom store) (scan_next_dom store k)
    (dfs_fuel (scan_next store k) (dom store) stack) stack (visited_at k (cl_visited st1)) st1) as H.
  destruct (dfs _ _ _ _ _ _ _) as [st2| |].
  - destruct H as (order & Ho & Hc).
    { etrans; [|apply dfs_fuel_enough]. apply Nat.add_le_mono_l. apply sum_list_with_submseteq, elements_submseteq. set_solver. }
    by eapply key_done.
  - destruct H as (t & acc0 & s & Hs & Hp & Hn).
    { etrans; [|apply dfs_fuel_enough]. apply Nat.add_le_mono_l. apply sum_list_with_submseteq, elements_submseteq. set_solver. }
    unfold closure_visit, getEffect in Hn. destruct (store !! t) as [eff|] eqn:Et.
    { destruct (get_txn_bind eff); [done|]. by destruct (get_snapshot eff). }
    destruct strict; [|done]. split; [done|]. exists t. split; [|done].
    assert (visits k s) as Hvs.
    { apply list_elem_of_In, in_rev, list_elem_of_In, elem_of_app in Hs as [Hs|Hs].
      - eapply closure_front; [|done..]. eapply in_closure_keys; [done|]. apply (l_queue _ Hi). rewrite Hq. constructor.
      - rewrite <- Est in Hs. cbn [cl_binds] in Hs. apply (co_binds _ _ (l_ok _ Hi)) in Hs.
        destruct (l_anchors _ Hi _ _ Hs) as (k' & ? & ?). by eapply visits_anchor. }
    clear Hs Et. induction Hp as [|x y z [_ Hxy] _ IH]; [done|]. apply IH. by eapply visits_next.
  - apply H. etrans; [|apply dfs_fuel_enough]. apply Nat.add_le_mono_l. apply sum_list_with_submseteq, elements_submseteq. set_solver.
Qed.

Lemma closure_loop_spec fuel st :
  loop_inv st -> (cl_measure st <= fuel)%nat ->
  match closure_loop store tipsFor strict fuel st with
  | Done st' => loop_inv st' /\ cl_queue st' = []
  | Missing => (exists k, in_closure k /\ tipsFor k = None) \/ (strict = true /\ exists k t, visits k t /\ store !! t = None)
  | OutOfFuel => False
  end.
Proof.
  revert st. induction fuel as [|fuel IH]; intros st Hi Hf; cbn [closure_loop]; destruct (pop_queue st) as [[k st1]|] eqn:Ep.
  2,4: split; [done|]; unfold pop_queue in Ep; by destruct (cl_queue st).
  - unfold pop_queue, cl_measure in *. destruct (cl_queue st); simpl in *; [done|lia].
  - destruct (tipsFor k) as [frontier|] eqn:Ef.
    2: { left. exists k. split; [|done]. eapply in_closure_keys; [done|]. apply (l_queue _ Hi).
         unfold pop_queue in Ep. destruct (cl_queue st); [done|]. injection Ep as -> _. constructor. }
    pose proof (key_step k frontier st st1 Hi Ep Ef) as Hk.
    destruct (closure_key store strict k frontier st1) as [st2| |]; cbn [mbind walk_bind]; [|right|done].
    + destruct Hk as [Hi2 Hm]. apply IH; [done|lia].
    + destruct Hk as (? & t & ? & ?). split; [done|]. by exists k, t.
Qed.

Lemma enqueue_starts l :
  let st := fold_left enqueue_start l (mkClosure ∅ [] ∅ ∅ ∅ ∅) in
  cl_visited st = ∅ /\ cl_anchored st = ∅ /\ cl_verdicts st = ∅
  /\ (forall k, cl_binds st !! k = if decide (k ∈ l) then Some [] else None)
  /\ (forall k, k ∈ cl_queued st <-> k ∈ cl_queue st) /\ (forall k, k ∈ cl_queue st <-> k ∈ l)
  /\ NoDup (cl_queue st) /\ (length (cl_queue st) <= length l)%nat.
Proof.
  cbv zeta. induction l as [|k l (H1 & H2 & H3 & H4 & H5 & H6 & H7 & H8)] using rev_ind.
  { cbn [fold_left cl_visited cl_anchored cl_verdicts cl_binds cl_queued cl_queue length].
    split_and!; try done; [set_solver|constructor]. }
  rewrite fold_left_app. cbn [fold_left]. set (st := fold_left enqueue_start l _) in *. unfold enqueue_start.
  rewrite length_app. cbn [length].
  case_bool_decide as Hq.
  - apply H5, H6 in Hq. split_and!; try done; [| |lia].
    + intros k'. rewrite H4. repeat case_decide; set_solver.
    + intros k'. rewrite H6. set_solver.
  - assert (k ∉ l) as Hkl by (intros ?%H6%H5; done). cbn [cl_visited cl_anchored cl_verdicts cl_binds cl_queued cl_queue].
    split_and!; try done; [| | | |cbn [length]; lia].
    + intros k'. destruct (decide (k' = k)) as [->|Hne].
      * rewrite lookup_insert_eq, decide_True by set_solver. done.
      * rewrite lookup_insert_ne, H4 by done. repeat case_decide; set_solver.
    + intros k'. rewrite elem_of_union, elem_of_singleton, elem_of_cons, H5. done.
    + intros k'. rewrite elem_of_cons, H6. set_solver.
    + constructor; [|done]. by rewrite H6.
Qed.

Lemma start_inv : loop_inv (start_closure starts) /\ (cl_measure (start_closure starts) <= closure_fuel store starts)%nat.
Proof.
  destruct (enqueue_starts starts) as (H1 & H2 & H3 & H4 & H5 & H6 & H7 & H8). unfold start_closure, cl_measure, closure_fuel.
  set (st := fold_left enqueue_start starts _) in *.
  assert (forall k, default [] (cl_binds st !! k) = []) as Hd by (intros k; rewrite H4; by case_decide).
  assert (forall k, is_Some (cl_binds st !! k) <-> k ∈ starts) as Hs.
  { intros k. rewrite H4. case_decide; split; try done; by intros [? ?]. }
  split.
  - split; rewrite ?H1, ?H2, ?H3; try done.
    + split; rewrite ?H2; try done.
      * intros k t. rewrite Hd, elem_of_nil. set_solver.
      * intros k. rewrite Hd. constructor.
      * intros k. rewrite Hs. split; [auto|]. intros [|[t ?%elem_of_empty]]; done.
    + intros k ?%Hs. left. by apply H6.
    + intros k Hk. by apply Hs, H6.
  - rewrite H2, difference_empty_L. lia.
Qed.

Lemma closure_spec :
  match bindKeyClosureFrom store tipsFor strict starts with
  | Done (bindsByKey, verdicts) =>
      (forall k, is_Some (bindsByKey !! k) <-> in_closure k)
      /\ (forall k, in_closure k -> is_Some (tipsFor k))
      /\ (forall k t, t ∈ default [] (bindsByKey !! k) <-> anchors k t)
      /\ (forall k, NoDup (default [] (bindsByKey !! k)))
      /\ (forall x e, verdicts !! x = Some e -> exists k u, visits k u /\ says u x (ve_verdict e))
      /\ (forall k u x v, visits k u -> says u x v -> is_Some (verdicts !! x))
      /\ (strict = true -> forall k t, visits k t -> is_Some (store !! t))
  | Missing => (exists k, in_closure k /\ tipsFor k = None) \/ (strict = true /\ exists k t, visits k t /\ store !! t = None)
  | OutOfFuel => False
  end.
Proof.
  unfold bindKeyClosureFrom. destruct start_inv as [Hi0 Hm0].
  pose proof (closure_loop_spec (closure_fuel store starts) (start_closure starts) Hi0 Hm0) as H.
  destruct (closure_loop store tipsFor strict _ _) as [st| |]; cbn [mbind walk_bind]; [|done..].
  destruct H as [Hi Hq]. pose proof (l_ok _ Hi) as Hok.
  assert (forall k, is_Some (cl_binds st !! k) -> exists tips, tipsFor k = Some tips /\ (forall t, t ∈ tips -> (k, t) ∈ cl_visited st)
      /\ forall t, (k, t) ∈ cl_anchored st -> (k, t) ∈ cl_visited st) as Hfront.
  { intros k Hk. destruct (l_front _ Hi k Hk) as [Hin|]; [rewrite Hq in Hin; by apply elem_of_nil in Hin|done]. }
  assert (forall k t, (k, t) ∈ cl_anchored st -> is_Some (cl_binds st !! k)) as Hkey.
  { intros k t Ht. apply (co_keys _ _ Hok). eauto. }
  assert (forall k t, visits k t -> (k, t) ∈ cl_visited st) as Hall.
  { induction 1 as [k tips t Hk E Ht|k k' u tips t _ IH Hb E Ht|k k' u _ IH Hb|k t t' _ IH Hn].
    - destruct (Hfront k) as (tips' & ? & H1 & _); [apply (co_keys _ _ Hok); auto|]. simplify_eq. auto.
    - pose proof (l_bind _ Hi _ _ _ IH Hb) as Ha. destruct (Hfront k') as (tips' & ? & H1 & _); [eauto|]. simplify_eq. auto.
    - pose proof (l_bind _ Hi _ _ _ IH Hb) as Ha. destruct (Hfront k') as (_ & _ & _ & H2); [eauto|]. auto.
    - by eapply (l_next _ Hi). }
  assert (forall k t, (k, t) ∈ cl_anchored st <-> anchors k t) as Hanc.
  { intros k t. split; [apply (l_anchors _ Hi)|]. intros (k' & Hv%Hall & Hb). by eapply (l_bind _ Hi). }
  assert (forall k, is_Some (cl_binds st !! k) <-> in_closure k) as Hcl.
  { intros k. unfold in_closure. rewrite (co_keys _ _ Hok). by setoid_rewrite Hanc. }
  split_and!.
  - done.
  - intros k Hk%Hcl. destruct (Hfront k Hk) as (tips & E & _). rewrite E. eauto.
  - intros k t. rewrite (co_binds _ _ Hok). apply Hanc.
  - apply (co_once _ _ Hok).
  - intros x e He. destruct (l_sound _ Hi x e He) as (k & u & ? & ?). exists k, u. split; [by apply (l_visits _ Hi)|done].
  - intros k u x v Hv%Hall Hs. by eapply (l_complete _ Hi).
  - intros Hst k t Hv%Hall. by eapply (l_strict _ Hi).
Qed.

End Loop.
End Props.

(** The closure of a read is exact.  Widening from the start keys always
    ends.  It fails only if the frontier of a key it needs is unavailable (or,
    in a strict read, an effect it needs); otherwise it returns precisely the
    keys connected to the start keys through binds, for each of them precisely
    the binds that were met on another key, each once, and a verdict for exactly
    the transactions that some visited snapshot pronounced on. *)
Theorem closure_exact (store : Store) (tipsFor : bytes -> option (list Tip)) (strict : bool) (starts : list bytes) :
  match bindKeyClosureFrom store tipsFor strict starts with
  | Done (bindsByKey, verdicts) =>
      (forall k, is_Some (bindsByKey !! k) <-> in_closure store tipsFor starts k)
      /\ (forall k, in_closure store tipsFor starts k -> is_Some (tipsFor k))
      /\ (forall k t, t ∈ default [] (bindsByKey !! k) <-> anchors store tipsFor starts k t)
      /\ (forall k, NoDup (default [] (bindsByKey !! k)))
      /\ (forall x e, verdicts !! x = Some e ->
            exists k u, visits store tipsFor starts k u /\ says store u x (ve_verdict e))
      /\ (forall k u x v, visits store tipsFor starts k u -> says store u x v -> is_Some (verdicts !! x))
      /\ (strict = true -> forall k t, visits store tipsFor starts k t -> is_Some (store !! t))
  | Missing => (exists k, in_closure store tipsFor starts k /\ tipsFor k = None)
      \/ (strict = true /\ exists k t, visits store tipsFor starts k t /\ store !! t = None)
  | OutOfFuel => False
  end.
Proof. apply closure_spec. Qed.

(** ** Atomicity *)

Section Atomic.
Context {sorter : SortFunc}.
Variable (store : Store) (index : bytes -> list Tip) (subscribed invisible : bytes -> bool).
Hypothesis all_subscribed : forall k, subscribed k = true.

Abbreviation front := (live_tips index subscribed).
Abbreviation vis key := (visits store front [key]).

Lemma live_front k : front k = Some (index k).
Proof. unfold live_tips. by rewrite all_subscribed. Qed.

(** On each key of the closure the loser scan looks at what the closure looked at. *)
Lemma visits_scan key k t :
  vis key k t <-> in_closure store front [key] k
    /\ exists s, (s ∈ index k \/ anchors store front [key] k s) /\ rtc (fun x y => y ∈ scan_next store k x) s t.
Proof.
  split.
  - induction 1 as [k tips t Hk E Ht|k k' u tips t Hv _ Hb E Ht|k k' u Hv _ Hb|k t t' _ [Hc (s & Hs & Hp)] Hn].
    + rewrite live_front in E. injection E as <-. split; [by left|]. exists t. split; [by left|done].
    + rewrite live_front in E. injection E as <-. split; [right; exists u, k; done|]. exists t. split; [by left|done].
    + split; [right; exists u, k; done|]. exists u. split; [right; exists k; done|done].
    + split; [done|]. exists s. split; [done|]. by eapply rtc_r.
  - intros [Hc (s & Hs & Hp)].
    assert (vis key k s) as Hvs.
    { destruct Hs as [Hs|(k' & ? & ?)]; [by eapply closure_front; [|apply live_front|]|by eapply visits_anchor]. }
    clear Hs. induction Hp as [|x y z Hxy _ IH]; [done|]. apply IH. by eapply visits_next.
Qed.

Lemma harvest_known v t snap :
  (forall x nv, s_txn_verdicts snap !! x = Some nv -> nv <> VERDICT_UNSPECIFIED -> is_Some (v !! x)) -> harvest v t snap = v.
Proof.
  intros H. apply map_eq. intros x. rewrite harvest_lookup. destruct (v !! x) as [e|] eqn:Ev; [done|].
  destruct (s_txn_verdicts snap !! x) as [nv|] eqn:En; [|done]. case_bool_decide as Hne; [done|].
  destruct (H x nv En Hne) as [? ?]. congruence.
Qed.

(** Verdicts already known are all a scan can find. *)
Lemma scan_verdicts_known k order st :
  (forall t x v, t ∈ order -> says store t x v -> is_Some (sc_verdicts st !! x)) ->
  sc_verdicts (fold_left (scan_visit store k invisible) order st) = sc_verdicts st.
Proof.
  revert st. induction order as [|t order IH]; intros st H; cbn [fold_left]; [done|].
  assert (sc_verdicts (scan_visit store k invisible st t) = sc_verdicts st) as E.
  { unfold scan_visit, getEffect. destruct (store !! t) as [eff|] eqn:Et; [|done].
    destruct (get_snapshot eff) as [snap|] eqn:Es; [|done]. cbn [sc_verdicts]. apply harvest_known.
    intros x nv Hx Hne. apply (H t x nv); [constructor|]. by exists eff, snap. }
  rewrite IH, E; [done|]. intros u x v Hu. rewrite E. apply H. by constructor.
Qed.

(** The visible binds a read of [key] meets on [k], and its losers there. *)
Definition seen_on (key k : bytes) (b : seenBind) : Prop :=
  exists t eff, vis key k t /\ store !! t = Some eff /\ bind_on k invisible t eff = Some b.

Definition lost_at (key : bytes) (verdicts : verdictMap) (k x : bytes) : Prop :=
  exists b, seen_on key k b /\ sb_txnID b = x /\
    (recorded_loser verdicts b
     \/ is_candidate verdicts b /\ exists o, seen_on key k o /\ is_candidate verdicts o /\ beats store k o b).

Definition atomic_loser (key : bytes) (verdicts : verdictMap) (x : bytes) : Prop :=
  (exists e, verdicts !! x = Some e /\ ve_verdict e = LOST) \/ exists k, in_closure store front [key] k /\ lost_at key verdicts k x.

Section Read.
Variable (key : bytes) (bindsByKey : gmap bytes (list Tip)) (verdicts : verdictMap).
Hypothesis Hclosure : bindKeyClosure store index subscribed key = Done (bindsByKey, verdicts).

Lemma closure_facts :
  (forall k, is_Some (bindsByKey !! k) <-> in_closure store front [key] k)
  /\ (forall k t, t ∈ default [] (bindsByKey !! k) <-> anchors store front [key] k t)
  /\ (forall x e, verdicts !! x = Some e -> exists k u, vis key k u /\ says store u x (ve_verdict e))
  /\ (forall k u x v, vis key k u -> says store u x v -> is_Some (verdicts !! x)).
Proof.
  pose proof (closure_spec store front false [key]) as H. unfold bindKeyClosure in Hclosure. rewrite Hclosure in H.
  destruct H as (H1 & _ & H2 & _ & H3 & H4 & _). done.
Qed.

Lemma losers_on_closure k ancs :
  bindsByKey !! k = Some ancs ->
  exists losers walked conflicts,
    losersOnKey store index k ancs verdicts invisible = Done (losers, walked, conflicts)
    /\ forall x, x ∈ losers <-> lost_at key verdicts k x.
Proof.
  intros Hk. destruct closure_facts as (Hc & Ha & _ & Hcomp).
  assert (in_closure store front [key] k) as Hin by (apply Hc; eauto).
  assert (forall s, s ∈ ancs <-> anchors store front [key] k s) as Hanc by (intros s; by rewrite <- Ha, Hk).
  assert (forall t, scan_reach store k (start_tips (index k) ancs) t <-> vis key k t) as Hreach.
  { intros t. rewrite scan_reach_start, visits_scan. unfold scan_reach. setoid_rewrite elem_of_app. setoid_rewrite Hanc. tauto. }
  destruct (losers_spec store index k (index k) ancs verdicts invisible true) as (sc & losers & conflicts & Esc & El & Hl).
  exists losers, (sc_walked sc), conflicts. split; [done|]. intros x. rewrite Hl.
  destruct (scan_run store k (start_tips (index k) ancs) verdicts invisible) as (order & Eo & Ho).
  rewrite Esc in Eo. injection Eo as ->.
  assert (sc_verdicts (fold_left (scan_visit store k invisible) order (mkScan verdicts [] 0)) = verdicts) as Hv.
  { apply (scan_verdicts_known k order (mkScan verdicts [] 0)). cbn [sc_verdicts].
    intros t y v Ht Hs. apply (Hcomp k t y v); [|done]. by apply Hreach, Ho. }
  assert (forall b, b ∈ sc_binds (fold_left (scan_visit store k invisible) order (mkScan verdicts [] 0)) <-> seen_on key k b) as Hb.
  { intros b. rewrite scan_binds_fold. cbn [sc_binds]. unfold seen_on. setoid_rewrite Ho. setoid_rewrite Hreach.
    split; [intros [?%elem_of_nil|]; done|auto]. }
  unfold lost, lost_at. rewrite Hv. by setoid_rewrite Hb.
Qed.

Lemma lost_on_keys_spec l acc :
  (forall p, p ∈ l -> bindsByKey !! p.1 = Some p.2) ->
  exists out walked, lost_on_keys store index invisible key verdicts l acc = Done (out, walked)
    /\ forall x, x ∈ out <-> x ∈ acc.1 \/ exists p, p ∈ l /\ lost_at key verdicts p.1 x.
Proof.
  revert acc. induction l as [|[k ancs] l IH]; intros [a w] Hl; cbn [lost_on_keys].
  { do 2 eexists. split; [reflexivity|]. intros x. split; [auto|]. by intros [|(? & ?%elem_of_nil & _)]. }
  destruct (losers_on_closure k ancs) as (losers & walked & conflicts & -> & Hx); [apply (Hl (k, ancs)); constructor|].
  cbn [mbind walk_bind fst snd].
  destruct (IH (losers ∪ a, if bool_decide (k = key) then w else (w + walked)%nat)) as (out & w' & -> & Ho);
    [intros p Hp; apply Hl; by constructor|].
  do 2 eexists. split; [done|]. intros x. rewrite Ho. cbn [fst]. rewrite elem_of_union, Hx. setoid_rewrite elem_of_cons. split.
  - intros [[?|?]|(p & ? & ?)]; [right; exists (k, ancs); auto|auto|right; exists p; auto].
  - intros [|(p & [->|] & ?)]; [auto|auto|right; exists p; auto].
Qed.

Lemma atomically_lost_spec :
  exists lost walked, atomically_lost store index subscribed invisible key = Done (verdicts, lost, walked)
    /\ forall x, x ∈ lost <-> atomic_loser key verdicts x.
Proof.
  unfold atomically_lost. rewrite Hclosure. cbn [mbind walk_bind].
  destruct (lost_on_keys_spec (map_to_list bindsByKey) (recorded_lost verdicts, 0%nat)) as (out & w & -> & Ho).
  { intros [k l]. apply elem_of_map_to_list. }
  cbn [mbind walk_bind]. do 2 eexists. split; [done|]. intros x. rewrite Ho. cbn [fst]. unfold recorded_lost, atomic_loser.
  destruct closure_facts as (Hc & _). split.
  - intros [[e [He Hlost]%map_lookup_filter_Some]%elem_of_dom|([k l] & Hp%elem_of_map_to_list & Hx)]; [left; eauto|].
    right. exists k. split; [apply Hc; eauto|done].
  - intros [(e & He & Hlost)|(k & [l Hl]%Hc & Hx)].
    + left. apply elem_of_dom. exists e. by apply map_lookup_filter_Some.
    + right. exists (k, l). split; [by apply elem_of_map_to_list|done].
Qed.

End Read.

(** ** Two reads *)

Lemma closure_total key : exists bindsByKey verdicts, bindKeyClosure store index subscribed key = Done (bindsByKey, verdicts).
Proof.
  unfold bindKeyClosure. pose proof (closure_spec store front false [key]) as H.
  destruct (bindKeyClosureFrom store front false [key]) as [[b v]| |]; [eauto| |done].
  destruct H as [(k & _ & E)|[? _]]; [|done]. by rewrite live_front in E.
Qed.

(** A read that reaches another key covers everything a read of that key does. *)
Lemma visits_incl k1 k2 k t : in_closure store front [k1] k2 -> vis k2 k t -> vis k1 k t.
Proof.
  intros Hc. induction 1 as [k tips t Hk E Ht|k k' u tips t _ IH Hb E Ht|k k' u _ IH Hb|k t t' _ IH Hn].
  - apply list_elem_of_singleton in Hk as ->. by eapply closure_front.
  - by eapply visits_front.
  - by eapply visits_anchor.
  - by eapply visits_next.
Qed.

Lemma in_closure_incl k1 k2 k : in_closure store front [k1] k2 -> in_closure store front [k2] k -> in_closure store front [k1] k.
Proof.
  intros Hc [->%list_elem_of_singleton|(t & k' & Hv & Hb)]; [done|]. right. exists t, k'. split; [by eapply visits_incl|done].
Qed.

Section Connected.
Variable (k1 k2 : bytes) (b1 b2 : gmap bytes (list Tip)) (v1 v2 : verdictMap).
Hypothesis H1 : bindKeyClosure store index subscribed k1 = Done (b1, v1).
Hypothesis H2 : bindKeyClosure store index subscribed k2 = Done (b2, v2).
Hypothesis H12 : in_closure store front [k1] k2.
Hypothesis H21 : in_closure store front [k2] k1.
Hypothesis Hagree : forall u u' x v v', says store u x v -> says store u' x v' -> v = v'.

Lemma same_verdicts x : ve_verdict <$> v1 !! x = ve_verdict <$> v2 !! x.
Proof.
  destruct (closure_facts k1 b1 v1 H1) as (_ & _ & Hs1 & Hc1), (closure_facts k2 b2 v2 H2) as (_ & _ & Hs2 & Hc2).
  destruct (v1 !! x) as [e1|] eqn:E1.
  - destruct (Hs1 x e1 E1) as (k & u & Hv & Hsay). destruct (Hc2 k u x _ (visits_incl _ _ _ _ H21 Hv) Hsay) as [e2 E2].
    rewrite E2. simpl. f_equal. destruct (Hs2 x e2 E2) as (? & u' & _ & Hsay'). by eapply Hagree.
  - destruct (v2 !! x) as [e2|] eqn:E2; [|done]. destruct (Hs2 x e2 E2) as (k & u & Hv & Hsay).
    destruct (Hc1 k u x _ (visits_incl _ _ _ _ H12 Hv) Hsay) as [e1 ?]. congruence.
Qed.

Lemma same_losers x : atomic_loser k1 v1 x -> atomic_loser k2 v2 x.
Proof.
  assert (forall b, is_candidate v1 b -> is_candidate v2 b) as Hcand.
  { intros b. unfold is_candidate. pose proof (same_verdicts (sb_txnID b)) as E.
    destruct (v1 !! sb_txnID b), (v2 !! sb_txnID b); simpl in E; simplify_eq; [congruence|done]. }
  assert (forall y e, v1 !! y = Some e -> ve_verdict e = LOST -> exists e', v2 !! y = Some e' /\ ve_verdict e' = LOST) as Hlost.
  { intros y e E Hl. pose proof (same_verdicts y) as Eq. rewrite E in Eq. destruct (v2 !! y) as [e'|]; simplify_eq/=.
    exists e'. split; [done|congruence]. }
  assert (forall k b, seen_on k1 k b -> seen_on k2 k b) as Hseen.
  { intros k b (t & eff & Hv & ?). exists t, eff. split; [by eapply visits_incl|done]. }
  intros [(e & He & Hl)|(k & Hk & b & Hb & <- & Hcase)].
  - left. by eapply Hlost.
  - right. exists k. split; [by eapply in_closure_incl|]. exists b. split_and!; [auto|done|].
    destruct Hcase as [(e & He & Hl)|(Hc & o & Ho & Hoc & Hbt)].
    + left. unfold recorded_loser. by eapply Hlost.
    + right. split; [auto|]. exists o. auto.
Qed.

End Connected.

End Atomic.

(** No two snapshots pronounce differently on a transaction. *)
Definition verdicts_agree (store : Store) : Prop :=
  forall u u' x v v', says store u x v -> says store u' x v' -> v = v'.

(** [C1] All or nothing.  If a bind spans two keys and is in the history of both,
    a read of either key declares the same transactions lost, whichever way the
    history forks on the one key or the other: no read honours a transaction on
    one of its keys and drops it on another.  Snapshots are assumed not to
    contradict each other about a verdict. *)
Theorem transactions_atomic `{!SortFunc} (store : Store) (index : bytes -> list Tip) (subscribed invisible : bytes -> bool)
    (t : Tip) (eff : Effect) (kb1 kb2 : KeyBind) :
  (forall k, subscribed k = true) -> verdicts_agree store ->
  store !! t = Some eff -> kb1 ∈ bind_keys eff -> kb2 ∈ bind_keys eff ->
  scan_reach store (kb_key kb1) (index (kb_key kb1)) t -> scan_reach store (kb_key kb2) (index (kb_key kb2)) t ->
  exists v1 v2 lost w1 w2,
    atomically_lost store index subscribed invisible (kb_key kb1) = Done (v1, lost, w1)
    /\ atomically_lost store index subscribed invisible (kb_key kb2) = Done (v2, lost, w2).
Proof.
  intros Hsub Hagree Ht Hk1 Hk2 Hr1 Hr2.
  assert (forall ka kb, ka ∈ bind_keys eff -> kb ∈ bind_keys eff -> scan_reach store (kb_key ka) (index (kb_key ka)) t ->
    in_closure store (live_tips index subscribed) [kb_key ka] (kb_key kb)) as Hin.
  { intros ka kb Ha Hb (s & Hs & Hp). destruct (decide (kb_key kb = kb_key ka)) as [->|Hne]; [left; constructor|].
    right. exists t, (kb_key ka). split; [|by exists eff, kb]. apply visits_scan; [done|]. split; [left; constructor|].
    exists s. auto. }
  destruct (closure_total store index subscribed Hsub (kb_key kb1)) as (b1 & v1 & E1).
  destruct (closure_total store index subscribed Hsub (kb_key kb2)) as (b2 & v2 & E2).
  destruct (atomically_lost_spec store index subscribed invisible Hsub _ _ _ E1) as (l1 & w1 & -> & Hl1).
  destruct (atomically_lost_spec store index subscribed invisible Hsub _ _ _ E2) as (l2 & w2 & -> & Hl2).
  exists v1, v2, l1, w1, w2. split; [done|]. do 3 f_equal. apply set_eq. intros x. rewrite Hl1, Hl2.
  split; intros Hx; (eapply same_losers; [..|exact Hx]); eauto.
Qed.
