(* ===== verification/Reconstruct.v ===== *)
(** * Reconstructing a key (effects/snapshot.go)

    [reconstruct] replays a key's history over its common snapshot.  Binds are
    replayed as one batch each, and only if they may be seen: not held back by
    the horizon, not descending from a bind that is, and not lost to fork choice
    on any of their keys.  A read that must not miss a bind in the horizon waits
    for it and starts over.  [filterSnapshotAt] then drops what has expired.

    The walk is [Dag.prepare], where the code may reuse one it has cached; the
    tips a bind names on other keys are not installed into their indexes. *)

From S2P Require Import Prelude Golib Proto Store Walk Dag Reduce Losers Closure.

(** ** The effects of a bind *)

Section Collect.
Variable (store : Store).

Definition bind_next (key txnID : bytes) (t : Tip) : list Tip :=
  match getEffect store key t with
  | Some eff => if bool_decide (e_txn_id eff = txnID) then e_deps eff else []
  | None => []
  end.

Definition bind_visit (key txnID : bytes) (effects : list Effect) (t : Tip) : option (list Effect) :=
  match getEffect store key t with
  | None => None
  | Some eff => Some (if bool_decide (e_txn_id eff = txnID) then effects ++ [eff] else effects)
  end.

(** From the new tip back to the consumed tips, then reversed. *)
Definition collectBindEffects (bindEff : Effect) (key : bytes) : walk (list Effect) :=
  match find_key key (bind_keys bindEff) with
  | None => Done []
  | Some kb =>
      if bool_decide (kb_new_tip kb = zero_tip) then Done []
      else
        let txnID := e_txn_id bindEff in
        effects ← dfs (fun t => bool_decide (t ∈ kb_consumed_tips kb) || bool_decide (t = zero_tip)) (bind_next key txnID)
          (bind_visit key txnID) (dfs_fuel (bind_next key txnID) (dom store) [kb_new_tip kb]) [kb_new_tip kb] ∅ [];
        Done (rev effects)
  end.

End Collect.

(** ** Replay *)

(** [rs_fromSnapshot]: the result is still a snapshot's own state, and has to be
    cloned before it is reduced further. *)
Record replay_state := mkReplay {
  rs_result : option ReducedEffect;
  rs_fromSnapshot : bool;
  rs_subRoots : list Effect;
  rs_count : nat;
}.

Definition replay_start : replay_state := mkReplay None false [] 0.

Definition count_effect (rs : replay_state) : replay_state :=
  mkReplay (rs_result rs) (rs_fromSnapshot rs) (rs_subRoots rs) (S (rs_count rs)).

(** [ensureResultOwned] *)
Definition owned (rs : replay_state) : option ReducedEffect :=
  if rs_fromSnapshot rs then cloneReduced <$> rs_result rs else rs_result rs.

(** How a pass over the history ends: it is complete, it waited for a
    transaction and must start over, or an effect is missing. *)
Inductive pass (A : Type) := Complete (a : A) | Retry (txnID : bytes) | Failed.
Arguments Complete {A} a.
Arguments Retry {A} txnID.
Arguments Failed {A}.

Section Reconstruct.
Context {sorter : SortFunc} {codec : Codec}.
Variable (store : Store) (key : bytes) (txID : bytes).

Definition reduce_owned (effects : list Effect) (rs : replay_state) : replay_state :=
  mkReplay (reduceChainOwned (owned rs) effects) false (rs_subRoots rs) (rs_count rs).

(** An effect that is a bind the horizon holds back. *)
Definition held_back (invisible : bytes -> bool) (eff : Effect) : bool :=
  match get_txn_bind eff with Some _ => invisible (e_txn_id eff) | None => false end.

(** The tips that are, or descend from, an invisible bind. *)
Definition mark_invisible (invisible : bytes -> bool) (nodes : gmap Tip Effect) (marked : gset Tip) (t : Tip) : gset Tip :=
  match nodes !! t with
  | None => marked
  | Some eff =>
      if held_back invisible eff then {[ t ]} ∪ marked
      else if existsb (fun d => bool_decide (d ∈ marked)) (keyDeps key eff) then {[ t ]} ∪ marked else marked
  end.

Definition dependsOnInvisible (invisible : bytes -> bool) (d : dag) : gset Tip :=
  fold_left (mark_invisible invisible (d_nodes d)) (d_topoOrder d) ∅.

(** The callback of [iterate]. *)
Definition replay_effect (invisible : bytes -> bool) (waitForHorizon : bool) (marked : gset Tip) (atomicallyLost : gset bytes)
    (rs : replay_state) (te : Tip * Effect) : pass replay_state :=
  let (tip, eff) := te in
  let rs := count_effect rs in
  match get_snapshot eff ≫= s_state with
  | Some state => Complete (mkReplay (Some state) true (rs_subRoots rs) (rs_count rs))
  | None =>
      if is_standalone_sub eff then Complete (mkReplay (rs_result rs) (rs_fromSnapshot rs) (rs_subRoots rs ++ [eff]) (rs_count rs))
      else match get_txn_bind eff with
           | Some _ =>
               if invisible (e_txn_id eff) then (if waitForHorizon then Retry (e_txn_id eff) else Complete rs)
               else if bool_decide (tip ∈ marked) then Complete rs
               else if bool_decide (e_txn_id eff ∈ atomicallyLost) then Complete rs
               else match collectBindEffects store eff key with
                    | Done bindEffects => Complete (reduce_owned bindEffects rs)
                    | _ => Failed
                    end
           | None => Complete (reduce_owned [eff] rs)
           end
  end.

Fixpoint replay (step : replay_state -> Tip * Effect -> pass replay_state) (l : list (Tip * Effect)) (rs : replay_state)
    : pass replay_state :=
  match l with
  | [] => Complete rs
  | te :: l' => match step rs te with Complete rs' => replay step l' rs' | r => r end
  end.

(** After the walk: the subscriptions, and a result the caller may write to. *)
Definition finish_replay (rs : replay_state) : option ReducedEffect :=
  if (rs_count rs =? 0)%nat then None
  else match rs_subRoots rs with
       | [] => owned rs
       | subs => reduceChainOwned (owned rs) subs
       end.

(** One pass with the given losers: the replayed state and the walked history. *)
Definition reconstruct_pass (tips : list Tip) (waitForHorizon : bool) (invisible : bytes -> bool) (atomicallyLost : gset bytes)
    : pass (option ReducedEffect * nat * dag) :=
  match prepare store key tips with
  | Done d =>
      let marked := dependsOnInvisible invisible d in
      match replay (replay_effect invisible waitForHorizon marked atomicallyLost) (emitted txID d) replay_start with
      | Complete rs => Complete (finish_replay rs, rs_count rs, d)
      | Retry txnID => Retry txnID
      | Failed => Failed
      end
  | _ => Failed
  end.

(** ** The live read *)

(** The tips of the index, [ensureSubscribed], and what the horizon still holds
    back when a wait for a transaction returns. *)
Variable (index : bytes -> list Tip) (subscribed : bytes -> bool) (waited : gset bytes -> bytes -> gset bytes).

Definition holds (horizon : gset bytes) (txnID : bytes) : bool := bool_decide (txnID ∈ horizon).

(** The retry loop; each round starts with fresh decisions. *)
Fixpoint reconstruct_loop (fuel : nat) (tips : list Tip) (waitForHorizon : bool) (horizon : gset bytes)
    : walk (option ReducedEffect * nat * dag) :=
  match atomically_lost store index subscribed (holds horizon) key with
  | Done (_, lost, crossKeyWalked) =>
      match reconstruct_pass tips waitForHorizon (holds horizon) lost with
      | Complete (result, count, d) => Done (result, if (count =? 0)%nat then 0%nat else (count + crossKeyWalked)%nat, d)
      | Failed => Missing
      | Retry txnID =>
          match fuel with
          | O => OutOfFuel
          | S fuel' => reconstruct_loop fuel' tips waitForHorizon (waited horizon txnID)
          end
      end
  | _ => Missing
  end.

(** Input tips that another collected effect depends on; removed from the index
    when a tip that no effect depends on is committed there. *)
Definition has_child (d : dag) (t : Tip) : bool :=
  existsb (fun te => bool_decide (t ∈ e_deps te.2)) (map_to_list (d_nodes d)).

Definition readable (d : dag) (t : Tip) : bool := bool_decide (is_Some (d_nodes d !! t)).

Definition stale_tips (d : dag) (tips : list Tip) : list Tip :=
  if (length tips <=? 1)%nat then []
  else
    let stale := filter (fun t => readable d t && has_child d t = true) tips in
    let hasCommitted := existsb (fun t => readable d t && negb (has_child d t) && bool_decide (t ∈ index key)) tips in
    if hasCommitted then stale else [].

(** The state, the number of effects walked, and the tips removed from the
    index. *)
Definition reconstruct (tips : list Tip) (waitForHorizon : bool) (horizon : gset bytes)
    : walk (option ReducedEffect * nat * list Tip) :=
  '(result, walked, d) ← reconstruct_loop (S (size horizon)) tips waitForHorizon horizon;
  Done (result, walked, if (walked =? 0)%nat then [] else stale_tips d tips).

End Reconstruct.

(** ** Expiry *)

Definition isJSONType (t : ValueType) : bool :=
  match t with TYPE_JSON | TYPE_JSON_OBJECT | TYPE_JSON_ARRAY => true | _ => false end.

(** [now.After(t.AsTime())]; [now] in nanoseconds. *)
Definition expired (now : Z) (t : option Timestamp) : bool :=
  match t with Some t => ts_seconds t * 1000000000 + ts_nanos t <? now | None => false end.

(** The keyed elements that have not expired; the others are deleted from a
    clone. *)
Definition drop_expired (now : Z) (r : ReducedEffect) : ReducedEffect :=
  let root := red_root r in
  if bool_decide (map_Forall (fun _ e => expired now (re_expires_at e) = false) (r_net_adds root)) then r
  else
    let c := cloneReduced r in
    mkReduced (set_keyed (filter (fun p : bytes * ReducedElement => expired now (re_expires_at p.2) = false) (r_net_adds (red_root c)))
                 (r_net_removes (red_root c)) (red_root c)) (red_partitions c).

(** An empty collection, or a state without data, does not exist. *)
Definition is_absent (f : FlatReduced) : bool :=
  let no_scalar := match r_scalar f with None => true | Some _ => false end in
  let no_adds := bool_decide (r_net_adds f = ∅) in
  let no_ordered := negb (nonempty (r_ordered f)) in
  (coll_is (r_collection f) KEYED && no_adds && no_scalar)
  || (coll_is (r_collection f) ORDERED && no_ordered && no_scalar && negb (type_is (r_type_tag f) TYPE_STREAM))
  || (no_scalar && no_adds && no_ordered && (op_is (r_op f) UNKNOWN_OP || op_is (r_op f) REMOVE_OP)).

Definition filterSnapshotAt (result : option ReducedEffect) (now : Z) : option ReducedEffect :=
  match result with
  | None => None
  | Some r =>
      if expired now (r_expires_at (red_root r)) then None
      else if isJSONType (r_type_tag (red_root r)) then Some r
      else let r := drop_expired now r in
           if is_absent (red_root r) then None else Some r
  end.
