(* ===== verification/ReconstructProps.v ===== *)
(** * What a read returns

    A bind is replayed as exactly the effects its transaction wrote on the key,
    in causal order; the binds that are replayed are exactly those that may be
    seen; and a waiting read ends with nothing held back. *)

From S2P Require Import Prelude Golib Proto Store Walk Dag DagProps DagOrder Reduce Losers Closure LosersProps ClosureProps Reconstruct.

(** ** One thing before another in a list *)

Definition before {A} (x y : A) (l : list A) : Prop := exists l1 l2 l3, l = l1 ++ x :: l2 ++ y :: l3.

Lemma before_lookup {A} (l : list A) i j x y : l !! i = Some x -> l !! j = Some y -> (i < j)%nat -> before x y l.
Proof.
  intros Hx Hy Hij. exists (take i l), (take (j - S i) (drop (S i) l)), (drop (S j) l).
  rewrite <- (take_drop_middle l i x Hx) at 1. do 2 f_equal.
  rewrite <- (take_drop_middle (drop (S i) l) (j - S i) y) at 1.
  - do 2 f_equal. rewrite drop_drop. f_equal. lia.
  - rewrite lookup_drop. rewrite <- Hy. f_equal. lia.
Qed.

Lemma before_filter {A} (P : A -> Prop) `{!forall x, Decision (P x)} (l : list A) x y :
  before x y l -> P x -> P y -> before x y (filter P l).
Proof.
  intros (l1 & l2 & l3 & ->) Hx Hy. exists (filter P l1), (filter P l2), (filter P l3).
  rewrite list.filter_app, filter_cons_True, list.filter_app, filter_cons_True by done. done.
Qed.

Lemma before_rev {A} (l : list A) x y : before x y l -> before y x (rev l).
Proof.
  intros (l1 & l2 & l3 & ->). exists (rev l3), (rev l2), (rev l1).
  rewrite rev_app_distr. simpl. rewrite rev_app_distr. simpl. by rewrite <- !app_assoc.
Qed.

(** ** The effects of a bind *)

Section Batch.
Variable (store : Store) (key txnID : bytes) (kb : KeyBind).

(** Where the walk back from the new tip stops. *)
Definition at_base (t : Tip) : bool := bool_decide (t ∈ kb_consumed_tips kb) || bool_decide (t = zero_tip).

(** An effect of the transaction. *)
Definition own (t : Tip) (eff : Effect) : Prop := store !! t = Some eff /\ e_txn_id eff = txnID.

#[local] Instance own_dec t : Decision (exists eff, own t eff).
Proof.
  destruct (store !! t) as [eff|] eqn:E; [destruct (decide (e_txn_id eff = txnID)) as [|Hn]|].
  - left. by exists eff.
  - right. intros (e & [Ee ?]). congruence.
  - right. intros (e & [Ee ?]). congruence.
Defined.

(** Written by the transaction since its base. *)
Definition written (t : Tip) : Prop :=
  (exists eff, own t eff) /\ at_base t = false
  /\ rtc (fun x y => at_base x = false /\ y ∈ bind_next store key txnID x) (kb_new_tip kb) t.

Lemma bind_next_own x y : y ∈ bind_next store key txnID x <-> exists eff, own x eff /\ y ∈ e_deps eff.
Proof.
  unfold bind_next, getEffect, own. destruct (store !! x) as [eff|]; [case_bool_decide as E|].
  - split; [eauto|]. by intros (e & [[= <-] _] & ?).
  - rewrite elem_of_nil. split; [done|]. by intros (e & [[= <-] ?] & _).
  - rewrite elem_of_nil. split; [done|]. by intros (e & [? _] & _).
Qed.

Lemma bind_fold order acc out :
  fold_opt (bind_visit store key txnID) order acc = Some out ->
  exists effs, out = acc ++ effs /\ Forall2 own (filter (fun t => exists eff, own t eff) order) effs.
Proof.
  revert acc. induction order as [|t order IH]; intros acc; cbn [fold_opt].
  { intros [= <-]. exists []. rewrite app_nil_r. by split. }
  unfold bind_visit, getEffect. destruct (store !! t) as [eff|] eqn:Et; [|done].
  case_bool_decide as Ex; intros (effs & -> & Hf)%IH.
  - exists (eff :: effs). rewrite <- app_assoc. split; [done|].
    rewrite filter_cons_True by (by exists eff). by constructor.
  - exists effs. split; [done|]. rewrite filter_cons_False; [done|]. intros (e & [? ?]). congruence.
Qed.

(** No effect of the transaction has two dependencies the transaction wrote. *)
Definition linear_txn : Prop :=
  forall t eff d1 d2, own t eff -> d1 ∈ e_deps eff -> d2 ∈ e_deps eff ->
    at_base d1 = false -> at_base d2 = false -> (exists e, own d1 e) -> (exists e, own d2 e) -> d1 = d2.

Abbreviation bstep := (fun x y => at_base x = false /\ y ∈ bind_next store key txnID x).

(** The written tips form one line. *)
Lemma written_comparable x y :
  linear_txn -> (exists e, own x e) -> at_base x = false -> (exists e, own y e) -> at_base y = false ->
  rtc bstep (kb_new_tip kb) x -> rtc bstep (kb_new_tip kb) y -> rtc bstep x y \/ rtc bstep y x.
Proof.
  intros Hlin Hx Hbx Hy Hby Hpx. revert y Hy Hby. apply rtc_nsteps_1 in Hpx as [n Hn]. revert x Hx Hbx Hn.
  induction n as [|n IH]; intros x Hx Hbx Hn y Hy Hby Hpy.
  { inversion Hn; subst. by left. }
  apply nsteps_inv_r in Hn as (x' & Hn & [Hbx' Hnx]). apply bind_next_own in Hnx as Hnx'. destruct Hnx' as (ex & Hox & Hdx).
  destruct (IH x' ltac:(by exists ex) Hbx' Hn y Hy Hby Hpy) as [Hp|Hp].
  - inversion Hp as [|? z ? [_ Hz] Hzy]; subst.
    + right. apply rtc_once. split; [done|]. apply bind_next_own. eauto.
    + apply bind_next_own in Hz as (ez & Hoz & Hdz). assert (ez = ex) as -> by (destruct Hoz, Hox; congruence).
      assert (x = z) as ->; [|by left].
      assert (at_base z = false) as Hbz by (inversion Hzy as [|? ? ? [? _]]; subst; done).
      assert (exists e, own z e) as Hoz'.
      { inversion Hzy as [|? ? ? [_ Hzz] _]; subst; [done|]. apply bind_next_own in Hzz as (e & ? & _). eauto. }
      by eapply (Hlin x' ex x z).
  - right. eapply rtc_r; [exact Hp|]. split; [done|]. apply bind_next_own. eauto.
Qed.

Lemma batch_order rank order :
  ranked store rank -> linear_txn ->
  dfs_covers at_base (bind_next store key txnID) [kb_new_tip kb] ∅ order ->
  forall t d eff, t ∈ order -> own t eff -> d ∈ e_deps eff -> d ∈ order -> (exists e, own d e) -> before t d order.
Proof.
  intros Hr Hlin Hc t d eff Ht Hot Hd Hdo Hod.
  assert (forall x y, bstep x y -> (rank y < rank x)%nat) as Hrank.
  { intros x y [_ (e & [He _] & Hy)%bind_next_own]. eapply Hr; [done|]. unfold allDeps. apply elem_of_app. by left. }
  destruct Hc as [Hnd Hnew Hreach Hstack Hclosed Hparent].
  assert (forall x, x ∈ order -> at_base x = false /\ rtc bstep (kb_new_tip kb) x) as Hvis.
  { intros x Hx. split; [by apply Hnew|]. destruct (Hreach x Hx) as (s & ->%list_elem_of_singleton & Hp). exact Hp. }
  destruct (Hvis t Ht) as [Hbt Hpt], (Hvis d Hdo) as [Hbd Hpd].
  assert (bstep t d) as Htd by (split; [done|apply bind_next_own; eauto]).
  apply list_elem_of_lookup_1 in Hdo as [i Hi]. apply list_elem_of_lookup_1 in Ht as [k Hk].
  destruct (Hparent i d Hi) as [->%list_elem_of_singleton|(j & s & Hji & Hj & Hs)].
  { exfalso. pose proof (ranked_rtc _ _ _ _ Hrank Hpt). specialize (Hrank _ _ Htd). lia. }
  destruct (Hvis s ltac:(by eapply list_elem_of_lookup_2)) as [Hbs Hps].
  assert (exists e, own s e) as Hos by (apply bind_next_own in Hs as (e & ? & _); eauto).
  assert (s = t) as ->; [|by eapply before_lookup].
  assert (forall a b, rtc bstep a b -> bstep a d -> bstep b d -> (exists e, own b e) -> at_base b = false -> a = b) as Hsame.
  { intros a b Hab Had Hbd' Hob Hbb. inversion Hab as [|? z ? Haz Hzb]; subst; [done|]. exfalso.
    assert (z = d) as ->.
    { destruct Haz as [_ (ea & Ha1 & Hza)%bind_next_own], Had as [_ (ea' & Ha2 & Hda)%bind_next_own].
      assert (ea' = ea) as -> by (destruct Ha1, Ha2; congruence).
      assert (at_base z = false) as Hbz by (inversion Hzb as [|? ? ? [? _]]; subst; done).
      assert (exists e, own z e) as Hoz.
      { inversion Hzb as [|? ? ? [_ Hzz] _]; subst; [done|]. apply bind_next_own in Hzz as (e & ? & _). eauto. }
      by eapply (Hlin a ea z d). }
    pose proof (ranked_rtc _ _ _ _ Hrank Hzb). pose proof (Hrank _ _ Hbd'). lia. }
  destruct (written_comparable s t Hlin Hos Hbs ltac:(by exists eff) Hbt Hps Hpt) as [Hp|Hp].
  - apply (Hsame s t Hp); [by split|done|by exists eff|done].
  - symmetry. apply (Hsame t s Hp); [done|by split|done|done].
Qed.

End Batch.

Lemma bind_batch_spec (store : Store) (key : bytes) (bindEff : Effect) (kb : KeyBind) (rank : Tip -> nat) :
  find_key key (bind_keys bindEff) = Some kb -> kb_new_tip kb <> zero_tip -> ranked store rank ->
  match collectBindEffects store bindEff key with
  | Done effs =>
      exists ts, NoDup ts /\ Forall2 (own store (e_txn_id bindEff)) ts effs
        /\ (forall t, t ∈ ts <-> written store key (e_txn_id bindEff) kb t)
        /\ (linear_txn store (e_txn_id bindEff) kb ->
            forall t d eff, t ∈ ts -> store !! t = Some eff -> d ∈ e_deps eff -> d ∈ ts -> before d t ts)
  | Missing => exists t, store !! t = None
      /\ rtc (fun x y => at_base kb x = false /\ y ∈ bind_next store key (e_txn_id bindEff) x) (kb_new_tip kb) t
  | OutOfFuel => False
  end.
Proof.
  intros Hkb Hz Hr. unfold collectBindEffects. rewrite Hkb, bool_decide_eq_false_2 by done.
  set (x := e_txn_id bindEff).
  assert (forall t, bind_next store key x t <> [] -> t ∈ dom store) as HD.
  { intros t. unfold bind_next, getEffect. destruct (store !! t) eqn:E; [|done]. intros _. by eapply elem_of_dom_2. }
  pose proof (dfs_spec (at_base kb) (bind_next store key x) (bind_visit store key x) (dom store) HD
    (dfs_fuel (bind_next store key x) (dom store) [kb_new_tip kb]) [kb_new_tip kb] ∅ [] (dfs_fuel_enough _ _ _)) as H.
  change (fun t : Tip => bool_decide (t ∈ kb_consumed_tips kb) || bool_decide (t = zero_tip)) with (at_base kb).
  destruct (dfs _ _ _ _ _ _ _) as [effs| |]; cbn [mbind walk_bind]; [| |done].
  - destruct H as (order & (effs' & -> & Hf)%bind_fold & Hc). cbn [app].
    set (mine := filter (fun t => exists eff, own store x t eff) order) in *.
    exists (rev mine). split_and!.
    + rewrite <- Permutation_rev. apply list.NoDup_filter, Hc.
    + rewrite !rev_alt. by apply (Forall2_reverse _ mine effs').
    + intros t. rewrite list_elem_of_In, <- in_rev, <- list_elem_of_In. unfold mine. rewrite list_elem_of_filter.
      rewrite (dfs_covers_iff _ _ _ _ t Hc). unfold written, dfs_step. setoid_rewrite list_elem_of_singleton. naive_solver.
    + intros Hlin t d eff Ht He Hd Hdt. apply before_rev.
      rewrite list_elem_of_In, <- in_rev, <- list_elem_of_In in Ht. rewrite list_elem_of_In, <- in_rev, <- list_elem_of_In in Hdt.
      apply list_elem_of_filter in Ht as [Hot Ht], Hdt as [Hod Hdo]. apply before_filter; [|done..].
      destruct Hot as (e & Hoe). assert (e = eff) as -> by (destruct Hoe; congruence).
      by eapply (batch_order store key x kb rank order).
  - destruct H as (t & acc0 & s & ->%list_elem_of_singleton & Hp & Hn). exists t. split; [|exact Hp].
    unfold bind_visit, getEffect in Hn. by destruct (store !! t).
Qed.

(** A bind is replayed as exactly what its transaction wrote on the key.
    The walk back from the bind's new tip always ends; it fails only on an
    effect of that history that is missing; and otherwise it returns, each once,
    precisely the transaction's effects between the consumed tips and the new
    tip.  When the transaction wrote the key in a line, they come in causal
    order: every effect after those it depends on. *)
Theorem bind_batch_exact (store : Store) (key : bytes) (bindEff : Effect) (kb : KeyBind) (rank : Tip -> nat) :
  find_key key (bind_keys bindEff) = Some kb -> kb_new_tip kb <> zero_tip -> ranked store rank ->
  match collectBindEffects store bindEff key with
  | Done effs =>
      exists ts, NoDup ts /\ Forall2 (own store (e_txn_id bindEff)) ts effs
        /\ (forall t, t ∈ ts <-> written store key (e_txn_id bindEff) kb t)
        /\ (linear_txn store (e_txn_id bindEff) kb ->
            forall t d eff, t ∈ ts -> store !! t = Some eff -> d ∈ e_deps eff -> d ∈ ts -> before d t ts)
  | Missing => exists t, store !! t = None
      /\ rtc (fun x y => at_base kb x = false /\ y ∈ bind_next store key (e_txn_id bindEff) x) (kb_new_tip kb) t
  | OutOfFuel => False
  end.
Proof. apply bind_batch_spec. Qed.

(** ** Descent from an invisible bind *)

(** One dependency step inside the collected history. *)
Definition step_in (key : bytes) (d : dag) (x y : Tip) : Prop := dep (d_nodes d) key x y /\ is_Some (d_nodes d !! y).

(** [t] is, or depends through the collected history on, a bind held back. *)
Definition tainted (key : bytes) (invisible : bytes -> bool) (d : dag) (t : Tip) : Prop :=
  exists u eff, rtc (step_in key d) t u /\ d_nodes d !! u = Some eff /\ held_back invisible eff = true.

Section Marked.
Context {sorter : SortFunc}.
Variable (store : Store) (key : bytes) (tips : list Tip) (d : dag) (rank : Tip -> nat) (invisible : bytes -> bool).
Hypothesis Hprep : prepare store key tips = Done d.
Hypothesis Hrank : ranked store rank.
Hypothesis Hnull : store !! zero_tip = None.

Lemma prepared_order :
  causal key (d_nodes d) (d_lcaTip d) (d_topoOrder d)
  /\ (forall x, x ∈ d_topoOrder d -> is_Some (d_nodes d !! x))
  /\ (forall x y eff, d_nodes d !! x = Some eff -> is_lca_snapshot (d_lcaTip d) x eff = true -> y ∈ keyDeps key eff -> d_nodes d !! y = None)
  /\ d_nodes d ⊆ store.
Proof.
  destruct (prepare_inv store key tips d Hprep) as (nodes & lca & E & -> & -> & ->).
  pose proof (bfs_spec store key tips) as Hs. rewrite E in Hs. destruct Hs as [He Ht].
  set (trimmed := trimAncestorsOfLCA key nodes lca).
  destruct (topo_order_spec key trimmed lca rank (trimmed_rank store key tips nodes lca He rank Hrank) tips) as (_ & Hc & Hin).
  assert (trimmed ⊆ nodes) as Hsub by (by eapply trimmed_nodes).
  split_and!; [done| | |etrans; [done|apply He]].
  - intros x (tip & _ & Hnt & Hp)%Hin. clear - Hp Hnt. induction Hp as [|a b c (? & _ & _ & _ & Hb) _ IH]; [done|]. by apply IH.
  - intros x y eff Hx Hl Hy. unfold is_lca_snapshot in Hl. destruct (get_snapshot eff) as [snap|] eqn:Es; [|done].
    apply bool_decide_eq_true in Hl as ->. pose proof (lookup_weaken _ _ _ _ Hx Hsub) as Hxn.
    assert (lca <> zero_tip) as Hz.
    { intros ->. pose proof (lookup_weaken _ _ _ _ Hxn (exp_store _ _ _ _ _ He)). congruence. }
    assert (keyDeps key eff = e_deps eff) as Ek.
    { unfold keyDeps, get_txn_bind, get_snapshot in *. by destruct (e_kind eff) as [[]|]. }
    rewrite Ek in Hy. destruct (trimmed !! y) as [ey|] eqn:Ey; [|done]. exfalso.
    apply trim_spec in Ey as [_ Hb]; [|done|by apply (exp_lca _ _ _ _ _ He)]. apply Hb. by exists eff, y.
Qed.

Lemma marked_prefix p rest :
  d_topoOrder d = p ++ rest ->
  forall t, t ∈ fold_left (mark_invisible key invisible (d_nodes d)) p ∅ <-> t ∈ p /\ tainted key invisible d t.
Proof.
  destruct prepared_order as (Hc & Hn & Hl & _). revert rest. induction p as [|x p IH] using rev_ind; intros rest Ho t.
  { cbn [fold_left]. rewrite elem_of_nil. set_solver. }
  rewrite <- app_assoc in Ho. specialize (IH ([x] ++ rest) Ho). rewrite fold_left_app. cbn [fold_left].
  set (marked := fold_left _ p ∅) in *.
  destruct (Hn x) as [eff Hx]; [rewrite Ho; set_solver|].
  assert (forall P : Prop, (tainted key invisible d x <-> P) -> forall t, t ∈ p ++ [x] /\ tainted key invisible d t <->
    t ∈ marked \/ (t = x /\ P)) as Hgoal.
  { intros P HP u. rewrite elem_of_app, list_elem_of_singleton, IH. split.
    - intros [[| ->] Hu]; [auto|right; tauto].
    - intros [[]|[-> ?]]; [auto|]. split; [auto|tauto]. }
  unfold mark_invisible. rewrite Hx. destruct (held_back invisible eff) eqn:Eh.
  { rewrite (Hgoal True); [set_solver|]. split; [done|]. intros _. by exists x, eff. }
  destruct (existsb _ (keyDeps key eff)) eqn:Ee.
  { rewrite (Hgoal True); [set_solver|]. split; [done|]. intros _.
    apply existsb_exists in Ee as (y & Hy & Hm%bool_decide_eq_true). apply list_elem_of_In in Hy.
    apply IH in Hm as [Hyp (u & effu & Hp & ? & ?)]. exists u, effu. split_and!; [|done..].
    eapply rtc_l; [|exact Hp]. split; [by exists eff|]. apply Hn. rewrite Ho. set_solver. }
  rewrite (Hgoal False); [set_solver|]. split; [|done]. intros (u & effu & Hp & Hu & Hh).
  inversion Hp as [|? y ? [(e & He & Hy) Hyn] Hpy]; subst; [congruence|]. simplify_eq.
  assert (edge key (d_nodes d) (d_lcaTip d) x y) as Hedge.
  { exists eff. split_and!; [done| |done..]. destruct (is_lca_snapshot (d_lcaTip d) x eff) eqn:El; [|done].
    rewrite (Hl x y eff Hx El Hy) in Hyn. by destruct Hyn. }
  destruct (Hc (length p) x y) as (j & Hj & Hjy); [by rewrite Ho, lookup_app_r, Nat.sub_diag by lia|done|].
  assert (y ∈ marked) as Hym.
  { apply IH. split; [|by exists u, effu]. rewrite Ho, lookup_app_l in Hjy by done. by eapply list_elem_of_lookup_2. }
  apply not_true_iff_false in Ee. apply Ee, existsb_exists. exists y. split; [by apply list_elem_of_In|by apply bool_decide_eq_true].
Qed.

Lemma marked_spec t : t ∈ dependsOnInvisible key invisible d <-> t ∈ d_topoOrder d /\ tainted key invisible d t.
Proof. apply (marked_prefix _ []). by rewrite app_nil_r. Qed.

End Marked.

(** ** What is replayed *)

(** A bind is honoured unless it lost or history it depends on is held back. *)
Definition honoured (key : bytes) (invisible : bytes -> bool) (lost : gset bytes) (d : dag) (te : Tip * Effect) : Prop :=
  is_Some (get_txn_bind te.2) -> ~ tainted key invisible d te.1 /\ e_txn_id te.2 ∉ lost.

Section Replay.
Context {sorter : SortFunc} {codec : Codec}.
Variable (store : Store) (key : bytes) (txID : bytes).

(** Replay of a history in which every bind counts. *)
Definition replay_plain : list (Tip * Effect) -> replay_state -> pass replay_state :=
  replay (replay_effect store key (fun _ => false) false ∅ ∅).

Definition passes (invisible : bytes -> bool) (marked : gset Tip) (lost : gset bytes) (te : Tip * Effect) : bool :=
  match get_txn_bind te.2 with
  | None => true
  | Some _ => negb (invisible (e_txn_id te.2)) && negb (bool_decide (te.1 ∈ marked)) && negb (bool_decide (e_txn_id te.2 ∈ lost))
  end.

(** Two replays that agree up to the number of effects they were shown. *)
Definition same_replay (a b : replay_state) : Prop :=
  rs_result a = rs_result b /\ rs_fromSnapshot a = rs_fromSnapshot b /\ rs_subRoots a = rs_subRoots b.

Lemma same_owned a b : same_replay a b -> owned a = owned b.
Proof. intros (E1 & E2 & _). unfold owned. by rewrite E1, E2. Qed.

Lemma bind_kind eff b : get_txn_bind eff = Some b -> get_snapshot eff = None /\ is_standalone_sub eff = false.
Proof. unfold get_txn_bind, get_snapshot, is_standalone_sub, get_subscription. by destruct (e_kind eff) as [[]|]. Qed.

(** One effect: skipped, or treated alike. *)
Lemma replay_effect_agrees invisible marked lost a b te :
  same_replay a b ->
  if passes invisible marked lost te then
    match replay_effect store key invisible false marked lost a te, replay_effect store key (fun _ => false) false ∅ ∅ b te with
    | Complete a', Complete b' => same_replay a' b' /\ rs_count a' = S (rs_count a)
    | Failed, Failed => True
    | _, _ => False
    end
  else exists a', replay_effect store key invisible false marked lost a te = Complete a' /\ same_replay a' b /\ rs_count a' = S (rs_count a).
Proof.
  intros Hs. pose proof (same_owned (count_effect a) (count_effect b) Hs) as Ho. destruct Hs as (E1 & E2 & E3).
  destruct te as [tip eff]. unfold passes. cbn [fst snd]. unfold replay_effect.
  destruct (get_txn_bind eff) as [bind|] eqn:Eb.
  - destruct (bind_kind eff bind Eb) as [-> ->]. cbn [mbind option_bind].
    destruct (invisible (e_txn_id eff)); cbn [negb andb]; [eexists; split; [done|by split_and!]|].
    destruct (bool_decide (tip ∈ marked)); cbn [negb andb]; [eexists; split; [done|by split_and!]|].
    destruct (bool_decide (e_txn_id eff ∈ lost)); cbn [negb andb]; [eexists; split; [done|by split_and!]|].
    rewrite !bool_decide_eq_false_2 by set_solver.
    destruct (collectBindEffects store eff key); [|done..]. split; [|done].
    split_and!; cbn [reduce_owned rs_result rs_fromSnapshot rs_subRoots]; [by rewrite Ho|done|done].
  - destruct (get_snapshot eff ≫= s_state); [split; [split_and!|]; done|].
    destruct (is_standalone_sub eff); (split; [|done]).
    + split_and!; cbn; [done|done|by rewrite E3].
    + split_and!; cbn [reduce_owned rs_result rs_fromSnapshot rs_subRoots]; [by rewrite Ho|done|done].
Qed.

Lemma replay_agrees invisible marked lost l a b :
  same_replay a b ->
  match replay (replay_effect store key invisible false marked lost) l a,
        replay_plain (filter (fun te => passes invisible marked lost te = true) l) b with
  | Complete a', Complete b' => same_replay a' b' /\ rs_count a' = (rs_count a + length l)%nat
  | Failed, Failed => True
  | _, _ => False
  end.
Proof.
  revert a b. induction l as [|te l IH]; intros a b Hs; cbn [replay]; [by split; [|simpl; lia]|].
  pose proof (replay_effect_agrees invisible marked lost a b te Hs) as Hte.
  destruct (passes invisible marked lost te) eqn:Ep.
  - rewrite filter_cons_True by done. unfold replay_plain. cbn [replay].
    destruct (replay_effect store key invisible false marked lost a te) as [a'| |],
             (replay_effect store key (fun _ => false) false ∅ ∅ b te) as [b'| |]; try done.
    destruct Hte as [Hs' Hn]. specialize (IH a' b' Hs'). unfold replay_plain in IH.
    set (rb := replay _ (filter _ l) b') in *.
    destruct (replay _ l a'), rb; try done. destruct IH. split; [done|simpl; lia].
  - rewrite filter_cons_False by congruence. destruct Hte as (a' & -> & Hs' & Hn). specialize (IH a' b Hs').
    set (rb := replay_plain (filter _ l) b) in *.
    destruct (replay _ l a'), rb; try done. destruct IH. split; [done|simpl; lia].
Qed.

(** The state at the end of a replay. *)
Definition final (rs : replay_state) : option ReducedEffect :=
  match rs_subRoots rs with [] => owned rs | subs => reduceChainOwned (owned rs) subs end.

Lemma same_final a b : same_replay a b -> final a = final b.
Proof. intros Hs. unfold final. rewrite (same_owned a b Hs). destruct Hs as (_ & _ & ->). done. Qed.

Lemma emitted_order d te : te ∈ emitted txID d -> te.1 ∈ d_topoOrder d /\ d_nodes d !! te.1 = Some te.2.
Proof.
  unfold emitted. rewrite list_elem_of_filter. destruct te as [t eff]. intros [_ H]. by apply elem_of_with_effects in H.
Qed.

End Replay.

(** [C3] A read returns the replay of what may be seen.  The state a read
    computes is the one obtained by replaying, in causal order, only the effects
    it is entitled to: all of them, except binds that lost fork choice on any
    key and binds that are held back by the horizon or depend, through any chain
    of dependencies in the collected history, on one that is.  So no read shows
    a transaction without the history it was built on. *)
Theorem read_replays_honoured `{!SortFunc, !Codec} (store : Store) (key txID : bytes) (tips : list Tip)
    (invisible : bytes -> bool) (lost : gset bytes) (d : dag) (rank : Tip -> nat) :
  prepare store key tips = Done d -> ranked store rank -> store !! zero_tip = None ->
  exists seen, seen `sublist_of` emitted txID d
    /\ (forall te, te ∈ seen <-> te ∈ emitted txID d /\ honoured key invisible lost d te)
    /\ match reconstruct_pass store key txID tips false invisible lost with
       | Complete (result, _, _) => exists rs, replay_plain store key seen replay_start = Complete rs /\ result = final rs
       | Failed => replay_plain store key seen replay_start = Failed
       | Retry _ => False
       end.
Proof.
  intros Hp Hr Hz. set (marked := dependsOnInvisible key invisible d).
  exists (filter (fun te => passes invisible marked lost te = true) (emitted txID d)). split; [apply sublist_filter|]. split.
  - intros te. rewrite list_elem_of_filter. split; intros [H1 H2]; [|split; [|done]].
    + split; [done|]. unfold passes, honoured in *. intros [bind Hb]. rewrite Hb in H1.
      apply andb_true_iff in H1 as [[_ H1%negb_true_iff%bool_decide_eq_false]%andb_true_iff H3%negb_true_iff%bool_decide_eq_false].
      split; [|done]. intros Ht. apply H1. apply (marked_spec store key tips d rank invisible Hp Hr Hz).
      split; [by eapply emitted_order|done].
    + unfold passes. destruct (get_txn_bind te.2) as [bind|] eqn:Hb; [|done]. destruct (H2 ltac:(eauto)) as [Hnt Hnl].
      destruct (emitted_order txID d te H1) as [Ho Hn].
      rewrite !andb_true_iff, !negb_true_iff, !bool_decide_eq_false. split_and!; [| |done].
      * apply not_true_iff_false. intros Hi. apply Hnt. exists te.1, te.2. split_and!; [done..|]. unfold held_back. by rewrite Hb.
      * intros [_ Ht]%(marked_spec store key tips d rank invisible Hp Hr Hz). done.
  - unfold reconstruct_pass. rewrite Hp.
    pose proof (replay_agrees store key invisible marked lost (emitted txID d) replay_start replay_start ltac:(by split_and!)) as Hag.
    fold marked. set (rb := replay_plain store key _ replay_start) in *.
    destruct (replay (replay_effect store key invisible false marked lost) (emitted txID d) replay_start) as [a| |] eqn:Ea;
      destruct rb as [b| |]; try done.
    destruct Hag as [Hs Hn]. exists b. split; [done|]. rewrite <- (same_final a b Hs). unfold finish_replay, final.
    destruct (Nat.eqb_spec (rs_count a) 0) as [Hc|]; [|done].
    rewrite Hn in Hc. destruct (emitted txID d); [|simpl in Hc; lia]. by injection Ea as <-.
Qed.
