(* ===== verification/ReconstructWait.v ===== *)
(** * A read that waits

    On a complete history a read that waits for the horizon returns, and what it
    returns leaves out no bind that is held back. *)

From S2P Require Import Prelude Golib Proto Reduce Store Walk Dag DagProps DagOrder Losers LosersProps Closure ClosureProps Reconstruct ReconstructProps.

(** Every reference in the history can be followed. *)
Definition complete (store : Store) : Prop :=
  forall t eff x, store !! t = Some eff -> x ∈ allDeps eff -> is_Some (store !! x).

Section Waiting.
Context {sorter : SortFunc} {codec : Codec}.
Variable (store : Store) (key txID : bytes) (tips : list Tip) (rank : Tip -> nat).
Hypothesis Hcomplete : complete store.
Hypothesis Htips : forall t, t ∈ tips -> is_Some (store !! t).
Hypothesis Hrank : ranked store rank.
Hypothesis Hnull : store !! zero_tip = None.

Lemma prepare_total : exists d, prepare store key tips = Done d.
Proof.
  unfold prepare. pose proof (bfs_spec store key tips) as H. destruct (bfs store key tips) as [[nodes lca]| |]; [|exfalso|done].
  - destruct (size nodes =? 0)%nat; eauto.
  - destruct H as (t & (tip & Ht & Hp) & Hn).
    assert (is_Some (store !! tip)) as Hs by auto. clear Ht.
    induction Hp as [|x y z (eff & Hx & Hy) _ IH]; [rewrite Hn in Hs; by destruct Hs|].
    apply IH; [done|]. eapply Hcomplete; [done|]. by eapply keyDeps_allDeps.
Qed.

Lemma collect_total t eff : store !! t = Some eff -> exists effs, collectBindEffects store eff key = Done effs.
Proof.
  intros He. destruct (find_key key (bind_keys eff)) as [kb|] eqn:Ek.
  2: { unfold collectBindEffects. rewrite Ek. eauto. }
  destruct (decide (kb_new_tip kb = zero_tip)) as [Hz|Hz].
  { unfold collectBindEffects. rewrite Ek, bool_decide_eq_true_2 by done. eauto. }
  pose proof (bind_batch_spec store key eff kb rank Ek Hz Hrank) as H.
  destruct (collectBindEffects store eff key) as [effs| |]; [eauto|exfalso|done].
  destruct H as (u & Hu & Hp).
  assert (is_Some (store !! kb_new_tip kb)) as Hs.
  { eapply Hcomplete; [done|]. unfold allDeps. apply elem_of_app. right. apply list_elem_of_In, in_map, list_elem_of_In.
    by eapply find_key_in. }
  clear Hz. induction Hp as [|x y z [_ (e & [He' _] & Hy)%bind_next_own] _ IH]; [rewrite Hu in Hs; by destruct Hs|].
  apply IH; [done|]. eapply Hcomplete; [done|]. unfold allDeps. apply elem_of_app. by left.
Qed.

Lemma wait_effect invisible marked lost rs te :
  replay_effect store key invisible true marked lost rs te =
  if held_back invisible te.2 then Retry (e_txn_id te.2) else replay_effect store key invisible false marked lost rs te.
Proof.
  destruct te as [t eff]. cbn [snd]. unfold replay_effect, held_back. destruct (get_txn_bind eff) as [bind|] eqn:Eb; [|done].
  destruct (bind_kind eff bind Eb) as [-> ->]. cbn [mbind option_bind]. by destruct (invisible (e_txn_id eff)).
Qed.

Lemma effect_total invisible marked lost rs te t :
  store !! t = Some te.2 -> exists rs', replay_effect store key invisible false marked lost rs te = Complete rs'.
Proof.
  destruct te as [tip eff]. cbn [snd]. intros Ht. unfold replay_effect. destruct (collect_total t eff Ht) as [effs ->].
  repeat case_match; eauto.
Qed.

(** A waiting replay stops at the first bind held back; without one it is the
    replay that does not wait. *)
Lemma replay_wait invisible marked lost l rs :
  (forall te, te ∈ l -> exists t, store !! t = Some te.2) ->
  match replay (replay_effect store key invisible true marked lost) l rs with
  | Complete a => (forall te, te ∈ l -> held_back invisible te.2 = false)
      /\ replay (replay_effect store key invisible false marked lost) l rs = Complete a
  | Retry x => exists te, te ∈ l /\ held_back invisible te.2 = true /\ x = e_txn_id te.2
  | Failed => False
  end.
Proof.
  revert rs. induction l as [|te l IH]; intros rs Hl; cbn [replay].
  { split; [by intros te ?%elem_of_nil|done]. }
  rewrite wait_effect. destruct (held_back invisible te.2) eqn:Eh.
  { exists te. split_and!; [constructor|done..]. }
  destruct (Hl te ltac:(constructor)) as (t & Ht). destruct (effect_total invisible marked lost rs te t Ht) as [rs' ->].
  specialize (IH rs' (fun te' H => Hl te' (list_elem_of_further _ _ _ H))).
  destruct (replay _ l rs') as [a|x|]; [|destruct IH as (te' & ? & ?); exists te'; split; [by constructor|done]|done].
  destruct IH as [H1 H2]. split; [|done]. intros te' [->|]%elem_of_cons; auto.
Qed.

(** ** With nothing held back, only lost binds are left out *)

Section Pass.
Variable (d : dag) (invisible : bytes -> bool).
Hypothesis Hprep : prepare store key tips = Done d.
Hypothesis Hclear : forall te, te ∈ emitted txID d -> held_back invisible te.2 = false.

Lemma emitted_bind t eff bind :
  t ∈ d_topoOrder d -> d_nodes d !! t = Some eff -> get_txn_bind eff = Some bind -> (t, eff) ∈ emitted txID d.
Proof.
  intros Ht He Hb. unfold emitted. apply list_elem_of_filter. split; [|by apply elem_of_with_effects]. cbn [fst snd].
  unfold shouldEmit. destruct (bind_kind eff bind Hb) as [-> _]. rewrite Hb, andb_false_r. done.
Qed.

Lemma order_closed x y : x ∈ d_topoOrder d -> step_in key d x y -> y ∈ d_topoOrder d.
Proof.
  destruct (prepared_order store key tips d rank Hprep Hrank Hnull) as (Hc & Hn & Hl & _).
  intros Hx [(eff & He & Hy) Hyn]. eapply causal_closed; [exact Hc|exact Hx|]. exists eff. split_and!; [done| |done..].
  destruct (is_lca_snapshot (d_lcaTip d) x eff) eqn:El; [|done]. rewrite (Hl x y eff He El Hy) in Hyn. by destruct Hyn.
Qed.

Lemma nothing_marked t : t ∉ dependsOnInvisible key invisible d.
Proof.
  rewrite (marked_spec store key tips d rank invisible Hprep Hrank Hnull). intros [Ht (u & eff & Hp & Hu & Hh)].
  assert (u ∈ d_topoOrder d) as Ho.
  { clear Hu. induction Hp as [|x y z Hxy _ IH]; [done|]. apply IH. by eapply order_closed. }
  unfold held_back in Hh. destruct (get_txn_bind eff) as [bind|] eqn:Eb; [|done].
  specialize (Hclear (u, eff) (emitted_bind u eff bind Ho Hu Eb)). unfold held_back in Hclear. cbn [snd] in Hclear.
  rewrite Eb in Hclear. congruence.
Qed.

End Pass.

(** ** The retry loop *)

Variable (index : bytes -> list Tip) (subscribed : bytes -> bool) (waited : gset bytes -> bytes -> gset bytes).
Hypothesis Hsub : forall k, subscribed k = true.
Hypothesis Hwait : forall h x, x ∈ h -> waited h x ⊆ h ∖ {[ x ]}.

(** What a waiting read that stopped with [horizon] still pending has seen. *)
Record clear_read (horizon : gset bytes) (d : dag) (lost : gset bytes) (result : option ReducedEffect) : Prop := {
  cr_clear : forall te, te ∈ emitted txID d -> held_back (holds horizon) te.2 = false;
  cr_lost : exists v w, atomically_lost store index subscribed (holds horizon) key = Done (v, lost, w);
  cr_result : exists seen rs, seen `sublist_of` emitted txID d
    /\ (forall te, te ∈ seen <-> te ∈ emitted txID d /\ (is_Some (get_txn_bind te.2) -> e_txn_id te.2 ∉ lost))
    /\ replay_plain store key seen replay_start = Complete rs /\ result = final rs;
}.

Lemma pass_clear d horizon lost rs :
  prepare store key tips = Done d ->
  (forall te, te ∈ emitted txID d -> held_back (holds horizon) te.2 = false) ->
  replay (replay_effect store key (holds horizon) false (dependsOnInvisible key (holds horizon) d) lost) (emitted txID d) replay_start
    = Complete rs ->
  exists seen rs', seen `sublist_of` emitted txID d
    /\ (forall te, te ∈ seen <-> te ∈ emitted txID d /\ (is_Some (get_txn_bind te.2) -> e_txn_id te.2 ∉ lost))
    /\ replay_plain store key seen replay_start = Complete rs' /\ finish_replay rs = final rs'.
Proof.
  intros Hp Hc Er. set (marked := dependsOnInvisible key (holds horizon) d) in *.
  exists (filter (fun te => passes (holds horizon) marked lost te = true) (emitted txID d)).
  pose proof (replay_agrees store key (holds horizon) marked lost (emitted txID d) replay_start replay_start ltac:(by split_and!)) as H.
  rewrite Er in H. set (rb := replay_plain store key _ replay_start) in *. destruct rb as [b| |]; [|done..].
  destruct H as [Hs Hn]. exists b. split_and!; [apply sublist_filter| |done|].
  - intros te. rewrite list_elem_of_filter. unfold passes. destruct (get_txn_bind te.2) as [bind|] eqn:Eb.
    + rewrite !andb_true_iff, !negb_true_iff, !bool_decide_eq_false. split.
      * intros [(_ & Hl) He]. split; [done|]. by intros _.
      * intros [He Hl]. split; [|done]. split_and!; [|apply (nothing_marked d (holds horizon) Hp Hc)|apply Hl; eauto].
        specialize (Hc te He). unfold held_back in Hc. by rewrite Eb in Hc.
    + split; [intros [_ ?]; split; [done|by intros [? ?]]|]. by intros [? _].
  - rewrite <- (same_final rs b Hs). unfold finish_replay, final. destruct (Nat.eqb_spec (rs_count rs) 0) as [Hz|]; [|done].
    rewrite Hn in Hz. destruct (emitted txID d); [|simpl in Hz; lia]. by injection Er as <-.
Qed.

(** A pass either has nothing held back, or names a transaction that is. *)
Lemma pass_total d horizon lost v w :
  prepare store key tips = Done d -> atomically_lost store index subscribed (holds horizon) key = Done (v, lost, w) ->
  match reconstruct_pass store key txID tips true (holds horizon) lost with
  | Complete (result, _, d') => d' = d /\ clear_read horizon d lost result
  | Retry x => x ∈ horizon
  | Failed => False
  end.
Proof.
  intros Hd Hl. unfold reconstruct_pass. rewrite Hd. set (marked := dependsOnInvisible key (holds horizon) d).
  assert (forall te, te ∈ emitted txID d -> exists t, store !! t = Some te.2) as Hst.
  { intros te [_ Hn]%emitted_order. destruct (prepared_order store key tips d rank Hd Hrank Hnull) as (_ & _ & _ & Hst).
    exists te.1. by eapply lookup_weaken. }
  pose proof (replay_wait (holds horizon) marked lost (emitted txID d) replay_start Hst) as H.
  destruct (replay _ (emitted txID d) replay_start) as [rs|x|]; [| |done].
  - destruct H as [Hclear Ef]. split; [done|]. destruct (pass_clear d horizon lost rs Hd Hclear Ef) as (seen & rs' & ? & ? & ? & ?).
    split; [done|eauto|]. by exists seen, rs'.
  - destruct H as (te & _ & Hh & ->). unfold held_back in Hh. destruct (get_txn_bind te.2); [|done]. by apply bool_decide_eq_true in Hh.
Qed.

Lemma loop_total fuel horizon :
  (size horizon <= fuel)%nat ->
  exists d h lost result walked,
    reconstruct_loop store key txID index subscribed waited fuel tips true horizon = Done (result, walked, d)
    /\ prepare store key tips = Done d /\ h ⊆ horizon /\ clear_read h d lost result.
Proof.
  destruct prepare_total as [d Hd].
  revert horizon. induction fuel as [|fuel IH]; intros horizon Hf; cbn [reconstruct_loop];
    destruct (closure_total store index subscribed Hsub key) as (b & v & Ec);
    destruct (atomically_lost_spec store index subscribed (holds horizon) Hsub key b v Ec) as (lost & w & El & _);
    rewrite El; pose proof (pass_total d horizon lost v w Hd El) as H;
    destruct (reconstruct_pass store key txID tips true (holds horizon) lost) as [[[result count] d']|x|]; try done.
  1,3: destruct H as [-> Hcr]; exists d, horizon, lost, result; eexists; split_and!; [reflexivity|exact Hd|done|exact Hcr].
  - assert (size horizon <> 0%nat) by (intros ?%size_empty_inv; set_solver). lia.
  - specialize (Hwait horizon x H).
    assert (size (waited horizon x) < size horizon)%nat.
    { apply (Nat.le_lt_trans _ (size (horizon ∖ {[ x ]}))); [by apply subseteq_size|].
      apply subset_size. split; [set_solver|]. intros Hsub'. set_solver. }
    destruct (IH (waited horizon x) ltac:(lia)) as (d' & h & lost' & result & walked & -> & Hd' & Hh' & Hcr).
    exists d', h, lost', result, walked. split_and!; [done..|set_solver|done].
Qed.

End Waiting.

(** [C12] A waiting read returns, and misses nothing.  On a complete history, and
    as long as each wait ends with the awaited transaction resolved and no new
    one held back, a read that waits for the horizon returns after finitely many
    rounds.  At that point no bind of the history it walked is held back, and
    the state it returns is the replay, in causal order, of everything except
    the binds that lost. *)
Theorem waiting_read_returns `{!SortFunc, !Codec} (store : Store) (key txID : bytes) (tips : list Tip) (rank : Tip -> nat)
    (index : bytes -> list Tip) (subscribed : bytes -> bool) (waited : gset bytes -> bytes -> gset bytes) (horizon : gset bytes) :
  complete store -> (forall t, t ∈ tips -> is_Some (store !! t)) -> ranked store rank -> store !! zero_tip = None ->
  (forall k, subscribed k = true) -> (forall h x, x ∈ h -> waited h x ⊆ h ∖ {[ x ]}) ->
  exists result walked pruned d h lost,
    reconstruct store key txID index subscribed waited tips true horizon = Done (result, walked, pruned)
    /\ prepare store key tips = Done d /\ h ⊆ horizon /\ clear_read store key txID index subscribed h d lost result.
Proof.
  intros Hc Ht Hr Hz Hs Hw.
  destruct (loop_total store key txID tips rank Hc Ht Hr Hz index subscribed waited Hs Hw (S (size horizon)) horizon ltac:(lia))
    as (d & h & lost & result & walked & E & Hd & Hh & Hcr).
  unfold reconstruct. rewrite E. cbn [mbind walk_bind]. do 2 eexists. eexists. exists d, h, lost. done.
Qed.

(** * What a read leaves behind and shows

    Pruning stale tips never cuts history off; filtering shows exactly what has
    not expired. *)


(** ** Stale tips *)

(** One step into the past, on any key. *)
Definition past (store : Store) (x y : Tip) : Prop := exists eff, store !! x = Some eff /\ y ∈ allDeps eff.

Lemma has_child_spec d t : has_child d t = true <-> exists u eff, d_nodes d !! u = Some eff /\ t ∈ e_deps eff.
Proof.
  unfold has_child. rewrite existsb_exists. split.
  - intros ([u eff] & Hu & Ht%bool_decide_eq_true). apply list_elem_of_In, elem_of_map_to_list in Hu. eauto.
  - intros (u & eff & Hu & Ht). exists (u, eff). split; [by apply list_elem_of_In, elem_of_map_to_list|by apply bool_decide_eq_true].
Qed.

Lemma stale_spec (index : bytes -> list Tip) key d tips t :
  t ∈ stale_tips key index d tips -> t ∈ tips /\ exists u eff, d_nodes d !! u = Some eff /\ t ∈ e_deps eff.
Proof.
  unfold stale_tips. destruct (_ <=? _)%nat; [by intros ?%elem_of_nil|]. destruct (existsb _ _); [|by intros ?%elem_of_nil].
  rewrite list_elem_of_filter. intros [[_ H%has_child_spec]%andb_true_iff ?]. done.
Qed.

Lemma nodes_reach `{!SortFunc} store key tips d u :
  prepare store key tips = Done d -> is_Some (d_nodes d !! u) -> d_nodes d ⊆ store /\ exists s, s ∈ tips /\ rtc (past store) s u.
Proof.
  intros (nodes & lca & E & _ & -> & _)%prepare_inv Hu. pose proof (bfs_spec store key tips) as Hs. rewrite E in Hs.
  destruct Hs as [He _]. pose proof (trimmed_nodes store key tips nodes lca He) as Hsub.
  split; [etrans; [exact Hsub|apply He]|].
  destruct (exp_reach _ _ _ _ _ He u) as (s & Hs & Hp); [destruct Hu as [e Hu]; exists e; by eapply lookup_weaken|].
  exists s. split; [done|]. eapply rtc_subrel; [|exact Hp]. intros x y (eff & Hx & Hy). exists eff. split; [done|].
  by eapply keyDeps_allDeps.
Qed.

Lemma max_rank (rank : Tip -> nat) (tips : list Tip) : exists n, forall t, t ∈ tips -> (rank t <= n)%nat.
Proof.
  induction tips as [|x tips [n IH]]; [exists 0%nat; by intros t ?%elem_of_nil|].
  exists (Nat.max (rank x) n). intros t [->|H%IH]%elem_of_cons; lia.
Qed.

(** Pruning loses no history.  The tips a read removes from the index are
    input tips that some collected effect depends on; each of them is an
    ancestor of an input tip that is kept; and they are removed only if a tip
    that nothing collected depends on is in the index, and that one is kept. *)
Theorem pruning_loses_nothing `{!SortFunc} (store : Store) (key : bytes) (index : bytes -> list Tip) (tips : list Tip) (d : dag)
    (rank : Tip -> nat) :
  prepare store key tips = Done d -> ranked store rank ->
  (forall t, t ∈ stale_tips key index d tips ->
     exists s, s ∈ tips /\ (s ∉ stale_tips key index d tips) /\ rtc (past store) s t)
  /\ (stale_tips key index d tips <> [] -> exists s, s ∈ tips /\ s ∈ index key /\ (s ∉ stale_tips key index d tips)).
Proof.
  intros Hp Hr. split.
  - destruct (max_rank rank tips) as [n Hn]. intros t Ht.
    assert (exists m, (n - rank t <= m)%nat) as [m Hm] by eauto. revert t Ht Hm.
    induction m as [|m IH]; intros t Ht Hm; destruct (stale_spec index key d tips t Ht) as (Htt & u & eff & Hu & Hd);
      destruct (nodes_reach store key tips d u Hp ltac:(eauto)) as (Hsub & s & Hs & Hsu);
      assert (past store u t) as Hut by (exists eff; split; [by eapply lookup_weaken|unfold allDeps; apply elem_of_app; by left]);
      assert (forall x y, past store x y -> (rank y < rank x)%nat) as Hrk by (intros x y (e & ? & ?); by eapply Hr);
      pose proof (Hrk _ _ Hut); pose proof (ranked_rtc _ _ _ _ Hrk Hsu); pose proof (Hn s Hs).
    + lia.
    + destruct (decide (s ∈ stale_tips key index d tips)) as [Hss|Hss].
      * destruct (IH s Hss ltac:(lia)) as (s' & ? & ? & Hp'). exists s'. split_and!; [done..|].
        etrans; [exact Hp'|]. by eapply rtc_r.
      * exists s. split_and!; [done..|]. by eapply rtc_r.
  - unfold stale_tips. destruct (_ <=? _)%nat; [done|]. destruct (existsb _ tips) eqn:E; [|done]. intros _.
    apply existsb_exists in E as (s & Hs & [[_ Hc%negb_true_iff]%andb_true_iff Hi%bool_decide_eq_true]%andb_true_iff).
    exists s. split_and!; [by apply list_elem_of_In|done|]. rewrite list_elem_of_filter. intros [[_ ?]%andb_true_iff _]. congruence.
Qed.

(** ** Expiry *)

Lemma drop_expired_spec now r :
  let r' := drop_expired now r in
  (forall k e, r_net_adds (red_root r') !! k = Some e <->
     r_net_adds (red_root r) !! k = Some e /\ expired now (re_expires_at e) = false)
  /\ r_expires_at (red_root r') = r_expires_at (red_root r) /\ r_type_tag (red_root r') = r_type_tag (red_root r)
  /\ r_ordered (red_root r') = r_ordered (red_root r) /\ r_collection (red_root r') = r_collection (red_root r)
  /\ r_net_removes (red_root r') = r_net_removes (red_root r).
Proof.
  cbv zeta. unfold drop_expired. case_bool_decide as Hall.
  - split_and!; [|done..]. intros k e. split; [|by intros []]. intros He. split; [done|]. by apply (Hall k).
  - cbn. split_and!; [|done..]. intros k e. by rewrite map_lookup_filter_Some.
Qed.

Lemma drop_expired_id now r :
  (forall k e, r_net_adds (red_root r) !! k = Some e -> expired now (re_expires_at e) = false) -> drop_expired now r = r.
Proof. intros H. unfold drop_expired. rewrite bool_decide_eq_true_2; [done|]. intros k e He. by eapply H. Qed.

(** Filtering shows exactly what has not expired.  A key past its TTL is
    gone.  Otherwise a keyed collection keeps precisely its unexpired elements,
    lists and tombstones are untouched, a collection that has become empty is
    gone unless it is a JSON value (or an empty stream), and filtering what was
    shown again at the same instant changes nothing. *)
Theorem filter_exact (r : ReducedEffect) (now : Z) :
  match filterSnapshotAt (Some r) now with
  | None => expired now (r_expires_at (red_root r)) = true
      \/ isJSONType (r_type_tag (red_root r)) = false /\ is_absent (red_root (drop_expired now r)) = true
  | Some r' => expired now (r_expires_at (red_root r)) = false
      /\ filterSnapshotAt (Some r') now = Some r'
      /\ r_ordered (red_root r') = r_ordered (red_root r) /\ r_net_removes (red_root r') = r_net_removes (red_root r)
      /\ (isJSONType (r_type_tag (red_root r)) = true -> r' = r)
      /\ (isJSONType (r_type_tag (red_root r)) = false ->
            is_absent (red_root r') = false
            /\ forall k e, r_net_adds (red_root r') !! k = Some e <->
                 r_net_adds (red_root r) !! k = Some e /\ expired now (re_expires_at e) = false)
  end.
Proof.
  unfold filterSnapshotAt. destruct (expired now (r_expires_at (red_root r))) eqn:Ex; [by left|].
  destruct (isJSONType (r_type_tag (red_root r))) eqn:Ej; [by rewrite Ex, Ej|].
  destruct (drop_expired_spec now r) as (Hadds & Hexp & Htag & Hord & _ & Hrem).
  destruct (is_absent (red_root (drop_expired now r))) eqn:Ea; [by right|].
  split; [done|]. split_and!; [|done|done|done|done].
  rewrite Hexp, Htag, Ex, Ej. rewrite (drop_expired_id now (drop_expired now r)); [by rewrite Ea|].
  intros k e [_ ?]%Hadds. done.
Qed.
