(* ===== verification/ReconstructWitness.v ===== *)
(** * A read across two keys

    Transaction [a] writes the keys [k] and [m]; transaction [b] competes for
    [k] from the same base and has the lower hash.  The theorems about reads are
    applied to this history. *)

From S2P Require Import Prelude Golib Proto Store Walk Dag DagProps DagOrder Reduce ForkChoice Losers LosersProps Closure ClosureProps Reconstruct ReconstructProps ReconstructWait.

#[local] Existing Instance null_codec.
#[local] Existing Instance insertion_sorter.

Definition r_k : bytes := [x6b].
Definition r_m : bytes := [x6d].
Definition r_a : bytes := [x61].
Definition r_b : bytes := [x62].

Definition r_write (key txn : bytes) (deps : list Tip) (v : Z) : Effect :=
  mkEffect key (Some (mkTimestamp v 0)) 1 deps txn [z2b v] []
    (Some (KData (mkData INSERT_OP LAST_WRITE_WINS SCALAR PLACE_NONE [] [] (Some (IntVal v))))).

Definition r_bind (txn : bytes) (hash : byte) (keys : list KeyBind) : Effect :=
  mkEffect [] (Some (mkTimestamp 9 0)) 1 [] txn [hash] [] (Some (KTxnBind (mkBind keys (Some (mkTimestamp 9 0)) 1 []))).

Definition r_kb_k : KeyBind := mkKeyBind r_k [(1, 1)] (1, 3).
Definition r_kb_m : KeyBind := mkKeyBind r_m [(1, 2)] (1, 4).
Definition r_bind_a : Effect := r_bind r_a x05 [r_kb_k; r_kb_m].
Definition r_bind_b : Effect := r_bind r_b x01 [mkKeyBind r_k [(1, 1)] (2, 3)].

Definition r_list : list (Tip * Effect) := [
  ((1, 1), r_write r_k [] [] 1); ((1, 2), r_write r_m [] [] 2);
  ((1, 3), r_write r_k r_a [(1, 1)] 3); ((1, 4), r_write r_m r_a [(1, 2)] 4); ((1, 5), r_bind_a);
  ((2, 3), r_write r_k r_b [(1, 1)] 6); ((2, 5), r_bind_b) ].

Definition r_store : Store := list_to_map r_list.
Definition r_index (k : bytes) : list Tip := if bool_decide (k = r_k) then [(1, 5); (2, 5)] else if bool_decide (k = r_m) then [(1, 5)] else [].
Definition r_rank (t : Tip) : nat := Z.to_nat t.2.
Definition r_subscribed (k : bytes) : bool := true.

(** A property of every effect of the history, checked one by one. *)
Lemma r_forall (P : Tip -> Effect -> bool) :
  forallb (fun p => P p.1 p.2) r_list = true -> forall t eff, r_store !! t = Some eff -> P t eff = true.
Proof.
  intros H t eff Ht. apply elem_of_list_to_map_2 in Ht. rewrite forallb_forall in H. apply (H (t, eff)). by apply list_elem_of_In.
Qed.

Lemma r_ranked : ranked r_store r_rank.
Proof.
  intros t eff x Ht Hx.
  pose proof (r_forall (fun t eff => forallb (fun x => (r_rank x <? r_rank t)%nat) (allDeps eff)) eq_refl t eff Ht) as H.
  rewrite forallb_forall in H. apply Nat.ltb_lt, H. by apply list_elem_of_In.
Qed.

Lemma r_complete : complete r_store.
Proof.
  intros t eff x Ht Hx.
  pose proof (r_forall (fun t eff => forallb (fun x => bool_decide (is_Some (r_store !! x))) (allDeps eff)) eq_refl t eff Ht) as H.
  rewrite forallb_forall in H. eapply bool_decide_eq_true, H. by apply list_elem_of_In.
Qed.

Lemma r_agree : verdicts_agree r_store.
Proof.
  intros u u' x v v' (eff & snap & Hu & Hs & _).
  pose proof (r_forall (fun _ eff => match get_snapshot eff with Some _ => false | None => true end) eq_refl u eff Hu) as H.
  cbn beta in H. rewrite Hs in H. discriminate.
Qed.

Lemma r_reach k t : t ∈ r_index k -> scan_reach r_store k (r_index k) t.
Proof. intros H. exists t. split; [exact H|apply rtc_refl]. Qed.

(** [a] is lost for a read of either key. *)
Example r_lost_k : (fun '(_, lost, _) => elements lost) <$> match atomically_lost r_store r_index r_subscribed (fun _ => false) r_k with
  Done x => Some x | _ => None end = Some [r_a].
Proof. vm_compute. reflexivity. Qed.

Lemma transactions_atomic_witness :
  exists v1 v2 lost w1 w2,
    atomically_lost r_store r_index r_subscribed (fun _ => false) r_k = Done (v1, lost, w1)
    /\ atomically_lost r_store r_index r_subscribed (fun _ => false) r_m = Done (v2, lost, w2).
Proof.
  apply (transactions_atomic r_store r_index r_subscribed (fun _ => false) (1, 5) r_bind_a r_kb_k r_kb_m).
  - reflexivity.
  - apply r_agree.
  - reflexivity.
  - left.
  - right. left.
  - apply r_reach. vm_compute. left.
  - apply r_reach. vm_compute. left.
Defined.

Lemma bind_batch_exact_witness :
  collectBindEffects r_store r_bind_a r_k = Done [r_write r_k r_a [(1, 1)] 3]
  /\ exists ts, Forall2 (own r_store r_a) ts [r_write r_k r_a [(1, 1)] 3]
       /\ forall t, t ∈ ts <-> written r_store r_k r_a r_kb_k t.
Proof.
  pose proof (bind_batch_exact r_store r_k r_bind_a r_kb_k r_rank eq_refl ltac:(discriminate) r_ranked) as H.
  assert (collectBindEffects r_store r_bind_a r_k = Done [r_write r_k r_a [(1, 1)] 3]) as E by (vm_compute; reflexivity).
  split; [exact E|]. rewrite E in H. destruct H as (ts & _ & H1 & H2 & _). exists ts. split; [exact H1|exact H2].
Defined.

Definition r_tips : list Tip := [(1, 5); (2, 5)].
Definition r_dag : dag := match prepare r_store r_k r_tips with Done d => d | _ => mkDag ∅ zero_tip [] end.
Definition r_hidden (txn : bytes) : bool := bool_decide (txn = r_b).
Definition r_read : option ReducedEffect :=
  match reconstruct_pass r_store r_k [] r_tips false r_hidden ∅ with Complete (result, _, _) => result | _ => None end.

(** While [b] is held back a read shows what [a] wrote. *)
Example r_read_value : (fun r => d_value <$> r_scalar (red_root r)) <$> r_read = Some (Some (Some (IntVal 3))).
Proof. vm_compute. reflexivity. Qed.

Lemma r_prepared : prepare r_store r_k r_tips = Done r_dag.
Proof. vm_compute. reflexivity. Qed.

Lemma read_replays_honoured_witness :
  exists seen rs, (forall te, te ∈ seen <-> te ∈ emitted [] r_dag /\ honoured r_k r_hidden ∅ r_dag te)
    /\ replay_plain r_store r_k seen replay_start = Complete rs /\ r_read = final rs.
Proof.
  destruct (read_replays_honoured r_store r_k [] r_tips r_hidden ∅ r_dag r_rank r_prepared r_ranked eq_refl)
    as (seen & _ & Hseen & H).
  assert (exists n d, reconstruct_pass r_store r_k [] r_tips false r_hidden ∅ = Complete (r_read, n, d)) as (n & d & E).
  { do 2 eexists. vm_compute. reflexivity. }
  rewrite E in H. destruct H as (rs & H1 & H2). exists seen, rs. split; [exact Hseen|]. split; [exact H1|exact H2].
Defined.

Lemma waiting_read_returns_witness :
  exists result walked pruned d h lost,
    reconstruct r_store r_k [] r_index r_subscribed (fun h x => h ∖ {[ x ]}) r_tips true {[ r_b ]} = Done (result, walked, pruned)
    /\ prepare r_store r_k r_tips = Done d /\ h ⊆ {[ r_b ]}
    /\ clear_read r_store r_k [] r_index r_subscribed h d lost result.
Proof.
  apply (waiting_read_returns r_store r_k [] r_tips r_rank r_index r_subscribed (fun h x => h ∖ {[ x ]}) {[ r_b ]}).
  - apply r_complete.
  - intros t Ht. apply elem_of_cons in Ht as [->|Ht]; [eexists; vm_compute; reflexivity|].
    apply list_elem_of_singleton in Ht as ->. eexists. vm_compute. reflexivity.
  - apply r_ranked.
  - reflexivity.
  - reflexivity.
  - intros h x _. reflexivity.
Defined.

(** The tip [(1, 1)] is an ancestor of [(1, 3)]. *)
Definition p_tips : list Tip := [(1, 1); (1, 3)].
Definition p_index (k : bytes) : list Tip := p_tips.
Definition p_dag : dag := match prepare r_store r_k p_tips with Done d => d | _ => mkDag ∅ zero_tip [] end.

Lemma pruning_loses_nothing_witness :
  exists s, s ∈ p_tips /\ (s ∉ stale_tips r_k p_index p_dag p_tips) /\ rtc (past r_store) s (1, 1).
Proof.
  refine (proj1 (pruning_loses_nothing r_store r_k p_index p_tips p_dag r_rank _ r_ranked) (1, 1) _).
  - vm_compute. reflexivity.
  - vm_compute. left.
Defined.
