(* ===== verification/TipSet.v ===== *)
(** * Tip sets (keytrie/types.go)

    A [*TipSet] is a pointer to a set that never changes after it is built: its
    address, which is what a compare-and-swap looks at, and its contents.  A nil
    pointer is [None]. *)

From S2P Require Import Prelude.

Record TipSet := mkTipSet { ts_addr : Z; ts_tips : list Tip }.

#[global] Instance TipSet_eq_dec : EqDecision TipSet.
Proof. solve_decision. Defined.

(** Deduplication by scanning what is kept so far, for short lists. *)
Definition dedup_scan (refs : list Tip) : list Tip :=
  fold_left (fun deduped r => if bool_decide (r ∈ deduped) then deduped else deduped ++ [r]) refs [].

(** Deduplication with a map of what was seen. *)
Definition dedup_map (refs : list Tip) : list Tip :=
  (fold_left (fun (st : gset Tip * list Tip) r =>
     if bool_decide (r ∈ st.1) then st else ({[ r ]} ∪ st.1, st.2 ++ [r])) refs (∅, [])).2.

Definition smallTipSetDedup : nat := 8.

(** The set allocated at [addr]. *)
Definition NewTipSet (addr : Z) (refs : list Tip) : TipSet :=
  match refs with
  | [] => mkTipSet addr []
  | _ => mkTipSet addr (if (smallTipSetDedup <? length refs)%nat then dedup_map refs else dedup_scan refs)
  end.

Definition Tips (ts : option TipSet) : list Tip := match ts with Some s => ts_tips s | None => [] end.

Definition TipSet_Len (ts : option TipSet) : nat := length (Tips ts).

Definition TipSet_Contains (ts : option TipSet) (ref : Tip) : bool := bool_decide (ref ∈ Tips ts).

Definition TipSet_Single (ts : option TipSet) : option Tip :=
  match Tips ts with [t] => Some t | _ => None end.

Definition TipSet_ContainsAll (ts : option TipSet) (refs : list Tip) : bool :=
  forallb (TipSet_Contains ts) refs.

Definition tipDifference (refs excluded : list Tip) : list Tip :=
  match excluded with
  | [] => refs
  | _ =>
      let remaining := length (filter (fun ref => ref ∉ excluded) refs) in
      if (remaining =? 0)%nat then []
      else if (remaining =? length refs)%nat then refs
      else filter (fun ref => ref ∉ excluded) refs
  end.

(** ** Facts *)

Lemma dedup_scan_spec (refs : list Tip) : NoDup (dedup_scan refs) /\ forall t, t ∈ dedup_scan refs <-> t ∈ refs.
Proof.
  unfold dedup_scan.
  assert (forall acc, NoDup acc -> let l := fold_left (fun deduped r => if bool_decide (r ∈ deduped) then deduped else deduped ++ [r]) refs acc in
    NoDup l /\ forall t, t ∈ l <-> t ∈ acc ++ refs) as H; [|apply (H []); constructor].
  induction refs as [|r refs IH]; intros acc Hacc; cbn [fold_left]; [by rewrite app_nil_r|].
  case_bool_decide as Hr.
  - destruct (IH acc Hacc) as [H1 H2]. split; [done|]. intros t. rewrite H2. set_solver.
  - destruct (IH (acc ++ [r])) as [H1 H2].
    { apply list.NoDup_app. split_and!; [done| |by apply list.NoDup_singleton]. set_solver. }
    split; [done|]. intros t. rewrite H2. set_solver.
Qed.

(** The two ways of removing duplicates agree. *)
Lemma dedup_map_scan (refs : list Tip) : dedup_map refs = dedup_scan refs.
Proof.
  unfold dedup_map, dedup_scan.
  assert (forall (s : gset Tip) l, (forall t, t ∈ s <-> t ∈ l) ->
    (fold_left (fun (st : gset Tip * list Tip) r =>
       if bool_decide (r ∈ st.1) then st else ({[ r ]} ∪ st.1, st.2 ++ [r])) refs (s, l)).2 =
    fold_left (fun deduped r => if bool_decide (r ∈ deduped) then deduped else deduped ++ [r]) refs l) as H.
  { induction refs as [|r refs IH]; intros s l Hsl; cbn [fold_left]; [done|].
    cbn [fst snd]. rewrite (bool_decide_ext (r ∈ s) (r ∈ l)) by apply Hsl.
    case_bool_decide; apply IH; set_solver. }
  apply H. set_solver.
Qed.

Lemma NewTipSet_tips addr refs : ts_tips (NewTipSet addr refs) = dedup_scan refs.
Proof. destruct refs as [|r refs]; [done|]. unfold NewTipSet. cbn [ts_tips]. case_match; [apply dedup_map_scan|done]. Qed.

Lemma elem_of_NewTipSet addr refs t : t ∈ ts_tips (NewTipSet addr refs) <-> t ∈ refs.
Proof. rewrite NewTipSet_tips. apply dedup_scan_spec. Qed.

Lemma NoDup_NewTipSet addr refs : NoDup (ts_tips (NewTipSet addr refs)).
Proof. rewrite NewTipSet_tips. apply dedup_scan_spec. Qed.

Lemma filter_full {A} (P : A -> Prop) `{!forall x, Decision (P x)} (l : list A) :
  (length l <= length (filter P l))%nat -> filter P l = l.
Proof.
  induction l as [|x l IH]; [done|]. rewrite filter_cons. case_decide; cbn [length]; intros Hl.
  - f_equal. apply IH. lia.
  - pose proof (list.length_filter P l). lia.
Qed.

Lemma tipDifference_spec refs excluded : tipDifference refs excluded = filter (fun ref => ref ∉ excluded) refs.
Proof.
  unfold tipDifference. destruct excluded as [|e excluded].
  - induction refs as [|r refs IH]; [done|]. rewrite filter_cons, decide_True by set_solver. by f_equal.
  - case_match eqn:E1; [apply Nat.eqb_eq in E1; by destruct (filter _ refs)|].
    case_match eqn:E2; [|done]. apply Nat.eqb_eq in E2. symmetry. apply filter_full. lia.
Qed.

#[export] Hint Rewrite NewTipSet_tips tipDifference_spec : swytch_rw.
