(* ===== verification/Critbit.v ===== *)
(** * The key index (keytrie)

    A crit-bit trie from keys to tip sets.  A leaf that is deleted or evicted
    stays linked until the reaper unlinks it; an evicted leaf may stay as a
    ghost that remembers how often the key was used (a negative frequency).

    Every operation is written as it runs without interference: reads and
    inserts hold the structural read lock, deletion, eviction and reaping the
    write lock.  The one thing a lost race adds is a retry, which [Insert]
    returns as [InsertRetry]; the theorems show that it does not arise without
    a race.  Nodes have no address here: a leaf is identified by its key, and a
    pointer to a leaf is the path its key takes.  Left out are the arena the
    nodes are allocated from, the accounting of its bytes, and the recency and
    hit counters that only choose which leaf to evict: that choice is an
    argument of [EvictBatch].  A position in a key is [uint32] in the code; keys
    are taken to be shorter than 4 GiB. *)

From S2P Require Import Prelude Golib TipSet.

(** ** Critical bits *)

Definition w8 (z : Z) : Z := z mod 256.

Definition highestBit (b : Z) : Z :=
  if b =? 0 then 0
  else
    let b := Z.lor b (Z.shiftr b 1) in
    let b := Z.lor b (Z.shiftr b 2) in
    let b := Z.lor b (Z.shiftr b 4) in
    Z.lxor b (Z.shiftr b 1).

(** The first position at which two keys of at least this length differ. *)
Fixpoint first_diff (a b : bytes) (i : nat) : option (nat * Z) :=
  match a, b with
  | x :: a', y :: b' =>
      if bool_decide (x = y) then first_diff a' b' (S i)
      else Some (i, Z.lxor (highestBit (Z.lxor (b2z x) (b2z y))) 255)
  | _, _ => None
  end.

Definition byte_at (s : bytes) (i : nat) : Z := b2z (nth i s x00).

Definition findCritBit (a b : bytes) : nat * Z :=
  let minLen := Nat.min (length b) (length a) in
  match first_diff a b 0 with
  | Some pb => pb
  | None =>
      if negb (length a =? length b)%nat then
        let longer := if (length a <? length b)%nat then b else a in
        (minLen, Z.lxor (highestBit (byte_at longer minLen)) 255)
      else (0%nat, 0)
  end.

(** [true] is the right child. *)
Definition getDirection (key : bytes) (bytePos : nat) (otherbits : Z) : bool :=
  match key !! bytePos with
  | None => false
  | Some c => negb (Z.shiftr (1 + Z.lor otherbits (b2z c)) 8 =? 0)
  end.

Definition shouldInsertBefore (newBytePos : nat) (newOtherbits : Z) (curBytePos : nat) (curOtherbits : Z) : bool :=
  (newBytePos <? curBytePos)%nat || ((newBytePos =? curBytePos)%nat && (newOtherbits <? curOtherbits)).

(** ** Nodes *)

Section Critbit.
Context {T : Type}.

Record leafNode := mkLeaf {
  l_key : bytes;
  l_tips : option TipSet;
  l_deleted : bool;
  l_freq : Z;
  l_pinned : bool;
  l_pins : Z;
  l_data : option T;
  l_lastDecayEpoch : Z;
}.

Inductive critNode :=
  | Leaf (l : leafNode)
  | Node (bytePos : nat) (otherbits : Z) (c0 c1 : critNode).

Record Critbit := mkCritbit {
  c_root : option critNode;
  c_size : Z;
  c_closed : bool;
  c_deletedCount : Z;
  c_ghostCount : Z;
  c_decayEpochN : Z;
  c_evictK : Z;
  c_evictActive : bool;
}.

(** [evictDecider], when installed: [false] pins the key. *)
Variable evictDecider : option (bytes -> bool).

Definition NewCritbit : Critbit := mkCritbit None 0 false 0 0 0 0 false.

Definition set_root (root : option critNode) (c : Critbit) : Critbit :=
  mkCritbit root (c_size c) (c_closed c) (c_deletedCount c) (c_ghostCount c) (c_decayEpochN c) (c_evictK c) (c_evictActive c).

(** Add to the three counters. *)
Definition add_counts (size deleted ghost : Z) (c : Critbit) : Critbit :=
  mkCritbit (c_root c) (c_size c + size) (c_closed c) (c_deletedCount c + deleted) (c_ghostCount c + ghost)
    (c_decayEpochN c) (c_evictK c) (c_evictActive c).

Definition child (dir : bool) (c0 c1 : critNode) : critNode := if dir then c1 else c0.

Fixpoint find_best (node : critNode) (key : bytes) : leafNode :=
  match node with
  | Leaf l => l
  | Node p o c0 c1 => if getDirection key p o then find_best c1 key else find_best c0 key
  end.

Definition findBestMatch (node : option critNode) (key : bytes) : option leafNode :=
  (fun n => find_best n key) <$> node.

(** Writing to fields of the leaf on a key's path. *)
Fixpoint alter_best (f : leafNode -> leafNode) (node : critNode) (key : bytes) : critNode :=
  match node with
  | Leaf l => Leaf (f l)
  | Node p o c0 c1 =>
      if getDirection key p o then Node p o c0 (alter_best f c1 key) else Node p o (alter_best f c0 key) c1
  end.

Definition alter_leaf (f : leafNode -> leafNode) (key : bytes) (c : Critbit) : Critbit :=
  set_root ((fun n => alter_best f n key) <$> c_root c) c.

Definition liveLeaf (c : Critbit) (key : bytes) : option leafNode :=
  if c_closed c then None
  else match findBestMatch (c_root c) key with
       | Some l => if negb (bool_decide (l_key l = key)) || l_deleted l then None else Some l
       | None => None
       end.

(** ** Insertion *)

Definition allocLeafNode (c : Critbit) (key : bytes) (ts : option TipSet) : leafNode :=
  mkLeaf key ts true 1 (match evictDecider with Some d => negb (d key) | None => false end) 0 None (c_decayEpochN c).

Definition set_deleted (b : bool) (l : leafNode) : leafNode :=
  mkLeaf (l_key l) (l_tips l) b (l_freq l) (l_pinned l) (l_pins l) (l_data l) (l_lastDecayEpoch l).

Definition set_tips (ts : option TipSet) (l : leafNode) : leafNode :=
  mkLeaf (l_key l) ts (l_deleted l) (l_freq l) (l_pinned l) (l_pins l) (l_data l) (l_lastDecayEpoch l).

Definition set_freq (f : Z) (l : leafNode) : leafNode :=
  mkLeaf (l_key l) (l_tips l) (l_deleted l) f (l_pinned l) (l_pins l) (l_data l) (l_lastDecayEpoch l).

Definition set_data (d : option T) (l : leafNode) : leafNode :=
  mkLeaf (l_key l) (l_tips l) (l_deleted l) (l_freq l) (l_pinned l) (l_pins l) d (l_lastDecayEpoch l).

Definition set_pins (n : Z) (l : leafNode) : leafNode :=
  mkLeaf (l_key l) (l_tips l) (l_deleted l) (l_freq l) (l_pinned l) n (l_data l) (l_lastDecayEpoch l).

Definition set_epoch (n : Z) (l : leafNode) : leafNode :=
  mkLeaf (l_key l) (l_tips l) (l_deleted l) (l_freq l) (l_pinned l) (l_pins l) (l_data l) n.

(** Place the new leaf at the link where its critical bit belongs; [None] where
    the code starts over. *)
Fixpoint link_leaf (key : bytes) (newLeaf : leafNode) (bytePos : nat) (otherbits : Z) (node : critNode) : option critNode :=
  let replacement :=
    if getDirection key bytePos otherbits then Node bytePos otherbits node (Leaf newLeaf)
    else Node bytePos otherbits (Leaf newLeaf) node in
  match node with
  | Leaf l => if bool_decide (findCritBit key (l_key l) = (bytePos, otherbits)) then Some replacement else None
  | Node p o c0 c1 =>
      if shouldInsertBefore p o bytePos otherbits then
        if getDirection key p o then Node p o c0 <$> link_leaf key newLeaf bytePos otherbits c1
        else (fun c0' => Node p o c0' c1) <$> link_leaf key newLeaf bytePos otherbits c0
      else if shouldInsertBefore bytePos otherbits p o then Some replacement
      else None
  end.

Definition maxLeafFreq : Z := 15.

(** The frequency, ghost count and decay epoch of a leaf that comes back. *)
Definition promoteIfGhost (l : leafNode) (c : Critbit) : Critbit :=
  if 0 <=? l_freq l then c
  else add_counts 0 0 (-1)
         (alter_leaf (fun l => set_epoch (c_decayEpochN c) (set_freq (Z.min (- l_freq l + 1) maxLeafFreq) l)) (l_key l) c).

(** The current tips of a conflicting insert, success, or a lost race. *)
Inductive insert_result := InsertOk | InsertConflict (tips : option TipSet) | InsertRetry.

Definition Insert (key : bytes) (old newTips : option TipSet) (c : Critbit) : Critbit * insert_result :=
  if c_closed c then (c, InsertConflict None)
  else
    match findBestMatch (c_root c) key with
    | None =>
        (add_counts 1 0 0 (set_root (Some (Leaf (set_deleted false (allocLeafNode c key newTips)))) c), InsertOk)
    | Some bestLeaf =>
        if bool_decide (l_key bestLeaf = key) then
          let current := l_tips bestLeaf in
          let old := match old with None => if l_deleted bestLeaf then current else None | Some _ => old end in
          if bool_decide (current = old) then
            let c := alter_leaf (set_tips newTips) key c in
            if l_deleted bestLeaf then
              let c := add_counts 1 0 0 (alter_leaf (set_deleted false) key c) in
              (if l_freq bestLeaf <? 0 then promoteIfGhost bestLeaf c else add_counts 0 (-1) 0 c, InsertOk)
            else (c, InsertOk)
          else (c, InsertConflict current)
        else
          let '(bytePos, otherbits) := findCritBit key (l_key bestLeaf) in
          match c_root c with
          | None => (c, InsertRetry)
          | Some root =>
              match link_leaf key (set_deleted false (allocLeafNode c key newTips)) bytePos otherbits root with
              | Some root' => (add_counts 1 0 0 (set_root (Some root') c), InsertOk)
              | None => (c, InsertRetry)
              end
          end
    end.

(** What [fireTipDelta] reports: tips added, tips removed, payload dropped. *)
Definition fireTipDelta (old newTips : option TipSet) (droppedData : option T) : option (list Tip * list Tip * option T) :=
  let same := bool_decide (old = newTips) in
  let added := if same then [] else tipDifference (Tips newTips) (Tips old) in
  let removed := if same then [] else tipDifference (Tips old) (Tips newTips) in
  match added, removed, droppedData with
  | [], [], None => None
  | _, _, _ => Some (added, removed, droppedData)
  end.

(** ** Reading and deleting *)

Definition Contains (c : Critbit) (key : bytes) : option TipSet := liveLeaf c key ≫= l_tips.

(** [addr] is the address of the new set, if one is allocated. *)
Definition RemoveTips (addr : Z) (key : bytes) (refs : list Tip) (c : Critbit) : Critbit :=
  match refs with
  | [] => c
  | _ =>
      match liveLeaf c key with
      | None => c
      | Some leaf =>
          match l_tips leaf with
          | None => c
          | Some current =>
              let kept := tipDifference (ts_tips current) refs in
              if (length kept =? length (ts_tips current))%nat then c
              else alter_leaf (set_tips (Some (mkTipSet addr kept))) key c
          end
      end
  end.

(** Detach the payload and account for a leaf that went dead. *)
Definition clearLeaf (key : bytes) (c : Critbit) : Critbit := add_counts (-1) 0 0 (alter_leaf (set_data None) key c).

Definition DeleteAndSnapshot (key : bytes) (old : option TipSet) (c : Critbit) : Critbit * option TipSet :=
  match liveLeaf c key with
  | None => (c, None)
  | Some leaf =>
      if bool_decide (l_tips leaf = old) then
        let c := alter_leaf (fun l => set_deleted true (set_tips None l)) key c in
        (add_counts 0 1 0 (clearLeaf key c), old)
      else (c, None)
  end.

Definition Delete (key : bytes) (old : option TipSet) (c : Critbit) : Critbit * bool :=
  let (c', prev) := DeleteAndSnapshot key old c in (c', match prev with Some _ => true | None => false end).

Definition Size (c : Critbit) : Z := if c_closed c then 0 else c_size c.

Definition Close (c : Critbit) : Critbit :=
  if c_closed c then c
  else mkCritbit None 0 true (c_deletedCount c) (c_ghostCount c) (c_decayEpochN c) (c_evictK c) (c_evictActive c).

(** ** Pins and payloads *)

Definition Pin (key : bytes) (c : Critbit) : Critbit * bool :=
  match liveLeaf c key with
  | None => (c, false)
  | Some leaf => (alter_leaf (fun l => set_pins (l_pins l + 1) l) key c, true)
  end.

(** [None] is the panic on an unpin without a pin. *)
Definition Unpin (key : bytes) (c : Critbit) : option (Critbit * bool) :=
  match liveLeaf c key with
  | None => Some (c, false)
  | Some leaf =>
      if l_pins leaf - 1 <? 0 then None
      else Some (alter_leaf (fun l => set_pins (l_pins l - 1) l) key c, true)
  end.

(** The part of an access that the leaf remembers. *)
Definition bumpAccess (key : bytes) (c : Critbit) : Critbit :=
  if negb (c_evictActive c) then c
  else alter_leaf (fun l => if (l_freq l <? 0) || (maxLeafFreq <=? l_freq l) then l else set_freq (l_freq l + 1) l) key c.

Definition LoadData (key : bytes) (c : Critbit) : Critbit * option T :=
  match liveLeaf c key with
  | None => (c, None)
  | Some leaf => (bumpAccess key c, l_data leaf)
  end.

(** The payload, and whether it was there before. *)
Definition LoadOrStoreData (key : bytes) (def : T) (c : Critbit) : Critbit * option T * bool :=
  match liveLeaf c key with
  | None => (c, None, false)
  | Some leaf =>
      let c := bumpAccess key c in
      match l_data leaf with
      | Some cur => (c, Some cur, true)
      | None => (alter_leaf (set_data (Some def)) key c, Some def, false)
      end
  end.

(** ** Reaping *)

Definition is_dead (n : critNode) : bool :=
  match n with Leaf l => l_deleted l && (0 <=? l_freq l) | Node _ _ _ _ => false end.

(** The parent of the leaf on a key's path gives way to the leaf's sibling. *)
Fixpoint prune_path (key : bytes) (node : critNode) : option critNode :=
  match node with
  | Leaf _ => None
  | Node p o c0 c1 =>
      if getDirection key p o then
        match prune_path key c1 with Some c1' => Some (Node p o c0 c1') | None => Some c0 end
      else
        match prune_path key c0 with Some c0' => Some (Node p o c0' c1) | None => Some c1 end
  end.

(** The dead leaf of this key, if it is still there. *)
Definition unlinkLeaf (key : bytes) (c : Critbit) : Critbit * bool :=
  match c_root c with
  | None => (c, false)
  | Some root =>
      let leaf := find_best root key in
      if bool_decide (l_key leaf = key) && is_dead (Leaf leaf)
      then (add_counts 0 (-1) 0 (set_root (prune_path key root) c), true)
      else (c, false)
  end.

(** Children first; at most one dead child of a node gives way to the other. *)
Fixpoint reap_node (node : critNode) : critNode * Z :=
  match node with
  | Leaf _ => (node, 0)
  | Node p o c0 c1 =>
      let (c0', n0) := reap_node c0 in
      let (c1', n1) := reap_node c1 in
      if is_dead c0' then (c1', n0 + n1 + 1)
      else if is_dead c1' then (c0', n0 + n1 + 1)
      else (Node p o c0' c1', n0 + n1)
  end.

Definition reap (c : Critbit) : Critbit * Z :=
  if c_closed c then (c, 0)
  else match c_root c with
       | None => (c, 0)
       | Some root =>
           let (root', n) := reap_node root in
           let c := add_counts 0 (- n) 0 (set_root (Some root') c) in
           match root' with
           | Leaf l => let (c', ok) := unlinkLeaf (l_key l) c in (c', if ok then n + 1 else n)
           | Node _ _ _ _ => (c, n)
           end
       end.

(** ** Eviction *)

Definition ghostCap (c : Critbit) : Z := Z.max (Z.quot (c_size c) 8) 16.

(** One [-1] step per epoch that passed, down to 1. *)
Definition decayLeaf (epoch : Z) (l : leafNode) : leafNode :=
  let last := l_lastDecayEpoch l in
  if epoch <=? last then l
  else
    let l := set_epoch epoch l in
    let f := l_freq l in
    if f <=? 1 then l else set_freq (f - Z.min (epoch - last) (f - 1)) l.

(** A live leaf nobody holds is marked deleted. *)
Definition claimForEviction (key : bytes) (c : Critbit) : Critbit * bool :=
  match liveLeaf c key with
  | None => (c, false)
  | Some leaf => if negb (l_pins leaf =? 0) then (c, false) else (alter_leaf (set_deleted true) key c, true)
  end.

Definition detachEvictedLeaf (key : bytes) (c : Critbit) : Critbit := clearLeaf key (alter_leaf (set_tips None) key c).

(** A ghost becomes an ordinary dead leaf. *)
Definition reclaimGhost (key : bytes) (c : Critbit) : Critbit * bool :=
  match findBestMatch (c_root c) key with
  | Some l =>
      if bool_decide (l_key l = key) && l_deleted l && (l_freq l <? 0)
      then (add_counts 0 1 (-1) (alter_leaf (set_freq 0) key c), true)
      else (c, false)
  | None => (c, false)
  end.

(** The sampled ghosts, oldest first; returns those not consumed. *)
Fixpoint reclaimOldestGhost (ghosts : list bytes) (c : Critbit) : Critbit * list bytes * bool :=
  match ghosts with
  | [] => (c, [], false)
  | g :: ghosts' =>
      let (c', ok) := reclaimGhost g c in
      if ok then (c', ghosts', true) else reclaimOldestGhost ghosts' c'
  end.

(** The keys whose tips and payload were released. *)
Fixpoint evict_cold (cold ghosts : list bytes) (c : Critbit) : Critbit * list bytes * list bytes :=
  match cold with
  | [] => (c, ghosts, [])
  | key :: cold' =>
      let (c, claimed) := claimForEviction key c in
      if negb claimed then evict_cold cold' ghosts c
      else
        let c := detachEvictedLeaf key c in
        let '(c, ghosts) :=
          if ghostCap c <=? c_ghostCount c then (reclaimOldestGhost ghosts c).1 else (c, ghosts) in
        let c :=
          if c_ghostCount c <? ghostCap c
          then add_counts 0 0 1 (alter_leaf (fun l => set_freq (- Z.max (l_freq l) 1) l) key c)
          else add_counts 0 1 0 c in
        let '(c, ghosts, victims) := evict_cold cold' ghosts c in (c, ghosts, key :: victims)
  end.

(** One batch over a sample: the cold leaves to take, the sampled ghosts and
    the least recently used live leaf.  Returns the victims, and whether a ghost
    was reclaimed instead. *)
Definition EvictBatch (cold ghosts : list bytes) (oldest : option bytes) (c : Critbit) : Critbit * list bytes * bool :=
  if c_closed c then (c, [], false)
  else
    let '(c, ghosts, victims) := evict_cold cold ghosts c in
    match victims with
    | _ :: _ => (c, victims, false)
    | [] =>
        let '(c, _, reclaimed) := reclaimOldestGhost ghosts c in
        if reclaimed then (c, [], true)
        else match oldest with
             | None => (c, [], false)
             | Some key =>
                 let (c, claimed) := claimForEviction key c in
                 if claimed then (add_counts 0 1 0 (detachEvictedLeaf key c), [key], false) else (c, [], false)
             end
    end.

(** ** Ordered traversal *)

Fixpoint findPrefixSubtree (node : critNode) (prefix : bytes) : critNode :=
  match node with
  | Leaf _ => node
  | Node p o c0 c1 =>
      if (length prefix <=? p)%nat then node
      else if getDirection prefix p o then findPrefixSubtree c1 prefix else findPrefixSubtree c0 prefix
  end.

Definition bytes_lt (a b : bytes) : bool := bytes_compare a b <? 0.

(** A leaf that a range delivers. *)
Definition in_range (prefix : bytes) (after : option bytes) (l : leafNode) : bool :=
  negb (l_deleted l) && (match after with Some a => bytes_lt a (l_key l) | None => true end) && has_prefix (l_key l) prefix.

Fixpoint node_count (n : critNode) : nat :=
  match n with Leaf _ => 1 | Node _ _ c0 c1 => S (node_count c0 + node_count c1) end.

Definition stack_count (stack : list critNode) : nat := sum_list_with node_count stack.

(** One batch: at most [n] keys; what is left on the stack. *)
Fixpoint range_batch (fuel n : nat) (prefix : bytes) (after : option bytes) (stack : list critNode) : list bytes * list critNode :=
  match fuel, stack with
  | O, _ | _, [] => ([], stack)
  | S fuel', node :: stack' =>
      match n with
      | O => ([], stack)
      | S n' =>
          match node with
          | Leaf l =>
              if in_range prefix after l
              then let (keys, rest) := range_batch fuel' n' prefix after stack' in (l_key l :: keys, rest)
              else range_batch fuel' n prefix after stack'
          | Node _ _ c0 c1 => range_batch fuel' n prefix after (c0 :: c1 :: stack')
          end
      end
  end.

Definition batch_size : nat := 64.

(** The callback over a batch: its state, whether it stopped, the last key. *)
Fixpoint deliver {S} (fn : S -> bytes -> S * bool) (keys : list bytes) (after : option bytes) (s : S) : S * bool * option bytes :=
  match keys with
  | [] => (s, true, after)
  | k :: keys' => let (s', go) := fn s k in if go then deliver fn keys' (Some k) s' else (s', false, Some k)
  end.

Fixpoint range_loop {S} (fuel : nat) (prefix : bytes) (after : option bytes) (fn : S -> bytes -> S * bool)
    (stack : list critNode) (s : S) : S :=
  match fuel with
  | O => s
  | Datatypes.S fuel' =>
      let (keys, rest) := range_batch (stack_count stack) batch_size prefix after stack in
      let '(s, go, after) := deliver fn keys after s in
      if negb go then s else match rest with [] => s | _ => range_loop fuel' prefix after fn rest s end
  end.

Definition rangeKeys {S} (prefix : bytes) (after : option bytes) (fn : S -> bytes -> S * bool) (c : Critbit) (s : S) : S :=
  if c_closed c then s
  else
    let stack := match c_root c with Some root => [findPrefixSubtree root prefix] | None => [] end in
    range_loop (Datatypes.S (stack_count stack)) prefix after fn stack s.

Definition Range {S} (fn : S -> bytes -> S * bool) (c : Critbit) (s : S) : S := rangeKeys [] None fn c s.

Definition RangeFrom {S} (after : bytes) (fn : S -> bytes -> S * bool) (c : Critbit) (s : S) : S :=
  rangeKeys [] (match after with [] => None | _ => Some after end) fn c s.

Definition RangePrefix {S} (prefix : bytes) (fn : S -> bytes -> S * bool) (c : Critbit) (s : S) : S :=
  rangeKeys prefix None fn c s.

Definition Keys (c : Critbit) : list bytes := Range (fun acc k => (acc ++ [k], true)) c [].

(** The first live leaf with the prefix, ascending or descending. *)
Fixpoint extremeLeaf (node : critNode) (prefix : bytes) (direction : bool) : option leafNode :=
  match node with
  | Leaf l => if negb (l_deleted l) && has_prefix (l_key l) prefix then Some l else None
  | Node _ _ c0 c1 =>
      match (if direction then extremeLeaf c1 prefix direction else extremeLeaf c0 prefix direction) with
      | Some l => Some l
      | None => if direction then extremeLeaf c0 prefix direction else extremeLeaf c1 prefix direction
      end
  end.

(** The path of the boundary, deepest node first, and the leaf it ends in. *)
Fixpoint seek_path (boundary : bytes) (node : critNode) (path : list (critNode * bool)) : list (critNode * bool) * leafNode :=
  match node with
  | Leaf l => (path, l)
  | Node p o c0 c1 =>
      if getDirection boundary p o then seek_path boundary c1 ((node, true) :: path)
      else seek_path boundary c0 ((node, false) :: path)
  end.

(** Walk back up to where the boundary would be inserted. *)
Fixpoint seek_insertion (bytePos : nat) (otherbits : Z) (insertion : critNode) (path : list (critNode * bool))
    : critNode * list (critNode * bool) :=
  match path with
  | (Node p o c0 c1, dir) :: path' =>
      if shouldInsertBefore p o bytePos otherbits then (insertion, path)
      else seek_insertion bytePos otherbits (Node p o c0 c1) path'
  | _ => (insertion, path)
  end.

(** The siblings above, nearest first. *)
Fixpoint seek_up (prefix : bytes) (direction : bool) (path : list (critNode * bool)) : option leafNode :=
  match path with
  | (Node p o c0 c1, dir) :: path' =>
      if Bool.eqb dir direction
      then match extremeLeaf (child (negb direction) c0 c1) prefix direction with
           | Some l => Some l
           | None => seek_up prefix direction path'
           end
      else seek_up prefix direction path'
  | _ => None
  end.

Definition seek_bounded (prefix boundary : bytes) (direction : bool) (subtree : critNode) : option leafNode :=
  let (path, current) := seek_path boundary subtree [] in
  if bool_decide (l_key current = boundary) then seek_up prefix direction path
  else
    let '(bytePos, otherbits) := findCritBit boundary (l_key current) in
    let (insertion, path) := seek_insertion bytePos otherbits (Leaf current) path in
    let leaf :=
      if Bool.eqb (getDirection (l_key current) bytePos otherbits) (negb direction)
      then extremeLeaf insertion prefix direction else None in
    match leaf with Some l => Some l | None => seek_up prefix direction path end.

Definition seekPrefix (prefix boundary : bytes) (bounded : bool) (direction : bool) (c : Critbit) : option bytes :=
  if c_closed c then None
  else match c_root c with
       | None => None
       | Some root =>
           let subtree := findPrefixSubtree root prefix in
           l_key <$> (if bounded then seek_bounded prefix boundary direction subtree
                      else extremeLeaf subtree prefix direction)
       end.

Definition FirstWithPrefix (prefix : bytes) (c : Critbit) : option bytes := seekPrefix prefix [] false false c.
Definition LastWithPrefix (prefix : bytes) (c : Critbit) : option bytes := seekPrefix prefix [] false true c.
Definition NextWithPrefix (prefix after : bytes) (c : Critbit) : option bytes :=
  seekPrefix prefix after (has_prefix after prefix) false c.
Definition PrevWithPrefix (prefix before : bytes) (c : Critbit) : option bytes :=
  seekPrefix prefix before (has_prefix before prefix) true c.

End Critbit.

Arguments leafNode : clear implicits.
Arguments critNode : clear implicits.
Arguments Critbit : clear implicits.

(** A copy of the tips of the live keys; the copy has no payloads and no decider. *)
Definition Snapshot {T} (c : Critbit T) : Critbit T :=
  Range (fun snap key =>
    (match Contains c key with Some tips => (Insert None key None (Some tips) snap).1 | None => snap end, true))
    c NewCritbit.
