(* ===== verification/CritbitProps.v ===== *)
(** * The trie refines an ordered map

    The keys of the trie are told apart by their critical bits; the trie is a
    finite map from live keys to tip sets, its in-order traversal is the
    lexicographic order, and its counters are exact. *)

From S2P Require Import Prelude Golib TipSet Critbit.

(** ** Critical bits *)

(** The masks a critical bit can have: one bit clear, or none (end of key). *)
Definition masks : list Z := [127; 191; 223; 239; 247; 251; 253; 254; 255].

Definition dirb (o c : Z) : bool := negb (Z.shiftr (1 + Z.lor o c) 8 =? 0).

Definition all_bytes : list byte := map (fun n => z2b (Z.of_nat n)) (seq 0 256).

Lemma elem_of_all_bytes b : b ∈ all_bytes.
Proof.
  apply list_elem_of_In, in_map_iff. exists (Z.to_nat (b2z b)). pose proof (b2z_range b). split.
  - rewrite Z2Nat.id by lia. apply z2b_b2z.
  - apply in_seq. lia.
Qed.

(** The critical bit of two bytes, decided by enumeration. *)
Definition byte_diff_ok (x y : byte) : bool :=
  let o := Z.lxor (highestBit (Z.lxor (b2z x) (b2z y))) 255 in
  bool_decide (x = y) ||
  (bool_decide (o ∈ masks) && negb (Bool.eqb (dirb o (b2z x)) (dirb o (b2z y))) &&
   forallb (fun o' => negb (o' <? o) || Bool.eqb (dirb o' (b2z x)) (dirb o' (b2z y))) masks &&
   Bool.eqb (negb (dirb o (b2z x))) (b2z x <? b2z y)).

Lemma byte_diff_all : forallb (fun x => forallb (byte_diff_ok x) all_bytes) all_bytes = true.
Proof. vm_compute. reflexivity. Qed.

Lemma byte_diff x y : x <> y ->
  let o := Z.lxor (highestBit (Z.lxor (b2z x) (b2z y))) 255 in
  o ∈ masks /\ dirb o (b2z x) <> dirb o (b2z y) /\
  (forall o', o' ∈ masks -> o' < o -> dirb o' (b2z x) = dirb o' (b2z y)) /\
  (dirb o (b2z x) = false <-> b2z x < b2z y).
Proof.
  intros Hxy o. pose proof byte_diff_all as H. rewrite forallb_forall in H.
  specialize (H x ltac:(apply list_elem_of_In, elem_of_all_bytes)). rewrite forallb_forall in H.
  specialize (H y ltac:(apply list_elem_of_In, elem_of_all_bytes)). unfold byte_diff_ok in H.
  rewrite bool_decide_false in H by done. cbn [orb] in H. fold o in H.
  apply andb_true_iff in H as [[[H1%bool_decide_eq_true H2]%andb_true_iff H3]%andb_true_iff H4].
  split_and!.
  - done.
  - intros E. rewrite E, eqb_reflx in H2. done.
  - intros o' Ho' Hlt. rewrite forallb_forall in H3. specialize (H3 o' ltac:(by apply list_elem_of_In)).
    destruct (Z.ltb_spec o' o); [|lia]. by apply eqb_prop in H3.
  - apply eqb_prop in H4. rewrite <- negb_true_iff, H4. apply Z.ltb_lt.
Qed.

Definition byte_end_ok (y : byte) : bool :=
  let o := Z.lxor (highestBit (b2z y)) 255 in
  bool_decide (o ∈ masks) && dirb o (b2z y) &&
  forallb (fun o' => negb (o' <? o) || negb (dirb o' (b2z y))) masks.

Lemma byte_end y :
  let o := Z.lxor (highestBit (b2z y)) 255 in
  o ∈ masks /\ dirb o (b2z y) = true /\ (forall o', o' ∈ masks -> o' < o -> dirb o' (b2z y) = false).
Proof.
  intros o. assert (forallb byte_end_ok all_bytes = true) as H by (vm_compute; reflexivity).
  rewrite forallb_forall in H. specialize (H y ltac:(apply list_elem_of_In, elem_of_all_bytes)).
  unfold byte_end_ok in H. fold o in H. apply andb_true_iff in H as [[H1%bool_decide_eq_true H2]%andb_true_iff H3].
  split_and!; [done..|]. intros o' Ho' Hlt. rewrite forallb_forall in H3.
  specialize (H3 o' ltac:(by apply list_elem_of_In)). destruct (Z.ltb_spec o' o); [|lia]. by apply negb_true_iff in H3.
Qed.

Lemma shouldInsertBefore_iff p o p' o' :
  shouldInsertBefore p o p' o' = true <-> (p < p')%nat \/ (p = p' /\ o < o').
Proof.
  unfold shouldInsertBefore. rewrite orb_true_iff, andb_true_iff, Nat.ltb_lt, Nat.eqb_eq, Z.ltb_lt. done.
Qed.

Lemma getDirection_cons x a p o : getDirection (x :: a) (S p) o = getDirection a p o.
Proof. done. Qed.

Lemma getDirection_nil p o : getDirection [] p o = false.
Proof. done. Qed.

Lemma getDirection_head x a o : getDirection (x :: a) 0 o = dirb o (b2z x).
Proof. done. Qed.

Lemma first_diff_shift a b i : first_diff a b (S i) = (fun '(p, o) => (S p, o)) <$> first_diff a b i.
Proof.
  revert b i. induction a as [|x a IH]; intros [|y b] i; cbn [first_diff]; [done..|].
  case_bool_decide; [apply IH|done].
Qed.

Lemma findCritBit_same x a b : a <> b ->
  findCritBit (x :: a) (x :: b) = let '(p, o) := findCritBit a b in (S p, o).
Proof.
  intros Hab. unfold findCritBit. cbn [first_diff]. rewrite bool_decide_true, first_diff_shift by done.
  destruct (first_diff a b 0) as [[p o]|] eqn:E; [done|]. cbn [fmap option_fmap option_map length Nat.eqb].
  destruct (Nat.eqb_spec (length a) (length b)) as [El|Hl]; cbn [negb].
  - exfalso. apply Hab. clear Hab. revert b El E. induction a as [|z a IH]; intros [|y b] El E; [done..|].
    cbn [first_diff] in E. revert E. case_bool_decide as Hz; [|done]. subst. rewrite first_diff_shift.
    destruct (first_diff a b 0) eqn:E; [done|]. intros _. f_equal. apply IH; [|done]. cbn [length] in El. lia.
  - cbn [Nat.min]. f_equal.
    change (S (length a) <? S (length b))%nat with (length a <? length b)%nat. by case_match.
Qed.

(** Two keys first differ at their critical bit, and it decides their order. *)
Lemma findCritBit_spec a b : a <> b ->
  let '(p, o) := findCritBit a b in
  o ∈ masks /\ getDirection a p o <> getDirection b p o /\
  (forall p' o', o' ∈ masks -> shouldInsertBefore p' o' p o = true -> getDirection a p' o' = getDirection b p' o') /\
  (getDirection a p o = false <-> bytes_compare a b < 0).
Proof.
  revert b. induction a as [|x a IH]; intros [|y b] Hab; [done| | |].
  - change (findCritBit [] (y :: b)) with (0%nat, Z.lxor (highestBit (b2z y)) 255).
    destruct (byte_end y) as (H1 & H2 & H3). set (o := Z.lxor (highestBit (b2z y)) 255) in *.
    rewrite getDirection_head, H2. split_and!; [done|done| |done].
    intros p' o' Ho' [?|[-> ?]]%shouldInsertBefore_iff; [lia|]. rewrite getDirection_head, H3; done.
  - change (findCritBit (x :: a) []) with (0%nat, Z.lxor (highestBit (b2z x)) 255).
    destruct (byte_end x) as (H1 & H2 & H3). set (o := Z.lxor (highestBit (b2z x)) 255) in *.
    rewrite getDirection_head, H2. split_and!; [done|done| |done].
    intros p' o' Ho' [?|[-> ?]]%shouldInsertBefore_iff; [lia|]. rewrite getDirection_head, H3; done.
  - destruct (decide (x = y)) as [->|Hxy].
    + rewrite findCritBit_same by congruence. specialize (IH b ltac:(congruence)).
      destruct (findCritBit a b) as [p o]. destruct IH as (H1 & H2 & H3 & H4).
      rewrite !getDirection_cons. split_and!; [done|done| |].
      * intros p' o' Ho' Hb. destruct p' as [|p']; [by rewrite !getDirection_head|].
        rewrite !getDirection_cons. apply H3; [done|]. apply shouldInsertBefore_iff in Hb. apply shouldInsertBefore_iff. lia.
      * rewrite H4. cbn [bytes_compare]. by rewrite Z.ltb_irrefl.
    + unfold findCritBit. cbn [first_diff]. rewrite bool_decide_false by done.
      destruct (byte_diff x y Hxy) as (H1 & H2 & H3 & H4). rewrite !getDirection_head. split_and!; [done|done| |].
      * intros p' o' Ho' [?|[-> ?]]%shouldInsertBefore_iff; [lia|]. rewrite !getDirection_head. by apply H3.
      * rewrite H4. cbn [bytes_compare]. bcase; try lia. exfalso. apply Hxy, b2z_inj. lia.
Qed.

(** The critical bit is the only bit that is a first difference. *)
Lemma first_difference a b p o p' o' :
  o ∈ masks -> o' ∈ masks ->
  getDirection a p o <> getDirection b p o -> getDirection a p' o' <> getDirection b p' o' ->
  (forall q r, r ∈ masks -> shouldInsertBefore q r p o = true -> getDirection a q r = getDirection b q r) ->
  (forall q r, r ∈ masks -> shouldInsertBefore q r p' o' = true -> getDirection a q r = getDirection b q r) ->
  (p, o) = (p', o').
Proof.
  intros Ho Ho' H1 H2 H3 H4.
  destruct (shouldInsertBefore p o p' o') eqn:E1; [exfalso; apply H1; by apply H4|].
  destruct (shouldInsertBefore p' o' p o) eqn:E2; [exfalso; apply H2; by apply H3|].
  apply not_true_iff_false in E1, E2. rewrite shouldInsertBefore_iff in E1, E2.
  assert (p = p') as -> by lia. f_equal. lia.
Qed.

(** ** Well-formed tries *)

Section Props.
Context {T : Type}.
Implicit Types (n m : critNode T) (l : leafNode T) (cb : Critbit T).

Fixpoint leaves n : list (leafNode T) :=
  match n with Leaf l => [l] | Node _ _ c0 c1 => leaves c0 ++ leaves c1 end.

Definition keys_of n : list bytes := l_key <$> leaves n.

(** Keys agree on every bit before this one. *)
Definition agree_before (p : nat) (o : Z) (a b : bytes) : Prop :=
  forall q r, r ∈ masks -> shouldInsertBefore q r p o = true -> getDirection a q r = getDirection b q r.

Fixpoint wf n : Prop :=
  match n with
  | Leaf _ => True
  | Node p o c0 c1 =>
      o ∈ masks
      /\ (forall k, k ∈ keys_of c0 -> getDirection k p o = false)
      /\ (forall k, k ∈ keys_of c1 -> getDirection k p o = true)
      /\ (forall a b, a ∈ keys_of n -> b ∈ keys_of n -> agree_before p o a b)
      /\ wf c0 /\ wf c1
  end.

Lemma keys_of_node p o c0 c1 : keys_of (Node p o c0 c1) = keys_of c0 ++ keys_of c1.
Proof. unfold keys_of. cbn [leaves]. by rewrite fmap_app. Qed.

Lemma leaves_ne n : exists l, l ∈ leaves n.
Proof. induction n as [l|p o c0 [l Hl] c1 _]; cbn [leaves]; [exists l; set_solver|exists l; set_solver]. Qed.

Lemma find_best_leaf n key : find_best n key ∈ leaves n.
Proof. induction n as [l|p o c0 IH0 c1 IH1]; cbn [find_best leaves]; [set_solver|]. case_match; set_solver. Qed.

Lemma elem_of_keys_of n k : k ∈ keys_of n <-> exists l, l ∈ leaves n /\ l_key l = k.
Proof. unfold keys_of. rewrite list_elem_of_fmap. naive_solver. Qed.

Lemma find_best_key n key : l_key (find_best n key) ∈ keys_of n.
Proof. apply elem_of_keys_of. eauto using find_best_leaf. Qed.

(** The path of a key in the trie ends in its leaf. *)
Lemma find_best_present n key : wf n -> key ∈ keys_of n -> l_key (find_best n key) = key.
Proof.
  induction n as [l|p o c0 IH0 c1 IH1]; intros Hwf Hk.
  - unfold keys_of in Hk. cbn [leaves] in Hk. set_solver.
  - destruct Hwf as (Ho & Hl & Hr & Ha & H0 & H1). rewrite keys_of_node in Hk. cbn [find_best].
    destruct (getDirection key p o) eqn:E.
    + apply IH1; [done|]. apply elem_of_app in Hk as [Hk|Hk]; [|done]. apply Hl in Hk. congruence.
    + apply IH0; [done|]. apply elem_of_app in Hk as [Hk|Hk]; [done|]. apply Hr in Hk. congruence.
Qed.

(** A leaf changed in place, at the path of its key. *)
Lemma keys_of_alter (f : leafNode T -> leafNode T) n key :
  (forall l, l_key (f l) = l_key l) -> keys_of (alter_best f n key) = keys_of n.
Proof.
  intros Hf. induction n as [l|p o c0 IH0 c1 IH1]; cbn [alter_best].
  - unfold keys_of. cbn [leaves fmap list_fmap]. by rewrite Hf.
  - case_match; rewrite !keys_of_node; congruence.
Qed.

Lemma wf_alter (f : leafNode T -> leafNode T) n key :
  (forall l, l_key (f l) = l_key l) -> wf n -> wf (alter_best f n key).
Proof.
  intros Hf. induction n as [l|p o c0 IH0 c1 IH1]; intros Hwf; [done|].
  destruct Hwf as (Ho & Hl & Hr & Ha & H0 & H1). rewrite keys_of_node in Ha. cbn [alter_best].
  case_match; cbn [wf]; rewrite keys_of_node, !keys_of_alter by done; split_and!; auto.
Qed.

(** The order of the leaves is the order of the keys. *)
Lemma wf_cross p o c0 c1 a b : wf (Node p o c0 c1) -> a ∈ keys_of c0 -> b ∈ keys_of c1 ->
  findCritBit a b = (p, o) /\ bytes_compare a b < 0.
Proof.
  intros (Ho & Hl & Hr & Ha & H0 & H1) Hka Hkb.
  assert (a <> b) as Hab by (intros ->; specialize (Hl b Hka); specialize (Hr b Hkb); congruence).
  pose proof (findCritBit_spec a b Hab) as Hc. destruct (findCritBit a b) as [p' o'].
  destruct Hc as (Ho' & Hd & Hag & Hlt).
  assert ((p, o) = (p', o')) as [= <- <-].
  { apply (first_difference a b); try done.
    - rewrite (Hl a Hka), (Hr b Hkb). done.
    - apply Ha; rewrite keys_of_node; apply elem_of_app; auto. }
  split; [done|]. apply Hlt. by apply Hl.
Qed.

Lemma keys_of_sorted n : wf n -> StronglySorted (fun a b => bytes_compare a b < 0) (keys_of n).
Proof.
  induction n as [l|p o c0 IH0 c1 IH1]; intros Hwf; [repeat constructor|].
  pose proof Hwf as (_ & _ & _ & _ & H0 & H1). rewrite keys_of_node.
  apply StronglySorted_app_2; [|by apply IH0|by apply IH1].
  intros a b Ha Hb. by eapply wf_cross.
Qed.

Lemma keys_of_NoDup n : wf n -> NoDup (keys_of n).
Proof.
  intros Hwf. pose proof (keys_of_sorted n Hwf) as Hs. induction Hs as [|a l Hs IH Ha]; constructor; [|done].
  intros Hin. rewrite Forall_forall in Ha. specialize (Ha a ltac:(by apply list_elem_of_In)).
  rewrite bytes_compare_refl in Ha. lia.
Qed.

(** ** Insertion *)

(** A node with the child on one side replaced. *)
Definition with_child (dir : bool) (p : nat) (o : Z) (c0 c1 m : critNode T) : critNode T :=
  if dir then Node p o c0 m else Node p o m c1.

Lemma agree_before_trans p o a b k : agree_before p o a b -> agree_before p o b k -> agree_before p o a k.
Proof. intros H1 H2 q r Hr Hb. rewrite (H1 q r), (H2 q r); done. Qed.

Lemma agree_before_sym p o a b : agree_before p o a b -> agree_before p o b a.
Proof. intros H q r Hr Hb. by rewrite (H q r). Qed.

Lemma agree_before_mono p o p' o' a b :
  shouldInsertBefore p' o' p o = true -> agree_before p o a b -> agree_before p' o' a b.
Proof.
  intros Hb H q r Hr Hq. apply H; [done|]. apply shouldInsertBefore_iff in Hb, Hq. apply shouldInsertBefore_iff. lia.
Qed.

(** A child may gain a key that goes its way and agrees with it above. *)
Lemma wf_with_child p o c0 c1 m key k :
  wf (Node p o c0 c1) -> wf m -> keys_of m ≡ₚ key :: keys_of (child (getDirection key p o) c0 c1) ->
  k ∈ keys_of (Node p o c0 c1) -> agree_before p o key k ->
  wf (with_child (getDirection key p o) p o c0 c1 m).
Proof.
  intros (Ho & Hl & Hr & Ha & H0 & H1) Hm Hp Hk Hkey.
  assert (forall a, a ∈ keys_of m -> a = key \/ a ∈ keys_of (child (getDirection key p o) c0 c1)) as Hin.
  { intros a. rewrite Hp. set_solver. }
  assert (forall a, a ∈ key :: keys_of (Node p o c0 c1) -> agree_before p o a k) as Hak.
  { intros a [-> |Hx]%elem_of_cons; [done|by apply Ha]. }
  destruct (getDirection key p o) eqn:Ed; cbn [with_child wf child] in *; rewrite keys_of_node in *; split_and!; try done.
  - intros a [-> |Hx]%Hin; [done|by apply Hr].
  - intros a b Hxa Hxb. eapply agree_before_trans; [|apply agree_before_sym]; apply Hak; [clear -Hxa Hin|clear -Hxb Hin]; set_solver.
  - intros a [-> |Hx]%Hin; [done|by apply Hl].
  - intros a b Hxa Hxb. eapply agree_before_trans; [|apply agree_before_sym]; apply Hak; [clear -Hxa Hin|clear -Hxb Hin]; set_solver.
Qed.

(** A node and a new leaf, told apart by a bit on which the node's keys agree. *)
Lemma wf_branch (nl : leafNode T) m p o k :
  wf m -> o ∈ masks -> k ∈ keys_of m -> getDirection (l_key nl) p o <> getDirection k p o ->
  (forall a, a ∈ keys_of m -> getDirection a p o = getDirection k p o) ->
  (forall a, a ∈ keys_of m -> agree_before p o (l_key nl) a) ->
  wf (if getDirection (l_key nl) p o then Node p o m (Leaf nl) else Node p o (Leaf nl) m).
Proof.
  intros Hm Ho Hk Hd Hsame Hag.
  assert (keys_of (Leaf nl) = [l_key nl]) as Hkl by done.
  assert (forall a, a ∈ l_key nl :: keys_of m -> agree_before p o (l_key nl) a) as Hall.
  { intros a [-> |Ha]%elem_of_cons; [by intros q r|by apply Hag]. }
  destruct (getDirection (l_key nl) p o) eqn:E; cbn [wf]; rewrite keys_of_node, Hkl; split_and!; try done.
  - intros a Ha. rewrite Hsame by done. by destruct (getDirection k p o).
  - intros a ->%list_elem_of_singleton. done.
  - intros a b Ha Hb. eapply agree_before_trans; [apply agree_before_sym|]; apply Hall; [clear -Ha|clear -Hb]; set_solver.
  - intros a ->%list_elem_of_singleton. done.
  - intros a Ha. rewrite Hsame by done. by destruct (getDirection k p o).
  - intros a b Ha Hb. eapply agree_before_trans; [apply agree_before_sym|]; apply Hall; [clear -Ha|clear -Hb]; set_solver.
Qed.

(** A missing key is placed without a retry, at the bit where it leaves the
    path that shares most of it. *)
Lemma link_leaf_spec (nl : leafNode T) n p o : wf n ->
  l_key (find_best n (l_key nl)) <> l_key nl -> findCritBit (l_key nl) (l_key (find_best n (l_key nl))) = (p, o) ->
  exists n', link_leaf (l_key nl) nl p o n = Some n' /\ wf n' /\ leaves n' ≡ₚ nl :: leaves n.
Proof.
  intros Hwf Hb Hc.
  pose proof (findCritBit_spec (l_key nl) (l_key (find_best n (l_key nl))) ltac:(congruence)) as Hs. rewrite Hc in Hs.
  destruct Hs as (Ho & Hd & Hag & _). fold (agree_before p o (l_key nl) (l_key (find_best n (l_key nl)))) in Hag.
  assert (forall m, leaves (if getDirection (l_key nl) p o then Node p o m (Leaf nl) else Node p o (Leaf nl) m) ≡ₚ nl :: leaves m) as Hp.
  { intros m. case_match; cbn [leaves]; [by rewrite Permutation_app_comm|done]. }
  induction n as [l|p' o' c0 IH0 c1 IH1]; cbn [link_leaf find_best] in *.
  - rewrite Hc, bool_decide_true by done. eexists. split; [done|]. split; [|apply Hp].
    apply (wf_branch nl (Leaf l) p o (l_key l)); try done; unfold keys_of; cbn; [set_solver..|].
    by intros a ->%list_elem_of_singleton.
  - pose proof Hwf as (Ho' & Hl & Hr & Ha & H0 & H1). fold (find_best (Node p' o' c0 c1) (l_key nl)) in Hb, Hd, Hag.
    set (bk := l_key (find_best (Node p' o' c0 c1) (l_key nl))) in *.
    assert (bk ∈ keys_of (Node p' o' c0 c1)) as Hbk by apply find_best_key.
    destruct (shouldInsertBefore p' o' p o) eqn:Eb.
    + pose proof (agree_before_mono _ _ _ _ _ _ Eb Hag) as Hag'.
      pose proof (fun m Hw Hk => wf_with_child p' o' c0 c1 m (l_key nl) bk Hwf Hw Hk Hbk Hag') as Hput.
      subst bk. cbn [find_best] in *.
      destruct (getDirection (l_key nl) p' o') eqn:Ed.
      * destruct (IH1 H1 Hb Hc Hd Hag) as (n' & E & Hw' & Hp'). rewrite E. eexists. split; [done|]. split.
        -- apply Hput; [done|]. cbn [child]. unfold keys_of. by rewrite Hp'.
        -- cbn [leaves]. rewrite Hp'. by rewrite Permutation_middle.
      * destruct (IH0 H0 Hb Hc Hd Hag) as (n' & E & Hw' & Hp'). rewrite E. eexists. split; [done|]. split.
        -- apply Hput; [done|]. cbn [child]. unfold keys_of. by rewrite Hp'.
        -- cbn [leaves]. by rewrite Hp'.
    + destruct (shouldInsertBefore p o p' o') eqn:Eb2.
      * eexists. split; [done|]. split; [|apply Hp]. apply (wf_branch nl _ p o bk); try done.
        -- intros a Hx. by apply (Ha a bk).
        -- intros a Hx. eapply agree_before_trans; [exact Hag|]. eapply agree_before_mono; [exact Eb2|]. by apply Ha.
      * exfalso. apply not_true_iff_false in Eb, Eb2. rewrite shouldInsertBefore_iff in Eb, Eb2.
        assert (p = p') as -> by lia. assert (o = o') as -> by lia. apply Hd. unfold bk. cbn [find_best].
        destruct (getDirection (l_key nl) p' o') eqn:Ed; symmetry; [apply Hr|apply Hl]; apply find_best_key.
Qed.

(** ** Changing and removing a leaf *)

Lemma alter_best_split (f : leafNode T -> leafNode T) n key :
  exists pre suf, leaves n = pre ++ find_best n key :: suf /\ leaves (alter_best f n key) = pre ++ f (find_best n key) :: suf.
Proof.
  induction n as [l|p o c0 (l1 & l2 & E1 & E2) c1 (r1 & r2 & F1 & F2)]; cbn [alter_best find_best].
  - by exists [], [].
  - destruct (getDirection key p o); cbn [leaves].
    + exists (leaves c0 ++ r1), r2. rewrite F1, F2, <- !app_assoc. done.
    + exists l1, (l2 ++ leaves c1). rewrite E1, E2, <- !app_assoc. done.
Qed.

Definition root_leaves (root : option (critNode T)) : list (leafNode T) := from_option leaves [] root.

Definition wf_root (root : option (critNode T)) : Prop := from_option wf True root.

Lemma wf_sub p o c0 c1 m0 m1 :
  wf (Node p o c0 c1) -> wf m0 -> wf m1 -> (forall k, k ∈ keys_of m0 -> k ∈ keys_of c0) -> (forall k, k ∈ keys_of m1 -> k ∈ keys_of c1) ->
  wf (Node p o m0 m1).
Proof.
  intros (Ho & Hl & Hr & Ha & _) H0 H1 Hs0 Hs1. cbn [wf]. rewrite keys_of_node in *. split_and!; auto.
  intros a b [?|?]%elem_of_app [?|?]%elem_of_app; apply Ha; apply elem_of_app; auto.
Qed.

Lemma prune_path_spec n key : wf n ->
  wf_root (prune_path key n) /\ exists pre suf, leaves n = pre ++ find_best n key :: suf /\ root_leaves (prune_path key n) = pre ++ suf.
Proof.
  induction n as [l|p o c0 IH0 c1 IH1]; intros Hwf; cbn [prune_path find_best].
  - split; [done|]. by exists [], [].
  - pose proof Hwf as (_ & _ & _ & _ & H0 & H1). destruct (getDirection key p o); cbn [leaves].
    + destruct (IH1 H1) as (Hw & l1 & l2 & E1 & E2). rewrite E1. destruct (prune_path key c1) as [m|]; cbn in *.
      * split.
        -- apply (wf_sub p o c0 c1); try done. intros k. unfold keys_of. rewrite E1, E2, !fmap_app, fmap_cons. set_solver.
        -- exists (leaves c0 ++ l1), l2. rewrite E2, <- !app_assoc. done.
      * split; [done|]. symmetry in E2. apply app_nil in E2 as [-> ->]. exists (leaves c0), []. by rewrite app_nil_r.
    + destruct (IH0 H0) as (Hw & l1 & l2 & E1 & E2). rewrite E1. destruct (prune_path key c0) as [m|]; cbn in *.
      * split.
        -- apply (wf_sub p o c0 c1); try done. intros k. unfold keys_of. rewrite E1, E2, !fmap_app, fmap_cons. set_solver.
        -- exists l1, (l2 ++ leaves c1). rewrite E2, <- !app_assoc. done.
      * split; [done|]. symmetry in E2. apply app_nil in E2 as [-> ->]. exists [], (leaves c1). done.
Qed.

Definition dead (l : leafNode T) : bool := l_deleted l && (0 <=? l_freq l).

Lemma is_dead_leaf n : is_dead n = true -> exists l, n = Leaf l /\ dead l = true.
Proof. destruct n as [l|]; [|done]. intros H. by exists l. Qed.

(** Reaping drops dead leaves only, and all of them but for a dead root. *)
Lemma reap_node_spec n : wf n ->
  let '(m, k) := reap_node n in
  wf m /\ (forall l, l ∈ leaves m -> l ∈ leaves n)
  /\ filter (fun l => dead l = false) (leaves m) = filter (fun l => dead l = false) (leaves n)
  /\ Z.of_nat (length (leaves m)) + k = Z.of_nat (length (leaves n))
  /\ (is_dead m = true \/ Forall (fun l => dead l = false) (leaves m)).
Proof.
  induction n as [l|p o c0 IH0 c1 IH1]; intros Hwf; cbn [reap_node].
  - split_and!; [done|done|done|lia|]. cbn [is_dead leaves]. destruct (dead l) eqn:E; [by left|right]. by constructor.
  - pose proof Hwf as (_ & _ & _ & _ & H0 & H1). specialize (IH0 H0). specialize (IH1 H1).
    destruct (reap_node c0) as [m0 k0], (reap_node c1) as [m1 k1].
    destruct IH0 as (W0 & S0 & F0 & N0 & D0), IH1 as (W1 & S1 & F1 & N1 & D1).
    assert (forall l, dead l = true -> filter (fun l => dead l = false) [l] = []) as Hdl.
    { intros l Hl. rewrite list.filter_cons, decide_False by congruence. done. }
    destruct (is_dead m0) eqn:E0; [|destruct (is_dead m1) eqn:E1]; cbn [leaves].
    + destruct (is_dead_leaf m0 E0) as (l & -> & Hl). cbn [leaves length] in *.
      rewrite list.filter_app, <- F0, <- F1, Hdl, app_nil_l by done. split_and!; [done|set_solver|done|rewrite length_app; lia|done].
    + destruct (is_dead_leaf m1 E1) as (l & -> & Hl). cbn [leaves length] in *.
      rewrite list.filter_app, <- F0, <- F1, Hdl, app_nil_r by done. split_and!; [done|set_solver|done|rewrite length_app; lia|by rewrite E0].
    + rewrite !list.filter_app, F0, F1. split_and!; [|set_solver|done|rewrite !length_app; lia|].
      * apply (wf_sub p o c0 c1); try done; intros k; rewrite !elem_of_keys_of; naive_solver.
      * right. destruct D0 as [?|D0]; [congruence|]. destruct D1 as [?|D1]; [congruence|]. apply list.Forall_app; auto.
Qed.

End Props.
