(* ===== verification/CritbitRefine.v ===== *)
(** * The index as a map

    The specification is a finite map from keys to entries, with one transition
    per operation; every run of the trie, reaping and eviction included, is a
    run of the specification, and the counters of the trie are exact. *)

From S2P Require Import Prelude Golib TipSet Critbit CritbitProps.

Section Refine.
Context {T : Type}.
Implicit Types (n : critNode T) (l x : leafNode T) (rest ls : list (leafNode T)) (cb : Critbit T).

(** ** The specification *)

Record entry := mkEntry { en_tips : option TipSet; en_pins : Z; en_data : option T }.

Abbreviation index := (gmap bytes entry).

Inductive event :=
  | EvInsert (k : bytes) (old newTips : option TipSet) (res : insert_result)
  | EvDelete (k : bytes) (old prev : option TipSet)
  | EvRemoveTips (k : bytes) (refs : list Tip)
  | EvPin (k : bytes) (held : bool)
  | EvUnpin (k : bytes) (held : bool)
  | EvLoadData (k : bytes) (data : option T)
  | EvStoreData (k : bytes) (def : T) (data : option T) (loaded : bool)
  | EvEvict (victims : list bytes)
  | EvInternal.

(** An insert on a key that is not there may be refused when the caller expected
    tips: whether it is depends on whether the dead leaf is still linked.  A hold
    on a key may outlive the deletion of the key for the same reason. *)
Inductive spec_step : index -> event -> index -> Prop :=
  | spec_insert_new m k old newTips pins :
      m !! k = None -> 0 <= pins -> spec_step m (EvInsert k old newTips InsertOk) (<[ k := mkEntry newTips pins None ]> m)
  | spec_insert_swap m k e newTips :
      m !! k = Some e ->
      spec_step m (EvInsert k (en_tips e) newTips InsertOk) (<[ k := mkEntry newTips (en_pins e) (en_data e) ]> m)
  | spec_insert_conflict m k e old newTips :
      m !! k = Some e -> en_tips e <> old -> spec_step m (EvInsert k old newTips (InsertConflict (en_tips e))) m
  | spec_insert_stale m k ts newTips :
      m !! k = None -> spec_step m (EvInsert k (Some ts) newTips (InsertConflict None)) m
  | spec_delete m k e :
      m !! k = Some e -> spec_step m (EvDelete k (en_tips e) (en_tips e)) (delete k m)
  | spec_delete_refused m k old :
      (forall e, m !! k = Some e -> en_tips e <> old) -> spec_step m (EvDelete k old None) m
  | spec_remove m k refs e ts ts' :
      m !! k = Some e -> en_tips e = Some ts -> ts_tips ts' = filter (fun t => t ∉ refs) (ts_tips ts) ->
      spec_step m (EvRemoveTips k refs) (<[ k := mkEntry (Some ts') (en_pins e) (en_data e) ]> m)
  | spec_remove_missing m k refs :
      mjoin (en_tips <$> m !! k) = None -> spec_step m (EvRemoveTips k refs) m
  | spec_pin m k e :
      m !! k = Some e -> spec_step m (EvPin k true) (<[ k := mkEntry (en_tips e) (en_pins e + 1) (en_data e) ]> m)
  | spec_pin_missing m k : m !! k = None -> spec_step m (EvPin k false) m
  | spec_unpin m k e :
      m !! k = Some e -> 0 < en_pins e ->
      spec_step m (EvUnpin k true) (<[ k := mkEntry (en_tips e) (en_pins e - 1) (en_data e) ]> m)
  | spec_unpin_missing m k : m !! k = None -> spec_step m (EvUnpin k false) m
  | spec_load m k : spec_step m (EvLoadData k (m !! k ≫= en_data)) m
  | spec_store m k e def :
      m !! k = Some e -> en_data e = None ->
      spec_step m (EvStoreData k def (Some def) false) (<[ k := mkEntry (en_tips e) (en_pins e) (Some def) ]> m)
  | spec_store_loaded m k e d def :
      m !! k = Some e -> en_data e = Some d -> spec_step m (EvStoreData k def (Some d) true) m
  | spec_store_missing m k def : m !! k = None -> spec_step m (EvStoreData k def None false) m
  | spec_evict m victims :
      (forall k, k ∈ victims -> exists e, m !! k = Some e /\ en_pins e = 0) ->
      spec_step m (EvEvict victims) (filter (fun p => p.1 ∉ victims) m)
  | spec_internal m : spec_step m EvInternal m.

(** ** The trie's operations as steps *)

Variable evictDecider : option (bytes -> bool).

Inductive trie_step : Critbit T -> event -> Critbit T -> Prop :=
  | step_insert cb cb' k old newTips res :
      Insert evictDecider k old newTips cb = (cb', res) -> trie_step cb (EvInsert k old newTips res) cb'
  | step_delete cb cb' k old prev :
      DeleteAndSnapshot k old cb = (cb', prev) -> trie_step cb (EvDelete k old prev) cb'
  | step_remove cb addr k refs : trie_step cb (EvRemoveTips k refs) (RemoveTips addr k refs cb)
  | step_pin cb cb' k held : Pin k cb = (cb', held) -> trie_step cb (EvPin k held) cb'
  | step_unpin cb cb' k held : Unpin k cb = Some (cb', held) -> trie_step cb (EvUnpin k held) cb'
  | step_load cb cb' k d : LoadData k cb = (cb', d) -> trie_step cb (EvLoadData k d) cb'
  | step_store cb cb' k def d loaded :
      LoadOrStoreData k def cb = (cb', d, loaded) -> trie_step cb (EvStoreData k def d loaded) cb'
  | step_evict cb cb' cold ghosts oldest victims reclaimed :
      EvictBatch cold ghosts oldest cb = (cb', victims, reclaimed) -> trie_step cb (EvEvict victims) cb'
  | step_unlink cb k : trie_step cb EvInternal (unlinkLeaf k cb).1
  | step_reap cb : trie_step cb EvInternal (reap cb).1
  | step_decay cb k epoch : trie_step cb EvInternal (alter_leaf (decayLeaf epoch) k cb).

Inductive run {S} (step : S -> event -> S -> Prop) : S -> list event -> S -> Prop :=
  | run_nil s : run step s [] s
  | run_cons s s1 s2 ev evs : step s ev s1 -> run step s1 evs s2 -> run step s (ev :: evs) s2.

(** ** Abstraction and invariant *)

Definition cb_leaves cb : list (leafNode T) := root_leaves (c_root cb).

Definition live l : bool := negb (l_deleted l).
Definition ghost l : bool := l_deleted l && (l_freq l <? 0).

Definition l_entry l : entry := mkEntry (l_tips l) (l_pins l) (l_data l).

(** The map a list of leaves stands for. *)
Fixpoint abs_list ls : index :=
  match ls with [] => ∅ | l :: ls' => if l_deleted l then abs_list ls' else <[ l_key l := l_entry l ]> (abs_list ls') end.

Definition abs cb : index := abs_list (cb_leaves cb).

Definition count (P : leafNode T -> bool) ls : Z := Z.of_nat (length (filter (fun l => P l = true) ls)).

(** A live leaf has no negative frequency; a dead one holds nothing. *)
Record leaf_ok l : Prop := {
  lk_freq : l_freq l <= maxLeafFreq;
  lk_live : l_deleted l = false -> 0 <= l_freq l;
  lk_dead : l_deleted l = true -> l_tips l = None /\ l_data l = None;
  lk_pins : 0 <= l_pins l;
}.

Record cb_ok cb : Prop := {
  ok_open : c_closed cb = false;
  ok_wf : wf_root (c_root cb);
  ok_leaves : Forall leaf_ok (cb_leaves cb);
  ok_size : c_size cb = count live (cb_leaves cb);
  ok_deleted : c_deletedCount cb = count dead (cb_leaves cb);
  ok_ghost : c_ghostCount cb = count ghost (cb_leaves cb);
}.

(** The leaf [x] of key [k], and the other leaves. *)
Record view cb (k : bytes) x rest : Prop := {
  v_key : l_key x = k;
  v_perm : cb_leaves cb ≡ₚ x :: rest;
  v_wf : wf_root (c_root cb);
}.

(** ** Lists of leaves *)

Lemma count_cons P l ls : count P (l :: ls) = (if P l then 1 else 0) + count P ls.
Proof. unfold count. rewrite list.filter_cons. destruct (P l); [rewrite decide_True by done|rewrite decide_False by done]; cbn [length]; lia. Qed.

Lemma count_perm P ls ls' : ls ≡ₚ ls' -> count P ls = count P ls'.
Proof. unfold count. by intros ->. Qed.

Lemma count_nonneg P ls : 0 <= count P ls.
Proof. unfold count. lia. Qed.

Lemma abs_list_none ls k : k ∉ l_key <$> ls -> abs_list ls !! k = None.
Proof.
  induction ls as [|l ls IH]; intros Hk; cbn [abs_list]; [done|]. rewrite fmap_cons, not_elem_of_cons in Hk.
  destruct Hk as [H1 H2]. case_match; [by apply IH|]. rewrite lookup_insert_ne by congruence. by apply IH.
Qed.

Lemma abs_list_perm ls ls' : ls ≡ₚ ls' -> NoDup (l_key <$> ls) -> abs_list ls = abs_list ls'.
Proof.
  induction 1 as [|l ls ls' Hp IH|l1 l2 ls|ls1 ls2 ls3 H1 IH1 H2 IH2]; intros Hn.
  - done.
  - rewrite fmap_cons in Hn. apply list.NoDup_cons in Hn as [_ Hn]. cbn [abs_list]. by rewrite IH.
  - rewrite !fmap_cons in Hn. apply list.NoDup_cons in Hn as [Hn _]. cbn [abs_list].
    repeat case_match; try done. apply insert_insert_ne. set_solver.
  - rewrite IH1 by done. apply IH2. by rewrite <- H1.
Qed.

Lemma abs_list_lookup ls k e : NoDup (l_key <$> ls) ->
  abs_list ls !! k = Some e <-> exists l, l ∈ ls /\ l_key l = k /\ l_deleted l = false /\ l_entry l = e.
Proof.
  induction ls as [|l ls IH]; intros Hn; cbn [abs_list].
  - rewrite lookup_empty. split; [done|]. intros (l & Hl & _). set_solver.
  - rewrite fmap_cons in Hn. apply list.NoDup_cons in Hn as [Hl Hn]. specialize (IH Hn).
    destruct (l_deleted l) eqn:Ed.
    + rewrite IH. split; [intros (y & Hy & H); exists y; set_solver|].
      intros (y & [-> |Hy]%elem_of_cons & Hk & Hd & He); [congruence|eauto].
    + destruct (decide (l_key l = k)) as [<-|Hk].
      * rewrite lookup_insert_eq. split; [intros [= <-]; exists l; set_solver|].
        intros (y & [-> |Hy]%elem_of_cons & Hk & Hd & He); [congruence|]. exfalso. apply Hl. rewrite <- Hk.
        apply list_elem_of_fmap. eauto.
      * rewrite lookup_insert_ne, IH by done. split; [intros (y & Hy & H); exists y; set_solver|].
        intros (y & [-> |Hy]%elem_of_cons & Hk' & Hd & He); [congruence|eauto].
Qed.

Lemma size_abs_list ls : NoDup (l_key <$> ls) -> Z.of_nat (size (abs_list ls)) = count live ls.
Proof.
  induction ls as [|l ls IH]; intros Hn; [done|]. rewrite fmap_cons in Hn. apply list.NoDup_cons in Hn as [Hl Hn].
  rewrite count_cons. cbn [abs_list]. unfold live at 1. destruct (l_deleted l); cbn [negb]; [by rewrite IH|].
  rewrite map_size_insert_None by (by apply abs_list_none). rewrite <- IH by done. lia.
Qed.

Lemma cb_leaves_NoDup cb : wf_root (c_root cb) -> NoDup (l_key <$> cb_leaves cb).
Proof. unfold cb_leaves. destruct (c_root cb) as [r|]; intros H; [by apply keys_of_NoDup|constructor]. Qed.

(** ** Views *)

Lemma view_NoDup cb k x rest : view cb k x rest -> NoDup (k :: (l_key <$> rest)).
Proof.
  intros [Hk Hp Hw]. pose proof (cb_leaves_NoDup cb Hw) as Hn. rewrite Hp, fmap_cons, Hk in Hn. done.
Qed.

Lemma view_best cb k x rest : view cb k x rest -> findBestMatch (c_root cb) k = Some x.
Proof.
  intros Hv. pose proof Hv as [Hk Hp Hw]. unfold cb_leaves in Hp.
  destruct (c_root cb) as [r|]; cbn in *; [|by apply Permutation_nil in Hp].
  f_equal. assert (l_key (find_best r k) = k) as Hb.
  { apply find_best_present; [done|]. unfold keys_of. rewrite Hp, fmap_cons, Hk. constructor. }
  pose proof (find_best_leaf r k) as Hin. rewrite Hp in Hin. apply elem_of_cons in Hin as [-> |Hin]; [done|].
  exfalso. pose proof (view_NoDup _ _ _ _ Hv) as [Hn _]%list.NoDup_cons. apply Hn. rewrite <- Hb. apply list_elem_of_fmap. eauto.
Qed.

Lemma view_alter f cb k x rest :
  view cb k x rest -> (forall l, l_key (f l) = l_key l) -> view (alter_leaf f k cb) k (f x) rest.
Proof.
  intros Hv Hf. pose proof (view_best _ _ _ _ Hv) as Hb. destruct Hv as [Hk Hp Hw].
  unfold alter_leaf, set_root, cb_leaves in *. destruct (c_root cb) as [r|]; cbn in *; [|done].
  injection Hb as Hb. destruct (alter_best_split f r k) as (l1 & l2 & E1 & E2). rewrite Hb in *.
  constructor; cbn.
  - by rewrite Hf.
  - unfold cb_leaves. cbn. rewrite E1, <- Permutation_middle in Hp. apply Permutation_cons_inv in Hp.
    by rewrite E2, <- Permutation_middle, Hp.
  - by apply wf_alter.
Qed.

Lemma view_counts cb k x rest a b c : view cb k x rest -> view (add_counts a b c cb) k x rest.
Proof. intros [H1 H2 H3]. by constructor. Qed.

Lemma view_abs cb k x rest : view cb k x rest ->
  abs cb = if l_deleted x then abs_list rest else <[ k := l_entry x ]> (abs_list rest).
Proof.
  intros [Hk Hp Hw]. unfold abs. rewrite (abs_list_perm _ (x :: rest)); [|done|by apply cb_leaves_NoDup].
  cbn [abs_list]. by rewrite Hk.
Qed.

Lemma view_rest cb k x rest : view cb k x rest -> abs_list rest !! k = None.
Proof. intros [Hn _]%view_NoDup%list.NoDup_cons. by apply abs_list_none. Qed.

(** The leaf on a key's path either carries the key, or the key is absent. *)
Lemma best_view cb k : wf_root (c_root cb) ->
  match findBestMatch (c_root cb) k with
  | Some x => (l_key x = k /\ exists rest, view cb k x rest) \/ (l_key x <> k /\ k ∉ l_key <$> cb_leaves cb)
  | None => c_root cb = None
  end.
Proof.
  intros Hw. unfold findBestMatch, cb_leaves. destruct (c_root cb) as [r|] eqn:Er; [|done]. cbn.
  destruct (decide (l_key (find_best r k) = k)) as [Hk|Hk]; [left|right]; (split; [done|]).
  - pose proof (find_best_leaf r k) as (l1 & l2 & E)%list_elem_of_split. exists (l1 ++ l2). constructor; [done| |by rewrite Er].
    unfold cb_leaves. rewrite Er. cbn. by rewrite E, Permutation_middle.
  - intros Hin. apply Hk. by apply find_best_present.
Qed.

Lemma ok_view cb k x rest : cb_ok cb -> view cb k x rest ->
  leaf_ok x /\ Forall leaf_ok rest
  /\ c_size cb = (if live x then 1 else 0) + count live rest
  /\ c_deletedCount cb = (if dead x then 1 else 0) + count dead rest
  /\ c_ghostCount cb = (if ghost x then 1 else 0) + count ghost rest.
Proof.
  intros [H1 H2 H3 H4 H5 H6] [Hk Hp Hw]. rewrite Hp in H3. apply list.Forall_cons in H3 as [Hx Hr].
  rewrite <- !count_cons, <- !(count_perm _ _ _ Hp). done.
Qed.

Lemma view_ok cb k x rest :
  view cb k x rest -> c_closed cb = false -> leaf_ok x -> Forall leaf_ok rest ->
  c_size cb = (if live x then 1 else 0) + count live rest ->
  c_deletedCount cb = (if dead x then 1 else 0) + count dead rest ->
  c_ghostCount cb = (if ghost x then 1 else 0) + count ghost rest -> cb_ok cb.
Proof.
  intros [Hk Hp Hw] Hc Hx Hr H1 H2 H3.
  constructor; [done|done|rewrite Hp; by constructor|rewrite (count_perm _ _ _ Hp), count_cons..]; done.
Qed.

(** [liveLeaf] is the lookup of the map. *)
Lemma liveLeaf_some cb k x : cb_ok cb -> liveLeaf cb k = Some x -> l_deleted x = false /\ exists rest, view cb k x rest.
Proof.
  intros Hok. unfold liveLeaf. rewrite (ok_open _ Hok). pose proof (best_view cb k (ok_wf _ Hok)) as Hb.
  destruct (findBestMatch (c_root cb) k) as [y|]; [|done]. destruct (l_deleted y) eqn:Ed; [by rewrite orb_true_r|].
  rewrite orb_false_r. case_bool_decide as Hy; cbn [negb]; [|done]. intros [= <-]. destruct Hb as [[_ Hb]|[? _]]; done.
Qed.

Lemma liveLeaf_none cb k : cb_ok cb -> liveLeaf cb k = None -> abs cb !! k = None.
Proof.
  intros Hok. unfold liveLeaf. rewrite (ok_open _ Hok). pose proof (best_view cb k (ok_wf _ Hok)) as Hb.
  destruct (findBestMatch (c_root cb) k) as [y|].
  - destruct Hb as [[Hy [rest Hv]]|[Hy Hn]].
    + rewrite bool_decide_true by done. cbn [negb orb]. destruct (l_deleted y) eqn:Ed; [|done]. intros _.
      rewrite (view_abs _ _ _ _ Hv), Ed. by eapply view_rest.
    + intros _. by apply abs_list_none.
  - intros _. unfold abs, cb_leaves. by rewrite Hb.
Qed.

Lemma view_lookup cb k x rest : view cb k x rest -> l_deleted x = false -> abs cb !! k = Some (l_entry x).
Proof. intros Hv Hd. rewrite (view_abs _ _ _ _ Hv), Hd. apply lookup_insert_eq. Qed.

(** Changing a live leaf that stays live changes one entry. *)
Lemma alter_live f cb k x rest :
  cb_ok cb -> view cb k x rest -> (forall l, l_key (f l) = l_key l) ->
  l_deleted x = false -> l_deleted (f x) = false -> leaf_ok (f x) ->
  cb_ok (alter_leaf f k cb) /\ abs (alter_leaf f k cb) = <[ k := l_entry (f x) ]> (abs cb).
Proof.
  intros Hok Hv Hf Hd Hd' Hx'. destruct (ok_view _ _ _ _ Hok Hv) as (Hx & Hr & H1 & H2 & H3).
  pose proof (view_alter f _ _ _ _ Hv Hf) as Hv'. split.
  - apply (view_ok _ k (f x) rest); [done|apply Hok|done|done|..]; cbn;
      unfold live, dead, ghost in *; rewrite Hd in *; rewrite Hd'; cbn in *; lia.
  - rewrite (view_abs _ _ _ _ Hv'), (view_abs _ _ _ _ Hv), Hd, Hd'. by rewrite insert_insert_eq.
Qed.

(** ** Each operation is a step of the specification *)

Ltac counts := unfold live, dead, ghost in *; cbn -[count maxLeafFreq] in *; lia.


Definition refines cb (ev : event) cb' : Prop := cb_ok cb' /\ spec_step (abs cb) ev (abs cb').

Lemma new_leaf_ok cb k newTips : leaf_ok (set_deleted false (allocLeafNode evictDecider cb k newTips)).
Proof. constructor; cbn; unfold maxLeafFreq; try done; lia. Qed.

(** A leaf that was not there before. *)
Lemma insert_absent cb cb' k newTips old :
  cb_ok cb -> c_closed cb' = false -> abs cb !! k = None ->
  view cb' k (set_deleted false (allocLeafNode evictDecider cb k newTips)) (cb_leaves cb) ->
  c_size cb' = c_size cb + 1 -> c_deletedCount cb' = c_deletedCount cb -> c_ghostCount cb' = c_ghostCount cb ->
  refines cb (EvInsert k old newTips InsertOk) cb'.
Proof.
  intros Hok Hc Hk Hv H1 H2 H3. split.
  - apply (view_ok _ k _ _ Hv); [done|apply new_leaf_ok|apply Hok|..]; cbn;
      rewrite ?H1, ?H2, ?H3, ?(ok_size _ Hok), ?(ok_deleted _ Hok), ?(ok_ghost _ Hok); lia.
  - rewrite (view_abs _ _ _ _ Hv). cbn. by apply spec_insert_new.
Qed.

(** A dead leaf or a ghost comes back to life. *)
Lemma insert_revive cb k x rest newTips :
  cb_ok cb -> view cb k x rest -> l_deleted x = true ->
  refines cb (EvInsert k None newTips InsertOk)
    (let c := add_counts 1 0 0 (alter_leaf (set_deleted false) k (alter_leaf (set_tips newTips) k cb)) in
     if l_freq x <? 0 then promoteIfGhost x c else add_counts 0 (-1) 0 c).
Proof.
  intros Hok Hv Hd. destruct (ok_view _ _ _ _ Hok Hv) as ([Hf _ Hdd Hp] & Hr & H1 & H2 & H3).
  destruct (Hdd Hd) as [Ht Hdt]. pose proof (v_key _ _ _ _ Hv) as Hk.
  pose proof (view_alter (set_deleted false) _ _ _ _ (view_alter (set_tips newTips) _ _ _ _ Hv ltac:(done)) ltac:(done)) as Hv'.
  assert (abs cb = abs_list rest) as Ha by (by rewrite (view_abs _ _ _ _ Hv), Hd).
  unfold live, dead, ghost in *. rewrite Hd in *. cbn [negb andb] in *. unfold promoteIfGhost.
  destruct (Z.ltb_spec (l_freq x) 0); [rewrite (proj2 (Z.leb_gt 0 (l_freq x))) in * by lia|rewrite (proj2 (Z.leb_le 0 (l_freq x))) in * by lia].
  - rewrite Hk. set (g := fun l => set_epoch _ (set_freq (Z.min (- l_freq l + 1) maxLeafFreq) l)).
    pose proof (view_alter g _ _ _ _ (view_counts _ _ _ _ 1 0 0 Hv') ltac:(done)) as Hv2.
    apply (view_counts _ _ _ _ 0 0 (-1)) in Hv2. split.
    + apply (view_ok _ k _ _ Hv2); [exact (ok_open _ Hok)| |done|counts..].
      constructor; cbn; unfold maxLeafFreq in *; [lia|intros; lia|done|done].
    + rewrite Ha, (view_abs _ _ _ _ Hv2). cbn. unfold l_entry. cbn. rewrite Hdt. apply spec_insert_new; [by eapply view_rest|done].
  - apply (view_counts _ _ _ _ 1 0 0), (view_counts _ _ _ _ 0 (-1) 0) in Hv'. split.
    + apply (view_ok _ k _ _ Hv'); [exact (ok_open _ Hok)| |done|counts..]. constructor; cbn; [done|done|done|done].
    + rewrite Ha, (view_abs _ _ _ _ Hv'). cbn. unfold l_entry. cbn. rewrite Hdt. apply spec_insert_new; [by eapply view_rest|done].
Qed.

Lemma insert_refines cb cb' k old newTips res :
  cb_ok cb -> Insert evictDecider k old newTips cb = (cb', res) -> refines cb (EvInsert k old newTips res) cb'.
Proof.
  intros Hok. unfold Insert. rewrite (ok_open _ Hok).
  pose proof (best_view cb k (ok_wf _ Hok)) as Hb. destruct (findBestMatch (c_root cb) k) as [x|] eqn:Ebest.
  - destruct Hb as [[Hkx [rest Hv]]|[Hkx Hn]].
    + rewrite bool_decide_true by done. destruct (ok_view _ _ _ _ Hok Hv) as (Hx & _).
      destruct (l_deleted x) eqn:Ed.
      * destruct (lk_dead _ Hx Ed) as [-> _]. rewrite (match old with None => eq_refl | Some _ => eq_refl end :
          (match old with Some _ => old | None => None end) = old).
        case_bool_decide as Ho.
        -- subst old. intros [= <- <-]. by apply insert_revive with rest.
        -- intros [= <- <-]. split; [done|]. destruct old as [ts|]; [|done]. apply spec_insert_stale.
           rewrite (view_abs _ _ _ _ Hv), Ed. by eapply view_rest.
      * rewrite (match old with None => eq_refl | Some _ => eq_refl end :
          (match old with Some _ => old | None => None end) = old).
        pose proof (view_lookup _ _ _ _ Hv Ed) as Hlk. case_bool_decide as Ho.
        -- intros [= <- <-]. destruct (alter_live (set_tips newTips) _ _ _ _ Hok Hv) as [Hok' Ha]; [done..| |].
           { destruct Hx as [A1 A2 A3 A4]. constructor; cbn; try done. congruence. }
           split; [done|]. rewrite Ha, <- Ho. by apply (spec_insert_swap _ k (l_entry x) newTips).
        -- intros [= <- <-]. split; [done|]. by apply (spec_insert_conflict _ k (l_entry x)).
    + rewrite bool_decide_false by done. destruct (findCritBit k (l_key x)) as [p o] eqn:Ec.
      destruct (c_root cb) as [r|] eqn:Er; [|done]. cbn in Ebest. injection Ebest as <-.
      pose proof (ok_wf _ Hok) as Hw. rewrite Er in Hw. cbn in Hw.
      set (nl := set_deleted false (allocLeafNode evictDecider cb k newTips)).
      destruct (link_leaf_spec nl r p o Hw Hkx Ec) as (r' & E & Hw' & Hp').
      change (l_key nl) with k in E. rewrite E. intros [= <- <-]. apply insert_absent; try done; cbn.
      * by apply Hok.
      * by apply abs_list_none.
      * constructor; [done| |done]. unfold cb_leaves at 1. cbn. rewrite Hp'. unfold cb_leaves. by rewrite Er.
      * lia.
      * lia.
  - intros [= <- <-]. apply insert_absent; try done; cbn.
    + by apply Hok.
    + unfold abs, cb_leaves. by rewrite Hb.
    + constructor; [done| |done]. unfold cb_leaves. cbn. by rewrite Hb.
    + lia.
    + lia.
Qed.

Lemma delete_refines cb cb' k old prev :
  cb_ok cb -> DeleteAndSnapshot k old cb = (cb', prev) -> refines cb (EvDelete k old prev) cb'.
Proof.
  intros Hok. unfold DeleteAndSnapshot. destruct (liveLeaf cb k) as [x|] eqn:E.
  - destruct (liveLeaf_some _ _ _ Hok E) as [Hd [rest Hv]]. pose proof (view_lookup _ _ _ _ Hv Hd) as Hlk.
    destruct (ok_view _ _ _ _ Hok Hv) as ([Hf Hlf _ Hp] & Hr & H1 & H2 & H3). case_bool_decide as Ho.
    + intros [= <- <-]. unfold clearLeaf.
      pose proof (view_alter (fun l => set_deleted true (set_tips None l)) _ _ _ _ Hv ltac:(done)) as Hv'.
      apply (view_alter (set_data None)), (view_counts _ _ _ _ (-1) 0 0), (view_counts _ _ _ _ 0 1 0) in Hv'; [|done].
      specialize (Hlf Hd). assert ((0 <=? l_freq x) = true /\ (l_freq x <? 0) = false) as [G1 G2] by lia. split.
      * apply (view_ok _ k _ _ Hv'); [exact (ok_open _ Hok)|by constructor|done|..];
          unfold live, dead, ghost in *; rewrite Hd in *; cbn -[count] in *; rewrite ?G1, ?G2; lia.
      * rewrite (view_abs _ _ _ _ Hv'). cbn. subst old.
        replace (abs_list rest) with (delete k (abs cb)); [by apply (spec_delete _ k (l_entry x))|].
        rewrite (view_abs _ _ _ _ Hv), Hd. rewrite delete_insert_id; [done|by eapply view_rest].
    + intros [= <- <-]. split; [done|]. apply spec_delete_refused. intros e. rewrite Hlk. by intros [= <-].
  - intros [= <- <-]. split; [done|]. apply spec_delete_refused. intros e. by rewrite (liveLeaf_none _ _ Hok E).
Qed.

Lemma remove_refines cb addr k refs : cb_ok cb -> refines cb (EvRemoveTips k refs) (RemoveTips addr k refs cb).
Proof.
  intros Hok. assert (forall e, abs cb !! k = Some e -> <[ k := mkEntry (en_tips e) (en_pins e) (en_data e) ]> (abs cb) = abs cb) as Hid.
  { intros e He. destruct e. by apply insert_id. }
  destruct (liveLeaf cb k) as [x|] eqn:E; cycle 1.
  { replace (RemoveTips addr k refs cb) with cb by (unfold RemoveTips; rewrite E; by destruct refs).
    split; [done|]. apply spec_remove_missing. by rewrite (liveLeaf_none _ _ Hok E). }
  destruct (liveLeaf_some _ _ _ Hok E) as [Hd [rest Hv]]. pose proof (view_lookup _ _ _ _ Hv Hd) as Hlk.
  destruct (l_tips x) as [ts|] eqn:Et; cycle 1.
  { replace (RemoveTips addr k refs cb) with cb by (unfold RemoveTips; rewrite E, Et; by destruct refs).
    split; [done|]. apply spec_remove_missing. rewrite Hlk. cbn. by rewrite Et. }
  assert (forall ts', ts_tips ts' = filter (fun t => t ∉ refs) (ts_tips ts) ->
    spec_step (abs cb) (EvRemoveTips k refs) (<[ k := mkEntry (Some ts') (l_pins x) (l_data x) ]> (abs cb))) as Hspec.
  { intros ts' Hts. by apply (spec_remove _ k refs (l_entry x) ts ts'). }
  assert (filter (fun t => t ∉ refs) (ts_tips ts) = ts_tips ts -> refines cb (EvRemoveTips k refs) cb) as Hsame.
  { intros Hall. split; [done|]. specialize (Hspec ts ltac:(done)). rewrite <- Et in Hspec. specialize (Hid (l_entry x) Hlk).
    cbn in Hid. by rewrite Hid in Hspec. }
  unfold RemoveTips. rewrite E, Et. destruct refs as [|r refs].
  - apply Hsame. rewrite <- tipDifference_spec. done.
  - rewrite tipDifference_spec. destruct (Nat.eqb_spec (length (filter (fun t => t ∉ r :: refs) (ts_tips ts))) (length (ts_tips ts))) as [El|El].
    + apply Hsame. apply filter_full. lia.
    + destruct (ok_view _ _ _ _ Hok Hv) as ([A1 A2 A3 A4] & _).
      destruct (alter_live (set_tips (Some (mkTipSet addr (filter (fun t => t ∉ r :: refs) (ts_tips ts))))) _ _ _ _ Hok Hv) as [Hok' Ha]; [done..| |].
      { constructor; cbn; try done. congruence. }
      split; [done|]. rewrite Ha. by apply Hspec.
Qed.

(** ** Pins and payloads *)

Lemma bump_live cb k x rest : cb_ok cb -> view cb k x rest -> l_deleted x = false ->
  exists y, view (bumpAccess k cb) k y rest /\ cb_ok (bumpAccess k cb) /\ abs (bumpAccess k cb) = abs cb
    /\ l_deleted y = false /\ l_entry y = l_entry x.
Proof.
  intros Hok Hv Hd. unfold bumpAccess. destruct (c_evictActive cb); cbn [negb]; [|by exists x].
  set (g := fun l => if (l_freq l <? 0) || (maxLeafFreq <=? l_freq l) then l else set_freq (l_freq l + 1) l).
  assert (forall l, l_key (g l) = l_key l /\ l_deleted (g l) = l_deleted l /\ l_entry (g l) = l_entry l) as Hg.
  { intros l. unfold g. by case_match. }
  destruct (ok_view _ _ _ _ Hok Hv) as ([A1 A2 A3 A4] & _).
  assert (leaf_ok (g x)) as Hgx.
  { unfold g. destruct (Z.ltb_spec (l_freq x) 0), (Z.leb_spec maxLeafFreq (l_freq x)); cbn; constructor; cbn; auto; lia. }
  exists (g x). destruct (alter_live g _ _ _ _ Hok Hv) as [Hok' Ha]; [apply Hg|done|by rewrite (proj1 (proj2 (Hg x)))|done|].
  split_and!; [by apply view_alter; [|apply Hg]|done| |by rewrite (proj1 (proj2 (Hg x)))|apply Hg].
  rewrite Ha, (proj2 (proj2 (Hg x))). by apply insert_id, (view_lookup _ _ _ _ Hv Hd).
Qed.

Lemma pin_refines cb cb' k held : cb_ok cb -> Pin k cb = (cb', held) -> refines cb (EvPin k held) cb'.
Proof.
  intros Hok. unfold Pin. destruct (liveLeaf cb k) as [x|] eqn:E; intros [= <- <-].
  - destruct (liveLeaf_some _ _ _ Hok E) as [Hd [rest Hv]]. destruct (ok_view _ _ _ _ Hok Hv) as ([A1 A2 A3 A4] & _).
    destruct (alter_live (fun l => set_pins (l_pins l + 1) l) _ _ _ _ Hok Hv) as [Hok' Ha]; [done..| |].
    { constructor; cbn; auto. lia. }
    split; [done|]. rewrite Ha. by apply (spec_pin _ k (l_entry x)), (view_lookup _ _ _ _ Hv Hd).
  - split; [done|]. by apply spec_pin_missing, liveLeaf_none.
Qed.

Lemma unpin_refines cb cb' k held : cb_ok cb -> Unpin k cb = Some (cb', held) -> refines cb (EvUnpin k held) cb'.
Proof.
  intros Hok. unfold Unpin. destruct (liveLeaf cb k) as [x|] eqn:E.
  - destruct (liveLeaf_some _ _ _ Hok E) as [Hd [rest Hv]]. destruct (ok_view _ _ _ _ Hok Hv) as ([A1 A2 A3 A4] & _).
    destruct (Z.ltb_spec (l_pins x - 1) 0); [done|]. intros [= <- <-].
    destruct (alter_live (fun l => set_pins (l_pins l - 1) l) _ _ _ _ Hok Hv) as [Hok' Ha]; [done..| |].
    { constructor; cbn; auto. }
    split; [done|]. rewrite Ha. apply (spec_unpin _ k (l_entry x)); [by apply (view_lookup _ _ _ _ Hv Hd)|cbn; lia].
  - intros [= <- <-]. split; [done|]. by apply spec_unpin_missing, liveLeaf_none.
Qed.

Lemma load_refines cb cb' k d : cb_ok cb -> LoadData k cb = (cb', d) -> refines cb (EvLoadData k d) cb'.
Proof.
  intros Hok. unfold LoadData. destruct (liveLeaf cb k) as [x|] eqn:E; intros [= <- <-].
  - destruct (liveLeaf_some _ _ _ Hok E) as [Hd [rest Hv]]. destruct (bump_live _ _ _ _ Hok Hv Hd) as (y & _ & Hok' & Ha & _).
    split; [done|]. rewrite Ha. pose proof (spec_load (abs cb) k) as H. by rewrite (view_lookup _ _ _ _ Hv Hd) in H.
  - split; [done|]. pose proof (spec_load (abs cb) k) as H. by rewrite (liveLeaf_none _ _ Hok E) in H.
Qed.

Lemma store_refines cb cb' k def d loaded :
  cb_ok cb -> LoadOrStoreData k def cb = (cb', d, loaded) -> refines cb (EvStoreData k def d loaded) cb'.
Proof.
  intros Hok. unfold LoadOrStoreData. destruct (liveLeaf cb k) as [x|] eqn:E.
  - destruct (liveLeaf_some _ _ _ Hok E) as [Hd [rest Hv]]. pose proof (view_lookup _ _ _ _ Hv Hd) as Hlk.
    destruct (bump_live _ _ _ _ Hok Hv Hd) as (y & Hv' & Hok' & Ha & Hdy & He).
    destruct (l_data x) as [cur|] eqn:Ex; intros [= <- <- <-].
    + split; [done|]. rewrite Ha. by apply (spec_store_loaded _ k (l_entry x)).
    + destruct (ok_view _ _ _ _ Hok' Hv') as ([A1 A2 A3 A4] & _).
      destruct (alter_live (set_data (Some def)) _ _ _ _ Hok' Hv') as [Hok2 Ha2]; [done..| |].
      { constructor; cbn; auto. congruence. }
      split; [done|]. rewrite Ha2, Ha. unfold l_entry in He. injection He as He1 He2 He3. unfold l_entry. cbn.
      rewrite He1, He2. by apply (spec_store _ k (l_entry x)).
  - intros [= <- <- <-]. split; [done|]. by apply spec_store_missing, liveLeaf_none.
Qed.

(** ** Reaping and decay *)

Lemma view_intro cb x : wf_root (c_root cb) -> x ∈ cb_leaves cb -> exists rest, view cb (l_key x) x rest.
Proof. intros Hw (l1 & l2 & E)%list_elem_of_split. exists (l1 ++ l2). constructor; [done| |done]. by rewrite E, Permutation_middle. Qed.

Lemma decay_refines cb k epoch : cb_ok cb -> refines cb EvInternal (alter_leaf (decayLeaf epoch) k cb).
Proof.
  intros Hok. unfold refines. destruct (c_root cb) as [r|] eqn:Er; cycle 1.
  { replace (alter_leaf (decayLeaf epoch) k cb) with cb; [split; [done|constructor]|].
    unfold alter_leaf, set_root. rewrite Er. cbn. destruct cb. by f_equal. }
  set (f := decayLeaf epoch).
  assert (forall l, l_key (f l) = l_key l /\ l_deleted (f l) = l_deleted l /\ l_entry (f l) = l_entry l
    /\ ((0 <=? l_freq (f l)) = (0 <=? l_freq l)) /\ ((l_freq (f l) <? 0) = (l_freq l <? 0)) /\ (l_freq (f l) <= l_freq l)) as Hf.
  { intros l. unfold f, decayLeaf. destruct (epoch <=? l_lastDecayEpoch l) eqn:E1; [split_and!; done|].
    destruct (l_freq (set_epoch epoch l) <=? 1) eqn:E2; cbn in *; split_and!; try done; lia. }
  pose proof (ok_wf _ Hok) as Hw. rewrite Er in Hw. set (x := find_best r k).
  destruct (alter_best_split f r k) as (l1 & l2 & E1 & E2). fold x in E1, E2.
  assert (cb_leaves cb = l1 ++ x :: l2) as Hl by (unfold cb_leaves; by rewrite Er).
  assert (cb_leaves (alter_leaf f k cb) = l1 ++ f x :: l2) as Hl'.
  { unfold cb_leaves, alter_leaf, set_root. rewrite Er. cbn. done. }
  assert (view cb (l_key x) x (l1 ++ l2)) as Hv.
  { constructor; [done|by rewrite Hl, Permutation_middle|by rewrite Er]. }
  assert (view (alter_leaf f k cb) (l_key x) (f x) (l1 ++ l2)) as Hv'.
  { constructor; [apply Hf|by rewrite Hl', Permutation_middle|]. unfold alter_leaf, set_root. rewrite Er. cbn.
    apply wf_alter; [|done]. intros l. apply Hf. }
  destruct (ok_view _ _ _ _ Hok Hv) as ([A1 A2 A3 A4] & Hr & H1 & H2 & H3).
  destruct (Hf x) as (F1 & F2 & F3 & F4 & F5 & F6). unfold l_entry in F3. injection F3 as G1 G2 G3. split.
  - apply (view_ok _ _ _ _ Hv'); [exact (ok_open _ Hok)| |done|..].
    + constructor; rewrite ?F2, ?G1, ?G2, ?G3; auto; [lia|]. intros Hdx. specialize (A2 Hdx).
      apply Z.leb_le in A2. rewrite A2 in F4. lia.
    + unfold live in *. rewrite F2. exact H1.
    + unfold dead in *. rewrite F2, F4. exact H2.
    + unfold ghost in *. rewrite F2, F5. exact H3.
  - rewrite (view_abs _ _ _ _ Hv'), (view_abs _ _ _ _ Hv), F2. unfold l_entry. rewrite G1, G2, G3. constructor.
Qed.

Lemma abs_list_live ls ls' : NoDup (l_key <$> ls) -> NoDup (l_key <$> ls') ->
  (forall l, l_deleted l = false -> l ∈ ls <-> l ∈ ls') -> abs_list ls = abs_list ls'.
Proof.
  intros H1 H2 H. apply map_eq. intros k. apply option_eq. intros e. rewrite !abs_list_lookup by done. naive_solver.
Qed.

Lemma unlink_refines cb k : cb_ok cb -> refines cb EvInternal (unlinkLeaf k cb).1.
Proof.
  intros Hok. unfold unlinkLeaf, refines. destruct (c_root cb) as [r|] eqn:Er; [|split; [done|constructor]].
  destruct (bool_decide _) eqn:E1; cbn [andb]; [|split; [done|constructor]].
  destruct (is_dead (Leaf (find_best r k))) eqn:E2; cbn [fst]; [|split; [done|constructor]].
  pose proof (ok_wf _ Hok) as Hw. rewrite Er in Hw. destruct (prune_path_spec r k Hw) as (Hw' & l1 & l2 & F1 & F2).
  assert (cb_leaves cb ≡ₚ find_best r k :: (l1 ++ l2)) as Hp.
  { unfold cb_leaves. rewrite Er. cbn. rewrite F1. by rewrite Permutation_middle. }
  cbn [is_dead] in E2. fold (dead (find_best r k)) in E2. pose proof E2 as [Hd Hf]%andb_true_iff.
  set (cb' := add_counts 0 (-1) 0 (set_root (prune_path k r) cb)).
  assert (cb_leaves cb' = l1 ++ l2) as Hl' by done.
  destruct Hok as [H1 H2 H3 H4 H5 H6]. rewrite Hp in H3. apply list.Forall_cons in H3 as [_ H3].
  rewrite (count_perm _ _ _ Hp), count_cons in H4. rewrite (count_perm _ _ _ Hp), count_cons in H5.
  rewrite (count_perm _ _ _ Hp), count_cons in H6. unfold live at 1 in H4. unfold ghost at 1 in H6.
  rewrite E2 in H5. rewrite Hd in H4, H6. apply Z.leb_le in Hf. rewrite (proj2 (Z.ltb_ge _ _) Hf) in H6. cbn in H4, H6. split.
  - constructor; [done|done|by rewrite Hl'|rewrite Hl'; cbn; lia..].
  - replace (abs cb') with (abs cb); [constructor|]. unfold abs. rewrite Hl'.
    pose proof (cb_leaves_NoDup cb ltac:(by rewrite Er)) as Hn.
    rewrite (abs_list_perm _ _ Hp Hn). cbn [abs_list]. by rewrite Hd.
Qed.

Lemma reap_refines cb : cb_ok cb -> refines cb EvInternal (reap cb).1.
Proof.
  intros Hok. unfold reap, refines. rewrite (ok_open _ Hok). destruct (c_root cb) as [r|] eqn:Er; [|split; [done|constructor]].
  pose proof (ok_wf _ Hok) as Hw. rewrite Er in Hw. pose proof (reap_node_spec r Hw) as Hs.
  destruct (reap_node r) as [m k]. destruct Hs as (Hwm & Hsub & Hfil & Hlen & _).
  assert (cb_leaves cb = leaves r) as Hl by (unfold cb_leaves; by rewrite Er).
  set (cb' := add_counts 0 (- k) 0 (set_root (Some m) cb)).
  assert (cb_leaves cb' = leaves m) as Hl' by done.
  assert (forall P, (forall l, dead l = true -> P l = false) -> count P (leaves m) = count P (leaves r)) as Hcount.
  { intros P HP. unfold count. f_equal. f_equal. rewrite <- (list_filter_filter_l (fun l => P l = true) (fun l => dead l = false) (leaves m)),
      <- (list_filter_filter_l (fun l => P l = true) (fun l => dead l = false) (leaves r)), Hfil; [done|..];
      intros l Hl0; destruct (dead l) eqn:Ed; auto; by rewrite HP in Hl0. }
  assert (cb_ok cb') as Hok'.
  { destruct Hok as [H1 H2 H3 H4 H5 H6]. rewrite Hl in *. constructor; rewrite ?Hl'; cbn; [done|done| |..].
    - rewrite list.Forall_forall in *. eauto.
    - rewrite H4, Hcount; [lia|]. unfold dead, live. intros l [-> _]%andb_true_iff. done.
    - rewrite H5. assert (forall ls, count dead ls + Z.of_nat (length (filter (fun l => dead l = false) ls)) = Z.of_nat (length ls)) as Hsum.
      { induction ls as [|l ls IH]; [done|]. rewrite count_cons, list.filter_cons.
        destruct (dead l); [rewrite decide_False by done|rewrite decide_True by done]; cbn [length]; lia. }
      pose proof (Hsum (leaves m)). pose proof (Hsum (leaves r)). rewrite Hfil in *. lia.
    - rewrite H6, Hcount; [lia|]. unfold dead, ghost. intros l [-> ?]%andb_true_iff. cbn. lia. }
  assert (abs cb' = abs cb) as Ha.
  { apply abs_list_live; [by apply cb_leaves_NoDup, Hok'|by apply cb_leaves_NoDup, Hok|]. rewrite Hl, Hl'. intros l Hd.
    assert (dead l = false) as Hdl by (unfold dead; by rewrite Hd).
    pose proof (list_elem_of_filter (fun l => dead l = false) (leaves m) l) as G1.
    pose proof (list_elem_of_filter (fun l => dead l = false) (leaves r) l) as G2. rewrite Hfil in G1. tauto. }
  destruct m as [l|]; cbn [fst]; [|split; [done|rewrite Ha; constructor]].
  pose proof (unlink_refines cb' (l_key l) Hok') as [Hok2 Hs2]. fold cb'.
  destruct (unlinkLeaf (l_key l) cb') as [cb2 b]. cbn [fst] in *. split; [done|]. by rewrite <- Ha.
Qed.

(** ** Eviction

    Between being claimed and being accounted for, an evicted leaf is dead but
    not counted: the trie is [cb_ok] with one more deleted leaf. *)

Lemma reclaimGhost_refines cb g : cb_ok cb -> cb_ok (reclaimGhost g cb).1 /\ abs (reclaimGhost g cb).1 = abs cb.
Proof.
  intros Hok. unfold reclaimGhost. pose proof (best_view cb g (ok_wf _ Hok)) as Hb.
  destruct (findBestMatch (c_root cb) g) as [x|]; [|done]. destruct (bool_decide (l_key x = g)) eqn:Ek; [|done].
  apply bool_decide_eq_true in Ek. destruct Hb as [[_ [rest Hv]]|[? _]]; [|done]. cbn [andb].
  destruct (l_deleted x) eqn:Ed; [|done]. cbn [andb]. destruct (Z.ltb_spec (l_freq x) 0) as [Hf|]; [|done]. cbn [fst].
  destruct (ok_view _ _ _ _ Hok Hv) as ([A1 A2 A3 A4] & Hr & H1 & H2 & H3).
  pose proof (view_counts _ _ _ _ 0 1 (-1) (view_alter (set_freq 0) _ _ _ _ Hv ltac:(done))) as Hv'. split.
  - apply (view_ok _ _ _ _ Hv'); [exact (ok_open _ Hok)| |done|..].
    + constructor; cbn; auto; unfold maxLeafFreq; lia.
    + unfold live in *. cbn. rewrite Ed in *. cbn in *. lia.
    + unfold dead in *. cbn. rewrite Ed in *. rewrite (proj2 (Z.leb_gt 0 (l_freq x))) in H2 by lia. cbn in *. lia.
    + unfold ghost in *. cbn. rewrite Ed in *. rewrite (proj2 (Z.ltb_lt (l_freq x) 0)) in H3 by lia. cbn in *. lia.
  - rewrite (view_abs _ _ _ _ Hv'), (view_abs _ _ _ _ Hv). cbn. by rewrite Ed.
Qed.

Lemma reclaimGhost_counts cb g a b c :
  reclaimGhost g (add_counts a b c cb) = (add_counts a b c (reclaimGhost g cb).1, (reclaimGhost g cb).2).
Proof.
  unfold reclaimGhost. cbn [add_counts c_root]. destruct (findBestMatch (c_root cb) g) as [x|]; [|done].
  case_match; [|done]. unfold add_counts, alter_leaf, set_root. cbn. f_equal. f_equal; lia.
Qed.

(** A dead leaf that is not a ghost is left alone. *)
Lemma reclaimGhost_other cb g k x rest : view cb k x rest -> ghost x = false -> exists rest', view (reclaimGhost g cb).1 k x rest'.
Proof.
  intros Hv Hx. unfold reclaimGhost. pose proof (best_view cb g (v_wf _ _ _ _ Hv)) as Hb.
  destruct (findBestMatch (c_root cb) g) as [y|]; [|by exists rest]. case_match eqn:E; [|by exists rest].
  apply andb_true_iff in E as [[Hky%bool_decide_eq_true Hd]%andb_true_iff Hf]. destruct Hb as [[_ [rest' Hv']]|[? _]]; [|done]. cbn [fst].
  assert (x <> y) as Hxy by (intros ->; unfold ghost in Hx; rewrite Hd, Hf in Hx; done).
  pose proof (view_counts _ _ _ _ 0 1 (-1) (view_alter (set_freq 0) _ _ _ _ Hv' ltac:(done))) as [_ Hp Hw].
  rewrite <- (v_key _ _ _ _ Hv). apply view_intro; [done|]. rewrite Hp. apply elem_of_cons. right.
  pose proof (v_perm _ _ _ _ Hv) as P1. rewrite (v_perm _ _ _ _ Hv') in P1.
  assert (x ∈ y :: rest') as [?|?]%elem_of_cons by (rewrite P1; constructor); done.
Qed.

Lemma oldest_refines ghosts cb k x rest : cb_ok (add_counts 0 1 0 cb) -> view cb k x rest -> ghost x = false ->
  let cb' := (reclaimOldestGhost ghosts cb).1.1 in
  cb_ok (add_counts 0 1 0 cb') /\ abs cb' = abs cb /\ exists rest', view cb' k x rest'.
Proof.
  revert cb rest. induction ghosts as [|g ghosts IH]; intros cb rest Hok Hv Hx; cbn [reclaimOldestGhost]; [eauto|].
  destruct (reclaimGhost_refines _ g Hok) as [Hok1 Ha1]. rewrite reclaimGhost_counts in Hok1, Ha1. cbn [fst] in Hok1, Ha1.
  change (abs (add_counts 0 1 0 ?c)) with (abs c) in Ha1.
  destruct (reclaimGhost_other _ g _ _ _ Hv Hx) as [rest' Hv']. destruct (reclaimGhost g cb) as [cb1 ok]. cbn [fst] in *.
  destruct ok; cbn [fst]; [eauto|]. destruct (IH _ _ Hok1 Hv' Hx) as (H1 & H2 & H3). rewrite Ha1 in H2. done.
Qed.

Lemma oldest_ok ghosts cb : cb_ok cb -> let cb' := (reclaimOldestGhost ghosts cb).1.1 in cb_ok cb' /\ abs cb' = abs cb.
Proof.
  revert cb. induction ghosts as [|g ghosts IH]; intros cb Hok; cbn [reclaimOldestGhost]; [done|].
  destruct (reclaimGhost_refines _ g Hok) as [Hok1 Ha1]. destruct (reclaimGhost g cb) as [cb1 ok]. cbn [fst] in *.
  destruct ok; cbn [fst]; [done|]. destruct (IH _ Hok1) as [H1 H2]. rewrite Ha1 in H2. done.
Qed.

(** Claiming and detaching takes the key out of the map. *)
Lemma claim_detach cb k cb1 : cb_ok cb -> claimForEviction k cb = (cb1, true) ->
  let cb2 := detachEvictedLeaf k cb1 in
  cb_ok (add_counts 0 1 0 cb2) /\ abs cb2 = delete k (abs cb) /\ (exists e, abs cb !! k = Some e /\ en_pins e = 0)
  /\ exists x rest, view cb2 k x rest /\ ghost x = false /\ l_deleted x = true.
Proof.
  intros Hok. unfold claimForEviction. destruct (liveLeaf cb k) as [x|] eqn:E; [|done].
  destruct (Z.eqb_spec (l_pins x) 0) as [Hp|]; cbn [negb]; [|done]. intros [= <-].
  destruct (liveLeaf_some _ _ _ Hok E) as [Hd [rest Hv]]. destruct (ok_view _ _ _ _ Hok Hv) as ([A1 A2 A3 A4] & Hr & H1 & H2 & H3).
  specialize (A2 Hd). pose proof (proj2 (Z.leb_le 0 (l_freq x)) A2) as L1. pose proof (proj2 (Z.ltb_ge (l_freq x) 0) A2) as L2.
  unfold detachEvictedLeaf, clearLeaf.
  pose proof (view_alter (set_deleted true) _ _ _ _ Hv ltac:(done)) as Hv'.
  apply (view_alter (set_tips None)), (view_alter (set_data None)), (view_counts _ _ _ _ (-1) 0 0) in Hv'; [|done..].
  split_and!.
  - apply (view_ok _ _ _ _ (view_counts _ _ _ _ 0 1 0 Hv')); [exact (ok_open _ Hok)|by constructor|done|..];
      unfold live, dead, ghost in *; rewrite Hd in *; cbn -[count] in *; rewrite ?L1, ?L2; lia.
  - rewrite (view_abs _ _ _ _ Hv'), (view_abs _ _ _ _ Hv). cbn. rewrite Hd.
    rewrite delete_insert_id; [done|by eapply view_rest].
  - exists (l_entry x). split; [by apply (view_lookup _ _ _ _ Hv Hd)|done].
  - eexists _, rest. split; [exact Hv'|]. unfold ghost. cbn. by rewrite L2.
Qed.

(** Either way of accounting for the leaf restores the invariant. *)
Lemma become_ghost cb k x rest : cb_ok (add_counts 0 1 0 cb) -> view cb k x rest -> ghost x = false -> l_deleted x = true ->
  let cb' := add_counts 0 0 1 (alter_leaf (fun l => set_freq (- Z.max (l_freq l) 1) l) k cb) in
  cb_ok cb' /\ abs cb' = abs cb.
Proof.
  intros Hok Hv Hg Hd. destruct (ok_view _ _ _ _ Hok (view_counts _ _ _ _ 0 1 0 Hv)) as ([A1 A2 A3 A4] & Hr & H1 & H2 & H3).
  assert ((- Z.max (l_freq x) 1 <? 0) = true /\ (0 <=? - Z.max (l_freq x) 1) = false) as [L1 L2] by lia.
  pose proof (view_counts _ _ _ _ 0 0 1 (view_alter (fun l => set_freq (- Z.max (l_freq l) 1) l) _ _ _ _ Hv ltac:(done))) as Hv'. split.
  - unfold live, dead, ghost in *. rewrite Hd in *. cbn -[count] in *. apply Z.ltb_ge in Hg.
    rewrite (proj2 (Z.leb_le 0 (l_freq x)) Hg) in H2. rewrite (proj2 (Z.ltb_ge (l_freq x) 0) Hg) in H3.
    apply (view_ok _ _ _ _ Hv'); [exact (ok_open _ Hok)| |done|..]; unfold live, dead, ghost; cbn -[count]; rewrite ?Hd, ?L1, ?L2; cbn -[count]; try lia.
    constructor; cbn; [unfold maxLeafFreq in *; lia|congruence|auto|done].
  - rewrite (view_abs _ _ _ _ Hv'), (view_abs _ _ _ _ Hv). cbn. by rewrite Hd.
Qed.

Lemma filter_delete_cons (m : index) k ks :
  filter (fun p : bytes * entry => p.1 ∉ ks) (delete k m) = filter (fun p : bytes * entry => p.1 ∉ k :: ks) m.
Proof.
  apply map_eq. intros i. apply option_eq. intros e. rewrite !map_lookup_filter_Some, lookup_delete_Some. cbn.
  rewrite not_elem_of_cons. naive_solver.
Qed.

Lemma evict_cold_refines cold ghosts cb : cb_ok cb ->
  let '(cb', _, victims) := evict_cold cold ghosts cb in
  cb_ok cb' /\ abs cb' = filter (fun p => p.1 ∉ victims) (abs cb)
  /\ (forall k, k ∈ victims -> exists e, abs cb !! k = Some e /\ en_pins e = 0).
Proof.
  assert (forall (m : index), filter (fun p : bytes * entry => p.1 ∉ ([] : list bytes)) m = m) as Hnil.
  { intros m. apply map_filter_id. set_solver. }
  revert ghosts cb. induction cold as [|k cold IH]; intros ghosts cb Hok; cbn [evict_cold].
  { split_and!; [done| |set_solver]. by rewrite Hnil. }
  destruct (claimForEviction k cb) as [cb1 claimed] eqn:Ec. destruct claimed; cbn [negb]; cycle 1.
  { assert (cb1 = cb) as ->; [|by apply IH]. unfold claimForEviction in Ec. repeat case_match; congruence. }
  destruct (claim_detach _ _ _ Hok Ec) as (Hok2 & Ha2 & He & x & rest & Hv & Hg & Hd). set (cb2 := detachEvictedLeaf k cb1) in *.
  assert (exists cb3 ghosts3, (if ghostCap cb2 <=? c_ghostCount cb2 then (reclaimOldestGhost ghosts cb2).1 else (cb2, ghosts)) = (cb3, ghosts3)
    /\ cb_ok (add_counts 0 1 0 cb3) /\ abs cb3 = abs cb2 /\ exists rest', view cb3 k x rest') as (cb3 & ghosts3 & -> & Hok3 & Ha3 & rest3 & Hv3).
  { case_match; [|eauto 10]. destruct (oldest_refines ghosts _ _ _ _ Hok2 Hv Hg) as (H1 & H2 & H3).
    destruct (reclaimOldestGhost ghosts cb2) as [[c3 g3] b]. eauto 10. }
  set (cb4 := if c_ghostCount cb3 <? ghostCap cb3 then _ else _).
  assert (cb_ok cb4 /\ abs cb4 = abs cb3) as [Hok4 Ha4].
  { unfold cb4. case_match; [by apply become_ghost with x rest3|done]. }
  specialize (IH ghosts3 cb4 Hok4). destruct (evict_cold cold ghosts3 cb4) as [[cb5 g5] vs].
  destruct IH as (Hok5 & Ha5 & Hvs). rewrite Ha4, Ha3, Ha2 in *. split_and!; [done|by rewrite Ha5, filter_delete_cons|].
  intros k' [-> |Hk']%elem_of_cons; [done|]. destruct (Hvs k' Hk') as (e & [_ He']%lookup_delete_Some & Hp'). eauto.
Qed.

Lemma evict_refines cb cb' cold ghosts oldest victims reclaimed :
  cb_ok cb -> EvictBatch cold ghosts oldest cb = (cb', victims, reclaimed) -> refines cb (EvEvict victims) cb'.
Proof.
  intros Hok. unfold EvictBatch. rewrite (ok_open _ Hok). pose proof (evict_cold_refines cold ghosts cb Hok) as H.
  destruct (evict_cold cold ghosts cb) as [[cb1 gs] vs]. destruct H as (Hok1 & Ha1 & Hvs).
  assert (spec_step (abs cb) (EvEvict vs) (abs cb1)) as Hs by (rewrite Ha1; by apply spec_evict).
  destruct vs as [|v vs]; [|by intros [= <- <- <-]].
  destruct (oldest_ok gs cb1 Hok1) as [Hok2 Ha2]. destruct (reclaimOldestGhost gs cb1) as [[cb2 gs2] rec]. cbn [fst] in *.
  destruct rec; [intros [= <- <- <-]; split; [done|by rewrite Ha2]|].
  destruct oldest as [k|]; [|intros [= <- <- <-]; split; [done|by rewrite Ha2]].
  destruct (claimForEviction k cb2) as [cb3 claimed] eqn:Ec. destruct claimed; cycle 1.
  { assert (cb3 = cb2) as ->; [unfold claimForEviction in Ec; repeat case_match; congruence|].
    intros [= <- <- <-]. split; [done|by rewrite Ha2]. }
  intros [= <- <- <-]. destruct (claim_detach _ _ _ Hok2 Ec) as (Hok3 & Ha3 & He & _). split; [done|].
  change (abs (add_counts 0 1 0 ?c)) with (abs c). rewrite Ha3, Ha2, Ha1 in *.
  assert (abs cb1 = abs cb) as Heq by (rewrite Ha1; apply map_filter_id; set_solver). rewrite <- Ha1, Heq in *.
  replace (delete k (abs cb)) with (filter (fun p : bytes * entry => p.1 ∉ [k]) (abs cb)).
  - apply spec_evict. by intros k' ->%list_elem_of_singleton.
  - rewrite <- filter_delete_cons. apply map_filter_id. set_solver.
Qed.

(** ** The refinement *)

Lemma step_refines cb ev cb' : cb_ok cb -> trie_step cb ev cb' -> refines cb ev cb'.
Proof.
  intros Hok Hs. inversion Hs; subst; clear Hs.
  - by eapply insert_refines.
  - by eapply delete_refines.
  - by apply remove_refines.
  - by eapply pin_refines.
  - by eapply unpin_refines.
  - by eapply load_refines.
  - by eapply store_refines.
  - by eapply evict_refines.
  - by apply unlink_refines.
  - by apply reap_refines.
  - by apply decay_refines.
Qed.

Lemma empty_ok : cb_ok NewCritbit.
Proof. by constructor. Qed.

Lemma run_refines cb evs cb' : cb_ok cb -> run trie_step cb evs cb' -> cb_ok cb' /\ run spec_step (abs cb) evs (abs cb').
Proof.
  intros Hok Hr. induction Hr as [cb|cb cb1 cb2 ev evs Hs Hr IH]; [split; [done|constructor]|].
  destruct (step_refines _ _ _ Hok Hs) as [Hok1 Hs1]. destruct (IH Hok1) as [Hok2 Hr2]. split; [done|]. by econstructor.
Qed.

Lemma contains_abs cb k : cb_ok cb -> Contains cb k = abs cb !! k ≫= en_tips.
Proof.
  intros Hok. unfold Contains. destruct (liveLeaf cb k) as [x|] eqn:E.
  - destruct (liveLeaf_some _ _ _ Hok E) as [Hd [rest Hv]]. by rewrite (view_lookup _ _ _ _ Hv Hd).
  - by rewrite (liveLeaf_none _ _ Hok E).
Qed.

Lemma size_abs cb : cb_ok cb -> Size cb = Z.of_nat (size (abs cb)).
Proof.
  intros Hok. unfold Size. rewrite (ok_open _ Hok), (ok_size _ Hok). symmetry. apply size_abs_list, cb_leaves_NoDup, Hok.
Qed.

(** [C33] The index is a map.  Whatever operations run on a fresh trie, in
    whatever order, with leaves evicted, turned into ghosts, revived, unlinked
    and reaped in between, every result they return is one the specification
    allows: a finite map from keys to tips, holds and payloads.  Lookups and the
    size are those of that map; an insert without interference never has to
    start over; no key with a hold is evicted; and the counters of dead leaves
    and ghosts agree with what is linked in the trie. *)
Theorem index_refines (evs : list event) (cb : Critbit T) :
  run trie_step NewCritbit evs cb ->
  run spec_step ∅ evs (abs cb)
  /\ (forall k, Contains cb k = abs cb !! k ≫= en_tips)
  /\ Size cb = Z.of_nat (size (abs cb))
  /\ c_deletedCount cb = count dead (cb_leaves cb)
  /\ c_ghostCount cb = count ghost (cb_leaves cb).
Proof.
  intros Hr. destruct (run_refines _ _ _ empty_ok Hr) as [Hok Hs]. split; [done|]. split; [by intros; apply contains_abs|].
  split; [by apply size_abs|]. split; apply Hok.
Qed.

End Refine.

Arguments event : clear implicits.
Arguments entry : clear implicits.
