(* ===== verification/CritbitOrder.v ===== *)
(** * Ordered access to the index

    Range scans, which run in batches, deliver the live keys in lexicographic
    order; the four prefix searches return the nearest live key; a snapshot
    holds what the index holds. *)

From S2P Require Import Prelude Golib TipSet Critbit CritbitProps CritbitRefine.

(** ** Selecting from a list *)

Abbreviation sel := List.filter.

Lemma sel_ext {A} (f g : A -> bool) ls : (forall x, x ∈ ls -> f x = g x) -> sel f ls = sel g ls.
Proof. intros H. apply filter_ext_in. intros x Hx. by apply H, list_elem_of_In. Qed.

Lemma sel_none {A} (f : A -> bool) ls : (forall x, x ∈ ls -> f x = false) -> sel f ls = [].
Proof.
  induction ls as [|x ls IH]; intros H; [done|]. cbn. rewrite H by constructor. apply IH. intros y Hy. apply H. by constructor.
Qed.

Lemma sel_rev {A} (f : A -> bool) ls : sel f (rev ls) = rev (sel f ls).
Proof. apply filter_rev. Qed.

Lemma head_app {A} (l1 l2 : list A) : list.head (l1 ++ l2) = match list.head l1 with Some x => Some x | None => list.head l2 end.
Proof. by destruct l1. Qed.

Lemma elem_of_sel {A} (f : A -> bool) ls x : x ∈ sel f ls <-> x ∈ ls /\ f x = true.
Proof. by rewrite !list_elem_of_In, filter_In. Qed.

Lemma sublist_sel {A} (f : A -> bool) ls : sel f ls `sublist_of` ls.
Proof. induction ls as [|x ls IH]; [done|]. cbn. case_match; by constructor. Qed.

Lemma StronglySorted_sublist {A} (R : A -> A -> Prop) ls ls' : ls `sublist_of` ls' -> StronglySorted R ls' -> StronglySorted R ls.
Proof.
  induction 1 as [|x l l' Hs IH|x l l' Hs IH]; intros H; [done|..]; apply StronglySorted_inv in H as [H1 H2]; [|auto].
  constructor; [auto|]. rewrite list.Forall_forall in *. intros y Hy. apply H2. by eapply elem_of_sublist.
Qed.

Section Order.
Context {T : Type}.
Implicit Types (n m : critNode T) (l x : leafNode T) (ls : list (leafNode T)) (cb : Critbit T) (stack : list (critNode T)).

(** ** Prefixes *)

Definition with_prefix (prefix : bytes) l : bool := has_prefix (l_key l) prefix.

Lemma prefix_direction (key prefix : bytes) p o :
  has_prefix key prefix = true -> (p < length prefix)%nat -> getDirection key p o = getDirection prefix p o.
Proof. intros [tl ->]%has_prefix_spec Hp. unfold getDirection. by rewrite lookup_app_l. Qed.

Lemma findPrefixSubtree_wf n prefix : wf n -> wf (findPrefixSubtree n prefix).
Proof.
  induction n as [l|p o c0 IH0 c1 IH1]; intros Hwf; cbn [findPrefixSubtree]; [done|].
  pose proof Hwf as (_ & _ & _ & _ & H0 & H1). repeat case_match; auto.
Qed.

(** The subtree misses no key with the prefix. *)
Lemma findPrefixSubtree_spec n prefix : wf n ->
  sel (with_prefix prefix) (leaves (findPrefixSubtree n prefix)) = sel (with_prefix prefix) (leaves n).
Proof.
  assert (forall m b p o, (p < length prefix)%nat -> getDirection prefix p o = negb b ->
    (forall k, k ∈ keys_of m -> getDirection k p o = b) -> sel (with_prefix prefix) (leaves m) = []) as Hnone.
  { intros m b p o Hp Hb Hm. apply sel_none. intros l Hl. destruct (with_prefix prefix l) eqn:Hpre; [|done].
    specialize (Hm (l_key l) ltac:(apply elem_of_keys_of; eauto)).
    rewrite (prefix_direction _ _ p o Hpre Hp), Hb in Hm. by destruct b. }
  induction n as [l|p o c0 IH0 c1 IH1]; intros Hwf; cbn [findPrefixSubtree]; [done|].
  pose proof Hwf as (_ & Hl & Hr & _ & H0 & H1). destruct (Nat.leb_spec (length prefix) p); [done|].
  cbn [leaves]. rewrite filter_app. destruct (getDirection prefix p o) eqn:Ed.
  - rewrite IH1 by done. by rewrite (Hnone c0 false p o).
  - rewrite IH0 by done. by rewrite (Hnone c1 true p o), app_nil_r.
Qed.

(** ** Range scans *)

Definition stack_leaves stack : list (leafNode T) := flat_map leaves stack.

Definition in_range_keys prefix after ls : list bytes := l_key <$> sel (in_range prefix after) ls.

Lemma range_batch_spec fuel k prefix after stack : (stack_count stack <= fuel)%nat ->
  let (keys, rest) := range_batch fuel k prefix after stack in
  in_range_keys prefix after (stack_leaves stack) = keys ++ in_range_keys prefix after (stack_leaves rest)
  /\ (exists pre, stack_leaves stack = pre ++ stack_leaves rest /\ keys = in_range_keys prefix after pre)
  /\ (stack_count rest <= stack_count stack)%nat
  /\ (stack <> [] -> k <> 0%nat -> (stack_count rest < stack_count stack)%nat).
Proof.
  revert k stack. induction fuel as [|fuel IH]; intros k stack Hf.
  - destruct stack as [|n stack]; cbn [range_batch].
    + split_and!; try done. by exists [].
    + unfold stack_count in Hf. cbn in Hf. destruct n; cbn in Hf; lia.
  - destruct stack as [|n stack]; cbn [range_batch]; [split_and!; try done; by exists []|].
    destruct k as [|k]; [split_and!; try done; by exists []|].
    destruct n as [l|p o c0 c1].
    + assert (stack_count stack <= fuel)%nat as Hf' by (unfold stack_count in *; cbn in Hf; lia).
      assert (stack_count (Leaf l :: stack) = S (stack_count stack)) as Hsz by done.
      destruct (in_range prefix after l) eqn:El.
      * specialize (IH k stack Hf'). destruct (range_batch fuel k prefix after stack) as [keys rest].
        destruct IH as (H1 & (pre & H2 & H3) & H4 & _). rewrite Hsz. split_and!; [| |lia|lia].
        -- unfold in_range_keys, stack_leaves in *. cbn. rewrite El. cbn. by rewrite H1.
        -- exists (l :: pre). unfold in_range_keys, stack_leaves in *. cbn. rewrite El, H2, H3. done.
      * specialize (IH (S k) stack Hf'). destruct (range_batch fuel (S k) prefix after stack) as [keys rest].
        destruct IH as (H1 & (pre & H2 & H3) & H4 & _). rewrite Hsz. split_and!; [| |lia|lia].
        -- unfold in_range_keys, stack_leaves in *. cbn. by rewrite El.
        -- exists (l :: pre). unfold in_range_keys, stack_leaves in *. cbn. rewrite El, H2, H3. done.
    + assert (stack_count (Node p o c0 c1 :: stack) = S (stack_count (c0 :: c1 :: stack))) as Hsz.
      { unfold stack_count. cbn. lia. }
      rewrite Hsz in Hf. specialize (IH (S k) (c0 :: c1 :: stack) ltac:(lia)).
      assert (stack_leaves (Node p o c0 c1 :: stack) = stack_leaves (c0 :: c1 :: stack)) as Hl.
      { unfold stack_leaves. cbn. by rewrite app_assoc. }
      rewrite Hl, Hsz. destruct (range_batch fuel (S k) prefix after (c0 :: c1 :: stack)) as [keys rest].
      destruct IH as (H1 & H2 & H3 & _). split_and!; [done|done|lia|lia].
Qed.

(** The callback over a list of keys, until it stops. *)
Fixpoint visit {S} (fn : S -> bytes -> S * bool) (keys : list bytes) (s : S) : S :=
  match keys with [] => s | k :: keys' => let (s', go) := fn s k in if go then visit fn keys' s' else s' end.

Lemma deliver_visit {S} (fn : S -> bytes -> S * bool) keys keys' after s :
  let '(s', go, after') := deliver fn keys after s in
  visit fn (keys ++ keys') s = (if go then visit fn keys' s' else s') /\ (go = true -> after' = match list.last keys with Some k => Some k | None => after end).
Proof.
  revert after s. induction keys as [|k keys IH]; intros after s; cbn [deliver app visit]; [done|].
  destruct (fn s k) as [s' go]. destruct go; [|done]. specialize (IH (Some k) s').
  destruct (deliver fn keys (Some k) s') as [[s2 go2] after2]. destruct IH as [H1 H2]. split; [done|]. intros Hgo.
  rewrite (H2 Hgo). destruct keys as [|k2 keys]; [done|]. cbn [list.last]. by destruct (list.last (k2 :: keys)) eqn:E; [|apply last_None in E].
Qed.

Definition ascending (ks : list bytes) : Prop := StronglySorted (fun a b => bytes_compare a b < 0) ks.

(** Moving the lower bound up to a delivered key drops nothing that is left. *)
Lemma in_range_advance prefix after k ls :
  (forall l, l ∈ ls -> bytes_compare k (l_key l) < 0) -> (match after with Some a => bytes_compare a k < 0 | None => True end) ->
  in_range_keys prefix (Some k) ls = in_range_keys prefix after ls.
Proof.
  intros Hk Ha. unfold in_range_keys. f_equal. apply sel_ext. intros l Hl. unfold in_range, bytes_lt. specialize (Hk l Hl).
  rewrite (proj2 (Z.ltb_lt _ 0) Hk). destruct after as [a|]; [|done].
  by rewrite (proj2 (Z.ltb_lt _ 0) (bytes_compare_lt_trans _ _ _ Ha Hk)).
Qed.

Lemma range_loop_spec {S} fuel prefix after (fn : S -> bytes -> S * bool) stack s :
  (stack_count stack < fuel)%nat -> ascending (l_key <$> stack_leaves stack) ->
  range_loop fuel prefix after fn stack s = visit fn (in_range_keys prefix after (stack_leaves stack)) s.
Proof.
  revert after stack s. induction fuel as [|fuel IH]; intros after stack s Hf Hs; [lia|]. cbn [range_loop].
  pose proof (range_batch_spec (stack_count stack) batch_size prefix after stack ltac:(done)) as Hb.
  destruct (range_batch (stack_count stack) batch_size prefix after stack) as [keys rest].
  destruct Hb as (H1 & (pre & H2 & H3) & H4 & H5). rewrite H1.
  pose proof (deliver_visit fn keys (in_range_keys prefix after (stack_leaves rest)) after s) as Hd.
  destruct (deliver fn keys after s) as [[s' go] after']. destruct Hd as [Hd Ha]. rewrite Hd.
  destruct go; cbn [negb]; [|done]. specialize (Ha eq_refl).
  destruct rest as [|r rest]; [done|]. rewrite H2, fmap_app in Hs. rewrite IH.
  - f_equal. destruct (list.last keys) as [k|] eqn:El; [|by subst]. subst after'.
    assert (k ∈ in_range_keys prefix after pre) as Hk by (rewrite <- H3; apply last_Some in El as [l' ->]; set_solver).
    unfold in_range_keys in Hk. apply list_elem_of_fmap in Hk as (lk & -> & [Hlk Hr]%elem_of_sel).
    apply in_range_advance.
    + intros l Hl. apply (StronglySorted_app_1_elem_of _ _ _ _ _ Hs); apply list_elem_of_fmap; eauto.
    + destruct after as [a|]; [|done]. unfold in_range, bytes_lt in Hr. lia.
  - destruct stack as [|n stack]; [|specialize (H5 ltac:(done) ltac:(done)); lia].
    destruct pre; [|done]. cbn in H2. unfold stack_leaves in H2. cbn in H2. pose proof (leaves_ne r) as [l Hl].
    destruct (leaves r); [by apply elem_of_nil in Hl|done].
  - by apply StronglySorted_app_1_r in Hs.
Qed.

(** The keys of the map in an interval with a prefix. *)
Definition selects (m : gmap bytes (entry T)) (prefix : bytes) (beyond : bytes -> Prop) (k : bytes) : Prop :=
  is_Some (m !! k) /\ prefix `prefix_of` k /\ beyond k.

Lemma elem_of_live cb k : cb_ok cb -> is_Some (abs cb !! k) <-> exists l, l ∈ cb_leaves cb /\ l_key l = k /\ l_deleted l = false.
Proof.
  intros Hok. unfold is_Some. split.
  - intros [e (l & Hl & Hk & Hd & _)%abs_list_lookup]; [eauto|]. by apply cb_leaves_NoDup, Hok.
  - intros (l & Hl & Hk & Hd). exists (l_entry l). apply abs_list_lookup; [by apply cb_leaves_NoDup, Hok|eauto].
Qed.

Lemma cb_leaves_ascending cb : cb_ok cb -> ascending (l_key <$> cb_leaves cb).
Proof.
  intros Hok. pose proof (ok_wf _ Hok) as Hw. unfold cb_leaves, root_leaves. destruct (c_root cb); [by apply keys_of_sorted|constructor].
Qed.

Lemma after_iff (after : option bytes) (k : bytes) :
  match after with Some a => bytes_lt a k | None => true end = true <-> match after with Some a => bytes_compare a k < 0 | None => True end.
Proof. destruct after as [a|]; [|done]. unfold bytes_lt. apply Z.ltb_lt. Qed.

Lemma in_range_keys_spec cb prefix after : cb_ok cb ->
  ascending (in_range_keys prefix after (cb_leaves cb))
  /\ forall k, k ∈ in_range_keys prefix after (cb_leaves cb) <->
       selects (abs cb) prefix (fun k => match after with Some a => bytes_compare a k < 0 | None => True end) k.
Proof.
  intros Hok. split.
  - eapply StronglySorted_sublist; [|by apply cb_leaves_ascending]. unfold in_range_keys. apply fmap_sublist, sublist_sel.
  - intros k. unfold in_range_keys, selects. rewrite list_elem_of_fmap, elem_of_live by done. split.
    + intros (l & -> & [Hl Hr]%elem_of_sel). unfold in_range in Hr.
      apply andb_true_iff in Hr as [[Hd%negb_true_iff Ha%after_iff]%andb_true_iff Hp%has_prefix_spec]. eauto 10.
    + intros ((l & Hl & <- & Hd) & Hp%has_prefix_spec & Ha%after_iff). exists l. split; [done|]. apply elem_of_sel. split; [done|].
      unfold in_range. by rewrite Hd, Hp, Ha.
Qed.

(** A range scan is the callback over the selected keys in ascending order. *)
Lemma rangeKeys_spec {S} cb prefix after (fn : S -> bytes -> S * bool) s : cb_ok cb ->
  rangeKeys prefix after fn cb s = visit fn (in_range_keys prefix after (cb_leaves cb)) s.
Proof.
  intros Hok. unfold rangeKeys. rewrite (ok_open _ Hok). pose proof (ok_wf _ Hok) as Hw. pose proof (cb_leaves_ascending _ Hok) as Hs.
  unfold cb_leaves in *. destruct (c_root cb) as [r|]; cbn [from_option root_leaves wf_root] in *; [|done].
  rewrite range_loop_spec; [|lia|].
  - f_equal. unfold stack_leaves. cbn. rewrite app_nil_r. unfold in_range_keys. f_equal.
    assert (forall ls, sel (in_range prefix after) ls =
      sel (fun l => negb (l_deleted l) && match after with Some a => bytes_lt a (l_key l) | None => true end) (sel (with_prefix prefix) ls)) as Hsel.
    { induction ls as [|l ls IH]; [done|]. cbn. unfold with_prefix at 1, in_range at 1. destruct (has_prefix (l_key l) prefix).
      - rewrite andb_true_r. cbn. by rewrite IH.
      - by rewrite andb_false_r. }
    by rewrite !Hsel, findPrefixSubtree_spec.
  - unfold stack_leaves. cbn. rewrite app_nil_r. by apply keys_of_sorted, findPrefixSubtree_wf.
Qed.

(** ** Searching *)

Definition usable (prefix : bytes) l : bool := negb (l_deleted l) && has_prefix (l_key l) prefix.

Definition oriented {A} (d : bool) (ls : list A) : list A := if d then rev ls else ls.

Lemma extremeLeaf_spec n prefix d : extremeLeaf n prefix d = list.head (sel (usable prefix) (oriented d (leaves n))).
Proof.
  induction n as [l|p o c0 IH0 c1 IH1]; cbn [extremeLeaf leaves].
  - destruct d; cbn; fold (usable prefix l); by destruct (usable prefix l).
  - rewrite IH0, IH1. destruct d; cbn [oriented].
    + by rewrite rev_app_distr, filter_app, head_app.
    + by rewrite filter_app, head_app.
Qed.

(** Strictly on the far side of the boundary. *)
Definition beyond (d : bool) (boundary k : bytes) : bool :=
  if d then bytes_compare k boundary <? 0 else bytes_compare boundary k <? 0.

Definition wanted (prefix boundary : bytes) (d : bool) l : bool := usable prefix l && beyond d boundary (l_key l).

Definition nearest (prefix boundary : bytes) (d : bool) n : option (leafNode T) :=
  list.head (sel (wanted prefix boundary d) (oriented d (leaves n))).

Definition orelse {A} (a b : option A) : option A := match a with Some x => Some x | None => b end.

Lemma orelse_assoc {A} (a b c : option A) : orelse a (orelse b c) = orelse (orelse a b) c.
Proof. by destruct a. Qed.

Lemma oriented_elem {A} d (ls : list A) y : y ∈ oriented d ls <-> y ∈ ls.
Proof. destruct d; cbn; [|done]. by rewrite !list_elem_of_In, <- in_rev. Qed.

Lemma nearest_node prefix boundary d p o (c0 c1 : critNode T) :
  nearest prefix boundary d (Node p o c0 c1) =
  orelse (nearest prefix boundary d (child d c0 c1)) (nearest prefix boundary d (child (negb d) c0 c1)).
Proof.
  unfold nearest. cbn [leaves]. destruct d; cbn [oriented child negb].
  - by rewrite rev_app_distr, filter_app, head_app.
  - by rewrite filter_app, head_app.
Qed.

Lemma nearest_all prefix boundary d m :
  (forall k, k ∈ keys_of m -> beyond d boundary k = true) -> nearest prefix boundary d m = extremeLeaf m prefix d.
Proof.
  intros H. rewrite extremeLeaf_spec. unfold nearest. f_equal. apply sel_ext. intros l Hl%oriented_elem. unfold wanted.
  rewrite H, andb_true_r; [done|]. apply elem_of_keys_of. eauto.
Qed.

Lemma nearest_none prefix boundary d m :
  (forall k, k ∈ keys_of m -> beyond d boundary k = false) -> nearest prefix boundary d m = None.
Proof.
  intros H. unfold nearest. rewrite sel_none; [done|]. intros l Hl%oriented_elem. unfold wanted.
  rewrite H, andb_false_r; [done|]. apply elem_of_keys_of. eauto.
Qed.

(** Keys that agree before a bit are ordered by it. *)
Lemma order_by_bit a b p o : o ∈ masks -> agree_before p o a b -> getDirection a p o <> getDirection b p o ->
  bytes_compare a b < 0 <-> getDirection a p o = false.
Proof.
  intros Ho Hag Hd. assert (a <> b) as Hab by congruence. pose proof (findCritBit_spec a b Hab) as Hc.
  destruct (findCritBit a b) as [p' o']. destruct Hc as (Ho' & Hd' & Hag' & Hlt).
  assert ((p, o) = (p', o')) as [= <- <-] by (by apply (first_difference a b)). by rewrite Hlt.
Qed.

(** All keys of a side lie beyond a boundary that went the other way, or none does. *)
Lemma beyond_by_bit boundary k p o d : o ∈ masks -> agree_before p o boundary k ->
  getDirection boundary p o <> getDirection k p o -> beyond d boundary k = Bool.eqb (getDirection boundary p o) d.
Proof.
  intros Ho Hag Hd. pose proof (order_by_bit boundary k p o Ho Hag Hd) as H1.
  pose proof (order_by_bit k boundary p o Ho ltac:(by apply agree_before_sym) ltac:(congruence)) as H2. unfold beyond.
  destruct d; match goal with |- context [?x <? 0] => destruct (Z.ltb_spec x 0) end;
    destruct (getDirection boundary p o), (getDirection k p o); cbn; try done; exfalso; intuition (congruence || lia).
Qed.

Lemma seek_path_app boundary n path :
  seek_path boundary n path = ((seek_path boundary n []).1 ++ path, (seek_path boundary n []).2).
Proof.
  revert path. induction n as [l|p o c0 IH0 c1 IH1]; intros path; cbn [seek_path]; [done|].
  destruct (getDirection boundary p o); [rewrite IH1, (IH1 [_])|rewrite IH0, (IH0 [_])]; cbn; by rewrite <- app_assoc.
Qed.

Lemma seek_path_best boundary n : (seek_path boundary n []).2 = find_best n boundary.
Proof.
  induction n as [l|p o c0 IH0 c1 IH1]; cbn [seek_path find_best]; [done|].
  destruct (getDirection boundary p o); rewrite seek_path_app; cbn; done.
Qed.

Definition inner (e : critNode T * bool) : Prop := match e.1 with Node _ _ _ _ => True | Leaf _ => False end.

Lemma seek_path_inner boundary n : Forall inner (seek_path boundary n []).1.
Proof.
  induction n as [l|p o c0 IH0 c1 IH1]; cbn [seek_path]; [constructor|].
  destruct (getDirection boundary p o); rewrite seek_path_app; cbn; apply list.Forall_app; split; try done; by repeat constructor.
Qed.

Lemma seek_up_app prefix d p1 p2 : Forall inner p1 ->
  seek_up prefix d (p1 ++ p2) = orelse (seek_up prefix d p1) (seek_up prefix d p2).
Proof.
  induction 1 as [|[[l|p o c0 c1] dir] p1 He Hp IH]; cbn [app seek_up]; [done|done|].
  case_match; [|done]. case_match; done.
Qed.

(** One level of a path: the sibling counts if the path went towards the search. *)
Lemma seek_up_one prefix d p o (c0 c1 : critNode T) dir :
  seek_up prefix d [(Node p o c0 c1, dir)] = if Bool.eqb dir d then extremeLeaf (child (negb d) c0 c1) prefix d else None.
Proof. cbn [seek_up]. case_match; [|done]. by case_match. Qed.

(** Combining a child's answer with its sibling. *)
Lemma nearest_level prefix boundary d p o (c0 c1 : critNode T) : wf (Node p o c0 c1) ->
  (forall k, k ∈ keys_of (Node p o c0 c1) -> agree_before p o boundary k) ->
  nearest prefix boundary d (Node p o c0 c1) =
  orelse (nearest prefix boundary d (child (getDirection boundary p o) c0 c1))
         (seek_up prefix d [(Node p o c0 c1, getDirection boundary p o)]).
Proof.
  intros (Ho & Hl & Hr & _ & _ & _) Hag. rewrite nearest_node, seek_up_one.
  assert (forall k, k ∈ keys_of (child (negb (getDirection boundary p o)) c0 c1) ->
    beyond d boundary k = Bool.eqb (getDirection boundary p o) d) as Hsib.
  { intros k Hk. apply beyond_by_bit; [done| |].
    - apply Hag. rewrite keys_of_node. apply elem_of_app. destruct (getDirection boundary p o); cbn in Hk; auto.
    - destruct (getDirection boundary p o); cbn in Hk; [rewrite (Hl k Hk)|rewrite (Hr k Hk)]; done. }
  destruct (Bool.eqb (getDirection boundary p o) d) eqn:E.
  - apply eqb_prop in E. rewrite E in *. f_equal. by apply nearest_all.
  - apply eqb_false_iff in E. assert (d = negb (getDirection boundary p o)) as -> by (by destruct d, (getDirection boundary p o)).
    rewrite negb_involutive, (nearest_none _ _ _ _ Hsib). cbn. by destruct (nearest _ _ _ _).
Qed.

Lemma seek_present prefix boundary d n : wf n -> boundary ∈ keys_of n ->
  seek_up prefix d (seek_path boundary n []).1 = nearest prefix boundary d n.
Proof.
  induction n as [l|p o c0 IH0 c1 IH1]; intros Hwf Hin.
  - cbn [seek_path fst seek_up]. symmetry. apply nearest_none. intros k Hk. unfold keys_of in Hin, Hk. cbn in Hin, Hk.
    apply list_elem_of_singleton in Hin as ->, Hk as ->. unfold beyond. by rewrite bytes_compare_refl, Tauto.if_same.
  - pose proof Hwf as (Ho & Hl & Hr & Ha & H0 & H1). rewrite nearest_level; [|done|by intros; apply Ha].
    rewrite keys_of_node in Hin. cbn [seek_path]. destruct (getDirection boundary p o) eqn:Ed; rewrite seek_path_app; cbn [fst child].
    + rewrite seek_up_app by apply seek_path_inner. rewrite IH1; [done|done|].
      apply elem_of_app in Hin as [Hin|Hin]; [|done]. apply Hl in Hin. congruence.
    + rewrite seek_up_app by apply seek_path_inner. rewrite IH0; [done|done|].
      apply elem_of_app in Hin as [Hin|Hin]; [done|]. apply Hr in Hin. congruence.
Qed.

(** ** Where a missing boundary would go *)

(** The bit lies above every bit of the node. *)
Definition above (p : nat) (o : Z) n : Prop :=
  match n with Leaf _ => True | Node p' o' _ _ => shouldInsertBefore p o p' o' = true end.

Lemma before_trichotomy p o p' o' :
  shouldInsertBefore p o p' o' = true \/ shouldInsertBefore p' o' p o = true \/ (p, o) = (p', o').
Proof.
  destruct (shouldInsertBefore p o p' o') eqn:E1; [by left|]. destruct (shouldInsertBefore p' o' p o) eqn:E2; [auto|].
  apply not_true_iff_false in E1, E2. rewrite shouldInsertBefore_iff in E1, E2. right. right.
  assert (p = p') as -> by lia. f_equal. lia.
Qed.

Lemma before_trans p1 o1 p2 o2 p3 o3 :
  shouldInsertBefore p1 o1 p2 o2 = true -> shouldInsertBefore p2 o2 p3 o3 = true -> shouldInsertBefore p1 o1 p3 o3 = true.
Proof. rewrite !shouldInsertBefore_iff. lia. Qed.

Lemma before_asym p o p' o' : shouldInsertBefore p o p' o' = true -> shouldInsertBefore p' o' p o = false.
Proof. rewrite <- not_true_iff_false, !shouldInsertBefore_iff. lia. Qed.

Lemma wf_child_above p o c0 c1 d : wf (Node p o c0 c1) -> above p o (child d c0 c1).
Proof.
  intros (Ho & Hl & Hr & Ha & H0 & H1). destruct (child d c0 c1) as [|p' o' e0 e1] eqn:Ec; [done|]. cbn.
  assert (wf (child d c0 c1)) as Hwc by (by destruct d). rewrite Ec in Hwc. destruct Hwc as (Ho' & Hl' & Hr' & _ & _ & _).
  destruct (leaves_ne e0) as [x Hx], (leaves_ne e1) as [y Hy].
  assert (l_key x ∈ keys_of e0) as Kx by (apply elem_of_keys_of; eauto). assert (l_key y ∈ keys_of e1) as Ky by (apply elem_of_keys_of; eauto).
  assert (forall k, k ∈ keys_of e0 ++ keys_of e1 -> k ∈ keys_of (child d c0 c1)) as Hin by (rewrite Ec, keys_of_node; done).
  assert (forall k, k ∈ keys_of (child d c0 c1) -> getDirection k p o = d) as Hd by (destruct d; [exact Hr|exact Hl]).
  assert (forall k, k ∈ keys_of (child d c0 c1) -> k ∈ keys_of (Node p o c0 c1)) as Hup.
  { intros k Hk. rewrite keys_of_node. apply elem_of_app. destruct d; auto. }
  pose proof (Hl' _ Kx) as Dx. pose proof (Hr' _ Ky) as Dy.
  assert (l_key x ∈ keys_of (child d c0 c1)) as Ix by (apply Hin, elem_of_app; auto).
  assert (l_key y ∈ keys_of (child d c0 c1)) as Iy by (apply Hin, elem_of_app; auto).
  destruct (before_trichotomy p o p' o') as [?|[Hb|[= <- <-]]]; [done| |].
  - exfalso. pose proof (Ha _ _ (Hup _ Ix) (Hup _ Iy) p' o' Ho' Hb). congruence.
  - exfalso. pose proof (Hd _ Ix). pose proof (Hd _ Iy). congruence.
Qed.

(** Below the critical bit everything is popped from the path. *)
Lemma seek_insertion_above p o boundary n path : wf n -> above p o n ->
  seek_insertion p o (Leaf (find_best n boundary)) ((seek_path boundary n []).1 ++ path) = seek_insertion p o n path.
Proof.
  revert path. induction n as [l|p' o' c0 IH0 c1 IH1]; intros path Hwf Hab; [done|].
  pose proof (wf_child_above _ _ _ _ (getDirection boundary p' o') Hwf) as Hc. pose proof Hwf as (_ & _ & _ & _ & H0 & H1).
  assert (above p o (child (getDirection boundary p' o') c0 c1)) as Hac.
  { destruct (child (getDirection boundary p' o') c0 c1); [done|]. cbn in *. by eapply before_trans. }
  cbn [above] in Hab. cbn [find_best seek_path]. destruct (getDirection boundary p' o') eqn:Ed; rewrite seek_path_app; cbn [fst child] in *.
  - rewrite <- app_assoc, IH1 by done. cbn [app seek_insertion]. by rewrite (before_asym _ _ _ _ Hab).
  - rewrite <- app_assoc, IH0 by done. cbn [app seek_insertion]. by rewrite (before_asym _ _ _ _ Hab).
Qed.

(** A node above the critical bit stays on the path. *)
Lemma seek_insertion_keep p o m pc p' o' c0 c1 dir : Forall inner pc -> shouldInsertBefore p' o' p o = true ->
  seek_insertion p o m (pc ++ [(Node p' o' c0 c1, dir)]) =
  ((seek_insertion p o m pc).1, (seek_insertion p o m pc).2 ++ [(Node p' o' c0 c1, dir)]).
Proof.
  intros Hp Hb. revert m. induction Hp as [|[[l|q r e0 e1] dir'] pc He Hp IH]; intros m; cbn [app seek_insertion]; [by rewrite Hb|done|].
  destruct (shouldInsertBefore q r p o); [done|]. apply IH.
Qed.

Lemma seek_insertion_inner p o m pc : Forall inner pc -> Forall inner (seek_insertion p o m pc).2.
Proof.
  intros Hp. revert m. induction Hp as [|[[l|q r e0 e1] dir'] pc He Hp IH]; intros m; cbn [seek_insertion]; [constructor|done|].
  case_match; [by constructor|apply IH].
Qed.

Lemma seek_absent prefix boundary d n p o : wf n ->
  l_key (find_best n boundary) <> boundary -> findCritBit boundary (l_key (find_best n boundary)) = (p, o) ->
  let cur := find_best n boundary in
  let '(ins, rest) := seek_insertion p o (Leaf cur) (seek_path boundary n []).1 in
  orelse (if Bool.eqb (getDirection (l_key cur) p o) (negb d) then extremeLeaf ins prefix d else None) (seek_up prefix d rest)
  = nearest prefix boundary d n.
Proof.
  intros Hwf Hne Hc. cbv zeta. pose proof (findCritBit_spec boundary (l_key (find_best n boundary)) ltac:(congruence)) as Hs. rewrite Hc in Hs.
  destruct Hs as (Ho & Hd & Hag & _). fold (agree_before p o boundary (l_key (find_best n boundary))) in Hag.
  assert (forall m, wf m -> above p o m -> find_best m boundary = find_best n boundary ->
    orelse (if Bool.eqb (getDirection (l_key (find_best n boundary)) p o) (negb d) then extremeLeaf m prefix d else None) None
    = nearest prefix boundary d m) as Hbase.
  { intros m Hm Hab Hb.
    assert (forall k, k ∈ keys_of m -> beyond d boundary k = Bool.eqb (getDirection (l_key (find_best n boundary)) p o) (negb d)) as Hk.
    { intros k Hk. assert (agree_before p o (l_key (find_best n boundary)) k /\ getDirection k p o = getDirection (l_key (find_best n boundary)) p o) as [H1 H2].
      { rewrite <- Hb. destruct m as [l|p' o' c0 c1].
        - unfold keys_of in Hk. cbn in Hk. apply list_elem_of_singleton in Hk as ->. done.
        - destruct Hm as (_ & _ & _ & Ha & _). cbn in Hab. split.
          + eapply agree_before_mono; [exact Hab|]. apply Ha; [apply find_best_key|done].
          + by apply (Ha _ _ Hk (find_best_key _ _)). }
      rewrite (beyond_by_bit boundary k p o d Ho); [|by eapply agree_before_trans|congruence].
      destruct (getDirection boundary p o), (getDirection (l_key (find_best n boundary)) p o), d; done. }
    destruct (Bool.eqb _ (negb d)); [rewrite <- (nearest_all prefix boundary d m Hk); by destruct (nearest prefix boundary d m)
                                    |by rewrite (nearest_none prefix boundary d m Hk)]. }
  clear Hc Hne. set (cur := find_best n boundary) in *. assert (find_best n boundary = cur) as Hcur by done. clearbody cur.
  induction n as [l|p' o' c0 IH0 c1 IH1].
  { cbn in *. subst l. by apply (Hbase (Leaf cur)). }
  pose proof Hwf as (Ho' & Hl & Hr & Ha & H0 & H1).
  destruct (before_trichotomy p o p' o') as [Hab|[Hbf|[= <- <-]]].
  - pose proof (seek_insertion_above p o boundary (Node p' o' c0 c1) [] Hwf Hab) as E. rewrite app_nil_r, Hcur in E. rewrite E.
    cbn [seek_insertion seek_up]. by apply Hbase.
  - rewrite nearest_level; [|done|]; cycle 1.
    { intros k Hk. eapply agree_before_trans; [by eapply agree_before_mono; [exact Hbf|exact Hag]|]. apply Ha; [|done].
      rewrite <- Hcur. apply find_best_key. }
    cbn [find_best] in Hcur. cbn [seek_path]. destruct (getDirection boundary p' o') eqn:Ed; rewrite seek_path_app; cbn [fst child].
    + rewrite seek_insertion_keep by (try done; apply seek_path_inner). specialize (IH1 H1 Hcur).
      pose proof (seek_insertion_inner p o (Leaf cur) _ (seek_path_inner boundary c1)) as Hin.
      destruct (seek_insertion p o (Leaf cur) (seek_path boundary c1 []).1) as [ins rest]. cbn [fst snd] in *.
      rewrite seek_up_app, <- IH1 by done. apply orelse_assoc.
    + rewrite seek_insertion_keep by (try done; apply seek_path_inner). specialize (IH0 H0 Hcur).
      pose proof (seek_insertion_inner p o (Leaf cur) _ (seek_path_inner boundary c0)) as Hin.
      destruct (seek_insertion p o (Leaf cur) (seek_path boundary c0 []).1) as [ins rest]. cbn [fst snd] in *.
      rewrite seek_up_app, <- IH0 by done. apply orelse_assoc.
  - exfalso. apply Hd. rewrite <- Hcur. cbn [find_best]. destruct (getDirection boundary p o) eqn:Ed; symmetry; [apply Hr|apply Hl]; apply find_best_key.
Qed.

Lemma seek_bounded_spec prefix boundary d n : wf n -> seek_bounded prefix boundary d n = nearest prefix boundary d n.
Proof.
  intros Hwf. unfold seek_bounded. pose proof (seek_path_best boundary n) as Hb. pose proof (seek_absent prefix boundary d n) as Hab.
  pose proof (seek_present prefix boundary d n Hwf) as Hpr. destruct (seek_path boundary n []) as [path cur]. cbn [fst snd] in *. subst cur.
  case_bool_decide as Hk.
  - apply Hpr. rewrite <- Hk at 1. apply find_best_key.
  - destruct (findCritBit boundary (l_key (find_best n boundary))) as [p o] eqn:Ec. specialize (Hab p o Hwf Hk eq_refl). cbn in Hab.
    destruct (seek_insertion p o (Leaf (find_best n boundary)) path) as [ins rest]. done.
Qed.

(** ** Nearest keys *)

Definition far_side (bounded d : bool) (boundary k : bytes) : Prop :=
  bounded = true -> if d then bytes_compare k boundary < 0 else bytes_compare boundary k < 0.

(** [a] is met before [b] in the direction of the search. *)
Definition met_before (d : bool) (a b : bytes) : Prop := if d then bytes_compare b a < 0 else bytes_compare a b < 0.

Lemma beyond_iff d boundary k : beyond d boundary k = true <-> if d then bytes_compare k boundary < 0 else bytes_compare boundary k < 0.
Proof. unfold beyond. destruct d; apply Z.ltb_lt. Qed.

(** The head of a selection from the sorted leaves. *)
Lemma head_sel_spec (f : leafNode T -> bool) d ls : ascending (l_key <$> ls) ->
  match list.head (sel f (oriented d ls)) with
  | Some x => x ∈ ls /\ f x = true /\ forall y, y ∈ ls -> f y = true -> y = x \/ met_before d (l_key x) (l_key y)
  | None => forall y, y ∈ ls -> f y = false
  end.
Proof.
  intros Hs. assert (StronglySorted (fun a b => met_before d (l_key a) (l_key b)) (oriented d ls)) as Ho.
  { induction ls as [|x ls IH]; [destruct d; constructor|]. rewrite fmap_cons in Hs. apply StronglySorted_inv in Hs as [Hs Hx].
    specialize (IH Hs). rewrite list.Forall_fmap, list.Forall_forall in Hx. destruct d; cbn in *.
    - apply StronglySorted_app_2; [|done|repeat constructor]. intros a b Ha ->%list_elem_of_singleton.
      apply Hx. by apply (oriented_elem true).
    - constructor; [done|]. apply list.Forall_forall. intros y Hy. by apply Hx. }
  assert (StronglySorted (fun a b => met_before d (l_key a) (l_key b)) (sel f (oriented d ls))) as Hsel.
  { eapply StronglySorted_sublist; [apply sublist_sel|done]. }
  destruct (sel f (oriented d ls)) as [|x rest] eqn:E; cbn.
  - intros y Hy. destruct (f y) eqn:Ef; [|done]. assert (y ∈ sel f (oriented d ls)) as Hin by (apply elem_of_sel; by rewrite oriented_elem).
    rewrite E in Hin. by apply elem_of_nil in Hin.
  - assert (x ∈ sel f (oriented d ls)) as [Hx%oriented_elem Hfx]%elem_of_sel by (rewrite E; constructor). split_and!; [done..|].
    intros y Hy Hfy. assert (y ∈ sel f (oriented d ls)) as Hin by (apply elem_of_sel; by rewrite oriented_elem).
    rewrite E in Hin. apply elem_of_cons in Hin as [-> |Hin]; [by left|right]. apply StronglySorted_inv in Hsel as [_ Hr].
    rewrite list.Forall_forall in Hr. by apply Hr.
Qed.

(** The search of a subtree is the search of the tree. *)
Lemma seekPrefix_head cb prefix boundary bounded d : cb_ok cb ->
  seekPrefix prefix boundary bounded d cb =
  l_key <$> list.head (sel (fun l => usable prefix l && (negb bounded || beyond d boundary (l_key l))) (oriented d (cb_leaves cb))).
Proof.
  intros Hok. unfold seekPrefix. rewrite (ok_open _ Hok). pose proof (ok_wf _ Hok) as Hw. unfold cb_leaves.
  destruct (c_root cb) as [r|]; cbn [from_option root_leaves wf_root] in *; [|by destruct d].
  f_equal. rewrite extremeLeaf_spec, seek_bounded_spec by (by apply findPrefixSubtree_wf). unfold nearest.
  set (f := fun l => usable prefix l && (negb bounded || beyond d boundary (l_key l))).
  assert (forall ls, sel f ls = sel (fun l => negb (l_deleted l) && (negb bounded || beyond d boundary (l_key l))) (sel (with_prefix prefix) ls)) as Hsel.
  { induction ls as [|l ls IH]; [done|]. cbn. unfold f at 1, usable, with_prefix at 1. destruct (has_prefix (l_key l) prefix).
    - rewrite andb_true_r. cbn. by rewrite IH.
    - by rewrite andb_false_r. }
  assert (sel f (oriented d (leaves (findPrefixSubtree r prefix))) = sel f (oriented d (leaves r))) as <-.
  { destruct d; cbn [oriented]; rewrite ?sel_rev, !Hsel, findPrefixSubtree_spec by done; done. }
  subst f. destruct bounded; cbn [negb orb]; [done|]. f_equal. apply sel_ext. intros l _. by rewrite andb_true_r.
Qed.

Lemma visit_snoc (keys acc : list bytes) : visit (fun acc k => (acc ++ [k], true)) keys acc = acc ++ keys.
Proof. revert acc. induction keys as [|k keys IH]; intros acc; cbn [visit]; [by rewrite app_nil_r|]. rewrite IH, <- app_assoc. done. Qed.

(** Every entry carries tips, so that the live keys are those with tips. *)
Definition tipped (m : gmap bytes (entry T)) : Prop := map_Forall (fun _ e => is_Some (en_tips e)) m.

Lemma tipped_live cb k : cb_ok cb -> tipped (abs cb) -> is_Some (abs cb !! k) <-> is_Some (Contains cb k).
Proof.
  intros Hok Ht. rewrite contains_abs by done. destruct (abs cb !! k) as [e|] eqn:E; simpl.
  - split; [|eauto]. intros _. by apply (Ht k).
  - by rewrite !is_Some_alt.
Qed.

(** Copying the tips of a list of keys into a trie that has none of them. *)
Lemma snapshot_copies (f : bytes -> option TipSet) keys cb : cb_ok cb -> NoDup keys -> (forall k, k ∈ keys -> abs cb !! k = None) ->
  let cb' := visit (fun snap k => (match f k with Some tips => (Insert None k None (Some tips) snap).1 | None => snap end, true)) keys cb in
  cb_ok cb' /\ (tipped (abs cb) -> tipped (abs cb'))
  /\ forall k, Contains cb' k = if bool_decide (k ∈ keys) then f k else Contains cb k.
Proof.
  revert cb. induction keys as [|k keys IH]; intros cb Hok Hn Habs; cbn [visit]; [done|]. apply list.NoDup_cons in Hn as [Hk Hn].
  assert (forall cb1, cb_ok cb1 -> (forall i, i <> k -> abs cb1 !! i = abs cb !! i) -> abs cb1 !! k ≫= en_tips = f k ->
    (tipped (abs cb) -> tipped (abs cb1)) ->
    let cb' := visit (fun snap k => (match f k with Some tips => (Insert None k None (Some tips) snap).1 | None => snap end, true)) keys cb1 in
    cb_ok cb' /\ (tipped (abs cb) -> tipped (abs cb'))
    /\ forall i, Contains cb' i = if bool_decide (i ∈ k :: keys) then f i else Contains cb i) as Hgo.
  { intros cb1 Hok1 Hother Hself Htip. destruct (IH cb1 Hok1 Hn) as (H1 & Ht & H2).
    { intros i Hi. rewrite Hother by congruence. apply Habs. by constructor. }
    split; [done|]. split; [auto|]. intros i. rewrite H2. destruct (decide (i = k)) as [-> |Hik].
    - rewrite (bool_decide_false (k ∈ keys)), (bool_decide_true (k ∈ k :: keys)) by (done || constructor). by rewrite contains_abs.
    - rewrite (bool_decide_ext (i ∈ k :: keys) (i ∈ keys)) by (rewrite elem_of_cons; naive_solver).
      case_bool_decide; [done|]. by rewrite !contains_abs, Hother. }
  destruct (f k) as [tips|] eqn:Ef; [|apply Hgo; [done|done|by rewrite Habs by constructor|done]].
  destruct (Insert None k None (Some tips) cb) as [cb1 res] eqn:Ei. destruct (insert_refines None _ _ _ _ _ _ Hok Ei) as [Hok1 Hs1].
  specialize (Habs k ltac:(constructor)) as Hnone. cbn [fst]. inversion Hs1; subst; try congruence.
  apply Hgo; [done| | |].
  - intros i Hi. match goal with H : _ = abs cb1 |- _ => rewrite <- H end. by rewrite lookup_insert_ne.
  - match goal with H : _ = abs cb1 |- _ => rewrite <- H end. by rewrite lookup_insert_eq.
  - match goal with H : _ = abs cb1 |- _ => rewrite <- H end. intros Ht. by apply map_Forall_insert_2.
Qed.

Lemma snapshot_ok cb : cb_ok cb ->
  cb_ok (Snapshot cb) /\ tipped (abs (Snapshot cb)) /\ forall k, Contains (Snapshot cb) k = Contains cb k.
Proof.
  intros Hok. unfold Snapshot, Range. rewrite rangeKeys_spec by done. destruct (in_range_keys_spec cb [] None Hok) as [H1 H2].
  destruct (snapshot_copies (Contains cb) (in_range_keys [] None (cb_leaves cb)) NewCritbit empty_ok) as (Hc & Ht & Hk); [|done|].
  - pose proof H1 as Hs. clear -Hs. induction Hs as [|a l Hs IH Ha]; constructor; [|done]. intros Hin.
    rewrite list.Forall_forall in Ha. specialize (Ha a Hin). rewrite bytes_compare_refl in Ha. lia.
  - split; [done|]. split; [by apply Ht|]. intros k. rewrite Hk. case_bool_decide as Hin; [done|].
    rewrite (contains_abs cb) by done. destruct (abs cb !! k) eqn:E; [|done].
    exfalso. apply Hin, H2. unfold selects. rewrite E. split_and!; [by eexists|apply prefix_nil|done].
Qed.

Lemma elem_of_all_keys cb k : cb_ok cb -> k ∈ in_range_keys [] None (cb_leaves cb) <-> is_Some (abs cb !! k).
Proof.
  intros Hok. destruct (in_range_keys_spec cb [] None Hok) as [_ H]. rewrite H. unfold selects.
  split; [tauto|]. intros. split_and!; [done|apply prefix_nil|done].
Qed.

(** Scans run in order and miss nothing.  Whatever operations came before, a
    range scan over a prefix, from after a given key, calls the callback on
    exactly the selected live keys, in ascending lexicographic order, until the
    callback stops it: the batches it works in cannot be told.  [Keys] is the
    list of all keys in that order, and a snapshot answers every lookup as the
    index does. *)
Theorem scans_in_order (evictDecider : option (bytes -> bool)) (evs : list (event T)) cb prefix after :
  run (trie_step evictDecider) NewCritbit evs cb ->
  (exists L, ascending L
    /\ (forall k, k ∈ L <-> selects (abs cb) prefix (fun k => match after with Some a => bytes_compare a k < 0 | None => True end) k)
    /\ forall S (fn : S -> bytes -> S * bool) s, rangeKeys prefix after fn cb s = visit fn L s)
  /\ (ascending (Keys cb) /\ forall k, k ∈ Keys cb <-> is_Some (abs cb !! k))
  /\ forall k, Contains (Snapshot cb) k = Contains cb k.
Proof.
  intros Hr. destruct (run_refines _ _ _ _ empty_ok Hr) as [Hok _]. split; [|split].
  - exists (in_range_keys prefix after (cb_leaves cb)). destruct (in_range_keys_spec cb prefix after Hok) as [H1 H2].
    split_and!; [done..|]. intros. by apply rangeKeys_spec.
  - unfold Keys, Range. rewrite rangeKeys_spec, visit_snoc, app_nil_l by done.
    split; [by apply in_range_keys_spec|]. intros k. by apply elem_of_all_keys.
  - by apply snapshot_ok.
Qed.

(** Searches find the nearest key.  Of the live keys with the prefix that lie
    strictly on the far side of the boundary (all of them if there is no
    boundary), the four searches return the first one in the direction of the
    search, and nothing only if there is none; whether the boundary itself is in
    the index makes no difference. *)
Theorem seek_nearest (evictDecider : option (bytes -> bool)) (evs : list (event T)) cb prefix boundary bounded d :
  run (trie_step evictDecider) NewCritbit evs cb ->
  match seekPrefix prefix boundary bounded d cb with
  | Some k => selects (abs cb) prefix (far_side bounded d boundary) k
      /\ forall k', selects (abs cb) prefix (far_side bounded d boundary) k' -> k' = k \/ met_before d k k'
  | None => forall k', ~ selects (abs cb) prefix (far_side bounded d boundary) k'
  end.
Proof.
  intros Hr. destruct (run_refines _ _ _ _ empty_ok Hr) as [Hok _]. rewrite seekPrefix_head by done.
  pose proof (head_sel_spec (fun l => usable prefix l && (negb bounded || beyond d boundary (l_key l))) d _ (cb_leaves_ascending _ Hok)) as Hh.
  assert (forall l, l ∈ cb_leaves cb -> usable prefix l && (negb bounded || beyond d boundary (l_key l)) = true <->
    l_deleted l = false /\ prefix `prefix_of` l_key l /\ far_side bounded d boundary (l_key l)) as Hf.
  { intros l _. unfold usable, far_side. rewrite !andb_true_iff, orb_true_iff, negb_true_iff, has_prefix_spec, beyond_iff.
    destruct bounded; cbn; naive_solver. }
  assert (forall k, selects (abs cb) prefix (far_side bounded d boundary) k ->
    exists l, l ∈ cb_leaves cb /\ l_key l = k /\ usable prefix l && (negb bounded || beyond d boundary (l_key l)) = true) as Hsel.
  { intros k ((l & Hl & <- & Hd)%elem_of_live & Hp & Hs); [|done]. exists l. split_and!; [done..|]. by apply Hf. }
  destruct (list.head _) as [x|]; cbn [fmap option_fmap option_map].
  - destruct Hh as (Hx & Hfx & Hmin). apply Hf in Hfx as (Hd & Hp & Hs); [|done]. split.
    + split_and!; [|done..]. apply elem_of_live; eauto.
    + intros k' (l & Hl & <- & Hfl)%Hsel. destruct (Hmin l Hl Hfl) as [-> |?]; auto.
  - intros k' (l & Hl & _ & Hfl)%Hsel. rewrite Hh in Hfl; done.
Qed.

End Order.
