(* ===== verification/CritbitWitness.v ===== *)
(** * A small index

    Keys that share prefixes and bytes, one deleted, one evicted and brought
    back: the run on which the theorems about the index are applied; and three
    runs that show corners of the interface. *)

From S2P Require Import Prelude Golib TipSet Critbit CritbitProps CritbitRefine CritbitOrder.

Definition ki_ts (n : Z) : option TipSet := Some (NewTipSet n [(1, n); (2, n); (1, n)]).

Definition ki_a : bytes := [x61].
Definition ki_a0 : bytes := [x61; x00].
Definition ki_ab : bytes := [x61; x62].
Definition ki_b : bytes := [x62].

Definition ki_evs : list (event unit) := [
  EvInsert ki_ab None (ki_ts 1) InsertOk;
  EvInsert ki_a0 None (ki_ts 2) InsertOk;
  EvInsert ki_a None (ki_ts 3) InsertOk;
  EvInsert ki_b None (ki_ts 4) InsertOk;
  EvInsert ki_b None (ki_ts 5) (InsertConflict (ki_ts 4));
  EvPin ki_a true;
  EvDelete ki_b (ki_ts 4) (ki_ts 4);
  EvEvict [ki_a0];
  EvInsert ki_a0 None (ki_ts 6) InsertOk;
  EvRemoveTips ki_ab [(2, 1)];
  EvInternal].

(** Insert, evict, revive, delete and reap, on [nat]-indexed states. *)
Definition ki_cb : Critbit unit :=
  let c := (Insert None ki_ab None (ki_ts 1) NewCritbit).1 in
  let c := (Insert None ki_a0 None (ki_ts 2) c).1 in
  let c := (Insert None ki_a None (ki_ts 3) c).1 in
  let c := (Insert None ki_b None (ki_ts 4) c).1 in
  let c := (Insert None ki_b None (ki_ts 5) c).1 in
  let c := (Pin ki_a c).1 in
  let c := (DeleteAndSnapshot ki_b (ki_ts 4) c).1 in
  let c := (EvictBatch [ki_a; ki_a0] [] None c).1.1 in
  let c := (Insert None ki_a0 None (ki_ts 6) c).1 in
  let c := RemoveTips 7 ki_ab [(2, 1)] c in
  (reap c).1.

Lemma ki_run : run (trie_step None) NewCritbit ki_evs ki_cb.
Proof.
  unfold ki_evs, ki_cb.
  do 5 (eapply run_cons; [eapply step_insert; vm_compute; reflexivity|]).
  eapply run_cons; [eapply step_pin; vm_compute; reflexivity|].
  eapply run_cons; [eapply step_delete; vm_compute; reflexivity|].
  eapply run_cons; [eapply (step_evict _ _ _ [ki_a; ki_a0] [] None); vm_compute; reflexivity|].
  eapply run_cons; [eapply step_insert; vm_compute; reflexivity|].
  eapply run_cons; [apply (step_remove _ _ 7)|].
  eapply run_cons; [apply step_reap|].
  apply run_nil.
Qed.

(** The pinned key survived the sweep, the deleted key is gone, the evicted one is back. *)
Lemma index_refines_witness :
  Keys ki_cb = [ki_a; ki_a0; ki_ab] /\ Size ki_cb = Z.of_nat (size (abs ki_cb)) /\ Contains ki_cb ki_b = None.
Proof.
  split; [vm_compute; reflexivity|]. split; [|vm_compute; reflexivity].
  exact (proj1 (proj2 (proj2 (index_refines None ki_evs ki_cb ki_run)))).
Defined.

Lemma scans_in_order_witness :
  (forall k, Contains (Snapshot ki_cb) k = Contains ki_cb k)
  /\ rangeKeys [x61] (Some ki_a) (fun acc k => (acc ++ [k], true)) ki_cb [] = [ki_a0; ki_ab].
Proof.
  split; [|vm_compute; reflexivity].
  exact (proj2 (proj2 (scans_in_order None ki_evs ki_cb [] None ki_run))).
Defined.

(** From a boundary that is not in the index. *)
Lemma seek_nearest_witness :
  seekPrefix [] [x61; x10] true false ki_cb = Some ki_ab
  /\ forall k', selects (abs ki_cb) [] (far_side true false [x61; x10]) k' -> k' = ki_ab \/ met_before false ki_ab k'.
Proof.
  assert (seekPrefix [] [x61; x10] true false ki_cb = Some ki_ab) as E by (vm_compute; reflexivity). split; [exact E|].
  pose proof (seek_nearest None ki_evs ki_cb [] [x61; x10] true false ki_run) as H. rewrite E in H. exact (proj2 H).
Defined.

(** An insert that expects tips on a key that was deleted is refused while the
    dead leaf is linked, and accepted once it was reaped. *)
Theorem expected_tips_ignored_after_reap :
  let c := (Insert None ki_a None (ki_ts 1) (@NewCritbit unit)).1 in
  let c := (DeleteAndSnapshot ki_a (ki_ts 1) c).1 in
  (Insert None ki_a (ki_ts 1) (ki_ts 2) c).2 = InsertConflict None
  /\ (Insert None ki_a (ki_ts 1) (ki_ts 2) (reap c).1).2 = InsertOk.
Proof. vm_compute. split; reflexivity. Qed.

(** A hold survives the deletion of its key: the holder's [Unpin] finds no leaf,
    and the key, inserted again, can no longer be evicted. *)
Theorem hold_outlives_deletion :
  let c := (Insert None ki_a None (ki_ts 1) (@NewCritbit unit)).1 in
  let c := (Pin ki_a c).1 in
  let c := (DeleteAndSnapshot ki_a (ki_ts 1) c).1 in
  Unpin ki_a c = Some (c, false)
  /\ let c := (Insert None ki_a None (ki_ts 2) c).1 in
     Contains c ki_a = ki_ts 2 /\ (EvictBatch [ki_a] [] (Some ki_a) c).1.2 = [].
Proof. vm_compute. split_and!; reflexivity. Qed.

(** A boundary without the prefix is not a boundary: the key returned as the next
    one after [b] sorts before it. *)
Theorem foreign_boundary_ignored :
  let c := (Insert None ki_ab None (ki_ts 1) (@NewCritbit unit)).1 in
  NextWithPrefix [x61] ki_b c = Some ki_ab /\ bytes_compare ki_ab ki_b < 0.
Proof. vm_compute. split; reflexivity. Qed.
