(* ===== verification/Glob.v ===== *)
(** * Glob patterns: keytrie/pattern.go, crdt/dataplane.go

    [MatchGlob] scans with one backtrack point, the last star it passed.  The
    two cursors [si] and [pi] of the source are the suffixes of the string and
    of the pattern that are still ahead; the backtrack point
    [(starIdx + 1, matchIdx)] is the pair of suffixes at those positions, and
    [None] is [starIdx = -1].  The fuel is a bound on the iterations, shown
    sufficient by [glob_loop_spec].

    [glob_matches] is the meaning of a pattern by its syntax: a star stands for
    any string, every other token for one byte.  The theorem is that the scan
    decides it, so giving up on all but the last star loses no match. *)

From S2P Require Import Prelude.

(** ** Character classes *)

Fixpoint matchCharClass (b : byte) (class : bytes) : bool :=
  match class with
  | [] => false
  | lo :: ((dash :: hi :: rest) as tl) =>
      if decide (dash = x2d)
      then ((b2z lo <=? b2z b) && (b2z b <=? b2z hi)) || matchCharClass b rest
      else bool_decide (b = lo) || matchCharClass b tl
  | c :: tl => bool_decide (b = c) || matchCharClass b tl
  end.

(** The inner loop of case '[': the bytes up to the first closing bracket and
    what follows it; [None] when the class is not closed. *)
Fixpoint class_end (p : bytes) : option (bytes * bytes) :=
  match p with
  | [] => None
  | c :: p' =>
      if decide (c = x5d) then Some ([], p')
      else match class_end p' with
           | Some (class, rest) => Some (c :: class, rest)
           | None => None
           end
  end.

Definition class_negate (p : bytes) : bool * bytes :=
  match p with
  | c :: p' => if decide (c = x5e) then (true, p') else (false, p)
  | [] => (false, [])
  end.

Definition all_stars (p : bytes) : bool := forallb (fun c => bool_decide (c = x2a)) p.

(** ** The scan *)

Fixpoint glob_loop (fuel : nat) (s p : bytes) (star : option (bytes * bytes)) : option bool :=
  match fuel with
  | O => None
  | S fuel =>
      match s with
      | [] => Some (all_stars p)
      | c :: s' =>
          let backtrack :=
            match star with
            | Some (sp, m) => glob_loop fuel (tail m) sp (Some (sp, tail m))
            | None => Some false
            end in
          match p with
          | [] => backtrack
          | x :: p' =>
              if decide (x = x2a) then glob_loop fuel s p' (Some (p', s))
              else if decide (x = x3f) then glob_loop fuel s' p' star
              else if decide (x = x5b) then
                let '(negate, q) := class_negate p' in
                match class_end q with
                | None => backtrack
                | Some (class, rest) =>
                    let matched := matchCharClass c class in
                    let matched := if negate then negb matched else matched in
                    if matched then glob_loop fuel s' rest star else backtrack
                end
              else if decide (x = x5c) then
                match p' with
                | y :: p'' => if decide (c = y) then glob_loop fuel s' p'' star else backtrack
                | [] => backtrack
                end
              else if decide (c = x) then glob_loop fuel s' p' star
              else backtrack
          end
      end
  end.

Definition glob_fuel (s p : bytes) : nat := S (length s * S (length p) + length p).

Definition MatchGlob (s pattern : bytes) : bool :=
  default false (glob_loop (glob_fuel s pattern) s pattern None).

(** ** The data plane's copy, crdt/dataplane.go

    The same scan, with the backtrack of an unclosed class written out in its
    branch. *)

Fixpoint pattern_loop (fuel : nat) (s p : bytes) (star : option (bytes * bytes)) : option bool :=
  match fuel with
  | O => None
  | S fuel =>
      match s with
      | [] => Some (all_stars p)
      | c :: s' =>
          let backtrack :=
            match star with
            | Some (sp, m) => pattern_loop fuel (tail m) sp (Some (sp, tail m))
            | None => Some false
            end in
          match p with
          | [] => backtrack
          | x :: p' =>
              if decide (x = x2a) then pattern_loop fuel s p' (Some (p', s))
              else if decide (x = x3f) then pattern_loop fuel s' p' star
              else if decide (x = x5b) then
                let '(negate, q) := class_negate p' in
                match class_end q with
                | None =>
                    match star with
                    | Some (sp, m) => pattern_loop fuel (tail m) sp (Some (sp, tail m))
                    | None => Some false
                    end
                | Some (class, rest) =>
                    let matched := matchCharClass c class in
                    let matched := if negate then negb matched else matched in
                    if matched then pattern_loop fuel s' rest star else backtrack
                end
              else if decide (x = x5c) then
                match p' with
                | y :: p'' => if decide (c = y) then pattern_loop fuel s' p'' star else backtrack
                | [] => backtrack
                end
              else if decide (c = x) then pattern_loop fuel s' p' star
              else backtrack
          end
      end
  end.

Definition MatchGlobPattern (s pattern : bytes) : bool :=
  default false (pattern_loop (glob_fuel s pattern) s pattern None).

(** ** What a pattern means *)

Inductive tok := TStar | TAny | TClass (negate : bool) (class : bytes) | TByte (b : byte) | TNever.

#[global] Instance tok_eq_dec : EqDecision tok.
Proof. solve_decision. Defined.

(** The first token of a pattern and the pattern after it.  An unclosed class
    and a trailing backslash are tokens that nothing matches. *)
Definition head_tok (p : bytes) : option (tok * bytes) :=
  match p with
  | [] => None
  | x :: p' =>
      Some (if decide (x = x2a) then (TStar, p')
            else if decide (x = x3f) then (TAny, p')
            else if decide (x = x5b) then
              let '(negate, q) := class_negate p' in
              match class_end q with
              | Some (class, rest) => (TClass negate class, rest)
              | None => (TNever, [])
              end
            else if decide (x = x5c) then
              match p' with y :: p'' => (TByte y, p'') | [] => (TNever, []) end
            else (TByte x, p'))
  end.

Definition accepts (t : tok) (c : byte) : bool :=
  match t with
  | TStar | TNever => false
  | TAny => true
  | TClass negate class => xorb negate (matchCharClass c class)
  | TByte b => bool_decide (c = b)
  end.

Inductive glob_matches : bytes -> bytes -> Prop :=
  | match_end : glob_matches [] []
  | match_star p p' s1 s2 :
      head_tok p = Some (TStar, p') -> glob_matches p' s2 -> glob_matches p (s1 ++ s2)
  | match_one p t p' c s :
      head_tok p = Some (t, p') -> accepts t c = true -> glob_matches p' s ->
      glob_matches p (c :: s).

(** A byte is in a class when it is one of its single bytes or inside one of
    its ranges. *)
Inductive in_class (b : byte) : bytes -> Prop :=
  | in_range_here lo hi rest :
      b2z lo <= b2z b <= b2z hi -> in_class b (lo :: x2d :: hi :: rest)
  | in_range_later lo hi rest : in_class b rest -> in_class b (lo :: x2d :: hi :: rest)
  | in_byte_here tl : (forall hi rest, tl <> x2d :: hi :: rest) -> in_class b (b :: tl)
  | in_byte_later c tl :
      (forall hi rest, tl <> x2d :: hi :: rest) -> in_class b tl -> in_class b (c :: tl).

Lemma matchCharClass_cons b c tl :
  (forall hi rest, tl <> x2d :: hi :: rest) ->
  matchCharClass b (c :: tl) = bool_decide (b = c) || matchCharClass b tl.
Proof.
  intros H. destruct tl as [|d [|e tl]]; [done..|].
  change (matchCharClass b (c :: d :: e :: tl)) with
    (if decide (d = x2d)
     then ((b2z c <=? b2z b) && (b2z b <=? b2z e)) || matchCharClass b tl
     else bool_decide (b = c) || matchCharClass b (d :: e :: tl)).
  by destruct (decide (d = x2d)) as [->|]; [destruct (H e tl)|].
Qed.

Lemma matchCharClass_in b class : matchCharClass b class = true <-> in_class b class.
Proof.
  split.
  - induction class as [class IH] using (induction_ltof1 _ length). unfold ltof in IH.
    destruct class as [|c tl]; [done|].
    assert (Hd : (exists hi rest, tl = x2d :: hi :: rest) \/ forall hi rest, tl <> x2d :: hi :: rest).
    { destruct tl as [|d [|e r]]; [by right..|].
      destruct (decide (d = x2d)) as [->|]; [left; eauto|right; congruence]. }
    destruct Hd as [(hi & rest & ->)|Hd].
    + simpl. rewrite orb_true_iff, andb_true_iff, !Z.leb_le. intros [?|?]; [by constructor|].
      apply in_range_later, IH; [simpl; lia|done].
    + rewrite matchCharClass_cons, orb_true_iff, bool_decide_eq_true by done.
      intros [->|H]; [by apply in_byte_here|]. apply in_byte_later, IH; [done|simpl; lia|done].
  - induction 1 as [lo hi rest H|lo hi rest _ IH|tl H|c tl H _ IH].
    + simpl. apply orb_true_iff. left. apply andb_true_iff. rewrite !Z.leb_le. done.
    + simpl. by rewrite IH, orb_true_r.
    + by rewrite matchCharClass_cons, bool_decide_true.
    + by rewrite matchCharClass_cons, IH, orb_true_r.
Qed.

(** ** The scan decides the meaning *)

Definition glob_backtrack fuel star : option bool :=
  match star with
  | Some (sp, m) => glob_loop fuel (tail m) sp (Some (sp, tail m))
  | None => Some false
  end.

Lemma glob_loop_cons fuel c s p star :
  glob_loop (S fuel) (c :: s) p star =
  match head_tok p with
  | None => glob_backtrack fuel star
  | Some (TStar, p') => glob_loop fuel (c :: s) p' (Some (p', c :: s))
  | Some (t, p') => if accepts t c then glob_loop fuel s p' star else glob_backtrack fuel star
  end.
Proof.
  destruct p as [|x p']; [done|]. cbn [glob_loop head_tok].
  destruct (decide (x = x2a)); [done|]. destruct (decide (x = x3f)); [done|].
  destruct (decide (x = x5b)).
  { destruct (class_negate p') as [negate q]. destruct (class_end q) as [[class rest]|]; [|done].
    simpl. by destruct negate, (matchCharClass c class). }
  destruct (decide (x = x5c)).
  { destruct p' as [|y p'']; [done|]. simpl. by case_bool_decide; case_decide. }
  simpl. by case_bool_decide; case_decide.
Qed.

Lemma class_end_length q class rest : class_end q = Some (class, rest) -> (length rest < length q)%nat.
Proof.
  revert class. induction q as [|c q IH]; intros class; simpl; [done|].
  case_decide; [intros [= <- <-]; lia|].
  destruct (class_end q) as [[cl r]|]; [|done]. intros [= <- <-]. specialize (IH _ eq_refl). lia.
Qed.

Lemma class_negate_length p : (length (class_negate p).2 <= length p)%nat.
Proof. destruct p as [|c p]; simpl; [lia|]. case_decide; simpl; lia. Qed.

Lemma head_tok_length p t p' : head_tok p = Some (t, p') -> (length p' < length p)%nat.
Proof.
  destruct p as [|x q]; [done|]. simpl. intros [= E].
  repeat case_decide; simplify_eq; try lia.
  - pose proof (class_negate_length q) as Hn. destruct (class_negate q) as [n r]. simpl in Hn.
    destruct (class_end r) as [[cl rest]|] eqn:Er; simplify_eq; simpl; [|lia].
    apply class_end_length in Er. lia.
  - destruct q; simplify_eq; simpl; lia.
Qed.

Lemma glob_matches_nil p : glob_matches p [] <-> all_stars p = true.
Proof.
  split.
  - intros H. remember (@nil byte) as s eqn:Es. revert Es.
    induction H as [|p p' s1 s2 Hh _ IH|]; [done| |done]. intros E.
    apply app_eq_nil in E as [-> ->]. destruct p as [|x q]; [done|]. simpl in *.
    injection Hh as Hh. repeat case_decide; simplify_eq.
    + simpl. by rewrite IH.
    + destruct (class_negate q) as [n r]. by destruct (class_end r) as [[? ?]|].
    + by destruct q.
  - induction p as [|x p IH]; simpl; [constructor|]. rewrite andb_true_iff, bool_decide_eq_true.
    intros [-> H]. apply (match_star _ p [] []); [done|by apply IH].
Qed.

Lemma glob_matches_star p p' s :
  head_tok p = Some (TStar, p') ->
  glob_matches p s <-> exists s1 s2, s = s1 ++ s2 /\ glob_matches p' s2.
Proof.
  intros Hh. split; [|intros (s1 & s2 & -> & H); by eapply match_star].
  inversion 1; simplify_eq; eauto.
Qed.

(** A star in front of [p] matches [s]: some suffix of [s] matches [p]. *)
Definition star_matches (p s : bytes) : Prop :=
  exists s1 s2, s = s1 ++ s2 /\ glob_matches p s2.

Lemma star_matches_cons p c s : star_matches p (c :: s) <-> glob_matches p (c :: s) \/ star_matches p s.
Proof.
  split.
  - intros ([|x s1] & s2 & E & H); simpl in E; simplify_eq; [by left|right]. by exists s1, s2.
  - intros [H|(s1 & s2 & -> & H)]; [by exists [], (c :: s)|by exists (c :: s1), s2].
Qed.

(** [skips k p q]: [k] single-byte tokens lead from the pattern [p] to [q]. *)
Inductive skips : nat -> bytes -> bytes -> Prop :=
  | skips_nil p : skips 0 p p
  | skips_snoc k p q t r :
      skips k p q -> head_tok q = Some (t, r) -> t <> TStar -> skips (S k) p r.

Lemma skips_matches k p q s :
  skips k p q -> glob_matches p s ->
  exists s1 s2, s = s1 ++ s2 /\ length s1 = k /\ glob_matches q s2.
Proof.
  intros Hk. revert s. induction Hk as [p|k p q t r _ IH Hh Ht]; intros s Hs; [by exists [], s|].
  destruct (IH _ Hs) as (s1 & s2 & -> & Hl & H2).
  inversion H2 as [|? ? a b E|? ? ? c b E Ha Hb]; simplify_eq.
  exists (s1 ++ [c]), b. rewrite length_app, <- app_assoc. simpl. split_and!; [done|lia|done].
Qed.

Lemma suffix_of_longer {A} (l1 l2 k1 k2 : list A) :
  l1 ++ l2 = k1 ++ k2 -> (length l2 <= length k2)%nat -> exists a, k2 = a ++ l2.
Proof.
  intros E Hl. pose proof (f_equal length E) as El. rewrite !length_app in El.
  apply app_eq_app in E as (l & [[-> ->]|[-> ->]]); [eauto|].
  rewrite length_app in Hl. destruct l; simpl in *; [by exists []|lia].
Qed.

(** The backtrack point: the pattern after the star led to [p] while the
    string from [m] was read up to [s]. *)
Definition star_ok (s p : bytes) (star : option (bytes * bytes)) : Prop :=
  match star with
  | None => True
  | Some (sp, m) => exists a, m = a ++ s /\ skips (length a) sp p
  end.

(** What is left to try at the backtrack point once the current attempt fails. *)
Definition star_alt (star : option (bytes * bytes)) : Prop :=
  match star with None => False | Some (sp, m) => star_matches sp (tail m) end.

(** What the backtrack point could still match, a star at the current position
    can too. *)
Lemma star_alt_subsumed c s p star :
  star_ok (c :: s) p star -> star_alt star -> star_matches p s.
Proof.
  destruct star as [[sp m]|]; [|done]. simpl. intros (a & -> & Hk) (s1 & s2 & E & H).
  destruct (skips_matches _ _ _ _ Hk H) as (b1 & b2 & -> & Hl & Hb).
  assert (Et : (s1 ++ b1) ++ b2 = tail (a ++ [c]) ++ s).
  { rewrite <- app_assoc, <- E. destruct a as [|x a]; simpl; [done|by rewrite <- app_assoc]. }
  assert (Hn : length (tail (a ++ [c])) = length a) by (rewrite length_tl, length_app; simpl; lia).
  pose proof (f_equal length Et) as El. rewrite !length_app, Hn in El.
  destruct (suffix_of_longer _ _ _ _ Et) as [k ->]; [lia|]. by exists k, b2.
Qed.

Lemma star_alt_nil p star : star_ok [] p star -> star_alt star -> glob_matches p [].
Proof.
  destruct star as [[sp m]|]; [|done]. simpl. intros (a & -> & Hk) (s1 & s2 & E & H).
  destruct (skips_matches _ _ _ _ Hk H) as (b1 & b2 & -> & Hl & Hb).
  apply (f_equal length) in E. rewrite length_tl, app_nil_r, !length_app in E.
  destruct b2; [done|]. simpl in E. lia.
Qed.

Definition glob_measure (P : nat) (s p : bytes) (star : option (bytes * bytes)) : nat :=
  match star with Some (_, m) => length m * S P + length p | None => length s * S P + length p end.

Definition star_len (star : option (bytes * bytes)) : nat :=
  match star with Some (sp, _) => length sp | None => 0 end.

Lemma star_ok_step s p c t q star :
  star_ok (c :: s) p star -> head_tok p = Some (t, q) -> t <> TStar -> star_ok s q star.
Proof.
  destruct star as [[sp m]|]; [|done]. intros (a & -> & Hk) Hh Ht.
  exists (a ++ [c]). rewrite <- app_assoc, length_app, Nat.add_comm. split; [done|]. by eapply skips_snoc.
Qed.

Lemma star_ok_length s p sp m : star_ok s p (Some (sp, m)) -> (length s <= length m)%nat.
Proof. intros (a & -> & _). rewrite length_app. lia. Qed.

(** The loop at a given fuel: it answers, and says whether the pattern ahead
    matches the string ahead or the backtrack point still can. *)
Definition glob_correct (P fuel : nat) : Prop := forall s p star,
  (length p <= P)%nat -> (star_len star <= P)%nat -> star_ok s p star ->
  (glob_measure P s p star < fuel)%nat ->
  exists r, glob_loop fuel s p star = Some r /\ (r = true <-> glob_matches p s \/ star_alt star).

Lemma glob_backtrack_correct P fuel s p c star :
  glob_correct P fuel -> (star_len star <= P)%nat -> star_ok (c :: s) p star ->
  (glob_measure P (c :: s) p star < S fuel)%nat ->
  exists r, glob_backtrack fuel star = Some r /\ (r = true <-> star_alt star).
Proof.
  intros IH Hs Hok Hf. destruct star as [[sp m]|]; simpl; [|by exists false].
  apply star_ok_length in Hok. destruct m as [|x m]; simpl in *; [lia|].
  destruct (IH m sp (Some (sp, m))) as (r & -> & Hr); [done..| | |].
  - exists []. split; [done|constructor].
  - simpl. lia.
  - exists r. split; [done|]. rewrite Hr. destruct m as [|y m]; simpl; [|by rewrite star_matches_cons].
    split; [|by right]. intros [H|H]; [by exists [], []|done].
Qed.

Lemma head_one_matches p t q c s :
  head_tok p = Some (t, q) -> t <> TStar ->
  glob_matches p (c :: s) <-> accepts t c = true /\ glob_matches q s.
Proof.
  intros Hh Ht. split; [|intros [? ?]; by eapply match_one]. inversion 1; simplify_eq; done.
Qed.

Lemma glob_loop_correct P fuel : glob_correct P fuel.
Proof.
  induction fuel as [|fuel IH]; intros s p star Hp Hs Hok Hf; [lia|].
  destruct s as [|c s].
  { exists (all_stars p). split; [done|]. rewrite <- glob_matches_nil.
    split; [by left|]. intros [H|H]; [done|]. by eapply star_alt_nil. }
  pose proof (glob_backtrack_correct P fuel s p c star IH Hs Hok Hf) as Hback.
  rewrite glob_loop_cons. destruct (head_tok p) as [[t q]|] eqn:Hh.
  2:{ destruct Hback as (r & -> & Hr). exists r. split; [done|]. rewrite Hr.
      split; [by right|]. intros [H|H]; [|done]. by inversion H; simplify_eq. }
  pose proof (head_tok_length _ _ _ Hh) as Hlen.
  destruct (decide (t = TStar)) as [->|Ht].
  - destruct (IH (c :: s) q (Some (q, c :: s))) as (r & -> & Hr); simpl; [lia..| | |].
    + exists []. split; [done|constructor].
    + destruct star as [[sp m]|]; simpl in Hf |- *; [|lia].
      apply star_ok_length in Hok. simpl in Hok. nia.
    + exists r. split; [done|]. rewrite Hr, (glob_matches_star p q) by done.
      change (exists s1 s2, c :: s = s1 ++ s2 /\ glob_matches q s2) with (star_matches q (c :: s)).
      rewrite star_matches_cons. simpl. split; [tauto|]. intros [[H|H]|H]; [tauto..|right].
      destruct (star_alt_subsumed _ _ _ _ Hok H) as (a & b & -> & Hb).
      apply (glob_matches_star p q) in Hb as (a' & b' & -> & Hb); [|done].
      exists (a ++ a'), b'. by rewrite <- app_assoc.
  - assert (Hgo : exists r, glob_loop fuel s q star = Some r /\ (r = true <-> glob_matches q s \/ star_alt star)).
    { apply IH; [lia|done|by eapply star_ok_step|].
      destruct star as [[sp m]|]; simpl in Hf |- *; nia. }
    assert (Hone : exists r, (if accepts t c then glob_loop fuel s q star else glob_backtrack fuel star) = Some r
                   /\ (r = true <-> glob_matches p (c :: s) \/ star_alt star)).
    { pose proof (head_one_matches p t q c s Hh Ht) as Hm. destruct (accepts t c).
      - destruct Hgo as (r & -> & Hr). exists r. split; [done|]. clear -Hm Hr. intuition congruence.
      - destruct Hback as (r & -> & Hr). exists r. split; [done|]. clear -Hm Hr. intuition congruence. }
    by destruct t.
Qed.

Lemma pattern_loop_same fuel s p star : pattern_loop fuel s p star = glob_loop fuel s p star.
Proof.
  revert s p star. induction fuel as [|fuel IH]; intros s p star; [done|]. simpl.
  destruct s as [|c s]; [done|]. destruct p as [|x p]; destruct star as [[sp m]|];
    rewrite ?IH; repeat case_decide; try done;
    destruct (class_negate p) as [n q]; destruct (class_end q) as [[cl r]|]; rewrite ?IH; done.
Qed.

Lemma MatchGlob_spec s p : MatchGlob s p = true <-> glob_matches p s.
Proof.
  unfold MatchGlob.
  destruct (glob_loop_correct (length p) (glob_fuel s p) s p None) as (r & -> & Hr);
    [done|simpl; lia|done|unfold glob_fuel, glob_measure; lia|].
  simpl in *. rewrite Hr. tauto.
Qed.

(** A glob pattern matches exactly the keys its syntax describes: the scan
    with one backtrack point returns true just when the string splits along the
    pattern's tokens, a star taking any bytes, a class or its negation, an
    escaped and a plain byte taking one, an unclosed class and a trailing
    backslash taking none; and the data plane's copy of the scan agrees. *)
Theorem glob_decides s p :
  (MatchGlob s p = true <-> glob_matches p s) /\ (MatchGlobPattern s p = true <-> glob_matches p s).
Proof.
  rewrite <- !MatchGlob_spec. split; [done|]. unfold MatchGlobPattern, MatchGlob. by rewrite pattern_loop_same.
Qed.
