(* ===== verification/Safety.v ===== *)
(** * Pattern scans and safety rules: effects/effect.go, effects/config.go,
    effects/safety_config.go, keytrie/critbit.go

    The engine lists its keys by glob pattern, and keeps a list of rules that
    give each key the mode it has when a quorum is out of reach.  The rules are
    projected from two ordinary keys, a string and a hash of patterns.

    A Go map is iterated in an unspecified order: the operations that range
    over one take the entries in the order they come, as a list. *)

From S2P Require Import Prelude Golib Proto Glob TipSet Critbit CritbitProps CritbitRefine CritbitOrder CritbitWitness.

(** ** Scans by pattern *)

Definition star_pattern : bytes := [x2a].

Section Scan.
Context {T : Type}.
Implicit Types c index : Critbit T.

Definition MatchPattern c (pattern : bytes) : list bytes :=
  if c_closed c then []
  else if decide (pattern = star_pattern) then Keys c
  else Range (fun acc key => (if MatchGlob key pattern then acc ++ [key] else acc, true)) c [].

Definition MatchKeys index (pattern : bytes) : list bytes := MatchPattern (Snapshot index) pattern.

Definition ScanKeys {S} index (after pattern : bytes) (fn : S -> bytes -> S * bool) (s : S) : S :=
  let ranger fn := if decide (after = []) then Range fn index s else RangeFrom after fn index s in
  if decide (pattern = star_pattern) then ranger fn
  else ranger (fun s key => if MatchGlob key pattern then fn s key else (s, true)).

End Scan.

(** ** Safety modes *)

Inductive SafetyMode := SafeMode | UnsafeMode.

#[global] Instance SafetyMode_eq_dec : EqDecision SafetyMode.
Proof. solve_decision. Defined.

Record KeyRangeRule := mkRule { kr_pattern : bytes; kr_mode : SafetyMode }.

#[global] Instance KeyRangeRule_eq_dec : EqDecision KeyRangeRule.
Proof. solve_decision. Defined.

Record safetyMap := mkSafety { sm_default : SafetyMode; sm_rules : list KeyRangeRule }.

Fixpoint first_rule (rules : list KeyRangeRule) (key : bytes) : option SafetyMode :=
  match rules with
  | [] => None
  | rule :: rules' => if MatchGlob key (kr_pattern rule) then Some (kr_mode rule) else first_rule rules' key
  end.

Definition modeForKey (sm : safetyMap) (key : bytes) : SafetyMode :=
  default (sm_default sm) (first_rule (sm_rules sm) key).

(** [EngineConfig.ModeForKey], on the configured rules as they stand. *)
Definition ModeForKey (default_mode : SafetyMode) (rules : list KeyRangeRule) (key : bytes) : SafetyMode :=
  default default_mode (first_rule rules key).

(** "__swytch:" *)
Definition system_prefix : bytes := [x5f; x5f; x73; x77; x79; x74; x63; x68; x3a].

Definition withSystemKeyException (rules : list KeyRangeRule) : list KeyRangeRule :=
  mkRule (system_prefix ++ star_pattern) UnsafeMode :: rules.

Definition UpdateSafetyRules (default_mode : SafetyMode) (rules : list KeyRangeRule) : safetyMap :=
  mkSafety default_mode (withSystemKeyException rules).

(** ** The projection from the configuration keys *)

(** "safe" and "unsafe" *)
Definition safe_name : bytes := [x73; x61; x66; x65].
Definition unsafe_name : bytes := [x75; x6e; x73; x61; x66; x65].

Inductive safety_error :=
  | InvalidMode (value : bytes)
  | NotAString
  | NotAHash
  | InField (pattern : bytes) (e : safety_error).

Definition ParseSafetyMode (value : bytes) : safety_error + SafetyMode :=
  if decide (value = safe_name) then inr SafeMode
  else if decide (value = unsafe_name) then inr UnsafeMode
  else inl (InvalidMode value).

Definition SafetyMode_String (m : SafetyMode) : bytes :=
  match m with UnsafeMode => unsafe_name | SafeMode => safe_name end.

Definition get_raw (d : DataEffect) : bytes :=
  match d_value d with Some (Raw b) => b | _ => [] end.

Definition ClusterSafetyMode (state : option FlatReduced) : safety_error + SafetyMode :=
  match state with
  | None => inr SafeMode
  | Some state =>
      if decide (r_op state = REMOVE_OP) then inr SafeMode
      else if negb (bool_decide (r_collection state = SCALAR))
              || (negb (bool_decide (r_type_tag state = TYPE_UNSPECIFIED))
                  && negb (bool_decide (r_type_tag state = TYPE_STRING)))
      then inl NotAString
      else match r_scalar state with
           | None => inr SafeMode
           | Some scalar => ParseSafetyMode (get_raw scalar)
           end
  end.

(** The loop of [KeySafetyModes] over the entries of [GetNetAdds]. *)
Fixpoint decode_fields (entries : list (bytes * ReducedElement)) (modes : gmap bytes SafetyMode)
    : safety_error + gmap bytes SafetyMode :=
  match entries with
  | [] => inr modes
  | (pattern, element) :: entries' =>
      match ParseSafetyMode (get_raw (re_data element)) with
      | inl err => inl (InField pattern err)
      | inr mode => decode_fields entries' (<[pattern := mode]> modes)
      end
  end.

(** [entries] are the fields of the state in the order the iteration yields
    them. *)
Definition KeySafetyModes (state : option FlatReduced) (entries : list (bytes * ReducedElement))
    : safety_error + gmap bytes SafetyMode :=
  match state with
  | None => inr ∅
  | Some state =>
      if decide (r_op state = REMOVE_OP) then inr ∅
      else if negb (bool_decide (r_type_tag state = TYPE_UNSPECIFIED))
              && negb (bool_decide (r_type_tag state = TYPE_HASH)) then inl NotAHash
      else if negb (bool_decide (r_collection state = KEYED)) && negb (bool_decide (r_type_tag state = TYPE_HASH))
      then if bool_decide (r_scalar state = None) && bool_decide (r_type_tag state = TYPE_UNSPECIFIED)
           then inr ∅ else inl NotAHash
      else decode_fields entries ∅
  end.

Fixpoint pattern_prefix (pattern : bytes) (length : Z) : Z * bool :=
  match pattern with
  | [] => (length, true)
  | c :: pattern' =>
      if decide (c = x2a \/ c = x3f \/ c = x5b) then (length, false)
      else if decide (c = x5c) then
        match pattern' with
        | _ :: pattern'' => pattern_prefix pattern'' (length + 1)
        | [] => pattern_prefix pattern' (length + 1)
        end
      else pattern_prefix pattern' (length + 1)
  end.

Definition safetyPatternPrefix (pattern : bytes) : Z * bool := pattern_prefix pattern 0.

Definition cmp_Z (a b : Z) : Z := if a <? b then -1 else if b <? a then 1 else 0.

(** The comparison [SafetyRules] sorts by. *)
Definition compareRules (a b : KeyRangeRule) : Z :=
  let '(ap, ae) := safetyPatternPrefix (kr_pattern a) in
  let '(bp, be) := safetyPatternPrefix (kr_pattern b) in
  if negb (Bool.eqb ae be) then (if ae then -1 else 1)
  else if negb (ap =? bp) then cmp_Z bp ap
  else bytes_compare (kr_pattern a) (kr_pattern b).

Definition SafetyRules `{!SortFunc} (entries : list (bytes * SafetyMode)) : list KeyRangeRule :=
  sort_func compareRules (map (fun '(pattern, mode) => mkRule pattern mode) entries).

(** ** Scans are filters of the ordered keys *)

Section ScanProps.
Context {T : Type}.
Implicit Types c index : Critbit T.

Lemma visit_filter {S} (f : bytes -> bool) (fn : S -> bytes -> S * bool) keys s :
  visit (fun s key => if f key then fn s key else (s, true)) keys s = visit fn (sel f keys) s.
Proof.
  revert s. induction keys as [|k keys IH]; intros s; cbn; [done|].
  destruct (f k); cbn; [|apply IH]. destruct (fn s k) as [s' []]; [apply IH|done].
Qed.

Lemma visit_ext {S} (fn fn' : S -> bytes -> S * bool) keys s :
  (forall s k, fn s k = fn' s k) -> visit fn keys s = visit fn' keys s.
Proof.
  intros H. revert s. induction keys as [|k keys IH]; intros s; cbn; [done|]. rewrite <- H.
  destruct (fn s k) as [s' []]; [apply IH|done].
Qed.

(** A pattern that is one star matches every key. *)
Lemma star_matches_all k : glob_matches star_pattern k.
Proof. rewrite <- (app_nil_r k). by eapply match_star; [|constructor]. Qed.

Lemma sel_star keys : sel (fun k => MatchGlob k star_pattern) keys = keys.
Proof.
  induction keys as [|k keys IH]; cbn [List.filter]; [done|].
  by rewrite (proj2 (MatchGlob_spec k star_pattern) (star_matches_all k)), IH.
Qed.

Lemma ascending_sel f keys : ascending keys -> ascending (sel f keys).
Proof. apply StronglySorted_sublist, sublist_sel. Qed.

Definition after_key (after : bytes) : option bytes := match after with [] => None | _ => Some after end.

Lemma ScanKeys_visit {S} index after pattern (fn : S -> bytes -> S * bool) s : cb_ok index ->
  ScanKeys index after pattern fn s
  = visit fn (sel (fun k => MatchGlob k pattern) (in_range_keys [] (after_key after) (cb_leaves index))) s.
Proof.
  intros Hok. unfold ScanKeys, Range, RangeFrom.
  destruct (decide (pattern = star_pattern)) as [->|_]; [rewrite sel_star|rewrite <- visit_filter];
    destruct (decide (after = [])) as [->|Ha]; rewrite rangeKeys_spec by done; [done| |done|];
    by destruct after.
Qed.

Lemma MatchPattern_filter c pattern : cb_ok c ->
  MatchPattern c pattern = sel (fun k => MatchGlob k pattern) (in_range_keys [] None (cb_leaves c)).
Proof.
  intros Hok. unfold MatchPattern, Keys, Range. rewrite (ok_open _ Hok).
  destruct (decide (pattern = star_pattern)) as [->|_].
  - by rewrite rangeKeys_spec, visit_snoc, app_nil_l, sel_star.
  - rewrite rangeKeys_spec by done. rewrite <- (app_nil_l (sel _ _)), <- visit_snoc, <- visit_filter.
    apply visit_ext. intros acc key. by destruct (MatchGlob key pattern).
Qed.

(** Listing keys by pattern is exact.  Whatever operations built the index,
    [MatchKeys] returns, in ascending order, exactly the keys that have tips and
    that the pattern describes; [ScanKeys] calls its callback on exactly the
    live keys that lie after the given one and that the pattern describes, in
    ascending order, until the callback stops it. *)
Theorem pattern_scan_exact (evictDecider : option (bytes -> bool)) (evs : list (event T)) index pattern after :
  run (trie_step evictDecider) NewCritbit evs index ->
  (ascending (MatchKeys index pattern)
   /\ forall k, k ∈ MatchKeys index pattern <-> is_Some (Contains index k) /\ glob_matches pattern k)
  /\ exists L, ascending L
     /\ (forall k, k ∈ L <-> is_Some (abs index !! k) /\ (after = [] \/ bytes_compare after k < 0) /\ glob_matches pattern k)
     /\ forall S (fn : S -> bytes -> S * bool) s, ScanKeys index after pattern fn s = visit fn L s.
Proof.
  intros Hr. destruct (run_refines _ _ _ _ empty_ok Hr) as [Hok _]. split.
  - destruct (snapshot_ok _ Hok) as (Hs & Ht & Hc). unfold MatchKeys. rewrite MatchPattern_filter by done.
    split; [apply ascending_sel; by apply in_range_keys_spec|]. intros k.
    by rewrite elem_of_sel, elem_of_all_keys, tipped_live, Hc, MatchGlob_spec.
  - exists (sel (fun k => MatchGlob k pattern) (in_range_keys [] (after_key after) (cb_leaves index))).
    destruct (in_range_keys_spec index [] (after_key after) Hok) as [Ha Hk].
    split_and!; [by apply ascending_sel| |intros; by apply ScanKeys_visit].
    intros k. rewrite elem_of_sel, Hk, MatchGlob_spec. unfold selects.
    pose proof (prefix_nil k). destruct after; simpl; naive_solver.
Qed.

End ScanProps.

(** ** System keys are never gated *)

Lemma glob_literal_star p k :
  (forall x, x ∈ p -> x <> x2a /\ x <> x3f /\ x <> x5b /\ x <> x5c) ->
  glob_matches (p ++ star_pattern) k <-> p `prefix_of` k.
Proof.
  revert k. induction p as [|x p IH]; intros k Hp; cbn [app].
  { split; intros; [apply prefix_nil|apply star_matches_all]. }
  destruct (Hp x ltac:(constructor)) as (H1 & H2 & H3 & H4).
  assert (Hh : head_tok (x :: p ++ star_pattern) = Some (TByte x, p ++ star_pattern)).
  { simpl. by rewrite !decide_False. }
  destruct k as [|c k].
  { split; [|by intros ?%prefix_nil_inv]. rewrite glob_matches_nil. simpl. by rewrite bool_decide_false. }
  rewrite (head_one_matches _ _ _ _ _ Hh) by done. simpl. rewrite bool_decide_eq_true, IH.
  - split; [intros [-> ?]; by apply prefix_cons|].
    intros H. split; [by apply prefix_cons_inv_1 in H|by apply prefix_cons_inv_2 in H].
  - intros y Hy. apply Hp. by constructor.
Qed.

Lemma system_rule_matches key :
  MatchGlob key (system_prefix ++ star_pattern) = has_prefix key system_prefix.
Proof.
  apply eq_true_iff_eq. rewrite MatchGlob_spec, has_prefix_spec. apply glob_literal_star.
  intros x Hx. repeat (apply elem_of_cons in Hx as [->|Hx]; [done|]). by apply elem_of_nil in Hx.
Qed.

Lemma modeForKey_update d rules key :
  modeForKey (UpdateSafetyRules d rules) key
  = if has_prefix key system_prefix then UnsafeMode else ModeForKey d rules key.
Proof.
  unfold modeForKey, UpdateSafetyRules, withSystemKeyException. cbn [sm_rules sm_default first_rule kr_pattern kr_mode].
  rewrite system_rule_matches. by destruct (has_prefix key system_prefix).
Qed.

(** ** The rules are a function of the pattern map *)

Lemma cmp_Z_sign a b : cmp_Z a b < 0 <-> a < b.
Proof. unfold cmp_Z. destruct (Z.ltb_spec a b), (Z.ltb_spec b a); lia. Qed.

(** The comparison, as a lexicographic order on (glob last, longer prefix
    first, pattern). *)
Lemma compareRules_sign a b :
  let ra := safetyPatternPrefix (kr_pattern a) in
  let rb := safetyPatternPrefix (kr_pattern b) in
  (compareRules a b < 0 <->
     (ra.2 = true /\ rb.2 = false)
     \/ (ra.2 = rb.2 /\ (rb.1 < ra.1 \/ (ra.1 = rb.1 /\ bytes_compare (kr_pattern a) (kr_pattern b) < 0))))
  /\ (compareRules a b = 0 <-> kr_pattern a = kr_pattern b).
Proof.
  intros ra rb. unfold compareRules. change (safetyPatternPrefix (kr_pattern a)) with ra.
  change (safetyPatternPrefix (kr_pattern b)) with rb.
  assert (Hab : kr_pattern a = kr_pattern b -> ra = rb) by (unfold ra, rb; congruence).
  clearbody ra rb. destruct ra as [ap ae], rb as [bp be]. cbn [fst snd].
  rewrite <- (bytes_compare_eq (kr_pattern a) (kr_pattern b)) in *.
  destruct ae, be; cbn [Bool.eqb negb]; try (split; intuition (try lia; congruence)).
  all: destruct (Z.eqb_spec ap bp) as [->|Hne]; cbn [negb]; [intuition lia|].
  all: assert (bytes_compare (kr_pattern a) (kr_pattern b) <> 0) by (intros E; apply Hne; by specialize (Hab E) as [= ->]).
  all: rewrite cmp_Z_sign; unfold cmp_Z; destruct (Z.ltb_spec bp ap), (Z.ltb_spec ap bp); intuition lia.
Qed.

Lemma compareRules_anti a b : compareRules b a = - compareRules a b.
Proof.
  unfold compareRules. destruct (safetyPatternPrefix (kr_pattern a)) as [ap ae], (safetyPatternPrefix (kr_pattern b)) as [bp be].
  destruct ae, be; simpl; try done; rewrite (Z.eqb_sym bp ap); destruct (Z.eqb_spec ap bp); simpl;
    try apply bytes_compare_antisym; unfold cmp_Z; destruct (Z.ltb_spec bp ap), (Z.ltb_spec ap bp); lia.
Qed.

#[global] Instance compareRules_order : CmpOrder compareRules.
Proof.
  assert (Hlt : forall x y z, compareRules x y < 0 -> compareRules y z < 0 -> compareRules x z < 0).
  { intros x y z Hx%compareRules_sign Hy%compareRules_sign. apply compareRules_sign.
    pose proof (bytes_compare_lt_trans (kr_pattern x) (kr_pattern y) (kr_pattern z)).
    destruct (safetyPatternPrefix (kr_pattern x)) as [xp []], (safetyPatternPrefix (kr_pattern y)) as [yp []],
      (safetyPatternPrefix (kr_pattern z)) as [zp []]; cbn [fst snd] in *; intuition (try congruence; lia). }
  assert (Hcong : forall x y z, kr_pattern x = kr_pattern y -> compareRules x z = compareRules y z /\ compareRules z x = compareRules z y).
  { intros x y z E. unfold compareRules. by rewrite E. }
  split.
  - intros x. by apply compareRules_sign.
  - intros x y. rewrite (compareRules_anti x y). lia.
  - intros x y z H1 H2.
    destruct (decide (compareRules x y = 0)) as [E|].
    { apply compareRules_sign in E. by rewrite (proj1 (Hcong x y z E)). }
    destruct (decide (compareRules y z = 0)) as [E|].
    { apply compareRules_sign in E. by rewrite <- (proj2 (Hcong y z x E)). }
    specialize (Hlt x y z). lia.
Qed.

(** [p] decides the key: it describes it, and every other pattern of the map
    that does comes after it in the order of precedence. *)
Definition decides (modes : gmap bytes SafetyMode) (key p : bytes) (m : SafetyMode) : Prop :=
  modes !! p = Some m /\ glob_matches p key
  /\ forall p' m', modes !! p' = Some m' -> glob_matches p' key -> compareRules (mkRule p m) (mkRule p' m') <= 0.

Lemma first_rule_sorted rules key :
  StronglySorted (fun x y => compareRules x y <= 0) rules ->
  match first_rule rules key with
  | Some m => exists p, mkRule p m ∈ rules /\ glob_matches p key
                /\ forall r, r ∈ rules -> glob_matches (kr_pattern r) key -> compareRules (mkRule p m) r <= 0
  | None => forall r, r ∈ rules -> ~ glob_matches (kr_pattern r) key
  end.
Proof.
  induction 1 as [|r rules Hs IH Hr]; simpl; [intros r Hr; by apply elem_of_nil in Hr|].
  rewrite list.Forall_forall in Hr. destruct (MatchGlob key (kr_pattern r)) eqn:E.
  - apply MatchGlob_spec in E. exists (kr_pattern r). destruct r as [p m]. simpl in *. split_and!; [constructor|done|].
    intros r' [->|Hin]%elem_of_cons _; [by rewrite cmp_refl|by apply Hr].
  - assert (Hno : ~ glob_matches (kr_pattern r) key) by (rewrite <- MatchGlob_spec; congruence).
    destruct (first_rule rules key) as [m|].
    + destruct IH as (p & Hin & Hp & Hmin). exists p. split_and!; [by constructor|done|].
      intros r' [->|Hin']%elem_of_cons Hm; [done|by apply Hmin].
    + intros r' [->|Hin]%elem_of_cons; [done|by apply IH].
Qed.

(** The mode of a key is a function of the configuration, the same on every
    node.  Whatever the order in which the pattern map is iterated and whatever
    the sorting function, the rules come out the same; a system key is never
    gated, and any other key takes the mode of the pattern that decides it,
    exact patterns before globs, longer literal prefixes before shorter, and
    the default mode when no pattern describes it. *)
Theorem safety_mode_determined (s1 s2 : SortFunc) (modes : gmap bytes SafetyMode) entries entries' d key :
  entries ≡ₚ map_to_list modes -> entries' ≡ₚ map_to_list modes ->
  let mode := modeForKey (UpdateSafetyRules d (@SafetyRules s1 entries)) key in
  @SafetyRules s1 entries = @SafetyRules s2 entries'
  /\ (system_prefix `prefix_of` key -> mode = UnsafeMode)
  /\ (~ system_prefix `prefix_of` key ->
       (exists p, decides modes key p mode)
       \/ (mode = d /\ forall p, is_Some (modes !! p) -> ~ glob_matches p key)).
Proof.
  intros Hp Hp'. rewrite modeForKey_update.
  set (rule := fun '(pattern, mode) => mkRule pattern mode).
  assert (Hin : forall p m, mkRule p m ∈ @SafetyRules s1 entries <-> modes !! p = Some m).
  { intros p m. unfold SafetyRules. rewrite elem_of_sort_func. fold rule. rewrite list_elem_of_fmap, <- elem_of_map_to_list, <- Hp.
    split; [intros ([p' m'] & [= -> ->] & ?); done|]. intros. by exists (p, m). }
  split_and!.
  - unfold SafetyRules. fold rule. apply (StronglySorted_unique_strong (fun x y => compareRules x y <= 0)).
    + intros [p m] [p' m'] Hx Hy H1 H2. rewrite (@elem_of_sort_func s2) in Hy.
      apply (Hin p m) in Hx. apply list_elem_of_fmap in Hy as ([q n] & [= -> ->] & Hy).
      rewrite Hp', elem_of_map_to_list in Hy. cbv beta in H1, H2.
      assert (E : compareRules (mkRule p m) (mkRule q n) = 0) by (rewrite compareRules_anti in H2; lia).
      apply compareRules_sign in E. simpl in E. congruence.
    + apply sort_func_sorted, _.
    + apply sort_func_sorted, _.
    + by rewrite !sort_func_perm, Hp, Hp'.
  - intros H%has_prefix_spec. by rewrite H.
  - intros H. rewrite <- has_prefix_spec in H. destruct (has_prefix key system_prefix); [done|].
    pose proof (first_rule_sorted (@SafetyRules s1 entries) key (sort_func_sorted _ _)) as Hf. unfold ModeForKey.
    destruct (first_rule (@SafetyRules s1 entries) key) as [m|]; simpl.
    + left. destruct Hf as (p & H1 & H2 & H3). exists p. split_and!; [by apply Hin|done|].
      intros p' m' Hm Hk. apply H3; [by apply Hin|done].
    + right. split; [done|]. intros p [m Hm]. apply (Hf (mkRule p m)). by apply Hin.
Qed.

(** ** Decoding the configuration hash *)

Lemma parse_string m : ParseSafetyMode (SafetyMode_String m) = inr m.
Proof. by destruct m. Qed.

Lemma parse_inv v m : ParseSafetyMode v = inr m -> v = SafetyMode_String m.
Proof. unfold ParseSafetyMode. repeat case_decide; naive_solver. Qed.

Lemma decode_fields_spec entries modes : NoDup entries.*1 ->
  match decode_fields entries modes with
  | inr ms =>
      (forall p el, (p, el) ∈ entries -> exists m, get_raw (re_data el) = SafetyMode_String m /\ ms !! p = Some m)
      /\ forall p, p ∉ entries.*1 -> ms !! p = modes !! p
  | inl e => exists p el, (p, el) ∈ entries /\ (forall m, get_raw (re_data el) <> SafetyMode_String m)
               /\ e = InField p (InvalidMode (get_raw (re_data el)))
  end.
Proof.
  revert modes. induction entries as [|[p el] entries IH]; intros modes Hn; simpl.
  { split; [intros p el H; by apply elem_of_nil in H|done]. }
  apply list.NoDup_cons in Hn as [Hp Hn]. simpl in *.
  destruct (ParseSafetyMode (get_raw (re_data el))) as [e|m] eqn:E.
  - exists p, el. split_and!; [constructor|intros m Hm; by rewrite Hm, parse_string in E|].
    unfold ParseSafetyMode in E. by repeat case_decide; simplify_eq.
  - specialize (IH (<[p:=m]> modes) Hn). destruct (decode_fields entries (<[p:=m]> modes)) as [e|ms].
    + destruct IH as (p' & el' & Hin & ?). exists p', el'. split; [by constructor|done].
    + destruct IH as [H1 H2]. split.
      * intros p' el' [[= -> ->]|Hin]%elem_of_cons; [|by apply H1].
        exists m. split; [by apply parse_inv|]. rewrite H2 by done. by rewrite lookup_insert_eq.
      * intros p' Hp'. apply not_elem_of_cons in Hp' as [Hne Hp']. rewrite H2 by done. by rewrite lookup_insert_ne.
Qed.

Definition is_hash (st : FlatReduced) : Prop :=
  (r_type_tag st = TYPE_UNSPECIFIED /\ r_collection st = KEYED) \/ r_type_tag st = TYPE_HASH.

Lemma is_hash_guards st : is_hash st ->
  negb (bool_decide (r_type_tag st = TYPE_UNSPECIFIED)) && negb (bool_decide (r_type_tag st = TYPE_HASH)) = false
  /\ negb (bool_decide (r_collection st = KEYED)) && negb (bool_decide (r_type_tag st = TYPE_HASH)) = false.
Proof. intros [[-> ->]| ->]; split; repeat case_bool_decide; done. Qed.

(** The configuration hash decodes all or nothing.  For a live hash the
    result is the map of exactly the patterns of the hash to the modes their
    fields spell, and it is there just when every field spells one; otherwise
    the error names a field that does not and its value.  A key of another
    type is refused, an absent or removed one means no patterns. *)
Theorem safety_config_decoded (st : FlatReduced) entries :
  entries ≡ₚ map_to_list (r_net_adds st) -> r_op st <> REMOVE_OP ->
  (is_hash st ->
   match KeySafetyModes (Some st) entries with
   | inr modes => forall p, option_map SafetyMode_String (modes !! p)
                            = option_map (fun el => get_raw (re_data el)) (r_net_adds st !! p)
   | inl e => exists p el, r_net_adds st !! p = Some el /\ (forall m, get_raw (re_data el) <> SafetyMode_String m)
                /\ e = InField p (InvalidMode (get_raw (re_data el)))
   end)
  /\ (~ is_hash st ->
      KeySafetyModes (Some st) entries = inl NotAHash
      \/ KeySafetyModes (Some st) entries = inr ∅ /\ r_scalar st = None /\ r_type_tag st = TYPE_UNSPECIFIED).
Proof.
  intros Hp Ho. unfold is_hash, KeySafetyModes. rewrite decide_False by done. split; intros Hh.
  - destruct (is_hash_guards st Hh) as [-> ->].
    assert (Hn : NoDup entries.*1) by (rewrite Hp; apply NoDup_fst_map_to_list).
    assert (Hel : forall p el, (p, el) ∈ entries <-> r_net_adds st !! p = Some el) by (intros; by rewrite Hp, elem_of_map_to_list).
    pose proof (decode_fields_spec entries ∅ Hn) as Hd. destruct (decode_fields entries ∅) as [e|modes].
    + destruct Hd as (p & el & Hin & Hd). exists p, el. by rewrite <- Hel.
    + destruct Hd as [H1 H2]. intros p. destruct (r_net_adds st !! p) as [el|] eqn:E; simpl.
      * apply Hel in E. destruct (H1 _ _ E) as (m & -> & ->). done.
      * rewrite H2; [by rewrite lookup_empty|]. intros ([? el] & -> & Hin)%list_elem_of_fmap.
        apply Hel in Hin. simpl in *. congruence.
  - repeat case_bool_decide; simpl; tauto.
Qed.

(** ** Witnesses *)

Definition demo_modes : gmap bytes SafetyMode := {[ [x61; x2a] := UnsafeMode; [x61; x62] := SafeMode ]}.

(** The key "ab" is decided by its exact pattern although "a*" describes it too. *)
Lemma safety_mode_determined_witness :
  modeForKey (UpdateSafetyRules UnsafeMode (@SafetyRules insertion_sorter (map_to_list demo_modes))) [x61; x62] = SafeMode
  /\ exists p, decides demo_modes [x61; x62] p SafeMode.
Proof.
  destruct (safety_mode_determined insertion_sorter insertion_sorter demo_modes (map_to_list demo_modes) (map_to_list demo_modes)
    UnsafeMode [x61; x62] ltac:(reflexivity) ltac:(reflexivity)) as (_ & _ & H).
  assert (E : modeForKey (UpdateSafetyRules UnsafeMode (@SafetyRules insertion_sorter (map_to_list demo_modes))) [x61; x62] = SafeMode)
    by (vm_compute; reflexivity).
  rewrite E in H. split; [exact E|]. destruct H as [H|[H _]]; [|exact H|discriminate].
  intros H%has_prefix_spec. vm_compute in H. discriminate.
Defined.

Definition demo_field (v : bytes) : ReducedElement :=
  mkElement (mkData INSERT_OP LAST_WRITE_WINS KEYED PLACE_NONE [] [] (Some (Raw v))) None 1 None [].

Definition demo_hash (v : bytes) : FlatReduced :=
  mkFlat INSERT_OP LAST_WRITE_WINS KEYED None 1 false None {[ [x61] := demo_field v ]} ∅ [] TYPE_HASH None ∅ None [].

Lemma safety_config_decoded_witness :
  match KeySafetyModes (Some (demo_hash unsafe_name)) (map_to_list (r_net_adds (demo_hash unsafe_name))) with
  | inr modes => modes !! [x61] = Some UnsafeMode
  | inl _ => False
  end
  /\ exists p el, r_net_adds (demo_hash [x3f]) !! p = Some el
       /\ KeySafetyModes (Some (demo_hash [x3f])) (map_to_list (r_net_adds (demo_hash [x3f]))) = inl (InField p (InvalidMode [x3f])).
Proof.
  split; [vm_compute; reflexivity|].
  destruct (safety_config_decoded (demo_hash [x3f]) (map_to_list (r_net_adds (demo_hash [x3f]))) ltac:(reflexivity) ltac:(discriminate)) as [H _].
  specialize (H ltac:(by right)).
  assert (E : KeySafetyModes (Some (demo_hash [x3f])) (map_to_list (r_net_adds (demo_hash [x3f]))) = inl (InField [x61] (InvalidMode [x3f])))
    by (vm_compute; reflexivity).
  rewrite E in H. destruct H as (p & el & H1 & _ & H3). exists p, el. split; [exact H1|]. rewrite E. f_equal. congruence.
Defined.

(** The index of three keys, scanned for the keys that begin with "a" and have
    one more byte. *)
Lemma pattern_scan_exact_witness :
  MatchKeys ki_cb [x61; x3f] = [ki_a0; ki_ab]
  /\ forall k, k ∈ MatchKeys ki_cb [x61; x3f] <-> is_Some (Contains ki_cb k) /\ glob_matches [x61; x3f] k.
Proof.
  split; [vm_compute; reflexivity|].
  exact (proj2 (proj1 (pattern_scan_exact None ki_evs ki_cb [x61; x3f] [] ki_run))).
Defined.
