(* ===== verification/Stn.v ===== *)
(** * The temporal network: stn/stn.go, stn/cardinality.go, stn/topology.go

    A network holds upper bounds on the differences of time points: an edge
    [u -> v] of weight [w] means [time(v) - time(u) <= w].  [Constrain] adds a
    bound and propagates it over the chordal graph, [Upper] answers a query,
    [Connect] adds an edge with the bounds already implied.

    Vertex ids are naturals: the code rejects a negative id as it rejects one
    out of range.  The doubly linked buckets of the cardinality
    queue are the lists they link, and the heap of the degree queue, whose
    order is total, is its set of vertices with a pop of the least.

    [ErrFuel] is not an error of the code: it is what the model returns if a
    loop outlives its fuel, and is shown never to happen. *)

From S2P Require Import Prelude.

Definition Infinity : Z := max_int64.

Inductive stn_error := ErrInconsistent | ErrVertex | ErrEdge | ErrWeight | ErrFuel.

(** ** Sums of bounds *)

Definition pathSum (a b : Z) : Z :=
  if bool_decide (a = Infinity) || bool_decide (b = Infinity) || ((0 <? b) && (max_int64 - b <? a))
  then Infinity else wrap64 (a + b).

(** ** The graph *)

Abbreviation graph := (list (gmap nat Z)).

Definition adj_at (adj : graph) (v : nat) : gmap nat Z := default ∅ (adj !! v).

Definition edge (adj : graph) (u v : nat) : option Z := adj_at adj u !! v.

(** A missing entry of a Go map reads as zero. *)
Definition weight (adj : graph) (u v : nat) : Z := default 0 (edge adj u v).

Definition set_weight (u v : nat) (w : Z) (adj : graph) : graph := alter <[v := w]> u adj.

Record Network := mkNetwork {
  n_adj : graph;
  n_limit : Z;
  n_maxInput : Z;
  n_order : list nat;
  n_rank : list nat;
}.

Definition with_adj (adj : graph) (s : Network) : Network :=
  mkNetwork adj (n_limit s) (n_maxInput s) (n_order s) (n_rank s).

Definition vertex (s : Network) (v : nat) : bool := (v <? length (n_adj s))%nat.

Definition link (s : Network) (a b : nat) : Network :=
  match edge (n_adj s) a b with
  | Some _ => s
  | None => with_adj (set_weight b a Infinity (set_weight a b Infinity (n_adj s))) s
  end.

(** ** The cardinality queue *)

Record cardinality := mkCard {
  q_first : gmap nat (list nat);
  q_count : gmap nat nat;
  q_max : Z;
}.

Definition newCardinality (n : nat) : cardinality :=
  mkCard {[ 0%nat := rev (seq 0 n) ]} (list_to_map (map (fun v => (v, 0%nat)) (seq 0 n))) 0.

Definition q_contains (q : cardinality) (v : nat) : bool := bool_decide (is_Some (q_count q !! v)).

Definition bucket (q : cardinality) (k : nat) : list nat := default [] (q_first q !! k).

Definition q_remove (v : nat) (q : cardinality) : cardinality :=
  match q_count q !! v with
  | None => q
  | Some k => mkCard (<[k := filter (fun u => u <> v) (bucket q k)]> (q_first q)) (delete v (q_count q)) (q_max q)
  end.

Definition q_increment (v : nat) (q : cardinality) : cardinality :=
  let count := S (default 0%nat (q_count q !! v)) in
  let q := q_remove v q in
  mkCard (<[count := v :: bucket q count]> (q_first q)) (<[v := count]> (q_count q)) (Z.max (q_max q) (Z.of_nat count)).

(** The scan down from bucket [m - 1]. *)
Fixpoint scan_max (q : cardinality) (m : nat) : cardinality * option nat :=
  match m with
  | O => (mkCard (q_first q) (q_count q) (-1), None)
  | S k =>
      match bucket q k with
      | v :: _ => (mkCard (q_first q) (q_count q) (Z.of_nat k), Some v)
      | [] => scan_max q k
      end
  end.

Definition maximum (q : cardinality) : cardinality * option nat := scan_max q (Z.to_nat (q_max q + 1)).

(** ** Distances *)

Abbreviation distances := (Z * Z)%type.

Definition resetDistances (n : nat) : list distances := replicate n (Infinity, Infinity).

Definition dist_at (d : list distances) (v : nat) : distances := default (Infinity, Infinity) (d !! v).

(** [distance[from].forward, distance[to].backward = 0, 0] *)
Definition start_distances (n from to : nat) : list distances :=
  alter (fun d => (d.1, 0)) to (alter (fun d => (0, d.2)) from (resetDistances n)).

(** ** Queries *)

Section Queries.
Context `{!MapRange}.

(** One neighbour of the inner loop of [upper]. *)
Definition relax (adj : graph) (rank : list nat) (v : nat) (distance : list distances) (nb : nat * Z) : list distances :=
  let '(u, vu) := nb in
  if (default 0 (rank !! u) <=? default 0 (rank !! v))%nat then distance
  else
    let '(fv, bv) := dist_at distance v in
    let '(fu, bu) := dist_at distance u in
    <[u := (Z.min fu (pathSum fv vu), Z.min bu (pathSum bv (weight adj u v)))]> distance.

Fixpoint upper_loop (adj : graph) (rank order : list nat) (distance : list distances) (bound : Z) : Z :=
  match order with
  | [] => bound
  | v :: order' =>
      let '(fv, bv) := dist_at distance v in
      let bound := Z.min bound (pathSum fv bv) in
      if bool_decide (fv = Infinity) && bool_decide (bv = Infinity)
      then upper_loop adj rank order' distance bound
      else upper_loop adj rank order' (fold_left (relax adj rank v) (map_range (length order') (adj_at adj v)) distance) bound
  end.

Definition upper (s : Network) (from to : nat) : Z :=
  upper_loop (n_adj s) (n_rank s) (n_order s) (start_distances (length (n_adj s)) from to) Infinity.

Definition Upper (s : Network) (from to : nat) : stn_error + Z :=
  if negb (vertex s from) || negb (vertex s to) then inl ErrVertex
  else if decide (from = to) then inr 0
  else match edge (n_adj s) from to with
       | Some w => inr w
       | None => inr (upper s from to)
       end.

Definition bounds (s : Network) (from to : nat) : Z * Z :=
  match edge (n_adj s) from to with
  | Some w => (w, weight (n_adj s) to from)
  | None => (upper s from to, upper s to from)
  end.

(** ** Chordal topology *)

(** Maximum cardinality search, from the last position to the first. *)
Fixpoint mcs_loop (adj : graph) (i : nat) (q : cardinality) (order rank : list nat) : list nat * list nat :=
  match i with
  | O => (order, rank)
  | S i' =>
      match maximum q with
      | (_, None) => (order, rank)
      | (q, Some v) =>
          let q := q_remove v q in
          let q := fold_left (fun q nb => if q_contains q nb.1 then q_increment nb.1 q else q) (map_range i' (adj_at adj v)) q in
          mcs_loop adj i' q (v :: order) (<[v := i']> rank)
      end
  end.

Definition rank_of (rank : list nat) (v : nat) : nat := default 0%nat (rank !! v).

(** The neighbour of the least rank above [v]. *)
Definition elimination_parent (adj : graph) (rank : list nat) (v : nat) : option nat :=
  fold_left (fun parent nb =>
    if (rank_of rank v <? rank_of rank nb.1)%nat &&
       match parent with None => true | Some p => (rank_of rank nb.1 <? rank_of rank p)%nat end
    then Some nb.1 else parent) (map_range v (adj_at adj v)) None.

(** The higher neighbours of [v] are joined to its parent. *)
Definition higher_joined (adj : graph) (rank : list nat) (v : nat) : bool :=
  match elimination_parent adj rank v with
  | None => true
  | Some parent =>
      forallb (fun nb => negb (negb (bool_decide (nb.1 = parent)) && (rank_of rank v <? rank_of rank nb.1)%nat)
                         || bool_decide (is_Some (edge adj parent nb.1))) (map_range v (adj_at adj v))
  end.

Definition chordalOrder (adj : graph) : list nat * option (list nat) :=
  let n := length adj in
  let '(order, rank) := mcs_loop adj n (newCardinality n) [] (replicate n 0%nat) in
  (order, if forallb (higher_joined adj rank) (seq 0 n) then Some rank else None).

(** The degree queue: the vertices still in it and the degree of every vertex. *)
Record degreeQueue := mkDegree { dq_vertices : list nat; dq_degree : list Z }.

Definition degree_of (q : degreeQueue) (v : nat) : Z := default 0 (dq_degree q !! v).

Definition degree_less (q : degreeQueue) (a b : nat) : bool :=
  (degree_of q a <? degree_of q b) || ((degree_of q a =? degree_of q b) && (a <? b)%nat).

Definition bump_degree (d : Z) (v : nat) (q : degreeQueue) : degreeQueue :=
  mkDegree (dq_vertices q) (alter (fun x => x + d) v (dq_degree q)).

Definition pop_least (q : degreeQueue) : option (nat * degreeQueue) :=
  match dq_vertices q with
  | [] => None
  | v0 :: vs =>
      let v := fold_left (fun best u => if degree_less q u best then u else best) vs v0 in
      Some (v, mkDegree (filter (fun u => u <> v) (dq_vertices q)) (dq_degree q))
  end.

(** The inner loop over [neighbors[i+1:]]. *)
Definition fill_from (add : Network -> nat -> nat -> Network) (u : nat) (ws : list nat) (st : Network * degreeQueue)
    : Network * degreeQueue :=
  fold_left (fun '(s, q) w =>
    match edge (n_adj s) u w with
    | Some _ => (s, q)
    | None => (add s u w, bump_degree 1 w (bump_degree 1 u q))
    end) ws st.

Fixpoint fill_pairs (add : Network -> nat -> nat -> Network) (neighbors : list nat) (st : Network * degreeQueue)
    : Network * degreeQueue :=
  match neighbors with
  | [] => st
  | u :: ws => fill_pairs add ws (fill_from add u ws st)
  end.

Fixpoint eliminate (add : Network -> nat -> nat -> Network) (fuel : nat) (s : Network) (q : degreeQueue) (order : list nat)
    : Network * list nat :=
  match fuel with
  | O => (s, order)
  | S fuel' =>
      match pop_least q with
      | None => (s, order)
      | Some (v, q) =>
          let neighbors := filter (fun u => u ∈ dq_vertices q) (map fst (map_range fuel' (adj_at (n_adj s) v))) in
          let q := fold_left (fun q u => bump_degree (-1) u q) neighbors q in
          let '(s, q) := fill_pairs add neighbors (s, q) in
          eliminate add fuel' s q (order ++ [v])
      end
  end.

Definition set_order (order rank : list nat) (s : Network) : Network :=
  mkNetwork (n_adj s) (n_limit s) (n_maxInput s) order rank.

Definition inverse_order (order : list nat) : list nat :=
  fold_left (fun rank '(i, v) => <[v := i]> rank) (imap pair order) (replicate (length order) 0%nat).

Definition triangulate (add : Network -> nat -> nat -> Network) (s : Network) : Network :=
  match chordalOrder (n_adj s) with
  | (order, Some rank) => set_order order rank s
  | (_, None) =>
      let n := length (n_adj s) in
      let q := mkDegree (seq 0 n) (map (fun edges => Z.of_nat (size edges)) (n_adj s)) in
      let '(s, order) := eliminate add n s q [] in
      set_order order (inverse_order order) s
  end.

(** ** Construction *)

Fixpoint link_pairs (topology : list (nat * nat)) (s : Network) : stn_error + Network :=
  match topology with
  | [] => inr s
  | (a, b) :: topology' =>
      if negb (vertex s a) || negb (vertex s b) then inl ErrVertex
      else link_pairs topology' (if decide (a = b) then s else link s a b)
  end.

Definition New (n : nat) (topology : list (nat * nat)) : stn_error + Network :=
  if (2 ^ 20 <? Z.of_nat n) then inl ErrVertex
  else
    let s := mkNetwork (replicate n ∅) (2 ^ 60 / (Z.of_nat n + 1)) 0 [] [] in
    match link_pairs topology s with
    | inl e => inl e
    | inr s => inr (triangulate link s)
    end.

Definition AddPoint (s : Network) : stn_error + (Network * nat) :=
  let n := length (n_adj s) in
  if (2 ^ 20 <=? Z.of_nat n) then inl ErrVertex
  else
    let limit := 2 ^ 60 / (Z.of_nat n + 2) in
    if limit <? n_maxInput s then inl ErrWeight
    else inr (mkNetwork (n_adj s ++ [∅]) limit (n_maxInput s) (n_order s ++ [n]) (n_rank s ++ [n]), n).

(** [add] of [Connect]. *)
Definition add_implied (s : Network) (u v : nat) : Network :=
  let '(uv, vu) := bounds s u v in
  with_adj (set_weight v u vu (set_weight u v uv (n_adj s))) s.

Definition Connect (s : Network) (a b : nat) : stn_error + Network :=
  if negb (vertex s a) || negb (vertex s b) then inl ErrVertex
  else if decide (a = b) then inr s
  else match edge (n_adj s) a b with
       | Some _ => inr s
       | None => inr (triangulate add_implied (add_implied s a b))
       end.

Definition WeightLimit (s : Network) : Z := n_limit s.

(** ** Tightening *)

Record tightening := mkTight { t_q : cardinality; t_adj : graph; t_dist : list distances }.

(** One neighbour of the vertex [v] being visited. *)
Definition tighten_edge (bound : Z) (v : nat) (st : tightening) (nb : nat * Z) : tightening :=
  let '(u, vu) := nb in
  let '(mkTight q adj distance) := st in
  let uv := weight adj u v in
  let '(fu, bu) := dist_at distance u in
  let '(fv, bv) := dist_at distance v in
  if q_contains q u then
    mkTight (q_increment u q) adj
      (<[u := (Z.min fu (pathSum uv fv), Z.min bu (pathSum bv vu))]> distance)
  else
    mkTight q
      (set_weight v u (Z.min vu (pathSum (pathSum fv bound) bu))
        (set_weight u v (Z.min uv (pathSum (pathSum fu bound) bv)) adj)) distance.

Definition visit_vertex (bound : Z) (k v : nat) (st : tightening) : tightening :=
  let st := mkTight (q_remove v (t_q st)) (t_adj st) (t_dist st) in
  fold_left (tighten_edge bound v) (map_range k (adj_at (t_adj st) v)) st.

Fixpoint tighten_loop (fuel : nat) (from to : nat) (bound : Z) (v : nat) (st : tightening) : option graph :=
  match fuel with
  | O => None
  | S fuel' =>
      let st := visit_vertex bound fuel' v st in
      let '(q, next) := if decide (v = from) then (t_q st, Some to) else maximum (t_q st) in
      match next with
      | None => Some (t_adj st)
      | Some v' => tighten_loop fuel' from to bound v' (mkTight q (t_adj st) (t_dist st))
      end
  end.

Definition Constrain (s : Network) (from to : nat) (bound : Z) : stn_error + Network :=
  if negb (vertex s from) || negb (vertex s to) then inl ErrVertex
  else if (bound <? - n_limit s) || (n_limit s <? bound) then inl ErrWeight
  else if decide (from = to) then if bound <? 0 then inl ErrInconsistent else inr s
  else match edge (n_adj s) from to with
       | None => inl ErrEdge
       | Some old =>
           if pathSum bound (weight (n_adj s) to from) <? 0 then inl ErrInconsistent
           else if old <=? bound then inr s
           else
             let n := length (n_adj s) in
             match tighten_loop (S n) from to bound from
                     (mkTight (newCardinality n) (n_adj s) (start_distances n from to)) with
             | None => inl ErrFuel
             | Some adj =>
                 inr (mkNetwork adj (n_limit s) (Z.max (n_maxInput s) (Z.max bound (- bound))) (n_order s) (n_rank s))
             end
       end.

End Queries.
