(* ===== verification/StnExact.v ===== *)
(** * The temporal network keeps exactly the feasible times

    Times are rational: with [K] units to the nanosecond, a time is a whole
    number of units and a weight [w] bounds a difference by [K * w].  All times
    lie within [2^61] nanoseconds (73 years) of the origin, which is what keeps
    the 64-bit sums of bounds from wrapping below. *)

From S2P Require Import Prelude Stn.

(** ** The graph *)

Lemma edge_set_weight adj u v w a b :
  edge (set_weight u v w adj) a b
  = if decide (a = u /\ b = v /\ (u < length adj)%nat) then Some w else edge adj a b.
Proof.
  unfold edge, adj_at, set_weight. destruct (decide (a = u)) as [->|Ha].
  - rewrite list_lookup_alter_eq. destruct (adj !! u) as [m|] eqn:E; simpl.
    + apply lookup_lt_Some in E. destruct (decide (b = v)) as [->|Hb].
      * rewrite (decide_True (P := _ /\ _)) by done. apply lookup_insert_eq.
      * rewrite (decide_False (P := _ /\ _)) by tauto. by apply lookup_insert_ne.
    + apply lookup_ge_None in E. rewrite (decide_False (P := _ /\ _)) by lia. done.
  - rewrite list_lookup_alter_ne by done. by rewrite decide_False by tauto.
Qed.

Lemma length_set_weight adj u v w : length (set_weight u v w adj) = length adj.
Proof. apply length_alter. Qed.

(** Edges join two different vertices and come in both directions. *)
Record graph_ok (adj : graph) : Prop := {
  g_range : forall u v, is_Some (edge adj u v) -> (u < length adj)%nat /\ (v < length adj)%nat /\ u <> v;
  g_sym : forall u v, is_Some (edge adj u v) -> is_Some (edge adj v u);
  g_int : forall u v w, edge adj u v = Some w -> w <= Infinity;
}.

(** The same edges, with weights that are no larger. *)
Definition tighter (adj adj' : graph) : Prop :=
  length adj' = length adj
  /\ forall u v, match edge adj u v, edge adj' u v with
                 | Some w, Some w' => w' <= w
                 | None, None => True
                 | _, _ => False
                 end.

Lemma tighter_refl adj : tighter adj adj.
Proof. split; [done|]. intros u v. by destruct (edge adj u v). Qed.

Lemma tighter_trans a b c : tighter a b -> tighter b c -> tighter a c.
Proof.
  intros [L1 H1] [L2 H2]. split; [congruence|]. intros u v. specialize (H1 u v). specialize (H2 u v).
  destruct (edge a u v), (edge b u v), (edge c u v); try done. lia.
Qed.

Lemma tighter_set adj u v w w' : edge adj u v = Some w -> w' <= w -> tighter adj (set_weight u v w' adj).
Proof.
  intros E Hw. split; [apply length_set_weight|]. intros a b. rewrite edge_set_weight.
  case_decide as D; [destruct D as (-> & -> & _); by rewrite E|]. by destruct (edge adj a b).
Qed.

Lemma tighter_is_Some adj adj' u v : tighter adj adj' -> is_Some (edge adj' u v) <-> is_Some (edge adj u v).
Proof.
  intros [_ H]. specialize (H u v). destruct (edge adj u v), (edge adj' u v); try done; split; by eauto.
Qed.

Lemma tighter_ok adj adj' : tighter adj adj' -> graph_ok adj -> graph_ok adj'.
Proof.
  intros Ht Hg. pose proof Ht as [L H]. split.
  - intros u v Hs. rewrite L. apply (g_range _ Hg). by apply (tighter_is_Some adj adj').
  - intros u v Hs. apply (tighter_is_Some adj adj' v u Ht), (g_sym _ Hg). by apply (tighter_is_Some adj adj').
  - intros u v w E. specialize (H u v). rewrite E in H. destruct (edge adj u v) as [w0|] eqn:E0; [|done].
    pose proof (g_int _ Hg _ _ _ E0). lia.
Qed.

Lemma tighter_le adj adj' u v w w' : tighter adj adj' -> edge adj u v = Some w -> edge adj' u v = Some w' -> w' <= w.
Proof. intros [_ H] E E'. specialize (H u v). by rewrite E, E' in H. Qed.

Lemma edge_range_in `{!MapRange} k adj v u w : (u, w) ∈ map_range k (adj_at adj v) <-> edge adj v u = Some w.
Proof. by rewrite map_range_perm, elem_of_map_to_list. Qed.

Lemma dist_at_insert d u v x : dist_at (<[u := x]> d) v = if decide (u = v /\ (u < length d)%nat) then x else dist_at d v.
Proof.
  unfold dist_at. destruct (decide (u = v)) as [->|Hne].
  - destruct (decide (v < length d)%nat) as [Hl|Hl].
    + rewrite list_lookup_insert_eq by done. by rewrite decide_True.
    + rewrite list_insert_ge by lia. by rewrite decide_False by tauto.
  - rewrite list_lookup_insert_ne by done. by rewrite decide_False by tauto.
Qed.

(** ** The cardinality queue holds the vertices not yet visited *)

Definition queue_ok (q : cardinality) : Prop := forall k v, v ∈ bucket q k -> q_count q !! v = Some k.

Lemma q_remove_count v q : q_count (q_remove v q) = delete v (q_count q).
Proof.
  unfold q_remove. destruct (q_count q !! v) eqn:E; [done|]. by rewrite delete_id.
Qed.

Lemma q_remove_ok v q : queue_ok q -> queue_ok (q_remove v q).
Proof.
  intros Hq k u. rewrite q_remove_count. unfold q_remove, bucket. destruct (q_count q !! v) as [j|] eqn:E; cbn [q_first].
  - destruct (decide (j = k)) as [->|Hne].
    + rewrite lookup_insert_eq. cbn [default from_option id]. intros [Hn Hu]%list_elem_of_filter. rewrite lookup_delete_ne by done. by apply Hq.
    + rewrite lookup_insert_ne by done. intros Hu%Hq. rewrite lookup_delete_ne; [done|]. congruence.
  - intros Hu%Hq. rewrite lookup_delete_ne; [done|]. congruence.
Qed.

Lemma q_increment_count v q : q_contains q v = true -> dom (q_count (q_increment v q)) = dom (q_count q).
Proof.
  unfold q_contains. rewrite bool_decide_eq_true. intros [k E]. unfold q_increment. cbn [q_count].
  rewrite q_remove_count, dom_insert_L, dom_delete_L. apply elem_of_dom_2 in E. apply set_eq. intros u. destruct (decide (u = v)); set_solver.
Qed.

Lemma q_increment_ok v q : queue_ok q -> queue_ok (q_increment v q).
Proof.
  intros Hq k u. unfold q_increment, bucket. cbn [q_first q_count].
  set (count := S (default 0%nat (q_count q !! v))). pose proof (q_remove_ok v q Hq) as Hr.
  assert (Hne : forall k u, u ∈ bucket (q_remove v q) k -> u <> v).
  { intros k' u' Hu%Hr. rewrite q_remove_count in Hu. intros ->. by rewrite lookup_delete_eq in Hu. }
  destruct (decide (count = k)) as [->|Hk].
  - rewrite lookup_insert_eq. cbn [default from_option id]. intros [->|Hu]%elem_of_cons; [apply lookup_insert_eq|].
    pose proof (Hne _ _ Hu). rewrite lookup_insert_ne by done. by apply Hr.
  - rewrite lookup_insert_ne by done. intros Hu. pose proof (Hne _ _ Hu). rewrite lookup_insert_ne by done. by apply Hr.
Qed.

Lemma newCardinality_count n v : is_Some (q_count (newCardinality n) !! v) <-> (v < n)%nat.
Proof.
  cbn [newCardinality q_count]. split.
  - intros [k Hk]. apply elem_of_list_to_map_2, list_elem_of_fmap in Hk as (u & [= -> ->] & Hu). apply elem_of_seq in Hu. lia.
  - intros Hv. exists 0%nat. apply elem_of_list_to_map_1; [|apply list_elem_of_fmap; exists v; split; [done|apply elem_of_seq; lia]].
    rewrite <- list_fmap_compose. replace (fst ∘ (fun v => (v, 0%nat))) with (@id nat) by done. rewrite list_fmap_id. apply NoDup_seq.
Qed.

Lemma newCardinality_ok n : queue_ok (newCardinality n).
Proof.
  intros k v. unfold bucket. cbn [newCardinality q_first]. destruct (decide (k = 0%nat)) as [->|Hk].
  - rewrite lookup_singleton_eq. cbn [default from_option id]. intros Hv. rewrite list_elem_of_In, <- in_rev, <- list_elem_of_In in Hv.
    apply elem_of_seq in Hv. destruct (proj2 (newCardinality_count n v) ltac:(lia)) as [j Hj].
    pose proof Hj as Hj'. apply elem_of_list_to_map_2, list_elem_of_fmap in Hj as (u & [= -> ->] & Hu). done.
  - rewrite lookup_singleton_ne by done. intros H. by apply elem_of_nil in H.
Qed.

Lemma maximum_spec q q' r : queue_ok q -> maximum q = (q', r) ->
  queue_ok q' /\ q_count q' = q_count q /\ match r with Some v => is_Some (q_count q !! v) | None => True end.
Proof.
  intros Hq. unfold maximum. induction (Z.to_nat (q_max q + 1)) as [|k IH]; cbn [scan_max]; [intros [= <- <-]; done|].
  destruct (bucket q k) as [|v vs] eqn:E; [apply IH|]. intros [= <- <-]. split_and!; [done..|].
  exists k. apply Hq. rewrite E. constructor.
Qed.

Lemma pathSum_comm a b : a <= Infinity -> b <= Infinity -> pathSum a b = pathSum b a.
Proof.
  intros Ha Hb. unfold pathSum. rewrite (orb_comm (bool_decide (a = _))), (Z.add_comm a b).
  replace ((0 <? b) && (max_int64 - b <? a)) with ((0 <? a) && (max_int64 - a <? b)); [done|].
  unfold Infinity in *. destruct (Z.ltb_spec 0 a), (Z.ltb_spec 0 b), (Z.ltb_spec (max_int64 - b) a), (Z.ltb_spec (max_int64 - a) b); try done; lia.
Qed.

(** ** Bounds that hold of given times *)

Section Times.
Context `{!MapRange} (K : Z) (time : nat -> Z).
Hypothesis K_pos : 0 < K.
Hypothesis time_range : forall v, - (K * 2 ^ 61) <= time v <= K * 2 ^ 61.

(** [w] bounds the time from [a] to [b]. *)
Definition bnd (a b : nat) (w : Z) : Prop := time b - time a <= K * w /\ w <= Infinity.

Definition feasible (adj : graph) : Prop := forall u v w, edge adj u v = Some w -> time v - time u <= K * w.

Lemma bnd_inf a b : bnd a b Infinity.
Proof.
  unfold bnd, Infinity, max_int64. pose proof (time_range a). pose proof (time_range b). split; [|lia].
  assert (K * 2 ^ 62 <= K * (2 ^ 63 - 1)) by (apply Z.mul_le_mono_nonneg_l; lia). lia.
Qed.

Lemma bnd_refl a : bnd a a 0.
Proof. unfold bnd, Infinity, max_int64. lia. Qed.

Lemma bnd_min a b x y : bnd a b x -> bnd a b y -> bnd a b (Z.min x y).
Proof. unfold bnd. intros [? ?] [? ?]. destruct (Z.min_spec x y) as [[_ ->]|[_ ->]]; lia. Qed.

Lemma bnd_lower a b x : bnd a b x -> - 2 ^ 62 <= x.
Proof.
  unfold bnd. pose proof (time_range a). pose proof (time_range b). intros [Hb _].
  apply (Z.mul_le_mono_pos_l _ _ K); lia.
Qed.

Lemma bnd_path a b c x y : bnd a b x -> bnd b c y -> bnd a c (pathSum x y).
Proof.
  intros H1 H2. pose proof (bnd_lower _ _ _ H1). pose proof (bnd_lower _ _ _ H2).
  unfold pathSum. repeat case_bool_decide; cbn [orb]; try apply bnd_inf.
  destruct (Z.ltb_spec 0 y), (Z.ltb_spec (max_int64 - y) x); cbn [andb]; try apply bnd_inf;
    unfold bnd, Infinity in *; rewrite wrap64_id by (unfold is_int64, min_int64, max_int64 in *; lia);
    unfold max_int64 in *; lia.
Qed.

Lemma feasible_bnd adj u v w : graph_ok adj -> feasible adj -> edge adj u v = Some w -> bnd u v w.
Proof. intros Hg Hf E. split; [by apply Hf|by eapply g_int]. Qed.

Lemma weight_bnd adj u v : graph_ok adj -> feasible adj -> is_Some (edge adj u v) -> bnd u v (weight adj u v).
Proof. intros Hg Hf [w E]. unfold weight. rewrite E. by eapply feasible_bnd. Qed.

Lemma feasible_set adj u v w : feasible adj -> bnd u v w -> feasible (set_weight u v w adj).
Proof.
  intros Hf [Hb _] a b x. rewrite edge_set_weight. case_decide as D; [|apply Hf].
  destruct D as (-> & -> & _). by intros [= <-].
Qed.

Lemma tighter_feasible adj adj' : tighter adj adj' -> feasible adj' -> feasible adj.
Proof.
  intros Ht Hf u v w E. destruct (proj2 (tighter_is_Some adj adj' u v Ht) ltac:(eauto)) as [w' E'].
  pose proof (tighter_le _ _ _ _ _ _ Ht E E'). specialize (Hf _ _ _ E').
  assert (K * w' <= K * w) by (apply Z.mul_le_mono_nonneg_l; lia). lia.
Qed.

(** Distances: [P] says what a forward entry bounds, [Q] a backward one. *)
Definition dist_ok (P Q : nat -> Z -> Prop) (d : list distances) : Prop :=
  forall u, P u (dist_at d u).1 /\ Q u (dist_at d u).2.

Lemma dist_ok_insert (P Q : nat -> Z -> Prop) d u x : dist_ok P Q d -> P u x.1 -> Q u x.2 -> dist_ok P Q (<[u := x]> d).
Proof.
  intros Hd Hp Hq v. rewrite dist_at_insert. case_decide as D; [|apply Hd]. by destruct D as [-> _].
Qed.

Lemma start_distances_at n from to u : (from < n)%nat -> (to < n)%nat ->
  dist_at (start_distances n from to) u
  = (if decide (u = from) then 0 else Infinity, if decide (u = to) then 0 else Infinity).
Proof.
  intros Hf Ht. unfold dist_at, start_distances, resetDistances.
  assert (E : forall v (g : distances -> distances) (d : list distances), alter g v d !! u = if decide (u = v) then g <$> d !! u else d !! u).
  { intros v g d. case_decide; [subst; apply list_lookup_alter_eq|by apply list_lookup_alter_ne]. }
  rewrite !E. destruct (decide (u < n)%nat) as [Hu|Hu].
  - rewrite lookup_replicate_2 by done. by repeat case_decide.
  - assert (replicate n (Infinity, Infinity) !! u = None) as -> by (apply lookup_replicate_None; lia).
    repeat (case_decide; [subst; lia|]). done.
Qed.

Lemma start_ok (P Q : nat -> Z -> Prop) n from to : (from < n)%nat -> (to < n)%nat ->
  P from 0 -> Q to 0 -> (forall u, P u Infinity) -> (forall u, Q u Infinity) ->
  dist_ok P Q (start_distances n from to).
Proof.
  intros Hf Ht HP HQ HPi HQi u. rewrite start_distances_at by done. simpl. split; case_decide; subst; auto.
Qed.

(** ** Queries are sound *)

Definition up_ok (from to : nat) : list distances -> Prop := dist_ok (bnd from) (fun u => bnd u to).

Lemma relax_ok adj rank from to v d u w : graph_ok adj -> feasible adj -> edge adj v u = Some w ->
  up_ok from to d -> up_ok from to (relax adj rank v d (u, w)).
Proof.
  intros Hg Hf E Hd. unfold relax. case_match; [done|].
  pose proof (Hd u) as [Hu1 Hu2]. pose proof (Hd v) as [Hv1 Hv2].
  destruct (dist_at d v) as [fv bv], (dist_at d u) as [fu bu]. apply dist_ok_insert; [done| |]; simpl in *.
  - apply bnd_min; [done|]. apply (bnd_path _ v); [done|]. by eapply feasible_bnd.
  - apply bnd_min; [done|].
    assert (bnd u v (weight adj u v)) as Hw by (apply weight_bnd; [done..|]; apply (g_sym _ Hg); eauto).
    rewrite pathSum_comm by (apply Hv2 || apply Hw). by apply (bnd_path _ v).
Qed.

Lemma relax_all_ok adj rank from to v k d : graph_ok adj -> feasible adj -> up_ok from to d ->
  up_ok from to (fold_left (relax adj rank v) (map_range k (adj_at adj v)) d).
Proof.
  intros Hg Hf. assert (Hn : forall nb, nb ∈ map_range k (adj_at adj v) -> edge adj v nb.1 = Some nb.2).
  { intros [u w] Hin. by apply edge_range_in in Hin. }
  revert d Hn. induction (map_range k (adj_at adj v)) as [|[u w] nbs IH]; intros d Hn Hd; cbn [fold_left]; [done|].
  apply IH; [intros nb Hnb; apply Hn; by constructor|]. apply relax_ok; [done..| |done]. apply (Hn (u, w)). constructor.
Qed.

Lemma upper_loop_ok adj rank from to order d bound : graph_ok adj -> feasible adj ->
  up_ok from to d -> bnd from to bound -> bnd from to (upper_loop adj rank order d bound).
Proof.
  intros Hg Hf. revert d bound. induction order as [|v order IH]; intros d bound Hd Hb; cbn [upper_loop]; [done|].
  pose proof (Hd v) as [H1 H2]. destruct (dist_at d v) as [fv bv]. simpl in H1, H2.
  assert (Hb' : bnd from to (Z.min bound (pathSum fv bv))) by (apply bnd_min; [done|by apply (bnd_path _ v)]).
  case_match; apply IH; try done. by apply relax_all_ok.
Qed.

Lemma upper_ok s from to : graph_ok (n_adj s) -> feasible (n_adj s) ->
  (from < length (n_adj s))%nat -> (to < length (n_adj s))%nat -> bnd from to (upper s from to).
Proof.
  intros Hg Hf H1 H2. apply upper_loop_ok; [done..| |apply bnd_inf].
  apply start_ok; [done..|apply bnd_refl|apply bnd_refl|intros; apply bnd_inf|intros; apply bnd_inf].
Qed.

Lemma bounds_ok s from to : graph_ok (n_adj s) -> feasible (n_adj s) ->
  (from < length (n_adj s))%nat -> (to < length (n_adj s))%nat ->
  bnd from to (bounds s from to).1 /\ bnd to from (bounds s from to).2.
Proof.
  intros Hg Hf H1 H2. unfold bounds. destruct (edge (n_adj s) from to) as [w|] eqn:E; simpl; [|by split; apply upper_ok].
  split; [by eapply feasible_bnd|]. apply weight_bnd; [done..|]. apply (g_sym _ Hg). eauto.
Qed.

(** ** Tightening is sound *)

Definition tight_ok (from to : nat) (st : tightening) : Prop :=
  graph_ok (t_adj st) /\ feasible (t_adj st) /\ dist_ok (fun u => bnd u from) (bnd to) (t_dist st).

End Times.

(** Visiting an edge only lowers the weights of its two directions. *)
Lemma tighten_edge_tighter bound v st u vu : graph_ok (t_adj st) -> edge (t_adj st) v u = Some vu ->
  tighter (t_adj st) (t_adj (tighten_edge bound v st (u, vu))).
Proof.
  intros Hg E. destruct (g_sym _ Hg v u ltac:(eauto)) as [uv E'].
  destruct (g_range _ Hg v u ltac:(eauto)) as (_ & _ & Hne).
  destruct st as [q adj d]. cbn [t_adj] in *. unfold tighten_edge. destruct (dist_at d u) as [fu bu], (dist_at d v) as [fv bv].
  destruct (q_contains q u); cbn [t_adj]; [apply tighter_refl|].
  eapply tighter_trans; [apply (tighter_set _ u v uv)|apply (tighter_set _ v u vu)]; [done| | |lia].
  - unfold weight. rewrite E'. simpl. lia.
  - rewrite edge_set_weight, decide_False by naive_solver. done.
Qed.

Lemma tighten_edge_sound `{!MapRange} K time from to bound v st u vu :
  0 < K -> (forall w, - (K * 2 ^ 61) <= time w <= K * 2 ^ 61) -> bnd K time from to bound ->
  edge (t_adj st) v u = Some vu -> tight_ok K time from to st -> tight_ok K time from to (tighten_edge bound v st (u, vu)).
Proof.
  intros HK Ht Hb E (Hg & Hf & Hd).
  pose proof (tighter_ok _ _ (tighten_edge_tighter bound v st u vu Hg E) Hg) as Hg'.
  destruct st as [q adj d]. cbn [t_adj t_dist] in *.
  assert (Huv : bnd K time u v (weight adj u v)) by (apply weight_bnd; [done..|]; apply (g_sym _ Hg); eauto).
  assert (Hvu : bnd K time v u vu) by exact (feasible_bnd K time adj v u vu Hg Hf E).
  pose proof (Hd u) as [Hu1 Hu2]. pose proof (Hd v) as [Hv1 Hv2].
  unfold tight_ok, tighten_edge in *. destruct (dist_at d u) as [fu bu], (dist_at d v) as [fv bv]. simpl in Hu1, Hu2, Hv1, Hv2.
  destruct (q_contains q u); cbn [t_adj t_dist] in *; split_and!; try done.
  - apply dist_ok_insert; [done| |]; simpl; (apply bnd_min; [done|]); by eapply bnd_path.
  - apply feasible_set; [apply feasible_set; [done|]|]; (apply bnd_min; [done|]); eapply bnd_path; eauto using bnd_path.
Qed.

(** ** Folding over the neighbours of a vertex *)

(** An invariant of the state and the neighbours still ahead holds at the end,
    when none is. *)
Lemma visit_ind_rest `{!MapRange} bound k v (P : tightening -> list (nat * Z) -> Prop) st :
  P (mkTight (q_remove v (t_q st)) (t_adj st) (t_dist st)) (map_range k (adj_at (t_adj st) v)) -> graph_ok (t_adj st) ->
  (forall st' u vu rest, P st' ((u, vu) :: rest) -> tighter (t_adj st) (t_adj st') -> edge (t_adj st') v u = Some vu ->
     P (tighten_edge bound v st' (u, vu)) rest) ->
  P (visit_vertex bound k v st) [] /\ tighter (t_adj st) (t_adj (visit_vertex bound k v st)).
Proof.
  intros H0 Hg Hstep. unfold visit_vertex. cbn [t_adj].
  assert (Hnd : NoDup (map_range k (adj_at (t_adj st) v)).*1) by (rewrite map_range_perm; apply NoDup_fst_map_to_list).
  set (st0 := mkTight _ _ _) in *.
  assert (Hsame : forall u w, (u, w) ∈ map_range k (adj_at (t_adj st) v) -> edge (t_adj st0) v u = Some w).
  { intros u w. by rewrite edge_range_in. }
  assert (Ht0 : tighter (t_adj st) (t_adj st0)) by apply tighter_refl. clearbody st0. revert st0 H0 Ht0 Hsame.
  induction (map_range k (adj_at (t_adj st) v)) as [|[u w] nbs IH]; intros st0 H0 Ht0 Hsame; cbn [fold_left]; [done|].
  apply list.NoDup_cons in Hnd as [Hu Hnd].
  assert (Ew : edge (t_adj st0) v u = Some w) by (apply Hsame; constructor).
  pose proof (tighter_ok _ _ Ht0 Hg) as Hg0.
  pose proof (tighten_edge_tighter bound v st0 u w Hg0 Ew) as Ht1.
  apply IH; [done|by apply Hstep|by eapply tighter_trans|].
  intros u' w' Hn. assert (Hne : u' <> u).
  { intros ->. apply Hu. apply list_elem_of_fmap. by exists (u, w'). }
  rewrite <- (Hsame u' w') by (by constructor). destruct (g_range _ Hg0 v u) as (_ & _ & Hvu); [eauto|].
  destruct st0 as [q adj d]. unfold tighten_edge. destruct (dist_at d u) as [fu bu], (dist_at d v) as [fv bv].
  destruct (q_contains q u); cbn [t_adj]; [done|]. rewrite !edge_set_weight, !decide_False by naive_solver. done.
Qed.

Lemma visit_ind `{!MapRange} bound k v (P : tightening -> Prop) st :
  P (mkTight (q_remove v (t_q st)) (t_adj st) (t_dist st)) -> graph_ok (t_adj st) ->
  (forall st' u vu, P st' -> tighter (t_adj st) (t_adj st') -> edge (t_adj st') v u = Some vu ->
     P (tighten_edge bound v st' (u, vu))) ->
  P (visit_vertex bound k v st) /\ tighter (t_adj st) (t_adj (visit_vertex bound k v st)).
Proof. intros H0 Hg Hstep. apply (visit_ind_rest bound k v (fun st' _ => P st')); auto. Qed.

(** ** The visits: queue, weights, feasible times *)

Definition unvisited (st : tightening) : gset nat := dom (q_count (t_q st)).

Lemma q_contains_dom q v : q_contains q v = true <-> v ∈ dom (q_count q).
Proof. unfold q_contains. by rewrite bool_decide_eq_true, elem_of_dom. Qed.

Lemma visit_queue `{!MapRange} bound k v st : graph_ok (t_adj st) -> queue_ok (t_q st) ->
  let st' := visit_vertex bound k v st in
  queue_ok (t_q st') /\ unvisited st' = unvisited st ∖ {[ v ]} /\ tighter (t_adj st) (t_adj st').
Proof.
  intros Hg Hq.
  destruct (visit_ind bound k v (fun st' => queue_ok (t_q st') /\ unvisited st' = unvisited st ∖ {[ v ]}) st) as [[H1 H2] H3]; [|done| |done].
  - unfold unvisited. cbn [t_q]. rewrite q_remove_count, dom_delete_L. split; [by apply q_remove_ok|done].
  - intros [q adj d] u vu [Hq' Hu'] _ _. unfold tighten_edge. destruct (dist_at d u) as [fu bu], (dist_at d v) as [fv bv].
    destruct (q_contains q u) eqn:E; [|done]. unfold unvisited in *. cbn [t_q] in *.
    split; [by apply q_increment_ok|]. by rewrite q_increment_count.
Qed.

Lemma visit_sound `{!MapRange} K time from to bound k v st :
  0 < K -> (forall w, - (K * 2 ^ 61) <= time w <= K * 2 ^ 61) -> bnd K time from to bound ->
  tight_ok K time from to st -> tight_ok K time from to (visit_vertex bound k v st).
Proof.
  intros HK Ht Hb Hok. apply (visit_ind bound k v (tight_ok K time from to) st); [done|apply Hok|].
  intros st' u vu Hst _ E. by apply tighten_edge_sound.
Qed.

(** Once [from] was visited, the loop empties the queue and only tightens, and
    it keeps every time assignment that meets the new bound. *)
Lemma tighten_rest `{!MapRange} from to bound fuel v st :
  graph_ok (t_adj st) -> queue_ok (t_q st) -> v ∈ unvisited st -> from ∉ unvisited st ->
  (size (unvisited st) < fuel)%nat ->
  exists adj', tighten_loop fuel from to bound v st = Some adj'
    /\ tighter (t_adj st) adj' /\ tighter (t_adj (visit_vertex bound (pred fuel) v st)) adj'
    /\ forall K time, 0 < K -> (forall w, - (K * 2 ^ 61) <= time w <= K * 2 ^ 61) -> bnd K time from to bound ->
         tight_ok K time from to st -> feasible K time adj'.
Proof.
  revert v st. induction fuel as [|fuel IH]; intros v st Hg Hq Hv Hf Hs; [lia|]. cbn [tighten_loop pred].
  destruct (visit_queue bound fuel v st Hg Hq) as (Hq' & Hu' & Ht').
  pose proof (fun K time HK Hr Hb => visit_sound K time from to bound fuel v st HK Hr Hb) as Hsound.
  set (st' := visit_vertex bound fuel v st) in *. clearbody st'. rewrite decide_False by (intros ->; done).
  destruct (maximum (t_q st')) as [q' next] eqn:Em. destruct (maximum_spec _ _ _ Hq' Em) as (Hq2 & Hc & Hn).
  assert (Hsz : (size (unvisited st') < size (unvisited st))%nat).
  { rewrite Hu'. apply subset_size. clear -Hv. set_solver. }
  destruct next as [v'|].
  - destruct (IH v' (mkTight q' (t_adj st') (t_dist st'))) as (adj' & -> & Ht2 & _ & Hs2).
    + by eapply tighter_ok.
    + done.
    + unfold unvisited. cbn [t_q]. rewrite Hc. by apply elem_of_dom.
    + unfold unvisited in *. cbn [t_q]. rewrite Hc, Hu'. clear -Hf. set_solver.
    + unfold unvisited in *. cbn [t_q]. rewrite Hc. lia.
    + exists adj'. split; [done|]. split; [by eapply tighter_trans|]. split; [done|]. intros K time HK Hr Hb Hok. by apply Hs2, Hsound.
  - exists (t_adj st'). split; [done|]. split; [done|]. split; [apply tighter_refl|]. intros K time HK Hr Hb Hok. by apply Hsound.
Qed.

(** The first two visits: distance 0 at both ends, then the edge itself. *)
Lemma visit_from_dist `{!MapRange} bound k from to st : graph_ok (t_adj st) -> from <> to ->
  dist_at (t_dist st) from = (0, Infinity) -> (dist_at (t_dist st) to).2 = 0 ->
  let st' := visit_vertex bound k from st in dist_at (t_dist st') from = (0, Infinity) /\ (dist_at (t_dist st') to).2 = 0.
Proof.
  intros Hg Hne Hf Ht.
  apply (visit_ind bound k from (fun st' => q_contains (t_q st') from = false
    /\ dist_at (t_dist st') from = (0, Infinity) /\ (dist_at (t_dist st') to).2 = 0) st); [|done|].
  - cbn [t_q t_dist]. split; [|done]. apply not_true_iff_false. rewrite q_contains_dom, q_remove_count, dom_delete_L.
    clear. set_solver.
  - intros [q adj d] u vu (H1 & H2 & H3) _ _. cbn [t_q t_dist] in *. unfold tighten_edge. rewrite H2.
    destruct (dist_at d u) as [fu bu] eqn:Eu. destruct (q_contains q u) eqn:Eq; cbn [t_q t_dist]; [|done].
    assert (Huf : u <> from) by congruence. split; [|rewrite !dist_at_insert, decide_False by tauto; split; [done|]].
    + apply not_true_iff_false. rewrite q_contains_dom, q_increment_count, <- q_contains_dom by done. congruence.
    + case_decide as D; [|done]. destruct D as [-> _]. rewrite Eu in H3. simpl in *. subst bu.
      unfold pathSum. by rewrite (bool_decide_true (Infinity = Infinity)).
Qed.

Lemma pathSum_zero bound : is_int64 bound -> pathSum (pathSum 0 bound) 0 = bound.
Proof.
  intros Hb. assert (E : pathSum 0 bound = bound).
  { unfold pathSum. rewrite bool_decide_false by done. unfold is_int64, Infinity in *. cbn [orb].
    case_bool_decide as E; cbn [orb]; [done|]. destruct (Z.ltb_spec 0 bound), (Z.ltb_spec (max_int64 - bound) 0); cbn [andb]; try lia;
      by rewrite Z.add_0_l, wrap64_id. }
  rewrite E. unfold pathSum. case_bool_decide as E1; cbn [orb]; [done|]. rewrite bool_decide_false by done. cbn.
  by rewrite Z.add_0_r, wrap64_id.
Qed.

(** The visit of [to] lowers the edge to the new bound. *)
Lemma visit_to_edge `{!MapRange} bound k from to st : graph_ok (t_adj st) -> from <> to -> is_int64 bound ->
  is_Some (edge (t_adj st) from to) -> from ∉ unvisited st ->
  dist_at (t_dist st) from = (0, Infinity) -> (dist_at (t_dist st) to).2 = 0 ->
  exists w, edge (t_adj (visit_vertex bound k to st)) from to = Some w /\ w <= bound.
Proof.
  intros Hg Hne Hb He Hf Hdf Hdt. destruct (g_sym _ Hg _ _ He) as [tf Etf].
  destruct (visit_ind_rest bound k to (fun st' rest => q_contains (t_q st') from = false
    /\ dist_at (t_dist st') from = (0, Infinity) /\ (dist_at (t_dist st') to).2 = 0 /\ q_contains (t_q st') to = false
    /\ ((exists w, (from, w) ∈ rest) \/ exists w, edge (t_adj st') from to = Some w /\ w <= bound)) st) as [Hend _]; [|done| |].
  - cbn [t_q t_dist]. split_and!; [|done|done| |left; exists tf; by apply edge_range_in];
      apply not_true_iff_false; rewrite q_contains_dom, q_remove_count, dom_delete_L; clear -Hf; set_solver.
  - intros [q adj d] u vu rest (H1 & H2 & H3 & H4 & H5) Ht E. cbn [t_q t_dist t_adj] in *.
    pose proof (tighter_ok _ _ Ht Hg) as Hg'. destruct (g_range _ Hg' to u) as (_ & Hlu & Htu); [eauto|].
    unfold tighten_edge. destruct (dist_at d to) as [ft bt] eqn:Et. simpl in H3. subst bt.
    destruct (dist_at d u) as [fu bu] eqn:Eu. destruct (q_contains q u) eqn:Eq; cbn [t_q t_dist t_adj].
    + assert (Huf : u <> from) by congruence.
      assert (Hsame : forall x, q_contains q x = false -> q_contains (q_increment u q) x = false).
      { intros x. rewrite <- !not_true_iff_false, !q_contains_dom, q_increment_count by done. done. }
      rewrite !dist_at_insert, (decide_False (P := u = from /\ _)), (decide_False (P := u = to /\ _)) by naive_solver.
      rewrite Et. split_and!; auto.
      destruct H5 as [[w Hw]|]; [left|by right]. exists w. apply elem_of_cons in Hw as [[= -> _]|]; [done|done].
    + rewrite Et. split_and!; try done. destruct (decide (u = from)) as [->|Huf].
      * right. rewrite H2 in Eu. injection Eu as <- <-. rewrite pathSum_zero by done.
        rewrite edge_set_weight, decide_False by naive_solver. rewrite edge_set_weight, decide_True by done. eexists. split; [done|]. lia.
      * destruct H5 as [[w Hw]|(w & Hw & Hle)].
        -- left. exists w. apply elem_of_cons in Hw as [[= -> _]|]; [done|done].
        -- right. exists w. rewrite !edge_set_weight, !decide_False by naive_solver. done.
  - destruct Hend as (_ & _ & _ & _ & [[w Hw]|Hw]); [by apply elem_of_nil in Hw|done].
Qed.

(** * Every operation of the network keeps exactly the feasible times *)


(** Times within [2^61] nanoseconds of the origin, in units of [1/K]. *)
Record timed (K : Z) (time : nat -> Z) : Prop := {
  timed_unit : 0 < K;
  timed_range : forall v, - (K * 2 ^ 61) <= time v <= K * 2 ^ 61;
}.

Record network_ok (s : Network) : Prop := {
  net_graph : graph_ok (n_adj s);
  net_limit : 0 <= n_limit s <= 2 ^ 60;
}.

Abbreviation meets K time s := (feasible K time (n_adj s)).

Section Exact.
Context {ranger : MapRange}.

(** ** Constrain *)

Definition tighten_start (s : Network) (from to : nat) : tightening :=
  mkTight (newCardinality (length (n_adj s))) (n_adj s) (start_distances (length (n_adj s)) from to).

Lemma unvisited_start s from to : unvisited (tighten_start s from to) = set_seq 0 (length (n_adj s)).
Proof.
  apply set_eq. intros v. unfold unvisited. cbn [tighten_start t_q].
  rewrite elem_of_dom, newCardinality_count, elem_of_set_seq. lia.
Qed.

Lemma tighten_all s from to bound : network_ok s -> is_int64 bound -> is_Some (edge (n_adj s) from to) ->
  exists adj', tighten_loop (S (length (n_adj s))) from to bound from (tighten_start s from to) = Some adj'
    /\ tighter (n_adj s) adj' /\ (exists w, edge adj' from to = Some w /\ w <= bound)
    /\ forall K time, timed K time -> bnd K time from to bound -> meets K time s -> feasible K time adj'.
Proof.
  intros [Hg _] Hb He. destruct (g_range _ Hg _ _ He) as (Hfl & Htl & Hne).
  set (n := length (n_adj s)) in *. cbn [tighten_loop]. rewrite decide_True by done.
  destruct (visit_queue bound n from (tighten_start s from to) Hg (newCardinality_ok _)) as (Hq1 & Hu1 & Ht1).
  destruct (visit_from_dist bound n from to (tighten_start s from to)) as [Hd1 Hd2]; [done..| | |].
  { cbn [tighten_start t_dist]. rewrite start_distances_at by done. by rewrite decide_True, decide_False. }
  { cbn [tighten_start t_dist]. rewrite start_distances_at by done. by rewrite (decide_True (P := to = to)). }
  pose proof (fun K time HK Hr Hbd => visit_sound K time from to bound n from (tighten_start s from to) HK Hr Hbd) as Hs1.
  rewrite unvisited_start in Hu1. fold n in Hu1. cbn [t_adj tighten_start] in Ht1.
  set (st1 := visit_vertex bound n from (tighten_start s from to)) in *. clearbody st1.
  replace (mkTight (t_q st1) (t_adj st1) (t_dist st1)) with st1 by (by destruct st1).
  pose proof (tighter_ok _ _ Ht1 Hg) as Hg1.
  assert (Hfu : from ∉ unvisited st1) by (rewrite Hu1; clear; set_solver).
  assert (Hto : to ∈ unvisited st1) by (rewrite Hu1; apply elem_of_difference; rewrite elem_of_set_seq, elem_of_singleton; lia).
  assert (Hsz : (size (unvisited st1) < n)%nat).
  { rewrite Hu1. rewrite <- (size_set_seq (C := gset nat) 0 n) at 2. apply subset_size.
    assert (Hin : from ∈ (set_seq 0 n : gset nat)) by (apply elem_of_set_seq; lia). clear -Hin. set_solver. }
  destruct (tighten_rest from to bound n to st1 Hg1 Hq1 Hto Hfu Hsz) as (adj' & Hloop & Ht & Ht2 & Hsound).
  exists adj'. split; [done|]. split; [by eapply tighter_trans|]. split.
  - assert (He1 : is_Some (edge (t_adj st1) from to)) by (by apply (tighter_is_Some (n_adj s))).
    destruct (visit_to_edge bound (pred n) from to st1 Hg1 Hne Hb He1 Hfu Hd1 Hd2) as (w & Hw & Hle).
    destruct (proj2 (tighter_is_Some _ _ from to Ht2) ltac:(eauto)) as [w' Hw'].
    exists w'. split; [done|]. pose proof (tighter_le _ _ _ _ _ _ Ht2 Hw Hw'). lia.
  - intros K time [HK Hr] Hbd Hm. apply (Hsound K time HK Hr Hbd), Hs1; [done..|]. split_and!; [done..|].
    cbn [tighten_start t_dist]. apply start_ok; [done..| | | |]; intros; by (apply bnd_refl || apply bnd_inf).
Qed.

(** A bound that the times meet, for weights a caller may pass. *)
Lemma meets_bound K time s from to bound : timed K time -> network_ok s -> bound <= n_limit s ->
  time to - time from <= K * bound -> bnd K time from to bound.
Proof. intros _ [_ Hl] Hb Hm. split; [done|]. unfold Infinity, max_int64. lia. Qed.

Definition constrain_post (s : Network) (from to : nat) (bound : Z) (r : stn_error + Network) : Prop :=
  match r with
  | inr s' =>
      network_ok s' /\ length (n_adj s') = length (n_adj s)
      /\ forall K time, timed K time -> meets K time s' <-> meets K time s /\ time to - time from <= K * bound
  | inl ErrInconsistent =>
      forall K time, timed K time -> meets K time s -> ~ time to - time from <= K * bound
  | inl ErrVertex => (length (n_adj s) <= from)%nat \/ (length (n_adj s) <= to)%nat
  | inl ErrWeight => bound < - n_limit s \/ n_limit s < bound
  | inl ErrEdge => from <> to /\ edge (n_adj s) from to = None
  | inl ErrFuel => False
  end.

Lemma Constrain_post s from to bound : network_ok s -> constrain_post s from to bound (Constrain s from to bound).
Proof.
  intros Hs. pose proof (net_limit _ Hs) as Hl. unfold Constrain, vertex.
  destruct (Nat.ltb_spec from (length (n_adj s))) as [Hf|Hf]; cbn [negb orb]; [|by left].
  destruct (Nat.ltb_spec to (length (n_adj s))) as [Ht|Ht]; cbn [negb orb]; [|by right].
  destruct (Z.ltb_spec bound (- n_limit s)) as [H1|H1]; cbn [orb]; [by left|].
  destruct (Z.ltb_spec (n_limit s) bound) as [H2|H2]; [by right|].
  destruct (decide (from = to)) as [<-|Hne].
  { destruct (Z.ltb_spec bound 0) as [Hb|Hb]; cbn [constrain_post].
    - intros K time [HK _] _. rewrite Z.sub_diag. nia.
    - split_and!; [done..|]. intros K time [HK _]. rewrite Z.sub_diag. split; [|tauto]. intros; split; [done|nia]. }
  destruct (edge (n_adj s) from to) as [old|] eqn:E; [|done].
  destruct (Z.ltb_spec (pathSum bound (weight (n_adj s) to from)) 0) as [Hp|Hp]; cbn [constrain_post].
  { intros K time Ht' Hm Hb. pose proof Ht' as [HK Hr].
    assert (Hpath : bnd K time from from (pathSum bound (weight (n_adj s) to from))).
    { apply (bnd_path K time HK Hr _ to); [by eapply meets_bound|].
      apply weight_bnd; [apply Hs|done|]. apply (g_sym _ (net_graph _ Hs)). eauto. }
    destruct Hpath as [Hpath _]. rewrite Z.sub_diag in Hpath. nia. }
  destruct (Z.leb_spec old bound) as [Ho|Ho].
  { split_and!; [done..|]. intros K time [HK _]. split; [|tauto]. intros Hm. split; [done|].
    specialize (Hm _ _ _ E). assert (K * old <= K * bound) by (apply Z.mul_le_mono_nonneg_l; lia). lia. }
  destruct (tighten_all s from to bound) as (adj' & Hloop & Htt & (w & Hw & Hle) & Hsound); [done| |eauto|].
  { unfold is_int64, min_int64, max_int64. lia. }
  unfold tighten_start in Hloop. rewrite Hloop. split_and!.
  - split; [eapply tighter_ok; [done|apply Hs]|done].
  - apply Htt.
  - intros K time Htm. pose proof Htm as [HK Hr]. cbn [n_adj]. split.
    + intros Hm. split; [by eapply tighter_feasible|]. specialize (Hm _ _ _ Hw).
      assert (K * w <= K * bound) by (apply Z.mul_le_mono_nonneg_l; lia). lia.
    + intros [Hm Hb]. apply Hsound; [done| |done]. by eapply meets_bound.
Qed.
(** ** Adding edges *)

(** [s'] has the edges of [s] with their weights, perhaps more, and is met by
    every time assignment that meets [s]. *)
Record enlarges (s s' : Network) : Prop := {
  en_ok : network_ok s';
  en_length : length (n_adj s') = length (n_adj s);
  en_edges : forall u v w, edge (n_adj s) u v = Some w -> edge (n_adj s') u v = Some w;
  en_meets : forall K time, timed K time -> meets K time s -> meets K time s';
}.

Lemma enlarges_refl s : network_ok s -> enlarges s s.
Proof. intros. by split. Qed.

Lemma enlarges_trans a b c : enlarges a b -> enlarges b c -> enlarges a c.
Proof. intros [O1 L1 E1 M1] [O2 L2 E2 M2]. split; [done|congruence|eauto|eauto]. Qed.

Lemma enlarges_meets s s' K time : enlarges s s' -> timed K time -> meets K time s' <-> meets K time s.
Proof. intros H Ht. split; [|by apply en_meets]. intros Hm u v w E. by apply Hm, (en_edges _ _ H). Qed.

(** What [triangulate] asks of the edge it is given to add. *)
Definition adds (add : Network -> nat -> nat -> Network) : Prop := forall s u v,
  network_ok s -> (u < length (n_adj s))%nat -> (v < length (n_adj s))%nat -> u <> v ->
  edge (n_adj s) u v = None -> enlarges s (add s u v).

(** Both directions of a new edge, with weights that hold. *)
Lemma new_edge_enlarges s u v uv vu : network_ok s -> (u < length (n_adj s))%nat -> (v < length (n_adj s))%nat -> u <> v ->
  edge (n_adj s) u v = None -> uv <= Infinity -> vu <= Infinity ->
  (forall K time, timed K time -> meets K time s -> bnd K time u v uv /\ bnd K time v u vu) ->
  enlarges s (with_adj (set_weight v u vu (set_weight u v uv (n_adj s))) s).
Proof.
  intros [Hg Hl] Hu Hv Hne Hno Huv Hvu Hb.
  assert (Hno' : edge (n_adj s) v u = None).
  { apply eq_None_not_Some. intros H'%(g_sym _ Hg). by rewrite Hno in H'; apply is_Some_None in H'. }
  assert (E : forall a b, edge (set_weight v u vu (set_weight u v uv (n_adj s))) a b
    = if decide (a = v /\ b = u) then Some vu else if decide (a = u /\ b = v) then Some uv else edge (n_adj s) a b).
  { intros a b. rewrite edge_set_weight. destruct (decide (a = v /\ b = u)) as [D|D].
    - rewrite decide_True; [done|]. rewrite length_set_weight. naive_solver.
    - rewrite decide_False by naive_solver. rewrite edge_set_weight. destruct (decide (a = u /\ b = v)).
      + rewrite decide_True by naive_solver. done.
      + rewrite decide_False by naive_solver. done. }
  split; cbn [with_adj n_adj].
  - split; [|done]. cbn [with_adj n_adj]. split.
    + intros a b. rewrite E, !length_set_weight. repeat case_decide; [naive_solver..|]. apply (g_range _ Hg).
    + intros a b. rewrite !E. repeat case_decide; try (by eauto); try tauto. apply (g_sym _ Hg).
    + intros a b w. rewrite E. repeat case_decide; try (by intros [= <-]). apply (g_int _ Hg).
  - by rewrite !length_set_weight.
  - intros a b w Ew. rewrite E. repeat case_decide; [naive_solver congruence..|done].
  - intros K time Ht Hm. destruct (Hb K time Ht Hm). by repeat apply feasible_set.
Qed.

Lemma link_adds : adds link.
Proof.
  intros s u v Hs Hu Hv Hne Hno. unfold link. rewrite Hno. apply new_edge_enlarges; try done.
  intros K time [HK Hr] _. by split; apply bnd_inf.
Qed.

Lemma upper_int s from to : upper s from to <= Infinity.
Proof.
  unfold upper. generalize (start_distances (length (n_adj s)) from to).
  assert (H0 : Infinity <= Infinity) by done. revert H0. generalize Infinity at 1 3.
  induction (n_order s) as [|v order IH]; intros b Hb d; cbn [upper_loop]; [done|].
  destruct (dist_at d v) as [fv bv]. case_match; apply IH; lia.
Qed.

Lemma add_implied_adds : adds add_implied.
Proof.
  intros s u v Hs Hu Hv Hne Hno. unfold add_implied, bounds. rewrite Hno.
  apply new_edge_enlarges; try done; [apply upper_int..|]. intros K time [HK Hr] Hm.
  split; apply upper_ok; try done; apply Hs.
Qed.

Lemma set_order_enlarges order rank s s' : enlarges s s' -> enlarges s (set_order order rank s').
Proof. intros [[? ?] L E M]. by split. Qed.

Lemma fill_from_enlarges add u ws st : adds add -> network_ok st.1 -> (u < length (n_adj st.1))%nat ->
  (forall w, w ∈ ws -> w <> u /\ (w < length (n_adj st.1))%nat) -> enlarges st.1 (fill_from add u ws st).1.
Proof.
  intros Ha. revert st. induction ws as [|w ws IH]; intros [s q] Hs Hu Hw; cbn [fill_from fold_left fst] in *; [by apply enlarges_refl|].
  destruct (Hw w ltac:(constructor)) as [Hne Hlw].
  destruct (edge (n_adj s) u w) eqn:E; [apply (IH (s, q)); [done..|]; intros; apply Hw; by constructor|].
  pose proof (Ha s u w Hs Hu Hlw ltac:(done) E) as He. eapply enlarges_trans; [exact He|].
  apply (IH (add s u w, _)); cbn [fst]; [apply He|by rewrite (en_length _ _ He)|].
  intros w' Hw'. rewrite (en_length _ _ He). apply Hw. by constructor.
Qed.

Lemma fill_pairs_enlarges add neighbors st : adds add -> network_ok st.1 -> NoDup neighbors ->
  (forall w, w ∈ neighbors -> (w < length (n_adj st.1))%nat) -> enlarges st.1 (fill_pairs add neighbors st).1.
Proof.
  intros Ha. revert st. induction neighbors as [|u ws IH]; intros st Hs Hn Hw; cbn [fill_pairs]; [by apply enlarges_refl|].
  apply list.NoDup_cons in Hn as [Hu Hn].
  assert (He : enlarges st.1 (fill_from add u ws st).1).
  { apply fill_from_enlarges; [done..|apply Hw; constructor|]. intros w Hin. split; [congruence|apply Hw; by constructor]. }
  eapply enlarges_trans; [exact He|]. apply IH; [apply He|done|].
  intros w Hin. rewrite (en_length _ _ He). apply Hw. by constructor.
Qed.

Lemma eliminate_enlarges add fuel s q order : adds add -> network_ok s -> enlarges s (eliminate add fuel s q order).1.
Proof.
  intros Ha. revert s q order. induction fuel as [|fuel IH]; intros s q order Hs; cbn [eliminate]; [by apply enlarges_refl|].
  destruct (pop_least q) as [[v q1]|]; [|by apply enlarges_refl].
  set (nbs := filter _ _). set (q2 := fold_left _ nbs q1).
  assert (He : enlarges s (fill_pairs add nbs (s, q2)).1).
  { apply (fill_pairs_enlarges add nbs (s, q2)); [done..| |].
    - apply list.NoDup_filter. change (map fst) with (fmap (M := list) (A := nat * Z) fst). rewrite map_range_perm. apply NoDup_fst_map_to_list.
    - intros w [_ Hw]%list_elem_of_filter. apply list_elem_of_fmap in Hw as ([u x] & -> & Hin). apply edge_range_in in Hin.
      cbn [fst]. destruct Hs as [Hg _]. by destruct (g_range _ Hg v u) as (_ & ? & _); [eauto|]. }
  destruct (fill_pairs add nbs (s, q2)) as [s' q']. eapply enlarges_trans; [exact He|]. apply IH, He.
Qed.

Lemma triangulate_enlarges add s : adds add -> network_ok s -> enlarges s (triangulate add s).
Proof.
  intros Ha Hs. unfold triangulate. destruct (chordalOrder (n_adj s)) as [order [rank|]].
  - by apply set_order_enlarges, enlarges_refl.
  - match goal with |- context [eliminate ?a ?n ?s ?q ?o] => pose proof (eliminate_enlarges a n s q o Ha Hs) as He; destruct (eliminate a n s q o) end.
    by apply set_order_enlarges.
Qed.

(** ** The operations *)

Lemma Connect_post s a b : network_ok s ->
  match Connect s a b with
  | inr s' => enlarges s s' /\ (a <> b -> is_Some (edge (n_adj s') a b)) /\ (a < length (n_adj s))%nat /\ (b < length (n_adj s))%nat
  | inl e => e = ErrVertex /\ ((length (n_adj s) <= a)%nat \/ (length (n_adj s) <= b)%nat)
  end.
Proof.
  intros Hs. unfold Connect, vertex.
  destruct (Nat.ltb_spec a (length (n_adj s))) as [Ha|Ha]; cbn [negb orb]; [|by auto].
  destruct (Nat.ltb_spec b (length (n_adj s))) as [Hb|Hb]; cbn [negb orb]; [|by auto].
  destruct (decide (a = b)) as [->|Hne]; [split_and!; [by apply enlarges_refl|done..]|].
  destruct (edge (n_adj s) a b) eqn:E; [split_and!; [by apply enlarges_refl|by rewrite E|done..]|].
  pose proof (add_implied_adds s a b Hs Ha Hb Hne E) as H1.
  pose proof (triangulate_enlarges _ _ add_implied_adds (en_ok _ _ H1)) as H2.
  split_and!; [by eapply enlarges_trans| |done..]. intros _.
  assert (is_Some (edge (n_adj (add_implied s a b)) a b)) as [w Hw].
  { unfold add_implied. destruct (bounds s a b) as [x y]. cbn [with_adj n_adj]. rewrite edge_set_weight, edge_set_weight.
    case_decide; [eauto|]. rewrite decide_True by done. eauto. }
  exists w. by apply (en_edges _ _ H2).
Qed.

Lemma Upper_sound s from to w K time : network_ok s -> timed K time -> meets K time s ->
  Upper s from to = inr w -> bnd K time from to w.
Proof.
  intros Hs Ht Hm. pose proof Ht as [HK Hr]. unfold Upper, vertex.
  destruct (Nat.ltb_spec from (length (n_adj s))) as [Hf|Hf]; cbn [negb orb]; [|done].
  destruct (Nat.ltb_spec to (length (n_adj s))) as [Hto|Hto]; cbn [negb orb]; [|done].
  destruct (decide (from = to)) as [->|Hne]; [intros [= <-]; apply bnd_refl|].
  destruct (edge (n_adj s) from to) as [x|] eqn:E; intros [= <-].
  - eapply feasible_bnd; [apply Hs|done|done].
  - by apply upper_ok; [..|apply Hs| | |].
Qed.

Lemma AddPoint_post s s' v : network_ok s -> AddPoint s = inr (s', v) ->
  network_ok s' /\ v = length (n_adj s) /\ length (n_adj s') = S v
  /\ forall a b, edge (n_adj s') a b = edge (n_adj s) a b.
Proof.
  intros [Hg Hl]. unfold AddPoint. destruct (Z.leb_spec (2 ^ 20) (Z.of_nat (length (n_adj s)))); [done|].
  case_match; [done|]. intros [= <- <-].
  assert (E : forall a b, edge (n_adj s ++ [∅]) a b = edge (n_adj s) a b).
  { intros a b. unfold edge, adj_at. destruct (decide (a < length (n_adj s))%nat) as [Ha|Ha].
    - by rewrite lookup_app_l.
    - rewrite (lookup_ge_None_2 (n_adj s)) by lia. rewrite lookup_app_r by lia.
      destruct (a - length (n_adj s))%nat as [|[]]; simpl; by rewrite ?lookup_empty. }
  split_and!; [|done|cbn [n_adj]; rewrite length_app; simpl; lia|done]. split; cbn [n_adj n_limit].
  - split; intros a b; rewrite ?E, ?length_app.
    + intros H1%(g_range _ Hg). simpl. lia.
    + apply (g_sym _ Hg).
    + apply (g_int _ Hg).
  - pose proof (Z.div_le_upper_bound (2 ^ 60) (Z.of_nat (length (n_adj s)) + 2) (2 ^ 60)).
    split; [apply Z.div_pos; lia|]. nia.
Qed.

Lemma link_pairs_ok topology s : network_ok s ->
  match link_pairs topology s with inr s' => enlarges s s' | inl e => e = ErrVertex end.
Proof.
  revert s. induction topology as [|[a b] topology IH]; intros s Hs; cbn [link_pairs]; [by apply enlarges_refl|].
  unfold vertex. destruct (Nat.ltb_spec a (length (n_adj s))) as [Ha|Ha]; cbn [negb orb]; [|done].
  destruct (Nat.ltb_spec b (length (n_adj s))) as [Hb|Hb]; cbn [negb orb]; [|done].
  assert (He : enlarges s (if decide (a = b) then s else link s a b)).
  { case_decide; [by apply enlarges_refl|]. destruct (edge (n_adj s) a b) eqn:E; [|by apply link_adds].
    unfold link. rewrite E. by apply enlarges_refl. }
  specialize (IH _ (en_ok _ _ He)). destruct (link_pairs topology _) as [e|s']; [done|]. by eapply enlarges_trans.
Qed.

Lemma New_post n topology s : New n topology = inr s ->
  network_ok s /\ length (n_adj s) = n /\ forall K time, timed K time -> meets K time s.
Proof.
  unfold New. case_match; [done|]. set (s0 := mkNetwork _ _ _ _ _).
  assert (E0 : forall a b, edge (n_adj s0) a b = None).
  { intros a b. unfold edge, adj_at. cbn [s0 n_adj]. destruct (replicate n ∅ !! a) as [m|] eqn:E; simpl; [|by rewrite lookup_empty].
    apply lookup_replicate_1 in E as [-> _]. simpl. by rewrite lookup_empty. }
  assert (H0 : network_ok s0).
  { split; [split; intros a b; rewrite ?E0; try (by intros ?%is_Some_None); done|]. cbn [n_limit s0].
    pose proof (Z.div_le_upper_bound (2 ^ 60) (Z.of_nat n + 1) (2 ^ 60)). split; [apply Z.div_pos; lia|]. nia. }
  pose proof (link_pairs_ok topology s0 H0) as Hl. destruct (link_pairs topology s0) as [e|s1]; [done|]. intros [= <-].
  pose proof (enlarges_trans _ _ _ Hl (triangulate_enlarges _ _ link_adds (en_ok _ _ Hl))) as He.
  split; [apply He|]. split; [rewrite (en_length _ _ He); apply length_replicate|].
  intros K time Ht. apply (en_meets _ _ He); [done|]. intros a b w. by rewrite E0.
Qed.

End Exact.

(** ** Histories *)

(** A history of operations: the constraints it accepted, oldest last.  Each
    operation may see its own iteration orders; a refused one leaves the
    network as it was. *)
Inductive net_run : Network -> list (nat * nat * Z) -> Prop :=
  | run_new (R : MapRange) n topology s : New n topology = inr s -> net_run s []
  | run_constrain (R : MapRange) s cs from to bound s' :
      net_run s cs -> Constrain s from to bound = inr s' -> net_run s' ((from, to, bound) :: cs)
  | run_connect (R : MapRange) s cs a b s' : net_run s cs -> Connect s a b = inr s' -> net_run s' cs
  | run_point s cs s' v : net_run s cs -> AddPoint s = inr (s', v) -> net_run s' cs.

Definition satisfies (K : Z) (time : nat -> Z) (cs : list (nat * nat * Z)) : Prop :=
  Forall (fun '(from, to, bound) => time to - time from <= K * bound) cs.

Lemma net_run_exact s cs : net_run s cs ->
  network_ok s /\ forall K time, timed K time -> meets K time s <-> satisfies K time cs.
Proof.
  induction 1 as [R n topology s Hn|R s cs from to bound s' _ [Hs IH] Hc|R s cs a b s' _ [Hs IH] Hc|s cs s' v _ [Hs IH] Hc].
  - destruct (New_post n topology s Hn) as (Hs & _ & Hm). split; [done|]. intros K time Ht. split; [constructor|]. intros _. by apply Hm.
  - pose proof (Constrain_post s from to bound Hs) as Hp. rewrite Hc in Hp. destruct Hp as (Hs' & _ & Hm). split; [done|].
    intros K time Ht. rewrite Hm, IH by done. unfold satisfies. rewrite list.Forall_cons. tauto.
  - pose proof (Connect_post s a b Hs) as Hp. rewrite Hc in Hp. destruct Hp as (He & _). split; [apply He|].
    intros K time Ht. by rewrite <- IH, (enlarges_meets s s').
  - destruct (AddPoint_post s s' v Hs Hc) as (Hs' & _ & _ & He). split; [done|]. intros K time Ht. rewrite <- IH by done.
    unfold feasible. by setoid_rewrite He.
Qed.

(** [C35] The network represents exactly what it was told.  After any history of
    operations, the times that meet the network's bounds are exactly those that
    meet every accepted constraint: propagation derives nothing false and
    forgets nothing, no 64-bit sum of bounds wraps into a false one, and fill
    edges of the triangulation change nothing.  A constraint is refused as
    inconsistent only if no assignment of times meets it together with the
    accepted ones, the propagation loop ends, and the bound a query returns
    holds of every assignment. *)
Theorem network_exact (R : MapRange) s cs K time :
  net_run s cs -> timed K time ->
  (meets K time s <-> satisfies K time cs)
  /\ (forall from to bound,
        Constrain s from to bound <> inl ErrFuel
        /\ (Constrain s from to bound = inl ErrInconsistent -> satisfies K time cs -> K * bound < time to - time from)
        /\ forall w, satisfies K time cs -> Upper s from to = inr w -> time to - time from <= K * w).
Proof.
  intros Hr Ht. destruct (net_run_exact _ _ Hr) as [Hs Hm]. split; [by apply Hm|]. intros from to bound.
  pose proof (Constrain_post s from to bound Hs) as Hp. split_and!.
  - intros E. by rewrite E in Hp.
  - intros E Hsat. rewrite E in Hp. apply Hm in Hsat; [|done]. specialize (Hp K time Ht Hsat). lia.
  - intros w Hsat Hu. apply Hm in Hsat; [|done]. by destruct (Upper_sound s from to w K time Hs Ht Hsat Hu).
Qed.
