(* ===== verification/Clocks.v ===== *)
(** * Clock evidence: stn/clocks.go, effects/temporal.go

    Every node incarnation is a clock domain with an unknown origin and a rate
    error of at most [ppm] parts per million.  [Before] turns an observed
    causal order of two samples into a bound between the domains' anchors, and
    [Difference] bounds the time from one sample to another.

    The theorem is the promise the engine builds on: for any true times that
    respect the rate error, evidence from true observations is never refused
    as inconsistent, and the interval [Difference] returns holds the true
    difference, 64-bit overflow and rounding included. *)

From S2P Require Import Prelude Stn StnExact.

Record Sample := mkSample { s_domain : Z; s_tick : Z }.

Record clockAnchor := mkAnchor { ca_vertex : nat; ca_tick : Z }.

Record Clocks := mkClocks { ck_network : Network; ck_anchors : gmap Z clockAnchor; ck_ppm : Z }.

(** ** Elapsed time *)

Definition checkedSubtract (a b : Z) : stn_error + Z :=
  if ((0 <? b) && (a <? min_int64 + b)) || ((b <? 0) && (max_int64 + b <? a)) then inl ErrWeight
  else inr (wrap64 (a - b)).

(** [scale] of [elapsed]; all operands are non-negative. *)
Definition scale (d denominator : Z) (ceil : bool) : stn_error + Z :=
  let q := d / denominator in
  let r := d mod denominator in
  let fraction := r * 1000000 / denominator in
  let fraction := if ceil && negb ((r * 1000000) mod denominator =? 0) then fraction + 1 else fraction in
  if (max_int64 - fraction) / 1000000 <? q then inl ErrWeight
  else inr (q * 1000000 + fraction).

Definition elapsed (ppm tick anchor : Z) : stn_error + (Z * Z) :=
  match checkedSubtract tick anchor with
  | inl _ => inl ErrWeight
  | inr d =>
      if decide (d = min_int64) then inl ErrWeight
      else
        let negative := d <? 0 in
        let d := if negative then - d else d in
        match scale d (1000000 + ppm) false with
        | inl e => inl e
        | inr lower =>
            match scale d (1000000 - ppm) true with
            | inl e => inl e
            | inr upper => inr (if negative then (- upper, - lower) else (lower, upper))
            end
        end
  end.

Definition outward_add (a v : Z) : option Z :=
  if ((0 <? v) && (max_int64 - v <? a)) || ((v <? 0) && (a <? min_int64 - v)) then None
  else Some (wrap64 (a + v)).

Definition outwardSum (a b c : Z) : Z :=
  match outward_add a b with
  | None => Infinity
  | Some ab => default Infinity (outward_add ab c)
  end.

(** ** The evidence *)

Section Evidence.
Context {ranger : MapRange}.

Definition NewClocks (rateErrorPPM : Z) : option Clocks :=
  if (rateErrorPPM <? 0) || (1000000 <=? rateErrorPPM) then None
  else match New 0 [] with
       | inl _ => None
       | inr n => Some (mkClocks n ∅ rateErrorPPM)
       end.

Definition anchor (c : Clocks) (s : Sample) : stn_error + (Clocks * clockAnchor) :=
  match ck_anchors c !! s_domain s with
  | Some a => inr (c, a)
  | None =>
      match AddPoint (ck_network c) with
      | inl e => inl e
      | inr (n, v) =>
          let a := mkAnchor v (s_tick s) in
          inr (mkClocks n (<[s_domain s := a]> (ck_anchors c)) (ck_ppm c), a)
      end
  end.

(** The bound of [Before] on the anchors' difference. *)
Definition before_bound (c : Clocks) (p e : Sample) : stn_error + Z :=
  let ptick := from_option ca_tick (s_tick p) (ck_anchors c !! s_domain p) in
  let etick := from_option ca_tick (s_tick e) (ck_anchors c !! s_domain e) in
  match elapsed (ck_ppm c) (s_tick p) ptick with
  | inl err => inl err
  | inr (pl, _) =>
      match elapsed (ck_ppm c) (s_tick e) etick with
      | inl err => inl err
      | inr (_, eu) => checkedSubtract eu pl
      end
  end.

(** The part of [Before] that builds the next version. *)
Definition before_next (c : Clocks) (p e : Sample) (bound : Z) : stn_error + Clocks :=
  match anchor c p with
  | inl err => inl err
  | inr (next, pa) =>
      match anchor next e with
      | inl err => inl err
      | inr (next, ea) =>
          match Connect (ck_network next) (ca_vertex ea) (ca_vertex pa) with
          | inl err => inl err
          | inr n =>
              match Constrain n (ca_vertex ea) (ca_vertex pa) bound with
              | inl err => inl err
              | inr n => inr (mkClocks n (ck_anchors next) (ck_ppm next))
              end
          end
      end
  end.

(** The version returned and the error beside it. *)
Definition Before (c : Clocks) (p e : Sample) : Clocks * option stn_error :=
  if decide (s_domain p = s_domain e) then
    (c, if s_tick e <? s_tick p then Some ErrInconsistent else None)
  else
    match before_bound c p e with
    | inl err => (c, Some err)
    | inr bound =>
        let next := match before_next c p e bound with
                    | inl err => (c, Some err)
                    | inr c' => (c', None)
                    end in
        match ck_anchors c !! s_domain p, ck_anchors c !! s_domain e with
        | Some pa, Some ea =>
            match Upper (ck_network c) (ca_vertex ea) (ca_vertex pa) with
            | inl err => (c, Some err)
            | inr old => if old <=? bound then (c, None) else next
            end
        | _, _ => next
        end
    end.

Definition Difference (c : Clocks) (a b : Sample) : stn_error + (Z * Z) :=
  if decide (s_domain a = s_domain b) then elapsed (ck_ppm c) (s_tick b) (s_tick a)
  else
    match ck_anchors c !! s_domain a, ck_anchors c !! s_domain b with
    | Some aa, Some ba =>
        match elapsed (ck_ppm c) (s_tick a) (ca_tick aa) with
        | inl e => inl e
        | inr (al, au) =>
            match elapsed (ck_ppm c) (s_tick b) (ca_tick ba) with
            | inl e => inl e
            | inr (bl, bu) =>
                let '(ab, baBound) := bounds (ck_network c) (ca_vertex aa) (ca_vertex ba) in
                let upper := if decide (ab = Infinity) then Infinity else outwardSum ab bu (- al) in
                let lower := if decide (baBound = Infinity) then - Infinity else wrap64 (- outwardSum baBound au (- bl)) in
                inr (lower, upper)
            end
        end
    | _, _ => inr (- Infinity, Infinity)
    end.

(** The inner loop of [temporalEvidence.merge]: a refused observation supplies
    no evidence and is dropped. *)
Definition merge (base : Clocks) (observations : list (Sample * Sample)) : Clocks :=
  fold_left (fun next '(p, e) =>
    match Before next p e with (updated, None) => updated | (_, Some _) => next end) observations base.

End Evidence.

(** ** True times *)

(** Samples that were taken, with their times in units of [1/K] nanosecond:
    within 73 years of the origin, on clocks whose rate error is bounded. *)
Record true_times (ppm K : Z) (T : Sample -> Z) (taken : Sample -> Prop) : Prop := {
  tt_unit : 0 < K;
  tt_range : forall s, taken s -> - (K * 2 ^ 61) <= T s <= K * 2 ^ 61;
  tt_tick : forall s, taken s -> is_int64 (s_tick s);
  tt_rate : forall s1 s2, taken s1 -> taken s2 -> s_domain s1 = s_domain s2 -> s_tick s1 <= s_tick s2 ->
    K * (s_tick s2 - s_tick s1) * 1000000 <= (T s2 - T s1) * (1000000 + ppm)
    /\ (T s2 - T s1) * (1000000 - ppm) <= K * (s_tick s2 - s_tick s1) * 1000000;
}.

Definition observed (T : Sample -> Z) (taken : Sample -> Prop) (o : Sample * Sample) : Prop :=
  taken o.1 /\ taken o.2 /\ T o.1 <= T o.2.

(** ** Arithmetic *)

Lemma checkedSubtract_ok a b d : is_int64 a -> is_int64 b -> checkedSubtract a b = inr d -> d = a - b /\ is_int64 d.
Proof.
  unfold checkedSubtract, is_int64. intros Ha Hb. case_match eqn:E; [done|]. intros [= <-].
  assert (is_int64 (a - b)).
  { unfold is_int64, min_int64, max_int64 in *. apply orb_false_iff in E as [E1 E2].
    destruct (Z.ltb_spec 0 b), (Z.ltb_spec b 0); simpl in *; lia. }
  by rewrite wrap64_id.
Qed.

(** [scale] is the quotient [d * 10^6 / den], rounded down or up. *)
Lemma scale_ok d den ceil x : 0 < den -> 0 <= d -> scale d den ceil = inr x ->
  0 <= x <= max_int64
  /\ if ceil then d * 1000000 <= x * den else x * den <= d * 1000000.
Proof.
  intros Hden Hd. unfold scale. set (q := d / den). set (r := d mod den).
  assert (Hdq : d = den * q + r) by (apply Z.div_mod; lia).
  assert (Hq : 0 <= q) by (apply Z.div_pos; lia).
  pose proof (Z.mod_pos_bound d den Hden) as Hr. fold r in Hr.
  set (f := r * 1000000 / den).
  pose proof (Z.div_mod (r * 1000000) den ltac:(lia)) as Hf. fold f in Hf.
  pose proof (Z.mod_pos_bound (r * 1000000) den Hden) as Hm.
  assert (Hf0 : 0 <= f) by (apply Z.div_pos; lia). set (m := (r * 1000000) mod den) in *. clearbody q r f m.
  set (frac := if ceil && negb (m =? 0) then f + 1 else f).
  assert (Hfr : 0 <= frac /\ if ceil then r * 1000000 <= frac * den else frac * den <= r * 1000000).
  { unfold frac. destruct ceil; simpl; [|nia]. destruct (Z.eqb_spec m 0); simpl; nia. }
  clearbody frac. destruct (Z.ltb_spec ((max_int64 - frac) / 1000000) q) as [|Hle]; [done|]. intros [= <-].
  pose proof (Z.mul_div_le (max_int64 - frac) 1000000 ltac:(lia)).
  split; [lia|]. subst d. destruct Hfr as [_ Hfr]. destruct ceil; nia.
Qed.

Lemma elapsed_err ppm tick a e : elapsed ppm tick a = inl e -> e = ErrWeight.
Proof.
  unfold elapsed. destruct (checkedSubtract tick a) as [|d]; [congruence|]. case_decide; [congruence|].
  assert (Hs : forall x y z e, scale x y z = inl e -> e = ErrWeight) by (intros x y z e'; unfold scale; case_match; congruence).
  destruct (scale _ _ false) as [e1|] eqn:E1; [apply Hs in E1; congruence|].
  destruct (scale _ _ true) as [e2|] eqn:E2; [apply Hs in E2; congruence|]. done.
Qed.

Lemma before_bound_err c p e err : before_bound c p e = inl err -> err = ErrWeight.
Proof.
  unfold before_bound.
  destruct (elapsed _ (s_tick p) _) as [e1|[pl pu]] eqn:E1; [apply elapsed_err in E1; congruence|].
  destruct (elapsed _ (s_tick e) _) as [e2|[el eu]] eqn:E2; [apply elapsed_err in E2; congruence|].
  unfold checkedSubtract. case_match; congruence.
Qed.

Lemma elapsed_ok ppm K T taken s a l u : 0 <= ppm < 1000000 -> true_times ppm K T taken ->
  taken s -> taken a -> s_domain s = s_domain a -> elapsed ppm (s_tick s) (s_tick a) = inr (l, u) ->
  K * l <= T s - T a <= K * u /\ - max_int64 <= l <= max_int64 /\ - max_int64 <= u <= max_int64.
Proof.
  intros Hppm Htt Hs Ha Hdom. pose proof (tt_unit _ _ _ _ Htt) as HK. unfold elapsed.
  destruct (checkedSubtract (s_tick s) (s_tick a)) as [|d] eqn:Ed; [done|].
  apply checkedSubtract_ok in Ed as [-> Hd]; [|by eapply tt_tick..]. case_decide as Hmin; [done|].
  destruct (Z.ltb_spec (s_tick s - s_tick a) 0) as [Hneg|Hpos].
  - destruct (scale _ (1000000 + ppm) false) as [|lo] eqn:E1; [done|].
    destruct (scale _ (1000000 - ppm) true) as [|hi] eqn:E2; [done|]. intros [= <- <-].
    apply scale_ok in E1 as [R1 S1]; [|lia..]. apply scale_ok in E2 as [R2 S2]; [|lia..].
    destruct (tt_rate _ _ _ _ Htt s a Hs Ha Hdom ltac:(lia)) as [T1 T2]. split; [|lia]. split; nia.
  - destruct (scale _ (1000000 + ppm) false) as [|lo] eqn:E1; [done|].
    destruct (scale _ (1000000 - ppm) true) as [|hi] eqn:E2; [done|]. intros [= <- <-].
    apply scale_ok in E1 as [R1 S1]; [|lia..]. apply scale_ok in E2 as [R2 S2]; [|lia..].
    destruct (tt_rate _ _ _ _ Htt a s Ha Hs ltac:(done) ltac:(lia)) as [T1 T2]. split; [|lia]. split; nia.
Qed.

Lemma outwardSum_ok a b c : is_int64 a -> is_int64 b -> is_int64 c ->
  outwardSum a b c = Infinity \/ (outwardSum a b c = a + b + c /\ is_int64 (a + b + c)).
Proof.
  assert (Hadd : forall x v y, is_int64 x -> is_int64 v -> outward_add x v = Some y -> y = x + v /\ is_int64 y).
  { intros x v y Hx Hv. unfold outward_add. case_match eqn:E; [done|]. intros [= <-].
    assert (is_int64 (x + v)).
    { unfold is_int64, min_int64, max_int64 in *. apply orb_false_iff in E as [E1 E2].
      destruct (Z.ltb_spec 0 v), (Z.ltb_spec v 0); simpl in *; lia. }
    by rewrite wrap64_id. }
  intros Ha Hb Hc. unfold outwardSum. destruct (outward_add a b) as [x|] eqn:E1; [|by left].
  apply Hadd in E1 as [-> Hx]; [|done..]. destruct (outward_add (a + b) c) as [y|] eqn:E2; [|by left].
  apply Hadd in E2 as [-> Hy]; [|done..]. by right.
Qed.

(** ** Soundness *)

Section Sound.
Context {ranger : MapRange} (ppm K : Z) (T : Sample -> Z) (taken : Sample -> Prop).
Hypothesis ppm_range : 0 <= ppm < 1000000.
Hypothesis times : true_times ppm K T taken.

Definition anchor_sample (domain : Z) (a : clockAnchor) : Sample := mkSample domain (ca_tick a).

(** The true times of the anchors meet the network. *)
Record clocks_ok (c : Clocks) : Prop := {
  co_ppm : ck_ppm c = ppm;
  co_network : network_ok (ck_network c);
  co_time : exists time, timed K time /\ meets K time (ck_network c)
    /\ forall dom a, ck_anchors c !! dom = Some a ->
         taken (anchor_sample dom a) /\ (ca_vertex a < length (n_adj (ck_network c)))%nat
         /\ time (ca_vertex a) = T (anchor_sample dom a);
}.

Lemma NewClocks_ok c : NewClocks ppm = Some c -> clocks_ok c.
Proof.
  unfold NewClocks. case_match; [done|]. destruct (New 0 []) as [|n] eqn:En; [done|]. intros [= <-].
  destruct (New_post 0 [] n En) as (Hn & _ & Hm).
  assert (Ht : timed K (fun _ => 0)) by (split; [apply times|]; intros _; pose proof (tt_unit _ _ _ _ times); lia).
  split; [done..|]. exists (fun _ => 0). split; [done|]. split; [by apply Hm|]. intros dom a. cbn [ck_anchors]. by rewrite lookup_empty.
Qed.

Lemma anchor_ok c s c' a : clocks_ok c -> taken s -> anchor c s = inr (c', a) ->
  clocks_ok c' /\ ck_anchors c' !! s_domain s = Some a
  /\ (forall dom b, ck_anchors c !! dom = Some b -> ck_anchors c' !! dom = Some b)
  /\ ca_tick a = from_option ca_tick (s_tick s) (ck_anchors c !! s_domain s)
  /\ (forall dom, dom <> s_domain s -> ck_anchors c' !! dom = ck_anchors c !! dom).
Proof.
  intros [Hp Hn (time & Ht & Hm & Ha)] Hs. unfold anchor. destruct (ck_anchors c !! s_domain s) as [b|] eqn:E.
  { intros [= <- <-]. split_and!; try done. split; [done..|]. by exists time. }
  destruct (AddPoint (ck_network c)) as [|[n v]] eqn:Ep; [done|]. intros [= <- <-].
  destruct (AddPoint_post _ _ _ Hn Ep) as (Hn' & -> & Hl & He). cbn [ck_anchors ca_tick from_option].
  split_and!; [|apply lookup_insert_eq| |done|intros; by apply lookup_insert_ne].
  2:{ intros dom b Hb. rewrite lookup_insert_ne; [done|congruence]. }
  split; [done..|]. cbn [ck_network ck_anchors]. set (v := length (n_adj (ck_network c))) in *.
  exists (fun w => if decide (w = v) then T s else time w). split; [|split].
  - destruct Ht as [HK Hr]. split; [done|]. intros w. case_decide; [|apply Hr]. by apply (tt_range _ _ _ _ times).
  - intros x y w. rewrite He. intros Ew. destruct (g_range _ (net_graph _ Hn) x y ltac:(eauto)) as (Hx & Hy & _).
    fold v in Hx, Hy. rewrite !decide_False by lia. by apply Hm.
  - intros dom a. destruct (decide (dom = s_domain s)) as [->|Hne].
    + rewrite lookup_insert_eq. intros [= <-]. unfold anchor_sample. cbn [ca_tick ca_vertex]. rewrite decide_True by done.
      destruct s as [dm tk]. cbn [s_domain s_tick] in *. split_and!; [done|lia|done].
    + rewrite lookup_insert_ne by done. intros Hd. destruct (Ha _ _ Hd) as (H1 & H2 & H3). fold v in H2.
      rewrite decide_False by lia. split_and!; [done|lia|done].
Qed.

(** The bound [Before] computes holds of the anchors it is put between. *)
Lemma before_bound_ok c p e bound pa ea : clocks_ok c -> observed T taken (p, e) -> before_bound c p e = inr bound ->
  ca_tick pa = from_option ca_tick (s_tick p) (ck_anchors c !! s_domain p) ->
  ca_tick ea = from_option ca_tick (s_tick e) (ck_anchors c !! s_domain e) ->
  taken (anchor_sample (s_domain p) pa) -> taken (anchor_sample (s_domain e) ea) ->
  T (anchor_sample (s_domain p) pa) - T (anchor_sample (s_domain e) ea) <= K * bound.
Proof.
  intros [Hp _ _] (Htp & Hte & Hle) Hb Epa Eea Hpa Hea. unfold before_bound in Hb. rewrite Hp, <- Epa, <- Eea in Hb.
  cbn [fst snd] in *.
  destruct (elapsed ppm (s_tick p) (ca_tick pa)) as [|[pl pu]] eqn:E1; [done|].
  destruct (elapsed ppm (s_tick e) (ca_tick ea)) as [|[el eu]] eqn:E2; [done|].
  destruct (elapsed_ok ppm K T taken p (anchor_sample (s_domain p) pa) pl pu) as (H1 & R1 & _); [done..|].
  destruct (elapsed_ok ppm K T taken e (anchor_sample (s_domain e) ea) el eu) as (H2 & _ & R2); [done..|].
  apply checkedSubtract_ok in Hb as [-> _]; [|unfold is_int64, min_int64, max_int64 in *; lia..]. lia.
Qed.

Lemma before_next_ok c p e bound : clocks_ok c -> s_domain p <> s_domain e -> observed T taken (p, e) ->
  before_bound c p e = inr bound ->
  match before_next c p e bound with
  | inr c' => clocks_ok c'
  | inl err => err <> ErrInconsistent /\ err <> ErrFuel
  end.
Proof.
  intros Hc Hne Hobs Hb. pose proof Hobs as (Htp & Hte & _). cbn [fst snd] in Htp, Hte. unfold before_next.
  assert (Hpt : forall c s err, anchor c s = inl err -> err <> ErrInconsistent /\ err <> ErrFuel).
  { intros c0 s err. unfold anchor. case_match; [done|]. unfold AddPoint. repeat case_match; intros; simplify_eq; by split. }
  destruct (anchor c p) as [err|[c1 pa]] eqn:E1; [by eapply Hpt|].
  destruct (anchor_ok _ _ _ _ Hc Htp E1) as (Hc1 & Hpa & Hext1 & Etp & Hoth1).
  destruct (anchor c1 e) as [err|[c2 ea]] eqn:E2; [by eapply Hpt|].
  destruct (anchor_ok _ _ _ _ Hc1 Hte E2) as (Hc2 & Hea & Hext2 & Ete & _).
  rewrite (Hoth1 (s_domain e)) in Ete by done.
  destruct Hc2 as [Hppm Hn (time & Ht & Hm & Ha)].
  destruct (Ha _ _ (Hext2 _ _ Hpa)) as (Tp & Lp & Vp). destruct (Ha _ _ Hea) as (Te & Le & Ve).
  pose proof (before_bound_ok c p e bound pa ea Hc Hobs Hb Etp Ete Tp Te) as Hbound. rewrite <- Vp, <- Ve in Hbound.
  pose proof (Connect_post (ck_network c2) (ca_vertex ea) (ca_vertex pa) Hn) as Hco.
  destruct (Connect (ck_network c2) (ca_vertex ea) (ca_vertex pa)) as [err|n]; [by destruct Hco as [-> _]|].
  destruct Hco as (He & _ & _ & _).
  pose proof (Constrain_post n (ca_vertex ea) (ca_vertex pa) bound (en_ok _ _ He)) as Hp.
  pose proof (en_meets _ _ He K time Ht Hm) as Hmn.
  destruct (Constrain n (ca_vertex ea) (ca_vertex pa) bound) as [err|n']; cbn [constrain_post] in Hp.
  - destruct err; try done. exfalso. by apply (Hp K time).
  - destruct Hp as (Hn' & Hl & Hiff). split; [done..|]. exists time. split; [done|]. split; [by apply Hiff|].
    intros dom a Hd. cbn [ck_network ck_anchors] in *. destruct (Ha _ _ Hd) as (? & ? & ?). rewrite Hl, (en_length _ _ He). done.
Qed.

Lemma Before_ok c p e c' err : clocks_ok c -> observed T taken (p, e) -> Before c p e = (c', err) ->
  clocks_ok c' /\ err <> Some ErrInconsistent /\ err <> Some ErrFuel /\ (is_Some err -> c' = c).
Proof.
  intros Hc Hobs. unfold Before. case_decide as Hd.
  { intros [= <- <-]. split; [done|]. case_match eqn:E; [|split_and!; done]. exfalso.
    destruct Hobs as (Hp & He & Hle). cbn [fst snd] in *. apply Z.ltb_lt in E.
    destruct (tt_rate _ _ _ _ times e p He Hp ltac:(done) ltac:(lia)) as [H1 _].
    pose proof (tt_unit _ _ _ _ times). nia. }
  destruct (before_bound c p e) as [er|bound] eqn:Eb.
  { apply before_bound_err in Eb as ->. intros [= <- <-]. by split_and!. }
  pose proof (before_next_ok c p e bound Hc Hd Hobs Eb) as Hn.
  set (next := match before_next c p e bound with inl err => (c, Some err) | inr c' => (c', None) end).
  assert (Hnext : next = (c', err) -> clocks_ok c' /\ err <> Some ErrInconsistent /\ err <> Some ErrFuel /\ (is_Some err -> c' = c)).
  { unfold next. destruct (before_next c p e bound) as [er|c2]; intros [= <- <-].
    - destruct Hn. split_and!; [done|congruence|congruence|done].
    - split_and!; [done..|]. by intros ?%is_Some_None. }
  destruct (ck_anchors c !! s_domain p) as [pa|]; [|done]. destruct (ck_anchors c !! s_domain e) as [ea|]; [|done].
  destruct (Upper (ck_network c) (ca_vertex ea) (ca_vertex pa)) as [er|old] eqn:Eu.
  - intros [= <- <-]. unfold Upper in Eu. assert (er = ErrVertex) as -> by (repeat case_match; congruence). by split_and!.
  - destruct (old <=? bound); [|exact Hnext]. intros [= <- <-]. split_and!; [done..|]. by intros ?%is_Some_None.
Qed.

Lemma merge_ok obs c : clocks_ok c -> Forall (observed T taken) obs -> clocks_ok (merge c obs).
Proof.
  intros Hc Ho. revert c Hc. induction Ho as [|[p e] obs Hpe _ IH]; intros c Hc; [done|].
  cbn [merge fold_left]. destruct (Before c p e) as [c' err] eqn:E. destruct (Before_ok _ _ _ _ _ Hc Hpe E) as (Hc' & _).
  destruct err; by apply IH.
Qed.

Lemma Difference_ok c a b l u : clocks_ok c -> taken a -> taken b -> Difference c a b = inr (l, u) ->
  K * l <= T b - T a <= K * u.
Proof.
  intros [Hppm Hn (time & Ht & Hm & Ha)] Hta Htb. pose proof (tt_unit _ _ _ _ times) as HK.
  assert (Hrange : K * - Infinity <= T b - T a <= K * Infinity).
  { pose proof (tt_range _ _ _ _ times a Hta). pose proof (tt_range _ _ _ _ times b Htb). unfold Infinity, max_int64. nia. }
  unfold Difference. rewrite Hppm. case_decide as Hd.
  { intros E. by destruct (elapsed_ok ppm K T taken b a l u) as (? & _); [done..|]. }
  destruct (ck_anchors c !! s_domain a) as [aa|] eqn:Ea; [|by intros [= <- <-]].
  destruct (ck_anchors c !! s_domain b) as [ba|] eqn:Eb; [|by intros [= <- <-]].
  destruct (Ha _ _ Ea) as (Taa & Laa & Vaa). destruct (Ha _ _ Eb) as (Tba & Lba & Vba).
  destruct (elapsed ppm (s_tick a) (ca_tick aa)) as [|[al au]] eqn:E1; [done|].
  destruct (elapsed ppm (s_tick b) (ca_tick ba)) as [|[bl bu]] eqn:E2; [done|].
  destruct (elapsed_ok ppm K T taken a (anchor_sample (s_domain a) aa) al au) as (H1 & R1 & R1'); [done..|].
  destruct (elapsed_ok ppm K T taken b (anchor_sample (s_domain b) ba) bl bu) as (H2 & R2 & R2'); [done..|].
  destruct (bounds_ok K time (timed_unit _ _ Ht) (timed_range _ _ Ht) _ _ _ (net_graph _ Hn) Hm Laa Lba) as [B1 B2].
  pose proof (bnd_lower K time (timed_unit _ _ Ht) (timed_range _ _ Ht) _ _ _ B1) as L1.
  pose proof (bnd_lower K time (timed_unit _ _ Ht) (timed_range _ _ Ht) _ _ _ B2) as L2.
  destruct (bounds (ck_network c) (ca_vertex aa) (ca_vertex ba)) as [ab baB]. cbn [fst snd] in *.
  unfold bnd in B1, B2. rewrite Vaa, Vba in B1, B2. destruct B1 as [B1 B1'], B2 as [B2 B2'].
  assert (Hi : forall x, - max_int64 <= x <= max_int64 -> is_int64 x /\ is_int64 (- x)).
  { unfold is_int64, min_int64, max_int64. lia. }
  assert (Hiab : is_int64 ab) by (unfold is_int64, Infinity, min_int64, max_int64 in *; lia).
  assert (Hiba : is_int64 baB) by (unfold is_int64, Infinity, min_int64, max_int64 in *; lia).
  intros [= <- <-]. split.
  - case_decide; [apply Hrange|]. destruct (outwardSum_ok baB au (- bl)) as [-> |[-> Hs]]; [done|by apply Hi..| |].
    + rewrite wrap64_id; [apply Hrange|]. unfold is_int64, Infinity, min_int64, max_int64. lia.
    + assert (- 2 ^ 62 <= baB + au + - bl).
      { pose proof (tt_range _ _ _ _ times a Hta). pose proof (tt_range _ _ _ _ times b Htb).
        apply (Z.mul_le_mono_pos_l _ _ K); lia. }
      rewrite wrap64_id by (unfold is_int64, min_int64, max_int64 in *; lia). lia.
  - case_decide; [apply Hrange|]. destruct (outwardSum_ok ab bu (- al)) as [-> |[-> Hs]]; [done|by apply Hi..| |].
    + apply Hrange.
    + lia.
Qed.

End Sound.

(** [C36] Clock evidence is sound.  Take any times of the samples that respect the
    rate error, and let the evidence grow by observations that are true of
    them.  Then no true observation is refused as inconsistent, and whenever
    [Difference] answers, the true difference of the two samples lies in the
    interval it returns: rounding goes outwards and no 64-bit overflow turns
    into a false order. *)
Theorem clock_evidence_sound (R : MapRange) ppm K T taken obs c0 :
  true_times ppm K T taken -> NewClocks ppm = Some c0 -> Forall (observed T taken) obs ->
  (forall p e, observed T taken (p, e) -> (Before (merge c0 obs) p e).2 <> Some ErrInconsistent)
  /\ forall a b l u, taken a -> taken b -> Difference (merge c0 obs) a b = inr (l, u) -> K * l <= T b - T a <= K * u.
Proof.
  intros Htt Hnew Hobs.
  assert (Hppm : 0 <= ppm < 1000000).
  { unfold NewClocks in Hnew. destruct (Z.ltb_spec ppm 0), (Z.leb_spec 1000000 ppm); simpl in Hnew; done || lia. }
  assert (Hc : clocks_ok ppm K T taken (merge c0 obs)) by (apply merge_ok; [done..| |done]; by apply NewClocks_ok).
  split.
  - intros p e Hpe. destruct (Before (merge c0 obs) p e) as [c' err] eqn:E.
    by destruct (Before_ok _ _ _ _ Hppm Htt _ _ _ _ _ Hc Hpe E) as (_ & H & _).
  - intros a b l u Ha Hb HD. by eapply Difference_ok.
Qed.
