(* ===== verification/Durability.v ===== *)
(** * The mirror of effects on disk (durability/store.go, discard.go)

    One file per originating node and residue of the offset.  A file is a
    header block, a chain of pages of the table of contents (TOC), and payloads,
    each in blocks of its own that are never given out twice.  A record is
    written in four moves: a slot is reserved, the payload copied, the slot
    filled, and the slot marked published.

    A mapping shares its bytes with the file, so there is one [image], and
    [b_mapped] says how much of it is mapped.  Positions are below 2^63 and
    their sums do not wrap.  What the operating system answers is in [Os]; the
    locks make one step of what they guard, and the moves of a writer that run
    outside them are the list [w_rest].  Words are little endian (a file from a
    machine of the other kind is refused).  Left out: cancellation, the file
    lock of the directory, and the timer loop that calls [sync]. *)

From S2P Require Import Prelude Golib.

(** ** CRC-32 (hash/crc32, the IEEE polynomial) *)

Module Crc32.

Definition bit_step (crc : Z) : Z :=
  if Z.odd crc then Z.lxor (Z.shiftr crc 1) 0xEDB88320 else Z.shiftr crc 1.

Definition byte_step (crc : Z) (b : byte) : Z := Nat.iter 8 bit_step (Z.lxor crc (b2z b)).

Definition update (crc : Z) (data : bytes) : Z := Z.lxor (fold_left byte_step data (Z.lxor crc 0xFFFFFFFF)) 0xFFFFFFFF.

Example check_value : update 0 (map (fun i => z2b (48 + Z.of_nat i)) (seq 1 9)) = 0xCBF43926.
Proof. vm_compute. reflexivity. Qed.

End Crc32.

(** ** Images *)

Record image := mkImage { im_len : Z; im_bytes : gmap Z byte }.

Definition byte_at (m : image) (i : Z) : byte := default x00 (im_bytes m !! i).

Definition read (m : image) (pos n : Z) : bytes := map (fun i => byte_at m (pos + Z.of_nat i)) (seq 0 (Z.to_nat n)).

Fixpoint write (m : image) (pos : Z) (bs : bytes) : image :=
  match bs with [] => m | b :: bs => write (mkImage (im_len m) (<[ pos := b ]> (im_bytes m))) (pos + 1) bs end.

Definition load (m : image) (pos : Z) : Z := le_value (read m pos 8).
Definition save (m : image) (pos value : Z) : image := write m pos (le_bytes 8 value).
Definition clear (m : image) (pos n : Z) : image := write m pos (replicate (Z.to_nat n) x00).
Definition truncate (m : image) (size : Z) : image := mkImage size (filter (fun p => p.1 < size) (im_bytes m)).

Definition align (n block : Z) : Z := (n + block - 1) / block * block.

Definition blen (data : bytes) : Z := Z.of_nat (length data).

Definition recordChecksum (offset pos size allocated : Z) (data : bytes) : Z :=
  let metadata := le_bytes 8 offset ++ le_bytes 8 pos ++ le_bytes 8 size ++ le_bytes 8 allocated in
  Crc32.update (Crc32.update 0 metadata) data.

(** ** Buckets *)

Definition fileCount : Z := 64.
Definition formatVersion : Z := 1.
Definition entrySize : Z := 64.
Definition syncDelay : Z := 10000000.
Definition published : Z := 1.
Definition deleted : Z := 2.
Definition native_mark : Z := 0x0102030405060708.

(** [SWYTCH01]. *)
Definition magic : bytes := [x53; x57; x59; x54; x43; x48; x30; x31].

Inductive dur_error :=
  | ErrClosed | OsFailure | NotExist | EmptyHeader | TruncatedHeader | UnsupportedFormat | InvalidBoundary
  | IdentityMismatch | InvalidPage | InvalidEntry | DuplicateEffect | DuplicateBucket | TooLarge | Corrupt (id : Z * Z) | Unrecognized | Looping.

(** What the operating system says to the calls an operation makes. *)
Record Os := mkOs {
  os_pagesize : Z;
  os_blocksize : Z;
  os_open : bool;
  os_unmap : bool;
  os_truncate : bool;
  os_map : bool;
  os_remap : bool;
  os_sync : bool;
  os_remove : bool;
  os_syncdir : bool;
}.

Record toc := mkToc {
  t_cursor : Z;
  t_lastPage : Z;
  t_entries : gmap Z Z;
  t_free : list Z;
  t_pages : list Z;
}.

Record schedule := mkSchedule {
  s_generation : Z;
  s_synced : Z;
  s_due : option Z;
  s_punches : list (Z * Z);
}.

(** [b_disk] is the file under the name of the bucket; a handle is the number
    of the call that opened it. *)
Record bucket := mkBucket {
  b_id : Z * Z;
  b_file : option Z;
  b_opens : Z;
  b_disk : option image;
  b_mapped : Z;
  b_block : Z;
  b_toc : toc;
  b_sched : schedule;
}.

Definition no_toc : toc := mkToc 0 0 ∅ [] [].
Definition no_schedule : schedule := mkSchedule 0 0 None [].
Definition new_bucket (id : Z * Z) (disk : option image) : bucket := mkBucket id None 0 disk 0 0 no_toc no_schedule.

(** The mapped bytes. *)
Definition b_data (b : bucket) : image := default (mkImage 0 ∅) (b_disk b).

Definition with_file (f : option Z) (b : bucket) : bucket :=
  mkBucket (b_id b) f (b_opens b) (b_disk b) (b_mapped b) (b_block b) (b_toc b) (b_sched b).
Definition with_disk (m : option image) (b : bucket) : bucket :=
  mkBucket (b_id b) (b_file b) (b_opens b) m (b_mapped b) (b_block b) (b_toc b) (b_sched b).
Definition with_toc (t : toc) (b : bucket) : bucket :=
  mkBucket (b_id b) (b_file b) (b_opens b) (b_disk b) (b_mapped b) (b_block b) t (b_sched b).
Definition with_sched (s : schedule) (b : bucket) : bucket :=
  mkBucket (b_id b) (b_file b) (b_opens b) (b_disk b) (b_mapped b) (b_block b) (b_toc b) s.
Definition with_mapping (n : Z) (m : image) (b : bucket) : bucket :=
  mkBucket (b_id b) (b_file b) (b_opens b) (Some m) n (b_block b) (b_toc b) (b_sched b).

Definition b_store (pos : Z) (bs : bytes) (b : bucket) : bucket := with_disk (Some (write (b_data b) pos bs)) b.
Definition b_save (pos value : Z) (b : bucket) : bucket := b_store pos (le_bytes 8 value) b.

(** Unmapped and closed. *)
Definition b_close (b : bucket) : bucket :=
  mkBucket (b_id b) None (b_opens b) (b_disk b) 0 (b_block b) (b_toc b) (b_sched b).

(** *** Opening *)

Definition header (id : Z * Z) (block : Z) : image :=
  let m := write (mkImage (2 * block) ∅) 0 magic in
  let m := save m 8 formatVersion in
  let m := save m 16 block in
  let m := save m 24 id.1 in
  let m := save m 32 id.2 in
  let m := save m 40 fileCount in
  save m 48 native_mark.

Definition slot_count (block : Z) : nat := Z.to_nat ((block - 1) / entrySize).

(** The slots of a page, in order. *)
Definition slots (block page : Z) : list Z := map (fun i => page + entrySize * Z.of_nat i) (seq 1 (slot_count block)).

Definition entry_valid (m : image) (mapped block bucketNo pos : Z) : bool :=
  let offset := load m (pos + 8) in let p := load m (pos + 16) in let n := load m (pos + 24) in let allocated := load m (pos + 32) in
  negb (negb (offset mod fileCount =? bucketNo) || negb (p mod block =? 0) || (allocated =? 0) || negb (allocated mod block =? 0)
        || (allocated <? n) || (mapped <? p) || (mapped - p <? allocated)).

Definition with_free (l : list Z) (t : toc) : toc := mkToc (t_cursor t) (t_lastPage t) (t_entries t) l (t_pages t).
Definition with_entries (e : gmap Z Z) (t : toc) : toc := mkToc (t_cursor t) (t_lastPage t) e (t_free t) (t_pages t).
Definition with_cursor (c : Z) (t : toc) : toc := mkToc c (t_lastPage t) (t_entries t) (t_free t) (t_pages t).

Fixpoint scan_slots (m : image) (mapped block bucketNo : Z) (l : list Z) (t : toc) : toc * option dur_error :=
  match l with
  | [] => (t, None)
  | pos :: l =>
      if negb (load m pos =? published) then scan_slots m mapped block bucketNo l (with_free (t_free t ++ [pos]) t)
      else if negb (entry_valid m mapped block bucketNo pos) then (t, Some InvalidEntry)
      else
        let offset := load m (pos + 8) in
        if bool_decide (is_Some (t_entries t !! offset)) then (t, Some DuplicateEffect)
        else scan_slots m mapped block bucketNo l
               (with_cursor (Z.max (t_cursor t) (load m (pos + 16) + load m (pos + 32))) (with_entries (<[ offset := pos ]> (t_entries t)) t))
  end.

Definition page_valid (mapped block page : Z) (t : toc) : bool :=
  negb (negb (page mod block =? 0) || (mapped - block <? page) || (bool_decide (t_pages t <> []) && (page <=? t_lastPage t))).

Fixpoint scan_pages (fuel : nat) (m : image) (mapped block bucketNo page : Z) (t : toc) : toc * option dur_error :=
  if page =? 0 then (t, None)
  else
    match fuel with
    | O => (t, Some Looping)
    | S fuel =>
        if negb (page_valid mapped block page t) then (t, Some InvalidPage)
        else
          match scan_slots m mapped block bucketNo (slots block page)
                  (mkToc (Z.max (t_cursor t) (page + block)) page (t_entries t) (t_free t) (t_pages t ++ [page])) with
          | (t, Some err) => (t, Some err)
          | (t, None) => scan_pages fuel m mapped block bucketNo (load m page) t
          end
    end.

(** Pages ascend, so there are at most as many as blocks. *)
Definition load_toc (m : image) (mapped block bucketNo : Z) : toc * option dur_error :=
  match scan_pages (S (Z.to_nat (mapped / block))) m mapped block bucketNo block (mkToc (2 * block) 0 ∅ [] []) with
  | (t, Some err) => (t, Some err)
  | (t, None) => (with_cursor (Z.max (t_cursor t) mapped) t, None)
  end.

Definition check_header (os : Os) (id : Z * Z) (m : image) : option dur_error :=
  let block := load m 16 in
  if negb (bool_decide (read m 0 8 = magic)) || negb (load m 8 =? formatVersion) || negb (load m 48 =? native_mark) then Some UnsupportedFormat
  else if (block <? 4096) || (2 ^ 20 <? block) || negb (block mod os_pagesize os =? 0) || (im_len m <? 2 * block) then Some InvalidBoundary
  else if negb (load m 24 =? id.1) || negb (load m 32 =? id.2) || negb (load m 40 =? fileCount) then Some IdentityMismatch
  else None.

Definition mapped_bucket (b : bucket) (m : image) (block : Z) : bucket :=
  mkBucket (b_id b) (Some (b_opens b)) (b_opens b + 1) (Some m) (im_len m) block (b_toc b) (b_sched b).

(** The TOC of a mapped file; a bucket whose TOC does not load is closed. *)
Definition index_bucket (b : bucket) : bucket * option dur_error :=
  let (t, err) := load_toc (b_data b) (b_mapped b) (b_block b) (b_id b).2 in
  match err with Some err => (b_close (with_toc t b), Some err) | None => (with_toc t b, None) end.

Definition open (os : Os) (create : bool) (b : bucket) : bucket * option dur_error :=
  if negb (os_open os) then (b_close b, Some OsFailure)
  else
    match b_disk b with
    | None =>
        if negb create then (b, Some NotExist)
        else if negb (os_truncate os && os_map os && os_sync os) then (b_close b, Some OsFailure)
        else
          let block := Z.max (os_pagesize os) (os_blocksize os) in
          let b := mapped_bucket b (header (b_id b) block) block in
          if negb (os_remap os && os_syncdir os) then (b_close b, Some OsFailure) else index_bucket b
    | Some m =>
        if im_len m =? 0 then (b_close b, Some EmptyHeader)
        else if im_len m <? 4096 then (b_close b, Some TruncatedHeader)
        else if negb (os_map os) then (b_close b, Some OsFailure)
        else match check_header os (b_id b) m with
             | Some err => (b_close b, Some err)
             | None => index_bucket (mapped_bucket b m (load m 16))
             end
    end.

(** *** Growing *)

Definition grow (os : Os) (size : Z) (b : bucket) : bucket * option dur_error :=
  if size <=? b_mapped b then (b, None)
  else if max_int64 <? size then (b, Some TooLarge)
  else
    let size := align size (2 ^ 20) in
    if negb (os_unmap os) then (b, Some OsFailure)
    else
      let m := if os_truncate os then truncate (b_data b) size else b_data b in
      if os_truncate os && os_map os then (with_mapping size m b, None)
      else let b := with_disk (Some m) b in (if os_remap os then b else b_close b, Some OsFailure).

(** *** Putting *)

Definition dirty (now : Z) (s : schedule) : schedule :=
  mkSchedule (s_generation s + 1) (s_synced s) (match s_due s with None => Some (now + syncDelay) | due => due end) (s_punches s).

(** A writer between reservation and publication, with the stores it has left. *)
Record writer := mkWriter {
  w_offset : Z;
  w_slot : Z;
  w_pos : Z;
  w_size : Z;
  w_data : bytes;
  w_rest : list (Z * bytes);
}.

Fixpoint copy_stores (p : Z) (data : bytes) : list (Z * bytes) :=
  match data with [] => [] | x :: data => (p, [x]) :: copy_stores (p + 1) data end.

Definition slot_stores (offset slot p n : Z) (data : bytes) : list (Z * bytes) :=
  [(slot + 8, le_bytes 8 offset); (slot + 16, le_bytes 8 p); (slot + 24, le_bytes 8 (blen data)); (slot + 32, le_bytes 8 n);
   (slot + 40, le_bytes 8 (recordChecksum offset p (blen data) n data))].

Definition record_size (b : bucket) (data : bytes) : Z := align (Z.max (blen data) 1) (b_block b).

Inductive reservation := Present | Reserved (w : writer) | Retry.

(** The slot is the last free one. *)
Definition reserve (offset : Z) (data : bytes) (b : bucket) : bucket * reservation :=
  let t := b_toc b in
  match b_file b with
  | None => (b, Retry)
  | Some _ =>
      if bool_decide (is_Some (t_entries t !! offset)) then (b, Present)
      else
        let n := record_size b data in
        match list.last (t_free t) with
        | Some slot =>
            if t_cursor t + n <=? b_mapped b then
              let p := t_cursor t in
              (b_save slot 0 (with_toc (with_cursor (p + n) (with_free (removelast (t_free t)) t)) b),
               Reserved (mkWriter offset slot p n data (copy_stores p data ++ slot_stores offset slot p n data)))
            else (b, Retry)
        | None => (b, Retry)
        end
  end.

Definition publish (now : Z) (w : writer) (b : bucket) : bucket :=
  with_sched (dirty now (b_sched b)) (with_toc (with_entries (<[ w_offset w := w_slot w ]> (t_entries (b_toc b))) (b_toc b)) (b_save (w_slot w) published b)).

Definition add_page (b : bucket) : bucket :=
  let t := b_toc b in let page := t_cursor t in
  let m := save (clear (b_data b) page (b_block b)) (t_lastPage t) page in
  with_toc (mkToc (page + b_block b) page (t_entries t) (t_free t ++ slots (b_block b) page) (t_pages t ++ [page])) (with_disk (Some m) b).

(** Under the exclusive lock: open, grow, add a page of slots. *)
Definition make_room (os : Os) (data : bytes) (b : bucket) : bucket * option dur_error :=
  match (match b_file b with None => open os true b | Some _ => (b, None) end) with
  | (b, Some err) => (b, Some err)
  | (b, None) =>
      let n := record_size b data in
      let extra := match t_free (b_toc b) with [] => b_block b | _ => 0 end in
      match grow os (t_cursor (b_toc b) + extra + n) b with
      | (b, Some err) => (b, Some err)
      | (b, None) => (if extra =? 0 then b else add_page b, None)
      end
  end.

Definition run_stores (w : writer) (b : bucket) : bucket := fold_left (fun b s => b_store s.1 s.2 b) (w_rest w) b.

Fixpoint put_loop (fuel : nat) (os : Os) (now offset : Z) (data : bytes) (b : bucket) : bucket * option dur_error :=
  match reserve offset data b with
  | (b, Present) => (b, None)
  | (b, Reserved w) => (publish now w (run_stores w b), None)
  | (b, Retry) =>
      match fuel with
      | O => (b, Some Looping)
      | S fuel => match make_room os data b with (b, Some err) => (b, Some err) | (b, None) => put_loop fuel os now offset data b end
      end
  end.

(** Undisturbed, one round of making room is enough. *)
Definition bucket_put (os : Os) (now offset : Z) (data : bytes) (b : bucket) : bucket * option dur_error := put_loop 1 os now offset data b.

(** *** Deleting *)

(** [None]: the code stores into a mapping that is gone, and panics. *)
Definition delete_entry (now offset : Z) (b : bucket) : option (bucket * bool) :=
  let t := b_toc b in
  match t_entries t !! offset with
  | None => Some (b, false)
  | Some pos =>
      if b_mapped b <=? pos then None
      else
        let m := b_data b in let s := b_sched b in
        let s := mkSchedule (s_generation s) (s_synced s) (s_due s) (s_punches s ++ [(load m (pos + 16), load m (pos + 32))]) in
        let t := with_free (t_free t ++ [pos]) (with_entries (delete offset (t_entries t)) t) in
        Some (with_sched (dirty now s) (with_toc t (b_save pos deleted b)), true)
  end.

Definition remove (os : Os) (b : bucket) : bucket * option dur_error :=
  if negb (os_sync os) then (b, Some OsFailure)
  else
    let b := b_close b in
    if negb (os_remove os) then (b, Some OsFailure)
    else (mkBucket (b_id b) None (b_opens b) None 0 (b_block b) (mkToc (t_cursor (b_toc b)) (t_lastPage (b_toc b)) ∅ [] []) no_schedule,
          if os_syncdir os then None else Some OsFailure).

(** Under the exclusive lock, looked at again. *)
Definition remove_empty (os : Os) (b : bucket) : bucket * option dur_error :=
  match b_file b with
  | Some _ => if bool_decide (t_entries (b_toc b) = ∅) then remove os b else (b, None)
  | None => (b, None)
  end.

Definition bucket_delete (os : Os) (now offset : Z) (b : bucket) : option (bucket * option dur_error) :=
  match delete_entry now offset b with
  | None => None
  | Some (b, false) => Some (b, None)
  | Some (b, true) => Some (if bool_decide (t_entries (b_toc b) = ∅) then remove_empty os b else (b, None))
  end.

(** *** Syncing *)

Record sync_job := mkJob { j_file : Z; j_generation : Z; j_due : option Z; j_punches : list (Z * Z) }.

Definition sync_begin (force : bool) (now : Z) (b : bucket) : bucket * option sync_job :=
  let s := b_sched b in
  match b_file b with
  | None => (b, None)
  | Some f =>
      if (s_generation s =? s_synced s) || (negb force && (match s_due s with Some due => now <? due | None => false end)) then (b, None)
      else (with_sched (mkSchedule (s_generation s) (s_synced s) None []) b, Some (mkJob f (s_generation s) (s_due s) (s_punches s)))
  end.

Definition earlier (a b : option Z) : option Z :=
  match b with None => a | Some y => match a with Some x => if x <? y then a else b | None => a end end.

Definition sync_failed (j : sync_job) (b : bucket) : bucket :=
  let s := b_sched b in
  with_sched (mkSchedule (s_generation s) (s_synced s) (earlier (j_due j) (s_due s)) (s_punches s ++ j_punches j)) b.

Definition sync_done (j : sync_job) (b : bucket) : bucket :=
  let s := b_sched b in with_sched (mkSchedule (s_generation s) (j_generation j) (s_due s) (s_punches s)) b.

(** [answers]: whether each extent could be punched. *)
Fixpoint punch_all (now : Z) (answers : list bool) (l : list (Z * Z)) (b : bucket) : bucket * option dur_error :=
  match l with
  | [] => (b, None)
  | (pos, size) :: l' =>
      if default true (head answers) then punch_all now (tail answers) l' (with_disk (Some (clear (b_data b) pos size)) b)
      else
        let s := b_sched b in
        (with_sched (dirty now (mkSchedule (s_generation s) (s_synced s) (s_due s) (s_punches s ++ l))) b, Some OsFailure)
  end.

Definition punch (now : Z) (answers : list bool) (j : sync_job) (b : bucket) : bucket * option dur_error :=
  match j_punches j with
  | [] => (b, None)
  | l => if bool_decide (b_file b = Some (j_file j)) then punch_all now answers l b else (b, None)
  end.

Definition bucket_sync (os : Os) (answers : list bool) (force : bool) (now : Z) (b : bucket) : bucket * option dur_error :=
  match sync_begin force now b with
  | (b, None) => (b, None)
  | (b, Some j) => if os_sync os then punch now answers j (sync_done j b) else (sync_failed j b, Some OsFailure)
  end.

(** *** Recovering *)

Fixpoint recover_slots (b : bucket) (l : list Z) : list (Z * bytes) * option dur_error :=
  match l with
  | [] => ([], None)
  | pos :: l =>
      let m := b_data b in
      if negb (load m pos =? published) then recover_slots b l
      else
        let offset := load m (pos + 8) in let p := load m (pos + 16) in let n := load m (pos + 24) in
        let data := read m p n in
        if negb (recordChecksum offset p n (load m (pos + 32)) data =? load m (pos + 40)) then ([], Some (Corrupt ((b_id b).1, offset)))
        else let (rest, err) := recover_slots b l in ((offset, data) :: rest, err)
  end.

(** All pages, one after the other. *)
Definition bucket_recover (b : bucket) : list (Z * bytes) * option dur_error :=
  match b_file b with
  | None => ([], None)
  | Some _ => recover_slots b (flat_map (slots (b_block b)) (t_pages (b_toc b)))
  end.

(** ** The store *)

Record DurStore := mkDurStore { ds_closed : bool; ds_files : gmap (Z * Z) bucket }.

Definition bucket_id (id : Z * Z) : Z * Z := (id.1, id.2 mod fileCount).

Definition get (id : Z * Z) (s : DurStore) : bucket :=
  default (new_bucket (bucket_id id) None) (ds_files s !! bucket_id id).

Definition set_bucket (b : bucket) (s : DurStore) : DurStore := mkDurStore (ds_closed s) (<[ b_id b := b ]> (ds_files s)).

Definition Put (os : Os) (now : Z) (id : Z * Z) (data : bytes) (s : DurStore) : DurStore * option dur_error :=
  if ds_closed s then (s, Some ErrClosed)
  else let (b, err) := bucket_put os now id.2 data (get id s) in (set_bucket b s, err).

Definition Delete (os : Os) (now : Z) (id : Z * Z) (s : DurStore) : option (DurStore * option dur_error) :=
  if ds_closed s then Some (s, Some ErrClosed)
  else match bucket_delete os now id.2 (get id s) with
       | None => None
       | Some (b, err) => Some (set_bucket b s, err)
       end.

Definition first_error (a b : option dur_error) : option dur_error := match a with Some _ => a | None => b end.

(** An operation on every bucket; the errors are joined, the first is kept. *)
Definition on_buckets `{!MapRange} (f : bucket -> bucket * option dur_error) (s : DurStore) : DurStore * option dur_error :=
  fold_left (fun acc p => let (b, err) := f p.2 in (mkDurStore (ds_closed acc.1) (<[ p.1 := b ]> (ds_files acc.1)), first_error acc.2 err))
    (map_range 21 (ds_files s)) (s, None).

Definition Sync `{!MapRange} (os : Os) (answers : list bool) (now : Z) (s : DurStore) : DurStore * option dur_error :=
  if ds_closed s then (s, Some ErrClosed) else on_buckets (bucket_sync os answers true now) s.

Definition Reset `{!MapRange} (os : Os) (s : DurStore) : DurStore * option dur_error :=
  if ds_closed s then (s, Some ErrClosed)
  else on_buckets (fun b => match b_file b with Some _ => remove os b | None => (b, None) end) s.

Definition Close `{!MapRange} (os : Os) (answers : list bool) (now : Z) (s : DurStore) : DurStore * option dur_error :=
  if ds_closed s then (s, None)
  else on_buckets (fun b => let (b, err) := bucket_sync os answers true now b in (b_close b, err)) (mkDurStore true (ds_files s)).

(** The workers hand the records over in some order, and stop at an error. *)
Definition Recover `{!MapRange} (s : DurStore) : list (Z * Z * bytes) * option dur_error :=
  if ds_closed s then ([], Some ErrClosed)
  else fold_left (fun acc p => match acc.2 with
                               | Some _ => acc
                               | None => let (l, err) := bucket_recover p.2 in (acc.1 ++ map (fun r => ((p.1.1, r.1), r.2)) l, err)
                               end) (map_range 22 (ds_files s)) ([], None).

(** *** The directory

    A directory is a list of names with either a file or a directory of files. *)

Inductive dirent := AFile (m : image) | ADir (files : list (bytes * option image)).

(** [.swytch] *)
Definition suffix : bytes := [x2e; x73; x77; x79; x74; x63; x68].

Definition trim_suffix (name : bytes) : option bytes :=
  if bool_decide (drop (length name - length suffix) name = suffix) then Some (take (length name - length suffix) name) else None.

Definition ParseUint (s : bytes) : option Z := match parse_uint s with (n, None) => Some n | _ => None end.

Fixpoint visit_node (node : Z) (files : list (bytes * option image)) : list (Z * Z * image) * option dur_error :=
  match files with
  | [] => ([], None)
  | (name, content) :: files =>
      match content, trim_suffix name with
      | Some m, Some stem =>
          match ParseUint stem with
          | Some v => if fileCount <=? v then ([], Some Unrecognized) else let (l, err) := visit_node node files in ((node, v, m) :: l, err)
          | None => ([], Some Unrecognized)
          end
      | _, _ => visit_node node files
      end
  end.

Fixpoint visitFiles (dir : list (bytes * dirent)) : list (Z * Z * image) * option dur_error :=
  match dir with
  | [] => ([], None)
  | (name, ent) :: dir =>
      match ent, ParseUint name with
      | ADir files, Some n =>
          match visit_node n files with
          | (l, Some err) => (l, Some err)
          | (l, None) => let (rest, err) := visitFiles dir in (l ++ rest, err)
          end
      | _, _ => visitFiles dir
      end
  end.

Definition open_file (os : Os) (acc : DurStore * option dur_error) (f : Z * Z * image) : DurStore * option dur_error :=
  match acc.2 with
  | Some _ => acc
  | None =>
      match open os false (new_bucket f.1 (Some f.2)) with
      | (_, Some err) => (acc.1, Some err)
      | (b, None) => if bool_decide (is_Some (ds_files acc.1 !! f.1)) then (acc.1, Some DuplicateBucket) else (set_bucket b acc.1, None)
      end
  end.

(** Either all files open, or none stays open. *)
Definition OpenContext (os : Os) (dir : list (bytes * dirent)) : DurStore + dur_error :=
  let (l, verr) := visitFiles dir in
  match fold_left (open_file os) l (mkDurStore false ∅, None) with
  | (_, Some err) => inr err
  | (s, None) => match verr with Some err => inr err | None => inl s end
  end.

(** *** Discarding without opening *)

Definition discardable (node v : Z) (m : image) : bool :=
  (48 <=? im_len m) && bool_decide (read m 0 8 = magic) && (load m 24 =? node) && (load m 32 =? v).

(** The files that are left. *)
Fixpoint discard_node (node : Z) (files : list (bytes * option image)) : list (bytes * option image) * option dur_error :=
  match files with
  | [] => ([], None)
  | (name, content) :: files =>
      let keep := let (l, err) := discard_node node files in ((name, content) :: l, err) in
      match content, trim_suffix name with
      | Some m, Some stem =>
          match ParseUint stem with
          | Some v =>
              if fileCount <=? v then keep
              else if discardable node v m then discard_node node files else ((name, content) :: files, Some Unrecognized)
          | None => keep
          end
      | _, _ => keep
      end
  end.

Fixpoint Discard (dir : list (bytes * dirent)) : list (bytes * dirent) * option dur_error :=
  match dir with
  | [] => ([], None)
  | (name, ent) :: dir =>
      match ent, ParseUint name with
      | ADir files, Some n =>
          match discard_node n files with
          | (l, Some err) => ((name, ADir l) :: dir, Some err)
          | (l, None) => let (rest, err) := Discard dir in ((name, ADir l) :: rest, err)
          end
      | _, _ => let (rest, err) := Discard dir in ((name, ent) :: rest, err)
      end
  end.

(** ** A bucket over time

    The state of one bucket with its writers in flight, the sync in progress
    ([true] once the file is on disk and holes remain to be punched), the states
    since the last one that is surely on disk, newest first, and those since the
    sync in progress began. *)

Record disk_state := mkDisk {
  k_bucket : bucket;
  k_writers : list writer;
  k_job : option (sync_job * bool);
  k_past : list bucket;
  k_since : list bucket;
}.

(** What a power failure leaves of the file: every line of 64 bytes has the
    contents it had at some moment since the last sync, and the file the length
    it had at one. *)
Definition on_line (m m' : image) (line : Z) : Prop :=
  forall i, line * entrySize <= i < (line + 1) * entrySize -> byte_at m i = byte_at m' i.

Definition torn (past : list bucket) (m : image) : Prop :=
  (exists b, b ∈ past /\ im_len m = im_len (b_data b))
  /\ (forall line, (line + 1) * entrySize <= im_len m -> exists b, b ∈ past /\ on_line m (b_data b) line)
  /\ (forall i, im_len m <= i -> byte_at m i = x00).

(** A new file has no past; a removed one leaves none. *)
Definition extend_past (b b' : bucket) (past : list bucket) : list bucket :=
  match b_disk b', b_disk b with None, _ => [] | Some _, None => [b'] | Some _, Some _ => b' :: past end.

Definition advance (b' : bucket) (writers : list writer) (job : option (sync_job * bool)) (k : disk_state) : disk_state :=
  mkDisk b' writers job (extend_past (k_bucket k) b' (k_past k)) (extend_past (k_bucket k) b' (k_since k)).

(** Nobody holds the read lock of the bucket: no writer is in flight and no
    sync is writing the mapping. *)
Definition exclusive (k : disk_state) : Prop := k_writers k = [] /\ forall j, k_job k <> Some (j, false).

Section Steps.
Variables (pagesize blocksize : Z).

Definition machine (os : Os) : Prop := os_pagesize os = pagesize /\ os_blocksize os = blocksize.

(** What a step does to the records. *)
Inductive event := Quiet | Published (offset : Z) (data : bytes) | Deleted (offset : Z) | PowerLoss.

(** The stripes keep two operations on one record apart.  A store that lost
    power is opened again, and serves only if it recovers. *)
Inductive disk_step : disk_state -> event -> disk_state -> Prop :=
  | step_reserve offset data k b w :
      is_uint64 offset -> offset mod fileCount = (b_id (k_bucket k)).2 -> (offset ∉ map w_offset (k_writers k)) ->
      reserve offset data (k_bucket k) = (b, Reserved w) ->
      disk_step k Quiet (advance b (w :: k_writers k) (k_job k) k)
  | step_store l1 l2 w s rest k :
      k_writers k = l1 ++ w :: l2 -> w_rest w = s :: rest ->
      disk_step k Quiet (advance (b_store s.1 s.2 (k_bucket k)) (l1 ++ mkWriter (w_offset w) (w_slot w) (w_pos w) (w_size w) (w_data w) rest :: l2) (k_job k) k)
  | step_publish l1 l2 w now k :
      k_writers k = l1 ++ w :: l2 -> w_rest w = [] ->
      disk_step k (Published (w_offset w) (w_data w)) (advance (publish now w (k_bucket k)) (l1 ++ l2) (k_job k) k)
  | step_room os data k b err :
      machine os -> exclusive k -> make_room os data (k_bucket k) = (b, err) -> disk_step k Quiet (advance b [] (k_job k) k)
  | step_delete now offset k b :
      delete_entry now offset (k_bucket k) = Some (b, true) -> disk_step k (Deleted offset) (advance b (k_writers k) (k_job k) k)
  | step_remove os k b err :
      machine os -> exclusive k -> remove_empty os (k_bucket k) = (b, err) -> disk_step k Quiet (advance b [] (k_job k) k)
  | step_sync_begin force now k b j :
      k_job k = None -> sync_begin force now (k_bucket k) = (b, Some j) ->
      disk_step k Quiet (mkDisk b (k_writers k) (Some (j, false)) (b :: k_past k) [b])
  | step_sync_failed k j :
      k_job k = Some (j, false) -> disk_step k Quiet (advance (sync_failed j (k_bucket k)) (k_writers k) None k)
  | step_sync_done k j :
      k_job k = Some (j, false) ->
      let b := sync_done j (k_bucket k) in disk_step k Quiet (mkDisk b (k_writers k) (Some (j, true)) (b :: k_since k) (b :: k_since k))
  | step_punch now answers k j b err :
      k_job k = Some (j, true) -> k_writers k = [] -> punch now answers j (k_bucket k) = (b, err) -> disk_step k Quiet (advance b [] None k)
  | step_restart os k m b :
      machine os -> b_disk (k_bucket k) = Some m -> open os false (new_bucket (b_id (k_bucket k)) (Some m)) = (b, None) ->
      disk_step k Quiet (mkDisk b [] None (b :: k_past k) [])
  | step_power os k m b l :
      machine os -> torn (k_past k) m -> open os false (new_bucket (b_id (k_bucket k)) (Some m)) = (b, None) -> bucket_recover b = (l, None) ->
      disk_step k PowerLoss (mkDisk b [] None [b] []).

Definition disk_moves (k k' : disk_state) : Prop := exists e, disk_step k e k'.

(** The records a bucket shows. *)
Definition contents (b : bucket) : gmap Z bytes :=
  (fun pos => read (b_data b) (load (b_data b) (pos + 16)) (load (b_data b) (pos + 24))) <$> t_entries (b_toc b).

Definition disk_start (id : Z * Z) : disk_state := mkDisk (new_bucket id None) [] None [] [].

End Steps.
