(* ===== verification/DurLayout.v ===== *)
(** * Bytes of an image

    What a store changes and what it leaves, by ranges. *)

From S2P Require Import Prelude Golib Durability.

(** The two images agree on [n] bytes from [a]. *)
Definition agree (m m' : image) (a n : Z) : Prop := forall i, a <= i < a + n -> byte_at m i = byte_at m' i.

Definition apart (a n c k : Z) : Prop := a + n <= c \/ c + k <= a.

Lemma agree_sym m m' a n : agree m m' a n -> agree m' m a n.
Proof. intros H i Hi. by rewrite H. Qed.

Lemma agree_trans m m' m'' a n : agree m m' a n -> agree m' m'' a n -> agree m m'' a n.
Proof. intros H1 H2 i Hi. by rewrite H1, H2. Qed.

Lemma agree_sub m m' a n c k : agree m m' a n -> a <= c -> c + k <= a + n -> agree m m' c k.
Proof. intros H H1 H2 i Hi. apply H. lia. Qed.

Lemma byte_write_out bs m pos i : ~ (pos <= i < pos + blen bs) -> byte_at (write m pos bs) i = byte_at m i.
Proof.
  unfold blen. revert m pos. induction bs as [|x bs IH]; intros m pos Hi; cbn [write length] in *; [done|].
  rewrite IH by lia. unfold byte_at. cbn. by rewrite lookup_insert_ne by lia.
Qed.

Lemma byte_write_in bs m pos i x : bs !! i = Some x -> byte_at (write m pos bs) (pos + Z.of_nat i) = x.
Proof.
  revert m pos i. induction bs as [|y bs IH]; intros m pos [|i] Hx; cbn [write lookup list_lookup] in *; simplify_eq.
  - rewrite byte_write_out by lia. unfold byte_at. cbn. by rewrite Z.add_0_r, lookup_insert_eq.
  - replace (pos + Z.of_nat (S i)) with ((pos + 1) + Z.of_nat i) by lia. by apply IH.
Qed.

Lemma len_write bs m pos : im_len (write m pos bs) = im_len m.
Proof. revert m pos. induction bs as [|x bs IH]; intros m pos; cbn; [done|]. by rewrite IH. Qed.

Lemma write_agree m pos bs a n : apart pos (blen bs) a n -> agree (write m pos bs) m a n.
Proof. intros H i Hi. apply byte_write_out. destruct H; lia. Qed.

Lemma blen_read m pos n : 0 <= n -> blen (read m pos n) = n.
Proof. intros Hn. unfold blen, read. rewrite length_map, length_seq. lia. Qed.

Lemma read_agree m m' pos n : agree m m' pos n -> read m pos n = read m' pos n.
Proof. intros H. unfold read. apply map_ext_in. intros i [_ Hi]%in_seq. apply H. lia. Qed.

Lemma read_write m pos bs : read (write m pos bs) pos (blen bs) = bs.
Proof.
  unfold read, blen. rewrite Nat2Z.id. apply list_eq. intros i. destruct (lt_dec i (length bs)) as [Hi|Hi].
  - destruct (lookup_lt_is_Some_2 bs i Hi) as [x Hx]. rewrite Hx. rewrite list_lookup_fmap, lookup_seq_lt by done. cbn. by rewrite byte_write_in with (x := x).
  - rewrite (lookup_ge_None_2 bs) by lia. apply lookup_ge_None_2. rewrite length_map, length_seq. lia.
Qed.

Lemma load_agree m m' pos : agree m m' pos 8 -> load m pos = load m' pos.
Proof. intros H. unfold load. by rewrite (read_agree m m'). Qed.

Lemma load_range m pos : is_uint64 (load m pos).
Proof. unfold load, is_uint64, max_uint64. pose proof (le_value_range (read m pos 8)) as H. change (length (read m pos 8)) with 8%nat in H. change (256 ^ Z.of_nat 8) with (2 ^ 64) in H. lia. Qed.

Lemma blen_word v : blen (le_bytes 8 v) = 8.
Proof. unfold blen. by rewrite length_le_bytes. Qed.

(** A word that was stored is what is loaded. *)
Lemma load_word m pos v : is_uint64 v -> read m pos 8 = le_bytes 8 v -> load m pos = v.
Proof. intros Hv H. unfold load. rewrite H, le_value_le_bytes. apply Z.mod_small. unfold is_uint64, max_uint64 in Hv. change (256 ^ Z.of_nat 8) with (2 ^ 64). lia. Qed.

Lemma load_save m pos v : is_uint64 v -> load (save m pos v) pos = v.
Proof. intros Hv. apply load_word; [done|]. unfold save. rewrite <- (blen_word v) at 1. apply read_write. Qed.

Lemma load_zero m pos : (forall i, pos <= i < pos + 8 -> byte_at m i = x00) -> load m pos = 0.
Proof.
  intros H. apply load_word; [unfold is_uint64, max_uint64; lia|]. unfold read. change (le_bytes 8 0) with (map (fun _ => x00) (seq 0 8)).
  apply map_ext_in. intros i [_ Hi]%in_seq. apply H. lia.
Qed.

Lemma save_agree m pos v a n : apart pos 8 a n -> agree (save m pos v) m a n.
Proof. intros H. apply write_agree. by rewrite blen_word. Qed.

Lemma blen_replicate (n : Z) x : 0 <= n -> blen (replicate (Z.to_nat n) x) = n.
Proof. intros Hn. unfold blen. rewrite length_replicate. lia. Qed.

Lemma clear_agree m pos n a k : 0 <= n -> apart pos n a k -> agree (clear m pos n) m a k.
Proof. intros Hn H. apply write_agree. by rewrite blen_replicate. Qed.

(** Clearing what is zero changes no byte. *)
Lemma clear_zero m pos n i : 0 <= n -> (pos <= i < pos + n -> byte_at m i = x00) -> byte_at (clear m pos n) i = byte_at m i.
Proof.
  intros Hn H. destruct (decide (pos <= i < pos + n)) as [Hi|Hi].
  - rewrite H by done. replace i with (pos + Z.of_nat (Z.to_nat (i - pos))) by lia. apply byte_write_in. apply lookup_replicate_2. lia.
  - apply byte_write_out. by rewrite blen_replicate.
Qed.

Lemma byte_truncate m size i : byte_at (truncate m size) i = if i <? size then byte_at m i else x00.
Proof.
  unfold byte_at, truncate. cbn. destruct (Z.ltb_spec i size) as [Hi|Hi].
  - destruct (im_bytes m !! i) as [x|] eqn:E.
    + by erewrite map_lookup_filter_Some_2.
    + rewrite map_lookup_filter_None_2; [done|by left].
  - rewrite map_lookup_filter_None_2; [done|]. right. intros x _. cbn. lia.
Qed.

(** ** Slots *)

Lemma slot_store_out m slot v i : ~ (slot <= i < slot + 64) -> byte_at (save m slot v) i = byte_at m i.
Proof. intros Hi. apply byte_write_out. rewrite blen_word. lia. Qed.

Lemma slot_store_agree m slot v a n : apart slot 64 a n -> agree m (save m slot v) a n.
Proof. intros Ha i Hi. symmetry. apply slot_store_out. destruct Ha; lia. Qed.

Lemma slot_store_word m slot v k : 8 <= k -> load (save m slot v) (slot + k) = load m (slot + k).
Proof. intros Hk. apply load_agree, save_agree. unfold apart. lia. Qed.

Lemma elem_of_slots block page pos : pos ∈ slots block page <-> exists i, (1 <= i <= slot_count block)%nat /\ pos = page + 64 * Z.of_nat i.
Proof.
  unfold slots. rewrite list_elem_of_fmap. split; intros (i & H1 & H2); exists i.
  - apply elem_of_seq in H2. split; [lia|exact H1].
  - split; [exact H2|]. apply elem_of_seq. lia.
Qed.

(** A block holds whole lines; a slot is one of them, behind the first. *)
Lemma slot_line block page pos : 64 <= block -> (64 | block) -> (64 | page) -> pos ∈ slots block page ->
  (64 | pos) /\ page + 64 <= pos /\ pos + 64 <= page + block.
Proof.
  intros Hb [c Hc] [d Hd] (i & Hi & ->)%elem_of_slots. unfold slot_count, entrySize in Hi.
  assert (Z.of_nat i <= (block - 1) / 64) by (pose proof (Z.div_pos (block - 1) 64); lia).
  assert ((block - 1) / 64 = c - 1) by (symmetry; apply (Z.div_unique_pos _ _ _ 63); lia).
  split_and!; [exists (d + Z.of_nat i); lia|lia|lia].
Qed.

Lemma NoDup_slots block page : NoDup (slots block page).
Proof. unfold slots. apply NoDup_fmap_2_strong; [|apply NoDup_seq]. unfold entrySize. intros; lia. Qed.

(** ** Checksums are words *)

Lemma lxor_bound n a b : 0 <= n -> 0 <= a < 2 ^ n -> 0 <= b < 2 ^ n -> 0 <= Z.lxor a b < 2 ^ n.
Proof.
  intros Hn Ha Hb. split; [apply Z.lxor_nonneg; lia|]. destruct (decide (Z.lxor a b = 0)) as [-> |Hne]; [lia|].
  apply Z.log2_lt_pow2; [pose proof (proj2 (Z.lxor_nonneg a b)); lia|]. pose proof (Z.log2_lxor a b ltac:(lia) ltac:(lia)).
  assert (Hl : forall c, 0 <= c < 2 ^ n -> c <> 0 -> Z.log2 c < n) by (intros c Hc Hz; apply Z.log2_lt_pow2; lia).
  destruct (decide (a = 0)) as [-> |Ha0], (decide (b = 0)) as [-> |Hb0]; [done|..].
  - rewrite Z.lxor_0_l in *. auto.
  - rewrite Z.lxor_0_r in *. auto.
  - pose proof (Hl a Ha Ha0). pose proof (Hl b Hb Hb0). lia.
Qed.

Lemma crc_range crc data : 0 <= crc < 2 ^ 32 -> 0 <= Crc32.update crc data < 2 ^ 32.
Proof.
  intros Hc. unfold Crc32.update. apply lxor_bound; [lia| |lia].
  assert (Hbit : forall c, 0 <= c < 2 ^ 32 -> 0 <= Crc32.bit_step c < 2 ^ 32).
  { intros c H. unfold Crc32.bit_step. assert (0 <= Z.shiftr c 1 < 2 ^ 32) by (rewrite Z.shiftr_div_pow2 by lia; change (2 ^ 1) with 2; split; [apply Z.div_pos; lia|apply Z.div_lt_upper_bound; lia]).
    destruct (Z.odd c); [apply lxor_bound; lia|done]. }
  assert (Hbyte : forall c b, 0 <= c < 2 ^ 32 -> 0 <= Crc32.byte_step c b < 2 ^ 32).
  { intros c b H. unfold Crc32.byte_step. assert (Hx : 0 <= Z.lxor c (b2z b) < 2 ^ 32) by (apply lxor_bound; pose proof (b2z_range b); lia).
    revert Hx. generalize (Z.lxor c (b2z b)). clear -Hbit. intros z Hz. cbn [Nat.iter]. by repeat apply Hbit. }
  assert (H0 : 0 <= Z.lxor crc 0xFFFFFFFF < 2 ^ 32) by (apply lxor_bound; lia). revert H0. generalize (Z.lxor crc 0xFFFFFFFF).
  induction data as [|b data IH]; intros z Hz; cbn; [done|]. apply IH. by apply Hbyte.
Qed.

Lemma checksum_range off p n k data : is_uint64 (recordChecksum off p n k data).
Proof. unfold recordChecksum, is_uint64, max_uint64. cbv zeta. pose proof (crc_range (Crc32.update 0 (le_bytes 8 off ++ le_bytes 8 p ++ le_bytes 8 n ++ le_bytes 8 k)) data (crc_range 0 _ ltac:(lia))). lia. Qed.

(** * Loading the table of contents

    What a successful load says of the image, and that an image with a sound
    chain and sound entries fails only over a record that is there twice. *)


Fixpoint chain (m : image) (page : Z) (ps : list Z) : Prop :=
  match ps with [] => page = 0 | p :: ps => page = p /\ page <> 0 /\ chain m (load m p) ps end.

Definition slots_of (block : Z) (ps : list Z) : list Z := flat_map (slots block) ps.

Lemma elem_of_slots_of block ps pos : pos ∈ slots_of block ps <-> exists p, p ∈ ps /\ pos ∈ slots block p.
Proof. unfold slots_of. rewrite list_elem_of_In, in_flat_map. by setoid_rewrite list_elem_of_In. Qed.

(** The slot holds a published record with this offset. *)
Definition shows (m : image) (pos off : Z) : Prop := load m pos = published /\ load m (pos + 8) = off.

Section Toc.
Variables (m : image) (mapped block no : Z).

Record scanned (l : list Z) (t t' : toc) : Prop := {
  sc_pages : t_pages t' = t_pages t;
  sc_last : t_lastPage t' = t_lastPage t;
  sc_entries : forall off pos, t_entries t' !! off = Some pos <-> t_entries t !! off = Some pos \/ pos ∈ l /\ shows m pos off;
  sc_fresh : forall pos, pos ∈ l -> load m pos = published -> t_entries t !! load m (pos + 8) = None /\ entry_valid m mapped block no pos = true;
  sc_free : t_free t' = t_free t ++ List.filter (fun pos => negb (load m pos =? published)) l;
  sc_cursor : t_cursor t <= t_cursor t' <= Z.max (t_cursor t) mapped;
}.

Lemma valid_spec pos : entry_valid m mapped block no pos = true <->
  load m (pos + 8) mod fileCount = no /\ load m (pos + 16) mod block = 0 /\ load m (pos + 32) <> 0 /\ load m (pos + 32) mod block = 0
  /\ load m (pos + 24) <= load m (pos + 32) /\ load m (pos + 16) + load m (pos + 32) <= mapped /\ load m (pos + 16) <= mapped.
Proof. unfold entry_valid. cbv zeta. rewrite negb_true_iff, !orb_false_iff, !negb_false_iff, !Z.eqb_eq, !Z.eqb_neq, !Z.ltb_ge. intuition lia. Qed.

Lemma scan_slots_ok l t t' : scan_slots m mapped block no l t = (t', None) -> scanned l t t'.
Proof.
  revert t. induction l as [|pos l IH]; intros t H; cbn [scan_slots] in H.
  { simplify_eq. split; try done; [|by intros ? ?%elem_of_nil|cbn; by rewrite app_nil_r|lia]. intros. split; [auto|]. intros [|[?%elem_of_nil _]]; done. }
  destruct (load m pos =? published) eqn:Hp; cbn [negb] in H.
  - apply Z.eqb_eq in Hp. destruct (entry_valid m mapped block no pos) eqn:Hv; [|done]. cbn [negb] in H. case_bool_decide as Hd; [done|].
    apply IH in H as [P1 P2 P3 P4 P5 P6]. cbn [with_cursor with_entries t_pages t_lastPage t_entries t_free t_cursor] in *.
    assert (Hn : t_entries t !! load m (pos + 8) = None) by (by apply eq_None_not_Some). apply valid_spec in Hv as HV. split; try done.
    + intros off pos'. rewrite P3, elem_of_cons, lookup_insert_Some. split.
      * intros [[[<- <-]|[_ ?]]|[? ?]]; [right; split; [by left|done]|by left|right; split; [by right|done]].
      * intros [He|[[-> |Hl] [Hs Ho]]]; [left; right; split; [congruence|done]|left; left; by split|right; by repeat split].
    + intros pos' [-> |Hl]%elem_of_cons Hs; [done|]. destruct (P4 pos' Hl Hs) as [Hi ?]. split; [|done].
      apply lookup_insert_None in Hi. by destruct Hi.
    + rewrite P5. cbn. by rewrite (proj2 (Z.eqb_eq _ _) Hp).
    + lia.
  - apply IH in H as [P1 P2 P3 P4 P5 P6]. cbn [with_free t_pages t_lastPage t_entries t_free t_cursor] in *. apply Z.eqb_neq in Hp as Hp'. split; try done.
    + intros off pos'. rewrite P3, elem_of_cons. split; [tauto|]. intros [|[[-> |?] [? ?]]]; [auto|by unfold published in *|right; by split].
    + intros pos' [-> |Hl]%elem_of_cons Hs; [done|]. by apply P4.
    + rewrite P5. cbn. rewrite Hp. cbn. by rewrite <- app_assoc.
Qed.

(** Two slots that show the same record. *)
Definition twice (l : list Z) (known : gmap Z Z) : Prop :=
  exists pos, pos ∈ l /\ load m pos = published /\
  (is_Some (known !! load m (pos + 8)) \/ exists pos', pos' ∈ l /\ pos' <> pos /\ shows m pos' (load m (pos + 8))).

Lemma scan_slots_total l t : NoDup l -> (forall pos, pos ∈ l -> load m pos = published -> entry_valid m mapped block no pos = true) ->
  exists t' err, scan_slots m mapped block no l t = (t', err) /\ (err = None \/ err = Some DuplicateEffect /\ twice l (t_entries t)).
Proof.
  revert t. induction l as [|pos l IH]; intros t Hnd Hval; cbn [scan_slots]; [eauto|]. apply list.NoDup_cons in Hnd as [Hni Hnd].
  assert (Hval' : forall pos', pos' ∈ l -> load m pos' = published -> entry_valid m mapped block no pos' = true) by (intros; apply Hval; [by right|done]).
  destruct (load m pos =? published) eqn:Hp; cbn [negb].
  - apply Z.eqb_eq in Hp. rewrite Hval by (done || left). cbn [negb]. case_bool_decide as Hd.
    { do 2 eexists. split; [done|]. right. split; [done|]. exists pos. split_and!; [left|done|by left]. }
    destruct (IH (with_cursor (Z.max (t_cursor t) (load m (pos + 16) + load m (pos + 32))) (with_entries (<[load m (pos + 8) := pos]> (t_entries t)) t)) Hnd Hval')
      as (t' & err & He & [-> |[-> (q & Hq & Hs & Hw)]]); do 2 eexists; (split; [exact He|]); [by left|].
    right. split; [done|]. cbn [with_cursor with_entries t_entries] in Hw. exists q. split_and!; [by right|done|].
    destruct Hw as [Hi|(q' & Hq' & Hne & Hsh)]; [|right; exists q'; by split_and!; [right|..]].
    destruct (decide (load m (q + 8) = load m (pos + 8))) as [Heq|Hne]; [|rewrite lookup_insert_ne in Hi by done; by left].
    right. exists pos. split_and!; [left|congruence|done].
  - destruct (IH (with_free (t_free t ++ [pos]) t) Hnd Hval') as (t' & err & He & [-> |[-> (q & Hq & Hs & Hw)]]); do 2 eexists; (split; [exact He|]); [by left|].
    right. split; [done|]. exists q. split_and!; [by right|done|]. destruct Hw as [?|(q' & Hq' & ? & ?)]; [by left|right; exists q'; by split_and!; [right|..]].
Qed.

(** ** Pages *)

Definition ascending (last : Z) (ps : list Z) : Prop :=
  StronglySorted Z.lt (last :: ps) /\ forall p, p ∈ ps -> p mod block = 0 /\ p <= mapped - block.

Record paged (page : Z) (t t' : toc) (ps : list Z) : Prop := {
  pg_chain : chain m page ps;
  pg_pages : t_pages t' = t_pages t ++ ps;
  pg_last : t_lastPage t' = default (t_lastPage t) (list.last ps);
  pg_ascending : t_pages t <> [] \/ t_lastPage t < page \/ page = 0 -> ascending (t_lastPage t) ps;
  pg_entries : forall off pos, t_entries t' !! off = Some pos <-> t_entries t !! off = Some pos \/ pos ∈ slots_of block ps /\ shows m pos off;
  pg_valid : forall pos, pos ∈ slots_of block ps -> load m pos = published -> entry_valid m mapped block no pos = true;
  pg_free : t_free t' = t_free t ++ List.filter (fun pos => negb (load m pos =? published)) (slots_of block ps);
  pg_cursor : t_cursor t <= t_cursor t' <= Z.max (t_cursor t) mapped;
}.

Lemma page_valid_spec page t : page_valid mapped block page t = true <->
  page mod block = 0 /\ page <= mapped - block /\ (t_pages t = [] \/ t_lastPage t < page).
Proof.
  unfold page_valid. rewrite negb_true_iff, !orb_false_iff, negb_false_iff, Z.eqb_eq, Z.ltb_ge, andb_false_iff, bool_decide_eq_false, Z.leb_gt.
  destruct (t_pages t); intuition congruence.
Qed.

Lemma paged_nil t : paged 0 t t [].
Proof.
  split; try done.
  - by rewrite app_nil_r.
  - intros _. split; [apply SSorted_cons; [apply SSorted_nil|done]|by intros ? ?%elem_of_nil].
  - intros. split; [by left|]. by intros [|[?%elem_of_nil _]].
  - by intros ? ?%elem_of_nil.
  - cbn. by rewrite app_nil_r.
  - lia.
Qed.

Lemma scan_pages_ok fuel page t t' : scan_pages fuel m mapped block no page t = (t', None) -> exists ps, paged page t t' ps.
Proof.
  revert page t. induction fuel as [|fuel IH]; intros page t H; cbn [scan_pages] in H.
  { destruct (Z.eqb_spec page 0) as [-> |Hz]; [simplify_eq; exists []; apply paged_nil|done]. }
  destruct (Z.eqb_spec page 0) as [-> |Hz]; [simplify_eq; exists []; apply paged_nil|].
  destruct (page_valid mapped block page t) eqn:Hv; [|done]. cbn [negb] in H. apply page_valid_spec in Hv as (V1 & V2 & V3).
  destruct (scan_slots m mapped block no (slots block page) _) as [t1 [err|]] eqn:Es; [done|].
  apply scan_slots_ok in Es as [S1 S2 S3 S4 S5 S6]. cbn [t_pages t_lastPage t_entries t_free t_cursor] in *.
  apply IH in H as (ps & [P1 P2 P3 P4 P5 P6 P7 P8]). exists (page :: ps).
  assert (Hasc : ascending page ps) by (rewrite <- S2; apply P4; left; rewrite S1; by destruct (t_pages t)).
  assert (Hsl : forall pos, pos ∈ slots_of block (page :: ps) <-> pos ∈ slots block page \/ pos ∈ slots_of block ps) by (intros; cbn; by rewrite elem_of_app).
  split.
  - done.
  - by rewrite P2, S1, <- app_assoc.
  - rewrite P3, S2, last_cons. by destruct (list.last ps).
  - intros Hg. destruct Hasc as [A1 A2]. assert (Hlt : t_lastPage t < page) by (destruct Hg as [|[|]]; [by destruct V3|done|lia]). split.
    + apply SSorted_cons; [exact A1|]. apply StronglySorted_inv in A1 as [_ A1]. constructor; [exact Hlt|]. apply list.Forall_forall. intros x Hx. rewrite list.Forall_forall in A1. specialize (A1 x Hx). lia.
    + intros p [-> |Hp]%elem_of_cons; [done|auto].
  - intros off pos. rewrite P5, S3, Hsl. tauto.
  - intros pos [Hp|Hp]%Hsl Hs; [by apply S4|by apply P6].
  - rewrite P7, S5, <- app_assoc. f_equal. cbn. by rewrite List.filter_app.
  - lia.
Qed.

Lemma scan_pages_total ps fuel page t : chain m page ps -> ascending (t_lastPage t) ps -> (length ps <= fuel)%nat ->
  (forall pos, pos ∈ slots_of block ps -> load m pos = published -> entry_valid m mapped block no pos = true) -> NoDup (slots_of block ps) ->
  exists t' err, scan_pages fuel m mapped block no page t = (t', err) /\ (err = None \/ err = Some DuplicateEffect /\ twice (slots_of block ps) (t_entries t)).
Proof.
  revert fuel page t. induction ps as [|p ps IH]; intros fuel page t Hc [Ha Hin] Hf Hval Hnd.
  { cbn in Hc. subst page. exists t, None. split; [by destruct fuel|by left]. }
  destruct Hc as (-> & Hz & Hc). destruct fuel as [|fuel]; [cbn in Hf; lia|]. cbn [scan_pages]. rewrite (proj2 (Z.eqb_neq p 0) Hz).
  apply StronglySorted_inv in Ha as [Ha Hlt]. inversion Hlt as [|? ? Hpl _]; subst.
  rewrite (proj2 (page_valid_spec p t)) by (destruct (Hin p ltac:(left)); split_and!; [done|done|by right]). cbn [negb].
  cbn [slots_of flat_map] in Hval, Hnd. fold (slots_of block ps) in Hval, Hnd. apply list.NoDup_app in Hnd as (N1 & N2 & N3).
  destruct (scan_slots_total (slots block p) (mkToc (Z.max (t_cursor t) (p + block)) p (t_entries t) (t_free t) (t_pages t ++ [p])) N1) as (t1 & err & Es & Hc1).
  { intros pos Hp. apply Hval. apply elem_of_app. by left. }
  rewrite Es. destruct Hc1 as [-> |[-> (q & Hq & Hs & Hw)]].
  - apply scan_slots_ok in Es as [S1 S2 S3 S4 S5 S6]. cbn [t_pages t_lastPage t_entries t_free t_cursor] in *.
    destruct (IH fuel (load m p) t1 Hc) as (t' & err & He & Hd).
    + rewrite S2. split; [done|]. intros q Hq. apply Hin. by right.
    + cbn in Hf. lia.
    + intros pos Hp. apply Hval. apply elem_of_app. by right.
    + done.
    + do 2 eexists. split; [exact He|]. destruct Hd as [-> |[-> (q & Hq & Hs & Hw)]]; [by left|right]. split; [done|].
      exists q. cbn [slots_of flat_map]. fold (slots_of block ps). split_and!; [apply elem_of_app; by right|done|].
      destruct Hw as [[pos Hp%S3]|(q' & Hq' & Hne & Hsh)].
      * destruct Hp as [Hp|[Hp Hsh]]; [left; eauto|]. right. exists pos. split_and!; [apply elem_of_app; by left| |done]. intros ->. by apply (N2 q).
      * right. exists q'. split_and!; [apply elem_of_app; by right|done|done].
  - do 2 eexists. split; [done|]. right. split; [done|]. exists q. cbn [slots_of flat_map t_entries] in *. fold (slots_of block ps).
    split_and!; [apply elem_of_app; by left|done|]. destruct Hw as [?|(q' & ? & ? & ?)]; [by left|right; exists q'; split_and!; [apply elem_of_app; by left|done|done]].
Qed.
End Toc.

(** * The layout of a bucket

    What holds of a bucket and its file at every moment, and the stores that
    keep it. *)


Section Layout.
Variables (psize bsize : Z) (id : Z * Z).
Abbreviation B := (Z.max psize bsize).

(** What the format asks of the machine: blocks of whole pages, of a size that
    is accepted when the file is opened again, dividing the step of growth. *)
Class Geometry := {
  geo_page : 0 < psize /\ (4096 | psize);
  geo_pages : (psize | B);
  geo_grow : (B | 2 ^ 20);
  geo_id : 0 <= id.2 < fileCount /\ is_uint64 id.1;
}.
Context {geo : Geometry}.

Definition header_ok (m : image) : Prop :=
  read m 0 8 = magic /\ load m 8 = formatVersion /\ load m 16 = B /\ load m 24 = id.1 /\ load m 32 = id.2 /\ load m 40 = fileCount /\ load m 48 = native_mark.

Record record_ok (m : image) (cursor pos off : Z) : Prop := {
  rk_off : is_uint64 off /\ off mod fileCount = id.2;
  rk_pos : (B | load m (pos + 16));
  rk_size : (B | load m (pos + 32)) /\ 0 < load m (pos + 32);
  rk_fits : load m (pos + 24) <= load m (pos + 32);
  rk_below : load m (pos + 16) + load m (pos + 32) <= cursor;
  rk_sum : load m (pos + 40) = recordChecksum off (load m (pos + 16)) (load m (pos + 24)) (load m (pos + 32)) (read m (load m (pos + 16)) (load m (pos + 24)));
}.

Record layout (b : bucket) (m : image) : Prop := {
  ly_disk : b_disk b = Some m;
  ly_id : b_id b = id;
  ly_block : b_block b = B;
  ly_header : header_ok m;
  ly_len : (B | im_len m) /\ im_len m < 2 ^ 64;
  ly_cursor : (B | t_cursor (b_toc b)) /\ 2 * B <= t_cursor (b_toc b) <= im_len m;
  ly_zero : forall i, t_cursor (b_toc b) <= i -> byte_at m i = x00;
  ly_chain : chain m B (t_pages (b_toc b));
  ly_last : list.last (t_pages (b_toc b)) = Some (t_lastPage (b_toc b));
  ly_sorted : StronglySorted Z.lt (t_pages (b_toc b));
  ly_pages : forall p, p ∈ t_pages (b_toc b) -> (B | p) /\ B <= p /\ p + B <= t_cursor (b_toc b);
  ly_entries : forall off pos, t_entries (b_toc b) !! off = Some pos <-> pos ∈ slots_of B (t_pages (b_toc b)) /\ shows m pos off;
  ly_records : forall off pos, t_entries (b_toc b) !! off = Some pos -> record_ok m (t_cursor (b_toc b)) pos off;
}.

Lemma B_min : 4096 <= B.
Proof. destruct geo_page as [Hp Hd]. apply Z.divide_pos_le in Hd; lia. Qed.

Lemma B_line : (64 | B).
Proof. destruct geo_page as [_ Hd]. eapply Z.divide_trans; [|apply geo_pages]. eapply Z.divide_trans; [|exact Hd]. by exists 64. Qed.

Lemma line_of p : (B | p) -> (64 | p).
Proof. apply Z.divide_trans, B_line. Qed.

Lemma aligned_apart p q : (B | p) -> (B | q) -> p <> q -> apart p B q B.
Proof. intros [c ->] [d ->] Hne. pose proof B_min. assert (c <> d) by congruence. unfold apart. nia. Qed.

(** The pages and slots of a bucket. *)
Section Places.
Context {b : bucket} {m : image} (L : layout b m).
Abbreviation t := (b_toc b).
Abbreviation places := (slots_of B (t_pages t)).

Lemma slot_at pos : pos ∈ places -> exists p, p ∈ t_pages t /\ (64 | pos) /\ p + 64 <= pos /\ pos + 64 <= p + B.
Proof.
  intros (p & Hp & Hs)%elem_of_slots_of. exists p. destruct (ly_pages _ _ L p Hp) as (H1 & H2 & H3).
  apply slot_line in Hs; [done|pose proof B_min; lia|apply B_line|by apply line_of].
Qed.

Lemma slot_apart pos q : pos ∈ places -> (64 | q) -> pos <> q -> apart pos 64 q 64.
Proof. intros (p & _ & [c ->] & _)%slot_at [d ->] Hne. assert (c <> d) by congruence. unfold apart. lia. Qed.

(** A slot is no link. *)
Lemma slot_link pos p : pos ∈ places -> p ∈ t_pages t -> apart pos 64 p 64.
Proof.
  intros Hs Hp. destruct (slot_at pos Hs) as (q & Hq & Hd & H1 & H2). destruct (ly_pages _ _ L q Hq) as (Q1 & _ & _), (ly_pages _ _ L p Hp) as (P1 & _ & _).
  pose proof B_min. destruct (decide (p = q)) as [-> |Hne]; [unfold apart; lia|]. destruct (aligned_apart p q P1 Q1 Hne); unfold apart; lia.
Qed.

Lemma slot_entry off off' pos : t_entries t !! off = Some pos -> t_entries t !! off' = Some pos -> off = off'.
Proof. intros [_ [_ <-]]%(ly_entries _ _ L) [_ [_ <-]]%(ly_entries _ _ L). done. Qed.

End Places.

(** ** Stores that change no record *)

Record quiet (b : bucket) (m m' : image) : Prop := {
  qt_len : im_len m' = im_len m;
  qt_header : agree m m' 0 B;
  qt_link : forall p, p ∈ t_pages (b_toc b) -> load m' p = load m p;
  qt_slot : forall pos, pos ∈ slots_of B (t_pages (b_toc b)) -> t_entries (b_toc b) !! load m (pos + 8) <> Some pos -> load m' pos <> published;
  qt_live : forall off pos, t_entries (b_toc b) !! off = Some pos -> agree m m' pos 64 /\ agree m m' (load m (pos + 16)) (load m (pos + 32));
  qt_zero : forall i, t_cursor (b_toc b) <= i -> byte_at m' i = byte_at m i;
}.

Lemma header_agree m m' : agree m m' 0 B -> header_ok m -> header_ok m'.
Proof.
  intros Ha (H1 & H2 & H3 & H4 & H5 & H6 & H7). pose proof B_min. unfold header_ok.
  rewrite <- (read_agree m m' 0 8) by (eapply agree_sub; [exact Ha|lia|lia]).
  rewrite <- !(load_agree m m') by (eapply agree_sub; [exact Ha|lia|lia]). done.
Qed.

Lemma chain_ext m m' ps page : (forall p, p ∈ ps -> load m' p = load m p) -> chain m page ps -> chain m' page ps.
Proof.
  revert page. induction ps as [|p ps IH]; intros page H; cbn; [done|]. intros (-> & Hz & Hc). split_and!; [done|done|].
  rewrite H by left. apply IH; [intros; apply H; by right|done].
Qed.

Lemma record_ok_agree m m' cursor pos off : agree m m' pos 64 -> agree m m' (load m (pos + 16)) (load m (pos + 32)) ->
  record_ok m cursor pos off -> record_ok m' cursor pos off.
Proof.
  intros Ha Hb [R1 R2 R3 R4 R5 R6].
  assert (Hw : forall k, 0 <= k -> k + 8 <= 64 -> load m' (pos + k) = load m (pos + k)).
  { intros k ? ?. symmetry. apply load_agree. eapply agree_sub; [exact Ha|lia|lia]. }
  split; rewrite ?Hw by lia; try done. rewrite <- (read_agree m m'); [done|]. eapply agree_sub; [exact Hb|lia|lia].
Qed.

Lemma shows_agree m m' pos off : agree m m' pos 64 -> shows m pos off -> shows m' pos off.
Proof.
  intros Ha [H1 H2]. split; [rewrite <- H1|rewrite <- H2]; symmetry; apply load_agree; (eapply agree_sub; [exact Ha|lia|lia]).
Qed.

Lemma quiet_layout b m m' : layout b m -> quiet b m m' -> layout (with_disk (Some m') b) m'.
Proof.
  intros L [Q1 Q2 Q3 Q4 Q5 Q6]. pose proof L as [L1 L2 L3 L4 L5 L6 L7 L8 L9 L10 L11 L12 L13]. split; cbn; try done.
  - by eapply header_agree.
  - by rewrite Q1.
  - by rewrite Q1.
  - intros i Hi. rewrite Q6; auto.
  - by eapply chain_ext.
  - intros off pos. rewrite L12. split; intros [Hs Hsh]; (split; [done|]).
    + assert (He : t_entries (b_toc b) !! off = Some pos) by (by apply L12). destruct (Q5 off pos He). by eapply shows_agree.
    + destruct (decide (t_entries (b_toc b) !! load m (pos + 8) = Some pos)) as [He|He].
      * apply L12 in He as He'. destruct He' as [_ Hm]. destruct (Q5 _ _ He) as [Ha _]. assert (Hsh' := shows_agree _ _ _ _ Ha Hm).
        destruct Hsh as [? <-], Hsh' as [? ->]. done.
      * destruct Hsh as [Hp _]. by destruct (Q4 pos Hs He).
  - intros off pos He. destruct (Q5 off pos He). eapply record_ok_agree; eauto.
Qed.
End Layout.
