(* ===== verification/DurOpen.v ===== *)
(** * Who owns which blocks

    Every extent that was given out has one owner: a page, a published record, a
    writer, or a record that was deleted.  A store stays within what its author
    owns, so it changes no record. *)

From S2P Require Import Prelude Golib Durability DurLayout.

Inductive tag := TPage | TLive (off : Z) | TWrite (off : Z) | TDead (off : Z).
Abbreviation owner := (Z -> Z -> tag -> Prop).

Definition give (p s : Z) (t : tag) (own : owner) : owner := fun p' s' t' => (p' = p /\ s' = s /\ t' = t) \/ (p' <> p /\ own p' s' t').

Section Own.
Variables (psize bsize : Z) (id : Z * Z).
Context {geo : Geometry psize bsize id}.
Abbreviation B := (Z.max psize bsize).
Abbreviation layout := (layout psize bsize id).
Abbreviation quiet := (quiet psize bsize).

Record owned (own : owner) (cursor : Z) : Prop := {
  ow_fun : forall p s s' t t', own p s t -> own p s' t' -> s = s' /\ t = t';
  ow_apart : forall p q s s' t t', own p s t -> own q s' t' -> p <> q -> apart p s q s';
  ow_in : forall p s t, own p s t -> (B | p) /\ (B | s) /\ 0 < s /\ B <= p /\ p + s <= cursor;
}.

Record links (own : owner) (b : bucket) (m : image) : Prop := {
  lk_own : owned own (t_cursor (b_toc b));
  lk_page : forall p, p ∈ t_pages (b_toc b) -> own p B TPage;
  lk_live : forall off pos, t_entries (b_toc b) !! off = Some pos -> own (load m (pos + 16)) (load m (pos + 32)) (TLive off);
}.

(** What is published or was is unchanged. *)
Definition kept (own : owner) (m m' : image) : Prop := forall p s off, own p s (TLive off) \/ own p s (TDead off) -> agree m m' p s.

Lemma owned_weaken own c c' : owned own c -> c <= c' -> owned own c'.
Proof. intros [H1 H2 H3] Hc. split; [exact H1|exact H2|]. intros p s t Hp. destruct (H3 _ _ _ Hp) as (? & ? & ? & ? & ?). split_and!; [done..|lia]. Qed.

(** New blocks are behind all others. *)
Lemma owned_new own c s t : owned own c -> (B | c) -> (B | s) -> 0 < s -> B <= c -> owned (give c s t own) (c + s).
Proof.
  intros [H1 H2 H3] ? ? ? ?. split.
  - intros p s1 s2 t1 t2 [(-> & -> & ->)|[Hn Ho]] [(? & -> & ->)|[Hn' Ho']]; try done. by eapply H1.
  - intros p q s1 s2 t1 t2 [(-> & -> & ->)|[Hn Ho]] [(-> & -> & ->)|[Hn' Ho']] Hne; try done.
    + destruct (H3 _ _ _ Ho') as (? & ? & ? & ? & ?). right. lia.
    + destruct (H3 _ _ _ Ho) as (? & ? & ? & ? & ?). left. lia.
    + by eapply H2.
  - intros p s1 t1 [(-> & -> & ->)|[Hn Ho]]; [split_and!; (done || lia)|]. destruct (H3 _ _ _ Ho) as (? & ? & ? & ? & ?). split_and!; (done || lia).
Qed.

Lemma owned_give own c p s t t' : owned own c -> own p s t -> owned (give p s t' own) c.
Proof.
  intros [H1 H2 H3] Hp. split.
  - intros p1 s1 s2 t1 t2 [(-> & -> & ->)|[Hn Ho]] [(? & -> & ->)|[Hn' Ho']]; try done. by eapply H1.
  - intros p1 q s1 s2 t1 t2 [(-> & -> & ->)|[Hn Ho]] [(-> & -> & ->)|[Hn' Ho']] Hne; try done; by eapply H2.
  - intros p1 s1 t1 [(-> & -> & ->)|[Hn Ho]]; by eapply H3.
Qed.

Lemma give_here own p s t : give p s t own p s t.
Proof. by left. Qed.

Lemma give_there own p s t p' s' t' t0 c : owned own c -> own p s t0 -> own p' s' t' -> t' <> t0 -> give p s t own p' s' t'.
Proof. intros Hc H0 H' Hne. right. split; [|done]. intros ->. by destruct (ow_fun _ _ Hc _ _ _ _ _ H0 H') as [_ ->]. Qed.

Lemma give_new own c s t p' s' t' : owned own c -> own p' s' t' -> give c s t own p' s' t'.
Proof. intros Hc H'. right. split; [|done]. intros ->. destruct (ow_in _ _ Hc _ _ _ H') as (? & ? & ? & ? & ?). lia. Qed.

(** ** Stores within an extent, and within a slot *)

Section Within.
Context {own : owner} {b : bucket} {m : image} (L : layout b m) (K : links own b m).
Abbreviation t := (b_toc b).

Lemma page_extent p q s tg : p ∈ t_pages t -> own q s tg -> tg <> TPage -> apart q s p B.
Proof.
  intros Hp Hq Hne. apply (lk_page _ _ _ K) in Hp. assert (q <> p) by (intros ->; by destruct (ow_fun _ _ (lk_own _ _ _ K) _ _ _ _ _ Hp Hq) as [_ <-]).
  by apply (ow_apart _ _ (lk_own _ _ _ K) _ _ _ _ _ _ Hq Hp).
Qed.

Lemma slot_extent pos q s tg : pos ∈ slots_of B (t_pages t) -> own q s tg -> tg <> TPage -> apart q s pos 64.
Proof.
  intros Hs Hq Hne. destruct (slot_at _ _ _ L pos Hs) as (p & Hp & _ & H1 & H2). destruct (page_extent p q s tg Hp Hq Hne); unfold apart; lia.
Qed.

Lemma outside_agree m' a n c k : (forall i, ~ (a <= i < a + n) -> byte_at m' i = byte_at m i) -> apart a n c k -> agree m m' c k.
Proof. intros Ho Ha i Hi. symmetry. apply Ho. destruct Ha; lia. Qed.

Lemma quiet_extent m' p s tg : own p s tg -> tg <> TPage -> (forall off, tg <> TLive off) -> im_len m' = im_len m ->
  (forall i, ~ (p <= i < p + s) -> byte_at m' i = byte_at m i) -> quiet b m m'.
Proof.
  intros Hp N1 N2 Hl Ho. destruct (ow_in _ _ (lk_own _ _ _ K) _ _ _ Hp) as (D1 & D2 & D3 & D4 & D5). pose proof (B_min psize bsize id) as HB. split.
  - done.
  - apply (outside_agree m' p s); [done|]. right. lia.
  - intros q Hq. symmetry. apply load_agree. apply (outside_agree m' p s); [done|]. destruct (page_extent q p s tg Hq Hp N1); unfold apart; lia.
  - intros pos Hs He Hn. apply He, (ly_entries _ _ _ _ _ L). split; [done|]. split; [|done]. rewrite <- Hn. apply load_agree.
    apply (outside_agree m' p s); [done|]. destruct (slot_extent pos p s tg Hs Hp N1); unfold apart; lia.
  - intros off pos He. apply (ly_entries _ _ _ _ _ L) in He as He'. destruct He' as [Hs _]. split; apply (outside_agree m' p s); try done.
    + by eapply slot_extent.
    + apply (lk_live _ _ _ K) in He. eapply (ow_apart _ _ (lk_own _ _ _ K)); [exact Hp|exact He|]. intros ->.
      destruct (ow_fun _ _ (lk_own _ _ _ K) _ _ _ _ _ Hp He) as [_ ->]. by destruct (N2 off).
  - intros i Hi. apply Ho. lia.
Qed.

Lemma kept_extent m' p s tg : own p s tg -> (forall off, tg <> TLive off) -> (forall off, tg <> TDead off) ->
  (forall i, ~ (p <= i < p + s) -> byte_at m' i = byte_at m i) -> kept own m m'.
Proof.
  intros Hp N1 N2 Ho q s' off Hq. apply (outside_agree m' p s); [done|].
  assert (Hne : p <> q). { intros ->. destruct Hq as [Hq|Hq]; destruct (ow_fun _ _ (lk_own _ _ _ K) _ _ _ _ _ Hp Hq) as [_ ->]; naive_solver. }
  destruct Hq as [Hq|Hq]; by apply (ow_apart _ _ (lk_own _ _ _ K) _ _ _ _ _ _ Hp Hq).
Qed.

Lemma quiet_slot m' pos : pos ∈ slots_of B (t_pages t) -> (forall off, t_entries t !! off <> Some pos) -> im_len m' = im_len m -> load m' pos <> published ->
  (forall i, ~ (pos <= i < pos + 64) -> byte_at m' i = byte_at m i) -> quiet b m m'.
Proof.
  intros Hs Hf Hl Hp Ho. destruct (slot_at _ _ _ L pos Hs) as (p & Hpg & Hd & H1 & H2). destruct (ly_pages _ _ _ _ _ L p Hpg) as (G1 & G2 & G3).
  pose proof (B_min psize bsize id) as HB. split.
  - done.
  - apply (outside_agree m' pos 64); [done|]. right. lia.
  - intros q Hq. symmetry. apply load_agree. apply (outside_agree m' pos 64); [done|]. destruct (slot_link _ _ _ L pos q Hs Hq); unfold apart; lia.
  - intros pos' Hs' He Hn. destruct (decide (pos' = pos)) as [-> |Hne]; [done|]. apply He, (ly_entries _ _ _ _ _ L). split; [done|]. split; [|done]. rewrite <- Hn.
    apply load_agree. apply (outside_agree m' pos 64); [done|]. destruct (slot_at _ _ _ L pos' Hs') as (_ & _ & Hd' & _).
    destruct (slot_apart _ _ _ L pos pos' Hs Hd'); [done|unfold apart; lia..].
  - intros off pos' He. apply (ly_entries _ _ _ _ _ L) in He as He'. destruct He' as [Hs' _]. split; apply (outside_agree m' pos 64); try done.
    + apply (slot_apart _ _ _ L); [done| |by intros <-; eapply Hf]. by destruct (slot_at _ _ _ L pos' Hs') as (_ & _ & Hd' & _).
    + apply (lk_live _ _ _ K) in He. destruct (slot_extent pos _ _ _ Hs He); [done|unfold apart; lia..].
  - intros i Hi. apply Ho. lia.
Qed.

Lemma kept_slot m' pos : pos ∈ slots_of B (t_pages t) -> (forall i, ~ (pos <= i < pos + 64) -> byte_at m' i = byte_at m i) -> kept own m m'.
Proof.
  intros Hs Ho q s off Hq. apply (outside_agree m' pos 64); [done|].
  destruct Hq as [Hq|Hq]; destruct (slot_extent pos _ _ _ Hs Hq); (done || unfold apart; lia).
Qed.

Lemma links_quiet m' : quiet b m m' -> links own (with_disk (Some m') b) m'.
Proof.
  intros Q. pose proof K as [K1 K2 K3]. split; cbn; [done|done|]. intros off pos He. destruct (qt_live _ _ _ _ _ Q off pos He) as [Ha _].
  rewrite <- !(load_agree m m') by (eapply agree_sub; [exact Ha|lia|lia]). auto.
Qed.

End Within.
End Own.

(** * Opening a bucket

    A file that opens has a layout; a file with a layout opens unless the
    operating system refuses; a new file has one. *)


Section Open.
Variables (psize bsize : Z) (id : Z * Z).
Context {geo : Geometry psize bsize id}.
Abbreviation B := (Z.max psize bsize).
Abbreviation layout := (layout psize bsize id).
Abbreviation header_ok := (header_ok psize bsize id).

(** A bucket whose file [m] was just opened. *)
Record opened (b : bucket) (m : image) (b' : bucket) : Prop := {
  on_disk : b_disk b' = Some m;
  on_id : b_id b' = b_id b;
  on_file : b_file b' = Some (b_opens b) /\ b_opens b' = b_opens b + 1;
  on_mapped : b_mapped b' = im_len m;
  on_sched : b_sched b' = b_sched b;
  on_toc : exists t, paged m (im_len m) (b_block b') (b_id b).2 (b_block b') (mkToc (2 * b_block b') 0 ∅ [] []) t (t_pages (b_toc b'))
            /\ b_toc b' = with_cursor (Z.max (t_cursor t) (im_len m)) t;
}.

Lemma index_ok b m block b' : index_bucket (mapped_bucket b m block) = (b', None) -> opened b m b' /\ b_block b' = block.
Proof.
  unfold index_bucket. change (b_data (mapped_bucket b m block)) with m. unfold load_toc. cbn [mapped_bucket b_mapped b_block b_id].
  destruct (scan_pages (S (Z.to_nat (im_len m / block))) m (im_len m) block (b_id b).2 block (mkToc (2 * block) 0 ∅ [] [])) as [t [err|]] eqn:E; intros H; simplify_eq.
  split; [|reflexivity]. apply scan_pages_ok in E as (ps & P). split; cbn; try done. exists t. split; [|done]. by rewrite (pg_pages _ _ _ _ _ _ _ _ P).
Qed.

Lemma open_ok os create b m b' : b_disk b = Some m -> open os create b = (b', None) ->
  opened b m b' /\ b_block b' = load m 16 /\ check_header os (b_id b) m = None.
Proof.
  intros Hd. unfold open. rewrite Hd. destruct (negb (os_open os)), (im_len m =? 0), (im_len m <? 4096), (negb (os_map os)); try done.
  destruct (check_header os (b_id b) m) eqn:Hc; [done|]. intros [Ho Hb]%index_ok. done.
Qed.

Lemma check_header_words os m : check_header os id m = None -> load m 16 = B -> header_ok m /\ 2 * B <= im_len m.
Proof.
  unfold check_header. intros H Hb. cbv zeta in H. rewrite Hb in H.
  destruct (bool_decide (read m 0 8 = magic)) eqn:E1; [|done]. apply bool_decide_eq_true in E1.
  destruct (Z.eqb_spec (load m 8) formatVersion), (Z.eqb_spec (load m 48) native_mark); try done. cbn [negb orb] in H.
  destruct (B <? 4096), (2 ^ 20 <? B), (B mod os_pagesize os =? 0), (Z.ltb_spec (im_len m) (2 * B)); try done. cbn [negb orb] in H.
  destruct (Z.eqb_spec (load m 24) id.1), (Z.eqb_spec (load m 32) id.2), (Z.eqb_spec (load m 40) fileCount); try done.
Qed.

Lemma mod_divide p : p mod B = 0 <-> (B | p).
Proof. pose proof (B_min psize bsize id). split; [apply Z.mod_divide; lia|intros; by apply Z.mod_divide; [lia|]]. Qed.

(** A file that opens, and whose records match their checksums, has a layout. *)
Lemma opened_layout b m b' : b_id b = id -> opened b m b' -> b_block b' = B -> header_ok m -> 2 * B <= im_len m -> (B | im_len m) -> im_len m < 2 ^ 64 ->
  (forall i, im_len m <= i -> byte_at m i = x00) ->
  (forall off pos, t_entries (b_toc b') !! off = Some pos ->
    load m (pos + 40) = recordChecksum off (load m (pos + 16)) (load m (pos + 24)) (load m (pos + 32)) (read m (load m (pos + 16)) (load m (pos + 24)))) ->
  layout b' m /\ t_cursor (b_toc b') = im_len m.
Proof.
  intros Hid [O1 O2 O3 O4 O5 (t & P & Ht)] Hb Hh Hl Hd Hm Hz Hsum. pose proof (B_min psize bsize id) as HB. rewrite Hb in P.
  destruct P as [P1 P2 P3 P4 P5 P6 P7 P8]. cbn [t_pages t_lastPage t_entries t_free t_cursor app] in *.
  rewrite Ht in *. cbn [with_cursor t_cursor t_entries t_pages t_lastPage t_free] in *. assert (Hc : Z.max (t_cursor t) (im_len m) = im_len m) by lia.
  assert (Ha : ascending (im_len m) B 0 (t_pages t)) by (apply P4; right; left; lia). destruct Ha as [A1 A2]. apply StronglySorted_inv in A1 as [A1 A0].
  rewrite list.Forall_forall in A0. split; [|exact Hc].
  assert (Hne : t_pages t <> []) by (destruct (t_pages t); [cbn in P1; lia|done]).
  split; rewrite ?Ht; cbn [with_cursor t_cursor t_entries t_pages t_lastPage t_free]; rewrite ?Hc; try done.
  - congruence.
  - rewrite P3. destruct (list.last (t_pages t)) eqn:E; [done|]. by apply last_None in E.
  - intros p Hp. destruct (A2 p Hp) as [Hq ?%Z.le_add_le_sub_r]. specialize (A0 p Hp). apply mod_divide in Hq. split_and!; [done| |lia]. by apply Z.divide_pos_le.
  - intros off pos. rewrite P5. split; [by intros [?%lookup_empty_Some|]|by right].
  - intros off pos He. specialize (Hsum off pos He). apply P5 in He as [?%lookup_empty_Some|[Hs [Hp Ho]]]; [done|]. specialize (P6 pos Hs Hp).
    apply valid_spec in P6 as (V1 & V2 & V3 & V4 & V5 & V6 & V7). pose proof (load_range m (pos + 32)). unfold is_uint64 in *. split.
    + rewrite <- Ho. split; [apply load_range|]. by rewrite <- Hid.
    + by apply mod_divide.
    + split; [by apply mod_divide|lia].
    + done.
    + lia.
    + done.
Qed.

(** ** A file with a layout opens *)

Lemma ascending_length ps lo hi : StronglySorted Z.lt ps -> (forall p, p ∈ ps -> (B | p) /\ lo <= p /\ p + B <= hi) -> (B | lo) -> lo <= hi ->
  Z.of_nat (length ps) * B <= hi - lo.
Proof.
  pose proof (B_min psize bsize id) as HB. revert lo. induction ps as [|p ps IH]; intros lo Hs Hin Hlo Hle; [cbn; lia|].
  apply StronglySorted_inv in Hs as [Hs Hf]. rewrite list.Forall_forall in Hf. destruct (Hin p ltac:(left)) as (D & ? & ?).
  assert (Hi : Z.of_nat (length ps) * B <= hi - (p + B)).
  { apply IH; [done| |by apply Z.divide_add_r|lia]. intros q Hq. destruct (Hin q ltac:(by right)) as (D' & ? & ?). split_and!; [done| |done].
    specialize (Hf q Hq). destruct (aligned_apart psize bsize id p q D D'); lia. }
  rewrite length_cons. lia.
Qed.

Lemma NoDup_slots_of ps : StronglySorted Z.lt ps -> (forall p, p ∈ ps -> (B | p)) -> NoDup (slots_of B ps).
Proof.
  pose proof (B_min psize bsize id) as HB. induction ps as [|p ps IH]; intros Hs Hin; cbn; [constructor|].
  apply StronglySorted_inv in Hs as [Hs Hf]. rewrite list.Forall_forall in Hf. apply list.NoDup_app. split_and!; [apply NoDup_slots| |].
  - intros pos Hp (q & Hq & Hq')%elem_of_slots_of. pose proof (Hin p ltac:(left)) as D. pose proof (Hin q ltac:(by right)) as D'. specialize (Hf q Hq).
    apply slot_line in Hp; [|lia|apply (B_line _ _ id)|by apply (line_of psize bsize id)]. apply slot_line in Hq'; [|lia|apply (B_line _ _ id)|by apply (line_of psize bsize id)].
    destruct (aligned_apart psize bsize id p q D D'); lia.
  - apply IH; [done|]. intros q Hq. apply Hin. by right.
Qed.

Lemma layout_not_twice b m : layout b m -> ~ twice m (slots_of B (t_pages (b_toc b))) ∅.
Proof.
  intros L (pos & Hs & Hp & [[? ?%lookup_empty_Some]|(pos' & Hs' & Hne & Hsh)]); [done|].
  assert (H1 : t_entries (b_toc b) !! load m (pos + 8) = Some pos) by (apply (ly_entries _ _ _ _ _ L); by split).
  assert (H2 : t_entries (b_toc b) !! load m (pos + 8) = Some pos') by (apply (ly_entries _ _ _ _ _ L); by split). congruence.
Qed.

Lemma layout_valid b m mapped pos : layout b m -> t_cursor (b_toc b) <= mapped -> pos ∈ slots_of B (t_pages (b_toc b)) -> load m pos = published ->
  entry_valid m mapped B id.2 pos = true.
Proof.
  intros L Hm Hs Hp. assert (He : t_entries (b_toc b) !! load m (pos + 8) = Some pos) by (apply (ly_entries _ _ _ _ _ L); by split).
  destruct (ly_records _ _ _ _ _ L _ _ He) as [[R0 R1] R2 [R3 R3'] R4 R5 R6]. apply valid_spec. split_and!; try done; [by apply mod_divide|lia|by apply mod_divide|lia|lia].
Qed.

Lemma layout_loads b m : layout b m -> exists t, load_toc m (im_len m) B id.2 = (t, None).
Proof.
  intros L. pose proof (B_min psize bsize id) as HB. destruct (ly_cursor _ _ _ _ _ L) as (C1 & C2 & C3). unfold load_toc.
  destruct (scan_pages_total m (im_len m) B id.2 (t_pages (b_toc b)) (S (Z.to_nat (im_len m / B))) B (mkToc (2 * B) 0 ∅ [] [])) as (t' & e & -> & Hcase).
  - apply (ly_chain _ _ _ _ _ L).
  - pose proof (ly_pages _ _ _ _ _ L) as Hp. split; [|intros p (D & ? & ?)%Hp; split; [by apply mod_divide|lia]].
    apply SSorted_cons; [apply (ly_sorted _ _ _ _ _ L)|]. apply list.Forall_forall. cbn. intros p (D & ? & ?)%Hp. lia.
  - assert (Z.of_nat (length (t_pages (b_toc b))) * B <= im_len m - B).
    { apply (ascending_length _ _ _ (ly_sorted _ _ _ _ _ L)); [|by exists 1; lia|lia]. intros p (? & ? & ?)%(ly_pages _ _ _ _ _ L). split_and!; [done|done|lia]. }
    assert (Z.of_nat (length (t_pages (b_toc b))) <= im_len m / B) by (apply Z.div_le_lower_bound; lia). lia.
  - intros pos Hp Hl. by apply (layout_valid b).
  - apply NoDup_slots_of; [apply (ly_sorted _ _ _ _ _ L)|]. by intros p (? & _)%(ly_pages _ _ _ _ _ L).
  - destruct Hcase as [-> |[-> Htw]]; [eauto|]. by destruct (layout_not_twice b m L).
Qed.

Lemma layout_header os b m : os_pagesize os = psize -> layout b m -> check_header os id m = None.
Proof.
  intros Hps L. pose proof (B_min psize bsize id) as HB. destruct (ly_header _ _ _ _ _ L) as (H1 & H2 & H3 & H4 & H5 & H6 & H7).
  destruct (ly_cursor _ _ _ _ _ L) as (C1 & C2 & C3). unfold check_header. rewrite Hps, H2, H3, H4, H5, H6, H7, !Z.eqb_refl.
  rewrite bool_decide_eq_true_2 by done. cbn [negb orb]. destruct (Z.ltb_spec B 4096); [lia|].
  pose proof (geo_grow psize bsize id) as Hg. apply Z.divide_pos_le in Hg; [|lia]. destruct (Z.ltb_spec (2 ^ 20) B); [lia|].
  rewrite (proj2 (Z.mod_divide B psize ltac:(destruct (geo_page psize bsize id); lia)) (geo_pages psize bsize id)). cbn [Z.eqb negb orb]. destruct (Z.ltb_spec (im_len m) (2 * B)); [lia|done].
Qed.

Lemma chain_unique m page ps ps' : chain m page ps -> chain m page ps' -> ps = ps'.
Proof.
  revert page ps'. induction ps as [|p ps IH]; intros page [|p' ps']; cbn; [done|by intros -> (_ & ? & _)|by intros (_ & ? & _) ->|].
  intros (-> & _ & H1) (-> & _ & H2). f_equal. by eapply IH.
Qed.

(** Opening again finds the same records, and takes space from the end on. *)
Lemma reopen os create b0 b m b' err : os_pagesize os = psize -> layout b m -> b_disk b0 = Some m -> b_id b0 = id -> open os create b0 = (b', err) ->
  err = Some OsFailure /\ b' = b_close b0
  \/ err = None /\ opened b0 m b' /\ layout b' m /\ t_cursor (b_toc b') = im_len m
     /\ t_entries (b_toc b') = t_entries (b_toc b) /\ t_pages (b_toc b') = t_pages (b_toc b).
Proof.
  intros Hps L Hd Hid Ho. pose proof (B_min psize bsize id) as HB. destruct (ly_cursor _ _ _ _ _ L) as (C1 & C2 & C3).
  pose proof (ly_header _ _ _ _ _ L) as Hh. pose proof Hh as (_ & _ & H16 & _).
  unfold open in Ho. rewrite Hd, Hid, (layout_header os b m Hps L), H16 in Ho.
  destruct (os_open os); cbn [negb] in Ho; [|left; by simplify_eq].
  destruct (Z.eqb_spec (im_len m) 0); [lia|]. destruct (Z.ltb_spec (im_len m) 4096); [lia|].
  destruct (os_map os); cbn [negb] in Ho; [|left; by simplify_eq]. right.
  assert (He : err = None). { destruct (layout_loads b m L) as [t Ht]. unfold index_bucket in Ho. change (b_data (mapped_bucket b0 m B)) with m in Ho. cbn [mapped_bucket b_mapped b_block b_id] in Ho. rewrite Hid, Ht in Ho. by simplify_eq. }
  subst err. apply index_ok in Ho as [Ho Hb]. pose proof Ho as [_ _ _ _ _ (t & P & Ht)]. rewrite Hb in P.
  assert (Hpg : t_pages (b_toc b') = t_pages (b_toc b)) by (eapply chain_unique; [apply (pg_chain _ _ _ _ _ _ _ _ P)|apply (ly_chain _ _ _ _ _ L)]).
  assert (Hen : t_entries (b_toc b') = t_entries (b_toc b)).
  { apply map_eq. intros off. apply option_eq. intros pos. rewrite (ly_entries _ _ _ _ _ L), Ht. cbn [with_cursor t_entries].
    rewrite (pg_entries _ _ _ _ _ _ _ _ P), Hpg. cbn. split; [by intros [?%lookup_empty_Some|]|by right]. }
  destruct (opened_layout b0 m b' Hid Ho Hb Hh) as [L' Hc].
  - lia.
  - apply (ly_len _ _ _ _ _ L).
  - apply (ly_len _ _ _ _ _ L).
  - intros i Hi. apply (ly_zero _ _ _ _ _ L). lia.
  - intros off pos Hp. rewrite Hen in Hp. apply (ly_records _ _ _ _ _ L _ _ Hp).
  - by split_and!.
Qed.

(** ** A new file *)

Lemma header_words block : is_uint64 block -> id.2 < 2 ^ 64 -> 0 <= id.2 -> is_uint64 id.1 ->
  read (header id block) 0 8 = magic /\ load (header id block) 8 = formatVersion /\ load (header id block) 16 = block /\ load (header id block) 24 = id.1
  /\ load (header id block) 32 = id.2 /\ load (header id block) 40 = fileCount /\ load (header id block) 48 = native_mark.
Proof.
  intros Hb H2 H2' H1. unfold header. cbv zeta.
  assert (Hw : forall m pos v k, apart pos 8 k 8 -> load (save m pos v) k = load m k) by (intros; apply load_agree; by apply save_agree).
  assert (Hr : forall m pos v, apart pos 8 0 8 -> read (save m pos v) 0 8 = read m 0 8) by (intros; apply read_agree; by apply save_agree).
  split; [rewrite !Hr by (unfold apart; lia); change 8 with (blen magic) at 1; apply read_write|].
  split_and!; rewrite ?Hw by (unfold apart; lia); apply load_save; try done; unfold is_uint64, max_uint64, formatVersion, fileCount, native_mark; lia.
Qed.

Lemma header_zero block i : 56 <= i -> byte_at (header id block) i = x00.
Proof.
  intros Hi. unfold header. cbv zeta. unfold save. repeat (rewrite byte_write_out by (rewrite blen_word; lia)).
  rewrite byte_write_out by (change (blen magic) with 8; lia). done.
Qed.

Lemma header_len block : im_len (header id block) = 2 * block.
Proof. unfold header, save. cbv zeta. by rewrite !len_write. Qed.

End Open.

(** * The moves of a bucket

    Each change of a bucket as a change of its layout: room taken, a page added,
    a record published or deleted, a file created. *)


Section Moves.
Variables (psize bsize : Z) (id : Z * Z).
Context {geo : Geometry psize bsize id}.
Abbreviation B := (Z.max psize bsize).
Abbreviation layout := (layout psize bsize id).
Abbreviation links := (links psize bsize).
Abbreviation places b := (slots_of B (t_pages (b_toc b))).

(** Only the fields a layout speaks of. *)
Lemma layout_same b b' m m' : layout b m -> b_disk b' = Some m' -> b_id b' = b_id b -> b_block b' = b_block b ->
  t_lastPage (b_toc b') = t_lastPage (b_toc b) -> t_entries (b_toc b') = t_entries (b_toc b) -> t_pages (b_toc b') = t_pages (b_toc b) ->
  (forall i, byte_at m' i = byte_at m i) -> (B | t_cursor (b_toc b')) -> (B | im_len m') -> im_len m' < 2 ^ 64 ->
  t_cursor (b_toc b) <= t_cursor (b_toc b') <= im_len m' -> layout b' m'.
Proof.
  intros [L1 L2 L3 L4 L5 L6 L7 L8 L9 L10 L11 L12 L13] E1 E2 E3 E4 E5 E6 Hb Hc Hl Hl' Hm.
  assert (Ha : forall a n, agree m m' a n) by (intros a n i _; by rewrite Hb). assert (Hw : forall a, load m' a = load m a) by (intros a; symmetry; by apply load_agree).
  split; rewrite ?E2, ?E3, ?E4, ?E5, ?E6; try done.
  - by apply (header_agree psize bsize id m).
  - split; [done|lia].
  - intros i Hi. rewrite Hb. apply L7. lia.
  - eapply chain_ext; [|exact L8]. intros; apply Hw.
  - intros p Hp. destruct (L11 p Hp) as (? & ? & ?). split_and!; [done|done|lia].
  - intros off pos. rewrite L12. unfold shows. by rewrite !Hw.
  - intros off pos He. apply (record_ok_agree psize bsize id m); [done|done|]. destruct (L13 off pos He) as [R1 R2 R3 R4 R5 R6]. split; (done || lia).
Qed.

Lemma layout_fields b b' m : layout b m -> b_disk b' = b_disk b -> b_id b' = b_id b -> b_block b' = b_block b ->
  t_cursor (b_toc b') = t_cursor (b_toc b) -> t_lastPage (b_toc b') = t_lastPage (b_toc b) -> t_entries (b_toc b') = t_entries (b_toc b) ->
  t_pages (b_toc b') = t_pages (b_toc b) -> layout b' m.
Proof. intros [L1 L2 L3 L4 L5 L6 L7 L8 L9 L10 L11 L12 L13] E1 E2 E3 E4 E5 E6 E7. split; rewrite ?E1, ?E2, ?E3, ?E4, ?E5, ?E6, ?E7; done. Qed.

Lemma layout_room b m c f : layout b m -> (B | c) -> t_cursor (b_toc b) <= c <= im_len m -> layout (with_toc (with_cursor c (with_free f (b_toc b))) b) m.
Proof. intros L Hc Hm. eapply layout_same; try done; try apply L. Qed.

Lemma links_same own b b' m m' : links own b m -> t_entries (b_toc b') = t_entries (b_toc b) -> t_pages (b_toc b') = t_pages (b_toc b) ->
  (forall i, byte_at m' i = byte_at m i) -> t_cursor (b_toc b) <= t_cursor (b_toc b') -> links own b' m'.
Proof.
  intros [K1 K2 K3] E1 E2 Hb Hc. split.
  - by eapply owned_weaken.
  - by rewrite E2.
  - rewrite E1. intros off pos He. rewrite <- !(load_agree m m') by (intros i _; by rewrite Hb). auto.
Qed.

(** A page of free slots, linked behind the last. *)
Lemma chain_snoc m m' ps page last q : chain m page ps -> list.last ps = Some last -> load m' last = q -> q <> 0 -> load m' q = 0 ->
  (forall p, p ∈ ps -> p <> last -> load m' p = load m p) -> NoDup ps -> chain m' page (ps ++ [q]).
Proof.
  intros Hc Hl Hq Hz Hz' Hs. revert page Hc. induction ps as [|p ps IH]; intros page Hc Hnd; [done|].
  destruct Hc as (-> & Hp & Hc). apply list.NoDup_cons in Hnd as [Hni Hnd]. cbn [app chain]. split_and!; [done|done|]. destruct ps as [|p2 ps].
  - cbn in Hl. simplify_eq. cbn. rewrite Hz'. by split_and!.
  - assert (Hne : p <> last). { intros ->. apply Hni. change (list.last (p2 :: ps) = Some last) in Hl. rewrite last_lookup in Hl. by apply list_elem_of_lookup_2 in Hl. }
    rewrite (Hs p ltac:(left) Hne). apply IH; [done| |done|done]. intros x Hx. apply Hs. by right.
Qed.

Lemma slots_new_page b m q : layout b m -> t_cursor (b_toc b) <= q -> (B | q) -> forall pos, pos ∈ slots B q -> forall k, 0 <= k -> load m (pos + k) = 0.
Proof.
  intros L Hq Hd pos Hp k Hk. apply load_zero. intros i Hi. apply (ly_zero _ _ _ _ _ L). pose proof (B_min psize bsize id).
  apply slot_line in Hp; [|lia|apply (B_line _ _ id)|by apply (line_of psize bsize id)]. lia.
Qed.

Lemma sorted_snoc (l : list Z) x : StronglySorted Z.lt l -> (forall y, y ∈ l -> y < x) -> StronglySorted Z.lt (l ++ [x]).
Proof.
  induction l as [|y l IH]; intros Hs Hx; cbn; [by repeat constructor|]. apply StronglySorted_inv in Hs as [Hs Hf]. apply SSorted_cons.
  - apply IH; [done|]. intros z Hz. apply Hx. by right.
  - rewrite list.Forall_forall in *. intros z [Hz|Hz%list_elem_of_singleton]%elem_of_app; [auto|subst; apply Hx; left].
Qed.

Lemma sorted_NoDup l : StronglySorted Z.lt l -> NoDup l.
Proof.
  induction l as [|x l IH]; intros Hs; [constructor|]. apply StronglySorted_inv in Hs as [Hs Hf]. apply list.NoDup_cons. split; [|auto].
  intros Hx. rewrite list.Forall_forall in Hf. specialize (Hf x Hx). lia.
Qed.

Section Page.
Context {own : owner} {b : bucket} {m : image} (L : layout b m) (K : links own b m) (Hr : t_cursor (b_toc b) + B <= im_len m).
Abbreviation t := (b_toc b).
Abbreviation q := (t_cursor t).
Abbreviation m' := (save (clear m q B) (t_lastPage t) q).

Lemma page_byte i : ~ (t_lastPage t <= i < t_lastPage t + 8) -> byte_at m' i = byte_at m i.
Proof.
  intros Hi. unfold save. rewrite byte_write_out by (by rewrite blen_word). pose proof (B_min psize bsize id). apply clear_zero; [lia|].
  intros Hq. apply (ly_zero _ _ _ _ _ L). lia.
Qed.

Lemma last_page : t_lastPage t ∈ t_pages t.
Proof. pose proof (ly_last _ _ _ _ _ L) as Hl. rewrite last_lookup in Hl. by apply list_elem_of_lookup_2 in Hl. Qed.

Lemma page_agree a n : apart (t_lastPage t) 8 a n -> agree m m' a n.
Proof. intros Ha i Hi. symmetry. apply page_byte. destruct Ha; lia. Qed.

Lemma place_agree pos : pos ∈ places b -> agree m m' pos 64.
Proof. intros Hs. apply page_agree. destruct (slot_link _ _ _ L pos _ Hs last_page); unfold apart; lia. Qed.

Lemma layout_page : layout (add_page b) m'.
Proof.
  pose proof (B_min psize bsize id) as HB. pose proof (ly_disk _ _ _ _ _ L) as Hd. pose proof (ly_block _ _ _ _ _ L) as Hbk. pose proof last_page as Hlp.
  unfold add_page, b_data. rewrite Hd, Hbk. cbn [default].
  destruct (ly_pages _ _ _ _ _ L _ Hlp) as (P1 & P2 & P3). destruct (ly_cursor _ _ _ _ _ L) as (C1 & C2 & C3). pose proof (ly_len _ _ _ _ _ L) as [D1 D2].
  assert (Hq : load m' (t_lastPage t) = q) by (apply load_save; unfold is_uint64, max_uint64; lia).
  assert (Hsl : forall pos, pos ∈ slots_of B (t_pages t ++ [q]) <-> pos ∈ places b \/ pos ∈ slots B q).
  { intros pos. unfold slots_of. rewrite flat_map_app, elem_of_app. cbn. by rewrite app_nil_r. }
  assert (Hnew : forall pos, pos ∈ slots B q -> load m' pos = 0).
  { intros pos Hp. rewrite <- (slots_new_page b m q L ltac:(lia) C1 pos Hp 0 ltac:(lia)), Z.add_0_r. symmetry. apply load_agree, page_agree.
    apply slot_line in Hp; [|lia|apply (B_line _ _ id)|by apply (line_of psize bsize id)]. unfold apart. lia. }
  split; cbn [with_toc with_disk b_disk b_id b_block b_toc t_cursor t_lastPage t_entries t_pages].
  - done.
  - apply L.
  - done.
  - eapply (header_agree psize bsize id); [|apply L]. apply page_agree. unfold apart. lia.
  - unfold save, clear. by rewrite !len_write.
  - split; [by apply Z.divide_add_r|]. unfold save, clear. rewrite !len_write. lia.
  - intros i Hi. rewrite page_byte by lia. apply (ly_zero _ _ _ _ _ L). lia.
  - eapply chain_snoc; [apply L|apply L|exact Hq|lia| | |apply sorted_NoDup, L].
    + rewrite <- (load_zero m q); [symmetry; apply load_agree, page_agree; unfold apart; lia|]. intros i Hi. apply (ly_zero _ _ _ _ _ L). lia.
    + intros p Hp Hne. symmetry. apply load_agree, page_agree. destruct (ly_pages _ _ _ _ _ L p Hp) as (Q1 & _ & _).
      destruct (aligned_apart psize bsize id _ _ P1 Q1); [congruence|unfold apart; lia..].
  - by rewrite last_snoc.
  - apply sorted_snoc; [apply L|]. intros p Hp. destruct (ly_pages _ _ _ _ _ L p Hp) as (? & ? & ?). lia.
  - intros p [Hp|Hp%list_elem_of_singleton]%elem_of_app; [destruct (ly_pages _ _ _ _ _ L p Hp) as (? & ? & ?); split_and!; [done|done|lia]|subst p; split_and!; [done|lia|lia]].
  - intros off pos. rewrite (ly_entries _ _ _ _ _ L), Hsl. split.
    + intros [Hs Hsh]. split; [by left|]. eapply shows_agree; [by apply place_agree|done].
    + intros [[Hs|Hs] Hsh]; [|destruct Hsh as [Hp _]; by rewrite Hnew in Hp]. split; [done|]. eapply shows_agree; [by apply agree_sym, place_agree|done].
  - intros off pos He. pose proof (ly_entries _ _ _ _ _ L) as Hen. destruct (proj1 (Hen off pos) He) as [Hs _].
    apply (record_ok_agree psize bsize id m); [by apply place_agree| |].
    + apply page_agree. destruct (page_extent _ _ K _ _ _ _ Hlp (lk_live _ _ _ _ _ K _ _ He)); [done|unfold apart; lia..].
    + destruct (ly_records _ _ _ _ _ L off pos He) as [R1 R2 R3 R4 R5 R6]. split; (done || lia).
Qed.

Lemma links_page : links (give q B TPage own) (add_page b) m'.
Proof.
  pose proof (B_min psize bsize id) as HB. destruct (ly_cursor _ _ _ _ _ L) as (C1 & C2 & C3). pose proof K as [K1 K2 K3].
  pose proof (ly_block _ _ _ _ _ L) as Hbk. unfold add_page. rewrite Hbk. split; cbn [with_toc b_toc t_cursor t_pages t_entries].
  - apply owned_new; [done|done|by exists 1; lia|lia|lia].
  - intros p [Hp|Hp%list_elem_of_singleton]%elem_of_app; [by eapply give_new; eauto|subst p; apply give_here].
  - intros off pos He. pose proof (ly_entries _ _ _ _ _ L) as Hen. destruct (proj1 (Hen off pos) He) as [Hs _].
    rewrite <- !(load_agree m m') by (eapply agree_sub; [by apply place_agree|lia|lia]). eapply give_new; eauto.
Qed.

Lemma kept_page : kept own m m'.
Proof.
  intros p s off Ho. apply page_agree. destruct Ho as [Ho|Ho]; destruct (page_extent _ _ K _ _ _ _ last_page Ho); (done || unfold apart; pose proof (B_min psize bsize id); lia).
Qed.

End Page.
(** ** Publishing and deleting *)

Definition set_entries (e : gmap Z Z) (m : image) (b : bucket) : bucket := with_toc (with_entries e (b_toc b)) (with_disk (Some m) b).

Section Slot.
Context {own : owner} {b : bucket} {m : image} (L : layout b m) (K : links own b m).
Variables (slot : Z) (Hslot : slot ∈ places b).
Abbreviation t := (b_toc b).

Lemma slot_store_other v pos : pos ∈ places b -> pos <> slot -> agree m (save m slot v) pos 64.
Proof. intros Hs Hne. apply slot_store_agree. apply (slot_apart _ _ _ L); [done| |congruence]. by destruct (slot_at _ _ _ L pos Hs) as (_ & _ & Hd & _). Qed.

(** The rest of the layout does not see a slot. *)
Lemma layout_slot v e : (forall off pos, e !! off = Some pos <-> pos ∈ places b /\ shows (save m slot v) pos off) ->
  (forall off pos, e !! off = Some pos -> record_ok psize bsize id (save m slot v) (t_cursor t) pos off) -> layout (set_entries e (save m slot v) b) (save m slot v).
Proof.
  intros He Hr. pose proof (B_min psize bsize id) as HB. destruct (slot_at _ _ _ L slot Hslot) as (p & Hp & _ & H1 & H2). destruct (ly_pages _ _ _ _ _ L p Hp) as (G1 & G2 & G3).
  split; cbn [set_entries with_toc with_entries with_disk b_disk b_id b_block b_toc t_cursor t_lastPage t_entries t_pages]; try done; try apply L.
  - eapply (header_agree psize bsize id); [|apply L]. apply slot_store_agree. unfold apart. lia.
  - intros i Hi. rewrite slot_store_out by lia. apply (ly_zero _ _ _ _ _ L). lia.
  - eapply chain_ext; [|apply L]. intros q Hq. symmetry. apply load_agree, slot_store_agree. destruct (slot_link _ _ _ L slot q Hslot Hq); unfold apart; lia.
Qed.

Lemma live_kept v off pos : t_entries t !! off = Some pos -> agree m (save m slot v) (load m (pos + 16)) (load m (pos + 32)).
Proof. intros He. apply slot_store_agree. destruct (slot_extent _ _ _ L K slot _ _ _ Hslot (lk_live _ _ _ _ _ K _ _ He)); [done|unfold apart; lia..]. Qed.

Lemma other_record v off pos : t_entries t !! off = Some pos -> pos <> slot ->
  shows (save m slot v) pos off /\ record_ok psize bsize id (save m slot v) (t_cursor t) pos off.
Proof.
  intros He Hne. pose proof (ly_entries _ _ _ _ _ L off pos) as Hen. destruct (proj1 Hen He) as [Hs Hsh]. pose proof (slot_store_other v pos Hs Hne) as Ha. split.
  - by eapply shows_agree.
  - apply (record_ok_agree psize bsize id m); [done|by apply (live_kept v off)|]. by apply (ly_records _ _ _ _ _ L).
Qed.

Lemma other_shown v off pos : pos ∈ places b -> pos <> slot -> shows (save m slot v) pos off -> t_entries t !! off = Some pos.
Proof. intros Hs Hne Hsh. apply (ly_entries _ _ _ _ _ L). split; [done|]. eapply shows_agree; [|exact Hsh]. by apply agree_sym, slot_store_other. Qed.

Lemma layout_publish off : (forall o, t_entries t !! o <> Some slot) -> t_entries t !! off = None -> load m (slot + 8) = off ->
  record_ok psize bsize id m (t_cursor t) slot off -> own (load m (slot + 16)) (load m (slot + 32)) (TWrite off) ->
  layout (set_entries (<[ off := slot ]> (t_entries t)) (save m slot published) b) (save m slot published).
Proof.
  intros Hf Hn Ho Hr Hw. assert (Hp : load (save m slot published) slot = published) by (by apply load_save).
  assert (Hsh : shows (save m slot published) slot off) by (split; [done|by rewrite slot_store_word by lia]). apply layout_slot.
  - intros o pos. rewrite lookup_insert_Some. split.
    + intros [[<- <-]|[Hne He]]; [done|]. split; [by apply (ly_entries _ _ _ _ _ L) in He as [? _]|]. apply other_record; [done|]. intros ->. by apply (Hf o).
    + intros [Hs Hso]. destruct (decide (pos = slot)) as [-> |Hne]; [left; destruct Hsh as [_ <-], Hso as [_ <-]; done|].
      right. apply other_shown in Hso; [|done|done]. split; [congruence|done].
  - intros o pos [[<- <-]|[Hne He]]%lookup_insert_Some; [|by apply other_record; [|intros ->; apply (Hf o)]].
    destruct Hr as [R1 R2 R3 R4 R5 R6]. split; rewrite ?slot_store_word by lia; try done.
    rewrite <- (read_agree m); [done|]. apply slot_store_agree. destruct (slot_extent _ _ _ L K slot _ _ _ Hslot Hw); [done|unfold apart; lia..].
Qed.

Lemma layout_delete off v : t_entries t !! off = Some slot -> is_uint64 v -> v <> published ->
  layout (set_entries (delete off (t_entries t)) (save m slot v) b) (save m slot v).
Proof.
  intros He Hv Hne. assert (Hp : load (save m slot v) slot <> published) by (by rewrite load_save). apply layout_slot.
  - intros o pos. rewrite lookup_delete_Some. split.
    + intros [Hno Ho]. split; [by apply (ly_entries _ _ _ _ _ L) in Ho as [? _]|]. apply other_record; [done|]. intros ->. apply Hno. by eapply (slot_entry _ _ _ L).
    + intros [Hs Hsh]. assert (Hns : pos <> slot) by (intros ->; by destruct Hsh). apply other_shown in Hsh; [|done|done]. split; [|done]. intros <-. congruence.
  - intros o pos [Hno Ho]%lookup_delete_Some. apply other_record; [done|]. intros ->. apply Hno. by eapply (slot_entry _ _ _ L).
Qed.

Lemma links_publish off : (forall o, t_entries t !! o <> Some slot) -> own (load m (slot + 16)) (load m (slot + 32)) (TWrite off) ->
  links (give (load m (slot + 16)) (load m (slot + 32)) (TLive off) own) (set_entries (<[ off := slot ]> (t_entries t)) (save m slot published) b) (save m slot published).
Proof.
  intros Hf Hw. pose proof K as [K1 K2 K3]. split; cbn [set_entries with_toc with_entries with_disk b_toc t_cursor t_entries t_pages].
  - by eapply owned_give.
  - intros p Hp. eapply give_there; eauto.
  - intros o pos [[<- <-]|[Hne He]]%lookup_insert_Some; [rewrite !slot_store_word by lia; apply give_here|].
    assert (Hs : pos <> slot) by (intros ->; by apply (Hf o)). pose proof (ly_entries _ _ _ _ _ L o pos) as Hen. destruct (proj1 Hen He) as [Hsp _].
    rewrite <- !(load_agree m (save m slot published)) by (eapply agree_sub; [by apply slot_store_other|lia|lia]). eapply give_there; eauto.
Qed.

Lemma links_delete off v : t_entries t !! off = Some slot ->
  links (give (load m (slot + 16)) (load m (slot + 32)) (TDead off) own) (set_entries (delete off (t_entries t)) (save m slot v) b) (save m slot v).
Proof.
  intros He. pose proof K as [K1 K2 K3]. pose proof (K3 _ _ He) as Hw. split; cbn [set_entries with_toc with_entries with_disk b_toc t_cursor t_entries t_pages].
  - by eapply owned_give.
  - intros p Hp. eapply give_there; eauto.
  - intros o pos [Hne Ho]%lookup_delete_Some. assert (Hs : pos <> slot) by (intros ->; apply Hne; by eapply (slot_entry _ _ _ L)).
    pose proof (ly_entries _ _ _ _ _ L o pos) as Hen. destruct (proj1 Hen Ho) as [Hsp _].
    rewrite <- !(load_agree m (save m slot v)) by (eapply agree_sub; [by apply slot_store_other|lia|lia]). eapply give_there; eauto. congruence.
Qed.

Lemma kept_store v : kept own m (save m slot v).
Proof. apply (kept_slot _ _ _ L K _ slot Hslot). apply slot_store_out. Qed.

End Slot.

(** ** A new file *)

Lemma layout_new b b' : b_id b = id -> opened b (header id B) b' -> b_block b' = B -> layout b' (header id B) /\ t_entries (b_toc b') = ∅ /\ t_pages (b_toc b') = [B].
Proof.
  intros Hid O Hb. pose proof (B_min psize bsize id) as HB. pose proof (geo_grow psize bsize id) as Hg. apply Z.divide_pos_le in Hg as Hg'; [|lia].
  destruct (geo_id psize bsize id) as [[? ?] ?]. assert (Hh : header_ok psize bsize id (header id B)).
  { apply header_words; unfold is_uint64, max_uint64, fileCount in *; lia || done. }
  pose proof O as [_ _ _ _ _ (t & P & Ht)]. rewrite Hb in P. destruct P as [P1 _ _ _ P5 _ _ _]. rewrite Ht in *. cbn [with_cursor t_entries t_pages] in *.
  assert (Hz : forall i, 56 <= i -> load (header id B) i = 0) by (intros i Hi; apply load_zero; intros j Hj; apply header_zero; lia).
  assert (Hpg : t_pages t = [B]). { eapply (chain_unique (header id B)); [exact P1|]. cbn. rewrite Hz by lia. split_and!; [done|lia|done]. }
  assert (Hen : t_entries t = ∅).
  { apply map_eq. intros off. rewrite lookup_empty. apply eq_None_not_Some. intros [pos Hp]. apply P5 in Hp as [?%lookup_empty_Some|[Hs [Hp _]]]; [done|].
    rewrite Hpg in Hs. apply elem_of_slots_of in Hs as (p & Hp1%list_elem_of_singleton & Hs). subst p.
    apply slot_line in Hs; [|lia|apply (B_line _ _ id)|apply (B_line _ _ id)]. rewrite Hz in Hp by lia. done. }
  split; [|by split]. destruct (opened_layout psize bsize id b (header id B) b' Hid O Hb Hh) as [Lb _]; rewrite ?header_len; try done; try lia.
  - by exists 2; lia.
  - intros i Hi. apply header_zero. lia.
  - rewrite Ht. cbn [with_cursor t_entries]. rewrite Hen. intros ? ? ?%lookup_empty_Some. done.
Qed.

End Moves.
