(* ===== verification/DurSteps.v ===== *)
(** * The invariant of a bucket over time

    [hist]: what the states since the last sync have in common.  [alive]: the
    current state, who owns its blocks, and what its writers have done so far. *)

From S2P Require Import Prelude Golib Durability DurLayout DurOpen.

Section Inv.
Variables (psize bsize : Z) (id : Z * Z).
Context {geo : Geometry psize bsize id}.
Abbreviation B := (Z.max psize bsize).
Abbreviation layout := (layout psize bsize id).
Abbreviation links := (links psize bsize).
Abbreviation places b := (slots_of B (t_pages (b_toc b))).
Abbreviation entries b := (t_entries (b_toc b)).
Abbreviation start b pos := (load (b_data b) (pos + 16)).
Abbreviation room b pos := (load (b_data b) (pos + 32)).

(** ** History *)

(** A closed bucket may have lost its table; it stands for one that has not. *)
Definition ideal (b s : bucket) : Prop := b_disk s = b_disk b /\ entries s = entries b.

Record later (s s' : bucket) : Prop := {
  lt_cursor : t_cursor (b_toc s) <= t_cursor (b_toc s');
  lt_pages : exists l, t_pages (b_toc s') = t_pages (b_toc s) ++ l /\ forall p, p ∈ l -> t_cursor (b_toc s) <= p;
  lt_kept : forall off pos, entries s !! off = Some pos -> agree (b_data s) (b_data s') (start s pos) (room s pos);
}.

(** A record that is there before and after has not moved. *)
Definition slots_kept (s s' : bucket) : Prop :=
  forall off pos pos', entries s !! off = Some pos -> entries s' !! off = Some pos' -> pos = pos' /\ agree (b_data s) (b_data s') pos 64.

Fixpoint hist (l : list bucket) : Prop :=
  match l with [] => True | s :: l => hist l /\ (forall s0, s0 ∈ l -> later s0 s) /\ (forall s0, head l = Some s0 -> slots_kept s0 s) end.

Lemma hist_push s s' S : hist (s :: S) -> later s s' -> slots_kept s s' ->
  (forall s0 off pos, s0 ∈ s :: S -> entries s0 !! off = Some pos -> agree (b_data s) (b_data s') (start s0 pos) (room s0 pos)) -> hist (s' :: s :: S).
Proof.
  intros Hh Hl Hs Hk. split; [done|]. split; [|by intros s0 [= <-]]. intros s0 [-> |H0]%elem_of_cons; [done|].
  destruct Hh as (_ & Ho & _). destruct (Ho s0 H0) as [H1 (l1 & H2 & H3) H4]. destruct Hl as [L1 (l2 & L2 & L3) _]. split; [lia| |].
  - exists (l1 ++ l2). split; [by rewrite L2, H2, app_assoc|]. intros p [Hp|Hp]%elem_of_app; [auto|]. specialize (L3 p Hp). lia.
  - intros off pos He. eapply agree_trans; [by apply (H4 off)|]. eapply Hk; [by right|done].
Qed.

Definition remembers (own : owner) (s : bucket) : Prop :=
  forall off pos, entries s !! off = Some pos -> own (start s pos) (room s pos) (TLive off) \/ own (start s pos) (room s pos) (TDead off).

(** ** Writers *)

Definition stores_of (w : writer) : list (Z * bytes) :=
  copy_stores (w_pos w) (w_data w) ++ slot_stores (w_offset w) (w_slot w) (w_pos w) (w_size w) (w_data w).

Record writing (own : owner) (s : bucket) (w : writer) : Prop := {
  wr_slot : w_slot w ∈ places s /\ forall off, entries s !! off <> Some (w_slot w);
  wr_own : own (w_pos w) (w_size w) (TWrite (w_offset w));
  wr_off : is_uint64 (w_offset w) /\ w_offset w mod fileCount = id.2 /\ entries s !! w_offset w = None;
  wr_len : blen (w_data w) <= w_size w;
  wr_done : exists done, stores_of w = done ++ w_rest w /\ forall x, x ∈ done -> read (b_data s) x.1 (blen x.2) = x.2;
}.

(** ** The state *)

Definition spares (j : sync_job) (b : bucket) : Prop := forall off pos, entries b !! off = Some pos -> (start b pos ∉ (j_punches j).*1).

Record job_ok (own : owner) (k : disk_state) (j : sync_job) (ph : bool) : Prop := {
  jo_old : j_file j < b_opens (k_bucket k);
  jo_held : ph = false -> b_file (k_bucket k) = Some (j_file j) /\ k_since k `prefix_of` k_past k;
  jo_dead : b_file (k_bucket k) = Some (j_file j) -> (forall p n, (p, n) ∈ j_punches j -> exists off, own p n (TDead off))
            /\ forall b, b ∈ (if ph then k_past k else k_since k) -> spares j b;
}.

Record alive (own : owner) (s : bucket) (S : list bucket) (k : disk_state) : Prop := {
  al_layout : layout s (b_data s);
  al_ideal : ideal (k_bucket k) s /\ b_id (k_bucket k) = id;
  al_open : forall f, b_file (k_bucket k) = Some f -> s = k_bucket k /\ f < b_opens (k_bucket k) /\ t_cursor (b_toc s) <= b_mapped (k_bucket k) <= im_len (b_data s);
  al_closed : b_file (k_bucket k) = None -> b_mapped (k_bucket k) = 0 /\ k_writers k = [];
  al_links : links own s (b_data s);
  al_past : Forall2 ideal (k_past k) (s :: S);
  al_hist : hist (s :: S);
  al_old : forall s0, s0 ∈ s :: S -> layout s0 (b_data s0) /\ remembers own s0;
  al_free : b_file (k_bucket k) <> None -> NoDup (t_free (b_toc s) ++ map w_slot (k_writers k))
            /\ forall pos, pos ∈ t_free (b_toc s) -> pos ∈ places s /\ forall off, entries s !! off <> Some pos;
  al_writers : forall w, w ∈ k_writers k -> writing own s w;
  al_offsets : NoDup (map w_offset (k_writers k));
  al_punches : forall p n, (p, n) ∈ s_punches (b_sched (k_bucket k)) -> exists off, own p n (TDead off);
  al_job : forall j ph, k_job k = Some (j, ph) -> job_ok own k j ph;
}.

(** Before the file is created and after it is removed. *)
Record absent (k : disk_state) : Prop := {
  ab_disk : b_disk (k_bucket k) = None /\ b_file (k_bucket k) = None /\ b_mapped (k_bucket k) = 0 /\ b_id (k_bucket k) = id;
  ab_empty : entries (k_bucket k) = ∅ /\ s_punches (b_sched (k_bucket k)) = [];
  ab_writers : k_writers k = [];
  ab_past : k_past k = [];
  ab_job : forall j ph, k_job k = Some (j, ph) -> j_file j < b_opens (k_bucket k) /\ ph = true;
}.

Definition disk_inv (k : disk_state) : Prop := absent k \/ exists own s S, alive own s S k.

Lemma alive_disk own s S k : alive own s S k -> b_disk (k_bucket k) = Some (b_data s) /\ b_data (k_bucket k) = b_data s.
Proof. intros A. destruct (al_ideal _ _ _ _ A) as [[Hd _] _]. pose proof (ly_disk _ _ _ _ _ (al_layout _ _ _ _ A)) as Hl. unfold b_data at 2. rewrite <- Hd, Hl. done. Qed.

(** ** One more state *)

Record move (own : owner) (s : bucket) (S : list bucket) (own' : owner) (s' : bucket) : Prop := {
  mv_layout : layout s' (b_data s');
  mv_links : links own' s' (b_data s');
  mv_later : t_cursor (b_toc s) <= t_cursor (b_toc s') /\ exists l, t_pages (b_toc s') = t_pages (b_toc s) ++ l /\ forall p, p ∈ l -> t_cursor (b_toc s) <= p;
  mv_slots : slots_kept s s';
  mv_kept : forall s0 off pos, s0 ∈ s :: S -> entries s0 !! off = Some pos -> agree (b_data s) (b_data s') (start s0 pos) (room s0 pos);
  mv_tags : forall p n off, own p n (TLive off) \/ own p n (TDead off) -> own' p n (TLive off) \/ own' p n (TDead off);
  mv_dead : forall p n off, own p n (TDead off) -> own' p n (TDead off);
}.

Lemma live_spared own s j : links own s (b_data s) -> (forall p n, (p, n) ∈ j_punches j -> exists off, own p n (TDead off)) -> forall b, ideal b s -> spares j b.
Proof.
  intros [K1 K2 K3] Hj b [Hd He] off pos Hp [[p n] [Heq Hin]]%list_elem_of_fmap. cbn in Heq. rewrite <- He in Hp. apply K3 in Hp.
  unfold b_data in *. rewrite Hd in Hp. rewrite Heq in Hp. destruct (Hj p n Hin) as [o Ho]. destruct (ow_fun _ _ _ _ K1 _ _ _ _ _ Hp Ho). done.
Qed.

(** Another job. *)
Lemma alive_job own s S k job since : alive own s S k ->
  (forall j ph, job = Some (j, ph) -> job_ok own (mkDisk (k_bucket k) (k_writers k) job (k_past k) since) j ph) ->
  alive own s S (mkDisk (k_bucket k) (k_writers k) job (k_past k) since).
Proof. intros [A1 A2 A3 A4 A5 A6 A7 A8 A9 A10 A11 A12 A13] Hj. by split. Qed.

Lemma alive_core own s S k own' s' b' W' : alive own s S k -> move own s S own' s' -> ideal b' s' -> b_id b' = id ->
  (forall f, b_file b' = Some f -> s' = b' /\ f < b_opens b' /\ t_cursor (b_toc s') <= b_mapped b' <= im_len (b_data s')) ->
  (b_file b' = None -> b_mapped b' = 0 /\ W' = []) ->
  (b_file b' <> None -> NoDup (t_free (b_toc s') ++ map w_slot W')
     /\ forall pos, pos ∈ t_free (b_toc s') -> pos ∈ places s' /\ forall off, entries s' !! off <> Some pos) ->
  (forall w, w ∈ W' -> writing own' s' w) -> NoDup (map w_offset W') ->
  (forall p n, (p, n) ∈ s_punches (b_sched b') -> exists off, own' p n (TDead off)) ->
  alive own' s' (s :: S) (mkDisk b' W' None (b' :: k_past k) []).
Proof.
  intros A M Hi Hid Hop Hcl Hfr Hw Hoff Hpu. destruct (mv_later _ _ _ _ _ M) as [M1 M2].
  split; cbn [k_bucket k_writers k_job k_past k_since]; try done.
  - apply M.
  - apply M.
  - constructor; [done|apply A].
  - apply hist_push; [apply A| |apply M|apply M]. split; [done|done|]. intros off pos He. eapply (mv_kept _ _ _ _ _ M); [by left|done].
  - intros s0 [-> |H0]%elem_of_cons.
    + split; [apply M|]. intros off pos He. left. by apply (lk_live _ _ _ _ _ (mv_links _ _ _ _ _ M)).
    + destruct (al_old _ _ _ _ A s0 H0) as [Hl Hr]. split; [done|]. intros off pos He. apply (mv_tags _ _ _ _ _ M). by apply Hr.
Qed.

Lemma alive_push own s S k own' s' b' W' : alive own s S k -> move own s S own' s' ->
  ideal b' s' -> b_id b' = id -> b_opens (k_bucket k) <= b_opens b' ->
  (forall j, k_job k = Some (j, false) -> b_file b' = b_file (k_bucket k)) ->
  (forall f, b_file b' = Some f -> b_file (k_bucket k) = Some f \/ b_opens (k_bucket k) <= f) ->
  (forall f, b_file b' = Some f -> s' = b' /\ f < b_opens b' /\ t_cursor (b_toc s') <= b_mapped b' <= im_len (b_data s')) ->
  (b_file b' = None -> b_mapped b' = 0 /\ W' = []) ->
  (b_file b' <> None -> NoDup (t_free (b_toc s') ++ map w_slot W')
     /\ forall pos, pos ∈ t_free (b_toc s') -> pos ∈ places s' /\ forall off, entries s' !! off <> Some pos) ->
  (forall w, w ∈ W' -> writing own' s' w) -> NoDup (map w_offset W') ->
  (forall p n, (p, n) ∈ s_punches (b_sched b') -> exists off, own' p n (TDead off)) ->
  alive own' s' (s :: S) (advance b' W' (k_job k) k).
Proof.
  intros A M Hi Hid Ho Hms Hf Hop Hcl Hfr Hw Hoff Hpu. pose proof (alive_disk _ _ _ _ A) as [Hdk _].
  pose proof (alive_core _ _ _ _ _ _ _ _ A M Hi Hid Hop Hcl Hfr Hw Hoff Hpu) as A'.
  pose proof (ly_disk _ _ _ _ _ (mv_layout _ _ _ _ _ M)) as Hd'. destruct Hi as [Hi1 Hi2]. assert (Hdb : b_disk b' = Some (b_data s')) by congruence.
  assert (Hext : forall l, extend_past (k_bucket k) b' l = b' :: l) by (intros l; unfold extend_past; by rewrite Hdb, Hdk).
  unfold advance. rewrite !Hext. apply (alive_job _ _ _ _ (k_job k) (b' :: k_since k)) in A'; [exact A'|]. cbn [k_bucket k_writers k_past].
  intros j ph Hj. destruct (al_job _ _ _ _ A j ph Hj) as [J1 J2 J3]. split; cbn [k_bucket k_past k_since].
  - lia.
  - intros ->. destruct (J2 eq_refl) as [E1 E2]. rewrite (Hms j Hj). split; [done|]. by apply prefix_cons.
  - intros Hb. assert (Hb0 : b_file (k_bucket k) = Some (j_file j)) by (destruct (Hf _ Hb); [done|lia]). destruct (J3 Hb0) as [D1 D2].
    assert (D1' : forall p n, (p, n) ∈ j_punches j -> exists off, own' p n (TDead off)) by (intros p n Hpn; destruct (D1 p n Hpn) as [o Ho']; exists o; by apply M).
    split; [done|]. pose proof (live_spared own' s' j (mv_links _ _ _ _ _ M) D1' b' (conj Hi1 Hi2)) as Hsp.
    destruct ph; (intros b [-> |Hb1]%elem_of_cons; [done|auto]).
Qed.

(** ** Forgetting what is surely on disk *)

Lemma hist_take n l : hist l -> hist (take n l).
Proof.
  revert n. induction l as [|s l IH]; intros [|n] H; cbn; try done. destruct H as (H1 & H2 & H3). split_and!; [auto| |].
  - intros s0 H0. apply H2. apply list_elem_of_lookup in H0 as [i Hi]. apply list_elem_of_lookup. exists i. by apply lookup_take_Some in Hi as [? _].
  - intros s0 H0. apply H3. by destruct l, n.
Qed.

Lemma alive_forget own s S k j since : alive own s S k -> k_job k = Some (j, false) -> k_since k = k_bucket k :: since ->
  exists S', alive own s S' (mkDisk (k_bucket k) (k_writers k) (Some (j, true)) (k_since k) (k_since k)).
Proof.
  intros A Hj Hs. destruct (al_job _ _ _ _ A j false Hj) as [J1 J2 J3]. destruct (J2 eq_refl) as [E1 [rest E2]]. exists (take (length since) S).
  assert (Htk : s :: take (length since) S = take (length (k_since k)) (s :: S)) by (by rewrite Hs).
  assert (Hin : forall s0, s0 ∈ s :: take (length since) S -> s0 ∈ s :: S).
  { intros s0. rewrite Htk. intros [i Hi]%list_elem_of_lookup. apply lookup_take_Some in Hi as [Hi _]. by apply list_elem_of_lookup_2 in Hi. }
  pose proof A as [A1 A2 A3 A4 A5 A6 A7 A8 A9 A10 A11 A12 A13]. split; cbn [k_bucket k_writers k_job k_past k_since]; try done.
  - rewrite Htk. apply (Forall2_take _ _ _ (length (k_since k))) in A6. by rewrite E2, take_app_length in A6.
  - rewrite Htk. by apply hist_take.
  - intros s0 H0. by apply A8, Hin.
  - intros j' ph [= <- <-]. split; cbn [k_bucket k_past k_since]; [done|done|]. intros Hb. by apply J3.
Qed.
End Inv.

(** * Writers in flight

    The stores of a writer stay in its slot and its blocks, do not overlap, and
    leave everybody else's alone. *)


Section Writers.
Variables (psize bsize : Z) (id : Z * Z).
Context {geo : Geometry psize bsize id}.
Abbreviation B := (Z.max psize bsize).
Abbreviation layout := (layout psize bsize id).
Abbreviation links := (links psize bsize).
Abbreviation places b := (slots_of B (t_pages (b_toc b))).
Abbreviation entries b := (t_entries (b_toc b)).
Abbreviation writing := (writing psize bsize id).
Abbreviation alive := (alive psize bsize id).
Abbreviation move := (move psize bsize id).

Lemma align_spec n : 0 < n -> (B | align n B) /\ n <= align n B /\ 0 < align n B.
Proof.
  intros Hn. pose proof (B_min psize bsize id) as HB. unfold align. split; [by apply Z.divide_factor_r|].
  pose proof (Z.div_mod (n + B - 1) B ltac:(lia)). pose proof (Z.mod_pos_bound (n + B - 1) B ltac:(lia)). nia.
Qed.

(** ** Where the stores go *)

Lemma copy_within p data x : x ∈ copy_stores p data -> p <= x.1 /\ x.1 + blen x.2 <= p + blen data.
Proof.
  revert p. induction data as [|d data IH]; intros p; cbn [copy_stores]; [by intros ?%elem_of_nil|].
  intros [-> |Hx]%elem_of_cons; [|apply IH in Hx]; unfold blen in *; cbn [length fst snd] in *; lia.
Qed.

Lemma copy_ordered p data done x rest : copy_stores p data = done ++ x :: rest -> forall y, y ∈ done -> y.1 + blen y.2 <= x.1.
Proof.
  revert p done. induction data as [|d data IH]; intros p done; cbn [copy_stores]; [by destruct done|].
  destruct done as [|z done]; cbn [app]; intros [= Hz Hr] y Hy; [by apply elem_of_nil in Hy|]. apply elem_of_cons in Hy as [-> |Hy]; [|by eapply IH].
  assert (Hx : x ∈ copy_stores (p + 1) data) by (rewrite Hr; apply elem_of_app; right; left). apply copy_within in Hx. rewrite <- Hz. unfold blen in *. cbn [length fst snd]. lia.
Qed.

Lemma slot_within off slot p n data x : x ∈ slot_stores off slot p n data -> slot + 8 <= x.1 /\ x.1 + blen x.2 <= slot + 48 /\ blen x.2 = 8.
Proof. unfold slot_stores. rewrite !elem_of_cons, elem_of_nil. intros [-> |[-> |[-> |[-> |[-> |[]]]]]]; cbn [fst snd]; rewrite blen_word; lia. Qed.

Lemma slot_ordered off slot p n data done x rest : slot_stores off slot p n data = done ++ x :: rest -> forall y, y ∈ done -> y.1 + blen y.2 <= x.1.
Proof.
  intros H y Hy. assert (Hy' : y ∈ slot_stores off slot p n data) by (rewrite H; apply elem_of_app; by left). apply slot_within in Hy' as (_ & _ & ->).
  assert (Hs : [slot + 8; slot + 16; slot + 24; slot + 32; slot + 40] = map fst done ++ x.1 :: map fst rest) by (change (map fst (slot_stores off slot p n data) = map fst done ++ map fst (x :: rest)); by rewrite H, map_app).
  assert (Hm : y.1 ∈ map fst done) by (by apply list_elem_of_fmap_2). revert Hs Hm. generalize (map fst done), (map fst rest), (x.1), (y.1). clear.
  intros l r v u Hs Hm. do 5 (destruct l as [|? l]; [injection Hs as <- ?; rewrite ?elem_of_cons, ?elem_of_nil in Hm; lia|injection Hs as <- Hs]). by destruct l.
Qed.

Section One.
Context {own : owner} {s : bucket} (L : layout s (b_data s)) (K : links own s (b_data s)).

Lemma slot_blocks w : writing own s w -> apart (w_pos w) (w_size w) (w_slot w) 64.
Proof. intros W. eapply (slot_extent _ _ _ L K); [apply W|apply W|done]. Qed.

Lemma store_within w x : writing own s w -> x ∈ stores_of w ->
  (w_pos w <= x.1 /\ x.1 + blen x.2 <= w_pos w + w_size w) \/ (w_slot w + 8 <= x.1 /\ x.1 + blen x.2 <= w_slot w + 48).
Proof.
  intros W [Hx%copy_within|Hx%slot_within]%elem_of_app; [left|right; tauto]. pose proof (wr_len _ _ _ _ _ _ W). lia.
Qed.

Lemma stores_ordered w done x rest : writing own s w -> stores_of w = done ++ x :: rest -> forall y, y ∈ done -> apart y.1 (blen y.2) x.1 (blen x.2).
Proof.
  intros W H y Hy. pose proof (slot_blocks w W) as Hsb. pose proof (wr_len _ _ _ _ _ _ W) as Hlen. unfold stores_of in H.
  apply app_eq_app in H as (l & [[H1 H2]|[H1 H2]]).
  - destruct l as [|z l].
    + rewrite app_nil_r in H1. cbn in H2. assert (Hx : x ∈ slot_stores (w_offset w) (w_slot w) (w_pos w) (w_size w) (w_data w)) by (rewrite <- H2; left).
      apply slot_within in Hx. rewrite <- H1 in Hy. apply copy_within in Hy. unfold apart in *. lia.
    + injection H2 as <- _. left. by eapply copy_ordered.
  - subst done. apply elem_of_app in Hy as [Hy|Hy]; [|left; by eapply slot_ordered].
    assert (Hx : x ∈ slot_stores (w_offset w) (w_slot w) (w_pos w) (w_size w) (w_data w)) by (rewrite H2; apply elem_of_app; right; left).
    apply slot_within in Hx. apply copy_within in Hy. unfold apart in *. lia.
Qed.

(** A writer does not see changes elsewhere. *)
Lemma writing_frame own' s' w : writing own s w -> (forall pos, pos ∈ places s -> pos ∈ places s') ->
  entries s' !! w_offset w = None -> (forall off, entries s' !! off <> Some (w_slot w)) -> own' (w_pos w) (w_size w) (TWrite (w_offset w)) ->
  agree (b_data s) (b_data s') (w_pos w) (w_size w) -> agree (b_data s) (b_data s') (w_slot w) 64 -> writing own' s' w.
Proof.
  intros W Hp He Hs Ho A1 A2. pose proof W as [[W1 W1'] W2 (W3 & W3' & _) W4 (done & W5 & W6)]. split; try done.
  - split; [auto|done].
  - exists done. split; [done|]. intros x Hx. rewrite <- (W6 x Hx) at 2. symmetry. apply read_agree.
    destruct (store_within w x W) as [[? ?]|[? ?]]; [rewrite W5; apply elem_of_app; by left|eapply agree_sub; [exact A1|lia|lia]|eapply agree_sub; [exact A2|lia|lia]].
Qed.

(** Nobody else's slot. *)
Lemma slot_of_other w pos : writing own s w -> pos ∈ places s -> pos <> w_slot w -> apart pos 64 (w_slot w) 64.
Proof. intros W Hp Hne. apply (slot_apart _ _ _ L); [done| |done]. destruct (wr_slot _ _ _ _ _ _ W) as [Hs _]. by destruct (slot_at _ _ _ L _ Hs) as (_ & _ & Hd & _). Qed.

Lemma unpublished w : writing own s w -> load (b_data s) (w_slot w) <> published.
Proof. intros W Hp. destruct (wr_slot _ _ _ _ _ _ W) as [Hs Hn]. apply (Hn (load (b_data s) (w_slot w + 8))). apply (ly_entries _ _ _ _ _ L). by split. Qed.

(** ** What a finished writer has written *)

Lemma copied_spec m p data : (forall x, x ∈ copy_stores p data -> read m x.1 (blen x.2) = x.2) -> read m p (blen data) = data.
Proof.
  intros H. apply list_eq. intros i. unfold read, blen. rewrite Nat2Z.id, list_lookup_fmap. destruct (lt_dec i (length data)) as [Hi|Hi].
  - rewrite lookup_seq_lt by done. destruct (lookup_lt_is_Some_2 data i Hi) as [d Hd]. rewrite Hd. cbn. f_equal.
    assert (Hx : (p + Z.of_nat i, [d]) ∈ copy_stores p data).
    { clear H Hi. revert p i Hd. induction data as [|d0 data IH]; intros p [|i] Hd; cbn in Hd; simplify_eq; cbn [copy_stores]; [rewrite Z.add_0_r; left|].
      right. replace (p + Z.of_nat (S i)) with (p + 1 + Z.of_nat i) by lia. auto. }
    apply H in Hx. cbn in Hx. unfold read in Hx. cbn in Hx. injection Hx as Hx. rewrite <- Hx. f_equal. lia.
  - rewrite lookup_seq_ge by lia. symmetry. by apply lookup_ge_None_2; lia.
Qed.

Lemma finished w : writing own s w -> w_rest w = [] ->
  load (b_data s) (w_slot w + 8) = w_offset w /\ load (b_data s) (w_slot w + 16) = w_pos w /\ load (b_data s) (w_slot w + 24) = blen (w_data w)
  /\ load (b_data s) (w_slot w + 32) = w_size w /\ read (b_data s) (w_pos w) (blen (w_data w)) = w_data w
  /\ load (b_data s) (w_slot w + 40) = recordChecksum (w_offset w) (w_pos w) (blen (w_data w)) (w_size w) (w_data w).
Proof.
  intros W Hr. pose proof W as [_ W2 (W3 & _) W4 (done & W5 & W6)]. rewrite Hr, app_nil_r in W5. subst done.
  assert (Hb : w_pos w + w_size w < 2 ^ 64 /\ 0 <= w_pos w).
  { destruct (ow_in _ _ _ _ (lk_own _ _ _ _ _ K) _ _ _ W2) as (? & ? & ? & ? & ?). destruct (ly_cursor _ _ _ _ _ L) as (? & ? & ?). pose proof (ly_len _ _ _ _ _ L) as [? ?].
    pose proof (B_min psize bsize id). lia. }
  assert (Hn : 0 <= blen (w_data w)) by (unfold blen; lia).
  assert (Hword : forall pos v, (pos, le_bytes 8 v) ∈ stores_of w -> is_uint64 v -> load (b_data s) pos = v).
  { intros pos v Hx Hv. apply load_word; [done|]. specialize (W6 _ Hx). cbn [fst snd] in W6. by rewrite blen_word in W6. }
  assert (Hin : forall x, x ∈ slot_stores (w_offset w) (w_slot w) (w_pos w) (w_size w) (w_data w) -> x ∈ stores_of w) by (intros x Hx; apply elem_of_app; by right).
  split_and!; try (apply Hword; [apply Hin; unfold slot_stores; set_solver|unfold is_uint64, max_uint64; lia]).
  - apply Hword; [apply Hin; unfold slot_stores; set_solver|done].
  - apply copied_spec. intros x Hx. apply W6, elem_of_app. by left.
  - apply Hword; [apply Hin; unfold slot_stores; set_solver|apply checksum_range].
Qed.

Lemma finished_record w : writing own s w -> w_rest w = [] -> record_ok psize bsize id (b_data s) (t_cursor (b_toc s)) (w_slot w) (w_offset w).
Proof.
  intros W Hr. destruct (finished w W Hr) as (F1 & F2 & F3 & F4 & F5 & F6). pose proof W as [_ W2 (W3 & W3' & _) W4 _].
  destruct (ow_in _ _ _ _ (lk_own _ _ _ _ _ K) _ _ _ W2) as (? & ? & ? & ? & ?). split; rewrite ?F2, ?F3, ?F4, ?F6, ?F5; done.
Qed.

End One.
End Writers.

(** * Every step keeps the invariant *)


Section Steps.
Variables (psize bsize : Z) (id : Z * Z).
Context {geo : Geometry psize bsize id}.
Abbreviation B := (Z.max psize bsize).
Abbreviation layout := (layout psize bsize id).
Abbreviation links := (links psize bsize).
Abbreviation places b := (slots_of B (t_pages (b_toc b))).
Abbreviation entries b := (t_entries (b_toc b)).
Abbreviation writing := (writing psize bsize id).
Abbreviation alive := (alive psize bsize id).
Abbreviation move := (move psize bsize id).
Abbreviation disk_inv := (disk_inv psize bsize id).

Lemma kept_old own s S k m' : alive own s S k -> kept own (b_data s) m' ->
  forall s0 off pos, s0 ∈ s :: S -> entries s0 !! off = Some pos -> agree (b_data s) m' (load (b_data s0) (pos + 16)) (load (b_data s0) (pos + 32)).
Proof. intros A Hk s0 off pos H0 He. destruct (al_old _ _ _ _ _ _ _ A s0 H0) as [_ Hr]. by apply (Hk _ _ off), Hr. Qed.

(** A change that leaves the records and the pages. *)
Lemma calm_move own own' s S s' : layout s' (b_data s') -> links own' s' (b_data s') -> entries s' = entries s -> t_pages (b_toc s') = t_pages (b_toc s) ->
  t_cursor (b_toc s) <= t_cursor (b_toc s') -> (forall off pos, entries s !! off = Some pos -> agree (b_data s) (b_data s') pos 64) ->
  (forall s0 off pos, s0 ∈ s :: S -> entries s0 !! off = Some pos -> agree (b_data s) (b_data s') (load (b_data s0) (pos + 16)) (load (b_data s0) (pos + 32))) ->
  (forall p n t, own p n t -> (forall off, t <> TWrite off) -> own' p n t) -> move own s S own' s'.
Proof.
  intros L K He Hp Hc Hs Hk Ht. split; try done.
  - split; [done|]. exists []. rewrite Hp, app_nil_r. split; [done|]. by intros p ?%elem_of_nil.
  - intros off pos pos' H1 H2. rewrite He in H2. assert (pos = pos') by congruence. subst. split; [done|]. by eapply Hs.
  - intros p n off [Ho|Ho]; [left|right]; by apply Ht.
  - intros p n off Ho. by apply Ht.
Qed.

(** The bucket itself, with another schedule. *)
Lemma same_move own s S k s' : alive own s S k -> b_disk s' = b_disk s -> b_id s' = b_id s -> b_block s' = b_block s -> b_toc s' = b_toc s -> move own s S own s'.
Proof.
  intros A E1 E2 E3 E4. pose proof (al_layout _ _ _ _ _ _ _ A) as L. assert (Hd : b_data s' = b_data s) by (unfold b_data; by rewrite E1).
  apply calm_move; rewrite ?E4, ?Hd; try done.
  - eapply layout_fields; [exact L|by rewrite ?E4..].
  - eapply links_same; [apply A|by rewrite E4..|done|by rewrite E4].
Qed.

(** ** Reserving *)

(** The facts about an open bucket, which is its own ideal. *)
Lemma open_alive own s S k f : alive own s S k -> b_file (k_bucket k) = Some f -> s = k_bucket k /\ f < b_opens (k_bucket k) /\ b_id s = id
  /\ t_cursor (b_toc s) <= b_mapped s <= im_len (b_data s) /\ NoDup (t_free (b_toc s) ++ map w_slot (k_writers k))
  /\ (forall pos, pos ∈ t_free (b_toc s) -> pos ∈ places s /\ forall off, entries s !! off <> Some pos).
Proof.
  intros A Hf. destruct (al_open _ _ _ _ _ _ _ A f Hf) as (-> & H1 & H2). destruct (al_free _ _ _ _ _ _ _ A ltac:(by rewrite Hf)) as [H3 H4].
  split_and!; try done; try apply H2. apply A.
Qed.

Lemma reserve_alive own s S k offset data b w : alive own s S k -> is_uint64 offset -> offset mod fileCount = id.2 -> (offset ∉ map w_offset (k_writers k)) ->
  reserve offset data (k_bucket k) = (b, Reserved w) -> exists own' s', alive own' s' (s :: S) (advance b (w :: k_writers k) (k_job k) k).
Proof.
  intros A Ho Hm Hnw Hr. unfold reserve in Hr. destruct (b_file (k_bucket k)) as [f|] eqn:Hf; [|done].
  destruct (open_alive _ _ _ _ _ A Hf) as (Hs & Hf' & Hid & [Hc1 Hc2] & Hnd & Hfree). rewrite <- Hs in *.
  case_bool_decide as He; [done|]. apply eq_None_not_Some in He. destruct (list.last (t_free (b_toc s))) as [slot|] eqn:Hl; [|done].
  destruct (Z.leb_spec (t_cursor (b_toc s) + record_size s data) (b_mapped s)) as [Hfit|]; [|done].
  set (n := record_size s data) in *. set (c := t_cursor (b_toc s)) in *. set (m := b_data s) in *.
  set (b1 := with_toc (with_cursor (c + n) (with_free (removelast (t_free (b_toc s))) (b_toc s))) s) in *.
  assert (Hb : b = with_disk (Some (save m slot 0)) b1) by (by simplify_eq). assert (Hw : w = mkWriter offset slot c n data (copy_stores c data ++ slot_stores offset slot c n data)) by (by simplify_eq). clear Hr.
  pose proof (al_layout _ _ _ _ _ _ _ A) as L. pose proof (al_links _ _ _ _ _ _ _ A) as K. pose proof (B_min psize bsize id) as HB.
  destruct (ly_cursor _ _ _ _ _ L) as (C1 & C2 & C3). pose proof (align_spec psize bsize id (Z.max (blen data) 1) ltac:(lia)) as Hn.
  assert (Hna : align (Z.max (blen data) 1) B = n) by (subst n; unfold record_size; by rewrite (ly_block _ _ _ _ _ L)). rewrite Hna in Hn.
  destruct Hn as (N1 & N2 & N3). assert (Hsl : slot ∈ t_free (b_toc s)) by (rewrite last_lookup in Hl; by apply list_elem_of_lookup_2 in Hl).
  destruct (Hfree slot Hsl) as [Hpl Hne].
  assert (L1 : layout b1 m) by (apply (layout_room psize bsize id _ _ _ _ L); [by apply Z.divide_add_r|subst c m; lia]).
  assert (K1 : links own b1 m) by (eapply links_same; [exact K|done..|cbn; lia]).
  assert (Q : quiet psize bsize b1 m (save m slot 0)).
  { apply (quiet_slot _ _ _ L1 K1 _ slot); [done|done|done| |]; [by rewrite load_save|]. intros i Hi. by apply slot_store_out. }
  pose proof (quiet_layout psize bsize id _ _ _ L1 Q) as L2. pose proof (links_quiet _ _ K1 _ Q) as K2. rewrite <- Hb in L2, K2.
  exists (give c n (TWrite offset) own), b. assert (Hbd : b_data b = save m slot 0) by (by rewrite Hb).
  assert (Hbt : b_toc b = b_toc b1) by (by rewrite Hb). assert (Hk : kept own m (save m slot 0)) by (by apply (kept_store psize bsize id L K slot Hpl)).
  assert (Hgive : forall p' n' t', own p' n' t' -> give c n (TWrite offset) own p' n' t') by (intros; eapply give_new; [apply K|done]).
  assert (K3 : links (give c n (TWrite offset) own) b (b_data b)).
  { rewrite Hbd. split; [rewrite Hbt; apply owned_new; [apply K|done|done|lia|lia]|intros; by apply Hgive, K2|intros; by apply Hgive, K2]. }
  assert (M : move own s S (give c n (TWrite offset) own) b).
  { apply calm_move; rewrite ?Hbd; [done|by rewrite <- Hbd|by rewrite Hbt..|rewrite Hbt; cbn; lia| |by eapply kept_old|intros; by apply Hgive].
    intros off pos Hp. by apply (qt_live _ _ _ _ _ Q off pos). }
  destruct (proj1 (last_Some (t_free (b_toc s)) slot) Hl) as [l' Hl']. assert (Hrl : removelast (t_free (b_toc s)) = l') by (by rewrite Hl', removelast_last).
  assert (Hperm : t_free (b_toc s) ++ map w_slot (k_writers k) ≡ₚ l' ++ slot :: map w_slot (k_writers k)) by (by rewrite Hl', <- app_assoc).
  assert (Hfr : t_free (b_toc b) = l') by (by rewrite Hbt; cbn).
  eapply alive_push; [exact A|exact M|split; done|by rewrite Hb|by rewrite Hb, <- Hs|by rewrite Hb, <- Hs|intros f' Hf''; left; by rewrite Hb in Hf''; rewrite <- Hs|..].
  - intros f' Hf''. rewrite Hbd, Hb in *. cbn in *. split_and!; [done| |lia|done]. congruence.
  - intros Hx. rewrite Hb in Hx. cbn in Hx. congruence.
  - intros _. rewrite Hfr. cbn [map]. rewrite Hw at 1. cbn [w_slot]. split; [by rewrite <- Hperm|]. intros pos Hp. rewrite Hbt. apply Hfree. rewrite Hl'. apply elem_of_app. by left.
  - assert (Hnw' : slot ∉ map w_slot (k_writers k)). { rewrite Hl' in Hnd. rewrite <- app_assoc in Hnd. apply list.NoDup_app in Hnd as (_ & _ & [? _]%list.NoDup_cons). done. }
    intros w' [-> |Hw']%elem_of_cons.
    + rewrite Hw. split; cbn [w_slot w_pos w_size w_offset w_data w_rest]; rewrite ?Hbt; try done; [by left|lia|]. exists []. split; [done|]. by intros x ?%elem_of_nil.
    + pose proof (al_writers _ _ _ _ _ _ _ A w' Hw') as W. destruct (wr_slot _ _ _ _ _ _ W) as [W1 W2], (wr_off _ _ _ _ _ _ W) as (_ & _ & W3). pose proof (wr_own _ _ _ _ _ _ W) as W4.
      eapply writing_frame; [exact W|..]; rewrite ?Hbt, ?Hbd; try done; [by apply Hgive| |].
      * apply slot_store_agree. destruct (slot_extent _ _ _ L K slot _ _ _ Hpl W4); [done|unfold apart; lia..].
      * apply slot_store_agree. apply (slot_of_other psize bsize id L _ _ W Hpl). intros ->. apply Hnw'. by apply list_elem_of_fmap_2.
  - cbn [map]. rewrite Hw at 1. cbn [w_offset]. apply list.NoDup_cons. split; [done|apply A].
  - rewrite Hb. cbn. intros p n' Hp. rewrite Hs in Hp. destruct (al_punches _ _ _ _ _ _ _ A p n' Hp) as [o Ho']. exists o. by apply Hgive.
Qed.
(** ** Storing *)

(** A writer's store: where it goes, and what it leaves. *)
Lemma writer_open own s S k w : alive own s S k -> w ∈ k_writers k -> exists f, b_file (k_bucket k) = Some f.
Proof. intros A Hw. destruct (b_file (k_bucket k)) eqn:Hf; [eauto|]. destruct (al_closed _ _ _ _ _ _ _ A Hf) as [_ Hn]. rewrite Hn in Hw. by apply elem_of_nil in Hw. Qed.

Lemma store_quiet own s w x : layout s (b_data s) -> links own s (b_data s) -> writing own s w -> x ∈ stores_of w ->
  quiet psize bsize s (b_data s) (write (b_data s) x.1 x.2) /\ kept own (b_data s) (write (b_data s) x.1 x.2).
Proof.
  intros L K W Hx. pose proof (unpublished _ _ _ L w W) as Hun. destruct (wr_slot _ _ _ _ _ _ W) as [W1 W2]. pose proof (wr_own _ _ _ _ _ _ W) as W3.
  destruct (store_within _ _ _ w x W Hx) as [[H1 H2]|[H1 H2]].
  - assert (Ho : forall i, ~ (w_pos w <= i < w_pos w + w_size w) -> byte_at (write (b_data s) x.1 x.2) i = byte_at (b_data s) i) by (intros i Hi; apply byte_write_out; lia).
    split; [by eapply (quiet_extent _ _ _ L K); [exact W3|done..|apply len_write|]|by eapply (kept_extent _ _ K); [exact W3|..]].
  - assert (Ho : forall i, ~ (w_slot w <= i < w_slot w + 64) -> byte_at (write (b_data s) x.1 x.2) i = byte_at (b_data s) i) by (intros i Hi; apply byte_write_out; lia).
    split; [|by apply (kept_slot _ _ _ L K _ (w_slot w))]. apply (quiet_slot _ _ _ L K _ (w_slot w)); [done|done|apply len_write| |done].
    rewrite <- (load_agree (b_data s)); [done|]. apply agree_sym, write_agree. right. lia.
Qed.

(** Two writers share neither slot nor blocks. *)
Lemma store_other own s w w' x : layout s (b_data s) -> links own s (b_data s) -> writing own s w -> writing own s w' -> w_offset w <> w_offset w' -> w_slot w <> w_slot w' ->
  x ∈ stores_of w -> agree (b_data s) (write (b_data s) x.1 x.2) (w_pos w') (w_size w') /\ agree (b_data s) (write (b_data s) x.1 x.2) (w_slot w') 64.
Proof.
  intros L K W W' Hno Hns Hx. pose proof (wr_own _ _ _ _ _ _ W) as O1. pose proof (wr_own _ _ _ _ _ _ W') as O2. destruct (wr_slot _ _ _ _ _ _ W) as [S1 _], (wr_slot _ _ _ _ _ _ W') as [S2 _].
  assert (Hpos : w_pos w <> w_pos w') by (intros He; rewrite He in O1; destruct (ow_fun _ _ _ _ (lk_own _ _ _ _ _ K) _ _ _ _ _ O1 O2) as [_ [=]]; done).
  pose proof (ow_apart _ _ _ _ (lk_own _ _ _ _ _ K) _ _ _ _ _ _ O1 O2 Hpos) as A1. pose proof (slot_of_other psize bsize id L _ _ W' S1 Hns) as A2.
  assert (A3 : apart (w_pos w) (w_size w) (w_slot w') 64) by (by apply (slot_extent _ _ _ L K _ _ _ _ S2 O1)).
  assert (A4 : apart (w_pos w') (w_size w') (w_slot w) 64) by (by apply (slot_extent _ _ _ L K _ _ _ _ S1 O2)).
  split; apply agree_sym, write_agree; destruct (store_within _ _ _ w x W Hx); unfold apart in *; lia.
Qed.

Lemma NoDup_middle {A} (l1 l2 : list A) x : NoDup (l1 ++ x :: l2) -> (forall y, y ∈ l1 ++ l2 -> y <> x) /\ NoDup (l1 ++ l2).
Proof. rewrite <- Permutation_middle. intros [H1 H2]%list.NoDup_cons. split; [|done]. by intros y Hy ->. Qed.

Lemma other_writers own s S k l1 w l2 : alive own s S k -> k_writers k = l1 ++ w :: l2 -> b_file (k_bucket k) <> None ->
  forall w', w' ∈ l1 ++ l2 -> writing own s w' /\ w_offset w <> w_offset w' /\ w_slot w <> w_slot w'.
Proof.
  intros A Hw Hf w' Hw'. split; [apply A; rewrite Hw; set_solver|]. destruct (al_free _ _ _ _ _ _ _ A Hf) as [Hn _]. pose proof (al_offsets _ _ _ _ _ _ _ A) as Ho.
  rewrite Hw, map_app in Hn, Ho. cbn [map] in Hn, Ho. apply list.NoDup_app in Hn as (_ & _ & Hn). apply NoDup_middle in Hn as [Hn _], Ho as [Ho _].
  split; intros He; [apply (Ho (w_offset w'))|apply (Hn (w_slot w'))]; try done; rewrite <- map_app; by apply list_elem_of_fmap_2.
Qed.

Lemma store_alive own s S k l1 w l2 x rest : alive own s S k -> k_writers k = l1 ++ w :: l2 -> w_rest w = x :: rest ->
  exists own' s', alive own' s' (s :: S)
    (advance (b_store x.1 x.2 (k_bucket k)) (l1 ++ mkWriter (w_offset w) (w_slot w) (w_pos w) (w_size w) (w_data w) rest :: l2) (k_job k) k).
Proof.
  intros A Hw Hr. assert (Hin : w ∈ k_writers k) by (rewrite Hw; set_solver). destruct (writer_open _ _ _ _ _ A Hin) as [f Hf].
  destruct (open_alive _ _ _ _ _ A Hf) as (Hs & Hf' & Hid & [Hc1 Hc2] & Hnd & Hfree). pose proof (other_writers _ _ _ _ _ _ _ A Hw ltac:(by rewrite Hf)) as Hoth. rewrite <- Hs in *.
  pose proof (al_layout _ _ _ _ _ _ _ A) as L. pose proof (al_links _ _ _ _ _ _ _ A) as K. pose proof (al_writers _ _ _ _ _ _ _ A w Hin) as W.
  destruct (wr_done _ _ _ _ _ _ W) as (done & D1 & D2). rewrite Hr in D1. assert (Hx : x ∈ stores_of w) by (rewrite D1; set_solver).
  destruct (store_quiet own s w x L K W Hx) as [Q Hk]. set (m' := write (b_data s) x.1 x.2) in *. set (b := with_disk (Some m') s).
  change (b_store x.1 x.2 s) with b. exists own, b. change m' with (b_data b) in Q, Hk.
  pose proof (quiet_layout psize bsize id _ _ _ L Q) as L'. pose proof (links_quiet _ _ K _ Q) as K'.
  assert (M : move own s S own b).
  { apply calm_move; try done; [|by eapply kept_old]. intros off pos Hp. by apply (qt_live _ _ _ _ _ Q off pos). }
  eapply alive_push; [exact A|exact M|split; done|done|by rewrite <- Hs|by rewrite <- Hs|intros f' Hf''; left; by rewrite <- Hs|..].
  - intros f' Hf''. split_and!; [done| |done|]; [cbn in Hf''; assert (f' = f) as -> by congruence; exact Hf'|]. change (b_data b) with m'. subst m'. by rewrite len_write.
  - intros Hx'. cbn in Hx'. congruence.
  - intros _. split; [|exact Hfree]. rewrite Hw in Hnd. by rewrite map_app in *.
  - intros w' Hw'. assert (w' = mkWriter (w_offset w) (w_slot w) (w_pos w) (w_size w) (w_data w) rest \/ w' ∈ l1 ++ l2) as [-> |Hw''] by set_solver.
    + pose proof W as [W1 W2 W3 W4 _]. split; cbn [w_slot w_pos w_size w_offset w_data w_rest]; try done. exists (done ++ [x]). split; [by rewrite <- app_assoc|].
      intros y [Hy|Hy%list_elem_of_singleton]%elem_of_app; [|subst y; apply read_write]. rewrite <- (D2 y Hy) at 2. symmetry. apply read_agree, agree_sym, write_agree.
      destruct (stores_ordered _ _ _ L K w _ _ _ W D1 y Hy); unfold apart; lia.
    + destruct (Hoth w' Hw'') as (W' & O1 & O2). destruct (store_other own s w w' x L K W W' O1 O2 Hx). pose proof W' as [[W1 W1'] W2 (_ & _ & W3) _ _].
      by eapply writing_frame; [exact W'|..].
  - pose proof (al_offsets _ _ _ _ _ _ _ A) as Ho. rewrite Hw in Ho. by rewrite map_app in *.
  - cbn. rewrite Hs. apply A.
Qed.

(** ** Publishing *)

Lemma publish_alive own s S k l1 w l2 now : alive own s S k -> k_writers k = l1 ++ w :: l2 -> w_rest w = [] ->
  exists own' s', alive own' s' (s :: S) (advance (publish now w (k_bucket k)) (l1 ++ l2) (k_job k) k).
Proof.
  intros A Hw Hr. assert (Hin : w ∈ k_writers k) by (rewrite Hw; set_solver). destruct (writer_open _ _ _ _ _ A Hin) as [f Hf].
  destruct (open_alive _ _ _ _ _ A Hf) as (Hs & Hf' & Hid & [Hc1 Hc2] & Hnd & Hfree). pose proof (other_writers _ _ _ _ _ _ _ A Hw ltac:(by rewrite Hf)) as Hoth. rewrite <- Hs in *.
  pose proof (al_layout _ _ _ _ _ _ _ A) as L. pose proof (al_links _ _ _ _ _ _ _ A) as K. pose proof (al_writers _ _ _ _ _ _ _ A w Hin) as W.
  destruct (finished _ _ _ L K w W Hr) as (F1 & F2 & F3 & F4 & F5 & F6). pose proof W as [[W1 W1'] W2 (W3 & W3' & W3'') W4 _].
  assert (Hown : own (load (b_data s) (w_slot w + 16)) (load (b_data s) (w_slot w + 32)) (TWrite (w_offset w))) by (by rewrite F2, F4).
  pose proof (layout_publish _ _ _ L K _ W1 _ W1' W3'' F1 (finished_record _ _ _ L K w W Hr) Hown) as L'.
  pose proof (links_publish _ _ _ L K _ W1 _ W1' Hown) as K'. rewrite F2, F4 in K'. set (m' := save (b_data s) (w_slot w) published) in *.
  set (own' := give (w_pos w) (w_size w) (TLive (w_offset w)) own) in *. set (b := publish now w s). exists own', b.
  assert (Lb : layout b (b_data b)) by (by eapply layout_fields). assert (Kb : links own' b (b_data b)) by (by eapply links_same).
  assert (Hgive : forall p n t, own p n t -> t <> TWrite (w_offset w) -> own' p n t) by (intros p n t Ho Ht; eapply give_there; [apply K|exact W2|done|done]).
  assert (Hen : entries b = <[ w_offset w := w_slot w ]> (entries s)) by done. change m' with (b_data b) in *.
  assert (M : move own s S own' b).
  { split; try done.
    - split; [done|]. exists []. rewrite app_nil_r. split; [done|]. by intros p ?%elem_of_nil.
    - intros off pos pos' H1. rewrite Hen, lookup_insert_ne by congruence. intros H2. split; [congruence|]. pose proof (ly_entries _ _ _ _ _ L off pos) as He.
      destruct (proj1 He H1) as [Hp _]. apply (slot_store_other _ _ _ L _ W1 _ _ Hp). intros ->. by apply (W1' off).
    - eapply kept_old; [exact A|]. by apply (kept_store psize bsize id L K).
    - intros p n off [Ho|Ho]; [left|right]; by apply Hgive.
    - intros p n off Ho. by apply Hgive. }
  eapply alive_push; [exact A|exact M|split; done|done|by rewrite <- Hs|by rewrite <- Hs|intros f' Hf''; left; by rewrite <- Hs|..].
  - intros f' Hf''. split_and!; [done| |done|done]. cbn in Hf''. assert (f' = f) as -> by congruence. exact Hf'.
  - intros Hx'. cbn in Hx'. congruence.
  - intros _. rewrite Hw, map_app in Hnd. cbn [map] in Hnd. change (t_free (b_toc b)) with (t_free (b_toc s)). rewrite app_assoc in Hnd. apply NoDup_middle in Hnd as [Hn1 Hn2].
    rewrite <- app_assoc, <- map_app in Hn1, Hn2. split; [done|]. intros pos Hp. destruct (Hfree pos Hp) as [H1 H2]. split; [exact H1|]. intros off.
    rewrite Hen. intros [[_ <-]|[_ ?]]%lookup_insert_Some; [|by apply (H2 off)]. apply (Hn1 (w_slot w)); [|done]. apply elem_of_app. by left.
  - intros w' Hw'. destruct (Hoth w' Hw') as (W' & O1 & O2). pose proof W' as [[V1 V1'] V2 (_ & _ & V3) _ _].
    eapply writing_frame; [exact W'|done| | |by apply Hgive; [|congruence]| |].
    + rewrite Hen. by rewrite lookup_insert_ne.
    + intros off. rewrite Hen. intros [[_ ?]|[_ ?]]%lookup_insert_Some; [done|by apply (V1' off)].
    + apply slot_store_agree. destruct (slot_extent _ _ _ L K _ _ _ _ W1 V2); [done|unfold apart; lia..].
    + apply slot_store_agree. by apply (slot_of_other psize bsize id L _ _ W').
  - pose proof (al_offsets _ _ _ _ _ _ _ A) as Ho. rewrite Hw, map_app in Ho. rewrite map_app. by apply NoDup_middle in Ho as [_ Ho].
  - intros p n Hp. cbn in Hp. rewrite Hs in Hp. destruct (al_punches _ _ _ _ _ _ _ A p n Hp) as [o Ho]. exists o. by apply Hgive.
Qed.
End Steps.

(** * Deleting, making room, creating and removing the file *)


Section Room.
Variables (psize bsize : Z) (id : Z * Z).
Context {geo : Geometry psize bsize id}.
Abbreviation B := (Z.max psize bsize).
Abbreviation layout := (layout psize bsize id).
Abbreviation links := (links psize bsize).
Abbreviation places b := (slots_of B (t_pages (b_toc b))).
Abbreviation entries b := (t_entries (b_toc b)).
Abbreviation writing := (writing psize bsize id).
Abbreviation alive := (alive psize bsize id).
Abbreviation move := (move psize bsize id).
Abbreviation absent := (absent id).
Abbreviation disk_inv := (disk_inv psize bsize id).

(** ** Deleting *)

Lemma delete_alive own s S k now off b : alive own s S k -> delete_entry now off (k_bucket k) = Some (b, true) ->
  exists own' s', alive own' s' (s :: S) (advance b (k_writers k) (k_job k) k).
Proof.
  intros A Hd. unfold delete_entry in Hd. destruct (entries (k_bucket k) !! off) as [pos|] eqn:He; [|done]. destruct (Z.leb_spec (b_mapped (k_bucket k)) pos) as [|Hmap]; [done|].
  pose proof (al_layout _ _ _ _ _ _ _ A) as L. pose proof (al_links _ _ _ _ _ _ _ A) as K. destruct (al_ideal _ _ _ _ _ _ _ A) as [[_ Hie] _].
  assert (Hes : entries s !! off = Some pos) by (by rewrite Hie). pose proof (ly_entries _ _ _ _ _ L off pos) as Hen. destruct (proj1 Hen Hes) as [Hpl _].
  destruct (slot_at _ _ _ L pos Hpl) as (p & Hp & _ & Hp1 & _). destruct (ly_pages _ _ _ _ _ L p Hp) as (_ & Hp2 & _). pose proof (B_min psize bsize id) as HB.
  destruct (b_file (k_bucket k)) as [f|] eqn:Hf; [|destruct (al_closed _ _ _ _ _ _ _ A Hf); lia].
  destruct (open_alive _ _ _ _ _ _ _ _ A Hf) as (Hs & Hf' & Hid & [Hc1 Hc2] & Hnd & Hfree). rewrite <- Hs in *.
  pose proof (layout_delete _ _ _ L K _ Hpl off deleted Hes ltac:(done) ltac:(done)) as L'. pose proof (links_delete _ _ _ L K _ Hpl off deleted Hes) as K'.
  set (m' := save (b_data s) pos deleted) in *. set (own' := give (load (b_data s) (pos + 16)) (load (b_data s) (pos + 32)) (TDead off) own) in *.
  injection Hd as Hb. exists own', b.
  assert (Lb : layout b (b_data b)) by (rewrite <- Hb; eapply layout_fields; [exact L'|done..]).
  assert (Kb : links own' b (b_data b)) by (rewrite <- Hb; eapply links_same; [exact K'|done..]).
  assert (Hbd : b_data b = m') by (by rewrite <- Hb). assert (Hbe : entries b = delete off (entries s)) by (by rewrite <- Hb).
  pose proof (lk_live _ _ _ _ _ K _ _ Hes) as Hlive.
  assert (Hgive : forall p n t, own p n t -> t <> TLive off -> own' p n t) by (intros p' n t Ho Ht; eapply give_there; [apply K|exact Hlive|done|done]).
  assert (Hdead : forall p n o, own p n (TDead o) -> own' p n (TDead o)) by (intros; by apply Hgive).
  assert (M : move own s S own' b).
  { split; try done.
    - rewrite <- Hb. split; [done|]. exists []. rewrite app_nil_r. split; [done|]. by intros p' ?%elem_of_nil.
    - intros o q q' H1. rewrite Hbe. intros [Hne H2]%lookup_delete_Some. split; [congruence|]. pose proof (ly_entries _ _ _ _ _ L o q) as Hq.
      destruct (proj1 Hq H1) as [Hqp _]. rewrite Hbd. apply (slot_store_other _ _ _ L _ Hpl _ _ Hqp). intros ->. apply Hne. by eapply (slot_entry _ _ _ L).
    - rewrite Hbd. eapply kept_old; [exact A|]. by apply (kept_store psize bsize id L K).
    - intros q n o [Ho|Ho]; [|right; auto]. destruct (decide (q = load (b_data s) (pos + 16))) as [-> |Hq]; [|left; right; by split].
      destruct (ow_fun _ _ _ _ (lk_own _ _ _ _ _ K) _ _ _ _ _ Hlive Ho) as [<- [= <-]]. right. apply give_here. }
  eapply alive_push; [exact A|exact M|split; done|by rewrite <- Hb|by rewrite <- Hb, <- Hs|by rewrite <- Hb, <- Hs|intros f' Hf''; left; rewrite <- Hb in Hf''; by rewrite <- Hs|..].
  - intros f' Hf''. rewrite <- Hb in Hf'' |- *. cbn in Hf''. assert (f' = f) as -> by congruence. by split_and!.
  - intros Hx'. rewrite <- Hb in Hx'. cbn in Hx'. congruence.
  - intros _. assert (Hfr : t_free (b_toc b) = t_free (b_toc s) ++ [pos]) by (by rewrite <- Hb). assert (Hbp : places b = places s) by (by rewrite <- Hb). rewrite Hfr, Hbp, Hbe. split.
    + rewrite <- app_assoc. cbn. rewrite <- Permutation_middle. apply list.NoDup_cons. split; [|done]. intros [Hx|Hx]%elem_of_app; [by apply (Hfree pos Hx) in Hes|].
      apply list_elem_of_fmap in Hx as (w & Hw1 & Hw2). destruct (wr_slot _ _ _ _ _ _ (al_writers _ _ _ _ _ _ _ A w Hw2)) as [_ Hw]. apply (Hw off). by rewrite <- Hw1.
    + intros q [Hq|Hq%list_elem_of_singleton]%elem_of_app.
      * destruct (Hfree q Hq) as [H1 H2]. split; [done|]. intros o [_ Ho]%lookup_delete_Some. by apply (H2 o).
      * subst q. split; [done|]. intros o [Hne Ho]%lookup_delete_Some. apply Hne. by eapply (slot_entry _ _ _ L).
  - intros w Hw. pose proof (al_writers _ _ _ _ _ _ _ A w Hw) as W. pose proof W as [[W1 W1'] W2 (_ & _ & W3) _ _].
    eapply writing_frame; [exact W|by rewrite <- Hb| | |by apply Hgive| |].
    + rewrite Hbe. by rewrite lookup_delete_None; right.
    + intros o. rewrite Hbe. intros [_ Ho]%lookup_delete_Some. by apply (W1' o).
    + rewrite Hbd. apply slot_store_agree. destruct (slot_extent _ _ _ L K _ _ _ _ Hpl W2); [done|unfold apart; lia..].
    + rewrite Hbd. apply slot_store_agree. apply (slot_of_other psize bsize id L _ _ W Hpl). intros ->. by apply (W1' off).
  - apply A.
  - intros q n Hq. rewrite <- Hb in Hq. cbn in Hq. apply elem_of_app in Hq as [Hq|Hq%list_elem_of_singleton].
    + rewrite Hs in Hq. destruct (al_punches _ _ _ _ _ _ _ A q n Hq) as [o Ho]. exists o. auto.
    + injection Hq as -> ->. exists off. apply give_here.
Qed.

(** ** Making room *)

(** A change that only adds. *)
Record grows (own : owner) (s : bucket) (own' : owner) (s' : bucket) : Prop := {
  gr_layout : layout s' (b_data s');
  gr_links : links own' s' (b_data s');
  gr_entries : entries s' = entries s;
  gr_cursor : t_cursor (b_toc s) <= t_cursor (b_toc s');
  gr_pages : exists l, t_pages (b_toc s') = t_pages (b_toc s) ++ l /\ forall p, p ∈ l -> t_cursor (b_toc s) <= p;
  gr_slots : forall off pos, entries s !! off = Some pos -> agree (b_data s) (b_data s') pos 64;
  gr_kept : kept own (b_data s) (b_data s');
  gr_tags : forall p n t, own p n t -> own' p n t;
}.

Lemma grows_trans own s own1 s1 own2 s2 : grows own s own1 s1 -> grows own1 s1 own2 s2 -> grows own s own2 s2.
Proof.
  intros [A1 A2 A3 A4 (l1 & A5 & A5') A6 A7 A8] [B1 B2 B3 B4 (l2 & B5 & B5') B6 B7 B8]. split; try done.
  - congruence.
  - lia.
  - exists (l1 ++ l2). split; [by rewrite B5, A5, app_assoc|]. intros p [Hp|Hp]%elem_of_app; [auto|]. specialize (B5' p Hp). lia.
  - intros off pos He. eapply agree_trans; [by eapply A6|]. eapply B6. by rewrite A3.
  - intros p n off Ho. eapply agree_trans; [by eapply A7|]. eapply B7. destruct Ho; [left|right]; eauto.
  - auto.
Qed.

Lemma grows_refl own s : layout s (b_data s) -> links own s (b_data s) -> grows own s own s.
Proof. intros L K. split; try done. exists []. rewrite app_nil_r. split; [done|]. by intros p ?%elem_of_nil. Qed.

Lemma grows_move own s S k own' s' : alive own s S k -> grows own s own' s' -> move own s S own' s'.
Proof.
  intros A [G1 G2 G3 G4 G5 G6 G7 G8]. split; try done.
  - intros off pos pos' H1 H2. rewrite G3 in H2. assert (pos = pos') by congruence. subst. split; [done|]. by eapply G6.
  - by eapply kept_old.
  - intros p n off [Ho|Ho]; [left|right]; auto.
  - auto.
Qed.

(** An open bucket nobody writes to. *)
Record sound (own : owner) (b : bucket) : Prop := {
  so_layout : layout b (b_data b);
  so_links : links own b (b_data b);
  so_file : exists f, b_file b = Some f /\ f < b_opens b;
  so_mapped : t_cursor (b_toc b) <= b_mapped b <= im_len (b_data b);
  so_free : NoDup (t_free (b_toc b)) /\ forall pos, pos ∈ t_free (b_toc b) -> pos ∈ places b /\ forall off, entries b !! off <> Some pos;
}.

Lemma sound_grows own b : sound own b -> grows own b own b.
Proof. intros []. by apply grows_refl. Qed.

(** Same bytes, another length. *)
Lemma resized own b b' n : sound own b -> b_disk b' = Some (truncate (b_data b) n) -> b_id b' = b_id b -> b_block b' = b_block b -> b_toc b' = b_toc b ->
  t_cursor (b_toc b) <= n -> (B | n) -> n < 2 ^ 64 -> grows own b own b' /\ b_data b' = truncate (b_data b) n.
Proof.
  intros [L K _ _ _] E1 E2 E3 E4 Hc Hd Hn. assert (Hbd : b_data b' = truncate (b_data b) n) by (unfold b_data at 1; by rewrite E1). split; [|done].
  assert (Hb : forall i, byte_at (truncate (b_data b) n) i = byte_at (b_data b) i).
  { intros i. rewrite byte_truncate. destruct (Z.ltb_spec i n); [done|]. symmetry. apply (ly_zero _ _ _ _ _ L). lia. }
  assert (Ha : forall a k, agree (b_data b) (b_data b') a k) by (intros a k i _; by rewrite Hbd, Hb). destruct (ly_cursor _ _ _ _ _ L) as (C1 & C2 & C3).
  split; rewrite ?E4; try done.
  - rewrite Hbd. apply (layout_same psize bsize id b b' (b_data b)); rewrite ?E4; try done; cbn; lia.
  - rewrite Hbd. eapply links_same; [exact K|by rewrite ?E4..].
  - exists []. rewrite app_nil_r. split; [done|]. by intros p ?%elem_of_nil.
  - intros ? ? ? _. apply Ha.
Qed.

Lemma grown_size size : size <= max_int64 -> 0 < size -> size <= align size (2 ^ 20) < 2 ^ 64 /\ (B | align size (2 ^ 20)).
Proof.
  intros H1 H2. unfold align, max_int64 in *. pose proof (Z.div_mod (size + 2 ^ 20 - 1) (2 ^ 20) ltac:(lia)). pose proof (Z.mod_pos_bound (size + 2 ^ 20 - 1) (2 ^ 20) ltac:(lia)).
  split; [lia|]. eapply Z.divide_trans; [apply (geo_grow psize bsize id)|]. apply Z.divide_factor_r.
Qed.

Lemma grow_sound os own b size b' err : sound own b -> 0 < size -> grow os size b = (b', err) -> grows own b own b' /\ b_opens b' = b_opens b /\ b_id b' = b_id b /\ b_sched b' = b_sched b
  /\ b_toc b' = b_toc b /\ (b_file b' = b_file b /\ t_cursor (b_toc b') <= b_mapped b' <= im_len (b_data b') \/ b_file b' = None /\ b_mapped b' = 0)
  /\ (err = None -> b_file b' = b_file b /\ size <= b_mapped b').
Proof.
  intros So Hpos Hg. pose proof So as [L K [f [Hf Hf']] Hm Hfr]. unfold grow in Hg. destruct (Z.leb_spec size (b_mapped b)) as [|Hgt].
  { simplify_eq. split; [by apply sound_grows|]. split_and!; try done. by left. }
  destruct (Z.ltb_spec max_int64 size); [simplify_eq; split; [by apply sound_grows|]; split_and!; try done; by left|].
  destruct (grown_size size) as [[G1 G2] G3]; [done|done|]. set (n := align size (2 ^ 20)) in *.
  destruct (os_unmap os); cbn [negb] in Hg; [|simplify_eq; split; [by apply sound_grows|]; split_and!; try done; by left].
  destruct (os_truncate os) eqn:Ht; cbn [andb] in Hg.
  - set (m := truncate (b_data b) n) in *. destruct (os_map os); [|destruct (os_remap os)]; injection Hg as <- <-.
    + destruct (resized own b (with_mapping n m b) n So) as [G Hd]; try done; [lia|]. split; [done|]. split_and!; try done. left. split; [done|]. rewrite Hd. cbn. lia.
    + destruct (resized own b (with_disk (Some m) b) n So) as [G Hd]; try done; [lia|]. split; [done|]. split_and!; try done. left. split; [done|]. rewrite Hd. cbn. lia.
    + destruct (resized own b (b_close (with_disk (Some m) b)) n So) as [G Hd]; try done; [lia|]. split; [done|]. split_and!; try done. by right.
  - assert (Hsame : forall b1, b_disk b1 = b_disk b -> b_id b1 = b_id b -> b_block b1 = b_block b -> b_toc b1 = b_toc b -> grows own b own b1).
    { intros b1 E1 E2 E3 E4. assert (Hbd : b_data b1 = b_data b) by (unfold b_data; by rewrite E1).
      split; rewrite ?E4, ?Hbd; try done; [eapply layout_fields; [exact L|by rewrite ?E4..]|eapply links_same; [exact K|by rewrite E4..|done|by rewrite E4]|].
      exists []. rewrite app_nil_r. split; [done|]. by intros p ?%elem_of_nil. }
    pose proof (ly_disk _ _ _ _ _ L) as Hd. destruct (os_remap os); injection Hg as <- <-; (split; [by apply Hsame|]); split_and!; try done; [by left|by right].
Qed.

Lemma page_sound own b : sound own b -> t_cursor (b_toc b) + B <= b_mapped b -> grows own b (give (t_cursor (b_toc b)) B TPage own) (add_page b) /\ sound (give (t_cursor (b_toc b)) B TPage own) (add_page b).
Proof.
  intros [L K Hf Hm [Hn Hfr]] Hr. assert (Hr' : t_cursor (b_toc b) + B <= im_len (b_data b)) by lia. pose proof (ly_block _ _ _ _ _ L) as Hbk.
  pose proof (layout_page _ _ _ L K Hr') as L'. pose proof (links_page _ _ _ L K) as K'.
  assert (Hbd : b_data (add_page b) = save (clear (b_data b) (t_cursor (b_toc b)) B) (t_lastPage (b_toc b)) (t_cursor (b_toc b))) by (unfold add_page; by rewrite Hbk).
  assert (Hpg : t_pages (b_toc (add_page b)) = t_pages (b_toc b) ++ [t_cursor (b_toc b)]) by (unfold add_page; by rewrite Hbk).
  assert (Hcu : t_cursor (b_toc (add_page b)) = t_cursor (b_toc b) + B) by (unfold add_page; by rewrite Hbk).
  pose proof (B_min psize bsize id) as HB. destruct (ly_cursor _ _ _ _ _ L) as (C1 & C2 & C3). rewrite <- Hbd in L', K'. split.
  - split; try done.
    + lia.
    + exists [t_cursor (b_toc b)]. split; [done|]. intros p Hp%list_elem_of_singleton. subst. lia.
    + intros off pos He. rewrite Hbd. apply (place_agree _ _ _ L). pose proof (ly_entries _ _ _ _ _ L off pos) as Hen. apply (proj1 Hen He).
    + rewrite Hbd. by apply (kept_page _ _ _ L K).
    + intros p n t Ho. eapply give_new; [apply K|done].
  - split; try done.
    + rewrite Hcu, Hbd. unfold save, clear. rewrite !len_write. unfold add_page. cbn. lia.
    + assert (Hfree : t_free (b_toc (add_page b)) = t_free (b_toc b) ++ slots B (t_cursor (b_toc b))) by (unfold add_page; by rewrite Hbk).
      assert (Hfar : forall pos, pos ∈ slots B (t_cursor (b_toc b)) -> pos ∉ places b).
      { intros pos Hp Hq. destruct (slot_at _ _ _ L pos Hq) as (q & Hq' & _ & ? & ?). destruct (ly_pages _ _ _ _ _ L q Hq') as (_ & _ & ?).
        apply slot_line in Hp; [|lia|apply (B_line _ _ id)|by apply (line_of psize bsize id)]. lia. }
      rewrite Hfree, Hpg. split.
      * apply list.NoDup_app. split_and!; [done| |apply NoDup_slots]. intros pos Hp Hq. apply (Hfar pos Hq). by apply Hfr.
      * intros pos Hp. apply elem_of_app in Hp as [Hp|Hp].
        -- destruct (Hfr pos Hp) as [H1 H2]. split; [|done]. unfold slots_of. rewrite flat_map_app. apply elem_of_app. by left.
        -- split; [unfold slots_of; rewrite flat_map_app; apply elem_of_app; right; cbn; by rewrite app_nil_r|]. intros off He. apply (Hfar pos Hp).
           change (entries (add_page b)) with (entries b) in He. by apply (ly_entries _ _ _ _ _ L) in He as [? _].
Qed.
End Room.
