(* ===== verification/DurTime.v ===== *)
(** * The invariant holds at every moment *)

From S2P Require Import Prelude Golib Durability DurLayout DurOpen DurSteps.

Section Time.
Variables (psize bsize : Z) (id : Z * Z).
Context {geo : Geometry psize bsize id}.
Abbreviation B := (Z.max psize bsize).
Abbreviation layout := (layout psize bsize id).
Abbreviation links := (links psize bsize).
Abbreviation places b := (slots_of B (t_pages (b_toc b))).
Abbreviation entries b := (t_entries (b_toc b)).
Abbreviation alive := (alive psize bsize id).
Abbreviation move := (move psize bsize id).
Abbreviation absent := (absent id).
Abbreviation disk_inv := (disk_inv psize bsize id).
Abbreviation sound := (sound psize bsize id).
Abbreviation grows := (grows psize bsize id).

(** The slots a load found free. *)
Lemma opened_free b m b' : layout b' m -> opened b m b' -> NoDup (t_free (b_toc b')) /\ forall pos, pos ∈ t_free (b_toc b') -> pos ∈ places b' /\ forall off, entries b' !! off <> Some pos.
Proof.
  intros L [_ _ _ _ _ (t & P & Ht)]. rewrite (ly_block _ _ _ _ _ L) in P. pose proof (pg_free _ _ _ _ _ _ _ _ P) as Hf. cbn in Hf.
  assert (Hfree : t_free (b_toc b') = List.filter (fun pos => negb (load m pos =? published)) (places b')) by (rewrite Ht at 1; exact Hf). rewrite Hfree. split.
  - apply base.NoDup_ListNoDup, List.NoDup_filter, base.NoDup_ListNoDup, (NoDup_slots_of psize bsize id); [apply L|]. by intros p (? & _)%(ly_pages _ _ _ _ _ L).
  - intros pos Hp. apply list_elem_of_In, filter_In in Hp as [Hp Hn]. apply list_elem_of_In in Hp. split; [done|]. intros off [_ [He _]]%(ly_entries _ _ _ _ _ L).
    apply negb_true_iff, Z.eqb_neq in Hn. done.
Qed.

Lemma opened_sound own b m b' : layout b' m -> links own b' m -> opened b m b' -> t_cursor (b_toc b') = im_len m -> sound own b'.
Proof.
  intros L K O Hc. pose proof (opened_free b m b' L O) as Hf. destruct O as [O1 O2 [O3 O3'] O4 O5 _]. assert (Hd : b_data b' = m) by (unfold b_data; by rewrite O1).
  split; rewrite ?Hd; try done; [eexists; split; [exact O3|lia]|lia].
Qed.

(** ** Making room *)

Definition tail_room (os : Os) (data : bytes) (b : bucket) : bucket * option dur_error :=
  let n := record_size b data in
  let extra := match t_free (b_toc b) with [] => b_block b | _ => 0 end in
  match grow os (t_cursor (b_toc b) + extra + n) b with
  | (b, Some err) => (b, Some err)
  | (b, None) => (if extra =? 0 then b else add_page b, None)
  end.

Lemma tail_sound os data own b b' err : sound own b -> tail_room os data b = (b', err) ->
  exists own', grows own b own' b' /\ b_opens b' = b_opens b /\ b_id b' = b_id b /\ b_sched b' = b_sched b
  /\ (b_file b' = b_file b /\ sound own' b' \/ b_file b' = None /\ b_mapped b' = 0)
  /\ (err = None -> sound own' b' /\ t_free (b_toc b') <> [] /\ t_cursor (b_toc b') + record_size b' data <= b_mapped b').
Proof.
  intros So Ht. pose proof So as [L K [f [Hf Hf']] Hm Hfr]. pose proof (B_min psize bsize id) as HB. destruct (ly_cursor _ _ _ _ _ L) as (C1 & C2 & C3).
  pose proof (ly_block _ _ _ _ _ L) as Hbk. pose proof (align_spec psize bsize id (Z.max (blen data) 1) ltac:(lia)) as (N1 & N2 & N3).
  assert (Hn : record_size b data = align (Z.max (blen data) 1) B) by (unfold record_size; by rewrite Hbk). unfold tail_room in Ht. cbv zeta in Ht.
  set (extra := match t_free (b_toc b) with [] => b_block b | _ => 0 end) in *. assert (He : 0 <= extra) by (subst extra; destruct (t_free (b_toc b)); lia).
  destruct (grow os (t_cursor (b_toc b) + extra + record_size b data) b) as [b1 e1] eqn:Hg.
  assert (Hpos : 0 < t_cursor (b_toc b) + extra + record_size b data) by lia.
  destruct (grow_sound psize bsize id _ _ _ _ _ _ So Hpos Hg) as (G & E1 & E2 & E3 & E4 & E5 & E6).
  assert (S1 : b_file b1 = b_file b -> t_cursor (b_toc b1) <= b_mapped b1 <= im_len (b_data b1) -> sound own b1).
  { intros Hb1 Hm1. split; [apply G|apply G|exists f; split; [congruence|lia]|done|]. rewrite E4. exact Hfr. }
  destruct e1 as [err1|].
  - injection Ht as <- <-. exists own. split_and!; try done. destruct E5 as [[? ?]|?]; [left; split; auto|by right].
  - destruct (E6 eq_refl) as [Hb1 Hs1]. assert (Hm1 : t_cursor (b_toc b1) <= b_mapped b1 <= im_len (b_data b1)) by (destruct E5 as [[? ?]|[? ?]]; [done|congruence]).
    specialize (S1 Hb1 Hm1). pose proof (ly_block _ _ _ _ _ (so_layout _ _ _ _ _ S1)) as Hbk1. assert (Hn1 : record_size b1 data = align (Z.max (blen data) 1) B) by (unfold record_size; by rewrite Hbk1).
    destruct (Z.eqb_spec extra 0) as [Hz|Hz]; injection Ht as <- <-.
    + exists own. split_and!; try done; [by left|]. intros _. split_and!; [done| |rewrite E4, Hn1; lia]. rewrite E4. subst extra. destruct (t_free (b_toc b)); [lia|done].
    + assert (Hex : extra = B) by (subst extra; destruct (t_free (b_toc b)); [done|lia]). destruct (page_sound psize bsize id own b1 S1) as [G2 S2]; [rewrite E4; lia|].
      assert (Hcu : t_cursor (b_toc (add_page b1)) = t_cursor (b_toc b1) + B) by (unfold add_page; by rewrite Hbk1).
      eexists. split; [eapply grows_trans; [exact G|exact G2]|]. split_and!; try done; [by left|]. intros _. split; [done|]. split.
      * unfold add_page. cbn. rewrite Hbk1. intros [_ Hnil]%app_eq_nil. unfold slots in Hnil. apply (f_equal length) in Hnil. rewrite length_map, length_seq in Hnil. cbn in Hnil.
        unfold slot_count, entrySize in Hnil. assert (1 <= (B - 1) / 64) by (apply Z.div_le_lower_bound; lia). lia.
      * assert (Hr : record_size (add_page b1) data = align (Z.max (blen data) 1) B) by (unfold record_size; by change (b_block (add_page b1)) with (b_block b1); rewrite Hbk1).
        change (b_mapped (add_page b1)) with (b_mapped b1). rewrite Hcu, Hr, E4. lia.
Qed.

Lemma make_room_tail os data b : make_room os data b = match (match b_file b with None => open os true b | Some _ => (b, None) end) with (b, Some err) => (b, Some err) | (b, None) => tail_room os data b end.
Proof. unfold make_room, tail_room. by destruct (match b_file b with None => _ | Some _ => _ end) as [? [?|]]. Qed.

(** An exclusive change of an existing file. *)
Lemma exclusive_push own s S k own' b' : alive own s S k -> exclusive k -> grows own s own' b' -> b_id b' = id -> b_opens (k_bucket k) <= b_opens b' ->
  s_punches (b_sched b') = s_punches (b_sched (k_bucket k)) ->
  (sound own' b' /\ (b_file b' = b_file (k_bucket k) \/ exists f, b_file b' = Some f /\ b_opens (k_bucket k) <= f) \/ b_file b' = None /\ b_mapped b' = 0) ->
  alive own' b' (s :: S) (advance b' [] (k_job k) k).
Proof.
  intros A [Hw Hj] G Hid Ho Hp Hs. eapply alive_push; try done.
  - by eapply grows_move.
  - intros j Hjk. by destruct (Hj j).
  - intros f Hf. destruct Hs as [[_ [He|(f' & He & ?)]]|[? _]]; [left; congruence|right; congruence|congruence].
  - intros f Hf. destruct Hs as [[[_ _ (f' & Hf1 & Hf2) Hm _] _]|[? _]]; [|congruence]. split_and!; [done|congruence|lia|lia].
  - intros Hf. destruct Hs as [[[_ _ (f' & Hf1 & Hf2) _ _] _]|[_ ?]]; [congruence|done].
  - intros Hf. destruct Hs as [[[_ _ _ _ Hfr] _]|[? _]]; [|done]. cbn. by rewrite app_nil_r.
  - by intros w ?%elem_of_nil.
  - constructor.
  - rewrite Hp. intros p n Hpn. destruct (al_punches _ _ _ _ _ _ _ A p n Hpn) as [o Hoo]. exists o. by apply G.
Qed.

(** Closed, with nothing changed. *)
Lemma closed_push own s S k : alive own s S k -> exclusive k -> alive own s (s :: S) (advance (b_close (k_bucket k)) [] (k_job k) k).
Proof.
  intros A [Hw Hj]. eapply alive_push; try done.
  - eapply grows_move; [exact A|]. apply grows_refl; apply A.
  - apply A.
  - apply A.
  - intros j Hjk. by destruct (Hj j).
  - by intros w ?%elem_of_nil.
  - constructor.
  - apply A.
Qed.

Lemma room_alive own s S k os data b err : alive own s S k -> machine psize bsize os -> exclusive k -> make_room os data (k_bucket k) = (b, err) ->
  (exists own' s', alive own' s' (s :: S) (advance b [] (k_job k) k)) /\ entries b = entries (k_bucket k).
Proof.
  intros A [Hps _] Hex Hr. rewrite make_room_tail in Hr. destruct (alive_disk _ _ _ _ _ _ _ A) as [Hdk Hdd]. destruct (al_ideal _ _ _ _ _ _ _ A) as [_ Hid].
  destruct (b_file (k_bucket k)) as [f|] eqn:Hf.
  - destruct (open_alive _ _ _ _ _ _ _ _ A Hf) as (Hs & Hf' & Hids & Hm & Hnd & Hfree). destruct Hex as [Hw Hj]. rewrite Hw in Hnd. cbn in Hnd. rewrite app_nil_r in Hnd.
    assert (So : sound own s) by (split; [apply A|apply A|exists f; rewrite Hs; split; [done|lia]|done|by split]). rewrite <- Hs in Hr, Hf.
    destruct (tail_sound _ _ _ _ _ _ So Hr) as (own' & G & E1 & E2 & E3 & E4 & _). split; [|rewrite <- Hs; apply G]. exists own', b. eapply exclusive_push; try done.
    + congruence.
    + rewrite <- Hs. lia.
    + by rewrite E3, Hs.
    + rewrite <- Hs. destruct E4 as [[? ?]|?]; [left; split; [done|by left]|by right].
  - destruct (open os true (k_bucket k)) as [b1 e1] eqn:Ho. destruct (reopen psize bsize id os true _ s _ b1 e1 Hps (al_layout _ _ _ _ _ _ _ A) Hdk Hid Ho) as [[-> ->]|(-> & O & L1 & Hc1 & He1 & Hp1)].
    + injection Hr as <- <-. split; [|done]. exists own, s. by apply closed_push.
    + assert (Hcle : t_cursor (b_toc s) <= t_cursor (b_toc b1)) by (rewrite Hc1; apply (ly_cursor _ _ _ _ _ (al_layout _ _ _ _ _ _ _ A))).
      assert (K1 : links own b1 (b_data s)) by (eapply links_same; [apply A|done..]). pose proof (opened_sound own _ _ _ L1 K1 O Hc1) as So.
      pose proof O as [O1 O2 [O3 O3'] O4 O5 _]. assert (Hd1 : b_data b1 = b_data s) by (unfold b_data at 1; by rewrite O1).
      assert (G1 : grows own s own b1).
      { split; rewrite ?Hd1; try done. exists []. rewrite app_nil_r. split; [done|]. by intros p ?%elem_of_nil. }
      destruct (al_ideal _ _ _ _ _ _ _ A) as [[_ Hie] _]. destruct (tail_sound _ _ _ _ _ _ So Hr) as (own' & G & E1 & E2 & E3 & E4 & _). split; [|rewrite (gr_entries _ _ _ _ _ _ _ G); congruence].
      exists own', b. eapply exclusive_push; try done.
      * by eapply grows_trans.
      * congruence.
      * lia.
      * by rewrite E3, O5.
      * destruct E4 as [[? ?]|?]; [left; split; [done|right; eexists; split; [by rewrite <- O3|lia]]|by right].
Qed.
(** ** Creating the file *)

Definition first_page : owner := fun p n t => p = B /\ n = B /\ t = TPage.

Lemma first_links b m : layout b m -> t_pages (b_toc b) = [B] -> entries b = ∅ -> links first_page b m.
Proof.
  intros L Hp He. pose proof (B_min psize bsize id) as HB. destruct (ly_cursor _ _ _ _ _ L) as (C1 & C2 & C3). split.
  - split.
    + by intros p n n' t t' (-> & -> & ->) (_ & -> & ->).
    + by intros p q n n' t t' (-> & -> & ->) (-> & -> & ->).
    + intros p n t (-> & -> & ->). split_and!; [by exists 1; lia|by exists 1; lia|lia|lia|lia].
  - rewrite Hp. by intros p ->%list_elem_of_singleton.
  - rewrite He. by intros ? ? ?%lookup_empty_Some.
Qed.

Lemma header_loads : exists t, load_toc (header id B) (2 * B) B id.2 = (t, None).
Proof.
  pose proof (B_min psize bsize id) as HB. unfold load_toc. assert (Hz : forall i, 56 <= i -> load (header id B) i = 0) by (intros i Hi; apply load_zero; intros j Hj; apply header_zero; lia).
  assert (Hsl : forall pos, pos ∈ slots_of B [B] -> load (header id B) pos = 0).
  { intros pos (p & ->%list_elem_of_singleton & Hs)%elem_of_slots_of. apply slot_line in Hs; [|lia|apply (B_line _ _ id)|apply (B_line _ _ id)]. apply Hz. lia. }
  destruct (scan_pages_total (header id B) (2 * B) B id.2 [B] (S (Z.to_nat (2 * B / B))) B (mkToc (2 * B) 0 ∅ [] [])) as (t' & e & -> & Hcase).
  - cbn. rewrite Hz by lia. split_and!; [done|lia|done].
  - split; [apply SSorted_cons; [by repeat constructor|constructor; [cbn; lia|constructor]]|]. intros p ->%list_elem_of_singleton. split; [apply Z.mod_same; lia|lia].
  - cbn. lia.
  - intros pos Hp. rewrite Hsl by done. done.
  - apply (NoDup_slots_of psize bsize id); [by repeat constructor|]. intros p ->%list_elem_of_singleton. by exists 1; lia.
  - destruct Hcase as [-> |[-> (pos & Hp & Hl & _)]]; [eauto|]. by rewrite Hsl in Hl.
Qed.

(** The bucket of a file that was just created. *)
Lemma created b0 : b_id b0 = id -> exists b1, index_bucket (mapped_bucket b0 (header id B) B) = (b1, None) /\ opened b0 (header id B) b1
  /\ layout b1 (header id B) /\ links first_page b1 (header id B) /\ entries b1 = ∅ /\ t_cursor (b_toc b1) = im_len (header id B).
Proof.
  intros Hid. destruct header_loads as [t Ht]. exists (with_toc t (mapped_bucket b0 (header id B) B)).
  assert (Hi : index_bucket (mapped_bucket b0 (header id B) B) = (with_toc t (mapped_bucket b0 (header id B) B), None)).
  { unfold index_bucket. change (b_data (mapped_bucket b0 (header id B) B)) with (header id B). cbn [mapped_bucket b_mapped b_block b_id]. by rewrite header_len, Hid, Ht. }
  destruct (index_ok _ _ _ _ Hi) as [O Hb]. destruct (layout_new psize bsize id _ _ Hid O Hb) as (L & He & Hp). split_and!; try done.
  - by apply first_links.
  - destruct O as [_ _ _ _ _ (t' & P & Ht')]. rewrite Ht'. cbn [with_cursor t_cursor]. pose proof (pg_cursor _ _ _ _ _ _ _ _ P) as Hc. cbn [t_cursor] in Hc.
    rewrite Hb in Hc. rewrite header_len in *. lia.
Qed.

Lemma alive_start own s k b' : absent k -> layout s (b_data s) -> links own s (b_data s) -> ideal b' s -> b_id b' = id -> b_opens (k_bucket k) <= b_opens b' ->
  s_punches (b_sched b') = [] -> (s = b' /\ sound own b' /\ (exists f, b_file b' = Some f /\ b_opens (k_bucket k) <= f) \/ b_file b' = None /\ b_mapped b' = 0) ->
  alive own s [] (advance b' [] (k_job k) k).
Proof.
  intros [Hd He Hw Hp Hj] L K Hi Hid Ho Hpu Hs. destruct Hd as (Hd & _). assert (Hdb : b_disk b' = Some (b_data s)) by (destruct Hi as [<- _]; apply L).
  assert (Hext : forall l, extend_past (k_bucket k) b' l = [b']) by (intros l; unfold extend_past; by rewrite Hdb, Hd).
  split; cbn [advance k_bucket k_writers k_job k_past k_since]; rewrite ?Hext; try done.
  - intros f Hf. destruct Hs as [(-> & [_ _ (f' & Hf1 & Hf2) Hm _] & _)|[? _]]; [|congruence]. split_and!; [done|congruence|lia|lia].
  - intros Hf. destruct Hs as [(_ & _ & f & Hf1 & _)|[_ ?]]; [congruence|done].
  - apply List.Forall2_cons; [done|apply List.Forall2_nil].
  - cbn. split_and!; [done|by intros ? ?%elem_of_nil|done].
  - intros s0 ->%list_elem_of_singleton. split; [done|]. intros off pos Hp0. left. by apply K.
  - intros Hf. destruct Hs as [(-> & [_ _ _ _ Hfr] & _)|[? _]]; [|done]. cbn. by rewrite app_nil_r.
  - by intros w ?%elem_of_nil.
  - constructor.
  - rewrite Hpu. by intros ? ? ?%elem_of_nil.
  - intros j ph Hjk. destruct (Hj j ph Hjk) as [H1 ->]. split; cbn [advance k_bucket k_past k_since]; [lia|done|].
    intros Hf. destruct Hs as [(_ & _ & f & Hf1 & Hf2)|[? _]]; [|congruence]. assert (f = j_file j) by congruence. lia.
Qed.

Lemma room_absent k os data b err : absent k -> machine psize bsize os -> make_room os data (k_bucket k) = (b, err) -> disk_inv (advance b [] (k_job k) k) /\ entries b = ∅.
Proof.
  intros A [Hps Hbs] Hr. pose proof A as [(Hd & Hf & Hm & Hid) [He Hpu] Hw Hp Hj]. rewrite make_room_tail, Hf in Hr.
  assert (Hstay : forall b1, b1 = b_close (k_bucket k) -> disk_inv (advance b1 [] (k_job k) k) /\ entries b1 = ∅).
  { intros b1 ->. split; [|done]. left. split; cbn; try done. unfold extend_past. cbn. by rewrite Hd. }
  unfold open in Hr. destruct (os_open os); cbn [negb] in Hr; [|injection Hr as <- <-; by apply Hstay]. rewrite Hd in Hr. cbn [negb] in Hr.
  destruct (os_truncate os && os_map os && os_sync os); cbn [negb] in Hr; [|injection Hr as <- <-; by apply Hstay].
  cbv zeta in Hr. rewrite Hps, Hbs, Hid in Hr. destruct (created (k_bucket k) Hid) as (b1 & Hi & O & L & K & Hen & Hcu).
  pose proof O as [O1 O2 [O3 O3'] O4 O5 _]. assert (Hd1 : b_data b1 = header id B) by (unfold b_data; by rewrite O1). rewrite <- Hd1 in L, K.
  destruct (os_remap os && os_syncdir os); cbn [negb] in Hr.
  - rewrite Hi in Hr. assert (So : sound first_page b1) by (rewrite Hd1 in L, K; by eapply opened_sound).
    destruct (tail_sound _ _ _ _ _ _ So Hr) as (own' & G & E1 & E2 & E3 & E4 & _). split; [right|rewrite (gr_entries _ _ _ _ _ _ _ G); done]. exists own', b, []. eapply alive_start; try done; [apply G|apply G|congruence|lia| |].
    + by rewrite E3, O5.
    + destruct E4 as [[? ?]|?]; [left; split; [done|]; split; [done|]; eexists; split; [by rewrite <- O3|lia]|by right].
  - injection Hr as <- <-. split; [right|done]. exists first_page, b1, []. eapply alive_start; try done; [|cbn; lia|by right].
    split; [by rewrite O1|]. cbn. congruence.
Qed.

(** ** Removing the file *)

Lemma remove_inv k os b err : disk_inv k -> exclusive k -> remove_empty os (k_bucket k) = (b, err) -> disk_inv (advance b [] (k_job k) k).
Proof.
  intros Hinv Hex Hr. unfold remove_empty in Hr. destruct Hinv as [A|(own & s & S & A)].
  { pose proof A as [(Hd & Hf & Hm & Hid) He Hw Hp Hj]. rewrite Hf in Hr. injection Hr as <- <-. left. split; cbn; try done. unfold extend_past. by rewrite Hd. }
  destruct (alive_disk _ _ _ _ _ _ _ A) as [Hdk _]. destruct (al_ideal _ _ _ _ _ _ _ A) as [_ Hid].
  assert (Hstay : b = k_bucket k -> disk_inv (advance b [] (k_job k) k)).
  { intros ->. right. destruct (b_file (k_bucket k)) as [f|] eqn:Hf.
    - destruct (open_alive _ _ _ _ _ _ _ _ A Hf) as (Hs & Hf' & Hids & Hm & Hnd & Hfree). exists own, (k_bucket k), (s :: S). destruct Hex as [Hw Hj]. rewrite Hw in Hnd. cbn in Hnd. rewrite app_nil_r in Hnd.
      apply (exclusive_push own s S k own (k_bucket k)); [exact A|by split|rewrite <- Hs; apply grows_refl; apply A|done|lia|done|]. left. split; [|by left].
      rewrite <- Hs. split; [apply A|apply A|exists f; split; [by rewrite Hs|rewrite Hs; lia]|done|by split].
    - exists own, s, (s :: S). destruct Hex as [Hw Hj]. destruct (al_closed _ _ _ _ _ _ _ A Hf) as [Hm _]. eapply alive_push; try done.
      + eapply grows_move; [exact A|]. apply grows_refl; apply A.
      + apply A.
      + intros f' Hf'. congruence.
      + intros f' Hf'. congruence.
      + by intros w ?%elem_of_nil.
      + constructor.
      + apply A. }
  destruct (b_file (k_bucket k)) as [f|] eqn:Hf; [|injection Hr as <- <-; by apply Hstay]. case_bool_decide; [|injection Hr as <- <-; by apply Hstay].
  unfold remove in Hr. destruct (os_sync os); cbn [negb] in Hr; [|injection Hr as <- <-; by apply Hstay].
  destruct (os_remove os); cbn [negb] in Hr; injection Hr as <- <-.
  - left. split; cbn; try done. intros j ph Hj. pose proof (al_job _ _ _ _ _ _ _ A j ph Hj) as [J1 J2 J3]. split; [done|]. destruct ph; [done|]. destruct Hex as [_ Hx]. by destruct (Hx j).
  - right. exists own, s, (s :: S). by apply closed_push.
Qed.
(** ** Syncing *)

(** Another schedule. *)
Lemma sched_push own s S k sc : alive own s S k -> b_file (k_bucket k) <> None -> (forall p n, (p, n) ∈ s_punches sc -> exists off, own p n (TDead off)) ->
  alive own (with_sched sc (k_bucket k)) (s :: S) (advance (with_sched sc (k_bucket k)) (k_writers k) (k_job k) k).
Proof.
  intros A Hf Hp. destruct (b_file (k_bucket k)) as [f|] eqn:Hfe; [|done]. destruct (open_alive _ _ _ _ _ _ _ _ A Hfe) as (Hs & Hf' & Hids & Hm & Hnd & Hfree).
  eapply alive_push; [exact A|rewrite <- Hs; by eapply same_move|done|apply A|done|done|by left|..].
  - intros f' Hf1. cbn in Hf1. assert (f' = f) as -> by congruence. split_and!; [done|done|..]; cbn [with_sched b_toc b_mapped]; rewrite <- Hs; apply Hm.
  - intros Hn. cbn in Hn. congruence.
  - intros _. cbn [with_sched b_toc]. rewrite <- Hs. done.
  - intros w Hw. pose proof (al_writers _ _ _ _ _ _ _ A w Hw) as [W1 W2 W3 W4 W5]. rewrite Hs in *. by split.
  - apply A.
  - done.
Qed.

Lemma sync_begin_alive own s S k force now b j : alive own s S k -> k_job k = None -> sync_begin force now (k_bucket k) = (b, Some j) ->
  alive own b (s :: S) (mkDisk b (k_writers k) (Some (j, false)) (b :: k_past k) [b]).
Proof.
  intros A Hj Hs. unfold sync_begin in Hs. destruct (b_file (k_bucket k)) as [f|] eqn:Hf; [|done].
  destruct ((s_generation (b_sched (k_bucket k)) =? s_synced (b_sched (k_bucket k))) || _); [done|]. injection Hs as <- <-.
  set (sc := mkSchedule _ _ _ _). destruct (al_open _ _ _ _ _ _ _ A f Hf) as (Hs & Hf' & _). destruct (alive_disk _ _ _ _ _ _ _ A) as [Hdk _].
  assert (A' := sched_push own s S k sc A ltac:(by rewrite Hf) ltac:(by intros ? ? ?%elem_of_nil)).
  assert (Hext : forall l, extend_past (k_bucket k) (with_sched sc (k_bucket k)) l = with_sched sc (k_bucket k) :: l) by (intros l; unfold extend_past; by rewrite Hdk; cbn; rewrite Hdk).
  apply (alive_job _ _ _ _ _ _ _ (Some (mkJob f (s_generation (b_sched (k_bucket k))) (s_due (b_sched (k_bucket k))) (s_punches (b_sched (k_bucket k))), false)) [with_sched sc (k_bucket k)]) in A'.
  { cbn [advance k_bucket k_writers k_past] in A'. by rewrite Hext in A'. }
  intros j ph [= <- <-]. split; cbn [advance k_bucket k_past k_since j_file j_punches].
  - exact Hf'.
  - intros _. split; [exact Hf|]. rewrite Hext. apply prefix_cons, prefix_nil.
  - intros _. split; [apply A|]. intros b0 ->%list_elem_of_singleton. eapply live_spared; [apply (al_links _ _ _ _ _ _ _ A')|apply A|done].
Qed.

Lemma sync_failed_alive own s S k j : alive own s S k -> k_job k = Some (j, false) -> exists s', alive own s' (s :: S) (advance (sync_failed j (k_bucket k)) (k_writers k) None k).
Proof.
  intros A Hj. destruct (al_job _ _ _ _ _ _ _ A j false Hj) as [J1 J2 J3]. destruct (J2 eq_refl) as [E1 E2]. destruct (J3 E1) as [D1 _]. unfold sync_failed. set (sc := mkSchedule _ _ _ _).
  exists (with_sched sc (k_bucket k)). assert (A' : alive own (with_sched sc (k_bucket k)) (s :: S) (advance (with_sched sc (k_bucket k)) (k_writers k) (k_job k) k)).
  { apply sched_push; [done|by rewrite E1|]. cbn. intros p n [Hp|Hp]%elem_of_app; [by apply A|by apply D1]. }
  apply (alive_job _ _ _ _ _ _ _ None (k_since (advance (with_sched sc (k_bucket k)) (k_writers k) None k))) in A'; [exact A'|done].
Qed.

Lemma sync_done_alive own s S k j : alive own s S k -> k_job k = Some (j, false) ->
  let b := sync_done j (k_bucket k) in exists S', alive own b S' (mkDisk b (k_writers k) (Some (j, true)) (b :: k_since k) (b :: k_since k)).
Proof.
  intros A Hj b. destruct (al_job _ _ _ _ _ _ _ A j false Hj) as [J1 J2 J3]. destruct (J2 eq_refl) as [E1 E2]. destruct (alive_disk _ _ _ _ _ _ _ A) as [Hdk _].
  assert (A' : alive own b (s :: S) (advance b (k_writers k) (k_job k) k)) by (apply sched_push; [done|by rewrite E1|apply A]).
  assert (Hext : forall l, extend_past (k_bucket k) b l = b :: l) by (intros l; unfold extend_past; by rewrite Hdk; cbn; rewrite Hdk).
  unfold advance in A'. rewrite !Hext, Hj in A'. eapply alive_forget in A' as [S' A']; [exists S'; exact A'|done|done].
Qed.

(** ** Punching *)

Lemma punch_all_ok own now answers l b b' err : layout b (b_data b) -> links own b (b_data b) -> (forall p n, (p, n) ∈ l -> exists off, own p n (TDead off)) ->
  punch_all now answers l b = (b', err) ->
  layout b' (b_data b') /\ links own b' (b_data b') /\ b_toc b' = b_toc b /\ b_file b' = b_file b /\ b_opens b' = b_opens b /\ b_id b' = b_id b /\ b_mapped b' = b_mapped b
  /\ im_len (b_data b') = im_len (b_data b) /\ (forall off pos, entries b !! off = Some pos -> agree (b_data b) (b_data b') pos 64)
  /\ (forall p n t, own p n t -> (p ∉ l.*1) -> agree (b_data b) (b_data b') p n)
  /\ (forall x, x ∈ s_punches (b_sched b') -> x ∈ s_punches (b_sched b) \/ x ∈ l).
Proof.
  revert answers b. induction l as [|[p n] l IH]; intros answers b L K Hd Hp; cbn [punch_all] in Hp.
  { injection Hp as <- <-. split_and!; try done. auto. }
  destruct (Hd p n ltac:(left)) as [off Hown]. destruct (default true (head answers)).
  - destruct (ow_in _ _ _ _ (lk_own _ _ _ _ _ K) _ _ _ Hown) as (_ & _ & Hn & _).
    set (m1 := clear (b_data b) p n) in *. assert (Ho : forall i, ~ (p <= i < p + n) -> byte_at m1 i = byte_at (b_data b) i) by (intros i Hi; apply byte_write_out; by rewrite blen_replicate by lia).
    assert (Q : quiet psize bsize b (b_data b) m1) by (eapply (quiet_extent _ _ _ L K); [exact Hown|done|done|apply len_write|done]).
    pose proof (quiet_layout psize bsize id _ _ _ L Q) as L1. pose proof (links_quiet _ _ K _ Q) as K1. set (b1 := with_disk (Some m1) b) in *. change m1 with (b_data b1) in Ho, Q, L1, K1.
    destruct (IH (tail answers) b1 L1 K1 ltac:(intros; apply Hd; by right) Hp) as (R1 & R2 & R3 & R4 & R5 & R6 & R7 & R8 & R9 & R10 & R11).
    split_and!; try done.
    + rewrite R8. apply len_write.
    + intros o pos He. eapply agree_trans; [apply (qt_live _ _ _ _ _ Q o pos He)|]. by eapply R9.
    + intros q n' t Hq Hni. apply not_elem_of_cons in Hni as [Hne Hni]. eapply agree_trans; [|by eapply R10].
      apply (outside_agree (b_data b1) p n); [done|]. by apply (ow_apart _ _ _ _ (lk_own _ _ _ _ _ K) _ _ _ _ _ _ Hown Hq).
    + intros x Hx. destruct (R11 x Hx); [by left|right; by right].
  - injection Hp as <- <-. split; [by eapply layout_fields|]. split; [by eapply links_same|]. do 8 (split; [done|]). cbn. intros x [?|?]%elem_of_app; auto.
Qed.

Lemma close_closed b : b_file b = None -> b_mapped b = 0 -> b_close b = b.
Proof. destruct b. cbn. by intros -> ->. Qed.

Lemma ideal_in (l l' : list bucket) s : Forall2 ideal l l' -> s ∈ l' -> exists b, b ∈ l /\ ideal b s.
Proof. intros H [i Hi]%list_elem_of_lookup. destruct (Forall2_lookup_r _ _ _ _ _ H Hi) as (b & Hb & ?). exists b. split; [by apply list_elem_of_lookup_2 in Hb|done]. Qed.

Lemma punch_alive own s S k now answers j b err : alive own s S k -> k_job k = Some (j, true) -> k_writers k = [] -> punch now answers j (k_bucket k) = (b, err) ->
  (exists s', alive own s' (s :: S) (advance b [] None k)) /\ entries b = entries (k_bucket k).
Proof.
  intros A Hj Hw Hp. assert (Hfin : forall b' s', alive own s' (s :: S) (advance b' [] (k_job k) k) -> alive own s' (s :: S) (advance b' [] None k)).
  { intros b' s' A'. apply (alive_job _ _ _ _ _ _ _ None (k_since (advance b' [] None k))) in A'; [exact A'|done]. }
  assert (Hex : exclusive k) by (split; [done|intros j' ?; congruence]).
  assert (Hstay : exists s', alive own s' (s :: S) (advance (k_bucket k) [] None k)).
  { destruct (b_file (k_bucket k)) as [f|] eqn:Hf.
    - assert (A' := sched_push own s S k (b_sched (k_bucket k)) A ltac:(by rewrite Hf) (al_punches _ _ _ _ _ _ _ A)).
      assert (Heq : with_sched (b_sched (k_bucket k)) (k_bucket k) = k_bucket k) by (by destruct (k_bucket k)). rewrite Heq, Hw in A'. eauto.
    - exists s. apply Hfin. destruct (al_closed _ _ _ _ _ _ _ A Hf) as [Hm _]. rewrite <- (close_closed _ Hf Hm). by apply closed_push. }
  unfold punch in Hp. destruct (j_punches j) as [|x l] eqn:Hjp; [injection Hp as <- <-; by split|]. rewrite <- Hjp in Hp. case_bool_decide as Hf; [|injection Hp as <- <-; by split].
  destruct (al_job _ _ _ _ _ _ _ A j true Hj) as [J1 J2 J3]. destruct (J3 Hf) as [D1 D2]. destruct (open_alive _ _ _ _ _ _ _ _ A Hf) as (Hs & Hf' & Hids & [Hm1 Hm2] & Hnd & Hfree). rewrite <- Hs in *.
  pose proof (al_layout _ _ _ _ _ _ _ A) as L. pose proof (al_links _ _ _ _ _ _ _ A) as K.
  destruct (punch_all_ok own now answers (j_punches j) s b err L K D1 Hp) as (R1 & R2 & R3 & R4 & R5 & R6 & R7 & R8 & R9 & R10 & R11).
  split; [|by rewrite R3]. exists b. apply Hfin. eapply alive_push; try done.
  - apply calm_move; rewrite ?R3; try done. intros s0 off pos H0 He. destruct (ideal_in _ _ _ (al_past _ _ _ _ _ _ _ A) H0) as (b0 & Hb0 & Hi1 & Hi2).
    destruct (al_old _ _ _ _ _ _ _ A s0 H0) as [_ Hr]. assert (Hsp : load (b_data s0) (pos + 16) ∉ (j_punches j).*1).
    { assert (Hd0 : b_data s0 = b_data b0) by (unfold b_data; by rewrite Hi1). rewrite Hd0. apply (D2 b0 Hb0 off). by rewrite <- Hi2. }
    destruct (Hr off pos He) as [Ho|Ho]; by eapply R10.
  - congruence.
  - rewrite R5, Hs. lia.
  - intros j' ?. congruence.
  - intros f Hff. left. by rewrite <- Hs, <- R4.
  - intros f Hff. split; [done|]. rewrite R3, R5, R7, R8. split; [|lia]. rewrite R4 in Hff. assert (f = j_file j) as -> by congruence. exact Hf'.
  - intros Hn. rewrite R4 in Hn. congruence.
  - intros _. rewrite R3. cbn. rewrite app_nil_r. rewrite Hw in Hnd. cbn in Hnd. rewrite app_nil_r in Hnd. by split.
  - by intros w ?%elem_of_nil.
  - constructor.
  - intros p n Hpn. destruct (R11 _ Hpn) as [Hq|Hq]; [|by apply D1]. rewrite Hs in Hq. by apply A.
Qed.

(** ** Starting again *)

Lemma restart_alive own s S k os m b : alive own s S k -> machine psize bsize os -> b_disk (k_bucket k) = Some m -> open os false (new_bucket id (Some m)) = (b, None) ->
  alive own b (s :: S) (mkDisk b [] None (b :: k_past k) []) /\ entries b = entries s.
Proof.
  intros A [Hps _] Hm Ho. destruct (alive_disk _ _ _ _ _ _ _ A) as [Hdk _]. assert (m = b_data s) as -> by congruence. pose proof (al_layout _ _ _ _ _ _ _ A) as L.
  destruct (reopen psize bsize id os false (new_bucket id (Some (b_data s))) s _ b None Hps L eq_refl eq_refl Ho) as [[? _]|(_ & O & L1 & Hc1 & He1 & Hp1)]; [done|]. split; [|done].
  assert (Hcle : t_cursor (b_toc s) <= t_cursor (b_toc b)) by (rewrite Hc1; apply (ly_cursor _ _ _ _ _ L)).
  assert (K1 : links own b (b_data s)) by (eapply links_same; [apply A|done..]). pose proof (opened_sound own _ _ _ L1 K1 O Hc1) as [S1 S2 (f & S3 & S3') S4 S5].
  pose proof O as [O1 O2 [O3 O3'] O4 O5 _]. assert (Hd1 : b_data b = b_data s) by (unfold b_data at 1; by rewrite O1).
  eapply alive_core; try done.
  - apply calm_move; rewrite ?Hd1; try done.
  - intros f' Hf'. split_and!; [done|congruence|lia|lia].
  - intros Hn. congruence.
  - intros _. cbn. by rewrite app_nil_r.
  - by intros w ?%elem_of_nil.
  - constructor.
  - rewrite O5. by intros ? ? ?%elem_of_nil.
Qed.
End Time.
