(* ===== verification/DurProps.v ===== *)
(** * What a power failure leaves

    A torn image is made of lines of the states since the last sync: its chain of
    pages is a beginning of the current one, and every record it shows was
    published in one of those states. *)

From S2P Require Import Prelude Golib Durability DurLayout DurOpen DurSteps DurTime.

Section Crash.
Variables (psize bsize : Z) (id : Z * Z).
Context {geo : Geometry psize bsize id}.
Abbreviation B := (Z.max psize bsize).
Abbreviation layout := (layout psize bsize id).
Abbreviation links := (links psize bsize).
Abbreviation places b := (slots_of B (t_pages (b_toc b))).
Abbreviation entries b := (t_entries (b_toc b)).
Abbreviation alive := (alive psize bsize id).
Abbreviation start b pos := (load (b_data b) (pos + 16)).
Abbreviation room b pos := (load (b_data b) (pos + 32)).

Section Torn.
Context {own : owner} {s : bucket} {S : list bucket} {k : disk_state} (A : alive own s S k).
Context {m : image} (T : torn (k_past k) m).

Lemma past_data b : b ∈ k_past k -> exists s0, s0 ∈ s :: S /\ b_data b = b_data s0 /\ entries b = entries s0.
Proof.
  intros [i Hi]%list_elem_of_lookup. destruct (Forall2_lookup_l _ _ _ _ _ (al_past _ _ _ _ _ _ _ A) Hi) as (s0 & H0 & H1 & H2).
  exists s0. split; [by apply list_elem_of_lookup_2 in H0|]. split; [unfold b_data; by rewrite H1|done].
Qed.

Lemma old_layout s0 : s0 ∈ s :: S -> layout s0 (b_data s0).
Proof. intros H. by apply A. Qed.

Lemma torn_len : (B | im_len m) /\ 2 * B <= im_len m < 2 ^ 64.
Proof.
  destruct T as [(b & Hb & ->) _]. destruct (past_data b Hb) as (s0 & H0 & -> & _). pose proof (old_layout s0 H0) as L.
  destruct (ly_len _ _ _ _ _ L), (ly_cursor _ _ _ _ _ L) as (? & ? & ?). split; [done|lia].
Qed.

Lemma torn_line pos : (64 | pos) -> pos + 64 <= im_len m -> exists s0, s0 ∈ s :: S /\ agree m (b_data s0) pos 64.
Proof.
  intros [c ->] Hl. destruct T as [_ [Hlines _]]. destruct (Hlines c) as (b & Hb & Ho); [unfold entrySize; lia|]. destruct (past_data b Hb) as (s0 & H0 & He & _).
  exists s0. split; [done|]. rewrite <- He. intros i Hi. apply Ho. unfold entrySize. lia.
Qed.

(** Behind the cursor of an old state there was nothing. *)
Lemma old_zero s0 pos : s0 ∈ s :: S -> t_cursor (b_toc s0) <= pos -> load (b_data s0) pos = 0.
Proof. intros H0 Hc. apply load_zero. intros i Hi. apply (ly_zero _ _ _ _ _ (old_layout s0 H0)). lia. Qed.

Lemma old_pages s0 : s0 ∈ s :: S -> exists l, t_pages (b_toc s) = t_pages (b_toc s0) ++ l /\ forall p, p ∈ l -> t_cursor (b_toc s0) <= p.
Proof.
  intros [-> |H0]%elem_of_cons; [exists []; rewrite app_nil_r; split; [done|]; by intros p ?%elem_of_nil|].
  destruct (al_hist _ _ _ _ _ _ _ A) as (_ & Hl & _). apply (Hl s0 H0).
Qed.

Lemma chain_next m0 page pre p post : chain m0 page (pre ++ p :: post) -> load m0 p = default 0 (head post).
Proof.
  revert page. induction pre as [|q pre IH]; intros page; cbn; [|intros (_ & _ & Hc); by eapply IH].
  intros (_ & _ & Hc). destruct post as [|x post]; cbn in *; [done|]. by destruct Hc as (-> & _).
Qed.

(** A page that an old state did not have. *)
Lemma page_split s0 pre p post : s0 ∈ s :: S -> t_pages (b_toc s) = pre ++ p :: post ->
  (exists post0 post1, t_pages (b_toc s0) = pre ++ p :: post0 /\ post = post0 ++ post1) \/ t_cursor (b_toc s0) <= p.
Proof.
  intros H0 Hp. destruct (old_pages s0 H0) as (l & Hl & Hc). rewrite Hp in Hl. symmetry in Hl.
  apply app_eq_app in Hl as (l' & [[H1 H2]|[H1 H2]]).
  - destruct l' as [|x l']; [|injection H2 as <- ->; left; by exists l', l]. cbn in H2. subst l. right. apply Hc. left.
  - right. apply Hc. rewrite H2. apply elem_of_app. right. left.
Qed.

(** One step along the chain of a torn image. *)
Lemma torn_next pre p post : t_pages (b_toc s) = pre ++ p :: post -> p + 64 <= im_len m -> load m p = 0 \/ exists q post', post = q :: post' /\ load m p = q.
Proof.
  intros Hp Hl. assert (Hin : p ∈ t_pages (b_toc s)) by (rewrite Hp; set_solver). destruct (ly_pages _ _ _ _ _ (al_layout _ _ _ _ _ _ _ A) p Hin) as (Hd & _ & _).
  destruct (torn_line p (line_of psize bsize id _ Hd) Hl) as (s0 & H0 & Ha). rewrite (load_agree m (b_data s0)) by (eapply agree_sub; [exact Ha|lia|lia]).
  destruct (page_split s0 pre p post H0 Hp) as [(post0 & post1 & H1 & ->)|Hc]; [|left; by apply old_zero].
  pose proof (ly_chain _ _ _ _ _ (old_layout s0 H0)) as Hch. rewrite H1 in Hch. rewrite (chain_next _ _ _ _ _ Hch). destruct post0 as [|q post0]; [by left|right]. cbn. eauto.
Qed.

Lemma torn_chain ps : chain m B ps -> (forall p, p ∈ ps -> p + B <= im_len m) -> ps `prefix_of` t_pages (b_toc s).
Proof.
  intros Hc Hin. pose proof (B_min psize bsize id) as HB. pose proof (ly_chain _ _ _ _ _ (al_layout _ _ _ _ _ _ _ A)) as Hcs.
  destruct (t_pages (b_toc s)) as [|p0 post0] eqn:Hps; [cbn in Hcs; lia|]. destruct Hcs as (<- & _ & _).
  assert (Hgen : forall ps page pre post, t_pages (b_toc s) = pre ++ page :: post -> chain m page ps -> (forall p, p ∈ ps -> p + B <= im_len m) -> ps `prefix_of` page :: post).
  { clear ps Hc Hin. induction ps as [|p ps IH]; intros page pre post Hp Hc Hin; [apply prefix_nil|]. destruct Hc as (<- & _ & Hc). apply prefix_cons.
    destruct (torn_next pre page post Hp) as [Hz|(q & post' & -> & Hq)]; [specialize (Hin page ltac:(left)); lia|rewrite Hz in Hc; destruct ps; [apply prefix_nil|by destruct Hc as (_ & ? & _)]|].
    rewrite Hq in Hc. apply (IH q (pre ++ [page]) post'); [by rewrite Hp, <- app_assoc|exact Hc|]. intros p Hp'. apply Hin. by right. }
  eapply (Hgen ps B []); [done|done|done].
Qed.

(** What a torn image shows was shown by an old state. *)
Lemma torn_shows p pos off : p ∈ t_pages (b_toc s) -> pos ∈ slots B p -> p + B <= im_len m -> shows m pos off ->
  exists s0, s0 ∈ s :: S /\ entries s0 !! off = Some pos /\ agree m (b_data s0) pos 64.
Proof.
  intros Hp Hs Hl Hsh. pose proof (B_min psize bsize id) as HB. destruct (ly_pages _ _ _ _ _ (al_layout _ _ _ _ _ _ _ A) p Hp) as (Hd & _ & _).
  destruct (slot_line B p pos) as (G1 & G2 & G3); [lia|apply (B_line _ _ id)|by apply (line_of psize bsize id)|done|].
  destruct (torn_line pos G1 ltac:(lia)) as (s0 & H0 & Ha). exists s0. split; [done|]. split; [|done]. pose proof (shows_agree _ _ _ _ Ha Hsh) as Hsh0.
  apply list_elem_of_split in Hp as (pre & post & Hp). destruct (page_split s0 pre p post H0 Hp) as [(post0 & post1 & H1 & _)|Hc].
  - apply (ly_entries _ _ _ _ _ (old_layout s0 H0)). split; [|done]. apply elem_of_slots_of. exists p. split; [rewrite H1; set_solver|done].
  - destruct Hsh0 as [Hpub _]. by rewrite old_zero in Hpub by (done || lia).
Qed.

(** *** Opening it *)

Context {os : Os} {b : bucket} (Hm : machine psize bsize os) (Ho : open os false (new_bucket id (Some m)) = (b, None)).

Lemma torn_header : load m 16 = B.
Proof.
  pose proof (B_min psize bsize id) as HB. destruct torn_len as [_ Hl]. destruct (torn_line 0) as (s0 & H0 & Ha); [by exists 0|lia|].
  rewrite (load_agree m (b_data s0)) by (eapply agree_sub; [exact Ha|lia|lia]). by destruct (ly_header _ _ _ _ _ (old_layout s0 H0)) as (_ & _ & ? & _).
Qed.

Lemma torn_opened : opened (new_bucket id (Some m)) m b /\ b_block b = B /\ header_ok psize bsize id m.
Proof.
  destruct (open_ok os false (new_bucket id (Some m)) m b eq_refl Ho) as (O & Hb & Hc). rewrite torn_header in Hb. split; [done|]. split; [done|]. by apply (check_header_words psize bsize id os m Hc torn_header).
Qed.

Lemma torn_data : b_data b = m.
Proof. destruct torn_opened as [[O1 _ _ _ _ _] _]. unfold b_data. by rewrite O1. Qed.

Lemma torn_toc : chain m B (t_pages (b_toc b)) /\ (forall p, p ∈ t_pages (b_toc b) -> p + B <= im_len m)
  /\ (forall off pos, entries b !! off = Some pos <-> pos ∈ places b /\ shows m pos off)
  /\ (forall pos, pos ∈ places b -> load m pos = published -> entry_valid m (im_len m) B id.2 pos = true).
Proof.
  pose proof (B_min psize bsize id) as HB. destruct torn_opened as ([_ _ _ _ _ (t & P & Ht)] & Hb & _). rewrite Hb in P. destruct P as [P1 P2 P3 P4 P5 P6 P7 P8].
  cbn [t_pages t_lastPage t_entries t_cursor app] in *. destruct (P4 ltac:(right; left; lia)) as [_ A2]. split_and!; [done| | |done].
  - intros p Hp. destruct (A2 p Hp). lia.
  - intros off pos. rewrite Ht at 1. cbn [with_cursor t_entries]. rewrite P5. split; [by intros [?%lookup_empty_Some|]|by right].
Qed.

Lemma torn_pages : t_pages (b_toc b) `prefix_of` t_pages (b_toc s).
Proof. destruct torn_toc as (Hc & Hin & _). by apply torn_chain. Qed.

(** A record it shows was published in a state since the last sync. *)
Lemma torn_entry off pos : entries b !! off = Some pos -> exists s0, s0 ∈ s :: S /\ entries s0 !! off = Some pos /\ agree m (b_data s0) pos 64.
Proof.
  intros He. destruct torn_toc as (_ & Hin & Hen & _). apply Hen in He as [Hp Hsh]. apply elem_of_slots_of in Hp as (p & Hp & Hs).
  apply (torn_shows p); [|done|by apply Hin|done]. destruct torn_pages as [l ->]. apply elem_of_app. by left.
Qed.

Lemma torn_owner off pos : entries b !! off = Some pos -> own (load m (pos + 16)) (load m (pos + 32)) (TLive off) \/ own (load m (pos + 16)) (load m (pos + 32)) (TDead off).
Proof.
  intros He. destruct (torn_entry off pos He) as (s0 & H0 & He0 & Ha). rewrite !(load_agree m (b_data s0)) by (eapply agree_sub; [exact Ha|lia|lia]).
  destruct (al_old _ _ _ _ _ _ _ A s0 H0) as [_ Hr]. by apply Hr.
Qed.

(** The blocks in use after the failure. *)
Definition torn_own : owner := fun p n t =>
  (exists off pos, entries b !! off = Some pos /\ p = load m (pos + 16) /\ n = load m (pos + 32) /\ t = TLive off) \/ (p ∈ t_pages (b_toc b) /\ n = B /\ t = TPage).

(** They were in use before, for the same record or page. *)
Lemma torn_before p n t : torn_own p n t -> exists t0, own p n t0 /\ match t with TLive off => t0 = TLive off \/ t0 = TDead off | TPage => t0 = TPage | _ => False end.
Proof.
  intros [(off & pos & He & -> & -> & ->)|(Hp & -> & ->)].
  - destruct (torn_owner off pos He); eauto.
  - exists TPage. split; [|done]. apply (lk_page _ _ _ _ _ (al_links _ _ _ _ _ _ _ A)). destruct torn_pages as [l ->]. apply elem_of_app. by left.
Qed.

Lemma torn_owned : owned psize bsize torn_own (im_len m).
Proof.
  pose proof (lk_own _ _ _ _ _ (al_links _ _ _ _ _ _ _ A)) as [F1 F2 F3]. destruct torn_toc as (_ & Hin & Hen & Hval). split.
  - intros p n n' t t' H1 H2. destruct (torn_before _ _ _ H1) as (t0 & O1 & M1), (torn_before _ _ _ H2) as (t1 & O2 & M2).
    destruct (F1 _ _ _ _ _ O1 O2) as [-> ->]. split; [done|]. destruct t, t'; try done; [by destruct M2; subst t1|by destruct M1; subst t1|].
    destruct M1, M2; congruence.
  - intros p q n n' t t' H1 H2. destruct (torn_before _ _ _ H1) as (t0 & O1 & _), (torn_before _ _ _ H2) as (t1 & O2 & _). by apply (F2 p q n n' t0 t1).
  - intros p n t H1. destruct (torn_before _ _ _ H1) as (t0 & O1 & _). destruct (F3 _ _ _ O1) as (? & ? & ? & ? & _). split_and!; [done..|].
    destruct H1 as [(off & pos & He & -> & -> & _)|(Hp & -> & _)]; [|by apply Hin]. apply Hen in He as [Hp [Hpub _]]. specialize (Hval pos Hp Hpub). by apply valid_spec in Hval as (_ & _ & _ & _ & _ & ? & _).
Qed.

End Torn.

(** ** Recovery *)

Lemma recover_slots_ok b l : (forall pos, pos ∈ l -> load (b_data b) pos = published ->
    recordChecksum (load (b_data b) (pos + 8)) (start b pos) (load (b_data b) (pos + 24)) (room b pos) (read (b_data b) (start b pos) (load (b_data b) (pos + 24))) = load (b_data b) (pos + 40)) ->
  recover_slots b l = (map (fun pos => (load (b_data b) (pos + 8), read (b_data b) (start b pos) (load (b_data b) (pos + 24)))) (List.filter (fun pos => load (b_data b) pos =? published) l), None).
Proof.
  induction l as [|pos l IH]; intros H; cbn [recover_slots List.filter map]; [done|]. rewrite IH by (intros; apply H; [by right|done]).
  destruct (Z.eqb_spec (load (b_data b) pos) published) as [Hp|]; cbn [negb]; [|done]. rewrite (H pos ltac:(left) Hp), Z.eqb_refl. cbn [negb map]. done.
Qed.

Lemma recover_slots_inv b l r : recover_slots b l = (r, None) -> forall pos, pos ∈ l -> load (b_data b) pos = published ->
  recordChecksum (load (b_data b) (pos + 8)) (start b pos) (load (b_data b) (pos + 24)) (room b pos) (read (b_data b) (start b pos) (load (b_data b) (pos + 24))) = load (b_data b) (pos + 40).
Proof.
  revert r. induction l as [|q l IH]; intros r H pos Hp Hs; cbn [recover_slots] in H; [by apply elem_of_nil in Hp|]. apply elem_of_cons in Hp as [-> |Hp].
  - rewrite (proj2 (Z.eqb_eq _ _) Hs) in H. cbn [negb] in H. destruct (recordChecksum _ _ _ _ _ =? _) eqn:E; [by apply Z.eqb_eq in E|done].
  - destruct (load (b_data b) q =? published); cbn [negb] in H; [|by eapply IH]. destruct (recordChecksum _ _ _ _ _ =? _); cbn [negb] in H; [|done].
    destruct (recover_slots b l) as [r' [e|]] eqn:E; [done|]. by eapply IH.
Qed.

Lemma recover_slots_err b l r e : recover_slots b l = (r, Some e) -> exists pos, pos ∈ l /\ load (b_data b) pos = published /\ e = Corrupt ((b_id b).1, load (b_data b) (pos + 8))
  /\ recordChecksum (load (b_data b) (pos + 8)) (start b pos) (load (b_data b) (pos + 24)) (room b pos) (read (b_data b) (start b pos) (load (b_data b) (pos + 24))) <> load (b_data b) (pos + 40).
Proof.
  revert r. induction l as [|q l IH]; intros r H; cbn [recover_slots] in H; [done|].
  destruct (Z.eqb_spec (load (b_data b) q) published) as [Hq|]; cbn [negb] in H; [|destruct (IH _ H) as (pos & ? & ?); exists pos; split; [by right|done]].
  destruct (recordChecksum _ _ _ _ _ =? _) eqn:E; cbn [negb] in H.
  - destruct (recover_slots b l) as [r' e'] eqn:E'. injection H as <- ->. destruct (IH _ eq_refl) as (pos & ? & ?); exists pos; split; [by right|done].
  - injection H as <- <-. exists q. apply Z.eqb_neq in E. split_and!; [left|done|done|done].
Qed.
End Crash.

(** * What the mirror promises

    The records of a bucket change only by publishing and deleting; what was on
    disk at the last sync survives a power failure. *)


Section Props.
Variables (psize bsize : Z) (id : Z * Z).
Context {geo : Geometry psize bsize id}.
Abbreviation B := (Z.max psize bsize).
Abbreviation layout := (layout psize bsize id).
Abbreviation places b := (slots_of B (t_pages (b_toc b))).
Abbreviation entries b := (t_entries (b_toc b)).
Abbreviation alive := (alive psize bsize id).
Abbreviation disk_inv := (disk_inv psize bsize id).
Abbreviation disk_step := (disk_step psize bsize).
Abbreviation disk_moves := (disk_moves psize bsize).
Abbreviation start b pos := (load (b_data b) (pos + 16)).
Abbreviation room b pos := (load (b_data b) (pos + 32)).

(** ** Power failures keep the invariant *)

Lemma recovered_sums b l : b_file b <> None -> b_block b = B -> bucket_recover b = (l, None) -> forall off pos, pos ∈ places b -> shows (b_data b) pos off ->
  load (b_data b) (pos + 40) = recordChecksum off (start b pos) (load (b_data b) (pos + 24)) (room b pos) (read (b_data b) (start b pos) (load (b_data b) (pos + 24))).
Proof.
  intros Hf Hb Hr off pos Hp [Hs <-]. unfold bucket_recover in Hr. destruct (b_file b); [|done]. rewrite Hb in Hr. symmetry. by apply (recover_slots_inv _ _ _ Hr pos Hp).
Qed.

Lemma power_alive own s S k os m b l : alive own s S k -> machine psize bsize os -> torn (k_past k) m -> open os false (new_bucket id (Some m)) = (b, None) -> bucket_recover b = (l, None) ->
  exists own', alive own' b [] (mkDisk b [] None [b] []).
Proof.
  intros A Hm T Ho Hr. pose proof (torn_data _ _ _ A T Ho) as Hd. subst m. set (m := b_data b) in *.
  pose proof (torn_opened _ _ _ A T Ho) as (O & Hb & Hh). pose proof (torn_toc _ _ _ A T Ho) as (T1 & T2 & T3 & T4).
  destruct (torn_len _ _ _ A T) as (D1 & D2 & D3). pose proof O as [O1 O2 [O3 O3'] O4 O5 _].
  destruct (opened_layout psize bsize id (new_bucket id (Some m)) m b eq_refl O Hb Hh D2 D1 D3) as [L Hc]; [apply T| |].
  { intros off pos He. apply T3 in He as [Hp Hs]. apply (recovered_sums b l); [by rewrite O3|done..]. }
  exists (torn_own psize bsize (m := m) (b := b)). assert (K : links psize bsize (torn_own psize bsize (m := m) (b := b)) b m).
  { split; [rewrite Hc; by apply (torn_owned _ _ _ A T Ho)|intros p Hp; by right|intros off pos He; left; by exists off, pos]. }
  pose proof (opened_sound _ _ _ _ _ _ _ L K O Hc) as [S1 S2 (f & S3 & S3') S4 S5].
  split; cbn [k_bucket k_writers k_job k_past k_since]; try done.
  - intros f' Hf. split_and!; [done|congruence|lia|lia].
  - intros Hn. congruence.
  - apply List.Forall2_cons; [done|apply List.Forall2_nil].
  - cbn. split_and!; [done|by intros ? ?%elem_of_nil|done].
  - intros s0 ->%list_elem_of_singleton. split; [done|]. intros off pos Hp0. left. by apply (lk_live _ _ _ _ _ K).
  - intros _. cbn. by rewrite app_nil_r.
  - by intros w ?%elem_of_nil.
  - constructor.
  - rewrite O5. by intros ? ? ?%elem_of_nil.
Qed.

(** ** Every step *)

Lemma ideal_contents b s : ideal b s -> contents b = contents s.
Proof. intros [H1 H2]. unfold contents, b_data. by rewrite H1, H2. Qed.

Lemma alive_contents own s S k : alive own s S k -> contents (k_bucket k) = contents s.
Proof. intros A. apply ideal_contents. apply A. Qed.

(** A record that is there before and after is the same. *)
Lemma common_contents s s' off pos pos' : layout s (b_data s) -> later s s' -> slots_kept s s' -> entries s !! off = Some pos -> entries s' !! off = Some pos' -> contents s' !! off = contents s !! off.
Proof.
  intros L Hl Hs He He'. destruct (Hs off pos pos' He He') as [<- Ha]. unfold contents. rewrite !lookup_fmap, He, He'. cbn. f_equal.
  rewrite <- !(load_agree (b_data s) (b_data s')) by (eapply agree_sub; [exact Ha|lia|lia]). symmetry. apply read_agree.
  destruct (ly_records _ _ _ _ _ L off pos He) as [_ _ _ R _ _]. eapply agree_sub; [by apply (lt_kept _ _ Hl off pos)|lia|lia].
Qed.

Lemma contents_none b off : contents b !! off = None <-> entries b !! off = None.
Proof. unfold contents. rewrite lookup_fmap. by destruct (entries b !! off). Qed.

Lemma kept_contents s s' : layout s (b_data s) -> later s s' -> slots_kept s s' -> entries s' = entries s -> contents s' = contents s.
Proof.
  intros L Hl Hs He. apply map_eq. intros off. destruct (entries s !! off) as [pos|] eqn:E; [eapply common_contents; try done; by rewrite He|].
  rewrite (proj2 (contents_none s off) E). apply contents_none. by rewrite He.
Qed.

Lemma next_quiet own s S k own' s' k' : alive own s S k -> alive own' s' (s :: S) k' -> entries (k_bucket k') = entries (k_bucket k) -> contents (k_bucket k') = contents (k_bucket k).
Proof.
  intros A A' He. destruct (al_ideal _ _ _ _ _ _ _ A) as [[_ I1] _], (al_ideal _ _ _ _ _ _ _ A') as [[_ I2] _]. destruct (al_hist _ _ _ _ _ _ _ A') as (_ & Hl & Hk).
  rewrite (alive_contents _ _ _ _ A), (alive_contents _ _ _ _ A'). apply kept_contents; [apply A|apply Hl; left|by apply Hk|congruence].
Qed.

(** The specification: a map of records. *)
Inductive mirror_step : gmap Z bytes -> event -> gmap Z bytes -> Prop :=
  | ms_quiet M : mirror_step M Quiet M
  | ms_publish M off d : M !! off = None -> mirror_step M (Published off d) (<[ off := d ]> M)
  | ms_delete M off d : M !! off = Some d -> mirror_step M (Deleted off) (delete off M)
  | ms_power M M' : mirror_step M PowerLoss M'.

Lemma absent_step k e k' : absent id k -> disk_step k e k' -> disk_inv k' /\ mirror_step (contents (k_bucket k)) e (contents (k_bucket k')).
Proof.
  intros A Hs. pose proof A as [(Hd & Hf & Hm & Hid) [He Hpu] Hw Hp Hj]. assert (Hc : forall b, entries b = ∅ -> contents b = contents (k_bucket k)) by (intros b Hb; unfold contents; by rewrite Hb, He, !fmap_empty).
  destruct Hs as [offset data k b w _ _ _ Hr|l1 l2 w x rest k Hl|l1 l2 w now k Hl|os data k b err Hos Hex Hr|
    now offset k b Hr|os k b err Hos Hex Hr|force now k b j _ Hr|k j Hjk|k j Hjk b|now answers k j b err Hjk _ Hr|os k m b _ Hm' _|os k m b l _ [(b0 & Hb0 & _) _] _ _].
  - unfold reserve in Hr. by rewrite Hf in Hr.
  - rewrite Hw in Hl. by destruct l1.
  - rewrite Hw in Hl. by destruct l1.
  - destruct (room_absent psize bsize id k os data b err A Hos Hr) as [Hi He']. split; [done|]. cbn. rewrite (Hc b He'). constructor.
  - unfold delete_entry in Hr. by rewrite He in Hr.
  - split; [eapply remove_inv; [by left|done|exact Hr]|]. unfold remove_empty in Hr. rewrite Hf in Hr. injection Hr as <- <-. constructor.
  - unfold sync_begin in Hr. by rewrite Hf in Hr.
  - by destruct (Hj _ _ Hjk).
  - by destruct (Hj _ _ Hjk).
  - assert (b = k_bucket k) as ->. { unfold punch in Hr. destruct (j_punches j); [by injection Hr|]. rewrite Hf in Hr. by injection Hr. }
    split; [|constructor]. left. split; cbn; try done. unfold extend_past. by rewrite Hd.
  - congruence.
  - rewrite Hp in Hb0. by apply elem_of_nil in Hb0.
Qed.

Lemma publish_contents own s S k l1 w l2 now : alive own s S k -> k_writers k = l1 ++ w :: l2 -> w_rest w = [] ->
  contents (k_bucket k) !! w_offset w = None /\ contents (publish now w (k_bucket k)) = <[ w_offset w := w_data w ]> (contents (k_bucket k)).
Proof.
  intros A Hw Hr. assert (Hin : w ∈ k_writers k) by (rewrite Hw; set_solver). destruct (writer_open _ _ _ _ _ _ _ _ A Hin) as [f Hf]. destruct (al_open _ _ _ _ _ _ _ A f Hf) as (Hs & _ & _).
  destruct (publish_alive psize bsize id _ _ _ _ _ _ _ now A Hw Hr) as (own' & s' & A'). pose proof (al_writers _ _ _ _ _ _ _ A w Hin) as W.
  destruct (finished _ _ _ (al_layout _ _ _ _ _ _ _ A) (al_links _ _ _ _ _ _ _ A) w W Hr) as (F1 & F2 & F3 & F4 & F5 & F6). pose proof W as [[W1 W1'] W2 (W3 & W3' & W3'') W4 _].
  pose proof (slot_blocks _ _ _ (al_layout _ _ _ _ _ _ _ A) (al_links _ _ _ _ _ _ _ A) w W) as Hsb. rewrite <- Hs in *. split; [by apply contents_none|].
  destruct (al_ideal _ _ _ _ _ _ _ A') as [I' _]. cbn [advance k_bucket] in I'. pose proof (ideal_contents _ _ I') as Hci. destruct I' as [_ I2]. destruct (al_hist _ _ _ _ _ _ _ A') as (_ & Hl & Hk).
  apply map_eq. intros off. destruct (decide (off = w_offset w)) as [-> |Hne].
  - rewrite lookup_insert_eq. unfold contents. rewrite lookup_fmap. cbn [publish with_sched with_toc b_toc with_entries t_entries]. rewrite lookup_insert_eq. cbn [fmap option_fmap option_map].
    change (b_data (publish now w s)) with (save (b_data s) (w_slot w) published). rewrite !slot_store_word by lia. rewrite F2, F3. f_equal.
    rewrite <- (read_agree (b_data s)); [done|]. apply slot_store_agree. unfold apart in *. lia.
  - rewrite lookup_insert_ne by done. destruct (entries s !! off) as [pos|] eqn:E.
    + rewrite Hci. eapply common_contents; [apply A|apply Hl; left|by apply Hk|exact E|]. rewrite I2. cbn [publish with_sched with_toc b_toc with_entries t_entries]. rewrite lookup_insert_ne by done. exact E.
    + rewrite (proj2 (contents_none s off) E). apply contents_none. cbn [publish with_sched with_toc b_toc with_entries t_entries]. by rewrite lookup_insert_ne.
Qed.

Lemma delete_contents own s S k now off b : alive own s S k -> delete_entry now off (k_bucket k) = Some (b, true) ->
  is_Some (contents (k_bucket k) !! off) /\ contents b = delete off (contents (k_bucket k)).
Proof.
  intros A Hd. destruct (delete_alive psize bsize id _ _ _ _ _ _ _ A Hd) as (own' & s' & A'). assert (He : is_Some (entries (k_bucket k) !! off) /\ entries b = delete off (entries (k_bucket k))).
  { unfold delete_entry in Hd. destruct (entries (k_bucket k) !! off); [|done]. destruct (b_mapped (k_bucket k) <=? z); [done|]. injection Hd as <-. split; [eauto|done]. }
  destruct He as [[pos He] Hb]. split; [unfold contents; rewrite lookup_fmap, He; eauto|]. destruct (al_ideal _ _ _ _ _ _ _ A') as [I' _], (al_ideal _ _ _ _ _ _ _ A) as [I _]. cbn [advance k_bucket] in I'.
  pose proof (ideal_contents _ _ I') as Hci'. pose proof (ideal_contents _ _ I) as Hci. destruct I' as [_ I2], I as [_ I1]. destruct (al_hist _ _ _ _ _ _ _ A') as (_ & Hl & Hk).
  apply map_eq. intros o. destruct (decide (o = off)) as [-> |Hne]; [rewrite lookup_delete_eq; apply contents_none; by rewrite Hb, lookup_delete_eq|].
  rewrite lookup_delete_ne by done. destruct (entries s !! o) as [q|] eqn:E.
  - rewrite Hci, Hci'. eapply common_contents; [apply A|apply Hl; left|by apply Hk|exact E|]. rewrite I2, Hb, lookup_delete_ne by done. by rewrite <- I1.
  - rewrite Hci, (proj2 (contents_none s o) E). apply contents_none. rewrite Hb, lookup_delete_ne by done. by rewrite <- I1.
Qed.

Lemma remove_contents os k b err : remove_empty os (k_bucket k) = (b, err) -> contents b = contents (k_bucket k).
Proof.
  unfold remove_empty. destruct (b_file (k_bucket k)); [|by intros [= <- <-]]. case_bool_decide as He; [|by intros [= <- <-]]. unfold remove.
  destruct (negb (os_sync os)); [by intros [= <- <-]|]. destruct (negb (os_remove os)); intros [= <- <-]; [done|]. unfold contents. cbn. by rewrite He, !fmap_empty.
Qed.

Lemma alive_step own s S k e k' : alive own s S k -> disk_step k e k' -> disk_inv k' /\ mirror_step (contents (k_bucket k)) e (contents (k_bucket k')).
Proof.
  intros A Hs. destruct (al_ideal _ _ _ _ _ _ _ A) as [[Hi1 Hi2] Hid].
  destruct Hs as [offset data k b w Ho Hm Hn Hr|l1 l2 w x rest k Hl Hr|l1 l2 w now k Hl Hr|os data k b err Hos Hex Hr|
    now offset k b Hr|os k b err Hos Hex Hr|force now k b j Hj Hr|k j Hjk|k j Hjk b|now answers k j b err Hjk Hw Hr|os k m b Hos Hm Ho|os k m b l Hos T Ho Hr].
  - rewrite Hid in Hm. destruct (reserve_alive psize bsize id _ _ _ _ _ _ _ _ A Ho Hm Hn Hr) as (own' & s' & A'). split; [right; eauto|]. cbn.
    replace (contents b) with (contents (k_bucket k)); [constructor|]. symmetry. eapply (next_quiet _ _ _ _ _ _ _ A A'). cbn.
    unfold reserve in Hr. destruct (b_file (k_bucket k)); [|done]. case_bool_decide; [done|]. destruct (list.last _); [|done]. destruct (_ <=? _); [|done]. by injection Hr as <- _.
  - destruct (store_alive psize bsize id _ _ _ _ _ _ _ _ _ A Hl Hr) as (own' & s' & A'). split; [right; eauto|].
    match goal with |- mirror_step ?a _ ?b => replace b with a; [constructor|] end. symmetry. by apply (next_quiet _ _ _ _ _ _ _ A A').
  - destruct (publish_alive psize bsize id _ _ _ _ _ _ _ now A Hl Hr) as (own' & s' & A'). split; [right; eauto|]. destruct (publish_contents _ _ _ _ _ _ _ now A Hl Hr) as [H1 H2].
    cbn [advance k_bucket]. rewrite H2. by constructor.
  - destruct (room_alive psize bsize id _ _ _ _ _ _ _ _ A Hos Hex Hr) as [(own' & s' & A') He]. split; [right; eauto|].
    match goal with |- mirror_step ?a _ ?b => replace b with a; [constructor|] end. symmetry. by apply (next_quiet _ _ _ _ _ _ _ A A').
  - destruct (delete_alive psize bsize id _ _ _ _ _ _ _ A Hr) as (own' & s' & A'). split; [right; eauto|]. destruct (delete_contents _ _ _ _ _ _ _ A Hr) as [[d H1] H2].
    cbn [advance k_bucket]. rewrite H2. by eapply ms_delete.
  - split; [eapply remove_inv; [right; eauto|done|exact Hr]|]. cbn [advance k_bucket]. rewrite (remove_contents _ _ _ _ Hr). constructor.
  - pose proof (sync_begin_alive psize bsize id _ _ _ _ _ _ _ _ A Hj Hr) as A'. split; [right; eauto|].
    match goal with |- mirror_step ?a _ ?b => replace b with a; [constructor|] end. symmetry. apply (next_quiet _ _ _ _ _ _ _ A A'). cbn. unfold sync_begin in Hr.
    destruct (b_file (k_bucket k)); [|done]. destruct (_ || _); [done|]. by injection Hr as <- _.
  - destruct (sync_failed_alive psize bsize id _ _ _ _ _ A Hjk) as (s' & A'). split; [right; eauto|].
    match goal with |- mirror_step ?a _ ?b => replace b with a; [constructor|] end. symmetry. by apply (next_quiet _ _ _ _ _ _ _ A A').
  - destruct (sync_done_alive psize bsize id _ _ _ _ _ A Hjk) as (S' & A'). split; [right; eauto|]. cbn [k_bucket]. apply ms_quiet.
  - destruct (punch_alive psize bsize id _ _ _ _ _ _ _ _ _ A Hjk Hw Hr) as [(s' & A') He]. split; [right; eauto|].
    match goal with |- mirror_step ?a _ ?b => replace b with a; [constructor|] end. symmetry. by apply (next_quiet _ _ _ _ _ _ _ A A').
  - rewrite Hid in Ho. destruct (restart_alive psize bsize id _ _ _ _ _ _ _ A Hos Hm Ho) as [A' He]. split; [right; eauto|].
    match goal with |- mirror_step ?a _ ?b => replace b with a; [constructor|] end. symmetry. apply (next_quiet _ _ _ _ _ _ _ A A'). cbn. congruence.
  - rewrite Hid in Ho. destruct (power_alive _ _ _ _ _ _ _ _ A Hos T Ho Hr) as (own' & A'). split; [right; eauto|]. constructor.
Qed.

Lemma inv_step k e k' : disk_inv k -> disk_step k e k' -> disk_inv k' /\ mirror_step (contents (k_bucket k)) e (contents (k_bucket k')).
Proof. intros [A|(own & s & S & A)]; [by apply absent_step|by eapply alive_step]. Qed.

Lemma disk_start_inv : disk_inv (disk_start id).
Proof. by left. Qed.

Lemma moves_inv k k' : disk_inv k -> rtc disk_moves k k' -> disk_inv k'.
Proof. intros Hi Hr. induction Hr as [|k k1 k' [e Hs] _ IH]; [done|]. apply IH. by eapply inv_step. Qed.

Lemma reachable_inv_disk k : rtc disk_moves (disk_start id) k -> disk_inv k.
Proof. apply moves_inv, disk_start_inv. Qed.

(** ** Survival *)

(** Where a record is: its blocks, length and checksum. *)
Definition located (b : bucket) (off : Z) : option (Z * Z * Z * Z) :=
  (fun pos => (start b pos, load (b_data b) (pos + 24), room b pos, load (b_data b) (pos + 40))) <$> entries b !! off.

Lemma hist_oldest l s0 s1 : hist l -> list.last l = Some s0 -> s1 ∈ l -> s1 = s0 \/ later s0 s1.
Proof.
  induction l as [|s l IH]; [done|]. intros (Hh & Hl & _) Hlast. rewrite last_cons in Hlast. intros [-> |H1]%elem_of_cons.
  - destruct (list.last l) as [s2|] eqn:E; simplify_eq; [|by left]. right. apply Hl. rewrite last_lookup in E. by apply list_elem_of_lookup_2 in E.
  - destruct (list.last l) as [s2|] eqn:E; [simplify_eq; by apply IH|]. apply last_None in E. subst l. by apply elem_of_nil in H1.
Qed.

(** A record that was there all the time has stayed where it is. *)
Lemma hist_fixed off l s : hist (s :: l) -> (forall s0, s0 ∈ s :: l -> is_Some (entries s0 !! off)) ->
  exists pos, forall s0, s0 ∈ s :: l -> entries s0 !! off = Some pos /\ agree (b_data s0) (b_data s) pos 64.
Proof.
  revert s. induction l as [|s' l IH]; intros s Hh Hall.
  { destruct (Hall s ltac:(left)) as [pos Hp]. exists pos. by intros s0 ->%list_elem_of_singleton. }
  destruct Hh as (Hh & _ & Hk). destruct (IH s' Hh) as [pos Hp]; [intros; apply Hall; by right|]. destruct (Hp s' ltac:(left)) as [H1 _].
  destruct (Hall s ltac:(left)) as [pos' H2]. destruct (Hk s' eq_refl off pos pos' H1 H2) as [<- Ha]. exists pos. intros s0 [-> |H0]%elem_of_cons; [done|].
  destruct (Hp s0 H0) as [H3 H4]. split; [done|]. by eapply agree_trans.
Qed.

Lemma page_of_slot p q pos : (B | p) -> (B | q) -> pos ∈ slots B p -> pos ∈ slots B q -> p = q.
Proof.
  intros Hp Hq H1 H2. pose proof (B_min psize bsize id). apply slot_line in H1; [|lia|apply (B_line _ _ id)|by apply (line_of psize bsize id)].
  apply slot_line in H2; [|lia|apply (B_line _ _ id)|by apply (line_of psize bsize id)]. destruct (decide (p = q)) as [|Hne]; [done|]. destruct (aligned_apart psize bsize id p q Hp Hq Hne); lia.
Qed.

Section Torn.
Context {own : owner} {s : bucket} {S : list bucket} {k : disk_state} (A : alive own s S k).
Context {m : image} (T : torn (k_past k) m).

(** Blocks on which all old states agree are intact. *)
Lemma torn_blocks s1 p n : (64 | p) -> (64 | n) -> p + n <= im_len m -> (forall s0, s0 ∈ s :: S -> agree (b_data s0) (b_data s1) p n) -> agree m (b_data s1) p n.
Proof.
  intros [c ->] [d ->] Hl Ha i Hi. set (line := i / 64). pose proof (Z.div_mod i 64 ltac:(lia)) as Hdm. pose proof (Z.mod_pos_bound i 64 ltac:(lia)) as Hmb.
  destruct (torn_line _ _ _ A T (line * 64)) as (s0 & H0 & Hline); [by exists line|subst line; nia|]. rewrite (Hline i) by (subst line; lia). by apply Ha.
Qed.

Lemma old_extent s0 off pos : s0 ∈ s :: S -> entries s0 !! off = Some pos -> (64 | start s0 pos) /\ (64 | room s0 pos) /\ start s0 pos + room s0 pos <= im_len (b_data s0) /\ 0 <= load (b_data s0) (pos + 24) <= room s0 pos.
Proof.
  intros H0 He. pose proof (old_layout _ _ _ A s0 H0) as L. destruct (ly_records _ _ _ _ _ L off pos He) as [_ R2 [R3 _] R4 R5 _]. destruct (ly_cursor _ _ _ _ _ L) as (_ & _ & ?).
  pose proof (load_range (b_data s0) (pos + 24)) as [? _]. split_and!; [by apply (line_of psize bsize id)|by apply (line_of psize bsize id)|lia|lia|lia].
Qed.

Context {os : Os} {b : bucket} (Ho : open os false (new_bucket id (Some m)) = (b, None)).

(** The page of a slot all old states have is reached. *)
Lemma torn_reaches p : (forall s0, s0 ∈ s :: S -> p ∈ t_pages (b_toc s0)) -> p ∈ t_pages (b_toc b).
Proof.
  intros Hall. pose proof (B_min psize bsize id) as HB. pose proof (torn_toc _ _ _ A T Ho) as (T1 & T2 & _). destruct (torn_pages _ _ _ A T Ho) as [l Hl].
  pose proof (Hall s ltac:(left)) as Hps. rewrite Hl in Hps. apply elem_of_app in Hps as [|Hpl]; [done|]. exfalso.
  pose proof (al_layout _ _ _ _ _ _ _ A) as L. pose proof (ly_sorted _ _ _ _ _ L) as Hsort. pose proof (sorted_NoDup _ Hsort) as Hnd.
  destruct (t_pages (b_toc b)) as [|p0 ps0 _] eqn:Hpb using rev_ind; [cbn in T1; lia|]. rename p0 into q, ps0 into init.
  assert (Hq0 : load m q = 0) by (by rewrite (chain_next _ _ _ _ _ T1)). specialize (T2 q ltac:(set_solver)). rewrite <- app_assoc in Hl. cbn in Hl.
  assert (Hq : q ∈ t_pages (b_toc s)) by (rewrite Hl; set_solver). destruct (ly_pages _ _ _ _ _ L q Hq) as (Dq & _ & _).
  destruct (torn_line _ _ _ A T q (line_of psize bsize id _ Dq) ltac:(lia)) as (s0 & H0 & Ha). specialize (Hall s0 H0). pose proof (old_layout _ _ _ A s0 H0) as L0.
  destruct (page_split _ _ _ A s0 init q l H0 Hl) as [(post0 & post1 & H1 & H2)|Hc].
  - assert (Hx : exists x post, post0 = x :: post). { destruct post0 as [|x post]; [|eauto]. exfalso. rewrite H1 in Hall. rewrite Hl in Hnd. apply list.NoDup_app in Hnd as (_ & N2 & N3). apply list.NoDup_cons in N3 as [N3 _].
      apply elem_of_app in Hall as [Hall|Hall%list_elem_of_singleton]; [apply (N2 p Hall); by right|by subst]. }
    destruct Hx as (x & post & ->). pose proof (ly_chain _ _ _ _ _ L0) as Hch. rewrite H1 in Hch. apply chain_next in Hch. cbn in Hch.
    assert (Hxp : x ∈ t_pages (b_toc s0)) by (rewrite H1; set_solver). destruct (ly_pages _ _ _ _ _ L0 x Hxp) as (_ & ? & _).
    rewrite (load_agree m (b_data s0)) in Hq0 by (eapply agree_sub; [exact Ha|lia|lia]). lia.
  - destruct (ly_pages _ _ _ _ _ L0 p Hall) as (_ & _ & Hpc). rewrite Hl in Hsort. assert (q < p); [|lia]. clear -Hsort Hpl. induction init as [|y init IH]; cbn in Hsort; apply StronglySorted_inv in Hsort as [H1 H2]; [|auto].
    rewrite list.Forall_forall in H2. auto.
Qed.

Lemma survivor off d : (forall b0, b0 ∈ k_past k -> contents b0 !! off = Some d) -> contents b !! off = Some d.
Proof.
  intros Hall. pose proof (torn_data _ _ _ A T Ho) as Hd. assert (Hc : forall s0, s0 ∈ s :: S -> contents s0 !! off = Some d).
  { intros s0 H0. destruct (ideal_in _ _ _ (al_past _ _ _ _ _ _ _ A) H0) as (b0 & Hb0 & Hi). rewrite <- (ideal_contents _ _ Hi). auto. }
  destruct (hist_fixed off S s (al_hist _ _ _ _ _ _ _ A)) as [pos Hpos].
  { intros s0 H0. specialize (Hc s0 H0). unfold contents in Hc. rewrite lookup_fmap in Hc. destruct (entries s0 !! off); [eauto|done]. }
  pose proof (al_layout _ _ _ _ _ _ _ A) as L. destruct (Hpos s ltac:(left)) as [He _]. pose proof (ly_entries _ _ _ _ _ L off pos) as Hen. destruct (proj1 Hen He) as [Hpl _].
  apply elem_of_slots_of in Hpl as (p & Hp & Hs). destruct (ly_pages _ _ _ _ _ L p Hp) as (Dp & _ & _).
  assert (Hpage : p ∈ t_pages (b_toc b)).
  { apply torn_reaches. intros s0 H0. destruct (Hpos s0 H0) as [He0 _]. pose proof (old_layout _ _ _ A s0 H0) as L0. apply (ly_entries _ _ _ _ _ L0) in He0 as [Hpl0 _].
    apply elem_of_slots_of in Hpl0 as (p0 & Hp0 & Hs0). destruct (ly_pages _ _ _ _ _ L0 p0 Hp0) as (D0 & _ & _). by rewrite (page_of_slot p p0 pos). }
  pose proof (torn_toc _ _ _ A T Ho) as (T1 & T2 & T3 & _). pose proof (B_min psize bsize id) as HB. specialize (T2 p Hpage).
  destruct (slot_line B p pos) as (G1 & G2 & G3); [lia|apply (B_line _ _ id)|by apply (line_of psize bsize id)|done|].
  assert (Hline : agree m (b_data s) pos 64). { destruct (torn_line _ _ _ A T pos G1 ltac:(lia)) as (s0 & H0 & Ha). eapply agree_trans; [exact Ha|]. by apply Hpos. }
  assert (Heb : entries b !! off = Some pos). { apply T3. split; [apply elem_of_slots_of; eauto|]. eapply shows_agree; [apply agree_sym, Hline|]. apply Hen in He. apply He. }
  destruct (old_extent s off pos ltac:(left) He) as (X1 & X2 & _ & X4).
  assert (Hlen : start s pos + room s pos <= im_len m).
  { destruct T as [(b0 & Hb0 & ->) _]. destruct (past_data _ _ _ A b0 Hb0) as (s0 & H0 & -> & _). destruct (Hpos s0 H0) as [He0 Ha0]. destruct (old_extent s0 off pos H0 He0) as (_ & _ & X3 & _).
    by rewrite !(load_agree (b_data s0) (b_data s)) in X3 by (eapply agree_sub; [exact Ha0|lia|lia]). }
  assert (Hpay : agree m (b_data s) (start s pos) (room s pos)).
  { apply torn_blocks; [done|done|done|]. intros s0 H0. apply elem_of_cons in H0 as [-> |H0]; [done|]. destruct (al_hist _ _ _ _ _ _ _ A) as (_ & Hl & _). destruct (Hpos s0 ltac:(by right)) as [He0 Ha0].
    pose proof (lt_kept _ _ (Hl s0 H0) off pos He0) as Hk. by rewrite !(load_agree (b_data s0) (b_data s)) in Hk by (eapply agree_sub; [exact Ha0|lia|lia]). }
  rewrite <- (Hc s ltac:(left)). unfold contents. rewrite !lookup_fmap, He, Heb, Hd. cbn. f_equal. rewrite !(load_agree m (b_data s)) by (eapply agree_sub; [exact Hline|lia|lia]).
  apply read_agree. eapply agree_sub; [exact Hpay|lia|lia].
Qed.

(** A record that still is where it was at the last sync is undamaged. *)
Lemma undamaged b0 off x : list.last (k_past k) = Some b0 -> located b0 off = Some x -> located b off = Some x ->
  contents b !! off = contents b0 !! off /\ forall pos, entries b !! off = Some pos ->
    recordChecksum off (start b pos) (load (b_data b) (pos + 24)) (room b pos) (read (b_data b) (start b pos) (load (b_data b) (pos + 24))) = load (b_data b) (pos + 40).
Proof.
  intros Hlast H1 H2. pose proof (torn_data _ _ _ A T Ho) as Hd. pose proof (al_past _ _ _ _ _ _ _ A) as HF.
  assert (Hs0 : exists s0, list.last (s :: S) = Some s0 /\ ideal b0 s0).
  { rewrite last_lookup in Hlast. destruct (Forall2_lookup_l _ _ _ _ _ HF Hlast) as (s0 & Hs0 & Hi). exists s0. split; [|done]. rewrite last_lookup. by rewrite <- (List.Forall2_length HF). }
  destruct Hs0 as (s0 & Hl0 & Hi). rewrite (ideal_contents _ _ Hi). destruct Hi as [Hi1 Hi2]. assert (Hd0 : b_data b0 = b_data s0) by (unfold b_data; by rewrite Hi1).
  unfold located in H1, H2. rewrite Hd0, <- Hi2 in H1. rewrite Hd in H2 |- *. destruct (entries s0 !! off) as [pos0|] eqn:E0; [|done]. destruct (entries b !! off) as [pos|] eqn:E; [|done]. cbn in H1, H2.
  assert (Heq : load m (pos + 16) = start s0 pos0 /\ load m (pos + 24) = load (b_data s0) (pos0 + 24) /\ load m (pos + 32) = room s0 pos0 /\ load m (pos + 40) = load (b_data s0) (pos0 + 40)) by (simplify_eq; naive_solver).
  destruct Heq as (Q1 & Q2 & Q3 & Q4). assert (H0 : s0 ∈ s :: S) by (rewrite last_lookup in Hl0; by apply list_elem_of_lookup_2 in Hl0).
  destruct (old_extent s0 off pos0 H0 E0) as (X1 & X2 & _ & X4).
  assert (Hlen : start s0 pos0 + room s0 pos0 <= im_len m).
  { pose proof (torn_toc _ _ _ A T Ho) as (_ & _ & T3 & T4). apply T3 in E as [Hp [Hpub _]]. specialize (T4 pos Hp Hpub). apply valid_spec in T4 as (_ & _ & _ & _ & _ & ? & _). lia. }
  assert (Hpay : agree m (b_data s0) (start s0 pos0) (room s0 pos0)).
  { apply torn_blocks; [done|done|done|]. intros s1 Hs1. destruct (hist_oldest _ _ _ (al_hist _ _ _ _ _ _ _ A) Hl0 Hs1) as [-> |Hl]; [done|]. apply agree_sym. by apply (lt_kept _ _ Hl off). }
  assert (Hread : read m (load m (pos + 16)) (load m (pos + 24)) = read (b_data s0) (start s0 pos0) (load (b_data s0) (pos0 + 24))).
  { rewrite Q1, Q2. apply read_agree. eapply agree_sub; [exact Hpay|lia|lia]. }
  split.
  - unfold contents. rewrite !lookup_fmap, E, E0, Hd. cbn. by rewrite Hread.
  - intros pos' [= <-]. rewrite Hread, Q1, Q2, Q3, Q4. symmetry. apply (ly_records _ _ _ _ _ (old_layout _ _ _ A s0 H0) off pos0 E0).
Qed.
End Torn.
End Props.
