(* ===== verification/DurMain.v ===== *)
(** * The guarantees of the mirror *)

From S2P Require Import Prelude Golib Durability DurLayout DurOpen DurSteps DurTime DurProps.

Section Main.
Variables (psize bsize : Z) (id : Z * Z).
Context {geo : Geometry psize bsize id}.
Abbreviation B := (Z.max psize bsize).
Abbreviation layout := (layout psize bsize id).
Abbreviation places b := (slots_of B (t_pages (b_toc b))).
Abbreviation entries b := (t_entries (b_toc b)).
Abbreviation alive := (alive psize bsize id).
Abbreviation disk_inv := (disk_inv psize bsize id).
Abbreviation disk_step := (disk_step psize bsize).
Abbreviation disk_moves := (disk_moves psize bsize).
Abbreviation sound := (sound psize bsize id).

(** ** Opening a torn file *)

(** A record that was deleted and put again since the last sync. *)
Definition put_again (past : list bucket) : Prop :=
  exists off b1 b2 pos1 pos2, b1 ∈ past /\ b2 ∈ past /\ entries b1 !! off = Some pos1 /\ entries b2 !! off = Some pos2 /\ pos1 <> pos2.

Section Torn.
Context {own : owner} {s : bucket} {S : list bucket} {k : disk_state} (A : alive own s S k).
Context {m : image} (T : torn (k_past k) m) (Hlen : im_len m = im_len (b_data (k_bucket k))).

Lemma page_inside p : p ∈ t_pages (b_toc s) -> p + B <= im_len m.
Proof.
  intros Hp. pose proof (al_layout _ _ _ _ _ _ _ A) as L. destruct (ly_pages _ _ _ _ _ L p Hp) as (_ & _ & ?), (ly_cursor _ _ _ _ _ L) as (_ & _ & ?).
  destruct (alive_disk _ _ _ _ _ _ _ A) as [_ Hd]. rewrite Hlen, Hd. lia.
Qed.

Lemma torn_has_chain : exists ps, chain m B ps /\ ps `prefix_of` t_pages (b_toc s).
Proof.
  pose proof (B_min psize bsize id) as HB. pose proof (al_layout _ _ _ _ _ _ _ A) as L.
  assert (Hgen : forall post page pre, t_pages (b_toc s) = pre ++ page :: post -> exists ps, chain m page ps /\ ps `prefix_of` page :: post).
  { induction post as [|q post IH]; intros page pre Hp; (assert (Hin : page ∈ t_pages (b_toc s)) by (rewrite Hp; set_solver)); pose proof (page_inside page Hin) as Hi;
      destruct (ly_pages _ _ _ _ _ L page Hin) as (_ & Hge & _); destruct (torn_next _ _ _ A T pre page _ Hp ltac:(lia)) as [Hz|(q' & post' & Hpost & Hq)]; try done.
    1,2: exists [page]; cbn; rewrite Hz; (split; [split_and!; [done|lia|done]|apply prefix_cons, prefix_nil]).
    injection Hpost as <- <-. destruct (IH q (pre ++ [page])) as (ps & Hc & Hpre); [by rewrite Hp, <- app_assoc|]. exists (page :: ps). cbn. rewrite Hq. split; [split_and!; [done|lia|done]|by apply prefix_cons]. }
  pose proof (ly_chain _ _ _ _ _ L) as Hcs. destruct (t_pages (b_toc s)) as [|p0 post0] eqn:Hps; [cbn in Hcs; lia|]. destruct Hcs as (<- & _ & _). by apply (Hgen post0 B []).
Qed.

Lemma shadow_past s0 : s0 ∈ s :: S -> exists b0, b0 ∈ k_past k /\ entries b0 = entries s0.
Proof. intros H0. destruct (ideal_in _ _ _ (al_past _ _ _ _ _ _ _ A) H0) as (b0 & Hb & _ & Hi). by exists b0. Qed.

Lemma torn_opens os b err : machine psize bsize os -> os_open os = true -> os_map os = true -> open os false (new_bucket id (Some m)) = (b, err) ->
  err = None \/ err = Some DuplicateEffect /\ put_again (k_past k).
Proof.
  intros [Hps _] H1 H2 Ho. pose proof (B_min psize bsize id) as HB. destruct (torn_len _ _ _ A T) as (D1 & D2 & D3). unfold open in Ho. rewrite H1, H2 in Ho. cbn [negb new_bucket b_disk b_id] in Ho.
  destruct (Z.eqb_spec (im_len m) 0); [lia|]. destruct (Z.ltb_spec (im_len m) 4096); [lia|]. pose proof (al_layout _ _ _ _ _ _ _ A) as L.
  destruct (torn_line _ _ _ A T 0) as (s0 & H0 & Ha); [by exists 0|lia|]. pose proof (old_layout _ _ _ A s0 H0) as L0.
  assert (Hch : check_header os id m = None).
  { pose proof (layout_header psize bsize id os s0 (b_data s0) Hps L0) as Hc. unfold check_header in *. cbv zeta in *.
    rewrite (read_agree m (b_data s0)), !(load_agree m (b_data s0)) by (eapply agree_sub; [exact Ha|lia|lia]). pose proof (ly_header _ _ _ _ _ L0) as (_ & _ & H16 & _). rewrite H16 in *.
    destruct (ly_cursor _ _ _ _ _ L0) as (_ & ? & ?). destruct (Z.ltb_spec (im_len m) (2 * B)); [lia|]. destruct (Z.ltb_spec (im_len (b_data s0)) (2 * B)); [lia|done]. }
  rewrite Hch, (torn_header _ _ _ A T) in Ho. destruct torn_has_chain as (ps & Hc & [rest Hrest]).
  assert (Hin : forall p, p ∈ ps -> p ∈ t_pages (b_toc s)) by (intros p Hp; rewrite Hrest; apply elem_of_app; by left).
  assert (Hsort : StronglySorted Z.lt ps). { pose proof (ly_sorted _ _ _ _ _ L) as Hs. rewrite Hrest in Hs. clear -Hs. induction ps as [|x ps IH]; [constructor|]. cbn in Hs. apply StronglySorted_inv in Hs as [Hs Hf].
    apply SSorted_cons; [auto|]. rewrite list.Forall_forall in *. intros y Hy. apply Hf, elem_of_app. by left. }
  assert (Hshow : forall pos, pos ∈ slots_of B ps -> load m pos = published -> exists s1, s1 ∈ s :: S /\ entries s1 !! load m (pos + 8) = Some pos /\ agree m (b_data s1) pos 64).
  { intros pos Hp Hpub. apply elem_of_slots_of in Hp as (p & Hp & Hs). apply (torn_shows _ _ _ A T p); [auto|done|by apply page_inside, Hin|done]. }
  destruct (scan_pages_total m (im_len m) B id.2 ps (Datatypes.S (Z.to_nat (im_len m / B))) B (mkToc (2 * B) 0 ∅ [] [])) as (t' & e & Hsc & Hcase).
  - done.
  - split; [apply SSorted_cons; [done|apply list.Forall_forall; cbn; intros p Hp%Hin; destruct (ly_pages _ _ _ _ _ L p Hp); lia]|].
    intros p Hp%Hin. destruct (ly_pages _ _ _ _ _ L p Hp) as (Dp & _ & _). pose proof (page_inside p Hp). split; [by apply (mod_divide psize bsize id)|lia].
  - assert (Z.of_nat (length ps) * B <= im_len m - B).
    { apply (ascending_length psize bsize id _ _ _ Hsort); [|by exists 1; lia|lia]. intros p Hp%Hin. destruct (ly_pages _ _ _ _ _ L p Hp) as (? & ? & _). pose proof (page_inside p Hp). split_and!; done. }
    assert (Z.of_nat (length ps) <= im_len m / B) by (apply Z.div_le_lower_bound; lia). lia.
  - intros pos Hp Hpub. destruct (Hshow pos Hp Hpub) as (s1 & Hs1 & He1 & Ha1). pose proof (old_layout _ _ _ A s1 Hs1) as L1. destruct (ly_records _ _ _ _ _ L1 _ _ He1) as [[R0 R1] R2 [R3 R3'] R4 R5 _].
    assert (Hcur : t_cursor (b_toc s1) <= im_len m).
    { apply elem_of_cons in Hs1 as [-> |Hs1]; destruct (ly_cursor _ _ _ _ _ L) as (_ & _ & ?); destruct (alive_disk _ _ _ _ _ _ _ A) as [_ Hd]; rewrite Hlen, Hd; [done|].
      destruct (al_hist _ _ _ _ _ _ _ A) as (_ & Hl & _). pose proof (lt_cursor _ _ (Hl s1 Hs1)). lia. }
    apply valid_spec. rewrite !(load_agree m (b_data s1)) in * by (eapply agree_sub; [exact Ha1|lia|lia]). split_and!; try done; [by apply (mod_divide psize bsize id)|lia|by apply (mod_divide psize bsize id)|lia|lia].
  - apply (NoDup_slots_of psize bsize id); [done|]. intros p Hp%Hin. by destruct (ly_pages _ _ _ _ _ L p Hp).
  - unfold index_bucket in Ho. change (b_data (mapped_bucket (new_bucket id (Some m)) m B)) with m in Ho. cbn [mapped_bucket new_bucket b_mapped b_block b_id] in Ho. unfold load_toc in Ho. rewrite Hsc in Ho.
    destruct Hcase as [-> |[-> (pos & Hp & Hpub & [[? Hsome]|(pos' & Hp' & Hne & [Hpub' Hoff])])]]; injection Ho as _ <-; [by left|cbn [t_entries] in Hsome; by apply lookup_empty_Some in Hsome|]. right. split; [done|].
    destruct (Hshow pos Hp Hpub) as (s1 & Hs1 & He1 & _), (Hshow pos' Hp' Hpub') as (s2 & Hs2 & He2 & _). rewrite Hoff in He2.
    destruct (shadow_past s1 Hs1) as (b1 & Hb1 & E1), (shadow_past s2 Hs2) as (b2 & Hb2 & E2). exists (load m (pos + 8)), b1, b2, pos, pos'. by rewrite E1, E2.
Qed.
End Torn.

(** ** Recovering *)

Lemma recover_exact b l : layout b (b_data b) -> b_file b <> None -> bucket_recover b = (l, None) -> NoDup l.*1 /\ forall off d, (off, d) ∈ l <-> contents b !! off = Some d.
Proof.
  intros L Hf Hr. unfold bucket_recover in Hr. destruct (b_file b); [|done]. rewrite (ly_block _ _ _ _ _ L) in Hr. pose proof (recover_slots_inv _ _ _ Hr) as Hinv.
  pose proof (recover_slots_ok _ _ Hinv) as Hok. assert (Hl : l = map (fun pos => (load (b_data b) (pos + 8), read (b_data b) (load (b_data b) (pos + 16)) (load (b_data b) (pos + 24)))) (List.filter (fun pos => load (b_data b) pos =? published) (places b))) by (unfold slots_of in *; congruence).
  assert (Hin : forall pos, pos ∈ List.filter (fun pos => load (b_data b) pos =? published) (places b) <-> pos ∈ places b /\ load (b_data b) pos = published) by (intros pos; rewrite !list_elem_of_In, filter_In; by rewrite Z.eqb_eq).
  split.
  - assert (Hnd : NoDup (List.filter (fun pos => load (b_data b) pos =? published) (places b))).
    { apply base.NoDup_ListNoDup, List.NoDup_filter, base.NoDup_ListNoDup, (NoDup_slots_of psize bsize id); [apply L|]. by intros p (? & _)%(ly_pages _ _ _ _ _ L). }
    rewrite Hl. change (NoDup (map fst (map (fun pos => (load (b_data b) (pos + 8), read (b_data b) (load (b_data b) (pos + 16)) (load (b_data b) (pos + 24)))) (List.filter (fun pos => load (b_data b) pos =? published) (places b))))).
    rewrite map_map. apply NoDup_fmap_2_strong; [|done]. intros x y [Hx Hpx]%Hin [Hy Hpy]%Hin Heq. cbn in Heq.
    assert (entries b !! load (b_data b) (x + 8) = Some x) by (by apply (ly_entries _ _ _ _ _ L)). assert (entries b !! load (b_data b) (x + 8) = Some y) by (apply (ly_entries _ _ _ _ _ L); by rewrite Heq). congruence.
  - intros off d. rewrite Hl, list_elem_of_fmap. unfold contents. rewrite lookup_fmap, fmap_Some. split.
    + intros (pos & [= -> ->] & [Hp Hs]%Hin). exists pos. split; [|done]. by apply (ly_entries _ _ _ _ _ L).
    + intros (pos & [Hp [Hs Ho]]%(ly_entries _ _ _ _ _ L) & ->). exists pos. split; [by rewrite Ho|by apply Hin].
Qed.

Lemma recover_whole b : layout b (b_data b) -> exists l, bucket_recover b = (l, None).
Proof.
  intros L. unfold bucket_recover. destruct (b_file b); [|eauto]. rewrite (ly_block _ _ _ _ _ L). eexists. apply recover_slots_ok. intros pos Hp Hs.
  assert (He : entries b !! load (b_data b) (pos + 8) = Some pos) by (by apply (ly_entries _ _ _ _ _ L)). symmetry. apply (ly_records _ _ _ _ _ L _ _ He).
Qed.

(** [C18] The mirror of a bucket refines a map of records.  However puts, deletes,
    syncs, growth, hole punching, failing system calls, removal of the file and
    restarts of the process interleave, the records the bucket shows change only
    when a writer publishes, by exactly the record it was given and only if there
    was none, and when a record is deleted.  At every moment the open file holds
    those records and no others, each once and with a matching checksum: a
    recovery would return them. *)
Theorem mirror_refines (k k' : disk_state) (e : event) : rtc disk_moves (disk_start id) k -> disk_step k e k' ->
  mirror_step (contents (k_bucket k)) e (contents (k_bucket k'))
  /\ (b_file (k_bucket k') <> None -> exists l, bucket_recover (k_bucket k') = (l, None) /\ NoDup l.*1 /\ forall off d, (off, d) ∈ l <-> contents (k_bucket k') !! off = Some d).
Proof.
  intros Hr Hs. destruct (inv_step _ _ _ _ _ _ (reachable_inv_disk _ _ _ _ Hr) Hs) as [Hi Hm]. split; [done|]. intros Hf.
  destruct Hi as [[(_ & Hn & _) _ _ _ _]|(own & s & S & A)]; [done|]. destruct (b_file (k_bucket k')) as [f|] eqn:Hfe; [|done]. destruct (al_open _ _ _ _ _ _ _ A f Hfe) as (Hs' & _ & _).
  pose proof (al_layout _ _ _ _ _ _ _ A) as L. rewrite Hs' in L. destruct (recover_whole _ L) as [l Hl]. exists l. split; [done|]. apply recover_exact; [done|by rewrite Hfe|done].
Qed.

(** [C17] A power failure loses nothing that was on disk.  After it every line of
    the file has the contents it had at some moment since the last sync.  Unless
    the file has lost its growth, it opens, or two published slots hold the same
    record because it was deleted and put again since the last sync.  If it opens:
    a record that was there at every moment since the last sync is there with its
    data; a record that is there was published at one of those moments, so no
    record that was surely deleted comes back; a record that is where it was at
    the last sync is undamaged, also if it has been deleted since, so holes are
    never punched into it; recovery fails only over a record published since; and
    if it does not fail, it returns exactly the records of the file. *)
Theorem power_loss_exact (k : disk_state) (os : Os) (m : image) (b : bucket) (err : option dur_error) :
  rtc disk_moves (disk_start id) k -> machine psize bsize os -> torn (k_past k) m -> os_open os = true -> os_map os = true -> open os false (new_bucket id (Some m)) = (b, err) ->
  (im_len m = im_len (b_data (k_bucket k)) -> err = None \/ err = Some DuplicateEffect /\ put_again (k_past k))
  /\ (err = None ->
      (forall off d, (forall b0, b0 ∈ k_past k -> contents b0 !! off = Some d) -> contents b !! off = Some d)
      /\ (forall off, is_Some (contents b !! off) -> exists b0, b0 ∈ k_past k /\ is_Some (contents b0 !! off))
      /\ forall b0, list.last (k_past k) = Some b0 ->
         (forall off x, located b0 off = Some x -> located b off = Some x -> contents b !! off = contents b0 !! off)
         /\ match bucket_recover b with
            | (_, Some e) => exists off, e = Corrupt (id.1, off) /\ is_Some (contents b !! off) /\ located b off <> located b0 off
            | (l, None) => forall off d, (off, d) ∈ l <-> contents b !! off = Some d
            end).
Proof.
  intros Hr Hm T H1 H2 Ho. destruct (reachable_inv_disk _ _ _ _ Hr) as [[_ _ _ Hp _]|(own & s & S & A)].
  { destruct T as [(b0 & Hb0 & _) _]. rewrite Hp in Hb0. by apply elem_of_nil in Hb0. }
  split; [intros Hlen; by eapply torn_opens|]. intros ->. pose proof (torn_data _ _ _ A T Ho) as Hd. pose proof (torn_toc _ _ _ A T Ho) as (T1 & T2 & T3 & T4).
  pose proof (torn_opened _ _ _ A T Ho) as ([O1 O2 [O3 O3'] O4 O5 O6] & Hb & Hh). split_and!.
  - intros off d Hall. by eapply survivor.
  - intros off [d Hc]. unfold contents in Hc. rewrite lookup_fmap in Hc. destruct (entries b !! off) as [pos|] eqn:E; [|done]. destruct (torn_entry _ _ _ A T Ho off pos E) as (s0 & H0 & He & _).
    destruct (shadow_past A s0 H0) as (b0 & Hb0 & Heq). exists b0. split; [done|]. unfold contents. rewrite lookup_fmap, Heq, He. eauto.
  - intros b0 Hlast. split; [intros off x Hx1 Hx2; by apply (undamaged _ _ _ A T Ho b0 off x)|]. destruct (bucket_recover b) as [l [e|]] eqn:Er.
    + unfold bucket_recover in Er. rewrite O3, Hb in Er. apply recover_slots_err in Er as (pos & Hp & Hs & -> & Hbad). rewrite O2. exists (load (b_data b) (pos + 8)).
      assert (He : entries b !! load (b_data b) (pos + 8) = Some pos) by (apply T3; split; [exact Hp|]; by rewrite <- Hd). split; [done|]. split; [unfold contents; rewrite lookup_fmap, He; eauto|]. intros Heq.
      assert (Hx : exists x, located b (load (b_data b) (pos + 8)) = Some x) by (unfold located; rewrite He; eauto). destruct Hx as [x Hx]. rewrite Hx in Heq.
      destruct (undamaged _ _ _ A T Ho b0 _ x Hlast (eq_sym Heq) Hx) as [_ Hsum]. by apply Hbad, Hsum.
    + apply (fun L => proj2 (recover_exact b l L ltac:(by rewrite O3) Er)). destruct (power_alive psize bsize id _ _ _ _ _ _ _ _ A Hm T Ho Er) as [own' A']. apply A'.
Qed.
End Main.

(** * Putting and deleting, undisturbed

    A call that nobody interleaves with is a run of the steps, and ends. *)


Section Put.
Variables (psize bsize : Z) (id : Z * Z).
Context {geo : Geometry psize bsize id}.
Abbreviation entries b := (t_entries (b_toc b)).
Abbreviation alive := (alive psize bsize id).
Abbreviation disk_inv := (disk_inv psize bsize id).
Abbreviation disk_step := (disk_step psize bsize).
Abbreviation sound := (sound psize bsize id).

Definition quiet_moves (k k' : disk_state) : Prop := disk_step k Quiet k'.

Lemma quiet_run k k' : disk_inv k -> rtc quiet_moves k k' -> disk_inv k' /\ contents (k_bucket k') = contents (k_bucket k).
Proof.
  intros Hi Hr. induction Hr as [|k k1 k' Hs _ IH]; [done|]. destruct (inv_step _ _ _ _ _ _ Hi Hs) as [Hi1 Hm]. destruct (IH Hi1) as [? ->]. split; [done|]. by inversion Hm.
Qed.

Lemma quiet_moves_run k k' : rtc quiet_moves k k' -> rtc (disk_moves psize bsize) k k'.
Proof. apply rtc_subrel. intros x y Hs. by exists Quiet. Qed.

(** The stores of a writer, one after the other. *)
Lemma stores_run l w k : k_writers k = [w] -> w_rest w = l ->
  exists k', rtc quiet_moves k k' /\ k_bucket k' = fold_left (fun b s => b_store s.1 s.2 b) l (k_bucket k) /\ k_job k' = k_job k
    /\ k_writers k' = [mkWriter (w_offset w) (w_slot w) (w_pos w) (w_size w) (w_data w) []].
Proof.
  revert w k. induction l as [|x l IH]; intros w k Hw Hl.
  { exists k. split_and!; [done|done|done|]. rewrite Hw. destruct w; cbn in *. by subst. }
  pose proof (step_store psize bsize [] [] w x l k Hw Hl) as Hs. set (k1 := advance _ _ _ _) in Hs.
  destruct (IH (mkWriter (w_offset w) (w_slot w) (w_pos w) (w_size w) (w_data w) l) k1 eq_refl eq_refl) as (k2 & Hr2 & Hb2 & Hj2 & Hw2).
  exists k2. split_and!; [|done|done|done]. by eapply rtc_l.
Qed.

Lemma room_result k os data b err : disk_inv k -> machine psize bsize os -> exclusive k -> make_room os data (k_bucket k) = (b, err) ->
  err = None /\ (exists own, sound own b) /\ t_free (b_toc b) <> [] /\ t_cursor (b_toc b) + record_size b data <= b_mapped b
  \/ err = Some OsFailure \/ err = Some TooLarge.
Proof.
  intros Hi [Hps Hbs] Hex Hr. rewrite make_room_tail in Hr.
  assert (Htail : forall own b1, sound own b1 -> tail_room os data b1 = (b, err) ->
    err = None /\ (exists own, sound own b) /\ t_free (b_toc b) <> [] /\ t_cursor (b_toc b) + record_size b data <= b_mapped b \/ err = Some OsFailure \/ err = Some TooLarge).
  { intros own b1 So Ht. destruct (tail_sound psize bsize id _ _ _ _ _ _ So Ht) as (own' & _ & _ & _ & _ & _ & Hok). destruct err as [e|].
    - right. unfold tail_room in Ht. cbv zeta in Ht. destruct (grow os _ b1) as [b2 [e2|]] eqn:Hg; [|done]. injection Ht as <- <-. unfold grow in Hg.
      destruct (_ <=? _); [done|]. destruct (max_int64 <? _); [injection Hg as _ <-; by right|]. cbv zeta in Hg. destruct (os_unmap os); cbn [negb] in Hg; [|injection Hg as _ <-; by left].
      destruct (os_truncate os && os_map os); [done|]. injection Hg as _ <-. by left.
    - left. destruct (Hok eq_refl) as (? & ? & ?). split_and!; eauto. }
  destruct Hi as [Ab|(own & s & S & A)].
  - pose proof Ab as [(Hd & Hf & Hm & Hid) [He Hpu] Hw Hp Hj]. rewrite Hf in Hr. unfold open in Hr. rewrite Hd in Hr.
    destruct (os_open os); cbn [negb] in Hr; [|injection Hr as _ <-; by right; left].
    destruct (os_truncate os && os_map os && os_sync os); cbn [negb] in Hr; [|injection Hr as _ <-; by right; left]. cbv zeta in Hr. rewrite Hps, Hbs, Hid in Hr.
    destruct (created psize bsize id (k_bucket k) Hid) as (b1 & Hi & O & L & K & Hen & Hcu). destruct (os_remap os && os_syncdir os); cbn [negb] in Hr; [|injection Hr as _ <-; by right; left].
    rewrite Hi in Hr. eapply Htail; [|exact Hr]. by eapply opened_sound.
  - destruct (alive_disk _ _ _ _ _ _ _ A) as [Hdk Hdd]. destruct (al_ideal _ _ _ _ _ _ _ A) as [_ Hid]. destruct (b_file (k_bucket k)) as [f|] eqn:Hf.
    + destruct (open_alive _ _ _ _ _ _ _ _ A Hf) as (Hs & Hf' & Hids & Hm & Hnd & Hfree). destruct Hex as [Hw Hj]. rewrite Hw in Hnd. cbn in Hnd. rewrite app_nil_r in Hnd.
      assert (So : sound own s) by (split; [apply A|apply A|exists f; rewrite Hs; split; [done|lia]|done|by split]). rewrite <- Hs in Hr. by eapply Htail.
    + destruct (open os true (k_bucket k)) as [b1 e1] eqn:Ho. destruct (reopen psize bsize id os true _ s _ b1 e1 Hps (al_layout _ _ _ _ _ _ _ A) Hdk Hid Ho) as [[-> ->]|(-> & O & L1 & Hc1 & He1 & Hp1)].
      * injection Hr as _ <-. by right; left.
      * assert (K1 : links psize bsize own b1 (b_data s)) by (eapply links_same; [apply A|done..|rewrite Hc1; apply (ly_cursor _ _ _ _ _ (al_layout _ _ _ _ _ _ _ A))]).
        eapply Htail; [|exact Hr]. by eapply opened_sound.
Qed.

(** A reservation without a retry, to the end. *)
Lemma reserved_run k now offset data : disk_inv k -> b_id (k_bucket k) = id -> k_writers k = [] -> is_uint64 offset -> offset mod fileCount = id.2 ->
  match reserve offset data (k_bucket k) with
  | (b, Present) => b = k_bucket k /\ is_Some (contents b !! offset)
  | (b, Reserved w) => let b' := publish now w (run_stores w b) in exists k', rtc (disk_moves psize bsize) k k' /\ k_bucket k' = b' /\ k_writers k' = [] /\ k_job k' = k_job k
      /\ contents (k_bucket k) !! offset = None /\ contents b' = <[ offset := data ]> (contents (k_bucket k))
  | (b, Retry) => b = k_bucket k
  end.
Proof.
  intros Hi Hid Hw Ho Hm. destruct (reserve offset data (k_bucket k)) as [b [|w|]] eqn:Hr; unfold reserve in Hr; destruct (b_file (k_bucket k)) eqn:Hf; try done.
  - case_bool_decide as He; [|destruct (list.last _); [destruct (_ <=? _)|]; done]. injection Hr as <-. split; [done|]. destruct He as [pos He]. unfold contents. rewrite lookup_fmap, He. eauto.
  - assert (Hw2 : w_offset w = offset /\ w_data w = data).
    { case_bool_decide; [done|]. destruct (list.last _); [|done]. destruct (_ <=? _); [|done]. injection Hr as _ <-. done. }
    destruct Hw2 as [Hwo Hwd]. assert (Hres : reserve offset data (k_bucket k) = (b, Reserved w)) by (unfold reserve; by rewrite Hf).
    assert (Hs1 : disk_step k Quiet (advance b [w] (k_job k) k)).
    { pose proof (step_reserve psize bsize offset data k b w Ho ltac:(by rewrite Hid) ltac:(rewrite Hw; cbn; apply not_elem_of_nil) Hres) as Hs. by rewrite Hw in Hs. }
    destruct (stores_run (w_rest w) w (advance b [w] (k_job k) k) eq_refl eq_refl) as (k2 & Hr2 & Hb2 & Hj2 & Hw2).
    assert (Hq : rtc quiet_moves k k2) by (by eapply rtc_l). destruct (quiet_run _ _ Hi Hq) as [Hi2 Hc2].
    pose proof (step_publish psize bsize [] [] _ now k2 Hw2 eq_refl) as Hs3. destruct (inv_step _ _ _ _ _ _ Hi2 Hs3) as [Hi3 Hm3]. cbn [w_offset w_data] in Hm3.
    eexists. split; [eapply rtc_r; [by apply quiet_moves_run|by eexists]|]. cbn [advance k_bucket k_writers k_job app] in *. fold (run_stores w b) in Hb2.
    assert (Hpub : publish now (mkWriter (w_offset w) (w_slot w) (w_pos w) (w_size w) (w_data w) []) (k_bucket k2) = publish now w (run_stores w b)) by (by rewrite Hb2).
    rewrite Hpub in Hm3 |- *. split_and!; [done|done|done|..]; inversion Hm3; subst; congruence.
  - case_bool_decide; [done|]. destruct (list.last _); [destruct (_ <=? _)|]; by simplify_eq.
  - by injection Hr.
Qed.
(** A put that nobody disturbs ends after at most one round of making room.
    It is a run of the steps of the bucket.  If it succeeds, the record is there
    with its data, or was there before and is unchanged, and no other record has
    changed; if it fails, the operating system refused or the file would be too
    large, and no record has changed. *)
Theorem put_exact (k : disk_state) (os : Os) (now offset : Z) (data : bytes) (b : bucket) (err : option dur_error) :
  rtc (disk_moves psize bsize) (disk_start id) k -> exclusive k -> machine psize bsize os -> is_uint64 offset -> offset mod fileCount = id.2 ->
  bucket_put os now offset data (k_bucket k) = (b, err) ->
  (exists k', rtc (disk_moves psize bsize) k k' /\ k_bucket k' = b /\ exclusive k')
  /\ match err with
     | None => contents b = match contents (k_bucket k) !! offset with Some _ => contents (k_bucket k) | None => <[ offset := data ]> (contents (k_bucket k)) end
     | Some err => (err = OsFailure \/ err = TooLarge) /\ contents b = contents (k_bucket k)
     end.
Proof.
  intros Hreach Hex Hos Ho Hm Hput. pose proof (reachable_inv_disk _ _ _ _ Hreach) as Hi.
  assert (Hids : forall k, disk_inv k -> b_id (k_bucket k) = id) by (intros k0 [[(_ & _ & _ & ?) _ _ _ _]|(? & ? & ? & A)]; [done|apply A]).
  pose proof (Hids k Hi) as Hid. pose proof Hex as [Hw Hj]. unfold bucket_put in Hput. cbn [put_loop] in Hput.
  pose proof (reserved_run k now offset data Hi Hid Hw Ho Hm) as Hres. destruct (reserve offset data (k_bucket k)) as [b0 [|w|]].
  - destruct Hres as [-> [d Hd]]. injection Hput as <- <-. rewrite Hd. split; [|done]. exists k. by split.
  - destruct Hres as (k' & Hr & Hb & Hw' & Hj' & Hn & Hc). injection Hput as <- <-. rewrite Hn. split; [|done]. exists k'. split_and!; [done|done|]. split; [done|]. by rewrite Hj'.
  - subst b0. destruct (make_room os data (k_bucket k)) as [b1 e1] eqn:Hmr. set (k1 := advance b1 [] (k_job k) k).
    assert (Hs1 : disk_step k Quiet k1) by (by eapply step_room). destruct (inv_step _ _ _ _ _ _ Hi Hs1) as [Hi1 Hm1]. assert (Hc1 : contents b1 = contents (k_bucket k)) by (by inversion Hm1).
    assert (Hex1 : exclusive k1) by done. assert (Hk1 : rtc (disk_moves psize bsize) k k1) by (apply rtc_once; by eexists).
    destruct (room_result k os data b1 e1 Hi Hos Hex Hmr) as [(-> & [own So] & Hfree & Hfit)|Herr].
    + pose proof (reserved_run k1 now offset data Hi1 (Hids k1 Hi1) eq_refl Ho Hm) as Hres1. cbn [k1 advance k_bucket] in Hres1.
      assert (Hnr : (reserve offset data b1).2 <> Retry).
      { unfold reserve. destruct (so_file _ _ _ _ _ So) as (f & -> & _). case_bool_decide; [done|]. destruct (list.last (t_free (b_toc b1))) eqn:El; [|by apply last_None in El].
        destruct (Z.leb_spec (t_cursor (b_toc b1) + record_size b1 data) (b_mapped b1)); [done|lia]. }
      destruct (reserve offset data b1) as [b2 [|w|]]; [| |done].
      * destruct Hres1 as [-> [d Hd]]. injection Hput as <- <-. rewrite Hc1 in *. rewrite Hd. split; [|done]. by exists k1.
      * destruct Hres1 as (k' & Hr & Hb & Hw' & Hj' & Hn & Hc). injection Hput as <- <-. rewrite Hc1 in *. rewrite Hn. split; [|done]. exists k'. split_and!; [by etrans|done|]. split; [done|]. rewrite Hj'. apply Hex1.
    + destruct e1 as [e1|]; [|by destruct Herr]. injection Hput as <- <-. split; [by exists k1|]. split; [|done]. destruct Herr; [left|right]; congruence.
Qed.
End Put.
