(* ===== verification/DurWitness.v ===== *)
(** * The mirror on small files

    Witnesses of the guarantees, and four ways a store can be caught out. *)

From S2P Require Import Prelude Golib Durability DurLayout DurOpen DurSteps DurTime DurProps DurMain.

Definition dw_id : Z * Z := (7, 1).
Definition dw_os : Os := mkOs 4096 4096 true true true true true true true true.
Definition dw_data : bytes := [x61; x62; x63].

#[global] Instance dw_geometry : Geometry 4096 4096 dw_id.
Proof. split; [split; [lia|by exists 1]|by exists 1|by exists 256|split; [cbn; unfold fileCount; lia|unfold is_uint64, max_uint64; cbn; lia]]. Qed.

Lemma dw_machine : machine 4096 4096 dw_os.
Proof. done. Qed.

Definition dw_put (off : Z) (data : bytes) (b : bucket) : bucket := (bucket_put dw_os 0 off data b).1.

Definition dw_new : bucket := Eval vm_compute in (make_room dw_os dw_data (new_bucket dw_id None)).1.

Example dw_made : make_room dw_os dw_data (new_bucket dw_id None) = (dw_new, None).
Proof. vm_compute. reflexivity. Qed.

Definition dw_start : disk_state := disk_start dw_id.
Definition dw_room : disk_state := advance dw_new [] None dw_start.

Lemma dw_room_step : disk_step 4096 4096 dw_start Quiet dw_room.
Proof. apply (step_room 4096 4096 dw_os dw_data dw_start dw_new None dw_machine); [by split|exact dw_made]. Qed.

Lemma dw_reached : rtc (disk_moves 4096 4096) dw_start dw_room.
Proof. apply rtc_once. exists Quiet. apply dw_room_step. Qed.

Lemma dw_exclusive : exclusive dw_room.
Proof. by split. Qed.

Lemma put_exact_witness : contents (dw_put 1 dw_data (k_bucket dw_room)) = {[ 1 := dw_data ]} /\ (bucket_put dw_os 0 1 dw_data (k_bucket dw_room)).2 = None.
Proof.
  assert (Hc : contents (k_bucket dw_room) = ∅) by (vm_compute; reflexivity). assert (He : (bucket_put dw_os 0 1 dw_data (k_bucket dw_room)).2 = None) by (vm_compute; reflexivity).
  split; [|exact He]. unfold dw_put. destruct (bucket_put dw_os 0 1 dw_data (k_bucket dw_room)) as [b err] eqn:E. cbn [fst snd] in *. subst err.
  assert (Ho : is_uint64 1) by (unfold is_uint64, max_uint64; lia).
  destruct (put_exact 4096 4096 dw_id dw_room dw_os 0 1 dw_data b None dw_reached dw_exclusive dw_machine Ho eq_refl E) as [_ Hb].
  rewrite Hc in Hb. exact Hb.
Defined.

Lemma mirror_refines_witness : mirror_step ∅ Quiet (contents dw_new) /\ exists l, bucket_recover dw_new = (l, None).
Proof.
  destruct (mirror_refines 4096 4096 dw_id dw_start dw_room Quiet (rtc_refl _ _) dw_room_step) as [Hm Hr]. split; [exact Hm|].
  destruct Hr as (l & Hl & _); [by vm_compute|]. by exists l.
Defined.

(** ** A record that was synced survives *)

Definition dw_written : bucket := Eval vm_compute in dw_put 1 dw_data dw_new.
Definition dw_begun : bucket := with_sched (mkSchedule 1 0 None []) dw_written.
Definition dw_job : sync_job := mkJob 0 1 (Some 10000000) [].
Definition dw_synced : bucket := sync_done dw_job dw_begun.

Lemma dw_run : exists k, rtc (disk_moves 4096 4096) dw_start k /\ k_bucket k = dw_written /\ k_writers k = [] /\ k_job k = None.
Proof.
  pose proof (reserved_run 4096 4096 dw_id dw_room 0 1 dw_data (reachable_inv_disk 4096 4096 dw_id _ dw_reached) eq_refl eq_refl ltac:(unfold is_uint64, max_uint64; lia) eq_refl) as Hr.
  destruct (reserve 1 dw_data (k_bucket dw_room)) as [b [|w|]] eqn:E; [exfalso; revert E; by vm_compute| |exfalso; revert E; by vm_compute].
  destruct Hr as (k & H1 & H2 & H3 & H4 & _). exists k. split_and!; [etrans; [apply dw_reached|exact H1]| |done|exact H4]. rewrite H2.
  assert (Hw : (let (b, r) := reserve 1 dw_data (k_bucket dw_room) in match r with Reserved w => publish 0 w (run_stores w b) | _ => b end) = dw_written) by (vm_compute; reflexivity).
  by rewrite E in Hw.
Qed.

Lemma dw_saved_reached : exists k, rtc (disk_moves 4096 4096) dw_start k /\ k_bucket k = dw_synced /\ k_past k = [dw_synced; dw_begun].
Proof.
  destruct dw_run as (k & H1 & H2 & H3 & H4). assert (Hb : sync_begin true 0 (k_bucket k) = (dw_begun, Some dw_job)) by (rewrite H2; vm_compute; reflexivity).
  pose proof (step_sync_begin 4096 4096 true 0 k dw_begun dw_job H4 Hb) as S1. set (k1 := mkDisk _ _ _ _ _) in S1.
  pose proof (step_sync_done 4096 4096 k1 dw_job eq_refl) as S2. cbn zeta in S2. eexists. split; [eapply rtc_r; [eapply rtc_r; [exact H1|exists Quiet; exact S1]|exists Quiet; exact S2]|]. split; reflexivity.
Qed.

Lemma dw_synced_has : contents dw_synced !! 1 = Some dw_data.
Proof. vm_compute. reflexivity. Qed.

Lemma dw_begun_has : contents dw_begun !! 1 = Some dw_data.
Proof. vm_compute. reflexivity. Qed.

(** No power failure at all is a case of one. *)
Lemma dw_torn k : rtc (disk_moves 4096 4096) dw_start k -> k_past k <> [] -> torn (k_past k) (b_data (k_bucket k)).
Proof.
  intros Hr Hp. destruct (reachable_inv_disk 4096 4096 dw_id k Hr) as [[_ _ _ Hn _]|(own & s & S & A)]; [done|]. destruct (alive_disk _ _ _ _ _ _ _ A) as [_ Hd].
  destruct (ideal_in _ _ s (al_past _ _ _ _ _ _ _ A) ltac:(left)) as (b0 & Hb0 & Hi & _). assert (H0 : b_data b0 = b_data (k_bucket k)) by (rewrite Hd; unfold b_data; by rewrite Hi).
  pose proof (al_layout _ _ _ _ _ _ _ A) as L. split_and!.
  - exists b0. split; [done|by rewrite H0].
  - intros line _. exists b0. split; [done|]. intros i _. by rewrite H0.
  - intros i Hi'. rewrite Hd in *. apply (ly_zero _ _ _ _ _ L). destruct (ly_cursor _ _ _ _ _ L) as (_ & _ & ?). lia.
Qed.

Lemma power_loss_exact_witness : exists b, open dw_os false (new_bucket dw_id (Some (b_data dw_written))) = (b, None) /\ contents b !! 1 = Some dw_data.
Proof.
  destruct dw_saved_reached as (k & Hr & Hb & Hp). pose proof (dw_torn k Hr ltac:(by rewrite Hp)) as T. rewrite Hb in T. change (b_data dw_synced) with (b_data dw_written) in T.
  destruct (open dw_os false (new_bucket dw_id (Some (b_data dw_written)))) as [b err] eqn:Ho. assert (He : err = None) by (revert Ho; vm_compute; congruence). subst err. exists b. split; [done|].
  destruct (power_loss_exact 4096 4096 dw_id k dw_os (b_data dw_written) b None Hr dw_machine T eq_refl eq_refl Ho) as [_ H]. destruct (H eq_refl) as [H1 _]. apply H1. rewrite Hp.
  intros b0 H0. apply elem_of_cons in H0 as [H0|H0]; [rewrite H0; exact dw_synced_has|]. apply list_elem_of_singleton in H0. rewrite H0. exact dw_begun_has.
Defined.

(** ** Caught out *)

(** [now] with one line from [old]. *)
Definition patch (pos : Z) (old now : bucket) : image := write (b_data now) pos (read (b_data old) pos 64).

Lemma patch_torn pos old now : (64 | pos) -> im_len (b_data now) = im_len (b_data old) -> pos + 64 <= im_len (b_data now) -> (forall i, im_len (b_data now) <= i -> byte_at (b_data now) i = x00) ->
  torn [now; old] (patch pos old now).
Proof.
  intros [c ->] Hl Hpos Hz. assert (Hout : forall i, ~ (c * 64 <= i < c * 64 + 64) -> byte_at (patch (c * 64) old now) i = byte_at (b_data now) i).
  { intros i Hi. apply byte_write_out. rewrite blen_read; lia. }
  assert (Hlen : im_len (patch (c * 64) old now) = im_len (b_data now)) by apply len_write. split_and!.
  - exists now. split; [by left|done].
  - intros line _. unfold on_line, entrySize. destruct (decide (line = c)) as [-> |Hne]; [exists old; split; [right; left|]|exists now; split; [left|]]; intros i Hi; [|apply Hout; lia].
    unfold patch. replace i with (c * 64 + Z.of_nat (Z.to_nat (i - c * 64))) by lia. apply byte_write_in. unfold read. rewrite list_lookup_fmap, lookup_seq_lt by (cbn; lia). cbn. done.
  - intros i Hi. rewrite Hlen in Hi. rewrite Hout by lia. by apply Hz.
Qed.

Definition dw_slot (off : Z) (b : bucket) : Z := default 0 (t_entries (b_toc b) !! off).

(** A record that is deleted and put again takes another slot if its old one has
    been given away.  A power failure that keeps the old line of the old slot
    leaves two slots with the record, and the file does not open any more. *)
Definition dw_two : bucket := dw_put 65 dw_data dw_written.
Definition dw_again : bucket := dw_put 1 dw_data (dw_put 129 dw_data (match delete_entry 0 1 dw_two with Some (b, _) => b | None => dw_two end)).

Theorem record_put_again_blocks_opening : (open dw_os false (new_bucket dw_id (Some (patch (dw_slot 1 dw_two) dw_two dw_again)))).2 = Some DuplicateEffect.
Proof. vm_compute. reflexivity. Qed.

(** A slot can reach the disk before the data it publishes: recovery then fails
    as a whole. *)
Theorem unsynced_record_blocks_recovery : match open dw_os false (new_bucket dw_id (Some (patch (dw_slot 1 dw_written) dw_written dw_new))) with
  | (b, None) => bucket_recover b = ([], Some (Corrupt (7, 1)))
  | _ => False
  end.
Proof. vm_compute. reflexivity. Qed.

(** When growing fails so badly that the bucket is closed, deleting a record
    stores into the mapping that is gone. *)
Theorem delete_panics_after_failed_growth : delete_entry 0 1 (grow (mkOs 4096 4096 true true true false false true true true) (2 ^ 21) dw_written).1 = None.
Proof. vm_compute. reflexivity. Qed.

(** A file system with blocks over 1 MiB: the file that was created is refused
    when it is opened again. *)
Theorem large_blocks_refused : let os := mkOs 4096 (2 ^ 21) true true true true true true true true in
  (open os false (new_bucket dw_id (b_disk (open os true (new_bucket dw_id None)).1))).2 = Some InvalidBoundary.
Proof.
  cbv zeta. set (os := mkOs _ _ _ _ _ _ _ _ _ _). assert (Hd : b_disk (open os true (new_bucket dw_id None)).1 = Some (header dw_id (2 ^ 21))).
  { unfold open. cbn [os_open os negb new_bucket b_disk os_truncate os_map os_sync andb os_remap os_syncdir os_pagesize os_blocksize b_id]. change (Z.max 4096 (2 ^ 21)) with (2 ^ 21).
    unfold index_bucket. by destruct (load_toc _ _ _ _) as [t [e|]]. }
  rewrite Hd. vm_compute. reflexivity.
Qed.
