(* ===== verification/Mvcc.v ===== *)
(** * Reading as of a moment (effects/transaction_snapshot.go, historical.go)

    A transaction reads a causal cut: which effects are in it is decided one by
    one, when first met, and never again.  Clock evidence rules out what is
    surely later than the start of the transaction; what is not ruled out comes
    with all of its past; and a key whose history was read is frozen.

    [historicalFrontier] turns the current tips of a key into the tips it had
    in the cut.  Left out: cancellation, and the discovery of the keys a read
    depends on ([snapshotReadView.discover] is the closure with these
    frontiers). *)

From S2P Require Import Prelude Golib Proto Store Walk Dag DagProps DagOrder Stn Clocks.

Inductive mvcc_error := Cyclic (t : Tip) | NoInterval | Unavailable | NoFuel.

(** [cut_frozen]: for the keys read so far, the tips and anchors of the view
    that read them. *)
Record cut := mkCut {
  cut_at : Sample;
  cut_clocks : Clocks;
  cut_frozen : gmap bytes (list Tip);
  cut_decided : gmap Tip bool;
  cut_ambiguous : Z;
}.

(** [AsTime().UnixNano()]; a missing timestamp is the epoch. *)
Definition unix_nano (ts : option Timestamp) : Z :=
  match ts with Some ts => wrap64 (ts_seconds ts * 1000000000 + ts_nanos ts) | None => 0 end.

Definition effectSample (eff : Effect) : Sample := mkSample (e_node_id eff) (unix_nano (e_hlc eff)).

Definition newTransactionSnapshot (node : Z) (now : Timestamp) (clocks : Clocks) : cut :=
  mkCut (mkSample node (unix_nano (Some now))) clocks ∅ ∅ 0.

Definition choose (t : Tip) (include : bool) (s : cut) : cut :=
  mkCut (cut_at s) (cut_clocks s) (cut_frozen s) (<[ t := include ]> (cut_decided s)) (cut_ambiguous s).

Definition count_ambiguous (s : cut) : cut :=
  mkCut (cut_at s) (cut_clocks s) (cut_frozen s) (cut_decided s) (cut_ambiguous s + 1).

Section Mvcc.
Context {sorter : SortFunc} {ranger : MapRange}.
Variable (store : Store).

(** ** Behind a frozen frontier *)

(** The dependencies of the snapshots the walk stopped at, once each. *)
Definition behind_snapshots (nodes : gmap Tip Effect) (seen : gset Tip) : list Tip * gset Tip :=
  fold_left (fun acc p => match get_snapshot p.2 with
                          | Some _ => if bool_decide (p.1 ∈ acc.2) then acc else (acc.1 ++ e_deps p.2, {[ p.1 ]} ∪ acc.2)
                          | None => acc
                          end) (map_range 20 nodes) ([], seen).

Fixpoint contains_loop (fuel : nat) (key : bytes) (target : Tip) (frontier : list Tip) (seen : gset Tip) : mvcc_error + bool :=
  match frontier with
  | [] => inr false
  | _ =>
      match fuel with
      | O => inl NoFuel
      | S fuel =>
          match prepare store key frontier with
          | Done d =>
              if bool_decide (is_Some (d_nodes d !! target)) then inr true
              else let (frontier, seen) := behind_snapshots (d_nodes d) seen in contains_loop fuel key target frontier seen
          | Missing => inl Unavailable
          | OutOfFuel => inl NoFuel
          end
      end
  end.

(** Each round but the last meets a new snapshot. *)
Definition contains (s : cut) (key : bytes) (target : Tip) : mvcc_error + bool :=
  match cut_frozen s !! key with
  | None => inr false
  | Some frontier => contains_loop (S (size store)) key target frontier ∅
  end.

(** ** Membership *)

Definition member_keys (eff : Effect) : list bytes :=
  match get_txn_bind eff with Some b => map kb_key (tb_keys b) | None => [e_key eff] end.

(** What the keys already read say: [None] if none of its keys was. *)
Fixpoint known_past (s : cut) (t : Tip) (keys : list bytes) (known : bool) : mvcc_error + option bool :=
  match keys with
  | [] => inr (if known then Some true else None)
  | key :: keys =>
      match cut_frozen s !! key with
      | None => known_past s t keys known
      | Some _ =>
          match contains s key t with
          | inl err => inl err
          | inr false => inr (Some false)
          | inr true => known_past s t keys true
          end
      end
  end.

Definition no_keys_read (s : cut) : bool := bool_decide (cut_frozen s = ∅).

(** All dependencies, up to the first that is out. *)
Fixpoint parents (rec : Tip -> Effect -> cut -> cut * (mvcc_error + bool)) (key : bytes) (deps : list Tip) (s : cut) : cut * (mvcc_error + bool) :=
  match deps with
  | [] => (s, inr true)
  | d :: deps =>
      match getEffect store key d with
      | None => (s, inl Unavailable)
      | Some parent => match rec d parent s with (s, inr true) => parents rec key deps s | r => r end
      end
  end.

Fixpoint member (fuel : nat) (visiting : gset Tip) (t : Tip) (eff : Effect) (s : cut) : cut * (mvcc_error + bool) :=
  match cut_decided s !! t with
  | Some chosen => (s, inr chosen)
  | None =>
      if bool_decide (t ∈ visiting) then (s, inl (Cyclic t))
      else
        match fuel with
        | O => (s, inl NoFuel)
        | S fuel =>
            match known_past s t (member_keys eff) false with
            | inl err => (s, inl err)
            | inr (Some include) => (choose t include s, inr include)
            | inr None =>
                match Difference (cut_clocks s) (cut_at s) (effectSample eff) with
                | inl _ => (s, inl NoInterval)
                | inr (lower, upper) =>
                    if 0 <? lower then (choose t false s, inr false)
                    else if is_state_snapshot eff && (upper <=? 0) && no_keys_read s then (choose t true s, inr true)
                    else
                      match parents (member fuel ({[ t ]} ∪ visiting)) (e_key eff) (allDeps eff) s with
                      | (s, inl err) => (s, inl err)
                      | (s, inr false) => (choose t false s, inr false)
                      | (s, inr true) => (choose t true (if upper <=? 0 then s else count_ambiguous s), inr true)
                      end
                end
            end
        end
  end.

(** Every effect on the way down is another one. *)
Definition member_fuel : nat := S (size store).

(** ** The frontier of a key in the cut *)

(** An excluded bind gives back what it consumed on the key. *)
Definition hist_next (key : bytes) (t : Tip) : list Tip :=
  match getEffect store key t with
  | None => []
  | Some eff =>
      match get_txn_bind eff with
      | Some b => match find_key key (tb_keys b) with Some kb => kb_consumed_tips kb | None => [] end
      | None => e_deps eff
      end
  end.

Fixpoint hist_loop (fuel : nat) (key : bytes) (stack : list Tip) (seen : gset Tip) (frontier : list Tip) (s : cut)
    : cut * (mvcc_error + list Tip) :=
  match stack with
  | [] => (s, inr frontier)
  | t :: stack =>
      match fuel with
      | O => (s, inl NoFuel)
      | S fuel =>
          if bool_decide (t ∈ seen) then hist_loop fuel key stack seen frontier s
          else match getEffect store key t with
               | None => (s, inl Unavailable)
               | Some eff =>
                   match member member_fuel ∅ t eff s with
                   | (s, inl err) => (s, inl err)
                   | (s, inr true) => hist_loop fuel key stack ({[ t ]} ∪ seen) (frontier ++ [t]) s
                   | (s, inr false) => hist_loop fuel key (rev (hist_next key t) ++ stack) ({[ t ]} ∪ seen) frontier s
                   end
               end
      end
  end.

Definition historicalFrontier (key : bytes) (tips : list Tip) (s : cut) : cut * (mvcc_error + list Tip) :=
  hist_loop (dfs_fuel (hist_next key) (dom store) (rev tips)) key (rev tips) ∅ [] s.

(** A key that was read is frozen where it was read. *)
Definition freeze (key : bytes) (frontier : list Tip) (s : cut) : cut :=
  match cut_frozen s !! key with
  | Some _ => s
  | None => mkCut (cut_at s) (cut_clocks s) (<[ key := frontier ]> (cut_frozen s)) (cut_decided s) (cut_ambiguous s)
  end.

End Mvcc.

(** * The walk behind a frozen frontier: sound, and it ends *)


Section Contains.
Context {sorter : SortFunc} {ranger : MapRange}.
Variable (store : Store).

Section Key.
Variable (key : bytes).

Lemma snapshot_deps eff : is_Some (get_snapshot eff) -> keyDeps key eff = e_deps eff.
Proof. unfold get_snapshot, keyDeps, get_txn_bind. destruct (e_kind eff) as [k|]; [destruct k|]; intros [? ?]; done. Qed.

(** ** The next round of the walk *)

Definition snapshot_in (nodes : gmap Tip Effect) (x : Tip) : Prop := exists eff, nodes !! x = Some eff /\ is_Some (get_snapshot eff).

Lemma behind_spec nodes seen : let (frontier, seen') := behind_snapshots nodes seen in
  (forall x, x ∈ seen' <-> x ∈ seen \/ snapshot_in nodes x)
  /\ (forall y, y ∈ frontier <-> exists x eff, (x ∉ seen) /\ nodes !! x = Some eff /\ is_Some (get_snapshot eff) /\ y ∈ e_deps eff).
Proof.
  unfold behind_snapshots, snapshot_in. assert (Hin : forall x eff, (x, eff) ∈ map_range 20 nodes <-> nodes !! x = Some eff).
  { intros x eff. rewrite (map_range_perm 20 nodes). apply elem_of_map_to_list. }
  assert (Hnd : NoDup (map_range 20 nodes).*1) by (rewrite (map_range_perm 20 nodes); apply NoDup_fst_map_to_list).
  set (f := fun (acc : list Tip * gset Tip) (p : Tip * Effect) => _).
  assert (Hgen : forall l acc, NoDup l.*1 -> let r := fold_left f l acc in
    (forall x, x ∈ r.2 <-> x ∈ acc.2 \/ exists eff, (x, eff) ∈ l /\ is_Some (get_snapshot eff))
    /\ (forall y, y ∈ r.1 <-> y ∈ acc.1 \/ exists x eff, (x ∉ acc.2) /\ (x, eff) ∈ l /\ is_Some (get_snapshot eff) /\ y ∈ e_deps eff)).
  { clear Hin Hnd. induction l as [|[x e] l IH]; intros acc Hnd; cbn [fold_left fmap list_fmap fst] in *; cbv zeta in *.
    { split; [intros x|intros y]; (split; [by left|]); [intros [|(? & ?%elem_of_nil & _)]; done|intros [|(? & ? & _ & ?%elem_of_nil & _)]; done]. }
    apply list.NoDup_cons in Hnd as [Hx Hnd]. destruct (IH (f acc (x, e)) Hnd) as [H1 H2]. clear IH.
    assert (Hxl : forall eff, (x, eff) ∉ l) by (intros eff Hl; apply Hx, list_elem_of_fmap; by exists (x, eff)).
    setoid_rewrite H1. setoid_rewrite H2. clear H1 H2. unfold f. cbn [fst snd].
    destruct (get_snapshot e) as [sn|] eqn:Eg.
    - case_bool_decide as Hs.
      + split; [intros z|intros y]; split.
        * intros [|(eff & Hl & Hsn)]; [by left|]. right. exists eff. split; [by constructor|done].
        * intros [|(eff & [[= -> ->]|Hl]%elem_of_cons & Hsn)]; [by left|by left|]. right. eauto.
        * intros [|(z & eff & Hz & Hl & Hr)]; [by left|]. right. exists z, eff. split_and!; [done|by constructor|apply Hr|apply Hr].
        * intros [|(z & eff & Hz & [[= -> ->]|Hl]%elem_of_cons & Hr)]; [by left|done|]. right. exists z, eff. split_and!; [done..|apply Hr|apply Hr].
      + cbn [fst snd]. split; [intros z|intros y]; split.
        * intros [[->%elem_of_singleton|]%elem_of_union|(eff & Hl & Hsn)]; [right; exists e; split; [constructor|eauto]|by left|]. right. exists eff. split; [by constructor|done].
        * intros [|(eff & [[= -> ->]|Hl]%elem_of_cons & Hsn)]; [left; set_solver|left; set_solver|]. right. eauto.
        * intros [[|Hy]%elem_of_app|(z & eff & Hz & Hl & Hr)]; [by left|right; exists x, e; split_and!; [done|constructor|eauto|done]|].
          right. exists z, eff. split_and!; [set_solver|by constructor|apply Hr|apply Hr].
        * intros [|(z & eff & Hz & [[= -> ->]|Hl]%elem_of_cons & Hsn & Hy)]; [left; set_solver|left; set_solver|].
          right. exists z, eff. split_and!; [|done..]. intros [->%elem_of_singleton|]%elem_of_union; [by apply Hxl in Hl|done].
    - split; [intros z|intros y]; split.
      + intros [|(eff & Hl & Hsn)]; [by left|]. right. exists eff. split; [by constructor|done].
      + intros [|(eff & [[= -> ->]|Hl]%elem_of_cons & Hsn)]; [by left|rewrite Eg in Hsn; by destruct Hsn|]. right. eauto.
      + intros [|(z & eff & Hz & Hl & Hr)]; [by left|]. right. exists z, eff. split_and!; [done|by constructor|apply Hr|apply Hr].
      + intros [|(z & eff & Hz & [[= -> ->]|Hl]%elem_of_cons & Hsn & Hy)]; [by left|rewrite Eg in Hsn; by destruct Hsn|]. right. exists z, eff. done. }
  destruct (Hgen (map_range 20 nodes) ([], seen) Hnd) as [H1 H2]. cbn [fst snd] in *.
  destruct (fold_left f (map_range 20 nodes) ([], seen)) as [frontier seen']. cbn [fst snd] in *. setoid_rewrite Hin in H1. setoid_rewrite Hin in H2. split; [done|].
  intros y. rewrite H2. split; [by intros [?%elem_of_nil|]|by right].
Qed.

Lemma nodes_store frontier d : prepare store key frontier = Done d -> d_nodes d ⊆ store.
Proof.
  intros Hp. destruct (prepare_inv store key frontier d Hp) as (nodes & lca & Eb & _ & -> & _).
  pose proof (bfs_spec store key frontier) as Hs. rewrite Eb in Hs. destruct Hs as [He _]. etrans; [|apply He].
  intros t. destruct (trimAncestorsOfLCA key nodes lca !! t) as [eff|] eqn:E; [|by destruct (nodes !! t)]. cbn.
  destruct (decide (lca = zero_tip)) as [->|Hz]; [rewrite trim_zero in E; by rewrite E|].
  apply (trim_spec key nodes lca Hz (exp_lca _ _ _ _ _ He Hz)) in E as [-> _]. done.
Qed.

Lemma cut_nodes_reach frontier d t : prepare store key frontier = Done d -> is_Some (d_nodes d !! t) -> reach store key frontier t.
Proof.
  intros Hp [eff Ht]. destruct (prepare_inv store key frontier d Hp) as (nodes & lca & Eb & _ & En & _). rewrite En in Ht.
  pose proof (bfs_spec store key frontier) as Hs. rewrite Eb in Hs. destruct Hs as [He _]. apply (exp_reach _ _ _ _ _ He).
  destruct (decide (lca = zero_tip)) as [->|Hz]; [rewrite trim_zero in Ht; eauto|].
  apply (trim_spec key nodes lca Hz (exp_lca _ _ _ _ _ He Hz)) in Ht as [-> _]. eauto.
Qed.

Lemma snapshot_dep x eff y : store !! x = Some eff -> is_Some (get_snapshot eff) -> y ∈ e_deps eff -> dep store key x y.
Proof. intros Hx Hs Hy. exists eff. split; [done|]. by rewrite snapshot_deps. Qed.

(** What is found is reachable. *)
Lemma contains_sound fuel target frontier seen : contains_loop store fuel key target frontier seen = inr true -> reach store key frontier target.
Proof.
  revert frontier seen. induction fuel as [|fuel IH]; intros [|f0 fs] seen; cbn [contains_loop]; try done. set (frontier := f0 :: fs).
  destruct (prepare store key frontier) as [d| |] eqn:Ep; [|done..]. case_bool_decide as Hd; [intros _; by apply (cut_nodes_reach frontier d)|].
  pose proof (behind_spec (d_nodes d) seen) as Hb. destruct (behind_snapshots (d_nodes d) seen) as [frontier' seen']. destruct Hb as [_ Hf].
  intros (y & (x & eff & _ & Hx & Hs & Hy)%Hf & Hp)%IH. destruct (cut_nodes_reach frontier d x Ep ltac:(eauto)) as (tip & Htip & Hpx).
  exists tip. split; [done|]. etrans; [exact Hpx|]. eapply rtc_l; [|exact Hp]. eapply snapshot_dep; [|done|done].
  eapply lookup_weaken; [exact Hx|by apply (nodes_store frontier)].
Qed.

(** ** It ends *)

Lemma contains_fuel fuel target frontier seen : (size (dom store ∖ seen) < fuel)%nat -> contains_loop store fuel key target frontier seen <> inl NoFuel.
Proof.
  revert frontier seen. induction fuel as [|fuel IH]; intros [|f0 fs] seen Hs; cbn [contains_loop]; try done; [lia|]. set (frontier := f0 :: fs).
  destruct (prepare store key frontier) as [d| |] eqn:Ep; [|done|].
  2:{ unfold prepare in Ep. pose proof (bfs_spec store key frontier) as Hb. destruct (bfs store key frontier) as [[nodes lca]| |]; [|done..].
      by destruct (size nodes =? 0)%nat. }
  case_bool_decide; [done|]. pose proof (behind_spec (d_nodes d) seen) as Hb. destruct (behind_snapshots (d_nodes d) seen) as [frontier' seen'].
  destruct Hb as [Hse Hf]. destruct frontier' as [|y fr]; [by destruct fuel|]. apply IH.
  destruct (proj1 (Hf y)) as (x & eff & Hx & Hxn & Hsn & _); [constructor|].
  assert (Hxs : store !! x = Some eff) by (eapply lookup_weaken; [exact Hxn|by apply (nodes_store frontier)]).
  enough (size (dom store ∖ seen') < size (dom store ∖ seen))%nat by lia. apply subset_size. split.
  - intros z [Hz Hn]%elem_of_difference. apply elem_of_difference. split; [done|]. intros Hin. apply Hn, Hse. by left.
  - intros Hsub. assert (x ∈ dom store ∖ seen') as Hxx by (apply Hsub, elem_of_difference; split; [by apply elem_of_dom_2 in Hxs|done]).
    apply elem_of_difference in Hxx as [_ Hn]. apply Hn, Hse. right. by exists eff.
Qed.

End Key.
End Contains.

(** * What a transaction sees of the past *)


Section Props.
Context {sorter : SortFunc} {ranger : MapRange}.
Variable (store : Store).

(** ** Decisions and their reasons *)

Definition frame_of (s : cut) : Sample * Clocks * gmap bytes (list Tip) := (cut_at s, cut_clocks s, cut_frozen s).

Definition interval_of (s : cut) (eff : Effect) : stn_error + (Z * Z) := Difference (cut_clocks s) (cut_at s) (effectSample eff).

Definition past_of (s : cut) (t : Tip) (eff : Effect) : mvcc_error + option bool := known_past store s t (member_keys eff) false.

(** A snapshot with state that is surely before the start, met before any key
    was read. *)
Definition summarised (s : cut) (eff : Effect) (upper : Z) : Prop := is_state_snapshot eff = true /\ upper <= 0 /\ cut_frozen s = ∅.

(** An effect in the cut is in the history of every key read that it touches, or
    not surely later and either summarised or with its whole past; one outside
    is outside such a history, or surely later, or after one that is. *)
Definition justified (s : cut) (t : Tip) (b : bool) : Prop :=
  exists eff, store !! t = Some eff /\
    (past_of s t eff = inr (Some b)
     \/ (past_of s t eff = inr None /\ exists lower upper, interval_of s eff = inr (lower, upper) /\
          if b : bool then lower <= 0 /\ (summarised s eff upper \/ forall d, d ∈ allDeps eff -> cut_decided s !! d = Some true)
          else 0 < lower \/ exists d, d ∈ allDeps eff /\ cut_decided s !! d = Some false)).

(** Every decision but the given ones has its reason. *)
Variable (given : gmap Tip bool).

Definition consistent (s : cut) : Prop := forall t b, cut_decided s !! t = Some b -> given !! t = Some b \/ justified s t b.

(** [s'] decides what [s] decided, the same way, and perhaps more. *)
Record extends (s s' : cut) : Prop := {
  ex_frame : frame_of s' = frame_of s;
  ex_decided : cut_decided s ⊆ cut_decided s';
}.

Lemma extends_refl s : extends s s.
Proof. by split. Qed.

Lemma extends_trans s1 s2 s3 : extends s1 s2 -> extends s2 s3 -> extends s1 s3.
Proof. intros [A1 A2] [B1 B2]. split; [congruence|by etrans]. Qed.

Lemma known_past_frame s s' t keys known : frame_of s' = frame_of s -> known_past store s' t keys known = known_past store s t keys known.
Proof.
  intros Hf. unfold frame_of in Hf. injection Hf as _ _ Hf. revert known. induction keys as [|key keys IH]; intros known; cbn [known_past]; [done|].
  unfold contains. rewrite Hf. destruct (cut_frozen s !! key); [|done]. by destruct (contains_loop _ _ _ _ _ _) as [|[|]].
Qed.

Lemma past_frame s s' t eff : frame_of s' = frame_of s -> past_of s' t eff = past_of s t eff.
Proof. apply known_past_frame. Qed.

Lemma justified_extends s s' t b : extends s s' -> justified s t b -> justified s' t b.
Proof.
  intros [Hf Hd] (eff & He & Hj). exists eff. split; [done|]. rewrite (past_frame s s' t eff Hf).
  assert (Hi : interval_of s' eff = interval_of s eff) by (unfold interval_of; unfold frame_of in Hf; by injection Hf as -> -> _).
  rewrite Hi. destruct Hj as [|(Hp & lower & upper & Hin & Hb)]; [by left|]. right. split; [done|]. exists lower, upper. split; [done|]. destruct b.
  - destruct Hb as [Hl [(H1 & H2 & H3)|Hall]]; (split; [done|]).
    + left. unfold summarised. unfold frame_of in Hf. by injection Hf as _ _ ->.
    + right. intros d Hdep. eapply lookup_weaken; [by apply Hall|done].
  - destruct Hb as [|(d & Hdep & Hx)]; [by left|]. right. exists d. split; [done|]. by eapply lookup_weaken.
Qed.

Lemma choose_extends t b s : cut_decided s !! t = None -> extends s (choose t b s).
Proof. intros Hn. split; [done|]. cbn. by apply insert_subseteq. Qed.

Lemma choose_consistent t b s : consistent s -> cut_decided s !! t = None -> justified s t b -> consistent (choose t b s).
Proof.
  intros Hc Hn Hj x c Hx. pose proof (choose_extends t b s Hn) as He. cbn in Hx.
  apply lookup_insert_Some in Hx as [[<- <-]|[_ Hx]]; [right; by apply (justified_extends s)|].
  destruct (Hc x c Hx); [by left|right; by apply (justified_extends s)].
Qed.

(** What asking for an effect leaves behind, [frozen_out] being the effects it
    must not decide. *)
Record decides (frozen_out : gset Tip) (s s' : cut) : Prop := {
  de_extends : extends s s';
  de_consistent : consistent s';
  de_out : forall x, x ∈ frozen_out -> cut_decided s' !! x = cut_decided s !! x;
}.

Lemma decides_refl out s : consistent s -> decides out s s.
Proof. intros Hc. split; [apply extends_refl|done|done]. Qed.

Lemma decides_trans out s1 s2 s3 : decides out s1 s2 -> decides out s2 s3 -> decides out s1 s3.
Proof. intros [A1 A2 A3] [B1 B2 B3]. split; [by eapply extends_trans|done|]. intros x Hx. by rewrite B3, A3. Qed.

Lemma decides_choose out t b s : consistent s -> cut_decided s !! t = None -> t ∉ out -> justified s t b -> decides out s (choose t b s).
Proof.
  intros Hc Hn Ho Hj. split; [by apply choose_extends|by apply choose_consistent|]. intros x Hx. cbn. apply lookup_insert_ne. by intros ->.
Qed.

Section Parents.
Variable (rec : Tip -> Effect -> cut -> cut * (mvcc_error + bool)) (out : gset Tip).
Hypothesis rec_ok : forall t eff s, store !! t = Some eff -> consistent s ->
  decides out s (rec t eff s).1 /\ forall b, (rec t eff s).2 = inr b -> cut_decided (rec t eff s).1 !! t = Some b.

Lemma parents_ok key deps s : consistent s ->
  decides out s (parents store rec key deps s).1
  /\ match (parents store rec key deps s).2 with
     | inl _ => True
     | inr true => forall d, d ∈ deps -> cut_decided (parents store rec key deps s).1 !! d = Some true
     | inr false => exists d, d ∈ deps /\ cut_decided (parents store rec key deps s).1 !! d = Some false
     end.
Proof.
  revert s. induction deps as [|d deps IH]; intros s Hc; cbn [parents]; [split; [by apply decides_refl|by intros ? ?%elem_of_nil]|].
  unfold getEffect. destruct (store !! d) as [parent|] eqn:Ed; [|split; [by apply decides_refl|done]].
  destruct (rec_ok d parent s Ed Hc) as [H1 H2]. destruct (rec d parent s) as [s1 [err|[|]]]; cbn [fst snd] in *; [by split| |].
  - destruct (IH s1 (de_consistent _ _ _ H1)) as [G1 G2]. split; [by eapply decides_trans|].
    destruct (parents store rec key deps s1) as [s2 [err|[|]]]; cbn [fst snd] in *; [done| |].
    + intros x [->|Hx]%elem_of_cons; [|auto]. eapply lookup_weaken; [by apply H2|apply G1].
    + destruct G2 as (x & Hx & Hf). exists x. split; [by constructor|done].
  - split; [done|]. exists d. split; [constructor|by apply H2].
Qed.

End Parents.

(** Asking again gives the same answer; asking anew decides this effect and
    perhaps its past, with reasons. *)
Lemma member_ok fuel : forall out t eff s, store !! t = Some eff -> consistent s ->
  decides out s (member store fuel out t eff s).1
  /\ forall b, (member store fuel out t eff s).2 = inr b -> cut_decided (member store fuel out t eff s).1 !! t = Some b.
Proof.
  induction fuel as [|fuel IH]; intros out t eff s Ht Hc; cbn [member].
  { destruct (cut_decided s !! t) as [c|] eqn:Ed; [split; [by apply decides_refl|by intros b [= <-]]|]. case_bool_decide; (split; [by apply decides_refl|done]). }
  destruct (cut_decided s !! t) as [c|] eqn:Ed; [split; [by apply decides_refl|by intros b [= <-]]|].
  case_bool_decide as Hv; [split; [by apply decides_refl|done]|]. fold (past_of s t eff).
  assert (Hgo : forall b, justified s t b -> decides out s (choose t b s) /\ forall c, @inr mvcc_error bool b = inr c -> cut_decided (choose t b s) !! t = Some c).
  { intros b Hj. split; [by apply decides_choose|]. intros c [= <-]. cbn. apply lookup_insert_eq. }
  destruct (past_of s t eff) as [err|[b|]] eqn:Ep; [split; [by apply decides_refl|done]|apply Hgo; exists eff; auto|].
  fold (interval_of s eff). destruct (interval_of s eff) as [err|[lower upper]] eqn:Ei; [split; [by apply decides_refl|done]|].
  destruct (Z.ltb_spec 0 lower) as [Hlo|Hlo]; [apply Hgo; exists eff; split; [done|]; right; split; [done|]; exists lower, upper; auto|].
  destruct (is_state_snapshot eff && (upper <=? 0) && no_keys_read s) eqn:Es.
  { apply andb_true_iff in Es as [[E1 E2%Z.leb_le]%andb_true_iff E3%bool_decide_eq_true]. apply Hgo. exists eff. split; [done|]. right. split; [done|].
    exists lower, upper. split; [done|]. split; [done|]. left. by split. }
  destruct (parents_ok (member store fuel ({[ t ]} ∪ out)) ({[ t ]} ∪ out) (fun x e s => IH ({[ t ]} ∪ out) x e s) (e_key eff) (allDeps eff) s Hc) as [Hd Hr].
  destruct (parents _ _ _ _ _) as [s1 r]. cbn [fst snd] in *. destruct Hd as [D1 D2 D3].
  assert (Hd : decides out s s1) by (split; [done..|]; intros x Hx; apply D3; set_solver).
  assert (Hn : cut_decided s1 !! t = None) by (rewrite D3 by set_solver; done).
  assert (Hj : forall b s2, r = inr b -> extends s1 s2 -> cut_decided s2 = cut_decided s1 -> consistent s2 -> justified s2 t b).
  { intros b s2 -> Hx Hdec Hc2. exists eff. split; [done|]. right. pose proof (extends_trans _ _ _ D1 Hx) as Hsx. pose proof (ex_frame _ _ Hsx) as Hf.
    split; [by rewrite (past_frame s s2 t eff Hf)|]. exists lower, upper.
    split; [unfold interval_of; unfold frame_of in Hf; injection Hf as -> -> _; done|]. rewrite Hdec. destruct b; auto. }
  destruct r as [err|[|]]; cbn [fst snd]; [by split| |].
  - assert (Hc2 : forall s2, extends s1 s2 -> cut_decided s2 = cut_decided s1 -> consistent s2).
    { intros s2 Hx Hdec x b Hb. rewrite Hdec in Hb. destruct (D2 x b Hb); [by left|right; by apply (justified_extends s1)]. }
    destruct (upper <=? 0).
    + split; [|intros b [= <-]; cbn; apply lookup_insert_eq]. eapply decides_trans; [exact Hd|]. apply decides_choose; [done..|]. apply Hj; [done|apply extends_refl|done|done].
    + assert (Hx : extends s1 (count_ambiguous s1)) by (by split). split; [|intros b [= <-]; cbn; apply lookup_insert_eq].
      assert (Hs2 : decides out s1 (count_ambiguous s1)) by (split; [done|by apply Hc2|done]).
      eapply decides_trans; [exact Hd|]. eapply decides_trans; [exact Hs2|]. apply decides_choose; [by apply Hc2|done|done|]. apply Hj; [done|done|done|by apply Hc2].
  - split; [|intros b [= <-]; cbn; apply lookup_insert_eq]. eapply decides_trans; [exact Hd|]. apply decides_choose; [done..|]. apply Hj; [done|apply extends_refl|done|done].
Qed.

(** ** Only what is missing can stop it *)

(** No answer only if an effect cannot be obtained or the clocks overflow. *)
Definition tame {A} (r : mvcc_error + A) : Prop := match r with inl (Cyclic _) | inl NoFuel => False | _ => True end.

Lemma contains_loop_tame fuel key t frontier seen : (size (dom store ∖ seen) < fuel)%nat -> tame (contains_loop store fuel key t frontier seen).
Proof.
  intros Hs. pose proof (contains_fuel store key fuel t frontier seen Hs) as Hf.
  assert (Hc : forall fuel frontier seen x, contains_loop store fuel key t frontier seen <> inl (Cyclic x)).
  { clear. induction fuel as [|fuel IH]; intros [|f0 fs] seen x; cbn [contains_loop]; try done. destruct (prepare store key _) as [d| |]; [|done..].
    case_bool_decide; [done|]. destruct (behind_snapshots _ _). apply IH. }
  specialize (Hc fuel frontier seen). destruct (contains_loop _ _ _ _ _ _) as [[x| | |]|]; cbn; [by destruct (Hc x)|done|done|done|done].
Qed.

Lemma known_past_tame s t keys known : tame (known_past store s t keys known).
Proof.
  revert known. induction keys as [|key keys IH]; intros known; cbn [known_past]; [done|]. unfold contains. destruct (cut_frozen s !! key) as [frontier|]; [|apply IH].
  pose proof (contains_loop_tame (S (size store)) key t frontier ∅) as Hf. rewrite difference_empty_L, size_dom in Hf. specialize (Hf ltac:(lia)).
  destruct (contains_loop _ _ _ _ _ _) as [err|[|]]; [done|apply IH|done].
Qed.

Lemma parents_tame rec key deps s : (forall d eff s, d ∈ deps -> store !! d = Some eff -> tame (rec d eff s).2) -> tame (parents store rec key deps s).2.
Proof.
  revert s. induction deps as [|d deps IH]; intros s Hr; cbn [parents]; [done|]. unfold getEffect. destruct (store !! d) as [parent|] eqn:Ed; [|done].
  pose proof (Hr d parent s ltac:(constructor) Ed) as Hd. destruct (rec d parent s) as [s1 [err|[|]]]; cbn [snd] in *; [done| |done].
  apply IH. intros x eff s2 Hx. apply Hr. by constructor.
Qed.

Lemma member_tame rank fuel : ranked store rank -> forall out t eff s, store !! t = Some eff -> (size (dom store ∖ out) < fuel)%nat ->
  (forall x, x ∈ out -> (rank t < rank x)%nat) -> tame (member store fuel out t eff s).2.
Proof.
  intros Hr. induction fuel as [|fuel IH]; intros out t eff s Ht Hs Ho; [lia|]. cbn [member]. destruct (cut_decided s !! t); [done|].
  case_bool_decide as Hv; [apply Ho in Hv; lia|].
  pose proof (known_past_tame s t (member_keys eff) false) as Hk. destruct (known_past store s t (member_keys eff) false) as [err|[b|]]; [done|done|].
  destruct (Difference _ _ _) as [err|[lower upper]]; [done|]. destruct (0 <? lower); [done|]. destruct (_ && _ && _); [done|].
  assert (Hsz : (size (dom store ∖ ({[ t ]} ∪ out)) < size (dom store ∖ out))%nat).
  { apply subset_size. split; [set_solver|]. intros Hsub. assert (t ∈ dom store ∖ ({[ t ]} ∪ out)) as Ht'; [|set_solver].
    apply Hsub, elem_of_difference. split; [by apply elem_of_dom_2 in Ht|done]. }
  pose proof (parents_tame (member store fuel ({[ t ]} ∪ out)) (e_key eff) (allDeps eff) s) as Hp.
  destruct (parents _ _ _ _ _) as [s1 [err|[|]]]; cbn [snd] in *; [|done..]. apply Hp. intros d e s2 Hd He. pose proof (Hr t eff d Ht Hd) as Hlt.
  apply IH; [done|lia|]. intros x [->%elem_of_singleton|Hx]%elem_of_union; [done|]. apply Ho in Hx. lia.
Qed.

(** ** The frontier in the cut *)

(** A step down from an excluded effect. *)
Definition excluded_step (s : cut) (key : bytes) (x y : Tip) : Prop := cut_decided s !! x = Some false /\ y ∈ hist_next store key x.

Lemma excluded_extends s s' key x y : extends s s' -> excluded_step s key x y -> excluded_step s' key x y.
Proof. intros He [H1 H2]. split; [eapply lookup_weaken; [exact H1|apply He]|done]. Qed.

(** What the rest of a walk adds: [V] are the effects it visits. *)
Record swept (key : bytes) (stack : list Tip) (seen : gset Tip) (F F' : list Tip) (s' : cut) (V : gset Tip) : Prop := {
  sw_new : forall x, x ∈ V -> (x ∉ seen) /\ exists y, y ∈ stack /\ rtc (excluded_step s' key) y x;
  sw_stack : forall x, x ∈ stack -> x ∈ seen \/ x ∈ V;
  sw_decided : forall x, x ∈ V -> (cut_decided s' !! x = Some true /\ x ∈ F')
    \/ (cut_decided s' !! x = Some false /\ forall d, d ∈ hist_next store key x -> d ∈ seen \/ d ∈ V);
  sw_frontier : forall x, x ∈ F' <-> x ∈ F \/ (x ∈ V /\ cut_decided s' !! x = Some true);
}.

Lemma hist_ok fuel : forall key stack seen F s s' F', hist_loop store fuel key stack seen F s = (s', inr F') -> consistent s ->
  extends s s' /\ consistent s' /\ exists V, swept key stack seen F F' s' V.
Proof.
  induction fuel as [|fuel IH]; intros key [|t stack] seen F s s' F'; cbn [hist_loop]; try done;
    [intros [= <- <-] Hc; (split; [apply extends_refl|]); (split; [done|]); exists ∅; split; set_solver..|].
  case_bool_decide as Hs.
  { intros Hl Hc. destruct (IH _ _ _ _ _ _ _ Hl Hc) as (H1 & H2 & V & [S1 S2 S3 S4]). split_and!; [done..|]. exists V. split; [|set_solver|done|done].
    intros x Hx. destruct (S1 x Hx) as (Hn & y & Hy & Hp). split; [done|]. exists y. split; [by constructor|done]. }
  unfold getEffect. destruct (store !! t) as [eff|] eqn:Et; [|done].
  intros Hl Hc. destruct (member_ok (member_fuel store) ∅ t eff s Et Hc) as [[D1 D2 _] Hm].
  destruct (member store (member_fuel store) ∅ t eff s) as [s1 [err|[|]]]; cbn [fst snd] in *; [done| |];
    destruct (IH _ _ _ _ _ _ _ Hl D2) as (H1 & H2 & V & [S1 S2 S3 S4]);
    (split; [by eapply extends_trans|]); (split; [done|]); exists ({[ t ]} ∪ V);
    specialize (Hm _ eq_refl); assert (Ht' : cut_decided s' !! t = Some _) by (eapply lookup_weaken; [exact Hm|apply H1]); clear Hl.
  - split.
    + intros x [->%elem_of_singleton|Hx]%elem_of_union; [split; [done|]; exists t; split; [constructor|done]|].
      destruct (S1 x Hx) as (Hn & y & Hy & Hp). split; [set_solver|]. exists y. split; [by constructor|done].
    + intros x [->|Hx]%elem_of_cons; [set_solver|]. destruct (S2 x Hx); set_solver.
    + intros x [->%elem_of_singleton|Hx]%elem_of_union; [left; split; [done|]; apply S4; left; set_solver|].
      destruct (S3 x Hx) as [|[Hf Hd]]; [by left|]. right. split; [done|]. intros d Hdd. destruct (Hd d Hdd); set_solver.
    + intros x. rewrite S4, elem_of_app, list_elem_of_singleton, elem_of_union, elem_of_singleton. split; [|tauto].
      intros [[|Hx]|Hx]; [by left|subst x; auto|destruct Hx; auto].
  - split.
    + intros x [->%elem_of_singleton|Hx]%elem_of_union; [split; [done|]; exists t; split; [constructor|done]|].
      destruct (S1 x Hx) as (Hn & y & [Hy|Hy]%elem_of_app & Hp); (split; [set_solver|]); [|exists y; split; [by constructor|done]].
      exists t. split; [constructor|]. eapply rtc_l; [|exact Hp]. split; [done|]. by apply list_elem_of_In, in_rev, list_elem_of_In in Hy.
    + intros x [->|Hx]%elem_of_cons; [set_solver|]. destruct (S2 x); [apply elem_of_app; by right|set_solver..].
    + intros x [->%elem_of_singleton|Hx]%elem_of_union.
      * right. split; [done|]. intros d Hd. destruct (S2 d); [apply elem_of_app; left; by apply list_elem_of_In, in_rev; rewrite rev_involutive; apply list_elem_of_In|set_solver..].
      * destruct (S3 x Hx) as [|[Hf Hd]]; [by left|]. right. split; [done|]. intros d Hdd. destruct (Hd d Hdd); set_solver.
    + intros x. rewrite S4, elem_of_union, elem_of_singleton. split; [tauto|]. intros [|[[Hx0|] Hx]]; [auto|subst x; congruence|auto].
Qed.

(** ** What the reasons add up to *)

Lemma known_past_true s t keys key frontier known : known_past store s t keys known = inr (Some true) -> key ∈ keys -> cut_frozen s !! key = Some frontier ->
  reach store key frontier t.
Proof.
  revert known. induction keys as [|k keys IH]; intros known; cbn [known_past]; [by intros _ ?%elem_of_nil|]. intros Hk Hin Hfr. unfold contains in Hk.
  destruct (cut_frozen s !! k) as [fr|] eqn:Ef; [|apply elem_of_cons in Hin as [->|Hin]; [congruence|by eapply IH]].
  destruct (contains_loop _ _ _ _ _ _) as [|[|]] eqn:Ec; [done| |done].
  apply elem_of_cons in Hin as [->|Hin]; [|by eapply IH]. simplify_eq. by eapply contains_sound.
Qed.

Lemma known_past_none s t keys : known_past store s t keys false = inr None -> forall key, key ∈ keys -> cut_frozen s !! key = None.
Proof.
  assert (Hn : forall keys known, known_past store s t keys known = inr None -> known = false /\ forall key, key ∈ keys -> cut_frozen s !! key = None).
  { clear keys. induction keys as [|k keys IH]; intros known; cbn [known_past]; [by destruct known; intros ?; (split; [done|by intros ? ?%elem_of_nil])|].
    destruct (cut_frozen s !! k) eqn:Ef.
    - destruct (contains store s k t) as [|[|]]; [done| |done]. intros [? _]%IH. done.
    - intros [-> H]%IH. split; [done|]. intros key [->|Hin]%elem_of_cons; auto. }
  intros H. by apply Hn in H as [_ ?].
Qed.

Lemma known_past_fresh s t keys : cut_frozen s = ∅ -> known_past store s t keys false = inr None.
Proof. intros Hf. induction keys as [|k keys IH]; cbn [known_past]; [done|]. by rewrite Hf, lookup_empty. Qed.

Lemma frozen_kept s t eff key frontier : justified s t true -> store !! t = Some eff -> key ∈ member_keys eff -> cut_frozen s !! key = Some frontier ->
  reach store key frontier t.
Proof.
  intros (eff' & He & Hj) Ht Hk Hf. assert (eff' = eff) as -> by congruence. destruct Hj as [Hp|[Hp _]]; [by eapply known_past_true|].
  apply (known_past_none s t (member_keys eff)) with (key := key) in Hp; [congruence|done].
Qed.

(** Surely after the start of the transaction, or not. *)
Definition later (s : cut) (t : Tip) : Prop := exists eff lower upper, store !! t = Some eff /\ interval_of s eff = inr (lower, upper) /\ 0 < lower.
Definition not_later (s : cut) (t : Tip) : Prop := exists eff lower upper, store !! t = Some eff /\ interval_of s eff = inr (lower, upper) /\ lower <= 0.

(** A snapshot with state that is surely before it stands for its past. *)
Definition stands_alone (s : cut) (eff : Effect) : Prop := is_state_snapshot eff = true /\ exists lower upper, interval_of s eff = inr (lower, upper) /\ upper <= 0.

Definition past_step (s : cut) (x y : Tip) : Prop := exists eff, store !! x = Some eff /\ y ∈ allDeps eff /\ ~ stands_alone s eff.

Definition any_step (x y : Tip) : Prop := exists eff, store !! x = Some eff /\ y ∈ allDeps eff.

Lemma cut_closed s t x : consistent s -> given = ∅ -> cut_frozen s = ∅ -> cut_decided s !! t = Some true -> rtc (past_step s) t x ->
  cut_decided s !! x = Some true /\ not_later s x.
Proof.
  intros Hc Hg Hf Ht Hp. induction Hp as [t|t y x (eff & He & Hy & Hno) _ IH].
  - split; [done|]. destruct (Hc t true Ht) as [H|(eff & He & [Hj|(_ & lower & upper & Hi & Hl & _)])]; [by rewrite Hg in H| |].
    + unfold past_of in Hj. by rewrite known_past_fresh in Hj.
    + by exists eff, lower, upper.
  - apply IH. destruct (Hc t true Ht) as [H|(eff' & He' & [Hj|(_ & lower & upper & Hi & _ & [(S1 & S2 & _)|Hall])])]; [by rewrite Hg in H| | |]; simplify_eq.
    + unfold past_of in Hj. by rewrite known_past_fresh in Hj.
    + destruct Hno. split; [done|]. by exists lower, upper.
    + by apply Hall.
Qed.

Lemma cut_excluded rank s t : ranked store rank -> consistent s -> given = ∅ -> cut_frozen s = ∅ -> cut_decided s !! t = Some false ->
  exists x, rtc any_step t x /\ later s x.
Proof.
  intros Hr Hc Hg Hf. assert (Hn : forall n t, (rank t < n)%nat -> cut_decided s !! t = Some false -> exists x, rtc any_step t x /\ later s x); [|by intros Ht; apply (Hn (S (rank t))); [lia|]].
  induction n as [|n IH]; [lia|]. intros u Hu Hd.
  destruct (Hc u false Hd) as [H|(eff & He & [Hj|(_ & lower & upper & Hi & [Hlo|(d & Hdep & Hdd)])])]; [by rewrite Hg in H| | |].
  - unfold past_of in Hj. by rewrite known_past_fresh in Hj.
  - exists u. split; [done|]. by exists eff, lower, upper.
  - destruct (IH d) as (x & Hx & Hl); [pose proof (Hr u eff d He Hdep); lia|done|]. exists x. split; [|done]. eapply rtc_l; [by exists eff|done].
Qed.

End Props.

Section Theorems.
Context {sorter : SortFunc} {ranger : MapRange}.
Variable (store : Store).

(** Looking up the frontier ends, and fails only for want of an effect or of a
    clock interval. *)
Lemma historical_tame rank key tips s : ranked store rank -> tame (historicalFrontier store key tips s).2.
Proof.
  intros Hr. unfold historicalFrontier. assert (Hdom : forall t, hist_next store key t <> [] -> t ∈ dom store).
  { intros t. unfold hist_next, getEffect. destruct (store !! t) eqn:E; [by apply elem_of_dom_2 in E|done]. }
  pose proof (dfs_fuel_enough (hist_next store key) (dom store) (rev tips)) as Hf. set (fuel := dfs_fuel _ _ _) in *. clearbody fuel.
  generalize dependent (rev tips). generalize (∅ : gset Tip). generalize (@nil Tip). revert s. induction fuel as [|fuel IH]; intros s F seen [|t stack] Hf; cbn [hist_loop]; try done.
  { cbn in Hf. lia. }
  cbn [length] in Hf. case_bool_decide as Hs; [apply IH; lia|]. unfold getEffect. destruct (store !! t) as [eff|] eqn:Et; [|done].
  pose proof (member_tame store rank (member_fuel store) Hr ∅ t eff s Et) as Hm. rewrite difference_empty_L, size_dom in Hm.
  specialize (Hm ltac:(unfold member_fuel; lia) ltac:(by intros ? ?%elem_of_empty)).
  pose proof (dfs_weight_visit (fun _ => false) (hist_next store key) (dom store) Hdom t seen Hs) as Hw.
  destruct (member store (member_fuel store) ∅ t eff s) as [s1 [err|[|]]]; cbn [snd] in *; [done|apply IH; lia|].
  apply IH. rewrite length_app, length_rev. lia.
Qed.

(** [C16] A transaction reads a causal cut.  The tips a key had in the cut are
    exactly the effects in it that the current tips reach through effects
    outside it.  Decisions taken before stand.  An effect that is admitted is
    in the history of each of its keys that was read before, so no key gains
    anything after it was read.  On the first read, everything in the past of
    an admitted effect is admitted, up to snapshots that are surely before the
    start and stand for their past, and nothing admitted is surely after the
    start; and an effect is left out only because it or something in its past
    is surely after the start.  The search ends, and fails only for want of an
    effect or of a clock interval. *)
Theorem transaction_reads_a_cut (rank : Tip -> nat) (key : bytes) (tips : list Tip) (s : cut) : ranked store rank ->
  let (s', r) := historicalFrontier store key tips s in
  tame r /\ forall F, r = inr F ->
  (forall t, t ∈ F <-> cut_decided s' !! t = Some true /\ exists x, x ∈ tips /\ rtc (excluded_step store s' key) x t)
  /\ (forall t b, cut_decided s !! t = Some b -> cut_decided s' !! t = Some b)
  /\ (forall t eff k frontier, cut_decided s !! t = None -> cut_decided s' !! t = Some true -> store !! t = Some eff -> k ∈ member_keys eff ->
       cut_frozen s !! k = Some frontier -> reach store k frontier t)
  /\ (cut_decided s = ∅ -> cut_frozen s = ∅ ->
       (forall t x, cut_decided s' !! t = Some true -> rtc (past_step store s') t x -> cut_decided s' !! x = Some true /\ not_later store s' x)
       /\ (forall t, cut_decided s' !! t = Some false -> exists x, rtc (any_step store) t x /\ later store s' x)).
Proof.
  intros Hr. pose proof (historical_tame rank key tips s Hr) as Hta. destruct (historicalFrontier store key tips s) as [s' r] eqn:Hh.
  split; [exact Hta|]. intros F ->. assert (Hc : consistent store (cut_decided s) s) by (intros t b Hb; by left).
  destruct (hist_ok store (cut_decided s) _ _ _ _ _ _ _ _ Hh Hc) as ([Hframe Hdec] & Hc' & V & [S1 S2 S3 S4]).
  assert (Hrev : forall x, x ∈ rev tips <-> x ∈ tips) by (intros x; by rewrite !list_elem_of_In, <- in_rev).
  split_and!.
  - intros t. rewrite S4. split.
    + intros [?%elem_of_nil|[Hv Ht]]; [done|]. split; [done|]. destruct (S1 t Hv) as (_ & y & Hy%Hrev & Hp). eauto.
    + intros [Ht (x & Hx%Hrev & Hp)]. right. split; [|done]. assert (Hxv : x ∈ V) by (destruct (S2 x Hx); [set_solver|done]). clear Hx.
      induction Hp as [|x y t [Hf Hy] _ IH]; [done|]. apply IH; [done|]. destruct (S3 x Hxv) as [[Hx _]|[_ Hd]]; [congruence|]. destruct (Hd y Hy); [set_solver|done].
  - intros t b Hb. by eapply lookup_weaken.
  - intros t eff k frontier Hn Ht He Hk Hf. destruct (Hc' t true Ht) as [|Hj]; [congruence|]. eapply frozen_kept; [done|done|done|].
    unfold frame_of in Hframe. by injection Hframe as _ _ ->.
  - intros Hd Hf. rewrite Hd in Hc'. assert (Hf' : cut_frozen s' = ∅) by (unfold frame_of in Hframe; by injection Hframe as _ _ ->). split.
    + intros t x Ht Hp. by eapply (cut_closed store ∅).
    + intros t Ht. by eapply (cut_excluded store ∅ rank).
Qed.

End Theorems.
