(* ===== verification/MvccWitness.v ===== *)
(** * A small network and two clocks *)

From S2P Require Import Prelude Golib Proto Store Walk Dag DagProps Stn StnExact Clocks Mvcc.

#[local] Existing Instance listed_range.

Definition tn_ok (r : stn_error + Network) : Network :=
  match r with inr s => s | inl _ => mkNetwork [] 0 0 [] [] end.

(** A square of four points, which needs a fill edge, with three bounds, then a
    fifth point tied to the first. *)
Definition tn_0 : Network := tn_ok (New 4 [(0, 1); (1, 2); (2, 3); (3, 0)]%nat).
Definition tn_1 : Network := tn_ok (Constrain tn_0 0 1 5).
Definition tn_2 : Network := tn_ok (Constrain tn_1 1 2 7).
Definition tn_3 : Network := tn_ok (Constrain tn_2 2 3 (-4)).
Definition tn_4 : Network := match AddPoint tn_3 with inr (s, _) => s | inl _ => tn_3 end.
Definition tn_5 : Network := tn_ok (Connect tn_4 4 0).
Definition tn_6 : Network := tn_ok (Constrain tn_5 4 0 1).

Definition tn_bounds : list (nat * nat * Z) :=
  [(4%nat, 0%nat, 1); (2%nat, 3%nat, -4); (1%nat, 2%nat, 7); (0%nat, 1%nat, 5)].

Ltac computed := match goal with |- _ = inr _ => vm_compute; reflexivity end.

Lemma tn_run : net_run tn_6 tn_bounds.
Proof.
  apply (run_constrain _ tn_5 _ _ _ _ _); [|computed]. apply (run_connect _ tn_4 _ 4 0 _); [|computed].
  apply (run_point tn_3 _ _ 4%nat); [|computed]. apply (run_constrain _ tn_2 _ _ _ _ _); [|computed].
  apply (run_constrain _ tn_1 _ _ _ _ _); [|computed]. apply (run_constrain _ tn_0 _ _ _ _ _); [|computed].
  apply (run_new _ 4 [(0, 1); (1, 2); (2, 3); (3, 0)]%nat). computed.
Qed.

Definition tn_time (v : nat) : Z := match Z.of_nat v with 1 => 4 | 2 => 10 | 3 => 6 | 4 => -1 | _ => 0 end.

Lemma network_exact_witness :
  Upper tn_6 4 3 = inr 9 /\ tn_time 3 - tn_time 4 <= 9
  /\ Constrain tn_6 3 0 (-9) = inl ErrInconsistent /\ -9 < tn_time 0 - tn_time 3.
Proof.
  assert (timed 1 tn_time) as Ht by (split; [lia|]; intros v; unfold tn_time; repeat case_match; lia).
  assert (satisfies 1 tn_time tn_bounds) as Hs by (unfold satisfies, tn_bounds; rewrite !list.Forall_cons; unfold tn_time; simpl; split_and!; [lia..|constructor]).
  destruct (network_exact listed_range tn_6 tn_bounds 1 tn_time tn_run Ht) as [_ H].
  assert (Upper tn_6 4 3 = inr 9) as Eu by (vm_compute; reflexivity).
  assert (Constrain tn_6 3 0 (-9) = inl ErrInconsistent) as Ec by (vm_compute; reflexivity).
  split; [exact Eu|]. split; [|split; [exact Ec|]].
  - pose proof (proj2 (proj2 (H 4%nat 3%nat 0)) 9 Hs Eu) as Hu. rewrite Z.mul_1_l in Hu. exact Hu.
  - pose proof (proj1 (proj2 (H 3%nat 0%nat (-9))) Ec Hs) as Hu. rewrite Z.mul_1_l in Hu. exact Hu.
Defined.

(** Two nodes whose clocks start at 1000 and 50: a message from the first to
    the second, and one back. *)
Definition tc_obs : list (Sample * Sample) :=
  [(mkSample 1 1000, mkSample 2 60); (mkSample 2 70, mkSample 1 1030)].

Definition tc_clocks : Clocks := default (mkClocks (mkNetwork [] 0 0 [] []) ∅ 0) (NewClocks 1000).

Definition tc_taken (s : Sample) : Prop := s = mkSample 1 1000 \/ s = mkSample 1 1030 \/ s = mkSample 2 60 \/ s = mkSample 2 70.

Definition tc_time (s : Sample) : Z := if s_domain s =? 1 then s_tick s - 1000 else s_tick s - 50.

Lemma tc_true : true_times 1000 1 tc_time tc_taken.
Proof.
  split; [lia| | |].
  - intros s Hs. unfold tc_taken in Hs. unfold tc_time. destruct Hs as [-> |[-> |[-> | ->]]]; simpl; lia.
  - intros s Hs. unfold tc_taken in Hs. unfold is_int64, min_int64, max_int64. destruct Hs as [-> |[-> |[-> | ->]]]; simpl; lia.
  - intros s1 s2 H1 H2. unfold tc_taken, tc_time in *.
    destruct H1 as [-> |[-> |[-> | ->]]], H2 as [-> |[-> |[-> | ->]]]; simpl; lia.
Qed.

Lemma clock_evidence_sound_witness :
  Difference (merge tc_clocks tc_obs) (mkSample 1 1000) (mkSample 2 70) = inr (9, 33)
  /\ 9 <= tc_time (mkSample 2 70) - tc_time (mkSample 1 1000) <= 33.
Proof.
  assert (Difference (merge tc_clocks tc_obs) (mkSample 1 1000) (mkSample 2 70) = inr (9, 33)) as E by (vm_compute; reflexivity).
  split; [exact E|].
  assert (NewClocks 1000 = Some tc_clocks) as En by (vm_compute; reflexivity).
  assert (Forall (observed tc_time tc_taken) tc_obs) as Ho.
  { unfold tc_obs, observed, tc_taken, tc_time. rewrite !list.Forall_cons. simpl. split_and!; auto; lia. }
  pose proof (proj2 (clock_evidence_sound listed_range 1000 1 tc_time tc_taken tc_obs tc_clocks tc_true En Ho)
    (mkSample 1 1000) (mkSample 2 70) 9 33 ltac:(unfold tc_taken; auto) ltac:(unfold tc_taken; auto) E) as H.
  rewrite !Z.mul_1_l in H. exact H.
Defined.

(** * A read as of a moment

    Node 1 wrote a key twice; a transaction that started in between reads the
    first write. *)


#[local] Existing Instance insertion_sorter.
#[local] Instance mvcc_ranger : MapRange := listed_range.

Definition mv_effect (hlc : Z) (deps : list Tip) : Effect :=
  mkEffect [x6b] (Some (mkTimestamp hlc 0)) 1 deps [] [] [] (Some (KData (mkData INSERT_OP LAST_WRITE_WINS SCALAR PLACE_NONE [] [] (Some (IntVal hlc))))).

Definition mv_store : Store := {[ (1, 1) := mv_effect 1 []; (1, 2) := mv_effect 9 [(1, 1)] ]}.

(** No evidence about other clocks. *)
Definition mv_start : option cut := newTransactionSnapshot 1 (mkTimestamp 5 0) <$> NewClocks 200.

Lemma mv_started : exists s, mv_start = Some s /\ cut_decided s = ∅ /\ cut_frozen s = ∅
  /\ (historicalFrontier mv_store [x6b] [(1, 2)] s).2 = inr [(1, 1)].
Proof. eexists. split; [vm_compute; reflexivity|]. split; [reflexivity|]. split; [reflexivity|]. vm_compute. reflexivity. Qed.

Definition mv_rank (t : Tip) : nat := Z.to_nat t.2.

Lemma mv_ranked : ranked mv_store mv_rank.
Proof.
  intros t eff d Ht Hd. unfold mv_store in Ht. rewrite lookup_insert_Some, lookup_singleton_Some in Ht.
  destruct Ht as [[<- <-]|(_ & <- & <-)]; [by apply elem_of_nil in Hd|].
  change (allDeps (mv_effect 9 [(1, 1)])) with [(1, 1)] in Hd. apply list_elem_of_singleton in Hd as ->. unfold mv_rank. cbn. lia.
Qed.

Lemma transaction_reads_a_cut_witness :
  exists s s', mv_start = Some s /\ historicalFrontier mv_store [x6b] [(1, 2)] s = (s', inr [(1, 1)])
    /\ cut_decided s' !! (1, 1) = Some true /\ not_later mv_store s' (1, 1).
Proof.
  destruct mv_started as (s & Es & D & Z0 & E).
  pose proof (transaction_reads_a_cut mv_store mv_rank [x6b] [(1, 2)] s mv_ranked) as H.
  destruct (historicalFrontier mv_store [x6b] [(1, 2)] s) as [s' r] eqn:Eh. cbn [snd] in E. subst r. exists s, s'. split; [exact Es|]. split; [exact Eh|].
  destruct H as [_ H]. destruct (H _ eq_refl) as (H1 & _ & _ & H4). destruct (proj1 (H1 (1, 1))) as [Hd _]; [left|]. split; [exact Hd|].
  destruct (H4 D Z0) as [H5 _]. destruct (H5 (1, 1) (1, 1) Hd) as [_ Hn]; [apply rtc_refl|exact Hn].
Defined.
