(* ===== verification/Frontier.v ===== *)
(** * The frontier of a key: effects/context.go (updateIndex, installTips)

    The tips of a key change by compare-and-swap on the key's tip set: a writer
    loads the set, computes the set that should replace it, and inserts it on
    condition that nobody changed it in between, retrying when somebody did.
    A writer is a thread of two atomic steps, [load] and [cas]; any number of
    them run interleaved with each other and with the index's own maintenance.

    The theorem is that the interleaving is invisible: the frontier is what the
    committed updates make of it one after the other, no tip is lost to a race,
    and a failed attempt is always another writer's success. *)

From S2P Require Import Prelude Golib TipSet Critbit CritbitProps CritbitRefine CritbitOrder CritbitWitness.

(** ** The updates *)

(** [updateIndex(key, initialTips, lastOffset)] consumes tips and adds one;
    [installTips(key, tips)] adds. *)
Inductive tip_update :=
  | UpdateIndex (initialTips : option TipSet) (lastOffset : Tip)
  | InstallTips (tips : list Tip).

(** The offsets of one attempt, from the tip set that was loaded. *)
Definition update_offsets (u : tip_update) (current : option TipSet) : list Tip :=
  match u with
  | UpdateIndex initialTips lastOffset =>
      match current with
      | None => []
      | Some _ => filter (fun tp => initialTips = None \/ tp ∉ Tips initialTips) (Tips current)
      end ++ [lastOffset]
  | InstallTips tips => Tips current ++ tips
  end.

(** Whether the observers of the key are notified. *)
Definition tips_changed (current newTips : option TipSet) : bool :=
  negb (TipSet_Len current =? TipSet_Len newTips)%nat || negb (TipSet_ContainsAll current (Tips newTips)).

Inductive attempt := Installed (notify : bool) | Retry | GaveUp.

Section Attempt.
Context {T : Type}.
Implicit Types c : Critbit T.

(** What one pass of the loop does with the set it loaded: install at address
    [addr], retry, or give up on a closed index. *)
Definition try_update (evictDecider : option (bytes -> bool)) (addr : Z) (key : bytes) (u : tip_update)
    (current : option TipSet) c : Critbit T * attempt :=
  let newTips := Some (NewTipSet addr (update_offsets u current)) in
  match Insert evictDecider key current newTips c with
  | (c', InsertOk) => (c', Installed (tips_changed current newTips))
  | (c', _) => (c', if c_closed c' then GaveUp else Retry)
  end.

(** The loop without interference: load, then attempt, from address [addr] on. *)
Fixpoint update_loop (fuel : nat) (evictDecider : option (bytes -> bool)) (addr : Z) (key : bytes) (u : tip_update) c
    : option (Critbit T * attempt) :=
  match fuel with
  | O => None
  | S fuel =>
      match try_update evictDecider addr key u (Contains c key) c with
      | (c', Retry) => update_loop fuel evictDecider (addr + 1) key u c'
      | done => Some done
      end
  end.

End Attempt.

(** ** Writers and interleavings *)

Section System.
Context {T : Type}.
Variable evictDecider : option (bytes -> bool).

(** A writer: its key, its update, and the set it loaded with the number of
    updates the key had seen by then. *)
Record writer := mkWriter { w_key : bytes; w_update : tip_update; w_loaded : option (option TipSet * nat) }.

(** The index, the writers still at work, and the committed updates, latest
    first. *)
Record system := mkSystem {
  sy_index : Critbit T;
  sy_writers : gmap nat writer;
  sy_log : list (bytes * tip_update);
}.

Definition commits (key : bytes) (log : list (bytes * tip_update)) : list tip_update :=
  map snd (filter (fun p => p.1 = key) log).

(** Events that leave every key's tips alone. *)
Definition quiet (ev : event T) : bool :=
  match ev with
  | EvPin _ _ | EvUnpin _ _ | EvLoadData _ _ | EvStoreData _ _ _ _ | EvInternal => true
  | _ => false
  end.

Inductive sys_step : system -> system -> Prop :=
  | sys_load c ws log i w :
      ws !! i = Some w ->
      sys_step (mkSystem c ws log)
        (mkSystem c (<[i := mkWriter (w_key w) (w_update w) (Some (Contains c (w_key w), length (commits (w_key w) log)))]> ws) log)
  | sys_cas c ws log i w current n addr c' notify :
      ws !! i = Some w -> w_loaded w = Some (current, n) ->
      try_update evictDecider addr (w_key w) (w_update w) current c = (c', Installed notify) ->
      sys_step (mkSystem c ws log) (mkSystem c' (delete i ws) ((w_key w, w_update w) :: log))
  | sys_fail c ws log i w current n addr c' :
      ws !! i = Some w -> w_loaded w = Some (current, n) ->
      try_update evictDecider addr (w_key w) (w_update w) current c = (c', Retry) ->
      sys_step (mkSystem c ws log) (mkSystem c' (<[i := mkWriter (w_key w) (w_update w) None]> ws) log)
  | sys_other c ws log ev c' :
      trie_step evictDecider c ev c' -> quiet ev = true -> sys_step (mkSystem c ws log) (mkSystem c' ws log).

(** ** What the updates mean, one after the other *)

Definition consumed (u : tip_update) : list Tip :=
  match u with UpdateIndex initialTips _ => Tips initialTips | InstallTips _ => [] end.

Definition added (u : tip_update) : list Tip :=
  match u with UpdateIndex _ lastOffset => [lastOffset] | InstallTips tips => tips end.

(** [log] is latest first. *)
Fixpoint frontier (start : gset Tip) (log : list tip_update) : gset Tip :=
  match log with
  | [] => start
  | u :: log' => (frontier start log' ∖ list_to_set (consumed u)) ∪ list_to_set (added u)
  end.

Definition tips_set (ts : option TipSet) : gset Tip := list_to_set (Tips ts).

(** ** Attempts *)

Lemma update_offsets_set u current addr :
  tips_set (Some (NewTipSet addr (update_offsets u current)))
  = (tips_set current ∖ list_to_set (consumed u)) ∪ list_to_set (added u).
Proof.
  apply set_eq. intros t. unfold tips_set. cbn [Tips]. rewrite elem_of_list_to_set, elem_of_NewTipSet.
  rewrite elem_of_union, elem_of_difference, !elem_of_list_to_set. destruct u as [initial last|tips]; cbn [update_offsets consumed added].
  - rewrite elem_of_app, list_elem_of_singleton. destruct current as [ts|]; cbn [Tips].
    + rewrite list_elem_of_filter. destruct initial; cbn [Tips]; set_solver.
    + set_solver.
  - rewrite elem_of_app. set_solver.
Qed.

Lemma tips_changed_iff current newTips : NoDup (Tips current) -> NoDup (Tips newTips) ->
  tips_changed current newTips = true <-> tips_set current <> tips_set newTips.
Proof.
  intros H1 H2. unfold tips_changed, TipSet_Len, TipSet_ContainsAll, tips_set.
  rewrite orb_true_iff, !negb_true_iff, Nat.eqb_neq, <- not_true_iff_false, forallb_forall.
  split.
  - intros [Hl|Hc] E.
    + apply Hl. rewrite <- (size_list_to_set (C := gset Tip) (Tips current)), E, size_list_to_set by done. done.
    + apply Hc. intros t Ht%list_elem_of_In. unfold TipSet_Contains. apply bool_decide_eq_true.
      rewrite <- (elem_of_list_to_set (C := gset Tip)), E. by apply elem_of_list_to_set.
  - intros Hne. destruct (decide (length (Tips current) = length (Tips newTips))) as [El|]; [right|by left].
    intros Hc. apply Hne, set_eq. intros t. rewrite !elem_of_list_to_set.
    assert (Hsub : forall t, t ∈ Tips newTips -> t ∈ Tips current).
    { intros x Hx. specialize (Hc x). unfold TipSet_Contains in Hc. rewrite bool_decide_eq_true in Hc. by apply Hc, list_elem_of_In. }
    split; [|apply Hsub].
    assert (Hp : Tips newTips ≡ₚ Tips current).
    { apply submseteq_length_Permutation; [by apply NoDup_submseteq|lia]. }
    by rewrite Hp.
Qed.

(** ** The invariant *)

Definition tips_of (m : gmap bytes (entry T)) (k : bytes) : option TipSet := m !! k ≫= en_tips.

(** A quiet event changes no key's tips and removes no key. *)
Lemma quiet_spec (m m' : gmap bytes (entry T)) ev : spec_step m ev m' -> quiet ev = true ->
  (forall k, tips_of m' k = tips_of m k) /\ (forall k, is_Some (m !! k) -> is_Some (m' !! k)).
Proof.
  intros Hs Hq.
  assert (Hins : forall k e e', m !! k = Some e -> en_tips e' = en_tips e ->
    (forall i, tips_of (<[k := e']> m) i = tips_of m i) /\ (forall i, is_Some (m !! i) -> is_Some (<[k := e']> m !! i))).
  { intros k e e' Hk He. unfold tips_of. split; intros i; destruct (decide (i = k)) as [->|Hi].
    - rewrite lookup_insert_eq, Hk. simpl. done.
    - by rewrite lookup_insert_ne.
    - rewrite lookup_insert_eq. eauto.
    - by rewrite lookup_insert_ne. }
  inversion Hs; subst; try done; by eapply Hins.
Qed.

(** The outcomes of an insert that an attempt relies on. *)
Lemma insert_outcome cb cb' k old ts res : cb_ok cb -> Insert evictDecider k old (Some ts) cb = (cb', res) ->
  (is_Some old -> is_Some (abs cb !! k)) ->
  cb_ok cb' /\
  match res with
  | InsertOk => old = Contains cb k /\ (forall i, tips_of (abs cb') i = if decide (i = k) then Some ts else tips_of (abs cb) i)
                /\ forall i, is_Some (abs cb !! i) -> is_Some (abs cb' !! i)
  | _ => old <> Contains cb k /\ abs cb' = abs cb
  end.
Proof.
  intros Hok Hi Hold. destruct (insert_refines evictDecider _ _ _ _ _ _ Hok Hi) as [Hok' Hs]. split; [done|].
  assert (Hins : forall e, en_tips e = Some ts ->
    (forall i, tips_of (<[k := e]> (abs cb)) i = if decide (i = k) then Some ts else tips_of (abs cb) i)
    /\ forall i, is_Some (abs cb !! i) -> is_Some (<[k := e]> (abs cb) !! i)).
  { intros e He. unfold tips_of. split; intros i; destruct (decide (i = k)) as [->|Hne].
    - by rewrite lookup_insert_eq.
    - by rewrite lookup_insert_ne.
    - rewrite lookup_insert_eq. eauto.
    - by rewrite lookup_insert_ne. }
  rewrite contains_abs by done. inversion Hs; subst.
  - match goal with Hn : abs cb !! k = None |- _ => rewrite Hn in * end. split; [|by apply Hins].
    destruct old; [|done]. by destruct (Hold ltac:(eauto)).
  - match goal with He : abs cb !! k = Some _ |- _ => rewrite He end. split; [done|by apply Hins].
  - match goal with He : abs cb !! k = Some _ |- _ => rewrite He end. simpl. by split; [congruence|].
  - match goal with Hn : abs cb !! k = None |- _ => rewrite Hn in * end. by destruct (Hold ltac:(eauto)).
Qed.

Record sys_inv (start : bytes -> gset Tip) (s : system) : Prop := {
  si_ok : cb_ok (sy_index s);
  si_frontier : forall k, tips_set (tips_of (abs (sy_index s)) k) = frontier (start k) (commits k (sy_log s));
  si_loaded : forall i w current n, sy_writers s !! i = Some w -> w_loaded w = Some (current, n) ->
    (n <= length (commits (w_key w) (sy_log s)))%nat
    /\ (n = length (commits (w_key w) (sy_log s)) -> tips_of (abs (sy_index s)) (w_key w) = current)
    /\ (is_Some current -> is_Some (abs (sy_index s) !! w_key w));
}.

Lemma commits_cons k k' u log : commits k ((k', u) :: log) = if decide (k' = k) then u :: commits k log else commits k log.
Proof. unfold commits. rewrite list.filter_cons. cbn [fst]. by case_decide. Qed.

Lemma tips_of_present (m : gmap bytes (entry T)) k : is_Some (tips_of m k) -> is_Some (m !! k).
Proof. unfold tips_of. intros [x Hx]. destruct (m !! k); [eauto|done]. Qed.

Lemma sys_step_inv start s s' : sys_inv start s -> sys_step s s' -> sys_inv start s'.
Proof.
  intros [Hok Hf Hl] Hs. inversion Hs as [c ws log i w Hw|c ws log i w current n addr c' notify Hw Hn Ht|c ws log i w current n addr c' Hw Hn Ht|c ws log ev c' Ht Hq];
    subst; cbn [sy_index sy_writers sy_log] in *.
  - split; cbn [sy_index sy_writers sy_log]; [done..|]. intros j w' cur n' Hj Hld. destruct (decide (i = j)) as [->|Hij].
    + rewrite lookup_insert_eq in Hj. injection Hj as <-. cbn [w_loaded w_key] in *. injection Hld as <- <-.
      rewrite contains_abs by done. split_and!; [lia|done|]. apply tips_of_present.
    + rewrite lookup_insert_ne in Hj by done. by eapply Hl.
  - unfold try_update in Ht. destruct (Insert _ _ _ _ c) as [c1 res] eqn:Ei.
    destruct (Hl _ _ _ _ Hw Hn) as (_ & _ & Hpres). destruct (insert_outcome _ _ _ _ _ _ Hok Ei Hpres) as (Hok1 & Hout).
    destruct res; [|by case_match..]. injection Ht as <- _. destruct Hout as (Hcur & Htips & Hkeep).
    rewrite contains_abs in Hcur by done. split; cbn [sy_index sy_writers sy_log]; [done| |].
    + intros k. rewrite Htips, commits_cons. destruct (decide (k = w_key w)) as [->|Hne].
      * rewrite decide_True by done. cbn [frontier]. rewrite update_offsets_set, Hcur. by rewrite <- Hf.
      * rewrite decide_False by done. apply Hf.
    + intros j w' cur n' Hj Hld. apply lookup_delete_Some in Hj as [Hij Hj]. destruct (Hl _ _ _ _ Hj Hld) as (H1 & H2 & H3).
      rewrite commits_cons, Htips. case_decide as Hk.
      * cbn [length]. split_and!; [lia|lia|auto].
      * rewrite decide_False by congruence. split_and!; auto.
  - unfold try_update in Ht. destruct (Insert _ _ _ _ c) as [c1 res] eqn:Ei.
    destruct (Hl _ _ _ _ Hw Hn) as (_ & _ & Hpres). destruct (insert_outcome _ _ _ _ _ _ Hok Ei Hpres) as (Hok1 & Hout).
    assert (c1 = c' /\ abs c1 = abs c) as [-> Habs].
    { destruct res; [done|..]; destruct Hout as [_ ->]; destruct (c_closed c1); simplify_eq; done. }
    split; cbn [sy_index sy_writers sy_log]; [done|by rewrite Habs|]. intros j w' cur n' Hj Hld. rewrite Habs.
    destruct (decide (i = j)) as [->|Hij].
    + rewrite lookup_insert_eq in Hj. by injection Hj as <-.
    + rewrite lookup_insert_ne in Hj by done. by eapply Hl.
  - destruct (step_refines evictDecider _ _ _ Hok Ht) as [Hok' Hsp]. destruct (quiet_spec _ _ _ Hsp Hq) as [Htips Hkeep].
    split; cbn [sy_index sy_writers sy_log]; [done|intros; by rewrite Htips|].
    intros j w' cur n' Hj Hld. destruct (Hl _ _ _ _ Hj Hld) as (H1 & H2 & H3). rewrite Htips. auto.
Qed.

Lemma frontier_keeps start l1 u l2 t : t ∈ added u -> (forall u', u' ∈ l1 -> t ∉ consumed u') -> t ∈ frontier start (l1 ++ u :: l2).
Proof.
  intros Ht. induction l1 as [|u' l1 IH]; intros Hc; cbn [app frontier].
  - apply elem_of_union. right. by apply elem_of_list_to_set.
  - apply elem_of_union. left. apply elem_of_difference. split; [apply IH; intros; apply Hc; by constructor|].
    rewrite elem_of_list_to_set. apply Hc. constructor.
Qed.

Lemma sys_run_inv c0 ws s : cb_ok c0 -> (forall i w, ws !! i = Some w -> w_loaded w = None) ->
  rtc sys_step (mkSystem c0 ws []) s -> sys_inv (fun k => tips_set (tips_of (abs c0) k)) s.
Proof.
  intros Hok Hws Hr.
  assert (H0 : sys_inv (fun k => tips_set (tips_of (abs c0) k)) (mkSystem c0 ws [])).
  { split; cbn [sy_index sy_writers sy_log]; [done|done|]. intros i w cur n Hi Hl. rewrite (Hws _ _ Hi) in Hl. done. }
  revert H0. induction Hr as [|s1 s2 s3 Hs _ IH]; intros H0; [done|]. apply IH. by eapply sys_step_inv.
Qed.

(** [C34] Concurrent updates of the frontier are atomic and lose nothing.  Let any
    number of writers load and compare-and-swap in any order, interleaved with
    reaping, pinning and payload accesses, from any index the operations can
    build.  Then the tips of every key are what the committed updates make of
    its first tips one after the other, so a tip stays until an update that
    consumed it commits; an attempt fails only if another update of the key
    committed since the load; and an attempt that succeeds reports a change to
    the key's observers exactly when the set of tips changed. *)
Theorem frontier_linearizable evs c0 ws s k :
  run (trie_step evictDecider) NewCritbit evs c0 ->
  (forall i w, ws !! i = Some w -> w_loaded w = None) ->
  rtc sys_step (mkSystem c0 ws []) s ->
  tips_set (Contains (sy_index s) k) = frontier (tips_set (Contains c0 k)) (commits k (sy_log s))
  /\ (forall l1 u l2 t, commits k (sy_log s) = l1 ++ u :: l2 -> t ∈ added u -> (forall u', u' ∈ l1 -> t ∉ consumed u') ->
        t ∈ Tips (Contains (sy_index s) k))
  /\ (forall i w current n addr c' r, sy_writers s !! i = Some w -> w_loaded w = Some (current, n) ->
        try_update evictDecider addr (w_key w) (w_update w) current (sy_index s) = (c', r) ->
        match r with
        | Installed notify => NoDup (Tips current) ->
            (notify = true <-> tips_set (Contains c' (w_key w)) <> tips_set (Contains (sy_index s) (w_key w)))
        | Retry => (n < length (commits (w_key w) (sy_log s)))%nat
        | GaveUp => False
        end).
Proof.
  intros Hr Hws Hs. destruct (run_refines _ _ _ _ empty_ok Hr) as [Hok0 _].
  destruct (sys_run_inv c0 ws s Hok0 Hws Hs) as [Hok Hf Hl].
  assert (Hc : forall k, tips_set (Contains (sy_index s) k) = frontier (tips_set (Contains c0 k)) (commits k (sy_log s))).
  { intros k'. rewrite !contains_abs by done. apply Hf. }
  split_and!; [done| |].
  - intros l1 u l2 t El Ht Hn. pose proof (frontier_keeps (tips_set (Contains c0 k)) l1 u l2 t Ht Hn) as Hin.
    rewrite <- El, <- Hc in Hin. by apply elem_of_list_to_set in Hin.
  - intros i w current n addr c' r Hw Hn Ht. destruct (Hl _ _ _ _ Hw Hn) as (H1 & H2 & Hpres).
    unfold try_update in Ht. destruct (Insert _ _ _ _ (sy_index s)) as [c1 res] eqn:Ei.
    destruct (insert_outcome _ _ _ _ _ _ Hok Ei Hpres) as (Hok1 & Hout). rewrite contains_abs in Hout by done.
    assert (Hfail : (c1, if c_closed c1 then GaveUp else Retry) = (c', r) ->
      current <> tips_of (abs (sy_index s)) (w_key w) -> r = Retry /\ (n < length (commits (w_key w) (sy_log s)))%nat).
    { rewrite (ok_open _ Hok1). intros [= <- <-] Hne. split; [done|].
      destruct (decide (n = length (commits (w_key w) (sy_log s)))) as [E|]; [|lia]. destruct Hne. symmetry. by apply H2. }
    destruct res.
    + injection Ht as <- <-. intros Hnd. destruct Hout as (Hcur & Htips & _). rewrite !contains_abs by done.
      pose proof (Htips (w_key w)) as E. rewrite decide_True in E by done. unfold tips_of in E, Hcur.
      rewrite E. rewrite <- Hcur. rewrite tips_changed_iff; [|done|apply NoDup_NewTipSet]. split; congruence.
    + destruct (Hfail Ht (proj1 Hout)) as [-> ?]. done.
    + destruct (Hfail Ht (proj1 Hout)) as [-> ?]. done.
Qed.

End System.

(** Without interference the first pass installs. *)
Lemma update_uncontended {T} evictDecider addr key u (c : Critbit T) : cb_ok c ->
  exists c' notify, update_loop 1 evictDecider addr key u c = Some (c', Installed notify).
Proof.
  intros Hok. cbn [update_loop]. unfold try_update. destruct (Insert _ _ _ _ c) as [c1 res] eqn:Ei.
  destruct (insert_outcome evictDecider _ _ _ _ _ _ Hok Ei) as (_ & Hout).
  { rewrite contains_abs by done. apply tips_of_present. }
  destruct res; [eauto|..]; by destruct Hout.
Qed.

(** * Two writers that race on a key *)


Definition fw_update : tip_update := UpdateIndex (Contains ki_cb ki_ab) (5, 1).
Definition fw_install : tip_update := InstallTips [(6, 1)].

Definition fw_start : gmap nat writer :=
  <[0%nat := mkWriter ki_ab fw_update None]> {[ 1%nat := mkWriter ki_ab fw_install None ]}.

Definition fw_loaded : option (option TipSet * nat) := Some (Contains ki_cb ki_ab, 0%nat).

(** Both writers have loaded. *)
Definition fw_ws : gmap nat writer :=
  <[1%nat := mkWriter ki_ab fw_install fw_loaded]> (<[0%nat := mkWriter ki_ab fw_update fw_loaded]> fw_start).

Definition fw_after : Critbit unit := (try_update None 100 ki_ab fw_update (Contains ki_cb ki_ab) ki_cb).1.

Definition fw_sys : system := mkSystem fw_after (delete 0%nat fw_ws) [(ki_ab, fw_update)].

Lemma fw_run : rtc (sys_step None) (mkSystem ki_cb fw_start []) fw_sys.
Proof.
  eapply rtc_l; [exact (sys_load None ki_cb fw_start [] 0 (mkWriter ki_ab fw_update None) eq_refl)|].
  eapply rtc_l; [apply (sys_load None ki_cb _ [] 1 (mkWriter ki_ab fw_install None)); reflexivity|].
  eapply rtc_l; [|apply rtc_refl].
  apply (sys_cas None ki_cb fw_ws [] 0 (mkWriter ki_ab fw_update fw_loaded) (Contains ki_cb ki_ab) 0 100 fw_after true);
    [reflexivity..|]. vm_compute. reflexivity.
Qed.

(** The tips of the first writer are there, and the second one has to retry. *)
Lemma frontier_linearizable_witness :
  Tips (Contains (sy_index fw_sys) ki_ab) = [(5, 1)]
  /\ tips_set (Contains (sy_index fw_sys) ki_ab) = frontier (tips_set (Contains ki_cb ki_ab)) [fw_update]
  /\ (try_update None 101 ki_ab fw_install (Contains ki_cb ki_ab) (sy_index fw_sys)).2 = Retry.
Proof.
  split; [vm_compute; reflexivity|]. split; [|vm_compute; reflexivity].
  assert (forall i w, fw_start !! i = Some w -> w_loaded w = None) as Hn.
  { intros i w H. unfold fw_start in H. apply lookup_insert_Some in H as [[_ <-]|[_ H]]; [reflexivity|].
    apply lookup_singleton_Some in H as [_ <-]. reflexivity. }
  exact (proj1 (frontier_linearizable None ki_evs ki_cb fw_start fw_sys ki_ab ki_run Hn fw_run)).
Defined.
