(* ===== verification/Wire.v ===== *)
(** * Wire formats: effects/wire.go, effects/context.go, effects/effect.go,
    effects/snapshot.go, cluster/udp_transport.go, cluster/heartbeat.go,
    cluster/peer_conn.go, cluster/engine_glue.go, cluster/pubsub_router.go

    The protobuf library is not modelled: a [ProtoCodec] is a pair of its [Marshal]
    and [Unmarshal] for one message type, with the law that what was marshalled
    unmarshals to the message.  Everything around it is: the frame of an
    effect, the hex encoding of element ids, the packet headers, the clock
    tick, the length-prefixed message.

    A slice expression out of range panics in Go: [slice] then has no value,
    and the parsers are shown to have one on every input. *)

From S2P Require Import Prelude Golib Proto.

(** ** Slices and integers *)

Definition slice (data : bytes) (i j : Z) : option bytes :=
  if (0 <=? i) && (i <=? j) && (j <=? Z.of_nat (length data))
  then Some (take (Z.to_nat (j - i)) (drop (Z.to_nat i) data)) else None.

Definition slice_from (data : bytes) (i : Z) : option bytes := slice data i (Z.of_nat (length data)).

Definition blen (data : bytes) : Z := Z.of_nat (length data).

(** A fixed-width little-endian field. *)
Definition get_le (n : Z) (data : bytes) (i : Z) : option Z := le_value <$> slice data i (i + n).

Definition u32 (z : Z) : Z := z mod 2 ^ 32.

(** What [int64(x)] makes of an unsigned 64-bit value. *)
Definition int64_of (z : Z) : Z := wrap64 z.

Class ProtoCodec (M : Type) := {
  marshal : M -> option bytes;
  unmarshal : bytes -> option M;
  unmarshal_marshal : forall m b, marshal m = Some b -> unmarshal b = Some m;
}.

Inductive wire_error := TooShort | BadFormat | BadProto | BadVersion | Truncated | TooLarge.

(** ** hex *)

Definition hex_digit (d : Z) : byte := z2b (if d <? 10 then 48 + d else 87 + d).

Definition hex_value (b : byte) : option Z :=
  let c := b2z b in
  if (48 <=? c) && (c <=? 57) then Some (c - 48)
  else if (97 <=? c) && (c <=? 102) then Some (c - 87)
  else if (65 <=? c) && (c <=? 70) then Some (c - 55)
  else None.

Fixpoint hex_encode (s : bytes) : bytes :=
  match s with [] => [] | b :: s' => hex_digit (b2z b / 16) :: hex_digit (b2z b mod 16) :: hex_encode s' end.

Fixpoint hex_decode (s : bytes) : option bytes :=
  match s with
  | [] => Some []
  | hi :: lo :: s' =>
      match hex_value hi, hex_value lo, hex_decode s' with
      | Some h, Some l, Some r => Some (z2b (16 * h + l) :: r)
      | _, _, _ => None
      end
  | _ => None
  end.

(** ** Element ids inside a snapshot *)

(** A key that does not decode is kept. *)
Definition unhex (k : bytes) : bytes := default k (hex_decode k).

(** A map rebuilt with other keys, entry by entry; a later entry overwrites. *)
Definition rekey {A} (f : bytes -> bytes) (entries : list (bytes * A)) : gmap bytes A :=
  fold_left (fun out '(k, v) => <[f k := v]> out) entries ∅.

Section Sanitize.
Context {ranger : MapRange}.

Definition rekey_adds (f : bytes -> bytes) (r : FlatReduced) : gmap bytes ReducedElement :=
  rekey f (map_range 0 (r_net_adds r)).

(** [NetRemoves] is a map to booleans that are all true: a set of ids. *)
Definition rekey_removes (f : bytes -> bytes) (r : FlatReduced) : gset bytes :=
  dom (rekey f (map_range 1 (gset_to_gmap true (r_net_removes r)))).

Definition rekey_flat (f : bytes -> bytes) (r : FlatReduced) : FlatReduced :=
  mkFlat (r_op r) (r_merge r) (r_collection r) (r_hlc r) (r_node_id r) (r_commutative r) (r_scalar r)
    (rekey_adds f r) (rekey_removes f r) (r_ordered r) (r_type_tag r) (r_expires_at r) (r_subscribers r)
    (r_serialization_leader r) (r_fork_choice_hash r).

(** Only the root's maps are rewritten, not those of the partitions. *)
Definition sanitizeReducedKeys (r : ReducedEffect) : ReducedEffect :=
  mkReduced (rekey_flat hex_encode (red_root r)) (red_partitions r).

Definition desanitizeReducedKeys (r : ReducedEffect) : ReducedEffect :=
  mkReduced (rekey_flat unhex (red_root r)) (red_partitions r).

Definition with_state (f : ReducedEffect -> ReducedEffect) (eff : Effect) : Effect :=
  match e_kind eff with
  | Some (KSnapshot s) =>
      mkEffect (e_key eff) (e_hlc eff) (e_node_id eff) (e_deps eff) (e_txn_id eff) (e_fork_choice_hash eff) (e_virtual eff)
        (Some (KSnapshot (mkSnapshot (s_collection s) (option_map f (s_state s)) (s_txn_verdicts s) (s_prev_snapshot s))))
  | _ => eff
  end.

Definition has_ids (eff : Effect) : bool :=
  match get_snapshot eff ≫= s_state with
  | Some r => negb (bool_decide (r_net_adds (red_root r) = ∅)) || negb (bool_decide (r_net_removes (red_root r) = ∅))
  | None => false
  end.

Context `{!ProtoCodec Effect}.

Definition MarshalEffect (eff : Effect) : option bytes :=
  if has_ids eff then marshal (with_state sanitizeReducedKeys eff) else marshal eff.

Definition UnmarshalEffect (data : bytes) : option Effect :=
  with_state desanitizeReducedKeys <$> unmarshal data.

(** ** The frame of an effect *)

(** [[4-byte LE keyLen][key][protoData]]: [BuildOffsetNotify] and
    [MarshalEffectWire]. *)
Definition frame (key data : bytes) : bytes := le_bytes 4 (u32 (blen key)) ++ key ++ data.

Definition MarshalEffectWire (eff : Effect) : option bytes := frame (e_key eff) <$> MarshalEffect eff.

(** The protobuf part of a frame as [HandleRemote], [handleBackfill] and
    [prefetchEffects] find it: data that does not look like a frame is taken
    whole.  The sum with [keyLen] is 32 bits wide. *)
Definition unwrap (data : bytes) : option bytes :=
  if 4 <? blen data then
    keyLen ← get_le 4 data 0;
    let off := u32 (4 + keyLen) in
    if (0 <? keyLen) && (off <=? u32 (blen data)) then slice_from data off else Some data
  else Some data.

(** [storeWireData], up to the cache. *)
Definition parse_strict (data : bytes) : option (wire_error + Effect) :=
  if blen data <=? 4 then Some (inl TooShort)
  else
    keyLen ← get_le 4 data 0;
    let off := u32 (4 + keyLen) in
    if (keyLen =? 0) || (u32 (blen data) <? off) then Some (inl BadFormat)
    else
      protoData ← slice_from data off;
      Some (match UnmarshalEffect protoData with Some eff => inr eff | None => inl BadProto end).

Definition parseWireEffect (data : bytes) : option (wire_error + Effect) :=
  if blen data <=? 4 then Some (inl TooShort)
  else
    protoData ← unwrap data;
    Some (match UnmarshalEffect protoData with Some eff => inr eff | None => inl BadProto end).

End Sanitize.

(** ** Packets *)

Definition PacketTypeNotify : byte := x03.
Definition PacketTypeNotifyACK : byte := x04.

Definition AssembleNotifyPacket (requestID : Z) (body : bytes) : bytes :=
  PacketTypeNotify :: le_bytes 8 requestID ++ body.

Definition MarshalNotifyPacket {M} `{!ProtoCodec M} (requestID : Z) (notify : M) : option bytes :=
  AssembleNotifyPacket requestID <$> marshal notify.

Definition parseNotifyPacket {M} `{!ProtoCodec M} (data : bytes) : option (wire_error + (Z * M)) :=
  if blen data <? 9 then Some (inl TooShort)
  else
    requestID ← get_le 8 data 1;
    body ← slice_from data 9;
    Some (match unmarshal body with Some notify => inr (requestID, notify) | None => inl BadProto end).

Definition writeNotifyACKHeader (nodeID requestID : Z) (status : byte) (credits : Z) : bytes :=
  PacketTypeNotifyACK :: le_bytes 8 nodeID ++ le_bytes 8 requestID ++ [status] ++ le_bytes 4 credits.

Definition MarshalNotifyACKPacket (nodeID requestID : Z) (status : byte) (credits : Z) : bytes :=
  writeNotifyACKHeader nodeID requestID status credits.

Definition parseNotifyACKPacket (data : bytes) : option (wire_error + (Z * Z * byte * Z)) :=
  if blen data <? 22 then Some (inl TooShort)
  else
    peerID ← get_le 8 data 1;
    requestID ← get_le 8 data 9;
    status ← slice data 17 18 ≫= head;
    credits ← get_le 4 data 18;
    Some (inr (peerID, requestID, status, credits)).

(** Entries that do not marshal are left out. *)
Definition nack_entries {M} `{!ProtoCodec M} (nacks : list M) : list bytes := omap marshal nacks.

Definition nack_payload (entries : list bytes) : bytes :=
  le_bytes 4 (Z.of_nat (length entries)) ++ concat (map (fun b => le_bytes 4 (u32 (blen b)) ++ b) entries).

Definition MarshalNotifyNACKPacket {M} `{!ProtoCodec M} (nodeID requestID : Z) (nacks : list M) (credits : Z) : bytes :=
  writeNotifyACKHeader nodeID requestID x01 credits ++ nack_payload (nack_entries nacks).

(** The loop of [parseNotifyNACKPayload]: [count] entries from [offset]. *)
Fixpoint nack_loop {M} `{!ProtoCodec M} (count : nat) (data : bytes) (offset : Z) (nacks : list M)
    : option (list M * option wire_error) :=
  match count with
  | O => Some (nacks, None)
  | S count' =>
      if blen data <? offset + 4 then Some (nacks, Some Truncated)
      else
        nLen ← get_le 4 data offset;
        let offset := offset + 4 in
        if blen data <? offset + nLen then Some (nacks, Some Truncated)
        else
          body ← slice data offset (offset + nLen);
          match unmarshal body with
          | None => Some (nacks, Some BadProto)
          | Some nack => nack_loop count' data (offset + nLen) (nacks ++ [nack])
          end
  end.

Definition parseNotifyNACKPayload {M} `{!ProtoCodec M} (data : bytes) : option (list M * option wire_error) :=
  if blen data <? 4 then Some ([], Some TooShort)
  else
    count ← get_le 4 data 0;
    nack_loop (Z.to_nat count) data 4 [].

(** The capacity the parser allocates before it reads an entry. *)
Definition nack_capacity (data : bytes) : option Z := if blen data <? 4 then None else get_le 4 data 0.

Definition PacketTypeNack : byte := x05.

Definition MarshalNackPacket {M} `{!ProtoCodec M} (nack : M) : option bytes := cons PacketTypeNack <$> marshal nack.

Definition PacketTypeKeyFilter : byte := x07.

Definition MarshalKeyFilterPacket (version : Z) (filter : bytes) : bytes :=
  PacketTypeKeyFilter :: le_bytes 8 version ++ filter.

Definition parseKeyFilterPacket (data : bytes) : option (wire_error + (Z * bytes)) :=
  if blen data <? 9 then Some (inl TooShort)
  else
    version ← get_le 8 data 1;
    filter ← slice_from data 9;
    Some (inr (version, filter)).

(** ** Clock ticks *)

Record ObservedTick := mkObserved { ot_node : Z; ot_seq : Z; ot_observedAt : Z }.

Record ClockTick := mkTick {
  ct_node : Z; ct_seq : Z; ct_wallClock : Z; ct_jumpNs : Z; ct_observed : list ObservedTick }.

Definition tickHeaderSize : Z := 36.
Definition observedTickSize : Z := 24.
Definition PacketTypeClockTick : byte := x06.
Definition clockTickVersion : byte := x01.

Definition marshal_observed (o : ObservedTick) : bytes :=
  le_bytes 8 (ot_node o) ++ le_bytes 8 (ot_seq o) ++ le_bytes 8 (ot_observedAt o).

Definition MarshalClockTick (tick : ClockTick) : bytes :=
  [PacketTypeClockTick; clockTickVersion]
    ++ le_bytes 8 (ct_node tick) ++ le_bytes 8 (ct_seq tick) ++ le_bytes 8 (ct_wallClock tick) ++ le_bytes 8 (ct_jumpNs tick)
    ++ le_bytes 2 (Z.of_nat (length (ct_observed tick))) ++ concat (map marshal_observed (ct_observed tick)).

Fixpoint parse_observed (count : nat) (body : bytes) (off : Z) : option (list ObservedTick) :=
  match count with
  | O => Some []
  | S count' =>
      node ← get_le 8 body off;
      seq ← get_le 8 body (off + 8);
      observedAt ← get_le 8 body (off + 16);
      rest ← parse_observed count' body (off + observedTickSize);
      Some (mkObserved node seq (int64_of observedAt) :: rest)
  end.

Definition ParseClockTick (body : bytes) : option (wire_error + ClockTick) :=
  if blen body <? tickHeaderSize then Some (inl TooShort)
  else
    version ← slice body 1 2 ≫= head;
    if negb (bool_decide (version = clockTickVersion)) then Some (inl BadVersion)
    else
      count ← get_le 2 body 34;
      if negb (blen body =? tickHeaderSize + count * observedTickSize) then Some (inl BadFormat)
      else
        node ← get_le 8 body 2;
        seq ← get_le 8 body 10;
        wall ← get_le 8 body 18;
        jump ← get_le 8 body 26;
        observed ← parse_observed (Z.to_nat count) body tickHeaderSize;
        Some (inr (mkTick node seq (int64_of wall) (int64_of jump) observed)).

(** ** The ring of recent ticks *)

Record tickRecord := mkRecord { tr_seq : Z; tr_wall : Z }.

Definition newTickRing (size : nat) : list tickRecord := replicate size (mkRecord 0 0).

Definition ring_slot (r : list tickRecord) (seq : Z) : nat := Z.to_nat (seq mod Z.of_nat (length r)).

Definition ring_put (r : list tickRecord) (seq wall : Z) : list tickRecord := <[ring_slot r seq := mkRecord seq wall]> r.

Definition ring_get (r : list tickRecord) (seq : Z) : option Z :=
  if seq =? 0 then None
  else match r !! ring_slot r seq with
       | Some rec => if tr_seq rec =? seq then Some (tr_wall rec) else None
       | None => None
       end.

(** ** Length-prefixed messages *)

Definition maxFrameSize : Z := 2 ^ 24.

Definition writeMessage {M} `{!ProtoCodec M} (msg : M) : option bytes :=
  data ← marshal msg; Some (le_bytes 4 (u32 (blen data)) ++ data).

(** The message read and what is left of the stream. *)
Definition readMessage {M} `{!ProtoCodec M} (stream : bytes) : wire_error + (M * bytes) :=
  if blen stream <? 4 then inl TooShort
  else
    let length := le_value (take 4 stream) in
    let rest := drop 4 stream in
    if maxFrameSize <? length then inl TooLarge
    else if blen rest <? length then inl TooShort
    else match unmarshal (take (Z.to_nat length) rest) with
         | Some msg => inr (msg, drop (Z.to_nat length) rest)
         | None => inl BadProto
         end.

(** ** Routing keys *)

(** "__swytch:ch\x00" and "__swytch:pat\x00" *)
Definition chKeyPrefix : bytes := [x5f; x5f; x73; x77; x79; x74; x63; x68; x3a; x63; x68; x00].
Definition patKeyPrefix : bytes := [x5f; x5f; x73; x77; x79; x74; x63; x68; x3a; x70; x61; x74; x00].

Definition encodeRoutingKey (prefix name : bytes) : bytes := prefix ++ name.

(** The name, and whether it is a pattern. *)
Definition decodeRoutingKey (routingKey : bytes) : option (bytes * bool) :=
  if has_prefix routingKey chKeyPrefix then Some (drop (length chKeyPrefix) routingKey, false)
  else if has_prefix routingKey patKeyPrefix then Some (drop (length patKeyPrefix) routingKey, true)
  else None.
