(* ===== verification/WireProps.v ===== *)
(** * Round trips and totality of the wire formats *)

From S2P Require Import Prelude Golib Proto Wire.

(** ** Slices *)

Lemma slice_app a b c i j : i = blen a -> j = blen a + blen b -> slice (a ++ b ++ c) i j = Some b.
Proof.
  intros -> ->. unfold slice, blen. rewrite !length_app.
  replace (_ && _ && _) with true by (symmetry; rewrite !andb_true_iff, !Z.leb_le; lia).
  rewrite Nat2Z.id, drop_app_length. f_equal.
  replace (Z.to_nat (Z.of_nat (length a) + Z.of_nat (length b) - Z.of_nat (length a))) with (length b) by lia. apply take_app_length.
Qed.

Lemma slice_from_app a b i : i = blen a -> slice_from (a ++ b) i = Some b.
Proof.
  intros ->. unfold slice_from. rewrite <- (app_nil_r b) at 1. apply slice_app; [done|].
  unfold blen. rewrite length_app. lia.
Qed.

Lemma blen_le_bytes n z : blen (le_bytes n z) = Z.of_nat n.
Proof. unfold blen. by rewrite length_le_bytes. Qed.

Lemma blen_app a b : blen (a ++ b) = blen a + blen b.
Proof. unfold blen. rewrite length_app. lia. Qed.

Lemma blen_cons x a : blen (x :: a) = 1 + blen a.
Proof. unfold blen. simpl. lia. Qed.

Lemma blen_nil : blen [] = 0.
Proof. done. Qed.

Lemma blen_nonneg a : 0 <= blen a.
Proof. unfold blen. lia. Qed.

Hint Rewrite blen_app blen_cons blen_nil blen_le_bytes : swytch_rw.

Lemma get_le_app n a z c i k : n = Z.of_nat k -> i = blen a -> get_le n (a ++ le_bytes k z ++ c) i = Some (z mod 256 ^ n).
Proof.
  intros -> ->. unfold get_le. rewrite slice_app by (rewrite ?blen_le_bytes; lia). simpl. by rewrite le_value_le_bytes.
Qed.

Lemma slice_some data i j : 0 <= i <= j -> j <= blen data -> exists b, slice data i j = Some b /\ blen b = j - i.
Proof.
  intros Hi Hj. unfold slice. unfold blen in *.
  replace (_ && _ && _) with true by (symmetry; rewrite !andb_true_iff, !Z.leb_le; lia).
  eexists. split; [done|]. rewrite length_take, length_drop. lia.
Qed.

Lemma get_le_some n data i : 0 <= n -> 0 <= i -> i + n <= blen data -> exists z, get_le n data i = Some z /\ 0 <= z < 256 ^ n.
Proof.
  intros Hn Hi Hj. unfold get_le. destruct (slice_some data i (i + n)) as (b & -> & Hb); [lia..|]. simpl. eexists. split; [done|].
  assert (El : length b = Z.to_nat n) by (unfold blen in Hb; lia).
  rewrite <- (le_bytes_le_value b), le_value_le_bytes, El, Z2Nat.id by lia. apply Z.mod_pos_bound. lia.
Qed.

(** ** hex *)

Lemma hex_value_digit d : 0 <= d < 16 -> hex_value (hex_digit d) = Some d.
Proof.
  intros Hd. unfold hex_value, hex_digit. rewrite b2z_z2b. destruct (Z.ltb_spec d 10).
  - rewrite Z.mod_small by lia. replace (_ && _) with true by (symmetry; rewrite andb_true_iff, !Z.leb_le; lia). f_equal. lia.
  - rewrite Z.mod_small by lia. replace ((48 <=? 87 + d) && (87 + d <=? 57)) with false by (symmetry; rewrite andb_false_iff, !Z.leb_gt; lia).
    replace ((97 <=? 87 + d) && (87 + d <=? 102)) with true by (symmetry; rewrite andb_true_iff, !Z.leb_le; lia). f_equal. lia.
Qed.

Lemma hex_decode_encode s : hex_decode (hex_encode s) = Some s.
Proof.
  induction s as [|b s IH]; simpl; [done|]. pose proof (b2z_range b).
  rewrite !hex_value_digit, IH by (try apply Z.mod_pos_bound; try split; try apply Z.div_pos; try apply Z.div_lt_upper_bound; lia).
  f_equal. f_equal. rewrite <- Z.div_mod by lia. apply z2b_b2z.
Qed.

Lemma unhex_encode k : unhex (hex_encode k) = k.
Proof. unfold unhex. by rewrite hex_decode_encode. Qed.

#[global] Instance hex_encode_inj : Inj (=) (=) hex_encode.
Proof. intros a b E. by rewrite <- (unhex_encode a), E, unhex_encode. Qed.

(** Encoded ids are lower-case hex digits, so they are valid UTF-8. *)
Lemma hex_encode_ascii s : Forall (fun b => 48 <= b2z b <= 102) (hex_encode s).
Proof.
  assert (Hd : forall d, 0 <= d < 16 -> 48 <= b2z (hex_digit d) <= 102).
  { intros d Hd. unfold hex_digit. rewrite b2z_z2b. case_match; rewrite Z.mod_small; lia. }
  induction s as [|b s IH]; simpl; [constructor|]. pose proof (b2z_range b).
  assert (0 <= b2z b / 16 < 16) by (split; [apply Z.div_pos; lia|apply Z.div_lt_upper_bound; lia]).
  constructor; [by apply Hd|]. constructor; [apply Hd, Z.mod_pos_bound; lia|done].
Qed.

(** ** Rebuilding a map with other keys *)

Lemma rekey_spec {A} (f : bytes -> bytes) (entries : list (bytes * A)) j v :
  NoDup entries.*1 -> (forall k k', k ∈ entries.*1 -> k' ∈ entries.*1 -> f k = f k' -> k = k') ->
  rekey f entries !! j = Some v <-> exists k, j = f k /\ (k, v) ∈ entries.
Proof.
  intros Hn Hi. unfold rekey.
  assert (H : forall m : gmap bytes A, (forall k, k ∈ entries.*1 -> m !! f k = None) ->
    fold_left (fun out '(k, v) => <[f k := v]> out) entries m !! j = Some v
    <-> m !! j = Some v \/ exists k, j = f k /\ (k, v) ∈ entries).
  { induction entries as [|[k1 v1] entries IH]; intros m Hm; cbn [fold_left].
    { split; [by left|]. intros [?|(k & _ & Hk)]; [done|by apply elem_of_nil in Hk]. }
    cbn [fmap list_fmap] in *. apply list.NoDup_cons in Hn as [Hk Hn]. rewrite IH; [|done| |].
    - rewrite lookup_insert_Some. setoid_rewrite elem_of_cons. split.
      + intros [[[<- <-]|[_ ?]]|(k & -> & Hin)]; [right; exists k1; auto|by left|right; exists k; auto].
      + intros [Hj|(k & -> & [[= -> ->]|Hin])]; [|left; by left|right; by exists k].
        left. right. split; [|done]. intros <-. by rewrite Hm in Hj by constructor.
    - intros k k' Hk1 Hk2. apply Hi; by constructor.
    - intros k Hin. rewrite lookup_insert_ne; [apply Hm; by constructor|].
      intros E. apply Hi in E; [|by constructor..]. by subst. }
  rewrite H by (intros; apply lookup_empty). rewrite lookup_empty. naive_solver.
Qed.

Lemma rekey_range `{!MapRange} {A} (f : bytes -> bytes) (i : nat) (m : gmap bytes A) (j : bytes) (v : A) :
  (forall k k', is_Some (m !! k) -> is_Some (m !! k') -> f k = f k' -> k = k') ->
  rekey f (map_range i m) !! j = Some v <-> exists k, j = f k /\ m !! k = Some v.
Proof.
  intros Hi. rewrite rekey_spec.
  - by setoid_rewrite elem_of_map_range.
  - apply NoDup_map_range.
  - assert (Hd : forall k, k ∈ (map_range i m).*1 -> is_Some (m !! k)).
    { intros k ([k' v'] & -> & Hin)%list_elem_of_fmap. apply elem_of_map_range in Hin. eauto. }
    intros k k' Hk Hk'. apply Hi; by apply Hd.
Qed.

Lemma rekey_roundtrip `{!MapRange} {A} (i j : nat) (m : gmap bytes A) :
  rekey unhex (map_range i (rekey hex_encode (map_range j m))) = m.
Proof.
  apply map_eq. intros k. apply option_eq. intros v.
  assert (Henc : forall k v, rekey hex_encode (map_range j m) !! k = Some v <-> exists k', k = hex_encode k' /\ m !! k' = Some v).
  { intros k' v'. apply rekey_range. intros ? ? _ _. apply (inj hex_encode). }
  rewrite rekey_range.
  - setoid_rewrite Henc. split.
    + intros (? & -> & k' & -> & Hk). by rewrite unhex_encode.
    + intros Hk. exists (hex_encode k). rewrite unhex_encode. eauto.
  - intros a b [va Ha] [vb Hb]. apply Henc in Ha as (ka & -> & _), Hb as (kb & -> & _). rewrite !unhex_encode. congruence.
Qed.

Lemma rekey_nothing `{!MapRange} {A} f (i : nat) : rekey f (map_range i (∅ : gmap bytes A)) = ∅.
Proof.
  apply map_eq. intros k. rewrite lookup_empty. apply eq_None_not_Some. intros [v Hv].
  apply rekey_range in Hv as (? & _ & Hv); [by rewrite lookup_empty in Hv|]. intros ? ? [? Hk]. by rewrite lookup_empty in Hk.
Qed.

Section Effects.
Context {ranger : MapRange}.

Lemma rekey_flat_roundtrip r : rekey_flat unhex (rekey_flat hex_encode r) = r.
Proof.
  destruct r as [a b c d e f g adds removes h i j k l m]. unfold rekey_flat, rekey_adds, rekey_removes. simpl. f_equal.
  - apply rekey_roundtrip.
  - set (s := rekey hex_encode (map_range 1 (gset_to_gmap true removes))).
    assert (Es : gset_to_gmap true (dom s) = s).
    { apply map_eq. intros x. apply option_eq. intros v. rewrite lookup_gset_to_gmap_Some, elem_of_dom. split.
      - intros [[v' Hv] <-]. pose proof Hv as Hv'. apply rekey_range in Hv' as (y & -> & Hy); [|intros ? ? _ _; apply (inj hex_encode)].
        apply lookup_gset_to_gmap_Some in Hy as [_ <-]. done.
      - intros Hv. split; [by exists v|]. apply rekey_range in Hv as (y & -> & Hy); [|intros ? ? _ _; apply (inj hex_encode)].
        by apply lookup_gset_to_gmap_Some in Hy as [_ <-]. }
    rewrite Es. unfold s. rewrite rekey_roundtrip. apply dom_gset_to_gmap.
Qed.

Lemma rekey_flat_nothing f r : r_net_adds r = ∅ -> r_net_removes r = ∅ -> rekey_flat f r = r.
Proof.
  destruct r as [a b c d e g h adds removes i j k l m n]. unfold rekey_flat, rekey_adds, rekey_removes. simpl. intros -> ->.
  by rewrite rekey_nothing, gset_to_gmap_empty, rekey_nothing, dom_empty_L.
Qed.

Context `{!ProtoCodec Effect}.

Lemma UnmarshalEffect_MarshalEffect eff data : MarshalEffect eff = Some data -> UnmarshalEffect data = Some eff.
Proof.
  unfold MarshalEffect, UnmarshalEffect. destruct (has_ids eff) eqn:Ei; intros Hm; apply unmarshal_marshal in Hm; rewrite Hm; simpl; f_equal;
    destruct eff as [key hlc node deps txn hash virt kind]; unfold with_state, has_ids, get_snapshot in *; simpl in *;
    destruct kind as [[]|]; try done; simpl in *; do 2 f_equal; destruct s as [co st vs pv]; simpl in *; f_equal;
    destruct st as [[root parts]|]; try done; simpl in *; do 2 f_equal.
  - unfold desanitizeReducedKeys, sanitizeReducedKeys. simpl. f_equal. apply rekey_flat_roundtrip.
  - apply orb_false_iff in Ei as [E1 E2]. apply negb_false_iff, bool_decide_eq_true in E1, E2.
    unfold desanitizeReducedKeys. simpl. f_equal. by apply rekey_flat_nothing.
Qed.

(** ** Frames *)

Lemma u32_small z : 0 <= z < 2 ^ 32 -> u32 z = z.
Proof. intros. unfold u32. apply Z.mod_small. lia. Qed.

Lemma frame_keyLen key data : blen key < 2 ^ 32 -> get_le 4 (frame key data) 0 = Some (blen key).
Proof.
  intros Hk. pose proof (blen_nonneg key). unfold frame. rewrite u32_small by lia.
  rewrite <- (app_nil_l (le_bytes 4 (blen key) ++ key ++ data)).
  rewrite (get_le_app 4 [] _ _ _ 4) by done. f_equal. apply Z.mod_small. change (256 ^ 4) with (2 ^ 32). lia.
Qed.

Lemma frame_body key data : slice_from (frame key data) (4 + blen key) = Some data.
Proof. unfold frame. rewrite app_assoc. apply slice_from_app. autorewrite with swytch_rw. lia. Qed.

Lemma blen_frame key data : blen (frame key data) = 4 + blen key + blen data.
Proof. unfold frame. autorewrite with swytch_rw. lia. Qed.

Lemma unwrap_frame key data : key <> [] -> blen (frame key data) < 2 ^ 32 -> unwrap (frame key data) = Some data.
Proof.
  intros Hk Hl. rewrite blen_frame in Hl. pose proof (blen_nonneg data).
  assert (0 < blen key) by (destruct key; [done|rewrite blen_cons; pose proof (blen_nonneg key); lia]).
  unfold unwrap. rewrite frame_keyLen by lia. rewrite blen_frame. cbn [mbind option_bind].
  rewrite !u32_small by lia. destruct (Z.ltb_spec 4 (4 + blen key + blen data)); [|lia].
  replace (_ && _) with true by (symmetry; rewrite andb_true_iff, Z.ltb_lt, Z.leb_le; lia). apply frame_body.
Qed.

(** [C39] Effects survive the wire.  An effect on a named key that was framed for
    a peer, with whatever bytes its element ids hold, is read back unchanged by
    the strict parser that fills the cache, by the lenient one and by the
    receivers of notifications; and no input, however malformed, makes one of
    the parsers slice out of range. *)
Theorem effect_wire_roundtrip eff data :
  MarshalEffectWire eff = Some data -> e_key eff <> [] -> blen data < 2 ^ 32 ->
  parse_strict data = Some (inr eff) /\ parseWireEffect data = Some (inr eff) /\ (unwrap data ≫= UnmarshalEffect) = Some eff
  /\ forall junk, is_Some (parse_strict junk) /\ is_Some (parseWireEffect junk) /\ is_Some (unwrap junk).
Proof.
  intros Hm Hk Hl. unfold MarshalEffectWire in Hm. destruct (MarshalEffect eff) as [proto|] eqn:Ep; [|done]. injection Hm as <-.
  pose proof (UnmarshalEffect_MarshalEffect _ _ Ep) as Hu. pose proof (unwrap_frame _ proto Hk Hl) as Hw.
  pose proof (blen_nonneg proto). rewrite blen_frame in Hl.
  assert (0 < blen (e_key eff)) by (destruct (e_key eff) as [|x k]; [done|rewrite blen_cons; pose proof (blen_nonneg k); lia]).
  split_and!.
  - unfold parse_strict. rewrite frame_keyLen by lia. rewrite blen_frame. cbn [mbind option_bind]. rewrite !u32_small by lia.
    destruct (Z.leb_spec (4 + blen (e_key eff) + blen proto) 4); [lia|].
    replace (_ || _) with false by (symmetry; rewrite orb_false_iff, Z.eqb_neq, Z.ltb_ge; lia).
    rewrite frame_body. cbn [mbind option_bind]. by rewrite Hu.
  - unfold parseWireEffect. rewrite Hw, blen_frame. destruct (Z.leb_spec (4 + blen (e_key eff) + blen proto) 4); [lia|].
    cbn [mbind option_bind]. by rewrite Hu.
  - by rewrite Hw.
  - intros junk. assert (Hun : is_Some (unwrap junk)).
    { unfold unwrap. destruct (Z.ltb_spec 4 (blen junk)) as [Hj|]; [|eauto].
      destruct (get_le_some 4 junk 0) as (keyLen & -> & Hr); [lia..|]. cbn [mbind option_bind].
      case_match eqn:E; [|eauto]. apply andb_true_iff in E as [_ E%Z.leb_le].
      destruct (slice_some junk (u32 (4 + keyLen)) (blen junk)) as (b & Hb & _);
        [split; [apply Z.mod_pos_bound; lia|]|lia|unfold slice_from, blen in *; eauto].
      unfold u32 in *. pose proof (Z.mod_le (blen junk) (2 ^ 32)). lia. }
    split_and!; [|unfold parseWireEffect; case_match; [eauto|]; destruct Hun as [b ->]; cbn; eauto|done].
    unfold parse_strict. destruct (Z.leb_spec (blen junk) 4) as [|Hj]; [eauto|].
    destruct (get_le_some 4 junk 0) as (keyLen & -> & Hr); [lia..|]. cbn [mbind option_bind].
    case_match eqn:E; [eauto|]. apply orb_false_iff in E as [_ E%Z.ltb_ge].
    destruct (slice_some junk (u32 (4 + keyLen)) (blen junk)) as (b & Hb & _);
      [split; [apply Z.mod_pos_bound; lia|]|lia|unfold slice_from, blen in *; rewrite Hb; cbn; eauto].
    unfold u32 in *. pose proof (Z.mod_le (blen junk) (2 ^ 32)). lia.
Qed.

End Effects.

(** ** Packets *)

Lemma mod_u64 z : is_uint64 z -> z mod 256 ^ 8 = z.
Proof. unfold is_uint64, max_uint64. intros. apply Z.mod_small. change (256 ^ 8) with (2 ^ 64). lia. Qed.

Lemma mod_u32 z : 0 <= z < 2 ^ 32 -> z mod 256 ^ 4 = z.
Proof. intros. apply Z.mod_small. change (256 ^ 4) with (2 ^ 32). lia. Qed.

Lemma int64_of_mod z : is_int64 z -> int64_of (z mod 256 ^ 8) = z.
Proof.
  intros Hz. unfold int64_of. transitivity (wrap64 z); [|by apply wrap64_id]. unfold wrap64. f_equal.
  change (256 ^ 8) with (2 ^ 64). by rewrite Z.add_mod_idemp_l.
Qed.

Section Packets.
Context {M : Type} `{!ProtoCodec M}.

Lemma notify_roundtrip requestID (notify : M) data : is_uint64 requestID ->
  MarshalNotifyPacket requestID notify = Some data -> parseNotifyPacket data = Some (inr (requestID, notify)).
Proof.
  intros Hr. unfold MarshalNotifyPacket. destruct (marshal notify) as [body|] eqn:Em; [|done]. intros [= <-].
  unfold parseNotifyPacket, AssembleNotifyPacket. pose proof (blen_nonneg body). autorewrite with swytch_rw.
  destruct (Z.ltb_spec (1 + (Z.of_nat 8 + blen body)) 9); [lia|].
  change (PacketTypeNotify :: le_bytes 8 requestID ++ body) with ([PacketTypeNotify] ++ le_bytes 8 requestID ++ body).
  rewrite (get_le_app 8 [PacketTypeNotify] requestID body 1 8) by done. cbn [mbind option_bind].
  rewrite app_assoc, slice_from_app by (autorewrite with swytch_rw; lia). cbn [mbind option_bind].
  by rewrite (unmarshal_marshal _ _ Em), mod_u64.
Qed.

Lemma ack_header_parse nodeID requestID status credits rest : is_uint64 nodeID -> is_uint64 requestID -> 0 <= credits < 2 ^ 32 ->
  parseNotifyACKPacket (writeNotifyACKHeader nodeID requestID status credits ++ rest)
  = Some (inr (nodeID, requestID, status, credits)).
Proof.
  intros Hn Hr Hc. unfold parseNotifyACKPacket, writeNotifyACKHeader. pose proof (blen_nonneg rest).
  rewrite <- app_comm_cons, <- !app_assoc. set (h := PacketTypeNotifyACK).
  assert (El : blen (h :: le_bytes 8 nodeID ++ le_bytes 8 requestID ++ [status] ++ le_bytes 4 credits ++ rest) = 22 + blen rest)
    by (autorewrite with swytch_rw; lia).
  rewrite El. destruct (Z.ltb_spec (22 + blen rest) 22); [lia|].
  change (h :: le_bytes 8 nodeID ++ le_bytes 8 requestID ++ [status] ++ le_bytes 4 credits ++ rest)
    with ([h] ++ le_bytes 8 nodeID ++ le_bytes 8 requestID ++ [status] ++ le_bytes 4 credits ++ rest).
  rewrite (get_le_app 8 [h] nodeID _ 1 8) by done. cbn [mbind option_bind].
  rewrite (app_assoc [h]), (get_le_app 8 ([h] ++ le_bytes 8 nodeID) requestID _ 9 8) by (autorewrite with swytch_rw; done).
  cbn [mbind option_bind].
  rewrite (app_assoc ([h] ++ le_bytes 8 nodeID)), (slice_app _ [status] _ 17 18) by (autorewrite with swytch_rw; done). cbn [mbind option_bind head].
  rewrite (app_assoc (([h] ++ le_bytes 8 nodeID) ++ le_bytes 8 requestID)).
  rewrite (get_le_app 4 _ credits rest 18 4) by (autorewrite with swytch_rw; done). cbn [mbind option_bind].
  by rewrite !mod_u64, mod_u32.
Qed.

Lemma nack_entries_loop (entries : list bytes) (nacks acc : list M) pre data :
  Forall2 (fun b m => unmarshal b = Some m /\ blen b < 2 ^ 32) entries nacks ->
  data = pre ++ concat (map (fun b => le_bytes 4 (u32 (blen b)) ++ b) entries) ->
  nack_loop (length entries) data (blen pre) acc = Some (acc ++ nacks, None).
Proof.
  intros H. revert pre acc data. induction H as [|b m entries nacks [Hu Hb] _ IH]; intros pre acc data ->; cbn [length nack_loop map concat].
  { by rewrite app_nil_r. }
  set (tl := concat (map (fun b => le_bytes 4 (u32 (blen b)) ++ b) entries)).
  pose proof (blen_nonneg b). pose proof (blen_nonneg tl). pose proof (blen_nonneg pre). rewrite u32_small by lia.
  rewrite <- (app_assoc (le_bytes 4 (blen b))).
  assert (El : blen (pre ++ le_bytes 4 (blen b) ++ b ++ tl) = blen pre + 4 + blen b + blen tl) by (autorewrite with swytch_rw; lia).
  rewrite El. destruct (Z.ltb_spec (blen pre + 4 + blen b + blen tl) (blen pre + 4)); [lia|].
  rewrite (get_le_app 4 pre (blen b) (b ++ tl) _ 4) by done. cbn [mbind option_bind]. rewrite mod_u32 by lia.
  destruct (Z.ltb_spec (blen pre + 4 + blen b + blen tl) (blen pre + 4 + blen b)); [lia|].
  rewrite (app_assoc pre), (slice_app (pre ++ le_bytes 4 (blen b)) b tl) by (autorewrite with swytch_rw; lia). cbn [mbind option_bind].
  rewrite Hu. replace (blen pre + 4 + blen b) with (blen ((pre ++ le_bytes 4 (blen b)) ++ b)) by (autorewrite with swytch_rw; lia).
  rewrite (IH ((pre ++ le_bytes 4 (blen b)) ++ b) (acc ++ [m])); [by rewrite <- app_assoc|].
  subst tl. by rewrite <- !app_assoc.
Qed.

Lemma nack_roundtrip nodeID requestID credits (nacks : list M) entries : Z.of_nat (length nacks) < 2 ^ 32 ->
  Forall2 (fun b m => marshal m = Some b /\ blen b < 2 ^ 32) entries nacks ->
  parseNotifyNACKPayload (drop 22 (MarshalNotifyNACKPacket nodeID requestID nacks credits)) = Some (nacks, None).
Proof.
  intros Hc Hf. unfold MarshalNotifyNACKPacket.
  assert (Ee : nack_entries nacks = entries).
  { clear Hc. unfold nack_entries. induction Hf as [|b m entries nacks [Hm _] _ IH]; cbn; [done|]. by rewrite Hm, IH. }
  rewrite Ee, drop_app_length' by reflexivity.
  unfold nack_payload, parseNotifyNACKPayload. pose proof (Forall2_length Hf) as El.
  set (tl := concat _). pose proof (blen_nonneg tl). autorewrite with swytch_rw. destruct (Z.ltb_spec (Z.of_nat 4 + blen tl) 4); [lia|].
  rewrite <- (app_nil_l (le_bytes 4 (Z.of_nat (length entries)) ++ tl)), (get_le_app 4 [] _ tl 0 4) by done. cbn [mbind option_bind].
  rewrite mod_u32, Nat2Z.id by lia. change 4 with (blen (le_bytes 4 (Z.of_nat (length entries)))).
  rewrite (nack_entries_loop entries nacks []); [done| |done].
  eapply list.Forall2_impl; [exact Hf|]. intros b m [Hm Hb]. split; [by apply unmarshal_marshal|done].
Qed.

Lemma keyfilter_roundtrip version filter : is_uint64 version ->
  parseKeyFilterPacket (MarshalKeyFilterPacket version filter) = Some (inr (version, filter)).
Proof.
  intros Hv. unfold parseKeyFilterPacket, MarshalKeyFilterPacket. pose proof (blen_nonneg filter). autorewrite with swytch_rw.
  destruct (Z.ltb_spec (1 + (Z.of_nat 8 + blen filter)) 9); [lia|].
  change (PacketTypeKeyFilter :: le_bytes 8 version ++ filter) with ([PacketTypeKeyFilter] ++ le_bytes 8 version ++ filter).
  rewrite (get_le_app 8 [PacketTypeKeyFilter] version filter 1 8) by done. cbn [mbind option_bind].
  rewrite app_assoc, slice_from_app by (autorewrite with swytch_rw; lia). cbn [mbind option_bind]. by rewrite mod_u64.
Qed.

Lemma message_roundtrip (msg : M) w rest : writeMessage msg = Some w -> blen w <= maxFrameSize + 4 ->
  readMessage (w ++ rest) = inr (msg, rest).
Proof.
  unfold writeMessage. destruct (marshal msg) as [data|] eqn:Em; [|done]. cbn [mbind option_bind].
  intros E%(inj Some). rewrite <- E. clear E. autorewrite with swytch_rw. intros Hl.
  unfold maxFrameSize in *. pose proof (blen_nonneg data). pose proof (blen_nonneg rest).
  unfold readMessage. rewrite <- app_assoc. autorewrite with swytch_rw.
  destruct (Z.ltb_spec (Z.of_nat 4 + (blen data + blen rest)) 4); [lia|].
  rewrite take_app_length', drop_app_length' by (by rewrite length_le_bytes).
  rewrite le_value_le_bytes, u32_small by lia. change (Z.of_nat 4) with 4. rewrite mod_u32 by lia. unfold maxFrameSize.
  destruct (Z.ltb_spec (2 ^ 24) (blen data)); [lia|]. autorewrite with swytch_rw.
  destruct (Z.ltb_spec (blen data + blen rest) (blen data)); [lia|].
  unfold blen. rewrite Nat2Z.id, take_app_length, drop_app_length. by rewrite (unmarshal_marshal _ _ Em).
Qed.

(** What the parsers do on any input at all. *)

Lemma slice_head_some data i : 0 <= i -> i + 1 <= blen data -> is_Some (slice data i (i + 1) ≫= head).
Proof.
  intros Hi Hl. destruct (slice_some data i (i + 1)) as (b & -> & Hb); [lia..|]. cbn. destruct b as [|x b]; [|eauto].
  rewrite blen_nil in Hb. lia.
Qed.

Lemma slice_from_some data i : 0 <= i <= blen data -> is_Some (slice_from data i).
Proof. intros Hi. destruct (slice_some data i (blen data)) as (b & Hb & _); [lia..|]. unfold slice_from, blen in *. eauto. Qed.

Lemma parseNotifyPacket_total data : is_Some (parseNotifyPacket data).
Proof.
  unfold parseNotifyPacket. destruct (Z.ltb_spec (blen data) 9); [eauto|].
  destruct (get_le_some 8 data 1) as (r & -> & _); [lia..|]. cbn [mbind option_bind].
  destruct (slice_from_some data 9) as [b ->]; [lia|]. cbn. eauto.
Qed.

Lemma parseNotifyACKPacket_total data : is_Some (parseNotifyACKPacket data).
Proof.
  unfold parseNotifyACKPacket. destruct (Z.ltb_spec (blen data) 22); [eauto|].
  destruct (get_le_some 8 data 1) as (p & -> & _); [lia..|]. cbn [mbind option_bind].
  destruct (get_le_some 8 data 9) as (r & -> & _); [lia..|]. cbn [mbind option_bind].
  destruct (slice_head_some data 17) as [st Hs]; [lia..|]. change (17 + 1) with 18 in Hs. cbn [mbind option_bind] in Hs. rewrite Hs.
  destruct (get_le_some 4 data 18) as (c & -> & _); [lia..|]. cbn. eauto.
Qed.

Lemma nack_loop_total count data offset acc : 0 <= offset -> is_Some (nack_loop count data offset acc).
Proof.
  revert offset acc. induction count as [|count IH]; intros offset acc Ho; cbn [nack_loop]; [eauto|].
  destruct (Z.ltb_spec (blen data) (offset + 4)); [eauto|].
  destruct (get_le_some 4 data offset) as (n & -> & Hn); [lia..|]. cbn [mbind option_bind].
  destruct (Z.ltb_spec (blen data) (offset + 4 + n)); [eauto|].
  destruct (slice_some data (offset + 4) (offset + 4 + n)) as (b & -> & _); [lia..|]. cbn [mbind option_bind].
  destruct (unmarshal b); [|eauto]. apply IH. lia.
Qed.

Lemma parseNotifyNACKPayload_total data : is_Some (parseNotifyNACKPayload data).
Proof.
  unfold parseNotifyNACKPayload. destruct (Z.ltb_spec (blen data) 4); [eauto|].
  destruct (get_le_some 4 data 0) as (c & -> & _); [lia..|]. cbn [mbind option_bind]. by apply nack_loop_total.
Qed.

Lemma parseKeyFilterPacket_total data : is_Some (parseKeyFilterPacket data).
Proof.
  unfold parseKeyFilterPacket. destruct (Z.ltb_spec (blen data) 9); [eauto|].
  destruct (get_le_some 8 data 1) as (r & -> & _); [lia..|]. cbn [mbind option_bind].
  destruct (slice_from_some data 9) as [b ->]; [lia|]. cbn. eauto.
Qed.

(** The packets of the replication protocol.  A notification, the header
    of an acknowledgement, the list of refusals behind it, a key filter and a
    length-prefixed message each parse back to what was sent, whatever follows
    the message in its stream; and the datagram parsers have a result, error
    or not, on every datagram. *)
Theorem packets_roundtrip nodeID requestID version credits status (notify : M) (nacks : list M) entries filter body w rest :
  is_uint64 nodeID -> is_uint64 requestID -> is_uint64 version -> 0 <= credits < 2 ^ 32 ->
  MarshalNotifyPacket requestID notify = Some body ->
  Forall2 (fun b m => marshal m = Some b /\ blen b < 2 ^ 32) entries nacks -> Z.of_nat (length nacks) < 2 ^ 32 ->
  writeMessage notify = Some w -> blen w <= maxFrameSize + 4 ->
  parseNotifyPacket body = Some (inr (requestID, notify))
  /\ parseNotifyACKPacket (MarshalNotifyACKPacket nodeID requestID status credits) = Some (inr (nodeID, requestID, status, credits))
  /\ parseNotifyACKPacket (MarshalNotifyNACKPacket nodeID requestID nacks credits) = Some (inr (nodeID, requestID, x01, credits))
  /\ parseNotifyNACKPayload (drop 22 (MarshalNotifyNACKPacket nodeID requestID nacks credits)) = Some (nacks, None)
  /\ parseKeyFilterPacket (MarshalKeyFilterPacket version filter) = Some (inr (version, filter))
  /\ readMessage (w ++ rest) = inr (notify, rest)
  /\ forall junk, is_Some (parseNotifyPacket junk) /\ is_Some (parseNotifyACKPacket junk)
     /\ is_Some (parseNotifyNACKPayload junk) /\ is_Some (parseKeyFilterPacket junk).
Proof.
  intros Hn Hr Hv Hc Hb Hf Hl Hw Hlw. split_and!; [by apply notify_roundtrip| | |by eapply nack_roundtrip
    |by apply keyfilter_roundtrip|by apply message_roundtrip|].
  - unfold MarshalNotifyACKPacket. rewrite <- (app_nil_r (writeNotifyACKHeader _ _ _ _)). by apply ack_header_parse.
  - by apply ack_header_parse.
  - intros junk. auto using parseNotifyPacket_total, parseNotifyACKPacket_total, parseNotifyNACKPayload_total, parseKeyFilterPacket_total.
Qed.

End Packets.

(** ** Clock ticks *)

Definition observed_ok (o : ObservedTick) : Prop :=
  is_uint64 (ot_node o) /\ is_uint64 (ot_seq o) /\ is_int64 (ot_observedAt o).

(** Fields of their widths, and a count that fits its two bytes. *)
Definition tick_ok (t : ClockTick) : Prop :=
  is_uint64 (ct_node t) /\ is_uint64 (ct_seq t) /\ is_int64 (ct_wallClock t) /\ is_int64 (ct_jumpNs t)
  /\ Z.of_nat (length (ct_observed t)) < 2 ^ 16 /\ Forall observed_ok (ct_observed t).

Lemma parse_observed_marshal l pre off : Forall observed_ok l -> off = blen pre ->
  parse_observed (length l) (pre ++ concat (map marshal_observed l)) off = Some l.
Proof.
  intros H. revert pre off. induction H as [|o l (Hn & Hs & Ha) _ IH]; intros pre off ->; cbn [length parse_observed map concat]; [done|].
  set (tl := concat (map marshal_observed l)) in *.
  set (p1 := pre ++ le_bytes 8 (ot_node o)). set (p2 := p1 ++ le_bytes 8 (ot_seq o)). set (p3 := p2 ++ le_bytes 8 (ot_observedAt o)).
  assert (E : pre ++ marshal_observed o ++ tl = p3 ++ tl) by (unfold p3, p2, p1, marshal_observed; by rewrite <- !app_assoc).
  rewrite E, (IH p3) by (unfold p3, p2, p1, observedTickSize; autorewrite with swytch_rw; lia). unfold p3. rewrite <- app_assoc.
  rewrite (get_le_app 8 p2 _ tl _ 8) by (unfold p2, p1; autorewrite with swytch_rw; lia). unfold p2. rewrite <- app_assoc.
  rewrite (get_le_app 8 p1 _ _ _ 8) by (unfold p1; autorewrite with swytch_rw; lia). unfold p1. rewrite <- app_assoc.
  rewrite (get_le_app 8 pre _ _ _ 8) by done. cbn [mbind option_bind]. rewrite int64_of_mod, !mod_u64 by done. by destruct o.
Qed.

Lemma ParseClockTick_marshal t : tick_ok t -> ParseClockTick (MarshalClockTick t) = Some (inr t).
Proof.
  intros (Hn & Hs & Hw & Hj & Hc & Ho). unfold ParseClockTick.
  set (tl := concat (map marshal_observed (ct_observed t))).
  set (p0 := [PacketTypeClockTick; clockTickVersion]). set (p1 := p0 ++ le_bytes 8 (ct_node t)). set (p2 := p1 ++ le_bytes 8 (ct_seq t)).
  set (p3 := p2 ++ le_bytes 8 (ct_wallClock t)). set (p4 := p3 ++ le_bytes 8 (ct_jumpNs t)).
  set (p5 := p4 ++ le_bytes 2 (Z.of_nat (length (ct_observed t)))).
  assert (E : MarshalClockTick t = p5 ++ tl) by (unfold MarshalClockTick, p5, p4, p3, p2, p1, p0; by rewrite <- !app_assoc).
  assert (Et : blen tl = Z.of_nat (length (ct_observed t)) * observedTickSize).
  { unfold tl, observedTickSize. clear. induction (ct_observed t) as [|o l IH]; cbn [map concat length]; [done|].
    unfold marshal_observed at 1. autorewrite with swytch_rw. rewrite IH. lia. }
  assert (E5 : blen p5 = tickHeaderSize) by (unfold p5, p4, p3, p2, p1, p0, tickHeaderSize; autorewrite with swytch_rw; lia).
  rewrite E, blen_app, E5, Et. destruct (Z.ltb_spec (tickHeaderSize + Z.of_nat (length (ct_observed t)) * observedTickSize) tickHeaderSize);
    [unfold observedTickSize in *; lia|].
  assert (Ep : parse_observed (length (ct_observed t)) (p5 ++ tl) tickHeaderSize = Some (ct_observed t))
    by (by apply parse_observed_marshal).
  assert (Ev : slice (p5 ++ tl) 1 2 = Some [clockTickVersion]).
  { unfold p5, p4, p3, p2, p1, p0. rewrite <- !app_assoc. by apply (slice_app [PacketTypeClockTick] [clockTickVersion] _ 1 2). }
  assert (E34 : get_le 2 (p5 ++ tl) 34 = Some (Z.of_nat (length (ct_observed t)))).
  { unfold p5. rewrite <- app_assoc, (get_le_app 2 p4 _ tl _ 2) by (unfold p4, p3, p2, p1, p0; autorewrite with swytch_rw; lia).
    f_equal. apply Z.mod_small. change (256 ^ 2) with (2 ^ 16). lia. }
  assert (E26 : get_le 8 (p5 ++ tl) 26 = Some (ct_jumpNs t mod 256 ^ 8)).
  { unfold p5, p4. rewrite <- !app_assoc. apply (get_le_app 8 p3 _ _ _ 8); unfold p3, p2, p1, p0; autorewrite with swytch_rw; lia. }
  assert (E18 : get_le 8 (p5 ++ tl) 18 = Some (ct_wallClock t mod 256 ^ 8)).
  { unfold p5, p4, p3. rewrite <- !app_assoc. apply (get_le_app 8 p2 _ _ _ 8); unfold p2, p1, p0; autorewrite with swytch_rw; lia. }
  assert (E10 : get_le 8 (p5 ++ tl) 10 = Some (ct_seq t mod 256 ^ 8)).
  { unfold p5, p4, p3, p2. rewrite <- !app_assoc. apply (get_le_app 8 p1 _ _ _ 8); unfold p1, p0; autorewrite with swytch_rw; lia. }
  assert (E2 : get_le 8 (p5 ++ tl) 2 = Some (ct_node t mod 256 ^ 8)).
  { unfold p5, p4, p3, p2, p1. rewrite <- !app_assoc. by apply (get_le_app 8 p0 _ _ _ 8). }
  rewrite Ev, E34, E26, E18, E10, E2. cbn [mbind option_bind head]. rewrite bool_decide_true by done. cbn [negb].
  rewrite Nat2Z.id, Ep, Z.eqb_refl. cbn [negb]. cbn [mbind option_bind]. rewrite !int64_of_mod, !mod_u64 by done. by destruct t.
Qed.

Lemma slice_join data i j k a b : slice data i j = Some a -> slice data j k = Some b -> slice data i k = Some (a ++ b).
Proof.
  unfold slice. destruct (_ && _ && _) eqn:E1; [|done]. destruct ((0 <=? j) && _ && _) eqn:E2; [|done].
  rewrite !andb_true_iff, !Z.leb_le in E1, E2. intros [= <-] [= <-].
  replace ((0 <=? i) && _ && _) with true by (symmetry; rewrite !andb_true_iff, !Z.leb_le; lia). f_equal.
  replace (drop (Z.to_nat j) data) with (drop (Z.to_nat (j - i)) (drop (Z.to_nat i) data)) by (rewrite drop_drop; f_equal; lia).
  replace (Z.to_nat (k - i)) with (Z.to_nat (j - i) + Z.to_nat (k - j))%nat by lia. symmetry. apply take_take_drop.
Qed.

Lemma get_le_slice (n : nat) data i z : get_le (Z.of_nat n) data i = Some z ->
  slice data i (i + Z.of_nat n) = Some (le_bytes n z) /\ 0 <= z < 256 ^ Z.of_nat n.
Proof.
  unfold get_le. destruct (slice data i (i + Z.of_nat n)) as [b|] eqn:E; [|done]. intros [= <-].
  assert (El : length b = n).
  { unfold slice in E. destruct (_ && _ && _) eqn:E1; [|done]. rewrite !andb_true_iff, !Z.leb_le in E1. injection E as <-.
    rewrite length_take, length_drop. lia. }
  rewrite <- El at 1. rewrite le_bytes_le_value. split; [done|].
  rewrite <- (le_bytes_le_value b), le_value_le_bytes, El. apply Z.mod_pos_bound. lia.
Qed.

Lemma le_bytes_int64 z : le_bytes 8 (int64_of z) = le_bytes 8 z.
Proof.
  rewrite <- (le_bytes_le_value (le_bytes 8 (int64_of z))), <- (le_bytes_le_value (le_bytes 8 z)), !length_le_bytes, !le_value_le_bytes.
  f_equal. change (256 ^ Z.of_nat 8) with (2 ^ 64). unfold int64_of, wrap64.
  rewrite Zminus_mod_idemp_l. f_equal. lia.
Qed.

Lemma uint64_of z : 0 <= z < 256 ^ 8 -> is_uint64 z.
Proof. change (256 ^ 8) with (2 ^ 64). unfold is_uint64, max_uint64. lia. Qed.

Lemma parse_observed_inv count body off l : parse_observed count body off = Some l -> 0 <= off <= blen body ->
  length l = count /\ Forall observed_ok l
  /\ slice body off (off + Z.of_nat count * observedTickSize) = Some (concat (map marshal_observed l)).
Proof.
  revert off l. induction count as [|count IH]; intros off l; cbn [parse_observed].
  { intros [= <-] Ho. split_and!; [done..|]. unfold slice, blen in *.
    replace (_ && _ && _) with true by (symmetry; rewrite !andb_true_iff, !Z.leb_le; lia).
    f_equal. replace (Z.to_nat _) with 0%nat by lia. done. }
  destruct (get_le 8 body off) as [n|] eqn:E1; [|done]. destruct (get_le 8 body (off + 8)) as [s|] eqn:E2; [|done].
  destruct (get_le 8 body (off + 16)) as [a|] eqn:E3; [|done]. cbn [mbind option_bind].
  destruct (parse_observed count body (off + observedTickSize)) as [r|] eqn:E4; [|done]. cbn [mbind option_bind]. intros [= <-] Ho.
  apply (get_le_slice 8) in E1 as [S1 R1], E2 as [S2 R2], E3 as [S3 R3]. change (Z.of_nat 8) with 8 in *.
  assert (off + 24 <= blen body).
  { unfold slice in S3. destruct (_ && _ && _) eqn:E; [|done]. rewrite !andb_true_iff, !Z.leb_le in E. unfold blen. lia. }
  apply IH in E4 as (El & Hf & Sr); [|unfold observedTickSize; lia].
  split_and!; [by rewrite <- El| |].
  - constructor; [|done]. split_and!; [by apply uint64_of..|]. apply wrap64_range.
  - cbn [map concat]. unfold marshal_observed at 1. cbn [ot_node ot_seq ot_observedAt]. rewrite le_bytes_int64, <- !app_assoc.
    eapply slice_join; [exact S1|]. replace (off + 8 + 8) with (off + 16) in S2 by lia. eapply slice_join; [exact S2|].
    replace (off + 16 + 8) with (off + observedTickSize) in S3 by (unfold observedTickSize; lia). eapply slice_join; [exact S3|].
    rewrite <- Sr. f_equal. unfold observedTickSize. lia.
Qed.

Lemma ParseClockTick_inv body t : ParseClockTick body = Some (inr t) ->
  tick_ok t /\ drop 1 body = drop 1 (MarshalClockTick t).
Proof.
  unfold ParseClockTick. destruct (Z.ltb_spec (blen body) tickHeaderSize) as [|Hl]; [done|].
  destruct (slice body 1 2) as [v|] eqn:Sv; [|done]. cbn [mbind option_bind]. destruct v as [|v vs]; cbn [head mbind option_bind]; [done|].
  destruct (bool_decide_reflect (v = clockTickVersion)) as [->|]; [|done]. cbn [negb].
  destruct (get_le 2 body 34) as [c|] eqn:E34; [|done]. cbn [mbind option_bind].
  destruct (Z.eqb_spec (blen body) (tickHeaderSize + c * observedTickSize)) as [Eb|]; [|done]. cbn [negb].
  destruct (get_le 8 body 2) as [n|] eqn:E2; [|done]. destruct (get_le 8 body 10) as [s|] eqn:E10; [|done].
  destruct (get_le 8 body 18) as [w|] eqn:E18; [|done]. destruct (get_le 8 body 26) as [j|] eqn:E26; [|done].
  cbn [mbind option_bind]. destruct (parse_observed (Z.to_nat c) body tickHeaderSize) as [l|] eqn:Eo; [|done].
  cbn [mbind option_bind]. intros [= <-].
  apply (get_le_slice 2) in E34 as [S34 R34]. apply (get_le_slice 8) in E2 as [S2 R2], E10 as [S10 R10], E18 as [S18 R18], E26 as [S26 R26].
  apply parse_observed_inv in Eo as (El & Hf & So); [|unfold tickHeaderSize in *; lia].
  change (256 ^ Z.of_nat 2) with (2 ^ 16) in R34.
  assert (Ev : vs = []).
  { unfold slice in Sv. destruct (_ && _ && _) in Sv; [|done]. injection Sv as Sv. apply (f_equal length) in Sv.
    rewrite length_take in Sv. change (Z.to_nat (2 - 1)) with 1%nat in Sv. destruct vs; [done|cbn [length] in Sv; lia]. }
  subst vs. split.
  - split_and!; cbn; [by apply uint64_of..|apply wrap64_range|apply wrap64_range|lia|done].
  - unfold MarshalClockTick. change (drop 1 ([_; clockTickVersion] ++ ?r)) with (clockTickVersion :: r).
    cbn [ct_node ct_seq ct_wallClock ct_jumpNs ct_observed]. rewrite !le_bytes_int64.
    rewrite El, Z2Nat.id by lia.
    assert (Sall : slice body 1 (blen body) = Some (drop 1 body)).
    { unfold slice, blen in *. unfold tickHeaderSize in Hl.
      replace (_ && _ && _) with true by (symmetry; rewrite !andb_true_iff, !Z.leb_le; lia).
      f_equal. apply take_ge. rewrite length_drop. lia. }
    enough (E : slice body 1 (blen body) = Some (clockTickVersion :: le_bytes 8 n ++ le_bytes 8 s ++ le_bytes 8 w ++ le_bytes 8 j
      ++ le_bytes 2 c ++ concat (map marshal_observed l))) by (rewrite Sall in E; by injection E).
    change (clockTickVersion :: ?r) with ([clockTickVersion] ++ r).
    eapply slice_join; [exact Sv|]. eapply slice_join; [exact S2|]. eapply slice_join; [exact S10|]. eapply slice_join; [exact S18|].
    eapply slice_join; [exact S26|]. eapply slice_join; [exact S34|]. rewrite Eb, <- So. f_equal.
    rewrite Z2Nat.id by lia. done.
Qed.

Lemma parse_observed_total count body off : 0 <= off -> off + Z.of_nat count * observedTickSize <= blen body ->
  is_Some (parse_observed count body off).
Proof.
  unfold observedTickSize. revert off. induction count as [|count IH]; intros off Ho Hl; cbn [parse_observed]; [eauto|].
  destruct (get_le_some 8 body off) as (n & -> & _); [lia..|]. destruct (get_le_some 8 body (off + 8)) as (s & -> & _); [lia..|].
  destruct (get_le_some 8 body (off + 16)) as (a & -> & _); [lia..|]. cbn [mbind option_bind].
  destruct (IH (off + 24)) as [r Hr]; [lia..|]. unfold observedTickSize. rewrite Hr. cbn. eauto.
Qed.

Lemma ParseClockTick_total body : is_Some (ParseClockTick body).
Proof.
  unfold ParseClockTick. destruct (Z.ltb_spec (blen body) tickHeaderSize) as [|Hl]; [eauto|]. unfold tickHeaderSize in *.
  destruct (slice_head_some body 1) as [v Hv]; [lia..|]. change (1 + 1) with 2 in Hv. cbn [mbind option_bind] in Hv. rewrite Hv.
  cbn [mbind option_bind]. case_match; [eauto|]. destruct (get_le_some 2 body 34) as (c & -> & Hc); [lia..|]. cbn [mbind option_bind].
  destruct (Z.eqb_spec (blen body) (36 + c * observedTickSize)) as [Eb|]; [|eauto]. cbn [negb].
  destruct (get_le_some 8 body 2) as (n & -> & _); [lia..|]. destruct (get_le_some 8 body 10) as (s & -> & _); [lia..|].
  destruct (get_le_some 8 body 18) as (w & -> & _); [lia..|]. destruct (get_le_some 8 body 26) as (j & -> & _); [lia..|].
  cbn [mbind option_bind]. destruct (parse_observed_total (Z.to_nat c) body 36) as [l ->]; [lia..|]. cbn. eauto.
Qed.

(** Clock ticks on the wire.  A tick whose fields have their widths and
    whose observations number less than 2^16 parses back to itself; a tick
    the parser accepts is the one whose marshalling is the datagram, the packet
    type apart, so two accepted datagrams never carry the same tick; and the
    parser reads no byte out of range on any datagram. *)
Theorem clock_tick_roundtrip t : tick_ok t ->
  ParseClockTick (MarshalClockTick t) = Some (inr t)
  /\ (forall body t', ParseClockTick body = Some (inr t') -> tick_ok t' /\ drop 1 body = drop 1 (MarshalClockTick t'))
  /\ (forall body, is_Some (ParseClockTick body)).
Proof. intros Ht. split_and!; [by apply ParseClockTick_marshal|apply ParseClockTick_inv|apply ParseClockTick_total]. Qed.

(** ** The ring *)

(** The ring after ticks 1, 2, ... were sent at the given times. *)
Definition ring_after (size : nat) (walls : list Z) : list tickRecord :=
  fold_left (fun r '(i, wall) => ring_put r (Z.of_nat i + 1) wall) (imap pair walls) (newTickRing size).

Lemma ring_after_snoc size walls wall :
  ring_after size (walls ++ [wall]) = ring_put (ring_after size walls) (Z.of_nat (length walls) + 1) wall.
Proof. unfold ring_after. rewrite imap_app, fold_left_app. cbn. by rewrite Nat.add_0_r. Qed.

Lemma length_ring_after size walls : length (ring_after size walls) = size.
Proof.
  induction walls as [|wall walls IH] using rev_ind; [unfold ring_after, newTickRing; simpl; apply length_replicate|].
  rewrite ring_after_snoc. unfold ring_put. by rewrite length_insert.
Qed.

(** Slot [i] of a ring holds the last tick of its residue. *)
Lemma ring_after_slot size walls (i : nat) rec : ring_after size walls !! i = Some rec ->
  (tr_seq rec = 0 /\ forall k, (k < length walls)%nat -> ring_slot (ring_after size walls) (Z.of_nat k + 1) <> i)
  \/ exists k, tr_seq rec = Z.of_nat k + 1 /\ walls !! k = Some (tr_wall rec) /\ ring_slot (ring_after size walls) (tr_seq rec) = i
     /\ forall k', (k < k' < length walls)%nat -> ring_slot (ring_after size walls) (Z.of_nat k' + 1) <> i.
Proof.
  unfold ring_slot. rewrite length_ring_after.
  revert rec. induction walls as [|wall walls IH] using rev_ind; intros rec.
  { unfold ring_after, newTickRing. simpl. intros [-> _]%lookup_replicate_1. left. split; [done|]. intros k Hk. lia. }
  rewrite ring_after_snoc. unfold ring_put. rewrite length_app. cbn [length].
  destruct (decide (i = ring_slot (ring_after size walls) (Z.of_nat (length walls) + 1))) as [->|Hi].
  - intros Hl. assert (Hlt := lookup_lt_Some _ _ _ Hl). rewrite length_insert in Hlt. rewrite list_lookup_insert_eq in Hl by done.
    injection Hl as <-. right. exists (length walls). cbn [tr_seq tr_wall]. unfold ring_slot. rewrite length_ring_after.
    split_and!; [done|by rewrite lookup_app_r, Nat.sub_diag by lia|done|lia].
  - rewrite list_lookup_insert_ne by done. unfold ring_slot in Hi. rewrite length_ring_after in Hi.
    intros [[E Hk]|(k & E & Hw & Es & Hk)]%IH.
    + left. split; [done|]. intros k' Hk'. destruct (decide (k' = length walls)) as [->|]; [done|]. apply Hk. lia.
    + right. exists k. split_and!; [done| |done|].
      * rewrite lookup_app_l; [done|]. by eapply lookup_lt_Some.
      * intros k' Hk'. destruct (decide (k' = length walls)) as [->|]; [done|]. apply Hk. lia.
Qed.

(** The ring answers for exactly the ticks of its window: the last [size] of
    those sent, each with its own time. *)
Theorem ring_window size walls seq wall : (0 < size)%nat -> is_uint64 seq ->
  ring_get (ring_after size walls) seq = Some wall
  <-> 0 < seq /\ walls !! Z.to_nat (seq - 1) = Some wall /\ Z.of_nat (length walls) - Z.of_nat size < seq.
Proof.
  intros Hs Hu. unfold is_uint64 in Hu. unfold ring_get. destruct (Z.eqb_spec seq 0) as [->|Hne]; [split; [done|lia]|].
  set (r := ring_after size walls). assert (Hlen : length r = size) by apply length_ring_after.
  assert (Hslot : (ring_slot r seq < length r)%nat).
  { unfold ring_slot. rewrite Hlen. pose proof (Z.mod_pos_bound seq (Z.of_nat size)). lia. }
  destruct (lookup_lt_is_Some_2 r _ Hslot) as [rec Hr]. rewrite Hr. pose proof (ring_after_slot _ _ _ _ Hr) as Hcase.
  unfold ring_slot in Hcase. fold r in Hcase. rewrite Hlen in Hcase.
  destruct Hcase as [[E Hno]|(k & E & Hw & Es & Hno)].
  - destruct (Z.eqb_spec (tr_seq rec) seq); [lia|]. split; [done|]. intros (_ & Hl & _). apply lookup_lt_Some in Hl.
    exfalso. eapply (Hno (Z.to_nat (seq - 1))); [done|]. by replace (Z.of_nat (Z.to_nat (seq - 1)) + 1) with seq by lia.
  - assert (Hcong : tr_seq rec mod Z.of_nat size = seq mod Z.of_nat size).
    { pose proof (Z.mod_pos_bound (tr_seq rec) (Z.of_nat size)). pose proof (Z.mod_pos_bound seq (Z.of_nat size)). lia. }
    assert (Hk : (k < length walls)%nat) by (by eapply lookup_lt_Some).
    destruct (Z.eqb_spec (tr_seq rec) seq) as [Es'|Hns].
    + replace (Z.to_nat (seq - 1)) with k by lia. rewrite Hw. split; [intros [= <-]|by intros (_ & ? & _)].
      split_and!; [lia|done|]. destruct (Z.lt_ge_cases (Z.of_nat (length walls) - Z.of_nat size) seq) as [|Hge]; [done|].
      exfalso. apply (Hno (k + size)%nat); [lia|]. rewrite Nat2Z.inj_add.
      replace (Z.of_nat k + Z.of_nat size + 1) with (seq + 1 * Z.of_nat size) by lia. by rewrite Z.mod_add by lia.
    + split; [done|]. intros (Hpos & Hl & Hwin). apply lookup_lt_Some in Hl. exfalso.
      destruct (Z.lt_trichotomy (tr_seq rec) seq) as [Hlt|[|Hgt]]; [|done|].
      * apply (Hno (Z.to_nat (seq - 1))); [lia|]. by replace (Z.of_nat (Z.to_nat (seq - 1)) + 1) with seq by lia.
      * assert (Hd : (tr_seq rec - seq) mod Z.of_nat size = 0) by (rewrite Zminus_mod, Hcong, Z.sub_diag; by apply Z.mod_0_l; lia).
        rewrite Z.mod_small in Hd; lia.
Qed.

(** ** Routing keys *)

Lemma has_prefix_app p s : has_prefix (p ++ s) p = true.
Proof. apply has_prefix_spec. by exists s. Qed.

(** A channel and a pattern are told apart whatever their names are, and each
    name is recovered; nothing else is taken for a routing key. *)
Theorem routing_key_roundtrip name :
  decodeRoutingKey (encodeRoutingKey chKeyPrefix name) = Some (name, false)
  /\ decodeRoutingKey (encodeRoutingKey patKeyPrefix name) = Some (name, true)
  /\ forall key n isPattern, decodeRoutingKey key = Some (n, isPattern) ->
       key = encodeRoutingKey (if isPattern then patKeyPrefix else chKeyPrefix) n.
Proof.
  unfold decodeRoutingKey, encodeRoutingKey. split_and!.
  - rewrite has_prefix_app. by rewrite drop_app_length.
  - rewrite has_prefix_app. replace (has_prefix (patKeyPrefix ++ name) chKeyPrefix) with false by done. by rewrite drop_app_length.
  - intros key n p. destruct (has_prefix key chKeyPrefix) eqn:E1; [|destruct (has_prefix key patKeyPrefix) eqn:E2; [|done]];
      intros [= <- <-]; [apply has_prefix_spec in E1 as [tl ->]|apply has_prefix_spec in E2 as [tl ->]]; reflexivity.
Qed.

(** ** Where the formats fall short *)

(** The frame of an effect on the empty key is refused by the strict parser and
    taken whole, length prefix and all, by the lenient ones. *)
Theorem empty_key_not_recovered data : data <> [] ->
  unwrap (frame [] data) = Some (frame [] data) /\
  forall `{!MapRange, !ProtoCodec Effect}, parse_strict (frame [] data) = Some (inl BadFormat).
Proof.
  intros Hd. assert (Hl : 0 < blen data) by (destruct data as [|x d]; [done|rewrite blen_cons; pose proof (blen_nonneg d); lia]).
  split; [|intros mr pc].
  - unfold unwrap. rewrite frame_keyLen by done. case_match; done.
  - unfold parse_strict. rewrite frame_keyLen by done. rewrite blen_frame, blen_nil.
    destruct (Z.leb_spec (4 + 0 + blen data) 4); [lia|]. done.
Qed.

(** Four bytes make the refusal parser ask for room for 2^32 - 1 messages. *)
Theorem nack_capacity_unchecked : nack_capacity [xff; xff; xff; xff] = Some (2 ^ 32 - 1).
Proof. reflexivity. Qed.

(** Element ids of a partition are marshalled as they are. *)
Theorem partitions_not_sanitized {ranger : MapRange} r : red_partitions (sanitizeReducedKeys r) = red_partitions r.
Proof. reflexivity. Qed.
