(* ===== verification/WireWitness.v ===== *)
(** * Concrete runs of the wire formats *)

From S2P Require Import Prelude Golib Proto Wire WireProps.

(** ** Equality of effects *)

#[global] Instance Predicate_eq_dec : EqDecision Predicate.
Proof.
  refine (fix go p q {struct p} : Decision (p = q) :=
    let _ : EqDecision Predicate := @go in
    match p, q with
    | P_BOOL a, P_BOOL b => cast_if (decide (a = b))
    | P_AND l, P_AND m => cast_if (decide (l = m))
    | P_OR l, P_OR m => cast_if (decide (l = m))
    | P_NOT a, P_NOT b => cast_if (go a b)
    | P_CMP c o l, P_CMP c' o' l' => cast_if_and3 (decide (c = c')) (decide (o = o')) (decide (l = l'))
    | P_COL_CMP c o d, P_COL_CMP c' o' d' => cast_if_and3 (decide (c = c')) (decide (o = o')) (decide (d = d'))
    | P_IS_NULL c, P_IS_NULL c' => cast_if (decide (c = c'))
    | P_other k, P_other k' => cast_if (decide (k = k'))
    | _, _ => right _
    end); congruence.
Defined.

#[global] Instance MetaEffect_eq_dec : EqDecision MetaEffect.
Proof. solve_decision. Defined.
#[global] Instance KeyBind_eq_dec : EqDecision KeyBind.
Proof. solve_decision. Defined.
#[global] Instance TransactionalBindEffect_eq_dec : EqDecision TransactionalBindEffect.
Proof. solve_decision. Defined.
#[global] Instance ReducedElement_eq_dec : EqDecision ReducedElement.
Proof. solve_decision. Defined.
#[global] Instance FlatReduced_eq_dec : EqDecision FlatReduced.
Proof. solve_decision. Defined.
#[global] Instance ReducedEffect_eq_dec : EqDecision ReducedEffect.
Proof. solve_decision. Defined.
#[global] Instance SnapshotEffect_eq_dec : EqDecision SnapshotEffect.
Proof. solve_decision. Defined.
#[global] Instance SubscriptionEffect_eq_dec : EqDecision SubscriptionEffect.
Proof. solve_decision. Defined.
#[global] Instance SerializationEffect_eq_dec : EqDecision SerializationEffect.
Proof. solve_decision. Defined.
#[global] Instance ObservationEffect_eq_dec : EqDecision ObservationEffect.
Proof. solve_decision. Defined.
#[global] Instance RowWriteKind_eq_dec : EqDecision RowWriteKind.
Proof. solve_decision. Defined.
#[global] Instance RowWriteEffect_eq_dec : EqDecision RowWriteEffect.
Proof. solve_decision. Defined.
#[global] Instance PubSubMessage_eq_dec : EqDecision PubSubMessage.
Proof. solve_decision. Defined.
#[global] Instance EffectKind_eq_dec : EqDecision EffectKind.
Proof. solve_decision. Defined.
#[global] Instance Effect_eq_dec : EqDecision Effect.
Proof. solve_decision. Defined.

(** A codec that knows one message. *)
Program Definition one_message {M} `{!EqDecision M} (m0 : M) (code : bytes) : ProtoCodec M := {|
  marshal m := if decide (m = m0) then Some code else None;
  unmarshal b := if decide (b = code) then Some m0 else None;
|}.
Next Obligation.
  intros M ? m0 code m b H. cbv beta in *. destruct (decide (m = m0)) as [->|]; [|done]. injection H as <-. by rewrite decide_True.
Qed.

(** Messages by their place in a list. *)
Program Definition table_codec {M} `{!EqDecision M} (l : list M) : ProtoCodec M := {|
  marshal m := (fun p => replicate (S p.1) x01) <$> list_find (eq m) l;
  unmarshal b := l !! Nat.pred (length b);
|}.
Next Obligation.
  intros M ? l m b H. cbv beta in *. destruct (list_find (eq m) l) as [[i x]|] eqn:E; [|done]. injection H as <-.
  apply list_find_Some in E as (Hi & -> & _). cbn [length Nat.pred]. by rewrite length_replicate.
Qed.

(** ** A snapshot with an element id that is no text *)

Definition snap_state : ReducedEffect :=
  mkReduced (mkFlat INSERT_OP LAST_WRITE_WINS KEYED None 1 false None ∅ {[ [xff; x00] ]} [] TYPE_SET None ∅ None []) ∅.

Definition snap : Effect :=
  mkEffect [x6b] None 1 [] [] [] [] (Some (KSnapshot (mkSnapshot KEYED (Some snap_state) ∅ None))).

#[local] Instance snap_ranger : MapRange := listed_range.

Definition snap_sent : Effect := with_state sanitizeReducedKeys snap.

#[local] Instance snap_codec : ProtoCodec Effect := one_message snap_sent [x2a; x2b].

Example snap_id_hex : (get_snapshot snap_sent ≫= s_state) = Some (mkReduced
  (mkFlat INSERT_OP LAST_WRITE_WINS KEYED None 1 false None ∅ {[ [x66; x66; x30; x30] ]} [] TYPE_SET None ∅ None []) ∅).
Proof. vm_compute. reflexivity. Qed.

Lemma effect_wire_roundtrip_witness :
  let data := frame [x6b] [x2a; x2b] in
  MarshalEffectWire snap = Some data /\ parse_strict data = Some (inr snap) /\ parseWireEffect data = Some (inr snap).
Proof.
  intros data. assert (Hm : MarshalEffectWire snap = Some data).
  { unfold MarshalEffectWire, MarshalEffect. replace (has_ids snap) with true by (vm_compute; reflexivity).
    unfold marshal, snap_codec, one_message. by rewrite decide_True. }
  destruct (effect_wire_roundtrip snap data Hm) as (H1 & H2 & _); [discriminate|reflexivity|]. auto.
Defined.

(** ** Packets over messages that are their own bytes *)

Program Definition raw_codec : ProtoCodec bytes := {| marshal := Some; unmarshal := Some |}.
Next Obligation. intros m b [= ->]. done. Qed.

#[local] Existing Instance raw_codec.

Lemma packets_roundtrip_witness :
  parseNotifyPacket (AssembleNotifyPacket 7 [x01; x02]) = Some (inr (7, [x01; x02]))
  /\ parseNotifyNACKPayload (drop 22 (MarshalNotifyNACKPacket 5 7 [[x09]; []; [x08; x07]] 3)) = Some ([[x09]; []; [x08; x07]], None).
Proof.
  destruct (packets_roundtrip 5 7 9 3 x00 [x01; x02] [[x09]; []; [x08; x07]] [[x09]; []; [x08; x07]] [xaa]
    (AssembleNotifyPacket 7 [x01; x02]) (le_bytes 4 2 ++ [x01; x02]) [xbb]) as (H1 & _ & _ & H4 & _).
  1-3: unfold is_uint64, max_uint64; lia.
  1: lia.
  1: reflexivity.
  1: repeat (constructor; [split; [reflexivity|vm_compute; reflexivity]|]); constructor.
  1: vm_compute; reflexivity.
  1: vm_compute; reflexivity.
  1: vm_compute; discriminate.
  auto.
Defined.

Lemma clock_tick_roundtrip_witness :
  let t := mkTick 3 41 (-5) 17 [mkObserved 8 40 99; mkObserved 9 2 (-1)] in ParseClockTick (MarshalClockTick t) = Some (inr t).
Proof.
  intros t. apply (clock_tick_roundtrip t). unfold tick_ok, observed_ok, is_uint64, is_int64, max_uint64, min_int64, max_int64.
  cbn. split_and!; [lia..|]. repeat constructor; cbn; lia.
Defined.

(** A ring of four slots after six ticks has forgotten the first two. *)
Example ring_run : map (ring_get (ring_after 4 [10; 20; 30; 40; 50; 60])) [0; 1; 2; 3; 6; 7] = [None; None; None; Some 30; Some 60; None].
Proof. vm_compute. reflexivity. Qed.
