(* ===== verification/Health.v ===== *)
(** * Peer health: clock_stats.go, peer_health.go, heartbeat.go

    A node sends a clock tick to every peer at a fixed interval.  What it
    receives drives the liveness of each peer, the estimates of its round trip
    and of its clock's skew, and the echo of its ticks in the node's own next
    tick.  The replicator asks the table which peers are worth waiting for and
    whether the node is on the majority side of a partition.

    An [Instant] is a Go [time.Time] with both its readings; the operations
    that the code runs under a mutex are single functions here, and a packet
    sent is part of the result.  Metrics and logs are left out. *)

From Stdlib Require Import Floats.SpecFloat.
From S2P Require Import Prelude Golib Wire.

(** ** Instants and durations *)

Record Instant := mkInstant { i_wall : Z; i_mono : Z }.

(** [now.Sub(t)] of two monotonic readings, which saturates. *)
Definition Sub (a b : Instant) : Z := Z.max min_int64 (Z.min max_int64 (i_mono a - i_mono b)).

Definition duration_abs (d : Z) : Z := if 0 <=? d then d else if d =? min_int64 then max_int64 else - d.

Definition clampDuration (d lo hi : Z) : Z := if d <? lo then lo else if hi <? d then hi else d.

Definition Millisecond : Z := 1000000.
Definition Second : Z := 1000 * Millisecond.

(** ** The configuration *)

Record ClockConfig := mkClockConfig {
  Interval : Z;
  WindowSize : Z;
  MissedIntervals : Z;
  MinTimeout : Z;
  MaxTimeout : Z;
  DisableAdaptiveInterval : bool }.

Definition withDefaults (c : ClockConfig) : ClockConfig :=
  mkClockConfig
    (if Interval c <=? 0 then Second else Interval c)
    (if WindowSize c <=? 0 then 64 else WindowSize c)
    (if MissedIntervals c <=? 0 then 3 else MissedIntervals c)
    (if MinTimeout c <=? 0 then Second else MinTimeout c)
    (if MaxTimeout c <=? 0 then 10 * Second else MaxTimeout c)
    (DisableAdaptiveInterval c).

(** ** The windows of samples *)

Record clockWindow := mkWindow {
  cw_samples : list Z;
  cw_sorted : list Z;
  cw_next : nat;
  cw_count : nat }.

Definition newClockWindow (size : nat) : clockWindow := mkWindow (replicate size 0) [] 0 0.

(** [None]: the index is out of range, which panics. *)
Definition cw_push (w : clockWindow) (v : Z) : option clockWindow :=
  if (cw_next w <? length (cw_samples w))%nat then
    Some (mkWindow (<[cw_next w := v]> (cw_samples w)) [] ((cw_next w + 1) mod length (cw_samples w))%nat
      (if (cw_count w <? length (cw_samples w))%nat then cw_count w + 1 else cw_count w)%nat)
  else None.

Definition cw_reset (w : clockWindow) : clockWindow := mkWindow (cw_samples w) [] 0 0.

(** The loop of [min] over the samples from index 1. *)
Fixpoint min_loop (m : Z) (l : list Z) : Z :=
  match l with [] => m | v :: l' => min_loop (if v <? m then v else m) l' end.

Definition cw_min (w : clockWindow) : option Z :=
  match cw_samples w with
  | [] => None
  | m :: _ => Some (min_loop m (drop 1 (take (cw_count w) (cw_samples w))))
  end.

(** [float64] multiplication, the conversion [int(f)] of a finite value, and
    a decimal constant, which is the nearest [float64]. *)
Definition f64_mul (a b : f64) : f64 := SFmul 53 1024 a b.

Definition f64_const (num den : Z) : f64 := SFdiv 53 1024 (f64_of_int num) (f64_of_int den).

Definition f64_to_int (f : f64) : Z :=
  match f with
  | S754_finite s m e => (if s then -1 else 1) * Z.shiftl (Zpos m) e
  | _ => 0
  end.

Definition quantile_index (q : f64) (count : nat) : Z := f64_to_int (f64_mul q (f64_of_int (Z.of_nat count - 1))).

Section Sorted.
Context `{!SortFunc}.

(** The window with its buffer sorted, and the quantile. *)
Definition quantile (w : clockWindow) (q : f64) : clockWindow * option Z :=
  let sorted :=
    if (length (cw_sorted w) =? cw_count w)%nat then cw_sorted w
    else sort_func Z.sub (take (cw_count w) (cw_samples w)) in
  let idx := quantile_index q (cw_count w) in
  (mkWindow (cw_samples w) sorted (cw_next w) (cw_count w), if idx <? 0 then None else sorted !! Z.to_nat idx).

(** ** The statistics of one peer *)

Record ClockStats := mkStats {
  Primed : bool; RTTMin : Z; SkewEst : Z; TickInterval : Z; JitterQ99 : Z }.

Record peerClockStats := mkPeerClock {
  offsetIn : clockWindow;
  offsetOut : clockWindow;
  interArrival : clockWindow;
  lastArrival : option Instant;
  lastSeq : Z }.

Definition newPeerClockStats (window : nat) : peerClockStats :=
  mkPeerClock (newClockWindow window) (newClockWindow window) (newClockWindow window) None 0.

Definition observeTick (s : peerClockStats) (tick : ClockTick) (now : Instant) : option peerClockStats :=
  let jumped := negb (ct_jumpNs tick =? 0) in
  let inw := if jumped then cw_reset (offsetIn s) else offsetIn s in
  let outw := if jumped then cw_reset (offsetOut s) else offsetOut s in
  gaps ← match lastArrival s with
         | Some last => cw_push (interArrival s) (Sub now last)
         | None => Some (interArrival s)
         end;
  inw ← cw_push inw (wrap64 (i_wall now - ct_wallClock tick));
  Some (mkPeerClock inw outw gaps (Some now) (if lastSeq s <? ct_seq tick then ct_seq tick else lastSeq s)).

Definition observeEcho (s : peerClockStats) (rawOffsetOut : Z) : option peerClockStats :=
  outw ← cw_push (offsetOut s) rawOffsetOut;
  Some (mkPeerClock (offsetIn s) outw (interArrival s) (lastArrival s) (lastSeq s)).

Definition rtt (s : peerClockStats) : option Z :=
  if (cw_count (offsetIn s) =? 0)%nat || (cw_count (offsetOut s) =? 0)%nat then Some 0
  else
    minIn ← cw_min (offsetIn s);
    minOut ← cw_min (offsetOut s);
    Some (Z.max (wrap64 (minIn + minOut)) 0).

Definition with_gaps (s : peerClockStats) (gaps : clockWindow) : peerClockStats :=
  mkPeerClock (offsetIn s) (offsetOut s) gaps (lastArrival s) (lastSeq s).

Definition offset_stats (s : peerClockStats) : option (bool * Z * Z) :=
  if (0 <? cw_count (offsetIn s))%nat && (0 <? cw_count (offsetOut s))%nat then
    minIn ← cw_min (offsetIn s);
    minOut ← cw_min (offsetOut s);
    let rtt := wrap64 (minIn + minOut) in
    Some (if 0 <? rtt then (true, rtt, Z.quot (wrap64 (minOut - minIn)) 2) else (false, 0, 0))
  else Some (false, 0, 0).

Definition half : f64 := f64_const 1 2.
Definition q99 : f64 := f64_const 99 100.

Definition snapshot (s : peerClockStats) : option (peerClockStats * ClockStats) :=
  '(primed, rtt, skew) ← offset_stats s;
  if (0 <? cw_count (interArrival s))%nat then
    let '(w, median) := quantile (interArrival s) half in
    median ← median;
    let '(w, high) := quantile w q99 in
    high ← high;
    let margin := wrap64 (high - median) in
    Some (with_gaps s w, mkStats primed rtt skew median (if 0 <? margin then margin else 0))
  else Some (s, mkStats primed rtt skew 0 0).

Definition sinceLastArrival (s : peerClockStats) (now : Instant) : option Z := Sub now <$> lastArrival s.

Definition minAdaptiveSamples : nat := 8.

(** [Some (_, None)]: not enough samples, the caller falls back. *)
Definition livenessTimeout (s : peerClockStats) (cfg : ClockConfig) : option (peerClockStats * option Z) :=
  if (cw_count (interArrival s) <? minAdaptiveSamples)%nat then Some (s, None)
  else
    let '(w, median) := quantile (interArrival s) half in
    median ← median;
    let '(w, high) := quantile w q99 in
    high ← high;
    let margin := Z.max (wrap64 (high - median)) 0 in
    let timeout := wrap64 (wrap64 (MissedIntervals cfg * median) + margin) in
    Some (with_gaps s w, Some (clampDuration timeout (MinTimeout cfg) (MaxTimeout cfg))).

(** ** The table of peers *)

Record PeerHealth := mkHealth { alive : bool; symmetric : bool; clock : peerClockStats }.

Definition IsReplicationTarget (ph : PeerHealth) : bool := alive ph && symmetric ph.

Record PeerHealthTable := mkHealthTable { ht_peers : gmap Z PeerHealth; ht_cfg : ClockConfig }.

Definition NewPeerHealthTable (cfg : ClockConfig) : PeerHealthTable := mkHealthTable ∅ (withDefaults cfg).

Definition Get (t : PeerHealthTable) (nodeID : Z) : option PeerHealth := ht_peers t !! nodeID.

Definition set_peer (t : PeerHealthTable) (nodeID : Z) (ph : PeerHealth) : PeerHealthTable :=
  mkHealthTable (<[nodeID := ph]> (ht_peers t)) (ht_cfg t).

Definition GetOrCreate (t : PeerHealthTable) (nodeID : Z) : PeerHealthTable * PeerHealth :=
  match ht_peers t !! nodeID with
  | Some v => (t, v)
  | None => let v := mkHealth false false (newPeerClockStats (Z.to_nat (WindowSize (ht_cfg t)))) in (set_peer t nodeID v, v)
  end.

Definition Remove (t : PeerHealthTable) (nodeID : Z) : PeerHealthTable :=
  mkHealthTable (delete nodeID (ht_peers t)) (ht_cfg t).

(** The test the loops over the membership make of a peer. *)
Definition is_target (t : PeerHealthTable) (nodeID : Z) : bool :=
  match Get t nodeID with Some ph => IsReplicationTarget ph | None => false end.

Section Membership.
Context `{!MapRange} (t : PeerHealthTable) (localRegion : bytes) (peerRegions : gmap Z bytes).

Definition AliveSymmetricPeers (i : nat) : list Z :=
  fold_left (fun result '(nodeID, region) =>
    if bool_decide (region = localRegion) && is_target t nodeID then result ++ [nodeID] else result)
    (map_range i peerRegions) [].

Definition AllSameRegionPeers (i : nat) : list Z :=
  fold_left (fun result '(nodeID, region) => if bool_decide (region = localRegion) then result ++ [nodeID] else result)
    (map_range i peerRegions) [].

Definition AliveSymmetricCount (i : nat) : Z :=
  fold_left (fun count '(nodeID, region) =>
    if bool_decide (region = localRegion) && is_target t nodeID then count + 1 else count) (map_range i peerRegions) 0.

Definition AllRegionPeersReachable (i : nat) : bool :=
  forallb (fun '(nodeID, region) => negb (bool_decide (region = localRegion) && negb (is_target t nodeID))) (map_range i peerRegions).

(** The loop body of [InMajorityPartition]: the nodes and those reachable. *)
Definition tally (acc : Z * Z) (x : Z * bytes) : Z * Z :=
  let '(total, reachable) := acc in
  let '(nodeID, region) := x in
  if bool_decide (region = localRegion) then (total + 1, if is_target t nodeID then reachable + 1 else reachable)
  else (total, reachable).

Definition InMajorityPartition (i : nat) : bool :=
  let '(total, reachable) := fold_left tally (map_range i peerRegions) (1, 1) in
  total / 2 <? reachable.

Definition AlivePeerIDs (i : nat) : list Z :=
  fold_left (fun result '(nodeID, ph) => if alive ph then result ++ [nodeID] else result) (map_range i (ht_peers t)) [].

End Membership.

Definition GetRTT (t : PeerHealthTable) (nodeID : Z) : option Z :=
  match Get t nodeID with Some ph => rtt (clock ph) | None => Some 0 end.

(** The windows' sorting buffers are shared with the table. *)
Definition ClockStats_of (t : PeerHealthTable) (nodeID : Z) : option (PeerHealthTable * option ClockStats) :=
  match Get t nodeID with
  | Some ph => '(s, st) ← snapshot (clock ph); Some (set_peer t nodeID (mkHealth (alive ph) (symmetric ph) s), Some st)
  | None => Some (t, None)
  end.

Definition PruneUnknownPeers (t : PeerHealthTable) (known : gset Z) : PeerHealthTable :=
  mkHealthTable (filter (fun p => p.1 ∈ known) (ht_peers t)) (ht_cfg t).

Definition fallback_timeout (cfg : ClockConfig) : Z :=
  clampDuration (wrap64 (MissedIntervals cfg * Interval cfg)) (MinTimeout cfg) (MaxTimeout cfg).

(** The visit of one peer in [CheckLiveness]. *)
Definition check_peer (cfg : ClockConfig) (now : Instant) (ph : PeerHealth) : option PeerHealth :=
  if negb (alive ph) then Some ph
  else
    match sinceLastArrival (clock ph) now with
    | None => Some ph
    | Some elapsed =>
        '(s, adaptive) ← livenessTimeout (clock ph) cfg;
        let timeout := default (fallback_timeout cfg) adaptive in
        Some (mkHealth (negb (timeout <? elapsed)) (symmetric ph) s)
    end.

Definition CheckLiveness (t : PeerHealthTable) (now : Instant) : option PeerHealthTable :=
  peers ← map_fold (fun nodeID ph acc => acc ← acc; ph' ← check_peer (ht_cfg t) now ph; Some (<[nodeID := ph']> acc))
            (Some ∅) (ht_peers t);
  Some (mkHealthTable peers (ht_cfg t)).

(** ** The heartbeat *)

Record HeartbeatManager := mkHeartbeat {
  hm_nodeID : Z;
  hm_table : PeerHealthTable;
  hm_cfg : ClockConfig;
  hm_peers : list Z;
  hm_seq : Z;
  hm_ownTicks : list tickRecord;
  hm_pendingObs : list ObservedTick;
  hm_lastTick : option (Z * Instant);  (* lastTickWall and lastTickTime *)
  hm_interval : Z;
  hm_ticksToAdjust : Z;
  hm_started : bool  (* sendFunc is set *) }.

Definition NewHeartbeatManager (nodeID : Z) (table : PeerHealthTable) (cfg : ClockConfig) : HeartbeatManager :=
  let cfg := withDefaults cfg in
  mkHeartbeat nodeID table cfg [] 0 (newTickRing (Z.to_nat (WindowSize cfg))) [] None (Interval cfg) 0 false.

Definition with_table (hm : HeartbeatManager) (t : PeerHealthTable) : HeartbeatManager :=
  mkHeartbeat (hm_nodeID hm) t (hm_cfg hm) (hm_peers hm) (hm_seq hm) (hm_ownTicks hm) (hm_pendingObs hm)
    (hm_lastTick hm) (hm_interval hm) (hm_ticksToAdjust hm) (hm_started hm).

Definition with_members (hm : HeartbeatManager) (peers : list Z) (obs : list ObservedTick) : HeartbeatManager :=
  mkHeartbeat (hm_nodeID hm) (hm_table hm) (hm_cfg hm) peers (hm_seq hm) (hm_ownTicks hm) obs
    (hm_lastTick hm) (hm_interval hm) (hm_ticksToAdjust hm) (hm_started hm).

Definition with_interval (hm : HeartbeatManager) (interval ticksToAdjust : Z) : HeartbeatManager :=
  mkHeartbeat (hm_nodeID hm) (hm_table hm) (hm_cfg hm) (hm_peers hm) (hm_seq hm) (hm_ownTicks hm) (hm_pendingObs hm)
    (hm_lastTick hm) interval ticksToAdjust (hm_started hm).

Definition obs_node (l : list ObservedTick) (i : nat) : Z := from_option ot_node 0 (l !! i).

(** [slices.BinarySearchFunc] by node: the first index at or after the node,
    and whether the node is there. *)
Definition find_obs (l : list ObservedTick) (nodeID : Z) : nat * bool :=
  let i := (sort_search (fun (_ : unit) i => (tt, nodeID <=? obs_node l i)) (length l) tt).2 in
  (i, match l !! i with Some o => ot_node o =? nodeID | None => false end).

Definition heartbeat_AddPeer (hm : HeartbeatManager) (nodeID : Z) : HeartbeatManager :=
  let peers := if bool_decide (nodeID ∈ hm_peers hm) then hm_peers hm else hm_peers hm ++ [nodeID] in
  with_table (with_members hm peers (hm_pendingObs hm)) (GetOrCreate (hm_table hm) nodeID).1.

Definition heartbeat_RemovePeer (hm : HeartbeatManager) (nodeID : Z) : HeartbeatManager :=
  let peers := match list_find (eq nodeID) (hm_peers hm) with
               | Some (i, _) => take i (hm_peers hm) ++ drop (i + 1) (hm_peers hm)
               | None => hm_peers hm
               end in
  let obs := match find_obs (hm_pendingObs hm) nodeID with
             | (i, true) => take i (hm_pendingObs hm) ++ drop (i + 1) (hm_pendingObs hm)
             | (_, false) => hm_pendingObs hm
             end in
  with_table (with_members hm peers obs) (Remove (hm_table hm) nodeID).

Definition Start (hm : HeartbeatManager) : HeartbeatManager :=
  mkHeartbeat (hm_nodeID hm) (hm_table hm) (hm_cfg hm) (hm_peers hm) (hm_seq hm) (hm_ownTicks hm) (hm_pendingObs hm)
    (hm_lastTick hm) (hm_interval hm) (hm_ticksToAdjust hm) true.

(** The packets a call hands to [sendFunc], with their peers. *)
Definition SendTickTo (hm : HeartbeatManager) (peerID : Z) (now : Instant) : HeartbeatManager * list (Z * bytes) :=
  if negb (hm_started hm) then (hm, [])
  else
    let seq := wrapu64 (hm_seq hm + 1) in
    let tick := mkTick (hm_nodeID hm) seq (i_wall now) 0 [] in
    (mkHeartbeat (hm_nodeID hm) (hm_table hm) (hm_cfg hm) (hm_peers hm) seq (ring_put (hm_ownTicks hm) seq (i_wall now))
       (hm_pendingObs hm) (hm_lastTick hm) (hm_interval hm) (hm_ticksToAdjust hm) (hm_started hm),
     [(peerID, MarshalClockTick tick)]).

(** The echoes of our own ticks in a tick received. *)
Fixpoint match_echoes (nodeID : Z) (own : list tickRecord) (observed : list ObservedTick) (s : peerClockStats)
    : option peerClockStats :=
  match observed with
  | [] => Some s
  | obs :: rest =>
      s ← (if negb (ot_node obs =? nodeID) then Some s
           else match ring_get own (ot_seq obs) with
                | Some wall => observeEcho s (wrap64 (ot_observedAt obs - wall))
                | None => Some s
                end);
      match_echoes nodeID own rest s
  end.

(** Only the latest observation of a peer is kept. *)
Definition queue_obs (l : list ObservedTick) (obs : ObservedTick) : list ObservedTick :=
  match find_obs l (ot_node obs) with
  | (i, true) => <[i := obs]> l
  | (i, false) => take i l ++ [obs] ++ drop i l
  end.

(** The manager afterwards, and whether [OnPeerRecovered] is called. *)
Definition ProcessInboundTick (hm : HeartbeatManager) (peerID : Z) (tick : ClockTick) (now : Instant)
    : option (HeartbeatManager * bool) :=
  if peerID =? hm_nodeID hm then Some (hm, false)
  else
    let '(t, ph) := GetOrCreate (hm_table hm) peerID in
    let wasAlive := alive ph in
    s ← observeTick (clock ph) tick now;
    s ← match_echoes (hm_nodeID hm) (hm_ownTicks hm) (ct_observed tick) s;
    let obs := queue_obs (hm_pendingObs hm) (mkObserved peerID (ct_seq tick) (i_wall now)) in
    '(s, _) ← snapshot s;
    Some (with_members (with_table hm (set_peer t peerID (mkHealth true true s))) (hm_peers hm) obs, negb wasAlive).

Definition livenessCheckFloor : Z := 10 * Millisecond.
Definition livenessCheckCeil : Z := 500 * Millisecond.

Definition livenessCadence (hm : HeartbeatManager) : Z := clampDuration (hm_interval hm) livenessCheckFloor livenessCheckCeil.

Definition computeWallJump (prevWall wall monoElapsed : Z) : Z := wrap64 (wrap64 (wall - prevWall) - monoElapsed).

Definition jumpDetectFactor : Z := 10.

Definition tick_jump (hm : HeartbeatManager) (now : Instant) : Z :=
  match hm_lastTick hm with
  | None => 0
  | Some (lastWall, last) =>
      let jump := computeWallJump lastWall (i_wall now) (Sub now last) in
      if duration_abs jump <=? wrap64 (jumpDetectFactor * hm_interval hm) then 0 else jump
  end.

Definition next_tick (hm : HeartbeatManager) (now : Instant) : ClockTick :=
  mkTick (hm_nodeID hm) (wrapu64 (hm_seq hm + 1)) (i_wall now) (tick_jump hm now) (hm_pendingObs hm).

Definition sendTick (hm : HeartbeatManager) (now : Instant) : HeartbeatManager * list (Z * bytes) :=
  let tick := next_tick hm now in
  (mkHeartbeat (hm_nodeID hm) (hm_table hm) (hm_cfg hm) (hm_peers hm) (ct_seq tick)
     (ring_put (hm_ownTicks hm) (ct_seq tick) (i_wall now)) [] (Some (i_wall now, now)) (hm_interval hm)
     (hm_ticksToAdjust hm) (hm_started hm),
   map (fun peerID => (peerID, MarshalClockTick tick)) (hm_peers hm)).

Definition intervalFloor : Z := 10 * Millisecond.
Definition intervalCeil : Z := 5 * Second.
Definition intervalAdjustEvery : Z := 16.

(** The smallest round trip of a list of peers, zero when none is known. *)
Fixpoint min_rtt (t : PeerHealthTable) (peers : list Z) (minRTT : Z) : option Z :=
  match peers with
  | [] => Some minRTT
  | peerID :: rest =>
      rtt ← GetRTT t peerID;
      min_rtt t rest (if rtt =? 0 then minRTT else if (minRTT =? 0) || (rtt <? minRTT) then rtt else minRTT)
  end.

(** The manager and the new interval, if it changed. *)
Definition adjustInterval (hm : HeartbeatManager) : option (HeartbeatManager * option Z) :=
  let n := hm_ticksToAdjust hm + 1 in
  if n <? intervalAdjustEvery then Some (with_interval hm (hm_interval hm) n, None)
  else
    let hm := with_interval hm (hm_interval hm) 0 in
    minRTT ← min_rtt (hm_table hm) (hm_peers hm) 0;
    if minRTT =? 0 then Some (hm, None)
    else
      let current := hm_interval hm in
      let target := clampDuration minRTT intervalFloor intervalCeil in
      let next := clampDuration target (Z.quot current 2) (wrap64 (current * 2)) in
      if next =? current then Some (hm, None) else Some (with_interval hm next 0, Some next).

(** One round of [sendLoop], and of [livenessLoop]. *)
Definition send_round (hm : HeartbeatManager) (now : Instant) : option (HeartbeatManager * list (Z * bytes) * option Z) :=
  let '(hm, out) := sendTick hm now in
  if DisableAdaptiveInterval (hm_cfg hm) then Some (hm, out, None)
  else '(hm, changed) ← adjustInterval hm; Some (hm, out, changed).

Definition liveness_round (hm : HeartbeatManager) (now : Instant) : option HeartbeatManager :=
  t ← CheckLiveness (hm_table hm) now; Some (with_table hm t).

End Sorted.

(** ** What a window holds

    Two indices less than a window apart that share a slot are one. *)

Lemma mod_window (s a b : nat) : (0 < s)%nat -> (a mod s = b mod s)%nat -> (a <= b < a + s)%nat -> a = b.
Proof.
  intros Hs E Hab. pose proof (Nat.div_mod_eq a s) as Ha. pose proof (Nat.div_mod_eq b s) as Hb.
  pose proof (Nat.Div0.div_le_mono a b s ltac:(lia)). destruct (decide (a / s = b / s)%nat); [congruence|]. nia.
Qed.

(** [holds w l]: since its last reset the window took the samples [l]. *)

Record holds (size : nat) (w : clockWindow) (l : list Z) : Prop := {
  hl_size : length (cw_samples w) = size;
  hl_pos : (0 < size)%nat;
  hl_count : cw_count w = Nat.min (length l) size;
  hl_next : cw_next w = (length l mod size)%nat;
  hl_slots : forall i, (length l - size <= i < length l)%nat -> cw_samples w !! (i mod size)%nat = l !! i }.

Lemma holds_new size : (0 < size)%nat -> holds size (newClockWindow size) [].
Proof.
  intros Hs. split; cbn [newClockWindow cw_samples cw_count cw_next length]; [apply length_replicate|done|done| |lia].
  by rewrite Nat.Div0.mod_0_l.
Qed.

Lemma holds_reset size w l : holds size w l -> holds size (cw_reset w) [].
Proof.
  intros [H1 H2 _ _ _]. split; cbn [cw_reset cw_samples cw_count cw_next length]; [done|done|done| |lia].
  by rewrite Nat.Div0.mod_0_l.
Qed.

Lemma holds_push size w l v : holds size w l -> exists w', cw_push w v = Some w' /\ holds size w' (l ++ [v]) /\ cw_sorted w' = [].
Proof.
  intros [H1 H2 H3 H4 H5]. unfold cw_push. assert (Hn : (cw_next w < size)%nat) by (rewrite H4; apply Nat.mod_upper_bound; lia).
  rewrite H1. destruct (Nat.ltb_spec (cw_next w) size); [|lia]. eexists. split; [done|]. split; [|done].
  assert (Hmod : ((length l mod size + 1) mod size = (length l + 1) mod size)%nat) by apply Nat.Div0.add_mod_idemp_l.
  split; cbn [cw_samples cw_count cw_next]; rewrite ?length_app; cbn [length].
  - by rewrite length_insert.
  - done.
  - rewrite H3. destruct (Nat.ltb_spec (Nat.min (length l) size) size); lia.
  - by rewrite H4.
  - intros i Hi. rewrite H4. destruct (decide (i = length l)) as [->|Hne].
    + rewrite list_lookup_insert_eq by (rewrite H1, <- H4; done). by rewrite lookup_app_r, Nat.sub_diag by lia.
    + rewrite list_lookup_insert_ne, lookup_app_l by (try lia; intros E; apply Hne;
        apply (mod_window size); lia). apply H5. lia.
Qed.

(** The live samples are the last [size] taken. *)
Lemma live_samples size w l v : holds size w l ->
  v ∈ take (cw_count w) (cw_samples w) <-> v ∈ drop (length l - size) l.
Proof.
  intros [H1 H2 H3 H4 H5]. rewrite !list_elem_of_lookup, H3. split.
  - intros [j [Hj Hlt]%lookup_take_Some]. set (n := length l) in *.
    assert (exists i, (n - size <= i < n)%nat /\ (i mod size = j)%nat) as (i & Hi & <-).
    { destruct (decide (n <= size)%nat); [exists j; rewrite Nat.mod_small by lia; lia|].
      exists (n - 1 - (n - 1 - j) mod size)%nat. pose proof (Nat.mod_upper_bound (n - 1 - j) size ltac:(lia)).
      pose proof (Nat.Div0.mod_le (n - 1 - j) size). split; [lia|].
      pose proof (Nat.div_mod_eq (n - 1 - j) size). replace (n - 1 - (n - 1 - j) mod size)%nat with (j + ((n - 1 - j) / size) * size)%nat by lia.
      rewrite Nat.Div0.mod_add. apply Nat.mod_small. lia. }
    exists (i - (n - size))%nat. rewrite lookup_drop. replace (_ + _)%nat with i by lia. by rewrite <- H5.
  - intros [k Hk]. rewrite lookup_drop in Hk. pose proof (lookup_lt_Some _ _ _ Hk). set (i := (length l - size + k)%nat) in *.
    exists (i mod size)%nat. apply lookup_take_Some. split; [rewrite H5; [done|lia]|].
    destruct (decide (length l <= size)%nat); [rewrite Nat.mod_small by lia; lia|].
    pose proof (Nat.mod_upper_bound i size). lia.
Qed.

Lemma min_loop_spec l m : (min_loop m l = m \/ min_loop m l ∈ l) /\ min_loop m l <= m /\ forall v, v ∈ l -> min_loop m l <= v.
Proof.
  revert m. induction l as [|x l IH]; intros m; cbn [min_loop]; [split; [auto|]; split; [lia|]; by intros v Hv%elem_of_nil|].
  destruct (IH (if x <? m then x else m)) as (Hm & Hle & Hall). rewrite !elem_of_cons. destruct (Z.ltb_spec x m).
  - split; [destruct Hm; auto|]. split; [lia|]. intros v [->|Hv]%elem_of_cons; auto.
  - split; [destruct Hm; auto|]. split; [lia|]. intros v [->|Hv]%elem_of_cons; [lia|auto].
Qed.

(** The minimum of a window is that of the last samples. *)
Lemma cw_min_spec size w l : holds size w l -> l <> [] ->
  exists m, cw_min w = Some m /\ m ∈ drop (length l - size) l /\ forall v, v ∈ drop (length l - size) l -> m <= v.
Proof.
  intros Hh Hl. unfold cw_min. pose proof (live_samples size w l) as Hlive.
  destruct (cw_samples w) as [|m rest] eqn:Es; [destruct Hh as [H1 H2]; rewrite Es in H1; cbn in H1; lia|].
  eexists. split; [done|]. assert (Hc : exists c, cw_count w = S c).
  { destruct Hh as [_ H2 H3 _ _]. destruct l; [done|]. rewrite H3. cbn [length]. destruct size as [|k]; [lia|].
    exists (Nat.min (length l) k). lia. }
  destruct Hc as [c Hc]. rewrite Hc in *. cbn [take drop] in *.
  destruct (min_loop_spec (take c rest) m) as (Hm & Hle & Hall). split.
  - apply Hlive; [done|]. apply elem_of_cons. tauto.
  - intros v Hv. apply Hlive in Hv; [|done]. apply elem_of_cons in Hv as [->|Hv]; auto.
Qed.

(** The positions the code asks for are inside the buffer, for every window
    of at most 4096 samples (the default is 64). *)
Definition maxWindow : nat := 4096.

Definition index_ok (q : f64) (n : nat) : bool := (0 <=? quantile_index q n) && (quantile_index q n <? Z.of_nat n).

Lemma index_table : forallb (fun n => index_ok half n && index_ok q99 n) (seq 1 maxWindow) = true.
Proof. by vm_compute. Qed.

Lemma index_in_range q n : q = half \/ q = q99 -> (0 < n <= maxWindow)%nat -> 0 <= quantile_index q n < Z.of_nat n.
Proof.
  intros Hq Hn. pose proof index_table as Ht. rewrite forallb_forall in Ht.
  specialize (Ht n). rewrite in_seq in Ht. specialize (Ht ltac:(lia)). apply andb_true_iff in Ht as [H1 H2].
  unfold index_ok in H1, H2. rewrite andb_true_iff, Z.leb_le, Z.ltb_lt in H1, H2. destruct Hq as [->| ->]; lia.
Qed.

Section Statistics.
Context `{!SortFunc} (size : nat).

Definition buffered (w : clockWindow) : Prop :=
  cw_sorted w = [] \/ cw_sorted w = sort_func Z.sub (take (cw_count w) (cw_samples w)).

Lemma quantile_spec w l q : holds size w l -> buffered w -> l <> [] -> (size <= maxWindow)%nat -> q = half \/ q = q99 ->
  exists w' v, quantile w q = (w', Some v) /\ holds size w' l /\ buffered w' /\ v ∈ drop (length l - size) l.
Proof.
  intros Hh Hb Hl Hsz Hq. assert (Hc : (0 < cw_count w <= maxWindow)%nat).
  { destruct Hh as [_ H2 H3 _ _]. rewrite H3. destruct l; [done|]. cbn [length]. lia. }
  assert (Es : (if (length (cw_sorted w) =? cw_count w)%nat then cw_sorted w else sort_func Z.sub (take (cw_count w) (cw_samples w)))
    = sort_func Z.sub (take (cw_count w) (cw_samples w))).
  { destruct (Nat.eqb_spec (length (cw_sorted w)) (cw_count w)) as [E|]; [|done]. destruct Hb as [E'|]; [|done].
    rewrite E' in E. cbn in E. lia. }
  unfold quantile. rewrite Es. pose proof (index_in_range q _ Hq Hc) as Hi. set (idx := quantile_index q (cw_count w)) in *.
  destruct (Z.ltb_spec idx 0); [lia|]. set (sorted := sort_func Z.sub _).
  assert (Hlen : length sorted = cw_count w).
  { unfold sorted. rewrite (sort_func_perm Z.sub), length_take. destruct Hh as [H1 _ H3 _ _]. lia. }
  destruct (lookup_lt_is_Some_2 sorted (Z.to_nat idx)) as [v Hv]; [lia|]. rewrite Hv. eexists _, _. split; [done|].
  split; [by destruct Hh|]. split; [by right|]. apply (live_samples size w l v Hh).
  apply list_elem_of_lookup_2 in Hv. unfold sorted in Hv. by rewrite elem_of_sort_func in Hv.
Qed.

(** ** What a peer is known by

    The observations of one peer in the order they were made: a tick that
    arrives, and the echo of one of our own ticks. *)

Inductive heard := HTick (tick : ClockTick) (now : Instant) | HEcho (rawOffsetOut : Z).

Definition hear (s : peerClockStats) (h : heard) : option peerClockStats :=
  match h with
  | HTick tick now => observeTick s tick now
  | HEcho raw => observeEcho s raw
  end.

Fixpoint hear_all (s : peerClockStats) (hs : list heard) : option peerClockStats :=
  match hs with [] => Some s | h :: hs' => s ← hear s h; hear_all s hs' end.

(** The offsets since the last reported jump, in both directions. *)
Definition in_offsets (ins : list Z) (h : heard) : list Z :=
  match h with
  | HTick tick now => (if ct_jumpNs tick =? 0 then ins else []) ++ [wrap64 (i_wall now - ct_wallClock tick)]
  | HEcho _ => ins
  end.

Definition out_offsets (outs : list Z) (h : heard) : list Z :=
  match h with
  | HTick tick _ => if ct_jumpNs tick =? 0 then outs else []
  | HEcho raw => outs ++ [raw]
  end.

(** The gaps between arrivals, and the last arrival. *)
Definition gaps_of (st : list Z * option Instant) (h : heard) : list Z * option Instant :=
  match h with
  | HTick _ now => (match st.2 with Some last => st.1 ++ [Sub now last] | None => st.1 end, Some now)
  | HEcho _ => st
  end.

Record clock_ok (s : peerClockStats) (ins outs : list Z) (gaps : list Z * option Instant) : Prop := {
  co_in : holds size (offsetIn s) ins;
  co_out : holds size (offsetOut s) outs;
  co_gaps : holds size (interArrival s) gaps.1;
  co_buffer : buffered (interArrival s);
  co_last : lastArrival s = gaps.2 }.

Lemma clock_new : (0 < size)%nat -> clock_ok (newPeerClockStats size) [] [] ([], None).
Proof. intros Hs. split; cbn; try apply (holds_new _ Hs); [by left|done]. Qed.

Lemma clock_hear s ins outs gaps h : clock_ok s ins outs gaps ->
  exists s', hear s h = Some s' /\ clock_ok s' (in_offsets ins h) (out_offsets outs h) (gaps_of gaps h).
Proof.
  intros [Hi Ho Hg Hb Hl]. destruct h as [tick now|raw]; cbn [hear in_offsets out_offsets gaps_of].
  - unfold observeTick. rewrite Hl.
    assert (exists w, match gaps.2 with Some last => cw_push (interArrival s) (Sub now last) | None => Some (interArrival s) end = Some w
      /\ holds size w (match gaps.2 with Some last => gaps.1 ++ [Sub now last] | None => gaps.1 end) /\ buffered w) as (w & -> & Hw & Hbw).
    { destruct gaps.2 as [last|]; [|eauto]. destruct (holds_push _ _ _ (Sub now last) Hg) as (w & E & Hw & Es). exists w. by rewrite E; split_and!; [..|left]. }
    cbn [mbind option_bind].
    assert (holds size (if negb (ct_jumpNs tick =? 0) then cw_reset (offsetIn s) else offsetIn s) (if ct_jumpNs tick =? 0 then ins else [])) as Hi'
      by (destruct (ct_jumpNs tick =? 0); cbn [negb]; [done|by eapply holds_reset]).
    destruct (holds_push _ _ _ (wrap64 (i_wall now - ct_wallClock tick)) Hi') as (w' & -> & Hw' & _). cbn [mbind option_bind].
    eexists. split; [done|]. split; cbn [offsetIn offsetOut interArrival lastArrival fst snd]; [done| |done|done|done].
    destruct (ct_jumpNs tick =? 0); cbn [negb]; [done|by eapply holds_reset].
  - unfold observeEcho. destruct (holds_push _ _ _ raw Ho) as (w & -> & Hw & _). cbn [mbind option_bind]. eexists. split; [done|].
    by split.
Qed.

Lemma clock_hear_all hs s ins outs gaps : clock_ok s ins outs gaps ->
  exists s', hear_all s hs = Some s'
    /\ clock_ok s' (fold_left in_offsets hs ins) (fold_left out_offsets hs outs) (fold_left gaps_of hs gaps).
Proof.
  revert s ins outs gaps. induction hs as [|h hs IH]; intros s ins outs gaps Hok; cbn [hear_all fold_left]; [eauto|].
  destruct (clock_hear s ins outs gaps h Hok) as (s' & -> & Hok'). cbn [mbind option_bind]. by apply IH.
Qed.

(** The last [size] of a list. *)
Definition recent (l : list Z) : list Z := drop (length l - size) l.

Definition smallest (m : Z) (l : list Z) : Prop := m ∈ l /\ forall v, v ∈ l -> m <= v.

Lemma holds_nonempty w l : holds size w l -> (0 < cw_count w)%nat <-> l <> [].
Proof. intros [_ H2 H3 _ _]. rewrite H3. destruct l; cbn [length]; (split; [|lia || done]); [lia|done]. Qed.

Lemma offset_stats_spec s ins outs gaps : clock_ok s ins outs gaps ->
  (ins = [] \/ outs = [] -> offset_stats s = Some (false, 0, 0))
  /\ (ins <> [] -> outs <> [] -> exists minIn minOut, smallest minIn (recent ins) /\ smallest minOut (recent outs)
      /\ offset_stats s = Some (if 0 <? wrap64 (minIn + minOut) then (true, wrap64 (minIn + minOut), Z.quot (wrap64 (minOut - minIn)) 2)
                                else (false, 0, 0))).
Proof.
  intros [Hi Ho _ _ _]. unfold offset_stats. split.
  - intros Hn. replace (_ && _) with false; [done|]. symmetry. apply andb_false_iff. rewrite !Nat.ltb_ge.
    destruct Hn as [->| ->]; [left|right]; [destruct Hi as [_ _ -> _ _]|destruct Ho as [_ _ -> _ _]]; cbn [length]; lia.
  - intros H1 H2. replace (_ && _) with true
      by (symmetry; rewrite andb_true_iff, !Nat.ltb_lt; split; by eapply holds_nonempty).
    destruct (cw_min_spec _ _ _ Hi H1) as (mi & -> & Hmi). destruct (cw_min_spec _ _ _ Ho H2) as (mo & -> & Hmo).
    cbn [mbind option_bind]. by exists mi, mo.
Qed.

Lemma snapshot_spec s ins outs gaps : clock_ok s ins outs gaps -> (size <= maxWindow)%nat ->
  exists s' st, snapshot s = Some (s', st) /\ clock_ok s' ins outs gaps
    /\ offset_stats s = Some (Primed st, RTTMin st, SkewEst st).
Proof.
  intros Hok Hsz. assert (exists r, offset_stats s = Some r) as [[[p r] k] Eo].
  { destruct (offset_stats_spec _ _ _ _ Hok) as [H1 H2]. destruct (decide (ins = [])); [rewrite H1; eauto|].
    destruct (decide (outs = [])); [rewrite H1; eauto|]. destruct H2 as (? & ? & _ & _ & ->); eauto. }
  unfold snapshot. rewrite Eo. cbn [mbind option_bind]. destruct (Nat.ltb_spec 0 (cw_count (interArrival s))) as [Hc|]; [|by exists s; eexists].
  destruct Hok as [Hi Ho Hg Hb Hl]. apply (holds_nonempty _ _ Hg) in Hc.
  destruct (quantile_spec _ _ half Hg Hb Hc Hsz) as (w & v & -> & Hw & Hbw & _); [auto|]. cbn [mbind option_bind].
  destruct (quantile_spec _ _ q99 Hw Hbw Hc Hsz) as (w' & v' & -> & Hw' & Hbw' & _); [auto|]. cbn [mbind option_bind].
  eexists _, _. split; [done|]. split; [by split|done].
Qed.

Lemma livenessTimeout_spec s ins outs gaps cfg : clock_ok s ins outs gaps -> (size <= maxWindow)%nat ->
  exists s' t, livenessTimeout s cfg = Some (s', t) /\ clock_ok s' ins outs gaps
    /\ match t with
       | None => (length (recent gaps.1) < minAdaptiveSamples)%nat
       | Some d => exists raw, d = clampDuration raw (MinTimeout cfg) (MaxTimeout cfg)
       end.
Proof.
  intros Hok Hsz. unfold livenessTimeout. destruct (Nat.ltb_spec (cw_count (interArrival s)) minAdaptiveSamples) as [Hc|Hc].
  { exists s, None. split; [done|]. split; [done|]. destruct Hok as [_ _ [_ _ H3 _ _] _ _]. unfold recent. rewrite length_drop. lia. }
  assert (Hn : (0 < cw_count (interArrival s))%nat) by (unfold minAdaptiveSamples in Hc; lia).
  destruct Hok as [Hi Ho Hg Hb Hl]. apply (holds_nonempty _ _ Hg) in Hn.
  destruct (quantile_spec _ _ half Hg Hb Hn Hsz) as (w & v & -> & Hw & Hbw & _); [auto|]. cbn [mbind option_bind].
  destruct (quantile_spec _ _ q99 Hw Hbw Hn Hsz) as (w' & v' & -> & Hw' & Hbw' & _); [auto|]. cbn [mbind option_bind].
  eexists _, _. split; [done|]. split; [by split|]. eauto.
Qed.

(** [C38] The round trip and the skew of a peer.  After any observations of a
    peer, let [skew] be what its clock is ahead of ours since its last
    reported jump: every one-way delay in the two windows is then an offset
    plus or minus the skew, and is not negative.  The round trip reported is
    exactly the sum of the smallest delays of the two directions, whatever the
    skew, and the estimate of the skew is off by at most half the difference
    of these two delays and half a nanosecond; until both directions were
    measured nothing is reported. *)
Theorem skew_bounded hs skew : (0 < size <= maxWindow)%nat ->
  let ins := recent (fold_left in_offsets hs []) in
  let outs := recent (fold_left out_offsets hs []) in
  Z.abs skew < 2 ^ 61 -> (forall v, v ∈ ins -> 0 <= v + skew < 2 ^ 61) -> (forall v, v ∈ outs -> 0 <= v - skew < 2 ^ 61) ->
  exists s s' st, hear_all (newPeerClockStats size) hs = Some s /\ snapshot s = Some (s', st)
  /\ (ins = [] \/ outs = [] -> Primed st = false)
  /\ (ins <> [] -> outs <> [] -> exists dIn dOut,
        smallest dIn (map (fun v => v + skew) ins) /\ smallest dOut (map (fun v => v - skew) outs)
        /\ (Primed st = true <-> 0 < dIn + dOut)
        /\ (Primed st = true -> RTTMin st = dIn + dOut /\ 2 * Z.abs (SkewEst st - skew) <= Z.abs (dOut - dIn) + 1)).
Proof.
  intros Hsz ins outs Hk Hin Hout. destruct (clock_hear_all hs _ _ _ _ (clock_new ltac:(lia))) as (s & Es & Hok).
  destruct (snapshot_spec _ _ _ _ Hok ltac:(lia)) as (s' & st & Ess & _ & Eo). exists s, s', st. split; [done|]. split; [done|].
  destruct (offset_stats_spec _ _ _ _ Hok) as [H1 H2].
  assert (Hempty : forall l, recent l = [] -> l = []).
  { intros l E. apply (f_equal length) in E. unfold recent in E. rewrite length_drop in E. destruct l; [done|]. cbn [length] in E. lia. }
  split.
  - intros Hn. rewrite H1 in Eo; [by injection Eo|]. destruct Hn as [E|E]; apply Hempty in E; auto.
  - intros Hi Ho. destruct H2 as (mi & mo & [Hmi Hi'] & [Hmo Ho'] & E).
    { intros E. apply Hi. unfold ins. by rewrite E. } { intros E. apply Ho. unfold outs. by rewrite E. }
    fold ins in Hmi, Hi'. fold outs in Hmo, Ho'. pose proof (Hin mi Hmi). pose proof (Hout mo Hmo).
    rewrite E in Eo. clear E H1 Hempty. rewrite !wrap64_id in Eo by (unfold is_int64, min_int64, max_int64; lia).
    exists (mi + skew), (mo - skew). split_and!.
    + split; [by apply (list_elem_of_fmap_2 (fun v => v + skew))|]. intros v (u & -> & Hu)%list_elem_of_fmap. specialize (Hi' u Hu). lia.
    + split; [by apply (list_elem_of_fmap_2 (fun v => v - skew))|]. intros v (u & -> & Hu)%list_elem_of_fmap. specialize (Ho' u Hu). lia.
    + destruct (Z.ltb_spec 0 (mi + mo)); injection Eo as <- _ _; split; intros; lia || done.
    + destruct (Z.ltb_spec 0 (mi + mo)); injection Eo as <- <- <-; [|done]. intros _. split; [lia|].
      pose proof (Z.quot_rem (mo - mi) 2 ltac:(lia)). pose proof (Z.rem_bound_abs (mo - mi) 2 ltac:(lia)). lia.
Qed.

End Statistics.

(** A peer whose clock is 5 ns ahead, with delays of 10 and 6 ns one way and
    8 ns the other. *)
Lemma skew_bounded_witness :
  let hs := [HTick (mkTick 2 1 105 0 []) (mkInstant 110 0); HTick (mkTick 2 2 205 0 []) (mkInstant 206 100); HEcho 13] in
  exists s s' st, hear_all (newPeerClockStats 4) hs = Some s
    /\ @snapshot insertion_sorter s = Some (s', st) /\ RTTMin st = 14.
Proof.
  intros hs. destruct (@skew_bounded insertion_sorter 4 hs 5) as (s & s' & st & E1 & E2 & _ & H).
  - unfold maxWindow. lia.
  - lia.
  - intros v Hv. change (v ∈ [5; 1]) in Hv. rewrite !elem_of_cons, elem_of_nil in Hv. lia.
  - intros v Hv. change (v ∈ [13]) in Hv. rewrite !elem_of_cons, elem_of_nil in Hv. lia.
  - exists s, s', st. split; [done|]. split; [done|]. vm_compute in E1. injection E1 as <-. vm_compute in E2. by injection E2 as <- <-.
Defined.

(** ** The pending observations *)

Definition by_node (a b : ObservedTick) : Prop := ot_node a < ot_node b.

Lemma in_order l (i j : nat) x y : StronglySorted by_node l -> l !! i = Some x -> l !! j = Some y -> (i < j)%nat -> by_node x y.
Proof.
  intros Hs. revert i j. induction Hs as [|z l Hs IH Hz]; intros i j Hi Hj Hij; [done|]. destruct j as [|j]; [lia|].
  destruct i as [|i]; cbn in Hi, Hj; [injection Hi as ->; eapply list.Forall_forall; [exact Hz|by eapply list_elem_of_lookup_2]|].
  apply (IH i j); [done..|lia].
Qed.

(** The search splits a sorted list at the node. *)
Lemma find_obs_spec l n : StronglySorted by_node l ->
  exists l1 l2, Forall (fun o => ot_node o < n) l1 /\ Forall (fun o => n < ot_node o) l2
    /\ ((l = l1 ++ l2 /\ find_obs l n = (length l1, false))
        \/ exists x, l = l1 ++ x :: l2 /\ ot_node x = n /\ find_obs l n = (length l1, true)).
Proof.
  intros Hs. unfold find_obs.
  pose proof (sort_search_spec (fun (_ : unit) i => (tt, n <=? obs_node l i)) (fun _ => True) (fun k => n <= obs_node l k) (length l) tt) as Hf.
  destruct (sort_search _ _ _) as [u i]. cbn [snd]. destruct Hf as (_ & Hle & Hi).
  { intros _ k _ Hk. split; [done|]. cbn. by rewrite Z.leb_le. }
  { intros a b Hab Ha. destruct (decide (a = b)) as [->|]; [done|]. unfold obs_node in *.
    destruct (lookup_lt_is_Some_2 l a) as [x Hx]; [lia|]. destruct (lookup_lt_is_Some_2 l b) as [y Hy]; [lia|].
    rewrite Hx in Ha. rewrite Hy. cbn in *. pose proof (in_order _ a b x y Hs Hx Hy ltac:(lia)). unfold by_node in *. lia. }
  { done. }
  assert (Hat : forall k x, l !! k = Some x -> (i <= k)%nat <-> n <= ot_node x).
  { intros k x Hx. pose proof (Hi k (lookup_lt_Some _ _ _ Hx)) as H. unfold obs_node in H. by rewrite Hx in H. }
  assert (Hlow : Forall (fun o => ot_node o < n) (take i l)).
  { apply list.Forall_forall. intros o [k [Hk Hlt]%lookup_take_Some]%list_elem_of_lookup. specialize (Hat k o Hk). lia. }
  destruct (l !! i) as [x|] eqn:Ex.
  - pose proof (take_drop_middle l i x Ex) as El. assert (Hhi : Forall (fun o => ot_node x < ot_node o) (drop (S i) l)).
    { apply list.Forall_forall. intros o [k Hk]%list_elem_of_lookup. rewrite lookup_drop in Hk.
      apply (in_order _ i (S i + k) x o Hs Ex Hk). lia. }
    pose proof (Hat i x Ex) as Hx. assert (Hlen : length (take i l) = i) by (rewrite length_take; apply lookup_lt_Some in Ex; lia).
    destruct (Z.eqb_spec (ot_node x) n) as [<-|Hne].
    + exists (take i l), (drop (S i) l). split_and!; [done|done|]. right. exists x. by rewrite Hlen.
    + exists (take i l), (x :: drop (S i) l). split_and!; [done| |].
      * constructor; [lia|]. eapply Forall_impl; [|exact Hhi]. cbn. lia.
      * left. by rewrite Hlen.
  - apply lookup_ge_None in Ex. assert (i = length l) as -> by lia. exists l, []. rewrite firstn_all in Hlow.
    split_and!; [done|done|]. left. by rewrite app_nil_r.
Qed.

(** [keeps l m]: the sorted list [l] holds the observations of the map [m]. *)
Definition keeps (l : list ObservedTick) (m : gmap Z ObservedTick) : Prop :=
  StronglySorted by_node l /\ forall n o, m !! n = Some o <-> o ∈ l /\ ot_node o = n.

Lemma sorted_around l1 l2 n : StronglySorted by_node (l1 ++ l2) -> Forall (fun o => ot_node o < n) l1 ->
  Forall (fun o => n < ot_node o) l2 -> forall x, ot_node x = n -> StronglySorted by_node (l1 ++ x :: l2).
Proof.
  intros Hs H1 H2 x Hx. induction l1 as [|y l1 IH]; cbn [app] in *.
  - constructor; [done|]. eapply Forall_impl; [|exact H2]. unfold by_node. cbn. lia.
  - apply StronglySorted_inv in Hs as [Hs Hy]. apply list.Forall_cons in H1 as [Hyn H1]. constructor; [by apply IH|].
    apply list.Forall_app in Hy as [Hy1 Hy2]. apply list.Forall_app. split; [done|]. constructor; [unfold by_node; lia|done].
Qed.

Lemma sorted_without l1 x l2 : StronglySorted by_node (l1 ++ x :: l2) -> StronglySorted by_node (l1 ++ l2).
Proof.
  induction l1 as [|y l1 IH]; cbn [app]; intros [Hs Hy]%StronglySorted_inv; [done|]. constructor; [by apply IH|].
  apply list.Forall_app in Hy as [Hy1 Hy2%list.Forall_cons]. apply list.Forall_app. tauto.
Qed.

Lemma bound_ne (P : ObservedTick -> Prop) l o : Forall P l -> o ∈ l -> P o.
Proof. intros Hf Ho. by eapply list.Forall_forall in Hf. Qed.

Lemma keeps_queue l m obs : keeps l m -> keeps (queue_obs l obs) (<[ot_node obs := obs]> m).
Proof.
  intros [Hs Hm]. unfold queue_obs. set (n := ot_node obs). destruct (find_obs_spec l n Hs) as (l1 & l2 & H1 & H2 & Hc).
  assert ((match find_obs l n with (i, true) => <[i := obs]> l | (i, false) => take i l ++ [obs] ++ drop i l end) = l1 ++ obs :: l2
    /\ StronglySorted by_node (l1 ++ l2) /\ forall o, ot_node o <> n -> o ∈ l <-> o ∈ l1 ++ l2) as (-> & Hs' & Hl).
  { destruct Hc as [[-> ->]|(x & -> & Hx & ->)].
    - split; [by rewrite take_app_length, drop_app_length|]. by split.
    - split; [by rewrite insert_app_r_alt, Nat.sub_diag by lia|]. split; [by eapply sorted_without|].
      intros o Ho. rewrite !elem_of_app, elem_of_cons. split; [intros [?|[->|?]]; tauto|tauto]. }
  split; [by eapply sorted_around|]. intros k o. rewrite elem_of_app, elem_of_cons. destruct (decide (k = n)) as [->|Hk].
  - rewrite lookup_insert_eq. split; [intros [= <-]; auto|]. intros [[Ho|[->|Ho]] E]; [|done|].
    + pose proof (bound_ne _ _ _ H1 Ho). cbn in *. lia.
    + pose proof (bound_ne _ _ _ H2 Ho). cbn in *. lia.
  - rewrite lookup_insert_ne, Hm by done. split; intros [Ho E]; (split; [|done]).
    + rewrite Hl, elem_of_app in Ho by congruence. tauto.
    + rewrite Hl, elem_of_app by congruence. destruct Ho as [?|[->|?]]; [tauto|exfalso; by apply Hk|tauto].
Qed.

Lemma keeps_delete l m n : keeps l m ->
  keeps (match find_obs l n with (i, true) => take i l ++ drop (i + 1) l | (_, false) => l end) (delete n m).
Proof.
  intros [Hs Hm]. destruct (find_obs_spec l n Hs) as (l1 & l2 & H1 & H2 & Hc).
  assert ((match find_obs l n with (i, true) => take i l ++ drop (i + 1) l | (_, false) => l end) = l1 ++ l2
    /\ StronglySorted by_node (l1 ++ l2) /\ forall o, ot_node o <> n -> o ∈ l <-> o ∈ l1 ++ l2) as (-> & Hs' & Hl).
  { destruct Hc as [[-> ->]|(x & -> & Hx & ->)]; [by split|].
    split; [rewrite take_app_length, (drop_app_ge _ _ (length l1 + 1)) by lia; by replace (_ + 1 - _)%nat with 1%nat by lia|].
    split; [by eapply sorted_without|]. intros o Ho. rewrite !elem_of_app, elem_of_cons. split; [intros [?|[->|?]]; tauto|tauto]. }
  split; [done|]. intros k o. destruct (decide (k = n)) as [->|Hk].
  - rewrite lookup_delete_eq. split; [done|]. rewrite elem_of_app. intros [[Ho|Ho] E].
    + pose proof (bound_ne _ _ _ H1 Ho). cbn in *. lia.
    + pose proof (bound_ne _ _ _ H2 Ho). cbn in *. lia.
  - rewrite lookup_delete_ne, Hm by done. split; intros [Ho E]; (split; [|done]); [by rewrite <- Hl by congruence|by rewrite Hl by congruence].
Qed.

(** ** Runs of the heartbeat *)

Inductive hm_op :=
  | OpAddPeer (p : Z)
  | OpRemovePeer (p : Z)
  | OpStart
  | OpSendTickTo (p : Z) (now : Instant)
  | OpTick (p : Z) (tick : ClockTick) (now : Instant)
  | OpSendRound (now : Instant)
  | OpLiveness (now : Instant)
  | OpPrune (known : gset Z)
  | OpClockStats (p : Z).

Section Run.
Context `{!SortFunc} (nodeID : Z) (cfg : ClockConfig).

Definition exec (hm : HeartbeatManager) (op : hm_op) : option HeartbeatManager :=
  match op with
  | OpAddPeer p => Some (heartbeat_AddPeer hm p)
  | OpRemovePeer p => Some (heartbeat_RemovePeer hm p)
  | OpStart => Some (Start hm)
  | OpSendTickTo p now => Some (SendTickTo hm p now).1
  | OpTick p tick now => fst <$> ProcessInboundTick hm p tick now
  | OpSendRound now => (fun r => r.1.1) <$> send_round hm now
  | OpLiveness now => liveness_round hm now
  | OpPrune known => Some (with_table hm (PruneUnknownPeers (hm_table hm) known))
  | OpClockStats p => (fun r => with_table hm r.1) <$> ClockStats_of (hm_table hm) p
  end.

Definition run_ops (hm : HeartbeatManager) (ops : list hm_op) : option HeartbeatManager :=
  fold_left (fun hm op => hm ← hm; exec hm op) ops (Some hm).

Definition new_manager : HeartbeatManager := NewHeartbeatManager nodeID (NewPeerHealthTable cfg) cfg.

(** What was heard from each peer, and the observations not echoed yet. *)
Definition heard_of (m : gmap Z Instant) (op : hm_op) : gmap Z Instant :=
  match op with
  | OpTick p _ now => if p =? nodeID then m else <[p := now]> m
  | OpRemovePeer p => delete p m
  | OpPrune known => filter (fun x => x.1 ∈ known) m
  | _ => m
  end.

Definition unechoed (m : gmap Z ObservedTick) (op : hm_op) : gmap Z ObservedTick :=
  match op with
  | OpTick p tick now => if p =? nodeID then m else <[p := mkObserved p (ct_seq tick) (i_wall now)]> m
  | OpRemovePeer p => delete p m
  | OpSendRound _ => ∅
  | _ => m
  end.

Definition cfg' : ClockConfig := withDefaults cfg.
Definition window : nat := Z.to_nat (WindowSize cfg').
Definition slowest : Z := Z.max (Interval cfg') intervalCeil.
Definition fastest : Z := Z.min (Interval cfg') intervalFloor.

Context (Hwindow : (window <= maxWindow)%nat) (Hinterval : Interval cfg' < 2 ^ 62).

Lemma window_pos : (0 < window)%nat.
Proof. unfold window, cfg', withDefaults. cbn [WindowSize]. destruct (Z.leb_spec (WindowSize cfg) 0); lia. Qed.

Definition peer_ok (heard : gmap Z Instant) (p : Z) (ph : PeerHealth) : Prop :=
  (exists ins outs gaps, clock_ok window (clock ph) ins outs gaps) /\ lastArrival (clock ph) = heard !! p
  /\ (alive ph = true -> is_Some (heard !! p)) /\ (p = nodeID -> alive ph = false).

Definition table_ok (heard : gmap Z Instant) (t : PeerHealthTable) : Prop :=
  ht_cfg t = cfg' /\ (forall p ph, ht_peers t !! p = Some ph -> peer_ok heard p ph)
  /\ forall p, ht_peers t !! p = None -> heard !! p = None.

Record hm_ok (hm : HeartbeatManager) (heard : gmap Z Instant) (obs : gmap Z ObservedTick) : Prop := {
  ok_node : hm_nodeID hm = nodeID;
  ok_cfg : hm_cfg hm = cfg';
  ok_table : table_ok heard (hm_table hm);
  ok_obs : keeps (hm_pendingObs hm) obs;
  ok_interval : fastest <= hm_interval hm <= slowest }.

Lemma table_set heard t p ph : table_ok heard t -> peer_ok heard p ph -> table_ok heard (set_peer t p ph).
Proof.
  intros (H1 & H2 & H3) Hp. split; [done|]. cbn [set_peer ht_peers]. split; intros q; destruct (decide (q = p)) as [->|Hq].
  - intros ph'. rewrite lookup_insert_eq. by intros [= <-].
  - intros ph'. rewrite lookup_insert_ne by done. apply H2.
  - by rewrite lookup_insert_eq.
  - rewrite lookup_insert_ne by done. apply H3.
Qed.

Lemma get_or_create_ok heard t p : table_ok heard t ->
  table_ok heard (GetOrCreate t p).1 /\ peer_ok heard p (GetOrCreate t p).2.
Proof.
  intros Ht. pose proof Ht as (H1 & H2 & H3). unfold GetOrCreate. destruct (ht_peers t !! p) as [v|] eqn:E; cbn [fst snd]; [eauto|].
  assert (peer_ok heard p (mkHealth false false (newPeerClockStats (Z.to_nat (WindowSize (ht_cfg t)))))) as Hp.
  { rewrite H1. fold window. split; [eexists _, _, _; apply clock_new, window_pos|]. cbn [clock alive newPeerClockStats lastArrival].
    rewrite (H3 p E). by split_and!. }
  split; [by apply table_set|done].
Qed.

Lemma table_remove heard t p : table_ok heard t -> table_ok (delete p heard) (Remove t p).
Proof.
  intros (H1 & H2 & H3). split; [done|]. cbn [Remove ht_peers]. split; intros q; destruct (decide (q = p)) as [->|Hq].
  - by rewrite lookup_delete_eq.
  - intros ph. rewrite lookup_delete_ne by done. intros Hph. unfold peer_ok. rewrite lookup_delete_ne by done. by apply H2.
  - intros _. by rewrite lookup_delete_eq.
  - rewrite !lookup_delete_ne by done. apply H3.
Qed.

Lemma table_prune heard t known : table_ok heard t ->
  table_ok (filter (fun x => x.1 ∈ known) heard) (PruneUnknownPeers t known).
Proof.
  intros (H1 & H2 & H3). split; [done|]. cbn [PruneUnknownPeers ht_peers]. split.
  - intros p ph [Hph Hk]%map_lookup_filter_Some. cbn in Hk. unfold peer_ok.
    replace (filter _ heard !! p) with (heard !! p); [by apply H2|]. symmetry. destruct (heard !! p) as [x|] eqn:E.
    + apply map_lookup_filter_Some. auto.
    + apply map_lookup_filter_None. auto.
  - intros p [Hn|Hn]%map_lookup_filter_None; apply map_lookup_filter_None; [left; auto|].
    destruct (ht_peers t !! p) as [ph|] eqn:E; [right; intros x _; by apply (Hn ph)|left; auto].
Qed.

(** A table whose peers answer has the answers of all of them. *)
Lemma check_all (f : PeerHealth -> option PeerHealth) (m : gmap Z PeerHealth) : (forall p ph, m !! p = Some ph -> is_Some (f ph)) ->
  exists m' : gmap Z PeerHealth, map_fold (fun p ph acc => acc ← acc; ph' ← f ph; Some (<[p := ph']> acc)) (Some ∅) m = Some m'
    /\ forall p, m' !! p = m !! p ≫= f.
Proof.
  intros Hf. revert Hf. apply (map_fold_weak_ind (fun acc m => (forall p ph, m !! p = Some ph -> is_Some (f ph)) ->
    exists m' : gmap Z PeerHealth, acc = Some m' /\ forall p, m' !! p = m !! p ≫= f)).
  - intros _. exists ∅. split; [done|]. intros p. by rewrite !lookup_empty.
  - intros p ph m1 acc Hp IH Hf. destruct IH as (m' & -> & Hm').
    { intros q ph' Hq. apply (Hf q). rewrite lookup_insert_ne; [done|]. intros <-. by rewrite Hp in Hq. }
    destruct (Hf p ph) as [ph' E]; [apply lookup_insert_eq|]. cbn [mbind option_bind]. rewrite E. eexists. split; [done|].
    intros q. destruct (decide (q = p)) as [->|Hq]; [by rewrite !lookup_insert_eq|]. by rewrite !lookup_insert_ne.
Qed.

Lemma clamp_bounds d lo hi : lo <= hi -> lo <= clampDuration d lo hi <= hi.
Proof. intros Hle. unfold clampDuration. bcase; lia. Qed.

Lemma check_peer_spec heard p ph now : peer_ok heard p ph ->
  exists ph', check_peer cfg' now ph = Some ph' /\ peer_ok heard p ph' /\ symmetric ph' = symmetric ph
  /\ (alive ph' = true -> alive ph = true /\
        (MinTimeout cfg' <= MaxTimeout cfg' -> exists last, heard !! p = Some last /\ Sub now last <= MaxTimeout cfg'))
  /\ (forall last, alive ph = true -> heard !! p = Some last -> MinTimeout cfg' <= MaxTimeout cfg' ->
        Sub now last <= MinTimeout cfg' -> alive ph' = true).
Proof.
  intros Hok. pose proof Hok as ((ins & outs & gaps & Hc) & Hl & Ha & Hself). unfold check_peer.
  destruct (alive ph) eqn:Ea; cbn [negb]; [|by exists ph; rewrite Ea].
  destruct (Ha eq_refl) as [last El]. unfold sinceLastArrival. rewrite Hl, El. cbn [fmap option_fmap option_map].
  destruct (livenessTimeout_spec _ _ _ _ _ cfg' Hc Hwindow) as (s & t & -> & Hc' & Ht). cbn [mbind option_bind].
  assert (Hb : MinTimeout cfg' <= MaxTimeout cfg' -> MinTimeout cfg' <= default (fallback_timeout cfg') t <= MaxTimeout cfg').
  { intros Hmm. destruct t as [d|]; cbn [default]; [destruct Ht as [raw ->]; by apply clamp_bounds|by apply clamp_bounds]. }
  set (timeout := default (fallback_timeout cfg') t) in *. eexists. split; [done|]. split; [|split; [done|]].
  - split; [by exists ins, outs, gaps|]. cbn [clock alive]. split; [destruct Hc as [_ _ _ _ E1], Hc' as [_ _ _ _ E2]; congruence|].
    split; [by rewrite El|]. intros E. by apply Hself in E.
  - cbn [alive]. rewrite negb_true_iff, Z.ltb_ge. split.
    + intros Hle. split; [done|]. intros Hmm. exists last. split; [done|]. specialize (Hb Hmm). lia.
    + intros l _ [= <-] Hmm Hs. specialize (Hb Hmm). lia.
Qed.

Lemma check_spec heard t now : table_ok heard t ->
  exists t', CheckLiveness t now = Some t' /\ table_ok heard t'
    /\ forall p, ht_peers t' !! p = ht_peers t !! p ≫= check_peer cfg' now.
Proof.
  intros (H1 & H2 & H3). unfold CheckLiveness. rewrite H1.
  destruct (check_all (check_peer cfg' now) (ht_peers t)) as (m & -> & Hm).
  { intros p ph Hph. destruct (check_peer_spec heard p ph now (H2 p ph Hph)) as (ph' & -> & _). eauto. }
  cbn [mbind option_bind]. eexists. split; [done|]. split; [|done]. split; [done|]. cbn [ht_peers]. split; intros p.
  - intros ph'. rewrite Hm. destruct (ht_peers t !! p) as [ph|] eqn:E; [|done]. cbn [mbind option_bind]. intros Eq.
    destruct (check_peer_spec heard p ph now (H2 p ph E)) as (ph1 & E1 & Hok & _). congruence.
  - rewrite Hm. destruct (ht_peers t !! p) as [ph|] eqn:E; [|intros _; by apply H3]. cbn [mbind option_bind]. intros Eq.
    destruct (check_peer_spec heard p ph now (H2 p ph E)) as (ph1 & E1 & _). congruence.
Qed.

Lemma match_echoes_ok own observed s ins outs gaps : clock_ok window s ins outs gaps ->
  exists s' outs', match_echoes nodeID own observed s = Some s' /\ clock_ok window s' ins outs' gaps.
Proof.
  revert s outs. induction observed as [|o observed IH]; intros s outs Hok; cbn [match_echoes]; [eauto|].
  destruct (negb (ot_node o =? nodeID)); cbn [mbind option_bind]; [by eapply IH|].
  destruct (ring_get own (ot_seq o)) as [wall|]; cbn [mbind option_bind]; [|by eapply IH].
  destruct (clock_hear _ _ _ _ _ (HEcho (wrap64 (ot_observedAt o - wall))) Hok) as (s' & E & Hok'). cbn [hear] in E. rewrite E.
  cbn [mbind option_bind]. by eapply IH.
Qed.

(** A tick of a peer makes it a target; one of our own changes nothing. *)
Lemma inbound_ok hm heard obs p tick now : hm_ok hm heard obs ->
  exists hm' r, ProcessInboundTick hm p tick now = Some (hm', r)
    /\ hm_ok hm' (heard_of heard (OpTick p tick now)) (unechoed obs (OpTick p tick now))
    /\ (p <> nodeID -> is_target (hm_table hm') p = true).
Proof.
  intros [H1 H2 H3 H4 H5]. unfold ProcessInboundTick. cbn [heard_of unechoed]. rewrite H1.
  destruct (Z.eqb_spec p nodeID) as [->|Hp]; [by exists hm, false|].
  destruct (get_or_create_ok heard (hm_table hm) p H3) as [Ht ((ins & outs & gaps & Hc) & Hl & _ & _)].
  destruct (GetOrCreate (hm_table hm) p) as [t ph]. cbn [fst snd] in *.
  destruct (clock_hear _ _ _ _ _ (HTick tick now) Hc) as (s1 & E1 & Hc1). cbn [hear] in E1. rewrite E1. cbn [mbind option_bind].
  destruct (match_echoes_ok (hm_ownTicks hm) (ct_observed tick) _ _ _ _ Hc1) as (s2 & outs2 & -> & Hc2). cbn [mbind option_bind].
  destruct (snapshot_spec _ _ _ _ _ Hc2 Hwindow) as (s3 & st & -> & Hc3 & _). cbn [mbind option_bind]. eexists _, _. split; [done|].
  split; [|intros _; unfold is_target, Get; cbn; by rewrite lookup_insert_eq].
  split; cbn [with_members with_table hm_nodeID hm_cfg hm_table hm_pendingObs hm_interval]; [done|done| |by apply (keeps_queue _ _ (mkObserved p _ _))|done].
  destruct Ht as (T1 & T2 & T3). split; [done|]. cbn [set_peer ht_peers]. split; intros q; destruct (decide (q = p)) as [->|Hq].
  - intros ph'. rewrite lookup_insert_eq. intros [= <-]. split; [by eexists _, _, _|]. cbn [clock alive]. rewrite lookup_insert_eq.
    split; [by destruct Hc3 as [_ _ _ _ ->]|]. by split.
  - intros ph'. rewrite lookup_insert_ne by done. unfold peer_ok. rewrite lookup_insert_ne by done. apply T2.
  - by rewrite lookup_insert_eq.
  - rewrite !lookup_insert_ne by done. apply T3.
Qed.

Lemma get_rtt_ok heard t p : table_ok heard t -> exists r, GetRTT t p = Some r /\ 0 <= r.
Proof.
  intros (_ & H2 & _). unfold GetRTT, Get. destruct (ht_peers t !! p) as [ph|] eqn:E; [|by exists 0].
  destruct (H2 p ph E) as ((ins & outs & gaps & [Hi Ho _ _ _]) & _). unfold rtt.
  pose proof (holds_nonempty _ _ _ Hi) as Ni. pose proof (holds_nonempty _ _ _ Ho) as No.
  destruct (Nat.eqb_spec (cw_count (offsetIn (clock ph))) 0); cbn [orb]; [by exists 0|].
  destruct (Nat.eqb_spec (cw_count (offsetOut (clock ph))) 0); [by exists 0|].
  destruct (cw_min_spec _ _ _ Hi) as (mi & -> & _); [apply Ni; lia|]. destruct (cw_min_spec _ _ _ Ho) as (mo & -> & _); [apply No; lia|].
  cbn [mbind option_bind]. eexists. split; [done|]. lia.
Qed.

Lemma min_rtt_ok heard t ps m : table_ok heard t -> 0 <= m -> exists r, min_rtt t ps m = Some r /\ 0 <= r.
Proof.
  intros Ht. revert m. induction ps as [|p ps IH]; intros m Hm; cbn [min_rtt]; [eauto|].
  destruct (get_rtt_ok heard t p Ht) as (r & -> & Hr). cbn [mbind option_bind]. apply IH. repeat case_match; lia.
Qed.

Lemma interval_pos : 0 < Interval cfg'.
Proof. unfold cfg', withDefaults. cbn [Interval]. unfold Second, Millisecond. bcase; lia. Qed.

Lemma adjust_ok hm heard obs : hm_ok hm heard obs -> exists hm' c, adjustInterval hm = Some (hm', c) /\ hm_ok hm' heard obs.
Proof.
  intros [H1 H2 H3 H4 H5]. unfold adjustInterval. destruct (_ <? _); [by eexists _, _|].
  destruct (min_rtt_ok heard (hm_table hm) (hm_peers hm) 0 H3) as (r & Er & Hr); [done|].
  cbn [with_interval hm_table hm_peers hm_interval]. rewrite Er. cbn [mbind option_bind].
  destruct (r =? 0); [by eexists _, _|]. 
  match goal with |- context [?a =? hm_interval hm] => destruct (Z.eqb_spec a (hm_interval hm)); [by eexists _, _|] end.
  eexists _, _. split; [done|]. split; cbn [with_interval hm_nodeID hm_cfg hm_table hm_pendingObs hm_interval]; [done..|].
  pose proof interval_pos as Hp. pose proof (clamp_bounds r intervalFloor intervalCeil ltac:(done)) as Ht.
  set (target := clampDuration r intervalFloor intervalCeil) in *. set (cur := hm_interval hm) in *.
  assert (0 < cur) by (unfold fastest, intervalFloor, Millisecond in H5; lia).
  rewrite wrap64_id by (unfold slowest, intervalCeil, Second, Millisecond, is_int64, min_int64, max_int64 in *; lia).
  pose proof (Z.quot_rem cur 2 ltac:(lia)). pose proof (Z.rem_bound_pos cur 2 ltac:(lia) ltac:(lia)).
  unfold fastest, slowest in *. unfold clampDuration. bcase; lia.
Qed.

Lemma exec_ok hm heard obs op : hm_ok hm heard obs ->
  exists hm', exec hm op = Some hm' /\ hm_ok hm' (heard_of heard op) (unechoed obs op).
Proof.
  intros Hok. pose proof Hok as [H1 H2 H3 H4 H5]. destruct op as [p|p| |p now|p tick now|now|now|known|p]; cbn [exec].
  - eexists. split; [done|]. split; cbn; [done|done|by apply get_or_create_ok|done|done].
  - eexists. split; [done|]. split; cbn; [done|done|by apply table_remove|by apply keeps_delete|done].
  - eexists. split; [done|]. by split.
  - eexists. split; [done|]. unfold SendTickTo. destruct (negb (hm_started hm)); [done|]. by split.
  - destruct (inbound_ok hm heard obs p tick now Hok) as (hm' & r & -> & Hok' & _). by exists hm'.
  - unfold send_round, sendTick. cbn [hm_cfg].
    set (hm1 := mkHeartbeat _ _ _ _ _ _ _ _ _ _ _). assert (hm_ok hm1 heard ∅) as Hok1.
    { split; [done|done|done| |done]. split; [constructor|]. intros n o. cbn. rewrite lookup_empty, elem_of_nil. by split; [|intros []]. }
    destruct (DisableAdaptiveInterval (hm_cfg hm)); [by exists hm1|].
    destruct (adjust_ok hm1 heard ∅ Hok1) as (hm' & c & -> & Hok'). by exists hm'.
  - unfold liveness_round. destruct (check_spec heard (hm_table hm) now H3) as (t & -> & Ht & _). cbn [mbind option_bind].
    eexists. split; [done|]. by split.
  - eexists. split; [done|]. split; cbn; [done|done|by apply table_prune|done|done].
  - unfold ClockStats_of, Get. destruct (ht_peers (hm_table hm) !! p) as [ph|] eqn:E; [|eexists; split; [done|]; by split].
    destruct H3 as (T1 & T2 & T3). destruct (T2 p ph E) as ((ins & outs & gaps & Hc) & Hl & Ha & Hs).
    destruct (snapshot_spec _ _ _ _ _ Hc Hwindow) as (s & st & -> & Hc' & _). cbn [mbind option_bind].
    eexists. split; [done|]. split; cbn [with_table hm_nodeID hm_cfg hm_table hm_pendingObs hm_interval]; [done|done| |done|done].
    apply table_set; [by split_and!|]. split; [by exists ins, outs, gaps|]. cbn [clock alive].
    cbn [heard_of]. split; [|done]. destruct Hc as [_ _ _ _ E1], Hc' as [_ _ _ _ E2]. congruence.
Qed.

Lemma run_ok ops hm heard obs : hm_ok hm heard obs ->
  exists hm', run_ops hm ops = Some hm' /\ hm_ok hm' (fold_left heard_of ops heard) (fold_left unechoed ops obs).
Proof.
  unfold run_ops. revert hm heard obs. induction ops as [|op ops IH]; intros hm heard obs Hok; cbn [fold_left]; [eauto|].
  destruct (exec_ok hm heard obs op Hok) as (hm1 & E & Hok1). cbn [mbind option_bind]. rewrite E. by apply IH.
Qed.

Lemma new_ok : hm_ok new_manager ∅ ∅.
Proof.
  split; [done|done| | |cbn [new_manager NewHeartbeatManager hm_interval]; fold cfg'; unfold fastest, slowest; lia].
  - split; [done|]. cbn. split; [|done]. intros p ph. by rewrite lookup_empty.
  - split; [constructor|]. intros n o. cbn. rewrite lookup_empty, elem_of_nil. by split; [|intros []].
Qed.

(** The heartbeat.  Every run of its operations, in any order and with
    any ticks, ends in a manager (no window, quantile or ring is indexed out
    of range).  There the node itself is never a replication target, the next
    tick carries exactly the last observation of every peer heard from since
    the previous tick and not removed, in the order of the nodes, and the
    interval stays between the configured one and the bounds of the adaptive
    tuning. *)
Theorem heartbeat_exact ops now :
  exists hm, run_ops new_manager ops = Some hm /\ is_target (hm_table hm) nodeID = false
    /\ keeps (ct_observed (next_tick hm now)) (fold_left unechoed ops ∅)
    /\ fastest <= hm_interval hm <= slowest.
Proof.
  destruct (run_ok ops new_manager ∅ ∅ new_ok) as (hm & E & [H1 H2 H3 H4 H5]). exists hm. split; [done|]. split; [|by split].
  unfold is_target, Get. destruct (ht_peers (hm_table hm) !! nodeID) as [ph|] eqn:Ep; [|done].
  destruct H3 as (_ & H3 & _). destruct (H3 _ _ Ep) as (_ & _ & _ & Hs). unfold IsReplicationTarget. by rewrite Hs.
Qed.


End Run.

(** The default configuration. *)
Definition w_config : ClockConfig := mkClockConfig 0 0 0 0 0 false.

(** Three ticks heard by node 1, one of them its own; a peer is removed. *)
Definition w_ops : list hm_op :=
  [OpAddPeer 2; OpAddPeer 3; OpStart; OpTick 3 (mkTick 3 1 100 0 []) (mkInstant 110 10); OpTick 1 (mkTick 1 9 100 0 []) (mkInstant 111 11);
   OpTick 2 (mkTick 2 7 100 0 []) (mkInstant 120 20); OpRemovePeer 3].

Lemma heartbeat_exact_witness :
  exists hm, run_ops (H := insertion_sorter) (new_manager 1 w_config) w_ops = Some hm
    /\ is_target (hm_table hm) 1 = false /\ is_target (hm_table hm) 2 = true
    /\ ct_observed (next_tick hm (mkInstant 200 100)) = [mkObserved 2 7 120].
Proof.
  destruct (@heartbeat_exact insertion_sorter 1 w_config) with (ops := w_ops) (now := mkInstant 200 100) as (hm & E & Hself & Hk & _).
  - vm_compute. lia.
  - vm_compute. done.
  - exists hm. split; [done|]. split; [done|]. vm_compute in E. injection E as <-. by vm_compute.
Defined.


(** ** Clock steps

    Node 1 and its peer 2 with synchronous clocks and delays of one
    millisecond.  The peer observes a tick, its clock steps five seconds
    forward, and its next tick carries both the jump and that observation:
    the windows are reset first and the old sample pushed after, so that
    thirty exchanges later the round trip is still unknown. *)

Definition ms (t : Z) : Z := t * Millisecond.

Definition good_exchange (k : nat) : list hm_op :=
  let at_ := 2000 + 1000 * Z.of_nat k in
  [OpSendRound (mkInstant (ms at_) (ms at_));
   OpTick 2 (mkTick 2 (Z.of_nat k + 2) (ms (at_ + 5500)) 0 [mkObserved 1 (Z.of_nat k + 2) (ms (at_ + 5001))])
     (mkInstant (ms (at_ + 501)) (ms (at_ + 501)))].

Definition peer_steps (stale : list ObservedTick) : list hm_op :=
  [OpAddPeer 2; OpStart; OpSendRound (mkInstant (ms 1000) (ms 1000));
   OpTick 2 (mkTick 2 1 (ms 6500) (ms 5000) stale) (mkInstant (ms 1501) (ms 1501))] ++ concat (map good_exchange (seq 0 30)).

Definition rtt_after (ops : list hm_op) : option Z :=
  run_ops (H := insertion_sorter) (new_manager 1 (mkClockConfig 0 0 0 0 0 true)) ops ≫= fun hm => GetRTT (hm_table hm) 2.

Lemma stale_echo_hides_rtt : rtt_after (peer_steps [mkObserved 1 1 (ms 1001)]) = Some 0 /\ rtt_after (peer_steps []) = Some (ms 2).
Proof. split; by vm_compute. Qed.

(** Our own clock steps: the next tick tells the peers, but our windows keep
    the offsets from before. *)
Definition own_steps : list hm_op :=
  [OpAddPeer 2; OpStart; OpSendRound (mkInstant (ms 1000) (ms 1000));
   OpTick 2 (mkTick 2 1 (ms 1500) 0 [mkObserved 1 1 (ms 1001)]) (mkInstant (ms 1501) (ms 1501));
   OpSendRound (mkInstant (ms 22000) (ms 2000));
   OpTick 2 (mkTick 2 2 (ms 2500) 0 [mkObserved 1 2 (ms 2001)]) (mkInstant (ms 22501) (ms 2501))].

Lemma own_step_hides_rtt :
  (exists hm, run_ops (H := insertion_sorter) (new_manager 1 (mkClockConfig 0 0 0 0 0 true)) (take 4 own_steps) = Some hm
     /\ GetRTT (hm_table hm) 2 = Some (ms 2) /\ tick_jump hm (mkInstant (ms 22000) (ms 2000)) = ms 20000)
  /\ rtt_after own_steps = Some 0.
Proof. split; [eexists; split; [by vm_compute|by vm_compute]|by vm_compute]. Qed.

(** ** The majority side of a partition *)

Section Majority.
Context `{!MapRange} (region : bytes).

(** The nodes of the region, and those of them a node can reach; itself
    included. *)
Definition members (self : Z) (regions : gmap Z bytes) : gset Z := {[self]} ∪ dom (filter (fun x => x.2 = region) regions).

Definition reached (t : PeerHealthTable) (self : Z) (regions : gmap Z bytes) : gset Z :=
  {[self]} ∪ dom (filter (fun x => x.2 = region /\ is_target t x.1 = true) regions).

Lemma tally_counts t l total reachable :
  fold_left (tally t region) l (total, reachable)
  = (total + Z.of_nat (length (filter (fun x => x.2 = region) l)),
     reachable + Z.of_nat (length (filter (fun x => x.2 = region /\ is_target t x.1 = true) l))).
Proof.
  revert total reachable. induction l as [|[n r] l IH]; intros total reachable; cbn [fold_left]; [cbn; apply (f_equal2 pair); lia|].
  unfold tally at 2. rewrite !list.filter_cons.
  destruct (decide ((n, r).2 = region)) as [E|E]; cbn [snd] in E.
  - rewrite bool_decide_true, IH by done.
    destruct (decide ((n, r).2 = region /\ is_target t (n, r).1 = true)) as [[_ Ht]|Hn]; cbn [length].
    { cbn [fst] in Ht. rewrite Ht. apply (f_equal2 pair); lia. }
    destruct (is_target t n) eqn:Et; [exfalso; by apply Hn|]. apply (f_equal2 pair); lia.
  - rewrite bool_decide_false, IH by done. destruct (decide ((n, r).2 = region /\ is_target t (n, r).1 = true)) as [[? _]|]; [done|done].
Qed.

Lemma filter_size (P : Z * bytes -> Prop) `{!forall x, Decision (P x)} (m : gmap Z bytes) i :
  length (filter P (map_range i m)) = size (filter P m).
Proof.
  rewrite (map_range_perm i m), <- length_map_to_list. apply Permutation_length.
  apply NoDup_Permutation; [apply list.NoDup_filter, NoDup_map_to_list|apply NoDup_map_to_list|].
  intros [n r]. rewrite list_elem_of_filter, !elem_of_map_to_list, map_lookup_filter_Some. tauto.
Qed.

Lemma size_around (self : Z) (regions : gmap Z bytes) (P : Z * bytes -> Prop) `{!forall x, Decision (P x)} :
  regions !! self = None -> size ({[self]} ∪ dom (filter P regions) : gset Z) = S (size (filter P regions)).
Proof.
  intros Hs. rewrite size_union, size_singleton, size_dom; [done|]. rewrite disjoint_singleton_l, not_elem_of_dom.
  apply map_lookup_filter_None. by left.
Qed.

(** A node is in the majority when it reaches more than half of the region. *)
Lemma majority_spec t self regions i : regions !! self = None ->
  InMajorityPartition t region regions i = true <-> (size (members self regions) < 2 * size (reached t self regions))%nat.
Proof.
  intros Hs. unfold InMajorityPartition.
  rewrite tally_counts, !filter_size. unfold members, reached. rewrite !size_around by done.
  set (n := size (filter _ regions)). set (k := size (filter (fun x => x.2 = region /\ _) regions)).
  rewrite Z.ltb_lt. pose proof (Z.div_mod (1 + Z.of_nat n) 2 ltac:(lia)). pose proof (Z.mod_pos_bound (1 + Z.of_nat n) 2 ltac:(lia)). lia.
Qed.

(** [C11] No split brain.  Of two nodes that agree on the nodes of their
    region, and of which no node is reached by both, at most one finds itself
    in the majority partition. *)
Theorem one_majority ta tb a b ra rb i j :
  ra !! a = None -> rb !! b = None -> members a ra = members b rb -> reached ta a ra ## reached tb b rb ->
  InMajorityPartition ta region ra i = true -> InMajorityPartition tb region rb j = false.
Proof.
  intros Ha Hb Em Hd Hma. apply not_true_is_false. intros Hmb. apply (majority_spec ta a ra i Ha) in Hma. apply (majority_spec tb b rb j Hb) in Hmb.
  assert (Hsub : reached ta a ra ∪ reached tb b rb ⊆ members a ra).
  { assert (Hr : forall t s r, reached t s r ⊆ members s r).
    { intros t s r. unfold reached, members. apply union_mono_l. intros n. rewrite !elem_of_dom. intros [x Hx]. exists x.
      apply map_lookup_filter_Some in Hx as [Hx [Hx' _]]. by apply map_lookup_filter_Some. }
    pose proof (Hr ta a ra). pose proof (Hr tb b rb). rewrite Em in *. set_solver. }
  apply subseteq_size in Hsub. rewrite size_union in Hsub by done. rewrite <- Em in Hmb. lia.
Qed.

(** The other questions asked of the table agree with the targets: the count,
    the list of peers and the two answers about reachability. *)
Lemma target_list t l acc :
  fold_left (fun result '(n, r) => if bool_decide (r = region) && is_target t n then result ++ [n] else result) l acc
  = acc ++ map fst (List.filter (fun x => bool_decide (x.2 = region) && is_target t x.1) l).
Proof.
  revert acc. induction l as [|[n r] l IH]; intros acc; cbn [fold_left List.filter fst snd]; [by rewrite app_nil_r|].
  rewrite IH. destruct (_ && _); [|done]. by rewrite <- app_assoc.
Qed.

Theorem targets_exact t regions i p :
  (p ∈ AliveSymmetricPeers t region regions i <-> regions !! p = Some region /\ is_target t p = true)
  /\ NoDup (AliveSymmetricPeers t region regions i)
  /\ (AllRegionPeersReachable t region regions i = true <-> forall q, regions !! q = Some region -> is_target t q = true).
Proof.
  assert (E : AliveSymmetricPeers t region regions i
    = map fst (List.filter (fun x => bool_decide (x.2 = region) && is_target t x.1) (map_range i regions))).
  { apply (target_list t _ []). }
  split_and!.
  - rewrite E, list_elem_of_fmap. setoid_rewrite list_elem_of_In. setoid_rewrite filter_In. setoid_rewrite <- list_elem_of_In.
    setoid_rewrite andb_true_iff. setoid_rewrite bool_decide_eq_true. split.
    + intros ([q r] & -> & Hin & Hr & Ht). cbn in *. subst. by apply elem_of_map_range in Hin.
    + intros [Hl Ht]. exists (p, region). cbn. split; [done|]. by rewrite elem_of_map_range.
  - rewrite E. clear E. pose proof (NoDup_map_range i regions) as Hn. induction (map_range i regions) as [|x l IH]; [constructor|].
    rewrite fmap_cons in Hn. apply list.NoDup_cons in Hn as [Hx Hn]. cbn [List.filter]. destruct (_ && _); [|by apply IH].
    cbn [map]. apply list.NoDup_cons. split; [|by apply IH]. intros (y & Ey & Hy)%list_elem_of_fmap. apply Hx. rewrite Ey.
    apply list_elem_of_fmap_2. apply list_elem_of_In in Hy. apply filter_In in Hy as [Hy _]. by apply list_elem_of_In.
  - unfold AllRegionPeersReachable. rewrite forallb_forall. setoid_rewrite <- list_elem_of_In. split.
    + intros Hall q Hq. specialize (Hall (q, region)). rewrite elem_of_map_range in Hall. specialize (Hall Hq). cbn in Hall.
      rewrite bool_decide_true in Hall by done. by destruct (is_target t q).
    + intros Hall [q r] Hin%elem_of_map_range. destruct (bool_decide_reflect (r = region)) as [->|]; [|done]. by rewrite (Hall q Hin).
Qed.

End Majority.

(** Five nodes split three to two. *)
Definition w_region : bytes := [x65].
Definition w_regions (self : Z) : gmap Z bytes := list_to_map (map (fun n => (n, w_region)) (List.filter (fun n => negb (n =? self)) [1; 2; 3; 4; 5])).
Definition w_health (up : list Z) : PeerHealthTable :=
  mkHealthTable (list_to_map (map (fun n => (n, mkHealth true true (newPeerClockStats 1))) up)) w_config.

Lemma one_majority_witness :
  @InMajorityPartition listed_range (w_health [2; 3]) w_region (w_regions 1) 0 = true
  /\ @InMajorityPartition listed_range (w_health [5]) w_region (w_regions 4) 0 = false.
Proof.
  split; [by vm_compute|]. apply (@one_majority listed_range w_region (w_health [2; 3]) (w_health [5]) 1 4 (w_regions 1) (w_regions 4) 0 0).
  - by vm_compute.
  - by vm_compute.
  - by vm_compute.
  - assert (E1 : reached w_region (w_health [2; 3]) 1 (w_regions 1) = {[1; 2; 3]}) by by vm_compute.
    assert (E2 : reached w_region (w_health [5]) 4 (w_regions 4) = {[4; 5]}) by by vm_compute. rewrite E1, E2. set_solver.
  - by vm_compute.
Defined.
