(* ===== verification/Pool.v ===== *)
(** * The resident effects (effects/vertexpool.go; publishSubdag,
    materializeSubdag of snapshot.go; releaseChainRefs of effect.go;
    memory_governor.go)

    A vertex of the pool has a reference for every key that owns it and for
    every place it has in a cached subdag.  One consumer frees the vertices whose
    count has dropped to zero, from a queue of candidates, while readers take
    references, writers put the same effect again and evictions release keys.

    Vertices have addresses, as a goroutine can act on a vertex that has left the
    map since it was looked up.  The operations come first, each as the code runs
    it when nobody disturbs it and with its atomic parts as definitions of their
    own; the steps at the end interleave those parts.  [None] is a panic.  The
    mirror is the map of records [Durability] was shown to refine.

    The set of keys that own a vertex is a sorted slice in the code, searched by
    bisection.  Left out: the statistics and the accounting of bytes. *)

From S2P Require Import Prelude Golib Proto Store Walk Wire.

(** [__swytch:] *)
Definition systemKeyPrefix : bytes := [x5f; x5f; x73; x77; x79; x74; x63; x68; x3a].

Definition isSystemKey (key : bytes) : bool := has_prefix key systemKeyPrefix.

(** [math.MinInt32 / 2] *)
Definition vertexTombstone : Z := - 2 ^ 30.

Record vertex := mkVertex {
  v_tip : Tip;
  v_eff : Effect;
  v_refs : Z;
  v_creationKeys : gset bytes;
}.

Record VertexPool := mkPool {
  p_heap : gmap Z vertex;
  p_next : Z;
  p_m : gmap Tip Z;
  p_mirror : option (gmap Tip bytes);
  p_queue : list Tip;
  p_pending : Z;
}.

Definition newVertexPool : VertexPool := mkPool ∅ 0 ∅ None [] 0.

Definition set_heap (h : gmap Z vertex) (p : VertexPool) : VertexPool := mkPool h (p_next p) (p_m p) (p_mirror p) (p_queue p) (p_pending p).
Definition set_map (m : gmap Tip Z) (p : VertexPool) : VertexPool := mkPool (p_heap p) (p_next p) m (p_mirror p) (p_queue p) (p_pending p).
Definition set_mirror (m : option (gmap Tip bytes)) (p : VertexPool) : VertexPool := mkPool (p_heap p) (p_next p) (p_m p) m (p_queue p) (p_pending p).
Definition set_queue (q : list Tip) (n : Z) (p : VertexPool) : VertexPool := mkPool (p_heap p) (p_next p) (p_m p) (p_mirror p) q n.

Definition set_refs (n : Z) (v : vertex) : vertex := mkVertex (v_tip v) (v_eff v) n (v_creationKeys v).
Definition set_keys (ks : gset bytes) (v : vertex) : vertex := mkVertex (v_tip v) (v_eff v) (v_refs v) ks.

Definition update (a : Z) (f : vertex -> vertex) (p : VertexPool) : VertexPool := set_heap (alter f a (p_heap p)) p.

Definition Load (p : VertexPool) (tip : Tip) : option vertex := p_m p !! tip ≫= fun a => p_heap p !! a.

Definition Get (p : VertexPool) (tip : Tip) : option Effect := v_eff <$> Load p tip.

(** ** Candidates *)

Definition enqueue (tip : Tip) (p : VertexPool) : VertexPool := set_queue (p_queue p ++ [tip]) (p_pending p) p.
Definition count_pending (p : VertexPool) : VertexPool := set_queue (p_queue p) (wrap64 (p_pending p + 1)) p.

Definition enqueueReclaim (tip : Tip) (p : VertexPool) : VertexPool := count_pending (enqueue tip p).

Definition enqueue_all (l : list Tip) (p : VertexPool) : VertexPool := fold_left (fun p t => enqueueReclaim t p) l p.

(** ** Putting *)

(** A bind is owned by its keys, any other effect by its own. *)
Definition creation_keys (eff : Effect) : list bytes :=
  match get_txn_bind eff with
  | Some b => match tb_keys b with [] => [e_key eff] | ks => map kb_key ks end
  | None => [e_key eff]
  end.

Definition missingCreationKeys (eff : Effect) (existing : gset bytes) (owns : bytes -> bool) : gset bytes :=
  list_to_set (filter (fun k => owns k = true /\ k ∉ existing) (creation_keys eff)).

(** Not there: a vertex of its own, and whether it is a candidate at birth. *)
Definition publish_vertex (own : option (bytes -> bool)) (tip : Tip) (eff : Effect) (p : VertexPool) : VertexPool * list Tip :=
  let keys := match own with Some owns => missingCreationKeys eff ∅ owns | None => ∅ end in
  let nv := mkVertex tip eff (wrap32 (Z.of_nat (size keys))) keys in
  (mkPool (<[ p_next p := nv ]> (p_heap p)) (p_next p + 1) (<[ tip := p_next p ]> (p_m p)) (p_mirror p) (p_queue p) (p_pending p),
   if (size keys =? 0)%nat then [tip] else []).

(** There: only the owners that are new, unless it has been claimed. *)
Definition take_ownership (owns : bytes -> bool) (eff : Effect) (a : Z) (p : VertexPool) : VertexPool :=
  match p_heap p !! a with
  | None => p
  | Some v =>
      let keys := missingCreationKeys eff (v_creationKeys v) owns in
      if bool_decide (keys = ∅) then p
      else if v_refs v <? 0 then p
      else update a (fun v => mkVertex (v_tip v) (v_eff v) (wrap32 (v_refs v + Z.of_nat (size keys))) (v_creationKeys v ∪ keys)) p
  end.

Section Codec.
Context `{!MapRange, !ProtoCodec Effect}.

Definition mirror_put (tip : Tip) (data : bytes) (m : gmap Tip bytes) : gmap Tip bytes :=
  match m !! tip with Some _ => m | None => <[ tip := data ]> m end.

(** [None]: the effect does not marshal or the disk refuses it. *)
Definition persist (accepts : bool) (tip : Tip) (eff : Effect) (p : VertexPool) : option VertexPool :=
  match p_mirror p with
  | None => Some p
  | Some m =>
      match MarshalEffect eff with
      | Some data => if accepts then Some (set_mirror (Some (mirror_put tip data m)) p) else None
      | None => None
      end
  end.

(** The pool and the candidates to enqueue. *)
Definition put (accepts : bool) (own : option (bytes -> bool)) (tip : Tip) (eff : Effect) (p : VertexPool) : option (VertexPool * list Tip) :=
  match persist accepts tip eff p with
  | None => None
  | Some p =>
      Some (match p_m p !! tip with
            | None => publish_vertex own tip eff p
            | Some a => (match own with Some owns => take_ownership owns eff a p | None => p end, [])
            end)
  end.

(** [None]: an error, and nothing has changed. *)
Definition putSized (accepts : bool) (owns : bytes -> bool) (tip : Tip) (eff : Effect) (p : VertexPool) : option VertexPool :=
  (fun r => enqueue_all r.2 r.1) <$> put accepts (Some owns) tip eff p.

Definition PutSized (accepts : bool) (tip : Tip) (eff : Effect) (p : VertexPool) : option VertexPool := putSized accepts (fun _ => true) tip eff p.

Definition PutSizedCache (accepts : bool) (tip : Tip) (eff : Effect) (p : VertexPool) : option VertexPool :=
  (fun r => enqueue_all r.2 r.1) <$> put accepts None tip eff p.

End Codec.

(** ** Counting *)

(** On the vertex that was looked up. *)
Definition incref_at (a : Z) (p : VertexPool) : VertexPool * bool :=
  match p_heap p !! a with
  | Some v => if v_refs v <? 0 then (p, false) else (update a (fun v => set_refs (wrap32 (v_refs v + 1)) v) p, true)
  | None => (p, false)
  end.

Definition incref (tip : Tip) (p : VertexPool) : VertexPool * bool :=
  match p_m p !! tip with Some a => incref_at a p | None => (p, false) end.

Definition drop_ref (tip : Tip) (p : VertexPool) : option (VertexPool * list Tip) :=
  match p_m p !! tip with
  | None => Some (p, [])
  | Some a =>
      match p_heap p !! a with
      | None => Some (p, [])
      | Some v =>
          let n := wrap32 (v_refs v - 1) in
          if n <? 0 then None else Some (update a (set_refs n) p, if n =? 0 then [tip] else [])
      end
  end.

Definition decref (tip : Tip) (p : VertexPool) : option VertexPool := (fun r => enqueue_all r.2 r.1) <$> drop_ref tip p.

(** The creation reference of a key, on the vertex that was looked up. *)
Definition release_at (key : bytes) (a : Z) (p : VertexPool) : option (VertexPool * list Tip) :=
  match p_heap p !! a with
  | None => Some (p, [])
  | Some v =>
      if bool_decide (key ∈ v_creationKeys v)
      then drop_ref (v_tip v) (update a (fun v => set_keys (v_creationKeys v ∖ {[ key ]}) v) p)
      else Some (p, [])
  end.

Definition decrefChainNode (key : bytes) (tip : Tip) (p : VertexPool) : option VertexPool :=
  match p_m p !! tip with
  | None => Some p
  | Some a => (fun r => enqueue_all r.2 r.1) <$> release_at key a p
  end.

(** ** Reclaiming *)

(** The compare-and-swap of zero for the tombstone. *)
Definition claim (a : Z) (p : VertexPool) : option VertexPool :=
  match p_heap p !! a with
  | None => None
  | Some v =>
      if isSystemKey (e_key (v_eff v)) then None
      else if v_refs v =? 0 then Some (update a (set_refs vertexTombstone) p) else None
  end.

(** What the mirror answers: deleted, or an error, after which the record may be
    gone all the same (the file that became empty could not be removed). *)
Inductive deletion := Deleted | Failed (gone : bool).

Definition delete_vertex (answer : deletion) (tip : Tip) (p : VertexPool) : VertexPool * list Tip :=
  let drop := set_map (delete tip (p_m p)) in
  match p_mirror p, answer with
  | None, _ => (drop p, [])
  | Some m, Deleted => (drop (set_mirror (Some (delete tip m)) p), [])
  | Some m, Failed gone =>
      let p := set_mirror (Some (if gone then delete tip m else m)) p in
      match p_m p !! tip with
      | Some a => (update a (set_refs 0) p, [tip])
      | None => (p, [])
      end
  end.

Definition claimAndDelete (answer : deletion) (tip : Tip) (a : Z) (p : VertexPool) : VertexPool :=
  match claim a p with
  | None => p
  | Some p => let r := delete_vertex answer tip p in enqueue_all r.2 r.1
  end.

Definition dequeue (p : VertexPool) : VertexPool := set_queue (tail (p_queue p)) (p_pending p) p.

(** [answers]: what the mirror says to each deletion, in order. *)
Fixpoint drain (n : nat) (answers : nat -> deletion) (p : VertexPool) : VertexPool :=
  match n with
  | O => p
  | S n =>
      match p_queue p with
      | [] => p
      | tip :: _ =>
          let p := dequeue p in
          drain n answers (match p_m p !! tip with Some a => claimAndDelete (answers n) tip a p | None => p end)
      end
  end.

Definition drainReclaim (answers : nat -> deletion) (p : VertexPool) : VertexPool :=
  drain (Z.to_nat (p_pending p)) answers (set_queue (p_queue p) 0 p).

(** ** Cached subdags *)

Inductive subdag := Cached (tips topoOrder : list Tip) (lcaTip : option Tip) | EvictedSubdag.

Definition slot_tips (s : subdag) : list Tip := match s with Cached _ topo _ => topo | EvictedSubdag => [] end.

(** [None]: some vertex is not resident. *)
Definition materializeSubdag (topo : list Tip) (p : VertexPool) : option (list (Tip * Effect)) :=
  mapM (fun tip => pair tip <$> Get p tip) topo.

Definition decref_all (l : list Tip) (p : VertexPool) : option VertexPool := fold_opt (fun p t => decref t p) l p.

(** The references taken, oldest first, and whether all were. *)
Fixpoint pin_all (taken todo : list Tip) (p : VertexPool) : VertexPool * list Tip * bool :=
  match todo with
  | [] => (p, taken, true)
  | t :: todo => match incref t p with (p, true) => pin_all (taken ++ [t]) todo p | (p, false) => (p, taken, false) end
  end.

(** [lost]: another builder changed the slot after it was loaded. *)
Definition publishSubdag (lost : bool) (cs : subdag) (slot : option subdag) (p : VertexPool) : option (option subdag * VertexPool) :=
  let topo := slot_tips cs in
  match pin_all [] topo p with
  | (p, taken, false) => pair slot <$> decref_all taken p
  | (p, _, true) =>
      match slot with
      | Some EvictedSubdag => pair slot <$> decref_all topo p
      | _ => if lost then pair slot <$> decref_all topo p
             else pair (Some cs) <$> decref_all (match slot with Some old => slot_tips old | None => [] end) p
      end
  end.

(** ** Evicting *)

(** The walk over what is resident, from the tips the key had. *)
Definition chain_next (key : bytes) (p : VertexPool) (t : Tip) : list Tip :=
  match Get p t with Some eff => keyDeps key eff | None => [] end.

Definition release_chain (key : bytes) (tips : list Tip) (p : VertexPool) : walk VertexPool :=
  dfs (fun _ => false) (chain_next key p) (fun p t => decrefChainNode key t p)
    (dfs_fuel (chain_next key p) (dom (p_m p)) (rev tips)) (rev tips) ∅ p.

(** [ls]: the state of the leaf, if it had one, with its slot. *)
Definition releaseChainRefs (key : bytes) (tips : list Tip) (ls : option (option subdag)) (p : VertexPool)
    : walk (option (option subdag) * VertexPool) :=
  match decref_all (match ls with Some (Some cs) => slot_tips cs | _ => [] end) p with
  | None => Missing
  | Some p => p ← release_chain key tips p; Done ((fun _ => Some EvictedSubdag) <$> ls, p)
  end.

(** ** The governor

    Keys are evicted in batches until what is resident fits.  How much is
    resident, and what an eviction or a reclaim does to it, are parameters: the
    sizes of Go's allocations and the choice of the victims. *)

Definition evictBatchSize : Z := 4096.
Definition maxDrainPerTick : Z := 2 ^ 18.

Section Governor.
Context {E : Type}.
Variables (ResidentBytes Size : E -> Z) (EvictBatch : Z -> E -> E * Z) (reclaimUnreferenced : E -> E).

(** Pressure is a channel that writers wait on; [gv_closed] are those closed. *)
Record governor := mkGov {
  gv_engine : E;
  gv_evictBudget : Z;
  gv_pressure : option Z;
  gv_closed : list Z;
  gv_channels : Z;
}.

Definition with_engine (e : E) (budget : Z) (g : governor) : governor := mkGov e budget (gv_pressure g) (gv_closed g) (gv_channels g).

Definition setMemoryPressure (over : bool) (g : governor) : governor :=
  if over then
    match gv_pressure g with
    | None => mkGov (gv_engine g) (gv_evictBudget g) (Some (gv_channels g)) (gv_closed g) (gv_channels g + 1)
    | Some _ => g
    end
  else
    match gv_pressure g with
    | Some c => mkGov (gv_engine g) (gv_evictBudget g) None (gv_closed g ++ [c]) (gv_channels g)
    | None => g
    end.

Fixpoint drainEvictBudget (fuel : nat) (maxKeys : Z) (g : governor) : governor :=
  match fuel with
  | O => g
  | S fuel =>
      let b := gv_evictBudget g in
      if (maxKeys <=? 0) || (b <=? 0) then g
      else
        let (e, n) := EvictBatch (Z.min (Z.min b maxKeys) evictBatchSize) (gv_engine g) in
        if n =? 0 then with_engine e b g else drainEvictBudget fuel (maxKeys - n) (with_engine e (b - n) g)
  end.

Inductive verdict := Relieved | NoKeys | Stuck | Exhausted.

(** The keys evicted, and why it stopped. *)
Fixpoint evict_rounds (fuel : nat) (target remaining : Z) (g : governor) : governor * Z * verdict :=
  let resident := ResidentBytes (gv_engine g) in
  match fuel with
  | O => (g, 0, Exhausted)
  | S fuel =>
      if resident <=? target then (g, 0, Relieved)
      else if remaining <=? 0 then (g, 0, Exhausted)
      else
        let keys := Size (gv_engine g) in
        if keys =? 0 then (g, 0, NoKeys)
        else
          let avg := Z.max (resident ÷ keys) 64 in
          let want := Z.min (Z.min (Z.max ((resident - target) ÷ avg) 1) evictBatchSize) remaining in
          let g := drainEvictBudget (Z.to_nat want) want (with_engine (gv_engine g) want g) in
          let drained := want - gv_evictBudget g in
          if drained <=? 0 then (g, 0, Stuck)
          else
            let g := with_engine (reclaimUnreferenced (gv_engine g)) (gv_evictBudget g) g in
            let g := setMemoryPressure (target <? ResidentBytes (gv_engine g)) g in
            match evict_rounds fuel target (remaining - drained) g with (g, n, v) => (g, drained + n, v) end
  end.

Definition evictToTarget (target : Z) (g : governor) : governor * Z * verdict :=
  let over g := target <? ResidentBytes (gv_engine g) in
  let g := setMemoryPressure (over g) g in
  let g := with_engine (reclaimUnreferenced (gv_engine g)) (gv_evictBudget g) g in
  let g := setMemoryPressure (over g) g in
  let '(g, n, v) := if negb (over g) then (g, 0, Relieved) else evict_rounds (S (Z.to_nat maxDrainPerTick)) target maxDrainPerTick g in
  (with_engine (gv_engine g) 0 g, n, v).

End Governor.

(** ** Interleaving

    A goroutine is building a cached subdag and has taken references for the
    first tips, or has references left to release.  [y_due] are the candidates
    that goroutines are about to enqueue, [y_uncounted] those enqueued and not yet
    counted; [y_left] is what the consumer has left of its drain, [y_claim] the
    vertex it has claimed and not yet deleted.  With a mirror the consumer holds
    the lock of the stripe meanwhile, and a put of that stripe waits. *)

Inductive thread :=
  | Pinning (leaf : Z) (cs : subdag) (taken todo : list Tip)
  | Dropping (l : list Tip).

Record system := mkSystem {
  y_pool : VertexPool;
  y_leaves : gmap Z subdag;
  y_threads : list thread;
  y_due : list Tip;
  y_uncounted : nat;
  y_left : nat;
  y_claim : option (Tip * Z);
}.

Definition stripe (t : Tip) : Z := Z.lxor t.1 t.2 mod 256.

Definition locked (s : system) (tip : Tip) : Prop :=
  p_mirror (y_pool s) <> None /\ exists t a, y_claim s = Some (t, a) /\ stripe t = stripe tip.

(** No count reaches 2^31. *)
Definition roomy (p : VertexPool) (a : Z) (n : nat) : Prop := forall v, p_heap p !! a = Some v -> v_refs v + Z.of_nat n < 2 ^ 31.

Definition with_pool (p : VertexPool) (due : list Tip) (s : system) : system :=
  mkSystem p (y_leaves s) (y_threads s) (y_due s ++ due) (y_uncounted s) (y_left s) (y_claim s).

Definition with_threads (ts : list thread) (s : system) : system :=
  mkSystem (y_pool s) (y_leaves s) ts (y_due s) (y_uncounted s) (y_left s) (y_claim s).

Definition with_leaf (leaf : Z) (cs : subdag) (s : system) : system :=
  mkSystem (y_pool s) (<[ leaf := cs ]> (y_leaves s)) (y_threads s) (y_due s) (y_uncounted s) (y_left s) (y_claim s).

(** What the consumer does with the next candidate. *)
Definition examine (tip : Tip) (p : VertexPool) : VertexPool * option (Tip * Z) :=
  match p_m p !! tip with
  | Some a => match claim a p with Some p => (p, Some (tip, a)) | None => (p, None) end
  | None => (p, None)
  end.

Section Steps.
Context `{!MapRange, !ProtoCodec Effect}.
(** The effect a reference names: it is written once. *)
Variable (content : Tip -> Effect).

(** What is on disk when the mirror is attached: the records of resident effects,
    all owned ones among them. *)
Definition mirrors (m : gmap Tip bytes) (p : VertexPool) : Prop :=
  (forall t d, m !! t = Some d -> is_Some (p_m p !! t) /\ UnmarshalEffect d = Some (content t))
  /\ (forall a v, p_heap p !! a = Some v -> v_creationKeys v <> ∅ -> is_Some (m !! v_tip v)).

Inductive pool_step : system -> system -> Prop :=
  | step_put accepts own tip p due s :
      ~ locked s tip -> Z.of_nat (length (creation_keys (content tip))) < 2 ^ 31 ->
      (forall a, p_m (y_pool s) !! tip = Some a -> roomy (y_pool s) a (length (creation_keys (content tip)))) ->
      put accepts own tip (content tip) (y_pool s) = Some (p, due) -> pool_step s (with_pool p due s)
  | step_attach m s :
      p_mirror (y_pool s) = None -> mirrors m (y_pool s) -> pool_step s (with_pool (set_mirror (Some m) (y_pool s)) [] s)
  | step_put_stale owns tip a v s :
      p_mirror (y_pool s) = None -> p_heap (y_pool s) !! a = Some v -> v_tip v = tip -> roomy (y_pool s) a (length (creation_keys (content tip))) ->
      pool_step s (with_pool (take_ownership owns (content tip) a (y_pool s)) [] s)
  | step_release key a p due s :
      release_at key a (y_pool s) = Some (p, due) -> pool_step s (with_pool p due s)
  | step_build leaf cs s :
      pool_step s (with_threads (Pinning leaf cs [] (slot_tips cs) :: y_threads s) s)
  | step_pin leaf cs taken t todo ts1 ts2 a v p s :
      y_threads s = ts1 ++ Pinning leaf cs taken (t :: todo) :: ts2 -> p_heap (y_pool s) !! a = Some v -> v_tip v = t -> roomy (y_pool s) a 1 ->
      incref_at a (y_pool s) = (p, true) -> pool_step s (with_threads (ts1 ++ Pinning leaf cs (taken ++ [t]) todo :: ts2) (with_pool p [] s))
  | step_unpinnable leaf cs taken t todo ts1 ts2 s :
      y_threads s = ts1 ++ Pinning leaf cs taken (t :: todo) :: ts2 -> pool_step s (with_threads (ts1 ++ Dropping taken :: ts2) s)
  | step_install leaf cs taken ts1 ts2 s :
      y_threads s = ts1 ++ Pinning leaf cs taken [] :: ts2 -> y_leaves s !! leaf <> Some EvictedSubdag ->
      pool_step s (with_leaf leaf cs (with_threads (ts1 ++ Dropping (match y_leaves s !! leaf with Some old => slot_tips old | None => [] end) :: ts2) s))
  | step_lose leaf cs taken ts1 ts2 s :
      y_threads s = ts1 ++ Pinning leaf cs taken [] :: ts2 -> pool_step s (with_threads (ts1 ++ Dropping taken :: ts2) s)
  | step_evict leaf s :
      pool_step s (with_leaf leaf EvictedSubdag
        (with_threads (Dropping (match y_leaves s !! leaf with Some old => slot_tips old | None => [] end) :: y_threads s) s))
  | step_hold t a v p s :
      p_heap (y_pool s) !! a = Some v -> v_tip v = t -> roomy (y_pool s) a 1 -> incref_at a (y_pool s) = (p, true) ->
      pool_step s (with_threads (Dropping [t] :: y_threads s) (with_pool p [] s))
  | step_drop t l ts1 ts2 p due s :
      y_threads s = ts1 ++ Dropping (t :: l) :: ts2 -> drop_ref t (y_pool s) = Some (p, due) ->
      pool_step s (with_threads (ts1 ++ Dropping l :: ts2) (with_pool p due s))
  | step_enqueue t d1 d2 s :
      y_due s = d1 ++ t :: d2 ->
      pool_step s (mkSystem (enqueue t (y_pool s)) (y_leaves s) (y_threads s) (d1 ++ d2) (S (y_uncounted s)) (y_left s) (y_claim s))
  | step_count n s :
      y_uncounted s = S n -> p_pending (y_pool s) + 1 < 2 ^ 63 ->
      pool_step s (mkSystem (count_pending (y_pool s)) (y_leaves s) (y_threads s) (y_due s) n (y_left s) (y_claim s))
  | step_swap s :
      y_left s = O -> y_claim s = None ->
      pool_step s (mkSystem (set_queue (p_queue (y_pool s)) 0 (y_pool s)) (y_leaves s) (y_threads s) (y_due s) (y_uncounted s)
                     (Z.to_nat (p_pending (y_pool s))) None)
  | step_examine n t q p c s :
      y_left s = S n -> y_claim s = None -> p_queue (y_pool s) = t :: q -> examine t (dequeue (y_pool s)) = (p, c) ->
      pool_step s (mkSystem p (y_leaves s) (y_threads s) (y_due s) (y_uncounted s) n c)
  | step_delete answer t a p due s :
      y_claim s = Some (t, a) -> delete_vertex answer t (y_pool s) = (p, due) ->
      pool_step s (mkSystem p (y_leaves s) (y_threads s) (y_due s ++ due) (y_uncounted s) (y_left s) None).

End Steps.

(** Before anything is resident. *)
Definition system_start : system := mkSystem newVertexPool ∅ [] [] 0 0 None.
