(* ===== verification/PoolProps.v ===== *)
(** * What the pool guarantees

    [pool_inv] ties the count of every vertex to its owners and to the places
    that hold it; every step keeps it. *)

From S2P Require Import Prelude Golib Proto Store Walk Wire WireProps Pool.

(** ** Counting *)

Definition occurrences (t : Tip) (l : list Tip) : nat := length (filter (eq t) l).

Lemma occurrences_app t l k : occurrences t (l ++ k) = (occurrences t l + occurrences t k)%nat.
Proof. unfold occurrences. by rewrite list.filter_app, length_app. Qed.

Lemma occurrences_cons t x l : occurrences t (x :: l) = ((if decide (t = x) then 1 else 0) + occurrences t l)%nat.
Proof. unfold occurrences. rewrite filter_cons. by destruct (decide (t = x)). Qed.

Lemma occurrences_elem t l : t ∈ l -> (0 < occurrences t l)%nat.
Proof.
  intros H. unfold occurrences. assert (t ∈ filter (eq t) l) by (by apply list_elem_of_filter). destruct (filter (eq t) l); [by apply elem_of_nil in H0|cbn; lia].
Qed.

Definition held (th : thread) : list Tip := match th with Pinning _ _ taken _ => taken | Dropping l => l end.

Definition slot_pins (t : Tip) (ls : gmap Z subdag) : nat := sum_list_with (fun q => occurrences t (slot_tips q.2)) (map_to_list ls).

Definition thread_pins (t : Tip) (ts : list thread) : nat := sum_list_with (fun th => occurrences t (held th)) ts.

Definition pins (s : system) (t : Tip) : nat := (slot_pins t (y_leaves s) + thread_pins t (y_threads s))%nat.

Lemma slot_pins_insert t leaf cs ls :
  (slot_pins t (<[ leaf := cs ]> ls) + occurrences t (match ls !! leaf with Some old => slot_tips old | None => [] end)
   = slot_pins t ls + occurrences t (slot_tips cs))%nat.
Proof.
  unfold slot_pins. destruct (ls !! leaf) as [old|] eqn:E.
  - rewrite <- (insert_delete_eq ls leaf cs), (map_to_list_insert _ _ cs) by apply lookup_delete_eq.
    rewrite <- (insert_delete_id ls leaf old E) at 2. rewrite (map_to_list_insert _ _ old) by apply lookup_delete_eq. cbn. lia.
  - rewrite map_to_list_insert by done. cbn. lia.
Qed.

Lemma slot_pins_lookup t leaf cs ls : ls !! leaf = Some cs -> (occurrences t (slot_tips cs) <= slot_pins t ls)%nat.
Proof. intros H. unfold slot_pins. apply elem_of_map_to_list in H. by apply (sum_list_with_in (leaf, cs) (fun q => occurrences t (slot_tips q.2))). Qed.

Lemma thread_pins_app t l k : thread_pins t (l ++ k) = (thread_pins t l + thread_pins t k)%nat.
Proof. apply sum_list_with_app. Qed.

Lemma thread_pins_cons t th l : thread_pins t (th :: l) = (occurrences t (held th) + thread_pins t l)%nat.
Proof. done. Qed.

Create Rewrite HintDb pins.
#[local] Hint Rewrite thread_pins_app thread_pins_cons occurrences_app occurrences_cons : pins.

Lemma size_keys_le (l : list bytes) : (size (list_to_set l : gset bytes) <= length l)%nat.
Proof.
  induction l as [|x l IH]; [done|]. cbn [list_to_set length]. rewrite size_union_alt, size_singleton.
  pose proof (subseteq_size (list_to_set l ∖ {[ x ]}) (list_to_set l : gset bytes) ltac:(set_solver)). lia.
Qed.

Lemma missing_size eff ks owns : (size (missingCreationKeys eff ks owns) <= length (creation_keys eff))%nat.
Proof. unfold missingCreationKeys. etrans; [apply size_keys_le|apply length_filter]. Qed.

Lemma missing_disjoint eff ks owns : missingCreationKeys eff ks owns ## ks.
Proof. unfold missingCreationKeys. intros k Hk ?. apply elem_of_list_to_set, list_elem_of_filter in Hk. tauto. Qed.

(** ** The invariant *)

Section Inv.
Context `{!MapRange, !ProtoCodec Effect}.
Variable (content : Tip -> Effect).

Record pool_inv (p : VertexPool) (n : Tip -> nat) (c : option (Tip * Z)) : Prop := {
  pi_map : forall t a, p_m p !! t = Some a -> exists v, p_heap p !! a = Some v /\ v_tip v = t;
  pi_next : forall a v, p_heap p !! a = Some v -> a < p_next p;
  pi_content : forall a v, p_heap p !! a = Some v -> v_eff v = content (v_tip v);
  pi_bound : forall a v, p_heap p !! a = Some v -> v_refs v < 2 ^ 31;
  pi_live : forall a v, p_heap p !! a = Some v -> 0 <= v_refs v ->
    p_m p !! v_tip v = Some a /\ v_refs v = Z.of_nat (size (v_creationKeys v) + n (v_tip v));
  pi_dead : forall a v, p_heap p !! a = Some v -> v_refs v < 0 -> v_creationKeys v = ∅ /\ (p_m p !! v_tip v = Some a -> c = Some (v_tip v, a));
  pi_pins : forall t, (0 < n t)%nat -> exists a v, p_m p !! t = Some a /\ p_heap p !! a = Some v /\ 0 <= v_refs v;
  pi_claim : forall t a, c = Some (t, a) -> p_m p !! t = Some a /\ exists v, p_heap p !! a = Some v /\ v_refs v < 0 /\ isSystemKey (e_key (v_eff v)) = false;
  pi_mirror : forall m, p_mirror p = Some m -> mirrors content m p;
}.

(** A vertex that is not claimed changes its count and its owners. *)
Lemma inv_update p n n' c a v v' :
  pool_inv p n c -> p_heap p !! a = Some v -> 0 <= v_refs v -> v_tip v' = v_tip v -> v_eff v' = v_eff v -> 0 <= v_refs v' < 2 ^ 31 ->
  v_refs v' = Z.of_nat (size (v_creationKeys v') + n' (v_tip v)) -> (forall t, t <> v_tip v -> n' t = n t) ->
  (forall m, p_mirror p = Some m -> v_creationKeys v' <> ∅ -> is_Some (m !! v_tip v)) ->
  pool_inv (set_heap (<[ a := v' ]> (p_heap p)) p) n' c.
Proof.
  intros [M N C B L D P K R] Hv Hr Ht He Hb Hs Hn Hm. destruct (L a v Hv Hr) as [Hma _].
  assert (Hlk : forall b w, <[ a := v' ]> (p_heap p) !! b = Some w -> b = a /\ w = v' \/ b <> a /\ p_heap p !! b = Some w).
  { intros b w [[-> ->]|[? ?]]%lookup_insert_Some; auto. }
  split; cbn [set_heap p_heap p_next p_m p_mirror].
  - intros t b Hb'. destruct (M t b Hb') as (w & Hw & Hwt). destruct (decide (b = a)) as [->|]; [|exists w; by rewrite lookup_insert_ne].
    exists v'. rewrite lookup_insert_eq. split; [done|]. congruence.
  - intros b w [[-> ->]|[? ?]]%Hlk; eauto.
  - intros b w [[-> ->]|[? ?]]%Hlk; [rewrite He, Ht; eauto|eauto].
  - intros b w [[-> ->]|[? ?]]%Hlk; [lia|eauto].
  - intros b w [[-> ->]|[Hne Hw]]%Hlk Hr'; [by rewrite Ht|]. destruct (L b w Hw Hr') as [Hmb ->]. split; [done|]. rewrite Hn; [done|congruence].
  - intros b w [[-> ->]|[Hne Hw]]%Hlk Hr'; [lia|eauto].
  - intros t Hp. destruct (decide (t = v_tip v)) as [->|Hne]; [exists a, v'; rewrite lookup_insert_eq; split_and!; auto; lia|].
    rewrite Hn in Hp by done. destruct (P t Hp) as (b & w & Hmb & Hw & ?). exists b, w. split_and!; [done| |done].
    rewrite lookup_insert_ne; [done|]. intros <-. destruct (M _ _ Hmb) as (w' & ? & ?). congruence.
  - intros t b Hc. destruct (K t b Hc) as (Hmb & w & Hw & ? & ?). split; [done|]. exists w. split; [|done]. rewrite lookup_insert_ne; [done|]. intros <-. assert (w = v) by congruence. subst. lia.
  - intros m Hmi. destruct (R m Hmi) as [R1 R2]. split; [done|]. intros b w [[-> ->]|[? ?]]%Hlk Hk; [rewrite Ht; eauto|eauto].
Qed.

Lemma inv_pins p n n' c : (forall t, n t = n' t) -> pool_inv p n c -> pool_inv p n' c.
Proof.
  intros E [M N C B L D P K R]. split; try done.
  - intros a v Hv Hr. rewrite <- E. by apply L.
  - intros t. rewrite <- E. apply P.
Qed.

Lemma update_insert p a v f : p_heap p !! a = Some v -> update a f p = set_heap (<[ a := f v ]> (p_heap p)) p.
Proof. intros Hv. unfold update. f_equal. apply map_eq. intros b. destruct (decide (b = a)) as [->|].
  - by rewrite lookup_alter_eq, lookup_insert_eq, Hv.
  - by rewrite lookup_alter_ne, lookup_insert_ne.
Qed.

(** *** Putting *)

Lemma inv_take owns p n c a v eff :
  pool_inv p n c -> p_heap p !! a = Some v -> eff = content (v_tip v) -> roomy p a (length (creation_keys eff)) ->
  (forall m, p_mirror p = Some m -> is_Some (m !! v_tip v)) ->
  pool_inv (take_ownership owns eff a p) n c
  /\ (forall b w, p_heap (take_ownership owns eff a p) !! b = Some w -> v_refs w = 0 -> exists u, p_heap p !! b = Some u /\ v_refs u = 0 /\ v_tip u = v_tip w /\ v_eff u = v_eff w).
Proof.
  intros I Hv He Hroom Hm. unfold take_ownership. rewrite Hv. pose proof (missing_size eff (v_creationKeys v) owns) as Hsz. pose proof (missing_disjoint eff (v_creationKeys v) owns) as Hdis.
  set (ks := missingCreationKeys eff (v_creationKeys v) owns) in *. case_bool_decide as Hk; [split; [done|eauto]|]. destruct (Z.ltb_spec (v_refs v) 0) as [|Hr]; [split; [done|eauto]|].
  rewrite (update_insert _ _ _ _ Hv). specialize (Hroom v Hv). destruct (pi_live _ _ _ I a v Hv Hr) as [_ Hc].
  assert (Hw : wrap32 (v_refs v + Z.of_nat (size ks)) = v_refs v + Z.of_nat (size ks)) by (apply wrap32_id; lia).
  assert (0 < size ks)%nat by (destruct (decide (size ks = 0)%nat) as [E|]; [by apply size_empty_inv in E; apply leibniz_equiv in E|lia]).
  split.
  - eapply inv_update; try done; cbn [v_refs v_creationKeys]; rewrite ?Hw; [lia| |eauto]. rewrite size_union by done. lia.
  - intros b w. cbn [set_heap p_heap]. intros [[<- <-]|[? ?]]%lookup_insert_Some; [cbn [v_refs]; lia|eauto].
Qed.

(** The mirror before and after a put of [tip]. *)
Definition persisted (tip : Tip) (mo mo' : option (gmap Tip bytes)) : Prop :=
  match mo, mo' with
  | None, None => True
  | Some m, Some m' => exists d, m' = mirror_put tip d m /\ UnmarshalEffect d = Some (content tip)
  | _, _ => False
  end.

Lemma persist_ok accepts tip p p' : persist accepts tip (content tip) p = Some p' -> exists mo, p' = set_mirror mo p /\ persisted tip (p_mirror p) mo.
Proof.
  unfold persist. destruct (p_mirror p) as [m|] eqn:Em; [|intros [= <-]; exists None; split; [by destruct p; cbn in *; subst|done]].
  destruct (MarshalEffect _) as [d|] eqn:Ed; [|done]. destruct accepts; [|done]. intros [= <-]. eexists. split; [done|]. exists d. split; [done|]. by apply UnmarshalEffect_MarshalEffect.
Qed.

Lemma mirror_put_some (t tip : Tip) (d d0 : bytes) (m : gmap Tip bytes) : mirror_put tip d0 m !! t = Some d -> m !! t = Some d \/ t = tip /\ d = d0.
Proof. unfold mirror_put. destruct (m !! tip); [auto|]. intros [[<- <-]|[? ?]]%lookup_insert_Some; auto. Qed.

Lemma mirror_put_has (t tip : Tip) (d0 : bytes) (m : gmap Tip bytes) : t = tip \/ is_Some (m !! t) -> is_Some (mirror_put tip d0 m !! t).
Proof.
  unfold mirror_put. destruct (m !! tip) as [d|] eqn:E; [intros [->|?]; eauto|]. intros Hs. destruct (decide (t = tip)) as [->|]; [by rewrite lookup_insert_eq|]. rewrite lookup_insert_ne by done. naive_solver.
Qed.

Lemma inv_publish (own : option (bytes -> bool)) p n c tip mo :
  pool_inv p n c -> p_m p !! tip = None -> Z.of_nat (length (creation_keys (content tip))) < 2 ^ 31 -> persisted tip (p_mirror p) mo ->
  pool_inv (publish_vertex own tip (content tip) (set_mirror mo p)).1 n c.
Proof.
  intros I Hn Hl Hp. unfold publish_vertex. set (ks := match own with Some owns => _ | None => ∅ end).
  assert (Hks : (size ks <= length (creation_keys (content tip)))%nat) by (subst ks; destruct own; [apply missing_size|rewrite size_empty; lia]).
  cbn [fst set_mirror p_heap p_next p_m p_mirror p_queue p_pending]. rewrite wrap32_id by lia. destruct I as [M N C B L D P K R].
  assert (Hnp : n tip = 0%nat) by (destruct (n tip) eqn:E; [done|]; destruct (P tip ltac:(lia)) as (? & ? & ? & _); congruence).
  assert (Hlk : forall b w, <[ p_next p := mkVertex tip (content tip) (Z.of_nat (size ks)) ks ]> (p_heap p) !! b = Some w ->
     b = p_next p /\ w = mkVertex tip (content tip) (Z.of_nat (size ks)) ks \/ b <> p_next p /\ p_heap p !! b = Some w).
  { intros b w [[-> ->]|[? ?]]%lookup_insert_Some; auto. }
  assert (Hold : forall b w, p_heap p !! b = Some w -> b <> p_next p) by (intros b w Hw%N; lia).
  split; cbn [p_heap p_next p_m p_mirror].
  - intros t b [[<- <-]|[? Hb]]%lookup_insert_Some; [eexists; by rewrite lookup_insert_eq|]. destruct (M t b Hb) as (w & Hw & ?). exists w. rewrite lookup_insert_ne; [done|]. symmetry. eauto.
  - intros b w [[-> ->]|[? ?%N]]%Hlk; lia.
  - intros b w [[-> ->]|[? ?]]%Hlk; [done|eauto].
  - intros b w [[-> ->]|[? ?]]%Hlk; [cbn; lia|eauto].
  - intros b w [[-> ->]|[? Hw]]%Hlk Hr; cbn [v_tip v_refs v_creationKeys]; [rewrite lookup_insert_eq, Hnp; split; [done|lia]|].
    destruct (L b w Hw Hr) as [Hb ?]. split; [|done]. rewrite lookup_insert_ne; [done|congruence].
  - intros b w [[-> ->]|[? Hw]]%Hlk Hr; cbn [v_refs] in Hr; [lia|]. destruct (D b w Hw Hr) as [? Hd]. split; [done|]. intros [[_ ?]|[_ ?]]%lookup_insert_Some; [congruence|eauto].
  - intros t Ht. destruct (P t Ht) as (a & v & Ha & Hv & ?). exists a, v. split_and!; [|rewrite lookup_insert_ne; [done|symmetry; eauto]|done]. rewrite lookup_insert_ne; [done|congruence].
  - intros t a Hc. destruct (K t a Hc) as (Ha & v & Hv & ? & ?). split; [rewrite lookup_insert_ne; [done|congruence]|]. exists v. split; [|done]. rewrite lookup_insert_ne; [done|symmetry; eauto].
  - intros m' ->. unfold persisted in Hp. destruct (p_mirror p) as [m|] eqn:Em; [|done]. destruct Hp as (d0 & -> & Hd0). destruct (R m eq_refl) as [R1 R2]. split; cbn [p_m p_heap].
    + intros t d [Hd|[-> ->]]%mirror_put_some; [|by rewrite lookup_insert_eq]. destruct (R1 t d Hd) as [[a Ha] ?]. split; [|done]. rewrite lookup_insert_is_Some. destruct (decide (tip = t)); eauto.
    + intros b w [[-> ->]|[? Hw]]%Hlk Hk; apply mirror_put_has; [by left|right; eauto].
Qed.

Lemma inv_persisted p n c tip mo :
  pool_inv p n c -> is_Some (p_m p !! tip) -> persisted tip (p_mirror p) mo -> pool_inv (set_mirror mo p) n c.
Proof.
  intros [M N C B L D P K R] Ht Hp. split; try done. cbn [set_mirror p_mirror]. intros m' ->. unfold persisted in Hp. destruct (p_mirror p) as [m|]; [|done].
  destruct Hp as (d0 & -> & Hd0). destruct (R m eq_refl) as [R1 R2]. split; cbn [set_mirror p_m p_heap].
  - intros t d [Hd|[-> ->]]%mirror_put_some; [eauto|done].
  - intros b w Hw Hk. apply mirror_put_has. right. eauto.
Qed.

(** Every vertex nobody needs is a candidate. *)
Definition listed (p : VertexPool) (l : list Tip) : Prop :=
  forall a v, p_heap p !! a = Some v -> v_refs v = 0 -> isSystemKey (e_key (v_eff v)) = false -> v_tip v ∈ l.

Lemma listed_update p l l' a v' :
  listed p l -> l ⊆ l' -> (v_refs v' = 0 -> isSystemKey (e_key (v_eff v')) = false -> v_tip v' ∈ l') -> listed (set_heap (<[ a := v' ]> (p_heap p)) p) l'.
Proof. intros Hl Hs Hv b w. cbn [set_heap p_heap]. intros [[_ <-]|[_ ?]]%lookup_insert_Some; [done|]. intros ? ?. apply Hs. eauto. Qed.

(** What an operation outside the queue does for the invariant. *)
Definition good (p p' : VertexPool) (n : Tip -> nat) (c : option (Tip * Z)) (due : list Tip) : Prop :=
  pool_inv p' n c /\ (forall l, listed p l -> listed p' (l ++ due)) /\ p_queue p' = p_queue p /\ p_pending p' = p_pending p.

Lemma good_refl p n c : pool_inv p n c -> good p p n c [].
Proof. intros I. split_and!; [done| |done|done]. intros l Hl. by rewrite app_nil_r. Qed.

Lemma put_good accepts own tip p p' due n c :
  pool_inv p n c -> Z.of_nat (length (creation_keys (content tip))) < 2 ^ 31 ->
  (forall a, p_m p !! tip = Some a -> roomy p a (length (creation_keys (content tip)))) ->
  put accepts own tip (content tip) p = Some (p', due) -> good p p' n c due.
Proof.
  intros I Hl Hroom. unfold put. destruct (persist accepts tip (content tip) p) as [p0|] eqn:Ep; [|done]. destruct (persist_ok _ _ _ _ Ep) as (mo & -> & Hp).
  cbn [set_mirror p_m]. destruct (p_m p !! tip) as [a|] eqn:Et; intros E.
  - assert (I' : pool_inv (set_mirror mo p) n c) by (eapply inv_persisted; eauto). destruct own as [owns|]; injection E as <- <-.
    + destruct (pi_map _ _ _ I _ _ Et) as (v & Hv & <-).
      destruct (inv_take owns (set_mirror mo p) n c a v (content (v_tip v)) I' Hv eq_refl (Hroom a eq_refl)) as [It Hz].
      { cbn [set_mirror p_mirror]. intros m' ->. unfold persisted in Hp. destruct (p_mirror p); [|done]. destruct Hp as (d & -> & _). apply mirror_put_has. by left. }
      split_and!; [done| |by unfold take_ownership; repeat case_match|by unfold take_ownership; repeat case_match].
      intros l Hli b w Hw Hr Hs. rewrite app_nil_r. destruct (Hz b w Hw Hr) as (u & Hu & Hu0 & <- & Hue). apply (Hli b u Hu Hu0). by rewrite Hue.
    + split_and!; [done| |done|done]. intros l Hli. by rewrite app_nil_r.
  - apply (inj Some) in E. pose proof (inv_publish own p n c tip mo I Et Hl Hp) as I'. rewrite E in I'. cbn in I'. split_and!; [done| |by injection E as <- _|by injection E as <- _].
    intros l Hli b w. injection E as <- <-. cbn [p_heap]. intros [[_ <-]|[_ Hw]]%lookup_insert_Some; cbn [v_refs v_eff v_tip]; intros Hr Hs.
    + apply elem_of_app. right. assert (Hks := Hr). rewrite wrap32_id in Hks; [rewrite (proj2 (Nat.eqb_eq _ _)) by lia; constructor|].
      destruct own as [owns|]; [pose proof (missing_size (content tip) ∅ owns); lia|rewrite size_empty; lia].
    + apply elem_of_app. left. eauto.
Qed.

Lemma take_good owns p n c a v :
  pool_inv p n c -> p_mirror p = None -> p_heap p !! a = Some v -> roomy p a (length (creation_keys (content (v_tip v)))) ->
  good p (take_ownership owns (content (v_tip v)) a p) n c [].
Proof.
  intros I Hm Hv Hr. destruct (inv_take owns p n c a v _ I Hv eq_refl Hr) as [I' Hz]; [by rewrite Hm|].
  split_and!; [done| |by unfold take_ownership; repeat case_match|by unfold take_ownership; repeat case_match].
  intros l Hli b w Hw H0 Hs. rewrite app_nil_r. destruct (Hz b w Hw H0) as (u & Hu & Hu0 & <- & Hue). apply (Hli b u Hu Hu0). by rewrite Hue.
Qed.

(** *** Counting *)

Lemma incref_good p p' n n' c a v :
  pool_inv p n c -> p_heap p !! a = Some v -> roomy p a 1 -> incref_at a p = (p', true) ->
  (forall t, n' t = ((if decide (t = v_tip v) then 1 else 0) + n t)%nat) -> good p p' n' c [].
Proof.
  intros I Hv Hroom. unfold incref_at. rewrite Hv. destruct (Z.ltb_spec (v_refs v) 0) as [|Hr]; [done|]. intros [= <-] Hn. rewrite (update_insert _ _ _ _ Hv).
  specialize (Hroom v Hv). destruct (pi_live _ _ _ I a v Hv Hr) as [_ Hc].
  assert (Hw : wrap32 (v_refs v + 1) = v_refs v + 1) by (apply wrap32_id; lia). split_and!; [|intros l Hl; apply (listed_update _ l); [done|by rewrite app_nil_r|cbn; lia]|done|done].
  eapply (inv_update p n n' c a v); try done; cbn [set_refs v_refs v_creationKeys]; rewrite ?Hw; [lia|rewrite Hn, decide_True by done; lia| |].
  - intros t Ht. by rewrite Hn, decide_False.
  - intros m Hm Hk. by apply (proj2 (pi_mirror _ _ _ I m Hm) a v).
Qed.

Lemma drop_good p p' n n' c t due :
  pool_inv p n c -> drop_ref t p = Some (p', due) -> (forall x, n x = ((if decide (x = t) then 1 else 0) + n' x)%nat) -> good p p' n' c due.
Proof.
  intros I Hd Hn. assert (Ht : (0 < n t)%nat) by (rewrite Hn, decide_True by done; lia). destruct (pi_pins _ _ _ I t Ht) as (a & v & Ha & Hv & Hr).
  destruct (pi_map _ _ _ I _ _ Ha) as (v0 & Hv0 & Hvt). assert (v0 = v) as -> by congruence. subst t. destruct (pi_live _ _ _ I a v Hv Hr) as [_ Hc]. pose proof (pi_bound _ _ _ I a v Hv).
  rewrite Hn, decide_True in Hc by done. unfold drop_ref in Hd. rewrite Ha, Hv, wrap32_id in Hd by lia. destruct (Z.ltb_spec (v_refs v - 1) 0); [lia|]. injection Hd as <- <-.
  rewrite (update_insert _ _ _ _ Hv). split_and!; [|intros l Hl; apply (listed_update _ l); [done|set_solver|]|done|done].
  - eapply (inv_update p n n' c a v); try done; cbn [set_refs v_refs v_creationKeys]; [lia|lia| |].
    + intros x Hx. by rewrite Hn, decide_False.
    + intros m Hm Hk. by apply (proj2 (pi_mirror _ _ _ I m Hm) a v).
  - cbn [set_refs v_refs v_tip]. intros -> _. set_solver.
Qed.

Lemma drop_total p n c t : pool_inv p n c -> (0 < n t)%nat -> drop_ref t p <> None.
Proof.
  intros I Ht. destruct (pi_pins _ _ _ I t Ht) as (a & v & Ha & Hv & Hr). destruct (pi_map _ _ _ I _ _ Ha) as (v0 & Hv0 & Hvt). assert (v0 = v) as -> by congruence. subst t.
  destruct (pi_live _ _ _ I a v Hv Hr) as [_ Hc]. pose proof (pi_bound _ _ _ I a v Hv). unfold drop_ref. rewrite Ha, Hv, wrap32_id by lia. by destruct (Z.ltb_spec (v_refs v - 1) 0); [lia|].
Qed.

(** What releasing a key of a vertex comes to. *)
Lemma release_at_eq p n c key a : pool_inv p n c ->
  release_at key a p = Some (p, []) /\ (forall v, p_heap p !! a = Some v -> key ∉ v_creationKeys v)
  \/ exists v, p_heap p !! a = Some v /\ key ∈ v_creationKeys v /\ 0 < v_refs v
      /\ release_at key a p = Some (set_heap (<[ a := mkVertex (v_tip v) (v_eff v) (v_refs v - 1) (v_creationKeys v ∖ {[ key ]}) ]> (p_heap p)) p,
                                    if v_refs v - 1 =? 0 then [v_tip v] else []).
Proof.
  intros I. unfold release_at. destruct (p_heap p !! a) as [v|] eqn:Hv; [|left; split; [done|by intros]]. case_bool_decide as Hk; [|left; split; [done|by intros w [= <-]]].
  right. exists v. destruct (Z.lt_ge_cases (v_refs v) 0) as [Hr|Hr]; [destruct (pi_dead _ _ _ I a v Hv Hr) as [E _]; rewrite E in Hk; set_solver|].
  destruct (pi_live _ _ _ I a v Hv Hr) as [Ha Hc]. pose proof (pi_bound _ _ _ I a v Hv).
  assert (0 < size (v_creationKeys v))%nat by (destruct (decide (size (v_creationKeys v) = 0)%nat) as [E|]; [apply size_empty_inv in E; set_solver|lia]).
  split_and!; [done|done|lia|]. unfold drop_ref. rewrite (update_insert _ _ _ _ Hv). cbn [set_heap p_m p_heap]. rewrite Ha, lookup_insert_eq. cbn [set_keys v_refs]. rewrite wrap32_id by lia.
  destruct (Z.ltb_spec (v_refs v - 1) 0); [lia|]. f_equal. f_equal. rewrite (update_insert _ a (set_keys (v_creationKeys v ∖ {[ key ]}) v)) by (cbn; by rewrite lookup_insert_eq).
  unfold set_heap. cbn. by rewrite insert_insert_eq.
Qed.

Lemma release_good p p' n c key a due : pool_inv p n c -> release_at key a p = Some (p', due) -> good p p' n c due.
Proof.
  intros I Hd. destruct (release_at_eq p n c key a I) as [[E _]|(v & Hv & Hk & Hr & E)]; rewrite E in Hd; injection Hd as <- <-; [by apply good_refl|].
  destruct (pi_live _ _ _ I a v Hv ltac:(lia)) as [_ Hc]. pose proof (pi_bound _ _ _ I a v Hv).
  split_and!; [|intros l Hl; apply (listed_update _ l); [done|set_solver|]|done|done].
  - eapply (inv_update p n n c a v); try done; cbn [v_refs v_creationKeys]; [lia|lia| |].
    + pose proof (subseteq_size {[ key ]} (v_creationKeys v) ltac:(set_solver)) as Hs. rewrite size_difference by set_solver. rewrite size_singleton in *. lia.
    + intros m Hm Hk'. apply (proj2 (pi_mirror _ _ _ I m Hm) a v); [done|]. set_solver.
  - cbn [v_refs v_tip]. intros -> _. set_solver.
Qed.

(** *** Reclaiming *)

Lemma inv_queue p n c q k : pool_inv p n c -> pool_inv (set_queue q k p) n c.
Proof. by intros [M N C B L D P K R]; split. Qed.

Lemma examine_good p p' n t c :
  pool_inv p n None -> examine t p = (p', c) -> pool_inv p' n c /\ (forall l, listed p (t :: l) -> listed p' l) /\ p_queue p' = p_queue p /\ p_pending p' = p_pending p.
Proof.
  intros I. unfold examine. destruct (p_m p !! t) as [a|] eqn:Ha; [|intros [= <- <-]; split_and!; [done| |done|done]].
  2:{ intros l Hl b w Hw Hr Hs. specialize (Hl b w Hw Hr Hs). apply elem_of_cons in Hl as [E|]; [|done]. destruct (pi_live _ _ _ I b w Hw ltac:(lia)) as [Hb _]. congruence. }
  destruct (pi_map _ _ _ I _ _ Ha) as (v & Hv & Hvt). unfold claim. rewrite Hv.
  assert (Hother : forall l b w, listed p (t :: l) -> p_heap p !! b = Some w -> v_refs w = 0 -> isSystemKey (e_key (v_eff w)) = false -> b <> a -> v_tip w ∈ l).
  { intros l b w Hl Hw Hr Hs Hne. specialize (Hl b w Hw Hr Hs). apply elem_of_cons in Hl as [E|]; [|done]. destruct (pi_live _ _ _ I b w Hw ltac:(lia)) as [Hb _]. congruence. }
  destruct (isSystemKey (e_key (v_eff v))) eqn:Es; [intros [= <- <-]; split_and!; [done| |done|done]|].
  { intros l Hl b w Hw Hr Hs. apply (Hother l b w Hl Hw Hr Hs). intros ->. congruence. }
  destruct (Z.eqb_spec (v_refs v) 0) as [E0|Hne]; intros [= <- <-]; split_and!; try done.
  3:{ intros l Hl b w Hw Hr Hs. apply (Hother l b w Hl Hw Hr Hs). intros ->. assert (w = v) as -> by congruence. done. }
  - rewrite (update_insert _ _ _ _ Hv). destruct (pi_live _ _ _ I a v Hv ltac:(lia)) as [_ Hc]. rewrite E0 in Hc.
    assert (Hk : v_creationKeys v = ∅) by (apply leibniz_equiv, size_empty_inv; lia). assert (Hn : n t = 0%nat) by (subst t; lia).
    destruct I as [M N C B L D P K R]. assert (Hlk : forall b w, <[ a := set_refs vertexTombstone v ]> (p_heap p) !! b = Some w -> b = a /\ w = set_refs vertexTombstone v \/ b <> a /\ p_heap p !! b = Some w).
    { intros b w [[-> ->]|[? ?]]%lookup_insert_Some; auto. }
    split; cbn [set_heap p_heap p_next p_m p_mirror].
    + intros x b Hb. destruct (M x b Hb) as (w & Hw & ?). destruct (decide (b = a)) as [->|]; [|exists w; by rewrite lookup_insert_ne]. exists (set_refs vertexTombstone v). rewrite lookup_insert_eq. split; [done|]. cbn. congruence.
    + intros b w [[-> ->]|[? ?]]%Hlk; eauto.
    + intros b w [[-> ->]|[? ?]]%Hlk; [exact (C a v Hv)|eauto].
    + intros b w [[-> ->]|[? ?]]%Hlk; [cbn; unfold vertexTombstone; lia|eauto].
    + intros b w [[-> ->]|[? ?]]%Hlk Hr; [cbn in Hr; unfold vertexTombstone in Hr; lia|eauto].
    + intros b w [[-> ->]|[? Hw]]%Hlk Hr; [cbn [set_refs v_creationKeys v_tip]; split; [done|intros _; congruence]|].
      destruct (D b w Hw Hr) as [? Hd]. split; [done|]. intros Hb. by apply Hd in Hb.
    + intros x Hx. destruct (P x Hx) as (b & w & Hb & Hw & ?). exists b, w. split_and!; [done| |done]. rewrite lookup_insert_ne; [done|]. intros <-. assert (x = t) as -> by (destruct (M _ _ Hb) as (? & ? & ?); congruence). lia.
    + intros x b [= <- <-]. split; [done|]. eexists. rewrite lookup_insert_eq. split; [done|]. split; [cbn; unfold vertexTombstone; lia|done].
    + intros m Hm. destruct (R m Hm) as [R1 R2]. split; [done|]. intros b w [[-> ->]|[? ?]]%Hlk Hk'; [exact (R2 a v Hv Hk')|eauto].
  - intros l Hl b w. unfold update. cbn [set_heap p_heap]. intros Hw Hr Hs. destruct (decide (b = a)) as [->|Hne].
    + rewrite lookup_alter_eq, Hv in Hw. injection Hw as <-. cbn in Hr. unfold vertexTombstone in Hr. lia.
    + rewrite lookup_alter_ne in Hw by done. by apply (Hother l b w).
Qed.

Lemma delete_good answer p p' n t a due :
  pool_inv p n (Some (t, a)) -> delete_vertex answer t p = (p', due) -> good p p' n None due.
Proof.
  intros I. destruct (pi_claim _ _ _ I t a eq_refl) as (Ha & v & Hv & Hr & _). destruct (pi_map _ _ _ I _ _ Ha) as (v0 & Hv0 & Hvt). assert (v0 = v) as -> by congruence.
  destruct (pi_dead _ _ _ I a v Hv Hr) as [Hk _].
  assert (Hn : n t = 0%nat).
  { destruct (n t) eqn:E; [done|]. destruct (pi_pins _ _ _ I t ltac:(lia)) as (b & w & Hb & Hw & ?). assert (b = a) as -> by congruence. assert (w = v) as -> by congruence. lia. }
  assert (Hdrop : forall mo, match p_mirror p with None => mo = None | Some m => mo = Some (delete t m) end -> good p (set_map (delete t (p_m p)) (set_mirror mo p)) n None []).
  { intros mo Hmo. split_and!; [|intros l Hl; by rewrite app_nil_r|done|done]. destruct I as [M N C B L D P K R]. split; cbn [set_map set_mirror p_heap p_next p_m p_mirror]; try done.
    - intros x b [_ Hb]%lookup_delete_Some. eauto.
    - intros b w Hw Hr'. destruct (L b w Hw Hr') as [Hb ?]. split; [|done]. rewrite lookup_delete_ne; [done|]. intros Et. assert (b = a) as -> by congruence. assert (w = v) as -> by congruence. lia.
    - intros b w Hw Hr'. destruct (D b w Hw Hr') as [? Hd]. split; [done|]. intros [Hne Hb]%lookup_delete_Some. apply Hd in Hb. congruence.
    - intros x Hx. destruct (P x Hx) as (b & w & Hb & ? & ?). exists b, w. split_and!; [|done|done]. rewrite lookup_delete_ne; [done|]. intros Et. subst x. lia.
    - intros m ->. destruct (p_mirror p) as [m0|]; [|done]. injection Hmo as ->. destruct (R m0 eq_refl) as [R1 R2]. split; cbn [p_m p_heap].
      + intros x d [Hne Hd]%lookup_delete_Some. cbn [set_map p_m]. rewrite lookup_delete_ne by done. eauto.
      + intros b w Hw Hk'. change (p_heap p !! b = Some w) in Hw. rewrite lookup_delete_ne; [eauto|]. intros Et. destruct (Z.lt_ge_cases (v_refs w) 0) as [Hr'|Hr']; [by destruct (D b w Hw Hr')|].
        destruct (L b w Hw Hr') as [Hb _]. assert (b = a) as -> by congruence. assert (w = v) as -> by congruence. lia. }
  unfold delete_vertex. destruct (p_mirror p) as [m|] eqn:Em.
  2:{ intros [= <- <-]. specialize (Hdrop None eq_refl). by replace (set_mirror None p) with p in Hdrop by (destruct p; cbn in *; by subst). }
  destruct answer as [|gone]; [intros [= <- <-]; by apply Hdrop|].
  cbn [set_mirror p_m]. rewrite Ha. intros [= <- <-]. rewrite (update_insert _ _ v) by done.
  split_and!; [|intros l Hl; apply (listed_update _ l); [done|set_solver|]|done|done]; [|intros _ _; cbn; set_solver].
  destruct I as [M N C B L D P K R]. destruct (R m Em) as [R1 R2].
  assert (Hlk : forall b w, <[ a := set_refs 0 v ]> (p_heap p) !! b = Some w -> b = a /\ w = set_refs 0 v \/ b <> a /\ p_heap p !! b = Some w).
  { intros b w [[-> ->]|[? ?]]%lookup_insert_Some; auto. }
  split; cbn [set_heap set_mirror p_heap p_next p_m p_mirror].
  - intros x b Hb. destruct (M x b Hb) as (w & Hw & ?). destruct (decide (b = a)) as [->|]; [|exists w; by rewrite lookup_insert_ne]. exists (set_refs 0 v). rewrite lookup_insert_eq. split; [done|]. cbn. congruence.
  - intros b w [[-> ->]|[? ?]]%Hlk; eauto.
  - intros b w [[-> ->]|[? ?]]%Hlk; [exact (C a v Hv)|eauto].
  - intros b w [[-> ->]|[? ?]]%Hlk; [cbn; lia|eauto].
  - intros b w [[-> ->]|[? ?]]%Hlk Hr'; [|eauto]. cbn [set_refs v_tip v_refs v_creationKeys]. rewrite Hk, size_empty, Hvt, Hn. done.
  - intros b w [[-> ->]|[? Hw]]%Hlk Hr'; [cbn in Hr'; lia|]. destruct (D b w Hw Hr') as [? Hd]. split; [done|]. intros Hb. apply Hd in Hb. congruence.
  - intros x Hx. destruct (P x Hx) as (b & w & Hb & Hw & ?). exists b, w. split_and!; [done| |done]. rewrite lookup_insert_ne; [done|]. intros <-. assert (x = t) as -> by (destruct (M _ _ Hb) as (? & ? & ?); congruence). lia.
  - done.
  - intros m' [= <-]. split; cbn [p_m p_heap].
    + intros x d Hd. apply R1. destruct gone; [by apply lookup_delete_Some in Hd as [_ ?]|done].
    + intros b w [[-> ->]|[Hne Hw]]%Hlk Hk'; [done|]. destruct gone; [|eauto]. rewrite lookup_delete_ne; [eauto|]. intros Et.
      destruct (Z.lt_ge_cases (v_refs w) 0) as [Hr'|Hr']; [by destruct (D b w Hw Hr')|]. destruct (L b w Hw Hr') as [Hb _]. congruence.
Qed.

(** ** The system *)

Definition thread_ok (th : thread) : Prop := match th with Pinning _ cs taken todo => taken ++ todo = slot_tips cs | Dropping _ => True end.

Record sys_inv (s : system) : Prop := {
  si_pool : pool_inv (y_pool s) (pins s) (y_claim s);
  si_listed : listed (y_pool s) (p_queue (y_pool s) ++ y_due s);
  si_threads : Forall thread_ok (y_threads s);
  si_pending : 0 <= p_pending (y_pool s);
  si_length : Z.of_nat (length (p_queue (y_pool s))) = p_pending (y_pool s) + Z.of_nat (y_left s) + Z.of_nat (y_uncounted s);
}.

Lemma sys_good s p due ls ts :
  sys_inv s -> Forall thread_ok ts -> (forall n, (forall t, n t = slot_pins t ls + thread_pins t ts)%nat -> good (y_pool s) p n (y_claim s) due) ->
  sys_inv (mkSystem p ls ts (y_due s ++ due) (y_uncounted s) (y_left s) (y_claim s)).
Proof.
  intros [I L T Pe Le] Ht Hg. destruct (Hg (fun t => slot_pins t ls + thread_pins t ts)%nat (fun _ => eq_refl)) as (I' & HL & Hq & Hp).
  split; cbn [y_pool y_claim y_due y_threads y_left y_uncounted]; rewrite ?Hq, ?Hp; try done. rewrite app_assoc. by apply HL.
Qed.

(** Nothing changes hands: the pins are what they were. *)
Lemma sys_same s ls ts :
  sys_inv s -> Forall thread_ok ts -> (forall t, slot_pins t ls + thread_pins t ts = pins s t)%nat ->
  sys_inv (mkSystem (y_pool s) ls ts (y_due s) (y_uncounted s) (y_left s) (y_claim s)).
Proof.
  intros I Ht Hp. rewrite <- (app_nil_r (y_due s)). apply sys_good; [done|done|]. intros n Hn. apply good_refl. eapply inv_pins; [|apply I]. intros t. by rewrite Hn, Hp.
Qed.

Lemma thread_ok_swap ts1 th th' ts2 : Forall thread_ok (ts1 ++ th :: ts2) -> thread_ok th' -> Forall thread_ok (ts1 ++ th' :: ts2).
Proof. rewrite !list.Forall_app, !list.Forall_cons. tauto. Qed.

Lemma queue_good s p' q k d u l :
  sys_inv s -> p_queue p' = q -> p_pending p' = k -> pool_inv p' (pins s) (y_claim s) -> listed p' (q ++ d) -> 0 <= k ->
  Z.of_nat (length q) = k + Z.of_nat l + Z.of_nat u -> sys_inv (mkSystem p' (y_leaves s) (y_threads s) d u l (y_claim s)).
Proof. intros [I L T Pe Le] <- <- Hp Hl Hk Hlen. by split. Qed.

Lemma start_inv_pool : sys_inv system_start.
Proof.
  split; try done. split; cbn [system_start y_pool newVertexPool p_m p_heap p_mirror]; try done; try by intros ? ? ?%lookup_empty_Some.
  intros t. unfold pins, slot_pins. cbn [system_start y_leaves y_threads]. rewrite map_to_list_empty. cbn. lia.
Qed.

Lemma step_inv s s' : sys_inv s -> pool_step content s s' -> sys_inv s'.
Proof.
  intros I. destruct 1 as [accepts own tip p due s Hlk Hl Hr Hp|m s Hm Hmi|owns tip a v s Hm Hv Ht Hr|key a p due s Hp|leaf cs s|leaf cs taken t todo ts1 ts2 a v p s Hts Hv Ht Hr Hp
    |leaf cs taken t todo ts1 ts2 s Hts|leaf cs taken ts1 ts2 s Hts Hev|leaf cs taken ts1 ts2 s Hts|leaf s|t a v p s Hv Ht Hr Hp|t l ts1 ts2 p due s Hts Hp|t d1 d2 s Hd|n s Hu Hb|s Hleft Hc
    |n t q p c s Hleft Hc Hq He|answer t a p due s Hc Hp]; pose proof (si_threads _ I) as HT; try (rewrite Hts in HT; pose proof (proj1 (Forall_app _ _ _) HT) as [_ [Hth _]%list.Forall_cons]; cbn [thread_ok] in Hth).
  - apply (sys_good s); [done|done|]. intros k Hk. eapply put_good; eauto. eapply inv_pins; [|apply I]. intros x. by rewrite Hk.
  - apply (sys_good s); [done|done|]. intros k Hk. pose proof (inv_pins _ _ k _ (fun x => eq_sym (Hk x)) (si_pool _ I)) as [M N C B L D P K R].
    split_and!; [|intros l Hli; by rewrite app_nil_r|done|done]. split; try done. by intros m' [= <-].
  - apply (sys_good s); [done|done|]. intros k Hk. subst tip. eapply take_good; eauto. eapply inv_pins; [|apply I]. intros x. by rewrite Hk.
  - apply (sys_good s); [done|done|]. intros k Hk. eapply release_good; eauto. eapply inv_pins; [|apply I]. intros x. by rewrite Hk.
  - apply (sys_same s); [done|by constructor|]. intros x. unfold pins. by autorewrite with pins.
  - apply (sys_good s); [done|eapply thread_ok_swap; [done|cbn; by rewrite <- app_assoc]|]. intros k Hk. eapply (incref_good _ _ (pins s)); [apply I|done|done|done|]. intros x. rewrite Hk. unfold pins. rewrite Hts. autorewrite with pins. cbn [held]. autorewrite with pins. subst t. cbn. lia.
  - apply (sys_same s); [done|by eapply thread_ok_swap|]. intros x. unfold pins. rewrite Hts. by autorewrite with pins.
  - apply (sys_same s); [done|by eapply thread_ok_swap|]. intros x. unfold pins. cbn [with_threads y_leaves y_threads]. rewrite Hts. autorewrite with pins. cbn [held]. rewrite app_nil_r in Hth. subst taken. pose proof (slot_pins_insert x leaf cs (y_leaves s)). lia.
  - apply (sys_same s); [done|by eapply thread_ok_swap|]. intros x. unfold pins. rewrite Hts. by autorewrite with pins.
  - apply (sys_same s); [done|by constructor|]. intros x. unfold pins. cbn [with_threads y_leaves y_threads]. autorewrite with pins. cbn [held]. pose proof (slot_pins_insert x leaf EvictedSubdag (y_leaves s)) as Hi. cbn in Hi. lia.
  - apply (sys_good s); [done|by constructor|]. intros k Hk. eapply (incref_good _ _ (pins s)); [apply I|done|done|done|]. intros x. rewrite Hk. unfold pins. autorewrite with pins. cbn [held]. autorewrite with pins. subst t. cbn. lia.
  - apply (sys_good s); [done|by eapply thread_ok_swap|]. intros k Hk. eapply (drop_good _ _ (pins s)); [apply I|done|]. intros x. rewrite Hk. unfold pins. rewrite Hts. autorewrite with pins. cbn [held]. autorewrite with pins. cbn. lia.
  - eapply queue_good; [done|done|done|by apply inv_queue, I| |apply I|].
    + intros a v Hv Hr Hs. pose proof (si_listed _ I a v Hv Hr Hs) as Hi. rewrite Hd in Hi. cbn [enqueue set_queue p_queue]. revert Hi. rewrite !elem_of_app, !elem_of_cons. tauto.
    + pose proof (si_length _ I). cbn [enqueue set_queue p_queue p_pending]. rewrite length_app. cbn. lia.
  - eapply queue_good; [done|done|done|by apply inv_queue, I|apply I| |]; cbn [count_pending set_queue p_pending p_queue]; pose proof (si_pending _ I); pose proof (si_length _ I); rewrite wrap64_id by (unfold is_int64, min_int64, max_int64; lia); lia.
  - rewrite <- Hc. eapply queue_good; [done|done|done|by apply inv_queue, I|apply I| |]; cbn [set_queue p_pending p_queue]; [done|]. pose proof (si_length _ I). pose proof (si_pending _ I). lia.
  - pose proof (si_pool _ I) as Ip. rewrite Hc in Ip. destruct (examine_good _ _ _ _ _ (inv_queue _ _ _ (tail (p_queue (y_pool s))) (p_pending (y_pool s)) Ip) He) as (I' & HL & Hq' & Hp').
    pose proof (si_listed _ I) as L. pose proof (si_length _ I) as Le. rewrite Hq in L, Le. cbn [dequeue set_queue p_queue p_pending] in Hq', Hp'. rewrite Hq in Hq'. cbn [tail] in Hq'.
    split; cbn [y_pool y_claim y_due y_threads y_left y_uncounted]; rewrite ?Hq', ?Hp'; [done|by apply HL|done|apply I|cbn in Le; lia].
  - pose proof (si_pool _ I) as Ip. rewrite Hc in Ip. destruct (delete_good _ _ _ _ _ _ _ Ip Hp) as (I' & HL & Hq' & Hp').
    split; cbn [y_pool y_claim y_due y_threads y_left y_uncounted]; rewrite ?Hq', ?Hp'; [done| |done|apply I|apply I]. rewrite app_assoc. apply HL, I.
Qed.

Lemma moves_sys s s' : rtc (pool_step content) s s' -> sys_inv s -> sys_inv s'.
Proof. induction 1; eauto using step_inv. Qed.

Lemma reachable_sys s : rtc (pool_step content) system_start s -> sys_inv s.
Proof. intros Hr. by eapply moves_sys, start_inv_pool. Qed.

Lemma pinned_resident p n c t : pool_inv p n c -> (0 < n t)%nat -> Get p t = Some (content t).
Proof.
  intros I Ht. destruct (pi_pins _ _ _ I t Ht) as (a & v & Ha & Hv & Hr). destruct (pi_map _ _ _ I _ _ Ha) as (v0 & Hv0 & Hvt). assert (v0 = v) as -> by congruence.
  unfold Get, Load. rewrite Ha. cbn. rewrite Hv. cbn. by rewrite (pi_content _ _ _ I a v Hv), Hvt.
Qed.

Lemma slot_materializes s leaf tips topo lca : sys_inv s -> y_leaves s !! leaf = Some (Cached tips topo lca) ->
  materializeSubdag topo (y_pool s) = Some (map (fun t => (t, content t)) topo).
Proof.
  intros I Hl. assert (Hg : forall t, t ∈ topo -> Get (y_pool s) t = Some (content t)).
  { intros t Ht. eapply pinned_resident; [apply I|]. pose proof (slot_pins_lookup t leaf _ _ Hl). pose proof (occurrences_elem t topo Ht). cbn [slot_tips] in *. unfold pins. lia. }
  clear Hl. unfold materializeSubdag. induction topo as [|t topo IH]; [done|]. cbn [mapM map]. rewrite (Hg t) by constructor. cbn. rewrite IH by (intros; apply Hg; by constructor). done.
Qed.

Lemma droppable s l : sys_inv s -> Dropping l ∈ y_threads s -> forall t, t ∈ l -> drop_ref t (y_pool s) <> None.
Proof.
  intros I Hin t Ht. eapply drop_total; [apply I|]. apply list_elem_of_split in Hin as (ts1 & ts2 & Hts). unfold pins. rewrite Hts. autorewrite with pins. cbn [held].
  pose proof (occurrences_elem t l Ht). lia.
Qed.

(** Only the vertex the consumer has claimed leaves the map. *)
Lemma take_map owns eff a p : p_m (take_ownership owns eff a p) = p_m p.
Proof. unfold take_ownership. by repeat case_match. Qed.

Lemma drop_map t p p' due : drop_ref t p = Some (p', due) -> p_m p' = p_m p.
Proof. unfold drop_ref. repeat case_match; intros [= <- <-]; done. Qed.

Lemma release_map key a p p' due : release_at key a p = Some (p', due) -> p_m p' = p_m p.
Proof. unfold release_at. repeat case_match; try (by intros [= <- <-]). intros Hd%drop_map. done. Qed.

Lemma incref_map a p : p_m (incref_at a p).1 = p_m p.
Proof. unfold incref_at. by repeat case_match. Qed.

Lemma put_map accepts own tip eff p p' due t a : put accepts own tip eff p = Some (p', due) -> p_m p !! t = Some a -> p_m p' !! t = Some a.
Proof.
  unfold put. destruct (persist accepts tip eff p) as [p0|] eqn:Ep; [|done]. assert (p_m p0 = p_m p) as Hm.
  { revert Ep. unfold persist. repeat case_match; intros [= <-]; done. }
  rewrite Hm. destruct (p_m p !! tip) as [b|] eqn:Et; intros [= E] Ha.
  - destruct own; [|by rewrite <- E, Hm]. rewrite <- E, take_map. by rewrite Hm.
  - subst p'. cbn [p_m]. rewrite lookup_insert_ne; [by rewrite Hm|congruence].
Qed.

Lemma examine_map t p : p_m (examine t p).1 = p_m p.
Proof. unfold examine, claim. by repeat case_match; simplify_eq. Qed.

Lemma step_map s s' t a : pool_step content s s' -> p_m (y_pool s) !! t = Some a ->
  p_m (y_pool s') !! t = Some a \/ exists b, y_claim s = Some (t, b).
Proof.
  destruct 1 as [accepts own tip p due s Hlk Hl Hr Hp|m s Hm Hmi|owns tip b v s Hm Hv Ht Hr|key b p due s Hp|leaf cs s|leaf cs taken x todo ts1 ts2 b v p s Hts Hv Ht Hr Hp
    |leaf cs taken x todo ts1 ts2 s Hts|leaf cs taken ts1 ts2 s Hts Hev|leaf cs taken ts1 ts2 s Hts|leaf s|x b v p s Hv Ht Hr Hp|x l ts1 ts2 p due s Hts Hp|x d1 d2 s Hd|n s Hu Hb|s Hleft Hc
    |n x q p c s Hleft Hc Hq He|answer x b p due s Hc Hp]; intros Ha; try (by left).
  - left. by eapply put_map.
  - left. cbn [with_pool y_pool]. by rewrite take_map.
  - left. cbn [with_pool y_pool]. by rewrite (release_map _ _ _ _ _ Hp).
  - left. cbn [with_threads with_pool y_pool]. pose proof (incref_map b (y_pool s)) as E. rewrite Hp in E. cbn in E. by rewrite E.
  - left. cbn [with_threads with_pool y_pool]. pose proof (incref_map b (y_pool s)) as E. rewrite Hp in E. cbn in E. by rewrite E.
  - left. cbn [with_threads with_pool y_pool]. by rewrite (drop_map _ _ _ _ Hp).
  - left. cbn [y_pool]. pose proof (examine_map x (dequeue (y_pool s))) as E. rewrite He in E. cbn in E. by rewrite E.
  - destruct (decide (t = x)) as [->|Hne]; [right; eauto|left]. cbn [y_pool]. revert Hp. unfold delete_vertex.
    destruct (p_mirror (y_pool s)) as [m|]; [|intros [= <- <-]; cbn; by rewrite lookup_delete_ne]. destruct answer as [|gone]; [intros [= <- <-]; cbn; by rewrite lookup_delete_ne|].
    cbn [set_mirror p_m]. case_match; intros [= <- <-]; done.
Qed.

(** ** Undisturbed runs *)

Definition owners (p : VertexPool) (x : Tip) : option (gset bytes) := v_creationKeys <$> Load p x.

Record seq_inv (p : VertexPool) (n : Tip -> nat) : Prop := {
  sq_pool : pool_inv p n None;
  sq_listed : listed p (p_queue p);
  sq_pending : p_pending p = wrap64 (Z.of_nat (length (p_queue p)));
}.

Lemma enqueue_all_eq l p :
  p_heap (enqueue_all l p) = p_heap p /\ p_m (enqueue_all l p) = p_m p /\ p_mirror (enqueue_all l p) = p_mirror p /\ p_next (enqueue_all l p) = p_next p
  /\ p_queue (enqueue_all l p) = p_queue p ++ l.
Proof.
  revert p. induction l as [|t l IH]; intros p; [cbn; by rewrite app_nil_r|]. change (enqueue_all (t :: l) p) with (enqueue_all l (enqueueReclaim t p)). destruct (IH (enqueueReclaim t p)) as (-> & -> & -> & -> & ->). cbn. by rewrite <- app_assoc.
Qed.

Lemma enqueue_all_pending l p : p_pending p = wrap64 (Z.of_nat (length (p_queue p))) -> p_pending (enqueue_all l p) = wrap64 (Z.of_nat (length (p_queue p ++ l))).
Proof.
  revert p. induction l as [|t l IH]; intros p Hp; [by rewrite app_nil_r|]. change (enqueue_all (t :: l) p) with (enqueue_all l (enqueueReclaim t p)). rewrite IH; cbn.
  - by rewrite <- app_assoc.
  - rewrite Hp, wrap64_add_l, length_app. cbn. f_equal. lia.
Qed.

Lemma enqueue_all_inv p p' n n' l : seq_inv p n -> good p p' n' None l -> seq_inv (enqueue_all l p') n'.
Proof.
  intros [I L P] (I' & HL & Hq & Hp). destruct (enqueue_all_eq l p') as (Eh & Em & Er & En & Eq). split.
  - destruct I' as [M N C B Li D Pi K R]. split; rewrite ?Eh, ?Em, ?En; try done. intros m Hm. rewrite Er in Hm. destruct (R m Hm) as [R1 R2]. split; [rewrite Em|rewrite Eh]; done.
  - intros a v. rewrite Eh, Eq, Hq. by apply HL.
  - rewrite Eq, enqueue_all_pending by (by rewrite Hp, Hq). by rewrite Hq.
Qed.

Lemma enqueue_all_owners l p x : owners (enqueue_all l p) x = owners p x.
Proof. unfold owners, Load. by destruct (enqueue_all_eq l p) as (-> & -> & _). Qed.

(** What a run of releases leaves alone. *)
Definition kept (p p' : VertexPool) (k : nat) : Prop :=
  p_m p' = p_m p /\ p_mirror p' = p_mirror p /\ (length (p_queue p') <= length (p_queue p) + k)%nat.

Lemma kept_trans p q r k l : kept p q k -> kept q r l -> kept p r (k + l).
Proof. intros (? & ? & ?) (? & ? & ?). split_and!; [congruence|congruence|lia]. Qed.

Lemma drop_mirror t p p' due : drop_ref t p = Some (p', due) -> p_mirror p' = p_mirror p /\ p_queue p' = p_queue p /\ (length due <= 1)%nat.
Proof. unfold drop_ref. repeat case_match; intros [= <- <-]; cbn; auto with lia. Qed.

Lemma decref_seq p n n' t : seq_inv p n -> (forall x, n x = ((if decide (x = t) then 1 else 0) + n' x)%nat) ->
  exists p', decref t p = Some p' /\ seq_inv p' n' /\ kept p p' 1 /\ forall x, owners p' x = owners p x.
Proof.
  intros I Hn. unfold decref. destruct (drop_ref t p) as [[q due]|] eqn:E.
  2:{ exfalso. eapply drop_total; [apply I| |exact E]. rewrite Hn, decide_True by done. lia. }
  cbn. pose proof (drop_good _ _ _ _ _ _ _ (sq_pool _ _ I) E Hn) as G. exists (enqueue_all due q). destruct (drop_mirror _ _ _ _ E) as (Hm & Hq & Hd). destruct (enqueue_all_eq due q) as (_ & Em & Er & _ & Eq).
  split_and!; [done|by eapply enqueue_all_inv| |].
  - split_and!; [rewrite Em; by eapply drop_map|by rewrite Er|rewrite Eq, length_app, Hq; lia].
  - intros x. rewrite enqueue_all_owners. revert E. unfold drop_ref, owners, Load. destruct (p_m p !! t) as [a|] eqn:Ha; [|by intros [= <- _]]. destruct (p_heap p !! a) as [v|] eqn:Hv; [|by intros [= <- _]].
    destruct (_ <? 0); [done|]. intros [= <- _]. rewrite (update_insert _ _ _ _ Hv). cbn [set_heap p_m p_heap]. destruct (p_m p !! x) as [b|]; [|done]. cbn.
    destruct (decide (b = a)) as [->|]; [by rewrite lookup_insert_eq, Hv|by rewrite lookup_insert_ne].
Qed.

Lemma decref_all_seq l p n n' : seq_inv p n -> (forall x, n x = (occurrences x l + n' x)%nat) ->
  exists p', decref_all l p = Some p' /\ seq_inv p' n' /\ kept p p' (length l) /\ forall x, owners p' x = owners p x.
Proof.
  unfold decref_all. revert p n. induction l as [|t l IH]; intros p n I Hn; cbn [fold_opt].
  - exists p. split_and!; [done| |split_and!; [done|done|cbn; lia]|done]. destruct I as [Ip ? ?]. split; try done. by eapply inv_pins.
  - destruct (decref_seq p n (fun x => occurrences x l + n' x)%nat t I) as (p1 & -> & I1 & K1 & O1).
    { intros x. rewrite Hn, occurrences_cons. lia. }
    destruct (IH p1 _ I1 (fun _ => eq_refl)) as (p2 & E & I2 & K2 & O2). exists p2. split_and!; [done|done|by apply (kept_trans p p1 p2 1)|]. intros x. by rewrite O2.
Qed.

Lemma release_seq p n key t : seq_inv p n ->
  exists p', decrefChainNode key t p = Some p' /\ seq_inv p' n /\ kept p p' (if decide (is_Some (p_m p !! t)) then 1 else 0)
    /\ forall x, owners p' x = (if decide (x = t) then (fun ks => ks ∖ {[ key ]}) <$> owners p x else owners p x).
Proof.
  intros I. unfold decrefChainNode. destruct (p_m p !! t) as [a|] eqn:Ha.
  2:{ exists p. split_and!; [done|done|split_and!; [done|done|case_decide; lia]|]. intros x. case_decide as Hx; [subst x|done]. unfold owners, Load. by rewrite Ha. }
  rewrite decide_True by eauto. destruct (pi_map _ _ _ (sq_pool _ _ I) _ _ Ha) as (v & Hv & Hvt).
  assert (Hsame : forall b w, p_m p !! b = Some a -> p_heap p !! a = Some w -> b = t) by (intros b w Hb Hw; destruct (pi_map _ _ _ (sq_pool _ _ I) _ _ Hb) as (? & ? & <-); congruence).
  destruct (release_at_eq p n None key a (sq_pool _ _ I)) as [[E Hk]|(v0 & Hv0 & Hk & Hr & E)].
  - exists p. rewrite E. cbn. split_and!; [done|done|split_and!; [done|done|lia]|]. intros x. case_decide as Hx; [subst x|done]. unfold owners, Load. rewrite Ha. cbn. rewrite Hv. cbn. f_equal. specialize (Hk v Hv). set_solver.
  - assert (v0 = v) as -> by congruence. pose proof (release_good _ _ _ _ _ _ _ (sq_pool _ _ I) E) as G. rewrite E. cbn [fmap option_fmap option_map fst snd]. eexists. split; [done|]. split; [by eapply enqueue_all_inv|].
    match goal with |- context [enqueue_all ?l ?q] => destruct (enqueue_all_eq l q) as (_ & Em & Er & _ & Eq) end. split; [split_and!; [done|done|rewrite Eq, length_app; cbn; case_match; cbn; lia]|].
    intros x. rewrite enqueue_all_owners. unfold owners, Load. cbn [set_heap p_m p_heap]. case_decide as Hx.
    + subst x. rewrite Ha. cbn. by rewrite lookup_insert_eq, Hv.
    + destruct (p_m p !! x) as [b|] eqn:Hb; [|done]. cbn. rewrite lookup_insert_ne; [done|]. intros <-. by apply Hx, (Hsame x v).
Qed.

Lemma release_fold key order p n : seq_inv p n -> NoDup order ->
  exists p', fold_opt (fun p t => decrefChainNode key t p) order p = Some p' /\ seq_inv p' n /\ kept p p' (length (filter (fun t => is_Some (p_m p !! t)) order))
    /\ forall x, owners p' x = (if decide (x ∈ order) then (fun ks => ks ∖ {[ key ]}) <$> owners p x else owners p x).
Proof.
  revert p. induction order as [|t order IH]; intros p I Hnd; cbn [fold_opt].
  - exists p. split_and!; [done|done|split_and!; [done|done|lia]|]. intros x. by rewrite decide_False by apply not_elem_of_nil.
  - apply list.NoDup_cons in Hnd as [Hnt Hnd]. destruct (release_seq p n key t I) as (p1 & -> & I1 & K1 & O1). destruct (IH p1 I1 Hnd) as (p2 & E & I2 & K2 & O2).
    exists p2. split_and!; [done|done| |].
    + rewrite (proj1 K1) in K2. pose proof (kept_trans _ _ _ _ _ K1 K2) as (Ka & Kb & Kc). split_and!; [done|done|]. rewrite filter_cons. revert Kc. case_decide; cbn [length]; lia.
    + intros x. rewrite O2, O1. destruct (decide (x = t)) as [->|Hne]; [rewrite decide_False, decide_True by (done || constructor); done|].
      destruct (decide (x ∈ order)); [rewrite decide_True by (by constructor); done|]. rewrite decide_False; [done|]. rewrite elem_of_cons. tauto.
Qed.

(** A walk whose visits succeed under an invariant does not fail. *)
Lemma dfs_no_failure {A} (P : A -> Prop) skip next (visit : A -> Tip -> option A) fuel stack seen acc :
  (forall a t, P a -> exists a', visit a t = Some a' /\ P a') -> P acc -> dfs skip next visit fuel stack seen acc <> Missing.
Proof.
  intros HP. revert stack seen acc. induction fuel as [|fuel IH]; intros [|t stack] seen acc Ha; cbn; try done. case_match; [by apply IH|].
  destruct (HP acc t Ha) as (acc' & -> & Ha'). by apply IH.
Qed.

Lemma release_chain_seq key tips p n : seq_inv p n ->
  exists p' (order : list Tip), release_chain key tips p = Done p' /\ seq_inv p' n /\ kept p p' (size (p_m p))
    /\ (forall t, t ∈ order <-> exists s, s ∈ tips /\ rtc (fun x y => y ∈ chain_next key p x) s t)
    /\ forall x, owners p' x = (if decide (x ∈ order) then (fun ks => ks ∖ {[ key ]}) <$> owners p x else owners p x).
Proof.
  intros I. unfold release_chain. set (visit := fun (p : VertexPool) t => decrefChainNode key t p). set (next := chain_next key p).
  assert (HD : forall t, next t <> [] -> t ∈ dom (p_m p)).
  { intros t. subst next. unfold chain_next, Get, Load. destruct (p_m p !! t) eqn:E; [intros _; by eapply elem_of_dom_2|done]. }
  pose proof (dfs_spec (fun _ => false) next visit (dom (p_m p)) HD (dfs_fuel next (dom (p_m p)) (rev tips)) (rev tips) ∅ p (dfs_fuel_enough _ _ _)) as Hs.
  pose proof (dfs_no_failure (fun p => exists n, seq_inv p n) (fun _ => false) next visit (dfs_fuel next (dom (p_m p)) (rev tips)) (rev tips) ∅ p) as Hf.
  destruct (dfs _ next visit _ _ _ _) as [p'| |]; [|exfalso; apply Hf; [|eauto|done]|done].
  2:{ intros a t [k Ik]. destruct (release_seq a k key t Ik) as (a' & E & Ia & _). eauto. }
  destruct Hs as (order & Ho & Hc). pose proof (cov_nodup _ _ _ _ _ Hc) as Hnd. destruct (release_fold key order p n I Hnd) as (q & Eq & Iq & Kq & Oq).
  assert (q = p') as -> by (unfold visit in Ho; congruence). exists p', order. split_and!; [done|done| | |done].
  - destruct Kq as (Ka & Kb & Kc). split_and!; [done|done|]. etrans; [exact Kc|]. apply Nat.add_le_mono_l. rewrite <- size_dom. rewrite <- (size_list_to_set (C := gset Tip)) by (by apply list.NoDup_filter).
    apply subseteq_size. intros t [Ht _]%elem_of_list_to_set%list_elem_of_filter. by apply elem_of_dom.
  - intros t. rewrite (dfs_covers_iff _ _ _ _ _ Hc). split.
    + intros (_ & x & Hx & Hr). exists x. split; [by apply elem_of_rev_list|]. eapply rtc_subrel; [|exact Hr]. by intros a b [_ ?].
    + intros (x & Hx & Hr). split; [done|]. exists x. split; [by apply elem_of_rev_list|]. eapply rtc_subrel; [|exact Hr]. by intros a b ?.
Qed.

(** A vertex that nobody owns and nobody holds. *)
Definition unneeded (n : Tip -> nat) (x : Tip) (ks : gset bytes) : Prop := ks = ∅ /\ n x = 0%nat /\ isSystemKey (e_key (content x)) = false.

#[global] Instance unneeded_dec n x ks : Decision (unneeded n x ks).
Proof. unfold unneeded. apply _. Defined.

Lemma load_inv p n c t v : pool_inv p n c -> Load p t = Some v -> exists a, p_m p !! t = Some a /\ p_heap p !! a = Some v /\ v_tip v = t.
Proof.
  intros I. unfold Load. destruct (p_m p !! t) as [a|] eqn:Ha; [|done]. cbn. intros Hv. destruct (pi_map _ _ _ I _ _ Ha) as (w & Hw & ?). exists a. split_and!; [done|done|congruence].
Qed.

Lemma zero_refs p n a v : pool_inv p n None -> p_m p !! v_tip v = Some a -> p_heap p !! a = Some v -> v_refs v = 0 <-> v_creationKeys v = ∅ /\ n (v_tip v) = 0%nat.
Proof.
  intros I Ha Hv. destruct (Z.lt_ge_cases (v_refs v) 0) as [Hr|Hr]; [by destruct (pi_dead _ _ _ I a v Hv Hr) as [_ ?%(fun f => f Ha)]|].
  destruct (pi_live _ _ _ I a v Hv Hr) as [_ ->]. split.
  - intros Hz. split; [apply leibniz_equiv, size_empty_inv; lia|lia].
  - intros [-> ->]. by rewrite size_empty.
Qed.

(** One candidate. *)
Lemma reclaim_one p n t a : pool_inv p n None -> p_m p !! t = Some a ->
  let p' := claimAndDelete Deleted t a p in
  pool_inv p' n None /\ p_queue p' = p_queue p /\ p_pending p' = p_pending p
  /\ forall x, owners p' x = match owners p x with Some ks => if decide (x = t /\ unneeded n x ks) then None else Some ks | None => None end.
Proof.
  intros I Ha. destruct (pi_map _ _ _ I _ _ Ha) as (v & Hv & Hvt). cbn zeta. unfold claimAndDelete. destruct (claim a p) as [p1|] eqn:Ec.
  - assert (He : examine t p = (p1, Some (t, a))) by (unfold examine; by rewrite Ha, Ec). destruct (examine_good _ _ _ _ _ I He) as (I1 & _ & Hq & Hp).
    destruct (delete_vertex Deleted t p1) as [p2 due] eqn:Ed. destruct (delete_good _ _ _ _ _ _ _ I1 Ed) as (I2 & _ & Hq2 & Hp2). cbn [fst snd].
    assert (due = [] /\ p_m p2 = delete t (p_m p1) /\ p_heap p2 = p_heap p1) as (-> & Em & Eh).
    { revert Ed. unfold delete_vertex. destruct (p_mirror p1); intros [= <- <-]; done. }
    change (enqueue_all [] p2) with p2. split_and!; [done|congruence|congruence|]. intros x. revert Ec. unfold claim. rewrite Hv. destruct (isSystemKey _) eqn:Es; [done|].
    destruct (Z.eqb_spec (v_refs v) 0) as [Hz|]; [|done]. intros [= <-]. unfold owners, Load. rewrite Em, Eh. rewrite (update_insert _ _ _ _ Hv). cbn [set_heap p_m p_heap].
    destruct (decide (x = t)) as [->|Hne].
    + rewrite lookup_delete_eq, Ha. cbn. rewrite Hv. cbn. rewrite decide_True; [done|]. split; [done|]. subst t. apply (zero_refs p n a v I Ha Hv) in Hz as [? ?]. unfold unneeded. rewrite <- (pi_content _ _ _ I a v Hv). done.
    + rewrite lookup_delete_ne by done. destruct (p_m p !! x) as [b|] eqn:Hb; [|done]. cbn. destruct (pi_map _ _ _ I _ _ Hb) as (w & Hw & Hwx). rewrite lookup_insert_ne by congruence. rewrite Hw. cbn. rewrite decide_False; [done|tauto].
  - split_and!; [done|done|done|]. intros x. destruct (owners p x) as [ks|] eqn:Eo; [|done]. rewrite decide_False; [done|]. intros (-> & Hk & Hn & Hs). subst t.
    unfold owners, Load in Eo. rewrite Ha in Eo. cbn in Eo. rewrite Hv in Eo. injection Eo as Eo. revert Ec. unfold claim. rewrite Hv, (pi_content _ _ _ I a v Hv), Hs.
    rewrite (proj2 (Z.eqb_eq (v_refs v) 0)); [done|]. apply (zero_refs p n a v I Ha Hv). split; [congruence|done].
Qed.

Lemma drain_seq q p n : pool_inv p n None -> p_queue p = q ->
  let p' := drain (length q) (fun _ => Deleted) p in
  pool_inv p' n None /\ p_queue p' = [] /\ p_pending p' = p_pending p
  /\ forall x, owners p' x = match owners p x with Some ks => if decide (x ∈ q /\ unneeded n x ks) then None else Some ks | None => None end.
Proof.
  revert p. induction q as [|t q IH]; intros p I Hq; cbn [length drain].
  - split_and!; [done|done|done|]. intros x. destruct (owners p x); [|done]. rewrite decide_False; [done|]. intros [?%elem_of_nil _]. done.
  - rewrite Hq. set (p0 := dequeue p). assert (I0 : pool_inv p0 n None) by by apply inv_queue.
    set (p1 := match p_m p0 !! t with Some a => claimAndDelete Deleted t a p0 | None => p0 end).
    assert (H1 : pool_inv p1 n None /\ p_queue p1 = q /\ p_pending p1 = p_pending p
      /\ forall x, owners p1 x = match owners p x with Some ks => if decide (x = t /\ unneeded n x ks) then None else Some ks | None => None end).
    { subst p1. assert (Hq0 : p_queue p0 = q) by (subst p0; cbn; by rewrite Hq). destruct (p_m p0 !! t) as [a|] eqn:Ha.
      - destruct (reclaim_one p0 n t a I0 Ha) as (? & ? & ? & ?). split_and!; [done|congruence|done|done].
      - split_and!; [done|done|done|]. intros x. change (owners p0 x) with (owners p x). destruct (owners p x) as [ks|] eqn:Eo; [|done]. rewrite decide_False; [done|]. intros [-> _].
        unfold owners, Load in Eo. change (p_m p0) with (p_m p) in Ha. by rewrite Ha in Eo. }
    destruct H1 as (I1 & Hq1 & Hp1 & O1). destruct (IH p1 I1 Hq1) as (I2 & Hq2 & Hp2 & O2). split_and!; [done|done|congruence|]. intros x. rewrite O2, O1.
    destruct (owners p x) as [ks|]; [|done]. destruct (decide (x = t /\ unneeded n x ks)) as [[-> Hu]|Hno].
    + rewrite decide_True; [done|]. split; [constructor|done].
    + destruct (decide (x ∈ q /\ unneeded n x ks)) as [[? ?]|Hno2]; [rewrite decide_True; [done|]; split; [by constructor|done]|]. rewrite decide_False; [done|]. rewrite elem_of_cons. tauto.
Qed.

Lemma drainReclaim_seq p n : seq_inv p n -> Z.of_nat (length (p_queue p)) < 2 ^ 63 ->
  let p' := drainReclaim (fun _ => Deleted) p in
  seq_inv p' n /\ p_queue p' = []
  /\ forall x, owners p' x = match owners p x with Some ks => if decide (unneeded n x ks) then None else Some ks | None => None end.
Proof.
  intros I Hl. cbn zeta. unfold drainReclaim. rewrite (sq_pending _ _ I), wrap64_id, Nat2Z.id by (unfold is_int64, min_int64, max_int64; lia).
  destruct (drain_seq (p_queue p) (set_queue (p_queue p) 0 p) n) as (I' & Hq & Hp & O); [apply inv_queue, I|done|].
  assert (O' : forall x, owners (drain (length (p_queue p)) (fun _ => Deleted) (set_queue (p_queue p) 0 p)) x = match owners p x with Some ks => if decide (unneeded n x ks) then None else Some ks | None => None end).
  { intros x. rewrite O. change (owners (set_queue (p_queue p) 0 p) x) with (owners p x). destruct (owners p x) as [ks|] eqn:Eo; [|done]. destruct (decide (unneeded n x ks)) as [Hu|Hu]; [rewrite decide_True; [done|]; split; [|done]|rewrite decide_False; [done|tauto]].
    unfold owners in Eo. destruct (Load p x) as [v|] eqn:El; [|done]. injection Eo as Ek. destruct (load_inv _ _ _ _ _ (sq_pool _ _ I) El) as (a & Ha & Hv & <-). destruct Hu as (Hk & Hn & Hs).
    apply (sq_listed _ _ I a v Hv); [|by rewrite (pi_content _ _ _ (sq_pool _ _ I) a v Hv)]. apply (zero_refs p n a v (sq_pool _ _ I) Ha Hv). split; [congruence|done]. }
  split_and!; [|done|exact O']. split; [done| |rewrite Hq, Hp; done]. rewrite Hq. intros a v Hv Hr Hs. exfalso.
  destruct (pi_live _ _ _ I' a v Hv ltac:(lia)) as [Ha _]. pose proof (proj1 (zero_refs _ _ _ _ I' Ha Hv) Hr) as [Hk Hn].
  specialize (O' (v_tip v)). unfold owners at 1, Load at 1 in O'. rewrite Ha in O'. cbn in O'. rewrite Hv in O'. cbn in O'. destruct (owners p (v_tip v)) as [ks|]; [|done]. case_decide as Hu; [done|]. apply Hu.
  injection O' as <-. split_and!; [done|done|]. by rewrite <- (pi_content _ _ _ I' a v Hv).
Qed.

Lemma owners_get p n c x : pool_inv p n c -> Get p x = match owners p x with Some _ => Some (content x) | None => None end.
Proof.
  intros I. unfold Get, owners. destruct (Load p x) as [v|] eqn:El; [|done]. destruct (load_inv _ _ _ _ _ I El) as (a & Ha & Hv & <-). cbn. by rewrite (pi_content _ _ _ I a v Hv).
Qed.

Lemma quiet_seq s : sys_inv s -> y_claim s = None -> y_due s = [] -> y_uncounted s = 0%nat -> y_left s = 0%nat ->
  Z.of_nat (length (p_queue (y_pool s))) < 2 ^ 63 -> seq_inv (y_pool s) (pins s).
Proof.
  intros [I L T Pe Le] Hc Hd Hu Hl Hb. split; [by rewrite <- Hc|by rewrite Hd, app_nil_r in L|]. rewrite wrap64_id by (unfold is_int64, min_int64, max_int64; lia). lia.
Qed.

(** *** Publishing a subdag *)

Definition roomy_all (p : VertexPool) (k : nat) : Prop := forall a, roomy p a k.

Lemma incref_seq p n t k : seq_inv p n -> roomy_all p (S k) ->
  let r := incref t p in
  seq_inv r.1 (if r.2 then fun x => ((if decide (x = t) then 1 else 0) + n x)%nat else n) /\ roomy_all r.1 k /\ (r.2 = true -> is_Some (owners p t)) /\ forall x, owners r.1 x = owners p x.
Proof.
  intros I Hroom. cbn zeta. assert (Hk : roomy_all p k) by (intros a v Hv; specialize (Hroom a v Hv); lia). unfold incref. destruct (p_m p !! t) as [a|] eqn:Ha; [|done].
  destruct (pi_map _ _ _ (sq_pool _ _ I) _ _ Ha) as (v & Hv & Hvt). destruct (incref_at a p) as [p' []] eqn:Ei; cbn [fst snd].
  2:{ assert (p' = p) as -> by (revert Ei; unfold incref_at; rewrite Hv; case_match; by intros [= <-]). done. }
  assert (Ht : is_Some (owners p t)) by (unfold owners, Load; rewrite Ha; cbn; rewrite Hv; eauto).
  assert (G : good p p' (fun x => (if decide (x = t) then 1 else 0) + n x)%nat None []).
  { eapply (incref_good p p' n _ None a v); [apply I|done| |done|by subst t]. intros w Hw. specialize (Hroom a w Hw). lia. }
  split; [exact (enqueue_all_inv p p' n _ [] I G)|]. revert Ei. unfold incref_at. rewrite Hv. destruct (Z.ltb_spec (v_refs v) 0) as [|Hr]; [done|]. intros [= <-]. rewrite (update_insert _ _ _ _ Hv).
  specialize (Hroom a v Hv) as Hra. split_and!; [|done|].
  - intros b w. cbn [set_heap p_heap]. intros [[_ <-]|[_ Hw]]%lookup_insert_Some; [|by eapply Hk]. cbn [set_refs v_refs]. rewrite wrap32_id by lia. lia.
  - intros x. unfold owners, Load. cbn [set_heap p_m p_heap]. destruct (p_m p !! x) as [b|]; [|done]. cbn. destruct (decide (b = a)) as [->|]; [by rewrite lookup_insert_eq, Hv|by rewrite lookup_insert_ne].
Qed.

Lemma pin_all_seq todo : forall taken p n, seq_inv p n -> roomy_all p (length todo) ->
  let '(p', taken', ok) := pin_all taken todo p in
  exists new, taken' = taken ++ new /\ (ok = true -> new = todo) /\ seq_inv p' (fun x => occurrences x new + n x)%nat
  /\ (ok = true -> forall t, t ∈ todo -> is_Some (owners p t)) /\ forall x, owners p' x = owners p x.
Proof.
  induction todo as [|t todo IH]; intros taken p n I Hroom; cbn [pin_all].
  - exists []. rewrite app_nil_r. split_and!; [done|done|done|by intros _ t ?%elem_of_nil|done].
  - pose proof (incref_seq p n t (length todo) I Hroom) as H1. destruct (incref t p) as [p1 []]; cbn in H1; destruct H1 as (I1 & R1 & T1 & O1).
    + specialize (IH (taken ++ [t]) p1 _ I1 R1). destruct (pin_all (taken ++ [t]) todo p1) as [[p2 taken2] ok]. destruct IH as (new & -> & Hok & I2 & H2 & O2).
      exists (t :: new). rewrite <- app_assoc. split_and!; [done|by intros ->%Hok| | |].
      * destruct I2 as [Ip ? ?]. split; [|done|done]. eapply inv_pins; [|exact Ip]. intros x. cbn beta. rewrite occurrences_cons. lia.
      * intros E x [->|Hx]%elem_of_cons; [auto|]. rewrite <- O1. auto.
      * intros x. by rewrite O2.
    + exists []. rewrite app_nil_r. split_and!; [done|done|done|done|done].
Qed.

(** A builder that nobody disturbs ends without a panic.  Either the leaf has its
    subdag, pinned, and the references of the displaced one are gone, or nothing
    has changed. *)
Lemma publish_exact (lost : bool) (cs : subdag) (slot : option subdag) (p : VertexPool) (n : Tip -> nat) :
  seq_inv p n -> roomy_all p (length (slot_tips cs)) -> (forall x, occurrences x (match slot with Some old => slot_tips old | None => [] end) <= n x)%nat ->
  exists slot' p', publishSubdag lost cs slot p = Some (slot', p') /\ (forall x, owners p' x = owners p x)
  /\ (slot' = slot /\ seq_inv p' n
       \/ slot' = Some cs /\ lost = false /\ slot <> Some EvictedSubdag
           /\ seq_inv p' (fun x => occurrences x (slot_tips cs) + n x - occurrences x (match slot with Some old => slot_tips old | None => [] end))%nat).
Proof.
  intros I Hroom Hs. unfold publishSubdag. pose proof (pin_all_seq (slot_tips cs) [] p n I Hroom) as Hp. destruct (pin_all [] (slot_tips cs) p) as [[p1 taken] ok].
  destruct Hp as (new & -> & Hok & I1 & _ & O1). cbn [app].
  assert (Hback : forall l, l = new -> exists p', decref_all l p1 = Some p' /\ seq_inv p' n /\ forall x, owners p' x = owners p x).
  { intros l ->. destruct (decref_all_seq new p1 _ n I1 (fun _ => eq_refl)) as (p2 & E & I2 & _ & O2). exists p2. split_and!; [done|done|]. intros x. by rewrite O2. }
  assert (Hroll : forall l, l = new -> exists slot' p', pair slot <$> decref_all l p1 = Some (slot', p') /\ (forall x, owners p' x = owners p x) /\ slot' = slot /\ seq_inv p' n).
  { intros l El. destruct (Hback l El) as (p2 & -> & ? & ?). exists slot, p2. done. }
  destruct ok; [|destruct (Hroll new eq_refl) as (? & ? & ? & ? & ? & ?); eauto 10]. specialize (Hok eq_refl). subst new.
  assert (Hnew : lost = false -> slot <> Some EvictedSubdag -> exists slot' p', pair (Some cs) <$> decref_all (match slot with Some old => slot_tips old | None => [] end) p1 = Some (slot', p')
    /\ (forall x, owners p' x = owners p x) /\ (slot' = slot /\ seq_inv p' n \/ slot' = Some cs /\ lost = false /\ slot <> Some EvictedSubdag
           /\ seq_inv p' (fun x => occurrences x (slot_tips cs) + n x - occurrences x (match slot with Some old => slot_tips old | None => [] end))%nat)).
  { intros Hl He. destruct (decref_all_seq (match slot with Some old => slot_tips old | None => [] end) p1 _ (fun x => occurrences x (slot_tips cs) + n x - occurrences x (match slot with Some old => slot_tips old | None => [] end))%nat I1) as (p2 & -> & I2 & _ & O2).
    { intros x. specialize (Hs x). lia. }
    exists (Some cs), p2. split_and!; [done|intros x; by rewrite O2|right; auto]. }
  destruct (Hroll (slot_tips cs) eq_refl) as (s1 & p2 & E2 & O2 & -> & I2). destruct slot as [[tips topo lca|]|]; [|eauto 10|]; destruct lost; [eauto 10|by apply Hnew|eauto 10|by apply Hnew].
Qed.

(** ** What the pool promises *)

(** [C21] However readers, writers, evictions and the reclaiming consumer
    interleave: a cached subdag materializes, with the effects its references
    name; no count underflows when a reference that is held, or the creation
    reference of a key, is released; an effect leaves the pool only if no key
    owns it, no subdag or goroutine holds it and it is not of a system key; with a
    mirror, every effect a key owns is on disk, and nothing that is on disk is
    missing from the pool; and the consumer never waits for a candidate that is
    not there. *)
Theorem cached_reads_resident (s s' : system) : rtc (pool_step content) system_start s -> pool_step content s s' ->
  (forall leaf tips topo lca, y_leaves s' !! leaf = Some (Cached tips topo lca) -> materializeSubdag topo (y_pool s') = Some (map (fun t => (t, content t)) topo))
  /\ (forall l t, Dropping l ∈ y_threads s' -> t ∈ l -> drop_ref t (y_pool s') <> None)
  /\ (forall key a, release_at key a (y_pool s') <> None)
  /\ (forall t v, Load (y_pool s) t = Some v -> Load (y_pool s') t = None ->
       v_creationKeys v = ∅ /\ isSystemKey (e_key (v_eff v)) = false
       /\ (forall leaf cs, y_leaves s !! leaf = Some cs -> t ∉ slot_tips cs) /\ (forall th, th ∈ y_threads s -> t ∉ held th))
  /\ (forall m t, p_mirror (y_pool s') = Some m ->
       (forall v, Load (y_pool s') t = Some v -> v_creationKeys v <> ∅ -> exists d, m !! t = Some d /\ UnmarshalEffect d = Some (content t))
       /\ (is_Some (m !! t) -> Get (y_pool s') t = Some (content t)))
  /\ (y_left s' <= length (p_queue (y_pool s')))%nat.
Proof.
  intros Hr%reachable_sys Hs. pose proof (step_inv _ _ Hr Hs) as I. split_and!.
  - intros leaf tips topo lca. by apply slot_materializes.
  - intros l t Hl Ht. by apply (droppable _ l).
  - intros key a E. destruct (release_at_eq _ _ _ key a (si_pool _ I)) as [[E' _]|(v & _ & _ & _ & E')]; congruence.
  - intros t v Hl Hl'. destruct (load_inv _ _ _ _ _ (si_pool _ Hr) Hl) as (a & Ha & Hv & Hvt). destruct (step_map _ _ _ _ Hs Ha) as [Ha'|[b Hb]].
    { unfold Load in Hl'. rewrite Ha' in Hl'. cbn in Hl'. destruct (pi_map _ _ _ (si_pool _ I) _ _ Ha') as (w & Hw & _). congruence. }
    destruct (pi_claim _ _ _ (si_pool _ Hr) t b Hb) as (Ha2 & w & Hw & Hwr & Hws). assert (b = a) as -> by congruence. assert (w = v) as -> by congruence.
    destruct (pi_dead _ _ _ (si_pool _ Hr) a v Hv Hwr) as [Hk _]. assert (Hn : pins s t = 0%nat).
    { destruct (pins s t) eqn:E; [done|]. destruct (pi_pins _ _ _ (si_pool _ Hr) t ltac:(lia)) as (b & w & Hb' & Hw' & ?). assert (b = a) as -> by congruence. assert (w = v) as -> by congruence. lia. }
    unfold pins in Hn. split_and!; [done|done| |].
    + intros leaf cs Hc Ht. pose proof (slot_pins_lookup t leaf cs _ Hc). pose proof (occurrences_elem t _ Ht). lia.
    + intros th Hth Ht. apply list_elem_of_split in Hth as (ts1 & ts2 & Hts). rewrite Hts in Hn. autorewrite with pins in Hn. pose proof (occurrences_elem t _ Ht). lia.
  - intros m t Hm. destruct (pi_mirror _ _ _ (si_pool _ I) m Hm) as [R1 R2]. split.
    + intros v Hl Hk. destruct (load_inv _ _ _ _ _ (si_pool _ I) Hl) as (a & Ha & Hv & <-). destruct (R2 a v Hv Hk) as [d Hd]. exists d. split; [done|]. by apply R1.
    + intros [d Hd]. destruct (R1 t d Hd) as [[a Ha] _]. rewrite (owners_get _ _ _ _ (si_pool _ I)). unfold owners, Load. rewrite Ha. cbn. by destruct (pi_map _ _ _ (si_pool _ I) _ _ Ha) as (v & -> & _).
  - pose proof (si_length _ I). pose proof (si_pending _ I). lia.
Qed.

(** [C22] Evicting a key frees exactly what only that key needed.  When nobody
    disturbs it, releasing the cached subdag and the creation references of the
    key along its history, and then draining the candidates, does not panic, ends,
    and leaves resident an effect that was if and only if it belongs to a system
    key, another subdag or goroutine holds it, another key owns it, or the evicted
    key does and its tips do not reach it.  No candidate is left over. *)
Theorem eviction_exact (s : system) (key : bytes) (tips : list Tip) (ls : option (option subdag)) :
  rtc (pool_step content) system_start s -> y_claim s = None -> y_due s = [] -> y_uncounted s = 0%nat -> y_left s = 0%nat ->
  (forall cs, ls = Some (Some cs) -> exists leaf, y_leaves s !! leaf = Some cs) ->
  let topo := match ls with Some (Some cs) => slot_tips cs | _ => [] end in
  Z.of_nat (length (p_queue (y_pool s)) + length topo + size (p_m (y_pool s))) < 2 ^ 63 ->
  exists p, releaseChainRefs key tips ls (y_pool s) = Done ((fun _ => Some EvictedSubdag) <$> ls, p)
  /\ p_queue (drainReclaim (fun _ => Deleted) p) = []
  /\ forall t e, Get (drainReclaim (fun _ => Deleted) p) t = Some e <->
       e = content t /\ exists v, Load (y_pool s) t = Some v
       /\ (isSystemKey (e_key (content t)) = true \/ (occurrences t topo < pins s t)%nat
            \/ exists k, k ∈ v_creationKeys v /\ (k <> key \/ ~ exists x, x ∈ tips /\ rtc (fun a b => b ∈ chain_next key (y_pool s) a) x t)).
Proof.
  intros Hr%reachable_sys Hc Hd Hu Hl Hls topo Hb. pose proof (quiet_seq s Hr Hc Hd Hu Hl ltac:(lia)) as I.
  assert (Hle : forall t, (occurrences t topo <= pins s t)%nat).
  { intros t. subst topo. destruct ls as [[cs|]|]; [|cbn; lia|cbn; lia]. destruct (Hls cs eq_refl) as [leaf Hleaf]. pose proof (slot_pins_lookup t leaf cs _ Hleaf). unfold pins. lia. }
  destruct (decref_all_seq topo (y_pool s) (pins s) (fun x => pins s x - occurrences x topo)%nat I) as (p1 & E1 & I1 & K1 & O1); [intros x; specialize (Hle x); lia|].
  destruct (release_chain_seq key tips p1 _ I1) as (p2 & order & E2 & I2 & K2 & Hord & O2). exists p2. split; [unfold releaseChainRefs; fold topo; rewrite E1; cbn; by rewrite E2|].
  destruct K1 as (Km1 & _ & Kq1). destruct K2 as (_ & _ & Kq2). rewrite Km1 in Kq2.
  destruct (drainReclaim_seq p2 _ I2 ltac:(lia)) as (I3 & Hq3 & O3). split; [done|]. intros t e. rewrite (owners_get _ _ _ t (sq_pool _ _ I3)), O3, O2, O1.
  assert (Hnext : forall x, chain_next key p1 x = chain_next key (y_pool s) x).
  { intros x. unfold chain_next. by rewrite (owners_get _ _ _ x (sq_pool _ _ I1)), (owners_get _ _ _ x (sq_pool _ _ I)), O1. }
  assert (Hreach : t ∈ order <-> exists x, x ∈ tips /\ rtc (fun a b => b ∈ chain_next key (y_pool s) a) x t).
  { rewrite Hord. split; intros (x & ? & Hx); exists x; (split; [done|]); (eapply rtc_subrel; [|exact Hx]); intros a b; cbv beta; by rewrite Hnext. }
  setoid_rewrite <- Hreach. unfold owners. specialize (Hle t). destruct (Load (y_pool s) t) as [v|]; cbn [fmap option_fmap option_map].
  2:{ replace (if decide (t ∈ order) then None else None : option (gset bytes)) with (None : option (gset bytes)) by (by case_decide). split; [done|]. by intros (_ & ? & ? & _). }
  set (ks := if decide (t ∈ order) then v_creationKeys v ∖ {[ key ]} else v_creationKeys v).
  replace (if decide (t ∈ order) then Some (v_creationKeys v ∖ {[ key ]}) else Some (v_creationKeys v)) with (Some ks) by (subst ks; by case_decide).
  assert (Hks : ks <> ∅ <-> exists k, k ∈ v_creationKeys v /\ (k <> key \/ t ∉ order)).
  { subst ks. split.
    - intros [k Hk]%set_choose_L. exists k. case_decide; set_solver.
    - intros (k & Hk & Ho). case_decide; set_solver. }
  destruct (decide (unneeded _ t ks)) as [(Hk0 & Hn0 & Hs0)|Hno].
  - split; [done|]. intros (-> & v' & [= <-] & [?|[?|Hex]]); [congruence|lia|]. by apply Hks in Hex.
  - split; [|by intros [-> _]]. intros [= <-]. split; [done|]. exists v. split; [done|]. destruct (isSystemKey (e_key (content t))) eqn:Es; [by left|right].
    destruct (decide (ks = ∅)) as [Hk|Hk]; [left|right; by apply Hks]. destruct (decide (pins s t - occurrences t topo = 0)%nat) as [Hn|]; [|lia]. by destruct Hno.
Qed.

End Inv.

(** ** The governor *)

Section Governor.
Context {E : Type}.
Variables (ResidentBytes Size : E -> Z) (EvictBatch : Z -> E -> E * Z) (reclaimUnreferenced : E -> E).
(** A batch is at most what was asked for. *)
Hypothesis batch_bound : forall want e, 0 < want -> 0 <= (EvictBatch want e).2 <= want.

Lemma drain_budget_bounds fuel maxKeys (g : governor (E := E)) : 0 <= maxKeys -> 0 <= gv_evictBudget g ->
  let g' := drainEvictBudget EvictBatch fuel maxKeys g in 0 <= gv_evictBudget g' /\ gv_evictBudget g - maxKeys <= gv_evictBudget g' <= gv_evictBudget g.
Proof.
  revert maxKeys g. induction fuel as [|fuel IH]; intros maxKeys g Hm Hb; cbn [drainEvictBudget]; [lia|]. destruct (_ || _) eqn:Eo; [lia|]. apply orb_false_iff in Eo as [E1%Z.leb_gt E2%Z.leb_gt].
  assert (Hw : 0 < Z.min (Z.min (gv_evictBudget g) maxKeys) evictBatchSize) by (unfold evictBatchSize; lia). pose proof (batch_bound _ (gv_engine g) Hw) as Hn.
  destruct (EvictBatch _ _) as [e n]. cbn [snd] in Hn. destruct (Z.eqb_spec n 0); [cbn; lia|]. specialize (IH (maxKeys - n) (with_engine e (gv_evictBudget g - n) g)). cbn [with_engine gv_evictBudget] in IH. lia.
Qed.

Lemma pressure_exact over (g : governor (E := E)) : (gv_pressure (setMemoryPressure over g) <> None <-> over = true) /\ gv_engine (setMemoryPressure over g) = gv_engine g
  /\ (forall c, gv_pressure g = Some c -> over = false -> c ∈ gv_closed (setMemoryPressure over g)).
Proof. unfold setMemoryPressure. destruct over, (gv_pressure g) eqn:Ep; cbn; rewrite ?Ep; split_and!; try done; intros c [= <-] _; set_solver. Qed.

Lemma rounds_bounds target fuel : forall remaining (g : governor (E := E)), 0 <= remaining -> (Z.to_nat remaining < fuel)%nat ->
  (gv_pressure g <> None <-> target < ResidentBytes (gv_engine g)) ->
  let '(g', n, v) := evict_rounds ResidentBytes Size EvictBatch reclaimUnreferenced fuel target remaining g in
  0 <= n <= remaining /\ (v = Relieved -> ResidentBytes (gv_engine g') <= target) /\ (v = Exhausted -> n = remaining)
  /\ (v <> Stuck -> gv_pressure g' <> None <-> target < ResidentBytes (gv_engine g')).
Proof.
  induction fuel as [|fuel IH]; intros remaining g Hr Hf Hp; [lia|]. cbn [evict_rounds]. destruct (Z.leb_spec (ResidentBytes (gv_engine g)) target); [done|]. destruct (Z.leb_spec remaining 0); [split_and!; [lia|lia|done|intros _; lia|done]|].
  destruct (Size (gv_engine g) =? 0); [done|]. set (want := Z.min _ remaining). assert (Hw : 0 < want <= remaining) by (unfold want, evictBatchSize; lia). clearbody want.
  pose proof (drain_budget_bounds (Z.to_nat want) want (with_engine (gv_engine g) want g) ltac:(lia) ltac:(cbn; lia)) as (Hb1 & Hb2). cbn zeta in *. set (g1 := drainEvictBudget _ _ _ _) in *. cbn [with_engine gv_evictBudget] in Hb2.
  destruct (Z.leb_spec (want - gv_evictBudget g1) 0); [split_and!; [lia|lia|done|done|done]|].
  set (g2 := with_engine (reclaimUnreferenced (gv_engine g1)) (gv_evictBudget g1) g1). destruct (pressure_exact (target <? ResidentBytes (gv_engine g2)) g2) as (Hpr & He & _). set (g3 := setMemoryPressure _ g2) in *.
  specialize (IH (remaining - (want - gv_evictBudget g1)) g3 ltac:(lia) ltac:(lia)). rewrite He in IH. specialize (IH ltac:(rewrite Hpr, Z.ltb_lt; done)).
  destruct (evict_rounds _ _ _ _ fuel target _ g3) as [[g' n] v]. destruct IH as (? & ? & Hex & ?). split_and!; [lia|lia|done|intros Hv; specialize (Hex Hv); lia|done].
Qed.

(** A tick of the governor ends.  It evicts at most 2^18 keys, fewer unless it is
    relieved, runs out of keys or finds nothing to evict; what it was asked to
    evict does not outlive it; and unless it is stuck on pinned keys, writers are
    under pressure if and only if what is resident exceeds the target. *)
Theorem governor_bounded (target : Z) (g : governor (E := E)) :
  let '(g', n, v) := evictToTarget ResidentBytes Size EvictBatch reclaimUnreferenced target g in
  0 <= n <= maxDrainPerTick /\ gv_evictBudget g' = 0 /\ (v = Relieved -> ResidentBytes (gv_engine g') <= target) /\ (v = Exhausted -> n = maxDrainPerTick)
  /\ (v <> Stuck -> gv_pressure g' <> None <-> target < ResidentBytes (gv_engine g')).
Proof.
  unfold evictToTarget. cbv zeta. set (g1 := with_engine _ _ _). destruct (pressure_exact (target <? ResidentBytes (gv_engine g1)) g1) as (Hpr & He & _). set (g2 := setMemoryPressure _ g1) in *.
  assert (Hp : gv_pressure g2 <> None <-> target < ResidentBytes (gv_engine g2)) by (rewrite Hpr, He, Z.ltb_lt; done).
  destruct (Z.ltb_spec target (ResidentBytes (gv_engine g2))); cbn [negb].
  - pose proof (rounds_bounds target (S (Z.to_nat maxDrainPerTick)) maxDrainPerTick g2 ltac:(done) ltac:(lia) Hp) as Hr. destruct (evict_rounds _ _ _ _ _ _ _ _) as [[g' n] v]. cbn [with_engine gv_evictBudget gv_engine gv_pressure]. tauto.
  - cbn [with_engine gv_evictBudget gv_engine gv_pressure]. split_and!; [done|done|done|done|done|done].
Qed.

End Governor.
