(* ===== verification/Restore.v ===== *)
(** * Restoring a node from its mirror (effects/durability.go)

    A start reads every record of the mirror into the pool and rebuilds the
    frontier of every key from the edges of what it read: a tip of a key is an
    effect that no other record consumes on that key.  Files are read in
    parallel, so a record can be seen before or after the one that consumes it;
    [MapRange] leaves the order open.

    The edges are kept in 256 shards of a map from keys to tips; a shard is the
    part of one map with the hashes of its keys.  The index and the filter of the
    node's keys are new and empty.  What the program reads of the heap while it
    recovers is the parameter [interrupt]: a cancelled recovery drops what it has
    built, and [openDurability] says what happens then. *)

From S2P Require Import Durability Prelude Golib Proto Store Walk Wire TipSet Pool.

Abbreviation recovery_edges := (gmap bytes (gmap Tip bool)).

(** [true]: present and so far not consumed. *)
Definition see (id : Tip) (tips : gmap Tip bool) : gmap Tip bool :=
  match tips !! id with Some _ => tips | None => <[ id := true ]> tips end.

Definition consume (tips : gmap Tip bool) (dep : Tip) : gmap Tip bool := <[ dep := false ]> tips.

Definition add_edges (key : bytes) (id : Tip) (deps : list Tip) (extra : option Tip) (es : recovery_edges) : recovery_edges :=
  let tips := fold_left consume deps (see id (default ∅ (es !! key))) in
  <[ key := match extra with Some t => consume tips t | None => tips end ]> es.

(** A bind is an effect on each of its keys. *)
Definition effect_edges (id : Tip) (eff : Effect) (es : recovery_edges) : recovery_edges :=
  match get_txn_bind eff with
  | Some b =>
      match tb_keys b with
      | [] => add_edges (e_key eff) id (e_deps eff) None es
      | ks => fold_left (fun es kb => add_edges (kb_key kb) id (kb_consumed_tips kb) (Some (kb_new_tip kb)) es) ks es
      end
  | None => add_edges (e_key eff) id (e_deps eff) None es
  end.

(** The parts of the engine that recovery fills. *)
Record node := mkNode {
  n_pool : VertexPool;
  n_index : gmap bytes TipSet;
  n_addr : Z;
  n_filter : list bytes;                   (* ownFilterAdd, in order *)
}.

Definition empty_node : node := mkNode newVertexPool ∅ 0 [].

Inductive restore_error := Undecodable (id : Tip) | StoreFailed (err : dur_error) | OutOfMemory | Cancelled.

Section Restore.
Context `{!MapRange, !ProtoCodec Effect}.

Definition restore_record (rec : Tip * bytes) (st : VertexPool * recovery_edges) : VertexPool * recovery_edges + restore_error :=
  match UnmarshalEffect rec.2 with
  | None => inr (Undecodable rec.1)
  | Some eff =>
      match PutSized true rec.1 eff st.1 with
      | None => inr (StoreFailed OsFailure)
      | Some p => inl (p, effect_edges rec.1 eff st.2)
      end
  end.

Fixpoint restore_records (l : list (Tip * bytes)) (st : VertexPool * recovery_edges) : VertexPool * recovery_edges + restore_error :=
  match l with
  | [] => inl st
  | rec :: l => match restore_record rec st with inl st => restore_records l st | inr err => inr err end
  end.

Definition live_tips (candidates : gmap Tip bool) : list Tip := map fst (filter (fun p => p.2 = true) (map_range 23 candidates)).

(** The index takes the tips if the key is not there. *)
Definition install_key (nd : node) (p : bytes * gmap Tip bool) : node :=
  match live_tips p.2 with
  | [] => nd
  | tips =>
      let ix := match n_index nd !! p.1 with None => <[ p.1 := NewTipSet (n_addr nd) tips ]> (n_index nd) | Some _ => n_index nd end in
      mkNode (n_pool nd) ix (n_addr nd + 1) (n_filter nd ++ [p.1])
  end.

(** [interrupt]: why the recovery was cancelled, if it was. *)
Definition restoreEffects (interrupt : option restore_error) (recovered : list (Tip * bytes) * option dur_error) : node + restore_error :=
  match interrupt with
  | Some cause => inr cause
  | None =>
      match restore_records recovered.1 (newVertexPool, ∅) with
      | inr err => inr err
      | inl (p, es) =>
          match recovered.2 with
          | Some err => inr (StoreFailed err)
          | None => inl (fold_left install_key (map_range 24 es) (mkNode p ∅ 0 []))
          end
      end
  end.

(** *** Opening *)

(** The records of an open store. *)
Definition store_records (s : DurStore) : gmap Tip bytes := list_to_map (Recover s).1.

(** The mirror is attached when everything is restored. *)
Definition attach (s : DurStore) (nd : node) : node :=
  mkNode (set_mirror (Some (store_records s)) (n_pool nd)) (n_index nd) (n_addr nd) (n_filter nd).

(** A start succeeds, or fails and leaves the files of the directory, or those of
    a store that was open, behind. *)
Inductive start :=
  | Ready (nd : node) (s : DurStore)
  | Refused (err : restore_error) (files : list (bytes * dirent) + DurStore).

(** Memory did not suffice: after a grace period the mirror is deleted.  [s]: the
    store, if it was open already. *)
Definition discard_mirror (os : Os) (cancelled : bool) (dir : list (bytes * dirent)) (s : option DurStore) : start :=
  if cancelled then Refused Cancelled (inl dir)
  else
    match s with
    | Some s => match Reset os s with (s, None) => Ready (attach s empty_node) s | (s, Some err) => Refused (StoreFailed err) (inr s) end
    | None =>
        match Discard dir with
        | (dir, Some err) => Refused (StoreFailed err) (inl dir)
        | (dir, None) => match OpenContext os dir with inl s => Ready (attach s empty_node) s | inr err => Refused (StoreFailed err) (inl dir) end
        end
    end.

(** [stop]: that and why the recovery was cancelled, [true] while the files were
    being opened; [cancelled]: whether the caller gave up during the grace period;
    [os2]: the answers of the system after it. *)
Definition openDurability (os os2 : Os) (stop : option (bool * restore_error)) (cancelled : bool) (dir : list (bytes * dirent)) : start :=
  let failed err s := match err with OutOfMemory => discard_mirror os2 cancelled dir s | _ => Refused err (inl dir) end in
  match stop with
  | Some (true, cause) => failed cause None
  | _ =>
      match OpenContext os dir with
      | inr err => Refused (StoreFailed err) (inl dir)
      | inl s =>
          match restoreEffects (snd <$> stop) (Recover s) with
          | inl nd => Ready (attach s nd) s
          | inr err => failed err (Some s)
          end
      end
  end.

End Restore.
