(* ===== verification/RestoreProps.v ===== *)
(** * What a restart brings back *)

From S2P Require Import Durability Prelude Golib Proto Store Walk Wire WireProps TipSet Pool PoolProps Restore.

(** What an effect consumes on a key. *)
Definition consumed_by (key : bytes) (ks : list KeyBind) : list Tip :=
  flat_map (fun kb => if decide (kb_key kb = key) then kb_consumed_tips kb ++ [kb_new_tip kb] else []) ks.

Definition consumed_on (key : bytes) (eff : Effect) : list Tip :=
  match get_txn_bind eff with
  | Some b => match tb_keys b with [] => if decide (e_key eff = key) then e_deps eff else [] | ks => consumed_by key ks end
  | None => if decide (e_key eff = key) then e_deps eff else []
  end.

(** ** The edges *)

Definition edge (es : recovery_edges) (key : bytes) (t : Tip) : option bool := default ∅ (es !! key) !! t.

(** An edge after [gone] consumed it or not, and [here] saw it or not. *)
Definition joined (gone here : Prop) `{!Decision gone, !Decision here} (old : option bool) : option bool :=
  if decide gone then Some false else match old with Some b => Some b | None => if decide here then Some true else None end.

Lemma joined_twice (g1 h1 g2 h2 g h : Prop) `{!Decision g1, !Decision h1, !Decision g2, !Decision h2, !Decision g, !Decision h} old :
  (g <-> g1 \/ g2) -> (h <-> h1 \/ h2) -> joined g2 h2 (joined g1 h1 old) = joined g h old.
Proof. intros Hg Hh. unfold joined. repeat case_decide; try tauto; destruct old; tauto. Qed.

Lemma joined_iff (g h g' h' : Prop) `{!Decision g, !Decision h, !Decision g', !Decision h'} old : (g <-> g') -> (h <-> h') -> joined g h old = joined g' h' old.
Proof. intros Hg Hh. unfold joined. repeat case_decide; try tauto; destruct old; tauto. Qed.

Lemma consume_all_lookup deps tips t : fold_left consume deps tips !! t = if decide (t ∈ deps) then Some false else tips !! t.
Proof.
  revert tips. induction deps as [|d deps IH]; intros tips; cbn [fold_left]; [by rewrite decide_False by apply not_elem_of_nil|].
  rewrite IH. unfold consume. destruct (decide (t ∈ deps)); [rewrite decide_True by (by constructor); done|]. destruct (decide (t = d)) as [->|Hne].
  - rewrite decide_True by constructor. by rewrite lookup_insert_eq.
  - rewrite decide_False by (rewrite elem_of_cons; tauto). by rewrite lookup_insert_ne.
Qed.

Lemma see_lookup id tips t : see id tips !! t = match tips !! t with Some b => Some b | None => if decide (t = id) then Some true else None end.
Proof.
  unfold see. destruct (tips !! id) eqn:E.
  - destruct (tips !! t) eqn:Et; [done|]. rewrite decide_False; [done|congruence].
  - destruct (decide (t = id)) as [->|]; [by rewrite lookup_insert_eq, E|]. rewrite lookup_insert_ne by done. by destruct (tips !! t).
Qed.

Lemma add_edges_edge key self deps extra es k t :
  edge (add_edges key self deps extra es) k t = joined (k = key /\ t ∈ deps ++ option_list extra) (t = self /\ k = key) (edge es k t).
Proof.
  unfold edge, add_edges, joined. destruct (decide (k = key)) as [->|Hne].
  - rewrite lookup_insert_eq. cbn [default from_option id]. destruct extra as [x|]; cbn [option_list].
    + unfold consume at 1. destruct (decide (t = x)) as [->|Hx]; [rewrite lookup_insert_eq, decide_True by set_solver; done|]. rewrite lookup_insert_ne, consume_all_lookup, see_lookup by done.
      repeat case_decide; try done; set_solver.
    + rewrite app_nil_r, consume_all_lookup, see_lookup. repeat case_decide; try done; tauto.
  - rewrite lookup_insert_ne by done. rewrite decide_False by tauto. destruct (default ∅ (es !! k) !! t); [done|]. rewrite decide_False by tauto. done.
Qed.

Lemma elem_of_consumed_by (t : Tip) k kb ks : t ∈ consumed_by k (kb :: ks) <-> k = kb_key kb /\ t ∈ kb_consumed_tips kb ++ [kb_new_tip kb] \/ t ∈ consumed_by k ks.
Proof. change (consumed_by k (kb :: ks)) with ((if decide (kb_key kb = k) then kb_consumed_tips kb ++ [kb_new_tip kb] else []) ++ consumed_by k ks). destruct (decide (kb_key kb = k)); set_solver. Qed.

Lemma bind_edges_edge id ks es k t :
  edge (fold_left (fun es kb => add_edges (kb_key kb) id (kb_consumed_tips kb) (Some (kb_new_tip kb)) es) ks es) k t
  = joined (t ∈ consumed_by k ks) (t = id /\ k ∈ map kb_key ks) (edge es k t).
Proof.
  revert es. induction ks as [|kb ks IH]; intros es; cbn [fold_left].
  - unfold joined. rewrite decide_False by apply not_elem_of_nil. destruct (edge es k t); [done|]. rewrite decide_False; [done|]. intros [_ ?%elem_of_nil]. done.
  - rewrite IH, add_edges_edge. apply joined_twice; [apply elem_of_consumed_by|]. cbn [map]. rewrite elem_of_cons. tauto.
Qed.

Lemma effect_edges_edge id eff es k t :
  edge (effect_edges id eff es) k t = joined (t ∈ consumed_on k eff) (t = id /\ k ∈ creation_keys eff) (edge es k t).
Proof.
  assert (Hplain : edge (add_edges (e_key eff) id (e_deps eff) None es) k t = joined (t ∈ if decide (e_key eff = k) then e_deps eff else []) (t = id /\ k ∈ [e_key eff]) (edge es k t)).
  { rewrite add_edges_edge. apply joined_iff; cbn [option_list]; [rewrite app_nil_r; case_decide; [subst; tauto|rewrite elem_of_nil; naive_solver]|rewrite list_elem_of_singleton; tauto]. }
  unfold effect_edges, consumed_on, creation_keys. destruct (get_txn_bind eff) as [b|]; [|done]. destruct (tb_keys b) as [|kb ks]; [done|]. apply bind_edges_edge.
Qed.

(** ** Records *)

Section Props.
Context `{!MapRange, !ProtoCodec Effect}.

Definition recovered (l : list (Tip * bytes)) (t : Tip) (eff : Effect) : Prop := exists d, (t, d) ∈ l /\ UnmarshalEffect d = Some eff.

(** A pool at rest. *)
Definition at_rest (p : VertexPool) : system := mkSystem p ∅ [] [] 0 0 None.

Definition all_keys (eff : Effect) : gset bytes := list_to_set (creation_keys eff).

Lemma creation_keys_some eff : creation_keys eff <> [].
Proof. unfold creation_keys. destruct (get_txn_bind eff) as [b|]; [|done]. by destruct (tb_keys b). Qed.

Lemma missing_all eff : missingCreationKeys eff ∅ (fun _ => true) = all_keys eff.
Proof. unfold missingCreationKeys, all_keys. apply set_eq. intros k. rewrite !elem_of_list_to_set, list_elem_of_filter. set_solver. Qed.

Lemma all_keys_size eff : (size (all_keys eff) =? 0)%nat = false.
Proof.
  apply Nat.eqb_neq. intros E%size_empty_inv. pose proof (creation_keys_some eff). destruct (creation_keys eff) as [|k ks] eqn:Ek; [done|].
  assert (k ∈ all_keys eff) by (unfold all_keys; rewrite Ek; cbn; set_solver). set_solver.
Qed.

Section Content.
Variable (content : Tip -> Effect).

(** A record read into the pool. *)
Lemma restore_put p tip :
  sys_inv content (at_rest p) -> p_mirror p = None -> p_m p !! tip = None -> Z.of_nat (length (creation_keys (content tip))) < 2 ^ 31 ->
  exists p', PutSized true tip (content tip) p = Some p' /\ pool_step content (at_rest p) (at_rest p') /\ p_mirror p' = None
    /\ (forall x, is_Some (p_m p' !! x) <-> x = tip \/ is_Some (p_m p !! x))
    /\ forall x, owners p' x = if decide (x = tip) then Some (all_keys (content tip)) else owners p x.
Proof.
  intros I Hm Ht Hl. assert (Hp : put true (Some (fun _ => true)) tip (content tip) p = Some ((publish_vertex (Some (fun _ => true)) tip (content tip) p).1, [])).
  { unfold put, persist. rewrite Hm, Ht. unfold publish_vertex. cbn zeta. by rewrite missing_all, all_keys_size. }
  exists (publish_vertex (Some (fun _ => true)) tip (content tip) p).1. split_and!.
  - unfold PutSized, putSized. by rewrite Hp.
  - apply (step_put content true (Some (fun _ => true)) tip _ [] (at_rest p)); [by intros [? _]|done|by intros a ?; simplify_eq/=; congruence|done].
  - done.
  - intros x. cbn [publish_vertex fst p_m]. rewrite lookup_insert_is_Some. destruct (decide (tip = x)) as [->|]; naive_solver.
  - intros x. unfold owners, Load. cbn [publish_vertex fst p_m p_heap]. case_decide as Hx.
    + subst x. rewrite lookup_insert_eq. cbn. rewrite lookup_insert_eq. cbn. by rewrite missing_all.
    + rewrite lookup_insert_ne by done. destruct (p_m p !! x) as [a|] eqn:Ha; [|done]. cbn. destruct (pi_map _ _ _ _ (si_pool _ _ I) x a Ha) as (v & Hv & _). pose proof (pi_next _ _ _ _ (si_pool _ _ I) a v Hv).
      rewrite lookup_insert_ne; [done|]. cbn in *. lia.
Qed.

Lemma restore_all l : forall p es,
  sys_inv content (at_rest p) -> p_mirror p = None -> NoDup l.*1 -> (forall t, t ∈ l.*1 -> p_m p !! t = None) ->
  (forall t d, (t, d) ∈ l -> UnmarshalEffect d = Some (content t) /\ Z.of_nat (length (creation_keys (content t))) < 2 ^ 31) ->
  exists p' es', restore_records l (p, es) = inl (p', es') /\ rtc (pool_step content) (at_rest p) (at_rest p') /\ p_mirror p' = None
    /\ (forall x, owners p' x = if decide (x ∈ l.*1) then Some (all_keys (content x)) else owners p x)
    /\ (forall k t, edge es' k t = joined (Exists (fun x => t ∈ consumed_on k (content x)) l.*1) (t ∈ l.*1 /\ k ∈ creation_keys (content t)) (edge es k t)).
Proof.
  induction l as [|[t d] l IH]; intros p es I Hm Hnd Hfresh Hdec; cbn [restore_records fmap list_fmap].
  - exists p, es. split_and!; [done|done|done| |].
    + intros x. by rewrite decide_False by apply not_elem_of_nil.
    + intros k t. unfold joined. rewrite decide_False by (by intros ?%List.Exists_nil). destruct (edge es k t); [done|]. rewrite decide_False; [done|]. by intros [?%elem_of_nil _].
  - cbn in Hnd. apply list.NoDup_cons in Hnd as [Hnt Hnd]. destruct (Hdec t d ltac:(constructor)) as [Hu Hl]. cbn [fst snd] in *.
    destruct (restore_put p t I Hm (Hfresh t ltac:(constructor)) Hl) as (p1 & Ep & Hs & Hm1 & Hd1 & O1). unfold restore_record. cbn [fst snd]. rewrite Hu, Ep.
    destruct (IH p1 (effect_edges t (content t) es)) as (p2 & es2 & E & Hr & Hm2 & O2 & G2); [by eapply step_inv|done|done| | |].
    { intros x Hx. destruct (p_m p1 !! x) eqn:E; [|done]. assert (is_Some (p_m p1 !! x)) as [->|[? Hs']]%Hd1 by eauto; [done|]. rewrite Hfresh in Hs' by (by constructor). done. }
    { intros x y Hxy. apply Hdec. by constructor. }
    exists p2, es2. split_and!; [done|by eapply rtc_l|done| |].
    + intros x. rewrite O2, O1. destruct (decide (x ∈ l.*1)); [rewrite decide_True by (by constructor); done|]. destruct (decide (x = t)) as [->|]; [rewrite decide_True by constructor; done|].
      rewrite decide_False; [done|]. rewrite elem_of_cons. tauto.
    + intros k x. rewrite G2, effect_edges_edge. apply joined_twice.
      * rewrite List.Exists_cons. tauto.
      * rewrite elem_of_cons. split; [intros [[->|?] ?]; tauto|]. intros [[-> ?]|[? ?]]; tauto.
Qed.

End Content.

(** *** The frontiers *)

Lemma elem_of_live_tips (c : gmap Tip bool) t : t ∈ live_tips c <-> c !! t = Some true.
Proof.
  unfold live_tips. rewrite <- elem_of_map_to_list, <- (map_range_perm 23 c). change (map fst ?l) with (l.*1). rewrite list_elem_of_fmap. split.
  - intros ([x b] & -> & [Hb Hin]%list_elem_of_filter). cbn in *. by subst b.
  - intros Hin. exists (t, true). split; [done|]. by apply list_elem_of_filter.
Qed.

Lemma install_all l : forall nd, NoDup l.*1 -> (forall k, k ∈ l.*1 -> n_index nd !! k = None) ->
  let nd' := fold_left install_key l nd in
  n_pool nd' = n_pool nd
  /\ forall k, (k ∈ n_filter nd' <-> k ∈ n_filter nd \/ exists c, (k, c) ∈ l /\ live_tips c <> [])
      /\ (is_Some (n_index nd' !! k) <-> is_Some (n_index nd !! k) \/ exists c, (k, c) ∈ l /\ live_tips c <> [])
      /\ (forall t, t ∈ Tips (n_index nd' !! k) <-> t ∈ Tips (n_index nd !! k) \/ exists c, (k, c) ∈ l /\ t ∈ live_tips c).
Proof.
  induction l as [|[k0 c0] l IH]; intros nd Hnd Hfresh; cbn [fold_left].
  - split; [done|]. intros k. assert (forall (P : gmap Tip bool -> Prop), ~ exists c, (k, c) ∈ [] /\ P c) as Hn by (intros P (c & ?%elem_of_nil & _); done). pose proof (Hn (fun c => live_tips c <> [])). split_and!; [tauto|tauto|].
    intros t. specialize (Hn (fun c => t ∈ live_tips c)). tauto.
  - cbn in Hnd. apply list.NoDup_cons in Hnd as [Hk0 Hnd]. specialize (Hfresh k0 ltac:(constructor)) as Hf0.
    assert (Hex : forall k (P : gmap Tip bool -> Prop), (exists c, (k, c) ∈ (k0, c0) :: l /\ P c) <-> k = k0 /\ P c0 \/ exists c, (k, c) ∈ l /\ P c).
    { intros k P. split; [intros (c & [[= -> ->]|?]%elem_of_cons & ?); eauto|]. intros [[-> ?]|(c & ? & ?)]; [exists c0; split; [constructor|done]|exists c; split; [by constructor|done]]. }
    set (nd1 := install_key nd (k0, c0)). assert (Ed : nd1 = install_key nd (k0, c0)) by done. clearbody nd1. unfold install_key in Ed. cbn [fst snd] in Ed. destruct (live_tips c0) as [|t0 ts] eqn:El; subst nd1.
    + destruct (IH nd Hnd) as [Hp Hk]; [intros k ?; apply Hfresh; by constructor|]. split; [done|]. intros k. destruct (Hk k) as (H1 & H2 & H3). rewrite !(Hex k (fun c => live_tips c <> [])), El. split_and!; [naive_solver|naive_solver|].
      intros t. rewrite H3, (Hex k (fun c => t ∈ live_tips c)), El. rewrite elem_of_nil. tauto.
    + rewrite Hf0. set (nd1 := mkNode _ _ _ _). destruct (IH nd1 Hnd) as [Hp Hk]; [intros k ?; subst nd1; cbn [n_index]; rewrite lookup_insert_ne; [apply Hfresh; by constructor|by intros <-]|].
      split; [done|]. intros k. destruct (Hk k) as (H1 & H2 & H3). subst nd1. cbn [n_filter n_index] in *. rewrite !(Hex k (fun c => live_tips c <> [])), El. split_and!.
      * rewrite H1, elem_of_app, list_elem_of_singleton. naive_solver.
      * rewrite H2, lookup_insert_is_Some. destruct (decide (k0 = k)) as [->|]; naive_solver.
      * intros t. rewrite H3, (Hex k (fun c => t ∈ live_tips c)), El. destruct (decide (k0 = k)) as [->|Hne].
        -- rewrite lookup_insert_eq, Hf0. cbn [Tips]. rewrite elem_of_NewTipSet. cbn [Tips]. rewrite (elem_of_nil t). tauto.
        -- rewrite lookup_insert_ne by done. naive_solver.
Qed.

Lemma installed es p : let nd := fold_left install_key (map_range 24 es) (mkNode p ∅ 0 []) in
  n_pool nd = p /\ forall k, (k ∈ n_filter nd <-> exists t, edge es k t = Some true) /\ (is_Some (n_index nd !! k) <-> exists t, edge es k t = Some true)
    /\ (forall t, t ∈ Tips (n_index nd !! k) <-> edge es k t = Some true).
Proof.
  cbn zeta. pose proof (map_range_perm 24 es) as Hperm.
  assert (Hin : forall k c, (k, c) ∈ map_range 24 es <-> es !! k = Some c) by (intros k c; by rewrite Hperm, elem_of_map_to_list).
  destruct (install_all (map_range 24 es) (mkNode p ∅ 0 [])) as [Hp Hk]; [|by intros k _; cbn; rewrite lookup_empty|].
  { rewrite Hperm. apply NoDup_fst_map_to_list. }
  split; [done|]. intros k. destruct (Hk k) as (H1 & H2 & H3). cbn [n_filter n_index] in *.
  assert (Hlive : (exists c, (k, c) ∈ map_range 24 es /\ live_tips c <> []) <-> exists t, edge es k t = Some true).
  { unfold edge. split.
    - intros (c & Hc%Hin & Hl). destruct (live_tips c) as [|t ts] eqn:El; [done|]. exists t. rewrite Hc. cbn. apply elem_of_live_tips. rewrite El. constructor.
    - intros [t Ht]. destruct (es !! k) as [c|] eqn:Ec; [|done]. exists c. split; [by apply Hin|]. cbn in Ht. apply elem_of_live_tips in Ht. intros E. rewrite E in Ht. by apply elem_of_nil in Ht. }
  rewrite H1, H2, Hlive, elem_of_nil, lookup_empty. split_and!; [tauto|split; [intros [[? ?]|?]; done|tauto]|]. intros t. rewrite H3, lookup_empty. cbn [Tips]. rewrite elem_of_nil. unfold edge. split.
  - intros [?|(c & Hc%Hin & Hl)]; [done|]. rewrite Hc. by apply elem_of_live_tips.
  - intros Ht. right. destruct (es !! k) as [c|] eqn:Ec; [|done]. exists c. split; [by apply Hin|by apply elem_of_live_tips].
Qed.

(** *** Recovery as a whole *)

Lemma putsized_plain p tip eff : p_mirror p = None -> exists p', PutSized true tip eff p = Some p' /\ p_mirror p' = None.
Proof.
  intros Hm. unfold PutSized, putSized, put, persist. rewrite Hm. destruct (p_m p !! tip) as [a|]; (eexists; split; [reflexivity|]).
  - cbn. unfold take_ownership. by repeat case_match.
  - match goal with |- context [enqueue_all ?l ?q] => destruct (enqueue_all_eq l q) as (_ & _ & -> & _) end. done.
Qed.

Lemma restore_fails l : forall p es err, p_mirror p = None -> restore_records l (p, es) = inr err ->
  exists t d, (t, d) ∈ l /\ UnmarshalEffect d = None /\ err = Undecodable t.
Proof.
  induction l as [|[t d] l IH]; intros p es err Hm; cbn [restore_records]; [done|]. unfold restore_record. cbn [fst snd]. destruct (UnmarshalEffect d) as [eff|] eqn:Eu.
  - destruct (putsized_plain p t eff Hm) as (p' & -> & Hm'). intros (x & y & Hin & ? & ?)%IH; [|done]. exists x, y. split; [by constructor|done].
  - intros [= <-]. exists t, d. split; [constructor|done].
Qed.

Definition no_effect : Effect := mkEffect [] None 0 [] [] [] [] None.

(** The effects of decodable records. *)
Definition content_of (l : list (Tip * bytes)) (t : Tip) : Effect := default no_effect ((list_to_map l : gmap Tip bytes) !! t ≫= UnmarshalEffect).

Lemma content_recovered l t eff : NoDup l.*1 -> recovered l t eff -> content_of l t = eff.
Proof. intros Hnd (d & Hin & Hu). unfold content_of. rewrite (elem_of_list_to_map_1 l t d Hnd Hin). cbn. by rewrite Hu. Qed.

(** What recovery makes of records that decode, with the state it is reached by. *)
Lemma restore_exact content l :
  NoDup l.*1 -> (forall t d, (t, d) ∈ l -> UnmarshalEffect d = Some (content t) /\ Z.of_nat (length (creation_keys (content t))) < 2 ^ 31) ->
  exists nd, restoreEffects None (l, None) = inl nd /\ rtc (pool_step content) system_start (at_rest (n_pool nd)) /\ p_mirror (n_pool nd) = None
    /\ (forall t, owners (n_pool nd) t = if decide (t ∈ l.*1) then Some (all_keys (content t)) else None)
    /\ (forall key t, t ∈ Tips (n_index nd !! key) <-> t ∈ l.*1 /\ key ∈ creation_keys (content t) /\ forall x, x ∈ l.*1 -> t ∉ consumed_on key (content x))
    /\ (forall key, key ∈ n_filter nd <-> is_Some (n_index nd !! key))
    /\ (forall key ts, n_index nd !! key = Some ts -> ts_tips ts <> []).
Proof.
  intros Hnd Hdec. destruct (restore_all content l newVertexPool ∅) as (p & es & E & Hr & Hm & Ho & He); [apply start_inv_pool|done|done|by intros t _|done|].
  unfold restoreEffects. cbn [fst snd]. rewrite E. eexists. split; [done|]. destruct (installed es p) as [Hp Hk]. rewrite Hp.
  assert (Hedge : forall key t, edge es key t = Some true <-> t ∈ l.*1 /\ key ∈ creation_keys (content t) /\ forall x, x ∈ l.*1 -> t ∉ consumed_on key (content x)).
  { intros key t. rewrite He. unfold joined. change (edge ∅ key t) with (None : option bool). destruct (decide (Exists _ _)) as [Hx|Hx]; rewrite list.Exists_exists in Hx.
    - split; [done|]. intros (_ & _ & Hall). destruct Hx as (x & Hin & Hx). by destruct (Hall x Hin).
    - destruct (decide (t ∈ l.*1 /\ key ∈ creation_keys (content t))) as [[? ?]|Hno]; [|split; [done|tauto]]. split; [|done]. intros _. split_and!; [done|done|]. intros x Hin Hc. apply Hx. eauto. }
  split_and!; [done|done|done| | |].
  - intros key t. rewrite <- Hedge. apply Hk.
  - intros key. destruct (Hk key) as (-> & -> & _). done.
  - intros key ts Hts. destruct (Hk key) as (_ & Hs & Ht). destruct (proj1 Hs ltac:(eauto)) as [t Hed]. apply Ht in Hed. rewrite Hts in Hed. cbn [Tips] in Hed. intros E0. rewrite E0 in Hed. by apply elem_of_nil in Hed.
Qed.

(** A frontier reaches all there is of its key. *)
Lemma frontier_reaches (content : Tip -> Effect) (ids : list Tip) (rank : Tip -> nat) (key : bytes) (tips : list Tip) :
  (forall t, t ∈ tips <-> t ∈ ids /\ key ∈ creation_keys (content t) /\ forall x, x ∈ ids -> t ∉ consumed_on key (content x)) ->
  (forall t d, t ∈ ids -> d ∈ consumed_on key (content t) -> (rank d < rank t)%nat) ->
  forall t, t ∈ ids -> key ∈ creation_keys (content t) -> exists f, f ∈ tips /\ rtc (fun x y => x ∈ ids /\ y ∈ consumed_on key (content x)) f t.
Proof.
  intros Ht Hrank. set (M := max_list (map rank ids)).
  assert (HM : forall t, t ∈ ids -> (rank t <= M)%nat) by (intros t Hin; apply max_list_elem_of_le, list_elem_of_In, in_map, list_elem_of_In, Hin).
  assert (Hk : forall x d, d ∈ consumed_on key (content x) -> key ∈ creation_keys (content x)).
  { intros x d. unfold consumed_on, creation_keys. destruct (get_txn_bind (content x)) as [b|].
    - destruct (tb_keys b) as [|kb ks]; [case_decide; [subst; intros _; constructor|by intros ?%elem_of_nil]|]. generalize (kb :: ks). clear kb ks. intros ks. induction ks as [|kb ks IH]; [by intros ?%elem_of_nil|].
      rewrite elem_of_consumed_by. cbn [map]. rewrite elem_of_cons. intros [[-> _]|Hd]; [by left|right; auto].
    - case_decide; [subst; intros _; constructor|by intros ?%elem_of_nil]. }
  assert (Hn : forall n t, (M - rank t <= n)%nat -> t ∈ ids -> key ∈ creation_keys (content t) -> exists f, f ∈ tips /\ rtc (fun x y => x ∈ ids /\ y ∈ consumed_on key (content x)) f t).
  { induction n as [|n IH]; intros t Hn Hin Hkey; (destruct (decide (Exists (fun x => t ∈ consumed_on key (content x)) ids)) as [(x & Hx & Hc)%list.Exists_exists|Hno];
      [|exists t; split; [apply Ht; split_and!; [done|done|]; intros x Hx Hc; apply Hno, list.Exists_exists; eauto|done]]).
    - pose proof (Hrank x t Hx Hc). pose proof (HM x Hx). lia.
    - pose proof (Hrank x t Hx Hc). pose proof (HM x Hx). destruct (IH x) as (f & Hf & Hp); [lia|done|by eapply Hk|]. exists f. split; [done|]. eapply rtc_r; [exact Hp|done]. }
  intros t. by apply (Hn (M - rank t)%nat).
Qed.

Lemma restore_decodes l : forall st st', restore_records l st = inl st' -> forall t d, (t, d) ∈ l -> UnmarshalEffect d <> None.
Proof.
  induction l as [|[t d] l IH]; intros st st'; cbn [restore_records]; [by intros _ t d ?%elem_of_nil|]. unfold restore_record. cbn [fst snd]. destruct (UnmarshalEffect d) as [eff|] eqn:Eu; [|done].
  destruct (PutSized _ _ _ _); [|done]. intros E x y [[= -> ->]|Hin]%elem_of_cons; [congruence|by eapply IH].
Qed.



(** *** Giving up *)

Lemma remove_closed os b b' : Durability.remove os b = (b', None) -> b_file b' = None /\ b_disk b' = None.
Proof. unfold Durability.remove. repeat case_match; intros [= <-]; done. Qed.

Lemma reset_fold os l : forall acc acc',
  fold_left (fun acc (p : Z * Z * bucket) => let (b, err) := (fun b => match b_file b with Some _ => Durability.remove os b | None => (b, None) end) p.2 in
    (mkDurStore (ds_closed acc.1) (<[ p.1 := b ]> (ds_files acc.1)), first_error acc.2 err)) l acc = (acc', None) ->
  acc.2 = None /\ ds_closed acc' = ds_closed acc.1
  /\ forall id b, ds_files acc' !! id = Some b -> b_file b = None \/ ((id ∉ l.*1) /\ ds_files acc.1 !! id = Some b).
Proof.
  induction l as [|[id0 b0] l IH]; intros acc acc'; cbn [fold_left fst snd].
  - intros ->. cbn. split_and!; [done|done|]. intros id b Hb. right. split; [apply not_elem_of_nil|done].
  - destruct (match b_file b0 with Some _ => Durability.remove os b0 | None => (b0, None) end) as [b1 err] eqn:E. intros (He & Hc & Hall)%IH. cbn [fst snd] in *.
    destruct (acc.2) eqn:Ea; [done|]. cbn [first_error] in He. subst err. split_and!; [done|done|]. intros id b Hb. destruct (Hall id b Hb) as [?|[Hnin Hl]]; [by left|].
    cbn [ds_files] in Hl. apply lookup_insert_Some in Hl as [[-> <-]|[Hne Hl]].
    + left. destruct (b_file b0) eqn:Ef; [by apply remove_closed in E as [? _]|]. by injection E as <-.
    + right. split; [|done]. cbn. rewrite elem_of_cons. intros [->|?]; done.
Qed.

Lemma reset_recovers_nothing os s s' : Reset os s = (s', None) -> Recover s' = ([], None).
Proof.
  unfold Reset. destruct (ds_closed s) eqn:Hc; [done|]. unfold on_buckets. intros (_ & Hc' & Hall)%reset_fold. cbn [fst] in *.
  assert (Hfiles : forall id b, ds_files s' !! id = Some b -> b_file b = None).
  { intros id b Hb. destruct (Hall id b Hb) as [?|[Hnin Hb0]]; [done|]. destruct Hnin. apply list_elem_of_fmap. exists (id, b). split; [done|]. by rewrite (map_range_perm 21 (ds_files s)), elem_of_map_to_list. }
  unfold Recover. rewrite Hc', Hc. assert (Hin : forall p, p ∈ map_range 22 (ds_files s') -> b_file p.2 = None).
  { intros [id b]. rewrite (map_range_perm 22 (ds_files s')), elem_of_map_to_list. apply Hfiles. }
  revert Hin. generalize (map_range 22 (ds_files s')). intros l. induction l as [|[id b] l IH]; intros Hin; [done|]. cbn [fold_left snd fst].
  pose proof (Hin (id, b) ltac:(constructor)) as Hb. cbn [snd] in Hb. unfold bucket_recover at 2. rewrite Hb. cbn [map app]. apply IH. intros p Hp. apply Hin. by constructor.
Qed.

Lemma discard_node_rest n files files' : discard_node n files = (files', None) -> (visit_node n files').1 = [].
Proof.
  revert files'. induction files as [|[name content] files IH]; intros files'; cbn [discard_node]; [by intros [= <-]|].
  destruct content as [img|]; [destruct (trim_suffix name) as [stem|] eqn:Et; [destruct (ParseUint stem) as [v|] eqn:Ep; [destruct (fileCount <=? v) eqn:Ev; [|destruct (discardable n v img); [apply IH|done]]|]|]|];
    destruct (discard_node n files) as [k err]; intros [= <- ->]; cbn [visit_node]; rewrite ?Et, ?Ep, ?Ev; try done; by apply IH.
Qed.

Lemma discard_rest dir dir' : Discard dir = (dir', None) -> (visitFiles dir').1 = [].
Proof.
  revert dir'. induction dir as [|[name ent] dir IH]; intros dir'; cbn [Discard]; [by intros [= <-]|].
  destruct ent as [img|files]; [|destruct (ParseUint name) as [n|] eqn:Ep; [destruct (discard_node n files) as [k [err|]] eqn:Ed; [done|]|]];
    destruct (Discard dir) as [rest err]; intros [= <- ->]; cbn [visitFiles]; rewrite ?Ep; try by apply IH.
  apply discard_node_rest in Ed. destruct (visit_node n k) as [lk [err|]]; cbn in Ed; subst lk; [done|]. specialize (IH rest eq_refl). destruct (visitFiles rest) as [lr err]. cbn in *. by subst lr.
Qed.

Lemma open_empty os dir s : (visitFiles dir).1 = [] -> OpenContext os dir = inl s -> Recover s = ([], None).
Proof.
  unfold OpenContext. destruct (visitFiles dir) as [l verr]. cbn [fst]. intros ->. cbn [fold_left]. destruct verr; [done|]. intros [= <-]. unfold Recover. cbn [ds_closed ds_files].
  assert (map_range 22 (∅ : gmap (Z * Z) bucket) = []) as ->; [|done]. apply Permutation_nil_r. rewrite (map_range_perm 22 (∅ : gmap (Z * Z) bucket)). by rewrite map_to_list_empty.
Qed.

(** A start that fails leaves the files alone.  The only exception is a
    recovery that did not fit into memory and whose warning was waited out.  A
    start that succeeds has restored everything, or, in that one case, is an empty
    node over a mirror without records. *)
Theorem start_keeps_files (os os2 : Os) (stop : option (bool * restore_error)) (cancelled : bool) (dir : list (bytes * dirent)) :
  let short := exists opening, stop = Some (opening, OutOfMemory) in
  match openDurability os os2 stop cancelled dir with
  | Refused err files => files = inl dir \/ short /\ cancelled = false
  | Ready nd s =>
      (exists nd0, stop = None /\ OpenContext os dir = inl s /\ (Recover s).2 = None /\ restoreEffects None (Recover s) = inl nd0 /\ nd = attach s nd0)
      \/ short /\ cancelled = false /\ Recover s = ([], None) /\ nd = attach s empty_node
  end.
Proof.
  cbn zeta. set (short := exists opening, stop = Some (opening, OutOfMemory)).
  assert (Hgive : forall so, short -> match discard_mirror os2 cancelled dir so with
    | Refused err files => files = inl dir \/ short /\ cancelled = false
    | Ready nd s => short /\ cancelled = false /\ Recover s = ([], None) /\ nd = attach s empty_node end).
  { intros so Hs. unfold discard_mirror. destruct cancelled; [by left|]. destruct so as [s|].
    - destruct (Reset os2 s) as [s' [err|]] eqn:Er; [by right|]. split_and!; [done|done|by eapply reset_recovers_nothing|done].
    - destruct (Discard dir) as [dir' [err|]] eqn:Ed; [by right|]. destruct (OpenContext os2 dir') as [s|err] eqn:Eo; [|by right]. split_and!; [done|done| |done]. eapply open_empty; [|exact Eo]. by eapply discard_rest. }
  assert (Hfail : forall cause so, (cause = OutOfMemory -> short) -> match (match cause with OutOfMemory => discard_mirror os2 cancelled dir so | _ => Refused cause (inl dir) end) with
    | Refused err files => files = inl dir \/ short /\ cancelled = false
    | Ready nd s => short /\ cancelled = false /\ Recover s = ([], None) /\ nd = attach s empty_node end).
  { intros cause so Hs. destruct cause; try (by left). by apply Hgive, Hs. }
  unfold openDurability. destruct stop as [[[] cause]|].
  - specialize (Hfail cause None). destruct cause; try (by left). specialize (Hfail (fun _ => ex_intro _ true eq_refl)). destruct (discard_mirror _ _ _ _); tauto.
  - destruct (OpenContext os dir) as [s|err]; [|by left]. cbn [fmap option_fmap option_map snd restoreEffects]. destruct cause; try (by left). specialize (Hgive (Some s) (ex_intro _ false eq_refl)). destruct (discard_mirror _ _ _ _); tauto.
  - destruct (OpenContext os dir) as [s|err] eqn:Eo; [|by left]. cbn [fmap option_fmap option_map]. destruct (restoreEffects None (Recover s)) as [nd|err] eqn:E.
    + left. exists nd. split_and!; [done|done| |done|done]. unfold restoreEffects in E. destruct (restore_records _ _) as [[? ?]|]; [|done]. by destruct ((Recover s).2).
    + assert (Hn : err <> OutOfMemory).
      { unfold restoreEffects in E. destruct (restore_records (Recover s).1 (newVertexPool, ∅)) as [[? ?]|e] eqn:Er.
        - destruct ((Recover s).2); [|done]. congruence.
        - injection E as <-. apply (restore_fails _ newVertexPool ∅) in Er as (? & ? & _ & _ & ->); done. }
      destruct err; try (by left). done.
Qed.

End Props.
