(* ===== verification/RestoreWitness.v ===== *)
(** * The pool and a restart, run

    Two effects on one key, the second on top of the first. *)

From S2P Require Import Durability DurLayout DurOpen DurSteps DurTime DurProps DurMain DurWitness Prelude Golib Proto Store Walk Wire WireProps WireWitness TipSet Pool PoolProps Restore RestoreProps.

Definition rw_key : bytes := [x6b].
Definition rw_base : Effect := mkEffect rw_key None 7 [] [] [] [] None.
Definition rw_next : Effect := mkEffect rw_key None 7 [(7, 1)] [] [] [] None.
Definition rw_content (t : Tip) : Effect := if decide (t = (7, 65)) then rw_next else rw_base.

#[local] Instance rw_ranger : MapRange := listed_range.
#[local] Instance rw_codec : ProtoCodec Effect := table_codec [rw_base; rw_next].

Definition rw_both : list (Tip * bytes) := [((7, 1), [x01]); ((7, 65), [x01; x01])].

Lemma rw_rank x key d : d ∈ consumed_on key (rw_content x) -> (Z.to_nat d.2 < Z.to_nat x.2)%nat.
Proof.
  unfold rw_content. case_decide as Hx; [subst x|by unfold consumed_on; cbn; case_decide; intros ?%elem_of_nil].
  unfold consumed_on. cbn. case_decide; [|by intros ?%elem_of_nil]. intros ->%list_elem_of_singleton. cbn. lia.
Qed.


(** ** The pool *)

Definition rw_all : option (bytes -> bool) := Some (fun _ => true).

Definition rw_put (t : Tip) (p : VertexPool) : VertexPool := match put true rw_all t (rw_content t) p with Some (p, _) => p | None => p end.

Definition rw_pool0 : VertexPool := set_mirror (Some ∅) newVertexPool.
Definition rw_pool1 : VertexPool := Eval vm_compute in rw_put (7, 1) rw_pool0.
Definition rw_pool2 : VertexPool := Eval vm_compute in rw_put (7, 65) rw_pool1.

Lemma rw_keys t : length (creation_keys (rw_content t)) = 1%nat.
Proof. unfold rw_content. by case_decide. Qed.

Lemma rw_step0 : pool_step rw_content system_start (at_rest rw_pool0).
Proof. apply (step_attach rw_content ∅ system_start); [done|]. split; [by intros t d ?%lookup_empty_Some|intros a v Hv; cbn in Hv; by apply lookup_empty_Some in Hv]. Qed.

Lemma rw_step_put t p p' : put true rw_all t (rw_content t) p = Some (p', []) -> p_m p !! t = None -> pool_step rw_content (at_rest p) (at_rest p').
Proof.
  intros Hp Hn. apply (step_put rw_content true rw_all t p' [] (at_rest p)); [by intros (_ & ? & ? & ? & _)|rewrite rw_keys; lia| |done].
  intros a Ha. cbn [at_rest y_pool] in Ha. congruence.
Qed.

Lemma rw_reached : rtc (pool_step rw_content) system_start (at_rest rw_pool2).
Proof.
  eapply rtc_l; [exact rw_step0|]. eapply rtc_l; [apply (rw_step_put (7, 1)); vm_compute; reflexivity|]. apply rtc_once, (rw_step_put (7, 65)); vm_compute; reflexivity.
Qed.

Definition rw_topo : list Tip := [(7, 1)].
Definition rw_cached : subdag := Cached [(7, 1)] rw_topo None.
Definition rw_pinned : VertexPool := Eval vm_compute in (incref (7, 1) rw_pool2).1.
Definition rw_building : system := mkSystem rw_pinned ∅ [Pinning 5 rw_cached rw_topo []] [] 0 0 None.
Definition rw_installed : system := mkSystem rw_pinned {[ 5 := rw_cached ]} [Dropping []] [] 0 0 None.

Lemma rw_build : rtc (pool_step rw_content) system_start rw_building.
Proof.
  eapply rtc_r; [eapply rtc_r; [exact rw_reached|apply (step_build rw_content 5 rw_cached)]|].
  apply (step_pin rw_content 5 rw_cached [] (7, 1) [] [] [] 0 (mkVertex (7, 1) rw_base 1 {[ rw_key ]}) rw_pinned); [done|vm_compute; reflexivity|done| |vm_compute; reflexivity].
  intros v Hv. assert (E : Some v = Some (mkVertex (7, 1) rw_base 1 {[ rw_key ]})) by (rewrite <- Hv; vm_compute; reflexivity). injection E as ->. cbn. lia.
Qed.

Lemma rw_install : pool_step rw_content rw_building rw_installed.
Proof. apply (step_install rw_content 5 rw_cached rw_topo [] [] rw_building); done. Qed.

Lemma cached_reads_resident_witness : materializeSubdag rw_topo rw_pinned = Some [((7, 1), rw_base)] /\ drop_ref (7, 1) rw_pinned <> None.
Proof.
  destruct (cached_reads_resident rw_content rw_building rw_installed rw_build rw_install) as (H1 & _). split; [|by vm_compute].
  exact (H1 5 [(7, 1)] rw_topo None eq_refl).
Defined.

(** The first effect is held by a subdag, the second only by the key. *)
Lemma eviction_exact_witness : exists p, releaseChainRefs rw_key [(7, 65)] None rw_pinned = Done (None, p)
  /\ Get (drainReclaim (fun _ => Deleted) p) (7, 1) = Some rw_base /\ Get (drainReclaim (fun _ => Deleted) p) (7, 65) = None.
Proof.
  destruct (eviction_exact rw_content rw_installed rw_key [(7, 65)] None) as (p & Hp & _ & Hg); [eapply rtc_r; [exact rw_build|exact rw_install]|done|done|done|done|done|vm_compute; reflexivity|].
  exists p. split; [exact Hp|]. split.
  - apply Hg. split; [done|]. eexists. split; [vm_compute; reflexivity|]. right. left. vm_compute. lia.
  - destruct (Get _ (7, 65)) as [e|] eqn:E; [|done]. apply Hg in E as (_ & v & Hv & [Hs|[Hn|(k & Hk & [Hne|Hno])]]).
    + vm_compute in Hs. done.
    + vm_compute in Hn. lia.
    + assert (Ev : Some v = Some (mkVertex (7, 65) rw_next 1 {[ rw_key ]})) by (rewrite <- Hv; vm_compute; reflexivity). injection Ev as ->. cbn in Hk. set_solver.
    + destruct Hno. exists (7, 65). split; [left|done].
Defined.

(** ** A restart *)

(** [7] and [1.swytch]. *)
Definition rw_dir (b : bucket) : list (bytes * dirent) := [([x37], ADir [([x31; x2e; x73; x77; x79; x74; x63; x68], Some (b_data b))])].

Definition rw_files : list (bytes * dirent) := Eval vm_compute in rw_dir (dw_put 65 [x01; x01] (dw_put 1 [x01] dw_new)).

Definition rw_store : DurStore := Eval vm_compute in match OpenContext dw_os rw_files with inl s => s | inr _ => mkDurStore true ∅ end.

Lemma rw_opened : OpenContext dw_os rw_files = inl rw_store.
Proof. vm_compute. reflexivity. Qed.

Definition rw_records : list (Tip * bytes) := Eval vm_compute in (Recover rw_store).1.

Lemma rw_recovered : Recover rw_store = (rw_records, None).
Proof. vm_compute. reflexivity. Qed.

Definition rw_mirror : gmap Tip bytes := <[ (7, 65) := [x01; x01] ]> {[ (7, 1) := [x01] ]}.

Lemma rw_mirrored : p_mirror rw_pool2 = Some rw_mirror.
Proof. vm_compute. reflexivity. Qed.

Lemma rw_loaded : Load (y_pool (at_rest rw_pool2)) (7, 65) = Some (mkVertex (7, 65) rw_next 1 {[ rw_key ]}).
Proof. vm_compute. reflexivity. Qed.

Lemma rw_permuted : rw_records ≡ₚ map_to_list rw_mirror.
Proof. vm_compute. apply Permutation_swap || reflexivity. Qed.


(** ** A put that is lost

    Without a mirror nothing keeps a put from meeting the vertex the consumer has
    just claimed: the put reports success, and then the vertex is deleted. *)

Definition lw_put : system := mkSystem (match PutSizedCache true (7, 1) rw_base newVertexPool with Some p => p | None => newVertexPool end) ∅ [] [] 0 0 None.
Definition lw_claimed : VertexPool := Eval vm_compute in match claim 0 (dequeue (set_queue [(7, 1)] 0 (y_pool lw_put))) with Some p => p | None => newVertexPool end.

Theorem put_lost_without_mirror : let s := mkSystem lw_claimed ∅ [] [] 0 0 (Some ((7, 1), 0)) in
  rtc (pool_step rw_content) system_start s
  /\ PutSized true (7, 1) rw_base lw_claimed = Some lw_claimed
  /\ pool_step rw_content s s
  /\ (forall answer, Get (delete_vertex answer (7, 1) lw_claimed).1 (7, 1) = None).
Proof.
  cbn zeta. split_and!.
  - eapply rtc_l; [apply (step_put rw_content true None (7, 1) (y_pool (mkSystem (fst (publish_vertex None (7, 1) rw_base newVertexPool)) ∅ [] [] 0 0 None)) [(7, 1)] system_start); [by intros (_ & ? & ? & ? & _)|rewrite rw_keys; lia|by intros a ?|reflexivity]|].
    eapply rtc_l; [apply (step_enqueue rw_content (7, 1) [] []); reflexivity|]. eapply rtc_l; [apply (step_count rw_content 0); [reflexivity|cbn; lia]|].
    eapply rtc_l; [apply (step_swap rw_content); reflexivity|]. apply rtc_once. apply (step_examine rw_content 0 (7, 1) []); vm_compute; reflexivity.
  - vm_compute. reflexivity.
  - apply (step_put_stale rw_content (fun _ => true) (7, 1) 0 (mkVertex (7, 1) rw_base vertexTombstone ∅) (mkSystem lw_claimed ∅ [] [] 0 0 (Some ((7, 1), 0)))); [reflexivity|vm_compute; reflexivity|reflexivity|].
    intros v Hv. assert (E : Some v = Some (mkVertex (7, 1) rw_base vertexTombstone ∅)) by (rewrite <- Hv; vm_compute; reflexivity). injection E as ->. rewrite rw_keys. vm_compute. reflexivity.
  - intros answer. destruct answer; vm_compute; reflexivity.
Qed.
