(* ===== verification/Engine.v ===== *)
(** * The engine: state and bookkeeping (effects/effect.go, subscribers.go,
    spoken_binds.go, snapshot.go)

    One record for what the engine keeps: the index of tips, the resident
    effects, the subscriptions, the transactions in flight.  Operations take the
    record and return it; what they send or call back is appended to [g_out] in
    the order of the calls.

    The index is the map the trie was shown to refine, the update of a key's
    tips the transition the compare-and-swap loop was shown to make.  Left out:
    reference counts and eviction of resident effects ([Pool] has them), and that an effect
    fetched in the middle of a walk stays resident ([getEffect] caches it).
    The bounded cache of spoken binds never forgets here.

    Everything outside the node is a [World]: what peers answer, whether the
    disk accepts an effect, whether the node is in the majority. *)

From S2P Require Import Prelude Golib Proto Store Walk ForkChoice TipSet Frontier Horizon Txn Wire Safety.

(** ** State *)

Record NackNotify := mkNack {
  nk_key : bytes;
  nk_conflicting : option Tip;
  nk_tips : list Tip;
  nk_details : list NackTipDetail;
  nk_chain : list Tip;
  nk_notSubscribed : bool;
}.

(** Sends, callbacks and filter updates. *)
Inductive output :=
  | OBroadcast (t : Tip)
  | OReplicate (t : Tip)
  | OReplicateTo (t : Tip) (peer : Z)
  | OSendNack (nack : NackNotify) (peer : Z)
  | OLocalEffect (t : Tip)
  | OKeyChanged (key : bytes)
  | OKeyDataAdded (key : bytes)
  | OKeyDeleted (key : bytes)
  | OFlushAll
  | OOwnFilterAdd (key : bytes)
  | OPeerFilterAdd (origin : Z) (key : bytes)
  | OEphemeralSubscribe (node : Z) (routingKey : bytes) (unsubscribe : bool)
  | OPubSub (channel payload : bytes).

Record Engine := mkEngine {
  g_node : Z;
  g_nextOff : Z;
  g_addr : Z;                              (* address of the next tip set *)
  g_index : gmap bytes TipSet;
  g_peers : gmap bytes (list Z);           (* leafState.subscribers *)
  g_cache : Store;                         (* effectCache *)
  g_subs : gset bytes;                     (* subscriptions *)
  g_incomplete : gset bytes;               (* ... whose bootstrap is incomplete *)
  g_pendingTips : gmap Tip (list Tip);
  g_pendingTxns : gmap Tip pendingTxn;
  g_horizon : option HorizonSet;
  g_spoken : gmap Tip (list Tip);
  g_flushGen : Z;
  g_ticks : Z;                             (* readings of the clock *)
  g_txnSeq : Z;                            (* txnIDCounter *)
  g_out : list output;
}.

Record World := mkWorld {
  w_broadcaster : bool;
  w_majority : bool;                       (* InMajorityPartition *)
  w_net : gmap Tip bytes;                  (* FetchFromAny *)
  w_accepts : Tip -> bool;                 (* the durable mirror takes the effect *)
  w_resets : bool;                         (* ... and a reset *)
  w_mayHold : bytes -> bool;               (* clusterMaybeHasKey *)
  w_callbacks : bool;                      (* the callbacks are installed *)
  w_rules : safetyMap;                     (* safety *)
  w_clock : Z -> Timestamp;                (* the readings of the clock *)
  w_members : list Z;                      (* PeerIDs *)
  w_reply : Tip -> nat -> Z -> option (list NackNotify);  (* what a peer answers an effect, by round *)
  w_attempts : nat;                        (* rounds before the bootstrap deadline *)
  w_cloud : option (bytes -> bool);        (* the cloud reader, and its MayHold *)
  w_compress : bool;                       (* compressValues *)
  w_sends : Tip -> bool;                   (* the notification of an effect marshals *)
}.

Definition set_nextOff (n : Z) (e : Engine) : Engine :=
  mkEngine (g_node e) n (g_addr e) (g_index e) (g_peers e) (g_cache e) (g_subs e) (g_incomplete e) (g_pendingTips e) (g_pendingTxns e)
    (g_horizon e) (g_spoken e) (g_flushGen e) (g_ticks e) (g_txnSeq e) (g_out e).

Definition set_index (addr : Z) (ix : gmap bytes TipSet) (e : Engine) : Engine :=
  mkEngine (g_node e) (g_nextOff e) addr ix (g_peers e) (g_cache e) (g_subs e) (g_incomplete e) (g_pendingTips e) (g_pendingTxns e)
    (g_horizon e) (g_spoken e) (g_flushGen e) (g_ticks e) (g_txnSeq e) (g_out e).

Definition set_peers (ps : gmap bytes (list Z)) (e : Engine) : Engine :=
  mkEngine (g_node e) (g_nextOff e) (g_addr e) (g_index e) ps (g_cache e) (g_subs e) (g_incomplete e) (g_pendingTips e) (g_pendingTxns e)
    (g_horizon e) (g_spoken e) (g_flushGen e) (g_ticks e) (g_txnSeq e) (g_out e).

Definition set_cache (c : Store) (e : Engine) : Engine :=
  mkEngine (g_node e) (g_nextOff e) (g_addr e) (g_index e) (g_peers e) c (g_subs e) (g_incomplete e) (g_pendingTips e) (g_pendingTxns e)
    (g_horizon e) (g_spoken e) (g_flushGen e) (g_ticks e) (g_txnSeq e) (g_out e).

Definition set_subs (s : gset bytes) (e : Engine) : Engine :=
  mkEngine (g_node e) (g_nextOff e) (g_addr e) (g_index e) (g_peers e) (g_cache e) s (g_incomplete e) (g_pendingTips e) (g_pendingTxns e)
    (g_horizon e) (g_spoken e) (g_flushGen e) (g_ticks e) (g_txnSeq e) (g_out e).

Definition set_pendingTips (m : gmap Tip (list Tip)) (e : Engine) : Engine :=
  mkEngine (g_node e) (g_nextOff e) (g_addr e) (g_index e) (g_peers e) (g_cache e) (g_subs e) (g_incomplete e) m (g_pendingTxns e)
    (g_horizon e) (g_spoken e) (g_flushGen e) (g_ticks e) (g_txnSeq e) (g_out e).

Definition set_pendingTxns (m : gmap Tip pendingTxn) (e : Engine) : Engine :=
  mkEngine (g_node e) (g_nextOff e) (g_addr e) (g_index e) (g_peers e) (g_cache e) (g_subs e) (g_incomplete e) (g_pendingTips e) m
    (g_horizon e) (g_spoken e) (g_flushGen e) (g_ticks e) (g_txnSeq e) (g_out e).

Definition set_horizon (h : option HorizonSet) (e : Engine) : Engine :=
  mkEngine (g_node e) (g_nextOff e) (g_addr e) (g_index e) (g_peers e) (g_cache e) (g_subs e) (g_incomplete e) (g_pendingTips e) (g_pendingTxns e)
    h (g_spoken e) (g_flushGen e) (g_ticks e) (g_txnSeq e) (g_out e).

Definition set_spoken (m : gmap Tip (list Tip)) (e : Engine) : Engine :=
  mkEngine (g_node e) (g_nextOff e) (g_addr e) (g_index e) (g_peers e) (g_cache e) (g_subs e) (g_incomplete e) (g_pendingTips e) (g_pendingTxns e)
    (g_horizon e) m (g_flushGen e) (g_ticks e) (g_txnSeq e) (g_out e).

Definition bump_flushGen (e : Engine) : Engine :=
  mkEngine (g_node e) (g_nextOff e) (g_addr e) (g_index e) (g_peers e) (g_cache e) (g_subs e) (g_incomplete e) (g_pendingTips e) (g_pendingTxns e)
    (g_horizon e) (g_spoken e) (wrapu64 (g_flushGen e + 1)) (g_ticks e) (g_txnSeq e) (g_out e).

Definition emit_out (o : list output) (e : Engine) : Engine :=
  mkEngine (g_node e) (g_nextOff e) (g_addr e) (g_index e) (g_peers e) (g_cache e) (g_subs e) (g_incomplete e) (g_pendingTips e) (g_pendingTxns e)
    (g_horizon e) (g_spoken e) (g_flushGen e) (g_ticks e) (g_txnSeq e) (g_out e ++ o).

Definition set_incomplete (s : gset bytes) (e : Engine) : Engine :=
  mkEngine (g_node e) (g_nextOff e) (g_addr e) (g_index e) (g_peers e) (g_cache e) (g_subs e) s (g_pendingTips e) (g_pendingTxns e)
    (g_horizon e) (g_spoken e) (g_flushGen e) (g_ticks e) (g_txnSeq e) (g_out e).

Definition set_ticks (ticks txnSeq : Z) (e : Engine) : Engine :=
  mkEngine (g_node e) (g_nextOff e) (g_addr e) (g_index e) (g_peers e) (g_cache e) (g_subs e) (g_incomplete e) (g_pendingTips e)
    (g_pendingTxns e) (g_horizon e) (g_spoken e) (g_flushGen e) ticks txnSeq (g_out e).

(** [clock.Now] *)
Definition read_clock (w : World) (e : Engine) : Engine * Timestamp :=
  (set_ticks (g_ticks e + 1) (g_txnSeq e) e, w_clock w (g_ticks e)).

(** ** Index and offsets *)

Definition nextOffset (e : Engine) : Engine * Tip :=
  let seq := wrapu64 (g_nextOff e + 1) in (set_nextOff seq e, (g_node e, seq)).

(** [index.Contains] *)
Definition index_tips (e : Engine) (key : bytes) : option TipSet := g_index e !! key.

Definition tips_at (e : Engine) (key : bytes) : list Tip := Tips (index_tips e key).

Definition apply_update (key : bytes) (u : tip_update) (e : Engine) : Engine :=
  let current := index_tips e key in
  let newTips := NewTipSet (g_addr e) (update_offsets u current) in
  let e := set_index (g_addr e + 1) (<[key := newTips]> (g_index e)) e in
  if tips_changed current (Some newTips) then emit_out [OKeyChanged key] e else e.

Definition updateIndex (key : bytes) (initialTips : option TipSet) (lastOffset : Tip) (e : Engine) : Engine :=
  apply_update key (UpdateIndex initialTips lastOffset) e.

Definition installTips (key : bytes) (tips : list Tip) (e : Engine) : Engine := apply_update key (InstallTips tips) e.

(** "__swytch:flush" *)
Definition FlushKey : bytes := [x5f; x5f; x73; x77; x79; x74; x63; x68; x3a; x66; x6c; x75; x73; x68].

(** Every leaf goes with its payload. [None]: the mirror refused. *)
Definition FlushIndex (w : World) (e : Engine) : option Engine :=
  if w_resets w
  then Some (emit_out [OKeyChanged FlushKey] (set_peers ∅ (set_index (g_addr e) ∅ (bump_flushGen e))))
  else None.

(** ** Resident effects *)

Definition putIngested (w : World) (tip : Tip) (eff : Effect) (e : Engine) : option Engine :=
  if w_accepts w tip then Some (set_cache (<[tip := eff]> (g_cache e)) e) else None.

Section Obtain.
Context {ranger : MapRange} `{!ProtoCodec Effect}.

(** What [getEffect] can return: the resident effects, and with a broadcaster
    what peers serve in a frame that parses and the mirror takes. *)
Definition obtainable (w : World) (e : Engine) : Store :=
  if w_broadcaster w then
    g_cache e ∪ map_imap (fun t data =>
      if w_accepts w t then match parse_strict data with Some (inr eff) => Some eff | _ => None end else None) (w_net w)
  else g_cache e.

End Obtain.

(** ** Peer subscribers *)

Definition addPeerSubscriber (key : bytes) (peer : Z) (e : Engine) : Engine :=
  if peer =? g_node e then e
  else match index_tips e key with
       | None => e
       | Some _ =>
           let subscribers := default [] (g_peers e !! key) in
           set_peers (<[key := if bool_decide (peer ∈ subscribers) then subscribers else subscribers ++ [peer]]> (g_peers e)) e
       end.

Definition removePeerSubscriber (key : bytes) (peer : Z) (e : Engine) : Engine :=
  match g_peers e !! key with
  | None => e
  | Some subscribers =>
      match list_find (eq peer) subscribers with
      | None => e
      | Some (i, _) => set_peers (<[key := take i subscribers ++ drop (S i) subscribers]> (g_peers e)) e
      end
  end.

Definition PeerSubscribers (e : Engine) (key : bytes) : list Z := default [] (g_peers e !! key).

(** Distinct subscribers of the keys that are still members. *)
Definition collectSubscribers (members : list Z) (keys : list bytes) (e : Engine) : list Z :=
  fold_left (fun result id => if bool_decide (id ∈ members) && negb (bool_decide (id ∈ result)) then result ++ [id] else result)
    (flat_map (PeerSubscribers e) keys) [].

(** ** Spoken binds *)

Definition history_add (bind : Tip) (history : list Tip) : list Tip :=
  if bool_decide (bind ∈ history) then history else history ++ [bind].

Definition speak (bind : Tip) (consumed : list Tip) (spoken : gmap Tip (list Tip)) : gmap Tip (list Tip) :=
  fold_left (fun m tip => <[tip := history_add bind (default [] (m !! tip))]> m) consumed spoken.

(** ** The horizon within the engine *)

(** The horizon removes the tips of the binds it resolves from
    [pendingTxTips]: run an operation on it and keep the two in step. *)
Definition with_horizon (f : HorizonSet -> HorizonSet) (e : Engine) : Engine :=
  match g_horizon e with
  | None => e
  | Some h =>
      let h' := f (mkHorizon (h_entries h) (h_groups h) (h_group h) (h_timers h) (dom (g_pendingTips e)) (h_closed h) (h_fresh h)) in
      set_pendingTips (filter (fun p => p.1 ∈ h_pending h') (g_pendingTips e)) (set_horizon (Some h') e)
  end.

Section Visible.
Context {sorter : SortFunc}.

(** The callbacks of the keys run after the operation. *)
Definition make_visible (w : World) (txnID : bytes) (e : Engine) : Engine :=
  match g_horizon e with
  | None => e
  | Some h =>
      let keys := (MakeVisible txnID h).2 in
      emit_out (flat_map (fun k => OOwnFilterAdd k :: if w_callbacks w then [OKeyDataAdded k] else []) keys)
        (with_horizon (fun h => (MakeVisible txnID h).1) e)
  end.

(** Every transaction a verdict snapshot names leaves the horizon. *)
Definition applySnapshotVerdicts {ranger : MapRange} (w : World) (eff : Effect) (e : Engine) : Engine :=
  match g_horizon e, get_snapshot eff with
  | Some _, Some snap => fold_left (fun e p => make_visible w p.1 e) (map_range 0 (s_txn_verdicts snap)) e
  | _, _ => e
  end.

End Visible.
