(* ===== verification/Ingest.v ===== *)
(** * Ingest: remote effects and refusals (effects/effect.go)

    [HandleRemote] takes a notification from a peer, [handleBackfill] an effect
    learned of indirectly, [HandleNack] a peer's refusal; with them the refusals
    the node sends itself ([buildEnrichedNack] and the chain it attaches) and
    the walk that catches up with a refusal ([ingestNackTips]). *)

From S2P Require Import Prelude Golib Proto Store Walk ForkChoice TipSet Frontier Horizon Txn Wire Engine.

Record OffsetNotify := mkNotify { n_origin : option Tip; n_key : bytes; n_data : bytes }.

(** What stops an ingest. *)
Inductive ingest_error := FetchFailed | ParseFailed | HashMismatch | StoreFailed.

(** ** Walks to the common snapshot

    [collectCausalChain] and [ingestNackTips] are one loop: breadth first, state
    snapshots last, until a single unresolved tip is left and it is a snapshot.
    They differ in what reaching a tip does: [reach] updates the state and
    returns the effect if it is resident. *)

Record fwalk (St : Type) := mkFwalk {
  fw_visited : gset Tip;
  fw_queue : list Tip;
  fw_snapshots : list Tip;
  fw_frontier : gset Tip;
  fw_nodes : Store;
  fw_state : St;
}.
Arguments mkFwalk {St}.
Arguments fw_visited {St}.
Arguments fw_queue {St}.
Arguments fw_snapshots {St}.
Arguments fw_frontier {St}.
Arguments fw_nodes {St}.
Arguments fw_state {St}.

Section Fwalk.
Context {St : Type}.
Variable (reach : St -> Tip -> St * option Effect).

(** A subscription without dependencies is unresolved only if something other
    than the list of tips leads to it. *)
Definition enqueue (standalone : bool) (tp : Tip) (w : fwalk St) : fwalk St :=
  if is_zero tp then w
  else if bool_decide (tp ∈ fw_visited w) then
    match fw_nodes w !! tp with
    | Some eff =>
        if negb standalone && is_standalone_sub eff
        then mkFwalk (fw_visited w) (fw_queue w) (fw_snapshots w) ({[ tp ]} ∪ fw_frontier w) (fw_nodes w) (fw_state w)
        else w
    | None => w
    end
  else
    let '(s, found) := reach (fw_state w) tp in
    let visited := {[ tp ]} ∪ fw_visited w in
    let frontier := {[ tp ]} ∪ fw_frontier w in
    match found with
    | None => mkFwalk visited (fw_queue w) (fw_snapshots w) frontier (fw_nodes w) s
    | Some eff =>
        let frontier := if standalone && is_standalone_sub eff then frontier ∖ {[ tp ]} else frontier in
        let nodes := <[tp := eff]> (fw_nodes w) in
        if is_state_snapshot eff
        then mkFwalk visited (fw_queue w) (fw_snapshots w ++ [tp]) frontier nodes s
        else mkFwalk visited (fw_queue w ++ [tp]) (fw_snapshots w) frontier nodes s
    end.

Definition fw_start (tips : list Tip) (s : St) : fwalk St :=
  fold_left (fun w tp => enqueue true tp w) tips (mkFwalk ∅ [] [] ∅ ∅ s).

Definition fw_pop (w : fwalk St) : option (Tip * fwalk St) :=
  match fw_queue w, fw_snapshots w with
  | cur :: queue, snaps => Some (cur, mkFwalk (fw_visited w) queue snaps (fw_frontier w) (fw_nodes w) (fw_state w))
  | [], cur :: snaps => Some (cur, mkFwalk (fw_visited w) [] snaps (fw_frontier w) (fw_nodes w) (fw_state w))
  | [], [] => None
  end.

Definition fw_expand (key : bytes) (cur : Tip) (eff : Effect) (w : fwalk St) : fwalk St :=
  match keyDeps key eff with
  | [] => w
  | deps =>
      fold_left (fun w d => enqueue false d w) deps
        (mkFwalk (fw_visited w) (fw_queue w) (fw_snapshots w) (fw_frontier w ∖ {[ cur ]}) (fw_nodes w) (fw_state w))
  end.

Fixpoint fw_loop (fuel : nat) (key : bytes) (w : fwalk St) : walk St :=
  match fw_pop w with
  | None => Done (fw_state w)
  | Some (cur, w) =>
      match fuel with
      | O => OutOfFuel
      | S fuel =>
          match fw_nodes w !! cur with
          | None => fw_loop fuel key w
          | Some eff =>
              if is_state_snapshot eff && (size (fw_frontier w) =? 1)%nat then Done (fw_state w)
              else fw_loop fuel key (fw_expand key cur eff w)
          end
      end
  end.

End Fwalk.

(** ** Refusals *)

(** The references met on the way, missing ones included. *)
Definition collectCausalChain (key : bytes) (tips : list Tip) (e : Engine) : walk (list Tip) :=
  let reach chain tp := (chain ++ [tp], g_cache e !! tp) in
  fw_loop reach (size (g_cache e)) key (fw_start reach tips []).

Definition chain_of (key : bytes) (tips : list Tip) (e : Engine) : list Tip :=
  match collectCausalChain key tips e with Done chain => chain | _ => [] end.

(** Only tips whose bytes this node holds are advertised. *)
Definition buildEnrichedNack (key : bytes) (conflicting : option Tip) (tips : list Tip) (e : Engine) : NackNotify :=
  let held := omap (fun tp => (fun eff => (tp, eff)) <$> g_cache e !! tp) tips in
  mkNack key conflicting (map fst held) (map (fun p => nackTipDetail p.1 p.2) held) (chain_of key tips e) false.

Definition not_subscribed (key : bytes) : NackNotify := mkNack key None [] [] [] true.

(** ** Binds *)

Definition delete_tips (tips : list Tip) (e : Engine) : Engine :=
  set_pendingTips (fold_left (fun m t => delete t m) tips (g_pendingTips e)) e.

Section Ingest.
Context {ranger : MapRange} {sorter : SortFunc} `{!ProtoCodec Effect}.
Variable (w : World).

(** The first pending transaction with this new tip, if any. *)
Definition pending_with (aborted : Tip) (e : Engine) : option (Tip * pendingTxn) :=
  List.find (fun p => existsb (fun pk => bool_decide (pk_newTip pk = aborted)) (pt_keys p.2)) (map_range 1 (g_pendingTxns e)).

(** A dependency the bind declares aborted: forget its tip, and abort the local
    transaction that minted it. *)
Definition abort_dep (e : Engine) (aborted : Tip) : Engine :=
  let e := delete_tips [aborted] e in
  match pending_with aborted e with
  | Some (off, ptxn) => set_pendingTxns (<[off := (finish ptxn txnStateAborted).1]> (g_pendingTxns e)) e
  | None => e
  end.

Definition handleRemoteBind (bind : TransactionalBindEffect) (bindOffset : Tip) (txnID : bytes) (e : Engine) : Engine :=
  let e :=
    match g_horizon e with
    | Some _ => with_horizon (ScheduleMakeVisible txnID) (with_horizon (HorizonAdd txnID bind) e)
    | None => delete_tips (map kb_new_tip (tb_keys bind)) e
    end in
  let e := fold_left abort_dep (tb_abort_deps bind) e in
  set_spoken (speak bindOffset (flat_map kb_consumed_tips (tb_keys bind)) (g_spoken e)) e.

(** ** What both ingests share *)

(** Subscribed to the key, or holding tips of it; for a bind, of any key. *)
Definition tracks (e : Engine) (key : bytes) : bool :=
  bool_decide (key ∈ g_subs e) || bool_decide (is_Some (index_tips e key)).

Definition authoritative (e : Engine) (eff : Effect) : bool :=
  tracks e (e_key eff) || existsb (fun kb => tracks e (kb_key kb)) (bind_keys eff).

Definition hash_valid (eff : Effect) : bool :=
  bool_decide (e_fork_choice_hash eff = ComputeForkChoiceHash (e_node_id eff) (e_hlc eff)).

(** An effect of a transaction, its bind excepted. *)
Definition in_progress (eff : Effect) : bool :=
  nonempty (e_txn_id eff) && match get_txn_bind eff with None => true | Some _ => false end.

(** The dependencies the arrival consumes on its own key. *)
Definition consumes (eff : Effect) : list Tip :=
  match find_key (e_key eff) (bind_keys eff) with Some kb => [kb_new_tip kb] | None => e_deps eff end.

(** The index transitions of an arrival: on its key it consumes, on the other
    keys of a bind it only adds. *)
Definition index_arrival (origin : Tip) (eff : Effect) (e : Engine) : Engine :=
  let key := e_key eff in
  let e := if bool_decide (key ∈ g_subs e) then updateIndex key (Some (NewTipSet 0 (consumes eff))) origin e else e in
  fold_left (fun e kb =>
    if bool_decide (kb_key kb = key) || negb (bool_decide (kb_key kb ∈ g_subs e)) then e
    else updateIndex (kb_key kb) None origin e) (bind_keys eff) e.

Definition track_pending (origin : Tip) (eff : Effect) (e : Engine) : Engine :=
  if in_progress eff then set_pendingTips (<[origin := e_deps eff]> (g_pendingTips e)) e else e.

(** The bytes of a notification: its own, or fetched. [inl]: stop, with no
    error when there is nobody to ask. *)
Definition notify_data (origin : Tip) (data : bytes) : option ingest_error + bytes :=
  match data with
  | [] => if w_broadcaster w then match w_net w !! origin with Some d => inr d | None => inl (Some FetchFailed) end else inl None
  | _ => inr data
  end.

Definition parse_data (data : bytes) : option Effect := unwrap data ≫= UnmarshalEffect.

(** ** Backfill *)

Definition backfill_effect (origin : Tip) (eff : Effect) (fromCache : bool) (e : Engine) : Engine * option ingest_error :=
  if negb (authoritative e eff) then (e, None)
  else if negb (hash_valid eff) then (e, Some HashMismatch)
  else match (if fromCache then Some e else putIngested w origin eff e) with
       | None => (e, Some StoreFailed)
       | Some e =>
           let e := applySnapshotVerdicts w eff e in
           let e := track_pending origin eff e in
           let e := delete_tips (map kb_new_tip (bind_keys eff)) e in
           (index_arrival origin eff e, None)
       end.

Definition handleBackfill (notify : OffsetNotify) (e : Engine) : Engine * option ingest_error :=
  match n_origin notify with
  | None => (e, None)
  | Some origin =>
      match n_data notify, g_cache e !! origin with
      | [], Some eff => backfill_effect origin eff true e
      | data, _ =>
          match notify_data origin data with
          | inl err => (e, err)
          | inr data =>
              match parse_data data with
              | None => (e, Some ParseFailed)
              | Some eff => backfill_effect origin eff false e
              end
          end
      end
  end.

Definition backfill_reach (key : bytes) (e : Engine) (tp : Tip) : Engine * option Effect :=
  match handleBackfill (mkNotify (Some tp) key []) e with
  | (e', Some _) => (e', None)
  | (e', None) => (e', g_cache e' !! tp)
  end.

(** The prefetch of the causal chain only warms the cache. *)
Definition ingestNackTips (nack : NackNotify) (e : Engine) : walk Engine :=
  if negb (w_broadcaster w) then Done e
  else
    let reach := backfill_reach (nk_key nack) in
    fw_loop reach (size (g_cache e) + size (w_net w)) (nk_key nack) (fw_start reach (map detail_tip (nk_details nack)) e).

(** ** Remote effects *)

Definition filter_outputs (eff : Effect) (e : Engine) : list output :=
  if e_node_id eff =? g_node e then []
  else match e_kind eff with
       | Some (KTxnBind b) => map (fun kb => OPeerFilterAdd (e_node_id eff) (kb_key kb)) (tb_keys b)
       | Some (KData _) => [OPeerFilterAdd (e_node_id eff) (e_key eff)]
       | Some (KSubscription s) => if sub_unsubscribe s then [] else [OPeerFilterAdd (e_node_id eff) (e_key eff)]
       | _ => []
       end.

(** Tips of the key that a bind does not know. *)
Definition diverged (origin : Tip) (kb : KeyBind) (tips : list Tip) : bool :=
  existsb (fun tip => negb (bool_decide (tip = kb_new_tip kb)) && negb (bool_decide (tip = origin))
                      && negb (refsContain (kb_consumed_tips kb) tip)) tips.

Definition bind_nacks (origin : Tip) (kbs : list KeyBind) (e : Engine) : list NackNotify :=
  flat_map (fun kb =>
    match index_tips e (kb_key kb) with
    | Some ts => if diverged origin kb (ts_tips ts) then [buildEnrichedNack (kb_key kb) (Some origin) (ts_tips ts) e] else []
    | None => []
    end) kbs.

(** A dependency that was not a tip when the effect arrived. *)
Definition dep_nacks (origin : Tip) (eff : Effect) (initialTips : option TipSet) (e : Engine) : list NackNotify :=
  match initialTips with
  | Some _ =>
      if existsb (fun dep => negb (TipSet_Contains initialTips dep)) (e_deps eff)
      then [buildEnrichedNack (e_key eff) (Some origin) (tips_at e (e_key eff)) e] else []
  | None => []
  end.

Definition arrival_nacks (origin : Tip) (eff : Effect) (initialTips : option TipSet) (e : Engine) : list NackNotify :=
  match get_txn_bind eff with
  | Some b => bind_nacks origin (tb_keys b) e
  | None => dep_nacks origin eff initialTips e
  end.

(** A foreign subscription is recorded and answered with the tips before it. *)
Definition subscription_reply (origin : Tip) (eff : Effect) (initialTips : option TipSet) (e : Engine) : Engine * list NackNotify :=
  match get_subscription eff with
  | Some sub =>
      if e_node_id eff =? g_node e then (e, [])
      else
        let e := if sub_unsubscribe sub then removePeerSubscriber (e_key eff) (e_node_id eff) e
                 else addPeerSubscriber (e_key eff) (e_node_id eff) e in
        (e, [buildEnrichedNack (e_key eff) (Some origin) (Tips initialTips) e])
  | None => (e, [])
  end.

Definition added_outputs (key : bytes) : list output :=
  OOwnFilterAdd key :: if w_callbacks w then [OKeyDataAdded key] else [].

Definition arrival_outputs (eff : Effect) (e : Engine) : list output :=
  if in_progress eff then []
  else match e_kind eff with
       | Some (KTxnBind b) =>
           match g_horizon e with Some _ => [] | None => flat_map (fun kb => added_outputs (kb_key kb)) (tb_keys b) end
       | Some (KData d) =>
           match d_op d with
           | UNKNOWN_OP => []
           | INSERT_OP => added_outputs (e_key eff)
           | REMOVE_OP =>
               if negb (nonempty (d_id d)) then if w_callbacks w then [OKeyDeleted (e_key eff)] else []
               else if coll_is (d_collection d) ORDERED || coll_is (d_collection d) KEYED then added_outputs (e_key eff)
               else []
           end
       | _ => []
       end.

Definition is_flush (eff : Effect) : bool :=
  bool_decide (e_key eff = FlushKey) && match get_data eff with Some d => op_is (d_op d) REMOVE_OP | None => false end.

(** From the cache write on: the effect was accepted. *)
Definition ingest_accepted (origin : Tip) (eff : Effect) (e : Engine) : Engine * (ingest_error + list NackNotify) :=
  let e := applySnapshotVerdicts w eff e in
  if is_flush eff then
    match FlushIndex w e with
    | None => (e, inl StoreFailed)
    | Some e => (emit_out (if w_callbacks w then [OFlushAll] else []) e, inr [])
    end
  else
    let e := track_pending origin eff e in
    let e := match get_txn_bind eff with Some b => handleRemoteBind b origin (e_txn_id eff) e | None => e end in
    let initialTips := index_tips e (e_key eff) in
    let e := index_arrival origin eff e in
    let nacks := arrival_nacks origin eff initialTips e in
    let '(e, replies) := subscription_reply origin eff initialTips e in
    (emit_out (arrival_outputs eff e) e, inr (nacks ++ replies)).

(** Messages that are never stored. *)
Definition ephemeral (origin : Tip) (eff : Effect) (e : Engine) : option Engine :=
  match e_kind eff with
  | Some (KSubscription sub) =>
      if sub_discovery sub then
        Some (if w_broadcaster w
              then emit_out [OSendNack (buildEnrichedNack (e_key eff) (Some origin) (tips_at e (e_key eff)) e) origin.1] e else e)
      else if sub_ephemeral sub then
        Some (emit_out (if w_callbacks w then [OEphemeralSubscribe origin.1 (e_key eff) (sub_unsubscribe sub)] else []) e)
      else None
  | Some (KPubSub msg) => Some (emit_out (if w_callbacks w then [OPubSub (ps_channel msg) (ps_payload msg)] else []) e)
  | _ => None
  end.

Definition handle_effect (origin : Tip) (eff : Effect) (e : Engine) : Engine * (ingest_error + list NackNotify) :=
  match ephemeral origin eff e with
  | Some e => (e, inr [])
  | None =>
      let e := emit_out (filter_outputs eff e) e in
      if negb (authoritative e eff || bool_decide (e_key eff = FlushKey)) then
        (e, inr (match get_subscription eff with Some _ => [] | None => [not_subscribed (e_key eff)] end))
      else if negb (hash_valid eff) then (e, inl HashMismatch)
      else match putIngested w origin eff e with
           | None => (e, inl StoreFailed)
           | Some e => ingest_accepted origin eff e
           end
  end.

Definition HandleRemote (notify : OffsetNotify) (e : Engine) : Engine * (ingest_error + list NackNotify) :=
  match n_origin notify with
  | None => (e, inr [])
  | Some origin =>
      match notify_data origin (n_data notify) with
      | inl None => (e, inr [])
      | inl (Some err) => (e, inl err)
      | inr data =>
          match parse_data data with
          | None => (e, inl ParseFailed)
          | Some eff => handle_effect origin eff e
          end
      end
  end.

(** ** Refusals received *)

Definition matched_txn (key : bytes) (e : Engine) : option (Tip * pendingTxn) :=
  List.find (fun p => existsb (fun pk => bool_decide (pk_key pk = key)) (pt_keys p.2)) (map_range 2 (g_pendingTxns e)).

(** The bootstrap collector that may also be listening is left out. *)
Definition HandleNack (nack : NackNotify) (e : Engine) : walk Engine :=
  e ← ingestNackTips nack e;
  match matched_txn (nk_key nack) e with
  | None => Done e
  | Some (off, ptxn) =>
      if existsb (isRealConflict (obtainable w e) ptxn (nk_key nack)) (nk_details nack)
      then Done (set_pendingTxns (<[off := (finish ptxn txnStateAborted).1]> (g_pendingTxns e)) e)
      else Done e
  end.

End Ingest.
