(* ===== verification/Replicate.v ===== *)
(** * Replication: replication.go, replication_request.go and the dispatch of
    quic_notify_transport.go

    [Replicate] sends an effect to every live peer of the region and hands back
    a future that the first acknowledgement resolves; [ReplicateTo] asks one
    peer and waits for its answer.  Requests sit in a table of pending requests
    until a response, the sweep or the shutdown claims them; whoever claims a
    request then acts on its future.

    The goroutines are a pool of [task]s, each at a point between two accesses
    to shared memory (an atomic field, the table, a channel); an [event] runs
    one access of one task, or is a call, a packet, a visit of the sweep or a
    change of membership.  Futures are objects of a heap, since several
    requests share one.  [r_log] is a history the code does not keep: which
    requests were registered, who claimed them and what [replicateBody]
    returned.  Whether a send succeeds, and which ready case a [select] takes,
    is part of the event. *)

From S2P Require Import Prelude Golib Proto Wire Health Engine Ingest.

(** ** Futures *)

Inductive repl_error := ErrNoPeers | ErrReplicationTimeout | ErrAllPeersNotSubscribed | ErrMarshal | ErrSend (peer : Z).

#[global] Instance repl_error_eq_dec : EqDecision repl_error.
Proof. solve_decision. Defined.

Record ReplicationFuture := mkFuture {
  f_done : bool;
  f_err : option repl_error;
  f_nacks : option (list NackNotify);
  f_expected : Z;
  f_dropped : Z;
  f_setupDone : bool }.

Definition newFuture : ReplicationFuture := mkFuture false None None 0 0 false.

(** First call wins: [once.Do]. *)
Definition resolve (f : ReplicationFuture) : ReplicationFuture :=
  if f_done f then f else mkFuture true (f_err f) (f_nacks f) (f_expected f) (f_dropped f) (f_setupDone f).

Definition reject (err : repl_error) (f : ReplicationFuture) : ReplicationFuture :=
  if f_done f then f else mkFuture true (Some err) (f_nacks f) (f_expected f) (f_dropped f) (f_setupDone f).

(** The two accesses of [drop]: the increment, whose result it keeps, and the
    test. *)
Definition drop_add (f : ReplicationFuture) : ReplicationFuture * Z :=
  let dropped := wrap32 (f_dropped f + 1) in
  (mkFuture (f_done f) (f_err f) (f_nacks f) (f_expected f) dropped (f_setupDone f), dropped).

Definition drop_check (err : repl_error) (dropped : Z) (f : ReplicationFuture) : ReplicationFuture :=
  if f_setupDone f && (dropped =? f_expected f) then reject err f else f.

Definition rejectedFuture (err : repl_error) : ReplicationFuture := reject err newFuture.

Definition Nacks (f : ReplicationFuture) : list NackNotify := default [] (f_nacks f).

(** [None]: the caller blocks. *)
Definition Wait (f : ReplicationFuture) : option (option repl_error) := if f_done f then Some (f_err f) else None.

Definition set_nacks (nacks : list NackNotify) (f : ReplicationFuture) : ReplicationFuture :=
  mkFuture (f_done f) (f_err f) (Some nacks) (f_expected f) (f_dropped f) (f_setupDone f).

Definition set_setup (f : ReplicationFuture) : ReplicationFuture :=
  mkFuture (f_done f) (f_err f) (f_nacks f) (f_expected f) (f_dropped f) true.

Definition expect_one (f : ReplicationFuture) : ReplicationFuture :=
  mkFuture (f_done f) (f_err f) (f_nacks f) (wrap32 (f_expected f + 1)) (f_dropped f) (f_setupDone f).

(** The re-check at the end of [Replicate]. *)
Definition setup_check (f : ReplicationFuture) : ReplicationFuture :=
  if f_dropped f =? f_expected f then reject ErrAllPeersNotSubscribed f else f.

(** ** Requests and goroutines *)

Record trackedRequest := mkRequest {
  tr_future : nat;
  tr_createdAt : Z;
  tr_lastSentAt : Z;
  tr_deadline : Z;
  tr_peerID : Z;
  tr_packetData : bytes;
  tr_retransmit : bool }.

(** What a goroutine does once its request was sent. *)
Inductive cont :=
  | KPeer                                          (* of [Replicate]'s fan-out *)
  | KCross (peers : list Z) (deadline : Z) (body : bytes)  (* the loop of [sendCrossRegion] *)
  | KBody.                                         (* [replicateBody] *)

Inductive task :=
  | TRegister (tr : trackedRequest) (body : bytes) (k : cont)
  | TStore (id : Z) (tr : trackedRequest) (k : cont)
  | TSend (id : Z) (tr : trackedRequest) (k : cont)
  | TSetup (f : nat)
  | TCheck (f : nat)
  | TNacks (f : nat) (nacks : list NackNotify) (notSubscribed : bool)
  | TDropAdd (f : nat) (err : repl_error)
  | TDropCheck (f : nat) (err : repl_error) (dropped : Z)
  | TResolve (f : nat)
  | TReject (f : nat) (err : repl_error) (wait : bool)
  | TSelect (id : Z) (f : nat)
  | TReturn (f : nat).

Definition task_future (t : task) : nat :=
  match t with
  | TRegister tr _ _ | TStore _ tr _ | TSend _ tr _ => tr_future tr
  | TSetup f | TCheck f | TNacks f _ _ | TDropAdd f _ | TDropCheck f _ _ | TResolve f | TReject f _ _ | TSelect _ f | TReturn f => f
  end.

Inductive claim :=
  | Accepted (nacks : list NackNotify)
  | Refused (nacks : list NackNotify)
  | Gone
  | TimedOut
  | Aborted.

Inductive entry :=
  | Preset (f : nat)
  | Body (f : nat)
  | Registered (id : Z) (f : nat)
  | Claimed (id : Z) (f : nat) (c : claim)
  | Returned (f : nat) (result : repl_error + list NackNotify).

(** The sweep loop: running, in the last pass with the requests it has yet to
    visit, or over. *)
Inductive sweeper := Sweeping | Draining (todo : gset Z) | Finished.

Record Replicator := mkReplicator {
  r_nodeID : Z;
  r_localRegion : bytes;
  r_timeout : Z;
  r_health : PeerHealthTable;
  r_pending : gmap Z trackedRequest;
  r_nextID : Z;
  r_regions : option (gmap Z bytes);
  r_stopped : bool;
  r_sweeper : sweeper;
  r_heap : list ReplicationFuture;
  r_tasks : list task;
  r_sent : list (Z * bytes);
  r_log : list entry }.

Definition NewReplicator (nodeID : Z) (localRegion : bytes) (health : PeerHealthTable) (timeout : Z) : Replicator :=
  mkReplicator nodeID localRegion (if timeout <=? 0 then 30 * Second else timeout) health ∅ 0 None false Sweeping [] [] [] [].

Definition with_pending (r : Replicator) (m : gmap Z trackedRequest) : Replicator :=
  mkReplicator (r_nodeID r) (r_localRegion r) (r_timeout r) (r_health r) m (r_nextID r) (r_regions r) (r_stopped r) (r_sweeper r)
    (r_heap r) (r_tasks r) (r_sent r) (r_log r).

Definition with_regions (r : Replicator) (m : gmap Z bytes) : Replicator :=
  mkReplicator (r_nodeID r) (r_localRegion r) (r_timeout r) (r_health r) (r_pending r) (r_nextID r) (Some m) (r_stopped r) (r_sweeper r)
    (r_heap r) (r_tasks r) (r_sent r) (r_log r).

Definition with_health (r : Replicator) (t : PeerHealthTable) : Replicator :=
  mkReplicator (r_nodeID r) (r_localRegion r) (r_timeout r) t (r_pending r) (r_nextID r) (r_regions r) (r_stopped r) (r_sweeper r)
    (r_heap r) (r_tasks r) (r_sent r) (r_log r).

Definition with_stop (r : Replicator) (stopped : bool) (sw : sweeper) : Replicator :=
  mkReplicator (r_nodeID r) (r_localRegion r) (r_timeout r) (r_health r) (r_pending r) (r_nextID r) (r_regions r) stopped sw
    (r_heap r) (r_tasks r) (r_sent r) (r_log r).

Definition with_heap (r : Replicator) (h : list ReplicationFuture) : Replicator :=
  mkReplicator (r_nodeID r) (r_localRegion r) (r_timeout r) (r_health r) (r_pending r) (r_nextID r) (r_regions r) (r_stopped r) (r_sweeper r)
    h (r_tasks r) (r_sent r) (r_log r).

Definition with_tasks (r : Replicator) (ts : list task) : Replicator :=
  mkReplicator (r_nodeID r) (r_localRegion r) (r_timeout r) (r_health r) (r_pending r) (r_nextID r) (r_regions r) (r_stopped r) (r_sweeper r)
    (r_heap r) ts (r_sent r) (r_log r).

Definition send_to (r : Replicator) (peer : Z) (packet : bytes) : Replicator :=
  mkReplicator (r_nodeID r) (r_localRegion r) (r_timeout r) (r_health r) (r_pending r) (r_nextID r) (r_regions r) (r_stopped r) (r_sweeper r)
    (r_heap r) (r_tasks r) (r_sent r ++ [(peer, packet)]) (r_log r).

Definition record (r : Replicator) (e : entry) : Replicator :=
  mkReplicator (r_nodeID r) (r_localRegion r) (r_timeout r) (r_health r) (r_pending r) (r_nextID r) (r_regions r) (r_stopped r) (r_sweeper r)
    (r_heap r) (r_tasks r) (r_sent r) (r_log r ++ [e]).

Definition upd (r : Replicator) (f : nat) (g : ReplicationFuture -> ReplicationFuture) : Replicator := with_heap r (alter g f (r_heap r)).

Definition spawn (r : Replicator) (ts : list task) : Replicator := with_tasks r (r_tasks r ++ ts).

(** A new future, and where it lives. *)
Definition alloc (r : Replicator) (f : ReplicationFuture) : Replicator * nat := (with_heap r (r_heap r ++ [f]), length (r_heap r)).

(** [pending.LoadAndDelete]. *)
Definition claim_request (r : Replicator) (id : Z) (c : claim) : option (Replicator * trackedRequest) :=
  match r_pending r !! id with
  | Some tr => Some (record (with_pending r (delete id (r_pending r))) (Claimed id (tr_future tr) c), tr)
  | None => None
  end.

(** ** Membership *)

Definition regionsSnapshot (r : Replicator) : gmap Z bytes := default ∅ (r_regions r).

Definition AddPeer (r : Replicator) (nodeID : Z) (region : bytes) : Replicator :=
  match regionsSnapshot r !! nodeID with
  | Some existing => if bool_decide (existing = region) then r else with_regions r (<[nodeID := region]> (regionsSnapshot r))
  | None => with_regions r (<[nodeID := region]> (regionsSnapshot r))
  end.

Definition RemovePeer (r : Replicator) (nodeID : Z) : Replicator :=
  match regionsSnapshot r !! nodeID with
  | None => r
  | Some _ => with_regions r (filter (fun x => x.1 <> nodeID) (regionsSnapshot r))
  end.

Definition repl_AllRegionPeersReachable `{!MapRange} (r : Replicator) (i : nat) : bool :=
  AllRegionPeersReachable (r_health r) (r_localRegion r) (regionsSnapshot r) i.

Definition repl_InMajorityPartition `{!MapRange} (r : Replicator) (i : nat) : bool :=
  InMajorityPartition (r_health r) (r_localRegion r) (regionsSnapshot r) i.

Section Protocol.
Context `{!ProtoCodec OffsetNotify} `{!ProtoCodec NackNotify} `{!MapRange}.

(** ** Registration *)

(** [register] up to [expected.Add], and its [pending.Store]. *)
Definition register_count (r : Replicator) (tr : trackedRequest) (body : bytes) (now : Z) : Replicator * Z * trackedRequest :=
  let requestID := wrapu64 (r_nextID r + 1) in
  let tr := mkRequest (tr_future tr) now now (tr_deadline tr) (tr_peerID tr) (AssembleNotifyPacket requestID body) (tr_retransmit tr) in
  let r := mkReplicator (r_nodeID r) (r_localRegion r) (r_timeout r) (r_health r) (r_pending r) requestID (r_regions r) (r_stopped r)
    (r_sweeper r) (r_heap r) (r_tasks r) (r_sent r) (r_log r) in
  (record (upd r (tr_future tr) expect_one) (Registered requestID (tr_future tr)), requestID, tr).

Definition register_store (r : Replicator) (id : Z) (tr : trackedRequest) : Replicator := with_pending r (<[id := tr]> (r_pending r)).

(** [pending.Delete] after a failed send. *)
Definition forget (r : Replicator) (id : Z) : Replicator :=
  match claim_request r id Aborted with Some (r, _) => r | None => r end.

(** ** Replicate *)

Definition with_data (notify : OffsetNotify) (wireData : bytes) : OffsetNotify := mkNotify (n_origin notify) (n_key notify) wireData.

Definition return_rejected (r : Replicator) (err : repl_error) : Replicator * nat :=
  let '(r, f) := alloc r (rejectedFuture err) in (record r (Preset f), f).

(** The next round of the loop of [sendCrossRegion]. *)
Definition cross_next (f : nat) (peers : list Z) (deadline : Z) (body : bytes) : list task :=
  match peers with
  | [] => []
  | peerID :: rest => [TRegister (mkRequest f 0 0 deadline peerID [] false) body (KCross rest deadline body)]
  end.

Definition sendCrossRegion (r : Replicator) (body : bytes) (regions : gmap Z bytes) (now : Z) (i : nat) : Replicator :=
  let deadline := wrap64 (now + r_timeout r) in
  let '(r, f) := alloc r (resolve newFuture) in
  let peers := map fst (List.filter (fun x => negb (bool_decide (x.2 = r_localRegion r))) (map_range i regions)) in
  spawn (record r (Preset f)) (cross_next f peers deadline body).

(** Up to the fan-out, with the future it will return; [TSetup] is the rest. *)
Definition Replicate (r : Replicator) (notify : OffsetNotify) (wireData : bytes) (now : Z) (i : nat) : Replicator * nat :=
  let regions := regionsSnapshot r in
  let notify := with_data notify wireData in
  let targets := AliveSymmetricPeers (r_health r) (r_localRegion r) regions i in
  let crossRegion := existsb (fun x => negb (bool_decide (x.2 = r_localRegion r))) (map_range (i + 1) regions) in
  if bool_decide (targets = []) && negb crossRegion then return_rejected r ErrNoPeers
  else
    match marshal notify with
    | None => return_rejected r ErrMarshal
    | Some body =>
        let r := if crossRegion then sendCrossRegion r body regions now (i + 2) else r in
        if bool_decide (targets = []) then return_rejected r ErrNoPeers
        else
          let '(r, f) := alloc r newFuture in
          (spawn r (map (fun targetID => TRegister (mkRequest f 0 0 0 targetID [] true) body KPeer) targets ++ [TSetup f]), f)
    end.

(** ** ReplicateTo *)

Definition replicateBody (r : Replicator) (notifyBody : bytes) (targetPeerID : Z) (now : Z) : Replicator :=
  let '(r, f) := alloc r (set_setup newFuture) in
  spawn (record r (Body f)) [TRegister (mkRequest f 0 0 (wrap64 (now + r_timeout r)) targetPeerID [] false) notifyBody KBody].

Definition ReplicateTo (r : Replicator) (notify : OffsetNotify) (wireData : bytes) (targetPeerID : Z) (now : Z)
    : repl_error + Replicator :=
  match marshal (with_data notify wireData) with
  | None => inl ErrMarshal
  | Some body => inr (replicateBody r body targetPeerID now)
  end.

Definition ReplicateMarshalled (r : Replicator) (notifyBody : bytes) (targetPeerID : Z) (now : Z) : Replicator :=
  replicateBody r notifyBody targetPeerID now.

Definition SendOneWay (r : Replicator) (notify : OffsetNotify) (wireData : bytes) (targetPeerID : Z) (sent : bool)
    : repl_error + Replicator :=
  match MarshalNotifyPacket 0 (with_data notify wireData) with
  | None => inl ErrMarshal
  | Some packet => if sent then inr (send_to r targetPeerID packet) else inl (ErrSend targetPeerID)
  end.

(** The marshalling error is only logged. *)
Definition SendNack (r : Replicator) (nack : NackNotify) (targetPeerID : Z) (sent : bool) : Replicator :=
  match MarshalNackPacket nack with
  | Some packet => if sent then send_to r targetPeerID packet else r
  | None => r
  end.

(** After the send of a request. *)
Definition after_send (r : Replicator) (id : Z) (tr : trackedRequest) (k : cont) (sent : bool) : Replicator * list task :=
  match k with
  | KPeer => (if sent then send_to r (tr_peerID tr) (tr_packetData tr) else r, [])
  | KCross peers deadline body =>
      (if sent then send_to r (tr_peerID tr) (tr_packetData tr) else forget r id, cross_next (tr_future tr) peers deadline body)
  | KBody =>
      if sent then (send_to r (tr_peerID tr) (tr_packetData tr), [TSelect id (tr_future tr)])
      else (record (forget r id) (Returned (tr_future tr) (inl (ErrSend (tr_peerID tr)))), [])
  end.

(** The [select] of [replicateBody]: a closed [stopCh], or the future done. *)
Definition body_select (r : Replicator) (id : Z) (f : nat) (stop : bool) : option (Replicator * list task) :=
  if stop then
    if r_stopped r then
      match claim_request r id TimedOut with
      | Some (r, _) => Some (r, [TReject f ErrReplicationTimeout true])
      | None => Some (r, [TReturn f])
      end
    else None
  else if from_option f_done false (r_heap r !! f) then Some (r, [TReturn f])
  else None.

Definition body_return (r : Replicator) (f : nat) : option (Replicator * list task) :=
  fut ← r_heap r !! f;
  err ← Wait fut;
  Some (record r (Returned f (match err with Some e => inl e | None => inr (Nacks fut) end)), []).

(** ** One access of a goroutine *)

(** [wg.Wait]: no goroutine of the fan-out is left. *)
Definition fanned_out (f : nat) (ts : list task) : bool :=
  forallb (fun t => match t with
    | TRegister tr _ KPeer | TStore _ tr KPeer | TSend _ tr KPeer => negb (tr_future tr =? f)%nat
    | _ => true
    end) ts.

(** [None]: the task is blocked.  [ok] tells whether a send succeeds, or which
    case of a [select] is taken. *)
Definition run_task (r : Replicator) (t : task) (ok : bool) (now : Z) : option (Replicator * list task) :=
  match t with
  | TRegister tr body k => let '(r, id, tr) := register_count r tr body now in Some (r, [TStore id tr k])
  | TStore id tr k => Some (register_store r id tr, [TSend id tr k])
  | TSend id tr k => Some (after_send r id tr k ok)
  | TSetup f => if fanned_out f (r_tasks r) then Some (upd r f set_setup, [TCheck f]) else None
  | TCheck f => Some (upd r f setup_check, [])
  | TNacks f nacks notSubscribed =>
      Some (upd r f (set_nacks nacks), [if notSubscribed then TDropAdd f ErrAllPeersNotSubscribed else TResolve f])
  | TDropAdd f err =>
      fut ← r_heap r !! f;
      let '(fut, dropped) := drop_add fut in
      Some (upd r f (fun _ => fut), [TDropCheck f err dropped])
  | TDropCheck f err dropped => Some (upd r f (drop_check err dropped), [])
  | TResolve f => Some (upd r f resolve, [])
  | TReject f err wait => Some (upd r f (reject err), if wait then [TReturn f] else [])
  | TSelect id f => body_select r id f ok
  | TReturn f => body_return r f
  end.

(** ** Responses *)

Definition HandleNotifyACK (r : Replicator) (requestID : Z) : Replicator :=
  match claim_request r requestID (Accepted []) with
  | Some (r, tr) => spawn r [TResolve (tr_future tr)]
  | None => r
  end.

Definition notifyACKHeaderSize : nat := 22.

Definition packet_nacks (status : byte) (fullPacket : bytes) : list NackNotify :=
  if bool_decide (status = x01) && (notifyACKHeaderSize <? length fullPacket)%nat
  then from_option fst [] (parseNotifyNACKPayload (drop notifyACKHeaderSize fullPacket))
  else [].

Definition HandleNotifyACKWithData (r : Replicator) (requestID : Z) (status : byte) (fullPacket : bytes) : Replicator :=
  let nacks := packet_nacks status fullPacket in
  let notSubscribed := negb (bool_decide (nacks = [])) && forallb nk_notSubscribed nacks in
  match claim_request r requestID (if notSubscribed then Refused nacks else Accepted nacks) with
  | Some (r, tr) =>
      spawn r (match nacks with [] => [TResolve (tr_future tr)] | _ => [TNacks (tr_future tr) nacks notSubscribed] end)
  | None => r
  end.

(** The [PacketTypeNotifyACK] case of [dispatchPlaintext]. *)
Definition dispatch_ack (r : Replicator) (peerID : Z) (plaintext : bytes) : option Replicator :=
  parsed ← parseNotifyACKPacket plaintext;
  Some (match parsed with
        | inl _ => r
        | inr (ackPeerID, requestID, status, _) =>
            if negb (ackPeerID =? peerID) then r
            else if bool_decide (status = x01) then HandleNotifyACKWithData r requestID status plaintext
            else HandleNotifyACK r requestID
        end).

(** The answer of the peer that receives a notification, from what its handler
    returns; an error of the handler comes without refusals. *)
Definition HandleNotify (nodeID requestID : Z) (answer : ingest_error + list NackNotify) : bytes :=
  let nacks := match answer with inl _ => [] | inr nacks => nacks end in
  match nacks with
  | [] => MarshalNotifyACKPacket nodeID requestID x00 0
  | _ => MarshalNotifyNACKPacket nodeID requestID nacks 0
  end.

(** ** The sweep *)

Definition sweepInterval : Z := 250 * Millisecond.

Definition set_lastSent (now : Z) (tr : trackedRequest) : trackedRequest :=
  mkRequest (tr_future tr) (tr_createdAt tr) now (tr_deadline tr) (tr_peerID tr) (tr_packetData tr) (tr_retransmit tr).

(** The visit of one request. *)
Definition sweep_visit (r : Replicator) (id : Z) (now : Z) (sent : bool) : Replicator :=
  match r_pending r !! id with
  | None => r
  | Some tr =>
      if negb (tr_retransmit tr) then
        if tr_deadline tr <? now then
          match claim_request r id TimedOut with
          | Some (r, _) => spawn r [TReject (tr_future tr) ErrReplicationTimeout false]
          | None => r
          end
        else r
      else if negb (is_target (r_health r) (tr_peerID tr)) then
        match claim_request r id Gone with
        | Some (r, _) => spawn r [TDropAdd (tr_future tr) ErrNoPeers]
        | None => r
        end
      else if wrap64 (now - tr_lastSentAt tr) <? sweepInterval then r
      else
        let r := with_pending r (<[id := set_lastSent now tr]> (r_pending r)) in
        if sent then send_to r (tr_peerID tr) (tr_packetData tr) else r
  end.

(** The visit of one request in the pass that follows the shutdown. *)
Definition final_visit (r : Replicator) (id : Z) : Replicator :=
  match claim_request r id TimedOut with
  | Some (r, tr) => spawn r [TReject (tr_future tr) ErrReplicationTimeout false]
  | None => r
  end.

(** ** Steps *)

Inductive event :=
  | EReplicate (notify : OffsetNotify) (wireData : bytes) (now : Z) (i : nat)
  | EReplicateTo (notify : OffsetNotify) (wireData : bytes) (peer now : Z)
  | EReplicateMarshalled (body : bytes) (peer now : Z)
  | ESendOneWay (notify : OffsetNotify) (wireData : bytes) (peer : Z) (sent : bool)
  | ESendNack (nack : NackNotify) (peer : Z) (sent : bool)
  | ETask (n : nat) (ok : bool) (now : Z)
  | EPacket (peer : Z) (plaintext : bytes)
  | EVisit (id now : Z) (sent : bool)
  | EStop
  | EDrain
  | EFinalVisit (id : Z)
  | EFinish
  | EAddPeer (peer : Z) (region : bytes)
  | ERemovePeer (peer : Z)
  | EHealth (t : PeerHealthTable).

Definition step (r : Replicator) (ev : event) : option Replicator :=
  match ev with
  | EReplicate notify wireData now i => Some (Replicate r notify wireData now i).1
  | EReplicateTo notify wireData peer now => Some (match ReplicateTo r notify wireData peer now with inl _ => r | inr r => r end)
  | EReplicateMarshalled body peer now => Some (ReplicateMarshalled r body peer now)
  | ESendOneWay notify wireData peer sent => Some (match SendOneWay r notify wireData peer sent with inl _ => r | inr r => r end)
  | ESendNack nack peer sent => Some (SendNack r nack peer sent)
  | ETask n ok now =>
      t ← r_tasks r !! n;
      '(r', new) ← run_task r t ok now;
      Some (with_tasks r' (take n (r_tasks r) ++ new ++ drop (S n) (r_tasks r)))
  | EPacket peer plaintext => dispatch_ack r peer plaintext
  | EVisit id now sent => match r_sweeper r with Sweeping => Some (sweep_visit r id now sent) | _ => None end
  | EStop => Some (with_stop r true (r_sweeper r))
  | EDrain => match r_sweeper r with
              | Sweeping => if r_stopped r then Some (with_stop r true (Draining (dom (r_pending r)))) else None
              | _ => None
              end
  | EFinalVisit id => match r_sweeper r with
                      | Draining todo => Some (with_stop (final_visit r id) (r_stopped r) (Draining (todo ∖ {[id]})))
                      | _ => None
                      end
  | EFinish => match r_sweeper r with
               | Draining todo => if bool_decide (todo = ∅) then Some (with_stop r (r_stopped r) Finished) else None
               | _ => None
               end
  | EAddPeer peer region => Some (AddPeer r peer region)
  | ERemovePeer peer => Some (RemovePeer r peer)
  | EHealth t => Some (with_health r t)
  end.

Definition run (r : Replicator) (evs : list event) : option Replicator := fold_left (fun r ev => r ← r; step r ev) evs (Some r).

End Protocol.
