(* ===== verification/IngestProps.v ===== *)
(** * What an arrival does to the frontier *)

From S2P Require Import Prelude Golib Proto Store Walk ForkChoice TipSet Frontier Horizon Txn Wire Engine Ingest.

(** ** Frames

    What the walks and the index read of an engine: most bookkeeping leaves it
    alone. *)

Definition core (e : Engine) : gmap bytes TipSet * Store * gset bytes * Z := (g_index e, g_cache e, g_subs e, g_node e).

Lemma core_with_horizon f e : core (with_horizon f e) = core e.
Proof. unfold with_horizon. by destruct (g_horizon e). Qed.

Lemma core_make_visible `{!SortFunc} w x e : core (make_visible w x e) = core e.
Proof. unfold make_visible. destruct (g_horizon e) eqn:E; [|done]. unfold with_horizon. by rewrite E. Qed.

Lemma core_fold {A} (f : Engine -> A -> Engine) l e : (forall e x, core (f e x) = core e) -> core (fold_left f l e) = core e.
Proof. intros Hf. revert e. induction l as [|x l IH]; intros e; simpl; [done|]. by rewrite IH. Qed.

Lemma core_applySnapshotVerdicts `{!SortFunc} {ranger : MapRange} w eff e : core (applySnapshotVerdicts w eff e) = core e.
Proof.
  unfold applySnapshotVerdicts. destruct (g_horizon e), (get_snapshot eff); [|done..].
  apply core_fold. intros. apply core_make_visible.
Qed.

Lemma core_delete_tips l e : core (delete_tips l e) = core e.
Proof. done. Qed.

Lemma core_track_pending origin eff e : core (track_pending origin eff e) = core e.
Proof. unfold track_pending. by case_match. Qed.

Lemma core_abort_dep {ranger : MapRange} e t : core (abort_dep e t) = core e.
Proof. unfold abort_dep. by case_match; [case_match|]. Qed.

Lemma core_handleRemoteBind {ranger : MapRange} b off x e : core (handleRemoteBind b off x e) = core e.
Proof.
  unfold handleRemoteBind. set (e1 := match g_horizon e with Some _ => _ | None => _ end).
  change (core (fold_left abort_dep (tb_abort_deps b) e1) = core e).
  rewrite core_fold by (intros; apply core_abort_dep). unfold e1. case_match; [by rewrite !core_with_horizon|done].
Qed.

Lemma core_addPeer key p e : core (addPeerSubscriber key p e) = core e.
Proof. unfold addPeerSubscriber. by repeat case_match. Qed.

Lemma core_removePeer key p e : core (removePeerSubscriber key p e) = core e.
Proof. unfold removePeerSubscriber. by repeat case_match. Qed.

Lemma core_subscription_reply origin eff ts e : core (subscription_reply origin eff ts e).1 = core e.
Proof.
  unfold subscription_reply. case_match; [|done]. case_match; [done|]. cbn [fst].
  case_match; [apply core_removePeer|apply core_addPeer].
Qed.

(** ** The frontier of a key *)

Definition frontier_of (e : Engine) (key : bytes) : gset Tip := tips_set (index_tips e key).

Lemma elem_of_frontier e key t : t ∈ frontier_of e key <-> t ∈ tips_at e key.
Proof. unfold frontier_of, tips_set, tips_at. by rewrite elem_of_list_to_set. Qed.

Lemma frontier_core e e' key : core e = core e' -> frontier_of e key = frontier_of e' key.
Proof. unfold core, frontier_of, index_tips. by intros [= -> _ _ _]. Qed.

Lemma apply_update_index key u e :
  g_index (apply_update key u e) = <[key := NewTipSet (g_addr e) (update_offsets u (index_tips e key))]> (g_index e)
  /\ g_cache (apply_update key u e) = g_cache e /\ g_subs (apply_update key u e) = g_subs e /\ g_node (apply_update key u e) = g_node e.
Proof. unfold apply_update. by case_match. Qed.

Lemma frontier_update key u e k :
  frontier_of (apply_update key u e) k
  = if decide (k = key) then (frontier_of e key ∖ list_to_set (consumed u)) ∪ list_to_set (added u) else frontier_of e k.
Proof.
  unfold frontier_of, index_tips. destruct (apply_update_index key u e) as (-> & _). case_decide as Hk.
  - subst. rewrite lookup_insert_eq. apply update_offsets_set.
  - by rewrite lookup_insert_ne by congruence.
Qed.

(** Keys of a bind, its own apart. *)
Definition other_keys (eff : Effect) : gset bytes :=
  list_to_set (map kb_key (bind_keys eff)) ∖ {[ e_key eff ]}.

Definition arrival_frontier (origin : Tip) (eff : Effect) (e : Engine) (k : bytes) : gset Tip :=
  if decide (k ∈ g_subs e) then
    if decide (k = e_key eff) then (frontier_of e k ∖ list_to_set (consumes eff)) ∪ {[ origin ]}
    else if decide (k ∈ other_keys eff) then {[ origin ]} ∪ frontier_of e k else frontier_of e k
  else frontier_of e k.

Lemma index_others origin key kbs e :
  let e' := fold_left (fun e kb => if bool_decide (kb_key kb = key) || negb (bool_decide (kb_key kb ∈ g_subs e)) then e
    else updateIndex (kb_key kb) None origin e) kbs e in
  g_cache e' = g_cache e /\ g_subs e' = g_subs e /\ g_node e' = g_node e
  /\ (forall k, frontier_of e' k = if decide (k ∈ g_subs e /\ k <> key /\ k ∈ map kb_key kbs)
      then {[ origin ]} ∪ frontier_of e k else frontier_of e k).
Proof.
  cbv zeta. revert e. induction kbs as [|kb kbs IH]; intros e; cbn [fold_left map].
  { split_and!; [done..|]. intros k. rewrite decide_False; [done|]. intros (_ & _ & ?%elem_of_nil). done. }
  set (e1 := if bool_decide (kb_key kb = key) || _ then e else _). destruct (IH e1) as (Hc & Hs & Hn & Hf).
  assert (H1 : g_cache e1 = g_cache e /\ g_subs e1 = g_subs e /\ g_node e1 = g_node e
    /\ forall k, frontier_of e1 k = if decide (k ∈ g_subs e /\ k <> key /\ k = kb_key kb) then {[ origin ]} ∪ frontier_of e k else frontier_of e k).
  { unfold e1. destruct (bool_decide_reflect (kb_key kb = key)) as [Ek|Ek]; [|destruct (bool_decide_reflect (kb_key kb ∈ g_subs e)) as [Es|Es]];
      cbn [orb negb].
    1,3: split_and!; [done..|]; intros k; rewrite decide_False; [done|]; intros (? & ? & ->); congruence.
    unfold updateIndex. destruct (apply_update_index (kb_key kb) (UpdateIndex None origin) e) as (_ & -> & -> & ->). split_and!; [done..|].
    intros k. rewrite frontier_update. cbn [consumed added Tips list_to_set]. destruct (decide (k = kb_key kb)) as [->|Hk].
    - rewrite decide_True by (by subst). set_solver.
    - rewrite decide_False; [done|]. intros (_ & _ & ?). done. }
  destruct H1 as (Hc1 & Hs1 & Hn1 & Hf1). split_and!; [congruence..|]. intros k. rewrite Hf, Hf1, Hs1.
  clear IH Hf Hf1 Hc Hs Hn Hc1 Hs1 Hn1 e1. pose proof (elem_of_cons (map kb_key kbs) k (kb_key kb)) as Hcons.
  repeat case_decide; try tauto; set_solver.
Qed.

Lemma index_arrival_spec origin eff e :
  g_cache (index_arrival origin eff e) = g_cache e /\ g_subs (index_arrival origin eff e) = g_subs e
  /\ g_node (index_arrival origin eff e) = g_node e
  /\ forall k, frontier_of (index_arrival origin eff e) k = arrival_frontier origin eff e k.
Proof.
  unfold index_arrival. set (e1 := if bool_decide (e_key eff ∈ g_subs e) then _ else e).
  destruct (index_others origin (e_key eff) (bind_keys eff) e1) as (Hc & Hs & Hn & Hf).
  assert (H1 : g_cache e1 = g_cache e /\ g_subs e1 = g_subs e /\ g_node e1 = g_node e /\ forall k, frontier_of e1 k =
    if decide (k = e_key eff /\ k ∈ g_subs e) then (frontier_of e k ∖ list_to_set (consumes eff)) ∪ {[ origin ]} else frontier_of e k).
  { unfold e1. destruct (bool_decide_reflect (e_key eff ∈ g_subs e)) as [Hk|Hk].
    - unfold updateIndex. destruct (apply_update_index (e_key eff) (UpdateIndex (Some (NewTipSet 0 (consumes eff))) origin) e) as (_ & -> & -> & ->).
      split_and!; [done..|]. intros k. rewrite frontier_update. cbn [consumed added list_to_set Tips].
      destruct (decide (k = e_key eff)) as [->|Hne]; [|rewrite decide_False by tauto; done].
      rewrite decide_True by done. apply set_eq. intros t.
      rewrite !elem_of_union, !elem_of_difference, !elem_of_list_to_set, elem_of_NewTipSet. set_solver.
    - split_and!; [done..|]. intros k. rewrite decide_False; [done|]. intros [-> ?]. done. }
  destruct H1 as (Hc1 & Hs1 & Hn1 & Hf1). split_and!; [congruence..|]. intros k. rewrite Hf, Hf1, Hs1. unfold arrival_frontier, other_keys.
  destruct (decide (k ∈ g_subs e)) as [Hk|Hk]; [|rewrite !decide_False by tauto; done].
  destruct (decide (k = e_key eff)) as [->|Hne].
  - rewrite (decide_False (P := _ /\ _ <> _ /\ _)) by tauto. by rewrite decide_True.
  - rewrite (decide_False (P := k = e_key eff /\ _)) by tauto. destruct (decide (k ∈ map kb_key (bind_keys eff))) as [Hin|Hin].
    + rewrite decide_True by done. rewrite decide_True; [done|]. rewrite elem_of_difference, elem_of_list_to_set, elem_of_singleton. done.
    + rewrite decide_False by tauto. rewrite decide_False; [done|]. rewrite elem_of_difference, elem_of_list_to_set. tauto.
Qed.

Section Arrival.
Context {ranger : MapRange} {sorter : SortFunc} `{!ProtoCodec Effect}.
Variable (w : World).
Implicit Types (e : Engine) (eff : Effect) (origin : Tip).

(** ** One arrival *)

Lemma arrival_frontier_core origin eff e e' k : core e = core e' -> arrival_frontier origin eff e k = arrival_frontier origin eff e' k.
Proof.
  intros Hc. unfold arrival_frontier. rewrite (frontier_core _ _ k Hc). unfold core in Hc. by injection Hc as _ _ -> _.
Qed.

(** From an effect in the cache, the state an accepted arrival ends in. *)
Definition arrived (origin : Tip) (eff : Effect) (e e' : Engine) : Prop :=
  g_cache e' = <[origin := eff]> (g_cache e) /\ g_subs e' = g_subs e /\ g_node e' = g_node e
  /\ forall k, frontier_of e' k = arrival_frontier origin eff e k.

Lemma indexed_arrived origin eff e e1 : core e1 = core (set_cache (<[origin := eff]> (g_cache e)) e) ->
  arrived origin eff e (index_arrival origin eff e1).
Proof.
  intros Hc. destruct (index_arrival_spec origin eff e1) as (H1 & H2 & H3 & H4). unfold arrived. rewrite H1, H2, H3.
  assert (Hf : forall k, arrival_frontier origin eff e1 k = arrival_frontier origin eff e k).
  { intros k. unfold arrival_frontier, frontier_of, index_tips. unfold core in Hc. by injection Hc as -> _ -> _. }
  unfold core in Hc. injection Hc as _ -> -> ->. split_and!; [done..|]. intros k. by rewrite H4, Hf.
Qed.

Lemma arrived_core origin eff e e1 e2 : core e2 = core e1 -> arrived origin eff e e1 -> arrived origin eff e e2.
Proof.
  intros Hc (H1 & H2 & H3 & H4). unfold arrived. assert (Hf := fun k => frontier_core e2 e1 k Hc).
  unfold core in Hc. injection Hc as _ -> -> ->. split_and!; [done..|]. intros k. by rewrite Hf.
Qed.

Lemma ingest_accepted_spec origin eff e : is_flush eff = false ->
  exists e' nacks, ingest_accepted w origin eff (set_cache (<[origin := eff]> (g_cache e)) e) = (e', inr nacks)
    /\ arrived origin eff e e'.
Proof.
  intros Hfl. unfold ingest_accepted. rewrite Hfl.
  set (e1 := match get_txn_bind eff with Some _ => _ | None => _ end).
  assert (Hc1 : core e1 = core (set_cache (<[origin := eff]> (g_cache e)) e)).
  { unfold e1. case_match; [rewrite core_handleRemoteBind|]; by rewrite core_track_pending, core_applySnapshotVerdicts. }
  pose proof (core_subscription_reply origin eff (index_tips e1 (e_key eff)) (index_arrival origin eff e1)) as Hr.
  destruct (subscription_reply _ _ _ _) as [e2 replies] eqn:E. cbn [fst] in Hr.
  do 2 eexists. split; [done|]. eapply arrived_core; [|by apply indexed_arrived]. done.
Qed.

Lemma putIngested_some origin eff e : w_accepts w origin = true -> putIngested w origin eff e = Some (set_cache (<[origin := eff]> (g_cache e)) e).
Proof. unfold putIngested. by intros ->. Qed.

Lemma FlushIndex_some e : w_resets w = true ->
  exists e', FlushIndex w e = Some e' /\ g_index e' = ∅ /\ g_peers e' = ∅ /\ g_cache e' = g_cache e /\ g_flushGen e' = wrapu64 (g_flushGen e + 1).
Proof. unfold FlushIndex. intros ->. eexists. split; [done|]. done. Qed.

Lemma handle_effect_cases origin eff e : ephemeral w origin eff e = None ->
  let refused := emit_out (filter_outputs eff e) e in
  if negb (authoritative e eff || bool_decide (e_key eff = FlushKey)) then
    handle_effect w origin eff e = (refused, inr (match get_subscription eff with Some _ => [] | None => [not_subscribed (e_key eff)] end))
  else if negb (hash_valid eff) then handle_effect w origin eff e = (refused, inl HashMismatch)
  else if negb (w_accepts w origin) then handle_effect w origin eff e = (refused, inl StoreFailed)
  else if is_flush eff then
    match handle_effect w origin eff e with
    | (e', inr nacks) => w_resets w = true /\ nacks = [] /\ g_index e' = ∅ /\ g_cache e' = <[origin := eff]> (g_cache e)
    | (e', inl err) => w_resets w = false /\ err = StoreFailed /\ g_index e' = g_index e
    end
  else exists e' nacks, handle_effect w origin eff e = (e', inr nacks) /\ arrived origin eff e e'.
Proof.
  intros He. cbv zeta. unfold handle_effect. rewrite He. set (e0 := emit_out (filter_outputs eff e) e).
  change (authoritative e0 eff) with (authoritative e eff).
  destruct (authoritative e eff || bool_decide (e_key eff = FlushKey)); cbn [negb]; [|done].
  destruct (hash_valid eff); cbn [negb]; [|done]. destruct (w_accepts w origin) eqn:Ha; cbn [negb]; [|by unfold putIngested; rewrite Ha].
  rewrite putIngested_some by done. destruct (is_flush eff) eqn:Hf.
  - unfold ingest_accepted. rewrite Hf. set (e1 := applySnapshotVerdicts _ _ _).
    assert (Hc : core e1 = core (set_cache (<[origin := eff]> (g_cache e0)) e0)) by apply core_applySnapshotVerdicts.
    destruct (w_resets w) eqn:Hr.
    + destruct (FlushIndex_some e1 Hr) as (e2 & -> & Hi & _ & Hca & _). split_and!; [done..|].
      cbn. rewrite Hca. unfold core in Hc. by injection Hc as _ -> _ _.
    + unfold FlushIndex. rewrite Hr. split_and!; [done..|]. unfold core in Hc. by injection Hc as -> _ _ _.
  - destruct (ingest_accepted_spec origin eff e0 Hf) as (e' & nacks & -> & Harr). eauto.
Qed.

(** [C6] What a remote effect does, on every branch.  A message that is not stored
    apart, the effect is refused without a trace in the index or the cache when
    the node does not track its key (nor, for a bind, any of its keys), when
    its fork-choice hash is not the hash of its clock and node, and when the
    disk refuses it; the sender learns which.  A flush empties the index.
    Any other effect becomes resident under its reference, a tip of its key in
    place of the tips it depends on if the node is subscribed to the key, and
    one more tip of every other subscribed key of a bind; no other key's tips
    change. *)
Theorem remote_effect_exact origin eff e : ephemeral w origin eff e = None ->
  let refused := emit_out (filter_outputs eff e) e in
  if negb (authoritative e eff || bool_decide (e_key eff = FlushKey)) then
    handle_effect w origin eff e = (refused, inr (match get_subscription eff with Some _ => [] | None => [not_subscribed (e_key eff)] end))
  else if negb (hash_valid eff) then handle_effect w origin eff e = (refused, inl HashMismatch)
  else if negb (w_accepts w origin) then handle_effect w origin eff e = (refused, inl StoreFailed)
  else if is_flush eff then
    match handle_effect w origin eff e with
    | (e', inr nacks) => w_resets w = true /\ nacks = [] /\ g_index e' = ∅ /\ g_cache e' = <[origin := eff]> (g_cache e)
    | (e', inl err) => w_resets w = false /\ err = StoreFailed /\ g_index e' = g_index e
    end
  else exists e' nacks, handle_effect w origin eff e = (e', inr nacks) /\ arrived origin eff e e'.
Proof. apply handle_effect_cases. Qed.

(** ** Backfill *)

Lemma backfill_effect_spec origin eff fromCache e e' err : backfill_effect w origin eff fromCache e = (e', err) ->
  (fromCache = true -> g_cache e !! origin = Some eff) ->
  core e' = core e \/ arrived origin eff e e'.
Proof.
  unfold backfill_effect. intros Hb Hc. destruct (authoritative e eff); cbn [negb] in Hb; [|injection Hb as <- <-; by left].
  destruct (hash_valid eff); cbn [negb] in Hb; [|injection Hb as <- <-; by left].
  assert (Hgo : forall e1, core e1 = core (set_cache (<[origin := eff]> (g_cache e)) e) ->
    arrived origin eff e (index_arrival origin eff (delete_tips (map kb_new_tip (bind_keys eff)) (track_pending origin eff (applySnapshotVerdicts w eff e1))))).
  { intros e1 H1. apply indexed_arrived. by rewrite core_delete_tips, core_track_pending, core_applySnapshotVerdicts. }
  destruct fromCache.
  - injection Hb as <- <-. right. apply Hgo. unfold core. cbn. by rewrite insert_id by auto.
  - unfold putIngested in Hb. destruct (w_accepts w origin); [|injection Hb as <- <-; by left]. injection Hb as <- <-. right. by apply Hgo.
Qed.

(** Where an effect can come from. *)
Definition served (origin : Tip) (data : bytes) (e : Engine) (eff : Effect) : Prop :=
  (g_cache e !! origin = Some eff) \/ exists d, ((data <> [] /\ d = data) \/ w_net w !! origin = Some d) /\ parse_data d = Some eff.

Lemma handleBackfill_spec notify e e' err : handleBackfill w notify e = (e', err) ->
  core e' = core e \/ exists origin eff, n_origin notify = Some origin /\ arrived origin eff e e'
    /\ served origin (n_data notify) e eff.
Proof.
  unfold handleBackfill, served. destruct (n_origin notify) as [origin|]; [|intros [= <- <-]; by left].
  assert (Hrest : forall e' err, match notify_data w origin (n_data notify) with
      | inl err => (e, err)
      | inr data => match parse_data data with None => (e, Some ParseFailed) | Some eff => backfill_effect w origin eff false e end
      end = (e', err) -> core e' = core e \/ exists o eff, Some origin = Some o /\ arrived o eff e e'
        /\ (g_cache e !! o = Some eff \/ exists d, ((n_data notify <> [] /\ d = n_data notify) \/ w_net w !! o = Some d) /\ parse_data d = Some eff)).
  { intros e1 err1. destruct (notify_data w origin (n_data notify)) as [err2|data] eqn:Ed; [intros [= <- <-]; by left|].
    destruct (parse_data data) as [eff|] eqn:Ep; [|intros [= <- <-]; by left]. intros Hb.
    destruct (backfill_effect_spec _ _ _ _ _ _ Hb) as [|Ha]; [done|by left|right].
    exists origin, eff. split_and!; [done..|]. right. exists data. split; [|done].
    unfold notify_data in Ed. destruct (n_data notify); [|injection Ed as <-; by left].
    destruct (w_broadcaster w); [|done]. destruct (w_net w !! origin) eqn:En; [|done]. injection Ed as <-. by right. }
  destruct (n_data notify) as [|b data] eqn:En; [|apply Hrest].
  destruct (g_cache e !! origin) as [eff|] eqn:Ec; [|apply Hrest].
  intros Hb. destruct (backfill_effect_spec _ _ _ _ _ _ Hb) as [|Ha]; [done|by left|right].
  exists origin, eff. split_and!; [done..|by left].
Qed.

End Arrival.

(** ** The frontier walk *)

Section Fwalk.
Context {St : Type}.
Variable (reach : St -> Tip -> St * option Effect) (R : St -> St -> Prop) (U : gset Tip) (P : St -> Prop).
Hypothesis R_refl : forall s, P s -> R s s.
Hypothesis R_trans : forall s1 s2 s3, R s1 s2 -> R s2 s3 -> R s1 s3.
Hypothesis reach_ok : forall s tp s' found, P s -> reach s tp = (s', found) -> R s s' /\ P s' /\ (is_Some found -> tp ∈ U).

(** The work left: tips not yet visited, and those waiting. *)
Definition fw_work (wk : fwalk St) : nat := (size (U ∖ fw_visited wk) + length (fw_queue wk) + length (fw_snapshots wk))%nat.

Lemma size_visit (tp : Tip) (V : gset Tip) : tp ∉ V -> tp ∈ U -> (S (size (U ∖ ({[ tp ]} ∪ V))) = size (U ∖ V))%nat.
Proof.
  intros HV HU. rewrite <- (size_union_singleton (U ∖ ({[ tp ]} ∪ V)) tp) by set_solver. f_equal.
  apply set_eq. intros x. destruct (decide (x = tp)); set_solver.
Qed.

Lemma enqueue_ok standalone (tp : Tip) wk : P (fw_state wk) ->
  R (fw_state wk) (fw_state (enqueue reach standalone tp wk)) /\ P (fw_state (enqueue reach standalone tp wk))
  /\ (fw_work (enqueue reach standalone tp wk) <= fw_work wk)%nat.
Proof.
  intros HP. unfold enqueue. destruct (is_zero tp); [auto|]. destruct (bool_decide_reflect (tp ∈ fw_visited wk)) as [Hv|Hv].
  { destruct (fw_nodes wk !! tp) as [eff|]; [|auto]. destruct (negb standalone && is_standalone_sub eff); [|auto]. cbn. auto. }
  destruct (reach (fw_state wk) tp) as [s found] eqn:E. destruct (reach_ok _ _ _ _ HP E) as (HR & HP' & Hin).
  assert (Hle : (size (U ∖ ({[ tp ]} ∪ fw_visited wk)) <= size (U ∖ fw_visited wk))%nat) by (apply subseteq_size; set_solver).
  unfold fw_work. destruct found as [eff|]; [|cbn; split_and!; [done..|lia]].
  pose proof (size_visit tp (fw_visited wk) Hv (Hin ltac:(eauto))).
  destruct (is_state_snapshot eff); cbn; rewrite length_app; cbn; split_and!; [done..|lia|done|done|lia].
Qed.

Lemma enqueue_all_ok standalone (tps : list Tip) wk : P (fw_state wk) ->
  let wk' := fold_left (fun wk tp => enqueue reach standalone tp wk) tps wk in
  R (fw_state wk) (fw_state wk') /\ P (fw_state wk') /\ (fw_work wk' <= fw_work wk)%nat.
Proof.
  cbv zeta. revert wk. induction tps as [|tp tps IH]; intros wk HP; cbn [fold_left]; [auto|].
  destruct (enqueue_ok standalone tp wk HP) as (HR & HP1 & Hw). destruct (IH _ HP1) as (HR2 & HP2 & Hw2).
  split_and!; [by eapply R_trans|done|lia].
Qed.

Lemma fw_loop_ok fuel key wk : P (fw_state wk) -> (fw_work wk <= fuel)%nat ->
  exists s, fw_loop reach fuel key wk = Done s /\ R (fw_state wk) s /\ P s.
Proof.
  revert wk. induction fuel as [|fuel IH]; intros wk HP Hf.
  - unfold fw_work in Hf. destruct (fw_queue wk) as [|x q] eqn:Eq; [|cbn in Hf; lia].
    destruct (fw_snapshots wk) as [|x q] eqn:Es; [|cbn in Hf; lia]. cbn [fw_loop]. unfold fw_pop. rewrite Eq, Es. eauto.
  - cbn [fw_loop]. destruct (fw_pop wk) as [[cur wk1]|] eqn:Ep; [|eauto].
    assert (H1 : fw_state wk1 = fw_state wk /\ (fw_work wk1 < fw_work wk)%nat).
    { unfold fw_pop in Ep. unfold fw_work. destruct (fw_queue wk) as [|x q]; [destruct (fw_snapshots wk) as [|x q]; [done|]|];
        injection Ep as <- <-; cbn; split; [done|lia|done|lia]. }
    destruct H1 as [Es Hlt]. rewrite <- Es in *. destruct (fw_nodes wk1 !! cur) as [eff|]; [|apply IH; [done|lia]].
    destruct (is_state_snapshot eff && _); [eauto|].
    assert (H2 : R (fw_state wk1) (fw_state (fw_expand reach key cur eff wk1)) /\ P (fw_state (fw_expand reach key cur eff wk1))
      /\ (fw_work (fw_expand reach key cur eff wk1) <= fw_work wk1)%nat).
    { unfold fw_expand. destruct (keyDeps key eff) as [|d ds]; [auto|].
      exact (enqueue_all_ok false (d :: ds) (mkFwalk (fw_visited wk1) (fw_queue wk1) (fw_snapshots wk1) (fw_frontier wk1 ∖ {[ cur ]}) (fw_nodes wk1) (fw_state wk1)) HP). }
    destruct H2 as (HR & HP2 & Hw2). destruct (IH (fw_expand reach key cur eff wk1)) as (s & Hd & HR2 & HPs); [done|lia|].
    exists s. split_and!; [done|by eapply R_trans|done].
Qed.

Lemma fw_walk_ok fuel key (tips : list Tip) s : P s -> (size U <= fuel)%nat ->
  exists s', fw_loop reach fuel key (fw_start reach tips s) = Done s' /\ R s s' /\ P s'.
Proof.
  intros HP Hf. set (w0 := mkFwalk ∅ [] [] ∅ ∅ s).
  destruct (enqueue_all_ok true tips w0 HP) as (HR & HP1 & Hw). unfold fw_start.
  destruct (fw_loop_ok fuel key (fold_left (fun wk tp => enqueue reach true tp wk) tips w0)) as (s' & Hd & HR2 & HPs); [done| |].
  - unfold fw_work in Hw at 2. cbn in Hw. rewrite difference_empty_L in Hw. lia.
  - exists s'. split_and!; [done|by eapply R_trans|done].
Qed.

End Fwalk.
