(* ===== verification/IngestHistory.v ===== *)
(** * Ingest loses no history *)

From S2P Require Import Prelude Golib Proto Store Walk ForkChoice Horizon Txn TipSet Frontier Wire Engine Ingest IngestProps.

(** Effects that are stored when they arrive. *)
Definition is_stored (eff : Effect) : bool :=
  match e_kind eff with
  | Some (KSubscription sub) => negb (sub_discovery sub) && negb (sub_ephemeral sub)
  | Some (KPubSub _) => false
  | _ => true
  end.

Section History.
Context {ranger : MapRange} {sorter : SortFunc} `{!ProtoCodec Effect}.

(** What was ever minted, by reference.  Effects are immutable, so a reference
    stands for one effect on every node. *)
Variable (truth : Store).

(** A bind is stored under one of its keys, and nobody flushed. *)
Record well_formed : Prop := {
  wf_bind : forall t eff b, truth !! t = Some eff -> get_txn_bind eff = Some b -> is_Some (find_key (e_key eff) (tb_keys b));
  wf_flush : forall t eff, truth !! t = Some eff -> is_flush eff = false;
}.

Definition genuine (origin : Tip) (data : bytes) : Prop := forall eff, parse_data data = Some eff -> truth !! origin = Some eff.

(** A notification may also carry a message that is not stored, under any
    reference. *)
Definition genuine_notify (notify : OffsetNotify) : Prop :=
  forall o eff, n_origin notify = Some o -> n_data notify <> [] -> parse_data (n_data notify) = Some eff -> is_stored eff = true -> truth !! o = Some eff.

Definition genuine_world (w : World) : Prop := forall t data, w_net w !! t = Some data -> genuine t data.

(** One event of a node that receives: a notification, an effect learned of
    indirectly, a refusal, a timer of the horizon. *)
Inductive ingest_step : Engine -> Engine -> Prop :=
  | step_remote w notify e : genuine_world w -> genuine_notify notify ->
      ingest_step e (HandleRemote w notify e).1
  | step_backfill w notify e : genuine_world w -> (forall o, n_origin notify = Some o -> n_data notify <> [] -> genuine o (n_data notify)) ->
      ingest_step e (handleBackfill w notify e).1
  | step_nack w nack e e' : genuine_world w -> HandleNack w nack e = Done e' -> ingest_step e e'
  | step_timer tm e : ingest_step e (with_horizon (fun h => (fire tm h).1) e).

(** Every tip a key had is still reached from the tips it has. *)
Definition covers (e e' : Engine) : Prop :=
  forall key t, t ∈ frontier_of e key -> exists t', t' ∈ frontier_of e' key /\ rtc (dep (g_cache e') key) t' t.

Definition resident (e : Engine) : Prop := forall key t, t ∈ frontier_of e key -> is_Some (g_cache e !! t).

Record progress (e e' : Engine) : Prop := {
  pr_truth : g_cache e' ⊆ truth;
  pr_cache : g_cache e ⊆ g_cache e';
  pr_covers : covers e e';
  pr_resident : resident e -> resident e';
}.

Lemma progress_core e e' : g_cache e ⊆ truth -> core e' = core e -> progress e e'.
Proof.
  intros Ht Hc. pose proof (fun k => frontier_core _ _ k Hc) as Hf. unfold core in Hc. injection Hc as _ Hc _ _.
  split; [by rewrite Hc|by rewrite Hc| |].
  - intros key t Hk. exists t. rewrite Hf. split; [done|apply rtc_refl].
  - intros Hr key t. rewrite Hf, Hc. apply Hr.
Qed.

Lemma progress_refl e : g_cache e ⊆ truth -> progress e e.
Proof. intros. by apply progress_core. Qed.

Lemma progress_trans e1 e2 e3 : progress e1 e2 -> progress e2 e3 -> progress e1 e3.
Proof.
  intros [T1 C1 V1 R1] [T2 C2 V2 R2]. split; [done|by etrans| |auto].
  intros key t Ht. destruct (V1 key t Ht) as (t1 & Ht1 & Hp1). destruct (V2 key t1 Ht1) as (t2 & Ht2 & Hp2).
  exists t2. split; [done|]. etrans; [exact Hp2|]. eapply rtc_subrel; [|exact Hp1]. intros x y. by apply dep_mono.
Qed.

(** Only dependencies along the key are consumed. *)
Lemma consumes_keyDeps eff t : (forall b, get_txn_bind eff = Some b -> is_Some (find_key (e_key eff) (tb_keys b))) ->
  t ∈ consumes eff -> t ∈ keyDeps (e_key eff) eff.
Proof.
  unfold consumes, keyDeps, bind_keys. intros Hb. destruct (get_txn_bind eff) as [b|].
  - destruct (Hb b eq_refl) as [kb ->]. done.
  - done.
Qed.

Lemma progress_arrived origin eff e e' : well_formed -> g_cache e ⊆ truth -> truth !! origin = Some eff ->
  arrived origin eff e e' -> progress e e'.
Proof.
  intros [Hwf _] Ht Ho (Hc & Hs & Hn & Hf).
  assert (Hsub : g_cache e ⊆ <[origin := eff]> (g_cache e)).
  { apply map_subseteq_spec. intros t x Hx. destruct (decide (t = origin)) as [->|]; [|by rewrite lookup_insert_ne].
    rewrite lookup_insert_eq. f_equal. eapply lookup_weaken in Hx; [|exact Ht]. congruence. }
  split.
  - rewrite Hc. by apply insert_subseteq_l.
  - by rewrite Hc.
  - intros key t Hk. rewrite Hf. unfold arrival_frontier. repeat case_decide; subst.
    + destruct (decide (t ∈ consumes eff)) as [Hin|Hin].
      * exists origin. split; [set_solver|]. apply rtc_once. exists eff. rewrite Hc, lookup_insert_eq. split; [done|].
        apply consumes_keyDeps; [|done]. intros b. by apply (Hwf origin).
      * exists t. split; [|apply rtc_refl]. apply elem_of_union. left. apply elem_of_difference. by rewrite elem_of_list_to_set.
    + exists t. split; [set_solver|apply rtc_refl].
    + exists t. split; [done|apply rtc_refl].
    + exists t. split; [done|apply rtc_refl].
  - intros Hr key t. rewrite Hf, Hc. intros Hin. destruct (decide (t = origin)) as [->|Hne]; [rewrite lookup_insert_eq; eauto|].
    rewrite lookup_insert_ne by done. apply (Hr key). clear -Hin Hne. unfold arrival_frontier in Hin. repeat case_decide; set_solver.
Qed.

Lemma served_truth w origin data e eff : g_cache e ⊆ truth -> genuine_world w -> (data <> [] -> genuine origin data) ->
  served w origin data e eff -> truth !! origin = Some eff.
Proof.
  intros Ht Hw Hg [Hc|(d & [[Hne ->]|Hd] & Hp)]; [by eapply lookup_weaken|by apply Hg|]. by eapply Hw.
Qed.

Lemma progress_backfill w notify e : well_formed -> g_cache e ⊆ truth -> genuine_world w ->
  (forall o, n_origin notify = Some o -> n_data notify <> [] -> genuine o (n_data notify)) -> progress e (handleBackfill w notify e).1.
Proof.
  intros Hwf Ht Hw Hg. destruct (handleBackfill w notify e) as [e' err] eqn:E. cbn [fst].
  apply handleBackfill_spec in E as [Hc|(origin & eff & Ho & Harr & Hs)]; [by apply progress_core|].
  eapply progress_arrived; [done..| |done]. eapply served_truth; [done..|by apply Hg|done].
Qed.

Lemma ephemeral_core w origin eff e e' : ephemeral w origin eff e = Some e' -> core e' = core e.
Proof. unfold ephemeral. intros H. repeat (case_match; simplify_eq; try done). Qed.

Lemma ephemeral_stored w origin eff e : ephemeral w origin eff e = None -> is_stored eff = true.
Proof.
  unfold ephemeral, is_stored. destruct (e_kind eff) as [[]|]; try done.
  by destruct (sub_discovery s), (sub_ephemeral s).
Qed.

Lemma progress_remote w notify e : well_formed -> g_cache e ⊆ truth -> genuine_world w -> genuine_notify notify ->
  progress e (HandleRemote w notify e).1.
Proof.
  intros Hwf Ht Hw Hg. unfold HandleRemote. destruct (n_origin notify) as [origin|] eqn:Eo; [|by apply progress_refl].
  destruct (notify_data w origin (n_data notify)) as [[err|]|data] eqn:Ed; [by apply progress_refl..|].
  destruct (parse_data data) as [eff|] eqn:Ep; [|by apply progress_refl].
  destruct (ephemeral w origin eff e) as [e1|] eqn:Ee.
  { unfold handle_effect. rewrite Ee. apply progress_core; [done|]. by eapply ephemeral_core. }
  assert (Htr : truth !! origin = Some eff).
  { unfold notify_data in Ed. destruct (n_data notify) as [|x d] eqn:En.
    - destruct (w_broadcaster w); [|done]. destruct (w_net w !! origin) as [d|] eqn:Ew; [|done]. injection Ed as <-. by eapply Hw.
    - injection Ed as <-. eapply Hg; [done|by rewrite En| |by eapply ephemeral_stored]. by rewrite En. }
  pose proof (handle_effect_cases w origin eff e Ee) as Hx. cbv zeta in Hx. rewrite (wf_flush Hwf _ _ Htr) in Hx.
  repeat case_match; try (rewrite Hx; by apply progress_core).
  destruct Hx as (e' & nacks & -> & Harr). by eapply progress_arrived.
Qed.

(** Where the resident effects come from. *)
Definition within (U : gset Tip) (e : Engine) : Prop := dom (g_cache e) ⊆ U.

Lemma backfill_reach_ok (w : World) (key : bytes) (U : gset Tip) (e : Engine) (tp : Tip) (e' : Engine) (found : option Effect) : well_formed -> genuine_world w -> dom (w_net w) ⊆ U ->
  g_cache e ⊆ truth /\ within U e -> backfill_reach w key e tp = (e', found) ->
  progress e e' /\ (g_cache e' ⊆ truth /\ within U e') /\ (is_Some found -> tp ∈ U).
Proof.
  intros Hwf Hw HU [Ht Hin] Hr. set (notify := mkNotify (Some tp) key []).
  assert (Hp : progress e (handleBackfill w notify e).1) by (apply progress_backfill; [done..|by intros]).
  assert (Hin' : within U (handleBackfill w notify e).1).
  { destruct (handleBackfill w notify e) as [e1 err] eqn:E. cbn [fst].
    apply handleBackfill_spec in E as [Hc|(o & eff & Ho & (Hc & _) & Hs)]; unfold within.
    - unfold core in Hc. injection Hc as _ -> _ _. done.
    - rewrite Hc, dom_insert_L. injection Ho as <-. apply union_subseteq. split; [|done]. apply singleton_subseteq_l.
      destruct Hs as [Hs|(d & [[? _]|Hd] & _)]; [|done|]; [apply Hin|apply HU]; by eapply elem_of_dom_2. }
  unfold backfill_reach in Hr. fold notify in Hr. destruct (handleBackfill w notify e) as [e1 err] eqn:E. cbn [fst] in *.
  destruct err; injection Hr as <- <-; (split_and!; [done|apply Hp|done|]); [by intros [? ?]|].
  intros [eff He]. apply Hin'. by eapply elem_of_dom_2.
Qed.

Lemma ingestNackTips_ok w nack e : well_formed -> genuine_world w -> g_cache e ⊆ truth ->
  exists e', ingestNackTips w nack e = Done e' /\ progress e e'.
Proof.
  intros Hwf Hw Ht. unfold ingestNackTips. destruct (w_broadcaster w); cbn [negb]; [|eauto using progress_refl].
  set (U := dom (g_cache e) ∪ dom (w_net w)).
  destruct (fw_walk_ok (backfill_reach w (nk_key nack)) progress U (fun s => g_cache s ⊆ truth /\ within U s)) with
    (fuel := (size (g_cache e) + size (w_net w))%nat) (key := nk_key nack) (tips := map detail_tip (nk_details nack)) (s := e)
    as (e' & He & Hp & _).
  - intros s [Hs _]. by apply progress_refl.
  - apply progress_trans.
  - intros s tp s' found Hs. apply backfill_reach_ok; [done..| |done]. unfold U. set_solver.
  - split; [done|]. unfold within, U. set_solver.
  - unfold U. rewrite <- (size_dom (g_cache e)), <- (size_dom (w_net w)). rewrite size_union_alt.
    apply Nat.add_le_mono_l, subseteq_size. set_solver.
  - eauto.
Qed.

Lemma HandleNack_ok w nack e : well_formed -> genuine_world w -> g_cache e ⊆ truth ->
  exists e', HandleNack w nack e = Done e' /\ progress e e'.
Proof.
  intros Hwf Hw Ht. unfold HandleNack. destruct (ingestNackTips_ok w nack e Hwf Hw Ht) as (e1 & -> & Hp). cbn [mbind walk_bind].
  assert (Hself : progress e1 e1) by (apply progress_refl, Hp).
  destruct (matched_txn (nk_key nack) e1) as [[off ptxn]|]; [|eauto].
  destruct (existsb _ _); [|eauto]. eexists. split; [done|]. eapply progress_trans; [exact Hp|]. apply progress_core; [apply Hp|done].
Qed.

Lemma step_progress e e' : well_formed -> g_cache e ⊆ truth -> ingest_step e e' -> progress e e'.
Proof.
  intros Hwf Ht Hs. destruct Hs as [w notify e Hw Hg|w notify e Hw Hg|w nack e e' Hw Hn|tm e].
  - by apply progress_remote.
  - by apply progress_backfill.
  - destruct (HandleNack_ok w nack e Hwf Hw Ht) as (e1 & He & Hp). congruence.
  - apply progress_core; [done|]. apply core_with_horizon.
Qed.

(** [C5] Ingest loses no history.  Let a node take in notifications, effects learned
    of indirectly and refusals in any order, with fetches that succeed or fail
    and timers that fire.  As long as a reference stands for one effect, binds
    are stored under one of their keys and nobody flushes, every tip any key
    ever had is still reached from its tips along the key's dependencies, in
    effects the node holds; no resident effect is lost or replaced; tips stay
    resident if they were; and handling a refusal, with the catching-up it
    starts, always comes to an end. *)
Theorem ingest_keeps_history e e' : well_formed -> g_cache e ⊆ truth -> rtc ingest_step e e' ->
  (forall key t, t ∈ tips_at e key -> exists t', t' ∈ tips_at e' key /\ rtc (dep (g_cache e') key) t' t)
  /\ g_cache e ⊆ g_cache e' /\ g_cache e' ⊆ truth
  /\ ((forall key t, t ∈ tips_at e key -> is_Some (g_cache e !! t)) -> forall key t, t ∈ tips_at e' key -> is_Some (g_cache e' !! t))
  /\ forall w nack, genuine_world w -> exists e'', HandleNack w nack e' = Done e''.
Proof.
  intros Hwf Ht Hs.
  assert (Hp : progress e e').
  { induction Hs as [|e1 e2 e3 H12 _ IH]; [by apply progress_refl|]. pose proof (step_progress _ _ Hwf Ht H12) as H1.
    eapply progress_trans; [exact H1|]. apply IH, H1. }
  destruct Hp as [H1 H2 H3 H4]. unfold covers, resident in *. setoid_rewrite elem_of_frontier in H3. setoid_rewrite elem_of_frontier in H4.
  split_and!; [done..|]. intros w nack Hw. destruct (HandleNack_ok w nack e' Hwf Hw H1) as (e'' & ? & _). eauto.
Qed.

End History.

(** * When an arrival is refused, and with what *)


Section Refusal.
Context {ranger : MapRange} {sorter : SortFunc} `{!ProtoCodec Effect}.
Variable (w : World).

(** A tip of one of its keys that the bind neither consumed nor made. *)
Definition unknown_tip (origin : Tip) (b : TransactionalBindEffect) (e : Engine) (key : bytes) : Prop :=
  exists kb tip, kb ∈ tb_keys b /\ kb_key kb = key /\ tip ∈ tips_at e key
    /\ tip <> kb_new_tip kb /\ tip <> origin /\ tip ∉ kb_consumed_tips kb.

(** The keys a sender hears about, from the states before and after. *)
Definition answered (origin : Tip) (eff : Effect) (e e' : Engine) (key : bytes) : Prop :=
  match get_txn_bind eff with
  | Some b => unknown_tip origin b e' key
  | None => key = e_key eff
      /\ ((is_Some (index_tips e key) /\ exists dep, dep ∈ e_deps eff /\ dep ∉ tips_at e key)
          \/ (is_Some (get_subscription eff) /\ e_node_id eff <> g_node e))
  end.

Lemma diverged_iff origin kb tips :
  diverged origin kb tips = true <-> exists tip, tip ∈ tips /\ tip <> kb_new_tip kb /\ tip <> origin /\ tip ∉ kb_consumed_tips kb.
Proof.
  unfold diverged. rewrite existsb_exists. setoid_rewrite andb_true_iff. setoid_rewrite andb_true_iff.
  setoid_rewrite negb_true_iff. setoid_rewrite bool_decide_eq_false.
  assert (Hr : forall t, refsContain (kb_consumed_tips kb) t = false <-> t ∉ kb_consumed_tips kb).
  { intros t. unfold refsContain. rewrite <- not_true_iff_false, existsb_exists. split.
    - intros Hn Hin. apply Hn. exists t. split; [by apply list_elem_of_In|]. by apply bool_decide_eq_true.
    - intros Hn (x & Hx & ->%bool_decide_eq_true). apply Hn. by apply list_elem_of_In. }
  setoid_rewrite Hr. setoid_rewrite <- list_elem_of_In. naive_solver.
Qed.

Lemma nack_fields key c tips e nack : nack = buildEnrichedNack key c tips e ->
  nk_key nack = key /\ nk_conflicting nack = c /\ nk_notSubscribed nack = false
  /\ (forall t, t ∈ nk_tips nack <-> t ∈ tips /\ is_Some (g_cache e !! t))
  /\ (forall d, d ∈ nk_details nack <-> exists t x, t ∈ tips /\ g_cache e !! t = Some x /\ d = nackTipDetail t x).
Proof.
  intros ->. cbn. split_and!; [done..| |].
  - intros t. rewrite list_elem_of_In, in_map_iff. split.
    + intros ([t' x] & <- & Hin%list_elem_of_In). cbn. apply list_elem_of_omap in Hin as (t & Ht & Hx).
      destruct (g_cache e !! t) as [y|] eqn:E; [|done]. injection Hx as -> ->. eauto.
    + intros [Ht [x Hx]]. exists (t, x). split; [done|]. apply list_elem_of_In, list_elem_of_omap. exists t. split; [done|]. by rewrite Hx.
  - intros d. rewrite list_elem_of_In, in_map_iff. split.
    + intros ([t x] & <- & Hin%list_elem_of_In). cbn. apply list_elem_of_omap in Hin as (t' & Ht & Hx).
      destruct (g_cache e !! t') as [y|] eqn:E; [|done]. injection Hx as -> ->. eauto.
    + intros (t & x & Ht & Hx & ->). exists (t, x). split; [done|]. apply list_elem_of_In, list_elem_of_omap. exists t. split; [done|]. by rewrite Hx.
Qed.

(** What is known of every refusal in a list. *)
Definition refusal (origin : Tip) (e e' : Engine) (nack : NackNotify) : Prop :=
  nk_conflicting nack = Some origin /\ nk_notSubscribed nack = false
  /\ (forall t, t ∈ nk_tips nack -> (t ∈ tips_at e (nk_key nack) \/ t ∈ tips_at e' (nk_key nack)) /\ is_Some (g_cache e' !! t))
  /\ (forall d, d ∈ nk_details nack -> exists t x, t ∈ nk_tips nack /\ g_cache e' !! t = Some x /\ d = nackTipDetail t x).

Lemma refusal_built origin key tips e e' ec : g_cache ec = g_cache e' ->
  (forall t, t ∈ tips -> t ∈ tips_at e key \/ t ∈ tips_at e' key) ->
  refusal origin e e' (buildEnrichedNack key (Some origin) tips ec).
Proof.
  intros Hc Ht. destruct (nack_fields key (Some origin) tips ec _ eq_refl) as (Hk & Hcf & Hn & Htips & Hd).
  split_and!; [done|done| |].
  - intros t [Hin Hr]%Htips. rewrite Hk, <- Hc. auto.
  - intros d (t & x & Hin & Hx & ->)%Hd. exists t, x. rewrite <- Hc. split_and!; [|done..]. apply Htips. eauto.
Qed.

Lemma elem_of_bind_nacks origin kbs e nack : nack ∈ bind_nacks origin kbs e <->
  exists kb ts, kb ∈ kbs /\ index_tips e (kb_key kb) = Some ts /\ diverged origin kb (ts_tips ts) = true
    /\ nack = buildEnrichedNack (kb_key kb) (Some origin) (ts_tips ts) e.
Proof.
  unfold bind_nacks. rewrite list_elem_of_In, in_flat_map. split.
  - intros (kb & Hkb%list_elem_of_In & Hin). destruct (index_tips e (kb_key kb)) as [ts|] eqn:E; [|done].
    destruct (diverged origin kb (ts_tips ts)) eqn:Ed; [|done]. destruct Hin as [<-|[]]. eauto 10.
  - intros (kb & ts & Hkb & E & Ed & ->). exists kb. split; [by apply list_elem_of_In|]. rewrite E, Ed. by left.
Qed.

Lemma bind_nacks_spec origin b e0 e : (forall key, (exists nack, nack ∈ bind_nacks origin (tb_keys b) e /\ nk_key nack = key) <-> unknown_tip origin b e key)
  /\ forall nack, nack ∈ bind_nacks origin (tb_keys b) e -> refusal origin e0 e nack.
Proof.
  split.
  - intros key. setoid_rewrite elem_of_bind_nacks. unfold unknown_tip, tips_at. split.
    + intros (nack & (kb & ts & Hkb & E & (tip & Hin & ?)%diverged_iff & ->) & <-). exists kb, tip. cbn [nk_key buildEnrichedNack]. rewrite E. done.
    + intros (kb & tip & Hkb & <- & Hin & Hu). destruct (index_tips e (kb_key kb)) as [ts|] eqn:E; [|by apply elem_of_nil in Hin].
      exists (buildEnrichedNack (kb_key kb) (Some origin) (ts_tips ts) e). split; [|done]. exists kb, ts. split_and!; [done..| |done].
      apply diverged_iff. eauto.
  - intros nack (kb & ts & Hkb & E & Ed & ->)%elem_of_bind_nacks. apply refusal_built; [done|].
    intros t Ht. right. unfold tips_at. by rewrite E.
Qed.

Lemma dep_nacks_spec origin eff e0 e : g_node e = g_node e0 ->
  (forall key, (exists nack, nack ∈ dep_nacks origin eff (index_tips e0 (e_key eff)) e /\ nk_key nack = key)
     <-> key = e_key eff /\ is_Some (index_tips e0 key) /\ exists dep, dep ∈ e_deps eff /\ dep ∉ tips_at e0 key)
  /\ forall nack, nack ∈ dep_nacks origin eff (index_tips e0 (e_key eff)) e -> refusal origin e0 e nack.
Proof.
  intros Hn. unfold dep_nacks. set (key := e_key eff).
  assert (Hex : existsb (fun dep => negb (TipSet_Contains (index_tips e0 key) dep)) (e_deps eff) = true
    <-> exists dep, dep ∈ e_deps eff /\ dep ∉ tips_at e0 key).
  { rewrite existsb_exists. unfold TipSet_Contains, tips_at. setoid_rewrite negb_true_iff. setoid_rewrite bool_decide_eq_false.
    by setoid_rewrite <- list_elem_of_In. }
  destruct (index_tips e0 key) as [ts|] eqn:E.
  - destruct (existsb _ _) eqn:Eb.
    + split.
      * intros k. split.
        -- intros (nack & ->%list_elem_of_singleton & <-). cbn [nk_key buildEnrichedNack]. fold key. rewrite E. split_and!; [done|eauto|]. by apply Hex.
        -- intros (-> & _ & _). eexists. split; [by apply list_elem_of_singleton|done].
      * intros nack ->%list_elem_of_singleton. apply refusal_built; [done|]. auto.
    + split; [|by intros ? ?%elem_of_nil]. intros k. split; [by intros (? & ?%elem_of_nil & _)|].
      intros (-> & _ & Hd). apply Hex in Hd. done.
  - split; [|by intros ? ?%elem_of_nil]. intros k. split; [by intros (? & ?%elem_of_nil & _)|]. intros (-> & [? ?] & _). congruence.
Qed.

Lemma subscription_reply_spec origin eff e0 e e' replies : g_node e = g_node e0 -> g_cache e = g_cache e' ->
  subscription_reply origin eff (index_tips e0 (e_key eff)) e = (e', replies) ->
  (forall key, (exists nack, nack ∈ replies /\ nk_key nack = key)
     <-> key = e_key eff /\ is_Some (get_subscription eff) /\ e_node_id eff <> g_node e0)
  /\ forall nack, nack ∈ replies -> refusal origin e0 e' nack.
Proof.
  intros Hn Hc. unfold subscription_reply. rewrite Hn. destruct (get_subscription eff) as [sub|]; [|intros [= <- <-]].
  - destruct (Z.eqb_spec (e_node_id eff) (g_node e0)) as [Eq|Hne]; intros [= <- <-].
    + split; [|by intros ? ?%elem_of_nil]. intros k. split; [by intros (? & ?%elem_of_nil & _)|]. by intros (_ & _ & ?).
    + split.
      * intros k. split; [intros (nack & ->%list_elem_of_singleton & <-); cbn; eauto|]. intros (-> & _ & _).
        eexists. split; [by apply list_elem_of_singleton|done].
      * intros nack ->%list_elem_of_singleton. apply refusal_built; [done|]. auto.
  - split; [|by intros ? ?%elem_of_nil]. intros k. split; [by intros (? & ?%elem_of_nil & _)|]. by intros (_ & [? ?] & _).
Qed.

Lemma refusal_core origin e0 e1 e2 e3 nack : core e0 = core e1 -> core e2 = core e3 -> refusal origin e0 e2 nack -> refusal origin e1 e3 nack.
Proof.
  unfold refusal, tips_at, index_tips, core. intros [= -> _ _ _] [= -> -> _ _]. done.
Qed.

(** [C24] Who hears what of an arrival.  The sender of an accepted bind is refused on
    exactly those of its keys that now have a tip the bind neither consumed nor
    made; the sender of any other effect exactly when the key had tips and some
    dependency was not among them; and a foreign subscriber is always answered.
    A refusal names the arrival and advertises tips of the key as they were
    before or after it, all of them effects the node holds, each described as
    its effect is. *)
Theorem refusals_exact origin eff e e' nacks :
  ephemeral w origin eff e = None -> authoritative e eff = true -> is_flush eff = false ->
  handle_effect w origin eff e = (e', inr nacks) ->
  (forall key, (exists nack, nack ∈ nacks /\ nk_key nack = key) <-> answered origin eff e e' key)
  /\ forall nack, nack ∈ nacks -> refusal origin e e' nack.
Proof.
  intros He Ha Hf. unfold handle_effect. rewrite He. set (e0 := emit_out (filter_outputs eff e) e).
  change (authoritative e0 eff) with (authoritative e eff). rewrite Ha. cbn [orb negb]. destruct (hash_valid eff); [|done]. cbn [negb].
  unfold putIngested. destruct (w_accepts w origin); [|done]. unfold ingest_accepted. rewrite Hf.
  set (e1 := match get_txn_bind eff with Some _ => _ | None => _ end).
  assert (Hc1 : core e1 = core (set_cache (<[origin := eff]> (g_cache e)) e)).
  { unfold e1. case_match; [rewrite core_handleRemoteBind|]; by rewrite core_track_pending, core_applySnapshotVerdicts. }
  assert (Hi : index_tips e1 (e_key eff) = index_tips e (e_key eff)) by (unfold index_tips, core in *; by injection Hc1 as -> _ _ _).
  rewrite Hi. set (e2 := index_arrival origin eff e1).
  pose proof (core_subscription_reply origin eff (index_tips e (e_key eff)) e2) as Hr.
  destruct (subscription_reply _ _ _ e2) as [e3 replies] eqn:Er. cbn [fst] in Hr.
  intros Hres. injection Hres as <- <-.
  assert (Hn2 : g_node e2 = g_node e).
  { unfold e2. destruct (index_arrival_spec origin eff e1) as (_ & _ & -> & _). unfold core in Hc1. by injection Hc1 as _ _ _ ->. }
  assert (Hc2 : g_cache e2 = g_cache e3) by (unfold core in Hr; by injection Hr).
  assert (H2 : core e2 = core (emit_out (arrival_outputs w eff e3) e3)) by done.
  destruct (subscription_reply_spec origin eff e e2 e3 replies Hn2 Hc2 Er) as [Hs1 Hs2].
  assert (Hs : forall nack, nack ∈ replies -> refusal origin e (emit_out (arrival_outputs w eff e3) e3) nack).
  { intros nack Hin%Hs2. by eapply refusal_core; [..|exact Hin]. }
  unfold arrival_nacks, answered. destruct (get_txn_bind eff) as [b|] eqn:Eb.
  - assert (replies = []) as ->.
    { unfold subscription_reply in Er. unfold get_subscription, get_txn_bind in *. destruct (e_kind eff) as [[]|]; try done. by injection Er. }
    destruct (bind_nacks_spec origin b e e2) as [Hb1 Hb2]. rewrite app_nil_r. split.
    + intros key. rewrite Hb1. unfold unknown_tip, tips_at, index_tips, core in *. by injection H2 as -> _ _ _.
    + intros nack Hin%Hb2. by eapply refusal_core; [..|exact Hin].
  - destruct (dep_nacks_spec origin eff e e2 Hn2) as [Hd1 Hd2]. split.
    + intros key. setoid_rewrite elem_of_app. specialize (Hd1 key). specialize (Hs1 key). naive_solver.
    + intros nack [Hin%Hd2|Hin]%elem_of_app; [|by apply Hs]. by eapply refusal_core; [..|exact Hin].
Qed.

End Refusal.
