(* ===== verification/ReplicateProps.v ===== *)
(** * Replication is exact

    The claims of a request and the counters of its future, over every
    interleaving of the goroutines with responses, the sweep and the shutdown:
    every request registered is being stored, pending, or claimed exactly once;
    a future says what the claims on its requests decide, the answer of a peer is
    claimed as the peer gave it, and everything outstanding comes to rest. *)

From S2P Require Import Prelude Golib Proto Wire WireProps WireWitness Health Engine Ingest Replicate.

(** ** Counting *)

Section Count.
Context {A : Type}.
Implicit Types (P : A -> bool) (l : list A).

Definition cnt P l : Z := Z.of_nat (length (List.filter P l)).

Lemma cnt_nil P : cnt P [] = 0.
Proof. done. Qed.

Lemma cnt_cons P x l : cnt P (x :: l) = (if P x then 1 else 0) + cnt P l.
Proof. unfold cnt. cbn [List.filter]. destruct (P x); cbn [length]; lia. Qed.

Lemma cnt_app P l1 l2 : cnt P (l1 ++ l2) = cnt P l1 + cnt P l2.
Proof. unfold cnt. rewrite List.filter_app, length_app. lia. Qed.

Lemma cnt_pos P l : 0 <= cnt P l.
Proof. unfold cnt. lia. Qed.

Lemma cnt_in P l x : x ∈ l -> P x = true -> 0 < cnt P l.
Proof.
  intros Hx Hp. induction l as [|y l IH]; [by apply elem_of_nil in Hx|]. rewrite cnt_cons. pose proof (cnt_pos P l).
  apply elem_of_cons in Hx as [->|Hx]; [rewrite Hp; lia|]. specialize (IH Hx). destruct (P y); lia.
Qed.

Lemma cnt_le P Q l : (forall x, P x = true -> Q x = true) -> cnt P l <= cnt Q l.
Proof.
  intros Hpq. induction l as [|x l IH]; [done|]. rewrite !cnt_cons. specialize (Hpq x). destruct (P x); [rewrite Hpq by done|destruct (Q x)]; lia.
Qed.

(** A count of [Q] that exceeds that of [P] has an element of the difference. *)
Lemma cnt_lt P Q l : (forall x, P x = true -> Q x = true) -> cnt P l < cnt Q l -> exists x, x ∈ l /\ Q x = true /\ P x = false.
Proof.
  intros Hpq. induction l as [|x l IH]; [unfold cnt; cbn; lia|]. rewrite !cnt_cons. intros Hlt.
  destruct (Q x) eqn:Eq, (P x) eqn:Ep.
  - destruct IH as (y & Hy & ?); [lia|]. exists y. rewrite elem_of_cons. auto.
  - exists x. rewrite elem_of_cons. auto.
  - by rewrite Hpq in Eq.
  - destruct IH as (y & Hy & ?); [lia|]. exists y. rewrite elem_of_cons. auto.
Qed.

Lemma cnt_strict P Q l x : (forall x, P x = true -> Q x = true) -> x ∈ l -> Q x = true -> P x = false -> cnt P l < cnt Q l.
Proof.
  intros Hpq Hx Hq Hp. induction l as [|y l IH]; [by apply elem_of_nil in Hx|]. rewrite !cnt_cons. apply elem_of_cons in Hx as [->|Hx].
  - rewrite Hq, Hp. pose proof (cnt_le P Q l Hpq). lia.
  - specialize (IH Hx). specialize (Hpq y). destruct (P y); [rewrite Hpq by done|destruct (Q y)]; lia.
Qed.

Lemma cnt_perm P l1 l2 : l1 ≡ₚ l2 -> cnt P l1 = cnt P l2.
Proof. induction 1 as [|x l l' _ IH|x y l|l1 l2 l3 _ IH1 _ IH2]; rewrite ?cnt_cons in *; [done|lia|lia|lia]. Qed.

End Count.

(** ** The view of one future

    Its requests that are pending, the tasks that act on it, and its history. *)

Definition is_starting (t : task) : bool := match t with TStore _ _ _ => true | _ => false end.
Definition is_register (t : task) : bool := match t with TRegister _ _ _ => true | _ => false end.
Definition is_dropping (t : task) : bool := match t with TDropAdd _ _ | TNacks _ _ true => true | _ => false end.
Definition is_acting (t : task) : bool :=
  match t with TNacks _ _ _ | TDropAdd _ _ | TDropCheck _ _ _ | TResolve _ | TReject _ _ _ => true | _ => false end.
Definition is_setup (t : task) : bool := match t with TSetup _ => true | _ => false end.
Definition is_body (k : cont) : bool := match k with KBody => true | _ => false end.

(** The points of [replicateBody]. *)
Definition is_flow (t : task) : bool :=
  match t with
  | TRegister _ _ k | TStore _ _ k | TSend _ _ k => is_body k
  | TSelect _ _ | TReturn _ => true
  | TReject _ _ w => w
  | _ => false
  end.

Definition is_claim (e : entry) : bool := match e with Claimed _ _ _ => true | _ => false end.
Definition is_drop (e : entry) : bool := match e with Claimed _ _ (Refused _) | Claimed _ _ Gone => true | _ => false end.

(** The requests the goroutine of a task may yet register. *)
Definition task_cont (t : task) : option cont :=
  match t with TRegister _ _ k | TStore _ _ k | TSend _ _ k => Some k | _ => None end.

Section View.
Context (f : nat).

Definition preset (lg : list entry) : Prop := Preset f ∈ lg.
Definition body (lg : list entry) : Prop := Body f ∈ lg.
Definition claimed_as (c : claim) (lg : list entry) : Prop := exists id, Claimed id f c ∈ lg.

Record view (fut : ReplicationFuture) (p : Z) (ts : list task) (lg : list entry) : Prop := {
  v_expected : f_expected fut = p + cnt is_starting ts + cnt is_claim lg;
  v_dropped : f_dropped fut + cnt is_dropping ts = cnt is_drop lg;
  v_acting : cnt is_acting ts <= cnt is_claim lg;
  v_nonneg : 0 <= p /\ 0 <= f_dropped fut;
  v_open : f_done fut = false -> f_err fut = None;
  v_success : f_done fut = true -> f_err fut = None -> preset lg \/ exists l, claimed_as (Accepted l) lg;
  v_failure : forall e, f_err fut = Some e -> preset lg \/ (e = ErrReplicationTimeout /\ claimed_as TimedOut lg)
    \/ ((e = ErrNoPeers \/ e = ErrAllPeersNotSubscribed) /\ f_setupDone fut = true /\ 0 < f_expected fut /\ f_expected fut = cnt is_drop lg);
  v_accepted : forall l, claimed_as (Accepted l) lg -> f_done fut = true \/ TResolve f ∈ ts \/ exists l, TNacks f l false ∈ ts;
  v_timedout : claimed_as TimedOut lg -> f_done fut = true \/ exists w, TReject f ErrReplicationTimeout w ∈ ts;
  v_reject : forall e w, TReject f e w ∈ ts -> e = ErrReplicationTimeout /\ claimed_as TimedOut lg;
  v_dropper : forall e, TDropAdd f e ∈ ts \/ (exists n, TDropCheck f e n ∈ ts) -> e = ErrNoPeers \/ e = ErrAllPeersNotSubscribed;
  v_resolver : TResolve f ∈ ts \/ (exists l, TNacks f l false ∈ ts) -> exists l, claimed_as (Accepted l) lg;
  v_preset : preset lg -> f_done fut = true /\ (body lg -> False);
  v_cont : forall t, t ∈ ts -> match task_cont t with
    | Some KPeer => f_setupDone fut = false
    | Some (KCross _ _ _) => preset lg
    | Some KBody => body lg
    | None => True
    end;
  v_last : f_done fut = false -> f_setupDone fut = true -> 0 < f_expected fut -> f_dropped fut = f_expected fut ->
    TCheck f ∈ ts \/ exists e, TDropCheck f e (f_dropped fut) ∈ ts;
  v_check : TCheck f ∈ ts -> f_setupDone fut = true /\ (f_done fut = true \/ 0 < f_expected fut) /\ (body lg -> False);
  v_setups : cnt is_setup ts <= (if f_setupDone fut then 0 else 1);
  v_setup : f_done fut = false -> f_setupDone fut = false -> TSetup f ∈ ts;
  v_first : f_done fut = false -> f_expected fut = 0 -> exists tr b k, TRegister tr b k ∈ ts;
  v_checked : forall e n, TDropCheck f e n ∈ ts -> 0 < n <= f_dropped fut;
  v_waiting : (exists id, TSelect id f ∈ ts) \/ TReturn f ∈ ts \/ (exists e, TReject f e true ∈ ts) -> body lg;
  v_body : body lg -> f_setupDone fut = true /\ cnt is_register ts + f_expected fut <= 1
    /\ cnt is_acting ts + (if f_done fut then 1 else 0) <= cnt is_claim lg
    /\ (cnt is_claim lg = 0 -> f_nacks fut = None)
    /\ (TResolve f ∈ ts -> claimed_as (Accepted (Nacks fut)) lg)
    /\ (forall l, TNacks f l false ∈ ts -> claimed_as (Accepted l) lg)
    /\ (f_done fut = true -> f_err fut = None -> claimed_as (Accepted (Nacks fut)) lg);
  v_returned : forall l, Returned f (inr l) ∈ lg -> claimed_as (Accepted l) lg;
  v_flow : body lg -> cnt is_flow ts <= 1 /\ (claimed_as Aborted lg -> cnt is_flow ts = 0)
}.

Lemma view_perm fut p ts ts' lg lg' : ts ≡ₚ ts' -> lg ≡ₚ lg' -> view fut p ts lg -> view fut p ts' lg'.
Proof.
  intros Ht Hl []. unfold preset, body, claimed_as in *.
  split; unfold preset, body, claimed_as;
    repeat rewrite <- (cnt_perm _ _ _ Ht); repeat rewrite <- (cnt_perm _ _ _ Hl); try setoid_rewrite <- Ht; try setoid_rewrite <- Hl; try done.
  intros t Hin. specialize (v_cont0 t Hin). destruct (task_cont t) as [[| |]|]; by rewrite <- ?Hl.
Qed.

End View.

(** ** Transitions *)

Ltac view_cbn := cbn [is_starting is_register is_dropping is_acting is_setup is_flow is_body is_claim is_drop task_cont
    f_done f_err f_nacks f_expected f_dropped f_setupDone default].

Ltac view_hyp V :=
  unfold preset, body, claimed_as, Nacks in V; rewrite ?cnt_cons in V; try setoid_rewrite elem_of_cons in V;
  cbn [is_starting is_register is_dropping is_acting is_setup is_flow is_body is_claim is_drop task_cont
    f_done f_err f_nacks f_expected f_dropped f_setupDone default] in V.

Ltac view_goal := unfold preset, body, claimed_as, Nacks; rewrite ?cnt_cons; try setoid_rewrite elem_of_cons; view_cbn.

(** A field of the new view from the field of the old one and one fact. *)
Ltac view_from V X := try (solve [clear -V X; view_hyp V; view_goal; naive_solver lia]).

Ltac view_flow V X := try (solve [clear -V X; view_hyp V; view_goal;
  try match goal with |- context [cnt is_flow ?l] => pose proof (cnt_pos is_flow l) end; naive_solver lia]).

Ltac view_fields V X :=
  destruct V as [V1 V2 V3 V4 V5 V6 V7 V8 V9 V10 V11 V12 V13 V14 V15 V16 V17 V18 V19 V20 V21 V22 V23 V24];
  split; [view_from V1 X|view_from V2 X|view_from V3 X|view_from V4 X|view_from V5 X|view_from V6 X|view_from V7 X|view_from V8 X
    |view_from V9 X|view_from V10 X|view_from V11 X|view_from V12 X|view_from V13 X|view_from V14 X|view_from V15 X|view_from V16 X
    |view_from V17 X|view_from V18 X|view_from V19 X|view_from V20 X|view_from V21 X|view_from V22 X|view_from V23 X|view_flow V24 X].

Section Transitions.
Context (f : nat).

Lemma view_resolve fut p ts lg : view f fut p (TResolve f :: ts) lg -> view f (resolve fut) p ts lg.
Proof.
  intros V. pose proof I as X. destruct fut as [done err nacks expected dropped setup]. unfold resolve. cbn [f_done].
  destruct done; view_fields V X. view_hyp V12. right. by apply V12; left; left.
Qed.

Lemma view_reject fut p ts lg e w : view f fut p (TReject f e w :: ts) lg ->
  view f (reject e fut) p ((if w then [TReturn f] else []) ++ ts) lg.
Proof.
  intros V. pose proof I as X. destruct fut as [done err nacks expected dropped setup]. unfold reject. cbn [f_done].
  destruct done; destruct w; cbn [app]; view_fields V X; (cbn; intros ? [= <-]; right; left; eapply (V10 e); by left).
Qed.

(** No claim is left to be made when every request was dropped. *)
Lemma all_dropped fut p ts lg : view f fut p ts lg -> f_dropped fut = f_expected fut -> f_expected fut = cnt is_drop lg.
Proof.
  intros [V1 V2 _ V4 _ _ _ _ _ _ _ _ _ _ _ _ _ _ _ _ _ _ _ _] E. pose proof (cnt_pos is_starting ts). pose proof (cnt_pos is_dropping ts).
  assert (cnt is_drop lg <= cnt is_claim lg) by (apply cnt_le; by intros [| | |? ? []|]). lia.
Qed.

Lemma view_drop_check fut p ts lg e n : view f fut p (TDropCheck f e n :: ts) lg ->
  view f (drop_check e n fut) p ts lg.
Proof.
  intros V. pose proof (all_dropped _ _ _ _ V) as Hall.
  assert (0 < n <= f_dropped fut) as Hn by (eapply (v_checked _ _ _ _ _ V e); by left).
  assert (f_dropped fut <= f_expected fut) as Hle.
  { destruct V as [V1 V2 _ V4 _ _ _ _ _ _ _ _ _ _ _ _ _ _ _ _ _ _ _ _]. pose proof (cnt_pos is_starting (TDropCheck f e n :: ts)).
    pose proof (cnt_pos is_dropping (TDropCheck f e n :: ts)). assert (cnt is_drop lg <= cnt is_claim lg) by (apply cnt_le; by intros [| | |? ? []|]). lia. }
  destruct fut as [done err nacks expected dropped setup]. unfold drop_check. cbn [f_setupDone f_expected f_dropped] in *.
  destruct setup; cbn [andb]; [destruct (Z.eqb_spec n expected) as [->|X]; [pose proof I as X; unfold reject; cbn [f_done]; destruct done|]|pose proof I as X];
    view_fields V X.
  cbn. intros ? [= <-]. right. right. split; [apply V11; right; exists expected; by left|]. split; [done|].
  split; [lia|]. apply Hall. lia.
Qed.

Lemma view_check fut p ts lg : view f fut p (TCheck f :: ts) lg -> view f (setup_check fut) p ts lg.
Proof.
  intros V. pose proof (all_dropped _ _ _ _ V) as Hall. destruct fut as [done err nacks expected dropped setup]. unfold setup_check.
  cbn [f_dropped f_expected] in *. assert (TCheck f ∈ TCheck f :: ts) as Hin by by left.
  destruct (Z.eqb_spec dropped expected) as [X|X]; [unfold reject; cbn [f_done]; destruct done|]; view_fields V X; specialize (V16 Hin).
  - cbn in *. intros ? [= <-]. right. right. destruct V16 as (-> & [|] & _); [done|]. auto.
  - intros Hb. by destruct V16 as (_ & _ & []).
Qed.

Lemma view_setup fut p ts lg : view f fut p (TSetup f :: ts) lg -> (forall t, t ∈ ts -> task_cont t <> Some KPeer) ->
  view f (set_setup fut) p (TCheck f :: ts) lg.
Proof.
  intros V X. assert (Hset : f_setupDone fut = false /\ cnt is_setup ts = 0).
  { destruct V as [_ _ _ _ _ _ _ _ _ _ _ _ _ _ _ _ V17 _ _ _ _ _ _ _]. rewrite cnt_cons in V17. cbn [is_setup] in V17.
    pose proof (cnt_pos is_setup ts). destruct (f_setupDone fut); [lia|]. split; [done|lia]. }
  assert (Hex : f_done fut = true \/ 0 < f_expected fut).
  { destruct V as [V1 _ _ V4 _ _ _ _ _ _ _ _ V13 V14 _ _ _ _ V19 _ _ V22 _ _]. destruct (f_done fut); [by left|]. right.
    pose proof (cnt_pos is_starting (TSetup f :: ts)). pose proof (cnt_pos is_claim lg). destruct (decide (f_expected fut = 0)) as [E|]; [|lia].
    destruct (V19 eq_refl E) as (tr & b & k & Hk). pose proof (V14 _ Hk) as Hc. cbn [task_cont] in Hc. destruct k.
    - apply elem_of_cons in Hk as [?|Hk]; [done|]. by apply X in Hk.
    - by apply V13 in Hc as [? _].
    - destruct (V22 Hc) as [? _]. destruct Hset. congruence. }
  destruct fut as [done err nacks expected dropped setup]. unfold set_setup. cbn [f_done f_err f_nacks f_expected f_dropped f_setupDone] in *.
  destruct Hset as [-> Hset]. view_fields V X.
  - intros t [->|Ht]%elem_of_cons; [done|]. specialize (X t Ht). specialize (V14 t). rewrite elem_of_cons in V14. specialize (V14 (or_intror Ht)). by destruct (task_cont t) as [[]|].
  - intros _. split; [done|]. split; [done|]. intros Hb. by destruct (V22 Hb).
Qed.

(** The one claim on the request of [replicateBody]. *)
Lemma body_alone fut p t ts lg : view f fut p (t :: ts) lg -> is_acting t = true -> body f lg ->
  f_done fut = false /\ cnt is_acting ts = 0 /\ cnt is_claim lg = 1.
Proof.
  intros [V1 _ _ V4 _ _ _ _ _ _ _ _ _ _ _ _ _ _ _ _ _ V22 _ _] Ha Hb. destruct (V22 Hb) as (_ & H1 & H2 & _). rewrite cnt_cons, Ha in H2.
  pose proof (cnt_pos is_starting (t :: ts)). pose proof (cnt_pos is_register (t :: ts)). pose proof (cnt_pos is_acting ts).
  destruct (f_done fut); [lia|]. split; [done|]. lia.
Qed.

Lemma view_nacks fut p ts lg l refused : view f fut p (TNacks f l refused :: ts) lg ->
  view f (set_nacks l fut) p ((if refused then TDropAdd f ErrAllPeersNotSubscribed else TResolve f) :: ts) lg.
Proof.
  intros V. pose proof I as X. pose proof (body_alone _ _ _ _ _ V eq_refl) as Hal. destruct fut as [done err nacks expected dropped setup]. unfold set_nacks.
  cbn [f_done f_err f_nacks f_expected f_dropped f_setupDone] in *.
  assert (Hin : forall t, t ∈ ts -> is_acting t = true -> body f lg -> False).
  { intros t Ht Ha Hb. destruct (Hal Hb) as (_ & H0 & _). pose proof (cnt_in is_acting ts t Ht Ha). lia. }
  destruct refused; view_fields V X; intros Hb; destruct (Hal Hb) as (-> & Ha & Hc); destruct (V22 Hb) as (W0 & W1 & W2 & _ & _ & W3 & _); cbn in W0;
    rewrite cnt_cons in W1, W2; rewrite !cnt_cons; cbn [is_register is_acting f_expected f_done] in W1, W2 |- *; clear V1 V2 V3 V17; (split; [done|]); (split; [lia|]); (split; [lia|]); (split; [lia|]).
  - split; [intros [?|Ht]%elem_of_cons; [done|exfalso; by eapply Hin]|]. split; [|done].
    intros l' [?|Ht]%elem_of_cons; [done|exfalso; by eapply Hin].
  - split; [intros _; apply W3; by left|]. split; [|done]. intros l' [?|Ht]%elem_of_cons; [done|exfalso; by eapply Hin].
Qed.

Lemma view_drop_add fut p ts lg e : view f fut p (TDropAdd f e :: ts) lg -> f_dropped fut + 1 < 2 ^ 31 ->
  view f (drop_add fut).1 p (TDropCheck f e (f_dropped fut + 1) :: ts) lg /\ (drop_add fut).2 = f_dropped fut + 1.
Proof.
  intros V X. unfold drop_add. cbn [fst snd]. rewrite wrap32_id by (destruct V; lia). split; [|done].
  destruct fut as [done err nacks expected dropped setup].
  cbn [f_done f_err f_nacks f_expected f_dropped f_setupDone] in *. view_fields V X.
  cbn in V4. view_cbn. intros e' n [[= -> ->]|Hn]%elem_of_cons; [lia|]. cbn in V20. specialize (V20 e' n). rewrite elem_of_cons in V20. specialize (V20 (or_intror Hn)). lia.
Qed.

End Transitions.

(** The field [v_cont], task by task. *)
Ltac view_conts V :=
  let t := fresh "t" in let Ht := fresh "Ht" in
  intros t Ht; unfold preset, body in *; rewrite ?elem_of_cons in Ht;
  specialize (V t); rewrite ?elem_of_cons in V; try destruct Ht as [->|Ht]; cbn [task_cont] in *;
  [try done..|try specialize (V (or_intror Ht)); try specialize (V Ht); destruct (task_cont t) as [[| |]|]; rewrite ?elem_of_cons; auto].

(** All fields but [v_failure], [v_cont], [v_body] and [v_flow]. *)
Ltac view_most V X :=
  destruct V as [V1 V2 V3 V4 V5 V6 V7 V8 V9 V10 V11 V12 V13 V14 V15 V16 V17 V18 V19 V20 V21 V22 V23 V24];
  split; [view_from V1 X|view_from V2 X|view_from V3 X|view_from V4 X|view_from V5 X|view_from V6 X| |view_from V8 X
    |view_from V9 X|view_from V10 X|view_from V11 X|view_from V12 X|view_from V13 X| |view_from V15 X|view_from V16 X
    |view_from V17 X|view_from V18 X|view_from V19 X|view_from V20 X|view_from V21 X| |view_from V23 X| ].

Section Claims.
Context (f : nat).

Lemma view_register fut p ts lg tr b k id tr' : view f fut p (TRegister tr b k :: ts) lg -> f_expected fut + 1 < 2 ^ 31 ->
  view f (expect_one fut) p (TStore id tr' k :: ts) (Registered id f :: lg).
Proof.
  intros V Hlt. pose proof (v_cont _ _ _ _ _ V (TRegister tr b k) ltac:(by left)) as Hk. cbn [task_cont] in Hk.
  assert (0 <= f_expected fut /\ f_dropped fut <= f_expected fut) as H0.
  { destruct V as [V1 V2 _ V4 _ _ _ _ _ _ _ _ _ _ _ _ _ _ _ _ _ _ _ _]. pose proof (cnt_pos is_starting (TRegister tr b k :: ts)).
    pose proof (cnt_pos is_claim lg). pose proof (cnt_pos is_dropping (TRegister tr b k :: ts)).
    assert (cnt is_drop lg <= cnt is_claim lg) by (apply cnt_le; by intros [| | |? ? []|]). lia. }
  assert (f_setupDone fut = false \/ (preset f lg /\ f_done fut = true) \/ f_expected fut = 0) as X.
  { destruct k; [auto|right; left; split; [done|by apply (v_preset _ _ _ _ _ V)]|right; right].
    destruct (v_body _ _ _ _ _ V Hk) as (_ & Hr & _). rewrite cnt_cons in Hr. cbn [is_register] in Hr. pose proof (cnt_pos is_register ts). lia. }
  unfold expect_one. rewrite wrap32_id by lia. destruct fut as [done err nacks expected dropped setup].
  cbn [f_done f_err f_nacks f_expected f_dropped f_setupDone] in *. view_fields V X; cbn [f_done f_err f_nacks f_expected f_dropped f_setupDone] in *.
  - view_conts V14. destruct k; rewrite ?elem_of_cons; auto.
  - lia.
  - lia.
Qed.

Lemma view_store fut p ts lg id tr k : view f fut p (TStore id tr k :: ts) lg -> view f fut (p + 1) (TSend id tr k :: ts) lg.
Proof.
  intros V. pose proof (v_cont _ _ _ _ _ V (TStore id tr k) ltac:(by left)) as X. cbn [task_cont] in X. view_fields V X.
Qed.

Lemma view_sent fut p ts lg id tr k new : view f fut p (TSend id tr k :: ts) lg ->
  match k with
  | KPeer => new = []
  | KCross _ _ _ => new = [] \/ exists tr' b ps d b', new = [TRegister tr' b (KCross ps d b')]
  | KBody => new = [] \/ new = [TSelect id f]
  end -> view f fut p (new ++ ts) lg.
Proof.
  intros V Hn. pose proof (v_cont _ _ _ _ _ V (TSend id tr k) ltac:(by left)) as X. cbn [task_cont] in X.
  destruct k; [subst new|destruct Hn as [->|(tr' & b & ps & d & b' & ->)]|destruct Hn as [->| ->]]; cbn [app]; view_fields V X.
  - intros Hb. by destruct (V13 X) as [_ []].
Qed.

Lemma view_select fut p ts lg id : view f fut p (TSelect id f :: ts) lg -> view f fut p (TReturn f :: ts) lg.
Proof. intros V. pose proof I as X. view_fields V X. Qed.

Lemma view_return fut p ts lg : view f fut p (TReturn f :: ts) lg -> f_done fut = true ->
  view f fut p ts (Returned f (match f_err fut with Some e => inl e | None => inr (Nacks fut) end) :: lg).
Proof.
  intros V X. assert (body f lg) as Hb by (apply (v_waiting _ _ _ _ _ V); right; left; by left). view_fields V X.
  - view_conts V14.
  - destruct (V22 Hb) as (_ & _ & _ & _ & _ & _ & Hd). intros l [E|Hl]%elem_of_cons.
    + destruct (f_err fut); [done|]. injection E as ->. destruct (Hd X eq_refl) as [id Hid]. exists id. by right.
    + destruct (V23 l Hl) as [id Hid]. exists id. by right.
Qed.

Lemma view_note fut p ts lg e : view f fut p ts lg -> view f fut p ts (Returned f (inl e) :: lg).
Proof. intros V. pose proof I as X. view_fields V X. view_conts V14. Qed.

(** A request of [replicateBody] that is pending was not claimed yet. *)
Lemma body_pending fut p ts lg : view f fut p ts lg -> 0 < p -> body f lg ->
  f_setupDone fut = true /\ cnt is_register ts + f_expected fut <= 1 /\ f_done fut = false /\ cnt is_acting ts = 0 /\ cnt is_claim lg = 0
  /\ forall t, t ∈ ts -> is_acting t = true -> False.
Proof.
  intros V Hp Hb. destruct (v_body _ _ _ _ _ V Hb) as (W0 & W1 & W2 & _). rewrite (v_expected _ _ _ _ _ V) in W1 |- *.
  pose proof (cnt_pos is_starting ts). pose proof (cnt_pos is_claim lg). pose proof (cnt_pos is_register ts). pose proof (cnt_pos is_acting ts).
  destruct (f_done fut); [lia|]. split_and!; [done|done|done|lia|lia|]. intros t Ht Ha. pose proof (cnt_in is_acting ts t Ht Ha). lia.
Qed.

Lemma view_abort fut p ts lg id : view f fut p ts lg -> 0 < p -> (body f lg -> cnt is_flow ts = 0) ->
  view f fut (p - 1) ts (Claimed id f Aborted :: lg).
Proof.
  intros V X Hfl. pose proof (body_pending _ _ _ _ V X) as Hbp. view_fields V X.
  - view_conts V14.
  - intros [?|Hb]%elem_of_cons; [done|]. destruct (Hbp Hb) as (W0 & W1 & -> & W2 & W3 & W4). rewrite cnt_cons. cbn [is_claim].
    split_and!; [done|done|lia|lia| | |done]; [intros Ht|intros l Ht]; by apply W4 in Ht.
  - intros [?|Hb]%elem_of_cons; [done|]. rewrite (Hfl Hb). split; [lia|done].
Qed.

Lemma err_left {A} {err : option A} {P : Prop} {Q R : A -> Prop} : (forall e, err = Some e -> P \/ Q e) -> forall e, err = Some e -> P \/ Q e \/ R e.
Proof. intros H e He. destruct (H e He); auto. Qed.

Lemma view_claim fut p ts lg id t c : view f fut p ts lg -> 0 < p ->
  match t with
  | TResolve g => g = f /\ c = Accepted []
  | TNacks g l refused => g = f /\ c = if refused then Refused l else Accepted l
  | TReject g e w => g = f /\ e = ErrReplicationTimeout /\ c = TimedOut /\ (w = true -> body f lg /\ cnt is_flow ts = 0)
  | TDropAdd g e => g = f /\ e = ErrNoPeers /\ c = Gone
  | _ => False
  end -> view f fut (p - 1) (t :: ts) (Claimed id f c :: lg).
Proof.
  intros V Hp Hc. pose proof (body_pending _ _ _ _ V Hp) as X.
  assert (body f lg -> f_nacks fut = None) as Hnil.
  { intros Hb. destruct (X Hb) as (_ & _ & _ & _ & Hz & _). by apply (v_body _ _ _ _ _ V Hb). }
  assert (cnt is_drop lg < f_expected fut) as Hmore.
  { rewrite (v_expected _ _ _ _ _ V). pose proof (cnt_pos is_starting ts).
    assert (cnt is_drop lg <= cnt is_claim lg) by (apply cnt_le; by intros [| | |? ? []|]). lia. }
  assert (forall e, f_err fut = Some e -> preset f (Claimed id f c :: lg) \/ (e = ErrReplicationTimeout /\ claimed_as f TimedOut (Claimed id f c :: lg))) as Herr.
  { intros e He. unfold preset, claimed_as. setoid_rewrite elem_of_cons.
    destruct (v_failure _ _ _ _ _ V e He) as [?|[[-> [i Hi]]|(_ & _ & _ & ?)]]; [auto|right; split; [done|]; exists i; auto|lia]. }
  assert (is_acting t = true /\ is_register t = false) as [Ha Hr] by (destruct t; done).
  assert (Hbody : body f (Claimed id f c :: lg) -> f_setupDone fut = true /\ cnt is_register (t :: ts) + f_expected fut <= 1
    /\ cnt is_acting (t :: ts) + (if f_done fut then 1 else 0) <= cnt is_claim (Claimed id f c :: lg)
    /\ (cnt is_claim (Claimed id f c :: lg) = 0 -> f_nacks fut = None)
    /\ (TResolve f ∈ t :: ts -> claimed_as f (Accepted (Nacks fut)) (Claimed id f c :: lg))
    /\ (forall l, TNacks f l false ∈ t :: ts -> claimed_as f (Accepted l) (Claimed id f c :: lg))
    /\ (f_done fut = true -> f_err fut = None -> claimed_as f (Accepted (Nacks fut)) (Claimed id f c :: lg))).
  { intros [?|Hb]%elem_of_cons; [done|]. destruct (X Hb) as (W0 & W1 & -> & W2 & W3 & W4). rewrite !cnt_cons, Ha, Hr. cbn [is_claim].
    split_and!; [done|lia|lia|lia| | |done].
    - intros [<-|Ht]%elem_of_cons; [|by apply W4 in Ht]. destruct Hc as [_ ->]. exists id. unfold Nacks. rewrite (Hnil Hb). by left.
    - intros l [<-|Ht]%elem_of_cons; [|by apply W4 in Ht]. destruct Hc as [_ ->]. exists id. by left. }
  assert (Hflow : body f (Claimed id f c :: lg) -> cnt is_flow (t :: ts) <= 1 /\ (claimed_as f Aborted (Claimed id f c :: lg) -> cnt is_flow (t :: ts) = 0)).
  { intros [?|Hb]%elem_of_cons; [done|]. destruct (X Hb) as (_ & _ & _ & _ & W3 & _). destruct (v_flow _ _ _ _ _ V Hb) as [F1 _]. rewrite cnt_cons. split.
    - destruct t as [| | | | |? ? ?|? ?| |?|? ? w| |]; try done; cbn [is_flow]; try lia. destruct w; [|lia]. destruct Hc as (_ & _ & _ & Hw). destruct (Hw eq_refl). lia.
    - intros [i [E|Hi]%elem_of_cons]; [|pose proof (cnt_in is_claim lg _ Hi eq_refl); lia]. injection E as -> <-.
      destruct t as [| | | | |? ? []|? ?| |?|? ? w| |]; destr_ands; done. }
  destruct t as [| | | | |g l refused|g e| |g|g e w| |]; try done.
  - destruct Hc as [-> ->]. destruct refused; view_most V Hp; [exact (err_left Herr)|view_conts V14|exact Hbody|exact Hflow|exact (err_left Herr)|view_conts V14|exact Hbody|exact Hflow].
  - destruct Hc as (-> & -> & ->). view_most V Hp; [exact (err_left Herr)|view_conts V14|exact Hbody|exact Hflow].
  - destruct Hc as (-> & ->). view_most V Hp; [exact (err_left Herr)|view_conts V14|exact Hbody|exact Hflow].
  - destruct Hc as (-> & -> & -> & Hw). view_most V Hp; [exact (err_left Herr)|view_conts V14| |exact Hbody|exact Hflow].
    intros Hx. right. destruct Hx as [[i [?|Hi]%elem_of_cons]|[[?|Hi]%elem_of_cons|[e [[= -> <-]|Hi]%elem_of_cons]]]; try done; [apply V21; eauto..|by apply Hw|apply V21; eauto].
Qed.

End Claims.

(** ** The pool *)

Definition on (f : nat) (ts : list task) : list task := List.filter (fun t => (task_future t =? f)%nat) ts.

Definition entry_future (e : entry) : nat :=
  match e with Preset f | Body f | Registered _ f | Claimed _ f _ | Returned f _ => f end.

Definition hist (f : nat) (lg : list entry) : list entry := List.filter (fun e => (entry_future e =? f)%nat) lg.

Definition pend (f : nat) (m : gmap Z trackedRequest) : Z := Z.of_nat (size (filter (fun x => tr_future x.2 = f) m)).

Definition store_ids (ts : list task) : list Z := omap (fun t => match t with TStore id _ _ => Some id | _ => None end) ts.
Definition registered_ids (lg : list entry) : list Z := omap (fun e => match e with Registered id _ => Some id | _ => None end) lg.
Definition claimed_ids (lg : list entry) : list Z := omap (fun e => match e with Claimed id _ _ => Some id | _ => None end) lg.

(** The request a task works on, with its future. *)
Definition task_request (t : task) : option Z :=
  match t with TStore id _ _ | TSend id _ _ | TSelect id _ => Some id | _ => None end.

Record inv (r : Replicator) : Prop := {
  i_next : 0 <= r_nextID r;
  i_reg : registered_ids (r_log r) = seqZ 1 (r_nextID r);
  i_ids : store_ids (r_tasks r) ++ (map_to_list (r_pending r)).*1 ++ claimed_ids (r_log r) ≡ₚ registered_ids (r_log r);
  i_view : forall f fut, r_heap r !! f = Some fut -> view f fut (pend f (r_pending r)) (on f (r_tasks r)) (hist f (r_log r));
  i_tasks : forall t, t ∈ r_tasks r -> (task_future t < length (r_heap r))%nat;
  i_pending : forall id tr, r_pending r !! id = Some tr -> (tr_future tr < length (r_heap r))%nat /\ Registered id (tr_future tr) ∈ r_log r;
  i_log : forall e, e ∈ r_log r -> (entry_future e < length (r_heap r))%nat;
  i_owner : forall t id, t ∈ r_tasks r -> task_request t = Some id -> Registered id (task_future t) ∈ r_log r;
  i_expected : forall f fut, r_heap r !! f = Some fut -> f_expected fut <= r_nextID r }.

Lemma on_app f l1 l2 : on f (l1 ++ l2) = on f l1 ++ on f l2.
Proof. apply List.filter_app. Qed.

Lemma hist_app f l1 l2 : hist f (l1 ++ l2) = hist f l1 ++ hist f l2.
Proof. apply List.filter_app. Qed.

Lemma on_perm f l1 l2 : l1 ≡ₚ l2 -> on f l1 ≡ₚ on f l2.
Proof.
  induction 1 as [|x l l' _ IH|x y l|l1 l2 l3 _ IH1 _ IH2]; cbn; [done| | |by etrans].
  - destruct (_ =? _)%nat; by rewrite IH.
  - destruct (task_future x =? f)%nat, (task_future y =? f)%nat; try done. apply Permutation_swap.
Qed.

Lemma on_own f l : Forall (fun t => task_future t = f) l -> on f l = l.
Proof. induction 1 as [|t l Ht _ IH]; cbn; [done|]. rewrite (proj2 (Nat.eqb_eq _ _) Ht). by f_equal. Qed.

Lemma on_other f g l : Forall (fun t => task_future t = f) l -> f <> g -> on g l = [].
Proof. intros Hl Hne. induction Hl as [|t l Ht _ IH]; cbn; [done|]. destruct (Nat.eqb_spec (task_future t) g); [congruence|done]. Qed.

Lemma hist_own f l : Forall (fun e => entry_future e = f) l -> hist f l = l.
Proof. induction 1 as [|t l Ht _ IH]; cbn; [done|]. rewrite (proj2 (Nat.eqb_eq _ _) Ht). by f_equal. Qed.

Lemma hist_other f g l : Forall (fun e => entry_future e = f) l -> f <> g -> hist g l = [].
Proof. intros Hl Hne. induction Hl as [|t l Ht _ IH]; cbn; [done|]. destruct (Nat.eqb_spec (entry_future t) g); [congruence|done]. Qed.

Lemma pend_insert f m id tr : m !! id = None -> pend f (<[id := tr]> m) = pend f m + (if decide (tr_future tr = f) then 1 else 0).
Proof.
  intros Hn. unfold pend. destruct (decide (tr_future tr = f)) as [E|E].
  - rewrite map_filter_insert_True by done. rewrite map_size_insert_None; [lia|]. apply map_lookup_filter_None. by left.
  - rewrite map_filter_insert_False by done. rewrite delete_id by done. lia.
Qed.

Lemma pend_delete f m id tr : m !! id = Some tr -> pend f (delete id m) = pend f m - (if decide (tr_future tr = f) then 1 else 0).
Proof.
  intros Hs. rewrite <- (insert_delete_id m id tr Hs) at 2. rewrite pend_insert by apply lookup_delete_eq. lia.
Qed.

Lemma pend_replace f m id tr tr' : m !! id = Some tr -> tr_future tr' = tr_future tr -> pend f (<[id := tr']> m) = pend f m.
Proof.
  intros Hs E. rewrite <- (insert_delete_id m id tr Hs). rewrite insert_insert_eq, !pend_insert, E by apply lookup_delete_eq. done.
Qed.

Lemma pend_pos f m id tr : m !! id = Some tr -> tr_future tr = f -> 0 < pend f m.
Proof.
  intros Hs E. rewrite <- (insert_delete_id m id tr Hs), pend_insert, decide_True by (done || apply lookup_delete_eq). unfold pend. lia.
Qed.

(** A step that touches one future keeps the invariant when its view does. *)
Lemma inv_move r r' f fut fut' old new rest es :
  inv r -> r_tasks r ≡ₚ old ++ rest -> r_tasks r' ≡ₚ new ++ rest ->
  Forall (fun t => task_future t = f) old -> Forall (fun t => task_future t = f) new -> Forall (fun e => entry_future e = f) es ->
  r_heap r !! f = Some fut -> r_heap r' = <[f := fut']> (r_heap r) -> r_log r' = r_log r ++ es ->
  (forall g, g <> f -> pend g (r_pending r') = pend g (r_pending r)) ->
  (forall ts lg, ts = on f rest /\ lg = hist f (r_log r) -> view f fut (pend f (r_pending r)) (old ++ ts) lg -> view f fut' (pend f (r_pending r')) (new ++ ts) (rev es ++ lg)) ->
  r_nextID r <= r_nextID r' -> f_expected fut' <= r_nextID r' ->
  registered_ids (r_log r') = seqZ 1 (r_nextID r') ->
  store_ids (r_tasks r') ++ (map_to_list (r_pending r')).*1 ++ claimed_ids (r_log r') ≡ₚ registered_ids (r_log r') ->
  (forall id tr, r_pending r' !! id = Some tr -> (exists tr0, r_pending r !! id = Some tr0 /\ tr_future tr0 = tr_future tr)
     \/ (tr_future tr = f /\ Registered id f ∈ r_log r')) ->
  (forall t id, t ∈ new -> task_request t = Some id -> Registered id f ∈ r_log r') ->
  inv r'.
Proof.
  intros [J1 J2 J3 J4 J5 J6 J7 J8 J9] Ho Hn Fo Fn Fe Hf Eh El Hp Hv Hid Hex Hreg Hids Hpend Hown.
  assert (Hlen : length (r_heap r') = length (r_heap r)) by (rewrite Eh; apply length_insert).
  assert (Hflt : (f < length (r_heap r))%nat) by by eapply lookup_lt_Some.
  split.
  - lia.
  - done.
  - done.
  - intros g gut Hg. rewrite Eh in Hg. destruct (decide (g = f)) as [->|Hne].
    + rewrite list_lookup_insert_eq in Hg by done. injection Hg as <-. specialize (J4 f fut Hf).
      apply (view_perm f fut' _ (new ++ on f rest) _ (rev es ++ hist f (r_log r)) _).
      * rewrite (on_perm f _ _ Hn), on_app, (on_own f new) by done. done.
      * rewrite El, hist_app, (hist_own f es) by done. rewrite <- (Permutation_rev es). apply Permutation_app_comm.
      * apply Hv; [done|]. eapply view_perm; [|done|exact J4]. rewrite (on_perm f _ _ Ho), on_app, (on_own f old) by done. done.
    + rewrite list_lookup_insert_ne in Hg by done. specialize (J4 g gut Hg). rewrite Hp by done. eapply view_perm; [| |exact J4].
      * rewrite (on_perm g _ _ Ho), (on_perm g _ _ Hn), !on_app, (on_other f g old), (on_other f g new) by done. done.
      * rewrite El, hist_app, (hist_other f g es) by done. by rewrite app_nil_r.
  - intros t Ht. rewrite Hn, elem_of_app in Ht. rewrite Hlen. destruct Ht as [Ht|Ht].
    + eapply list.Forall_forall in Fn; [|exact Ht]. by rewrite Fn.
    + apply J5. rewrite Ho, elem_of_app. by right.
  - intros id tr Htr. rewrite Hlen. destruct (Hpend id tr Htr) as [(tr0 & H0 & <-)|[-> Hr]]; [|done].
    destruct (J6 id tr0 H0) as [? Hr]. split; [done|]. rewrite El, elem_of_app. by left.
  - intros e He. rewrite Hlen. rewrite El, elem_of_app in He. destruct He as [He|He]; [by apply J7|].
    eapply list.Forall_forall in Fe; [|exact He]. by rewrite Fe.
  - intros t id Ht Er. rewrite Hn, elem_of_app in Ht. destruct Ht as [Ht|Ht].
    + eapply list.Forall_forall in Fn as Hfu; [|exact Ht]. rewrite Hfu. by eapply Hown.
    + rewrite El, elem_of_app. left. apply (J8 t id); [|done]. rewrite Ho, elem_of_app. by right.
  - intros g gut Hg. rewrite Eh in Hg. destruct (decide (g = f)) as [->|Hne].
    + rewrite list_lookup_insert_eq in Hg by done. by injection Hg as <-.
    + rewrite list_lookup_insert_ne in Hg by done. specialize (J9 g gut Hg). lia.
Qed.

Lemma store_ids_app l1 l2 : store_ids (l1 ++ l2) = store_ids l1 ++ store_ids l2.
Proof. apply omap_app. Qed.

Lemma registered_ids_app l1 l2 : registered_ids (l1 ++ l2) = registered_ids l1 ++ registered_ids l2.
Proof. apply omap_app. Qed.

Lemma claimed_ids_app l1 l2 : claimed_ids (l1 ++ l2) = claimed_ids l1 ++ claimed_ids l2.
Proof. apply omap_app. Qed.

Lemma store_ids_perm l1 l2 : l1 ≡ₚ l2 -> store_ids l1 ≡ₚ store_ids l2.
Proof. intros E. unfold store_ids. by rewrite E. Qed.

(** What a step does to the requests: those it registers come to be stored,
    those stored pending, those pending claimed. *)
Lemma ids_step (s rest keys keys' c reg new old es_c es_r : list Z) :
  (old ++ rest) ++ keys ++ c ≡ₚ reg -> new ++ keys' ++ es_c ≡ₚ es_r ++ old ++ keys ->
  s ≡ₚ new ++ rest -> s ++ keys' ++ c ++ es_c ≡ₚ reg ++ es_r.
Proof.
  intros H1 H2 ->. rewrite !(Permutation_count_occ Z.eq_dec) in *. intros x. specialize (H1 x). specialize (H2 x).
  rewrite !count_occ_app in *. lia.
Qed.

Lemma inv_local r r' f fut fut' old new rest es :
  inv r -> r_tasks r ≡ₚ old ++ rest -> r_tasks r' ≡ₚ new ++ rest ->
  Forall (fun t => task_future t = f) old -> Forall (fun t => task_future t = f) new -> Forall (fun e => entry_future e = f) es ->
  r_heap r !! f = Some fut -> r_heap r' = <[f := fut']> (r_heap r) -> r_log r' = r_log r ++ es ->
  (forall g, g <> f -> pend g (r_pending r') = pend g (r_pending r)) ->
  (forall ts lg, ts = on f rest /\ lg = hist f (r_log r) -> view f fut (pend f (r_pending r)) (old ++ ts) lg -> view f fut' (pend f (r_pending r')) (new ++ ts) (rev es ++ lg)) ->
  r_nextID r <= r_nextID r' -> f_expected fut' <= r_nextID r' ->
  registered_ids es = seqZ (1 + r_nextID r) (r_nextID r' - r_nextID r) ->
  store_ids new ++ (map_to_list (r_pending r')).*1 ++ claimed_ids es
    ≡ₚ registered_ids es ++ store_ids old ++ (map_to_list (r_pending r)).*1 ->
  (forall id tr, r_pending r' !! id = Some tr -> (exists tr0, r_pending r !! id = Some tr0 /\ tr_future tr0 = tr_future tr)
     \/ (tr_future tr = f /\ Registered id f ∈ r_log r')) ->
  (forall t id, t ∈ new -> task_request t = Some id -> Registered id f ∈ r_log r') ->
  inv r'.
Proof.
  intros I Ho Hn Fo Fn Fe Hf Eh El Hp Hv Hid Hex Hreg Hids Hpend Hown.
  eapply (inv_move r r' f fut fut' old new rest es); try done.
  - rewrite El, registered_ids_app, Hreg, (i_reg _ I), <- seqZ_app; [|apply (i_next _ I)|lia]. f_equal. lia.
  - rewrite El, registered_ids_app, claimed_ids_app. eapply ids_step; [| |rewrite (store_ids_perm _ _ Hn), store_ids_app; done].
    + pose proof (i_ids _ I) as Hi. rewrite (store_ids_perm _ _ Ho), store_ids_app in Hi. exact Hi.
    + exact Hids.
Qed.

Lemma alter_insert (l : list ReplicationFuture) f fut g : l !! f = Some fut -> alter g f l = <[f := g fut]> l.
Proof.
  intros Hf. apply list_eq. intros i. destruct (decide (i = f)) as [->|Hi].
  - rewrite list_lookup_alter_eq, Hf, list_lookup_insert_eq by by eapply lookup_lt_Some. done.
  - by rewrite list_lookup_alter_ne, list_lookup_insert_ne.
Qed.

Lemma keys_delete (m : gmap Z trackedRequest) id tr : m !! id = Some tr -> (map_to_list m).*1 ≡ₚ id :: (map_to_list (delete id m)).*1.
Proof. intros H. by rewrite <- (map_to_list_delete m id tr H), fmap_cons. Qed.

Lemma keys_insert (m : gmap Z trackedRequest) id tr : m !! id = None -> (map_to_list (<[id := tr]> m)).*1 ≡ₚ id :: (map_to_list m).*1.
Proof. intros H. by rewrite (map_to_list_insert m id tr H), fmap_cons. Qed.

Lemma keys_replace (m : gmap Z trackedRequest) id tr tr' : m !! id = Some tr -> (map_to_list (<[id := tr']> m)).*1 ≡ₚ (map_to_list m).*1.
Proof.
  intros H. rewrite (keys_delete m id tr H). rewrite (keys_delete (<[id := tr']> m) id tr') by apply lookup_insert_eq. by rewrite delete_insert_eq.
Qed.

(** A registered request has one future. *)
Lemma owner_unique r id f g : inv r -> Registered id f ∈ r_log r -> Registered id g ∈ r_log r -> f = g.
Proof.
  intros I. assert (Hn : NoDup (registered_ids (r_log r))) by (rewrite (i_reg _ I); apply NoDup_seqZ). revert Hn.
  generalize (r_log r). induction l as [|e l IH]; [by intros _ ?%elem_of_nil|].
  assert (Hin : forall g, Registered id g ∈ l -> id ∈ registered_ids l).
  { intros h Hh. apply list_elem_of_omap. eexists. by split. }
  intros Hn [E1|H1]%elem_of_cons [E2|H2]%elem_of_cons.
  - congruence.
  - subst e. cbn in Hn. apply list.NoDup_cons in Hn as [Hn _]. by apply Hin in H2.
  - subst e. cbn in Hn. apply list.NoDup_cons in Hn as [Hn _]. by apply Hin in H1.
  - apply IH; [|done..]. destruct e; cbn in Hn; try done. by apply list.NoDup_cons in Hn as [_ Hn].
Qed.

(** A request being stored is not pending. *)
Lemma storing_fresh r id tr k : inv r -> TStore id tr k ∈ r_tasks r -> r_pending r !! id = None.
Proof.
  intros I Ht. destruct (r_pending r !! id) as [tr'|] eqn:E; [|done]. exfalso.
  assert (Hn : NoDup (store_ids (r_tasks r) ++ (map_to_list (r_pending r)).*1 ++ claimed_ids (r_log r))).
  { rewrite (i_ids _ I), (i_reg _ I). apply NoDup_seqZ. }
  apply list.NoDup_app in Hn as (_ & Hn & _). apply (Hn id).
  - apply list_elem_of_omap. eexists. by split.
  - apply elem_of_app. left. apply list_elem_of_fmap. exists (id, tr'). split; [done|]. by apply elem_of_map_to_list.
Qed.

(** ** Steps of the goroutines *)

Definition replaced (r : Replicator) (n : nat) (new : list task) : list task := take n (r_tasks r) ++ new ++ drop (S n) (r_tasks r).

Lemma replaced_perm r n t new : r_tasks r !! n = Some t ->
  r_tasks r ≡ₚ [t] ++ (take n (r_tasks r) ++ drop (S n) (r_tasks r)) /\ replaced r n new ≡ₚ new ++ (take n (r_tasks r) ++ drop (S n) (r_tasks r)).
Proof.
  intros Ht. split.
  - rewrite <- (take_drop_middle (r_tasks r) n t Ht) at 1. symmetry. apply (Permutation_middle (take n (r_tasks r)) (drop (S n) (r_tasks r)) t).
  - unfold replaced. rewrite !app_assoc. apply Permutation_app_tail, Permutation_app_comm.
Qed.

(** A task that leaves requests and history alone. *)
Lemma inv_quiet r r1 n t new fut fut' :
  inv r -> r_tasks r !! n = Some t -> r_heap r !! task_future t = Some fut -> r_heap r1 = <[task_future t := fut']> (r_heap r) ->
  r_pending r1 = r_pending r -> r_nextID r1 = r_nextID r -> r_log r1 = r_log r -> Forall (fun t' => task_future t' = task_future t) new ->
  (forall p ts lg, ts = on (task_future t) (take n (r_tasks r) ++ drop (S n) (r_tasks r)) /\ lg = hist (task_future t) (r_log r) ->
     view (task_future t) fut p (t :: ts) lg -> view (task_future t) fut' p (new ++ ts) lg) ->
  f_expected fut' = f_expected fut -> store_ids new = store_ids [t] ->
  (forall t' id, t' ∈ new -> task_request t' = Some id -> task_request t = Some id) ->
  inv (with_tasks r1 (replaced r n new)).
Proof.
  intros I Ht Hf Eh Ep En El Fn Hv Ee Es Hr. destruct (replaced_perm r n t new Ht) as [P1 P2].
  apply (inv_local r _ (task_future t) fut fut' [t] new (take n (r_tasks r) ++ drop (S n) (r_tasks r)) []); cbn [with_tasks r_heap r_tasks r_pending r_nextID r_log rev].
  - done.
  - done.
  - done.
  - by repeat constructor.
  - done.
  - constructor.
  - done.
  - done.
  - by rewrite app_nil_r.
  - by rewrite Ep.
  - rewrite Ep. intros ts lg. apply Hv.
  - lia.
  - rewrite Ee, En. by apply (i_expected _ I (task_future t)).
  - rewrite En, Z.sub_diag. done.
  - by rewrite Ep, Es, !app_nil_r.
  - rewrite Ep, El. intros id tr Hp. left. by exists tr.
  - rewrite El. intros t' id Hin Hq. apply (i_owner _ I t); [by eapply list_elem_of_lookup_2|]. by eapply Hr.
Qed.

(** ** Claims *)

Lemma pend_claim (m : gmap Z trackedRequest) id tr : m !! id = Some tr ->
  (forall g, g <> tr_future tr -> pend g (delete id m) = pend g m) /\ pend (tr_future tr) (delete id m) = pend (tr_future tr) m - 1
  /\ 0 < pend (tr_future tr) m.
Proof.
  intros Hs. split; [|split; [|by eapply pend_pos]].
  - intros g Hg. rewrite (pend_delete g m id tr Hs), decide_False by done. lia.
  - by rewrite (pend_delete _ m id tr Hs), decide_True.
Qed.

Lemma pending_deleted (m : gmap Z trackedRequest) id i tr : delete id m !! i = Some tr -> exists tr0, m !! i = Some tr0 /\ tr_future tr0 = tr_future tr.
Proof. intros [_ H]%lookup_delete_Some. by exists tr. Qed.

Lemma inv_claim r id tr c t : inv r -> r_pending r !! id = Some tr ->
  match t with
  | TResolve g => g = tr_future tr /\ c = Accepted []
  | TNacks g l refused => g = tr_future tr /\ c = if refused then Refused l else Accepted l
  | TReject g e w => g = tr_future tr /\ e = ErrReplicationTimeout /\ c = TimedOut /\ w = false
  | TDropAdd g e => g = tr_future tr /\ e = ErrNoPeers /\ c = Gone
  | _ => False
  end -> inv (spawn (record (with_pending r (delete id (r_pending r))) (Claimed id (tr_future tr) c)) [t]).
Proof.
  intros I Hs Hc. destruct (pend_claim _ _ _ Hs) as (Hg & Hf & Hpos). destruct (i_pending _ I id tr Hs) as [Hlt Hown].
  destruct (lookup_lt_is_Some_2 _ _ Hlt) as [fut Hfut].
  assert (Ht : task_future t = tr_future tr /\ store_ids [t] = [] /\ task_request t = None) by (destruct t; destr_ands; by try subst).
  destruct Ht as (Et & Es & Er).
  apply (inv_local r _ (tr_future tr) fut fut [] [t] (r_tasks r) [Claimed id (tr_future tr) c]);
    cbn [spawn with_tasks record with_pending r_heap r_tasks r_pending r_nextID r_log].
  - done.
  - done.
  - apply Permutation_app_comm.
  - constructor.
  - by repeat constructor.
  - by repeat constructor.
  - done.
  - by rewrite list_insert_id.
  - done.
  - exact Hg.
  - rewrite Hf. intros ts lg _ V. cbn [rev app]. apply view_claim; [done|done|]. destruct t; destr_ands; try done. by subst.
  - lia.
  - by apply (i_expected _ I (tr_future tr)).
  - by rewrite Z.sub_diag.
  - rewrite Es. cbn [app store_ids registered_ids claimed_ids omap list_omap]. rewrite (keys_delete _ _ _ Hs). rewrite Permutation_app_comm. done.
  - intros i tr' Hi. left. by eapply pending_deleted.
  - intros t' i ->%list_elem_of_singleton. by rewrite Er.
Qed.

(** A request whose send failed. *)
Lemma forget_frame r id : r_tasks (forget r id) = r_tasks r /\ r_heap (forget r id) = r_heap r /\ r_nextID (forget r id) = r_nextID r
  /\ forall ts, with_tasks (forget r id) ts = forget (with_tasks r ts) id.
Proof. unfold forget, claim_request. cbn [with_tasks r_pending]. by destruct (r_pending r !! id). Qed.

Lemma inv_forget r id : inv r ->
  (forall tr, r_pending r !! id = Some tr -> body (tr_future tr) (hist (tr_future tr) (r_log r)) -> cnt is_flow (on (tr_future tr) (r_tasks r)) = 0) ->
  inv (forget r id).
Proof.
  intros I Hfl. unfold forget, claim_request. destruct (r_pending r !! id) as [tr|] eqn:Hs; [|done].
  destruct (pend_claim _ _ _ Hs) as (Hg & Hf & Hpos). destruct (i_pending _ I id tr Hs) as [Hlt Hown].
  destruct (lookup_lt_is_Some_2 _ _ Hlt) as [fut Hfut].
  apply (inv_local r _ (tr_future tr) fut fut [] [] (r_tasks r) [Claimed id (tr_future tr) Aborted]);
    cbn [record with_pending r_heap r_tasks r_pending r_nextID r_log].
  - done.
  - done.
  - done.
  - constructor.
  - constructor.
  - by repeat constructor.
  - done.
  - by rewrite list_insert_id.
  - done.
  - exact Hg.
  - rewrite Hf. intros ts lg [-> ->] V. cbn [rev app]. apply view_abort; [done|done|by apply Hfl].
  - lia.
  - by apply (i_expected _ I (tr_future tr)).
  - by rewrite Z.sub_diag.
  - cbn [app store_ids registered_ids claimed_ids omap list_omap]. rewrite (keys_delete _ _ _ Hs). rewrite Permutation_app_comm. done.
  - intros i tr' Hi. left. by eapply pending_deleted.
  - by intros t' i ?%elem_of_nil.
Qed.

(** An entry of the history that no view counts. *)
Lemma inv_note r f e : inv r -> (f < length (r_heap r))%nat -> inv (record r (Returned f (inl e))).
Proof.
  intros I Hlt. destruct (lookup_lt_is_Some_2 _ _ Hlt) as [fut Hfut].
  apply (inv_local r _ f fut fut [] [] (r_tasks r) [Returned f (inl e)]); cbn [record r_heap r_tasks r_pending r_nextID r_log].
  - done.
  - done.
  - done.
  - constructor.
  - constructor.
  - by repeat constructor.
  - done.
  - by rewrite list_insert_id.
  - done.
  - done.
  - intros ts lg _ V. by apply view_note.
  - lia.
  - by apply (i_expected _ I f).
  - by rewrite Z.sub_diag.
  - by rewrite app_nil_r.
  - intros i tr Hi. left. by exists tr.
  - by intros t' i ?%elem_of_nil.
Qed.

Lemma inv_ext r r' : inv r -> r_heap r' = r_heap r -> r_tasks r' = r_tasks r -> r_pending r' = r_pending r ->
  r_nextID r' = r_nextID r -> r_log r' = r_log r -> inv r'.
Proof. intros [] E1 E2 E3 E4 E5. split; rewrite ?E1, ?E2, ?E3, ?E4, ?E5; done. Qed.

Lemma view_unselect f fut p ts lg id : view f fut p (TSelect id f :: ts) lg -> view f fut p ts lg.
Proof. intros V. pose proof I as X. view_fields V X. Qed.

(** [register] up to the counters. *)
Lemma inv_register r n tr b k now : inv r -> r_nextID r + 1 < 2 ^ 31 -> r_tasks r !! n = Some (TRegister tr b k) ->
  let '(r1, id, tr1) := register_count r tr b now in inv (with_tasks r1 (replaced r n [TStore id tr1 k])).
Proof.
  intros I Hlt Ht. unfold register_count. cbn zeta. assert (Hin := list_elem_of_lookup_2 _ _ _ Ht).
  pose proof (i_tasks _ I _ Hin) as Hf. cbn [task_future] in Hf. destruct (lookup_lt_is_Some_2 _ _ Hf) as [fut Hfut].
  pose proof (i_next _ I) as Hn. rewrite (wrapu64_id (r_nextID r + 1)) by (unfold is_uint64, max_uint64; lia).
  destruct (replaced_perm r n _ [TStore (r_nextID r + 1) (mkRequest (tr_future tr) now now (tr_deadline tr) (tr_peerID tr)
    (AssembleNotifyPacket (r_nextID r + 1) b) (tr_retransmit tr)) k] Ht) as [P1 P2].
  pose proof (i_expected _ I _ _ Hfut) as Hex.
  assert (He : 0 <= f_expected fut).
  { destruct (i_view _ I _ _ Hfut) as [V1 _ _ V4 _ _ _ _ _ _ _ _ _ _ _ _ _ _ _ _ _ _ _ _]. rewrite V1.
    pose proof (cnt_pos is_starting (on (tr_future tr) (r_tasks r))). pose proof (cnt_pos is_claim (hist (tr_future tr) (r_log r))). lia. }
  eapply (inv_local r _ (tr_future tr) fut (expect_one fut) [TRegister tr b k] _ _ [Registered (r_nextID r + 1) (tr_future tr)]); [exact I|exact P1|exact P2|..];
    cbn [with_tasks record upd with_heap r_heap r_tasks r_pending r_nextID r_log tr_future].
  - by repeat constructor.
  - by repeat constructor.
  - by repeat constructor.
  - done.
  - by apply alter_insert.
  - done.
  - done.
  - intros ts lg _ V. cbn [rev app]. apply view_register with (tr := tr) (b := b); [done|lia].
  - lia.
  - unfold expect_one. cbn [f_expected]. rewrite wrap32_id by lia. lia.
  - replace (r_nextID r + 1 - r_nextID r) with 1 by lia. cbn. apply (f_equal (fun z => [z])). lia.
  - cbn [app store_ids registered_ids claimed_ids omap list_omap]. by rewrite app_nil_r.
  - intros i tr' Hi. left. by exists tr'.
  - intros t id ->%list_elem_of_singleton. cbn. intros [= <-]. apply elem_of_app. right. by left.
Qed.

Lemma inv_store r n id tr k : inv r -> r_tasks r !! n = Some (TStore id tr k) ->
  inv (with_tasks (register_store r id tr) (replaced r n [TSend id tr k])).
Proof.
  intros I Ht. assert (Hin := list_elem_of_lookup_2 _ _ _ Ht). pose proof (i_tasks _ I _ Hin) as Hf. cbn [task_future] in Hf.
  destruct (lookup_lt_is_Some_2 _ _ Hf) as [fut Hfut]. pose proof (storing_fresh _ _ _ _ I Hin) as Hfresh.
  pose proof (i_owner _ I _ id Hin eq_refl) as Hown. cbn [task_future] in Hown.
  destruct (replaced_perm r n _ [TSend id tr k] Ht) as [P1 P2].
  eapply (inv_local r _ (tr_future tr) fut fut [TStore id tr k] [TSend id tr k] _ []); [exact I|exact P1|exact P2|..];
    cbn [with_tasks register_store with_pending r_heap r_tasks r_pending r_nextID r_log].
  - by repeat constructor.
  - by repeat constructor.
  - constructor.
  - done.
  - by rewrite list_insert_id.
  - by rewrite app_nil_r.
  - intros g Hg. rewrite pend_insert, decide_False by done. lia.
  - intros ts lg _ V. rewrite pend_insert, decide_True by done. cbn [rev app] in *. by apply view_store.
  - lia.
  - by apply (i_expected _ I (tr_future tr)).
  - by rewrite Z.sub_diag.
  - cbn [app store_ids registered_ids claimed_ids omap list_omap]. by rewrite (keys_insert _ _ _ Hfresh), app_nil_r.
  - intros i tr' [[<- <-]|[_ Hi]]%lookup_insert_Some; [right; auto|left; by exists tr'].
  - intros t i ->%list_elem_of_singleton. cbn. by intros [= <-].
Qed.

Lemma inv_sent r n id tr k ok : inv r -> r_tasks r !! n = Some (TSend id tr k) ->
  let '(r1, new) := after_send r id tr k ok in inv (with_tasks r1 (replaced r n new)).
Proof.
  intros I Ht. assert (Hin := list_elem_of_lookup_2 _ _ _ Ht). pose proof (i_tasks _ I _ Hin) as Hf. cbn [task_future] in Hf.
  destruct (lookup_lt_is_Some_2 _ _ Hf) as [fut Hfut].
  assert (Hbase : forall new,
    match k with
    | KPeer => new = []
    | KCross _ _ _ => new = [] \/ exists tr' b ps d b', new = [TRegister tr' b (KCross ps d b')] /\ tr_future tr' = tr_future tr
    | KBody => new = [] \/ new = [TSelect id (tr_future tr)]
    end -> inv (with_tasks r (replaced r n new))).
  { intros new Hnew. apply (inv_quiet r r n (TSend id tr k) new fut fut); cbn [task_future]; try done.
    - by rewrite list_insert_id.
    - destruct k; [subst; constructor|destruct Hnew as [->|(? & ? & ? & ? & ? & -> & ?)]|destruct Hnew as [->| ->]]; by repeat constructor.
    - intros p ts lg _ V. apply (view_sent _ fut p ts lg id tr k new V). destruct k; [done| |done]. destruct Hnew as [?|(tr' & b & ps & d & b' & -> & _)]; [auto|].
      right. by exists tr', b, ps, d, b'.
    - destruct k; [by subst|destruct Hnew as [->|(? & ? & ? & ? & ? & -> & ?)]|destruct Hnew as [->| ->]]; done.
    - intros t' i Ht' Hr. destruct k; [subst; by apply elem_of_nil in Ht'|destruct Hnew as [->|(? & ? & ? & ? & ? & -> & ?)]|destruct Hnew as [->| ->]];
        try (by apply elem_of_nil in Ht'); apply list_elem_of_singleton in Ht' as ->; done. }
  pose proof (i_view _ I _ _ Hfut) as V. pose proof (i_owner _ I _ id Hin eq_refl) as Hown. cbn [task_future] in Hown.
  assert (Hmine : forall tr', r_pending r !! id = Some tr' -> tr_future tr' = tr_future tr).
  { intros tr' Hs. apply (owner_unique r id); [done|apply (i_pending _ I _ _ Hs)|done]. }
  destruct (forget_frame r id) as (_ & _ & _ & Efo).
  destruct k as [|ps d b|]; cbn [after_send].
  - destruct ok; [eapply inv_ext; [by apply (Hbase [])|done..]|by apply Hbase].
  - assert (Hcn : cross_next (tr_future tr) ps d b = [] \/ exists tr' b0 ps0 d0 b', cross_next (tr_future tr) ps d b = [TRegister tr' b0 (KCross ps0 d0 b')] /\ tr_future tr' = tr_future tr).
    { destruct ps; cbn; [auto|]. right. by eexists _, _, _, _, _. }
    destruct ok; [eapply inv_ext; [by apply (Hbase _ Hcn)|done..]|]. rewrite Efo. apply inv_forget; [by apply Hbase|]. cbn [with_tasks r_pending r_log r_tasks].
    intros tr' Hs Hb. rewrite (Hmine tr' Hs) in *. exfalso.
    assert (TSend id tr (KCross ps d b) ∈ on (tr_future tr) (r_tasks r)) as Hon by (apply list_elem_of_In, filter_In; by rewrite <- list_elem_of_In, Nat.eqb_refl).
    by destruct (v_preset _ _ _ _ _ V (v_cont _ _ _ _ _ V _ Hon)) as [_ []].
  - destruct ok; [eapply inv_ext; [by apply (Hbase [TSelect id (tr_future tr)]); right|done..]|].
    assert (inv (forget (with_tasks r (replaced r n [])) id)) as Ifo.
    { apply inv_forget; [by apply Hbase; left|]. cbn [with_tasks r_pending r_log r_tasks]. intros tr' Hs Hb. rewrite (Hmine tr' Hs) in *.
      destruct (v_flow _ _ _ _ _ V Hb) as [F _]. destruct (replaced_perm r n _ [] Ht) as [P1 P2].
      rewrite (cnt_perm _ _ _ (on_perm (tr_future tr) _ _ P1)), on_app, cnt_app, (on_own _ [TSend id tr KBody]) in F by by repeat constructor.
      rewrite (cnt_perm _ _ _ (on_perm (tr_future tr) _ _ P2)). cbn [app]. rewrite cnt_cons in F. cbn [is_flow is_body] in F.
      pose proof (cnt_pos is_flow (on (tr_future tr) (take n (r_tasks r) ++ drop (S n) (r_tasks r)))). rewrite cnt_nil in F. lia. }
    eapply inv_ext; [apply (inv_note _ (tr_future tr) (ErrSend (tr_peerID tr)) Ifo)|..].
    + destruct (forget_frame (with_tasks r (replaced r n [])) id) as (_ & -> & _). done.
    + rewrite <- Efo. done.
    + rewrite <- Efo. done.
    + rewrite <- Efo. done.
    + rewrite <- Efo. done.
    + rewrite <- Efo. done.
Qed.

Lemma inv_select r n id f stop r1 new : inv r -> r_tasks r !! n = Some (TSelect id f) -> body_select r id f stop = Some (r1, new) ->
  inv (with_tasks r1 (replaced r n new)).
Proof.
  intros I Ht. assert (Hin := list_elem_of_lookup_2 _ _ _ Ht). pose proof (i_tasks _ I _ Hin) as Hf. cbn [task_future] in Hf.
  destruct (lookup_lt_is_Some_2 _ _ Hf) as [fut Hfut].
  assert (Hret : inv (with_tasks r (replaced r n [TReturn f]))).
  { apply (inv_quiet r r n (TSelect id f) [TReturn f] fut fut); cbn [task_future]; try done.
    - by rewrite list_insert_id.
    - by repeat constructor.
    - intros p ts lg _. apply view_select.
    - by intros t' i ->%list_elem_of_singleton. }
  unfold body_select, claim_request. destruct stop; [|destruct (from_option _ _ _); [|done]; by intros [= <- <-]].
  destruct (r_stopped r); [|done]. destruct (r_pending r !! id) as [tr|] eqn:Hs; [|by intros [= <- <-]]. intros [= <- <-].
  assert (tr_future tr = f) as Ef.
  { apply (owner_unique r id); [done|apply (i_pending _ I _ _ Hs)|by apply (i_owner _ I (TSelect id f))]. }
  destruct (pend_claim _ _ _ Hs) as (Hg & Hpf & Hpos). rewrite Ef in *.
  destruct (replaced_perm r n _ [TReject f ErrReplicationTimeout true] Ht) as [P1 P2].
  eapply (inv_local r _ f fut fut [TSelect id f] [TReject f ErrReplicationTimeout true] _ [Claimed id f TimedOut]); [exact I|exact P1|exact P2|..];
    cbn [with_tasks record with_pending r_heap r_tasks r_pending r_nextID r_log].
  - by repeat constructor.
  - by repeat constructor.
  - by repeat constructor.
  - done.
  - by rewrite list_insert_id.
  - done.
  - done.
  - intros ts lg _ V. rewrite Hpf. cbn [rev app] in *. assert (body f lg) as Hb by (apply (v_waiting _ _ _ _ _ V); left; exists id; by left).
    apply view_claim; [by eapply view_unselect|done|]. split_and!; try done. intros _. split; [done|]. destruct (v_flow _ _ _ _ _ V Hb) as [F _].
    rewrite cnt_cons in F. cbn [is_flow] in F. pose proof (cnt_pos is_flow ts). lia.
  - lia.
  - by apply (i_expected _ I f).
  - by rewrite Z.sub_diag.
  - cbn [app store_ids registered_ids claimed_ids omap list_omap]. rewrite (keys_delete _ _ _ Hs). rewrite Permutation_app_comm. done.
  - intros i tr' Hi. left. by eapply pending_deleted.
  - by intros t' i ->%list_elem_of_singleton.
Qed.

Lemma inv_return r n f r1 new : inv r -> r_tasks r !! n = Some (TReturn f) -> body_return r f = Some (r1, new) ->
  inv (with_tasks r1 (replaced r n new)).
Proof.
  intros I Ht. unfold body_return. destruct (r_heap r !! f) as [fut|] eqn:Hfut; [|done]. cbn [mbind option_bind]. unfold Wait.
  destruct (f_done fut) eqn:Ed; [|done]. cbn [mbind option_bind]. intros [= <- <-].
  destruct (replaced_perm r n _ [] Ht) as [P1 P2]. set (res := match f_err fut with Some e => inl e | None => inr (Nacks fut) end).
  eapply (inv_local r _ f fut fut [TReturn f] [] _ [Returned f res]); [exact I|exact P1|exact P2|..];
    cbn [with_tasks record r_heap r_tasks r_pending r_nextID r_log].
  - by repeat constructor.
  - constructor.
  - by repeat constructor.
  - done.
  - by rewrite list_insert_id.
  - done.
  - done.
  - intros ts lg _ V. cbn [rev app] in *. by apply view_return.
  - lia.
  - by apply (i_expected _ I f).
  - by rewrite Z.sub_diag.
  - by rewrite app_nil_r.
  - intros i tr Hi. left. by exists tr.
  - by intros t' i ?%elem_of_nil.
Qed.

(** The other accesses change their future and nothing else. *)
Lemma inv_upd r n t new g fut : inv r -> r_tasks r !! n = Some t -> r_heap r !! task_future t = Some fut ->
  Forall (fun t' => task_future t' = task_future t) new -> store_ids new = store_ids [t] -> (forall t', t' ∈ new -> task_request t' = None) ->
  f_expected (g fut) = f_expected fut ->
  (forall p ts lg, ts = on (task_future t) (take n (r_tasks r) ++ drop (S n) (r_tasks r)) /\ lg = hist (task_future t) (r_log r) ->
     view (task_future t) fut p (t :: ts) lg -> view (task_future t) (g fut) p (new ++ ts) lg) ->
  inv (with_tasks (upd r (task_future t) g) (replaced r n new)).
Proof.
  intros I Ht Hf Fn Es Hr Ee Hv. apply (inv_quiet r _ n t new fut (g fut)); try done.
  - by apply alter_insert.
  - intros t' id Hin Hq. by rewrite Hr in Hq.
Qed.

Lemma future_of r n t : inv r -> r_tasks r !! n = Some t -> exists fut, r_heap r !! task_future t = Some fut /\ f_dropped fut <= r_nextID r
  /\ view (task_future t) fut (pend (task_future t) (r_pending r)) (t :: on (task_future t) (take n (r_tasks r) ++ drop (S n) (r_tasks r)))
       (hist (task_future t) (r_log r)).
Proof.
  intros I Ht. pose proof (i_tasks _ I _ (list_elem_of_lookup_2 _ _ _ Ht)) as Hf. destruct (lookup_lt_is_Some_2 _ _ Hf) as [fut Hfut].
  exists fut. split; [done|]. pose proof (i_view _ I _ _ Hfut) as V. split.
  - pose proof (i_expected _ I _ _ Hfut). destruct V as [V1 V2 _ V4 _ _ _ _ _ _ _ _ _ _ _ _ _ _ _ _ _ _ _ _].
    assert (cnt is_drop (hist (task_future t) (r_log r)) <= cnt is_claim (hist (task_future t) (r_log r))) by (apply cnt_le; by intros [| | |? ? []|]).
    pose proof (cnt_pos is_starting (on (task_future t) (r_tasks r))). pose proof (cnt_pos is_dropping (on (task_future t) (r_tasks r))). lia.
  - eapply view_perm; [|done|exact V]. destruct (replaced_perm r n t [] Ht) as [P1 _]. rewrite (on_perm (task_future t) _ _ P1), on_app.
    rewrite (on_own _ [t]) by by repeat constructor. done.
Qed.

Lemma fanned_out_spec f ts t : fanned_out f ts = true -> t ∈ ts -> task_future t = f -> task_cont t <> Some KPeer.
Proof.
  unfold fanned_out. rewrite forallb_forall. intros Hall Ht%list_elem_of_In E. specialize (Hall t Ht).
  destruct t as [tr b [| |]|id tr [| |]|id tr [| |]| | | | | | | | |]; try done; cbn in E; subst f; by rewrite Nat.eqb_refl in Hall.
Qed.

Lemma run_task_inv r n t ok now r1 new : inv r -> r_nextID r + 1 < 2 ^ 31 -> r_tasks r !! n = Some t ->
  run_task r t ok now = Some (r1, new) -> inv (with_tasks r1 (replaced r n new)) /\ r_nextID r1 <= r_nextID r + 1.
Proof.
  intros I Hlt Ht Hrun. destruct (future_of r n t I Ht) as (fut & Hf & Hd & Hview).
  assert (Hone : forall t', task_future t' = task_future t -> Forall (fun t' => task_future t' = task_future t) [t']) by by repeat constructor.
  destruct t as [tr b k|id tr k|id tr k|f|f|f l refused|f e|f e d|f|f e w|id f|f]; cbn [run_task task_future] in *.
  - pose proof (inv_register r n tr b k now I Hlt Ht) as Hr. destruct (register_count r tr b now) as [[r2 id] tr2] eqn:E.
    injection Hrun as <- <-. split; [done|]. unfold register_count in E. injection E as <- _ _.
    cbn [record upd with_heap r_nextID]. pose proof (i_next _ I). rewrite wrapu64_id by (unfold is_uint64, max_uint64; lia). lia.
  - injection Hrun as <- <-. split; [by apply inv_store|cbn; lia].
  - pose proof (inv_sent r n id tr k ok I Ht) as Hs. injection Hrun as Hrun. rewrite Hrun in Hs. split; [done|].
    destruct (forget_frame r id) as (_ & _ & En & _). destruct k as [|ps dl b|], ok; cbn [after_send] in Hrun; injection Hrun as <- <-; cbn; lia.
  - destruct (fanned_out f (r_tasks r)) eqn:Ef; [|done]. injection Hrun as <- <-. split; [|cbn; lia].
    apply (inv_upd r n (TSetup f) [TCheck f] set_setup fut); try done; [by apply Hone|by intros t ->%list_elem_of_singleton|].
    intros p ts lg [-> _] V. apply view_setup; [done|]. intros t [Ht' E]%list_elem_of_In%filter_In. apply Nat.eqb_eq in E.
    apply (fanned_out_spec f (r_tasks r)); [done| |done]. destruct (replaced_perm r n _ [] Ht) as [P1 _].
    apply (elem_of_Permutation_proper t _ _ P1). right. by apply list_elem_of_In.
  - injection Hrun as <- <-. split; [|cbn; lia]. apply (inv_upd r n (TCheck f) [] setup_check fut); try done.
    + by intros t ?%elem_of_nil.
    + unfold setup_check, reject. by repeat case_match.
    + intros p ts lg _. apply view_check.
  - injection Hrun as <- <-. split; [|cbn; lia]. apply (inv_upd r n (TNacks f l refused) _ (set_nacks l) fut); try done.
    + apply Hone. by destruct refused.
    + by destruct refused.
    + intros t ->%list_elem_of_singleton. by destruct refused.
    + intros p ts lg _. apply view_nacks.
  - rewrite Hf in Hrun. cbn [mbind option_bind] in Hrun.
    destruct (view_drop_add f fut _ _ _ e Hview ltac:(lia)) as [_ Ed]. destruct (drop_add fut) as [fut' d] eqn:Ea. cbn [snd] in Ed. subst d.
    injection Hrun as <- <-. split; [|cbn; lia].
    apply (inv_upd r n (TDropAdd f e) [TDropCheck f e (f_dropped fut + 1)] (fun _ => fut') fut); try done.
    + by apply Hone.
    + by intros t ->%list_elem_of_singleton.
    + unfold drop_add in Ea. by injection Ea as <- _.
    + intros p ts lg _ V. destruct (view_drop_add f fut p ts lg e V ltac:(lia)) as [V' _]. by rewrite Ea in V'.
  - injection Hrun as <- <-. split; [|cbn; lia]. apply (inv_upd r n (TDropCheck f e d) [] (drop_check e d) fut); try done.
    + by intros t ?%elem_of_nil.
    + unfold drop_check, reject. by repeat case_match.
    + intros p ts lg _. apply view_drop_check.
  - injection Hrun as <- <-. split; [|cbn; lia]. apply (inv_upd r n (TResolve f) [] resolve fut); try done.
    + by intros t ?%elem_of_nil.
    + unfold resolve. by case_match.
    + intros p ts lg _. apply view_resolve.
  - injection Hrun as <- <-. split; [|cbn; lia]. apply (inv_upd r n (TReject f e w) _ (reject e) fut); try done.
    + destruct w; [by apply Hone|constructor].
    + by destruct w.
    + intros t. destruct w; [by intros ->%list_elem_of_singleton|by intros ?%elem_of_nil].
    + unfold reject. by case_match.
    + intros p ts lg _. apply view_reject.
  - split; [by eapply inv_select|]. unfold body_select, claim_request in Hrun. destruct ok; [|destruct (from_option _ _ _); [|done]; injection Hrun as <- _; lia].
    destruct (r_stopped r); [|done]. destruct (r_pending r !! id); injection Hrun as <- _; cbn; lia.
  - split; [by eapply inv_return|]. unfold body_return in Hrun. rewrite Hf in Hrun. cbn [mbind option_bind] in Hrun. unfold Wait in Hrun.
    destruct (f_done fut); [|done]. cbn [mbind option_bind] in Hrun. injection Hrun as <- _. cbn. lia.
Qed.

(** ** New futures *)

Lemma filter_none {A} (P : A -> bool) l : (forall x, x ∈ l -> P x = false) -> List.filter P l = [].
Proof.
  induction l as [|x l IH]; intros Hp; cbn [List.filter]; [done|]. rewrite (Hp x) by by left. apply IH. intros y Hy. apply Hp. by right.
Qed.

Lemma inv_alloc r fut ts es : inv r -> f_expected fut = 0 ->
  Forall (fun t => task_future t = length (r_heap r)) ts -> Forall (fun e => entry_future e = length (r_heap r)) es ->
  store_ids ts = [] -> registered_ids es = [] -> claimed_ids es = [] -> (forall t, t ∈ ts -> task_request t = None) ->
  view (length (r_heap r)) fut 0 ts es ->
  inv (mkReplicator (r_nodeID r) (r_localRegion r) (r_timeout r) (r_health r) (r_pending r) (r_nextID r) (r_regions r) (r_stopped r)
    (r_sweeper r) (r_heap r ++ [fut]) (r_tasks r ++ ts) (r_sent r) (r_log r ++ es)).
Proof.
  intros [J1 J2 J3 J4 J5 J6 J7 J8 J9] Ee Fn Fe Es Er Ec Hq Hv.
  assert (Hother : forall g, (g < length (r_heap r))%nat -> on g (r_tasks r ++ ts) = on g (r_tasks r) /\ hist g (r_log r ++ es) = hist g (r_log r)).
  { intros g Hg. rewrite on_app, hist_app, (on_other (length (r_heap r)) g ts), (hist_other (length (r_heap r)) g es) by (done || lia).
    by rewrite !app_nil_r. }
  assert (Hnew : on (length (r_heap r)) (r_tasks r) = [] /\ hist (length (r_heap r)) (r_log r) = [] /\ pend (length (r_heap r)) (r_pending r) = 0).
  { split_and!.
    - apply filter_none. intros t Ht%J5. apply Nat.eqb_neq. lia.
    - apply filter_none. intros t Ht%J7. apply Nat.eqb_neq. lia.
    - unfold pend. replace (filter _ (r_pending r)) with (∅ : gmap Z trackedRequest); [done|].
      symmetry. apply map_empty. intros id. apply map_lookup_filter_None. destruct (r_pending r !! id) as [tr|] eqn:E; [right|by left].
      intros tr' [= <-]. destruct (J6 id tr E) as [? _]. cbn. lia. }
  destruct Hnew as (N1 & N2 & N3). split; cbn [r_nextID r_log r_tasks r_pending r_heap].
  - done.
  - by rewrite registered_ids_app, Er, app_nil_r.
  - by rewrite registered_ids_app, claimed_ids_app, store_ids_app, Er, Ec, Es, !app_nil_r.
  - intros g gut. destruct (decide (g < length (r_heap r))%nat) as [Hg|Hg].
    + rewrite lookup_app_l by done. destruct (Hother g Hg) as [-> ->]. apply J4.
    + rewrite lookup_app_r by lia. intros Hl. assert (g = length (r_heap r)) as ->.
      { apply lookup_lt_Some in Hl. cbn in Hl. lia. }
      rewrite Nat.sub_diag in Hl. injection Hl as <-. by rewrite on_app, hist_app, N1, N2, N3, (on_own _ ts), (hist_own _ es).
  - intros t. rewrite elem_of_app, length_app. cbn [length]. intros [Ht|Ht]; [apply J5 in Ht; lia|].
    eapply list.Forall_forall in Fn; [|exact Ht]. lia.
  - intros id tr Hp. destruct (J6 id tr Hp) as [? ?]. rewrite length_app, elem_of_app. cbn [length]. split; [lia|by left].
  - intros e. rewrite elem_of_app, length_app. cbn [length]. intros [He|He]; [apply J7 in He; lia|].
    eapply list.Forall_forall in Fe; [|exact He]. lia.
  - intros t id. rewrite !elem_of_app. intros [Ht|Ht] Hr; [left; by apply J8|]. by rewrite Hq in Hr.
  - intros g gut. destruct (decide (g < length (r_heap r))%nat) as [Hg|Hg]; [rewrite lookup_app_l by done; apply J9|].
    rewrite lookup_app_r by lia. destruct (g - length (r_heap r))%nat as [|k]; [|by destruct k]. intros [= <-]. lia.
Qed.

(** The view of a future nobody acted on yet. *)
Section Start.
Context (f : nat) (fut : ReplicationFuture) (ts : list task) (lg : list entry).
Context (Hexp : f_expected fut = 0) (Hdrop : f_dropped fut = 0) (Hnil : f_nacks fut = None).
Context (Hts : forall t, t ∈ ts -> is_register t = true \/ t = TSetup f).
Context (Hlg : forall e, e ∈ lg -> e = Preset f \/ e = Body f).
Context (Hp : preset f lg -> f_done fut = true /\ (body f lg -> False)) (Hd : f_done fut = true -> preset f lg) (Ho : f_done fut = false -> f_err fut = None).
Context (Hk : forall t, t ∈ ts -> match task_cont t with
    | Some KPeer => f_setupDone fut = false
    | Some (KCross _ _ _) => preset f lg
    | Some KBody => body f lg
    | None => True
    end).
Context (Hs1 : cnt is_setup ts <= (if f_setupDone fut then 0 else 1)) (Hs2 : f_done fut = false -> f_setupDone fut = false -> TSetup f ∈ ts).
Context (Hf : f_done fut = false -> exists tr b k, TRegister tr b k ∈ ts) (Hb : body f lg -> f_setupDone fut = true /\ cnt is_register ts <= 1 /\ cnt is_flow ts <= 1).

Lemma start_none P : (forall t, is_register t = true \/ t = TSetup f -> P t = false) -> cnt P ts = 0.
Proof. intros HP. unfold cnt. rewrite filter_none; [done|]. intros t Ht. apply HP. by apply Hts. Qed.

Lemma start_claims P : (forall e, e = Preset f \/ e = Body f -> P e = false) -> cnt P lg = 0.
Proof. intros HP. unfold cnt. rewrite filter_none; [done|]. intros e He. apply HP. by apply Hlg. Qed.

Lemma view_start : view f fut 0 ts lg.
Proof.
  assert (N1 : cnt is_starting ts = 0) by (apply start_none; intros t [Ht| ->]; [by destruct t|done]).
  assert (N2 : cnt is_dropping ts = 0) by (apply start_none; intros t [Ht| ->]; [by destruct t|done]).
  assert (N3 : cnt is_acting ts = 0) by (apply start_none; intros t [Ht| ->]; [by destruct t|done]).
  assert (C1 : cnt is_claim lg = 0) by (apply start_claims; by intros e [->| ->]).
  assert (C2 : cnt is_drop lg = 0) by (apply start_claims; by intros e [->| ->]).
  assert (Ht : forall t, t ∈ ts -> is_register t = false -> is_setup t = false -> False).
  { intros t Hin. destruct (Hts t Hin) as [E| ->]; [by rewrite E|done]. }
  assert (He : forall e, e ∈ lg -> is_claim e = true \/ (exists g x, e = Returned g x) -> False).
  { intros e Hin. destruct (Hlg e Hin) as [->| ->]; intros [?|(? & ? & ?)]; done. }
  split; rewrite ?N1, ?N2, ?N3, ?C1, ?C2, ?Hexp, ?Hdrop.
  - done.
  - done.
  - done.
  - done.
  - done.
  - auto.
  - intros e Ee. left. apply Hd. destruct (f_done fut); [done|]. by rewrite Ho in Ee.
  - intros l [id Hid]. exfalso. eapply He; [exact Hid|by left].
  - intros [id Hid]. exfalso. eapply He; [exact Hid|by left].
  - intros e w Hin. exfalso. by eapply Ht.
  - intros e [Hin|[n Hin]]; exfalso; by eapply Ht.
  - intros [Hin|[l Hin]]; exfalso; by eapply Ht.
  - done.
  - done.
  - lia.
  - intros Hin. exfalso. by eapply Ht.
  - done.
  - done.
  - auto.
  - intros e n Hin. exfalso. by eapply Ht.
  - intros [[id Hin]|[Hin|[e Hin]]]; exfalso; by eapply Ht.
  - intros Hbd. destruct (Hb Hbd) as (? & ? & _). assert (f_done fut = false) as -> by (destruct (f_done fut) eqn:E; [|done]; exfalso; by apply Hp; [apply Hd|]).
    split_and!; [done|lia|lia|done| | |done].
    + intros Hin. exfalso. by eapply Ht.
    + intros l Hin. exfalso. by eapply Ht.
  - intros l Hin. exfalso. eapply He; [exact Hin|right; eauto].
  - intros Hbd. destruct (Hb Hbd) as (_ & _ & ?). split; [done|]. intros [id Hid]. exfalso. eapply He; [exact Hid|by left].
Qed.

End Start.

Lemma inv_rejected r err : inv r -> inv (return_rejected r err).1 /\ r_nextID (return_rejected r err).1 = r_nextID r.
Proof.
  intros I. split; [|done]. eapply inv_ext; [apply (inv_alloc r (rejectedFuture err) [] [Preset (length (r_heap r))] I)|..]; try done.
  - by repeat constructor.
  - by intros t ?%elem_of_nil.
  - apply view_start; try done; try (by intros t ?%elem_of_nil); try (intros [?|?%elem_of_nil]%elem_of_cons; done).
    + intros e ->%list_elem_of_singleton. by left.
    + intros _. by split; [|intros [?|?%elem_of_nil]%elem_of_cons].
    + intros _. by left.
  - cbn. by rewrite app_nil_r.
Qed.

Lemma inv_cross `{!MapRange} r body regions now i : inv r ->
  inv (sendCrossRegion r body regions now i) /\ r_nextID (sendCrossRegion r body regions now i) = r_nextID r.
Proof.
  intros I. split; [|done]. unfold sendCrossRegion. cbn [alloc].
  set (ps := map fst _). set (d := wrap64 _). set (f := length (r_heap r)).
  assert (Hc : forall t, t ∈ cross_next f ps d body -> exists tr b k, t = TRegister tr b (KCross k d body) /\ tr_future tr = f).
  { intros t. destruct ps; [by intros ?%elem_of_nil|]. intros ->%list_elem_of_singleton. by eexists _, _, _. }
  eapply inv_ext; [apply (inv_alloc r (resolve newFuture) (cross_next f ps d body) [Preset f] I)|..]; try done.
  - apply list.Forall_forall. intros t Ht. by destruct (Hc t Ht) as (tr & b & k & -> & ?).
  - by repeat constructor.
  - by destruct ps.
  - intros t Ht. by destruct (Hc t Ht) as (tr & b & k & -> & ?).
  - apply view_start; try done.
    + intros t Ht. destruct (Hc t Ht) as (tr & b & k & -> & ?). by left.
    + intros e ->%list_elem_of_singleton. by left.
    + intros _. by split; [|intros [?|?%elem_of_nil]%elem_of_cons].
    + intros _. by left.
    + intros t Ht. destruct (Hc t Ht) as (tr & b & k & -> & ?). by left.
    + by destruct ps.
    + by intros [?|?%elem_of_nil]%elem_of_cons.
Qed.

Lemma inv_fanout r targets body : inv r -> targets <> [] ->
  inv (spawn (alloc r newFuture).1
    (map (fun targetID => TRegister (mkRequest (length (r_heap r)) 0 0 0 targetID [] true) body KPeer) targets ++ [TSetup (length (r_heap r))])).
Proof.
  intros I Hne. set (f := length (r_heap r)). set (mk := fun targetID => TRegister (mkRequest f 0 0 0 targetID [] true) body KPeer).
  assert (Hc : forall t, t ∈ map mk targets ++ [TSetup f] -> t = TSetup f \/ exists p, t = mk p).
  { intros t [(p & -> & _)%list_elem_of_fmap| ->%list_elem_of_singleton]%elem_of_app; [right; by exists p|by left]. }
  assert (Hmap : forall P : task -> bool, (forall p, P (mk p) = false) -> cnt P (map mk targets) = 0).
  { intros P HP. unfold cnt. rewrite filter_none; [done|]. by intros t (p & -> & _)%list_elem_of_fmap. }
  eapply inv_ext; [apply (inv_alloc r newFuture (map mk targets ++ [TSetup f]) [] I)|..]; try done.
  - apply list.Forall_forall. intros t Ht. by destruct (Hc t Ht) as [->|[p ->]].
  - rewrite store_ids_app. cbn. rewrite app_nil_r. clear. by induction targets.
  - intros t Ht. by destruct (Hc t Ht) as [->|[p ->]].
  - apply view_start; try done; try (by intros [?|?%elem_of_nil]%elem_of_cons); try (by intros e ?%elem_of_nil).
    + intros t Ht. destruct (Hc t Ht) as [->|[p ->]]; [by right|by left].
    + intros Hx. by apply elem_of_nil in Hx.
    + intros t Ht. by destruct (Hc t Ht) as [->|[p ->]].
    + rewrite cnt_app, Hmap by done. done.
    + intros _ _. apply elem_of_app. right. by left.
    + intros _. destruct targets as [|p l]; [done|]. eexists _, _, _. by left.
    + intros Hx. by apply elem_of_nil in Hx.
  - cbn. by rewrite app_nil_r.
Qed.

Lemma inv_body r b peer now : inv r -> inv (replicateBody r b peer now) /\ r_nextID (replicateBody r b peer now) = r_nextID r.
Proof.
  intros I. split; [|done]. unfold replicateBody. cbn [alloc]. set (f := length (r_heap r)). set (t := TRegister _ _ _).
  eapply inv_ext; [apply (inv_alloc r (set_setup newFuture) [t] [Body f] I)|..]; try done.
  - by repeat constructor.
  - by repeat constructor.
  - by intros t' ->%list_elem_of_singleton.
  - apply view_start; try done.
    + intros t' ->%list_elem_of_singleton. by left.
    + intros e ->%list_elem_of_singleton. by right.
    + by intros [?|?%elem_of_nil]%elem_of_cons.
    + intros t' ->%list_elem_of_singleton. by left.
    + intros _. eexists _, _, _. by left.
Qed.

(** ** Runs *)

Lemma inv_visit r id now sent : inv r -> inv (sweep_visit r id now sent) /\ r_nextID (sweep_visit r id now sent) = r_nextID r.
Proof.
  intros I. unfold sweep_visit, claim_request. destruct (r_pending r !! id) as [tr|] eqn:Hs; [|done].
  destruct (tr_retransmit tr); cbn [negb].
  - destruct (is_target (r_health r) (tr_peerID tr)); cbn [negb]; [|by split; [by apply (inv_claim r id tr)|]].
    destruct (_ <? sweepInterval); [done|].
    assert (inv (with_pending r (<[id := set_lastSent now tr]> (r_pending r)))) as I1.
    { destruct (i_pending _ I id tr Hs) as [Hlt Hown]. destruct (lookup_lt_is_Some_2 _ _ Hlt) as [fut Hfut].
      apply (inv_local r _ (tr_future tr) fut fut [] [] (r_tasks r) []); cbn [with_pending r_heap r_tasks r_pending r_nextID r_log].
      - done.
      - done.
      - done.
      - constructor.
      - constructor.
      - constructor.
      - done.
      - by rewrite list_insert_id.
      - by rewrite app_nil_r.
      - intros g _. by apply (pend_replace g _ id tr).
      - intros ts lg _. by rewrite (pend_replace _ _ id tr).
      - lia.
      - by apply (i_expected _ I (tr_future tr)).
      - by rewrite Z.sub_diag.
      - cbn [app store_ids registered_ids claimed_ids omap list_omap]. by rewrite (keys_replace _ _ _ _ Hs), app_nil_r.
      - intros i tr' [[<- <-]|[_ Hi]]%lookup_insert_Some; left; [by exists tr|by exists tr'].
      - by intros t' i ?%elem_of_nil. }
    destruct sent; [|done]. split; [|done]. by eapply inv_ext.
  - destruct (tr_deadline tr <? now); [|done]. split; [|done]. by apply (inv_claim r id tr).
Qed.

Lemma inv_final r id : inv r -> inv (final_visit r id) /\ r_nextID (final_visit r id) = r_nextID r.
Proof.
  intros I. unfold final_visit, claim_request. destruct (r_pending r !! id) as [tr|] eqn:Hs; [|done]. split; [|done]. by apply (inv_claim r id tr).
Qed.

Lemma inv_ack r id : inv r -> inv (HandleNotifyACK r id) /\ r_nextID (HandleNotifyACK r id) = r_nextID r.
Proof.
  intros I. unfold HandleNotifyACK, claim_request. destruct (r_pending r !! id) as [tr|] eqn:Hs; [|done]. split; [|done]. by apply (inv_claim r id tr).
Qed.

Section Reach.
Context `{!ProtoCodec OffsetNotify} `{!ProtoCodec NackNotify} `{!MapRange}.

Lemma inv_nack r id status packet : inv r ->
  inv (HandleNotifyACKWithData r id status packet) /\ r_nextID (HandleNotifyACKWithData r id status packet) = r_nextID r.
Proof.
  intros I. unfold HandleNotifyACKWithData, claim_request. destruct (r_pending r !! id) as [tr|] eqn:Hs; [|done]. split; [|done].
  destruct (packet_nacks status packet) as [|nack nacks]; [by apply (inv_claim r id tr)|].
  apply (inv_claim r id tr); [done|done|]. split; [done|]. by rewrite bool_decide_false.
Qed.

Lemma inv_replicate r notify wire now i : inv r ->
  inv (Replicate r notify wire now i).1 /\ r_nextID (Replicate r notify wire now i).1 = r_nextID r.
Proof.
  intros I. unfold Replicate. destruct (_ && _); [by apply inv_rejected|]. destruct (marshal _) as [b|]; [|by apply inv_rejected].
  set (cross := existsb _ _). set (targets := AliveSymmetricPeers _ _ _ _).
  assert (inv (if cross then sendCrossRegion r b (regionsSnapshot r) now (i + 2) else r)
    /\ r_nextID (if cross then sendCrossRegion r b (regionsSnapshot r) now (i + 2) else r) = r_nextID r) as [I1 <-]
    by (destruct cross; [by apply inv_cross|done]).
  set (r1 := if cross then _ else r) in *. case_bool_decide as Et; [by apply inv_rejected|]. split; [|done]. by apply inv_fanout.
Qed.

Lemma event_inv r ev r' : inv r -> r_nextID r + 1 < 2 ^ 31 -> step r ev = Some r' -> inv r' /\ r_nextID r' <= r_nextID r + 1.
Proof.
  intros I Hlt. assert (Hok : forall s, inv s /\ r_nextID s = r_nextID r -> inv s /\ r_nextID s <= r_nextID r + 1) by (intros s [? ->]; split; [done|lia]).
  destruct ev as [notify wire now i|notify wire p now|b p now|notify wire p sent|nack p sent|n ok now|p packet|id now sent| | |id| |p region|p|t]; cbn [step].
  - intros [= <-]. apply Hok. by apply inv_replicate.
  - unfold ReplicateTo. destruct (marshal _); intros [= <-]; apply Hok; [by apply inv_body|done].
  - intros [= <-]. apply Hok. by apply inv_body.
  - unfold SendOneWay. destruct (MarshalNotifyPacket _ _); [destruct sent|]; intros [= <-]; apply Hok; (split; [by eapply inv_ext|done]).
  - unfold SendNack. destruct (MarshalNackPacket _); [destruct sent|]; intros [= <-]; apply Hok; (split; [by eapply inv_ext|done]).
  - destruct (r_tasks r !! n) as [t|] eqn:Ht; [|done]. cbn [mbind option_bind]. destruct (run_task r t ok now) as [[r1 new]|] eqn:Hr; [|done].
    cbn [mbind option_bind]. intros [= <-]. destruct (run_task_inv r n t ok now r1 new I Hlt Ht Hr) as [? ?]. by split.
  - unfold dispatch_ack. destruct (parseNotifyACKPacket packet) as [[e|[[[q id] status] credits]]|]; cbn [mbind option_bind]; [intros [= <-]; by apply Hok| |done].
    destruct (negb _); [intros [= <-]; by apply Hok|]. case_bool_decide; intros [= <-]; apply Hok; [by apply inv_nack|by apply inv_ack].
  - destruct (r_sweeper r); [|done..]. intros [= <-]. apply Hok. by apply inv_visit.
  - intros [= <-]. apply Hok. split; [by eapply inv_ext|done].
  - destruct (r_sweeper r); [|done..]. destruct (r_stopped r); [|done]. intros [= <-]. apply Hok. split; [by eapply inv_ext|done].
  - destruct (r_sweeper r) as [|todo|]; [done| |done]. intros [= <-]. destruct (inv_final r id I) as [I1 E1]. apply Hok. split; [by eapply inv_ext|done].
  - destruct (r_sweeper r) as [|todo|]; [done| |done]. case_bool_decide; [|done]. intros [= <-]. apply Hok. split; [by eapply inv_ext|done].
  - intros [= <-]. apply Hok. unfold AddPeer. destruct (regionsSnapshot r !! p); [case_bool_decide|]; (split; [by eapply inv_ext|done]).
  - intros [= <-]. apply Hok. unfold RemovePeer. destruct (regionsSnapshot r !! p); (split; [by eapply inv_ext|done]).
  - intros [= <-]. apply Hok. split; [by eapply inv_ext|done].
Qed.

Lemma inv_new nodeID region health timeout : inv (NewReplicator nodeID region health timeout).
Proof.
  split; cbn [NewReplicator r_nextID r_log r_tasks r_pending r_heap]; try done.
  - by intros t ?%elem_of_nil.
  - by intros e ?%elem_of_nil.
  - by intros t id ?%elem_of_nil.
Qed.

Lemma run_snoc r evs ev : run r (evs ++ [ev]) = run r evs ≫= fun r => step r ev.
Proof. unfold run. by rewrite fold_left_app. Qed.

Lemma run_app r evs evs' : run r (evs ++ evs') = run r evs ≫= fun r => run r evs'.
Proof.
  revert evs'. induction evs' as [|ev evs' IH] using rev_ind; [rewrite app_nil_r; by destruct (run r evs)|].
  rewrite app_assoc, run_snoc, IH. destruct (run r evs) as [r1|]; [|done]. cbn [mbind option_bind]. by rewrite run_snoc.
Qed.

(** A replicator reached by fewer than 2^31 events. *)
Definition reached_by (evs : list event) (r : Replicator) : Prop :=
  Z.of_nat (length evs) < 2 ^ 31 - 1 /\ exists nodeID region health timeout, run (NewReplicator nodeID region health timeout) evs = Some r.

Lemma reached_inv evs r : reached_by evs r -> inv r /\ r_nextID r <= Z.of_nat (length evs).
Proof.
  intros [Hl (nodeID & region & health & timeout & Hr)]. revert r Hl Hr. induction evs as [|ev evs IH] using rev_ind; intros r Hl Hr.
  - unfold run in Hr. injection Hr as <-. split; [apply inv_new|done].
  - rewrite run_snoc in Hr. rewrite length_app in *. cbn [length] in *. destruct (run _ evs) as [r0|] eqn:E; [|done]. cbn [mbind option_bind] in Hr.
    destruct (IH r0 ltac:(lia) eq_refl) as [I0 E0]. destruct (event_inv r0 ev r I0 ltac:(lia) Hr) as [I E1]. split; [done|lia].
Qed.

(** Every request registered is exactly one of: on its way into the table,
    in the table, or claimed, once. *)
Theorem requests_conserved evs r : reached_by evs r ->
  registered_ids (r_log r) = seqZ 1 (r_nextID r)
  /\ NoDup (store_ids (r_tasks r) ++ (map_to_list (r_pending r)).*1 ++ claimed_ids (r_log r))
  /\ forall id, id ∈ registered_ids (r_log r) <-> id ∈ store_ids (r_tasks r) \/ is_Some (r_pending r !! id) \/ id ∈ claimed_ids (r_log r).
Proof.
  intros Hr. destruct (reached_inv _ _ Hr) as [I _]. split; [apply (i_reg _ I)|]. split.
  - rewrite (i_ids _ I), (i_reg _ I). apply NoDup_seqZ.
  - intros id. rewrite <- (i_ids _ I), !elem_of_app. split; (intros [?|[Hk|?]]; [auto| |auto]); right; left.
    + apply list_elem_of_fmap in Hk as ([i tr] & -> & Hk). apply elem_of_map_to_list in Hk. cbn. eauto.
    + destruct Hk as [tr Hk]. apply list_elem_of_fmap. exists (id, tr). split; [done|]. by apply elem_of_map_to_list.
Qed.

(** No goroutine is about to act on a future; its caller may be waiting. *)
Definition settled (f : nat) (r : Replicator) : Prop :=
  forall t, t ∈ r_tasks r -> task_future t = f -> (exists id, t = TSelect id f) \/ t = TReturn f.

Lemma settled_view f r : settled f r -> forall t, t ∈ on f (r_tasks r) -> (exists id, t = TSelect id f) \/ t = TReturn f.
Proof. intros Hs t [Ht E]%list_elem_of_In%filter_In. apply Hs; [by apply list_elem_of_In|by apply Nat.eqb_eq]. Qed.

Lemma in_hist f lg e : e ∈ lg -> entry_future e = f -> e ∈ hist f lg.
Proof. intros He E. apply list_elem_of_In, filter_In. rewrite <- list_elem_of_In. split; [done|]. by apply Nat.eqb_eq. Qed.

Lemma hist_in f lg e : e ∈ hist f lg -> e ∈ lg.
Proof. intros [He _]%list_elem_of_In%filter_In. by apply list_elem_of_In. Qed.

Lemma pend_some f m : 0 < pend f m -> exists id tr, m !! id = Some tr /\ tr_future tr = f.
Proof.
  unfold pend. intros Hp. destruct (map_choose (filter (fun x => tr_future x.2 = f) m)) as (id & tr & Hl).
  { intros E. rewrite E, map_size_empty in Hp. lia. }
  apply map_lookup_filter_Some in Hl as [Hl E]. by exists id, tr.
Qed.

(** A future nobody acts on is done, has a request pending, or was given up
    by its caller when the send failed. *)
Lemma open_future r f fut : inv r -> r_heap r !! f = Some fut -> settled f r -> f_done fut = false ->
  0 < pend f (r_pending r) \/ claimed_as f Aborted (hist f (r_log r)).
Proof.
  intros I Hf Hs Hd. pose proof (i_view _ I f fut Hf) as V. pose proof (settled_view f r Hs) as Hq.
  assert (Hno : forall P : task -> bool, (forall id, P (TSelect id f) = false) -> P (TReturn f) = false -> cnt P (on f (r_tasks r)) = 0).
  { intros P H1 H2. unfold cnt. rewrite filter_none; [done|]. intros t Ht. by destruct (Hq t Ht) as [[id ->]| ->]. }
  assert (Hnot : forall t, t ∈ on f (r_tasks r) -> is_flow t = false -> False).
  { intros t Ht. by destruct (Hq t Ht) as [[id ->]| ->]. }
  destruct V as [V1 V2 V3 V4 V5 V6 V7 V8 V9 V10 V11 V12 V13 V14 V15 V16 V17 V18 V19 V20 V21 V22 V23 V24].
  rewrite (Hno is_starting) in V1 by done. rewrite (Hno is_dropping) in V2 by done.
  destruct (decide (0 < pend f (r_pending r))) as [|Hp]; [by left|right].
  assert (f_setupDone fut = true) as Hset.
  { destruct (f_setupDone fut) eqn:E; [done|]. exfalso. by apply (Hnot (TSetup f) (V18 Hd eq_refl)). }
  assert (0 < f_expected fut) as Hex.
  { pose proof (cnt_pos is_claim (hist f (r_log r))). destruct (decide (f_expected fut = 0)) as [E|]; [|lia].
    destruct (V19 Hd E) as (tr & b & k & Hin). by destruct (Hq _ Hin) as [[id ?]|?]. }
  assert (cnt is_drop (hist f (r_log r)) < cnt is_claim (hist f (r_log r))) as Hlt.
  { assert (cnt is_drop (hist f (r_log r)) <= cnt is_claim (hist f (r_log r))) by (apply cnt_le; by intros [| | |? ? []|]).
    destruct (decide (f_dropped fut = f_expected fut)) as [E|]; [|lia]. exfalso.
    destruct (V15 Hd Hset Hex E) as [Hin|[e Hin]]; by apply (Hnot _ Hin). }
  apply cnt_lt in Hlt as (e & He & Hc & Hnd); [|by intros [| | |? ? []|]].
  destruct e as [| |?|id g c|]; try done. assert (g = f) as ->.
  { apply list_elem_of_In, filter_In in He as [_ E]. by apply Nat.eqb_eq in E. }
  destruct c as [l| | | |]; try done; [| |by exists id].
  - destruct (V8 l) as [?|[Hin|[l' Hin]]]; [by exists id|congruence|by apply Hnot in Hin|by apply Hnot in Hin].
  - destruct V9 as [?|[w Hin]]; [by exists id|congruence|]. by destruct (Hq _ Hin) as [[? ?]|?].
Qed.

End Reach.

(** ** What a future says *)

Section Outcome.
Context `{!ProtoCodec OffsetNotify} `{!ProtoCodec NackNotify} `{!MapRange}.


End Outcome.

(** ** Settling *)

(** The requests the goroutine of a task has yet to register. *)
Definition cross_left (k : cont) : nat := match k with KCross peers _ _ => length peers | _ => 0%nat end.

Definition planned (t : task) : nat :=
  match t with TRegister _ _ k => S (cross_left k) | TStore _ _ k | TSend _ _ k => cross_left k | _ => 0%nat end.

(** The accesses a task leads to, its request included. *)
Definition weight (t : task) : nat :=
  match t with
  | TRegister _ _ k => 14 + 16 * cross_left k
  | TStore _ _ k => 13 + 16 * cross_left k
  | TSend _ _ k => 4 + 16 * cross_left k
  | TNacks _ _ _ => 4
  | TDropAdd _ _ => 3
  | TReject _ _ _ | TSetup _ | TSelect _ _ => 2
  | TCheck _ | TDropCheck _ _ _ | TResolve _ | TReturn _ => 1
  end.

Definition work (r : Replicator) : nat := sum_list_with weight (r_tasks r) + 8 * size (r_pending r).
Definition reserve (r : Replicator) : Z := r_nextID r + Z.of_nat (sum_list_with planned (r_tasks r)).

(** A task that may block. *)
Definition may_block (t : task) : bool := match t with TSetup _ | TSelect _ _ | TReturn _ => true | _ => false end.

(** The history of [replicateBody]: running, or returned. *)
Definition tracked (r : Replicator) : Prop := forall f, Body f ∈ r_log r ->
  (exists t, t ∈ r_tasks r /\ is_flow t = true /\ task_future t = f) \/ exists res, Returned f res ∈ r_log r.

Lemma sum_replaced (g : task -> nat) r n t new : r_tasks r !! n = Some t ->
  (sum_list_with g (replaced r n new) + g t = sum_list_with g (r_tasks r) + sum_list_with g new)%nat.
Proof.
  intros Ht. unfold replaced. rewrite <- (take_drop_middle (r_tasks r) n t Ht) at 3. rewrite !sum_list_with_app. cbn [sum_list_with]. lia.
Qed.

Lemma claim_size r id c r' tr : claim_request r id c = Some (r', tr) ->
  size (r_pending r) = S (size (r_pending r')) /\ r_nextID r' = r_nextID r /\ r_tasks r' = r_tasks r /\ r_sweeper r' = r_sweeper r
  /\ r_health r' = r_health r /\ r_log r' = r_log r ++ [Claimed id (tr_future tr) c].
Proof.
  unfold claim_request. destruct (r_pending r !! id) as [tr'|] eqn:E; [|done]. intros [= <- <-]. cbn [record with_pending r_pending r_nextID r_tasks r_sweeper r_health r_log].
  split_and!; try done. rewrite map_size_delete_Some by done. assert (size (r_pending r) <> 0%nat); [|lia]. intros E0%map_size_empty_inv. rewrite E0, lookup_empty in E. done.
Qed.

Lemma forget_size r id : (size (r_pending (forget r id)) <= size (r_pending r))%nat /\ r_nextID (forget r id) = r_nextID r
  /\ r_sweeper (forget r id) = r_sweeper r /\ r_health (forget r id) = r_health r.
Proof.
  unfold forget. destruct (claim_request r id Aborted) as [[r' tr]|] eqn:E; [|done]. apply claim_size in E as (E & ? & _ & ? & ? & _).
  split_and!; try done. lia.
Qed.

Lemma cross_next_weight f peers d b : (sum_list_with weight (cross_next f peers d b) < 4 + 16 * length peers)%nat
  /\ sum_list_with planned (cross_next f peers d b) = length peers.
Proof. destruct peers; cbn [cross_next sum_list_with weight planned cross_left length]; lia. Qed.

Section Work.
Context `{!ProtoCodec OffsetNotify} `{!ProtoCodec NackNotify} `{!MapRange}.

(** What one access costs, and what it keeps. *)
Lemma run_task_works r t ok now r1 new : inv r -> reserve r < 2 ^ 31 -> t ∈ r_tasks r -> run_task r t ok now = Some (r1, new) ->
  (8 * size (r_pending r1) + sum_list_with weight new < 8 * size (r_pending r) + weight t)%nat
  /\ r_nextID r1 + Z.of_nat (sum_list_with planned new) <= r_nextID r + Z.of_nat (planned t)
  /\ r_sweeper r1 = r_sweeper r /\ r_health r1 = r_health r.
Proof.
  intros I Hres Hin Hrun. destruct t as [tr b k|id tr k|id tr k|f|f|f l refused|f e|f e d|f|f e w|id f|f]; cbn [run_task] in Hrun.
  - unfold register_count in Hrun. injection Hrun as <- <-. cbn. rewrite wrapu64_id; [split_and!; [lia|lia|done|done]|].
    assert (planned (TRegister tr b k) <= sum_list_with planned (r_tasks r))%nat as Hle by (by apply sum_list_with_in).
    pose proof (i_next _ I). unfold reserve in Hres. cbn [planned] in Hle. unfold is_uint64, max_uint64. lia.
  - injection Hrun as <- <-. cbn. pose proof (storing_fresh r id tr k I Hin). rewrite map_size_insert_None by done. split_and!; [lia|lia|done|done].
  - injection Hrun as Hrun. destruct (forget_size r id) as (Hle & En & Es & Eh).
    destruct k as [|ps d b|], ok; cbn [after_send] in Hrun; injection Hrun as <- <-; cbn [send_to record r_pending r_nextID r_sweeper r_health weight planned cross_left];
      try (pose proof (cross_next_weight (tr_future tr) ps d b)); cbn [sum_list_with weight planned] in *; rewrite ?En, ?Es, ?Eh; split_and!; try done; lia.
  - destruct (fanned_out f (r_tasks r)); [|done]. injection Hrun as <- <-. cbn. split_and!; try done; lia.
  - injection Hrun as <- <-. cbn. split_and!; try done; lia.
  - injection Hrun as <- <-. destruct refused; cbn; split_and!; try done; lia.
  - destruct (r_heap r !! f) as [fut|]; [|done]. injection Hrun as <- <-. cbn. split_and!; try done; lia.
  - injection Hrun as <- <-. cbn. split_and!; try done; lia.
  - injection Hrun as <- <-. cbn. split_and!; try done; lia.
  - injection Hrun as <- <-. destruct w; cbn; split_and!; try done; lia.
  - unfold body_select in Hrun. destruct ok.
    + destruct (r_stopped r); [|done]. destruct (claim_request r id TimedOut) as [[r2 tr]|] eqn:E; injection Hrun as <- <-; [|cbn; split_and!; try done; lia].
      apply claim_size in E as (E & -> & _ & -> & -> & _). cbn. split_and!; try done; lia.
    + destruct (from_option _ _ _); [|done]. injection Hrun as <- <-. cbn. split_and!; try done; lia.
  - unfold body_return in Hrun. destruct (r_heap r !! f) as [fut|]; [|done]. cbn [mbind option_bind] in Hrun. destruct (Wait fut); [|done].
    injection Hrun as <- <-. cbn. split_and!; try done; lia.
Qed.

Lemma task_step_works r n ok now r' : inv r -> reserve r < 2 ^ 31 -> step r (ETask n ok now) = Some r' ->
  (work r' < work r)%nat /\ reserve r' <= reserve r /\ r_sweeper r' = r_sweeper r /\ r_health r' = r_health r.
Proof.
  intros I Hres. cbn [step]. destruct (r_tasks r !! n) as [t|] eqn:Ht; [|done]. cbn [mbind option_bind].
  destruct (run_task r t ok now) as [[r1 new]|] eqn:Hr; [|done]. cbn [mbind option_bind]. intros [= <-].
  destruct (run_task_works r t ok now r1 new I Hres) as (Hw & Hn & Hs & Hh); [by eapply list_elem_of_lookup_2|done|].
  pose proof (sum_replaced weight r n t new Ht). pose proof (sum_replaced planned r n t new Ht). unfold replaced in *.
  unfold work, reserve in *. cbn [with_tasks r_pending r_tasks r_nextID r_sweeper r_health]. split_and!; [lia|lia|done|done].
Qed.

End Work.

Section Tracked.
Context `{!ProtoCodec OffsetNotify} `{!ProtoCodec NackNotify} `{!MapRange}.

(** A step that keeps tasks and history, and starts no [replicateBody]. *)
Lemma tracked_grow r r' : tracked r -> (forall t, t ∈ r_tasks r -> t ∈ r_tasks r') -> (forall e, e ∈ r_log r -> e ∈ r_log r') ->
  (forall f, Body f ∈ r_log r' -> Body f ∈ r_log r) -> tracked r'.
Proof.
  intros Ht Hts Hlg Hb f Hf. destruct (Ht f (Hb f Hf)) as [(t & Hin & Hfl)|[res Hres]]; [left; exists t; by auto|right; exists res; by auto].
Qed.

Lemma tracked_spawn r ts : tracked r -> tracked (spawn r ts).
Proof. intros Ht. apply (tracked_grow r); [done| |done|done]. intros t Hin. cbn. apply elem_of_app. by left. Qed.

Lemma tracked_record r e : tracked r -> match e with Body _ => False | _ => True end -> tracked (record r e).
Proof.
  intros Ht He. apply (tracked_grow r); [done|done| |].
  - intros e' Hin. cbn. apply elem_of_app. by left.
  - intros f [Hin|Hin]%elem_of_app; [done|]. apply list_elem_of_singleton in Hin. by subst e.
Qed.

Lemma tracked_claim r id c r' tr : tracked r -> claim_request r id c = Some (r', tr) -> tracked r'.
Proof.
  intros Ht E%claim_size. destruct E as (_ & _ & Et & _ & _ & El). apply (tracked_grow r); [done|by rewrite Et|..]; rewrite El.
  - intros e Hin. apply elem_of_app. by left.
  - intros f [Hin|Hin]%elem_of_app; [done|]. by apply list_elem_of_singleton in Hin.
Qed.

(** A task of [replicateBody] is followed by another, or by its return. *)
Lemma run_task_flow r t ok now r1 new : run_task r t ok now = Some (r1, new) ->
  (exists es, r_log r1 = r_log r ++ es /\ forall f, Body f ∉ es) /\
  (is_flow t = true -> (exists t', t' ∈ new /\ is_flow t' = true /\ task_future t' = task_future t) \/ exists res, Returned (task_future t) res ∈ r_log r1).
Proof.
  assert (H0 : forall lg : list entry, exists es, lg = lg ++ es /\ forall f, Body f ∉ es).
  { intros lg. exists []. rewrite app_nil_r. split; [done|]. intros f. apply not_elem_of_nil. }
  assert (H1 : forall (lg : list entry) e, match e with Body _ => False | _ => True end -> exists es, lg ++ [e] = lg ++ es /\ forall f, Body f ∉ es).
  { intros lg e He. exists [e]. split; [done|]. intros f Hin%list_elem_of_singleton. by subst e. }
  assert (Hforget : forall id, exists es, r_log (forget r id) = r_log r ++ es /\ forall f, Body f ∉ es).
  { intros id. unfold forget. destruct (claim_request r id Aborted) as [[r' tr]|] eqn:E; [|by apply H0]. apply claim_size in E as (_ & _ & _ & _ & _ & ->). by apply H1. }
  intros Hrun. destruct t as [tr b k|id tr k|id tr k|f|f|f l refused|f e|f e d|f|f e w|id f|f]; cbn [run_task] in Hrun.
  - unfold register_count in Hrun. injection Hrun as <- <-. split; [by apply H1|]. intros Hk. left. eexists. split; [by left|]. by split.
  - injection Hrun as <- <-. split; [by apply H0|]. intros Hk. left. eexists. split; [by left|]. by split.
  - injection Hrun as Hrun. destruct k as [|ps d b|], ok; cbn [after_send] in Hrun; injection Hrun as <- <-; (split; [try by apply H0|try done]).
    + by apply Hforget.
    + intros _. left. eexists. split; [by left|]. by split.
    + destruct (Hforget id) as (es & Es & Hes). cbn [record r_log]. rewrite Es, <- app_assoc. eexists. split; [done|].
      intros f [Hin|Hin]%elem_of_app; [by apply (Hes f)|]. by apply list_elem_of_singleton in Hin.
    + intros _. right. eexists. cbn [record r_log task_future]. apply elem_of_app. right. by left.
  - destruct (fanned_out f (r_tasks r)); [|done]. injection Hrun as <- <-. split; [by apply H0|done].
  - injection Hrun as <- <-. split; [by apply H0|done].
  - injection Hrun as <- <-. split; [by apply H0|done].
  - destruct (r_heap r !! f) as [fut|]; [|done]. injection Hrun as <- <-. split; [by apply H0|done].
  - injection Hrun as <- <-. split; [by apply H0|done].
  - injection Hrun as <- <-. split; [by apply H0|done].
  - injection Hrun as <- <-. split; [by apply H0|]. intros Hw. cbn in Hw. subst w. left. eexists. split; [by left|]. by split.
  - unfold body_select in Hrun. destruct ok.
    + destruct (r_stopped r); [|done]. destruct (claim_request r id TimedOut) as [[r2 tr]|] eqn:E; injection Hrun as <- <-.
      * apply claim_size in E as (_ & _ & _ & _ & _ & ->). split; [by apply H1|]. intros _. left. eexists. split; [by left|]. by split.
      * split; [by apply H0|]. intros _. left. eexists. split; [by left|]. by split.
    + destruct (from_option _ _ _); [|done]. injection Hrun as <- <-. split; [by apply H0|]. intros _. left. eexists. split; [by left|]. by split.
  - unfold body_return in Hrun. destruct (r_heap r !! f) as [fut|]; [|done]. cbn [mbind option_bind] in Hrun. destruct (Wait fut); [|done].
    injection Hrun as <- <-. split; [by apply H1|]. intros _. right. eexists. cbn [record r_log task_future]. apply elem_of_app. right. by left.
Qed.

Lemma tracked_task r n ok now r' : tracked r -> step r (ETask n ok now) = Some r' -> tracked r'.
Proof.
  intros Ht. cbn [step]. destruct (r_tasks r !! n) as [t|] eqn:En; [|done]. cbn [mbind option_bind].
  destruct (run_task r t ok now) as [[r1 new]|] eqn:Hr; [|done]. cbn [mbind option_bind]. intros [= <-] f. cbn [with_tasks r_log r_tasks].
  destruct (run_task_flow r t ok now r1 new Hr) as [(es & El & Hes) Hflow]. intros Hb. destruct (replaced_perm r n t new En) as [P1 P2]. unfold replaced in P2.
  assert (Body f ∈ r_log r) as Hb0. { rewrite El in Hb. apply elem_of_app in Hb as [?|Hb]; [done|]. by apply Hes in Hb. }
  destruct (Ht f Hb0) as [(t0 & Hin & Hfl & <-)|[res Hres]].
  - apply (elem_of_Permutation_proper t0 _ _ P1) in Hin. apply elem_of_app in Hin as [->%list_elem_of_singleton|Hin].
    + destruct (Hflow Hfl) as [(t' & Hin' & ? & ?)|?]; [|by right]. left. exists t'. split; [|done]. apply (elem_of_Permutation_proper t' _ _ P2), elem_of_app. by left.
    + left. exists t0. split; [|done]. apply (elem_of_Permutation_proper t0 _ _ P2), elem_of_app. by right.
  - right. exists res. rewrite El. apply elem_of_app. by left.
Qed.

Lemma tracked_body r b peer now : tracked r -> tracked (replicateBody r b peer now).
Proof.
  intros Ht f. unfold replicateBody, alloc. cbn [spawn with_tasks with_heap record r_log r_tasks]. intros [Hin|[= ->]%list_elem_of_singleton]%elem_of_app.
  - destruct (Ht f Hin) as [(t & Hin' & ?)|[res ?]]; [left; exists t; split; [|done]; apply elem_of_app; by left|right; exists res; apply elem_of_app; by left].
  - left. eexists. split; [apply elem_of_app; right; by left|]. by split.
Qed.

Lemma tracked_replicate r notify wire now i : tracked r -> tracked (Replicate r notify wire now i).1.
Proof.
  intros Ht. assert (Hrej : forall s e, tracked s -> tracked (return_rejected s e).1).
  { intros s e Hs. unfold return_rejected, alloc. cbn [fst]. apply tracked_record; [by apply (tracked_grow s)|done]. }
  unfold Replicate. destruct (_ && _); [by apply Hrej|]. destruct (marshal _) as [b|]; [|by apply Hrej]. set (cross := existsb _ _). set (targets := AliveSymmetricPeers _ _ _ _).
  assert (tracked (if cross then sendCrossRegion r b (regionsSnapshot r) now (i + 2) else r)) as H1.
  { destruct cross; [|done]. unfold sendCrossRegion, alloc. apply tracked_spawn, tracked_record; [by apply (tracked_grow r)|done]. }
  revert H1. generalize (if cross then sendCrossRegion r b (regionsSnapshot r) now (i + 2) else r). intros s Hs. case_bool_decide; [by apply Hrej|].
  unfold alloc. cbn [fst]. apply tracked_spawn. by apply (tracked_grow s).
Qed.

Lemma tracked_visit r id now sent : tracked r -> tracked (sweep_visit r id now sent).
Proof.
  intros Ht. unfold sweep_visit. destruct (r_pending r !! id) as [tr|]; [|done]. destruct (negb (tr_retransmit tr)).
  - destruct (_ <? _); [|done]. destruct (claim_request r id TimedOut) as [[r' ?]|] eqn:E; [|done]. by eapply tracked_spawn, tracked_claim.
  - destruct (negb _).
    + destruct (claim_request r id Gone) as [[r' ?]|] eqn:E; [|done]. by eapply tracked_spawn, tracked_claim.
    + destruct (_ <? _); [done|]. destruct sent; by apply (tracked_grow r).
Qed.

Lemma tracked_step r ev r' : tracked r -> step r ev = Some r' -> tracked r'.
Proof.
  intros Ht. destruct ev as [notify wire now i|notify wire p now|b p now|notify wire p sent|nack p sent|n ok now|p packet|id now sent| | |id| |p region|p|t].
  - intros [= <-]. by apply tracked_replicate.
  - cbn [step]. unfold ReplicateTo. destruct (marshal _); intros [= <-]; [by apply tracked_body|done].
  - intros [= <-]. by apply tracked_body.
  - cbn [step]. unfold SendOneWay. destruct (MarshalNotifyPacket _ _); [destruct sent|]; intros [= <-]; by apply (tracked_grow r).
  - cbn [step]. unfold SendNack. destruct (MarshalNackPacket _); [destruct sent|]; intros [= <-]; by apply (tracked_grow r).
  - by apply tracked_task.
  - cbn [step]. unfold dispatch_ack. destruct (parseNotifyACKPacket packet) as [[e|[[[q id] status] credits]]|]; cbn [mbind option_bind]; [by intros [= <-]| |done].
    destruct (negb _); [by intros [= <-]|]. case_bool_decide; intros [= <-].
    + unfold HandleNotifyACKWithData. destruct (claim_request _ _ _) as [[s tr]|] eqn:E; [|done]. by eapply tracked_spawn, tracked_claim.
    + unfold HandleNotifyACK. destruct (claim_request _ _ _) as [[s tr]|] eqn:E; [|done]. by eapply tracked_spawn, tracked_claim.
  - cbn [step]. destruct (r_sweeper r); [|done..]. intros [= <-]. by apply tracked_visit.
  - intros [= <-]. by apply (tracked_grow r).
  - cbn [step]. destruct (r_sweeper r); [|done..]. destruct (r_stopped r); [|done]. intros [= <-]. by apply (tracked_grow r).
  - cbn [step]. destruct (r_sweeper r) as [|todo|]; [done| |done]. intros [= <-]. apply (tracked_grow (final_visit r id)); [|done..].
    unfold final_visit. destruct (claim_request _ _ _) as [[s tr]|] eqn:E; [|done]. by eapply tracked_spawn, tracked_claim.
  - cbn [step]. destruct (r_sweeper r) as [|todo|]; [done| |done]. case_bool_decide; [|done]. intros [= <-]. by apply (tracked_grow r).
  - intros [= <-]. unfold AddPeer. destruct (regionsSnapshot r !! p); [case_bool_decide|]; by apply (tracked_grow r).
  - intros [= <-]. unfold RemovePeer. destruct (regionsSnapshot r !! p); by apply (tracked_grow r).
  - intros [= <-]. by apply (tracked_grow r).
Qed.

Lemma tracked_run r evs r' : tracked r -> run r evs = Some r' -> tracked r'.
Proof.
  intros Ht. revert r'. induction evs as [|ev evs IH] using rev_ind; intros r'; [by intros [= <-]|]. rewrite run_snoc.
  destruct (run r evs) as [r0|]; [|done]. cbn [mbind option_bind]. apply tracked_step. by apply IH.
Qed.

End Tracked.

Section Progress.
Context `{!ProtoCodec OffsetNotify} `{!ProtoCodec NackNotify} `{!MapRange}.

(** What the process does by itself: a goroutine's access, or a visit of the sweep. *)
Definition internal (ev : event) : Prop := match ev with ETask _ _ _ | EVisit _ _ _ => True | _ => False end.

Definition advances (r r' : Replicator) : Prop :=
  (work r' < work r)%nat /\ reserve r' <= reserve r /\ r_sweeper r' = r_sweeper r /\ r_health r' = r_health r.

Lemma unblocked r n t now : inv r -> r_tasks r !! n = Some t -> may_block t = false -> is_Some (run_task r t true now).
Proof.
  intros I Ht Hb. destruct (future_of r n t I Ht) as (fut & Hf & _). destruct t; try done. cbn [run_task task_future] in *. rewrite Hf. done.
Qed.

Lemma task_advances r n t ok : inv r -> reserve r < 2 ^ 31 -> r_tasks r !! n = Some t -> is_Some (run_task r t ok 0) ->
  exists ev r', internal ev /\ step r ev = Some r' /\ advances r r'.
Proof.
  intros I Hres Ht [[r1 new] Hr]. exists (ETask n ok 0). assert (Hs : is_Some (step r (ETask n ok 0))) by (cbn [step]; rewrite Ht; cbn [mbind option_bind]; by rewrite Hr).
  destruct Hs as [r' Hs]. exists r'. split; [done|]. split; [done|]. by apply (task_step_works r n ok 0).
Qed.

(** A request is claimed by the sweep once its peer is gone, or its deadline past. *)
Lemma visit_advances r id tr : r_sweeper r = Sweeping -> (forall p, is_target (r_health r) p = false) -> r_pending r !! id = Some tr ->
  exists ev r', internal ev /\ step r ev = Some r' /\ advances r r'.
Proof.
  intros Hsw Hh Hp. exists (EVisit id (tr_deadline tr + 1) true). cbn [step]. rewrite Hsw. eexists. split; [done|]. split; [done|].
  assert (Hc : forall c, exists r1, claim_request r id c = Some (r1, tr)) by (intros c; unfold claim_request; rewrite Hp; by eexists).
  assert (Ha : forall r1 c t, claim_request r id c = Some (r1, tr) -> (weight t <= 3)%nat -> planned t = 0%nat -> advances r (spawn r1 [t])).
  { intros r1 c t E%claim_size Hw H0. destruct E as (E & En & Et & Es & Eh & _). unfold advances, work, reserve. cbn [spawn with_tasks r_tasks r_pending r_nextID r_sweeper r_health].
    rewrite Et, En, !sum_list_with_app. cbn [sum_list_with]. split_and!; [lia|lia|done|done]. }
  unfold sweep_visit. rewrite Hp. destruct (negb (tr_retransmit tr)).
  - rewrite (proj2 (Z.ltb_lt _ _)) by lia. destruct (Hc TimedOut) as [r1 E]. rewrite E. eapply Ha; [done|cbn; lia|done].
  - rewrite Hh. cbn [negb]. destruct (Hc Gone) as [r1 E]. rewrite E. eapply Ha; [done|cbn; lia|done].
Qed.

(** Once no goroutine can act and no request is pending, a waiting caller is
    woken: its future is done. *)
Lemma waiter_done r t : inv r -> (forall t, t ∈ r_tasks r -> is_flow t = true /\ may_block t = true) -> r_pending r = ∅ -> t ∈ r_tasks r ->
  exists fut, r_heap r !! task_future t = Some fut /\ f_done fut = true.
Proof.
  intros I Hall Hp Hin. pose proof (i_tasks _ I t Hin) as Hlt. destruct (lookup_lt_is_Some_2 _ _ Hlt) as [fut Hf]. exists fut. split; [done|].
  destruct (f_done fut) eqn:Hd; [done|]. exfalso. pose proof (i_view _ I _ _ Hf) as V.
  assert (t ∈ on (task_future t) (r_tasks r)) as Hon by (apply list_elem_of_In, filter_In; rewrite <- list_elem_of_In; split; [done|by apply Nat.eqb_eq]).
  destruct (open_future r (task_future t) fut I Hf) as [Hpos|Hab]; [|done|..].
  - intros t' Ht' E. destruct (Hall t' Ht') as [H1 H2]. destruct t'; try done; cbn in *; subst; eauto.
  - rewrite Hp in Hpos. unfold pend in Hpos. rewrite map_filter_empty, map_size_empty in Hpos. lia.
  - destruct (Hall t Hin) as [H1 H2]. assert (body (task_future t) (hist (task_future t) (r_log r))) as Hb.
    { apply (v_waiting _ _ _ _ _ V). destruct t; try done; cbn [task_future] in *; eauto. }
    destruct (v_flow _ _ _ _ _ V Hb) as [_ H0]. specialize (H0 Hab). pose proof (cnt_in is_flow _ _ Hon H1). lia.
Qed.

Lemma progress r : inv r -> reserve r < 2 ^ 31 -> r_sweeper r = Sweeping -> (forall p, is_target (r_health r) p = false) ->
  (r_tasks r = [] /\ r_pending r = ∅) \/ exists ev r', internal ev /\ step r ev = Some r' /\ advances r r'.
Proof.
  intros I Hres Hsw Hh.
  destruct (decide (Exists (fun t => may_block t = false) (r_tasks r))) as [Hex|Hno].
  { right. apply list.Exists_exists in Hex as (t & [n Hn]%list_elem_of_lookup & Hb). eapply task_advances; [done..|]. by eapply unblocked. }
  assert (Hbl : forall t, t ∈ r_tasks r -> may_block t = true).
  { intros t Ht. destruct (may_block t) eqn:E; [done|]. exfalso. apply Hno, list.Exists_exists. by exists t. }
  destruct (decide (Exists (fun t => is_flow t = false) (r_tasks r))) as [Hex|Hno'].
  { right. apply list.Exists_exists in Hex as (t & Ht & Hfl). pose proof (Hbl t Ht) as Hb. apply list_elem_of_lookup in Ht as [n Hn].
    apply (task_advances r n t true); [done..|]. destruct t as [| | |f| | | | | | | |]; try done. cbn [run_task].
    assert (fanned_out f (r_tasks r) = true) as ->; [|done]. apply forallb_forall. intros t Ht%list_elem_of_In%Hbl. by destruct t. }
  assert (Hfl : forall t, t ∈ r_tasks r -> is_flow t = true /\ may_block t = true).
  { intros t Ht. split; [|by apply Hbl]. destruct (is_flow t) eqn:E; [done|]. exfalso. apply Hno', list.Exists_exists. by exists t. }
  destruct (decide (r_pending r = ∅)) as [Hp|(id & tr & Hp)%map_choose]; [|right; by eapply visit_advances].
  destruct (r_tasks r) as [|t ts] eqn:Ets; [by left|right]. rewrite <- Ets in *.
  destruct (waiter_done r t I Hfl Hp) as (fut & Hf & Hd); [rewrite Ets; by left|]. apply (task_advances r 0 t false); [done|done|by rewrite Ets|].
  destruct (Hfl t) as [H1 H2]; [rewrite Ets; by left|]. destruct t; try done; cbn [run_task task_future] in *.
  - unfold body_select. by rewrite Hf; cbn; rewrite Hd.
  - unfold body_return. rewrite Hf. cbn [mbind option_bind]. unfold Wait. by rewrite Hd.
Qed.

Lemma run_cons r ev evs : run r (ev :: evs) = step r ev ≫= fun r => run r evs.
Proof. apply (run_app r [ev] evs). Qed.

Lemma step_inv_reserve r ev r' : inv r -> reserve r + 1 < 2 ^ 31 -> step r ev = Some r' -> inv r'.
Proof. intros I Hres Hs. apply (event_inv r ev r' I); [unfold reserve in Hres; lia|done]. Qed.

Definition is_task (ev : event) : Prop := match ev with ETask _ _ _ => True | _ => False end.

(** The goroutines alone come to rest, however they are scheduled. *)
Lemma tasks_end r evs r' : inv r -> reserve r + 1 < 2 ^ 31 -> Forall is_task evs -> run r evs = Some r' -> (length evs <= work r)%nat.
Proof.
  revert r. induction evs as [|ev evs IH]; intros r I Hres; [cbn; lia|]. intros [Hev Hevs]%list.Forall_cons. rewrite run_cons.
  destruct (step r ev) as [r1|] eqn:Hs; [|done]. cbn [mbind option_bind]. destruct ev as [| | | | |n ok now| | | | | | | | |]; try done.
  destruct (task_step_works r n ok now r1 I ltac:(lia) Hs) as (Hw & Hr & _). intros Hrun.
  assert (length evs <= work r1)%nat by (apply IH; [by eapply step_inv_reserve|lia|done|done]). cbn [length]. lia.
Qed.

Lemma settle r : inv r -> reserve r + 1 < 2 ^ 31 -> r_sweeper r = Sweeping -> (forall p, is_target (r_health r) p = false) ->
  exists more r', run r more = Some r' /\ Forall internal more /\ (length more <= work r)%nat /\ inv r' /\ r_tasks r' = [] /\ r_pending r' = ∅.
Proof.
  remember (work r) as w eqn:Ew. revert r Ew. induction w as [w IH] using lt_wf_ind. intros r -> I Hres Hsw Hh.
  destruct (progress r I ltac:(lia) Hsw Hh) as [[Et Ep]|(ev & r1 & Hev & Hs & Hw & Hr & Hsw1 & Hh1)].
  - exists [], r. split_and!; try done. cbn. lia.
  - destruct (IH (work r1) Hw r1) as (more & r' & Hrun & Hint & Hlen & I' & Et & Ep); [done|by eapply step_inv_reserve|lia|congruence|by rewrite Hh1|].
    exists (ev :: more), r'. rewrite run_cons, Hs. split_and!; try done; [by constructor|cbn [length]; lia].
Qed.


End Progress.

(** ** Answers *)

Section Reply.
Context `{!ProtoCodec OffsetNotify} `{!ProtoCodec NackNotify} `{!MapRange}.

Definition answer_nacks (answer : ingest_error + list NackNotify) : list NackNotify := match answer with inl _ => [] | inr nacks => nacks end.

(** The peer discarded the effect: every refusal says so. *)
Definition all_unsubscribed (nacks : list NackNotify) : bool := negb (bool_decide (nacks = [])) && forallb nk_notSubscribed nacks.

(** What the answer of a peer does to a request: the claim, and the task of
    the goroutine that delivers it. *)
Definition answered (r : Replicator) (id : Z) (tr : trackedRequest) (nacks : list NackNotify) : Replicator :=
  spawn (record (with_pending r (delete id (r_pending r)))
           (Claimed id (tr_future tr) (if all_unsubscribed nacks then Refused nacks else Accepted nacks)))
    [match nacks with [] => TResolve (tr_future tr) | _ => TNacks (tr_future tr) nacks (all_unsubscribed nacks) end].

(** From the handler of one node to the table of the other: the answer a peer
    writes, read from the connection of that peer, claims the request as
    refused exactly if the peer refused it and every refusal says it does not
    subscribe, and as accepted with the peer's refusals otherwise, an error of
    its handler included.  An answer to a request that is not pending, or
    that names another node than the connection, changes nothing. *)
Theorem reply_exact r peer node id answer entries :
  is_uint64 peer -> is_uint64 id -> Z.of_nat (length (answer_nacks answer)) < 2 ^ 32 ->
  Forall2 (fun b m => marshal m = Some b /\ blen b < 2 ^ 32) entries (answer_nacks answer) ->
  dispatch_ack r node (HandleNotify peer id answer)
  = Some (match r_pending r !! id with
          | Some tr => if peer =? node then answered r id tr (answer_nacks answer) else r
          | None => r
          end).
Proof.
  intros Hp Hid Hlen Hf. unfold dispatch_ack, HandleNotify. fold (answer_nacks answer). destruct (answer_nacks answer) as [|n0 ns] eqn:En.
  - unfold MarshalNotifyACKPacket. rewrite <- (app_nil_r (writeNotifyACKHeader _ _ _ _)), ack_header_parse by done. cbn [mbind option_bind].
    rewrite bool_decide_false by done. unfold HandleNotifyACK, claim_request. destruct (peer =? node); cbn [negb]; by destruct (r_pending r !! id).
  - pose proof (nack_roundtrip peer id 0 (n0 :: ns) entries Hlen Hf) as Hr.
    assert (parseNotifyACKPacket (MarshalNotifyNACKPacket peer id (n0 :: ns) 0) = Some (inr (peer, id, x01, 0))) as -> by (by apply ack_header_parse).
    cbn [mbind option_bind]. rewrite bool_decide_true by done. destruct (peer =? node); cbn [negb]; [|by destruct (r_pending r !! id)].
    unfold HandleNotifyACKWithData. assert (packet_nacks x01 (MarshalNotifyNACKPacket peer id (n0 :: ns) 0) = n0 :: ns) as ->.
    { unfold packet_nacks, notifyACKHeaderSize. rewrite Hr, bool_decide_true by done. cbn [andb from_option fst].
      assert ((22 <? length (MarshalNotifyNACKPacket peer id (n0 :: ns) 0))%nat = true) as ->; [|done]. apply Nat.ltb_lt.
      destruct (le_lt_dec (length (MarshalNotifyNACKPacket peer id (n0 :: ns) 0)) 22) as [Hle|]; [|done].
      rewrite drop_ge in Hr by done. by change (Some (@nil NackNotify, Some TooShort) = Some (n0 :: ns, None)) in Hr. }
    fold (all_unsubscribed (n0 :: ns)). unfold claim_request. by destruct (r_pending r !! id).
Qed.

End Reply.

(** ** A fan-out to two peers *)

#[local] Instance rw_ranger : MapRange := listed_range.
#[local] Instance nack_detail_eq_dec : EqDecision NackTipDetail.
Proof. solve_decision. Defined.
#[local] Instance nack_eq_dec : EqDecision NackNotify.
Proof. solve_decision. Defined.
#[local] Instance notify_eq_dec : EqDecision OffsetNotify.
Proof. solve_decision. Defined.

Definition w_notify : OffsetNotify := mkNotify None [x6b] [].
Definition w_refusal : NackNotify := mkNack [x6b] None [] [] [] true.

#[local] Instance w_notify_codec : ProtoCodec OffsetNotify := table_codec [with_data w_notify [x2a]].
#[local] Instance w_nack_codec : ProtoCodec NackNotify := table_codec [w_refusal].

(** Node 1 replicates to 2 and 3, and asks 2 again; 3 does not subscribe. *)
Definition w_first : list event :=
  [EAddPeer 2 w_region; EAddPeer 3 w_region; EReplicate w_notify [x2a] 100 0] ++ repeat (ETask 0 true 100) 8
  ++ [EPacket 3 (HandleNotify 3 1 (inr [w_refusal]))] ++ repeat (ETask 0 true 100) 3
  ++ [EReplicateMarshalled [x2a] 2 200] ++ repeat (ETask 0 true 200) 3.

(** 2 accepts. *)
Definition w_second : list event := w_first ++ [EPacket 2 (HandleNotify 2 2 (inr [])); ETask 1 true 300].

Definition w_start : Replicator := NewReplicator 1 w_region (w_health [2; 3]) 0.
Definition w_waiting : Replicator := default w_start (run w_start w_first).
Definition w_accepted : Replicator := default w_start (run w_start w_second).

Lemma w_accepted_reached : reached_by w_second w_accepted.
Proof. split; [by vm_compute|]. exists 1, w_region, (w_health [2; 3]), 0. by vm_compute. Qed.

Lemma w_waiting_reached : reached_by w_first w_waiting.
Proof. split; [by vm_compute|]. exists 1, w_region, (w_health [2; 3]), 0. by vm_compute. Qed.

Lemma w_accepted_future : r_heap w_accepted !! 0%nat = Some (mkFuture true None (Some [w_refusal]) 2 1 true).
Proof. by vm_compute. Qed.

Lemma w_accepted_open : Preset 0 ∉ r_log w_accepted.
Proof.
  assert (forallb (fun e => match e with Preset _ => false | _ => true end) (r_log w_accepted) = true) as Hall by by vm_compute.
  intros Hin%list_elem_of_In. rewrite forallb_forall in Hall. by apply Hall in Hin.
Qed.



Lemma reply_exact_witness :
  dispatch_ack w_waiting 2 (HandleNotify 2 2 (inr [w_refusal]))
  = Some (match r_pending w_waiting !! 2 with Some tr => answered w_waiting 2 tr [w_refusal] | None => w_waiting end).
Proof.
  rewrite (reply_exact w_waiting 2 2 2 (inr [w_refusal]) [[x01]]); [done|by vm_compute..|]. repeat constructor.
Defined.

(** A write replicated after the shutdown's last pass is never swept: with no
    answer from the peer its future stays open. *)
Definition w_late : Replicator :=
  default w_start (run w_start ([EAddPeer 2 w_region; EStop; EDrain; EFinish; EReplicate w_notify [x2a] 100 0] ++ repeat (ETask 0 false 100) 5)).

Lemma late_replicate_unswept :
  f_done <$> r_heap w_late !! 0%nat = Some false /\ r_tasks w_late = [] /\ r_stopped w_late = true
  /\ forall id now sent, step w_late (EVisit id now sent) = None /\ step w_late (EFinalVisit id) = None.
Proof. split_and!; by vm_compute. Qed.
