(* ===== verification/Compete.v ===== *)
(** * Competing transactions at commit (effects/effect.go)

    What a committing node asks of the history it knows: which committed tips
    stand for tips of transactions in flight ([resolveTipDeps]), what snapshots
    say of a transaction ([lookupSnapshotVerdict]), whether a bind it has heard
    of competes with the one it is about to publish ([checkCompetingBinds]),
    and whether the published bind has already lost ([evaluateBindForkChoice]);
    and which of the tips a store offers are superseded
    ([NormalizeCloudTipCandidates]).

    A walk that returns early from the code runs to its end here and keeps the
    first answer it found: nothing else depends on how far it went. *)

From S2P Require Import Prelude Golib Proto Store Walk ForkChoice Predicate TipSet Txn Engine.

(** ** Tips of transactions in flight *)

Definition pending_deps (e : Engine) (t : Tip) : list Tip := default [] (g_pendingTips e !! t).

(** Dependencies are followed first to last. *)
Definition resolve_next (e : Engine) (t : Tip) : list Tip := rev (pending_deps e t).

Definition is_pending (e : Engine) (t : Tip) : bool := bool_decide (is_Some (g_pendingTips e !! t)).

(** Committed tips are kept, and pending ones nothing stands behind. *)
Definition resolve_visit (e : Engine) (resolved : list Tip) (t : Tip) : list Tip :=
  match pending_deps e t with [] => resolved ++ [t] | _ => resolved end.

Definition resolveTipDeps (tips : list Tip) (e : Engine) : list Tip :=
  if existsb (is_pending e) tips then
    match dfs (fun _ => false) (resolve_next e) (fun acc t => Some (resolve_visit e acc t))
            (dfs_fuel (resolve_next e) (dom (g_pendingTips e)) tips) tips ∅ [] with
    | Done resolved => resolved
    | _ => []
    end
  else tips.

(** ** Verdicts *)

Section Store.
Variable (store : Store).

Definition prev_snapshot (eff : Effect) : list Tip :=
  match get_snapshot eff with Some s => match s_prev_snapshot s with Some p => [p] | None => [] end | None => [] end.

Definition verdict_next (key : bytes) (t : Tip) : list Tip :=
  match getEffect store key t with
  | None => []
  | Some eff => match get_snapshot eff with Some _ => prev_snapshot eff ++ e_deps eff | None => keyDeps key eff end
  end.

Definition verdict_at (key txnID : bytes) (t : Tip) : option Verdict :=
  eff ← getEffect store key t;
  snap ← get_snapshot eff;
  v ← s_txn_verdicts snap !! txnID;
  if bool_decide (v = VERDICT_UNSPECIFIED) then None else Some v.

Definition first_some {A} (f : Tip -> option A) (acc : option A) (t : Tip) : option A :=
  match acc with Some a => Some a | None => f t end.

(** The first answer of a walk over what the tips reach. *)
Definition search {A} (next : Tip -> list Tip) (f : Tip -> option A) (tips : list Tip) : option A :=
  match dfs (fun _ => false) next (fun acc t => Some (first_some f acc t)) (dfs_fuel next (dom store) (rev tips)) (rev tips) ∅ None with
  | Done r => r
  | _ => None
  end.

Definition lookupSnapshotVerdict (key txnID : bytes) (e : Engine) : option Verdict :=
  match index_tips e key with
  | None => None
  | Some ts => search (verdict_next key) (verdict_at key txnID) (ts_tips ts)
  end.

(** ** Competing binds *)

Definition dep_next (key : bytes) (t : Tip) : list Tip :=
  match getEffect store key t with Some eff => e_deps eff | None => [] end.

(** What the consumed tips descend from, themselves included. *)
Definition ourAncestors (key : bytes) (consumedTips : list Tip) : gset Tip :=
  match flood (fun _ => false) (dep_next key) (fun (_ : unit) _ => tt) (fun _ => false)
          (flood_fuel (dep_next key) (dom store) consumedTips) (fold_left (push (fun _ => false)) consumedTips ([], ∅)) tt with
  | Done (_, seen) => seen
  | _ => ∅
  end.

(** Row evidence of both sides that does not meet. *)
Definition predicates_disjoint (ourTxn theirTxn key : bytes) (ours theirs : list Tip) : bool :=
  match hasPredicateConflict store ourTxn theirTxn key ours theirs with
  | Done (conflict, bothHadEvidence) => bothHadEvidence && negb conflict
  | _ => false
  end.

(** The bind at [t] touches the key with a tip that is not in our past, and the
    predicates do not tell the two apart. *)
Definition competes (kb : KeyBind) (txnID : bytes) (ancestors : gset Tip) (t : Tip) (eff : Effect) (okb : KeyBind) : bool :=
  negb (bool_decide (kb_new_tip okb ∈ ancestors))
  && negb (nonempty txnID && nonempty (e_txn_id eff)
           && predicates_disjoint txnID (e_txn_id eff) (kb_key kb) [kb_new_tip kb] [kb_new_tip okb; t]).

Definition compete_next (kb : KeyBind) (txnID : bytes) (ancestors : gset Tip) (t : Tip) : list Tip :=
  match getEffect store (kb_key kb) t with
  | None => []
  | Some eff =>
      match get_txn_bind eff with
      | Some b =>
          match find_key (kb_key kb) (tb_keys b) with
          | Some okb => if competes kb txnID ancestors t eff okb then [] else [kb_new_tip okb]
          | None => []
          end
      | None => prev_snapshot eff ++ e_deps eff
      end
  end.

(** The transaction of a competing bind. *)
Definition competitor (kb : KeyBind) (txnID : bytes) (ancestors : gset Tip) (t : Tip) : option bytes :=
  eff ← getEffect store (kb_key kb) t;
  b ← get_txn_bind eff;
  okb ← find_key (kb_key kb) (tb_keys b);
  if competes kb txnID ancestors t eff okb then Some (e_txn_id eff) else None.

Definition competitor_on (txnID : bytes) (e : Engine) (kb : KeyBind) : option bytes :=
  match index_tips e (kb_key kb) with
  | None => None
  | Some ts =>
      let ancestors := ourAncestors (kb_key kb) (kb_consumed_tips kb) in
      search (compete_next kb txnID ancestors) (competitor kb txnID ancestors) (ts_tips ts)
  end.

Fixpoint first_of {A B} (f : A -> option B) (l : list A) : option B :=
  match l with [] => None | x :: l' => match f x with Some r => Some r | None => first_of f l' end end.

(** [None] is the empty string. *)
Definition checkCompetingBinds (bind : TransactionalBindEffect) (txnID : bytes) (e : Engine) : option bytes :=
  match first_of (competitor_on txnID e) (tb_keys bind) with
  | Some [] => None
  | r => r
  end.

(** ** Fork choice of the published bind *)

(** The tip of the other bind on the key: the last entry of that name. *)
Definition their_tip (key : bytes) (b : TransactionalBindEffect) : Tip :=
  fold_left (fun acc okb => if bool_decide (kb_key okb = key) then kb_new_tip okb else acc) (tb_keys b) zero_tip.

Definition loses_to (bind : TransactionalBindEffect) (kb : KeyBind) (bindOffset : Tip) (bindHash txnID : bytes)
    (e : Engine) (tipOff : Tip) (eff : Effect) (otherBind : TransactionalBindEffect) : bool :=
  if bool_decide (e_txn_id eff = txnID) then false
  else if bool_decide (lookupSnapshotVerdict (kb_key kb) (e_txn_id eff) e = Some LOST) then false
  else bindsShareBase bind otherBind
       && negb (predicates_disjoint txnID (e_txn_id eff) (kb_key kb) [kb_new_tip kb; bindOffset] [their_tip (kb_key kb) otherBind; tipOff])
       && negb (ForkChoiceLess bindHash (e_fork_choice_hash eff)).

(** Does the effect at [tipOff] descend from the bind or its tip on the key?
    The zero reference ends a path. *)
Definition descends (kb : KeyBind) (bindOffset tipOff : Tip) : bool :=
  let target t := bool_decide (t = bindOffset) || bool_decide (t = kb_new_tip kb) in
  let next t := if target t || is_zero t then [] else dep_next (kb_key kb) t in
  match dfs (fun _ => false) next (fun acc t => Some (acc || target t)) (dfs_fuel next (dom store) [tipOff]) [tipOff] ∅ false with
  | Done r => r
  | _ => false
  end.

(** A write outside transactions that the bind has not seen. *)
Definition concurrent_write (kb : KeyBind) (bindOffset tipOff : Tip) (eff : Effect) : bool :=
  negb (nonempty (e_txn_id eff)) && (match get_data eff with Some _ => true | None => false end)
  && negb (refsContain (kb_consumed_tips kb) tipOff) && negb (descends kb bindOffset tipOff).

Definition tip_voids (bind : TransactionalBindEffect) (kb : KeyBind) (bindOffset : Tip) (bindHash txnID : bytes)
    (e : Engine) (tipOff : Tip) : bool :=
  if bool_decide (tipOff = bindOffset) then false
  else match getEffect store (kb_key kb) tipOff with
       | None => false
       | Some eff =>
           (match get_txn_bind eff with
            | Some otherBind => loses_to bind kb bindOffset bindHash txnID e tipOff eff otherBind
            | None => false
            end)
           || concurrent_write kb bindOffset tipOff eff
       end.

Definition evaluateBindForkChoice (bind : TransactionalBindEffect) (bindOffset : Tip) (bindHash txnID : bytes) (e : Engine) : bool :=
  existsb (fun kb => existsb (tip_voids bind kb bindOffset bindHash txnID e) (tips_at e (kb_key kb))) (tb_keys bind).

End Store.

(** ** Candidates of a store *)

(** A blob that is provably absent, or a failure to ask. *)
Inductive load_error := BlobMissing | LoadFailed.

Section Cloud.
Variable (key : bytes) (load : Tip -> load_error + Effect).

Definition cloud_deps (t : Tip) : list Tip := match load t with inr eff => keyDeps key eff | inl _ => [] end.

(** The tips superseded so far; [None] when a load failed. *)
Fixpoint cloud_walk (fuel : nat) (candidates : gset Tip) (queue : list Tip) (visited superseded : gset Tip) : walk (option (gset Tip)) :=
  match queue with
  | [] => Done (Some superseded)
  | cur :: queue =>
      match fuel with
      | O => OutOfFuel
      | S fuel =>
          if bool_decide (cur ∈ visited) then cloud_walk fuel candidates queue visited superseded
          else match load cur with
               | inl BlobMissing => cloud_walk fuel candidates queue ({[ cur ]} ∪ visited) superseded
               | inl LoadFailed => Done None
               | inr eff =>
                   cloud_walk fuel candidates (queue ++ keyDeps key eff) ({[ cur ]} ∪ visited)
                     (superseded ∪ list_to_set (filter (fun dep => dep ∈ candidates /\ dep <> cur) (keyDeps key eff)))
               end
      end
  end.

(** [D]: the effects that can be loaded. *)
Definition NormalizeCloudTipCandidates (D : gset Tip) (candidates localRoots : list Tip) : option (list Tip * list Tip) :=
  let unique := dedup_map candidates in
  match cloud_walk (dfs_fuel cloud_deps D (unique ++ localRoots)) (list_to_set unique) (unique ++ localRoots) ∅ ∅ with
  | Done (Some superseded) => Some (filter (fun t => t ∉ superseded) unique, filter (fun t => t ∈ superseded) unique)
  | _ => None
  end.

End Cloud.
