(* ===== verification/CompeteProps.v ===== *)
(** * What the walks of a committing node find *)

From S2P Require Import Prelude Golib Proto Store Walk ForkChoice Predicate TipSet Txn Engine Compete.

(** ** Tips in flight *)

(** [y] is one of the tips a pending tip stands on. *)
Definition stands_on (e : Engine) (x y : Tip) : Prop := y ∈ pending_deps e x.

Lemma resolve_dom e t : resolve_next e t <> [] -> t ∈ dom (g_pendingTips e).
Proof.
  unfold resolve_next, pending_deps. destruct (g_pendingTips e !! t) eqn:E; [|done].
  intros _. by eapply elem_of_dom_2.
Qed.

Lemma resolve_fold e order acc t :
  t ∈ fold_left (resolve_visit e) order acc <-> t ∈ acc \/ (t ∈ order /\ pending_deps e t = []).
Proof.
  revert acc. induction order as [|x order IH]; intros acc; cbn [fold_left]; [set_solver|].
  rewrite IH. unfold resolve_visit. destruct (pending_deps e x) as [|y l] eqn:E.
  - rewrite elem_of_app, list_elem_of_singleton, elem_of_cons. split; [intros [[?| ->]|[? ?]]; auto|].
    intros [?|[[->|?] ?]]; auto.
  - rewrite elem_of_cons. split; [intros [?|[? ?]]; auto|]. intros [?|[[->|?] ?]]; auto. congruence.
Qed.

(** Resolving the tips a new effect will depend on keeps exactly the tips
    that end a chain of pending ones: everything reachable from the given tips
    through pending tips' own dependencies that nothing stands behind.  So a tip
    of a transaction in flight is never depended on while a committed
    predecessor of it is known, and no committed branch is lost. *)
Theorem resolved_tips_exact (tips : list Tip) (e : Engine) (t : Tip) :
  t ∈ resolveTipDeps tips e <-> pending_deps e t = [] /\ exists s, s ∈ tips /\ rtc (stands_on e) s t.
Proof.
  unfold resolveTipDeps. destruct (existsb (is_pending e) tips) eqn:Hp.
  - destruct (dfs_run_all (resolve_next e) (resolve_visit e) (dom (g_pendingTips e)) tips [] (resolve_dom e)) as (order & -> & _ & Ho).
    rewrite resolve_fold, Ho, elem_of_nil, (reached_iff _ (stands_on e) _ tips); [tauto| |done].
    intros x y. apply elem_of_rev_list.
  - assert (forall s, s ∈ tips -> pending_deps e s = []) as Hn.
    { intros s Hs. unfold pending_deps. destruct (g_pendingTips e !! s) eqn:E; [|done]. exfalso.
      apply not_true_iff_false in Hp. apply Hp, existsb_exists. exists s. split; [by apply list_elem_of_In|].
      apply bool_decide_eq_true. by rewrite E. }
    split; [intros Ht; split; [auto|]; by exists t|].
    intros [_ (s & Hs & Hr)]. inversion Hr as [|? y ? Hy]; subst; [done|].
    unfold stands_on in Hy. rewrite (Hn s Hs) in Hy. by apply elem_of_nil in Hy.
Qed.

(** ** Searches *)

Section Search.
Variable (store : Store).

Lemma first_some_fold {A} (f : Tip -> option A) order acc r :
  fold_left (first_some f) order acc = r ->
  match r with
  | Some a => acc = Some a \/ exists t, t ∈ order /\ f t = Some a
  | None => acc = None /\ forall t, t ∈ order -> f t = None
  end.
Proof.
  intros <-. revert acc. induction order as [|x order IH]; intros acc; cbn [fold_left].
  { destruct acc; [by left|]. split; [done|]. by intros t ?%elem_of_nil. }
  specialize (IH (first_some f acc x)). destruct (fold_left (first_some f) order (first_some f acc x)) as [a|].
  - destruct IH as [E|(t & Ht & E)]; [|right; exists t; split; [by constructor|done]].
    destruct acc as [a'|]; simpl in E; [by left|]. right. exists x. split; [constructor|done].
  - destruct IH as [E Hn]. destruct acc as [a'|]; simpl in E; [done|]. split; [done|].
    intros t [->|Ht]%elem_of_cons; auto.
Qed.

(** A search fails only when nothing reachable answers. *)
Lemma search_spec {A} (next : Tip -> list Tip) (f : Tip -> option A) (tips : list Tip) :
  (forall t, next t <> [] -> t ∈ dom store) ->
  match search store next f tips with
  | Some a => exists t, reached next tips t /\ f t = Some a
  | None => forall t, reached next tips t -> f t = None
  end.
Proof.
  intros HD. unfold search.
  destruct (dfs_run_all next (first_some f) (dom store) (rev tips) None HD) as (order & -> & _ & Ho).
  assert (forall t, t ∈ order <-> reached next tips t) as Hr.
  { intros t. rewrite Ho. apply reached_iff; [done|]. intros x. apply elem_of_rev_list. }
  pose proof (first_some_fold f order None _ eq_refl) as H. destruct (fold_left (first_some f) order None) as [a|].
  - destruct H as [?|(t & Ht%Hr & E)]; [done|]. by exists t.
  - destruct H as [_ H]. intros t Ht%Hr. auto.
Qed.

Lemma getEffect_dom key t eff : getEffect store key t = Some eff -> t ∈ dom store.
Proof. intros H. by eapply elem_of_dom_2. Qed.

Lemma verdict_next_dom key t : verdict_next store key t <> [] -> t ∈ dom store.
Proof. unfold verdict_next. destruct (getEffect store key t) eqn:E; [|done]. intros _. by eapply getEffect_dom. Qed.

Lemma dep_next_dom key t : dep_next store key t <> [] -> t ∈ dom store.
Proof. unfold dep_next. destruct (getEffect store key t) eqn:E; [|done]. intros _. by eapply getEffect_dom. Qed.

Lemma compete_next_dom kb txnID anc t : compete_next store kb txnID anc t <> [] -> t ∈ dom store.
Proof. unfold compete_next. destruct (getEffect store _ t) eqn:E; [|done]. intros _. by eapply getEffect_dom. Qed.

(** ** The past of the consumed tips *)

Definition causes (key : bytes) (x y : Tip) : Prop := exists eff, getEffect store key x = Some eff /\ y ∈ e_deps eff.

Lemma dep_next_causes key x y : y ∈ dep_next store key x <-> causes key x y.
Proof.
  unfold dep_next, causes. destruct (getEffect store key x) as [eff|]; [|split; [by intros ?%elem_of_nil|by intros (? & ? & _)]].
  naive_solver.
Qed.

(** [t] is in the causal past of what the entry consumed. *)
Definition in_past (kb : KeyBind) (t : Tip) : Prop :=
  exists s, s ∈ kb_consumed_tips kb /\ rtc (causes (kb_key kb)) s t.

Lemma ourAncestors_iff kb t : t ∈ ourAncestors store (kb_key kb) (kb_consumed_tips kb) <-> in_past kb t.
Proof.
  unfold ourAncestors, in_past.
  destruct (flood_spec (fun _ => false) (dep_next store (kb_key kb)) (fun (_ : unit) _ => tt) (fun _ => false) (dom store)
    (kb_consumed_tips kb) tt (dep_next_dom (kb_key kb))) as (order & seen & -> & _ & [?|[Hs _]]); [done|].
  rewrite Hs. unfold flooded, flood_step. split.
  - intros (s & Hs' & _ & Hp). exists s. split; [done|]. eapply rtc_subrel; [|exact Hp]. intros x y [Hy _].
    by apply dep_next_causes.
  - intros (s & Hs' & Hp). exists s. split_and!; [done..|]. eapply rtc_subrel; [|exact Hp]. intros x y Hy.
    split; [by apply dep_next_causes|done].
Qed.

(** ** Competitors *)

(** The predicates both transactions left on the key keep them apart. *)
Definition kept_apart (kb okb : KeyBind) (txnID other : bytes) (t : Tip) : Prop :=
  txnID <> [] /\ other <> []
  /\ predicates_disjoint store txnID other (kb_key kb) [kb_new_tip kb] [kb_new_tip okb; t] = true.

(** The bind at [t] writes the key with a tip outside our past. *)
Definition rival (kb : KeyBind) (txnID : bytes) (t : Tip) (eff : Effect) : Prop :=
  exists b okb, get_txn_bind eff = Some b /\ find_key (kb_key kb) (tb_keys b) = Some okb
    /\ ~ in_past kb (kb_new_tip okb) /\ ~ kept_apart kb okb txnID (e_txn_id eff) t.

(** How the history is explored: through a bind that is no rival to its tip on
    the key, through anything else to its dependencies and previous snapshot. *)
Definition explores (kb : KeyBind) (txnID : bytes) (x y : Tip) : Prop :=
  exists eff, getEffect store (kb_key kb) x = Some eff /\
    match get_txn_bind eff with
    | Some b => exists okb, find_key (kb_key kb) (tb_keys b) = Some okb /\ ~ rival kb txnID x eff /\ y = kb_new_tip okb
    | None => y ∈ prev_snapshot eff \/ y ∈ e_deps eff
    end.

(** The history of the key, as this node indexes it, holds a rival. *)
Definition rival_known (kb : KeyBind) (txnID : bytes) (e : Engine) (other : bytes) : Prop :=
  exists s t eff, s ∈ tips_at e (kb_key kb) /\ rtc (explores kb txnID) s t
    /\ getEffect store (kb_key kb) t = Some eff /\ rival kb txnID t eff /\ e_txn_id eff = other.

Lemma nonempty_iff {A} (l : list A) : nonempty l = true <-> l <> [].
Proof. by destruct l. Qed.

Lemma competes_iff kb txnID t eff b okb :
  get_txn_bind eff = Some b -> find_key (kb_key kb) (tb_keys b) = Some okb ->
  competes store kb txnID (ourAncestors store (kb_key kb) (kb_consumed_tips kb)) t eff okb = true <-> rival kb txnID t eff.
Proof.
  intros Hb Hk. unfold competes, rival, kept_apart.
  rewrite andb_true_iff, !negb_true_iff, bool_decide_eq_false, ourAncestors_iff, <- not_true_iff_false.
  rewrite !andb_true_iff, !nonempty_iff. split.
  - intros [? Hd]. exists b, okb. split_and!; [done..|]. tauto.
  - intros (b' & okb' & Hb' & Hk' & Hn & Hd). assert (b' = b) as -> by congruence. assert (okb' = okb) as -> by congruence.
    tauto.
Qed.

Lemma explores_next kb txnID x y :
  y ∈ compete_next store kb txnID (ourAncestors store (kb_key kb) (kb_consumed_tips kb)) x <-> explores kb txnID x y.
Proof.
  unfold compete_next, explores. destruct (getEffect store (kb_key kb) x) as [eff|]; [|split; [by intros ?%elem_of_nil|by intros (? & ? & _)]].
  destruct (get_txn_bind eff) as [b|] eqn:Hb.
  - destruct (find_key (kb_key kb) (tb_keys b)) as [okb|] eqn:Hk.
    + pose proof (competes_iff kb txnID x eff b okb Hb Hk) as Hc. destruct (competes _ _ _ _ _ _ _).
      * split; [by intros ?%elem_of_nil|]. intros (? & [= <-] & E). rewrite Hb in E. destruct E as (? & _ & Hn & _).
        destruct Hn. by apply Hc.
      * rewrite list_elem_of_singleton. split.
        -- intros ->. exists eff. split; [done|]. rewrite Hb. exists okb. split_and!; [done| |done]. by intros ?%Hc.
        -- intros (? & [= <-] & E). rewrite Hb in E. destruct E as (okb' & Hk' & _ & ->). congruence.
    + split; [by intros ?%elem_of_nil|]. intros (? & [= <-] & E). rewrite Hb in E. naive_solver.
  - rewrite elem_of_app. split; [intros H; exists eff; split; [done|]; by rewrite Hb|].
    intros (? & [= <-] & H). by rewrite Hb in H.
Qed.

Lemma competitor_iff kb txnID t other :
  competitor store kb txnID (ourAncestors store (kb_key kb) (kb_consumed_tips kb)) t = Some other
  <-> exists eff, getEffect store (kb_key kb) t = Some eff /\ rival kb txnID t eff /\ e_txn_id eff = other.
Proof.
  unfold competitor. destruct (getEffect store (kb_key kb) t) as [eff|]; simpl; [|split; [done|by intros (? & ? & _)]].
  destruct (get_txn_bind eff) as [b|] eqn:Hb; simpl.
  - destruct (find_key (kb_key kb) (tb_keys b)) as [okb|] eqn:Hk; simpl.
    + pose proof (competes_iff kb txnID t eff b okb Hb Hk) as Hc. destruct (competes _ _ _ _ _ _ _); split.
      * intros [= <-]. exists eff. split_and!; [done| |done]. by apply Hc.
      * intros (? & [= <-] & _ & <-). done.
      * done.
      * intros (? & [= <-] & ?%Hc & _). done.
    + split; [done|]. intros (? & [= <-] & (b' & okb & Hb' & ? & _) & _). congruence.
  - split; [done|]. intros (? & [= <-] & (b' & okb & Hb' & ? & _) & _). congruence.
Qed.

Lemma competitor_on_spec txnID e kb :
  match competitor_on store txnID e kb with
  | Some other => rival_known kb txnID e other
  | None => forall other, ~ rival_known kb txnID e other
  end.
Proof.
  unfold competitor_on, rival_known, tips_at. destruct (index_tips e (kb_key kb)) as [ts|]; [|by intros ? (? & ? & ? & ?%elem_of_nil & _)].
  cbv zeta. set (next := compete_next store kb txnID _). set (f := competitor store kb txnID _).
  assert (forall x y, y ∈ next x <-> explores kb txnID x y) as Hn by (intros; apply explores_next).
  pose proof (search_spec next f (ts_tips ts) ltac:(intros t; apply compete_next_dom)) as H.
  unfold reached in H. destruct (search store next f (ts_tips ts)) as [other|].
  - destruct H as (t & (s & Hs & Hp) & Hf). apply competitor_iff in Hf as (eff & ? & ? & ?).
    exists s, t, eff. split_and!; try done. eapply rtc_subrel; [|exact Hp]. intros x y. apply Hn.
  - intros other (s & t & eff & Hs & Hp & He & Hr & Ht).
    assert (f t = Some other) as E by (apply competitor_iff; eauto).
    rewrite H in E; [done|]. exists s. split; [done|]. eapply rtc_subrel; [|exact Hp]. intros x y. apply Hn.
Qed.

Lemma first_of_spec {A B} (f : A -> option B) l :
  match first_of f l with Some b => exists x, x ∈ l /\ f x = Some b | None => forall x, x ∈ l -> f x = None end.
Proof.
  induction l as [|x l IH]; simpl; [by intros x ?%elem_of_nil|]. destruct (f x) eqn:E.
  - exists x. split; [constructor|done].
  - destruct (first_of f l).
    + destruct IH as (y & ? & ?). exists y. split; [by constructor|done].
    + intros y [->|Hy]%elem_of_cons; auto.
Qed.

(** A committing transaction is told of a competing bind exactly when the
    history of one of its keys holds one: a bind that writes the key with a tip
    outside the causal past of what the transaction consumed, and that no
    predicate evidence keeps apart, reached through snapshots and through binds
    that are no rivals.  It is told a transaction of such a bind.  The binds of
    the history carry their transaction's name. *)
Theorem competing_bind_exact (bind : TransactionalBindEffect) (txnID : bytes) (e : Engine) :
  (forall t eff, store !! t = Some eff -> is_Some (get_txn_bind eff) -> e_txn_id eff <> []) ->
  match checkCompetingBinds store bind txnID e with
  | Some other => exists kb, kb ∈ tb_keys bind /\ rival_known kb txnID e other
  | None => forall kb other, kb ∈ tb_keys bind -> ~ rival_known kb txnID e other
  end.
Proof.
  intros Hnamed. unfold checkCompetingBinds. pose proof (first_of_spec (competitor_on store txnID e) (tb_keys bind)) as H.
  destruct (first_of (competitor_on store txnID e) (tb_keys bind)) as [other|].
  - destruct H as (kb & Hkb & E). pose proof (competitor_on_spec txnID e kb) as Hs. rewrite E in Hs.
    destruct other as [|c other]; [|by exists kb]. exfalso.
    destruct Hs as (s & t & eff & _ & _ & He & (b & okb & Hb & _) & Ht). eapply Hnamed; [exact He|by rewrite Hb|done].
  - intros kb other Hkb. pose proof (competitor_on_spec txnID e kb) as Hs. rewrite (H kb Hkb) in Hs. apply Hs.
Qed.

(** ** Fork choice of the published bind *)

(** A walk from a tip back to the bind or to its tip on the key. *)
Definition back (kb : KeyBind) (bindOffset : Tip) (x y : Tip) : Prop :=
  x <> bindOffset /\ x <> kb_new_tip kb /\ x <> zero_tip /\ causes (kb_key kb) x y.

Lemma fold_or (f : Tip -> bool) order acc : fold_left (fun a t => a || f t) order acc = acc || existsb f order.
Proof. revert acc. induction order as [|x l IH]; intros acc; simpl; [by rewrite orb_false_r|]. rewrite IH. by rewrite orb_assoc. Qed.

Lemma descends_iff kb bindOffset tipOff :
  descends store kb bindOffset tipOff = true
  <-> exists t, rtc (back kb bindOffset) tipOff t /\ (t = bindOffset \/ t = kb_new_tip kb).
Proof.
  set (target := fun t : Tip => bool_decide (t = bindOffset) || bool_decide (t = kb_new_tip kb)).
  set (next := fun t => if target t || is_zero t then [] else dep_next store (kb_key kb) t).
  assert (forall t, target t = true <-> t = bindOffset \/ t = kb_new_tip kb) as Ht.
  { intros t. unfold target. by rewrite orb_true_iff, !bool_decide_eq_true. }
  assert (forall x y, y ∈ next x <-> back kb bindOffset x y) as Hn.
  { intros x y. unfold next, back. destruct (target x || is_zero x) eqn:E.
    - split; [by intros ?%elem_of_nil|]. intros (? & ? & ? & _). exfalso. apply orb_true_iff in E as [[]%Ht|E]; [done..|].
      apply is_zero_false in H1. congruence.
    - apply orb_false_iff in E as [E Ez%is_zero_false]. apply not_true_iff_false in E. rewrite Ht in E.
      rewrite dep_next_causes. tauto. }
  assert (forall t, next t <> [] -> t ∈ dom store) as HD.
  { intros t. unfold next. destruct (target t || is_zero t); [done|]. apply dep_next_dom. }
  destruct (dfs_run_all next (fun a t => a || target t) (dom store) [tipOff] false HD) as (order & E & _ & Ho).
  assert (descends store kb bindOffset tipOff = fold_left (fun a t => a || target t) order false) as ->
    by exact (f_equal (fun x => match x with Done r => r | _ => false end) E).
  rewrite fold_or, orb_false_l, existsb_exists. setoid_rewrite <- list_elem_of_In. setoid_rewrite Ht.
  setoid_rewrite Ho. setoid_rewrite (reached_iff next (back kb bindOffset) [tipOff] [tipOff]); [|done..].
  setoid_rewrite list_elem_of_singleton. naive_solver.
Qed.

(** The recorded outcome of a transaction, found in a snapshot of the key's
    history. *)
Definition recorded (key txnID : bytes) (e : Engine) (v : Verdict) : Prop :=
  exists t, reached (verdict_next store key) (tips_at e key) t /\ verdict_at store key txnID t = Some v.

Lemma verdict_lookup_spec key txnID e :
  match lookupSnapshotVerdict store key txnID e with
  | Some v => recorded key txnID e v
  | None => forall v, ~ recorded key txnID e v
  end.
Proof.
  unfold lookupSnapshotVerdict, recorded, tips_at.
  destruct (index_tips e key) as [ts|]; [|by intros v (t & (s & ?%elem_of_nil & _) & _)].
  pose proof (search_spec (verdict_next store key) (verdict_at store key txnID) (ts_tips ts) (verdict_next_dom key)) as H.
  destruct (search _ _ _ _) as [v|]; [done|]. intros v (t & Ht & E). rewrite (H t Ht) in E. done.
Qed.

(** A bind of another transaction on the same base that no snapshot declared
    lost and that comes first in fork choice. *)
Definition outranked (bind : TransactionalBindEffect) (kb : KeyBind) (bindOffset : Tip) (bindHash txnID : bytes)
    (e : Engine) (tip : Tip) (eff : Effect) : Prop :=
  exists other, get_txn_bind eff = Some other /\ e_txn_id eff <> txnID
    /\ lookupSnapshotVerdict store (kb_key kb) (e_txn_id eff) e <> Some LOST
    /\ bindsShareBase bind other = true
    /\ predicates_disjoint store txnID (e_txn_id eff) (kb_key kb) [kb_new_tip kb; bindOffset] [their_tip (kb_key kb) other; tip] = false
    /\ ForkChoiceLess bindHash (e_fork_choice_hash eff) = false.

(** A write outside transactions that the bind did not consume and that does
    not descend from the bind. *)
Definition unseen_write (kb : KeyBind) (bindOffset tip : Tip) (eff : Effect) : Prop :=
  e_txn_id eff = [] /\ is_Some (get_data eff) /\ (tip ∉ kb_consumed_tips kb)
  /\ forall t, rtc (back kb bindOffset) tip t -> t <> bindOffset /\ t <> kb_new_tip kb.

Lemma refsContain_iff refs t : refsContain refs t = true <-> t ∈ refs.
Proof.
  unfold refsContain. rewrite existsb_exists. setoid_rewrite bool_decide_eq_true. setoid_rewrite <- list_elem_of_In.
  naive_solver.
Qed.

Lemma loses_to_iff bind kb bindOffset bindHash txnID e tip eff other :
  get_txn_bind eff = Some other ->
  loses_to store bind kb bindOffset bindHash txnID e tip eff other = true
  <-> outranked bind kb bindOffset bindHash txnID e tip eff.
Proof.
  intros Hb. unfold loses_to, outranked. repeat case_bool_decide.
  1,2: split; [done|]; by intros (? & _ & ? & ? & _).
  rewrite !andb_true_iff, !negb_true_iff. split; [naive_solver|]. intros (o & Ho & ?). assert (o = other) as -> by congruence.
  tauto.
Qed.

Lemma concurrent_write_iff kb bindOffset tip eff :
  concurrent_write store kb bindOffset tip eff = true <-> unseen_write kb bindOffset tip eff.
Proof.
  unfold concurrent_write, unseen_write. rewrite !andb_true_iff, !negb_true_iff.
  rewrite <- (not_true_iff_false (nonempty _)), <- (not_true_iff_false (refsContain _ _)), <- (not_true_iff_false (descends _ _ _ _)).
  rewrite nonempty_iff, refsContain_iff, descends_iff.
  assert (match get_data eff with Some _ => true | None => false end = true <-> is_Some (get_data eff)) as ->
    by (destruct (get_data eff); split; try done; by intros []).
  assert (~ e_txn_id eff <> [] <-> e_txn_id eff = []) as -> by (destruct (decide (e_txn_id eff = [])); tauto).
  naive_solver.
Qed.

(** A published bind has lost exactly when, on one of its keys, some current
    tip other than the bind itself is either a bind of another transaction on
    the same base that was not already declared lost, that predicates do not
    keep apart and that fork choice puts first, or a write outside transactions
    that the bind neither consumed nor precedes. *)
Theorem bind_voided_exact (bind : TransactionalBindEffect) (bindOffset : Tip) (bindHash txnID : bytes) (e : Engine) :
  evaluateBindForkChoice store bind bindOffset bindHash txnID e = true
  <-> exists kb tip eff, kb ∈ tb_keys bind /\ tip ∈ tips_at e (kb_key kb) /\ tip <> bindOffset
        /\ getEffect store (kb_key kb) tip = Some eff
        /\ (outranked bind kb bindOffset bindHash txnID e tip eff \/ unseen_write kb bindOffset tip eff).
Proof.
  unfold evaluateBindForkChoice. rewrite existsb_exists. setoid_rewrite existsb_exists. setoid_rewrite <- list_elem_of_In.
  assert (forall kb tip, tip_voids store bind kb bindOffset bindHash txnID e tip = true
    <-> exists eff, tip <> bindOffset /\ getEffect store (kb_key kb) tip = Some eff
        /\ (outranked bind kb bindOffset bindHash txnID e tip eff \/ unseen_write kb bindOffset tip eff)) as H.
  { intros kb tip. unfold tip_voids. case_bool_decide as Hne; [split; [done|]; by intros (? & ? & _)|].
    destruct (getEffect store (kb_key kb) tip) as [eff|]; [|split; [done|]; by intros (? & _ & ? & _)].
    rewrite orb_true_iff, concurrent_write_iff. destruct (get_txn_bind eff) as [other|] eqn:Hb.
    - rewrite loses_to_iff by done. split; [eauto|]. by intros (? & _ & [= <-] & ?).
    - split; [intros [|]; [done|eauto]|]. intros (? & _ & [= <-] & [(? & ? & _)|]); [congruence|auto]. }
  setoid_rewrite H. naive_solver.
Qed.

End Search.

(** ** Candidates of a store *)

Section Cloud.
Variable (key : bytes) (load : Tip -> load_error + Effect) (D : gset Tip).
Hypothesis loaded : forall t eff, load t = inr eff -> t ∈ D.

Lemma cloud_deps_dom t : cloud_deps key load t <> [] -> t ∈ D.
Proof. unfold cloud_deps. destruct (load t) as [err|eff] eqn:E; [done|]. eauto. Qed.

Lemma dfs_covers_members next stack stack' seen order :
  (forall x, x ∈ stack <-> x ∈ stack') -> dfs_covers (fun _ => false) next stack seen order -> dfs_covers (fun _ => false) next stack' seen order.
Proof.
  intros Hm [Hn Hw Hr Hs Hc Hp]. split; try done.
  - intros t Ht. destruct (Hr t Ht) as (s & Hs' & ?). exists s. split; [by apply Hm|done].
  - intros s Hs'. by apply Hs, Hm.
  - intros i t Ht. destruct (Hp i t Ht) as [?%Hm|]; auto.
Qed.

(** [d] is a candidate that [x] names as a dependency. *)
Definition named (cands : gset Tip) (x d : Tip) : Prop := d ∈ cands /\ d <> x /\ d ∈ cloud_deps key load x.

Lemma cloud_walk_spec fuel cands queue visited sup :
  (length queue + dfs_weight (cloud_deps key load) D visited <= fuel)%nat ->
  match cloud_walk key load fuel cands queue visited sup with
  | Done (Some sup') => exists order, dfs_covers (fun _ => false) (cloud_deps key load) queue visited order
      /\ (forall t, t ∈ order -> load t <> inl LoadFailed)
      /\ (forall d, d ∈ sup' <-> d ∈ sup \/ exists x, x ∈ order /\ named cands x d)
  | Done None => exists s t, s ∈ queue /\ rtc (fun x y => y ∈ cloud_deps key load x) s t /\ load t = inl LoadFailed
  | _ => False
  end.
Proof.
  revert queue visited sup. induction fuel as [|fuel IH]; intros [|t queue] visited sup Hf; cbn [cloud_walk length] in *; try lia.
  1,2: exists []; split_and!; [split; [constructor|set_solver..|by intros i t ?]|set_solver|set_solver].
  case_bool_decide as Hv.
  { specialize (IH queue visited sup ltac:(lia)). destruct (cloud_walk _ _ _ _ _ _ _) as [[sup'|]| |]; try done.
    - destruct IH as (order & Hc & ?). exists order. split; [|done]. by apply dfs_covers_skip; [left|].
    - destruct IH as (s & x & ? & ?). exists s, x. split; [by constructor|done]. }
  pose proof (dfs_weight_visit (fun _ => false) (cloud_deps key load) D cloud_deps_dom t visited Hv) as Hw.
  assert (Hstep : forall deps sup1, cloud_deps key load t = deps -> load t <> inl LoadFailed ->
    (forall d, d ∈ sup1 <-> d ∈ sup \/ named cands t d) ->
    match cloud_walk key load fuel cands (queue ++ deps) ({[ t ]} ∪ visited) sup1 with
    | Done (Some sup') => exists order, dfs_covers (fun _ => false) (cloud_deps key load) (t :: queue) visited order
        /\ (forall t, t ∈ order -> load t <> inl LoadFailed)
        /\ (forall d, d ∈ sup' <-> d ∈ sup \/ exists x, x ∈ order /\ named cands x d)
    | Done None => exists s t0, s ∈ t :: queue /\ rtc (fun x y => y ∈ cloud_deps key load x) s t0 /\ load t0 = inl LoadFailed
    | _ => False
    end).
  { intros deps sup1 Hd Hl Hs. specialize (IH (queue ++ deps) ({[ t ]} ∪ visited) sup1).
    rewrite length_app, <- Hd in IH. specialize (IH ltac:(lia)). rewrite Hd in IH.
    destruct (cloud_walk _ _ _ _ _ _ _) as [[sup'|]| |]; try done.
    - destruct IH as (order & Hc & Hno & Hsup). exists (t :: order). split_and!.
      + apply (dfs_covers_visit _ _ D cloud_deps_dom); [done..|]. eapply dfs_covers_members; [|exact Hc].
        intros x. rewrite Hd, !elem_of_app, elem_of_rev_list. tauto.
      + intros x [->|Hx]%elem_of_cons; auto.
      + intros d. rewrite Hsup, Hs. setoid_rewrite elem_of_cons. naive_solver.
    - destruct IH as (s & x & [Hq|Hq]%elem_of_app & Hp & E).
      + exists s, x. split_and!; [by constructor|done..].
      + exists t, x. split_and!; [constructor| |done]. eapply rtc_l; [|exact Hp]. by rewrite Hd. }
  destruct (load t) as [[|]|eff] eqn:El.
  - specialize (Hstep [] sup). rewrite app_nil_r in Hstep. apply Hstep; [unfold cloud_deps; by rewrite El|done|].
    intros d. unfold named, cloud_deps. rewrite El. set_solver.
  - exists t, t. split_and!; [constructor|done..].
  - apply Hstep; [unfold cloud_deps; by rewrite El|done|].
    intros d. rewrite elem_of_union, elem_of_list_to_set, list_elem_of_filter. unfold named, cloud_deps. rewrite El. tauto.
Qed.

(** What the candidates and the local roots reach. *)
Definition offered (candidates localRoots : list Tip) : Tip -> Prop := reached (cloud_deps key load) (candidates ++ localRoots).

Lemma dedup_elem (refs : list Tip) t : t ∈ dedup_map refs <-> t ∈ refs.
Proof. rewrite dedup_map_scan. apply dedup_scan_spec. Qed.

Lemma normalize_exact (candidates localRoots : list Tip) :
  match NormalizeCloudTipCandidates key load D candidates localRoots with
  | Some (realTips, superseded) =>
      (forall t, offered candidates localRoots t -> load t <> inl LoadFailed)
      /\ (forall t, t ∈ superseded <-> t ∈ candidates /\ exists x, offered candidates localRoots x /\ t <> x /\ t ∈ cloud_deps key load x)
      /\ (forall t, t ∈ realTips <-> t ∈ candidates /\ t ∉ superseded)
  | None => exists t, offered candidates localRoots t /\ load t = inl LoadFailed
  end.
Proof.
  unfold NormalizeCloudTipCandidates. set (queue := dedup_map candidates ++ localRoots).
  assert (forall t, reached (cloud_deps key load) queue t <-> offered candidates localRoots t) as Hq.
  { intros t. apply reached_iff; [done|]. intros x. unfold queue. by rewrite !elem_of_app, dedup_elem. }
  pose proof (cloud_walk_spec (dfs_fuel (cloud_deps key load) D queue) (list_to_set (dedup_map candidates)) queue ∅ ∅ (dfs_fuel_enough _ _ _)) as H.
  destruct (cloud_walk _ _ _ _ _ _ _) as [[sup|]| |]; try done.
  - destruct H as (order & Hc & Hno & Hsup).
    assert (forall t, t ∈ order <-> offered candidates localRoots t) as Ho.
    { intros t. rewrite <- Hq, (dfs_covers_iff _ _ _ _ _ Hc). unfold reached. split.
      - intros (_ & s & Hs & Hp). exists s. split; [done|]. eapply rtc_subrel; [|exact Hp]. by intros x y [_ ?].
      - intros (s & Hs & Hp). split; [done|]. exists s. split; [done|]. eapply rtc_subrel; [|exact Hp]. by intros x y ?. }
    assert (forall t, t ∈ filter (fun t => t ∈ sup) (dedup_map candidates)
      <-> t ∈ candidates /\ exists x, offered candidates localRoots x /\ t <> x /\ t ∈ cloud_deps key load x) as Hs.
    { intros t. rewrite list_elem_of_filter, dedup_elem, Hsup. unfold named. setoid_rewrite elem_of_list_to_set.
      setoid_rewrite dedup_elem. setoid_rewrite Ho. set_solver. }
    split_and!; [intros t Ht%Ho; auto|done|]. intros t. rewrite !list_elem_of_filter, dedup_elem. tauto.
  - destruct H as (s & t & Hs & Hp & E). exists t. split; [|done]. apply Hq. by exists s.
Qed.

(** Nothing of the candidates is lost. *)
Lemma normalize_covers (candidates localRoots realTips superseded : list Tip) (rank : Tip -> nat) :
  (forall x d, d ∈ cloud_deps key load x -> (rank d < rank x)%nat) ->
  NormalizeCloudTipCandidates key load D candidates localRoots = Some (realTips, superseded) ->
  forall t, t ∈ candidates -> exists s, s ∈ realTips ++ localRoots /\ rtc (fun x y => y ∈ cloud_deps key load x) s t.
Proof.
  intros Hrank E. pose proof (normalize_exact candidates localRoots) as H. rewrite E in H. destruct H as (_ & Hs & Hr).
  set (M := max_list_with rank candidates).
  assert (forall t, t ∈ candidates -> (rank t <= M)%nat) as HM.
  { intros t Ht. unfold M. clear -Ht. induction Ht; simpl; lia. }
  intros t Ht. remember (M - rank t)%nat as n eqn:En. revert t Ht En. induction (lt_wf n) as [n _ IH]. intros t Ht En.
  destruct (decide (t ∈ superseded)) as [Hsup|Hsup].
  2:{ exists t. split; [|done]. apply elem_of_app. left. by apply Hr. }
  apply Hs in Hsup as [_ (x & (s & Hs' & Hp) & _ & Hd)].
  assert (rtc (fun x y => y ∈ cloud_deps key load x) s t) as Hst by (by eapply rtc_r).
  apply elem_of_app in Hs' as [Hs'|Hs']; [|exists s; split; [apply elem_of_app; by right|done]].
  pose proof (ranked_rtc _ rank s x Hrank Hp). pose proof (Hrank x t Hd). pose proof (HM s Hs').
  destruct (IH (M - rank s)%nat ltac:(lia) s Hs' eq_refl) as (s' & ? & Hp'). exists s'. split; [done|]. by etrans.
Qed.

End Cloud.

(** Sorting the tips a store offers for a key: the call fails exactly when
    some effect it must look at could not be asked for; otherwise a candidate is
    superseded exactly when something the candidates or the node's own tips
    reach names it as a dependency (blobs that are missing name nothing), the
    rest are real tips, and, the history being ranked, every candidate is an
    ancestor of a real tip or of a tip the node already had. *)
Theorem cloud_tips_exact (key : bytes) (load : Tip -> load_error + Effect) (D : gset Tip) (rank : Tip -> nat)
    (candidates localRoots : list Tip) :
  (forall t eff, load t = inr eff -> t ∈ D) ->
  (forall x d, d ∈ cloud_deps key load x -> (rank d < rank x)%nat) ->
  match NormalizeCloudTipCandidates key load D candidates localRoots with
  | Some (realTips, superseded) =>
      (forall t, offered key load candidates localRoots t -> load t <> inl LoadFailed)
      /\ (forall t, t ∈ superseded <-> t ∈ candidates /\ exists x, offered key load candidates localRoots x /\ t ∈ cloud_deps key load x)
      /\ (forall t, t ∈ realTips <-> t ∈ candidates /\ (t ∉ superseded))
      /\ (forall t, t ∈ candidates -> exists s, s ∈ realTips ++ localRoots /\ rtc (fun x y => y ∈ cloud_deps key load x) s t)
  | None => exists t, offered key load candidates localRoots t /\ load t = inl LoadFailed
  end.
Proof.
  intros HD Hrank. pose proof (normalize_exact key load D HD candidates localRoots) as H.
  destruct (NormalizeCloudTipCandidates key load D candidates localRoots) as [[realTips superseded]|] eqn:E; [|done].
  destruct H as (Hl & Hs & Hr). split_and!; [done| |done|by eapply normalize_covers].
  intros t. rewrite Hs. split; [naive_solver|]. intros (Ht & x & Hx & Hd). split; [done|]. exists x. split_and!; [done| |done].
  intros ->. pose proof (Hrank x x Hd). lia.
Qed.
