(* ===== verification/Subscribe.v ===== *)
(** * Subscribing to a key (effects/snapshot.go, subscribers.go, slices.go)

    Before it reads or writes a key a node announces a subscription, collects
    what the peers that hold the key advertise, and installs the tips whose
    history it can walk ([ensureSubscribedMode]).  Peers are asked in rounds;
    what each answers is in the [World].  A call that finds another one's
    subscription finds it ready: the wait for a concurrent bootstrap is left
    out. *)

From S2P Require Import Prelude Golib Proto Store Walk ForkChoice Horizon Txn Dag TipSet Safety Frontier Wire Engine Ingest IngestProps.

Inductive sub_error := ErrRegionPartitioned | ErrBootstrapIncomplete | ErrMarshal | ErrStore.

#[global] Instance sub_error_eq_dec : EqDecision sub_error.
Proof. solve_decision. Defined.

(** ** Tips, sorted and without repetition *)

Definition compare_tips (a b : Tip) : Z := if a.1 =? b.1 then cmp_Z a.2 b.2 else cmp_Z a.1 b.1.

(** [slices.Compact] *)
Fixpoint compact_list {A} `{!EqDecision A} (l : list A) : list A :=
  match l with
  | x :: ((y :: _) as l') => if decide (x = y) then compact_list l' else x :: compact_list l'
  | _ => l
  end.

Definition compactTips {sorter : SortFunc} (tips : list Tip) : list Tip := compact_list (sort_func compare_tips tips).

(** ** Subscribers on the leaf *)

Definition snapshotSubscribers (key : bytes) (e : Engine) : gmap Z bool :=
  list_to_map (map (fun id => (id, true)) (PeerSubscribers e key)).

(** Forget the subscription; a later call starts over. *)
Definition dropSubscription (key : bytes) (e : Engine) : Engine :=
  set_incomplete (g_incomplete e ∖ {[ key ]}) (set_subs (g_subs e ∖ {[ key ]}) e).

(** What the history says of the subscribers: in it, and unsubscribed. *)
Definition seed_state : Type := gset Z * gset Z.

Definition seed_effect (st : seed_state) (eff : Effect) : seed_state :=
  let '(net, tombstoned) := st in
  match e_kind eff with
  | Some (KSnapshot snap) =>
      match s_state snap with
      | Some state => (net ∪ (dom (filter (fun p => p.2 = true) (r_subscribers (red_root state))) ∖ tombstoned), tombstoned)
      | None => st
      end
  | Some (KSubscription sub) =>
      let p := sub_node_id sub in
      if sub_unsubscribe sub then (net ∖ {[ p ]}, {[ p ]} ∪ tombstoned) else ({[ p ]} ∪ net, tombstoned ∖ {[ p ]})
  | _ => st
  end.

Section Subscribe.
Context {ranger : MapRange} {sorter : SortFunc} `{!ProtoCodec Effect}.
Variable (w : World).

Definition seedSubscribersFromDag (key : bytes) (e : Engine) : Engine :=
  match tips_at e key with
  | [] => e
  | tips =>
      match prepare (obtainable w e) key tips with
      | Done d =>
          let '(net, _) := fold_left seed_effect (omap (fun t => d_nodes d !! t) (d_topoOrder d)) (∅, ∅) in
          fold_left (fun e p => addPeerSubscriber key p.1 e) (map_range 3 (gset_to_gmap tt net)) e
      | _ => e
      end
  end.

(** ** Rounds *)

(** A peer that refuses holds the key.  (tips so far, peers that answered) *)
Definition fold_reply (key : bytes) (offset : Tip) (round : nat) (st : Engine * list Tip * nat) (peer : Z) : Engine * list Tip * nat :=
  let '(e, tips, acknowledged) := st in
  match w_reply w offset round peer with
  | None => st
  | Some nacks =>
      (if nonempty nacks then addPeerSubscriber key peer e else e, tips ++ flat_map nk_tips nacks, S acknowledged)
  end.

Definition collectPeerTips (key : bytes) (offset : Tip) (round : nat) (tips : list Tip) (e : Engine) : Engine * list Tip * nat :=
  fold_left (fold_reply key offset round) (w_members w) (e, tips, 0%nat).

(** Rounds until some peer answers; in unsafe mode one, and the flag tells that
    nobody did. *)
Fixpoint bootstrap_rounds (attempts : nat) (isUnsafe : bool) (key : bytes) (offset : Tip) (round : nat) (tips : list Tip) (e : Engine)
    : Engine * list Tip * nat * bool :=
  let '(e, tips, expected) := collectPeerTips key offset round tips e in
  if (expected =? 0)%nat then
    if isUnsafe then (e, tips, S round, true)
    else match attempts with
         | O => (e, tips, S round, false)
         | S attempts => bootstrap_rounds attempts isUnsafe key offset (S round) tips e
         end
  else (e, tips, S round, false).

(** A tip whose history cannot be walked is skipped. *)
Definition reachable (key : bytes) (e : Engine) (tip : Tip) : bool :=
  match walk_dag (obtainable w e) key [] (fun (u : unit) _ => Some u) [tip] tt with Done (Some _) => true | _ => false end.

Definition walkAndInstall (key : bytes) (tips : list Tip) (e : Engine) : Engine * nat :=
  fold_left (fun '(e, installed) tip => if reachable key e tip then (updateIndex key None tip e, S installed) else (e, installed)) tips (e, 0%nat).

(** ** Subscriptions *)

Definition awaitSubscription (key : bytes) (isUnsafe : bool) (e : Engine) : option sub_error :=
  if bool_decide (key ∈ g_incomplete e) && negb isUnsafe then Some ErrBootstrapIncomplete else None.

Definition inMajorityPartition : bool := if w_broadcaster w then w_majority w else true.

Definition is_unsafe (key : bytes) : bool := bool_decide (modeForKey (w_rules w) key = UnsafeMode).

Definition subscription_effect (node : Z) (key : bytes) (hlc : Timestamp) : Effect :=
  mkEffect key (Some hlc) node [] [] (ComputeForkChoiceHash node (Some hlc)) [] (Some (KSubscription (mkSubscription node false false false))).

(** From the announcement on. *)
Definition bootstrap (allowAsync : bool) (key : bytes) (offset : Tip) (e : Engine) : Engine * option sub_error :=
  let isUnsafe := is_unsafe key in
  if negb (w_broadcaster w) then (e, None)
  else if allowAsync && (inMajorityPartition || isUnsafe) && negb (w_mayHold w key) then (emit_out [OBroadcast offset] e, None)
  else if negb (nonempty (w_members w)) then (e, None)
  else
    let '(e, tips, round, alone) := bootstrap_rounds (w_attempts w) isUnsafe key offset 0 [] e in
    if alone then (e, None)
    else if negb isUnsafe && negb (w_majority w) then (dropSubscription key e, Some ErrRegionPartitioned)
    else
      let '(e, tips, _) := collectPeerTips key offset round tips e in
      match tips with
      | [] => (e, None)
      | _ =>
          let '(e, installed) := walkAndInstall key (compactTips tips) e in
          if (installed =? 0)%nat
          then (set_incomplete ({[ key ]} ∪ g_incomplete e) e, if isUnsafe then None else Some ErrBootstrapIncomplete)
          else (seedSubscribersFromDag key e, None)
      end.

Definition ensureSubscribedMode (allowAsync : bool) (key : bytes) (e : Engine) : Engine * option sub_error :=
  if bool_decide (key ∈ g_subs e) then (e, awaitSubscription key (is_unsafe key) e)
  else
    let e := set_subs ({[ key ]} ∪ g_subs e) e in
    let '(e, hlc) := read_clock w e in
    let eff := subscription_effect (g_node e) key hlc in
    match MarshalEffect eff with
    | None => (dropSubscription key e, Some ErrMarshal)
    | Some _ =>
        let '(e, offset) := nextOffset e in
        match putIngested w offset eff e with
        | None => (dropSubscription key e, Some ErrStore)
        | Some e => bootstrap allowAsync key offset (emit_out [OLocalEffect offset] (updateIndex key None offset e))
        end
    end.

Definition ensureSubscribed (key : bytes) (e : Engine) : Engine * option sub_error := ensureSubscribedMode true key e.
Definition ensureSubscribedBlocking (key : bytes) (e : Engine) : Engine * option sub_error := ensureSubscribedMode false key e.

(** ** Reads that need not subscribe *)

Definition freeMissEligible (key : bytes) (e : Engine) : bool :=
  if bool_decide (key ∈ g_subs e) then false
  else if bool_decide (is_Some (index_tips e key)) then false
  else if w_mayHold w key then false
  else if (match w_cloud w with Some mayHold => mayHold key | None => false end) then false
  else inMajorityPartition || is_unsafe key.

Definition subscriptionOnlyTips (tips : list Tip) (e : Engine) : bool :=
  forallb (fun t => match g_cache e !! t with Some eff => match get_subscription eff with Some _ => true | None => false end | None => false end) tips.

End Subscribe.

(** ** The background retry *)

Definition maxRetries : nat := 10.

(** One attempt per world, until a tip becomes reachable; then the subscription
    is complete.  Giving up forgets it. *)
Fixpoint retry_loop {sorter : SortFunc} {ranger : MapRange} `{!ProtoCodec Effect} (ws : list World) (key : bytes) (nackTips : list Tip) (e : Engine) : Engine :=
  match ws with
  | [] => dropSubscription key e
  | w :: ws =>
      let '(e, installed) := walkAndInstall w key nackTips e in
      if (installed =? 0)%nat then retry_loop ws key nackTips e else set_incomplete (g_incomplete e ∖ {[ key ]}) e
  end.

Definition retryBootstrap {sorter : SortFunc} {ranger : MapRange} `{!ProtoCodec Effect} (ws : list World) (key : bytes) (nackTips : list Tip) (e : Engine) : Engine :=
  retry_loop (take maxRetries ws) key nackTips e.

(** * What subscribing does *)


(** ** Frames *)

(** The transactions in flight. *)
Definition in_flight (e : Engine) : gmap Tip (list Tip) * gmap Tip pendingTxn * option HorizonSet * gmap Tip (list Tip) * Z :=
  (g_pendingTips e, g_pendingTxns e, g_horizon e, g_spoken e, g_flushGen e).

(** [e'] has the tips of [e], and on [key] also some that satisfy [P]; the rest
    of what a walk or a commit reads is the same. *)
Record grown (key : bytes) (P : Tip -> Prop) (e e' : Engine) : Prop := {
  gr_cache : g_cache e' = g_cache e;
  gr_node : g_node e' = g_node e;
  gr_off : g_nextOff e' = g_nextOff e;
  gr_flight : in_flight e' = in_flight e;
  gr_others : forall k, k <> key -> frontier_of e' k = frontier_of e k;
  gr_keeps : frontier_of e key ⊆ frontier_of e' key;
  gr_new : forall t, t ∈ frontier_of e' key -> t ∈ frontier_of e key \/ P t;
}.

Lemma grown_refl key P e e' : g_index e' = g_index e -> g_cache e' = g_cache e -> g_node e' = g_node e ->
  g_nextOff e' = g_nextOff e -> in_flight e' = in_flight e -> grown key P e e'.
Proof.
  intros Hi Hc Hn Ho Hf. assert (Hfr : forall k, frontier_of e' k = frontier_of e k) by (intros k; unfold frontier_of, index_tips; by rewrite Hi).
  split; try done. 1: by rewrite Hfr. intros t. rewrite Hfr. auto.
Qed.

Lemma grown_trans key P e1 e2 e3 : grown key P e1 e2 -> grown key P e2 e3 -> grown key P e1 e3.
Proof.
  intros [A1 A2 A3 A4 A5 A6 A7] [B1 B2 B3 B4 B5 B6 B7]. split; try congruence.
  - intros k Hk. rewrite B5, A5 by done. done.
  - set_solver.
  - intros t Ht. destruct (B7 t Ht) as [Ht'|]; auto.
Qed.

Lemma grown_fold {A} key P (f : Engine -> A -> Engine) l e :
  (forall e x, x ∈ l -> grown key P e (f e x)) -> grown key P e (fold_left f l e).
Proof.
  revert e. induction l as [|x l IH]; intros e Hf; cbn [fold_left]; [by apply grown_refl|].
  eapply grown_trans; [apply Hf; constructor|]. apply IH. intros e' y Hy. apply Hf. by constructor.
Qed.

Lemma flight_update key u e : in_flight (apply_update key u e) = in_flight e /\ g_nextOff (apply_update key u e) = g_nextOff e.
Proof. unfold apply_update. by case_match. Qed.

Lemma grown_install key (P : Tip -> Prop) tip e : P tip -> grown key P e (updateIndex key None tip e).
Proof.
  intros HP. unfold updateIndex. destruct (apply_update_index key (UpdateIndex None tip) e) as (_ & H1 & _ & H3).
  destruct (flight_update key (UpdateIndex None tip) e) as [H4 H5]. split; try done.
  - intros k Hk. rewrite frontier_update, decide_False by done. done.
  - rewrite frontier_update, decide_True by done. cbn [consumed added Tips list_to_set]. set_solver.
  - intros t. rewrite frontier_update, decide_True by done. cbn [consumed added Tips list_to_set]. set_solver.
Qed.

Lemma grown_addPeer key P k p e : grown key P e (addPeerSubscriber k p e).
Proof. apply grown_refl; unfold addPeerSubscriber; by repeat case_match. Qed.

Lemma grown_weaken key (P Q : Tip -> Prop) e e' : (forall t, P t -> Q t) -> grown key P e e' -> grown key Q e e'.
Proof. intros HPQ [H1 H2 H3 H4 H5 H6 H7]. split; try done. intros t Ht. destruct (H7 t Ht); auto. Qed.

(** ** Compacting *)

Lemma compact_elem {A} `{!EqDecision A} (l : list A) x : x ∈ compact_list l <-> x ∈ l.
Proof.
  induction l as [|a [|b l] IH]; [done..|]. cbn [compact_list]. destruct (decide (a = b)) as [->|].
  - change (x ∈ compact_list (b :: l) <-> x ∈ b :: b :: l). rewrite IH. set_solver.
  - change (x ∈ a :: compact_list (b :: l) <-> x ∈ a :: b :: l). rewrite !(elem_of_cons _ _ a), IH. done.
Qed.

Lemma compactTips_elem {sorter : SortFunc} tips t : t ∈ compactTips tips <-> t ∈ tips.
Proof. unfold compactTips. by rewrite compact_elem, elem_of_sort_func. Qed.

Section Props.
Context {ranger : MapRange} {sorter : SortFunc} `{!ProtoCodec Effect}.
Variable (w : World).

Lemma obtainable_cache e e' : g_cache e = g_cache e' -> obtainable w e = obtainable w e'.
Proof. unfold obtainable. by intros ->. Qed.

Lemma reachable_cache key e e' tip : g_cache e = g_cache e' -> reachable w key e tip = reachable w key e' tip.
Proof. intros H. unfold reachable. by rewrite (obtainable_cache e e' H). Qed.

(** ** Rounds *)

(** Some peer advertised [t] when it heard of [offset]. *)
Definition advertised (offset t : Tip) : Prop :=
  exists round peer nacks nack, peer ∈ w_members w /\ w_reply w offset round peer = Some nacks /\ nack ∈ nacks /\ t ∈ nk_tips nack.

Lemma collect_ok key offset round tips e : (forall t, t ∈ tips -> advertised offset t) ->
  let r := collectPeerTips w key offset round tips e in
  grown key (fun _ => False) e r.1.1 /\ g_subs r.1.1 = g_subs e /\ g_incomplete r.1.1 = g_incomplete e
  /\ forall t, t ∈ r.1.2 -> advertised offset t.
Proof.
  intros Ht r. assert (Hmem : forall p, p ∈ w_members w -> p ∈ w_members w) by done. subst r. unfold collectPeerTips. revert Hmem.
  generalize (w_members w) at 1 3 4 5 6 as members. generalize 0%nat. intros n members. revert e tips n Ht.
  induction members as [|p members IH]; intros e tips n Ht Hmem; cbn [fold_left].
  { split_and!; [by apply grown_refl|done..]. }
  unfold fold_reply at 2 4 6 8. destruct (w_reply w offset round p) as [nacks|] eqn:Er; [|apply IH; [done|set_solver]].
  set (e1 := if nonempty nacks then addPeerSubscriber key p e else e).
  assert (H1 : grown key (fun _ => False) e e1 /\ g_subs e1 = g_subs e /\ g_incomplete e1 = g_incomplete e).
  { unfold e1. destruct (nonempty nacks); [|split_and!; [by apply grown_refl|done..]]. split; [apply grown_addPeer|].
    unfold addPeerSubscriber. by repeat case_match. }
  destruct H1 as (H1 & H2 & H3). destruct (IH e1 (tips ++ flat_map nk_tips nacks) (S n)) as (G1 & G2 & G3 & G4).
  { intros t [Hin|Hin]%elem_of_app; [auto|]. apply list_elem_of_In, in_flat_map in Hin as (nack & Hn & Hin).
    exists round, p, nacks, nack. split_and!; [apply Hmem; constructor|done|by apply list_elem_of_In..]. }
  { intros q Hq. apply Hmem. by constructor. }
  split_and!; [by eapply grown_trans|congruence..|done].
Qed.

Lemma rounds_ok attempts isUnsafe key offset round tips e : (forall t, t ∈ tips -> advertised offset t) ->
  let r := bootstrap_rounds w attempts isUnsafe key offset round tips e in
  grown key (fun _ => False) e r.1.1.1 /\ g_subs r.1.1.1 = g_subs e /\ g_incomplete r.1.1.1 = g_incomplete e
  /\ (forall t, t ∈ r.1.1.2 -> advertised offset t) /\ (r.2 = true -> isUnsafe = true).
Proof.
  revert round tips e. induction attempts as [|n IH]; intros round tips e Ht; cbn [bootstrap_rounds];
    destruct (collect_ok key offset round tips e Ht) as (H1 & H2 & H3 & H4);
    destruct (collectPeerTips w key offset round tips e) as [[e1 tips1] expected]; cbn [fst snd] in *.
  1: by destruct (expected =? 0)%nat, isUnsafe.
  destruct (expected =? 0)%nat; [|done]. destruct isUnsafe; [done|].
  destruct (IH (S round) tips1 e1 H4) as (G1 & G2 & G3 & G4 & G5).
  destruct (bootstrap_rounds w n false key offset (S round) tips1 e1) as [[[e2 tips2] round2] alone]. cbn [fst snd] in *.
  split_and!; [by eapply grown_trans|congruence..|done|done].
Qed.

(** ** Installing *)

Lemma walkAndInstall_ok key (P : Tip -> Prop) tips e : (forall t, t ∈ tips -> P t) ->
  let r := walkAndInstall w key tips e in
  grown key (fun t => P t /\ reachable w key e t = true) e r.1 /\ g_subs r.1 = g_subs e /\ g_incomplete r.1 = g_incomplete e
  /\ (forall t, t ∈ tips -> reachable w key e t = true -> t ∈ frontier_of r.1 key)
  /\ (r.2 = 0%nat <-> forall t, t ∈ tips -> reachable w key e t = false).
Proof.
  intros HP. cbv zeta. unfold walkAndInstall.
  enough (H : forall n e0, g_cache e0 = g_cache e -> let r := fold_left (fun '(e, installed) tip =>
      if reachable w key e tip then (updateIndex key None tip e, S installed) else (e, installed)) tips (e0, n) in
    grown key (fun t => P t /\ reachable w key e t = true) e0 r.1 /\ g_subs r.1 = g_subs e0 /\ g_incomplete r.1 = g_incomplete e0
    /\ (forall t, t ∈ tips -> reachable w key e t = true -> t ∈ frontier_of r.1 key)
    /\ (n <= r.2)%nat /\ (r.2 = n <-> forall t, t ∈ tips -> reachable w key e t = false)).
  { destruct (H 0%nat e eq_refl) as (H1 & H2 & H3 & H4 & H5 & H6). done. }
  induction tips as [|tip tips IH]; intros n e0 Hc; cbn [fold_left].
  { cbv zeta. cbn [fst snd]. split_and!; [by apply grown_refl|done|done|set_solver|lia|set_solver]. }
  rewrite (reachable_cache key e0 e tip Hc). destruct (reachable w key e tip) eqn:Er.
  - pose proof (grown_install key (fun t => P t /\ reachable w key e t = true) tip e0 (conj (HP tip ltac:(constructor)) Er)) as Hg.
    destruct (IH ltac:(intros t Ht; apply HP; by constructor) (S n) (updateIndex key None tip e0)) as (G1 & G2 & G3 & G4 & G5 & G6);
      [rewrite (gr_cache _ _ _ _ Hg); done|].
    assert (g_subs (updateIndex key None tip e0) = g_subs e0 /\ g_incomplete (updateIndex key None tip e0) = g_incomplete e0) as [S1 S2]
      by (unfold updateIndex, apply_update; by case_match).
    split_and!; [by eapply grown_trans|congruence..| |lia|].
    + intros t [->|Ht]%elem_of_cons Hr; [|auto]. apply (gr_keeps _ _ _ _ G1).
      unfold updateIndex. rewrite frontier_update, decide_True by done. cbn [added list_to_set]. set_solver.
    + split; [lia|]. intros Hall. specialize (Hall tip ltac:(constructor)). congruence.
  - destruct (IH ltac:(intros t Ht; apply HP; by constructor) n e0 Hc) as (G1 & G2 & G3 & G4 & G5 & G6). split_and!; try done.
    + intros t [->|Ht]%elem_of_cons Hr; [congruence|auto].
    + rewrite G6. split; [intros Hall t [->|Ht]%elem_of_cons; auto|]. intros Hall t Ht. apply Hall. by constructor.
Qed.

Lemma seed_ok key P e : grown key P e (seedSubscribersFromDag w key e)
  /\ g_subs (seedSubscribersFromDag w key e) = g_subs e /\ g_incomplete (seedSubscribersFromDag w key e) = g_incomplete e.
Proof.
  unfold seedSubscribersFromDag. destruct (tips_at e key); [split; [by apply grown_refl|done]|].
  destruct (prepare _ _ _) as [d| |]; [|split; [by apply grown_refl|done]..].
  destruct (fold_left seed_effect _ _) as [net tomb]. split; [apply grown_fold; intros; apply grown_addPeer|].
  generalize (map_range 3 (gset_to_gmap tt net)). intros ps. clear. revert e. induction ps as [|[x u] ps IH]; intros e; cbn [fold_left fst]; [done|].
  destruct (IH (addPeerSubscriber key x e)) as [-> ->]. unfold addPeerSubscriber. by repeat case_match.
Qed.

(** ** The bootstrap *)

(** What a new subscription ends with. *)
Definition subscribed_as (key : bytes) (e e' : Engine) (r : option sub_error) : Prop :=
  match r with
  | None => key ∈ g_subs e'
      /\ (is_unsafe w key = false -> w_broadcaster w = true -> w_members w <> [] -> w_majority w = true /\ (key ∉ g_incomplete e'))
  | Some ErrRegionPartitioned => (key ∉ g_subs e') /\ w_broadcaster w = true /\ is_unsafe w key = false /\ w_majority w = false
  | Some ErrBootstrapIncomplete => key ∈ g_subs e' /\ key ∈ g_incomplete e' /\ is_unsafe w key = false
  | Some _ => False
  end.

Lemma bootstrap_ok allowAsync key offset e : key ∈ g_subs e -> key ∉ g_incomplete e -> g_incomplete e ⊆ g_subs e ->
  let r := bootstrap w allowAsync key offset e in
  grown key (fun t => advertised offset t /\ reachable w key e t = true) e r.1 /\ subscribed_as key e r.1 r.2
  /\ g_incomplete r.1 ⊆ g_subs r.1.
Proof.
  intros Hs Hi Hsub. cbv zeta. unfold bootstrap, inMajorityPartition. set (Q := fun t => advertised offset t /\ reachable w key e t = true).
  destruct (w_broadcaster w) eqn:Hb; cbn [negb]; [|split_and!; [by apply grown_refl|split; [done|congruence]|done]].
  destruct (allowAsync && _ && _) eqn:Ha.
  { cbn [fst snd]. split_and!; [by apply grown_refl| |done]. split; [done|]. intros Hu _ _. split; [|done].
    rewrite Hu, orb_false_r, !andb_true_iff in Ha. tauto. }
  destruct (nonempty (w_members w)) eqn:Hm; cbn [negb];
    [|cbn [fst snd]; split_and!; [by apply grown_refl| |done]; split; [done|]; by destruct (w_members w)].
  destruct (rounds_ok (w_attempts w) (is_unsafe w key) key offset 0 [] e ltac:(by intros t ?%elem_of_nil)) as (H1 & H2 & H3 & H4 & H5).
  destruct (bootstrap_rounds _ _ _ _ _ _ _ _) as [[[e1 tips1] round] alone]. cbn [fst snd] in *.
  assert (G1 : grown key Q e e1) by (eapply grown_weaken; [|exact H1]; done).
  destruct alone.
  { cbn [fst snd]. rewrite H2, H3. split_and!; [done| |done]. unfold subscribed_as. rewrite (H5 eq_refl). by rewrite H2. }
  destruct (negb (is_unsafe w key) && negb (w_majority w)) eqn:Hmaj.
  { apply andb_true_iff in Hmaj as [Hu%negb_true_iff Hj%negb_true_iff]. cbn [fst snd].
    split_and!; [eapply grown_trans; [exact G1|by apply grown_refl]|split_and!; [|done..]; cbn; set_solver|cbn; rewrite H2, H3; set_solver]. }
  assert (Hmaj' : is_unsafe w key = false -> w_majority w = true)
    by (intros Hu; rewrite Hu in Hmaj; by destruct (w_majority w)).
  destruct (collect_ok key offset round tips1 e1 H4) as (C1 & C2 & C3 & C4).
  destruct (collectPeerTips w key offset round tips1 e1) as [[e2 tips2] acks]. cbn [fst snd] in *.
  assert (G2 : grown key Q e e2) by (eapply grown_trans; [exact G1|eapply grown_weaken; [|exact C1]; done]).
  rewrite H2 in C2. rewrite H3 in C3.
  destruct tips2 as [|t0 tips2]; [cbn [fst snd subscribed_as]; rewrite C2, C3; split_and!; auto|].
  assert (Hadv : forall t, t ∈ compactTips (t0 :: tips2) -> advertised offset t) by (intros t Ht; by apply C4, compactTips_elem).
  destruct (walkAndInstall_ok key (advertised offset) (compactTips (t0 :: tips2)) e2 Hadv) as (W1 & W2 & W3 & _ & W5).
  destruct (walkAndInstall w key (compactTips (t0 :: tips2)) e2) as [e3 installed]. cbn [fst snd] in *.
  assert (G3 : grown key Q e e3).
  { eapply grown_trans; [exact G2|]. eapply grown_weaken; [|exact W1]. intros t [? Hr]. split; [done|].
    rewrite <- (reachable_cache key e2 e t); [done|]. apply G2. }
  rewrite C2 in W2. rewrite C3 in W3.
  destruct (installed =? 0)%nat; cbn [fst snd].
  - split_and!; [eapply grown_trans; [exact G3|by apply grown_refl]| |cbn; rewrite W2, W3; set_solver].
    destruct (is_unsafe w key) eqn:Hu; cbn; rewrite W2; [|split_and!; [done|set_solver|done]]. split; [done|]. congruence.
  - destruct (seed_ok key Q e3) as (S1 & S2 & S3). rewrite S2, S3, W2, W3. split_and!; [by eapply grown_trans| |done].
    unfold subscribed_as. rewrite S2, S3, W2, W3. auto.
Qed.

(** The node's own announcement of a key. *)
Definition announcement (key : bytes) (e : Engine) : Effect := subscription_effect (g_node e) key (w_clock w (g_ticks e)).

Definition next_tip (e : Engine) : Tip := (g_node e, wrapu64 (g_nextOff e + 1)).

(** Everything a fresh subscription changes. *)
Definition announced (key : bytes) (e e' : Engine) : Prop :=
  g_cache e' = <[next_tip e := announcement key e]> (g_cache e)
  /\ in_flight e' = in_flight e /\ g_node e' = g_node e
  /\ (forall k, k <> key -> frontier_of e' k = frontier_of e k)
  /\ frontier_of e key ⊆ frontier_of e' key /\ next_tip e ∈ frontier_of e' key
  /\ (forall t, t ∈ frontier_of e' key -> t ∈ frontier_of e key \/ t = next_tip e \/ (advertised (next_tip e) t /\ reachable w key e' t = true)).

Lemma ensureSubscribed_ok allowAsync key e : g_incomplete e ⊆ g_subs e ->
  let r := ensureSubscribedMode w allowAsync key e in
  g_incomplete r.1 ⊆ g_subs r.1 /\
  if decide (key ∈ g_subs e) then r = (e, if decide (key ∈ g_incomplete e /\ is_unsafe w key = false) then Some ErrBootstrapIncomplete else None)
  else match r.2 with
       | Some ErrMarshal | Some ErrStore => (key ∉ g_subs r.1) /\ g_index r.1 = g_index e /\ g_cache r.1 = g_cache e /\ in_flight r.1 = in_flight e
       | _ => announced key e r.1 /\ subscribed_as key e r.1 r.2
       end.
Proof.
  intros Hsub. cbv zeta. unfold ensureSubscribedMode, awaitSubscription. case_decide as Hk.
  { rewrite bool_decide_eq_true_2 by done. cbn [fst snd]. split; [done|]. f_equal.
    destruct (is_unsafe w key); repeat case_bool_decide; repeat case_decide; try done; try tauto; destruct_and?; done. }
  rewrite bool_decide_eq_false_2 by done. cbn [read_clock].
  destruct (MarshalEffect _) as [data|] eqn:Em; [|cbn; split; [set_solver|]; split_and!; [set_solver|done..]].
  cbn [nextOffset]. unfold putIngested. destruct (w_accepts w _) eqn:Ea; [|cbn; split; [set_solver|]; split_and!; [set_solver|done..]].
  cbn -[updateIndex bootstrap frontier_of subscription_effect ComputeForkChoiceHash]. fold (next_tip e). fold (announcement key e).
  set (e0 := set_cache _ _). set (e1 := updateIndex key None (next_tip e) e0). set (e2 := emit_out [OLocalEffect (next_tip e)] e1).
  assert (Hs2 : g_subs e2 = {[ key ]} ∪ g_subs e) by (unfold e2, e1, updateIndex, apply_update; by case_match).
  assert (Hi2 : g_incomplete e2 = g_incomplete e) by (unfold e2, e1, updateIndex, apply_update; by case_match).
  destruct (bootstrap_ok allowAsync key (next_tip e) e2) as (B1 & B2 & B3); [rewrite ?Hs2, ?Hi2; set_solver..|].
  assert (Hg : grown key (eq (next_tip e)) e0 e2).
  { eapply grown_trans; [apply (grown_install key (eq (next_tip e)) (next_tip e)); done|by apply grown_refl]. }
  split; [done|]. assert (announced key e (bootstrap w allowAsync key (next_tip e) e2).1 /\ subscribed_as key e (bootstrap w allowAsync key (next_tip e) e2).1 (bootstrap w allowAsync key (next_tip e) e2).2) as [H1 H2].
  2:{ destruct (bootstrap w allowAsync key (next_tip e) e2) as [e' [[]|]]; cbn in *; done. }
  split; [|done]. destruct (bootstrap w allowAsync key (next_tip e) e2) as [e' r]. cbn [fst snd] in *.
  destruct Hg as [A1 A2 A3 A4 A5 A6 A7], B1 as [D1 D2 D3 D4 D5 D6 D7]. unfold announced. split_and!.
  - rewrite D1, A1. done.
  - rewrite D4, A4. done.
  - rewrite D2, A2. done.
  - intros k Hne. rewrite D5, A5 by done. done.
  - etrans; [|exact D6]. exact A6.
  - apply D6. unfold e2, e1. change (next_tip e ∈ frontier_of (updateIndex key None (next_tip e) e0) key).
    unfold updateIndex. rewrite frontier_update, decide_True by done. cbn [added list_to_set]. set_solver.
  - intros t Ht. destruct (D7 t Ht) as [Ht'|[Hadv Hr]].
    + destruct (A7 t Ht') as [|<-]; auto.
    + right. right. split; [done|]. rewrite (reachable_cache key e' e2 t); done.
Qed.

(** [C25] Subscribing, on every branch.  A key already subscribed changes nothing,
    and fails only if its bootstrap is known to be incomplete and the key is in
    safe mode.  Otherwise the announcement is either refused (it could not be
    marshalled or stored) and leaves no subscription, or it becomes resident and
    a tip of the key; the tips the key had are kept, and every other new tip was
    advertised by a member and has a history the node can walk to its end; no
    other key and no transaction in flight is touched.  In safe mode, with peers,
    it succeeds only in the majority and complete; outside the majority it is
    withdrawn. *)
Theorem subscription_exact (allowAsync : bool) (key : bytes) (e : Engine) : g_incomplete e ⊆ g_subs e ->
  let r := ensureSubscribedMode w allowAsync key e in
  g_incomplete r.1 ⊆ g_subs r.1 /\
  if decide (key ∈ g_subs e) then r = (e, if decide (key ∈ g_incomplete e /\ is_unsafe w key = false) then Some ErrBootstrapIncomplete else None)
  else match r.2 with
       | Some ErrMarshal | Some ErrStore => (key ∉ g_subs r.1) /\ g_index r.1 = g_index e /\ g_cache r.1 = g_cache e /\ in_flight r.1 = in_flight e
       | _ => announced key e r.1 /\ subscribed_as key e r.1 r.2
       end.
Proof. apply ensureSubscribed_ok. Qed.

End Props.
