(* ===== verification/Context.v ===== *)
(** * Contexts: emitting effects and flushing them (effects/context.go)

    A [Context] collects the effects of one command or transaction.  [Emit]
    mints an effect at once, chained to the previous one on its key, but the
    index learns of it only at [Flush]; a savepoint remembers what was pending,
    [Abort] forgets it.

    Reading as of the start of a transaction is another component's job: a
    [TxnSnapshots] says which tips a key had then, or fails.

    A notification is known by the effect it announces.  Go's [notifies] also
    grow (with nil entries) when there is no broadcaster, which is what [Emit]
    counts.  Tracing, logging and backpressure are left out.  [Flush] and the
    watches are with the commit protocol. *)

From S2P Require Import Prelude Golib Proto Reduce Compress Store Walk Dag ForkChoice Predicate TipSet Frontier Horizon Txn Wire Safety Engine Ingest Subscribe Compete.

Inductive ctx_error :=
  | SubscribeFailed (err : sub_error) | ReadFailed | EmitFailed | FlushFailed
  | TxnPartitioned | TxnAborted | TxnAmbiguous.

#[global] Instance ctx_error_eq_dec : EqDecision ctx_error.
Proof. solve_decision. Defined.

(** ** State *)

Record subOp := mkSubOp { so_peer : Z; so_unsubscribe : bool }.

Record contextKey := mkKey {
  ck_initialTips : option TipSet;
  ck_lastOffset : Tip;
  ck_notifies : list Tip;
  ck_readOnly : bool;
  ck_watched : bool;
  ck_collection : CollectionKind;
  ck_elementIDs : list bytes;
  ck_hasData : bool;
  ck_notifyData : bool;
  ck_notifyDelete : bool;
  ck_subOps : list subOp;
}.

Record watchedKeyState := mkWatched {
  ws_noopOffset : Tip;
  ws_tips : option TipSet;
  ws_hadData : bool;
  ws_flushGen : Z;
}.

(** What transactions need of the component that reads the past. *)
Class TxnSnapshots := {
  tx_snapshot : Type;
  newTransactionSnapshot : World -> Engine -> tx_snapshot;
  (** the tips of a key in it ([None]: none); [None] outside when the read
      fails.  Looking may subscribe to the key. *)
  snapshot_tips : World -> tx_snapshot -> bytes -> Engine -> Engine * tx_snapshot * option (option TipSet);
  snapshot_tips_cache : forall w s key e, g_cache e ⊆ g_cache (snapshot_tips w s key e).1.1;
  snapshot_tips_node : forall w s key e, g_node (snapshot_tips w s key e).1.1 = g_node e;
  snapshot_tips_index : forall w s key e k t, t ∈ tips_at e k -> t ∈ tips_at (snapshot_tips w s key e).1.1 k;
}.

Section Context.
Context {snaps : TxnSnapshots}.

Record Context := mkContext {
  c_inTx : bool;
  c_txnID : bytes;
  c_keys : gmap bytes contextKey;
  c_watchedKeys : gmap bytes watchedKeyState;
  c_txSnapshot : option tx_snapshot;
  c_readErr : option ctx_error;
}.

Definition NewContext : Context := mkContext false [] ∅ ∅ None None.

Definition set_keys (keys : gmap bytes contextKey) (c : Context) : Context :=
  mkContext (c_inTx c) (c_txnID c) keys (c_watchedKeys c) (c_txSnapshot c) (c_readErr c).

Definition set_watched (ws : gmap bytes watchedKeyState) (c : Context) : Context :=
  mkContext (c_inTx c) (c_txnID c) (c_keys c) ws (c_txSnapshot c) (c_readErr c).

Definition set_snapshot (s : option tx_snapshot) (c : Context) : Context :=
  mkContext (c_inTx c) (c_txnID c) (c_keys c) (c_watchedKeys c) s (c_readErr c).

Definition set_readErr (err : option ctx_error) (c : Context) : Context :=
  mkContext (c_inTx c) (c_txnID c) (c_keys c) (c_watchedKeys c) (c_txSnapshot c) err.

Definition set_txnID (txn : bytes) (c : Context) : Context :=
  mkContext (c_inTx c) txn (c_keys c) (c_watchedKeys c) (c_txSnapshot c) (c_readErr c).

Definition reset (c : Context) : Context := mkContext false [] ∅ (c_watchedKeys c) None None.

Definition Abort (c : Context) : Context := set_watched ∅ (reset c).

Definition PendingKeys {ranger : MapRange} (c : Context) : list bytes := (map_range 4 (c_keys c)).*1.

(** ** Savepoints *)

Record ContextSavepoint := mkSavepoint { sp_keys : gmap bytes contextKey; sp_readErr : option ctx_error }.

(** The clone shares nothing that is written to later, and values here are
    never written to: a copy is the value itself. *)
Definition cloneContextKeys (keys : gmap bytes contextKey) : gmap bytes contextKey := keys.

Definition TakeSavepoint (c : Context) : ContextSavepoint := mkSavepoint (cloneContextKeys (c_keys c)) (c_readErr c).

Definition RestoreSavepoint (sp : option ContextSavepoint) (c : Context) : Context :=
  match sp with
  | None => c
  | Some sp => set_readErr (sp_readErr sp) (set_keys (cloneContextKeys (sp_keys sp)) c)
  end.

(** ** Transaction ids *)

(** Decimal digits, least significant first; 20 are enough for 64 bits. *)
Fixpoint digits (fuel : nat) (z : Z) : bytes :=
  match fuel with
  | O => []
  | S fuel => z2b (48 + z mod 10) :: if z <? 10 then [] else digits fuel (z / 10)
  end.

(** [%d] *)
Definition format_dec (z : Z) : bytes := if z <? 0 then x2d :: rev (digits 20 (- z)) else rev (digits 20 z).

(** "node:nanoseconds:sequence" *)
Definition generateTxnID (w : World) (e : Engine) : Engine * bytes :=
  let seq := wrapu64 (g_txnSeq e + 1) in
  let '(e, now) := read_clock w e in
  (set_ticks (g_ticks e) seq e,
   format_dec (g_node e) ++ [x3a] ++ format_dec (wrap64 (ts_seconds now * 1000000000 + ts_nanos now)) ++ [x3a] ++ format_dec seq).

(** ** Transactions and watches *)

Definition BeginTx (w : World) (c : Context) (e : Engine) : Context * Engine :=
  if c_inTx c then (c, e)
  else
    let '(txn, e) := match c_txnID c with [] => let '(e, txn) := generateTxnID w e in (txn, e) | txn => (txn, e) end in
    let snap := match c_txSnapshot c with Some s => s | None => newTransactionSnapshot w e end in
    (mkContext true txn (c_keys c) (c_watchedKeys c) (Some snap) (c_readErr c), e).

Definition ClearWatches (c : Context) : Context :=
  mkContext (c_inTx c) (if c_inTx c then c_txnID c else []) (c_keys c) ∅ (c_txSnapshot c) (c_readErr c).

(** ** Emitting *)

Section Ops.
Context {ranger : MapRange} {sorter : SortFunc} `{!ProtoCodec Effect} {codec : Codec} {encoder : Encoder}.
Variable (w : World).

Definition rawEmit (eff : Effect) (e : Engine) : Engine * option Tip :=
  let '(e, offset) := nextOffset e in
  if w_broadcaster w && negb (bool_decide (is_Some (MarshalEffect eff))) then (e, None)
  else match putIngested w offset eff e with
       | None => (e, None)
       | Some e => (emit_out [OLocalEffect offset] e, Some offset)
       end.

(** Resident effects that are subscriptions: metadata, never a conflict. *)
Definition is_subscription_tip (e : Engine) (t : Tip) : bool :=
  match g_cache e !! t with Some eff => match get_subscription eff with Some _ => true | None => false end | None => false end.

(** The tips the first effect on a key starts from. *)
Definition initial_tips (key : bytes) (snapshotTips : option (list Tip)) (c : Context) (e : Engine)
    : Engine * Context * option (option TipSet) :=
  match snapshotTips, c_txSnapshot c with
  | Some tips, _ => (e, c, Some (Some (NewTipSet 0 tips)))
  | None, Some s =>
      let '(e, s, r) := snapshot_tips w s key e in
      match r with
      | Some tips => (e, set_snapshot (Some s) c, Some tips)
      | None => (e, set_readErr (Some ReadFailed) (set_snapshot (Some s) c), None)
      end
  | None, None => (e, c, Some (index_tips e key))
  end.

(** In a transaction the subscriptions made since are consumed as well. *)
Definition with_subscriptions (key : bytes) (tips : option TipSet) (e : Engine) : option TipSet :=
  match Tips tips ++ List.filter (is_subscription_tip e) (tips_at e key) with
  | [] => tips
  | deps => Some (NewTipSet 0 deps)
  end.

Definition fresh_key (inTx : bool) (tips : option TipSet) : contextKey :=
  mkKey tips zero_tip [] inTx false SCALAR [] false false false [].

(** What the effect means for blocked clients. *)
Definition track_notify (eff : Effect) (ck : contextKey) : contextKey :=
  let with_intent data delete := mkKey (ck_initialTips ck) (ck_lastOffset ck) (ck_notifies ck) (ck_readOnly ck) (ck_watched ck)
    (ck_collection ck) (ck_elementIDs ck) (ck_hasData ck) data delete (ck_subOps ck) in
  match get_data eff with
  | None => ck
  | Some d =>
      match d_op d with
      | UNKNOWN_OP => ck
      | INSERT_OP => with_intent true false
      | REMOVE_OP =>
          if negb (nonempty (d_id d)) then with_intent false true
          else if coll_is (d_collection d) ORDERED || coll_is (d_collection d) KEYED then with_intent true (ck_notifyDelete ck)
          else ck
      end
  end.

Definition track_txn (eff : Effect) (ck : contextKey) : contextKey :=
  match e_kind eff with
  | Some (KData d) =>
      mkKey (ck_initialTips ck) (ck_lastOffset ck) (ck_notifies ck) false (ck_watched ck) (d_collection d)
        (if nonempty (d_id d) then ck_elementIDs ck ++ [d_id d] else ck_elementIDs ck) true (ck_notifyData ck) (ck_notifyDelete ck) (ck_subOps ck)
  | Some (KRowWrite _) =>
      mkKey (ck_initialTips ck) (ck_lastOffset ck) (ck_notifies ck) false (ck_watched ck) (ck_collection ck) (ck_elementIDs ck)
        (ck_hasData ck) (ck_notifyData ck) (ck_notifyDelete ck) (ck_subOps ck)
  | _ => ck
  end.

Definition track (inTx : bool) (eff : Effect) (ck : contextKey) : contextKey :=
  let ck := track_notify eff ck in if inTx then track_txn eff ck else ck.

(** The minted effect becomes the last one of its key. *)
Definition record_emit (offset : Tip) (eff : Effect) (ck : contextKey) : contextKey :=
  let ops := match get_subscription eff with
             | Some sub => if sub_ephemeral sub then [] else [mkSubOp (sub_node_id sub) (sub_unsubscribe sub)]
             | None => []
             end in
  mkKey (ck_initialTips ck) offset (ck_notifies ck ++ [offset]) (ck_readOnly ck) (ck_watched ck) (ck_collection ck) (ck_elementIDs ck)
    (ck_hasData ck) (ck_notifyData ck) (ck_notifyDelete ck) (ck_subOps ck ++ ops).

(** The effect with its causality filled in. *)
Definition stamped (c : Context) (eff : Effect) (hlc : Timestamp) (node : Z) (deps : list Tip) : Effect :=
  mkEffect (e_key eff) (Some hlc) node deps (if c_inTx c then c_txnID c else e_txn_id eff) (ComputeForkChoiceHash node (Some hlc))
    (e_virtual eff) (e_kind eff).

(** From the entry of the key and its dependencies on. *)
Definition emit_with (ck : contextKey) (eff : Effect) (c : Context) (e : Engine) : Context * Engine * option ctx_error :=
  let ck := track (c_inTx c) eff ck in
  let eff := if w_compress w then CompressEffectValues eff else eff in
  match rawEmit eff e with
  | (e, None) =>
      (set_keys (match ck_notifies ck with [] => delete (e_key eff) (c_keys c) | _ => <[e_key eff := ck]> (c_keys c) end) c, e, Some EmitFailed)
  | (e, Some offset) => (set_keys (<[e_key eff := record_emit offset eff ck]> (c_keys c)) c, e, None)
  end.

(** [snapshotTips]: [None] when not given, or nil. *)
Definition Emit (eff : Effect) (snapshotTips : option (list Tip)) (c : Context) (e : Engine) : Context * Engine * option ctx_error :=
  match c_readErr c with
  | Some err => (c, e, Some err)
  | None =>
      let key := e_key eff in
      match ensureSubscribedMode w (negb (c_inTx c)) key e with
      | (e, Some err) => (c, e, Some (SubscribeFailed err))
      | (e, None) =>
          let '(e, hlc) := read_clock w e in
          match c_keys c !! key with
          | Some ck => emit_with ck (stamped c eff hlc (g_node e) [ck_lastOffset ck]) c e
          | None =>
              match initial_tips key snapshotTips c e with
              | (e, c, None) => (c, e, Some ReadFailed)
              | (e, c, Some tips) =>
                  let tips := if c_inTx c then with_subscriptions key tips e else tips in
                  emit_with (fresh_key (c_inTx c) tips) (stamped c eff hlc (g_node e) (resolveTipDeps (Tips tips) e)) c e
              end
          end
      end
  end.

(** ** Flushing outside transactions *)

Definition applySubOps (key : bytes) (ck : contextKey) (e : Engine) : Engine :=
  fold_left (fun e op => if so_unsubscribe op then removePeerSubscriber key (so_peer op) e else addPeerSubscriber key (so_peer op) e) (ck_subOps ck) e.

Definition broadcasts (ck : contextKey) : list output := if w_broadcaster w then map OBroadcast (ck_notifies ck) else [].

(** In safe mode the last effect waits for a peer, unless nobody else holds the
    key. *)
Definition flush_sends (key : bytes) (ck : contextKey) : list output :=
  if w_broadcaster w then
    if negb (is_unsafe w key) && negb (inMajorityPartition w && negb (w_mayHold w key))
    then match rev (ck_notifies ck) with
         | [] => []
         | last :: before => map OBroadcast (rev before) ++ [OReplicate last]
         end
    else map OBroadcast (ck_notifies ck)
  else [].

Definition flush_callbacks (key : bytes) (ck : contextKey) : list output :=
  (if ck_notifyData ck then OOwnFilterAdd key :: if w_callbacks w then [OKeyDataAdded key] else [] else [])
  ++ (if ck_notifyDelete ck && w_callbacks w then [OKeyDeleted key] else []).

(** One key. [None]: the index could not be wiped. *)
Definition flush_key (key : bytes) (ck : contextKey) (e : Engine) : option Engine :=
  if bool_decide (key = FlushKey) then
    e ← FlushIndex w e;
    Some (emit_out (broadcasts ck ++ if w_callbacks w then [OFlushAll] else []) e)
  else
    Some (emit_out (flush_sends key ck ++ flush_callbacks key ck) (applySubOps key ck (updateIndex key (ck_initialTips ck) (ck_lastOffset ck) e))).

Fixpoint flush_keys (l : list (bytes * contextKey)) (c : Context) (e : Engine) : Context * Engine * option ctx_error :=
  match l with
  | [] => (c, e, None)
  | (key, ck) :: l =>
      match flush_key key ck e with
      | None => (c, e, Some FlushFailed)
      | Some e => flush_keys l (set_keys (delete key (c_keys c)) c) e
      end
  end.

Definition flushNonTx (c : Context) (e : Engine) : Context * Engine * option ctx_error := flush_keys (map_range 5 (c_keys c)) c e.

End Ops.
End Context.
