(* ===== verification/ContextProps.v ===== *)
(** * What emitting and flushing do *)

From S2P Require Import Prelude Golib Proto Reduce Compress Store Walk Dag ForkChoice Predicate TipSet Frontier Horizon Txn Wire Safety Engine Ingest IngestProps Subscribe Compete Context.

Section Props.
Context {snaps : TxnSnapshots} {ranger : MapRange} {sorter : SortFunc} `{!ProtoCodec Effect} {codec : Codec} {encoder : Encoder}.
Variable (w : World).

(** ** Emitting *)

(** Where the first effect of a key starts, when no history has to be read. *)
Definition starting_tips (key : bytes) (snapshotTips : option (list Tip)) (c : Context) (e : Engine) : option TipSet :=
  let tips := match snapshotTips with Some tips => Some (NewTipSet 0 tips) | None => index_tips e key end in
  if c_inTx c then with_subscriptions key tips e else tips.

(** What the next effect on the key depends on. *)
Definition next_deps (key : bytes) (snapshotTips : option (list Tip)) (c : Context) (e : Engine) : list Tip :=
  match c_keys c !! key with Some ck => [ck_lastOffset ck] | None => resolveTipDeps (Tips (starting_tips key snapshotTips c e)) e end.

(** Ready for an effect without asking anybody: no read failed, the key is
    subscribed, and its tips are known. *)
Definition ready (key : bytes) (snapshotTips : option (list Tip)) (c : Context) (e : Engine) : Prop :=
  c_readErr c = None /\ key ∈ g_subs e /\ (key ∉ g_incomplete e)
  /\ (c_txSnapshot c = None \/ is_Some snapshotTips \/ is_Some (c_keys c !! key)).

(** The effect as it is minted. *)
Definition minted_of (eff : Effect) (snapshotTips : option (list Tip)) (c : Context) (e : Engine) : Effect :=
  let eff := stamped c eff (w_clock w (g_ticks e)) (g_node e) (next_deps (e_key eff) snapshotTips c e) in
  if w_compress w then CompressEffectValues eff else eff.

Lemma compress_fields eff :
  e_key (CompressEffectValues eff) = e_key eff /\ e_deps (CompressEffectValues eff) = e_deps eff
  /\ e_txn_id (CompressEffectValues eff) = e_txn_id eff /\ e_node_id (CompressEffectValues eff) = e_node_id eff
  /\ e_hlc (CompressEffectValues eff) = e_hlc eff /\ e_fork_choice_hash (CompressEffectValues eff) = e_fork_choice_hash eff.
Proof. unfold CompressEffectValues. destruct (e_kind eff) as [[]|]; try done. by destruct (s_state s). Qed.

Lemma minted_fields eff st c e :
  let m := minted_of eff st c e in
  e_key m = e_key eff /\ e_deps m = next_deps (e_key eff) st c e /\ e_txn_id m = (if c_inTx c then c_txnID c else e_txn_id eff)
  /\ e_node_id m = g_node e /\ e_hlc m = Some (w_clock w (g_ticks e)) /\ hash_valid m = true.
Proof.
  cbv zeta. unfold minted_of, hash_valid.
  set (s := stamped _ _ _ _ _). destruct (compress_fields s) as (H1 & H2 & H3 & H4 & H5 & H6).
  destruct (w_compress w); rewrite ?H1, ?H2, ?H3, ?H4, ?H5, ?H6; (split_and!; [reflexivity..|]);
    apply bool_decide_eq_true; reflexivity.
Qed.

(** The engine after a mint: a resident effect nobody has indexed. *)
Definition minted (eff : Effect) (e e' : Engine) : Prop :=
  g_cache e' = <[next_tip e := eff]> (g_cache e) /\ g_index e' = g_index e /\ g_subs e' = g_subs e /\ g_incomplete e' = g_incomplete e
  /\ g_node e' = g_node e /\ g_nextOff e' = wrapu64 (g_nextOff e + 1) /\ in_flight e' = in_flight e.

(** One effect on a ready key: refused, or minted and last of its key. *)
Lemma emit_ready eff st c e : ready (e_key eff) st c e ->
  let key := e_key eff in
  exists e', (Emit w eff st c e).1.2 = e' /\ g_index e' = g_index e /\ in_flight e' = in_flight e /\ g_subs e' = g_subs e
    /\ g_incomplete e' = g_incomplete e /\ g_node e' = g_node e
  /\ match Emit w eff st c e with
     | (c', _, None) => minted (minted_of eff st c e) e e'
         /\ exists ck, c' = set_keys (<[key := ck]> (c_keys c)) c /\ ck_lastOffset ck = next_tip e
            /\ ck_notifies ck = match c_keys c !! key with Some ck0 => ck_notifies ck0 | None => [] end ++ [next_tip e]
            /\ ck_initialTips ck = match c_keys c !! key with Some ck0 => ck_initialTips ck0 | None => starting_tips key st c e end
     | (c', _, Some err) => err = EmitFailed /\ g_cache e' = g_cache e
         /\ exists keys', c' = set_keys keys' c /\ delete key keys' = delete key (c_keys c)
     end.
Proof.
  intros (Hr & Hs & Hi & Hsnap). cbv zeta. unfold Emit. rewrite Hr. unfold ensureSubscribedMode, awaitSubscription.
  rewrite bool_decide_eq_true_2 by done. rewrite (bool_decide_eq_false_2 (e_key eff ∈ g_incomplete e)) by done. cbn [andb read_clock].
  set (e1 := set_ticks (g_ticks e + 1) (g_txnSeq e) e). fold (w_clock w (g_ticks e)).
  assert (Hgo : forall ck, ck_initialTips ck = match c_keys c !! e_key eff with Some ck0 => ck_initialTips ck0 | None => starting_tips (e_key eff) st c e end ->
    ck_notifies ck = match c_keys c !! e_key eff with Some ck0 => ck_notifies ck0 | None => [] end ->
    exists e', (emit_with w ck (stamped c eff (w_clock w (g_ticks e)) (g_node e1) (next_deps (e_key eff) st c e)) c e1).1.2 = e'
      /\ g_index e' = g_index e /\ in_flight e' = in_flight e /\ g_subs e' = g_subs e /\ g_incomplete e' = g_incomplete e /\ g_node e' = g_node e
      /\ match emit_with w ck (stamped c eff (w_clock w (g_ticks e)) (g_node e1) (next_deps (e_key eff) st c e)) c e1 with
         | (c', _, None) => minted (minted_of eff st c e) e e'
             /\ exists ck1, c' = set_keys (<[e_key eff := ck1]> (c_keys c)) c /\ ck_lastOffset ck1 = next_tip e
                /\ ck_notifies ck1 = match c_keys c !! e_key eff with Some ck0 => ck_notifies ck0 | None => [] end ++ [next_tip e]
                /\ ck_initialTips ck1 = match c_keys c !! e_key eff with Some ck0 => ck_initialTips ck0 | None => starting_tips (e_key eff) st c e end
         | (c', _, Some err) => err = EmitFailed /\ g_cache e' = g_cache e
             /\ exists keys', c' = set_keys keys' c /\ delete (e_key eff) keys' = delete (e_key eff) (c_keys c)
         end).
  { intros ck Ht Hn. unfold emit_with. change (if w_compress w then _ else _) with (minted_of eff st c e).
    destruct (minted_fields eff st c e) as (Hkey & _). rewrite Hkey.
    set (ck1 := track _ _ ck).
    assert (Htr : ck_initialTips ck1 = ck_initialTips ck /\ ck_notifies ck1 = ck_notifies ck).
    { unfold ck1, track, track_txn, track_notify. repeat case_match; done. }
    destruct Htr as [Ht1 Hn1]. unfold rawEmit, putIngested. cbn [nextOffset].
    destruct (w_broadcaster w && _); [|destruct (w_accepts w _)].
    3: { eexists. split; [done|]. split_and!; try done. eexists. split; [done|]. rewrite Hn1. destruct (ck_notifies ck); [apply delete_delete_eq|apply delete_insert_eq]. }
    1: { eexists. split; [done|]. split_and!; try done. eexists. split; [done|]. rewrite Hn1. destruct (ck_notifies ck); [apply delete_delete_eq|apply delete_insert_eq]. }
    eexists. split; [done|]. split_and!; try done. eexists. split; [done|]. cbn. rewrite Ht1, Hn1, Ht, Hn. done. }
  change (g_node e1) with (g_node e) in *. unfold next_deps in *. destruct (c_keys c !! e_key eff) as [ck|] eqn:Ek.
  - apply (Hgo ck); done.
  - unfold initial_tips.
    destruct st as [tips|]; [|destruct (c_txSnapshot c) eqn:Es; [exfalso; destruct Hsnap as [|[[]|[]]]; congruence|]].
    all: unfold starting_tips in *; cbv zeta in *; apply Hgo; done.
Qed.

(** ** Several effects *)

(** One after the other, up to the first failure. *)
Fixpoint emit_all (l : list (Effect * option (list Tip))) (c : Context) (e : Engine) : Context * Engine * option ctx_error :=
  match l with
  | [] => (c, e, None)
  | (eff, st) :: l => match Emit w eff st c e with (c, e, None) => emit_all l c e | r => r end
  end.

(** The reference of the [i]th effect. *)
Definition nth_tip (e : Engine) (i : nat) : Tip := (g_node e, g_nextOff e + 1 + Z.of_nat i).

Definition key_at (l : list (Effect * option (list Tip))) (i : nat) : option bytes := (fun p => e_key p.1) <$> l !! i.

Definition notifies_of (c : Context) (key : bytes) : list Tip := match c_keys c !! key with Some ck => ck_notifies ck | None => [] end.

(** The references minted on a key, in order. *)
Fixpoint tips_on (key : bytes) (l : list (Effect * option (list Tip))) (node n : Z) : list Tip :=
  match l with
  | [] => []
  | (eff, _) :: l => (if decide (e_key eff = key) then [(node, n + 1)] else []) ++ tips_on key l node (n + 1)
  end.

(** No key has a tip this node has yet to mint. *)
Definition unminted (e : Engine) : Prop := forall key n, (g_node e, n) ∈ tips_at e key -> n <= g_nextOff e.

Lemma starting_tips_minted key st c ck0 k0 eff e e' :
  minted eff e e' -> unminted e -> 0 <= g_nextOff e -> g_nextOff e + 1 < 2 ^ 64 ->
  starting_tips key st (set_keys (<[k0 := ck0]> (c_keys c)) c) e' = starting_tips key st c e.
Proof.
  intros (Hc & Hi & _ & _ & _ & _ & _) Hu H0 Hb. unfold starting_tips, index_tips. rewrite Hi. cbn [c_inTx set_keys].
  destruct (c_inTx c); [|done]. set (tips := match st with Some _ => _ | None => _ end). unfold with_subscriptions, tips_at, index_tips. rewrite Hi.
  assert (List.filter (is_subscription_tip e') (Tips (g_index e !! key)) = List.filter (is_subscription_tip e) (Tips (g_index e !! key))) as ->; [|done].
  apply filter_ext_in. intros t Ht%list_elem_of_In. unfold is_subscription_tip. rewrite Hc, lookup_insert_ne; [done|].
  intros <-. apply Hu in Ht. unfold wrapu64 in Ht. rewrite Z.mod_small in Ht by lia. lia.
Qed.

Lemma ready_minted key st c ck0 k0 eff e e' :
  minted eff e e' -> ready key st c e -> ready key st (set_keys (<[k0 := ck0]> (c_keys c)) c) e'.
Proof.
  intros (_ & _ & Hs & Hi & _) (H1 & H2 & H3 & H4). unfold ready. rewrite Hs, Hi. cbn. split_and!; try done.
  destruct H4 as [|[|H4]]; auto. right. right. destruct (decide (key = k0)) as [->|]; [rewrite lookup_insert_eq; eauto|by rewrite lookup_insert_ne].
Qed.

Lemma emit_all_ok l : forall c e c' e', emit_all l c e = (c', e', None) -> (forall eff st, (eff, st) ∈ l -> ready (e_key eff) st c e) ->
  unminted e -> 0 <= g_nextOff e -> g_nextOff e + Z.of_nat (length l) < 2 ^ 64 ->
  g_index e' = g_index e /\ in_flight e' = in_flight e /\ g_node e' = g_node e
  /\ (forall n, n <= g_nextOff e -> g_cache e' !! (g_node e, n) = g_cache e !! (g_node e, n))
  /\ (forall i eff st, l !! i = Some (eff, st) -> exists m, g_cache e' !! nth_tip e i = Some m /\ e_key m = e_key eff /\ hash_valid m = true
       /\ (forall j, (j < i)%nat -> key_at l j = Some (e_key eff) -> (forall k, (j < k < i)%nat -> key_at l k <> Some (e_key eff)) -> e_deps m = [nth_tip e j])
       /\ ((forall j, (j < i)%nat -> key_at l j <> Some (e_key eff)) -> e_deps m = next_deps (e_key eff) st c e))
  /\ (forall key, notifies_of c' key = notifies_of c key ++ tips_on key l (g_node e) (g_nextOff e)).
Proof.
  induction l as [|[eff st] l IH]; intros c e c' e' He Hr Hu H0 Hb; cbn [emit_all length] in *.
  { injection He as <- <-. split_and!; try done. intros key. cbn. by rewrite app_nil_r. }
  destruct (emit_ready eff st c e (Hr eff st ltac:(constructor))) as (e1 & E1 & Hi1 & Hf1 & Hs1 & Hin1 & Hn1 & Hm).
  destruct (Emit w eff st c e) as [[c1 e1'] [err|]]; [done|]. cbn [fst snd] in E1. subst e1'.
  destruct Hm as (Hmint & ck & -> & Hlast & Hnot & Hinit).
  assert (Hno : next_tip e = nth_tip e 0) by (unfold next_tip, nth_tip, wrapu64; f_equal; rewrite Z.mod_small by lia; lia).
  assert (Ho1 : g_nextOff e1 = g_nextOff e + 1) by (destruct Hmint as (_ & _ & _ & _ & _ & -> & _); unfold wrapu64; rewrite Z.mod_small by lia; lia).
  destruct (IH (set_keys (<[e_key eff := ck]> (c_keys c)) c) e1 c' e' He) as (G1 & G2 & G3 & G4 & G5 & G6).
  - intros eff' st' Hin. eapply ready_minted; [exact Hmint|]. apply Hr. by constructor.
  - intros key n. unfold tips_at, index_tips. rewrite Hi1, Hn1, Ho1. intros Hin%Hu. lia.
  - lia.
  - lia.
  - assert (Hshift : forall i, nth_tip e1 i = nth_tip e (S i)) by (intros i; unfold nth_tip; rewrite Hn1, Ho1; f_equal; lia).
    rewrite Hn1 in *. split_and!; [congruence..| | |].
    + intros n Hle. rewrite G4 by lia. destruct Hmint as (-> & _). rewrite lookup_insert_ne; [done|]. rewrite Hno. unfold nth_tip. intros [= <-]. lia.
    + intros [|i] eff' st' Hl; cbn in Hl.
      * injection Hl as <- <-. exists (minted_of eff st c e). destruct (minted_fields eff st c e) as (M1 & M2 & _ & _ & _ & M6).
        split_and!; [|done..|intros j; lia|done].
        destruct Hmint as (Hc & _). rewrite <- Hno. unfold next_tip. rewrite G4; [by rewrite Hc, lookup_insert_eq|].
        unfold wrapu64. rewrite Z.mod_small by lia. lia.
      * destruct (G5 i eff' st' Hl) as (m & M1 & M2 & M3 & M4 & M5). exists m. rewrite <- Hshift. split_and!; [done..| |].
        -- intros [|j] Hj Hk Hbet; [|rewrite <- Hshift; apply M4; [lia|done|]; intros k Hkr; apply (Hbet (S k)); lia].
           rewrite M5; [|intros j Hj' Hk'; apply (Hbet (S j)); [lia|done]].
           injection Hk as Hk. unfold next_deps. cbn [c_keys set_keys]. rewrite <- Hk, lookup_insert_eq. by rewrite Hlast, Hno.
        -- intros Hnone. rewrite M5; [|intros j Hj; apply (Hnone (S j)); lia].
           unfold next_deps. cbn [c_keys set_keys]. rewrite lookup_insert_ne by (intros E; apply (Hnone 0%nat); [lia|by cbn; rewrite E]).
           destruct (c_keys c !! e_key eff'); [done|]. rewrite (starting_tips_minted _ _ _ _ _ _ _ _ Hmint) by (done || lia).
           unfold resolveTipDeps, resolve_next, resolve_visit, is_pending, pending_deps. unfold in_flight in Hf1. by injection Hf1 as -> _ _ _ _.
    + intros key. rewrite G6. cbn [tips_on]. rewrite Ho1. unfold notifies_of. cbn [c_keys set_keys].
      destruct (decide (e_key eff = key)) as [<-|Hne].
      * rewrite lookup_insert_eq, Hnot. rewrite Hno. unfold nth_tip. rewrite <- !app_assoc. do 2 f_equal. cbn. do 2 f_equal. lia.
      * rewrite lookup_insert_ne by done. done.
Qed.

(** Effects of one context form chains.  Emit any number of effects on keys
    the node is subscribed to: each becomes resident under the next reference,
    with the hash its peers will check; its only dependency is the previous
    effect of the context on the same key, and the first one on a key depends on
    the tips it starts from, those of transactions in flight resolved; all are
    remembered for announcement in order; and no index, and no transaction in
    flight, changes before the flush. *)
Theorem emits_chain (l : list (Effect * option (list Tip))) (c c' : Context) (e e' : Engine) :
  emit_all l c e = (c', e', None) -> (forall eff st, (eff, st) ∈ l -> ready (e_key eff) st c e) ->
  unminted e -> 0 <= g_nextOff e -> g_nextOff e + Z.of_nat (length l) < 2 ^ 64 ->
  g_index e' = g_index e /\ in_flight e' = in_flight e
  /\ (forall i eff st, l !! i = Some (eff, st) -> exists m, g_cache e' !! nth_tip e i = Some m /\ e_key m = e_key eff /\ hash_valid m = true
       /\ (forall j, (j < i)%nat -> key_at l j = Some (e_key eff) -> (forall k, (j < k < i)%nat -> key_at l k <> Some (e_key eff)) -> e_deps m = [nth_tip e j])
       /\ ((forall j, (j < i)%nat -> key_at l j <> Some (e_key eff)) -> e_deps m = next_deps (e_key eff) st c e))
  /\ (forall key, notifies_of c' key = notifies_of c key ++ tips_on key l (g_node e) (g_nextOff e)).
Proof. intros H1 H2 H3 H4 H5. destruct (emit_all_ok l c e c' e' H1 H2 H3 H4 H5) as (G1 & G2 & _ & _ & G5 & G6). done. Qed.

(** ** Flushing outside transactions *)

Lemma applySubOps_frame key ck e :
  core (applySubOps key ck e) = core e /\ in_flight (applySubOps key ck e) = in_flight e /\ g_out (applySubOps key ck e) = g_out e.
Proof.
  unfold applySubOps. generalize (ck_subOps ck). intros ops. revert e. induction ops as [|op ops IH]; intros e; cbn [fold_left]; [done|].
  destruct (IH (if so_unsubscribe op then removePeerSubscriber key (so_peer op) e else addPeerSubscriber key (so_peer op) e)) as (-> & -> & ->).
  destruct (so_unsubscribe op); [rewrite core_removePeer|rewrite core_addPeer]; (split; [done|]);
    unfold removePeerSubscriber, addPeerSubscriber; by repeat case_match.
Qed.

(** What a key's flush sends. *)
Definition sent (key : bytes) (ck : contextKey) (outs : list output) : Prop :=
  w_broadcaster w = true ->
  (forall n, n ∈ ck_notifies ck -> OBroadcast n ∈ outs \/ OReplicate n ∈ outs)
  /\ (is_unsafe w key = false -> inMajorityPartition w && negb (w_mayHold w key) = false ->
      forall n, list.last (ck_notifies ck) = Some n -> OReplicate n ∈ outs).

Lemma sends_all key ck outs : (forall o, o ∈ flush_sends w key ck -> o ∈ outs) -> sent key ck outs.
Proof.
  intros Hin Hb. unfold flush_sends in Hin. rewrite Hb in Hin.
  destruct (negb (is_unsafe w key) && _) eqn:E.
  - assert (Hn : ck_notifies ck = rev (rev (ck_notifies ck))) by (by rewrite rev_involutive).
    destruct (rev (ck_notifies ck)) as [|n0 before]; cbn [rev] in Hn; rewrite Hn.
    + split; [by intros n ?%elem_of_nil|done].
    + split; [|intros _ _ n; rewrite last_snoc; intros [= <-]; apply Hin; set_solver].
      intros n [Hn'| ->%list_elem_of_singleton]%elem_of_app; [left|right]; apply Hin; [|set_solver].
      apply elem_of_app. left. apply list_elem_of_In, in_map, list_elem_of_In. done.
  - split; [|intros Hu Hm; rewrite Hu, Hm in E; done].
    intros n Hn. left. apply Hin. by apply list_elem_of_In, in_map, list_elem_of_In.
Qed.

(** One flushed key: its initial tips give way to its last effect. *)
Lemma flush_key_ok key ck e : key <> FlushKey ->
  exists e', flush_key w key ck e = Some e' /\ g_cache e' = g_cache e /\ g_subs e' = g_subs e /\ g_node e' = g_node e /\ in_flight e' = in_flight e
    /\ (forall k, frontier_of e' k = if decide (k = key) then (frontier_of e k ∖ list_to_set (Tips (ck_initialTips ck))) ∪ {[ ck_lastOffset ck ]} else frontier_of e k)
    /\ exists outs, g_out e' = g_out e ++ outs /\ sent key ck outs.
Proof.
  intros Hk. unfold flush_key. rewrite bool_decide_eq_false_2 by done. eexists. split; [done|].
  set (e1 := updateIndex key (ck_initialTips ck) (ck_lastOffset ck) e). set (e2 := applySubOps key ck e1).
  destruct (applySubOps_frame key ck e1) as (A1 & A2 & A3).
  destruct (apply_update_index key (UpdateIndex (ck_initialTips ck) (ck_lastOffset ck)) e) as (_ & U1 & U2 & U3).
  destruct (flight_update key (UpdateIndex (ck_initialTips ck) (ck_lastOffset ck)) e) as [U4 _].
  assert (Hc : core (emit_out (flush_sends w key ck ++ flush_callbacks w key ck) e2) = core e1) by (unfold e2; rewrite <- A1; done).
  assert (Hfr := fun k => frontier_core _ _ k Hc). unfold core in Hc. injection Hc as _ Hca Hsu Hno. cbn [g_cache g_subs g_node emit_out] in *.
  split_and!; [rewrite Hca; exact U1|rewrite Hsu; exact U2|rewrite Hno; exact U3|unfold e2; change (in_flight (applySubOps key ck e1) = in_flight e); rewrite A2; exact U4| |].
  - intros k. rewrite Hfr. unfold e1, updateIndex. rewrite frontier_update. destruct (decide (k = key)) as [->|]; [|done].
    cbn [consumed added list_to_set]. set_solver.
  - assert (exists o1, g_out e1 = g_out e ++ o1) as [o1 Ho1].
    { unfold e1, updateIndex, apply_update. case_match; [by eexists|exists []; by rewrite app_nil_r]. }
    exists (o1 ++ flush_sends w key ck ++ flush_callbacks w key ck). cbn [g_out emit_out]. unfold e2. rewrite A3, Ho1. split; [by rewrite <- !app_assoc|].
    apply sends_all. set_solver.
Qed.

(** The frontier after the pending keys were flushed. *)
Definition flushed_frontier (keys : gmap bytes contextKey) (e : Engine) (k : bytes) : gset Tip :=
  match keys !! k with
  | Some ck => (frontier_of e k ∖ list_to_set (Tips (ck_initialTips ck))) ∪ {[ ck_lastOffset ck ]}
  | None => frontier_of e k
  end.

Lemma flush_keys_ok l c e : NoDup l.*1 -> FlushKey ∉ l.*1 ->
  exists e', flush_keys w l c e = (set_keys (fold_left (fun m p => delete p.1 m) l (c_keys c)) c, e', None)
    /\ g_cache e' = g_cache e /\ g_subs e' = g_subs e /\ g_node e' = g_node e /\ in_flight e' = in_flight e
    /\ (forall k, frontier_of e' k = flushed_frontier (list_to_map l) e k)
    /\ exists outs, g_out e' = g_out e ++ outs /\ forall key ck, (key, ck) ∈ l -> sent key ck outs.
Proof.
  revert c e. induction l as [|[key ck] l IH]; intros c e Hnd Hf; cbn [flush_keys fold_left fmap list_fmap] in *.
  { exists e. destruct c. split_and!; try done. exists []. rewrite app_nil_r. split; [done|by intros ? ? ?%elem_of_nil]. }
  apply list.NoDup_cons in Hnd as [Hnin Hnd]. rewrite not_elem_of_cons in Hf. destruct Hf as [Hne Hf]. cbn [fst] in *.
  destruct (flush_key_ok key ck e ltac:(congruence)) as (e1 & -> & C1 & S1 & N1 & F1 & Fr1 & o1 & O1 & Snd1).
  destruct (IH (set_keys (delete key (c_keys c)) c) e1 Hnd Hf) as (e' & -> & C2 & S2 & N2 & F2 & Fr2 & o2 & O2 & Snd2).
  exists e'. split_and!; [done|congruence..| |].
  - intros k. rewrite Fr2. unfold flushed_frontier. cbn [list_to_map foldr fst snd]. fold (list_to_map l : gmap bytes contextKey).
    destruct (decide (k = key)) as [->|Hk].
    + rewrite not_elem_of_list_to_map_1 by done. rewrite lookup_insert_eq, Fr1, decide_True by done. done.
    + rewrite lookup_insert_ne by done. rewrite Fr1, decide_False by done. done.
  - exists (o1 ++ o2). rewrite O2, O1, app_assoc. split; [done|]. intros key' ck' [[= -> ->]|Hin]%elem_of_cons.
    + intros Hb. destruct (Snd1 Hb) as [H1 H2]. split; [intros n Hn; destruct (H1 n Hn); set_solver|]. intros Hu Hm n Hn. specialize (H2 Hu Hm n Hn). set_solver.
    + intros Hb. destruct (Snd2 key' ck' Hin Hb) as [H1 H2]. split; [intros n Hn; destruct (H1 n Hn); set_solver|]. intros Hu Hm n Hn. specialize (H2 Hu Hm n Hn). set_solver.
Qed.

Lemma fold_delete_all {A} (l : list (bytes * A)) (m : gmap bytes A) : (forall k x, m !! k = Some x -> k ∈ l.*1) ->
  fold_left (fun m p => delete p.1 m) l m = ∅.
Proof.
  intros Hall. apply map_eq. intros k. rewrite lookup_empty. revert m Hall. induction l as [|p l IH]; intros m Hall; cbn [fold_left].
  - destruct (m !! k) eqn:E; [|done]. apply Hall in E. by apply elem_of_nil in E.
  - apply IH. intros k' x' [Hne E]%lookup_delete_Some. apply Hall in E. cbn in E. apply elem_of_cons in E as [->|]; done.
Qed.

Lemma flush_ok c e : c_keys c !! FlushKey = None ->
  exists e', flushNonTx w c e = (set_keys ∅ c, e', None)
    /\ g_cache e' = g_cache e /\ g_subs e' = g_subs e /\ g_node e' = g_node e /\ in_flight e' = in_flight e
    /\ (forall k, frontier_of e' k = flushed_frontier (c_keys c) e k)
    /\ exists outs, g_out e' = g_out e ++ outs /\ forall key ck, c_keys c !! key = Some ck -> sent key ck outs.
Proof.
  intros Hf. unfold flushNonTx. destruct (flush_keys_ok (map_range 5 (c_keys c)) c e) as (e' & -> & C & S & N & F & Fr & o & O & Snd).
  - apply NoDup_map_range.
  - intros ([k ck] & Ek & Hin)%list_elem_of_fmap. apply elem_of_map_range in Hin. cbn in *. congruence.
  - exists e'. rewrite fold_delete_all; [|intros k x Hk; apply list_elem_of_fmap; exists (k, x); split; [done|by apply elem_of_map_range]].
    split_and!; [done..| |].
    + intros k. rewrite Fr. unfold flushed_frontier. f_equal.
      assert (list_to_map (map_range 5 (c_keys c)) = c_keys c) as ->; [|done].
      rewrite <- (list_to_map_to_list (c_keys c)) at 2. apply list_to_map_proper; [apply NoDup_map_range|apply map_range_perm].
    + exists o. split; [done|]. intros key ck Hk. apply Snd. by apply elem_of_map_range.
Qed.


(** ** Rolling back *)

Lemma emit_all_frame l : forall c e, (forall eff st, (eff, st) ∈ l -> ready (e_key eff) st c e) ->
  let r := emit_all l c e in
  g_index r.1.2 = g_index e /\ in_flight r.1.2 = in_flight e /\ exists keys, r.1.1 = set_keys keys c.
Proof.
  induction l as [|[eff st] l IH]; intros c e Hr; cbn [emit_all]; [split_and!; [done..|]; exists (c_keys c); by destruct c|].
  destruct (emit_ready eff st c e (Hr eff st ltac:(constructor))) as (e1 & E1 & Hi1 & Hf1 & _ & _ & _ & Hm).
  destruct (Emit w eff st c e) as [[c1 e1'] [err|]]; cbn [fst snd] in *; subst e1'.
  - split_and!; [done..|]. destruct Hm as (_ & _ & keys & -> & _). eauto.
  - destruct Hm as (Hmint & ck & -> & _).
    destruct (IH (set_keys (<[e_key eff := ck]> (c_keys c)) c) e1) as (G1 & G2 & keys & G3).
    { intros eff' st' Hin. eapply ready_minted; [exact Hmint|]. apply Hr. by constructor. }
    split_and!; [congruence..|]. exists keys. rewrite G3. done.
Qed.


End Props.
