(* ===== verification/Commit.v ===== *)
(** * Committing a transaction (effects/context.go: flushTx; effects/effect.go:
    emitSnapshot, mintLocalEffect)

    A transaction that may still commit indexes its effects, publishes a bind
    that names them all, asks every subscriber of its keys, and commits only if
    all of them answered and none of the tips they hold conflicts.  The winner
    records verdicts for itself and those it beat.

    One node commits alone here: what peers do meanwhile shows in their replies,
    and a local [HandleNack] that would abort the transaction in the middle is
    left out.  Adaptive serialization is disabled in the source. *)

From S2P Require Import Prelude Golib Proto Reduce Compress Store Walk Dag ForkChoice Predicate TipSet Frontier Horizon Txn Wire Safety Engine Ingest Subscribe Compete Context.

Section Commit.
Context {snaps : TxnSnapshots} {ranger : MapRange} {sorter : SortFunc} `{!ProtoCodec Effect} {codec : Codec} {encoder : Encoder}.
Variable (w : World).

(** ** Snapshots with verdicts *)

Definition mintLocalEffect (key : bytes) (currentSet : option TipSet) (eff : Effect) (e : Engine) : Engine * option Tip :=
  match MarshalEffect eff with
  | None => (e, None)
  | Some _ =>
      let '(e, offset) := nextOffset e in
      match putIngested w offset eff e with
      | None => (e, None)
      | Some e =>
          (emit_out (OLocalEffect offset :: if w_broadcaster w then [OBroadcast offset] else []) (updateIndex key currentSet offset e), Some offset)
      end
  end.

(** The first current tip that is a snapshot. *)
Definition latest_snapshot (key : bytes) (tips : list Tip) (e : Engine) : option Tip :=
  List.find (fun t => match getEffect (obtainable w e) key t with Some eff => match get_snapshot eff with Some _ => true | None => false end | None => false end) tips.

(** A failure is only logged. *)
Definition emitSnapshot (key : bytes) (verdicts : gmap bytes Verdict) (e : Engine) : Engine :=
  let '(e, hlc) := read_clock w e in
  let currentSet := index_tips e key in
  let eff := mkEffect key (Some hlc) (g_node e) (resolveTipDeps (Tips currentSet) e) [] (ComputeForkChoiceHash (g_node e) (Some hlc)) []
    (Some (KSnapshot (mkSnapshot SCALAR None verdicts (latest_snapshot key (Tips currentSet) e)))) in
  (mintLocalEffect key currentSet eff e).1.

(** ** Before anything is published *)

Definition key_list (n : nat) (c : Context) : list (bytes * contextKey) := map_range n (c_keys c).

(** The last effects of the keys are not pending any more. *)
Definition release (c : Context) (e : Engine) : Engine := delete_tips (map (fun p => ck_lastOffset p.2) (key_list 8 c)) e.

(** A minority cannot commit a key in safe mode. *)
Definition partitioned (c : Context) : bool :=
  w_broadcaster w && existsb (fun p => negb (is_unsafe w p.1)) (key_list 9 c) && negb (w_majority w).

Fixpoint subscribe_all (keys : list bytes) (e : Engine) : Engine * bool :=
  match keys with
  | [] => (e, true)
  | key :: keys => match ensureSubscribedBlocking w key e with (e, Some _) => (e, false) | (e, None) => subscribe_all keys e end
  end.

(** A consumed tip is gone, or there is one the transaction never saw. *)
Definition stale_key (e : Engine) (key : bytes) (ck : contextKey) : bool :=
  match Tips (ck_initialTips ck) with
  | [] => false
  | initial =>
      let current := index_tips e key in
      existsb (fun t => negb (TipSet_Contains current t)) initial
      || existsb (fun t => negb (TipSet_Contains (ck_initialTips ck) t) && negb (is_subscription_tip e t)) (Tips current)
  end.

(** Binds that consumed one of the tips this transaction consumes. *)
Definition spoken_binds (c : Context) (e : Engine) : list Tip :=
  flat_map (fun p => flat_map (fun t => default [] (g_spoken e !! t)) (Tips (ck_initialTips p.2))) (key_list 10 c).

Definition candidate (c : Context) : pendingTxn :=
  mkPending [] None 0 [] zero_tip (map (fun p => mkPendingKey [] [] (ck_lastOffset p.2) false SCALAR []) (key_list 11 c)) txnStatePending 0.

(** One of them is not in the transaction's past. *)
Definition spoken_conflict (c : Context) (e : Engine) : bool :=
  match spoken_binds c e with [] => false | binds => negb (reachesFromTx (obtainable w e) (candidate c) binds) end.

(** ** Publishing *)

Definition publish_key (e : Engine) (p : bytes * contextKey) : Engine :=
  let '(key, ck) := p in
  let e := applySubOps key ck (updateIndex key (ck_initialTips ck) (ck_lastOffset ck) e) in
  let e := set_pendingTips (<[ck_lastOffset ck := Tips (ck_initialTips ck)]> (g_pendingTips e)) e in
  emit_out (broadcasts w ck) e.

Definition ours (c : Context) (t : Tip) : bool := existsb (fun p => bool_decide (ck_lastOffset p.2 = t)) (key_list 12 c).

(** A concurrent effect on a key that was read as of a snapshot. *)
Definition forked (hadSnapshot : bool) (c : Context) (e : Engine) : bool :=
  existsb (fun p => (hadSnapshot || ck_readOnly p.2)
    && existsb (fun t => negb (bool_decide (t = ck_lastOffset p.2)) && negb (ours c t) && negb (is_subscription_tip e t)) (tips_at e p.1))
    (key_list 13 c).

(** Tips of other transactions in flight on the keys. *)
Definition abort_deps (c : Context) (e : Engine) : list Tip :=
  flat_map (fun p => List.filter (fun t => is_pending e t && negb (ours c t)) (tips_at e p.1)) (key_list 14 c).

Definition compare_keys (a b : KeyBind) : Z := bytes_compare (kb_key a) (kb_key b).

Definition bind_keys_of (c : Context) (e : Engine) : list KeyBind :=
  sort_func compare_keys (map (fun p => mkKeyBind p.1 (resolveTipDeps (Tips (ck_initialTips p.2)) e) (ck_lastOffset p.2)) (key_list 15 c)).

Definition bind_of (c : Context) (hlc : Timestamp) (e : Engine) : TransactionalBindEffect :=
  mkBind (bind_keys_of c e) (Some hlc) (g_node e) (abort_deps c e).

Definition canonical_key (bind : TransactionalBindEffect) : bytes := match tb_keys bind with kb :: _ => kb_key kb | [] => [] end.

Definition bind_effect (c : Context) (bind : TransactionalBindEffect) (hlc : Timestamp) (node : Z) : Effect :=
  mkEffect (canonical_key bind) (Some hlc) node (map kb_new_tip (tb_keys bind)) (c_txnID c) (ComputeForkChoiceHash node (Some hlc)) []
    (Some (KTxnBind bind)).

(** The bind replaces the last effect of each key. *)
Definition index_bind (bindOffset : Tip) (bind : TransactionalBindEffect) (e : Engine) : Engine :=
  fold_left (fun e kb => updateIndex (kb_key kb) (Some (NewTipSet 0 [kb_new_tip kb])) bindOffset e) (tb_keys bind) e.

Definition pending_of (c : Context) (hlc : Timestamp) (bindOffset : Tip) (e : Engine) : pendingTxn :=
  mkPending (c_txnID c) (Some hlc) (g_node e) (ComputeForkChoiceHash (g_node e) (Some hlc)) bindOffset
    (map (fun p => mkPendingKey p.1 (resolveTipDeps (Tips (ck_initialTips p.2)) e) (ck_lastOffset p.2) (ck_readOnly p.2)
                     (ck_collection p.2) (ck_elementIDs p.2)) (key_list 16 c))
    txnStatePending 0.

(** ** The replies *)

Record tally := mkTally { ta_ptxn : pendingTxn; ta_defeated : gmap bytes Tip; ta_responses : nat }.

Definition aborted (ta : tally) : bool := bool_decide (pt_state (ta_ptxn ta) = txnStateAborted).

(** One tip a peer holds. *)
Definition weigh_detail (key : bytes) (e : Engine) (ta : tally) (detail : NackTipDetail) : tally :=
  if aborted ta then ta
  else match checkNackConflict (obtainable w e) (ta_ptxn ta) key detail with
       | Done (false, defeated) => mkTally (ta_ptxn ta) (defeated ∪ ta_defeated ta) (ta_responses ta)
       | _ => mkTally (finish (ta_ptxn ta) txnStateAborted).1 (ta_defeated ta) (ta_responses ta)
       end.

(** Its history is ingested first. *)
Definition weigh_nack (st : Engine * tally) (nack : NackNotify) : Engine * tally :=
  let '(e, ta) := st in
  if aborted ta then st
  else
    let e := match ingestNackTips w nack e with Done e => e | _ => e end in
    (e, fold_left (weigh_detail (nk_key nack) e) (nk_details nack) ta).

Definition weigh_reply (bindOffset : Tip) (st : Engine * tally) (peer : Z) : Engine * tally :=
  let '(e, ta) := st in
  if aborted ta then st
  else match w_reply w bindOffset 0 peer with
       | None => st
       | Some nacks => fold_left weigh_nack nacks (e, mkTally (ta_ptxn ta) (ta_defeated ta) (S (ta_responses ta)))
       end.

Definition decide_txn (subscribers : nat) (ta : tally) : pendingTxn :=
  if aborted ta then ta_ptxn ta
  else (finish (ta_ptxn ta) (if (ta_responses ta <? subscribers)%nat then txnStateAmbiguous else txnStateCommitted)).1.

Definition committed (ptxn : pendingTxn) : bool := bool_decide (pt_state ptxn = txnStateCommitted).

(** The keys that get a verdict: ours, and those of the transactions beaten. *)
Definition verdict_keys (bind : TransactionalBindEffect) (defeated : gmap bytes Tip) (e : Engine) : gset bytes :=
  list_to_set (map kb_key (tb_keys bind)
    ++ flat_map (fun p => match getEffect (obtainable w e) [] p.2 with Some eff => map kb_key (bind_keys eff) | None => [] end) (map_to_list defeated)).

Definition verdicts_of (txnID : bytes) (defeated : gmap bytes Tip) : gmap bytes Verdict :=
  ((fun _ => LOST) <$> defeated) ∪ {[ txnID := WON ]}.

Definition publish_verdicts (txnID : bytes) (bind : TransactionalBindEffect) (defeated : gmap bytes Tip) (e : Engine) : Engine :=
  fold_left (fun e p => emitSnapshot p.1 (verdicts_of txnID defeated) e) (map_range 17 (gset_to_gmap tt (verdict_keys bind defeated e))) e.

(** Replicate the bind; [None]: its notification cannot be marshalled. *)
Definition replicate_bind (c : Context) (bind : TransactionalBindEffect) (ptxn : pendingTxn) (e : Engine) : option (Engine * pendingTxn) :=
  if negb (w_broadcaster w) then Some (e, (finish ptxn txnStateCommitted).1)
  else
    match collectSubscribers (w_members w) (PendingKeys c) e with
    | [] => Some (e, (finish ptxn txnStateCommitted).1)
    | subscribers =>
        let e := with_horizon (HorizonAdd (c_txnID c) bind) e in
        if negb (w_sends w (pt_bindOffset ptxn)) then None
        else
          let e := emit_out (map (OReplicateTo (pt_bindOffset ptxn)) subscribers) e in
          let '(e, ta) := fold_left (weigh_reply (pt_bindOffset ptxn)) subscribers (e, mkTally ptxn ∅ 0) in
          let ptxn := decide_txn (length subscribers) ta in
          if committed ptxn
          then Some (publish_verdicts (c_txnID c) bind (ta_defeated ta) (make_visible w (c_txnID c) e), ptxn)
          else Some (with_horizon (HorizonAbort (c_txnID c)) e, ptxn)
    end.

(** ** The protocol *)

Definition no_horizon (e : Engine) : bool := match g_horizon e with None => true | Some _ => false end.

Definition commit_callbacks (c : Context) : list output := flat_map (fun p => flush_callbacks w p.1 p.2) (key_list 18 c).

(** From the published bind on. *)
Definition settle (c : Context) (bind : TransactionalBindEffect) (hlc : Timestamp) (bindOffset : Tip) (e : Engine)
    : Context * Engine * option ctx_error :=
  let ptxn := pending_of c hlc bindOffset e in
  let e := set_pendingTxns (<[bindOffset := ptxn]> (g_pendingTxns e)) e in
  match replicate_bind c bind ptxn e with
  | None => (c, e, Some EmitFailed)
  | Some (e, ptxn) =>
      let e := set_pendingTxns (delete bindOffset (g_pendingTxns e)) e in
      let e := if no_horizon e then delete_tips (map pk_newTip (pt_keys ptxn)) e else e in
      match pt_state ptxn with
      | txnStateCommitted => (reset c, emit_out (commit_callbacks c) e, None)
      | txnStateAmbiguous => (reset c, e, Some TxnAmbiguous)
      | _ => (reset c, e, Some TxnAborted)
      end
  end.

(** From the published effects on. *)
Definition commit_bind (c : Context) (e : Engine) : Context * Engine * option ctx_error :=
  let '(e, hlc) := read_clock w e in
  let bind := bind_of c hlc e in
  match checkCompetingBinds (obtainable w e) bind (c_txnID c) e with
  | Some _ => (reset c, if no_horizon e then release c e else e, Some TxnAborted)
  | None =>
      let bindEff := bind_effect c bind hlc (g_node e) in
      match rawEmit w bindEff e with
      | (e, None) => (c, e, Some EmitFailed)
      | (e, Some bindOffset) =>
          let e := index_bind bindOffset bind e in
          if evaluateBindForkChoice (obtainable w e) bind bindOffset (e_fork_choice_hash bindEff) (c_txnID c) e
          then (reset c, release c e, Some TxnAborted)
          else settle c bind hlc bindOffset e
      end
  end.

Definition flushTx (c : Context) (e : Engine) : Context * Engine * option ctx_error :=
  let hadSnapshot := match c_txSnapshot c with Some _ => true | None => false end in
  let c := mkContext false (c_txnID c) (c_keys c) (c_watchedKeys c) None (c_readErr c) in
  if bool_decide (c_keys c = ∅) then (c, e, None)
  else if partitioned c then (reset c, e, Some TxnPartitioned)
  else match subscribe_all (map fst (key_list 19 c)) e with
       | (e, false) => (reset c, e, Some TxnPartitioned)
       | (e, true) =>
           if existsb (fun p => stale_key e p.1 p.2) (key_list 20 c) || spoken_conflict c e
           then (reset c, release c e, Some TxnAborted)
           else
             let e := fold_left publish_key (key_list 21 c) e in
             if forked hadSnapshot c e then (reset c, release c e, Some TxnAborted)
             else commit_bind c e
       end.

(** A failed read discards everything. *)
Definition Flush (c : Context) (e : Engine) : Context * Engine * option ctx_error :=
  match c_readErr c with
  | Some err => (Abort c, e, Some err)
  | None => if c_inTx c then flushTx c e else flushNonTx w c e
  end.

(** ** Watches *)

(** [observe]: [Engine.GetSnapshot], whether the key has a value. *)
Variable (observe : bytes -> Engine -> Engine * option bool).

Definition noop_effect (key txn : bytes) : Effect := mkEffect key None 0 [] txn [] [] (Some KNoop).

Definition Watch (key : bytes) (c : Context) (e : Engine) : Context * Engine * option ctx_error :=
  let '(c, e) := match c_txnID c with [] => let '(e, txn) := generateTxnID w e in (set_txnID txn c, e) | _ => (c, e) end in
  match observe key e with
  | (e, None) => (c, e, Some ReadFailed)
  | (e, Some hadData) =>
      match Emit w (noop_effect key (c_txnID c)) None c e with
      | (c, e, Some err) => (c, e, Some err)
      | (c, e, None) =>
          let noopOffset := match c_keys c !! key with Some ck => ck_lastOffset ck | None => zero_tip end in
          match Flush c e with
          | (c, e, Some err) => (c, e, Some err)
          | (c, e, None) => (set_watched (<[key := mkWatched noopOffset (index_tips e key) hadData (g_flushGen e)]> (c_watchedKeys c)) c, e, None)
          end
      end
  end.

(** Equality of pointers to tip sets. *)
Definition same_pointer (a b : option TipSet) : bool :=
  match a, b with None, None => true | Some x, Some y => ts_addr x =? ts_addr y | _, _ => false end.

(** Nothing happened to the key since; a flush of a key that did not exist is
    nothing. *)
Definition watch_intact (e : Engine) (key : bytes) (ws : watchedKeyState) : bool :=
  same_pointer (ws_tips ws) (index_tips e key)
  || (negb (ws_flushGen ws =? g_flushGen e) && negb (ws_hadData ws) && negb (bool_decide (is_Some (index_tips e key)))).

Definition drop_txn (c : Context) : Context := mkContext false [] (c_keys c) ∅ None (c_readErr c).

Definition mark_watched (key : bytes) (c : Context) : Context :=
  match c_keys c !! key with
  | None => c
  | Some ck =>
      set_keys (<[key := mkKey (ck_initialTips ck) (ck_lastOffset ck) (ck_notifies ck) (ck_readOnly ck) true (ck_collection ck)
        (ck_elementIDs ck) (ck_hasData ck) (ck_notifyData ck) (ck_notifyDelete ck) (ck_subOps ck)]> (c_keys c)) c
  end.

Fixpoint watch_noops (l : list (bytes * watchedKeyState)) (c : Context) (e : Engine) : Context * Engine * bool :=
  match l with
  | [] => (set_watched ∅ c, e, true)
  | (key, ws) :: l =>
      match Emit w (noop_effect key []) (Some [ws_noopOffset ws]) c e with
      | (c, e, Some _) => (drop_txn c, e, false)
      | (c, e, None) => watch_noops l (mark_watched key c) e
      end
  end.

Definition CheckWatches (c : Context) (e : Engine) : Context * Engine * bool :=
  let c := match c_txSnapshot c with None => set_snapshot (Some (newTransactionSnapshot w e)) c | Some _ => c end in
  if bool_decide (c_watchedKeys c = ∅) then (c, e, true)
  else if forallb (fun p => watch_intact e p.1 p.2) (map_range 6 (c_watchedKeys c))
       then watch_noops (map_range 7 (c_watchedKeys c)) c e
       else (drop_txn c, e, false).

End Commit.
