(* ===== verification/CommitProps.v ===== *)
(** * What a commit means *)

From S2P Require Import Prelude Golib Proto Reduce Compress Store Walk ForkChoice Horizon Predicate Txn Dag TipSet Safety Frontier Wire Engine Ingest IngestProps Compete CompeteProps Subscribe Context ContextProps Commit.

Section Props.
Context {snaps : TxnSnapshots} {ranger : MapRange} {sorter : SortFunc} `{!ProtoCodec Effect} {codec : Codec} {encoder : Encoder}.
Variable (w : World).

(** ** Counting the replies *)

Lemma finish_fields p s : pt_keys (finish p s).1 = pt_keys p /\ pt_bindOffset (finish p s).1 = pt_bindOffset p /\ pt_txnID (finish p s).1 = pt_txnID p.
Proof. unfold finish. by destruct (pt_state p). Qed.

(** The tip conflicts with nothing the transaction did, as far as [e] knows. *)
Definition harmless (ptxn : pendingTxn) (key : bytes) (e : Engine) (d : NackTipDetail) : Prop :=
  exists defeated, checkNackConflict (obtainable w e) ptxn key d = Done (false, defeated).

(** Once aborted, the rest is not looked at. *)
Lemma weigh_detail_step key e d ta : pt_state (ta_ptxn ta) = txnStatePending -> aborted (weigh_detail w key e ta d) = false ->
  ta_ptxn (weigh_detail w key e ta d) = ta_ptxn ta /\ ta_responses (weigh_detail w key e ta d) = ta_responses ta /\ harmless (ta_ptxn ta) key e d.
Proof.
  intros Hp. unfold weigh_detail, harmless, aborted. rewrite (bool_decide_eq_false_2 (pt_state (ta_ptxn ta) = _)) by congruence.
  assert (Hfin : pt_state (finish (ta_ptxn ta) txnStateAborted).1 = txnStateAborted) by (unfold finish; by rewrite Hp).
  destruct (checkNackConflict _ _ _ _) as [[[|] defeated]| |]; cbn [ta_ptxn ta_responses]; rewrite ?Hfin; try done. eauto.
Qed.

Lemma weigh_details_aborted key e ds ta : aborted ta = true -> fold_left (weigh_detail w key e) ds ta = ta.
Proof. intros Ha. induction ds as [|d ds IH]; cbn [fold_left]; [done|]. unfold weigh_detail at 2. by rewrite Ha. Qed.

Lemma weigh_details_ok key e ds ta : pt_state (ta_ptxn ta) = txnStatePending -> aborted (fold_left (weigh_detail w key e) ds ta) = false ->
  ta_ptxn (fold_left (weigh_detail w key e) ds ta) = ta_ptxn ta /\ ta_responses (fold_left (weigh_detail w key e) ds ta) = ta_responses ta
  /\ forall d, d ∈ ds -> harmless (ta_ptxn ta) key e d.
Proof.
  revert ta. induction ds as [|d ds IH]; intros ta Hp Hna; cbn [fold_left] in *; [split_and!; [done..|by intros ? ?%elem_of_nil]|].
  destruct (aborted (weigh_detail w key e ta d)) eqn:Ea; [rewrite weigh_details_aborted in Hna by done; congruence|].
  destruct (weigh_detail_step key e d ta Hp Ea) as (E1 & E2 & E3).
  destruct (IH _ ltac:(by rewrite E1) Hna) as (H1 & H2 & H3). rewrite H1, H2, E1, E2. split_and!; [done..|].
  intros d' [->|Hd]%elem_of_cons; [done|]. rewrite <- E1. by apply H3.
Qed.

(** With the tips of the refusal ingested, none of them conflicts. *)
Definition cleared (ptxn : pendingTxn) (nack : NackNotify) : Prop :=
  exists e, let e1 := match ingestNackTips w nack e with Done e1 => e1 | _ => e end in
  forall d, d ∈ nk_details nack -> harmless ptxn (nk_key nack) e1 d.

Lemma weigh_nacks_aborted nacks st : aborted st.2 = true -> fold_left (weigh_nack w) nacks st = st.
Proof. intros Ha. induction nacks as [|n ns IH]; cbn [fold_left]; [done|]. destruct st as [e ta]. unfold weigh_nack at 2. cbn in Ha. by rewrite Ha. Qed.

Lemma weigh_nacks_ok nacks st : pt_state (ta_ptxn st.2) = txnStatePending -> aborted (fold_left (weigh_nack w) nacks st).2 = false ->
  ta_ptxn (fold_left (weigh_nack w) nacks st).2 = ta_ptxn st.2 /\ ta_responses (fold_left (weigh_nack w) nacks st).2 = ta_responses st.2
  /\ forall nack, nack ∈ nacks -> cleared (ta_ptxn st.2) nack.
Proof.
  revert st. induction nacks as [|n ns IH]; intros st Hp Hna; cbn [fold_left] in *; [split_and!; [done..|by intros ? ?%elem_of_nil]|].
  destruct (aborted (weigh_nack w st n).2) eqn:Ea; [rewrite weigh_nacks_aborted in Hna by done; congruence|].
  assert (E : ta_ptxn (weigh_nack w st n).2 = ta_ptxn st.2 /\ ta_responses (weigh_nack w st n).2 = ta_responses st.2 /\ cleared (ta_ptxn st.2) n).
  { destruct st as [e ta]. cbn [snd] in *. unfold weigh_nack in *. destruct (aborted ta) eqn:Eta; [cbn in Ea; congruence|]. cbn [snd] in *.
    destruct (weigh_details_ok _ _ _ _ Hp Ea) as (H1 & H2 & H3). split_and!; [done..|]. by exists e. }
  destruct E as (E1 & E2 & E3). destruct (IH _ ltac:(by rewrite E1) Hna) as (H1 & H2 & H3). rewrite H1, H2, E1, E2. split_and!; [done..|].
  intros nack [->|Hn]%elem_of_cons; [done|]. rewrite <- E1. by apply H3.
Qed.

(** The peer answered, and nothing it holds conflicts. *)
Definition agrees (ptxn : pendingTxn) (peer : Z) : Prop :=
  exists nacks, w_reply w (pt_bindOffset ptxn) 0 peer = Some nacks /\ forall nack, nack ∈ nacks -> cleared ptxn nack.

Lemma weigh_replies_aborted bo peers st : aborted st.2 = true -> fold_left (weigh_reply w bo) peers st = st.
Proof. intros Ha. induction peers as [|p ps IH]; cbn [fold_left]; [done|]. destruct st as [e ta]. unfold weigh_reply at 2. cbn in Ha. by rewrite Ha. Qed.

Lemma weigh_replies_ok peers st : let ptxn := ta_ptxn st.2 in pt_state ptxn = txnStatePending ->
  let r := fold_left (weigh_reply w (pt_bindOffset ptxn)) peers st in
  aborted r.2 = false ->
  ta_ptxn r.2 = ptxn /\ (ta_responses r.2 <= ta_responses st.2 + length peers)%nat
  /\ (forall peer, peer ∈ peers -> w_reply w (pt_bindOffset ptxn) 0 peer = None \/ agrees ptxn peer)
  /\ ((ta_responses st.2 + length peers <= ta_responses r.2)%nat <-> forall peer, peer ∈ peers -> agrees ptxn peer).
Proof.
  cbv zeta. revert st. induction peers as [|p ps IH]; intros st Hp Hna; cbn [fold_left length] in *.
  { split_and!; [done|lia|by intros ? ?%elem_of_nil|]. split; [by intros _ ? ?%elem_of_nil|lia]. }
  set (bo := pt_bindOffset (ta_ptxn st.2)) in *.
  destruct (aborted (weigh_reply w bo st p).2) eqn:Ea; [rewrite weigh_replies_aborted in Hna by done; congruence|].
  assert (E : ta_ptxn (weigh_reply w bo st p).2 = ta_ptxn st.2
    /\ match w_reply w bo 0 p with
       | Some _ => ta_responses (weigh_reply w bo st p).2 = S (ta_responses st.2) /\ agrees (ta_ptxn st.2) p
       | None => ta_responses (weigh_reply w bo st p).2 = ta_responses st.2 /\ ~ agrees (ta_ptxn st.2) p
       end).
  { destruct st as [e ta]. cbn [snd] in *. unfold weigh_reply in *. destruct (aborted ta) eqn:Eta; [cbn in Ea; congruence|].
    destruct (w_reply w bo 0 p) as [nacks|] eqn:Er; [|split; [done|]; split; [done|]; intros (nacks & Hr & _); unfold bo in Er; congruence].
    destruct (weigh_nacks_ok nacks (e, mkTally (ta_ptxn ta) (ta_defeated ta) (S (ta_responses ta))) Hp Ea) as (H1 & H2 & H3).
    cbn [snd ta_ptxn ta_responses] in *. split_and!; [done..|]. by exists nacks. }
  destruct E as (E1 & E2). destruct (IH (weigh_reply w bo st p)) as (H1 & H2 & H3 & H4); [by rewrite E1|by rewrite E1|].
  rewrite E1 in *. fold bo in H1, H2, H3, H4. split_and!; [done| | |].
  - destruct (w_reply w bo 0 p); lia.
  - intros peer [->|Hin]%elem_of_cons; [|auto]. destruct (w_reply w bo 0 p); [right; tauto|by left].
  - setoid_rewrite elem_of_cons. destruct (w_reply w bo 0 p) as [nacks|].
    + destruct E2 as [Er Hag]. rewrite Er in *. split.
      * intros Hle peer [->|Hin]; [done|]. apply H4; [lia|done].
      * intros Hall. assert ((S (ta_responses st.2) + length ps <= ta_responses (fold_left (weigh_reply w bo) ps (weigh_reply w bo st p)).2)%nat); [|lia].
        apply H4. intros peer Hin. apply Hall. by right.
    + destruct E2 as [Er Hag]. rewrite Er in *. split; [lia|]. intros Hall. destruct Hag. apply Hall. by left.
Qed.

(** The keys of the transaction never change. *)
Lemma weigh_keys bo peers st : pt_keys (ta_ptxn st.2) = pt_keys (ta_ptxn (fold_left (weigh_reply w bo) peers st).2).
Proof.
  assert (Hd : forall key e ds ta, pt_keys (ta_ptxn (fold_left (weigh_detail w key e) ds ta)) = pt_keys (ta_ptxn ta)).
  { intros key e ds. induction ds as [|d ds IH]; intros ta; cbn [fold_left]; [done|]. rewrite IH. unfold weigh_detail.
    destruct (aborted ta); [done|]. destruct (checkNackConflict _ _ _ _) as [[[|] ?]| |]; cbn [ta_ptxn]; rewrite ?(proj1 (finish_fields _ _)); done. }
  assert (Hn : forall nacks s, pt_keys (ta_ptxn (fold_left (weigh_nack w) nacks s).2) = pt_keys (ta_ptxn s.2)).
  { intros nacks. induction nacks as [|n ns IH]; intros s; cbn [fold_left]; [done|]. rewrite IH. destruct s as [e ta]. unfold weigh_nack.
    destruct (aborted ta); [done|]. cbn [snd]. by rewrite Hd. }
  revert st. induction peers as [|p ps IH]; intros st; cbn [fold_left]; [done|]. rewrite <- IH. destruct st as [e ta]. unfold weigh_reply.
  destruct (aborted ta); [done|]. destruct (w_reply w bo 0 p); [|done]. by rewrite Hn.
Qed.

(** A tip that does conflict, in the answer of the peer. *)
Definition objects (ptxn : pendingTxn) (peer : Z) : Prop :=
  exists nacks nack d e, w_reply w (pt_bindOffset ptxn) 0 peer = Some nacks /\ nack ∈ nacks /\ d ∈ nk_details nack
    /\ ~ harmless ptxn (nk_key nack) e d.

Lemma details_conflict key e ds ta : pt_state (ta_ptxn ta) = txnStatePending -> aborted (fold_left (weigh_detail w key e) ds ta) = true ->
  exists d, d ∈ ds /\ ~ harmless (ta_ptxn ta) key e d.
Proof.
  revert ta. induction ds as [|d ds IH]; intros ta Hp Ha; cbn [fold_left] in *; [unfold aborted in Ha; rewrite Hp in Ha; done|].
  destruct (aborted (weigh_detail w key e ta d)) eqn:Ea.
  - exists d. split; [constructor|]. intros [defeated Hd]. assert (Eta : aborted ta = false) by (unfold aborted; rewrite Hp; done).
    unfold weigh_detail in Ea. rewrite Eta, Hd in Ea. unfold aborted in Ea. cbn [ta_ptxn] in Ea. rewrite Hp in Ea. done.
  - destruct (weigh_detail_step key e d ta Hp Ea) as (E1 & _ & _). destruct (IH _ ltac:(by rewrite E1) Ha) as (d' & Hd & Hh).
    rewrite E1 in Hh. exists d'. split; [by constructor|done].
Qed.

Lemma nacks_conflict nacks st : pt_state (ta_ptxn st.2) = txnStatePending -> aborted (fold_left (weigh_nack w) nacks st).2 = true ->
  exists nack d e, nack ∈ nacks /\ d ∈ nk_details nack /\ ~ harmless (ta_ptxn st.2) (nk_key nack) e d.
Proof.
  revert st. induction nacks as [|n ns IH]; intros st Hp Ha; cbn [fold_left] in *; [unfold aborted in Ha; rewrite Hp in Ha; done|].
  destruct (aborted (weigh_nack w st n).2) eqn:Ea.
  - destruct st as [e ta]. cbn [snd] in *. unfold weigh_nack in Ea.
    assert (Eta : aborted ta = false) by (unfold aborted; rewrite Hp; done). rewrite Eta in Ea. cbn [snd] in Ea.
    apply (details_conflict _ _ _ _ Hp) in Ea as (d & Hd & Hh). exists n, d. eexists. split_and!; [constructor|exact Hd|exact Hh].
  - destruct (weigh_nacks_ok [n] st Hp Ea) as (E1 & _ & _). cbn [fold_left] in E1.
    destruct (IH _ ltac:(by rewrite E1) Ha) as (nack & d & e & Hn & Hd & Hh). rewrite E1 in Hh. exists nack, d, e. split_and!; [by constructor|done..].
Qed.

Lemma replies_conflict peers st : let ptxn := ta_ptxn st.2 in pt_state ptxn = txnStatePending ->
  aborted (fold_left (weigh_reply w (pt_bindOffset ptxn)) peers st).2 = true -> exists peer, peer ∈ peers /\ objects ptxn peer.
Proof.
  cbv zeta. revert st. induction peers as [|p ps IH]; intros st Hp Ha; cbn [fold_left] in *; [unfold aborted in Ha; rewrite Hp in Ha; done|].
  set (bo := pt_bindOffset (ta_ptxn st.2)) in *. destruct (aborted (weigh_reply w bo st p).2) eqn:Ea.
  - exists p. split; [constructor|]. destruct st as [e ta]. cbn [snd] in *. unfold weigh_reply in Ea.
    assert (Eta : aborted ta = false) by (unfold aborted; rewrite Hp; done). rewrite Eta in Ea.
    destruct (w_reply w bo 0 p) as [nacks|] eqn:Er; [|cbn in Ea; congruence].
    apply nacks_conflict in Ea as (nack & d & e' & Hn & Hd & Hh); [|done]. by exists nacks, nack, d, e'.
  - destruct (weigh_replies_ok [p] st Hp Ea) as (E1 & _). cbn [fold_left] in E1. fold bo in E1.
    destruct (IH (weigh_reply w bo st p)) as (peer & Hin & Ho); [by rewrite E1|by rewrite E1|]. rewrite E1 in Ho. exists peer. split; [by constructor|done].
Qed.

(** ** Replication *)

Definition subscribers_of (c : Context) (e : Engine) : list Z := collectSubscribers (w_members w) (PendingKeys c) e.

Lemma replicate_ok c bind ptxn e e' ptxn' : pt_state ptxn = txnStatePending -> replicate_bind w c bind ptxn e = Some (e', ptxn') ->
  pt_keys ptxn' = pt_keys ptxn
  /\ match pt_state ptxn' with
     | txnStatePending => False
     | txnStateCommitted => w_broadcaster w = true -> forall peer, peer ∈ subscribers_of c e -> agrees ptxn peer
     | txnStateAmbiguous => w_broadcaster w = true /\ (exists peer, peer ∈ subscribers_of c e /\ w_reply w (pt_bindOffset ptxn) 0 peer = None)
         /\ forall peer, peer ∈ subscribers_of c e -> w_reply w (pt_bindOffset ptxn) 0 peer = None \/ agrees ptxn peer
     | txnStateAborted => w_broadcaster w = true /\ exists peer, peer ∈ subscribers_of c e /\ objects ptxn peer
     end.
Proof.
  intros Hp. unfold replicate_bind. fold (subscribers_of c e).
  assert (Hcom : pt_state (finish ptxn txnStateCommitted).1 = txnStateCommitted) by (unfold finish; by rewrite Hp).
  destruct (w_broadcaster w) eqn:Hb; cbn [negb]; [|intros [= <- <-]; rewrite Hcom; split; [apply finish_fields|done]].
  destruct (subscribers_of c e) as [|p0 ps] eqn:Es; [intros [= <- <-]; rewrite Hcom; split; [apply finish_fields|by intros _ ? ?%elem_of_nil]|].
  destruct (negb (w_sends w _)); [done|]. set (st0 := (_, mkTally ptxn ∅ 0)).
  pose proof (weigh_replies_ok (p0 :: ps) st0 Hp) as Hw. cbn [st0 snd ta_ptxn ta_responses] in Hw. fold st0 in Hw.
  destruct (fold_left (weigh_reply w (pt_bindOffset ptxn)) (p0 :: ps) st0) as [e1 ta] eqn:Ef. cbn [snd] in Hw.
  intros Hres. assert (exists x, (x, decide_txn (length (p0 :: ps)) ta) = (e', ptxn')) as [x [= <- <-]].
  { destruct (committed _); injection Hres as <- <-; eauto. }
  clear Hres. unfold decide_txn. destruct (aborted ta) eqn:Ea.
  { unfold aborted in Ea. apply bool_decide_eq_true in Ea. rewrite Ea. split; cycle 1.
    { split; [done|]. apply (replies_conflict (p0 :: ps) st0); [done|]. cbn [st0 snd ta_ptxn]. fold st0. rewrite Ef. unfold aborted. cbn [snd]. by rewrite Ea. }
    assert (pt_keys (ta_ptxn st0.2) = pt_keys (ta_ptxn ta)) as Hk; [|cbn in Hk; done].
    replace ta with (fold_left (weigh_reply w (pt_bindOffset ptxn)) (p0 :: ps) st0).2 by (by rewrite Ef). apply weigh_keys. }
  destruct Hw as (H1 & H2 & H3 & H4); [done|]. rewrite H1. split; [apply finish_fields|].
  unfold finish. rewrite Hp. cbn [length] in *. destruct (Nat.ltb_spec (ta_responses ta) (S (length ps))); cbn [fst]; cbn [pt_state].
  - split_and!; [done| |done]. destruct (list_find (fun p => w_reply w (pt_bindOffset ptxn) 0 p = None) (p0 :: ps)) as [[i p]|] eqn:El.
    + apply list_find_Some in El as (El & Hn & _). exists p. split; [by eapply list_elem_of_lookup_2|done].
    + exfalso. rewrite list_find_None in El. rewrite list.Forall_forall in El. apply Nat.lt_nge in H. apply H. apply H4. intros peer Hin.
      destruct (H3 peer Hin) as [Hn|]; [|done]. by destruct (El peer Hin).
  - intros _. apply H4. lia.
Qed.

(** ** From the bind to the outcome *)

Definition subscribers_silent (c : Context) (ptxn : pendingTxn) (e : Engine) : Prop :=
  (exists peer, peer ∈ subscribers_of c e /\ w_reply w (pt_bindOffset ptxn) 0 peer = None)
  /\ forall peer, peer ∈ subscribers_of c e -> w_reply w (pt_bindOffset ptxn) 0 peer = None \/ agrees ptxn peer.

(** How the replies decide. *)
Definition outcome_of (c : Context) (ptxn : pendingTxn) (e : Engine) (r : option ctx_error) : Prop :=
  match r with
  | None => w_broadcaster w = true -> forall peer, peer ∈ subscribers_of c e -> agrees ptxn peer
  | Some TxnAmbiguous => w_broadcaster w = true /\ subscribers_silent c ptxn e
  | Some TxnAborted => w_broadcaster w = true /\ exists peer, peer ∈ subscribers_of c e /\ objects ptxn peer
  | Some EmitFailed => w_broadcaster w = true /\ w_sends w (pt_bindOffset ptxn) = false
  | _ => False
  end.

Lemma settle_ok c bind hlc bo e c' e' r : settle w c bind hlc bo e = (c', e', r) ->
  outcome_of c (pending_of c hlc bo e) e r /\ c' = match r with Some EmitFailed => c | _ => reset c end.
Proof.
  unfold settle. set (ptxn := pending_of c hlc bo e). set (e0 := set_pendingTxns _ e). intros Hs.
  destruct (replicate_bind w c bind ptxn e0) as [[e1 ptxn']|] eqn:Er.
  - destruct (replicate_ok c bind ptxn e0 e1 ptxn' eq_refl Er) as [_ Ho].
    change (subscribers_of c e0) with (subscribers_of c e) in Ho. unfold subscribers_silent.
    destruct (pt_state ptxn'); [done|injection Hs as <- _ <-; cbn; auto..].
  - injection Hs as <- _ <-. split; [|done]. unfold replicate_bind in Er. cbn [outcome_of].
    destruct (w_broadcaster w); cbn [negb] in Er; [|done]. split; [done|].
    destruct (collectSubscribers _ _ _); [done|]. destruct (w_sends w (pt_bindOffset ptxn)); [|done]. exfalso. cbn [negb] in Er.
    destruct (fold_left _ _ _) as [e2 ta]. by destruct (committed _).
Qed.

(** ** Before publishing *)

Lemma in_key_list n (c : Context) key ck : (key, ck) ∈ key_list n c <-> c_keys c !! key = Some ck.
Proof. unfold key_list. rewrite (map_range_perm n (c_keys c)). apply elem_of_map_to_list. Qed.

(** Subscribing keeps the tips and adds subscriptions and what members
    advertise; nothing in flight changes. *)
Record only_subscribed (keys : list bytes) (e e' : Engine) : Prop := {
  os_flight : in_flight e' = in_flight e;
  os_subs : forall t, is_subscription_tip e t = true -> is_subscription_tip e' t = true;
  os_keeps : forall k, frontier_of e k ⊆ frontier_of e' k;
  os_others : forall k, k ∉ keys -> frontier_of e' k = frontier_of e k;
  os_new : forall k t, t ∈ frontier_of e' k -> t ∈ frontier_of e k \/ is_subscription_tip e' t = true \/ exists off, advertised w off t;
}.

Lemma only_subscribed_refl keys e e' : g_index e' = g_index e -> g_cache e' = g_cache e -> in_flight e' = in_flight e -> only_subscribed keys e e'.
Proof.
  intros Hi Hc Hf. assert (Hfr : forall k, frontier_of e' k = frontier_of e k) by (intros k; unfold frontier_of, index_tips; by rewrite Hi).
  split; try done; [by unfold is_subscription_tip; rewrite Hc|intros k; by rewrite Hfr|]. intros k t. rewrite Hfr. auto.
Qed.

Lemma only_subscribed_trans k1 k2 e1 e2 e3 : only_subscribed k1 e1 e2 -> only_subscribed k2 e2 e3 -> only_subscribed (k1 ++ k2) e1 e3.
Proof.
  intros [A1 A2 A3 A4 A5] [B1 B2 B3 B4 B5]. split; [congruence|auto|intros k; etrans; [apply A3|apply B3]| |].
  - intros k Hk. rewrite elem_of_app in Hk. rewrite B4, A4 by tauto. done.
  - intros k t Ht. destruct (B5 k t Ht) as [Ht'|]; [|auto]. destruct (A5 k t Ht') as [|[|]]; auto.
Qed.

Lemma announced_only key e e' : announced w key e e' -> only_subscribed [key] e e'.
Proof.
  intros (Hc & Hf & Hn & Ho & Hk & _ & Hnew). assert (Hs : is_subscription_tip e' (next_tip e) = true).
  { unfold is_subscription_tip. by rewrite Hc, lookup_insert_eq. }
  split; [done| | | |].
  - intros t Ht. destruct (decide (t = next_tip e)) as [->|Hne]; [done|]. unfold is_subscription_tip. rewrite Hc, lookup_insert_ne by done. done.
  - intros k. destruct (decide (k = key)) as [->|Hne]; [done|]. by rewrite Ho.
  - intros k Hin. apply Ho. intros ->. apply Hin. constructor.
  - intros k t. destruct (decide (k = key)) as [->|Hne]; [|rewrite Ho by done; auto].
    intros Ht. destruct (Hnew t Ht) as [|[->|[Ha _]]]; eauto.
Qed.

Lemma subscribe_only allowAsync key e : g_incomplete e ⊆ g_subs e ->
  only_subscribed [key] e (ensureSubscribedMode w allowAsync key e).1
  /\ g_incomplete (ensureSubscribedMode w allowAsync key e).1 ⊆ g_subs (ensureSubscribedMode w allowAsync key e).1.
Proof.
  intros Hi. destruct (ensureSubscribed_ok w allowAsync key e Hi) as [H1 H2]. split; [|done]. case_decide as Hk.
  - rewrite H2. by apply only_subscribed_refl.
  - destruct (ensureSubscribedMode w allowAsync key e) as [e' [[]|]]; cbn [fst snd] in *;
      first [by apply announced_only, H2|destruct H2 as (_ & ? & ? & ?); by apply only_subscribed_refl].
Qed.

Lemma subscribe_all_only keys e : g_incomplete e ⊆ g_subs e -> only_subscribed keys e (subscribe_all w keys e).1.
Proof.
  revert e. induction keys as [|key keys IH]; intros e Hi; cbn [subscribe_all]; [by apply only_subscribed_refl|].
  unfold ensureSubscribedBlocking. destruct (subscribe_only false key e Hi) as [H1 H2].
  destruct (ensureSubscribedMode w false key e) as [e1 [err|]]; cbn [fst] in *.
  - destruct H1 as [A1 A2 A3 A4 A5]. split; try done. intros k Hk. apply A4. set_solver.
  - apply (only_subscribed_trans [key] keys e e1); auto.
Qed.

(** Nothing happened to the key since the transaction looked at it, but new
    subscriptions. *)
Definition unmoved (e : Engine) (key : bytes) (ck : contextKey) : Prop :=
  Tips (ck_initialTips ck) = []
  \/ ((forall t, t ∈ Tips (ck_initialTips ck) -> t ∈ tips_at e key)
     /\ forall t, t ∈ tips_at e key -> t ∈ Tips (ck_initialTips ck) \/ is_subscription_tip e t = true).

Lemma stale_unmoved e key ck : stale_key e key ck = false <-> unmoved e key ck.
Proof.
  unfold stale_key, unmoved. destruct (Tips (ck_initialTips ck)) as [|t0 ts] eqn:E; [split; auto|]. rewrite <- E.
  rewrite orb_false_iff, <- !not_true_iff_false, !existsb_exists. unfold TipSet_Contains, tips_at. split.
  - intros [H1 H2]. right. split.
    + intros t Ht. destruct (decide (t ∈ Tips (index_tips e key))) as [|Hn]; [done|]. destruct H1. exists t.
      split; [by apply list_elem_of_In|]. by rewrite bool_decide_eq_false_2.
    + intros t Ht. destruct (decide (t ∈ Tips (ck_initialTips ck))) as [|Hn]; [auto|]. right. apply not_false_iff_true. intros Hs. destruct H2.
      exists t. split; [by apply list_elem_of_In|]. rewrite bool_decide_eq_false_2 by done. by rewrite Hs.
  - intros [|[H1 H2]]; [congruence|]. split.
    + intros (t & Ht%list_elem_of_In & Hb). rewrite bool_decide_eq_true_2 in Hb by auto. done.
    + intros (t & Ht%list_elem_of_In & Hb). destruct (H2 t Ht) as [Hin|Hs]; [rewrite bool_decide_eq_true_2 in Hb by done; done|].
      rewrite Hs, andb_false_r in Hb. done.
Qed.

(** ** The whole protocol *)

(** What [flushTx] works with: the transaction is over whatever comes. *)
Definition committing (c : Context) : Context := mkContext false (c_txnID c) (c_keys c) (c_watchedKeys c) None (c_readErr c).

Definition begun (c : Context) : bool := match c_txSnapshot c with Some _ => true | None => false end.

Definition published (c : Context) (e : Engine) : Engine := fold_left (publish_key w) (key_list 21 c) e.

(** The bind of the published transaction, offered at [e] at [offset]. *)
Record offered (c : Context) (e1 : Engine) (bind : TransactionalBindEffect) (hlc : Timestamp) (offset : Tip) (e : Engine) : Prop := {
  of_clock : hlc = w_clock w (g_ticks (published c e1));
  of_bind : bind = bind_of c hlc (read_clock w (published c e1)).1;
  of_alone : checkCompetingBinds (obtainable w (read_clock w (published c e1)).1) bind (c_txnID c) (read_clock w (published c e1)).1 = None;
  of_minted : exists e0, rawEmit w (bind_effect c bind hlc (g_node (published c e1))) (read_clock w (published c e1)).1 = (e0, Some offset)
    /\ e = index_bind offset bind e0;
}.

Definition bind_hash (c : Context) (e1 : Engine) (hlc : Timestamp) : bytes := ComputeForkChoiceHash (g_node (published c e1)) (Some hlc).

(** Ways to fail after publishing. *)
Inductive lost (had : bool) (c : Context) (e1 : Engine) : option ctx_error -> Prop :=
  | lost_forked : forked had c (published c e1) = true -> lost had c e1 (Some TxnAborted)
  | lost_competing other : let e2 := (read_clock w (published c e1)).1 in
      checkCompetingBinds (obtainable w e2) (bind_of c (w_clock w (g_ticks (published c e1))) e2) (c_txnID c) e2 = Some other ->
      lost had c e1 (Some TxnAborted)
  | lost_mint : lost had c e1 (Some EmitFailed)
  | lost_voided bind hlc offset e : offered c e1 bind hlc offset e ->
      evaluateBindForkChoice (obtainable w e) bind offset (bind_hash c e1 hlc) (c_txnID c) e = true -> lost had c e1 (Some TxnAborted)
  | lost_replies bind hlc offset e err : offered c e1 bind hlc offset e ->
      evaluateBindForkChoice (obtainable w e) bind offset (bind_hash c e1 hlc) (c_txnID c) e = false ->
      outcome_of c (pending_of c hlc offset e) e (Some err) -> lost had c e1 (Some err).

Lemma commit_bind_ok had c e1 c' e' r : commit_bind w c (published c e1) = (c', e', r) ->
  (r = Some EmitFailed \/ c' = reset c)
  /\ match r with
     | None => exists bind hlc offset e, offered c e1 bind hlc offset e
         /\ evaluateBindForkChoice (obtainable w e) bind offset (bind_hash c e1 hlc) (c_txnID c) e = false
         /\ outcome_of c (pending_of c hlc offset e) e None
     | Some _ => lost had c e1 r
     end.
Proof.
  unfold commit_bind. set (p := published c e1). set (hlc := w_clock w (g_ticks p)).
  change (read_clock w p) with ((read_clock w p).1, hlc). set (e2 := (read_clock w p).1). cbv beta iota zeta. set (bind := bind_of c hlc e2).
  destruct (checkCompetingBinds _ _ _ _) as [other|] eqn:Ec; [intros [= <- <- <-]; split; [auto|by eapply lost_competing]|].
  destruct (rawEmit w (bind_effect c bind hlc (g_node e2)) e2) as [e3 [offset|]] eqn:Er; [|intros [= <- <- <-]; split; [auto|constructor]].
  assert (Hof : offered c e1 bind hlc offset (index_bind offset bind e3)) by (split; [done..|]; by exists e3).
  assert (Eh : e_fork_choice_hash (bind_effect c bind hlc (g_node e2)) = bind_hash c e1 hlc) by (cbn [bind_effect e_fork_choice_hash]; unfold bind_hash; f_equal). rewrite Eh. clear Eh.
  destruct (evaluateBindForkChoice _ _ _ _ _ _) eqn:Ev; [intros [= <- <- <-]; split; [auto|by eapply lost_voided]|].
  intros Hs. destruct (settle_ok _ _ _ _ _ _ _ _ Hs) as [Ho ->]. split; [destruct r as [[]|]; auto; done|].
  destruct r as [err|]; [by eapply lost_replies|]. by exists bind, hlc, offset, (index_bind offset bind e3).
Qed.

Lemma flushTx_stages c e c' e' r : flushTx w c e = (c', e', r) -> c_keys c <> ∅ ->
  let c0 := committing c in let sub := subscribe_all w (map fst (key_list 19 c0)) e in
  (r = Some TxnPartitioned /\ c' = reset c0 /\ ((partitioned w c0 = true /\ e' = e) \/ (partitioned w c0 = false /\ sub = (e', false))))
  \/ (partitioned w c0 = false /\ sub.2 = true /\
      (((exists key ck, c_keys c !! key = Some ck /\ ~ unmoved sub.1 key ck) \/ spoken_conflict w c0 sub.1 = true)
         /\ r = Some TxnAborted /\ c' = reset c0 /\ e' = release c0 sub.1
       \/ (forall key ck, c_keys c !! key = Some ck -> unmoved sub.1 key ck) /\ spoken_conflict w c0 sub.1 = false
         /\ ((forked (begun c) c0 (published c0 sub.1) = true /\ r = Some TxnAborted /\ c' = reset c0 /\ e' = release c0 (published c0 sub.1))
             \/ (forked (begun c) c0 (published c0 sub.1) = false /\ commit_bind w c0 (published c0 sub.1) = (c', e', r))))).
Proof.
  cbv zeta. unfold flushTx. fold (committing c). fold (begun c). intros Hf Hne. rewrite bool_decide_eq_false_2 in Hf by done.
  destruct (partitioned w (committing c)); [injection Hf as <- <- <-; auto 6|].
  destruct (subscribe_all _ _ _) as [e1 [|]]; [|injection Hf as <- <- <-; auto 7]. right. cbn [fst snd]. split_and!; [done..|].
  destruct (existsb _ _) eqn:Ee; cbn [orb] in Hf.
  { injection Hf as <- <- <-. left. split; [|done]. left. apply existsb_exists in Ee as ([key ck] & Hin%list_elem_of_In & Hs).
    apply in_key_list in Hin. exists key, ck. split; [done|]. rewrite <- stale_unmoved. cbn in Hs. congruence. }
  destruct (spoken_conflict w (committing c) e1); [injection Hf as <- <- <-; left; auto|]. right.
  split_and!; [|done|destruct (forked _ _ _); [injection Hf as <- <- <-; by left|by right]].
  intros key ck Hk. apply stale_unmoved. apply not_true_iff_false. intros Hs. rewrite <- not_true_iff_false, existsb_exists in Ee.
  apply Ee. exists (key, ck). split; [|done]. by apply list_elem_of_In, in_key_list.
Qed.



End Props.

(** * Committing alone *)


Section Props.
Context {snaps : TxnSnapshots} {ranger : MapRange} {sorter : SortFunc} `{!ProtoCodec Effect} {codec : Codec} {encoder : Encoder}.
Variable (w : World).

(** ** One update per key *)

Lemma fold_frontier {A} (f : Engine -> A -> Engine) (keyof : A -> bytes) (upd : A -> gset Tip -> gset Tip) l :
  (forall e x k, frontier_of (f e x) k = if decide (k = keyof x) then upd x (frontier_of e k) else frontier_of e k) ->
  NoDup (map keyof l) -> forall e,
  (forall x, x ∈ l -> frontier_of (fold_left f l e) (keyof x) = upd x (frontier_of e (keyof x)))
  /\ forall k, k ∉ map keyof l -> frontier_of (fold_left f l e) k = frontier_of e k.
Proof.
  intros Hf. induction l as [|x l IH]; intros Hnd e; cbn [fold_left map] in *; [split; [by intros ? ?%elem_of_nil|done]|].
  apply list.NoDup_cons in Hnd as [Hx Hnd]. destruct (IH Hnd (f e x)) as [H1 H2]. split.
  - intros y [->|Hy]%elem_of_cons; [rewrite H2, Hf, decide_True by done; done|]. rewrite H1 by done. rewrite Hf, decide_False; [done|].
    intros Heq. apply Hx. rewrite <- Heq. apply list_elem_of_fmap. eauto.
  - intros k Hk. apply not_elem_of_cons in Hk as [Hne Hk]. rewrite H2, Hf, decide_False by done. done.
Qed.

Lemma fold_frame {A B} (F : Engine -> B) (f : Engine -> A -> Engine) l e : (forall e x, F (f e x) = F e) -> F (fold_left f l e) = F e.
Proof. intros Hf. revert e. induction l as [|x l IH]; intros e; cbn [fold_left]; [done|]. by rewrite IH, Hf. Qed.

(** What neither publishing nor indexing changes. *)
Definition quiet (e : Engine) : Store * Z * Z * gmap Tip pendingTxn * option HorizonSet :=
  (g_cache e, g_node e, g_nextOff e, g_pendingTxns e, g_horizon e).

Lemma update_quiet key ini last e : quiet (updateIndex key ini last e) = quiet e /\ g_pendingTips (updateIndex key ini last e) = g_pendingTips e.
Proof. unfold updateIndex, apply_update. by case_match. Qed.

Lemma subOps_quiet key ck e : quiet (applySubOps key ck e) = quiet e.
Proof.
  unfold applySubOps. apply (fold_frame quiet). intros e0 op. case_match; unfold removePeerSubscriber, addPeerSubscriber; by repeat case_match.
Qed.

(** ** Publishing the effects *)

Lemma publish_quiet e p : quiet (publish_key w e p) = quiet e.
Proof.
  destruct p as [key ck]. unfold publish_key. etrans; [|apply (update_quiet key (ck_initialTips ck) (ck_lastOffset ck) e)].
  etrans; [|apply (subOps_quiet key ck)]. done.
Qed.

Lemma publish_frontier e p k :
  frontier_of (publish_key w e p) k
  = if decide (k = p.1) then (frontier_of e k ∖ list_to_set (Tips (ck_initialTips p.2))) ∪ {[ ck_lastOffset p.2 ]} else frontier_of e k.
Proof.
  destruct p as [key ck]. unfold publish_key. set (e1 := updateIndex key _ _ e).
  change (frontier_of (applySubOps key ck e1) k = if decide (k = key) then (frontier_of e k ∖ list_to_set (Tips (ck_initialTips ck))) ∪ {[ ck_lastOffset ck ]} else frontier_of e k).
  rewrite (frontier_core _ _ k (proj1 (applySubOps_frame key ck e1))). unfold e1, updateIndex. rewrite frontier_update.
  destruct (decide (k = key)) as [->|]; [|done]. cbn [consumed added list_to_set]. set_solver.
Qed.

Lemma key_list_nodup n (c : Context) : NoDup (map fst (key_list n c)).
Proof. unfold key_list. change (map fst (map_range n (c_keys c))) with ((map_range n (c_keys c)).*1). rewrite (map_range_perm n). apply NoDup_fst_map_to_list. Qed.

Lemma key_list_none n (c : Context) k : c_keys c !! k = None -> k ∉ map fst (key_list n c).
Proof. intros Hk ([k' ck] & -> & Hin)%list_elem_of_fmap. apply in_key_list in Hin. cbn in Hk. congruence. Qed.

(** ** The bind *)

Lemma bind_keys_perm (c : Context) e :
  bind_keys_of c e ≡ₚ map (fun p => mkKeyBind p.1 (resolveTipDeps (Tips (ck_initialTips p.2)) e) (ck_lastOffset p.2)) (key_list 15 c).
Proof. apply sort_func_perm. Qed.

Lemma in_bind_keys (c : Context) e kb :
  kb ∈ bind_keys_of c e <-> exists ck, c_keys c !! kb_key kb = Some ck
    /\ kb = mkKeyBind (kb_key kb) (resolveTipDeps (Tips (ck_initialTips ck)) e) (ck_lastOffset ck).
Proof.
  rewrite bind_keys_perm. split.
  - intros ([key ck] & -> & Hin)%list_elem_of_fmap. apply in_key_list in Hin. by exists ck.
  - intros (ck & Hk & ->). apply list_elem_of_fmap. exists (kb_key kb, ck). split; [done|]. by apply in_key_list.
Qed.

Lemma bind_keys_nodup (c : Context) e : NoDup (map kb_key (bind_keys_of c e)).
Proof. rewrite bind_keys_perm, map_map. apply (key_list_nodup 15). Qed.

Lemma index_bind_frontier offset bind e : NoDup (map kb_key (tb_keys bind)) ->
  (forall kb, kb ∈ tb_keys bind -> frontier_of (index_bind offset bind e) (kb_key kb) = (frontier_of e (kb_key kb) ∖ {[ kb_new_tip kb ]}) ∪ {[ offset ]})
  /\ (forall k, k ∉ map kb_key (tb_keys bind) -> frontier_of (index_bind offset bind e) k = frontier_of e k).
Proof.
  intros Hnd. apply (fold_frontier _ kb_key (fun kb F => (F ∖ {[ kb_new_tip kb ]}) ∪ {[ offset ]})); [|done].
  intros e0 kb k. unfold updateIndex. rewrite frontier_update. destruct (decide (k = kb_key kb)) as [->|]; [|done].
  cbn [consumed added list_to_set Tips NewTipSet]. set_solver.
Qed.

Lemma index_bind_frame offset bind e :
  quiet (index_bind offset bind e) = quiet e /\ g_pendingTips (index_bind offset bind e) = g_pendingTips e.
Proof.
  unfold index_bind. split; [apply (fold_frame quiet)|apply (fold_frame g_pendingTips)]; intros e0 kb; apply update_quiet.
Qed.

(** ** The whole of it *)

Lemma subscribed_noop keys e : (forall key, key ∈ keys -> key ∈ g_subs e) -> (subscribe_all w keys e).1 = e.
Proof.
  induction keys as [|key keys IH]; intros Hk; cbn [subscribe_all]; [done|].
  unfold ensureSubscribedBlocking, ensureSubscribedMode. rewrite bool_decide_eq_true_2 by (apply Hk; constructor).
  destruct (awaitSubscription key (is_unsafe w key) e) as [err|]; [done|]. apply IH. intros k Hin. apply Hk. by constructor.
Qed.

Lemma delete_tips_lookup l t e : t ∈ l -> g_pendingTips (delete_tips l e) !! t = None.
Proof.
  unfold delete_tips. cbn [set_pendingTips g_pendingTips]. generalize (g_pendingTips e). induction l as [|x l IH]; intros m Ht; [by apply elem_of_nil in Ht|].
  cbn [fold_left]. destruct (decide (t ∈ l)) as [Hin|Hn]; [by apply IH|]. apply elem_of_cons in Ht as [->|]; [|done]. clear IH.
  assert (forall l (m : gmap Tip (list Tip)), m !! x = None -> fold_left (fun m t => delete t m) l m !! x = None) as Hd.
  { clear. induction l as [|y l IH]; intros m Hm; cbn [fold_left]; [done|]. apply IH. destruct (decide (x = y)) as [->|]; [apply lookup_delete_eq|by rewrite lookup_delete_ne]. }
  apply Hd, lookup_delete_eq.
Qed.

(** Settling without anybody to ask. *)
Lemma settle_solo c bind hlc bo e : w_broadcaster w = false ->
  exists e', settle w c bind hlc bo e = (reset c, e', None) /\ g_cache e' = g_cache e /\ g_index e' = g_index e
    /\ g_pendingTxns e' = delete bo (g_pendingTxns e)
    /\ (g_horizon e = None -> forall key ck, c_keys c !! key = Some ck -> g_pendingTips e' !! ck_lastOffset ck = None).
Proof.
  intros Hb. unfold settle, replicate_bind. rewrite Hb. cbn [negb]. eexists. split; [reflexivity|].
  set (e0 := set_pendingTxns _ (set_pendingTxns _ e)). set (l := map pk_newTip _).
  split_and!; [by destruct (no_horizon e0)|by destruct (no_horizon e0)| |].
  - destruct (no_horizon e0); cbn [emit_out delete_tips set_pendingTips g_pendingTxns e0 set_pendingTxns]; apply delete_insert_eq.
  - intros Hh key ck Hk. assert (no_horizon e0 = true) as -> by (unfold no_horizon; cbn; by rewrite Hh). cbn [emit_out g_pendingTips].
    apply delete_tips_lookup. unfold l. cbn [finish pending_of pt_state fst pt_keys]. rewrite map_map. apply list_elem_of_fmap. exists (key, ck).
    split; [done|]. by apply in_key_list.
Qed.

Lemma rawEmit_solo eff e : w_broadcaster w = false ->
  rawEmit w eff e = (set_nextOff (wrapu64 (g_nextOff e + 1)) e, None)
  \/ rawEmit w eff e = (emit_out [OLocalEffect (next_tip e)] (set_cache (<[next_tip e := eff]> (g_cache e)) (set_nextOff (wrapu64 (g_nextOff e + 1)) e)), Some (next_tip e)).
Proof. intros Hb. unfold rawEmit, nextOffset, putIngested. rewrite Hb. cbn [andb]. destruct (w_accepts w _); [by right|by left]. Qed.

Definition committed_frontier (keys : gmap bytes contextKey) (bindOffset : Tip) (e : Engine) (k : bytes) : gset Tip :=
  match keys !! k with
  | Some ck => (frontier_of e k ∖ list_to_set (Tips (ck_initialTips ck)) ∖ {[ ck_lastOffset ck ]}) ∪ {[ bindOffset ]}
  | None => frontier_of e k
  end.

Lemma frontier_index e e' k : g_index e' = g_index e -> frontier_of e' k = frontier_of e k.
Proof. intros Hi. unfold frontier_of, index_tips. by rewrite Hi. Qed.

(** Publishing then indexing the bind, seen from the index. *)
Lemma published_frontier c e0 e1 e2 hlc bo k :
  (forall k, frontier_of e2 k = frontier_of (published w c e0) k) ->
  frontier_of (index_bind bo (bind_of c hlc e1) e2) k = committed_frontier (c_keys c) bo e0 k.
Proof.
  intros He. destruct (index_bind_frontier bo (bind_of c hlc e1) e2 (bind_keys_nodup c e1)) as [B1 B2].
  destruct (fold_frontier (publish_key w) fst (fun p F => (F ∖ list_to_set (Tips (ck_initialTips p.2))) ∪ {[ ck_lastOffset p.2 ]}) (key_list 21 c)
    publish_frontier (key_list_nodup 21 c) e0) as [P1 P2].
  fold (published w c e0) in P1, P2. unfold committed_frontier. destruct (c_keys c !! k) as [ck|] eqn:Ek.
  - set (kb := mkKeyBind k (resolveTipDeps (Tips (ck_initialTips ck)) e1) (ck_lastOffset ck)).
    pose proof (B1 kb ltac:(apply in_bind_keys; by exists ck)) as Hb. cbn [kb kb_key kb_new_tip] in Hb. rewrite Hb, He. pose proof (P1 (k, ck) ltac:(by apply in_key_list)) as Hp. cbn [fst snd] in Hp.
    rewrite Hp. set_solver.
  - rewrite B2; [rewrite He; apply P2; by apply key_list_none|].
    cbn [tb_keys bind_of]. intros (kb & -> & (ck & Hk & _)%in_bind_keys)%list_elem_of_fmap. congruence.
Qed.

(** [C8] What a commit without peers does.  A transaction on subscribed keys
    that commits mints one effect, its bind, under the next reference: it names
    the transaction and exactly the pending keys, each with the last effect on
    it.  The bind replaces on every pending key the tips the transaction
    started from and its own last effect, and touches no other key.  Afterwards
    the transaction is not in flight, and without a horizon none of its effects
    is pending. *)
Theorem solo_commit_exact (c c' : Context) (e e' : Engine) : flushTx w c e = (c', e', None) -> c_keys c <> ∅ -> w_broadcaster w = false ->
  (forall key, is_Some (c_keys c !! key) -> key ∈ g_subs e) ->
  exists bind eff, g_cache e' = <[next_tip e := eff]> (g_cache e) /\ get_txn_bind eff = Some bind /\ e_txn_id eff = c_txnID c
    /\ (forall key last, (exists kb, kb ∈ tb_keys bind /\ kb_key kb = key /\ kb_new_tip kb = last)
         <-> exists ck, c_keys c !! key = Some ck /\ ck_lastOffset ck = last)
    /\ (forall k, frontier_of e' k = committed_frontier (c_keys c) (next_tip e) e k)
    /\ g_pendingTxns e' = delete (next_tip e) (g_pendingTxns e)
    /\ (g_horizon e = None -> forall key ck, c_keys c !! key = Some ck -> g_pendingTips e' !! ck_lastOffset ck = None).
Proof.
  intros Hf Hne Hb Hsub. destruct (flushTx_stages w _ _ _ _ _ Hf Hne) as [(? & _)|(_ & _ & [(_ & ? & _)|(_ & _ & [(_ & ? & _)|(_ & Hc)])])]; [done..|].
  rewrite subscribed_noop in Hc by (intros key ([k ck] & -> & Hin%in_key_list)%list_elem_of_fmap; apply Hsub; eexists; exact Hin).
  set (c0 := committing c) in *. set (p := published w c0 e) in *. assert (Hq : quiet p = quiet e) by (apply (fold_frame quiet), publish_quiet).
  unfold commit_bind in Hc. change (read_clock w p) with ((read_clock w p).1, w_clock w (g_ticks p)) in Hc. cbv beta iota zeta in Hc.
  set (e2 := (read_clock w p).1) in *. set (bind := bind_of c0 _ e2) in *. destruct (checkCompetingBinds _ _ _ _); [done|].
  set (eff := bind_effect c0 bind _ _) in *. assert (Hnt : next_tip e2 = next_tip e) by (unfold quiet in Hq; injection Hq as _ Hn Ho _ _; unfold next_tip; cbn [e2 fst read_clock set_ticks g_node g_nextOff]; by rewrite Hn, Ho).
  destruct (rawEmit_solo eff e2 Hb) as [Er|Er]; rewrite Er in Hc; [done|]. rewrite Hnt in Hc. clear Er.
  set (e3 := emit_out _ _) in *. destruct (evaluateBindForkChoice _ _ _ _ _ _); [done|].
  destruct (settle_solo c0 bind (w_clock w (g_ticks p)) (next_tip e) (index_bind (next_tip e) bind e3) Hb) as (e4 & Hs & S1 & S2 & S3 & S4).
  rewrite Hs in Hc. injection Hc as _ <-. destruct (index_bind_frame (next_tip e) bind e3) as [Hq3 _].
  unfold quiet in Hq, Hq3. injection Hq as Q1 Q2 Q3 Q4 Q5. injection Hq3 as R1 R2 R3 R4 R5. exists bind, eff. split_and!; [|done..| | | |].
  - rewrite S1, R1. change (g_cache e3) with (<[next_tip e := eff]> (g_cache p)). by rewrite Q1.
  - intros key last. split.
    + intros (kb & (ck & Hk & ->)%in_bind_keys & <- & <-). by exists ck.
    + intros (ck & Hk & <-). exists (mkKeyBind key (resolveTipDeps (Tips (ck_initialTips ck)) e2) (ck_lastOffset ck)).
      split; [apply in_bind_keys; by exists ck|done].
  - intros k. rewrite (frontier_index _ _ k S2). by apply (published_frontier c0 e e2 e3).
  - rewrite S3, R4. change (g_pendingTxns e3) with (g_pendingTxns p). by rewrite Q4.
  - intros Hh. apply S4. rewrite R5. change (g_horizon e3) with (g_horizon p). by rewrite Q5.
Qed.

End Props.
