(* ===== verification/EngineWitness.v ===== *)
(** * A small engine at work

    One node subscribed to one key, a remote write on it, a remote bind, and the
    history two transactions leave. *)

From S2P Require Import Prelude Golib Proto Reduce Compress Store Walk ForkChoice Horizon Predicate Txn Dag TipSet Safety Frontier Wire WireWitness Engine Ingest IngestProps IngestHistory Compete CompeteProps Subscribe Context ContextProps Commit CommitProps.

#[local] Existing Instance insertion_sorter.
#[local] Instance demo_ranger : MapRange := listed_range.

Definition demo_key : bytes := [x6b].

Definition demo_effect (node hlc : Z) (deps : list Tip) (txn : bytes) (kind : EffectKind) : Effect :=
  mkEffect demo_key (Some (mkTimestamp hlc 0)) node deps txn (ComputeForkChoiceHash node (Some (mkTimestamp hlc 0))) [] (Some kind).

Definition demo_insert (v : Z) : EffectKind :=
  KData (mkData INSERT_OP LAST_WRITE_WINS SCALAR PLACE_NONE [] [] (Some (IntVal v))).

Definition demo_base : Effect := demo_effect 3 1 [] [] (demo_insert 1).
Definition demo_write : Effect := demo_effect 2 9 [(3, 1)] [] (demo_insert 2).

(** The node holds the base, the only tip of the key. *)
Definition demo_engine : Engine :=
  mkEngine 1 0 1 {[ demo_key := NewTipSet 0 [(3, 1)] ]} ∅ {[ (3, 1) := demo_base ]} {[ demo_key ]} ∅ ∅ ∅ None ∅ 0 0 0 [].

Definition demo_world : World := mkWorld true true ∅ (fun _ => true) true (fun _ => true) true (UpdateSafetyRules SafeMode [])
  (fun n => mkTimestamp (10 + n) 0) [2] (fun _ _ _ => Some []) 1 None false (fun _ => true).

#[local] Instance demo_codec : ProtoCodec Effect := one_message demo_write [x2a; x2b].

Definition demo_data : bytes := frame demo_key [x2a; x2b].

Definition demo_hash_valid : hash_valid demo_write = true.
Proof. apply bool_decide_eq_true. reflexivity. Qed.

(** The effect replaces the base. *)
Lemma remote_effect_exact_witness : exists e' nacks,
  handle_effect demo_world (2, 9) demo_write demo_engine = (e', inr nacks) /\ arrived (2, 9) demo_write demo_engine e'.
Proof.
  pose proof (remote_effect_exact demo_world (2, 9) demo_write demo_engine eq_refl) as H. cbv zeta in H.
  replace (authoritative demo_engine demo_write) with true in H by (vm_compute; reflexivity).
  rewrite demo_hash_valid in H. replace (is_flush demo_write) with false in H by (vm_compute; reflexivity). exact H.
Defined.

(** A dependency that is not a tip: the sender is told. *)
Definition demo_stale : Effect := demo_effect 2 9 [(3, 0)] [] (demo_insert 2).

Lemma demo_stale_accepted : exists e' nacks, handle_effect demo_world (2, 9) demo_stale demo_engine = (e', inr nacks).
Proof.
  unfold handle_effect. cbn [ephemeral demo_stale demo_effect e_kind demo_insert].
  replace (authoritative _ _) with true by (vm_compute; reflexivity). cbn [orb negb].
  assert (Hv : hash_valid demo_stale = true) by (apply bool_decide_eq_true; reflexivity).
  change (mkEffect demo_key _ _ _ _ _ _ _) with demo_stale. rewrite Hv. cbn [negb].
  unfold putIngested, ingest_accepted. cbn [w_accepts demo_world].
  replace (is_flush demo_stale) with false by (vm_compute; reflexivity).
  destruct (subscription_reply _ _ _ _) as [e1 r]. eauto.
Defined.

Lemma refusals_exact_witness : exists e' nacks nack,
  handle_effect demo_world (2, 9) demo_stale demo_engine = (e', inr nacks) /\ nack ∈ nacks /\ nk_key nack = demo_key
  /\ refusal (2, 9) demo_engine e' nack.
Proof.
  destruct demo_stale_accepted as (e' & nacks & He).
  destruct (refusals_exact demo_world (2, 9) demo_stale demo_engine e' nacks eq_refl ltac:(vm_compute; reflexivity) ltac:(vm_compute; reflexivity) He)
    as [Hk Hr].
  destruct (proj2 (Hk demo_key)) as (nack & Hn & Hkey).
  { unfold answered. change (get_txn_bind demo_stale) with (@None TransactionalBindEffect). change (e_key demo_stale) with demo_key.
    change (e_deps demo_stale) with [(3, 0)]. split; [reflexivity|]. left.
    split; [eexists; reflexivity|]. exists (3, 0). split; [apply list_elem_of_singleton; reflexivity|].
    by apply (bool_decide_eq_false_1 ((3, 0) ∈ tips_at demo_engine demo_key)). }
  exists e', nacks, nack. exact (conj He (conj Hn (conj Hkey (Hr nack Hn)))).
Defined.

(** ** A history of two effects *)

Definition demo_truth : Store := {[ (3, 1) := demo_base; (2, 9) := demo_write ]}.

Lemma demo_truth_lookup t eff : demo_truth !! t = Some eff -> eff = demo_base \/ eff = demo_write.
Proof. unfold demo_truth. rewrite lookup_insert_Some, lookup_singleton_Some. naive_solver. Qed.

Lemma demo_parse data eff : parse_data data = Some eff -> eff = demo_write.
Proof.
  unfold parse_data. destruct (unwrap data) as [p|]; [|done]. cbn [mbind option_bind]. unfold UnmarshalEffect, unmarshal, demo_codec, one_message.
  case_decide; [|done]. cbn. by intros [= <-].
Qed.

Lemma ingest_keeps_history_witness :
  let e' := (HandleRemote demo_world (mkNotify (Some (2, 9)) demo_key demo_data) demo_engine).1 in
  exists t', t' ∈ tips_at e' demo_key /\ rtc (dep (g_cache e') demo_key) t' (3, 1).
Proof.
  intros e'.
  assert (well_formed demo_truth) as Hwf.
  { split; [intros t eff b [-> | ->]%demo_truth_lookup Hb|intros t eff [-> | ->]%demo_truth_lookup]; done. }
  assert (g_cache demo_engine ⊆ demo_truth) as Hc.
  { unfold demo_truth. cbn [g_cache demo_engine]. apply map_singleton_subseteq_l. apply lookup_insert_eq. }
  destruct (ingest_keeps_history demo_truth demo_engine e' Hwf Hc) as [H _].
  - apply rtc_once. apply step_remote.
    + intros t data Hd. exfalso. cbn in Hd. by rewrite lookup_empty in Hd.
    + intros o eff Ho _ ->%demo_parse _. cbn in Ho. injection Ho as <-. vm_compute. reflexivity.
  - apply H. apply (bool_decide_eq_true_1 ((3, 1) ∈ tips_at demo_engine demo_key)). vm_compute. reflexivity.
Defined.

(** ** Two transactions *)

Definition demo_bind : TransactionalBindEffect := mkBind [mkKeyBind demo_key [(3, 1)] (2, 9)] (Some (mkTimestamp 9 0)) 2 [].

(** Another transaction has bound the key on the same base. *)
Definition demo_rivals : Store := {[
  (3, 1) := demo_base;
  (2, 9) := demo_effect 2 9 [(3, 1)] [x62] (demo_insert 2);
  (2, 10) := demo_effect 2 10 [(3, 1)] [x62] (KTxnBind demo_bind) ]}.

Definition demo_ours : TransactionalBindEffect := mkBind [mkKeyBind demo_key [(3, 1)] (1, 4)] (Some (mkTimestamp 8 0)) 1 [].

Definition demo_contended : Engine :=
  mkEngine 1 5 1 {[ demo_key := NewTipSet 0 [(2, 10)] ]} ∅ demo_rivals {[ demo_key ]} ∅ ∅ ∅ None ∅ 0 0 0 [].

Example demo_conflict : checkCompetingBinds demo_rivals demo_ours [x61] demo_contended = Some [x62].
Proof. vm_compute. reflexivity. Qed.

Lemma competing_bind_exact_witness :
  exists kb, kb ∈ tb_keys demo_ours /\ rival_known demo_rivals kb [x61] demo_contended [x62].
Proof.
  pose proof (competing_bind_exact demo_rivals demo_ours [x61] demo_contended) as H.
  rewrite demo_conflict in H. apply H. clear H. intros t eff Ht.
  unfold demo_rivals in Ht. rewrite !lookup_insert_Some, lookup_singleton_Some in Ht.
  destruct Ht as [[_ <-]|(_ & [[_ <-]|(_ & [_ <-])])]; [intros []; discriminate|discriminate..].
Defined.

(** A store that offers both the write and what it replaced. *)
Definition demo_load (t : Tip) : load_error + Effect :=
  match demo_truth !! t with Some eff => inr eff | None => inl BlobMissing end.

Lemma cloud_tips_exact_witness :
  NormalizeCloudTipCandidates demo_key demo_load (dom demo_truth) [(3, 1); (2, 9)] [] = Some ([(2, 9)], [(3, 1)])
  /\ exists s, s ∈ [(2, 9)] /\ rtc (fun x y => y ∈ cloud_deps demo_key demo_load x) s (3, 1).
Proof.
  pose proof (cloud_tips_exact demo_key demo_load (dom demo_truth) (fun t => Z.to_nat t.2) [(3, 1); (2, 9)] []) as H.
  assert (NormalizeCloudTipCandidates demo_key demo_load (dom demo_truth) [(3, 1); (2, 9)] [] = Some ([(2, 9)], [(3, 1)])) as E
    by (vm_compute; reflexivity).
  rewrite E in H. split; [exact E|]. destruct H as (_ & _ & _ & H).
  - intros t eff. unfold demo_load. destruct (demo_truth !! t) eqn:Et; [|done]. intros _. by eapply elem_of_dom_2.
  - intros x d. unfold cloud_deps, demo_load, demo_truth. destruct (decide (x = (3, 1))) as [->|].
    { rewrite lookup_insert_eq. cbn. by intros ?%elem_of_nil. }
    rewrite lookup_insert_ne by done. destruct (decide (x = (2, 9))) as [->|].
    + rewrite lookup_singleton_eq. cbn. intros ->%list_elem_of_singleton. cbn. lia.
    + rewrite lookup_singleton_ne by done. by intros ?%elem_of_nil.
  - apply H. constructor.
Defined.

(** * A transaction at work

    The node of the small engine emits two effects, flushes, rolls back, and
    commits a transaction with the consent of a peer, and one alone. *)


#[local] Existing Instance insertion_sorter.
#[local] Instance listed : MapRange := listed_range.
#[local] Existing Instance toy_codec.
#[local] Existing Instance toy_encoder.

(** ** Parameters *)

(** Transactions that read the present. *)
Program Definition present : TxnSnapshots := {|
  tx_snapshot := unit;
  newTransactionSnapshot _ _ := tt;
  snapshot_tips _ s key e := (e, s, Some (index_tips e key));
|}.
Solve Obligations with done.

#[local] Existing Instance present.

(** ** A transaction with a peer *)

Definition tx_name : bytes := [x74].

Definition tx_write : Effect := demo_effect 1 11 [(3, 1)] tx_name (demo_insert 5).

Definition tx_bind : Effect :=
  demo_effect 1 12 [(1, 1)] tx_name (KTxnBind (mkBind [mkKeyBind demo_key [(3, 1)] (1, 1)] (Some (mkTimestamp 12 0)) 1 [])).

#[local] Instance tx_codec : ProtoCodec Effect := table_codec [tx_write; tx_bind].

(** Node 2 subscribes to the key. *)
Definition tx_engine : Engine :=
  mkEngine 1 0 1 {[ demo_key := NewTipSet 0 [(3, 1)] ]} {[ demo_key := [2] ]} {[ (3, 1) := demo_base ]} {[ demo_key ]} ∅ ∅ ∅ None ∅ 0 1 0 [].

Definition tx_start : Context := mkContext true tx_name ∅ ∅ (Some tt) None.

Definition tx_emitted : Context * Engine * option ctx_error := Emit demo_world (demo_effect 0 0 [] [] (demo_insert 5)) None tx_start tx_engine.

Definition tx_context : Context := tx_emitted.1.1.
Definition tx_node : Engine := tx_emitted.1.2.

(** A result that is known to have no error. *)
Lemma no_error {A B E} (r : A * B * option E) : r.2 = None -> r = (r.1.1, r.1.2, None).
Proof. destruct r as [[a b] o]. cbn. by intros ->. Qed.


(** The key moved on while the transaction ran. *)
Definition tx_moved : Engine :=
  mkEngine 1 1 3 {[ demo_key := NewTipSet 2 [(2, 9)] ]} {[ demo_key := [2] ]} {[ (3, 1) := demo_base; (2, 9) := demo_write ]} {[ demo_key ]} ∅ ∅ ∅ None ∅ 0 2 0 [].


(** ** Alone *)

Definition solo_world : World := mkWorld false true ∅ (fun _ => true) true (fun _ => true) true (UpdateSafetyRules SafeMode [])
  (fun n => mkTimestamp (10 + n) 0) [] (fun _ _ _ => None) 1 None false (fun _ => true).

Lemma solo_commit_exact_witness :
  exists c' e', flushTx solo_world tx_context tx_node = (c', e', None)
    /\ (forall k, frontier_of e' k = committed_frontier (c_keys tx_context) (1, 2) tx_node k).
Proof.
  assert (E : (flushTx solo_world tx_context tx_node).2 = None) by (vm_compute; reflexivity).
  assert (Hne : c_keys tx_context <> ∅) by (apply (bool_decide_eq_false_1 (c_keys tx_context = ∅)); vm_compute; reflexivity).
  assert (Hs : forall key, is_Some (c_keys tx_context !! key) -> key ∈ g_subs tx_node).
  { assert (Hm : map_Forall (fun key _ => key ∈ g_subs tx_node) (c_keys tx_context)) by (apply (bool_decide_eq_true_1 (map_Forall _ _)); vm_compute; reflexivity).
    intros key [ck Hk]. exact (Hm key ck Hk). }
  destruct (solo_commit_exact solo_world _ _ _ _ (no_error _ E) Hne eq_refl Hs) as (bind & eff & _ & _ & _ & _ & Hf & _).
  eexists _, _. split; [exact (no_error _ E)|]. exact Hf.
Defined.

(** ** Outside transactions *)

Definition two_effects : list (Effect * option (list Tip)) :=
  [(demo_effect 0 0 [] [] (demo_insert 5), None); (demo_effect 0 0 [] [] (demo_insert 6), None)].

Lemma two_ready : forall eff st, (eff, st) ∈ two_effects -> ready (e_key eff) st NewContext demo_engine.
Proof.
  intros eff st Hin. assert (e_key eff = demo_key) as ->.
  { unfold two_effects in Hin. apply elem_of_cons in Hin as [[= -> _]|Hin]; [reflexivity|]. apply list_elem_of_singleton in Hin. by injection Hin as -> _. }
  unfold ready. split_and!; [reflexivity|cbn; set_solver|cbn; set_solver|by left].
Qed.

(** The second write depends on the first, and both are still unknown to the
    index. *)
Lemma emits_chain_witness :
  exists c' e', emit_all solo_world two_effects NewContext demo_engine = (c', e', None) /\ g_index e' = g_index demo_engine
    /\ exists m, g_cache e' !! (1, 2) = Some m /\ e_deps m = [(1, 1)].
Proof.
  assert (E : (emit_all solo_world two_effects NewContext demo_engine).2 = None) by (vm_compute; reflexivity).
  destruct (emits_chain solo_world two_effects NewContext _ demo_engine _ (no_error _ E) two_ready) as (H1 & _ & H3 & _).
  - intros key n Hn. assert (Hk : (1, n) ∈ [(3, 1)] \/ (1, n) ∈ (@nil Tip)).
    { unfold tips_at, index_tips in Hn. cbn [g_index demo_engine] in Hn. destruct (decide (key = demo_key)) as [->|Hne].
      - left. exact Hn.
      - right. rewrite lookup_singleton_ne in Hn by congruence. exact Hn. }
    destruct Hk as [[=]%list_elem_of_singleton|[]%elem_of_nil].
  - cbn. lia.
  - cbn. lia.
  - eexists _, _. split; [exact (no_error _ E)|]. split; [exact H1|].
    destruct (H3 1%nat _ _ eq_refl) as (m & Hm & _ & _ & Hd & _). exists m. split; [exact Hm|].
    apply (Hd 0%nat); [lia|reflexivity|lia].
Defined.

Definition two_pending : Context := (emit_all solo_world two_effects NewContext demo_engine).1.1.



(** ** Subscribing *)

(** Peer 2 advertises the base, which the node already holds. *)
Definition fresh_engine : Engine := mkEngine 1 0 1 ∅ ∅ {[ (3, 1) := demo_base ]} ∅ ∅ ∅ ∅ None ∅ 0 0 0 [].

Definition fresh_announcement : Effect := subscription_effect 1 demo_key (mkTimestamp 10 0).

#[local] Instance fresh_codec : ProtoCodec Effect := table_codec [fresh_announcement].

Definition asking_world : World := mkWorld true true ∅ (fun _ => true) true (fun _ => true) true (UpdateSafetyRules SafeMode [])
  (fun n => mkTimestamp (10 + n) 0) [2] (fun _ _ _ => Some [mkNack demo_key None [(3, 1)] [] [] false]) 1 None false (fun _ => true).

Lemma subscription_exact_witness :
  let r := ensureSubscribedMode asking_world false demo_key fresh_engine in
  r.2 = None /\ announced asking_world demo_key fresh_engine r.1 /\ demo_key ∈ g_subs r.1.
Proof.
  intros r. assert (E : r.2 = None) by (vm_compute; reflexivity).
  destruct (subscription_exact asking_world false demo_key fresh_engine (empty_subseteq _)) as [_ H].
  rewrite decide_False in H by (apply not_elem_of_empty). fold r in H. rewrite E in H. destruct H as [H1 [H2 _]]. exact (conj E (conj H1 H2)).
Defined.
